(* ===== verification/_CoqProject ===== *)
-Q . S2P
Prelude.v
Queue.v
SpscRing.v
SharedRing.v
Grid.v
SharedRegion.v
LinkedList.v
HashMap.v
LruCache.v
ControlFrame.v
ResidueFec.v
Gf256.v
GfKernels.v
GfLinear.v
Fec.v
RlcFec.v
RwLock.v
UdpSend.v
UdpReceive.v
UdpLink.v
Interleave.v
TreiberStack.v
BTree.v
SortedMap.v
BTreeNodes.v
BTreeRep.v
BTreeInsert.v
BTreeDelete.v
BTreeMap.v
BTreeRead.v
BTreeRefine.v
HolderTable.v
Epochs.v
EpochSafety.v
VersionedMap.v
VersionedSnapshot.v
Marshal.v
Deque.v
DequeRefine.v
Broadcast.v
BroadcastSafety.v
Ordering.v
MergeOrder.v
Reorder.v
SwapCell.v
SwapSafety.v
BitVec.v
Bloom.v
CountMin.v
HyperLogLog.v
