(* ===== verification/Prelude.v ===== *)
(** SubEtha: a verification library for the shared-memory structures and the
    wire codes of crates/subetha-cxc.

    * The program

    SubEtha is a Rust workspace for inter-process communication. Processes map
    the same memory region and operate on structures laid out in it without a
    server: rings (single producer and single consumer; many producers and many
    consumers; grids of rings; one producer and readers that each see all of
    it), a lock-free stack, a work-stealing deque, a typed arena, and on the arena a
    doubly-linked list, a hash map and an LRU cache, an ordered map and a
    versioned one with pins on its epochs, bit vectors and sketches (filters,
    frequency and distinct counts), next to locks and counters. Traffic
    between hosts is carried by bridges that protect it with erasure codes and
    exchange control datagrams. Values of fixed width enter the slots through a
    marshalling trait of the core crate, and what threads of one process share
    and replace is kept in its swapped references. Foreign-function crates expose all of
    this.

    How the parts modelled here use each other: the grids ([mpsc_ring.rs],
    [mpmc_ring.rs]) are made of SPSC rings; the linked list keeps its nodes in
    the arena; the LRU cache joins the hash map and the linked list; the
    versioned map keeps stamped values in the ordered map and asks the epochs,
    two tables of slots and a counter, what it may drop; the slots of the deque
    hold marshalled values; a Bloom filter keeps its bits in the bit vector; the
    consumer of a stamped grid merges its rings by stamp and corrects what is late
    in a buffer; the Reed-Solomon and the sliding-window code share the GF(256) field and its
    vector kernels; the reliable datagram transport seals items into blocks of
    the Reed-Solomon code, sends them through the interleaver, and asks for
    what is still missing.

    * The files

    All sources are under src/crates/subetha-cxc/src/, but for marshal.rs and
    swap_cell.rs, which are under src/crates/subetha-core/src/.

    - [Prelude]: this header; [res] for Rust's [Result] with panics, machine
      words ([wrap], [u32], [u64], [i64]), traces of labelled transition systems
      and forward simulation, list lemmas, hint databases and tactics.
    - [Queue]: the bounded FIFO contract, as a transition system and as the
      classes [BoundedFifo] and [BoundedFifoLaws] the grids rely on.
    - [SpscRing]: spsc_ring.rs ([SpscRingCore]): layout, constructors, calls,
      and the calls cut into atomic accesses.
    - [SharedRing]: shared_ring.rs ([SharedRing]): Vyukov's ring, its fast
      paths, and the healing of a slot whose producer died.
    - [Grid]: mpsc_ring.rs and mpmc_ring.rs: rings per producer, round-robin
      draining, partition among consumers, carving of lanes from one region.
    - [SharedRegion]: shared_region.rs: allocate, free, read, write, bump and
      free list.
    - [LinkedList]: shared_linked_list.rs on [SharedRegion].
    - [HashMap]: shared_hash_map.rs: probing, tombstones, compaction, the
      SeqLock protocol of a slot.
    - [LruCache]: shared_lru_cache.rs against the classes [CacheMap] and
      [CacheList], which [HashMap] and [LinkedList] discharge.
    - [ControlFrame]: control_frame.rs: the control datagram codec.
    - [ResidueFec]: residue_fec.rs: residue code with Barrett reduction and
      Garner reconstruction, and its striping over packets.
    - [Gf256], [GfKernels], [GfLinear], [Fec]: fec.rs: the field and its tables,
      every scalar and vector kernel with the dispatch, linear algebra, and the
      Cauchy Reed-Solomon code.
    - [RlcFec]: rlc_fec.rs: encoder and decoder of the sliding-window code.
    - [RwLock]: shared_rw_lock.rs: the packed lock word and its calls.
    - [UdpSend], [UdpReceive], [UdpLink]: reliable_udp.rs with tower.rs: the
      datagram format and the encoder, the decoder, and the two ends joined by
      a link that loses, repeats and reorders.
    - [TreiberStack]: shared_treiber_stack.rs: the stack, its free list of slots,
      and its calls an access at a time.
    - [Interleave]: interleave.rs, and bursts against the Reed-Solomon code.
    - [BTree]: shared_btree_map.rs: the ordered map, a B-tree over an array of
      nodes with a free list. [SortedMap] is the contract, a sorted association
      list; [BTreeNodes] the node arrays and the search in a node; [BTreeRep]
      the relation between a subtree and its pairs, and the allocator;
      [BTreeInsert] and [BTreeDelete] the two descents; [BTreeMap] the state
      between calls; [BTreeRead] the readers; [BTreeRefine] the refinement.
    - [HolderTable]: holder_table.rs: slots processes claim and leave.
      [Epochs]: shared_epochs.rs on two of them: the counter, pins and tickets,
      as calls and as accesses. [EpochSafety]: their interleavings.
    - [VersionedMap]: versioned_btree_map.rs on [BTree] and [Epochs];
      [VersionedSnapshot]: what pins and readers see of its calls.
    - [Marshal]: marshal.rs: the trait, as the classes [Marshal] and
      [MarshalLaws], and its instances for integers, booleans, arrays and pairs.
    - [Deque]: shared_deque.rs: the calls of the owner and the thieves, an access
      at a time, over any type with the marshalling laws. [DequeRefine]: their
      interleavings.
    - [Broadcast]: shared_broadcast_ring.rs: registration, publication and
      reception, an access at a time. [BroadcastSafety]: their interleavings.
    - [Ordering]: ordering.rs and the stamped send and merging receive of
      adaptive_ring.rs: the region of stamps and watermarks, pushes, pops,
      claims of the drainer's lease and the receive that makes both, an access at a
      time, over rings that are the
      contract of [Queue]. [MergeOrder]: the order of delivery under any
      interleaving. [Reorder]: reorder.rs: the reordering buffer, its receivers,
      and the path from the pushes to what a receiver delivers.
    - [SwapCell]: swap_cell.rs: reads, writes and the payment of debts, an access
      at a time, over a heap of counted allocations. [SwapSafety]: their
      interleavings.
    - [BitVec]: shared_bit_vec.rs: words of bits, single bits, ranges, counts.
      [Bloom]: shared_bloom_filter.rs and shared_blocked_bloom_filter.rs, through
      the class [MembershipFilter]. [CountMin]: shared_count_min_sketch.rs, through
      the class [CounterSketch]. [HyperLogLog]: the registers of
      shared_hyper_log_log.rs.

    A structure's state is a record of the mapped header and slots, under the
    field names of the source; an operation is a function of the state under
    the name of the Rust function, returning the new state and a [res]. Where
    the code is concurrent ([SpscRing], [SharedRing], [RwLock], [TreiberStack], [Epochs],
    [Deque], [Broadcast], [Ordering], [SwapCell], [Bloom], [CountMin]) a second
    definition cuts a call into its atomic accesses and an inductive step
    relation interleaves the threads. Atomics are sequentially consistent in
    those relations; the data-race theorems show that the plain copies of
    payloads never overlap, which is what the acquire and release orderings of
    the source provide.

    * What the theorems show

    - Rings. Interleaved SPSC calls simulate a bounded FIFO, the MPMC ring
      hands every claimed position out once with the payload it was claimed for,
      or, when its producer died before publishing and it was healed, with the
      bytes the slot held; refusals are true; payload copies do not race; calls
      one at a time return what the FIFO returns, across counter wrap-around.
      Grids keep every producer's order, lose nothing and starve no one.
    - Arena, list, map, cache. Each refines its abstract object (heap,
      sequence of pairs, finite map, recency list) under any sequence of calls,
      with termination of the probes and walks, and errors exactly where the
      contract has them.
    - Codecs and codes. Control packets survive encoding, decoding accepts any
      bytes, and padding keeps the packet. Any [k] of [k + r] residues or
      shards recover the data byte for byte; every kernel is the field
      operation it stands for; the sliding-window decoder never produces a
      symbol that was not sent, and recovers exactly what its repairs determine.
    - Transport. Whatever the link does, the items delivered are a prefix of
      the items sent; answered requests for retransmission deliver all of them;
      interleaved blocks survive bursts of [depth * r] losses.
    - Lock. Mutual exclusion, writer priority and exact counts under any
      interleaving, and calls that run alone return.
    - Ordered map. Any calls on a fresh map return what the sorted list returns,
      the tree stays balanced and shallow, and insertions are not refused before
      a number of pairs the capacity determines, less the nodes earlier refusals
      have lost.
    - Stack. Interleaved pushes and pops simulate one stack, slots are never
      shared, and a call that runs alone returns what the stack says.
    - Epochs and versions. While no process dies, no horizon passes a pin that is
      held, and a pin stays below the open tickets. A pin of the versioned map
      sees the same values whatever calls follow, but for the keys written over,
      and each call does to the current values what it reports, removals and
      voids included, and refuses only where the tree does or the key was reborn
      under a pin.
    - Marshalling, deque, broadcast. What is written is what is read, and
      reading refuses exactly what is short or not an encoding. Any interleaving
      of the owner and the thieves is a run of one double-ended queue, as long as
      the owner pushes what decodes; no call is ever without a next step. Every
      consumer of a topic receives the messages published since it registered, in
      order and untorn, as many bytes of each as its buffer takes, and is told the
      topic is empty only when it has all; a push is refused only on a cursor it
      met too far behind.
    - Merging and reordering. With stamps from the shared counter and one drainer,
      an item is overtaken by at most one larger stamp when rings are merged, in
      both modes; the steps of a pop alone, no other thread moving, end it with the
      least stamp; a buffer whose window covers the
      lateness of its input delivers the stable sort of it; and so the receiver
      over the merged rings delivers the global order whatever the interleaving.
    - Swapped references. Whatever threads do, and though addresses are used
      again, no access touches freed memory, guards keep their values, and at rest
      the counts are exact.
    - Bit vectors and sketches. The bit vector is an array of booleans under any
      calls, and its ranges write every bit once. Whatever the interleaving, a
      filter has no false negatives; an estimate of the count-min sketch lies
      between what was inserted before it and what shares its cells, and a counter
      is what was added to it since it was last zeroed; the registers of the
      distinct counter depend on the set of items only.
    - Some theorems establish behaviour that differs from what a comment of the
      source says, or that a caller must avoid: capacities of rings and deques and
      sketch shapes whose file size wraps, a cache that never reports full, a list
      created twice, stale handles, a value visible after [clear], empty shards, an incomplete emptiness test, a tower segment
      recovered as the wrong block, datagrams that panic the receiver, a [peek]
      that returns a value never pushed, a [get] of the ordered map that never
      returns once a writer has overtaken it, a slot given to two processes after
      a third has died, a removal that is lost on a full map, a theft torn
      between two items after a pop that could not decode, a topic called full
      with no consumer behind, a strict merge that delivers two items in the
      wrong order, a drainer's lease granted twice and the panic of the second
      drainer, a read that
      returns the value of another cell.

    * Bounds and fuel

    Words keep the width of the source and wrap as a release build does; a
    debug assertion is absent. Loops that are not structural take fuel or an
    oracle, and the theorems give enough of it: a probe of the hash map has
    the capacity of the table as fuel, since it visits each slot once; the
    control decoder has the bytes left, since a frame takes at least one; list
    walks have the arena's capacity; a retry loop over weak exchanges takes the
    list of their outcomes and is shown to end once one succeeds. In [HashMap]
    and [LruCache] the result [None] is a call that never returns, and the
    theorems show [Some]. Ring capacities are powers of two and [2^63] positions
    at most are outstanding; the lock is for fewer than [2^31] threads, which
    is what its 31-bit field of waiting writers can count; the transport is for
    fewer than [2^31] blocks, the ids above being those of the tower; the stack
    is for runs in which no head word is exchanged [2^32] times while a thread
    is between loading and exchanging it, the range of its counter, and for
    capacity and threads together below [2^32], so that failed bumps cannot
    wrap the cursor; the ordered map is for capacities below [2^32 - 1], the
    range of its node indices, and its descents have one more than the nodes
    ever used as fuel, since a path passes through no node twice; the epochs are
    for fewer than [2^63] accesses and the versioned map for fewer than [2^62]
    calls, below the stamp of an entry that is current; a sweep has one more than
    the entries as fuel, since an iteration goes past a key; the deque is for
    numbers of items pushed below [2^62], the range of its signed counters, and a
    size that fits in a word, and the broadcast ring and the merge for fewer than [2^63] accesses;
    the counts given to a count-min sketch, whose size fits in a word, add up to
    less than [2^64]. The
    delivery loop of the receiver has twice the blocks it holds or can rebuild
    as fuel, since an iteration delivers or rebuilds one.

    * Not modelled

    - The self-changing ring, but for its merging receive with a fixed shape and
      fixed producers, and its policies, the link sensors and congestion
      control: floating-point estimators driven by clocks.
    - Parking, wake-ups, executors and reactors: their behaviour is that of
      operating-system waits.
    - Sockets, TLS and QUIC, mapped files, large pages, process and thread
      control. Of a mapping the models keep length, alignment and contents.
    - Type-erased copies of the structures and the C, Python and PowerShell
      bindings.
    - Hardware memory models: see above.
    - Observation rings and flushing, which do not affect the structures.
    - Readers of the ordered map in the middle of a writer's call. A [get]
      between two of its steps is modelled, where its failure to return is shown.
    - The passing of a thread's read slots to another thread when it ends.
    - The sizing and the estimates of filters and sketches that compute in floating
      point.
    - The calls of the versioned map interleaved with each other; they are run
      one at a time.

    The remaining shared structures (variants of the deque, counters, barriers), the
    tower under whole segments only, and the handshake of the core crate are
    the next parts to add. *)
From stdpp Require Export prelude.

Open Scope Z_scope.

(** * Outcomes of fallible code

    A Rust [Result] with the third possibility that the call does not return:
    an [assert!], an index out of range or an explicit [panic!]. *)
Inductive res (E A : Type) : Type :=
| Ok (a : A)
| Err (e : E)
| Panic.
Arguments Ok {E A} a.
Arguments Err {E A} e.
Arguments Panic {E A}.

#[export] Instance res_eq_dec {E A} `{EqDecision E, EqDecision A} :
  EqDecision (res E A).
Proof. intros ??; unfold Decision; repeat decide equality; by apply decide. Defined.

#[export] Instance res_ret {E} : MRet (res E) := λ A a, Ok a.
#[export] Instance res_bind {E} : MBind (res E) := λ A B k m,
  match m with Ok a => k a | Err e => Err e | Panic => Panic end.
#[export] Instance res_fmap {E} : FMap (res E) := λ A B f m,
  match m with Ok a => Ok (f a) | Err e => Err e | Panic => Panic end.

(** Rust's [assert!]: the call goes on only when the condition holds. *)
Definition assert_ {E} (b : bool) : res E unit := if b then Ok tt else Panic.

Definition is_ok {E A} (r : res E A) : bool :=
  match r with Ok _ => true | _ => false end.

Lemma bind_ok {E A B} (k : A → res E B) (m : res E A) b :
  m ≫= k = Ok b ↔ ∃ a, m = Ok a ∧ k a = Ok b.
Proof. destruct m; cbn; naive_solver. Qed.

Lemma assert_ok {E} (b : bool) : @assert_ E b = Ok tt ↔ b = true.
Proof. by destruct b. Qed.

(** * Machine words *)

Definition wrap (w : Z) (x : Z) : Z := x mod 2 ^ w.
Abbreviation u8 := (wrap 8).
Abbreviation u16 := (wrap 16).
Abbreviation u32 := (wrap 32).
Abbreviation u64 := (wrap 64).

(** [x as i64] for a 64-bit word [x], and the wrapping subtraction of two
    [i64]s. *)
Definition to_i64 (x : Z) : Z := if x <? 2 ^ 63 then x else x - 2 ^ 64.
Definition i64_sub (a b : Z) : Z := to_i64 (u64 (a - b)).

Lemma wrap_small w x : 0 ≤ x < 2 ^ w → wrap w x = x.
Proof. apply Z.mod_small. Qed.

Lemma wrap_bound w x : 0 ≤ w → 0 ≤ wrap w x < 2 ^ w.
Proof. intros. apply Z.mod_pos_bound. lia. Qed.

Lemma wrap_wrap w x : 0 ≤ w → wrap w (wrap w x) = wrap w x.
Proof. intros. apply wrap_small, wrap_bound. done. Qed.

Lemma wrap_sub_wrap w x y : wrap w (wrap w x - wrap w y) = wrap w (x - y).
Proof. unfold wrap. symmetry. apply Zminus_mod. Qed.

Lemma to_i64_small x : 0 ≤ x < 2 ^ 63 → to_i64 x = x.
Proof. unfold to_i64. intros. destruct (Z.ltb_spec x (2 ^ 63)); lia. Qed.

(** The signed difference of two counters below [2^63] is their difference. *)
Lemma i64_sub_small a b :
  0 ≤ a < 2 ^ 63 → 0 ≤ b < 2 ^ 63 → i64_sub (to_i64 a) (to_i64 b) = a - b.
Proof.
  intros Ha Hb. rewrite !to_i64_small by done. unfold i64_sub, to_i64, wrap.
  destruct (decide (b ≤ a)).
  - rewrite Z.mod_small by lia. destruct (Z.ltb_spec (a - b) (2 ^ 63)); lia.
  - rewrite <- (Z.mod_add (a - b) 1), Z.mod_small by lia.
    destruct (Z.ltb_spec (a - b + 1 * 2 ^ 64) (2 ^ 63)); lia.
Qed.

(** [count_ones] of the low [n] bits, and [is_power_of_two]. *)
Fixpoint count_ones (n : nat) (x : Z) : nat :=
  match n with
  | O => 0
  | S m => (if Z.odd x then 1 else 0) + count_ones m (Z.div2 x)
  end.

Definition is_power_of_two (n : Z) : bool := bool_decide (count_ones 64 n = 1%nat).

Lemma half_bound n x : 0 ≤ x < 2 ^ Z.of_nat (S n) → 0 ≤ Z.div2 x < 2 ^ Z.of_nat n.
Proof.
  rewrite Nat2Z.inj_succ, Z.pow_succ_r by lia. pose proof (Z.div2_odd x).
  destruct (Z.odd x); cbn [Z.b2z] in *; lia.
Qed.

Lemma count_ones_0 n x :
  0 ≤ x < 2 ^ Z.of_nat n → count_ones n x = 0%nat → x = 0.
Proof.
  revert x. induction n as [|n IH]; intros x Hx; cbn [count_ones].
  - cbn in Hx. lia.
  - pose proof (half_bound _ _ Hx) as Hh. pose proof (Z.div2_odd x) as Ex.
    destruct (Z.odd x); cbn [Z.b2z] in Ex; [done|]. intros Ec.
    rewrite (IH _ Hh Ec) in Ex. lia.
Qed.

Lemma count_ones_1 n x :
  0 ≤ x < 2 ^ Z.of_nat n → count_ones n x = 1%nat →
  ∃ k, 0 ≤ k < Z.of_nat n ∧ x = 2 ^ k.
Proof.
  revert x. induction n as [|n IH]; intros x Hx; cbn [count_ones]; [done|].
  pose proof (half_bound _ _ Hx) as Hh. pose proof (Z.div2_odd x) as Ex.
  destruct (Z.odd x) eqn:Eo; cbn [Z.b2z] in Ex.
  - intros [=Ec]. exists 0. apply count_ones_0 in Ec; lia.
  - intros Ec. destruct (IH _ Hh Ec) as (k & Hk & E2). exists (k + 1).
    rewrite Z.pow_add_r by lia. lia.
Qed.

Lemma is_power_of_two_spec n :
  0 ≤ n < 2 ^ 64 → is_power_of_two n = true → ∃ k, 0 ≤ k < 64 ∧ n = 2 ^ k.
Proof. intros Hn ?%bool_decide_eq_true. by apply (count_ones_1 64). Qed.

(** Masking by a power of two less one is reduction modulo that power. *)
Lemma land_mask_mod x k : 0 ≤ k → Z.land x (2 ^ k - 1) = x mod 2 ^ k.
Proof. intros. by rewrite <- Z.land_ones, Z.ones_equiv, Z.sub_1_r. Qed.

(** Two's-complement comparison of counters that have wrapped: the signed
    difference of the stored words is the difference of the counters they
    stand for, as long as that difference fits an [i64]. *)
Lemma i64_sub_wrap a b :
  - 2 ^ 63 ≤ a - b < 2 ^ 63 →
  i64_sub (to_i64 (u64 a)) (to_i64 (u64 b)) = a - b.
Proof.
  intros H. assert (∀ x, u64 (to_i64 (u64 x)) = u64 x) as Hi.
  { intros x. unfold to_i64. destruct (_ <? _); [by apply wrap_wrap|].
    unfold wrap. by rewrite <- (Z.mod_add (_ - _) 1), Z.sub_add, Z.mod_mod by lia. }
  assert (u64 (to_i64 (u64 a) - to_i64 (u64 b)) = u64 (a - b)) as E.
  { rewrite <- wrap_sub_wrap, !Hi. apply wrap_sub_wrap. }
  unfold i64_sub. rewrite E. unfold to_i64, wrap. destruct (decide (b ≤ a)).
  - rewrite Z.mod_small by lia. destruct (Z.ltb_spec (a - b) (2 ^ 63)); lia.
  - rewrite <- (Z.mod_add (a - b) 1), Z.mod_small by lia.
    destruct (Z.ltb_spec (a - b + 1 * 2 ^ 64) (2 ^ 63)); lia.
Qed.

(** A capacity that is a power of two divides the word size, so masking a
    wrapped counter is masking the counter. *)
Lemma wrap_mod_pow2 w k x : 0 ≤ k ≤ w → wrap w x mod 2 ^ k = x mod 2 ^ k.
Proof.
  intros. unfold wrap. replace w with (k + (w - k)) by lia.
  rewrite Z.pow_add_r, Z.rem_mul_r by lia.
  rewrite Z.mul_comm, Z.mod_add by lia. apply Z.mod_mod. lia.
Qed.

Lemma wrap_inj w a b : 0 ≤ w → - 2 ^ w < a - b < 2 ^ w → wrap w a = wrap w b → a = b.
Proof.
  unfold wrap. intros Hw Hab E.
  pose proof (Z.div_mod a (2 ^ w) ltac:(lia)). pose proof (Z.div_mod b (2 ^ w) ltac:(lia)).
  assert (a - b = 2 ^ w * (a / 2 ^ w - b / 2 ^ w)) as Ed by lia.
  destruct (decide (a / 2 ^ w = b / 2 ^ w)) as [Eq|]; [rewrite Eq in Ed; lia|]. nia.
Qed.

(** Indices that agree modulo the capacity and lie less than a capacity apart
    are equal. *)
Lemma mod_window_inj n a b : 0 < n → - n < a - b < n → a mod n = b mod n → a = b.
Proof.
  intros Hn Hab E.
  pose proof (Z.div_mod a n ltac:(lia)). pose proof (Z.div_mod b n ltac:(lia)).
  destruct (decide (a / n = b / n)) as [Eq|]; [rewrite Eq in *; lia|]. nia.
Qed.

(** * Byte buffers *)

(** [copy_nonoverlapping] of a payload into an [n]-byte slot whose rest is
    zeroed by [write_bytes]. *)
Definition pad (n : nat) (bs : list Z) : list Z := bs ++ replicate (n - length bs) 0.

(** [out[..n].copy_from_slice(src)]: the first bytes are replaced. *)
Definition overwrite (src out : list Z) : list Z := src ++ drop (length src) out.

Lemma length_pad n bs : (length bs ≤ n)%nat → length (pad n bs) = n.
Proof. intros. unfold pad. rewrite length_app, length_replicate. lia. Qed.

Lemma take_overwrite src out : take (length src) (overwrite src out) = src.
Proof. apply take_app_length. Qed.

Lemma length_overwrite src out :
  (length src ≤ length out)%nat → length (overwrite src out) = length out.
Proof. intros. unfold overwrite. rewrite length_app, length_drop. lia. Qed.

(** ** Bits and big-endian integers *)

(** Or-ing disjoint bits is adding. *)
Lemma lor_shiftl_add b k a : 0 ≤ k → 0 ≤ a < 2 ^ k → Z.lor (Z.shiftl b k) a = b * 2 ^ k + a.
Proof.
  intros Hk Ha. rewrite <- Z.shiftl_mul_pow2 by done. symmetry. apply Z.add_nocarry_lor.
  apply Z.bits_inj'. intros n Hn. rewrite Z.land_spec, Z.bits_0.
  destruct (Z.lt_ge_cases n k).
  - by rewrite Z.shiftl_spec_low.
  - destruct (decide (a = 0)) as [->|]; [by rewrite Z.bits_0, Bool.andb_false_r|].
    rewrite (Z.bits_above_log2 a n), Bool.andb_false_r; [done|lia|]. apply Z.log2_lt_pow2; [lia|].
    eapply Z.lt_le_trans; [apply Ha|]. apply Z.pow_le_mono_r; lia.
Qed.

(** [v.to_be_bytes()], the [n] low bytes. *)
Fixpoint be_bytes (n : nat) (v : Z) : list Z :=
  match n with O => [] | S n => be_bytes n (Z.shiftr v 8) ++ [u8 v] end.

Lemma length_be_bytes n v : length (be_bytes n v) = n.
Proof. revert v. induction n as [|n IH]; intros v; [done|]. cbn. rewrite length_app, IH. cbn. lia. Qed.

Lemma be_bytes_range n v : Forall (λ b, 0 ≤ b < 256) (be_bytes n v).
Proof.
  revert v. induction n as [|n IH]; intros v; [constructor|]. cbn. apply Forall_app. split; [done|].
  constructor; [|done]. by apply (wrap_bound 8).
Qed.

(** Reading them back most significant byte first, in a 64-bit accumulator that
    they do not overflow. *)
Definition be_acc (acc b : Z) : Z := Z.lor (u64 (Z.shiftl acc 8)) b.

Lemma be_bytes_fold n v acc :
  0 ≤ acc → (acc + 1) * 2 ^ (8 * Z.of_nat n) ≤ 2 ^ 64 →
  fold_left be_acc (be_bytes n v) acc = acc * 2 ^ (8 * Z.of_nat n) + v mod 2 ^ (8 * Z.of_nat n).
Proof.
  revert v. induction n as [|n IH]; intros v Ha Hb.
  { change (8 * Z.of_nat 0) with 0. rewrite Z.pow_0_r, Z.mod_1_r. cbn [fold_left be_bytes]. lia. }
  replace (8 * Z.of_nat (S n)) with (8 * Z.of_nat n + 8) in * by lia.
  rewrite Z.pow_add_r in * by lia. pose proof (Z.pow_pos_nonneg 2 (8 * Z.of_nat n) ltac:(lia) ltac:(lia)).
  cbn [be_bytes]. rewrite fold_left_app, IH by nia. cbn [fold_left]. unfold be_acc.
  set (q := acc * 2 ^ (8 * Z.of_nat n) + Z.shiftr v 8 mod 2 ^ (8 * Z.of_nat n)).
  pose proof (Z.mod_pos_bound (Z.shiftr v 8) (2 ^ (8 * Z.of_nat n)) ltac:(lia)) as Hm.
  assert (0 ≤ q ∧ (q + 1) * 2 ^ 8 ≤ 2 ^ 64) as [Hq1 Hq2] by (unfold q; nia).
  rewrite (wrap_small 64), lor_shiftl_add; [|lia|by apply (wrap_bound 8)|rewrite Z.shiftl_mul_pow2; lia].
  unfold q. rewrite Z.shiftr_div_pow2 by lia. unfold wrap.
  rewrite (Z.mul_comm (2 ^ (8 * Z.of_nat n)) (2 ^ 8)), Z.rem_mul_r by lia. lia.
Qed.

(** ** Notations and databases

    [word_scope] writes the bit operations the way the source does; [lens]
    holds the lengths of the list operations, [words] the ranges of machine
    words. *)
Declare Scope word_scope.
Delimit Scope word_scope with word.
Infix "⊕" := Z.lxor (at level 50, left associativity) : word_scope.
Notation "x '>>' k" := (Z.shiftr x k) (at level 30, no associativity) : word_scope.
Notation "x '<<' k" := (Z.shiftl x k) (at level 30, no associativity) : word_scope.

Create HintDb lens.
#[export] Hint Rewrite @length_app @length_fmap @length_insert @length_replicate @length_take
  @length_drop @length_zip_with @length_imap @length_seq @length_seqZ @length_rev
  length_be_bytes : lens.
#[export] Hint Rewrite length_pad length_overwrite using lia : lens.

(** Lengths by rewriting, then arithmetic. *)
Ltac len := repeat (progress autorewrite with lens in * || cbn [length] in * ); lia.

Create HintDb words discriminated.
#[export] Hint Resolve wrap_bound be_bytes_range : words.

(** Bytes stay bytes under exclusive or, and so do words of any width. *)
Lemma lxor_bound w a b : 0 ≤ w → 0 ≤ a < 2 ^ w → 0 ≤ b < 2 ^ w → 0 ≤ Z.lxor a b < 2 ^ w.
Proof.
  intros Hw Ha Hb. assert (0 ≤ Z.lxor a b) as H0 by (apply Z.lxor_nonneg; lia). split; [done|].
  assert (Z.lxor a b = Z.lxor a b mod 2 ^ w) as ->; [|apply Z.mod_pos_bound; lia].
  rewrite <- Z.land_ones by done. apply Z.bits_inj'. intros n Hn.
  rewrite Z.land_spec, Z.testbit_ones_nonneg, !Z.lxor_spec by done.
  destruct (Z.ltb_spec n w); [by rewrite andb_true_r|].
  assert (∀ x, 0 ≤ x < 2 ^ w → Z.testbit x n = false) as Hhi.
  { intros x Hx. rewrite <- (Z.mod_small x (2 ^ w)) by done. apply Z.mod_pow2_bits_high. lia. }
  by rewrite !Hhi.
Qed.
#[export] Hint Resolve lxor_bound : words.

(** * Transition systems *)

Section star.
Context {S : Type} (R : S → S → Prop).

(** An invariant that holds initially and is kept by every step holds in
    every reachable state. *)
Lemma rtc_invariant (I : S → Prop) s s' :
  (∀ x y, I x → R x y → I y) → I s → rtc R s s' → I s'.
Proof. intros Hstep Hs Hr. induction Hr; eauto. Qed.
End star.

(** Labelled runs: a list of events, each step emitting one. *)
Section ltrace.
Context {S L : Type} (R : S → L → S → Prop).

Inductive ltrace : S → list L → S → Prop :=
| ltrace_nil s : ltrace s [] s
| ltrace_cons s l s' ls s'' : R s l s' → ltrace s' ls s'' → ltrace s (l :: ls) s''.

Lemma ltrace_app s l1 s' l2 s'' :
  ltrace s l1 s' → ltrace s' l2 s'' → ltrace s (l1 ++ l2) s''.
Proof. induction 1; cbn; eauto using ltrace. Qed.

(** Induction along a run from its start. *)
Lemma ltrace_rev_ind s (Φ : list L → S → Prop) :
  Φ [] s →
  (∀ tr s1 l s2, ltrace s tr s1 → Φ tr s1 → R s1 l s2 → Φ (tr ++ [l]) s2) →
  ∀ tr s', ltrace s tr s' → Φ tr s'.
Proof.
  intros H0 HS tr s' Ht.
  enough (∀ pre s1, ltrace s pre s1 → Φ pre s1 → ltrace s1 tr s' → Φ (pre ++ tr) s') as H.
  { apply (H [] s); [constructor|done..]. }
  clear Ht. induction tr as [|l tr IH]; intros pre s1 Hp HΦ Ht; inversion Ht; subst.
  - by rewrite app_nil_r.
  - rewrite cons_middle, (assoc (++)). eapply IH; [|by eapply HS|done].
    eapply ltrace_app; [done|]. eauto using ltrace.
Qed.

(** A state invariant holds along every run. *)
Lemma ltrace_inv (P : S → Prop) s tr s' :
  (∀ s1 l s2, P s1 → R s1 l s2 → P s2) → P s → ltrace s tr s' → P s'.
Proof. intros HR Hs Ht. induction Ht; eauto. Qed.
End ltrace.

(** * Counting *)

Section count.
Context {A : Type}.

(** How many of the elements satisfy [P]. *)
Definition count (P : A → bool) (ts : list A) : Z := Z.of_nat (length (List.filter P ts)).

Lemma count_insert (P : A → bool) ts i t t' :
  ts !! i = Some t → count P (<[i := t']> ts) = count P ts - Z.b2z (P t) + Z.b2z (P t').
Proof.
  unfold count. intros Hi. apply list_elem_of_split_length in Hi as (l1 & l2 & -> & ->).
  rewrite insert_app_r_alt, Nat.sub_diag by lia. cbn [insert list_insert].
  rewrite !List.filter_app, !length_app. cbn [List.filter].
  destruct (P t), (P t'); cbn [length Z.b2z]; lia.
Qed.

Lemma count_pos (P : A → bool) ts i t : ts !! i = Some t → P t = true → 0 < count P ts.
Proof.
  intros Hi Ht. unfold count. assert (t ∈ List.filter P ts) as Hin.
  { apply list_elem_of_In, filter_In. split; [|done]. by apply list_elem_of_In, (list_elem_of_lookup_2 ts i). }
  destruct (List.filter P ts); [by apply not_elem_of_nil in Hin|cbn; lia].
Qed.

Lemma count_bound (P : A → bool) ts : 0 ≤ count P ts ≤ Z.of_nat (length ts).
Proof.
  unfold count. pose proof (List.filter_length_le P ts). lia.
Qed.
End count.

Section simulation.
Context {C L A : Type}.
Context (cstep : C → L → C → Prop) (astep : A → L → A → Prop).
Context (rel : C → A → Prop).
Hypothesis sim : ∀ c l c' a, rel c a → cstep c l c' → ∃ a', astep a l a' ∧ rel c' a'.

(** A step-by-step simulation lifts to runs: every trace of the concrete
    system is a trace of the abstract one. *)
Lemma simulation_trace c ls c' a :
  rel c a → ltrace cstep c ls c' → ∃ a', ltrace astep a ls a' ∧ rel c' a'.
Proof.
  intros Hr Ht. revert a Hr. induction Ht as [c|c l c1 ls c2 Hc _ IH]; intros a Hr.
  - exists a. eauto using ltrace.
  - destruct (sim _ _ _ _ Hr Hc) as (a1 & Ha & Hr1).
    destruct (IH _ Hr1) as (a2 & Ht2 & Hr2). exists a2. eauto using ltrace.
Qed.
End simulation.

(** * Automation *)

(** Turn every boolean comparison in the context and the goal into the
    proposition it decides. *)
Ltac bool_to_prop :=
  repeat match goal with
  | H : bool_decide _ = true |- _ => apply bool_decide_eq_true in H
  | H : bool_decide _ = false |- _ => apply bool_decide_eq_false in H
  | H : (_ =? _) = true |- _ => apply Z.eqb_eq in H
  | H : (_ =? _) = false |- _ => apply Z.eqb_neq in H
  | H : (_ <? _) = true |- _ => apply Z.ltb_lt in H
  | H : (_ <? _) = false |- _ => apply Z.ltb_ge in H
  | H : (_ <=? _) = true |- _ => apply Z.leb_le in H
  | H : (_ <=? _) = false |- _ => apply Z.leb_gt in H
  | H : _ && _ = true |- _ => apply andb_true_iff in H as [? ?]
  | H : _ || _ = false |- _ => apply orb_false_iff in H as [? ?]
  | H : negb _ = true |- _ => apply negb_true_iff in H
  | H : negb _ = false |- _ => apply negb_false_iff in H
  end.

(** Membership in lists put together. *)
Ltac mem := repeat (progress (rewrite ?elem_of_app, ?elem_of_cons)); tauto.

(** Case analysis on the condition of an [if] or the scrutinee of a [match]
    in the goal, as propositions. *)
Ltac case_cond :=
  match goal with
  | |- context [if ?b then _ else _] =>
      lazymatch type of b with bool => destruct b eqn:? | _ => destruct b end
  end; bool_to_prop.
