(* ===== verification/Queue.v ===== *)
(** The contract every ring of SubEtha promises its callers: a bounded FIFO of
    fixed-width payloads.

    - [RingError] is the error type shared by the rings.
    - [fifo_step] is the contract as a labelled transition system, the target
      of the simulation theorems for the concurrent rings.
    - [spec_push] and [spec_pop] are the contract as functions, and the classes
      [BoundedFifo] and [BoundedFifoLaws] state what a ring implementation
      promises, so that clients (the sharded MPSC and MPMC rings) are verified
      against the interface and not against one ring. *)
From S2P Require Import Prelude.

(** [RingError]; the payload of [IoError] is the [std::io::ErrorKind]
    discriminant. *)
Inductive RingError :=
| Full
| Empty
| LayoutMismatch
| PayloadTooLarge
| NotStamped
| NotDrainer
| StaleBacklog
| IoError (kind : Z).

#[export] Instance RingError_eq_dec : EqDecision RingError.
Proof. solve_decision. Defined.

(** The assertion every ring constructor makes of its capacity. *)
Definition capacity_ok (cap : Z) : bool := is_power_of_two cap && (2 <=? cap).

Lemma capacity_ok_spec cap :
  0 ≤ cap < 2 ^ 64 → capacity_ok cap = true → ∃ k, 1 ≤ k < 64 ∧ cap = 2 ^ k.
Proof.
  intros Hc H. unfold capacity_ok in H. bool_to_prop.
  destruct (is_power_of_two_spec cap Hc) as (k & Hk & ->); [done|].
  exists k. split; [|done]. destruct (decide (k = 0)) as [->|]; [done|lia].
Qed.

(** * The contract as a transition system *)

Inductive qevent :=
| Tau
| Enq (v : list Z)
| EnqFull
| Deq (v : list Z)
| DeqEmpty.

Inductive fifo_step (cap : nat) : list (list Z) → qevent → list (list Z) → Prop :=
| fifo_tau q : fifo_step cap q Tau q
| fifo_enq q v : (length q < cap)%nat → fifo_step cap q (Enq v) (q ++ [v])
| fifo_enq_full q : length q = cap → fifo_step cap q EnqFull q
| fifo_deq q v : fifo_step cap (v :: q) (Deq v) q
| fifo_deq_empty : fifo_step cap [] DeqEmpty [].

(** The values a run accepted and the values it delivered, in order. *)
Definition enqueued (tr : list qevent) : list (list Z) :=
  omap (λ e, match e with Enq v => Some v | _ => None end) tr.
Definition dequeued (tr : list qevent) : list (list Z) :=
  omap (λ e, match e with Deq v => Some v | _ => None end) tr.

(** First in, first out: along any run of the contract, what was delivered
    followed by what is still queued is what was queued at the start followed
    by what was accepted. *)
Lemma fifo_trace_order cap q tr q' :
  ltrace (fifo_step cap) q tr q' → q ++ enqueued tr = dequeued tr ++ q'.
Proof.
  induction 1 as [q|q e q1 tr q2 He _ IH]; cbn; [by rewrite app_nil_r|].
  unfold enqueued, dequeued in *.
  inversion He; subst; cbn; try done.
  - by rewrite cons_middle, (assoc _ q), IH.
  - by rewrite <- IH.
Qed.

Lemma fifo_trace_bound cap q tr q' :
  (length q ≤ cap)%nat → ltrace (fifo_step cap) q tr q' → (length q' ≤ cap)%nat.
Proof.
  intros Hq Ht. induction Ht as [q|q e q1 tr q2 He _ IH]; [done|].
  apply IH. inversion He; subst; rewrite ?length_app; cbn in *; lia.
Qed.

(** * The contract as functions *)

Definition spec_push (cap w : nat) (q : list (list Z)) (v : list Z) :
    list (list Z) * res RingError unit :=
  if (w <? length v)%nat then (q, Err PayloadTooLarge)
  else if (cap <=? length q)%nat then (q, Err Full)
  else (q ++ [pad w v], Ok tt).

Definition spec_pop (w : nat) (q : list (list Z)) (out : list Z) :
    list (list Z) * list Z * res RingError Z :=
  if (length out <? w)%nat then (q, out, Err PayloadTooLarge)
  else match q with
       | [] => (q, out, Err Empty)
       | v :: q' => (q', overwrite v out, Ok (Z.of_nat w))
       end.

(** * The interface *)

Class BoundedFifo (R : Type) := {
  fifo_inv : R → Prop;
  fifo_cap : R → nat;
  fifo_width : nat;
  fifo_contents : R → list (list Z);
  fifo_push : R → list Z → R * res RingError unit;
  fifo_pop : R → list Z → R * list Z * res RingError Z;
}.

(** A ring implements the contract when each call leaves it in a state whose
    contents, results and output buffer are those of the specification. *)
Class BoundedFifoLaws (R : Type) `{BoundedFifo R} : Prop := {
  fifo_contents_width r v :
    fifo_inv r → v ∈ fifo_contents r → length v = fifo_width;
  fifo_push_spec r v r' o :
    fifo_inv r → fifo_push r v = (r', o) →
    fifo_inv r' ∧ fifo_cap r' = fifo_cap r ∧
    (fifo_contents r', o) = spec_push (fifo_cap r) fifo_width (fifo_contents r) v;
  fifo_pop_spec r out r' out' o :
    fifo_inv r → fifo_pop r out = (r', out', o) →
    fifo_inv r' ∧ fifo_cap r' = fifo_cap r ∧
    (fifo_contents r', out', o) = spec_pop fifo_width (fifo_contents r) out;
}.

(** * Programs over the interface *)

Inductive qop := OpPush (v : list Z) | OpPop (out : list Z).
Inductive qres :=
| RPush (o : res RingError unit)
| RPop (out : list Z) (o : res RingError Z).

Section programs.
Context `{BoundedFifoLaws R}.

Fixpoint fifo_run (r : R) (ops : list qop) : R * list qres :=
  match ops with
  | [] => (r, [])
  | OpPush v :: ops =>
      let '(r1, o) := fifo_push r v in
      let '(r2, os) := fifo_run r1 ops in (r2, RPush o :: os)
  | OpPop out :: ops =>
      let '(r1, out', o) := fifo_pop r out in
      let '(r2, os) := fifo_run r1 ops in (r2, RPop out' o :: os)
  end.
End programs.

Fixpoint spec_run (cap w : nat) (q : list (list Z)) (ops : list qop) :
    list (list Z) * list qres :=
  match ops with
  | [] => (q, [])
  | OpPush v :: ops =>
      let '(q1, o) := spec_push cap w q v in
      let '(q2, os) := spec_run cap w q1 ops in (q2, RPush o :: os)
  | OpPop out :: ops =>
      let '(q1, out', o) := spec_pop w q out in
      let '(q2, os) := spec_run cap w q1 ops in (q2, RPop out' o :: os)
  end.

(** Any sequence of calls on an implementation is indistinguishable from the
    same calls on the specification. *)
Lemma fifo_run_refines `{BoundedFifoLaws R} (r : R) ops r' os :
  fifo_inv r → fifo_run r ops = (r', os) →
  fifo_inv r' ∧
  spec_run (fifo_cap r) fifo_width (fifo_contents r) ops = (fifo_contents r', os).
Proof.
  revert r r' os. induction ops as [|[v|out] ops IH]; intros r r' os Hi Hr; cbn in Hr.
  - by simplify_eq.
  - destruct (fifo_push r v) as [r1 o] eqn:E1, (fifo_run r1 ops) as [r2 os'] eqn:E2.
    simplify_eq. destruct (fifo_push_spec _ _ _ _ Hi E1) as (Hi1 & Hc1 & Hs).
    destruct (IH _ _ _ Hi1 E2) as [Hi2 Hr2]. split; [done|].
    cbn. rewrite <- Hs, <- Hc1. by rewrite Hr2.
  - destruct (fifo_pop r out) as [[r1 out'] o] eqn:E1, (fifo_run r1 ops) as [r2 os'] eqn:E2.
    simplify_eq. destruct (fifo_pop_spec _ _ _ _ _ Hi E1) as (Hi1 & Hc1 & Hs).
    destruct (IH _ _ _ Hi1 E2) as [Hi2 Hr2]. split; [done|].
    cbn. rewrite <- Hs, <- Hc1. by rewrite Hr2.
Qed.

(** What every call keeps, every program keeps. *)
Lemma fifo_run_preserves `{BoundedFifo R} (P : R → Prop) ops r r' os :
  (∀ r v, P r → P (fifo_push r v).1) → (∀ r out, P r → P (fifo_pop r out).1.1) →
  P r → fifo_run r ops = (r', os) → P r'.
Proof.
  intros Hpush Hpop. revert r r' os.
  induction ops as [|[v|out] ops IH]; intros r r' os Hr Hrun; cbn in Hrun; [by simplify_eq|..].
  - specialize (Hpush r v Hr). destruct (fifo_push r v) as [r1 o], (fifo_run r1 ops) eqn:E.
    simplify_eq. exact (IH _ _ _ Hpush E).
  - specialize (Hpop r out Hr). destruct (fifo_pop r out) as [[r1 out'] o], (fifo_run r1 ops) eqn:E.
    simplify_eq. exact (IH _ _ _ Hpop E).
Qed.
