(* ===== verification/SpscRing.v ===== *)
(** [SpscRingCore], the Lamport single-producer single-consumer ring of
    [crates/subetha-cxc/src/spsc_ring.rs].

    The mapped region is a header (magic, capacity, slot size, head, tail) and
    an array of 64-byte payload slots; a handle adds the capacity it was opened
    with.  [try_push], [try_pop], [peek_slot], [confirm] and the constructors are
    translated as state-passing functions at the width of the Rust types (a
    release build: [u64] arithmetic wraps).  [push_step] and [pop_step] cut the
    two hot calls into their atomic accesses, [sys_step] interleaves one
    producer and one consumer, and the simulation of that system by the bounded
    FIFO of [Queue] is the ring's correctness.  Atomics are sequentially
    consistent here; [spsc_data_race_free] shows the plain payload accesses
    never overlap. *)
From S2P Require Import Prelude Queue.

Definition SPSC_MAGIC : Z := 0x5350534300000001.
Definition SPSC_SLOT_SIZE : Z := 64.
Definition SPSC_PAYLOAD_BYTES : nat := Z.to_nat SPSC_SLOT_SIZE.
Definition REGION_ALIGN : Z := 64.

Record SpscHeader := MkSpscHeader {
  magic : Z;
  hdr_capacity : Z;
  hdr_slot_size : Z;
  head : Z;
  tail : Z;
}.

(** [size_of::<SpscHeader>()]: three cache lines. *)
Definition SPSC_HEADER_BYTES : Z := 192.

(** Bytes of a ring of [capacity] slots, in [usize] arithmetic. *)
Definition spsc_ring_file_size (capacity : Z) : Z :=
  u64 (SPSC_HEADER_BYTES + u64 (capacity * SPSC_SLOT_SIZE)).

(** Memory a ring can be laid out in: what [RegionOwner], [ShmFile] and a
    mapping have in common, an address, a length and the bytes, seen as a
    header and the slots that follow it. *)
Record region := MkRegion {
  region_ptr : Z;
  region_len : Z;
  region_hdr : SpscHeader;
  region_slots : list (list Z);
}.

Inductive SpscBacking := Anon | File | Shm | Region.

Record SpscRingCore := MkSpsc {
  backing : SpscBacking;
  capacity : Z;
  mem : region;
}.

Definition header (c : SpscRingCore) : SpscHeader := region_hdr (mem c).
Definition slots (c : SpscRingCore) : list (list Z) := region_slots (mem c).

Definition with_head (h : Z) (c : SpscRingCore) : SpscRingCore :=
  let m := mem c in
  let H := region_hdr m in
  MkSpsc (backing c) (capacity c)
    (MkRegion (region_ptr m) (region_len m)
       (MkSpscHeader (magic H) (hdr_capacity H) (hdr_slot_size H) h (tail H))
       (region_slots m)).

Definition with_tail (t : Z) (c : SpscRingCore) : SpscRingCore :=
  let m := mem c in
  let H := region_hdr m in
  MkSpsc (backing c) (capacity c)
    (MkRegion (region_ptr m) (region_len m)
       (MkSpscHeader (magic H) (hdr_capacity H) (hdr_slot_size H) (head H) t)
       (region_slots m)).

Definition with_slots (s : list (list Z)) (c : SpscRingCore) : SpscRingCore :=
  let m := mem c in
  MkSpsc (backing c) (capacity c)
    (MkRegion (region_ptr m) (region_len m) (region_hdr m) s).

(** * Construction *)

Definition zero_slot : list Z := replicate SPSC_PAYLOAD_BYTES 0.

(** The slots among the bytes [spsc_ring_file_size] counts. *)
Definition zeroed_slots (cap : Z) : nat :=
  Z.to_nat ((spsc_ring_file_size cap - SPSC_HEADER_BYTES) / SPSC_SLOT_SIZE).

(** Zero the ring's bytes, then capacity, slot size and, last, the magic. *)
Definition init_spsc_layout_raw (m : region) (cap : Z) : region :=
  MkRegion (region_ptr m) (region_len m)
    (MkSpscHeader SPSC_MAGIC cap SPSC_SLOT_SIZE 0 0)
    (replicate (zeroed_slots cap) zero_slot ++ drop (zeroed_slots cap) (region_slots m)).

(** The header check every opener makes. *)
Definition layout_matches (h : SpscHeader) (cap : Z) : bool :=
  (magic h =? SPSC_MAGIC) && (hdr_capacity h =? cap) &&
  (hdr_slot_size h =? SPSC_SLOT_SIZE).

(** [create_anon]: [mapped] is what the anonymous mapping of
    [spsc_ring_file_size] bytes returned. *)
Definition create_anon (mapped : res RingError region) (cap : Z) :
    res RingError SpscRingCore :=
  _ ← assert_ (capacity_ok cap);
  m ← mapped;
  mret (MkSpsc Anon cap (init_spsc_layout_raw m cap)).

(** [create]: [attached] is the region [mmf_attach::create_or_attach] handed
    back, built with [init_spsc_layout_raw] by whoever published it. *)
Definition create (attached : res RingError region) (cap : Z) :
    res RingError SpscRingCore :=
  _ ← assert_ (capacity_ok cap);
  m ← attached;
  if negb (layout_matches (region_hdr m) cap) then Err LayoutMismatch
  else mret (MkSpsc File cap m).

(** [reset]: [truncated] is the zeroed region [mmf_attach::reset] mapped. *)
Definition reset (truncated : res RingError region) (cap : Z) :
    res RingError SpscRingCore :=
  _ ← assert_ (capacity_ok cap);
  m ← truncated;
  mret (MkSpsc File cap (init_spsc_layout_raw m cap)).

(** [open]: the file's length is checked before it is mapped. *)
Definition open (opened : res RingError region) (cap : Z) :
    res RingError SpscRingCore :=
  m ← opened;
  if region_len m <? spsc_ring_file_size cap then Err LayoutMismatch
  else if negb (layout_matches (region_hdr m) cap) then Err LayoutMismatch
  else mret (MkSpsc File cap m).

Definition create_from_shm (shm : region) (cap : Z) : res RingError SpscRingCore :=
  _ ← assert_ (capacity_ok cap);
  if region_len shm <? spsc_ring_file_size cap then Err LayoutMismatch
  else mret (MkSpsc Shm cap (init_spsc_layout_raw shm cap)).

Definition open_from_shm (shm : region) (cap : Z) : res RingError SpscRingCore :=
  if region_len shm <? spsc_ring_file_size cap then Err LayoutMismatch
  else if negb (layout_matches (region_hdr shm) cap) then Err LayoutMismatch
  else mret (MkSpsc Shm cap shm).

Definition create_in_region (m : region) (cap : Z) : res RingError SpscRingCore :=
  _ ← assert_ (capacity_ok cap);
  if region_len m <? spsc_ring_file_size cap then Err LayoutMismatch
  else if negb (region_ptr m mod REGION_ALIGN =? 0) then Err LayoutMismatch
  else mret (MkSpsc Region cap (init_spsc_layout_raw m cap)).

Definition open_in_region (m : region) (cap : Z) : res RingError SpscRingCore :=
  if region_len m <? spsc_ring_file_size cap then Err LayoutMismatch
  else if negb (region_ptr m mod REGION_ALIGN =? 0) then Err LayoutMismatch
  else if negb (layout_matches (region_hdr m) cap) then Err LayoutMismatch
  else mret (MkSpsc Region cap m).

(** * The calls *)

(** The slot index of a counter: masked by the capacity less one. *)
Definition slot_index (c : SpscRingCore) (idx : Z) : nat :=
  Z.to_nat (Z.land idx (capacity c - 1)).

Definition slot (c : SpscRingCore) (idx : Z) : list Z :=
  slots c !!! slot_index c idx.

Definition write_slot (idx : Z) (payload : list Z) (c : SpscRingCore) : SpscRingCore :=
  with_slots (<[slot_index c idx := pad SPSC_PAYLOAD_BYTES payload]> (slots c)) c.

Definition approx_len (c : SpscRingCore) : Z := Z.max 0 (head (header c) - tail (header c)).

Definition try_push (c : SpscRingCore) (payload : list Z) :
    SpscRingCore * res RingError unit :=
  if (SPSC_PAYLOAD_BYTES <? length payload)%nat then (c, Err PayloadTooLarge)
  else
    let head := head (header c) in
    let tail := tail (header c) in
    if capacity c <=? u64 (head - tail) then (c, Err Full)
    else (with_head (u64 (head + 1)) (write_slot head payload c), Ok tt).

Definition try_pop (c : SpscRingCore) (out : list Z) :
    SpscRingCore * list Z * res RingError Z :=
  if (length out <? SPSC_PAYLOAD_BYTES)%nat then (c, out, Err PayloadTooLarge)
  else
    let tail := tail (header c) in
    let head := head (header c) in
    if tail =? head then (c, out, Err Empty)
    else (with_tail (u64 (tail + 1)) c, overwrite (slot c tail) out,
          Ok (Z.of_nat SPSC_PAYLOAD_BYTES)).

(** [peek_slot] borrows the oldest payload without advancing; [confirm]
    advances past the one peeked at. *)
Definition peek_slot (c : SpscRingCore) : option (Z * list Z) :=
  let tail := tail (header c) in
  let head := head (header c) in
  if tail =? head then None else Some (tail, slot c tail).

Definition confirm (peeked : Z * list Z) (c : SpscRingCore) : SpscRingCore :=
  with_tail (u64 (peeked.1 + 1)) c.

(** * The calls as their atomic accesses *)

Inductive push_pc :=
| PushStart (v : list Z)
| PushTail (v : list Z) (h : Z)
| PushWrite (v : list Z) (h : Z)
| PushPublish (v : list Z) (h : Z)
| PushDone (o : res RingError unit).

Definition push_step (c : SpscRingCore) (pc : push_pc) : SpscRingCore * push_pc * qevent :=
  match pc with
  | PushStart v =>
      if (SPSC_PAYLOAD_BYTES <? length v)%nat then (c, PushDone (Err PayloadTooLarge), Tau)
      else (c, PushTail v (head (header c)), Tau)
  | PushTail v h =>
      if capacity c <=? u64 (h - tail (header c)) then (c, PushDone (Err Full), EnqFull)
      else (c, PushWrite v h, Tau)
  | PushWrite v h => (write_slot h v c, PushPublish v h, Tau)
  | PushPublish v h =>
      (with_head (u64 (h + 1)) c, PushDone (Ok tt), Enq (pad SPSC_PAYLOAD_BYTES v))
  | PushDone o => (c, PushDone o, Tau)
  end.

Inductive pop_pc :=
| PopStart (out : list Z)
| PopHead (out : list Z) (t : Z)
| PopRead (out : list Z) (t : Z)
| PopPublish (data out : list Z) (t : Z)
| PopDone (out : list Z) (o : res RingError Z).

Definition pop_step (c : SpscRingCore) (pc : pop_pc) : SpscRingCore * pop_pc * qevent :=
  match pc with
  | PopStart out =>
      if (length out <? SPSC_PAYLOAD_BYTES)%nat then (c, PopDone out (Err PayloadTooLarge), Tau)
      else (c, PopHead out (tail (header c)), Tau)
  | PopHead out t =>
      if t =? head (header c) then (c, PopDone out (Err Empty), DeqEmpty)
      else (c, PopRead out t, Tau)
  | PopRead out t => (c, PopPublish (slot c t) (overwrite (slot c t) out) t, Tau)
  | PopPublish data out t =>
      (with_tail (u64 (t + 1)) c, PopDone out (Ok (Z.of_nat SPSC_PAYLOAD_BYTES)), Deq data)
  | PopDone out o => (c, PopDone out o, Tau)
  end.

(** One producer and one consumer over one ring; a finished call may be
    followed by any other. *)
Record sys := MkSys { ring : SpscRingCore; producer : push_pc; consumer : pop_pc }.

Inductive sys_step : sys → qevent → sys → Prop :=
| step_push c pc c' pc' e cc :
    push_step c pc = (c', pc', e) → sys_step (MkSys c pc cc) e (MkSys c' pc' cc)
| step_pop c pc cc c' cc' e :
    pop_step c cc = (c', cc', e) → sys_step (MkSys c pc cc) e (MkSys c' pc cc')
| step_call_push c o v cc :
    sys_step (MkSys c (PushDone o) cc) Tau (MkSys c (PushStart v) cc)
| step_call_pop c pc out o out' :
    sys_step (MkSys c pc (PopDone out o)) Tau (MkSys c pc (PopStart out')).

(** * Well-formed rings and their contents *)

(** Items between the counters. *)
Definition fill (c : SpscRingCore) : Z := u64 (head (header c) - tail (header c)).

Record wf (c : SpscRingCore) : Prop := {
  wf_cap : ∃ k, 1 ≤ k < 64 ∧ capacity c = 2 ^ k;
  wf_len : capacity c ≤ Z.of_nat (length (slots c));
  wf_width : Forall (λ s, length s = SPSC_PAYLOAD_BYTES) (slots c);
  wf_head : 0 ≤ head (header c) < 2 ^ 64;
  wf_tail : 0 ≤ tail (header c) < 2 ^ 64;
  wf_fill : fill c ≤ capacity c;
}.

(** The payloads from tail to head, oldest first. *)
Definition contents (c : SpscRingCore) : list (list Z) :=
  (λ i, slot c (tail (header c) + Z.of_nat i)) <$> seq 0 (Z.to_nat (fill c)).

Section facts.
Context (c : SpscRingCore) (Hwf : wf c).

Lemma cap_bounds : 2 ≤ capacity c < 2 ^ 64.
Proof using Hwf.
  destruct (wf_cap _ Hwf) as (k & Hk & ->). split.
  - change 2 with (2 ^ 1) at 1. apply Z.pow_le_mono_r; lia.
  - apply Z.pow_lt_mono_r; lia.
Qed.

Lemma slot_index_mod i : slot_index c i = Z.to_nat (i mod capacity c).
Proof using Hwf.
  destruct (wf_cap _ Hwf) as (k & Hk & E). unfold slot_index. rewrite E.
  by rewrite land_mask_mod by lia.
Qed.

Lemma slot_index_lt i : (slot_index c i < length (slots c))%nat.
Proof using Hwf.
  rewrite slot_index_mod. pose proof cap_bounds. pose proof (wf_len _ Hwf).
  pose proof (Z.mod_pos_bound i (capacity c)). lia.
Qed.

Lemma slot_index_u64 i : slot_index c (u64 i) = slot_index c i.
Proof using Hwf.
  rewrite !slot_index_mod. destruct (wf_cap _ Hwf) as (k & Hk & ->).
  by rewrite wrap_mod_pow2 by lia.
Qed.

Lemma slot_index_congr i j : i mod capacity c = j mod capacity c → slot_index c i = slot_index c j.
Proof using Hwf. rewrite !slot_index_mod. by intros ->. Qed.

Lemma slot_index_inj i j :
  - capacity c < i - j < capacity c → slot_index c i = slot_index c j → i = j.
Proof using Hwf.
  rewrite !slot_index_mod. intros Hij E. pose proof cap_bounds.
  pose proof (Z.mod_pos_bound i (capacity c)). pose proof (Z.mod_pos_bound j (capacity c)).
  apply (mod_window_inj (capacity c)); lia.
Qed.

Lemma fill_bounds : 0 ≤ fill c ≤ capacity c.
Proof using Hwf.
  split; [|by apply wf_fill]. apply wrap_bound. done.
Qed.

(** The slot past the last item is the one the producer writes. *)
Lemma slot_index_head :
  slot_index c (tail (header c) + fill c) = slot_index c (head (header c)).
Proof using Hwf.
  rewrite <- slot_index_u64, <- (slot_index_u64 (head _)). f_equal.
  unfold fill, wrap. rewrite Zplus_mod_idemp_r. f_equal. lia.
Qed.

Lemma length_contents : length (contents c) = Z.to_nat (fill c).
Proof using Type. unfold contents. by rewrite length_fmap, length_seq. Qed.

Lemma contents_width v : v ∈ contents c → length v = SPSC_PAYLOAD_BYTES.
Proof using Hwf.
  unfold contents. intros (i & -> & Hi)%list_elem_of_fmap.
  pose proof (wf_width _ Hwf) as Hw. rewrite Forall_forall in Hw. apply Hw.
  unfold slot. apply list_elem_of_lookup. exists (slot_index c (tail (header c) + Z.of_nat i)).
  apply list_lookup_lookup_total_lt, slot_index_lt.
Qed.

Lemma fill_0 : tail (header c) = head (header c) ↔ fill c = 0.
Proof using Hwf.
  pose proof (wf_head _ Hwf). pose proof (wf_tail _ Hwf). unfold fill, wrap.
  split; [intros ->; by rewrite Z.sub_diag|]. intros E.
  apply (wrap_inj 64); [lia..|]. unfold wrap.
  rewrite (Z.mod_small (tail _)), (Z.mod_small (head _)) by lia.
  pose proof (Z.div_mod (head (header c) - tail (header c)) (2 ^ 64)).
  destruct (decide ((head (header c) - tail (header c)) / 2 ^ 64 = 0)); nia.
Qed.
End facts.

(** Writing the slot past the last item leaves the contents alone while there
    is room. *)
Lemma contents_write_slot c v :
  wf c → fill c < capacity c →
  contents (write_slot (head (header c)) v c) = contents c.
Proof.
  intros Hwf Hf. unfold contents. apply list_fmap_ext. intros k i Hk.
  apply lookup_seq in Hk as [-> Hi]. unfold slot, write_slot. cbn.
  apply list_lookup_total_insert_ne. intros E.
  change (slot_index (write_slot _ _ _) ?x) with (slot_index c x) in E.
  rewrite <- slot_index_head in E by done. pose proof (fill_bounds c Hwf).
  apply slot_index_inj in E; [lia|done|cbn in Hi; lia].
Qed.

Lemma slot_write_slot c v :
  wf c → slot (write_slot (head (header c)) v c) (head (header c)) = pad SPSC_PAYLOAD_BYTES v.
Proof.
  intros Hwf. unfold slot, write_slot. cbn. apply list_lookup_total_insert_eq.
  by apply slot_index_lt.
Qed.

Lemma wf_write_slot c i v :
  wf c → (length v ≤ SPSC_PAYLOAD_BYTES)%nat → wf (write_slot i v c).
Proof.
  intros [] Hv. split; cbn; try done.
  - by rewrite length_insert.
  - apply Forall_insert; [done|]. by apply length_pad.
Qed.

Lemma fill_with_head c :
  wf c → fill c < capacity c → fill (with_head (u64 (head (header c) + 1)) c) = fill c + 1.
Proof.
  intros Hwf Hf. pose proof (cap_bounds c Hwf). pose proof (fill_bounds c Hwf).
  unfold fill in *. cbn. unfold wrap in *. rewrite Zminus_mod_idemp_l.
  rewrite Z.add_sub_swap, Zplus_mod, (Z.mod_small 1) by lia.
  apply Z.mod_small. lia.
Qed.

Lemma fill_with_tail c :
  wf c → 0 < fill c → fill (with_tail (u64 (tail (header c) + 1)) c) = fill c - 1.
Proof.
  intros Hwf Hf. pose proof (cap_bounds c Hwf). pose proof (fill_bounds c Hwf).
  unfold fill in *. cbn. unfold wrap in *. rewrite Zminus_mod_idemp_r.
  rewrite Z.sub_add_distr, Zminus_mod, (Z.mod_small 1) by lia.
  apply Z.mod_small. lia.
Qed.

Lemma wf_with_head c : wf c → fill c < capacity c → wf (with_head (u64 (head (header c) + 1)) c).
Proof.
  intros Hwf Hf. pose proof (fill_with_head c Hwf Hf) as E. destruct Hwf. split; cbn; try done.
  - by apply wrap_bound.
  - rewrite E. lia.
Qed.

Lemma wf_with_tail c : wf c → 0 < fill c → wf (with_tail (u64 (tail (header c) + 1)) c).
Proof.
  intros Hwf Hf. pose proof (fill_with_tail c Hwf Hf) as E. destruct Hwf. split; cbn; try done.
  - by apply wrap_bound.
  - rewrite E. lia.
Qed.

(** Publishing the head appends the slot it named. *)
Lemma contents_with_head c :
  wf c → fill c < capacity c →
  contents (with_head (u64 (head (header c) + 1)) c) =
  contents c ++ [slot c (head (header c))].
Proof.
  intros Hwf Hf. unfold contents. rewrite fill_with_head by done.
  pose proof (fill_bounds c Hwf). rewrite Z2Nat.inj_add, Nat.add_1_r, seq_S by lia.
  rewrite fmap_app. f_equal. cbn. f_equal. unfold slot. f_equal.
  rewrite <- (slot_index_head c) by done. by rewrite Z2Nat.id by lia.
Qed.

(** Publishing the tail drops the slot it named. *)
Lemma contents_with_tail c :
  wf c → 0 < fill c →
  contents c = slot c (tail (header c)) :: contents (with_tail (u64 (tail (header c) + 1)) c).
Proof.
  intros Hwf Hf. unfold contents. rewrite fill_with_tail by done.
  replace (Z.to_nat (fill c)) with (S (Z.to_nat (fill c - 1))) by lia.
  cbn [seq]. rewrite fmap_cons, Z.add_0_r. f_equal.
  rewrite <- (fmap_S_seq 0), <- list_fmap_compose. apply list_fmap_ext. intros k i _.
  unfold slot. cbn. f_equal. etrans; [|apply (slot_index_congr c Hwf)].
  - reflexivity.
  - destruct (wf_cap _ Hwf) as (j & Hj & ->).
    rewrite <- (Zplus_mod_idemp_l (u64 _)), wrap_mod_pow2, Zplus_mod_idemp_l by lia.
    f_equal. lia.
Qed.

(** * The calls implement the bounded FIFO *)

Definition spsc_inv (c : SpscRingCore) : Prop := wf c.
Definition spsc_cap (c : SpscRingCore) : nat := Z.to_nat (capacity c).

#[export] Instance spsc_fifo : BoundedFifo SpscRingCore := {|
  fifo_inv := spsc_inv;
  fifo_cap := spsc_cap;
  fifo_width := SPSC_PAYLOAD_BYTES;
  fifo_contents := contents;
  fifo_push := try_push;
  fifo_pop := try_pop;
|}.

Lemma push_publish c v :
  wf c → (length v ≤ SPSC_PAYLOAD_BYTES)%nat → fill c < capacity c →
  wf (with_head (u64 (head (header c) + 1)) (write_slot (head (header c)) v c)) ∧
  contents (with_head (u64 (head (header c) + 1)) (write_slot (head (header c)) v c)) =
  contents c ++ [pad SPSC_PAYLOAD_BYTES v].
Proof.
  intros Hwf Hv Hf. pose proof (wf_write_slot c (head (header c)) v Hwf Hv) as Hw.
  split; [exact (wf_with_head _ Hw Hf)|].
  etrans; [exact (contents_with_head _ Hw Hf)|].
  rewrite contents_write_slot by done. do 2 f_equal. exact (slot_write_slot c v Hwf).
Qed.

Lemma try_push_spec c v c' o :
  wf c → try_push c v = (c', o) →
  wf c' ∧ spsc_cap c' = spsc_cap c ∧
  (contents c', o) = spec_push (spsc_cap c) SPSC_PAYLOAD_BYTES (contents c) v.
Proof.
  intros Hwf. pose proof (fill_bounds c Hwf). pose proof (length_contents c) as Hl.
  unfold try_push, spec_push. fold (fill c). destruct (Nat.ltb_spec SPSC_PAYLOAD_BYTES (length v)).
  { intros [= <- <-]. done. }
  unfold spsc_cap. destruct (Z.leb_spec (capacity c) (fill c)), (Nat.leb_spec (Z.to_nat (capacity c)) (length (contents c)));
    try lia; intros [= <- <-]; [done|].
  destruct (push_publish c v) as [Hw Hc]; [done|lia..|]. by rewrite Hc.
Qed.

Lemma try_pop_spec c out c' out' o :
  wf c → try_pop c out = (c', out', o) →
  wf c' ∧ spsc_cap c' = spsc_cap c ∧
  (contents c', out', o) = spec_pop SPSC_PAYLOAD_BYTES (contents c) out.
Proof.
  intros Hwf. pose proof (fill_bounds c Hwf). unfold try_pop, spec_pop.
  destruct (Nat.ltb_spec (length out) SPSC_PAYLOAD_BYTES); [by intros [= <- <- <-]|].
  destruct (Z.eqb_spec (tail (header c)) (head (header c))) as [E|E]; rewrite fill_0 in E by done.
  - intros [= <- <- <-]. by rewrite (nil_length_inv (contents c)) by (rewrite length_contents; lia).
  - intros [= <- <- <-]. rewrite (contents_with_tail c) by (done || lia).
    split_and!; [apply wf_with_tail; [done|lia]|done..].
Qed.

#[export] Instance spsc_fifo_laws : BoundedFifoLaws SpscRingCore.
Proof.
  split; cbn; [|apply try_push_spec|apply try_pop_spec].
  intros c v Hwf. by apply contents_width.
Qed.

(** [peek_slot] then [confirm] is a pop that hands out the slot itself. *)
Lemma peek_confirm_spec c :
  wf c →
  match peek_slot c with
  | None => contents c = []
  | Some p => wf (confirm p c) ∧ contents c = p.2 :: contents (confirm p c)
  end.
Proof.
  intros Hwf. pose proof (fill_bounds c Hwf). unfold peek_slot, confirm.
  destruct (Z.eqb_spec (tail (header c)) (head (header c))) as [E|E]; rewrite fill_0 in E by done.
  - apply nil_length_inv. rewrite length_contents. lia.
  - cbn. split; [apply wf_with_tail; [done|lia]|apply contents_with_tail; [done|lia]].
Qed.

(** * Construction *)

(** A region whose slot array fills its length. *)
Record region_ok (m : region) : Prop := {
  reg_fits : region_len m = SPSC_HEADER_BYTES + SPSC_SLOT_SIZE * Z.of_nat (length (region_slots m));
  reg_width : Forall (λ s, length s = SPSC_PAYLOAD_BYTES) (region_slots m);
}.

(** The largest capacity whose size in bytes fits a word: from [2^58] slots on
    the multiplication wraps. *)
Definition MAX_CAPACITY : Z := 2 ^ 57.

Lemma zeroed_slots_eq cap : 0 ≤ cap ≤ MAX_CAPACITY → zeroed_slots cap = Z.to_nat cap.
Proof.
  unfold zeroed_slots, spsc_ring_file_size, MAX_CAPACITY, SPSC_SLOT_SIZE, SPSC_HEADER_BYTES.
  intros. rewrite (wrap_small _ (cap * 64)), wrap_small by lia. rewrite Z.add_simpl_l. by rewrite Z.div_mul by lia.
Qed.

Lemma init_layout_wf b m cap :
  region_ok m → 0 ≤ cap ≤ MAX_CAPACITY → capacity_ok cap = true →
  wf (MkSpsc b cap (init_spsc_layout_raw m cap)) ∧
  contents (MkSpsc b cap (init_spsc_layout_raw m cap)) = [].
Proof.
  intros Hm Hc Hok. pose proof (zeroed_slots_eq cap Hc) as Ez. unfold MAX_CAPACITY in Hc.
  destruct (capacity_ok_spec cap ltac:(lia) Hok) as (k & Hk & Ec).
  split; [|done]. split; cbn.
  - eauto.
  - rewrite Ez, length_app, length_replicate, length_drop. lia.
  - apply Forall_app. split.
    + by apply Forall_replicate.
    + apply Forall_drop, Hm.
  - done.
  - done.
  - change (0 ≤ cap). lia.
Qed.

(** What a constructed ring leaves in memory, another process can open: the
    header check accepts exactly the capacity it was built with. *)
Lemma layout_matches_init m cap cap' :
  layout_matches (region_hdr (init_spsc_layout_raw m cap)) cap' = (cap =? cap').
Proof. unfold layout_matches. cbn. by rewrite andb_true_r. Qed.

(** * One producer, one consumer *)

(** What each side knows at each point of its call. *)
Definition push_ok (c : SpscRingCore) (pc : push_pc) : Prop :=
  match pc with
  | PushStart _ | PushDone _ => True
  | PushTail v h => h = head (header c) ∧ (length v ≤ SPSC_PAYLOAD_BYTES)%nat
  | PushWrite v h =>
      h = head (header c) ∧ (length v ≤ SPSC_PAYLOAD_BYTES)%nat ∧ fill c < capacity c
  | PushPublish v h =>
      h = head (header c) ∧ fill c < capacity c ∧ slot c h = pad SPSC_PAYLOAD_BYTES v
  end.

Definition pop_ok (c : SpscRingCore) (pc : pop_pc) : Prop :=
  match pc with
  | PopStart _ | PopDone _ _ => True
  | PopHead out t => t = tail (header c)
  | PopRead out t => t = tail (header c) ∧ 0 < fill c
  | PopPublish data out t => t = tail (header c) ∧ 0 < fill c ∧ data = slot c t
  end.

Record sys_inv (s : sys) : Prop := {
  sys_wf : wf (ring s);
  sys_push : push_ok (ring s) (producer s);
  sys_pop : pop_ok (ring s) (consumer s);
}.

(** The producer's steps keep the consumer's knowledge, and the other way
    round. *)
Lemma push_step_frames c pc c' pc' e cc :
  wf c → push_ok c pc → pop_ok c cc → push_step c pc = (c', pc', e) → pop_ok c' cc.
Proof.
  intros Hwf Hp Hc Hs. pose proof (fill_bounds c Hwf).
  destruct pc as [v|v h|v h|v h|o]; cbn in Hs; try case_match; simplify_eq; try done.
  - destruct Hp as (-> & Hv & Hf), cc as [| |out t|data out t|]; cbn in *; try done.
    destruct Hc as (-> & H0 & ->). split_and!; [done..|].
    unfold slot, write_slot. cbn. symmetry. apply list_lookup_total_insert_ne. intros E.
    change (slot_index (write_slot _ _ _) ?x) with (slot_index c x) in E.
    rewrite <- slot_index_head in E by done. apply slot_index_inj in E; [lia|done|lia].
  - destruct Hp as (-> & Hf & Hs), cc as [| |out t|data out t|]; cbn in *; try done.
    + rewrite fill_with_head by done. destruct Hc; split; [done|lia].
    + rewrite fill_with_head by done. destruct Hc as (?&?&?); split_and!; [done|lia|done].
Qed.

Lemma pop_step_frames c pc c' cc cc' e :
  wf c → push_ok c pc → pop_ok c cc → pop_step c cc = (c', cc', e) → push_ok c' pc.
Proof.
  intros Hwf Hp Hc Hs. pose proof (fill_bounds c Hwf).
  destruct cc as [|out t|out t|data out t|]; cbn in Hs; try case_match; simplify_eq; try done.
  destruct Hc as (-> & H0 & ->), pc as [|v h|v h|v h|]; cbn in *; try done.
  - destruct Hp as (?&?&?). rewrite fill_with_tail by done. split_and!; [done..|lia].
  - destruct Hp as (?&?&?). rewrite fill_with_tail by done. split_and!; [done|lia|done].
Qed.

(** Close the goals a step leaves: a bound, or the contract's matching step. *)
Ltac finish_step := first [done | lia | by constructor | by constructor; lia].

(** The producer's own steps: its knowledge moves on with its program counter
    and the contents change only at the publish, or not at all. *)
Lemma push_step_own c pc c' pc' e :
  wf c → push_ok c pc → push_step c pc = (c', pc', e) →
  wf c' ∧ push_ok c' pc' ∧ spsc_cap c' = spsc_cap c ∧
  fifo_step (spsc_cap c) (contents c) e (contents c').
Proof.
  intros Hwf Hp Hs. pose proof (fill_bounds c Hwf). pose proof (length_contents c) as Hl.
  unfold spsc_cap. destruct pc as [v|v h|v h|v h|o]; cbn [push_step] in Hs.
  - destruct (Nat.ltb_spec SPSC_PAYLOAD_BYTES (length v)); injection Hs as <- <- <-;
      cbn; split_and!; finish_step.
  - destruct Hp as [-> Hv]. fold (fill c) in Hs. destruct (Z.leb_spec (capacity c) (fill c));
      injection Hs as <- <- <-; cbn; split_and!; finish_step.
  - destruct Hp as (-> & Hv & Hf). injection Hs as <- <- <-. cbn. split_and!; try done.
    + by apply wf_write_slot.
    + by apply slot_write_slot.
    + rewrite contents_write_slot by done. constructor.
  - destruct Hp as (-> & Hf & Hs'). injection Hs as <- <- <-. cbn. split_and!; try done.
    + by apply wf_with_head.
    + rewrite contents_with_head, Hs' by done. constructor. lia.
  - injection Hs as <- <- <-. cbn. split_and!; finish_step.
Qed.

Lemma pop_step_own c cc c' cc' e :
  wf c → pop_ok c cc → pop_step c cc = (c', cc', e) →
  wf c' ∧ pop_ok c' cc' ∧ spsc_cap c' = spsc_cap c ∧
  fifo_step (spsc_cap c) (contents c) e (contents c').
Proof.
  intros Hwf Hc Hs. pose proof (fill_bounds c Hwf).
  unfold spsc_cap. destruct cc as [out|out t|out t|data out t|out o]; cbn [pop_step] in Hs.
  - destruct (Nat.ltb_spec (length out) SPSC_PAYLOAD_BYTES); injection Hs as <- <- <-;
      cbn; split_and!; finish_step.
  - cbn in Hc. subst t. destruct (Z.eqb_spec (tail (header c)) (head (header c))) as [E|E];
      injection Hs as <- <- <-; rewrite fill_0 in E by done; cbn; split_and!; try done; try lia.
    + rewrite (nil_length_inv (contents c)) by (rewrite length_contents; lia). constructor.
    + constructor.
  - destruct Hc as (-> & H0). injection Hs as <- <- <-. cbn. split_and!; finish_step.
  - destruct Hc as (-> & H0 & ->). injection Hs as <- <- <-. cbn. split_and!; try done.
    + by apply wf_with_tail.
    + rewrite (contents_with_tail c) by done. constructor.
  - injection Hs as <- <- <-. cbn. split_and!; finish_step.
Qed.

(** The relation of a running ring to the queue it implements. *)
Definition sys_rel (cap : nat) (s : sys) (q : list (list Z)) : Prop :=
  sys_inv s ∧ spsc_cap (ring s) = cap ∧ q = contents (ring s).

Lemma sys_simulation cap s e s' q :
  sys_rel cap s q → sys_step s e s' → ∃ q', fifo_step cap q e q' ∧ sys_rel cap s' q'.
Proof.
  intros ([Hwf Hp Hc] & <- & ->) Hs. exists (contents (ring s')).
  destruct Hs as [c pc c' pc' e cc Hs|c pc cc c' cc' e Hs|c o v cc|c pc out o out']; cbn in *.
  - destruct (push_step_own _ _ _ _ _ Hwf Hp Hs) as (? & ? & Hcap & ?). split; [done|].
    split; [|done]. split; cbn; eauto using push_step_frames.
  - destruct (pop_step_own _ _ _ _ _ Hwf Hc Hs) as (? & ? & Hcap & ?). split; [done|].
    split; [|done]. split; cbn; eauto using pop_step_frames.
  - split; [constructor|]. split; [by split|done].
  - split; [constructor|]. split; [by split|done].
Qed.

(** The invariant alone, for every reachable state. *)
Lemma sys_reachable_inv s tr s' : sys_inv s → ltrace sys_step s tr s' → sys_inv s'.
Proof.
  intros Hs Ht. destruct (simulation_trace sys_step (fifo_step (spsc_cap (ring s)))
    (sys_rel (spsc_cap (ring s))) (sys_simulation _) s tr s' (contents (ring s)))
    as (q & _ & [? _]); done.
Qed.

(** A fresh ring with both sides idle. *)
Definition idle (c : SpscRingCore) : sys :=
  MkSys c (PushDone (Ok tt)) (PopDone [] (Ok 0)).

Lemma idle_inv c : wf c → sys_inv (idle c).
Proof. by split. Qed.

(** The step machines run to completion without interference are the calls. *)
Fixpoint run_push (n : nat) (c : SpscRingCore) (pc : push_pc) : SpscRingCore * push_pc :=
  match n with
  | O => (c, pc)
  | S n => let '(c', pc', _) := push_step c pc in run_push n c' pc'
  end.

Fixpoint run_pop (n : nat) (c : SpscRingCore) (pc : pop_pc) : SpscRingCore * pop_pc :=
  match n with
  | O => (c, pc)
  | S n => let '(c', pc', _) := pop_step c pc in run_pop n c' pc'
  end.

(** Four uninterrupted steps of each machine finish the call with exactly
    what [try_push] and [try_pop] return, so the interleaved system is made of
    the calls the code makes and no call loops. *)
Lemma spsc_steps_are_calls c v out :
  run_push 4 c (PushStart v) = ((try_push c v).1, PushDone (try_push c v).2) ∧
  run_pop 4 c (PopStart out) =
    ((try_pop c out).1.1, PopDone (try_pop c out).1.2 (try_pop c out).2).
Proof.
  unfold try_push, try_pop. cbn [run_push run_pop push_step pop_step]. split.
  - destruct (_ <? _)%nat; [done|]. cbn [push_step]. by destruct (_ <=? _).
  - destruct (_ <? _)%nat; [done|]. cbn [pop_step]. by destruct (_ =? _).
Qed.

(** C1: with one producer and one consumer calling freely, every run of the
    ring from a well-formed state is a run of the bounded FIFO of its capacity:
    what has been popped followed by what is still in the ring is what was
    there at the start followed by what has been pushed; [Full] is returned
    only with the queue full and [Empty] only with it empty. *)
Theorem spsc_concurrent_fifo c tr s :
  wf c → ltrace sys_step (idle c) tr s →
  ltrace (fifo_step (spsc_cap c)) (contents c) tr (contents (ring s)) ∧
  contents c ++ enqueued tr = dequeued tr ++ contents (ring s).
Proof.
  intros Hwf Ht. destruct (simulation_trace sys_step (fifo_step (spsc_cap c))
    (sys_rel (spsc_cap c)) (sys_simulation _) (idle c) tr s (contents c))
    as (q & Hq & _ & _ & ->); [|done|].
  - split; [by apply idle_inv|done].
  - eauto using fifo_trace_order.
Qed.

(** C2: in every reachable state, a producer about to copy a payload in and a
    consumer about to copy one out are at different slots, so the two
    non-atomic copies never touch the same bytes at once. *)
Theorem spsc_data_race_free c tr s v h out t :
  wf c → ltrace sys_step (idle c) tr s →
  producer s = PushWrite v h → consumer s = PopRead out t →
  slot_index (ring s) h ≠ slot_index (ring s) t.
Proof.
  intros Hwf Ht Ep Ec. destruct (sys_reachable_inv _ _ _ (idle_inv c Hwf) Ht) as [Hw Hp Hc].
  rewrite Ep in Hp. rewrite Ec in Hc. destruct Hp as (-> & _ & Hf), Hc as [-> H0].
  rewrite <- slot_index_head by done. intros E.
  apply slot_index_inj in E; [lia|done|lia].
Qed.

Lemma run_refines c ops c' os :
  wf c → fifo_run c ops = (c', os) →
  wf c' ∧ spec_run (spsc_cap c) SPSC_PAYLOAD_BYTES (contents c) ops = (contents c', os).
Proof. exact (fifo_run_refines (R := SpscRingCore) c ops c' os). Qed.

(** Any sequence of pushes and pops, with payloads and buffers of any
    length, returns what the bounded FIFO returns and leaves its contents,
    also when the 64-bit counters wrap. *)
Lemma spsc_calls_refine_fifo c ops c' os :
  wf c → fifo_run c ops = (c', os) →
  wf c' ∧ spec_run (spsc_cap c) SPSC_PAYLOAD_BYTES (contents c) ops = (contents c', os).
Proof. apply run_refines. Qed.

(** What the calls never write: the handle's capacity, the region's address and
    length, and the header's metadata line. *)
Definition same_layout (m : region) (cap : Z) (c : SpscRingCore) : Prop :=
  capacity c = cap ∧ region_ptr (mem c) = region_ptr m ∧ region_len (mem c) = region_len m ∧
  ∀ x, layout_matches (header c) x = (cap =? x).

Lemma try_push_same_layout m cap c v :
  same_layout m cap c → same_layout m cap (try_push c v).1.
Proof. unfold try_push. by repeat case_match. Qed.

Lemma try_pop_same_layout m cap c out :
  same_layout m cap c → same_layout m cap (try_pop c out).1.1.
Proof. unfold try_pop. by repeat case_match. Qed.

Lemma open_same_layout m cap c :
  wf c → same_layout m cap c → region_ptr m mod REGION_ALIGN = 0 →
  spsc_ring_file_size cap ≤ region_len m →
  (∃ c', open_in_region (mem c) cap = Ok c' ∧ contents c' = contents c) ∧
  ∀ cap', cap' ≠ cap → open_in_region (mem c) cap' = Err LayoutMismatch.
Proof.
  intros Hwf (Ec & Ep & El & Eh) Ha Hl. unfold open_in_region, header in *.
  rewrite Ep, El, Ha. cbn [negb Z.eqb]. split.
  - exists (MkSpsc Region cap (mem c)). destruct (Z.ltb_spec (region_len m) (spsc_ring_file_size cap)); [lia|].
    rewrite Eh, Z.eqb_refl. split; [done|]. destruct c; cbn in *. by subst.
  - intros cap' Hne. destruct (_ <? _); [done|].
    rewrite Eh. by destruct (Z.eqb_spec cap cap').
Qed.

(** A ring built in a region that is large enough and aligned is
    well-formed and empty, and whatever is pushed and popped afterwards, another
    process that opens the same region at the same capacity finds the same
    contents, while any other capacity is refused. *)
Lemma spsc_create_then_open m cap c ops c' os :
  region_ok m → 0 ≤ cap ≤ MAX_CAPACITY → create_in_region m cap = Ok c →
  fifo_run c ops = (c', os) →
  wf c ∧ contents c = [] ∧
  (∃ c'', open_in_region (mem c') cap = Ok c'' ∧ contents c'' = contents c') ∧
  (∀ cap', cap' ≠ cap → open_in_region (mem c') cap' = Err LayoutMismatch).
Proof.
  intros Hm Hc Hcr Hr. unfold create_in_region in Hcr.
  apply bind_ok in Hcr as ([] & Hok & Hcr). rewrite assert_ok in Hok.
  destruct (_ <? _) eqn:El; [done|]. destruct (negb _) eqn:Ea; [done|].
  injection Hcr as <-. destruct (init_layout_wf Region m cap Hm Hc Hok) as [Hwf He].
  split; [done|]. split; [done|]. bool_to_prop. apply (open_same_layout m); [| |done..].
  - by apply (run_refines _ _ _ _ Hwf Hr).
  - apply (fifo_run_preserves (H := spsc_fifo) (same_layout m cap) ops _ _ _ (try_push_same_layout m cap)
      (try_pop_same_layout m cap)) in Hr; [done|].
    split_and!; [done..|]. intros x. apply layout_matches_init.
Qed.

(** Above [2^57] slots the size computation wraps to the header alone: a
    ring of any such capacity is accepted in a region that holds a header and
    not one slot, so its slots lie outside the region. *)
Lemma spsc_capacity_wraps m cap :
  MAX_CAPACITY < cap < 2 ^ 64 → capacity_ok cap = true →
  region_ptr m mod REGION_ALIGN = 0 → region_len m = SPSC_HEADER_BYTES → region_slots m = [] →
  ∃ c, create_in_region m cap = Ok c ∧ capacity c = cap ∧ slots c = [].
Proof.
  unfold MAX_CAPACITY. intros Hc Hok Hp Hl Hs.
  assert (spsc_ring_file_size cap = SPSC_HEADER_BYTES) as Es.
  { destruct (capacity_ok_spec cap ltac:(lia) Hok) as (k & Hk & ->).
    assert (57 < k) by (apply (Z.pow_lt_mono_r_iff 2); lia).
    unfold spsc_ring_file_size, wrap, SPSC_SLOT_SIZE. change 64 with (2 ^ 6) at 1.
    rewrite <- Z.pow_add_r by lia. replace (k + 6) with ((k - 58) + 64) by lia.
    by rewrite Z.pow_add_r, Z_mod_mult by lia. }
  eexists. unfold create_in_region, init_spsc_layout_raw, zeroed_slots.
  rewrite Hok, Hp, Hl, Hs, Es. by cbn.
Qed.

(** ** Witnesses: a two-slot ring *)

Definition region2 : region :=
  MkRegion 4096 320 (MkSpscHeader 0 0 0 0 0) [zero_slot; zero_slot].
Definition ring2 : SpscRingCore := MkSpsc Region 2 (init_spsc_layout_raw region2 2).

Lemma ring2_wf : wf ring2.
Proof.
  apply (init_layout_wf Region region2 2); [|done..].
  split; [done|]. by repeat constructor.
Qed.

(** A push of [1; 2] and a pop, interleaved so that the consumer reads while
    the producer writes a second payload. *)
Definition trace2 : list qevent :=
  [Tau; Tau; Tau; Tau; Enq (pad 64 [1; 2]); Tau; Tau; Tau; Tau; Tau; Tau].

Lemma trace2_run :
  ∃ s, ltrace sys_step (idle ring2) trace2 s ∧
       producer s = PushWrite [3] 1 ∧ consumer s = PopRead zero_slot 0.
Proof.
  eexists. split.
  { eapply ltrace_cons; [apply (step_call_push _ _ [1; 2])|].
    do 4 (eapply ltrace_cons; [by apply step_push|]).
    eapply ltrace_cons; [apply (step_call_pop _ _ _ _ zero_slot)|].
    do 2 (eapply ltrace_cons; [by apply step_pop|]).
    eapply ltrace_cons; [apply (step_call_push _ _ [3])|].
    do 2 (eapply ltrace_cons; [by apply step_push|]). apply ltrace_nil. }
  done.
Qed.

Lemma spsc_concurrent_fifo_witness :
  ∃ s, dequeued trace2 ++ contents (ring s) = [pad 64 [1; 2]].
Proof.
  destruct trace2_run as (s & Ht & _). exists s.
  destruct (spsc_concurrent_fifo ring2 trace2 s ring2_wf Ht) as [_ <-]. reflexivity.
Defined.

Lemma spsc_data_race_free_witness :
  ∃ s, slot_index (ring s) 1 ≠ slot_index (ring s) 0.
Proof.
  destruct trace2_run as (s & Ht & Ep & Ec). exists s.
  exact (spsc_data_race_free ring2 trace2 s _ _ _ _ ring2_wf Ht Ep Ec).
Defined.

Lemma spsc_capacity_wraps_witness :
  ∃ c, create_in_region (MkRegion 4096 192 (MkSpscHeader 0 0 0 0 0) []) (2 ^ 58) = Ok c ∧
       slots c = [].
Proof.
  destruct (spsc_capacity_wraps (MkRegion 4096 192 (MkSpscHeader 0 0 0 0 0) []) (2 ^ 58))
    as (c & ? & _ & ?); [done|reflexivity..|]. by exists c.
Defined.
