(* ===== verification/SharedRing.v ===== *)
(** [SharedRing], the Vyukov multi-producer multi-consumer ring of
    [crates/subetha-cxc/src/shared_ring.rs].

    Every slot carries a sequence number that says whose turn it is: [pos] when
    the producer of position [pos] may claim it, [pos + 1] when it is published,
    [pos + capacity] when the consumer has released it.  The constructors, the
    MPMC calls, the single-producer and single-consumer fast paths and the
    recovery of a slot whose producer died are state-passing functions at the
    width of the Rust types (release build: [u64] and [i64] arithmetic wraps).

    A retry loop takes the outcome of its weak compare-exchanges as an argument:
    one boolean per iteration, [true] where the hardware fails the exchange
    spuriously.  [tstep] cuts the calls into their atomic accesses and
    [mpmc_step] interleaves any number of threads, some of which may die between
    claiming a slot and publishing it and be healed by the watchdog.

    [ring_sidecar] is the sequence of [push_op] calls made to the handle's
    observation ring; the ring itself is untouched by them. *)
From S2P Require Import Prelude Queue.

Definition RING_MAGIC : Z := 0x41504D4600000001.
Definition SLOT_SIZE : Z := 64.
Definition PAYLOAD_BYTES : nat := Z.to_nat (SLOT_SIZE - 8).

Record RingHeader := MkHeader {
  magic : Z;
  hdr_capacity : Z;
  slot_size : Z;
  epoch : Z;
  producer_seq : Z;
  consumer_seq : Z;
}.

(** [size_of::<RingHeader>()] and [align_of::<RingHeader>()]. *)
Definition HEADER_BYTES : Z := 192.
Definition HEADER_ALIGN : Z := 64.

Record Slot := MkSlot { sequence : Z; payload : list Z }.

#[export] Instance Slot_inhabited : Inhabited Slot := populate (MkSlot 0 []).

Definition ring_file_size (cap : Z) : Z := u64 (HEADER_BYTES + u64 (cap * SLOT_SIZE)).

(** A mapped region: address, length, and its bytes as a header and slots. *)
Record ring_region := MkRegion {
  region_ptr : Z;
  region_len : Z;
  region_hdr : RingHeader;
  region_slots : list Slot;
}.

Inductive SharedRingBacking := Anon | File | Shm | Region.

Definition OP_PUSH : Z := 1.
Definition OP_POP : Z := 2.

Record SharedRing := MkRing {
  backing : SharedRingBacking;
  capacity : Z;
  mem : ring_region;
  ring_sidecar : list (Z * Z);
}.

Definition header (r : SharedRing) : RingHeader := region_hdr (mem r).
Definition slots (r : SharedRing) : list Slot := region_slots (mem r).

Definition with_hdr (h : RingHeader) (r : SharedRing) : SharedRing :=
  let m := mem r in
  MkRing (backing r) (capacity r)
    (MkRegion (region_ptr m) (region_len m) h (region_slots m)) (ring_sidecar r).

Definition with_producer_seq (p : Z) (r : SharedRing) : SharedRing :=
  let h := header r in
  with_hdr (MkHeader (magic h) (hdr_capacity h) (slot_size h) (epoch h) p (consumer_seq h)) r.

Definition with_consumer_seq (c : Z) (r : SharedRing) : SharedRing :=
  let h := header r in
  with_hdr (MkHeader (magic h) (hdr_capacity h) (slot_size h) (epoch h) (producer_seq h) c) r.

Definition with_slots (s : list Slot) (r : SharedRing) : SharedRing :=
  let m := mem r in
  MkRing (backing r) (capacity r)
    (MkRegion (region_ptr m) (region_len m) (region_hdr m) s) (ring_sidecar r).

Definition push_op (op flags : Z) (r : SharedRing) : SharedRing :=
  MkRing (backing r) (capacity r) (mem r) (ring_sidecar r ++ [(op, flags)]).

(** * Construction *)

(** The region once the header and the [cap] slots are written. *)
Definition laid_out (m : ring_region) (cap : Z) : ring_region :=
  MkRegion (region_ptr m) (region_len m)
    (MkHeader RING_MAGIC cap SLOT_SIZE 0 0 0)
    (((λ i, MkSlot (Z.of_nat i) (replicate PAYLOAD_BYTES 0)) <$> seq 0 (Z.to_nat cap)) ++
     drop (Z.to_nat cap) (region_slots m)).

(** [init_ring_layout_raw] writes the header and every slot, and faults on the
    first one past the end of the mapping: the size it was mapped with,
    [ring_file_size], wraps for capacities from [2^58] on. *)
Definition init_ring_layout_raw (m : ring_region) (cap : Z) : res RingError ring_region :=
  if region_len m <? HEADER_BYTES + cap * SLOT_SIZE then Panic else Ok (laid_out m cap).

Definition layout_matches (h : RingHeader) (cap : Z) : bool :=
  (magic h =? RING_MAGIC) && (hdr_capacity h =? cap) && (slot_size h =? SLOT_SIZE).

(** [create]: [mapped] is the truncated file, sized and mapped. *)
Definition create (mapped : res RingError ring_region) (cap : Z) : res RingError SharedRing :=
  _ ← assert_ (capacity_ok cap);
  m ← mapped;
  m ← init_ring_layout_raw m cap;
  mret (MkRing File cap m []).

Definition create_anon (mapped : res RingError ring_region) (cap : Z) : res RingError SharedRing :=
  _ ← assert_ (capacity_ok cap);
  m ← mapped;
  m ← init_ring_layout_raw m cap;
  mret (MkRing Anon cap m []).

Definition create_from_shm (shm : ring_region) (cap : Z) : res RingError SharedRing :=
  _ ← assert_ (capacity_ok cap);
  if region_len shm <? ring_file_size cap then Err LayoutMismatch
  else m ← init_ring_layout_raw shm cap; mret (MkRing Shm cap m []).

Definition open_from_shm (shm : ring_region) (cap : Z) : res RingError SharedRing :=
  if region_len shm <? ring_file_size cap then Err LayoutMismatch
  else if negb (layout_matches (region_hdr shm) cap) then Err LayoutMismatch
  else mret (MkRing Shm cap shm []).

Definition create_in_region (m : ring_region) (cap : Z) : res RingError SharedRing :=
  _ ← assert_ (capacity_ok cap);
  if region_len m <? ring_file_size cap then Err LayoutMismatch
  else if negb (region_ptr m mod HEADER_ALIGN =? 0) then Err LayoutMismatch
  else m ← init_ring_layout_raw m cap; mret (MkRing Region cap m []).

Definition open_in_region (m : ring_region) (cap : Z) : res RingError SharedRing :=
  if region_len m <? ring_file_size cap then Err LayoutMismatch
  else if negb (region_ptr m mod HEADER_ALIGN =? 0) then Err LayoutMismatch
  else if negb (layout_matches (region_hdr m) cap) then Err LayoutMismatch
  else mret (MkRing Region cap m []).

(** [open]: [opened] is the existing file, whose length is checked before it
    is mapped. *)
Definition open (opened : res RingError ring_region) (cap : Z) : res RingError SharedRing :=
  m ← opened;
  if region_len m <? ring_file_size cap then Err LayoutMismatch
  else if negb (layout_matches (region_hdr m) cap) then Err LayoutMismatch
  else mret (MkRing File cap m []).

(** * Slots *)

Definition slot_index (r : SharedRing) (idx : Z) : nat :=
  Z.to_nat (Z.land idx (capacity r - 1)).

Definition slot (r : SharedRing) (idx : Z) : Slot := slots r !!! slot_index r idx.

Definition set_slot (idx : Z) (s : Slot) (r : SharedRing) : SharedRing :=
  with_slots (<[slot_index r idx := s]> (slots r)) r.

(** The payload copy and zero fill, and the [sequence.store]. *)
Definition write_payload (idx : Z) (v : list Z) (r : SharedRing) : SharedRing :=
  set_slot idx (MkSlot (sequence (slot r idx)) (pad PAYLOAD_BYTES v)) r.

Definition store_sequence (idx : Z) (s : Z) (r : SharedRing) : SharedRing :=
  set_slot idx (MkSlot s (payload (slot r idx))) r.

Definition approx_len (r : SharedRing) : Z :=
  Z.max 0 (producer_seq (header r) - consumer_seq (header r)).

(** The atom a consumer waits on: the sequence of the slot at its position. *)
Definition next_pop_signal (r : SharedRing) : Z := sequence (slot r (consumer_seq (header r))).

(** * The calls *)

(** The loop of [try_push]: [rounds] gives, per iteration, whether the weak
    compare-exchange fails spuriously; the result is [None] while the loop is
    still running when they are used up. *)
Fixpoint try_push_loop (rounds : list bool) (r : SharedRing) (v : list Z) :
    SharedRing * option (res RingError unit) :=
  match rounds with
  | [] => (r, None)
  | spurious :: rounds =>
      let pos := producer_seq (header r) in
      let seq := sequence (slot r pos) in
      let diff := i64_sub (to_i64 seq) (to_i64 pos) in
      if diff =? 0 then
        if spurious then try_push_loop rounds r v
        else
          let r1 := with_producer_seq (u64 (pos + 1)) r in
          let r2 := store_sequence pos (u64 (pos + 1)) (write_payload pos v r1) in
          (push_op OP_PUSH 0 r2, Some (Ok tt))
      else if diff <? 0 then (push_op OP_PUSH 1 r, Some (Err Full))
      else try_push_loop rounds r v
  end.

Definition try_push (rounds : list bool) (r : SharedRing) (v : list Z) :
    SharedRing * option (res RingError unit) :=
  if (PAYLOAD_BYTES <? length v)%nat then (r, Some (Err PayloadTooLarge))
  else try_push_loop rounds r v.

Fixpoint try_pop_loop (rounds : list bool) (r : SharedRing) (out : list Z) :
    SharedRing * list Z * option (res RingError Z) :=
  match rounds with
  | [] => (r, out, None)
  | spurious :: rounds =>
      let pos := consumer_seq (header r) in
      let seq := sequence (slot r pos) in
      let diff := i64_sub (to_i64 seq) (to_i64 (u64 (pos + 1))) in
      if diff =? 0 then
        if spurious then try_pop_loop rounds r out
        else
          let r1 := with_consumer_seq (u64 (pos + 1)) r in
          let out' := overwrite (payload (slot r1 pos)) out in
          let r2 := store_sequence pos (u64 (pos + capacity r)) r1 in
          (push_op OP_POP 0 r2, out', Some (Ok (Z.of_nat PAYLOAD_BYTES)))
      else if diff <? 0 then (push_op OP_POP 2 r, out, Some (Err Empty))
      else try_pop_loop rounds r out
  end.

Definition try_pop (rounds : list bool) (r : SharedRing) (out : list Z) :
    SharedRing * list Z * option (res RingError Z) :=
  if (length out <? PAYLOAD_BYTES)%nat then (r, out, Some (Err PayloadTooLarge))
  else try_pop_loop rounds r out.

Definition try_push_spsc (r : SharedRing) (v : list Z) : SharedRing * res RingError unit :=
  if (PAYLOAD_BYTES <? length v)%nat then (r, Err PayloadTooLarge)
  else
    let pos := producer_seq (header r) in
    let seq := sequence (slot r pos) in
    if negb (seq =? pos) then (r, Err Full)
    else
      let r1 := with_producer_seq (u64 (pos + 1)) (write_payload pos v r) in
      (store_sequence pos (u64 (pos + 1)) r1, Ok tt).

Definition try_pop_spsc (r : SharedRing) (out : list Z) :
    SharedRing * list Z * res RingError Z :=
  if (length out <? PAYLOAD_BYTES)%nat then (r, out, Err PayloadTooLarge)
  else
    let pos := consumer_seq (header r) in
    let seq := sequence (slot r pos) in
    if negb (seq =? u64 (pos + 1)) then (r, out, Err Empty)
    else
      let out' := overwrite (payload (slot r pos)) out in
      let r1 := with_consumer_seq (u64 (pos + 1)) r in
      (store_sequence pos (u64 (pos + capacity r)) r1, out', Ok (Z.of_nat PAYLOAD_BYTES)).

(** ** Recovery of a slot claimed by a producer that died *)

(** The scan [for pos in start..producer_seq]. *)
Fixpoint scan_stuck (n : nat) (pos : Z) (r : SharedRing) : option Z :=
  match n with
  | O => None
  | S n => if sequence (slot r pos) =? pos then Some pos else scan_stuck n (pos + 1) r
  end.

Definition next_stuck_slot (r : SharedRing) (from : Z) : option Z :=
  let start := Z.max from (consumer_seq (header r)) in
  scan_stuck (Z.to_nat (producer_seq (header r) - start)) start r.

Definition heal_stuck_slot (r : SharedRing) (pos : Z) : SharedRing * res RingError bool :=
  if (pos <? consumer_seq (header r)) || (producer_seq (header r) <=? pos) then (r, Ok false)
  else if sequence (slot r pos) =? pos then
    (push_op OP_PUSH 4 (store_sequence pos (u64 (pos + 1)) r), Ok true)
  else (r, Ok false).

(** ** A ring created on first use *)

Record LazySharedRing := MkLazy { lazy_capacity : Z; inner : option SharedRing }.

Definition lazy_new (cap : Z) : res RingError LazySharedRing :=
  _ ← assert_ (capacity_ok cap); mret (MkLazy cap None).

(** [get]: [mapped] is what creating the file returns if it comes to that. *)
Definition lazy_get (mapped : res RingError ring_region) (l : LazySharedRing) :
    res RingError (LazySharedRing * SharedRing) :=
  match inner l with
  | Some r => Ok (l, r)
  | None => r ← create mapped (lazy_capacity l); Ok (MkLazy (lazy_capacity l) (Some r), r)
  end.

Definition lazy_is_initialized (l : LazySharedRing) : bool := bool_decide (is_Some (inner l)).

Definition lazy_try_push (mapped : res RingError ring_region) (rounds : list bool)
    (l : LazySharedRing) (v : list Z) : LazySharedRing * option (res RingError unit) :=
  match lazy_get mapped l with
  | Ok (l', r) =>
      let '(r', o) := try_push rounds r v in (MkLazy (lazy_capacity l') (Some r'), o)
  | Err e => (l, Some (Err e))
  | Panic => (l, Some Panic)
  end.

Definition lazy_try_pop (mapped : res RingError ring_region) (rounds : list bool)
    (l : LazySharedRing) (out : list Z) :
    LazySharedRing * list Z * option (res RingError Z) :=
  match lazy_get mapped l with
  | Ok (l', r) =>
      let '(r', out', o) := try_pop rounds r out in
      (MkLazy (lazy_capacity l') (Some r'), out', o)
  | Err e => (l, out, Some (Err e))
  | Panic => (l, out, Some Panic)
  end.

(** * The calls one at a time *)

Definition good_capacity (r : SharedRing) : Prop :=
  (∃ k, 1 ≤ k < 64 ∧ capacity r = 2 ^ k) ∧ capacity r ≤ Z.of_nat (length (slots r)).

Section slot_facts.
Context (r : SharedRing) (Hcap : good_capacity r).

Lemma seqcap_bounds : 2 ≤ capacity r ≤ 2 ^ 63.
Proof using Hcap.
  destruct Hcap as [(k & Hk & ->) _]. split.
  - change 2 with (2 ^ 1) at 1. apply Z.pow_le_mono_r; lia.
  - apply Z.pow_le_mono_r; lia.
Qed.

Lemma seq_index_mod i : slot_index r i = Z.to_nat (i mod capacity r).
Proof using Hcap.
  destruct Hcap as [(k & Hk & E) _]. unfold slot_index. rewrite E.
  by rewrite land_mask_mod by lia.
Qed.

Lemma seq_index_lt i : (slot_index r i < length (slots r))%nat.
Proof using Hcap.
  rewrite seq_index_mod. pose proof seqcap_bounds. destruct Hcap as [_ ?].
  pose proof (Z.mod_pos_bound i (capacity r)). lia.
Qed.

Lemma slot_u64 i : slot r (u64 i) = slot r i.
Proof using Hcap.
  unfold slot. rewrite !seq_index_mod. destruct Hcap as [(k & Hk & ->) _].
  by rewrite wrap_mod_pow2 by lia.
Qed.

Lemma slot_index_eq i j : slot_index r i = slot_index r j ↔ i mod capacity r = j mod capacity r.
Proof using Hcap.
  rewrite !seq_index_mod. pose proof seqcap_bounds.
  pose proof (Z.mod_pos_bound i (capacity r)). pose proof (Z.mod_pos_bound j (capacity r)).
  split; [lia|by intros ->].
Qed.

Lemma slot_congr i j : i mod capacity r = j mod capacity r → slot r i = slot r j.
Proof using Hcap. intros E%slot_index_eq. unfold slot. by rewrite E. Qed.

(** Reading back after a slot is written. *)
Lemma seq_set_slot i j s :
  slot (set_slot i s r) j =
  if decide (i mod capacity r = j mod capacity r) then s else slot r j.
Proof using Hcap.
  unfold slot, set_slot, with_slots. cbn.
  change (slot_index (MkRing _ _ _ _) j) with (slot_index r j). case_decide as E.
  - apply slot_index_eq in E. rewrite E. apply list_lookup_total_insert_eq, seq_index_lt.
  - apply list_lookup_total_insert_ne. by rewrite slot_index_eq.
Qed.
End slot_facts.

Lemma good_capacity_set_slot r i s : good_capacity r → good_capacity (set_slot i s r).
Proof. intros [H1 H2]. split; [done|]. cbn. by rewrite length_insert. Qed.

(** Two indices less than a capacity apart share a slot only when equal. *)
Lemma window_ne n a b : 0 < n → - n < a - b < n → a ≠ b → a mod n ≠ b mod n.
Proof. intros ?? Hne E. apply Hne. by apply (mod_window_inj n). Qed.

(** The ring between calls: [n] items from position [c] on, [c] and [c + n]
    stored modulo [2^64]. The slots of the items are published, the others
    wait for the producer of their next position. *)
Record seq_state (r : SharedRing) (c : Z) (n : nat) : Prop := {
  ss_cap : good_capacity r;
  ss_cons : consumer_seq (header r) = u64 c;
  ss_prod : producer_seq (header r) = u64 (c + Z.of_nat n);
  ss_n : Z.of_nat n ≤ capacity r;
  ss_full i : 0 ≤ i < Z.of_nat n → sequence (slot r (c + i)) = u64 (c + i + 1);
  ss_free i : Z.of_nat n ≤ i < capacity r → sequence (slot r (c + i)) = u64 (c + i);
  ss_width i : 0 ≤ i < Z.of_nat n → length (payload (slot r (c + i))) = PAYLOAD_BYTES;
}.

Definition items (r : SharedRing) (c : Z) (n : nat) : list (list Z) :=
  (λ i, payload (slot r (c + Z.of_nat i))) <$> seq 0 n.

(** The same contents read off the stored counters. *)
Definition fill (r : SharedRing) : Z := u64 (producer_seq (header r) - consumer_seq (header r)).
Definition contents (r : SharedRing) : list (list Z) :=
  items r (consumer_seq (header r)) (Z.to_nat (fill r)).

Definition wf (r : SharedRing) : Prop := ∃ c n, seq_state r c n.

Lemma items_length r c n : length (items r c n) = n.
Proof. unfold items. by rewrite length_fmap, length_seq. Qed.

Lemma items_u64 r c n : good_capacity r → items r (u64 c) n = items r c n.
Proof.
  intros Hc. unfold items. apply list_fmap_ext. intros k i _. f_equal.
  rewrite <- (slot_u64 r Hc), <- (slot_u64 r Hc (c + _)). f_equal.
  unfold wrap. by rewrite Zplus_mod_idemp_l.
Qed.

Lemma seq_contents r c n : seq_state r c n → contents r = items r c n.
Proof.
  intros [Hc Ec Ep Hn _ _ _]. pose proof (seqcap_bounds r Hc). unfold contents, fill.
  rewrite Ec, Ep, wrap_sub_wrap, items_u64 by done. f_equal.
  rewrite wrap_small; lia.
Qed.

Lemma items_snoc r c n : items r c (S n) = items r c n ++ [payload (slot r (c + Z.of_nat n))].
Proof. unfold items. by rewrite seq_S, fmap_app. Qed.

Lemma items_cons r c n : items r c (S n) = payload (slot r c) :: items r (c + 1) n.
Proof.
  unfold items. cbn [seq]. rewrite fmap_cons, Z.add_0_r. f_equal.
  rewrite <- fmap_S_seq, <- list_fmap_compose. apply list_fmap_ext. intros k i _. cbn.
  do 2 f_equal. lia.
Qed.

Lemma items_ext r r' c n :
  (∀ i, 0 ≤ i < Z.of_nat n → payload (slot r (c + i)) = payload (slot r' (c + i))) →
  items r c n = items r' c n.
Proof.
  intros H. unfold items. apply list_fmap_ext. intros k i [-> Hi]%lookup_seq. apply H. lia.
Qed.

(** [r'] is [r] with its counters at [p] and [c] and the slot of position [i]
    holding [s]. *)
Record updates (r r' : SharedRing) (p c i : Z) (s : Slot) : Prop := {
  up_cap : capacity r' = capacity r;
  up_good : good_capacity r';
  up_prod : producer_seq (header r') = p;
  up_cons : consumer_seq (header r') = c;
  up_slot j : slot r' j = if decide (i mod capacity r = j mod capacity r) then s else slot r j;
}.

Lemma updates_push r r' c n v :
  seq_state r c n → Z.of_nat n < capacity r → length v = PAYLOAD_BYTES →
  updates r r' (u64 (c + Z.of_nat n + 1)) (u64 c) (c + Z.of_nat n)
    (MkSlot (u64 (c + Z.of_nat n + 1)) v) →
  seq_state r' c (S n) ∧ items r' c (S n) = items r c n ++ [v].
Proof.
  intros [Hc Ec Ep Hn Hf Hr Hw] Hlt Hv [Uc Ug Up Uo Us]. pose proof (seqcap_bounds r Hc).
  assert (∀ i, 0 ≤ i < capacity r → i ≠ Z.of_nat n → slot r' (c + i) = slot r (c + i)) as Hne.
  { intros i Hi Hin. rewrite Us, decide_False; [done|]. apply window_ne; lia. }
  assert (slot r' (c + Z.of_nat n) = MkSlot (u64 (c + Z.of_nat n + 1)) v) as Heq.
  { by rewrite Us, decide_True. }
  split.
  - split; rewrite ?Uc; try done; try lia.
    + rewrite Up. f_equal. lia.
    + intros i Hi. destruct (decide (i = Z.of_nat n)) as [->|]; [by rewrite Heq|].
      rewrite Hne by lia. apply Hf. lia.
    + intros i Hi. rewrite Hne by lia. apply Hr. lia.
    + intros i Hi. destruct (decide (i = Z.of_nat n)) as [->|]; [by rewrite Heq|].
      rewrite Hne by lia. apply Hw. lia.
  - rewrite items_snoc, Heq. f_equal. apply items_ext. intros i Hi. by rewrite Hne by lia.
Qed.

Lemma updates_pop r r' c n :
  seq_state r c (S n) →
  updates r r' (u64 (c + Z.of_nat (S n))) (u64 (c + 1)) c
    (MkSlot (u64 (c + capacity r)) (payload (slot r c))) →
  seq_state r' (c + 1) n ∧ items r c (S n) = payload (slot r c) :: items r' (c + 1) n.
Proof.
  intros [Hc Ec Ep Hn Hf Hr Hw] [Uc Ug Up Uo Us]. pose proof (seqcap_bounds r Hc).
  assert (∀ i, 0 < i < capacity r → slot r' (c + i) = slot r (c + i)) as Hne.
  { intros i Hi. rewrite Us, decide_False; [done|]. apply window_ne; lia. }
  assert (slot r' (c + capacity r) = MkSlot (u64 (c + capacity r)) (payload (slot r c))) as Heq.
  { rewrite Us, decide_True; [done|]. symmetry.
    rewrite <- (Z.mul_1_l (capacity r)) at 1. by rewrite Z.mod_add by lia. }
  split.
  - split; rewrite ?Uc; try done; try lia.
    + rewrite Up. f_equal. lia.
    + intros i Hi. replace (c + 1 + i) with (c + (i + 1)) by lia. rewrite Hne by lia.
      apply Hf. lia.
    + intros i Hi. replace (c + 1 + i) with (c + (i + 1)) by lia.
      destruct (decide (i + 1 = capacity r)) as [E|]; [by rewrite E, Heq|].
      rewrite Hne by lia. apply Hr. lia.
    + intros i Hi. replace (c + 1 + i) with (c + (i + 1)) by lia. rewrite Hne by lia.
      apply Hw. lia.
  - rewrite items_cons. f_equal. apply items_ext. intros i Hi.
    replace (c + 1 + i) with (c + (i + 1)) by lia. by rewrite Hne by lia.
Qed.

(** What the producer of the next position and the consumer of the next
    position find in their slot, as the signed difference the code computes. *)
Lemma seq_push_diff r c n :
  seq_state r c n →
  i64_sub (to_i64 (sequence (slot r (u64 (c + Z.of_nat n))))) (to_i64 (u64 (c + Z.of_nat n))) =
  if decide (Z.of_nat n = capacity r) then 1 - capacity r else 0.
Proof.
  intros [Hc _ _ Hn Hf Hr _]. pose proof (seqcap_bounds r Hc). rewrite slot_u64 by done.
  case_decide as E.
  - rewrite (slot_congr r Hc _ (c + 0)), Hf by
      (try lia; rewrite E, <- (Z.mul_1_l (capacity r)) at 1; rewrite Z.mod_add by lia; f_equal; lia).
    rewrite i64_sub_wrap; lia.
  - rewrite Hr, i64_sub_wrap by lia. lia.
Qed.

Lemma seq_pop_diff r c n :
  seq_state r c n →
  i64_sub (to_i64 (sequence (slot r (u64 c)))) (to_i64 (u64 (c + 1))) =
  if decide (n = 0%nat) then -1 else 0.
Proof.
  intros [Hc _ _ Hn Hf Hr _]. pose proof (seqcap_bounds r Hc). rewrite slot_u64 by done.
  rewrite <- (Z.add_0_r c) at 1. case_decide as E.
  - rewrite Hr, i64_sub_wrap by lia. lia.
  - rewrite Hf, i64_sub_wrap by lia. lia.
Qed.

Lemma u64_succ x : u64 (u64 x + 1) = u64 (x + 1).
Proof. unfold wrap. by rewrite Zplus_mod_idemp_l. Qed.

Lemma mod_u64 r x : good_capacity r → u64 x mod capacity r = x mod capacity r.
Proof. intros [(k & Hk & ->) _]. apply wrap_mod_pow2. lia. Qed.

Lemma updates_push_op r r' p c i s op f : updates r r' p c i s → updates r (push_op op f r') p c i s.
Proof. by intros []. Qed.

(** Both push paths end in the same ring: only the order of the counter's store
    and the payload copy differs. *)
Lemma push_updates r c n v :
  seq_state r c n →
  let pos := u64 (c + Z.of_nat n) in
  updates r (store_sequence pos (u64 (pos + 1)) (write_payload pos v (with_producer_seq (u64 (pos + 1)) r)))
    (u64 (c + Z.of_nat n + 1)) (u64 c) (c + Z.of_nat n)
    (MkSlot (u64 (c + Z.of_nat n + 1)) (pad PAYLOAD_BYTES v)).
Proof.
  intros [Hc Ec _ _ _ _ _] pos. subst pos. rewrite u64_succ.
  assert (good_capacity (with_producer_seq (u64 (c + Z.of_nat n + 1)) r)) as Hg by done.
  split; [done| |done|done|].
  - by do 2 apply good_capacity_set_slot.
  - intros j. unfold store_sequence, write_payload.
    rewrite !seq_set_slot by (try done; by apply good_capacity_set_slot).
    cbn [capacity with_slots set_slot with_producer_seq with_hdr].
    rewrite mod_u64 by done. case_decide; [by rewrite decide_True|done].
Qed.

Lemma pop_updates r c n :
  seq_state r c n →
  updates r (store_sequence (u64 c) (u64 (u64 c + capacity r)) (with_consumer_seq (u64 (c + 1)) r))
    (u64 (c + Z.of_nat n)) (u64 (c + 1)) c (MkSlot (u64 (c + capacity r)) (payload (slot r c))).
Proof.
  intros [Hc Ec Ep _ _ _ _].
  assert (good_capacity (with_consumer_seq (u64 (c + 1)) r)) as Hg by done.
  split; [done| |done|done|].
  - by apply good_capacity_set_slot.
  - intros j. unfold store_sequence. rewrite seq_set_slot by done.
    cbn [capacity with_consumer_seq with_hdr]. rewrite mod_u64 by done. case_decide; [|done].
    f_equal.
    + unfold wrap. by rewrite Zplus_mod_idemp_l.
    + change (slot (with_consumer_seq _ r) (u64 c)) with (slot r (u64 c)). by rewrite slot_u64.
Qed.

(** The weak exchange does not fail forever: some round is not spurious. *)
Definition settles (rounds : list bool) : Prop := false ∈ rounds.

Definition mpmc_cap (r : SharedRing) : nat := Z.to_nat (capacity r).

(** A call meets its specification: the ring stays well-formed, keeps its
    capacity and its contents, and the result is the contract's. *)
Definition push_meets (r r' : SharedRing) (v : list Z) (o : res RingError unit) : Prop :=
  wf r' ∧ mpmc_cap r' = mpmc_cap r ∧
  (contents r', o) = spec_push (mpmc_cap r) PAYLOAD_BYTES (contents r) v.

Definition pop_meets (r r' : SharedRing) (out out' : list Z) (o : res RingError Z) : Prop :=
  wf r' ∧ mpmc_cap r' = mpmc_cap r ∧
  (contents r', out', o) = spec_pop PAYLOAD_BYTES (contents r) out.

Lemma push_meets_refused r v op f c n :
  seq_state r c n → Z.of_nat n = capacity r → (length v ≤ PAYLOAD_BYTES)%nat →
  push_meets r r v (Err Full) ∧ push_meets r (push_op op f r) v (Err Full).
Proof.
  intros Hs Hn Hv. assert (wf r ∧ wf (push_op op f r)) as [H1 H2].
  { split; exists c, n; [done|]. by destruct Hs. }
  assert ((contents r, Err Full) = spec_push (mpmc_cap r) PAYLOAD_BYTES (contents r) v) as E.
  { unfold spec_push, mpmc_cap. rewrite (seq_contents r c n Hs), items_length, <- Hn, Nat2Z.id.
    destruct (Nat.ltb_spec PAYLOAD_BYTES (length v)); [lia|].
    by rewrite (proj2 (Nat.leb_le _ _)). }
  by repeat split.
Qed.

Lemma push_meets_accepted r r' v c n :
  seq_state r c n → Z.of_nat n < capacity r → (length v ≤ PAYLOAD_BYTES)%nat →
  updates r r' (u64 (c + Z.of_nat n + 1)) (u64 c) (c + Z.of_nat n)
    (MkSlot (u64 (c + Z.of_nat n + 1)) (pad PAYLOAD_BYTES v)) →
  push_meets r r' v (Ok tt).
Proof.
  intros Hs Hn Hv Hu. destruct (updates_push r r' c n _ Hs Hn (length_pad _ _ Hv) Hu) as [Hs' Hi].
  split; [by exists c, (S n)|]. split; [unfold mpmc_cap; by rewrite (up_cap _ _ _ _ _ _ Hu)|].
  unfold spec_push, mpmc_cap. rewrite (seq_contents r c n Hs), items_length, (seq_contents r' c (S n) Hs'), Hi.
  destruct (Nat.ltb_spec PAYLOAD_BYTES (length v)); [lia|].
  destruct (Nat.leb_spec (Z.to_nat (capacity r)) n); [lia|done].
Qed.

Lemma pop_meets_empty r out op f c :
  seq_state r c 0 → (PAYLOAD_BYTES ≤ length out)%nat →
  pop_meets r r out out (Err Empty) ∧ pop_meets r (push_op op f r) out out (Err Empty).
Proof.
  intros Hs Ho. assert (wf r ∧ wf (push_op op f r)) as [H1 H2].
  { split; exists c, 0%nat; [done|]. by destruct Hs. }
  assert ((contents r, out, Err Empty) = spec_pop PAYLOAD_BYTES (contents r) out) as E.
  { unfold spec_pop. rewrite (seq_contents r c 0 Hs).
    by destruct (Nat.ltb_spec (length out) PAYLOAD_BYTES); [lia|]. }
  by repeat split.
Qed.

Lemma pop_meets_taken r r' out c n :
  seq_state r c (S n) → (PAYLOAD_BYTES ≤ length out)%nat →
  updates r r' (u64 (c + Z.of_nat (S n))) (u64 (c + 1)) c
    (MkSlot (u64 (c + capacity r)) (payload (slot r c))) →
  pop_meets r r' out (overwrite (payload (slot r c)) out) (Ok (Z.of_nat PAYLOAD_BYTES)).
Proof.
  intros Hs Ho Hu. destruct (updates_pop r r' c n Hs Hu) as [Hs' Hi].
  split; [by exists (c + 1), n|]. split; [unfold mpmc_cap; by rewrite (up_cap _ _ _ _ _ _ Hu)|].
  unfold spec_pop. rewrite (seq_contents r c (S n) Hs), Hi, (seq_contents r' (c + 1) n Hs').
  by destruct (Nat.ltb_spec (length out) PAYLOAD_BYTES); [lia|].
Qed.

Lemma try_push_loop_meets rounds r v :
  wf r → (length v ≤ PAYLOAD_BYTES)%nat → settles rounds →
  ∃ r' o, try_push_loop rounds r v = (r', Some o) ∧ push_meets r r' v o.
Proof.
  intros (c & n & Hs) Hv. unfold settles. pose proof (seqcap_bounds r (ss_cap _ _ _ Hs)).
  induction rounds as [|b rounds IH]; [by intros ?%elem_of_nil|].
  intros Hin. cbn [try_push_loop]. rewrite (ss_prod _ _ _ Hs), (seq_push_diff _ _ _ Hs).
  case_decide as En.
  - rewrite (proj2 (Z.eqb_neq _ _)), (proj2 (Z.ltb_lt _ _)) by lia.
    do 2 eexists. split; [done|]. by apply (push_meets_refused r v _ _ c n).
  - cbn [Z.eqb]. destruct b; [apply IH; by apply elem_of_cons in Hin as []|].
    do 2 eexists. split; [done|]. apply (push_meets_accepted r _ v c n); try done.
    + pose proof (ss_n _ _ _ Hs). lia.
    + apply updates_push_op, (push_updates r c n v Hs).
Qed.

Lemma try_pop_loop_meets rounds r out :
  wf r → (PAYLOAD_BYTES ≤ length out)%nat → settles rounds →
  ∃ r' out' o, try_pop_loop rounds r out = (r', out', Some o) ∧ pop_meets r r' out out' o.
Proof.
  intros (c & n & Hs) Ho. unfold settles.
  induction rounds as [|b rounds IH]; [by intros ?%elem_of_nil|].
  intros Hin. cbn [try_pop_loop]. rewrite (ss_cons _ _ _ Hs), u64_succ, (seq_pop_diff _ _ _ Hs).
  case_decide as En; cbn [Z.eqb Z.ltb Z.compare].
  - subst n. do 3 eexists. split; [done|]. by apply (pop_meets_empty r out _ _ c).
  - destruct b; [apply IH; by apply elem_of_cons in Hin as []|].
    do 3 eexists. split; [done|]. destruct n as [|n]; [done|].
    change (slot (with_consumer_seq _ r) (u64 c)) with (slot r (u64 c)).
    rewrite slot_u64 by apply Hs. apply (pop_meets_taken r _ out c n); try done.
    apply updates_push_op. by apply pop_updates.
Qed.

Lemma try_push_meets rounds r v :
  wf r → settles rounds →
  ∃ r' o, try_push rounds r v = (r', Some o) ∧ push_meets r r' v o.
Proof.
  intros Hwf Hr. unfold try_push. destruct (Nat.ltb_spec PAYLOAD_BYTES (length v)).
  - do 2 eexists. split; [done|]. split; [done|]. split; [done|].
    unfold spec_push. by rewrite (proj2 (Nat.ltb_lt _ _)).
  - by apply try_push_loop_meets.
Qed.

Lemma try_pop_meets rounds r out :
  wf r → settles rounds →
  ∃ r' out' o, try_pop rounds r out = (r', out', Some o) ∧ pop_meets r r' out out' o.
Proof.
  intros Hwf Hr. unfold try_pop. destruct (Nat.ltb_spec (length out) PAYLOAD_BYTES).
  - do 3 eexists. split; [done|]. split; [done|]. split; [done|].
    unfold spec_pop. by rewrite (proj2 (Nat.ltb_lt _ _)).
  - by apply try_pop_loop_meets.
Qed.

(** The fast paths meet the same specification. *)
Lemma try_push_spsc_meets r v :
  wf r → push_meets r (try_push_spsc r v).1 v (try_push_spsc r v).2.
Proof.
  intros (c & n & Hs). pose proof (seqcap_bounds r (ss_cap _ _ _ Hs)).
  pose proof (ss_n _ _ _ Hs). unfold try_push_spsc.
  destruct (Nat.ltb_spec PAYLOAD_BYTES (length v)) as [Hv|Hv].
  { split; [by exists c, n|]. split; [done|]. unfold spec_push. by rewrite (proj2 (Nat.ltb_lt _ _)). }
  rewrite (ss_prod _ _ _ Hs), slot_u64 by apply Hs.
  destruct (decide (Z.of_nat n = capacity r)) as [En|En].
  - rewrite (slot_congr r (ss_cap _ _ _ Hs) _ (c + 0)), (ss_full _ _ _ Hs) by
      (try lia; rewrite En, <- (Z.mul_1_l (capacity r)) at 1; rewrite Z.mod_add by lia; f_equal; lia).
    destruct (Z.eqb_spec (u64 (c + 0 + 1)) (u64 (c + Z.of_nat n))) as [E|E].
    + apply wrap_inj in E; lia.
    + by apply (push_meets_refused r v 0 0 c n).
  - rewrite (ss_free _ _ _ Hs) by lia. rewrite Z.eqb_refl.
    apply (push_meets_accepted r _ v c n); try done; [lia|].
    exact (push_updates r c n v Hs).
Qed.

Lemma try_pop_spsc_meets r out :
  wf r → pop_meets r (try_pop_spsc r out).1.1 out (try_pop_spsc r out).1.2 (try_pop_spsc r out).2.
Proof.
  intros (c & n & Hs). unfold try_pop_spsc.
  destruct (Nat.ltb_spec (length out) PAYLOAD_BYTES) as [Hv|Hv].
  { split; [by exists c, n|]. split; [done|]. unfold spec_pop. by rewrite (proj2 (Nat.ltb_lt _ _)). }
  rewrite (ss_cons _ _ _ Hs), slot_u64, u64_succ by apply Hs.
  pose proof (seqcap_bounds r (ss_cap _ _ _ Hs)). destruct n as [|n].
  - pose proof (ss_free _ _ _ Hs 0) as E0. rewrite Z.add_0_r in E0. rewrite E0 by lia.
    destruct (Z.eqb_spec (u64 c) (u64 (c + 1))) as [E|E]; [apply wrap_inj in E; lia|].
    by apply (pop_meets_empty r out 0 0 c).
  - pose proof (ss_full _ _ _ Hs 0) as E0. rewrite Z.add_0_r in E0. rewrite E0 by lia.
    rewrite Z.eqb_refl. apply (pop_meets_taken r _ out c n); try done.
    by apply pop_updates.
Qed.

(** The ring as a bounded FIFO, with a weak exchange that succeeds at once. *)
Definition mpmc_push (r : SharedRing) (v : list Z) : SharedRing * res RingError unit :=
  match try_push [false] r v with
  | (r', Some o) => (r', o)
  | (r', None) => (r', Panic)
  end.

Definition mpmc_pop (r : SharedRing) (out : list Z) : SharedRing * list Z * res RingError Z :=
  match try_pop [false] r out with
  | (r', out', Some o) => (r', out', o)
  | (r', out', None) => (r', out', Panic)
  end.

#[export] Instance mpmc_fifo : BoundedFifo SharedRing := {|
  fifo_inv := wf;
  fifo_cap := mpmc_cap;
  fifo_width := PAYLOAD_BYTES;
  fifo_contents := contents;
  fifo_push := mpmc_push;
  fifo_pop := mpmc_pop;
|}.

#[export] Instance mpmc_fifo_laws : BoundedFifoLaws SharedRing.
Proof.
  split; cbn.
  - intros r v (c & n & Hs). rewrite (seq_contents r c n Hs). unfold items.
    intros (i & -> & Hi%elem_of_seq)%list_elem_of_fmap. apply (ss_width _ _ _ Hs). lia.
  - intros r v r' o Hwf. unfold mpmc_push.
    destruct (try_push_meets [false] r v) as (r1 & o1 & -> & Hm); [done|apply elem_of_cons; by left|].
    by intros [= <- <-].
  - intros r out r' out' o Hwf. unfold mpmc_pop.
    destruct (try_pop_meets [false] r out) as (r1 & out1 & o1 & -> & Hm);
      [done|apply elem_of_cons; by left|]. by intros [= <- <- <-].
Qed.

(** * Any number of threads *)

(** The program counter of a thread inside a call: before the load of its
    counter, of its slot's sequence, before the compare-exchange, the payload
    copy and the sequence's store. [PDead] is a producer that claimed a
    position and will never publish it. *)
Inductive thread :=
| Idle
| PLoadPos (v : list Z)
| PLoadSeq (v : list Z) (pos : Z)
| PCas (v : list Z) (pos : Z)
| PWrite (v : list Z) (pos : Z)
| PPublish (v : list Z) (pos : Z)
| PDone (o : res RingError unit)
| PDead (pos : Z)
| CLoadPos (out : list Z)
| CLoadSeq (out : list Z) (pos : Z)
| CCas (out : list Z) (pos : Z)
| CRead (out : list Z) (pos : Z)
| CRelease (data out : list Z) (pos : Z)
| CDone (out : list Z) (o : res RingError Z).

(** What a step shows: a position claimed for a payload, a refusal, a position
    taken, a payload returned with its position, a position healed. *)
Inductive mevent :=
| MTau
| Claimed (pos : Z) (v : list Z)
| PushFull (pos : Z)
| Taken (pos : Z)
| Returned (pos : Z) (data : list Z)
| PopEmpty (pos : Z)
| Healed (pos : Z) (data : list Z).

(** One atomic access of a thread; [spurious] is the weak exchange's choice. *)
Definition tstep (spurious : bool) (r : SharedRing) (t : thread) :
    SharedRing * thread * mevent :=
  match t with
  | PLoadPos v =>
      if (PAYLOAD_BYTES <? length v)%nat then (r, PDone (Err PayloadTooLarge), MTau)
      else (r, PLoadSeq v (producer_seq (header r)), MTau)
  | PLoadSeq v pos =>
      let diff := i64_sub (to_i64 (sequence (slot r pos))) (to_i64 pos) in
      if diff =? 0 then (r, PCas v pos, MTau)
      else if diff <? 0 then (push_op OP_PUSH 1 r, PDone (Err Full), PushFull pos)
      else (r, PLoadPos v, MTau)
  | PCas v pos =>
      if negb spurious && (producer_seq (header r) =? pos)
      then (with_producer_seq (u64 (pos + 1)) r, PWrite v pos, Claimed pos (pad PAYLOAD_BYTES v))
      else (r, PLoadPos v, MTau)
  | PWrite v pos => (write_payload pos v r, PPublish v pos, MTau)
  | PPublish v pos =>
      (push_op OP_PUSH 0 (store_sequence pos (u64 (pos + 1)) r), PDone (Ok tt), MTau)
  | CLoadPos out =>
      if (length out <? PAYLOAD_BYTES)%nat then (r, CDone out (Err PayloadTooLarge), MTau)
      else (r, CLoadSeq out (consumer_seq (header r)), MTau)
  | CLoadSeq out pos =>
      let diff := i64_sub (to_i64 (sequence (slot r pos))) (to_i64 (u64 (pos + 1))) in
      if diff =? 0 then (r, CCas out pos, MTau)
      else if diff <? 0 then (push_op OP_POP 2 r, CDone out (Err Empty), PopEmpty pos)
      else (r, CLoadPos out, MTau)
  | CCas out pos =>
      if negb spurious && (consumer_seq (header r) =? pos)
      then (with_consumer_seq (u64 (pos + 1)) r, CRead out pos, Taken pos)
      else (r, CLoadPos out, MTau)
  | CRead out pos =>
      let data := payload (slot r pos) in (r, CRelease data (overwrite data out) pos, MTau)
  | CRelease data out pos =>
      (push_op OP_POP 0 (store_sequence pos (u64 (pos + capacity r)) r),
       CDone out (Ok (Z.of_nat PAYLOAD_BYTES)), Returned pos data)
  | Idle | PDone _ | PDead _ | CDone _ _ => (r, t, MTau)
  end.

(** The position a thread owns for writing, for reading. *)
Definition writing (t : thread) : option Z :=
  match t with PWrite _ pos | PPublish _ pos | PDead pos => Some pos | _ => None end.
Definition reading (t : thread) : option Z :=
  match t with CRead _ pos | CRelease _ _ pos => Some pos | _ => None end.

Definition finished (t : thread) : bool :=
  match t with Idle | PDone _ | CDone _ _ => true | _ => false end.
Definition alive_writer (t : thread) : bool :=
  match t with PWrite _ _ | PPublish _ _ => true | _ => false end.

Record msys := MkMsys { mring : SharedRing; threads : list thread }.

Inductive mpmc_step : msys → mevent → msys → Prop :=
| mstep_thread r ts i b t r' t' e :
    ts !! i = Some t → tstep b r t = (r', t', e) →
    mpmc_step (MkMsys r ts) e (MkMsys r' (<[i := t']> ts))
| mstep_push r ts i t v :
    ts !! i = Some t → finished t = true →
    mpmc_step (MkMsys r ts) MTau (MkMsys r (<[i := PLoadPos v]> ts))
| mstep_pop r ts i t out :
    ts !! i = Some t → finished t = true →
    mpmc_step (MkMsys r ts) MTau (MkMsys r (<[i := CLoadPos out]> ts))
| mstep_crash r ts i t pos :
    ts !! i = Some t → alive_writer t = true → writing t = Some pos →
    mpmc_step (MkMsys r ts) MTau (MkMsys r (<[i := PDead pos]> ts))
| mstep_heal r ts i pos r' :
    ts !! i = Some (PDead pos) → heal_stuck_slot r pos = (r', Ok true) →
    mpmc_step (MkMsys r ts) (Healed pos (payload (slot r pos))) (MkMsys r' (<[i := Idle]> ts)).

(** The payload of every position claimed along a run, a healed position
    holding the bytes its slot held. *)
Definition record_event (h : list (list Z)) (e : mevent) : list (list Z) :=
  match e with
  | Claimed _ v => h ++ [v]
  | Healed pos d => <[Z.to_nat pos := d]> h
  | _ => h
  end.
Definition claims (tr : list mevent) : list (list Z) := fold_left record_event tr [].

(** ** The invariant *)

Definition owned_at (f : thread → option Z) (ts : list thread) (p : Z) : Prop :=
  ∃ i t, ts !! i = Some t ∧ f t = Some p.
Abbreviation writer_at := (owned_at writing).
Abbreviation reader_at := (owned_at reading).

(** A slot serving position [p]: waiting for the producer of [p] or being
    written by it, or published and not yet released. *)
Inductive slot_serves (cap P C : Z) (h : list (list Z)) (ts : list thread) (p : Z) (s : Slot) : Prop :=
| serves_free :
    sequence s = p → C ≤ p → P - cap ≤ p < C + cap →
    (p < P → writer_at ts p) → slot_serves cap P C h ts p s
| serves_item :
    sequence s = p + 1 → 0 ≤ p < P → P ≤ p + cap → h !! Z.to_nat p = Some (payload s) →
    (p < C → reader_at ts p) → slot_serves cap P C h ts p s.

Definition thread_ok (r : SharedRing) (h : list (list Z)) (t : thread) : Prop :=
  let P := producer_seq (header r) in
  let C := consumer_seq (header r) in
  match t with
  | Idle | PDone _ | CDone _ _ | PLoadPos _ | CLoadPos _ => True
  | PLoadSeq v pos => 0 ≤ pos ≤ P ∧ (length v ≤ PAYLOAD_BYTES)%nat
  | PCas v pos => 0 ≤ pos ≤ P ∧ (pos = P → sequence (slot r pos) = pos) ∧ (length v ≤ PAYLOAD_BYTES)%nat
  | PWrite v pos =>
      0 ≤ pos < P ∧ sequence (slot r pos) = pos ∧ h !! Z.to_nat pos = Some (pad PAYLOAD_BYTES v)
  | PPublish v pos =>
      0 ≤ pos < P ∧ sequence (slot r pos) = pos ∧ h !! Z.to_nat pos = Some (payload (slot r pos))
  | PDead pos => 0 ≤ pos < P ∧ sequence (slot r pos) = pos
  | CLoadSeq _ pos => 0 ≤ pos ≤ C
  | CCas _ pos => 0 ≤ pos ≤ C ∧ (pos = C → sequence (slot r pos) = pos + 1)
  | CRead _ pos => 0 ≤ pos < C ∧ sequence (slot r pos) = pos + 1
  | CRelease data _ pos =>
      0 ≤ pos < C ∧ sequence (slot r pos) = pos + 1 ∧ data = payload (slot r pos)
  end.

(** No two threads own one position for the same purpose. *)
Definition owns_once (f : thread → option Z) (ts : list thread) : Prop :=
  ∀ i j t u p, ts !! i = Some t → ts !! j = Some u → f t = Some p → f u = Some p → i = j.

Record minv (h : list (list Z)) (s : msys) : Prop := {
  mi_cap : good_capacity (mring s);
  mi_hist : producer_seq (header (mring s)) = Z.of_nat (length h);
  mi_order : 0 ≤ consumer_seq (header (mring s)) ≤ producer_seq (header (mring s));
  mi_bound : producer_seq (header (mring s)) ≤ consumer_seq (header (mring s)) + capacity (mring s);
  mi_slots q : ∃ p, p mod capacity (mring s) = q mod capacity (mring s) ∧
    slot_serves (capacity (mring s)) (producer_seq (header (mring s)))
      (consumer_seq (header (mring s))) h (threads s) p (slot (mring s) q);
  mi_threads i t : threads s !! i = Some t → thread_ok (mring s) h t;
  mi_writers : owns_once writing (threads s);
  mi_readers : owns_once reading (threads s);
}.

(** ** Ownership of positions *)

Lemma owned_at_insert f ts i t t' p :
  ts !! i = Some t → (f t = Some p → f t' = Some p) →
  owned_at f ts p → owned_at f (<[i := t']> ts) p.
Proof.
  intros Hi Hf (j & u & Hj & Hu). destruct (decide (i = j)) as [->|].
  - simplify_eq. exists j, t'. rewrite list_lookup_insert_eq by (by eapply lookup_lt_Some). auto.
  - exists j, u. by rewrite list_lookup_insert_ne.
Qed.

Lemma owned_at_self f ts i t t' p :
  ts !! i = Some t → f t' = Some p → owned_at f (<[i := t']> ts) p.
Proof.
  intros Hi Hf. exists i, t'. by rewrite list_lookup_insert_eq by (by eapply lookup_lt_Some).
Qed.

Lemma lookup_insert_cases (ts : list thread) i t t' j u :
  ts !! i = Some t → <[i := t']> ts !! j = Some u →
  (j = i ∧ u = t') ∨ (j ≠ i ∧ ts !! j = Some u).
Proof.
  intros Hi Hj. destruct (decide (i = j)) as [->|].
  - rewrite list_lookup_insert_eq in Hj by (by eapply lookup_lt_Some). left. by simplify_eq.
  - rewrite list_lookup_insert_ne in Hj by done. by right.
Qed.

Lemma owns_once_insert f ts i t t' :
  owns_once f ts → ts !! i = Some t →
  (∀ p, f t' = Some p → f t = Some p ∨ ¬ owned_at f ts p) →
  owns_once f (<[i := t']> ts).
Proof.
  intros Ho Hi Hf j k u w p Hj Hk Hu Hw.
  destruct (lookup_insert_cases _ _ _ _ _ _ Hi Hj) as [[-> ->]|[Hji Hj']],
    (lookup_insert_cases _ _ _ _ _ _ Hi Hk) as [[-> ->]|[Hki Hk']]; [done|..|by eauto].
  - destruct (Hf _ Hu) as [?|[]]; [by eauto|by exists k, w].
  - destruct (Hf _ Hw) as [?|[]]; [by eauto|by exists j, u].
Qed.

(** ** What a slot's sequence tells *)

Section reading_slots.
Context (h : list (list Z)) (r : SharedRing) (ts : list thread).
Context (Hi : minv h (MkMsys r ts)).
Abbreviation P := (producer_seq (header r)).
Abbreviation C := (consumer_seq (header r)).

Lemma free_at pos :
  sequence (slot r pos) = pos →
  C ≤ pos ∧ P - capacity r ≤ pos < C + capacity r ∧ (pos < P → writer_at ts pos).
Proof using Hi.
  intros E. pose proof (seqcap_bounds r (mi_cap _ _ Hi)).
  destruct (mi_slots _ _ Hi pos) as (p & Hp & Hs). destruct Hs as [Es|Es ? ? _ _]; cbn in *.
  - assert (p = pos) as -> by congruence. auto.
  - exfalso. apply mod_window_inj in Hp; lia.
Qed.

Lemma item_at pos :
  sequence (slot r pos) = pos + 1 →
  0 ≤ pos < P ∧ P ≤ pos + capacity r ∧ h !! Z.to_nat pos = Some (payload (slot r pos)) ∧
  (pos < C → reader_at ts pos).
Proof using Hi.
  intros E. pose proof (seqcap_bounds r (mi_cap _ _ Hi)).
  destruct (mi_slots _ _ Hi pos) as (p & Hp & Hs). destruct Hs as [Es|Es]; cbn in *.
  - exfalso. apply mod_window_inj in Hp; lia.
  - assert (p = pos) as -> by lia. auto.
Qed.

(** The slot of a claimed position has reached it. *)
Lemma seq_reached_push pos : 0 ≤ pos < P → pos ≤ sequence (slot r pos).
Proof using Hi.
  intros Hp. pose proof (seqcap_bounds r (mi_cap _ _ Hi)).
  destruct (mi_slots _ _ Hi pos) as (p & Ep & Hs). cbn in *.
  destruct (decide (pos ≤ p)); [destruct Hs; lia|].
  destruct (decide (p - pos ≤ - capacity r)); [destruct Hs; lia|].
  apply mod_window_inj in Ep; lia.
Qed.

(** The slot of a taken position has passed it. *)
Lemma seq_reached_pop pos : 0 ≤ pos < C → pos + 1 ≤ sequence (slot r pos).
Proof using Hi.
  intros Hp. pose proof (seqcap_bounds r (mi_cap _ _ Hi)). pose proof (mi_order _ _ Hi).
  destruct (mi_slots _ _ Hi pos) as (p & Ep & Hs). cbn in *.
  destruct Hs as [Es|Es]; [lia|].
  destruct (decide (pos ≤ p)); [lia|].
  destruct (decide (p - pos ≤ - capacity r)); [lia|].
  apply mod_window_inj in Ep; lia.
Qed.

(** No slot is further ahead than one lap of the consumers. *)
Lemma seq_bound pos : 0 ≤ sequence (slot r pos) < P + capacity r + 1.
Proof using Hi.
  pose proof (mi_order _ _ Hi). destruct (mi_slots _ _ Hi pos) as (p & _ & Hs).
  cbn in *. destruct Hs; lia.
Qed.

Lemma writer_bound p : owned_at writing ts p → 0 ≤ p < P ∧ sequence (slot r p) = p.
Proof using Hi.
  intros (i & t & Ht & Hw). pose proof (mi_threads _ _ Hi i t Ht) as Hok.
  destruct t; cbn in Hw; simplify_eq; cbn in Hok; naive_solver.
Qed.

Lemma reader_bound p : owned_at reading ts p → 0 ≤ p < C ∧ sequence (slot r p) = p + 1.
Proof using Hi.
  intros (i & t & Ht & Hw). pose proof (mi_threads _ _ Hi i t Ht) as Hok.
  destruct t; cbn in Hw; simplify_eq; cbn in Hok; naive_solver.
Qed.
End reading_slots.

(** ** Steps that leave the ring alone *)

Lemma slot_serves_mono cap P C h h' ts ts' p s :
  (p < P → writer_at ts p → writer_at ts' p) → (p < C → reader_at ts p → reader_at ts' p) →
  (h !! Z.to_nat p = Some (payload s) → h' !! Z.to_nat p = Some (payload s)) →
  slot_serves cap P C h ts p s → slot_serves cap P C h' ts' p s.
Proof. intros Hw Hr Hh []; [apply serves_free|apply serves_item]; auto. Qed.

Lemma minv_push_op h r ts op f : minv h (MkMsys r ts) → minv h (MkMsys (push_op op f r) ts).
Proof. by intros []. Qed.

(** A step after which the thread owns what it owned. *)
Lemma minv_local h r ts i t t' :
  minv h (MkMsys r ts) → ts !! i = Some t → thread_ok r h t' →
  writing t' = writing t → reading t' = reading t →
  minv h (MkMsys r (<[i := t']> ts)).
Proof.
  intros Hi Ht Hok Hw Hr. destruct Hi as [Hc Hh Ho Hb Hs Hts H1 H2]. split; cbn in *; try done.
  - intros q. destruct (Hs q) as (p & Hp & Hsv). exists p. split; [done|].
    revert Hsv. apply slot_serves_mono; [| |done]; intros _; apply owned_at_insert with t;
      congruence.
  - intros j u Hj. destruct (lookup_insert_cases _ _ _ _ _ _ Ht Hj) as [[-> ->]|[_ Hj']]; eauto.
  - apply owns_once_insert with t; [done..|]. rewrite Hw. auto.
  - apply owns_once_insert with t; [done..|]. rewrite Hr. auto.
Qed.

(** ** Steps that move a counter *)

(** The compare-exchange of a producer: position [P] is claimed. *)
Lemma minv_claim h r ts i v :
  let P := producer_seq (header r) in
  minv h (MkMsys r ts) → ts !! i = Some (PCas v P) → P + 1 < 2 ^ 63 →
  minv (h ++ [pad PAYLOAD_BYTES v])
    (MkMsys (with_producer_seq (P + 1) r) (<[i := PWrite v P]> ts)).
Proof.
  intros P Hi Ht Hlt. pose proof (seqcap_bounds r (mi_cap _ _ Hi)) as Hcb.
  pose proof (mi_threads _ _ Hi _ _ Ht) as (HP & Hseq & Hv). cbn in HP, Hseq.
  specialize (Hseq eq_refl). destruct (free_at _ _ _ Hi P Hseq) as (F1 & F2 & _).
  pose proof (writer_bound _ _ _ Hi) as Hwb.
  destruct Hi as [Hc Hh Ho Hb Hs Hts H1 H2]. cbn in *. fold P in Hh, Ho, Hb, Hs.
  assert (∀ k x, h !! k = Some x → (h ++ [pad PAYLOAD_BYTES v]) !! k = Some x) as Happ.
  { intros k x Hk. by apply lookup_app_l_Some. }
  split; cbn; try done; try lia.
  - rewrite length_app. cbn. lia.
  - intros q. change (slot (with_producer_seq _ r) q) with (slot r q).
    destruct (Hs q) as (p & Hp & Hsv). exists p. split; [done|].
    assert (p = P - capacity r → False) as Hlast.
    { intros ->. assert (P mod capacity r = q mod capacity r) as Eq.
      { rewrite <- Hp, <- (Z.mod_add (P - capacity r) 1) by lia. f_equal. lia. }
      rewrite (slot_congr r Hc _ _ Eq) in Hseq. destruct Hsv as [Es|Es]; lia. }
    destruct Hsv as [Es ? ? Hwr|Es ? ? Hpl Hrd].
    + apply serves_free; try done; [lia|]. intros Hp1. destruct (decide (p < P)).
      * apply (owned_at_insert _ _ _ _ _ _ Ht); [done|auto].
      * apply (owned_at_self _ _ _ _ _ _ Ht). cbn. f_equal. lia.
    + apply serves_item; try done; try lia; [by apply Happ|].
      intros Hlt'. apply (owned_at_insert _ _ _ _ _ _ Ht); [done|auto].
  - intros j u Hj. destruct (lookup_insert_cases _ _ _ _ _ _ Ht Hj) as [[-> ->]|[_ Hj']].
    + cbn. split_and!; [lia..|done|]. rewrite lookup_app_r by lia.
      by replace (Z.to_nat P - length h)%nat with 0%nat by lia.
    + specialize (Hts j u Hj'). fold P in Hts. destruct u; cbn in *;
        fold P; change (slot (with_producer_seq _ r) ?q) with (slot r q); naive_solver lia.
  - apply owns_once_insert with (PCas v P); [done..|]. intros p [= <-]. right.
    intros [? ?]%Hwb. lia.
  - by apply owns_once_insert with (PCas v P).
Qed.

(** The compare-exchange of a consumer: position [C] is taken. *)
Lemma minv_take h r ts i out :
  let C := consumer_seq (header r) in
  minv h (MkMsys r ts) → ts !! i = Some (CCas out C) →
  minv h (MkMsys (with_consumer_seq (C + 1) r) (<[i := CRead out C]> ts)).
Proof.
  intros C Hi Ht. pose proof (seqcap_bounds r (mi_cap _ _ Hi)) as Hcb.
  pose proof (mi_threads _ _ Hi _ _ Ht) as (HC & Hseq). cbn in HC, Hseq.
  specialize (Hseq eq_refl). destruct (item_at _ _ _ Hi C Hseq) as (F1 & F2 & _).
  pose proof (reader_bound _ _ _ Hi) as Hrb.
  destruct Hi as [Hc Hh Ho Hb Hs Hts H1 H2]. cbn in *. fold C in Ho, Hb, Hs.
  split; cbn; try done; try lia.
  - intros q. change (slot (with_consumer_seq _ r) q) with (slot r q).
    destruct (Hs q) as (p & Hp & Hsv). exists p. split; [done|].
    destruct Hsv as [Es ? ? Hwr|Es ? ? Hpl Hrd].
    + assert (p ≠ C) as Hne.
      { intros ->. rewrite (slot_congr r Hc _ _ Hp) in Hseq. lia. }
      apply serves_free; try done; [lia..|]. intros Hlt.
      apply (owned_at_insert _ _ _ _ _ _ Ht); [done|auto].
    + apply serves_item; try done. intros Hp1. destruct (decide (p < C)).
      * apply (owned_at_insert _ _ _ _ _ _ Ht); [done|auto].
      * apply (owned_at_self _ _ _ _ _ _ Ht). cbn. f_equal. lia.
  - intros j u Hj. destruct (lookup_insert_cases _ _ _ _ _ _ Ht Hj) as [[-> ->]|[_ Hj']].
    + cbn. split; [lia|done].
    + specialize (Hts j u Hj'). fold C in Hts. destruct u; cbn in *;
        fold C; change (slot (with_consumer_seq _ r) ?q) with (slot r q); naive_solver lia.
  - by apply owns_once_insert with (CCas out C).
  - apply owns_once_insert with (CCas out C); [done..|]. intros p [= <-]. right.
    intros [? ?]%Hrb. lia.
Qed.

(** ** Steps that change a slot *)

(** A thread other than the owner of a position being written does not depend
    on its slot, nor on the payload recorded for it. *)
Lemma writer_frame h h' r ts i j t u pos s :
  minv h (MkMsys r ts) → ts !! i = Some t → writing t = Some pos →
  ts !! j = Some u → j ≠ i → (∀ k, 0 ≤ k → k ≠ pos → h' !! Z.to_nat k = h !! Z.to_nat k) →
  thread_ok (set_slot pos s r) h' u.
Proof.
  intros Hi Ht Hw Hj Hne Hh. pose proof (seqcap_bounds r (mi_cap _ _ Hi)).
  destruct (writer_bound _ _ _ Hi pos) as [Hp Hseq]; [by exists i, t|].
  pose proof (mi_threads _ _ Hi _ _ Hj) as Hok. pose proof (mi_writers _ _ Hi j i) as Huniq.
  pose proof (seq_set_slot r (mi_cap _ _ Hi) pos) as Hss.
  pose proof (slot_congr r (mi_cap _ _ Hi)) as Hsc.
  assert (∀ q, sequence (slot r q) = q + 1 → slot (set_slot pos s r) q = slot r q) as Hrd.
  { intros q Eq. rewrite Hss, decide_False; [done|]. intros Em.
    rewrite (Hsc _ _ Em) in Hseq. apply mod_window_inj in Em; lia. }
  assert (∀ q, sequence (slot r q) = q → q ≠ pos → slot (set_slot pos s r) q = slot r q) as Hwr.
  { intros q Eq Hqp. rewrite Hss, decide_False; [done|]. intros Em.
    rewrite (Hsc _ _ Em) in Hseq. congruence. }
  assert (∀ q, writing u = Some q → q ≠ pos) as Hown.
  { intros q Hq ->. apply Hne. exact (Huniq _ _ _ Hj Ht Hq Hw). }
  destruct u; cbn [thread_ok writing] in *;
    change (header (set_slot pos s r)) with (header r); try done.
  - destruct Hok as (? & Hs & ?). split; [done|]. split; [|done]. intros E.
    rewrite Hwr by (auto || lia). auto.
  - destruct Hok as (? & Hs & ?). rewrite Hwr, Hh by (lia || auto). auto.
  - destruct Hok as (? & Hs & ?). rewrite Hwr, Hh by (lia || auto). auto.
  - destruct Hok as (? & Hs). rewrite Hwr by auto. auto.
  - destruct Hok as (? & Hs). split; [done|]. intros E. rewrite Hrd by auto. auto.
  - destruct Hok as (? & Hs). rewrite Hrd by auto. auto.
  - destruct Hok as (? & Hs & ?). rewrite Hrd by auto. auto.
Qed.

(** A slot whose owner writes it: the other slots serve what they served. *)
Lemma writer_slots h h' r ts i t t' pos s q :
  minv h (MkMsys r ts) → ts !! i = Some t → writing t = Some pos →
  reading t = None → q mod capacity r ≠ pos mod capacity r →
  (∀ k, 0 ≤ k → k ≠ pos → h' !! Z.to_nat k = h !! Z.to_nat k) →
  ∃ p, p mod capacity r = q mod capacity r ∧
    slot_serves (capacity r) (producer_seq (header r)) (consumer_seq (header r)) h'
      (<[i := t']> ts) p (slot (set_slot pos s r) q).
Proof.
  intros Hi Ht Hw Hr Hq Hh. rewrite seq_set_slot, decide_False by (try congruence; apply Hi).
  destruct (mi_slots _ _ Hi q) as (p & Hp & Hsv). cbn in *. exists p. split; [done|].
  assert (p ≠ pos) by congruence. pose proof (mi_order _ _ Hi). cbn in *.
  destruct Hsv as [Es ? ? Hwr|Es ? ? Hpl Hrd].
  - apply serves_free; try done. intros Hlt. apply (owned_at_insert _ _ _ _ _ _ Ht); [|auto].
    congruence.
  - apply serves_item; try done; [by rewrite Hh by lia|]. intros Hlt.
    apply (owned_at_insert _ _ _ _ _ _ Ht); [|auto]. congruence.
Qed.

Lemma seq_set_here r pos s : good_capacity r → slot (set_slot pos s r) pos = s.
Proof. intros. by rewrite seq_set_slot, decide_True. Qed.

Lemma writing_not_reading t p : writing t = Some p → reading t = None.
Proof. by destruct t. Qed.

(** A step of a position's owner: the slot takes [s] and the record of that
    position may change. *)
Lemma minv_writer h h' r ts i t t' pos s :
  minv h (MkMsys r ts) → ts !! i = Some t → writing t = Some pos →
  reading t' = None → (∀ p, writing t' = Some p → p = pos) →
  length h' = length h →
  (∀ k, 0 ≤ k → k ≠ pos → h' !! Z.to_nat k = h !! Z.to_nat k) →
  slot_serves (capacity r) (producer_seq (header r)) (consumer_seq (header r)) h'
    (<[i := t']> ts) pos s →
  thread_ok (set_slot pos s r) h' t' →
  minv h' (MkMsys (set_slot pos s r) (<[i := t']> ts)).
Proof.
  intros Hi Ht Hw Hr' Hw' Hlen Hh Hsv Hok'. pose proof (writing_not_reading _ _ Hw) as Hr.
  split; cbn.
  - by apply good_capacity_set_slot, (mi_cap _ _ Hi).
  - rewrite Hlen. apply (mi_hist _ _ Hi).
  - apply (mi_order _ _ Hi).
  - apply (mi_bound _ _ Hi).
  - intros q. destruct (decide (q mod capacity r = pos mod capacity r)) as [E|E].
    + exists pos. split; [done|]. rewrite seq_set_slot, decide_True by (done || apply Hi). done.
    + by apply (writer_slots h h' r ts i t t' pos s q).
  - intros j u Hj. destruct (lookup_insert_cases _ _ _ _ _ _ Ht Hj) as [[-> ->]|[Hne Hj']]; [done|].
    by apply (writer_frame h h' r ts i j t u pos s).
  - apply owns_once_insert with t; [apply Hi|done|]. intros p ->%Hw'. by left.
  - apply owns_once_insert with t; [apply Hi|done|]. by rewrite Hr'.
Qed.

Lemma minv_write h r ts i v pos :
  minv h (MkMsys r ts) → ts !! i = Some (PWrite v pos) →
  minv h (MkMsys (write_payload pos v r) (<[i := PPublish v pos]> ts)).
Proof.
  intros Hi Ht. destruct (mi_threads _ _ Hi _ _ Ht) as (Hp & Hs & Hh).
  destruct (free_at _ _ _ Hi pos Hs) as (? & ? & ?).
  apply (minv_writer h h r ts i (PWrite v pos)); try done.
  - by intros p [= ->].
  - apply serves_free; cbn; try done; try lia. intros _.
    by apply (owned_at_self _ _ _ _ _ _ Ht).
  - cbn [thread_ok]. rewrite seq_set_here by apply Hi. done.
Qed.

(** Publication, by the producer or by the watchdog in its stead. *)
Lemma minv_publish h h' r ts i t t' pos :
  minv h (MkMsys r ts) → ts !! i = Some t → writing t = Some pos → finished t' = true →
  length h' = length h →
  (∀ k, 0 ≤ k → k ≠ pos → h' !! Z.to_nat k = h !! Z.to_nat k) →
  h' !! Z.to_nat pos = Some (payload (slot r pos)) →
  minv h' (MkMsys (store_sequence pos (pos + 1) r) (<[i := t']> ts)).
Proof.
  intros Hi Ht Hw Hf Hlen Hh Hpos.
  destruct (writer_bound _ _ _ Hi pos) as [Hp Hs]; [by exists i, t|].
  destruct (free_at _ _ _ Hi pos Hs) as (? & ? & ?).
  apply (minv_writer h h' r ts i t); try done; try by destruct t'.
  apply serves_item; cbn; try done; try lia.
Qed.

(** The release of a slot by the consumer that read it. *)
Lemma reader_frame h r ts i j t u pos s :
  minv h (MkMsys r ts) → ts !! i = Some t → reading t = Some pos →
  ts !! j = Some u → j ≠ i → thread_ok (set_slot pos s r) h u.
Proof.
  intros Hi Ht Hw Hj Hne. pose proof (seqcap_bounds r (mi_cap _ _ Hi)).
  destruct (reader_bound _ _ _ Hi pos) as [Hp Hseq]; [by exists i, t|].
  pose proof (mi_threads _ _ Hi _ _ Hj) as Hok. pose proof (mi_readers _ _ Hi j i) as Huniq.
  pose proof (seq_set_slot r (mi_cap _ _ Hi) pos) as Hss.
  pose proof (slot_congr r (mi_cap _ _ Hi)) as Hsc.
  assert (∀ q, sequence (slot r q) = q → slot (set_slot pos s r) q = slot r q) as Hwr.
  { intros q Eq. rewrite Hss, decide_False; [done|]. intros Em.
    rewrite (Hsc _ _ Em) in Hseq. apply mod_window_inj in Em; lia. }
  assert (∀ q, sequence (slot r q) = q + 1 → q ≠ pos → slot (set_slot pos s r) q = slot r q) as Hrd.
  { intros q Eq Hqp. rewrite Hss, decide_False; [done|]. intros Em.
    rewrite (Hsc _ _ Em) in Hseq. lia. }
  assert (∀ q, reading u = Some q → q ≠ pos) as Hown.
  { intros q Hq ->. apply Hne. exact (Huniq _ _ _ Hj Ht Hq Hw). }
  destruct u; cbn [thread_ok reading] in *;
    change (header (set_slot pos s r)) with (header r); try done.
  - destruct Hok as (? & Hs & ?). split; [done|]. split; [|done]. intros E.
    rewrite Hwr by auto. auto.
  - destruct Hok as (? & Hs & ?). rewrite Hwr by auto. auto.
  - destruct Hok as (? & Hs & ?). rewrite Hwr by auto. auto.
  - destruct Hok as (? & Hs). rewrite Hwr by auto. auto.
  - destruct Hok as (? & Hs). split; [done|]. intros E. rewrite Hrd by (auto || lia). auto.
  - destruct Hok as (? & Hs). rewrite Hrd by auto. auto.
  - destruct Hok as (? & Hs & ?). rewrite Hrd by auto. auto.
Qed.

Lemma minv_release h r ts i data out pos o :
  minv h (MkMsys r ts) → ts !! i = Some (CRelease data out pos) →
  minv h (MkMsys (store_sequence pos (pos + capacity r) r) (<[i := CDone out o]> ts)).
Proof.
  intros Hi Ht. pose proof (seqcap_bounds r (mi_cap _ _ Hi)).
  destruct (mi_threads _ _ Hi _ _ Ht) as (Hp & Hs & _). cbn [mring] in Hp, Hs.
  destruct (item_at _ _ _ Hi pos Hs) as (? & ? & ? & _). pose proof (mi_order _ _ Hi) as Ho.
  cbn [mring] in Ho. split; cbn [mring threads]; unfold store_sequence; change (capacity (set_slot _ _ r)) with (capacity r);
    change (header (set_slot _ _ r)) with (header r).
  - by apply good_capacity_set_slot, (mi_cap _ _ Hi).
  - apply (mi_hist _ _ Hi).
  - apply Ho.
  - apply (mi_bound _ _ Hi).
  - intros q. rewrite seq_set_slot by apply Hi. case_decide as E.
    + exists (pos + capacity r). split.
      { rewrite <- (Z.mul_1_l (capacity r)) at 1. by rewrite Z.mod_add by lia. }
      apply serves_free; cbn [sequence]; try done; lia.
    + destruct (mi_slots _ _ Hi q) as (p & Eq & Hsv). exists p. split; [done|]. cbn [mring] in Eq.
      assert (p ≠ pos) by congruence. revert Hsv. apply slot_serves_mono; [| |done];
      intros _; apply (owned_at_insert _ _ _ _ _ _ Ht); [done|]. cbn. congruence.
  - intros j u Hj. destruct (lookup_insert_cases _ _ _ _ _ _ Ht Hj) as [[-> ->]|[Hne Hj']]; [done|].
    by apply (reader_frame h r ts i j (CRelease data out pos)).
  - by apply owns_once_insert with (CRelease data out pos); [apply Hi| |].
  - by apply owns_once_insert with (CRelease data out pos); [apply Hi| |].
Qed.

(** ** Every step keeps the invariant *)

(** What an event says about the state it happens in. *)
Definition event_ok (h : list (list Z)) (s : msys) (e : mevent) : Prop :=
  let P := producer_seq (header (mring s)) in
  let C := consumer_seq (header (mring s)) in
  match e with
  | MTau => True
  | Claimed pos v => pos = P
  | Taken pos => pos = C ∧ pos < P
  | Returned pos data => 0 ≤ pos < C ∧ h !! Z.to_nat pos = Some data
  | PushFull pos => pos = P ∧ (P = C + capacity (mring s) ∨ reader_at (threads s) (P - capacity (mring s)))
  | PopEmpty pos => pos = C ∧ (C = P ∨ writer_at (threads s) C)
  | Healed pos _ => C ≤ pos < P
  end.

(** Counters far enough from the word size for signed differences. *)
Definition in_range (r : SharedRing) : Prop :=
  producer_seq (header r) + capacity r + 1 < 2 ^ 63.

Section one_step.
Context (h : list (list Z)) (r : SharedRing) (ts : list thread).
Context (Hi : minv h (MkMsys r ts)) (Hrange : in_range r).
Abbreviation P := (producer_seq (header r)).
Abbreviation C := (consumer_seq (header r)).

Lemma push_diff pos :
  0 ≤ pos ≤ P → i64_sub (to_i64 (sequence (slot r pos))) (to_i64 pos) = sequence (slot r pos) - pos.
Proof using Hi Hrange.
  intros Hp. unfold in_range in *. pose proof (seq_bound _ _ _ Hi pos).
  pose proof (seqcap_bounds r (mi_cap _ _ Hi)). apply i64_sub_small; lia.
Qed.

Lemma pop_diff pos :
  0 ≤ pos ≤ C →
  i64_sub (to_i64 (sequence (slot r pos))) (to_i64 (u64 (pos + 1))) = sequence (slot r pos) - (pos + 1).
Proof using Hi Hrange.
  intros Hp. unfold in_range in *. pose proof (seq_bound _ _ _ Hi pos).
  pose proof (mi_order _ _ Hi). pose proof (seqcap_bounds r (mi_cap _ _ Hi)).
  cbn [mring] in *. rewrite wrap_small by lia. apply i64_sub_small; lia.
Qed.

(** [Full] is an answer about the present, never about a position already
    claimed by another producer: the slot a lap behind is still in use. *)
Lemma full_spec pos :
  0 ≤ pos ≤ P → sequence (slot r pos) < pos →
  pos = P ∧ (P = C + capacity r ∨ reader_at ts (P - capacity r)).
Proof using Hi.
  intros Hp Hs. pose proof (seqcap_bounds r (mi_cap _ _ Hi)). pose proof (mi_bound _ _ Hi).
  assert (pos = P) as ->.
  { destruct (decide (pos = P)); [done|]. pose proof (seq_reached_push _ _ _ Hi pos). lia. }
  split; [done|]. destruct (mi_slots _ _ Hi P) as (p & Ep & Hsv). cbn [mring threads] in *.
  destruct (decide (p = P - capacity r)) as [->|Hne].
  - destruct Hsv as [|Es ? ? ? Hrd]; [left; lia|].
    destruct (decide (P - capacity r < C)); [by right; apply Hrd|left; lia].
  - exfalso. destruct (decide (p ≤ P - capacity r)); [destruct Hsv; lia|].
    destruct (decide (p = P)) as [->|]; [destruct Hsv; lia|].
    destruct Hsv; [|apply mod_window_inj in Ep; lia].
    destruct (decide (p < P)); [apply mod_window_inj in Ep; lia|].
    destruct (decide (p - P < capacity r)); [apply mod_window_inj in Ep; lia|].
    pose proof (mi_order _ _ Hi). cbn [mring] in *. lia.
Qed.

(** [Empty] likewise: nothing is queued, or the next item is being written. *)
Lemma empty_spec pos :
  0 ≤ pos ≤ C → sequence (slot r pos) < pos + 1 → pos = C ∧ (C = P ∨ writer_at ts C).
Proof using Hi.
  intros Hp Hs. pose proof (seqcap_bounds r (mi_cap _ _ Hi)). pose proof (mi_order _ _ Hi) as Ho.
  assert (pos = C) as ->.
  { destruct (decide (pos = C)); [done|]. pose proof (seq_reached_pop _ _ _ Hi pos). lia. }
  split; [done|]. destruct (mi_slots _ _ Hi C) as (p & Ep & Hsv). cbn [mring threads] in *.
  destruct Hsv as [Es ? ? Hw|Es].
  - assert (p = C) as -> by lia. destruct (decide (C < P)); [right; by apply Hw|left; lia].
  - left. destruct (decide (p ≤ C - capacity r)); [lia|].
    assert (p = C) by (apply (mod_window_inj (capacity r)); lia). lia.
Qed.

Lemma push_side_step i t b r' t' e :
  ts !! i = Some t → tstep b r t = (r', t', e) → reading t = None →
  match t with CLoadPos _ | CLoadSeq _ _ | CCas _ _ => False | _ => True end →
  minv (record_event h e) (MkMsys r' (<[i := t']> ts)) ∧ event_ok h (MkMsys r ts) e.
Proof using Hi Hrange.
  intros Ht Hs Hr Hk. pose proof (mi_threads _ _ Hi _ _ Ht) as Hok.
  pose proof (mi_order _ _ Hi) as Ho. pose proof (seqcap_bounds r (mi_cap _ _ Hi)) as Hcb.
  unfold in_range in Hrange. cbn [mring] in Ho.
  destruct t; try done; cbn [tstep] in Hs.
  - injection Hs as <- <- <-. split; [|done]. by apply (minv_local _ _ _ _ _ _ Hi Ht).
  - destruct (Nat.ltb_spec PAYLOAD_BYTES (length v)); injection Hs as <- <- <-;
      (split; [|done]); apply (minv_local _ _ _ _ _ _ Hi Ht); try done. split; [lia|done].
  - destruct Hok as [Hp Hv]. cbn [mring] in Hp. rewrite push_diff in Hs by done.
    destruct (Z.eqb_spec (sequence (slot r pos) - pos) 0).
    { injection Hs as <- <- <-. split; [|done]. apply (minv_local _ _ _ _ _ _ Hi Ht); try done.
      split; [done|]. split; [lia|done]. }
    destruct (Z.ltb_spec (sequence (slot r pos) - pos) 0); injection Hs as <- <- <-.
    + split; [apply minv_push_op; by apply (minv_local _ _ _ _ _ _ Hi Ht)|].
      apply full_spec; lia.
    + split; [|done]. by apply (minv_local _ _ _ _ _ _ Hi Ht).
  - destruct (negb b && _) eqn:E; injection Hs as <- <- <-.
    + bool_to_prop. subst pos. split; [|done]. rewrite wrap_small by lia.
      apply (minv_claim _ _ _ _ _ Hi Ht). lia.
    + split; [|done]. by apply (minv_local _ _ _ _ _ _ Hi Ht).
  - injection Hs as <- <- <-. split; [|done]. by apply minv_write.
  - injection Hs as <- <- <-. split; [|done]. destruct Hok as (Hp & _ & Hh). cbn [mring] in *.
    rewrite wrap_small by lia. apply minv_push_op. by apply (minv_publish h h _ _ _ _ _ _ Hi Ht).
  - injection Hs as <- <- <-. split; [|done]. by apply (minv_local _ _ _ _ _ _ Hi Ht).
  - injection Hs as <- <- <-. split; [|done]. by apply (minv_local _ _ _ _ _ _ Hi Ht).
  - injection Hs as <- <- <-. split; [|done]. by apply (minv_local _ _ _ _ _ _ Hi Ht).
Qed.

Lemma pop_side_step i t b r' t' e :
  ts !! i = Some t → tstep b r t = (r', t', e) → 
  match t with CLoadPos _ | CLoadSeq _ _ | CCas _ _ | CRead _ _ | CRelease _ _ _ => True | _ => False end →
  minv (record_event h e) (MkMsys r' (<[i := t']> ts)) ∧ event_ok h (MkMsys r ts) e.
Proof using Hi Hrange.
  intros Ht Hs Hk. pose proof (mi_threads _ _ Hi _ _ Ht) as Hok.
  pose proof (mi_order _ _ Hi) as Ho. pose proof (seqcap_bounds r (mi_cap _ _ Hi)) as Hcb.
  unfold in_range in Hrange. cbn [mring] in Ho.
  destruct t; try done; cbn [tstep] in Hs.
  - destruct (Nat.ltb_spec (length out) PAYLOAD_BYTES); injection Hs as <- <- <-;
      (split; [|done]); apply (minv_local _ _ _ _ _ _ Hi Ht); try done. cbn [thread_ok]. lia.
  - cbn [thread_ok mring] in Hok. rewrite pop_diff in Hs by done.
    destruct (Z.eqb_spec (sequence (slot r pos) - (pos + 1)) 0).
    { injection Hs as <- <- <-. split; [|done]. apply (minv_local _ _ _ _ _ _ Hi Ht); try done.
      split; [done|lia]. }
    destruct (Z.ltb_spec (sequence (slot r pos) - (pos + 1)) 0); injection Hs as <- <- <-.
    + split; [apply minv_push_op; by apply (minv_local _ _ _ _ _ _ Hi Ht)|].
      apply empty_spec; lia.
    + split; [|done]. by apply (minv_local _ _ _ _ _ _ Hi Ht).
  - destruct (negb b && _) eqn:E; injection Hs as <- <- <-.
    + bool_to_prop. subst pos. rewrite wrap_small by lia. destruct Hok as [_ Hseq].
      destruct (item_at _ _ _ Hi C (Hseq eq_refl)) as (? & _).
      split; [apply (minv_take _ _ _ _ _ Hi Ht)|]. split; [done|]. cbn [mring]. lia.
    + split; [|done]. by apply (minv_local _ _ _ _ _ _ Hi Ht).
  - injection Hs as <- <- <-. split; [|done]. destruct Hok as [? ?].
    by apply (minv_local _ _ _ _ _ _ Hi Ht).
  - injection Hs as <- <- <-. destruct Hok as (Hp & Hseq & ->). cbn [mring] in *.
    destruct (item_at _ _ _ Hi pos Hseq) as (? & ? & Hh & _).
    split; [|done]. rewrite wrap_small by lia. apply minv_push_op, (minv_release _ _ _ _ _ _ _ _ Hi Ht).
Qed.
End one_step.

Lemma mpmc_step_inv h s e s' :
  minv h s → in_range (mring s) → mpmc_step s e s' →
  minv (record_event h e) s' ∧ event_ok h s e.
Proof.
  intros Hi Hr Hs. destruct Hs as [r ts i b t r' t' e Ht Hs|r ts i t v Ht Hf|r ts i t out Ht Hf
    |r ts i t pos Ht Ha Hw|r ts i pos r' Ht Hh]; cbn [mring] in *.
  - destruct t; first [by eapply push_side_step | by eapply pop_side_step].
  - split; [|done]. apply (minv_local _ _ _ _ _ _ Hi Ht); by destruct t.
  - split; [|done]. apply (minv_local _ _ _ _ _ _ Hi Ht); by destruct t.
  - split; [|done]. pose proof (mi_threads _ _ Hi _ _ Ht) as Hok.
    apply (minv_local _ _ _ _ _ _ Hi Ht); destruct t; cbn in Hw; simplify_eq; try done;
      cbn [thread_ok] in *; naive_solver.
  - unfold heal_stuck_slot in Hh. destruct (_ || _) eqn:Ew; [done|].
    destruct (_ =? _); [|done]. injection Hh as <-. bool_to_prop.
    destruct (mi_threads _ _ Hi _ _ Ht) as [Hp _]. cbn [mring] in Hp.
    pose proof (mi_hist _ _ Hi) as Hl. cbn [mring] in Hl. unfold in_range in Hr.
    pose proof (seqcap_bounds r (mi_cap _ _ Hi)).
    split; [|done]. rewrite wrap_small by lia. apply minv_push_op.
    apply (minv_publish h _ _ _ _ _ _ _ Hi Ht); try done; cbn [record_event].
    + by rewrite length_insert.
    + intros k Hk Hne. apply list_lookup_insert_ne. lia.
    + apply list_lookup_insert_eq. lia.
Qed.

(** A step moves the producers' counter by one at most and never the capacity. *)
Lemma mpmc_step_counter h s e s' :
  minv h s → in_range (mring s) → mpmc_step s e s' →
  capacity (mring s') = capacity (mring s) ∧
  producer_seq (header (mring s')) ≤ producer_seq (header (mring s)) + 1 ∧
  producer_seq (header (mring s)) ≤ producer_seq (header (mring s')).
Proof.
  intros Hi Hr Hs. destruct (mpmc_step_inv h s e s' Hi Hr Hs) as [Hi' _].
  rewrite (mi_hist _ _ Hi), (mi_hist _ _ Hi').
  split; [|destruct e; cbn; rewrite ?length_app, ?length_insert; cbn; lia].
  destruct Hs as [r ts i b t r' t' e Ht Hs| | | |r ts i pos r' Ht Hh]; try done; cbn.
  - destruct t; cbn [tstep] in Hs; repeat case_match; by simplify_eq.
  - unfold heal_stuck_slot in Hh. repeat case_match; by simplify_eq.
Qed.

(** ** Runs *)

(** A run short enough for the counters to stay in range keeps the invariant,
    and so do all its prefixes. *)
Lemma mpmc_run_inv h s tr s' :
  minv h s → ltrace mpmc_step s tr s' →
  producer_seq (header (mring s)) + Z.of_nat (length tr) + capacity (mring s) + 1 < 2 ^ 63 →
  minv (fold_left record_event tr h) s' ∧ capacity (mring s') = capacity (mring s) ∧
  producer_seq (header (mring s')) ≤ producer_seq (header (mring s)) + Z.of_nat (length tr).
Proof.
  intros Hi Ht. revert h Hi. induction Ht as [s|s e s1 tr s2 Hs _ IH]; intros h Hi Hb; cbn in *.
  - split_and!; [done..|lia].
  - assert (in_range (mring s)) as Hr by (unfold in_range; lia).
    destruct (mpmc_step_inv _ _ _ _ Hi Hr Hs) as [Hi1 _].
    destruct (mpmc_step_counter _ _ _ _ Hi Hr Hs) as (Ec & Hp & _).
    destruct (IH _ Hi1) as (H1 & H2 & H3); [lia|]. split_and!; [done|congruence|lia].
Qed.

(** Who reads what, step by step. *)
Definition event_reads (t t' : thread) (C C' : Z) (e : mevent) : Prop :=
  match e with
  | Taken pos => reading t = None ∧ reading t' = Some pos ∧ C = pos ∧ C' = pos + 1
  | Returned pos _ => reading t = Some pos ∧ reading t' = None ∧ C' = C
  | _ => reading t' = reading t ∧ C' = C
  end.

Lemma tstep_reads b r t r' t' e :
  consumer_seq (header r) + 1 < 2 ^ 63 → 0 ≤ consumer_seq (header r) →
  tstep b r t = (r', t', e) →
  event_reads t t' (consumer_seq (header r)) (consumer_seq (header r')) e.
Proof.
  intros Hb H0 Hs. destruct t; cbn [tstep] in Hs; repeat case_match; simplify_eq; try done.
  cbn [event_reads]. bool_to_prop. subst. split_and!; try done. cbn.
  by rewrite wrap_small by lia.
Qed.

Lemma mpmc_step_reads h s e s' :
  minv h s → in_range (mring s) → mpmc_step s e s' →
  ∃ i t t', threads s !! i = Some t ∧ threads s' = <[i := t']> (threads s) ∧
    event_reads t t' (consumer_seq (header (mring s))) (consumer_seq (header (mring s'))) e.
Proof.
  intros Hi Hr Hs. pose proof (mi_order _ _ Hi). pose proof (seqcap_bounds _ (mi_cap _ _ Hi)).
  unfold in_range in Hr.
  destruct Hs as [r ts i b t r' t' e Ht Hs|r ts i t v Ht Hf|r ts i t out Ht Hf
    |r ts i t pos Ht Ha Hw|r ts i pos r' Ht Hh]; cbn [mring threads] in *.
  - exists i, t, t'. split_and!; [done..|]. apply (tstep_reads b); [lia..|done].
  - exists i, t, (PLoadPos v). by destruct t.
  - exists i, t, (CLoadPos out). by destruct t.
  - exists i, t, (PDead pos). by destruct t.
  - exists i, (PDead pos), Idle. split_and!; [done..|].
    unfold heal_stuck_slot in Hh. repeat case_match; by simplify_eq.
Qed.

Lemma owned_at_change f ts i t t' p :
  ts !! i = Some t →
  owned_at f (<[i := t']> ts) p ↔
  f t' = Some p ∨ ∃ j u, j ≠ i ∧ ts !! j = Some u ∧ f u = Some p.
Proof.
  intros Hi. split.
  - intros (j & u & Hj & Hu). destruct (lookup_insert_cases _ _ _ _ _ _ Hi Hj) as [[-> ->]|[? ?]]; [by left|].
    right. by exists j, u.
  - intros [?|(j & u & Hne & Hj & Hu)]; [by apply (owned_at_self _ _ _ t)|].
    exists j, u. by rewrite list_lookup_insert_ne.
Qed.

Lemma owned_at_split f ts i t p :
  ts !! i = Some t →
  owned_at f ts p ↔ f t = Some p ∨ ∃ j u, j ≠ i ∧ ts !! j = Some u ∧ f u = Some p.
Proof. intros Hi. rewrite <- (owned_at_change f ts i t t p Hi). by rewrite list_insert_id. Qed.

(** ** What a run delivered *)

Definition claimed_positions (tr : list mevent) : list Z :=
  omap (λ e, match e with Claimed p _ => Some p | _ => None end) tr.
Definition taken_positions (tr : list mevent) : list Z :=
  omap (λ e, match e with Taken p => Some p | _ => None end) tr.
Definition returned_positions (tr : list mevent) : list Z :=
  omap (λ e, match e with Returned p _ => Some p | _ => None end) tr.

Record accounts (tr : list mevent) (s : msys) : Prop := {
  acc_inv : minv (claims tr) s;
  acc_claimed : claimed_positions tr = seqZ 0 (producer_seq (header (mring s)));
  acc_taken : taken_positions tr = seqZ 0 (consumer_seq (header (mring s)));
  acc_once : NoDup (returned_positions tr);
  acc_done p : p ∈ returned_positions tr ↔
    0 ≤ p < consumer_seq (header (mring s)) ∧ ¬ reader_at (threads s) p;
  acc_data p d : Returned p d ∈ tr → claims tr !! Z.to_nat p = Some d;
  acc_source p d : 0 ≤ p → claims tr !! Z.to_nat p = Some d → Claimed p d ∈ tr ∨ Healed p d ∈ tr;
}.

Lemma claims_snoc tr e : claims (tr ++ [e]) = record_event (claims tr) e.
Proof. unfold claims. by rewrite fold_left_app. Qed.

Lemma seqZ_snoc n : 0 ≤ n → seqZ 0 (n + 1) = seqZ 0 n ++ [n].
Proof. intros. rewrite seqZ_app by lia. by rewrite Z.add_0_l. Qed.

(** A payload already returned is not recorded again. *)
Lemma record_event_returned h s e p d :
  minv h s → event_ok h s e → 0 ≤ p < consumer_seq (header (mring s)) →
  h !! Z.to_nat p = Some d → record_event h e !! Z.to_nat p = Some d.
Proof.
  intros Hi He Hp Hd. destruct e; cbn in *; try done.
  - by apply lookup_app_l_Some.
  - rewrite list_lookup_insert_ne; [done|]. lia.
Qed.

(** What is recorded for a position was recorded before, or is the event's. *)
Lemma record_event_source h s e p d :
  minv h s → event_ok h s e → 0 ≤ p → record_event h e !! Z.to_nat p = Some d →
  h !! Z.to_nat p = Some d ∨ e = Claimed p d ∨ e = Healed p d.
Proof.
  intros Hi He Hp Hd. pose proof (mi_order _ _ Hi). pose proof (mi_hist _ _ Hi) as Hl.
  destruct e as [|q v| | | | |q v]; cbn in *; auto.
  - apply lookup_app_Some in Hd as [?|[Hge Hd]]; [by left|]. right. left.
    apply list_lookup_singleton_Some in Hd as [Hz <-]. f_equal. lia.
  - apply list_lookup_insert_Some in Hd as [(E & <- & _)|[_ ?]]; [|by left].
    right. right. f_equal. lia.
Qed.

Lemma event_reader_at h s e s' p :
  minv h s → in_range (mring s) → mpmc_step s e s' →
  reader_at (threads s') p ↔
  match e with
  | Taken q => p = q ∨ reader_at (threads s) p
  | Returned q _ => p ≠ q ∧ reader_at (threads s) p
  | _ => reader_at (threads s) p
  end.
Proof.
  intros Hi Hr Hs. destruct (mpmc_step_reads _ _ _ _ Hi Hr Hs) as (i & t & t' & Ht & -> & He).
  pose proof (mi_readers _ _ Hi) as Hu.
  rewrite (owned_at_change _ _ _ _ _ _ Ht).
  destruct e; cbn in He; rewrite (owned_at_split reading (threads s) i t p Ht);
    try (destruct He as [-> _]; done).
  - destruct He as (-> & -> & _). naive_solver.
  - destruct He as (E & -> & _). split.
    + intros [?|(j & u & Hne & Hj & Hu')]; [done|]. split; [|by eauto 10].
      intros ->. apply Hne. by eapply Hu.
    + intros (Hne & [?|?]); [congruence|by right].
Qed.

Lemma event_counters h s e s' :
  minv h s → in_range (mring s) → mpmc_step s e s' →
  consumer_seq (header (mring s')) =
    match e with Taken _ => consumer_seq (header (mring s)) + 1 | _ => consumer_seq (header (mring s)) end.
Proof.
  intros Hi Hr Hs. destruct (mpmc_step_reads _ _ _ _ Hi Hr Hs) as (i & t & t' & Ht & _ & He).
  destruct e; cbn in He; try (by destruct He as [_ ->]).
  - by destruct He as (_ & _ & -> & ->).
  - by destruct He as (_ & _ & ->).
Qed.

Lemma returned_snoc_done tr s e s' :
  accounts tr s → in_range (mring s) → mpmc_step s e s' →
  NoDup (returned_positions (tr ++ [e])) ∧
  ∀ p, p ∈ returned_positions (tr ++ [e]) ↔
    0 ≤ p < consumer_seq (header (mring s')) ∧ ¬ reader_at (threads s') p.
Proof.
  intros Ha Hr Hs. pose proof (acc_inv _ _ Ha) as Hi. pose proof (acc_once _ _ Ha) as Hn.
  pose proof (acc_done _ _ Ha) as Hd. pose proof (mi_order _ _ Hi) as Ho.
  pose proof (mpmc_step_inv _ _ _ _ Hi Hr Hs) as [_ Hok].
  pose proof (λ p, event_reader_at _ _ _ _ p Hi Hr Hs) as Hrd.
  rewrite (event_counters _ _ _ _ Hi Hr Hs). unfold returned_positions in *. rewrite omap_app.
  pose proof (reader_bound (claims tr) (mring s) (threads s)) as Hrb.
  destruct e as [| | |q|q d| |]; cbn; rewrite ?app_nil_r;
    try (split; [done|]; intros p; rewrite Hrd; apply Hd).
  - split; [done|]. intros p. rewrite Hrd, Hd. cbn in Hok.
    assert (¬ reader_at (threads s) q) as Hq.
    { intros [? ?]%Hrb; [lia|by destruct s]. }
    split; [intros [? Hn']; split; [lia|intros [->|?]; [lia|done]]|].
    intros [Hp Hn']. split; [|naive_solver]. destruct (decide (p = q)); [naive_solver|lia].
  - cbn in Hok. destruct (mpmc_step_reads _ _ _ _ Hi Hr Hs) as (i & t & t' & Ht & _ & Hx & _).
    assert (reader_at (threads s) q) as Hq by (by exists i, t).
    split.
    + apply NoDup_app. split_and!; [done| |apply NoDup_singleton].
      intros p Hp ->%list_elem_of_singleton. apply Hd in Hp. naive_solver.
    + intros p. rewrite elem_of_app, Hd, Hrd, list_elem_of_singleton.
      destruct (decide (p = q)) as [->|]; naive_solver.
Qed.

Lemma accounts_step tr s e s' :
  accounts tr s → in_range (mring s) → mpmc_step s e s' → accounts (tr ++ [e]) s'.
Proof.
  intros Ha Hr Hs. pose proof (acc_inv _ _ Ha) as Hi.
  destruct (mpmc_step_inv _ _ _ _ Hi Hr Hs) as [Hi' Hok].
  pose proof (event_counters _ _ _ _ Hi Hr Hs) as Ec.
  destruct (returned_snoc_done _ _ _ _ Ha Hr Hs) as [Hn Hd].
  pose proof (mi_order _ _ Hi) as Ho. pose proof (mi_hist _ _ Hi) as Hl.
  split; [by rewrite claims_snoc| | |done|done| |].
  - rewrite (mi_hist _ _ Hi'). unfold claimed_positions. rewrite omap_app.
    fold (claimed_positions tr). rewrite (acc_claimed _ _ Ha), Hl.
    destruct e; cbn; rewrite ?app_nil_r, ?length_app, ?length_insert; try done.
    cbn in Hok. cbn. rewrite Nat2Z.inj_add, seqZ_snoc by lia. congruence.
  - rewrite Ec. unfold taken_positions. rewrite omap_app. fold (taken_positions tr).
    rewrite (acc_taken _ _ Ha). destruct e; cbn; rewrite ?app_nil_r; try done.
    cbn in Hok. rewrite seqZ_snoc by lia. naive_solver.
  - intros p d [Hin|Heq%list_elem_of_singleton]%elem_of_app; rewrite claims_snoc.
    + apply (record_event_returned _ s); try done; [|by apply (acc_data _ _ Ha)].
      apply (acc_done _ _ Ha). unfold returned_positions. apply list_elem_of_omap.
      by exists (Returned p d).
    + subst e. by destruct Hok.
  - intros p d Hp Hd'. rewrite claims_snoc in Hd'.
    destruct (record_event_source _ _ _ _ _ Hi Hok Hp Hd') as [Hd0|[-> | ->]].
    + destruct (acc_source _ _ Ha p d Hp Hd0); [left|right]; mem.
    + left. mem.
    + right. mem.
Qed.

(** ** Fresh rings *)

(** A capacity whose size wraps: the mapping is the header alone, and laying
    out its slots writes past the end. *)
Lemma ring_size_wraps m :
  region_len m = ring_file_size (2 ^ 58) → create_anon (Ok m) (2 ^ 58) = Panic.
Proof.
  intros E. unfold create_anon. replace (capacity_ok (2 ^ 58)) with true by done.
  cbn [assert_ mbind res_bind]. unfold init_ring_layout_raw. by rewrite E.
Qed.

Record region_ok (m : ring_region) : Prop := {
  reg_fits : region_len m = HEADER_BYTES + SLOT_SIZE * Z.of_nat (length (region_slots m));
}.

Section fresh.
Context (b : SharedRingBacking) (m : ring_region) (cap : Z) (log : list (Z * Z)).
Context (Hcap : 0 ≤ cap < 2 ^ 64) (Hok : capacity_ok cap = true).
Definition fresh_ring : SharedRing := MkRing b cap (laid_out m cap) log.

Lemma fresh_good : good_capacity fresh_ring.
Proof using Hcap Hok.
  destruct (capacity_ok_spec cap Hcap Hok) as (k & Hk & E). split; cbn; [eauto|].
  rewrite length_app, length_fmap, length_seq. lia.
Qed.

Lemma fresh_slot q :
  slot fresh_ring q = MkSlot (q mod cap) (replicate PAYLOAD_BYTES 0).
Proof using Hcap Hok.
  pose proof (seqcap_bounds _ fresh_good) as Hcb. cbn in Hcb.
  pose proof (Z.mod_pos_bound q cap ltac:(lia)).
  unfold slot. rewrite seq_index_mod by apply fresh_good. cbn [fresh_ring capacity slots mem].
  apply list_lookup_total_correct. cbn. rewrite lookup_app_l by
    (rewrite length_fmap, length_seq; lia).
  rewrite list_lookup_fmap, lookup_seq_lt by lia. cbn. do 2 f_equal. lia.
Qed.

Lemma fresh_wf : wf fresh_ring ∧ contents fresh_ring = [].
Proof using Hcap Hok.
  pose proof (seqcap_bounds _ fresh_good) as Hcb. cbn in Hcb.
  split; [|done]. exists 0, 0%nat. split; try done; try (cbn; lia).
  - apply fresh_good.
  - intros i Hi. rewrite fresh_slot. cbn in *. by rewrite Z.mod_small, wrap_small by lia.
Qed.

Lemma fresh_accounts n : accounts [] (MkMsys fresh_ring (replicate n Idle)).
Proof using Hcap Hok.
  pose proof (seqcap_bounds _ fresh_good) as Hcb. cbn in Hcb.
  assert (∀ f p, f Idle = None → ¬ owned_at f (replicate n Idle) p) as Hno.
  { intros f p Hf (i & t & [-> _]%lookup_replicate & Hp). congruence. }
  split; cbn; try done.
  - split; cbn [mring threads]; try done; try apply fresh_good; try (cbn; lia).
    + intros q. cbn [capacity fresh_ring]. exists (q mod cap). rewrite Z.mod_mod by lia.
      split; [done|]. rewrite fresh_slot. pose proof (Z.mod_pos_bound q cap).
      apply serves_free; cbn; lia.
    + by intros i t [-> _]%lookup_replicate.
    + intros i j t u p [-> _]%lookup_replicate. done.
    + intros i j t u p [-> _]%lookup_replicate. done.
  - apply NoDup_nil_2.
  - intros p. split; [by intros ?%elem_of_nil|]. cbn. lia.
  - by intros p d ?%elem_of_nil.
Qed.

(** Every creation that returns gives a fresh ring, over a region that holds
    its slots. *)
Lemma init_layout_fresh m' : init_ring_layout_raw m cap = Ok m' →
  MkRing b cap m' log = fresh_ring ∧ HEADER_BYTES + cap * SLOT_SIZE ≤ region_len m.
Proof using.
  unfold init_ring_layout_raw. destruct (Z.ltb_spec (region_len m) (HEADER_BYTES + cap * SLOT_SIZE)); [done|].
  by intros [= <-].
Qed.
End fresh.

(** A run of [n] threads over a fresh ring, short of the [2^63] accesses that
    would take a counter out of the range of the signed comparison. *)
Definition fresh_run (r : SharedRing) (n : nat) (tr : list mevent) (s : msys) : Prop :=
  ltrace mpmc_step (MkMsys r (replicate n Idle)) tr s ∧
  Z.of_nat (length tr) + capacity r + 1 < 2 ^ 63.

Lemma run_accounts b m cap log n tr s :
  0 ≤ cap < 2 ^ 64 → capacity_ok cap = true →
  fresh_run (fresh_ring b m cap log) n tr s →
  accounts tr s ∧ capacity (mring s) = cap ∧
  producer_seq (header (mring s)) ≤ Z.of_nat (length tr).
Proof.
  intros Hc Hok [Ht Hb]. revert tr s Ht Hb. pose proof (fresh_accounts b m cap log Hc Hok n) as H0.
  refine (ltrace_rev_ind _ _ _ _ _).
  - intros _. split_and!; [done..|cbn; lia].
  - intros tr s1 e s2 _ IH Hs Hb. rewrite length_app in Hb. cbn in Hb.
    destruct IH as (Ha & Ec & Hp); [cbn; lia|].
    assert (in_range (mring s1)) as Hr by (unfold in_range; rewrite Ec; lia).
    destruct (mpmc_step_counter _ _ _ _ (acc_inv _ _ Ha) Hr Hs) as (Ec' & Hp' & _).
    split_and!; [by eapply accounts_step|congruence|]. rewrite length_app. cbn. lia.
Qed.

(** C3: any number of producers and consumers, some of them dying and being
    healed, over a ring created empty: positions are claimed by producers one
    after the other, so are they by consumers, never past the producers and
    never more than a capacity behind; every position a consumer took is
    returned exactly once or is being read. What is returned for a position is
    the payload its producer claimed it for, unless that producer died before
    publishing and the position was healed: then it is the bytes the slot held
    when it was healed. *)
Theorem mpmc_exactly_once b m cap log n tr s :
  0 ≤ cap < 2 ^ 64 → capacity_ok cap = true →
  fresh_run (fresh_ring b m cap log) n tr s →
  let P := producer_seq (header (mring s)) in
  let C := consumer_seq (header (mring s)) in
  claimed_positions tr = seqZ 0 P ∧ taken_positions tr = seqZ 0 C ∧ C ≤ P ≤ C + cap ∧
  NoDup (returned_positions tr) ∧
  (∀ p, p ∈ returned_positions tr ↔ 0 ≤ p < C ∧ ¬ reader_at (threads s) p) ∧
  (∀ p d, Returned p d ∈ tr → ∃ v, Claimed p v ∈ tr ∧ (d = v ∨ Healed p d ∈ tr)).
Proof.
  intros Hc Hok Hr. destruct (run_accounts _ _ _ _ _ _ _ Hc Hok Hr) as ([Hi H1 H2 H3 H4 H5 H6] & Ec & _).
  pose proof (mi_order _ _ Hi) as Ho. pose proof (mi_bound _ _ Hi). rewrite Ec in *.
  split_and!; auto; try lia. intros p d Hret.
  assert (p ∈ returned_positions tr) as [Hp _]%H4 by (apply list_elem_of_omap; by exists (Returned p d)).
  destruct (H6 p d ltac:(lia) (H5 p d Hret)) as [Hcl|Hhe]; [by eauto|].
  assert (p ∈ claimed_positions tr) as (e & He & Ee)%list_elem_of_omap by (rewrite H1; apply elem_of_seqZ; lia).
  destruct e; simplify_eq. eauto.
Qed.

(** The payload accesses that are not atomic. *)
Definition payload_access (t : thread) : option (bool * Z) :=
  match t with PWrite _ pos => Some (true, pos) | CRead _ pos => Some (false, pos) | _ => None end.

Lemma minv_race_free h r ts i j t u w pos pos' :
  minv h (MkMsys r ts) → i ≠ j → ts !! i = Some t → ts !! j = Some u →
  payload_access t = Some (true, pos) → payload_access u = Some (w, pos') →
  slot_index r pos ≠ slot_index r pos'.
Proof.
  intros Hi Hne Ht Hu Et Eu E. destruct t; cbn in Et; simplify_eq.
  pose proof (seqcap_bounds r (mi_cap _ _ Hi)).
  destruct (mi_threads _ _ Hi _ _ Ht) as (_ & Hs & _). cbn [mring] in Hs.
  apply slot_index_eq in E; [|apply Hi]. rewrite (slot_congr r (mi_cap _ _ Hi) _ _ E) in Hs.
  pose proof (mi_threads _ _ Hi _ _ Hu) as Hok. destruct u; cbn in Eu; simplify_eq; cbn in Hok.
  - destruct Hok as (_ & Hs' & _). apply Hne.
    eapply (mi_writers _ _ Hi); [exact Ht|exact Hu|reflexivity|cbn; congruence].
  - destruct Hok as (_ & Hs'). apply mod_window_inj in E; lia.
Qed.

(** C4: in every reachable state a producer about to copy its payload into a
    slot shares that slot with no other producer about to write and no
    consumer about to read. *)
Theorem mpmc_data_race_free b m cap log n tr s i j t u w pos pos' :
  0 ≤ cap < 2 ^ 64 → capacity_ok cap = true →
  fresh_run (fresh_ring b m cap log) n tr s → i ≠ j →
  threads s !! i = Some t → threads s !! j = Some u →
  payload_access t = Some (true, pos) → payload_access u = Some (w, pos') →
  slot_index (mring s) pos ≠ slot_index (mring s) pos'.
Proof.
  intros Hc Hok Hr Hne Ht Hu. destruct (run_accounts _ _ _ _ _ _ _ Hc Hok Hr) as ([Hi _ _ _ _ _] & _).
  destruct s as [r ts]. by apply (minv_race_free (claims tr) r ts i j t u).
Qed.

(** C5: a producer is told [Full] only when as many positions as the ring
    has slots are claimed and not taken, or a consumer is still reading the
    slot a lap behind; a consumer is told [Empty] only when every claimed
    position is taken, or the producer of the next one has not published it. *)
Theorem mpmc_refusals_are_true b m cap log n tr s e s' :
  0 ≤ cap < 2 ^ 64 → capacity_ok cap = true →
  fresh_run (fresh_ring b m cap log) n (tr ++ [e]) s' →
  ltrace mpmc_step (MkMsys (fresh_ring b m cap log) (replicate n Idle)) tr s →
  mpmc_step s e s' →
  let P := producer_seq (header (mring s)) in
  let C := consumer_seq (header (mring s)) in
  match e with
  | PushFull _ => P = C + cap ∨ reader_at (threads s) (P - cap)
  | PopEmpty _ => C = P ∨ writer_at (threads s) C
  | _ => True
  end.
Proof.
  intros Hc Hok [_ Hb] Ht Hs. rewrite length_app in Hb. cbn in Hb.
  destruct (run_accounts b m cap log n tr s Hc Hok) as (Ha & Ec & Hp).
  { split; [done|]. cbn. lia. }
  assert (in_range (mring s)) as Hr by (unfold in_range; rewrite Ec; lia).
  destruct (mpmc_step_inv _ _ _ _ (acc_inv _ _ Ha) Hr Hs) as [_ He].
  destruct e; cbn in He; try done; destruct He as [_ He]; by rewrite ?Ec in He.
Qed.

(** * The sequential contract, all paths *)

(** A call on the MPMC path, with the fates of its weak exchanges, or on the
    fast path. *)
Definition call_push (path : option (list bool)) (r : SharedRing) (v : list Z) :
    SharedRing * option (res RingError unit) :=
  match path with
  | Some rounds => try_push rounds r v
  | None => let '(r', o) := try_push_spsc r v in (r', Some o)
  end.

Definition call_pop (path : option (list bool)) (r : SharedRing) (out : list Z) :
    SharedRing * list Z * option (res RingError Z) :=
  match path with
  | Some rounds => try_pop rounds r out
  | None => let '(r', out', o) := try_pop_spsc r out in (r', out', Some o)
  end.

Fixpoint mixed_run (r : SharedRing) (ops : list (option (list bool) * qop)) :
    SharedRing * option (list qres) :=
  match ops with
  | [] => (r, Some [])
  | (path, OpPush v) :: ops =>
      let '(r1, o) := call_push path r v in
      let '(r2, os) := mixed_run r1 ops in
      (r2, o ← o; os ← os; Some (RPush o :: os))
  | (path, OpPop out) :: ops =>
      let '(r1, out', o) := call_pop path r out in
      let '(r2, os) := mixed_run r1 ops in
      (r2, o ← o; os ← os; Some (RPop out' o :: os))
  end.

Definition path_settles (path : option (list bool)) : Prop :=
  match path with Some rounds => settles rounds | None => True end.

Lemma call_push_meets path r v :
  wf r → path_settles path → ∃ r' o, call_push path r v = (r', Some o) ∧ push_meets r r' v o.
Proof.
  intros Hwf Hp. destruct path as [rounds|]; cbn; [by apply try_push_meets|].
  pose proof (try_push_spsc_meets r v Hwf). destruct (try_push_spsc r v). eauto.
Qed.

Lemma call_pop_meets path r out :
  wf r → path_settles path →
  ∃ r' out' o, call_pop path r out = (r', out', Some o) ∧ pop_meets r r' out out' o.
Proof.
  intros Hwf Hp. destruct path as [rounds|]; cbn; [by apply try_pop_meets|].
  pose proof (try_pop_spsc_meets r out Hwf). destruct (try_pop_spsc r out) as [[??]?]. eauto.
Qed.

(** Used by one thread at a time, on the MPMC path or on the
    single-producer and single-consumer fast paths in any mix, every sequence
    of calls terminates (given weak exchanges that do not fail spuriously for
    ever) and returns what the bounded FIFO returns, across the wrap of the
    64-bit counters. *)
Lemma mpmc_calls_refine_fifo r ops :
  wf r → Forall (λ c, path_settles c.1) ops →
  ∃ r' os, mixed_run r ops = (r', Some os) ∧ wf r' ∧
    spec_run (mpmc_cap r) PAYLOAD_BYTES (contents r) (ops.*2) = (contents r', os).
Proof.
  revert r. induction ops as [|[path [v|out]] ops IH]; intros r Hwf Hall; cbn.
  - by exists r, [].
  - inversion_clear Hall as [|?? Hp Hall'].
    destruct (call_push_meets path r v Hwf Hp) as (r1 & o & -> & Hwf1 & Hc1 & Hs).
    destruct (IH r1 Hwf1 Hall') as (r2 & os & -> & Hwf2 & Hr). exists r2, (RPush o :: os).
    split_and!; [done..|]. by rewrite <- Hs, <- Hc1, Hr.
  - inversion_clear Hall as [|?? Hp Hall'].
    destruct (call_pop_meets path r out Hwf Hp) as (r1 & out' & o & -> & Hwf1 & Hc1 & Hs).
    destruct (IH r1 Hwf1 Hall') as (r2 & os & -> & Hwf2 & Hr). exists r2, (RPop out' o :: os).
    split_and!; [done..|]. by rewrite <- Hs, <- Hc1, Hr.
Qed.

(** * Recovery *)

Lemma scan_stuck_spec n start r :
  match scan_stuck n start r with
  | Some p => start ≤ p < start + Z.of_nat n ∧ sequence (slot r p) = p ∧
              ∀ q, start ≤ q < p → sequence (slot r q) ≠ q
  | None => ∀ q, start ≤ q < start + Z.of_nat n → sequence (slot r q) ≠ q
  end.
Proof.
  revert start. induction n as [|n IH]; intros start; cbn [scan_stuck]; [lia|].
  destruct (Z.eqb_spec (sequence (slot r start)) start) as [E|E]; [split_and!; [lia..|done|lia]|].
  specialize (IH (start + 1)). destruct (scan_stuck n (start + 1) r) as [p|].
  - destruct IH as (? & ? & Hq). split_and!; [lia..|done|]. intros q Hq'.
    destruct (decide (q = start)) as [->|]; [done|]. apply Hq. lia.
  - intros q Hq. destruct (decide (q = start)) as [->|]; [done|]. apply IH. lia.
Qed.

(** A pop that finds its slot published, and one that finds it claimed. *)
Lemma try_pop_ready r out pos :
  consumer_seq (header r) = pos → 0 ≤ pos < 2 ^ 63 - 1 → sequence (slot r pos) = pos + 1 →
  (PAYLOAD_BYTES ≤ length out)%nat →
  (try_pop [false] r out).1.2 = overwrite (payload (slot r pos)) out ∧
  (try_pop [false] r out).2 = Some (Ok (Z.of_nat PAYLOAD_BYTES)).
Proof.
  intros Hc Hp Hs Ho. unfold try_pop. rewrite (proj2 (Nat.ltb_ge _ _)) by done.
  cbn [try_pop_loop]. rewrite Hc, Hs, wrap_small, i64_sub_small by lia.
  by rewrite Z.sub_diag.
Qed.

Lemma try_pop_claimed r out pos :
  consumer_seq (header r) = pos → 0 ≤ pos < 2 ^ 63 - 1 → sequence (slot r pos) = pos →
  (PAYLOAD_BYTES ≤ length out)%nat → (try_pop [false] r out).2 = Some (Err Empty).
Proof.
  intros Hc Hp Hs Ho. unfold try_pop. rewrite (proj2 (Nat.ltb_ge _ _)) by done.
  cbn [try_pop_loop]. rewrite Hc, Hs, wrap_small, i64_sub_small by lia.
  by replace (pos - (pos + 1)) with (-1) by lia.
Qed.

Lemma heal_outside r q :
  q < consumer_seq (header r) ∨ producer_seq (header r) ≤ q →
  heal_stuck_slot r q = (r, Ok false).
Proof.
  intros Hq. unfold heal_stuck_slot. destruct (Z.ltb_spec q (consumer_seq (header r))); [done|].
  by rewrite (proj2 (Z.leb_le _ _)) by lia.
Qed.

Lemma heal_inside r pos :
  consumer_seq (header r) ≤ pos < producer_seq (header r) →
  heal_stuck_slot r pos =
  if sequence (slot r pos) =? pos
  then (push_op OP_PUSH 4 (store_sequence pos (u64 (pos + 1)) r), Ok true) else (r, Ok false).
Proof.
  intros Hp. unfold heal_stuck_slot.
  by rewrite (proj2 (Z.ltb_ge _ _)), (proj2 (Z.leb_gt _ _)) by lia.
Qed.

(** When the producer of the next position to be popped has died, a
    consumer is told [Empty]; the scan reports that position first; healing it
    succeeds, a second heal and the heal of any position outside the window do
    nothing, and the next pop returns the bytes the slot holds. *)
Lemma mpmc_heal_unblocks h r ts i pos out :
  minv h (MkMsys r ts) → in_range r → ts !! i = Some (PDead pos) →
  pos = consumer_seq (header r) → (PAYLOAD_BYTES ≤ length out)%nat →
  (try_pop [false] r out).2 = Some (Err Empty) ∧
  next_stuck_slot r 0 = Some pos ∧
  (∀ q, q < pos ∨ producer_seq (header r) ≤ q → heal_stuck_slot r q = (r, Ok false)) ∧
  ∃ r', heal_stuck_slot r pos = (r', Ok true) ∧ heal_stuck_slot r' pos = (r', Ok false) ∧
    (try_pop [false] r' out).1.2 = overwrite (payload (slot r pos)) out ∧
    (try_pop [false] r' out).2 = Some (Ok (Z.of_nat PAYLOAD_BYTES)).
Proof.
  intros Hi Hr Ht Hpos Ho. destruct (mi_threads _ _ Hi _ _ Ht) as [Hp Hs]. cbn [mring] in Hp, Hs.
  pose proof (seqcap_bounds r (mi_cap _ _ Hi)). unfold in_range in Hr.
  set (r' := push_op OP_PUSH 4 (store_sequence pos (u64 (pos + 1)) r)).
  assert (slot r' pos = MkSlot (pos + 1) (payload (slot r pos))) as Es.
  { change (slot r' pos) with (slot (store_sequence pos (u64 (pos + 1)) r) pos).
    unfold store_sequence. by rewrite seq_set_here, wrap_small by (lia || apply Hi). }
  split_and!.
  - apply (try_pop_claimed r out pos); auto; lia.
  - unfold next_stuck_slot. rewrite Z.max_r, <- Hpos by lia.
    destruct (Z.to_nat _) eqn:En; [lia|]. cbn [scan_stuck]. by rewrite Hs, Z.eqb_refl.
  - intros q Hq. apply heal_outside. lia.
  - exists r'. split_and!.
    + rewrite heal_inside, Hs, Z.eqb_refl by lia. done.
    + rewrite heal_inside, Es by (change (header r') with (header r); lia). cbn [sequence].
      by rewrite (proj2 (Z.eqb_neq _ _)) by lia.
    + replace (payload (slot r pos)) with (payload (slot r' pos)) by (by rewrite Es).
      apply try_pop_ready; auto; [lia|by rewrite Es].
    + apply (try_pop_ready r' out pos); auto; [lia|by rewrite Es].
Qed.

(** ** Witnesses: two threads over a two-slot ring *)

Definition region2 : ring_region := MkRegion 4096 320 (MkHeader 0 0 0 0 0 0) [].
Definition ring2 : SharedRing := fresh_ring Region region2 2 [].
Definition zeros : list Z := replicate PAYLOAD_BYTES 0.

(** Run one access of thread [i], or start a call. *)
Ltac mtick i := eapply ltrace_cons; [eapply (mstep_thread _ _ i false); reflexivity|].
Ltac mcall_push i v := eapply ltrace_cons; [eapply (mstep_push _ _ i _ v); reflexivity|].
Ltac mcall_pop i out := eapply ltrace_cons; [eapply (mstep_pop _ _ i _ out); reflexivity|].

Definition push_events (pos : Z) (v : list Z) : list mevent :=
  [MTau; MTau; MTau; Claimed pos (pad PAYLOAD_BYTES v)].

(** A push, a pop up to its read, and the claim of a second push. *)
Definition racing_events : list mevent :=
  push_events 0 [1; 2] ++ [MTau; MTau; MTau; MTau; MTau; Taken 0] ++ push_events 1 [3].

Lemma racing_run :
  ∃ s, fresh_run ring2 2 racing_events s ∧
       threads s = [PWrite [3] 1; CRead zeros 0].
Proof.
  eexists. split; [split; [|cbn; lia]|].
  { mcall_push 0%nat [1; 2]. do 5 mtick 0%nat. mcall_pop 1%nat zeros. do 3 mtick 1%nat.
    mcall_push 0%nat [3]. do 3 mtick 0%nat. apply ltrace_nil. }
  reflexivity.
Qed.

Definition pop_events : list mevent :=
  push_events 0 [1; 2] ++
  [MTau; MTau; MTau; MTau; MTau; Taken 0; MTau; Returned 0 (pad PAYLOAD_BYTES [1; 2])].

Lemma popping_run : ∃ s, fresh_run ring2 2 pop_events s.
Proof.
  eexists. split; [|cbn; lia].
  mcall_push 0%nat [1; 2]. do 5 mtick 0%nat. mcall_pop 1%nat zeros. do 5 mtick 1%nat.
  apply ltrace_nil.
Qed.

Lemma mpmc_exactly_once_witness :
  ∃ v, Claimed 0 v ∈ pop_events ∧ (pad PAYLOAD_BYTES [1; 2] = v ∨ Healed 0 (pad PAYLOAD_BYTES [1; 2]) ∈ pop_events).
Proof.
  destruct popping_run as (s & Hs).
  destruct (mpmc_exactly_once Region region2 2 [] 2 pop_events s) as (_ & _ & _ & _ & _ & Hd);
    [lia|reflexivity|exact Hs|].
  apply (Hd 0). apply list_elem_of_In. vm_compute. intuition.
Defined.

Lemma mpmc_data_race_free_witness : ∃ s, slot_index (mring s) 1 ≠ slot_index (mring s) 0.
Proof.
  destruct racing_run as (s & Hs & Ht). exists s.
  apply (mpmc_data_race_free Region region2 2 [] 2 racing_events s 0 1 (PWrite [3] 1) (CRead zeros 0) false);
    [lia|reflexivity|exact Hs|done|by rewrite Ht..|done|done].
Defined.

Lemma mpmc_refusals_are_true_witness :
  ∃ s s', mpmc_step s (PopEmpty 0) s' ∧
    (consumer_seq (header (mring s)) = producer_seq (header (mring s)) ∨
     writer_at (threads s) (consumer_seq (header (mring s)))).
Proof.
  assert (∃ s s', ltrace mpmc_step (MkMsys ring2 (replicate 2 Idle)) [MTau; MTau] s ∧
                  mpmc_step s (PopEmpty 0) s') as (s & s' & Ht & Hs).
  { do 2 eexists. split; [mcall_pop 1%nat zeros; mtick 1%nat; apply ltrace_nil|].
    eapply (mstep_thread _ _ 1 false); reflexivity. }
  exists s, s'. split; [exact Hs|].
  apply (mpmc_refusals_are_true Region region2 2 [] 2 [MTau; MTau] s (PopEmpty 0) s');
    [lia|reflexivity| |exact Ht|exact Hs].
  split; [|cbn; lia]. eapply ltrace_app; [exact Ht|]. eapply ltrace_cons; [exact Hs|constructor].
Defined.

Lemma vring2_wf : wf ring2.
Proof. by apply fresh_wf. Qed.

Lemma dying_run :
  ∃ s, fresh_run ring2 2 (push_events 0 [5] ++ [MTau]) s ∧ threads s = [PDead 0; Idle] ∧
       consumer_seq (header (mring s)) = 0 ∧ producer_seq (header (mring s)) = 1.
Proof.
  eexists. split; [split; [|cbn; lia]|].
  { mcall_push 0%nat [5]. do 3 mtick 0%nat.
    eapply ltrace_cons; [eapply (mstep_crash _ _ 0); reflexivity|apply ltrace_nil]. }
  by cbn.
Qed.
