(* ===== verification/Grid.v ===== *)
(** The sharded rings of [crates/subetha-cxc/src/mpsc_ring.rs] and
    [mpmc_ring.rs]: one ring per producer, drained round-robin by one consumer
    ([SharedRingMpsc]) or by several consumers that split the rings among
    themselves ([SharedRingMpmc]).

    The rings live in a store; the handles hold indices into it, as the Rust
    handles hold [Arc]s to the same rings, so what a producer pushes a consumer
    pops.  The two consumers' [try_pop] are one definition here, as they are
    the same code in the two files.  The drain is proved against the
    [BoundedFifo] interface, so for every ring that implements it; the
    constructors are those of the SPSC ring. *)
From S2P Require Import Prelude Queue.
From S2P Require SpscRing.

(** [MpscConsumer] and [MpmcConsumer]. *)
Record consumer := MkConsumer { rings : list nat; next_drain : nat }.

Section code.
Context `{BoundedFifo R}.

(** The loop over the offsets [offs] of [try_pop]: the first ring whose pop
    succeeds, with its index among the consumer's rings. *)
Fixpoint drain (offs : list nat) (start : nat) (ids : list nat) (store : list R) (out : list Z) :
    list R * list Z * res RingError (Z * nat) :=
  match offs with
  | [] => (store, out, Err Empty)
  | i :: offs =>
      let idx := ((start + i) mod length ids)%nat in
      match ids !! idx ≫= λ j, pair j <$> store !! j with
      | None => (store, out, Panic)
      | Some (j, r) =>
          let '(r', out', o) := fifo_pop r out in
          let store' := <[j := r']> store in
          match o with
          | Ok bytes => (store', out', Ok (bytes, idx))
          | Err _ => drain offs start ids store' out'
          | Panic => (store', out', Panic)
          end
      end
  end.

Definition consumer_try_pop (c : consumer) (store : list R) (out : list Z) :
    list R * consumer * list Z * res RingError Z :=
  let n := length (rings c) in
  let '(store', out', o) := drain (seq 0 n) (next_drain c) (rings c) store out in
  match o with
  | Ok (bytes, idx) => (store', MkConsumer (rings c) ((idx + 1) mod n), out', Ok bytes)
  | Err e => (store', c, out', Err e)
  | Panic => (store', c, out', Panic)
  end.

(** [MpscProducer::try_push], [MpmcProducer::try_push]. *)
Definition producer_try_push (p : nat) (store : list R) (v : list Z) :
    list R * res RingError unit :=
  match store !! p with
  | None => (store, Panic)
  | Some r => let '(r', o) := fifo_push r v in (<[p := r']> store, o)
  end.
End code.

(** Rings handed out round-robin to [n_consumers] consumers. *)
Definition build_grid (ids : list nat) (n_consumers : nat) : list nat * list consumer :=
  let subsets :=
    fold_left (λ acc e, alter (λ s, s ++ [e.2]) (e.1 mod n_consumers)%nat acc)
      (imap pair ids) (replicate n_consumers []) in
  (ids, (λ s, MkConsumer s 0) <$> subsets).

(** ** Construction *)

(** [for i in 0..n { rings.push(mk(i)?) }]. *)
Fixpoint create_rings {R} (mk : nat → res RingError R) (offs : list nat) : res RingError (list R) :=
  match offs with
  | [] => Ok []
  | i :: offs => r ← mk i; rs ← create_rings mk offs; Ok (r :: rs)
  end.

(** The pool constructors of the MPSC ring; [mk] makes the [i]-th SPSC ring
    (anonymous, created at or opened from the [i]-th path). *)
Definition create_pool (mk : nat → res RingError SpscRing.SpscRingCore) (n_producers : nat) :
    res RingError (list SpscRing.SpscRingCore * (list nat * consumer)) :=
  _ ← assert_ (1 <=? n_producers)%nat;
  rings ← create_rings mk (seq 0 n_producers);
  Ok (rings, (seq 0 n_producers, MkConsumer (seq 0 n_producers) 0)).

(** The grid constructors of the MPMC ring. *)
Definition create_grid (mk : nat → res RingError SpscRing.SpscRingCore)
    (n_producers n_consumers : nat) :
    res RingError (list SpscRing.SpscRingCore * (list nat * list consumer)) :=
  _ ← assert_ (1 <=? n_consumers)%nat;
  _ ← assert_ (n_consumers <=? n_producers)%nat;
  rings ← create_rings mk (seq 0 n_producers);
  Ok (rings, build_grid (seq 0 n_producers) n_consumers).

Definition mpsc_create_anon_pool (mapped : nat → res RingError SpscRing.region) (n : nat) (cap : Z) :=
  create_pool (λ i, SpscRing.create_anon (mapped i) cap) n.
Definition mpsc_create_pool (attached : nat → res RingError SpscRing.region) (n : nat) (cap : Z) :=
  create_pool (λ i, SpscRing.create (attached i) cap) n.
Definition mpsc_open_pool (opened : nat → res RingError SpscRing.region) (n : nat) (cap : Z) :=
  create_pool (λ i, SpscRing.open (opened i) cap) n.
Definition mpmc_create_anon_grid (mapped : nat → res RingError SpscRing.region) (n m : nat) (cap : Z) :=
  create_grid (λ i, SpscRing.create_anon (mapped i) cap) n m.
Definition mpmc_create_grid (attached : nat → res RingError SpscRing.region) (n m : nat) (cap : Z) :=
  create_grid (λ i, SpscRing.create (attached i) cap) n m.
Definition mpmc_open_grid (opened : nat → res RingError SpscRing.region) (n m : nat) (cap : Z) :=
  create_grid (λ i, SpscRing.open (opened i) cap) n m.

(** A region seen as bytes that can be carved into lanes: [lane off len] is
    what the [len] bytes at [off] hold. *)
Record carved := MkCarved {
  whole_ptr : Z;
  whole_len : Z;
  lane_bytes_at : Z → SpscRing.SpscHeader * list (list Z);
}.

(** The [SubRegion] of lane [i]. *)
Definition sub_region (m : carved) (lane_bytes : Z) (i : nat) : SpscRing.region :=
  let off := Z.of_nat i * lane_bytes in
  let '(h, s) := lane_bytes_at m off in
  SpscRing.MkRegion (whole_ptr m + off) lane_bytes h s.

Definition create_grid_in_region (m : carved) (n_producers n_consumers : nat) (cap : Z) :
    res RingError (list SpscRing.SpscRingCore * (list nat * list consumer)) :=
  _ ← assert_ (1 <=? n_consumers)%nat;
  _ ← assert_ (n_consumers <=? n_producers)%nat;
  let lane_bytes := SpscRing.spsc_ring_file_size cap in
  let need := lane_bytes * Z.of_nat n_producers in
  if 2 ^ 64 <=? need then Err LayoutMismatch
  else if whole_len m <? need then Err LayoutMismatch
  else
    rings ← create_rings (λ i, SpscRing.create_in_region (sub_region m lane_bytes i) cap)
              (seq 0 n_producers);
    Ok (rings, build_grid (seq 0 n_producers) n_consumers).

(** * Which consumer drains which ring *)

Section partition.
Context (m : nat).

(** One element more goes to one subset. *)
Lemma build_grid_fold ids k acc :
  length acc = m →
  let res := fold_left (λ acc (e : nat * nat), alter (λ s, s ++ [e.2]) (e.1 mod m)%nat acc)
    (imap (λ i, pair (k + i)%nat) ids) acc in
  length res = m ∧
  ∀ j s, acc !! j = Some s →
    res !! j = Some (s ++ (filter (λ e, e.1 mod m = j)%nat (imap (λ i, pair (k + i)%nat) ids)).*2).
Proof using Type.
  revert k acc. induction ids as [|x ids IH]; intros k acc Hl.
  - split; [done|]. intros j s Hs. cbn. by rewrite app_nil_r.
  - rewrite imap_cons, Nat.add_0_r. cbn [fold_left fst snd].
    rewrite (imap_ext _ (λ i, pair (S k + i)%nat) ids) by (intros; cbn; f_equal; lia).
    destruct (IH (S k) (alter (λ s, s ++ [x]) (k mod m)%nat acc)) as [H1 H2].
    { by rewrite length_alter. }
    split; [done|]. intros j s Hs. destruct (decide (k mod m = j)%nat) as [<-|Hne].
    + rewrite filter_cons_True by done. rewrite (H2 _ (s ++ [x])).
      * cbn. by rewrite <- (assoc (++)).
      * by rewrite list_lookup_alter_eq, Hs.
    + rewrite filter_cons_False by done. apply H2. by rewrite list_lookup_alter_ne.
Qed.

Lemma filter_numbered n j :
  (filter (λ e, e.1 mod m = j)%nat (imap (λ i, pair (0 + i)%nat) (seq 0 n))).*2 =
  filter (λ i, i mod m = j)%nat (seq 0 n).
Proof using Type.
  assert (imap (λ i, pair (0 + i)%nat) (seq 0 n) = (λ i, (i, i)) <$> seq 0 n) as ->.
  { apply list_eq. intros i. rewrite list_lookup_imap, list_lookup_fmap.
    destruct (seq 0 n !! i) eqn:E; cbn; [|done]. apply lookup_seq in E as [-> _]. done. }
  induction (seq 0 n) as [|x l IH]; [done|]. rewrite fmap_cons, !filter_cons. cbn [fst].
  case_decide; cbn; by rewrite <- IH.
Qed.

Lemma build_grid_subset n j c :
  (build_grid (seq 0 n) m).2 !! j = Some c →
  rings c = filter (λ i, i mod m = j)%nat (seq 0 n) ∧ next_drain c = 0%nat.
Proof using Type.
  intros Hc. unfold build_grid in Hc. cbn [snd] in Hc.
  destruct (build_grid_fold (seq 0 n) 0 (replicate m [])) as [Hlen Hl]; [by rewrite length_replicate|].
  rewrite list_lookup_fmap, fmap_Some in Hc. destruct Hc as (s & Hs & ->). cbn. split; [|done].
  assert (replicate m ([] : list nat) !! j = Some []) as Hj.
  { apply lookup_replicate. split; [done|]. rewrite <- Hlen. eapply lookup_lt_Some. exact Hs. }
  rewrite <- (filter_numbered n j). exact (f_equal (default []) (eq_trans (eq_sym Hs) (Hl j [] Hj))).
Qed.

Lemma build_grid_length n : length (build_grid (seq 0 n) m).2 = m.
Proof using Type.
  unfold build_grid. cbn. rewrite length_fmap.
  destruct (build_grid_fold (seq 0 n) 0 (replicate m [])) as [Hlen _]; [by rewrite length_replicate|].
  done.
Qed.
End partition.

Lemma grid_partition_facts n m j c :
  (1 ≤ m ≤ n)%nat → (build_grid (seq 0 n) m).2 !! j = Some c →
  next_drain c = 0%nat ∧ rings c ≠ [] ∧ ∀ i, i ∈ rings c ↔ (i < n ∧ i mod m = j)%nat.
Proof.
  intros Hm Hc. destruct (build_grid_subset m n j c Hc) as [E ->]. split; [done|].
  assert (∀ i, i ∈ rings c ↔ (i < n ∧ i mod m = j)%nat) as Hi.
  { intros i. rewrite E, list_elem_of_filter, elem_of_seq. lia. }
  split; [|done]. pose proof (lookup_lt_Some _ _ _ Hc) as Hj. rewrite build_grid_length in Hj.
  assert (j ∈ rings c) as Hin by (apply Hi; split; [lia|by apply Nat.mod_small]).
  intros E'. rewrite E' in Hin. by apply elem_of_nil in Hin.
Qed.

(** Every producer's ring is drained by exactly one consumer, the one
    whose number is the producer's modulo the number of consumers, and each
    consumer gets its rings in the producers' order and at least one of them. *)
Lemma grid_partition n m :
  (1 ≤ m ≤ n)%nat →
  length (build_grid (seq 0 n) m).2 = m ∧
  (∀ i, (i < n)%nat →
     ∃ c, (build_grid (seq 0 n) m).2 !! (i mod m)%nat = Some c ∧ i ∈ rings c) ∧
  (∀ j c, (build_grid (seq 0 n) m).2 !! j = Some c →
     rings c ≠ [] ∧ rings c = filter (λ i, i mod m = j)%nat (seq 0 n) ∧
     ∀ i, i ∈ rings c ↔ (i < n ∧ i mod m = j)%nat).
Proof.
  intros Hm. split; [apply build_grid_length|]. split.
  - intros i Hi. destruct (lookup_lt_is_Some_2 (build_grid (seq 0 n) m).2 (i mod m)%nat) as [c Hc].
    { rewrite build_grid_length. apply Nat.mod_upper_bound. lia. }
    exists c. split; [done|]. by apply (grid_partition_facts n m _ _ Hm Hc).
  - intros j c Hc. destruct (grid_partition_facts n m j c Hm Hc) as (_ & ? & ?).
    by destruct (build_grid_subset m n j c Hc) as [? _].
Qed.

(** * Draining *)

(** The rings of a store as queues. *)
Definition queues `{BoundedFifo R} (store : list R) : list (list (list Z)) :=
  fifo_contents <$> store.

(** A consumer whose rings are in the store and whose cursor is one of them. *)
Record consumer_ok (n : nat) (c : consumer) : Prop := {
  co_some : (next_drain c < length (rings c))%nat;
  co_ids : Forall (λ j, j < n)%nat (rings c);
}.

Section drain.
Context `{BoundedFifoLaws R}.
Implicit Types (store : list R).

Lemma queues_insert store j r : queues (<[j := r]> store) = <[j := fifo_contents r]> (queues store).
Proof using Type. apply list_fmap_insert. Qed.

(** The state of the ring at an offset of the drain. *)
Lemma ids_lookup store ids k :
  (0 < length ids)%nat → Forall (λ j, j < length store)%nat ids →
  ∃ j r, ids !! (k mod length ids)%nat = Some j ∧ store !! j = Some r.
Proof using Type.
  intros Hn Hids.
  destruct (lookup_lt_is_Some_2 ids (k mod length ids)%nat) as [j Hj]; [apply Nat.mod_upper_bound; lia|].
  rewrite Forall_lookup in Hids. pose proof (Hids _ _ Hj) as Hlt.
  destruct (lookup_lt_is_Some_2 store j Hlt) as [r Hr]. eauto.
Qed.

(** What the drain does: it stops at the first offset whose ring holds an
    item, takes its oldest, and touches no other queue. *)
Definition drained (offs : list nat) (start : nat) (ids : list nat)
    (qs qs' : list (list (list Z))) (out out' : list Z) (o : res RingError (Z * nat)) : Prop :=
  (o = Err Empty ∧ out' = out ∧ qs' = qs ∧
   ∀ i j, i ∈ offs → ids !! ((start + i) mod length ids)%nat = Some j → qs !! j = Some []) ∨
  (∃ before i after j v q,
     offs = before ++ i :: after ∧
     (∀ i' j', i' ∈ before → ids !! ((start + i') mod length ids)%nat = Some j' → qs !! j' = Some []) ∧
     ids !! ((start + i) mod length ids)%nat = Some j ∧ qs !! j = Some (v :: q) ∧
     qs' = <[j := q]> qs ∧ out' = overwrite v out ∧
     o = Ok (Z.of_nat fifo_width, ((start + i) mod length ids)%nat)).

Lemma drain_spec offs start ids store out store' out' o :
  Forall fifo_inv store → (0 < length ids)%nat → Forall (λ j, j < length store)%nat ids →
  (fifo_width ≤ length out)%nat → drain offs start ids store out = (store', out', o) →
  Forall fifo_inv store' ∧ length store' = length store ∧
  drained offs start ids (queues store) (queues store') out out' o.
Proof using All.
  revert store. induction offs as [|i offs IH]; intros store Hinv Hn Hids Ho Hd; cbn [drain] in Hd.
  { injection Hd as <- <- <-. split_and!; [done..|]. left. split_and!; try done.
    by intros ? ? ?%elem_of_nil. }
  destruct (ids_lookup store ids (start + i) Hn Hids) as (j & r & Hj & Hr).
  rewrite Hj in Hd. cbn in Hd. rewrite Hr in Hd. cbn in Hd.
  pose proof (Forall_lookup_1 _ _ _ _ Hinv Hr) as Hri.
  destruct (fifo_pop r out) as [[r' out1] o1] eqn:Ep.
  destruct (fifo_pop_spec _ _ _ _ _ Hri Ep) as (Hri' & _ & Hs).
  assert (Forall fifo_inv (<[j := r']> store)) as Hinv' by (by apply Forall_insert).
  unfold spec_pop in Hs. destruct (Nat.ltb_spec (length out) fifo_width); [lia|].
  assert (queues store !! j = Some (fifo_contents r)) as Hq by (unfold queues; by rewrite list_lookup_fmap, Hr).
  destruct (fifo_contents r) as [|v q] eqn:Ec; injection Hs as Hq' -> ->.
  - assert (queues (<[j := r']> store) = queues store) as Eq.
    { rewrite queues_insert, Hq'. by apply list_insert_id. }
    destruct (IH (<[j := r']> store)) as (Hi' & Hl' & Hdr); try done.
    { by rewrite length_insert. }
    rewrite length_insert in Hl'. rewrite Eq in Hdr. split_and!; [done..|].
    destruct Hdr as [(-> & -> & E' & Hall)|(be & k & af & j' & v & q & -> & Hbe & Hrest)].
    + left. split_and!; [done..|]. intros i' j' [->|Hin]%elem_of_cons; [congruence|by apply Hall].
    + right. exists (i :: be), k, af, j', v, q. split_and!; [done| |apply Hrest..].
      intros i' j2 [->|Hin]%elem_of_cons; [congruence|by apply Hbe].
  - injection Hd as <- <- <-. split_and!; [done|by rewrite length_insert|]. right.
    exists [], i, offs, j, v, q. split_and!; try done.
    + by intros ? ? ?%elem_of_nil.
    + rewrite queues_insert. by rewrite Hq'.
Qed.
End drain.

(** * A grid in use *)

Record grid (R : Type) := MkGrid { store : list R; consumers : list consumer }.
Arguments MkGrid {R}.
Arguments store {R}.
Arguments consumers {R}.

(** Calls by producer [p] and by consumer [k]. *)
Inductive gop := GPush (p : nat) (v : list Z) | GPop (k : nat) (out : list Z).

(** What a call did: a payload accepted into ring [p], or delivered from ring
    [p] to consumer [k]. *)
Inductive gevent := Pushed (p : nat) (v : list Z) | Delivered (k p : nat) (v : list Z) | Refused.

Section grid.
Context `{BoundedFifoLaws R}.

Definition pop_event (k : nat) (c : consumer) (st : list R) (out : list Z) : gevent :=
  let '(_, out', o) := drain (seq 0 (length (rings c))) (next_drain c) (rings c) st out in
  match o with
  | Ok (n, idx) => Delivered k (rings c !!! idx) (take (Z.to_nat n) out')
  | _ => Refused
  end.

Definition grid_step (g : grid R) (op : gop) : grid R * gevent :=
  match op with
  | GPush p v =>
      let '(st, o) := producer_try_push p (store g) v in
      (MkGrid st (consumers g), if is_ok o then Pushed p (pad fifo_width v) else Refused)
  | GPop k out =>
      match consumers g !! k with
      | None => (g, Refused)
      | Some c =>
          let '(st, c', out', o) := consumer_try_pop c (store g) out in
          (MkGrid st (<[k := c']> (consumers g)), pop_event k c (store g) out)
      end
  end.

Fixpoint grid_run (g : grid R) (ops : list gop) : grid R * list gevent :=
  match ops with
  | [] => (g, [])
  | op :: ops =>
      let '(g1, e) := grid_step g op in
      let '(g2, es) := grid_run g1 ops in (g2, e :: es)
  end.

Record grid_ok (g : grid R) : Prop := {
  gi_rings : Forall fifo_inv (store g);
  gi_consumers : Forall (consumer_ok (length (store g))) (consumers g);
}.

(** What a consumer's call does to the queues. *)
Lemma consumer_try_pop_drained k c st out st' c' out' o :
  Forall fifo_inv st → consumer_ok (length st) c → (fifo_width ≤ length out)%nat →
  consumer_try_pop c st out = (st', c', out', o) →
  Forall fifo_inv st' ∧ length st' = length st ∧ consumer_ok (length st) c' ∧ rings c' = rings c ∧
  ((queues st' = queues st ∧ c' = c ∧ pop_event k c st out = Refused ∧ out' = out ∧ o = Err Empty ∧
    ∀ j, j ∈ rings c → queues st !! j = Some []) ∨
   ∃ i j v q, (i < length (rings c))%nat ∧
     (∀ i' j', (i' < i)%nat → rings c !! ((next_drain c + i') mod length (rings c))%nat = Some j' →
        queues st !! j' = Some []) ∧
     rings c !! ((next_drain c + i) mod length (rings c))%nat = Some j ∧
     queues st !! j = Some (v :: q) ∧ queues st' = <[j := q]> (queues st) ∧
     next_drain c' = ((next_drain c + i + 1) mod length (rings c))%nat ∧
     pop_event k c st out = Delivered k j v ∧ out' = overwrite v out ∧ o = Ok (Z.of_nat fifo_width)).
Proof using All.
  intros Hinv [Hn Hids] Ho Hp. unfold consumer_try_pop, pop_event in *.
  destruct (drain _ _ _ _ _) as [[st1 out1] o1] eqn:Ed.
  assert (0 < length (rings c))%nat as Hpos by lia.
  destruct (drain_spec _ _ _ _ _ _ _ _ Hinv Hpos Hids Ho Ed) as (Hinv' & Hl & Hd).
  destruct Hd as [(-> & -> & Eq & Hall)|(be & i & af & j & v & q & Eoffs & Hbe & Hj & Hq & Eq & -> & ->)];
    injection Hp as <- <- <- <-; (split; [done|]; split; [done|]).
  - split; [by split|]. split; [done|]. left. split_and!; try done.
    intros j (x & Hx)%list_elem_of_lookup. pose proof (lookup_lt_Some _ _ _ Hx) as Hxl.
    assert (∃ i, i < length (rings c) ∧ (next_drain c + i) mod length (rings c) = x)%nat as (i & Hi & Ei).
    { exists ((x + length (rings c) - next_drain c) mod length (rings c))%nat.
      split; [apply Nat.mod_upper_bound; lia|].
      rewrite Nat.Div0.add_mod_idemp_r.
      replace (next_drain c + (x + length (rings c) - next_drain c))%nat
        with (x + 1 * length (rings c))%nat by lia.
      rewrite Nat.Div0.mod_add. by apply Nat.mod_small. }
    apply (Hall i); [by apply elem_of_seq; lia|by rewrite Ei].
  - assert (i = length be ∧ (i < length (rings c))%nat) as [Ei Hi].
    { assert (seq 0 (length (rings c)) !! length be = Some i) as Hl2.
      { rewrite Eoffs. by apply list_lookup_middle. }
      apply lookup_seq in Hl2. lia. }
    split; [split; cbn; [apply Nat.mod_upper_bound; lia|done]|]. split; [done|]. right.
    exists i, j, v, q. split_and!; try done.
    + intros i' j' Hi'. apply Hbe.
      assert (seq 0 (length (rings c)) !! i' = Some i') as Hl2 by (apply lookup_seq; lia).
      rewrite Eoffs, lookup_app_l in Hl2 by lia. by eapply list_elem_of_lookup_2.
    + cbn. by rewrite Nat.Div0.add_mod_idemp_l.
    + rewrite Nat2Z.id, (list_lookup_total_correct _ _ _ Hj). f_equal.
      assert (length v = fifo_width) as <-; [|apply take_overwrite].
      unfold queues in Hq. rewrite list_lookup_fmap, fmap_Some in Hq. destruct Hq as (r & Hr & Ev).
      apply (fifo_contents_width r); [exact (Forall_lookup_1 _ _ _ _ Hinv Hr)|]. rewrite <- Ev. apply elem_of_cons. by left.
Qed.
End grid.

Definition pushed_to (p : nat) (es : list gevent) : list (list Z) :=
  omap (λ e, match e with Pushed p' v => if decide (p' = p) then Some v else None | _ => None end) es.
Definition delivered_from (p : nat) (es : list gevent) : list (list Z) :=
  omap (λ e, match e with Delivered _ p' v => if decide (p' = p) then Some v else None | _ => None end) es.

Section grid_proofs.
Context `{BoundedFifoLaws R}.

(** With a buffer shorter than a payload the drain visits every ring, is
    refused by each and reports [Empty]. *)
Lemma drain_short offs start ids (st : list R) out st' out' o :
  Forall fifo_inv st → (0 < length ids)%nat → Forall (λ j, j < length st)%nat ids →
  (length out < fifo_width)%nat → drain offs start ids st out = (st', out', o) →
  Forall fifo_inv st' ∧ length st' = length st ∧ queues st' = queues st ∧ out' = out ∧ o = Err Empty.
Proof using All.
  revert st. induction offs as [|i offs IH]; intros st Hinv Hn Hids Ho Hd; cbn [drain] in Hd.
  { by injection Hd as <- <- <-. }
  destruct (ids_lookup st ids (start + i) Hn Hids) as (j & r & Hj & Hr).
  rewrite Hj in Hd. cbn in Hd. rewrite Hr in Hd. cbn in Hd.
  destruct (fifo_pop r out) as [[r' out1] o1] eqn:Ep.
  destruct (fifo_pop_spec _ _ _ _ _ (Forall_lookup_1 _ _ _ _ Hinv Hr) Ep) as (Hri' & _ & Hs).
  unfold spec_pop in Hs. destruct (Nat.ltb_spec (length out) fifo_width); [|lia].
  injection Hs as Hq' -> ->.
  destruct (IH (<[j := r']> st)) as (G1 & G2 & G3 & G4 & G5); try done.
  - by apply Forall_insert.
  - by rewrite length_insert.
  - rewrite length_insert in G2. split_and!; [done..| |done|done]. rewrite G3, queues_insert, Hq'.
    apply list_insert_id. unfold queues. by rewrite list_lookup_fmap, Hr.
Qed.

(** One call: the invariant is kept, and every ring's queue changes by what the
    event says of it. *)
Definition accounted (qs qs' : list (list (list Z))) (es : list gevent) : Prop :=
  length qs' = length qs ∧
  ∀ p q, qs !! p = Some q → ∃ q', qs' !! p = Some q' ∧ q ++ pushed_to p es = delivered_from p es ++ q'.

Lemma accounted_refl qs : accounted qs qs [Refused].
Proof using Type. split; [done|]. intros p q Hq. exists q. cbn. by rewrite app_nil_r. Qed.

Lemma accounted_trans qs1 qs2 qs3 es1 es2 :
  accounted qs1 qs2 es1 → accounted qs2 qs3 es2 → accounted qs1 qs3 (es1 ++ es2).
Proof using Type.
  intros [L1 G1] [L2 G2]. split; [lia|]. intros p q Hq.
  destruct (G1 p q Hq) as (q1 & Hq1 & E1), (G2 p q1 Hq1) as (q2 & Hq2 & E2).
  exists q2. split; [done|]. unfold pushed_to, delivered_from in *. rewrite !omap_app.
  by rewrite (assoc (++)), E1, <- (assoc (++)), E2, (assoc (++)).
Qed.

Lemma accounted_push (qs : list (list (list Z))) p q v :
  qs !! p = Some q → accounted qs (<[p := q ++ [v]]> qs) [Pushed p v].
Proof using Type.
  intros Hp. split; [by rewrite length_insert|]. intros p' q' Hq'.
  destruct (decide (p = p')) as [<-|Hne].
  - exists (q ++ [v]). simplify_eq. rewrite list_lookup_insert_eq by (by eapply lookup_lt_Some).
    split; [done|]. cbn. by rewrite decide_True.
  - exists q'. rewrite list_lookup_insert_ne by done. split; [done|]. cbn.
    rewrite decide_False by done. by rewrite app_nil_r.
Qed.

Lemma accounted_pop (qs : list (list (list Z))) k p v q :
  qs !! p = Some (v :: q) → accounted qs (<[p := q]> qs) [Delivered k p v].
Proof using Type.
  intros Hp. split; [by rewrite length_insert|]. intros p' q' Hq'.
  destruct (decide (p = p')) as [<-|Hne].
  - exists q. simplify_eq. rewrite list_lookup_insert_eq by (by eapply lookup_lt_Some).
    split; [done|]. cbn. rewrite decide_True by done. by rewrite app_nil_r.
  - exists q'. rewrite list_lookup_insert_ne by done. split; [done|]. cbn.
    rewrite decide_False by done. by rewrite app_nil_r.
Qed.

Lemma grid_step_ok (g : grid R) op g' e :
  grid_ok g → grid_step g op = (g', e) →
  grid_ok g' ∧ accounted (queues (store g)) (queues (store g')) [e].
Proof using All.
  intros [Hr Hc] Hs. destruct op as [p v|k out]; cbn [grid_step] in Hs.
  - unfold producer_try_push in Hs. destruct (store g !! p) as [r|] eqn:Ep.
    + destruct (fifo_push r v) as [r' o] eqn:Eo. injection Hs as <- <-.
      destruct (fifo_push_spec _ _ _ _ (Forall_lookup_1 _ _ _ _ Hr Ep) Eo) as (Hri & _ & Hsp).
      split; [split; cbn; [by apply Forall_insert|by rewrite length_insert]|]. cbn [store].
      rewrite queues_insert.
      assert (queues (store g) !! p = Some (fifo_contents r)) as Hq by
        (unfold queues; by rewrite list_lookup_fmap, Ep).
      unfold spec_push in Hsp. destruct (_ <? _)%nat; [|destruct (_ <=? _)%nat];
        injection Hsp as -> ->; cbn [is_ok].
      * rewrite list_insert_id by done. apply accounted_refl.
      * rewrite list_insert_id by done. apply accounted_refl.
      * by apply accounted_push.
    + injection Hs as <- <-. split; [done|]. apply accounted_refl.
  - destruct (consumers g !! k) as [c|] eqn:Ek; [|injection Hs as <- <-; split; [done|apply accounted_refl]].
    destruct (consumer_try_pop c (store g) out) as [[[st c'] out'] o] eqn:Ep. injection Hs as <- <-.
    pose proof (Forall_lookup_1 _ _ _ _ Hc Ek) as Hco. destruct (decide (fifo_width ≤ length out)%nat).
    + destruct (consumer_try_pop_drained k _ _ _ _ _ _ _ Hr Hco l Ep)
        as (Hr' & Hl & Hc' & _ & [(Eq & -> & -> & _)|(i & j & v & q & _ & _ & _ & Hq & Eq & _ & -> & _)]);
        (split; [split; cbn; [done|]; rewrite Hl; by apply Forall_insert|]); cbn [store]; rewrite Eq.
      * apply accounted_refl.
      * by apply accounted_pop.
    + unfold consumer_try_pop, pop_event in *. destruct (drain _ _ _ _ _) as [[st1 out1] o1] eqn:Ed.
      destruct Hco as [Hn Hids].
      apply drain_short in Ed as (Hr' & Hl & Hq & -> & ->); [|done|lia|done|lia].
      injection Ep as <- <- <- <-. split; [split; cbn; [done|]|cbn [store]; rewrite Hq; apply accounted_refl].
      rewrite Hl. apply Forall_insert; [done|]. by split.
Qed.

Lemma grid_run_ok (g : grid R) ops g' es :
  grid_ok g → grid_run g ops = (g', es) →
  grid_ok g' ∧ accounted (queues (store g)) (queues (store g')) es.
Proof using All.
  revert g g' es. induction ops as [|op ops IH]; intros g g' es Hg Hr; cbn [grid_run] in Hr.
  - injection Hr as <- <-. split; [done|]. split; [done|]. intros p q Hq. exists q. cbn.
    by rewrite app_nil_r.
  - destruct (grid_step g op) as [g1 e] eqn:E1, (grid_run g1 ops) as [g2 es'] eqn:E2.
    injection Hr as <- <-. destruct (grid_step_ok _ _ _ _ Hg E1) as [Hg1 Ha1].
    destruct (IH _ _ _ Hg1 E2) as [Hg2 Ha2]. split; [done|].
    by apply (accounted_trans _ _ _ [e] es' Ha1).
Qed.

(** ** Fairness *)

Lemma mod_once a n : (a < 2 * n)%nat → (a mod n = if decide (a < n) then a else a - n)%nat.
Proof using Type.
  intros Ha. case_decide; [by apply Nat.mod_small|].
  replace a with ((a - n) + 1 * n)%nat at 1 by lia. rewrite Nat.Div0.mod_add.
  apply Nat.mod_small. lia.
Qed.

(** How many rings the consumer visits before the one at index [x]. *)
Definition distance (n s x : nat) : nat := if decide (s ≤ x)%nat then (x - s)%nat else (x + n - s)%nat.

Lemma distance_offset n s x :
  (s < n)%nat → (x < n)%nat → (distance n s x < n ∧ (s + distance n s x) mod n = x)%nat.
Proof using Type.
  intros. unfold distance. case_decide; rewrite mod_once by lia; case_decide; lia.
Qed.

Lemma distance_step n s x i :
  (s < n)%nat → (x < n)%nat → (i < distance n s x)%nat →
  (distance n ((s + i + 1) mod n) x < distance n s x)%nat.
Proof using Type.
  unfold distance. intros Hs Hx Hi. rewrite mod_once by (repeat case_decide; lia).
  repeat case_decide; lia.
Qed.

Definition pop_by (k : nat) (op : gop) : bool :=
  match op with GPop k' _ => bool_decide (k' = k) | _ => false end.
Definition pops_of (k : nat) (ops : list gop) : nat :=
  length (filter (λ op, pop_by k op = true) ops).

Definition big_buffers (ops : list gop) : Prop :=
  Forall (λ op, match op with GPop _ out => (fifo_width ≤ length out)%nat | _ => True end) ops.

Lemma accounted_nonempty qs qs' e j v q :
  accounted qs qs' [e] → qs !! j = Some (v :: q) →
  delivered_from j [e] ≠ [] ∨ ∃ v' q', qs' !! j = Some (v' :: q').
Proof using Type.
  intros [_ Ha] Hj. destruct (Ha _ _ Hj) as (q' & Hq' & E).
  destruct (delivered_from j [e]) as [|w ws] eqn:Ed; [|by left]. right.
  cbn in E. rewrite <- E in Hq'. eauto.
Qed.

(** A call that is not a pop of consumer [k] leaves its handle alone; a pop of
    its own delivers from ring [j] or comes closer to it. *)
Lemma grid_step_closer (g : grid R) op g' e k c x j v q :
  grid_ok g → grid_step g op = (g', e) → big_buffers [op] →
  consumers g !! k = Some c → rings c !! x = Some j → queues (store g) !! j = Some (v :: q) →
  delivered_from j [e] ≠ [] ∨
  ∃ c', consumers g' !! k = Some c' ∧ rings c' = rings c ∧
    (distance (length (rings c)) (next_drain c') x + pops_of k [op] ≤
     distance (length (rings c)) (next_drain c) x)%nat.
Proof using All.
  intros [Hr Hc] Hs Hb Hk Hx Hj. destruct op as [p w|k' out]; cbn [grid_step] in Hs.
  { destruct (producer_try_push p (store g) w). injection Hs as <- <-. right.
    exists c. split_and!; [done..|]. unfold pops_of. rewrite filter_cons_False by done. cbn. lia. }
  destruct (decide (k' = k)) as [->|Hne].
  - rewrite Hk in Hs. destruct (consumer_try_pop c (store g) out) as [[[st c'] out'] o] eqn:Ep.
    injection Hs as <- <-. inversion_clear Hb as [|?? Hbo _].
    pose proof (Forall_lookup_1 _ _ _ _ Hc Hk) as Hco. pose proof (co_some _ _ Hco) as Hn.
    pose proof (lookup_lt_Some _ _ _ Hx) as Hxl.
    destruct (distance_offset _ _ _ Hn Hxl) as [Hd1 Hd2].
    destruct (consumer_try_pop_drained k _ _ _ _ _ _ _ Hr Hco Hbo Ep)
      as (_ & _ & _ & Er & [(_ & _ & _ & _ & _ & Hall)|(i & j' & v' & q' & Hi & Hbe & Hj' & Hq & _ & En & -> & _)]).
    { specialize (Hall j ltac:(by eapply list_elem_of_lookup_2)). congruence. }
    destruct (decide (i = distance (length (rings c)) (next_drain c) x)) as [->|Hid].
    { left. cbn. rewrite Hd2, Hx in Hj'. injection Hj' as <-. by rewrite decide_True. }
    right. exists c'. cbn [consumers]. rewrite list_lookup_insert_eq by (by eapply lookup_lt_Some).
    split_and!; [done..|]. unfold pops_of. rewrite filter_cons_True by (by apply bool_decide_eq_true). cbn.
    destruct (decide (i < distance (length (rings c)) (next_drain c) x)%nat) as [Hlt|Hge].
    + rewrite En. pose proof (distance_step _ _ _ _ Hn Hxl Hlt). lia.
    + exfalso. assert (queues (store g) !! j = Some []) as E0; [|congruence].
      apply (Hbe (distance (length (rings c)) (next_drain c) x)); [lia|by rewrite Hd2].
  - right. exists c. unfold pops_of. rewrite filter_cons_False by (by intros ?%bool_decide_eq_true). cbn.
    destruct (consumers g !! k') as [c2|]; [|injection Hs as <- <-; split_and!; [done..|lia]].
    destruct (consumer_try_pop c2 (store g) out) as [[[st c'] out'] o]. injection Hs as <- <-. cbn.
    rewrite list_lookup_insert_ne by done. split_and!; [done..|lia].
Qed.

Lemma grid_run_serves ops (g : grid R) g' es k c x j v q :
  grid_ok g → grid_run g ops = (g', es) → big_buffers ops →
  consumers g !! k = Some c → rings c !! x = Some j → queues (store g) !! j = Some (v :: q) →
  (distance (length (rings c)) (next_drain c) x < pops_of k ops)%nat →
  delivered_from j es ≠ [].
Proof using All.
  revert g es c v q. induction ops as [|op ops IH]; intros g es c v q Hg Hr Hb Hk Hx Hj Hd;
    cbn [grid_run] in Hr; [unfold pops_of in Hd; cbn in Hd; lia|].
  destruct (grid_step g op) as [g1 e] eqn:E1, (grid_run g1 ops) as [g2 es'] eqn:E2.
  injection Hr as <- <-. apply Forall_cons in Hb as [Hb1 Hb2].
  destruct (grid_step_ok _ _ _ _ Hg E1) as [Hg1 Ha]. unfold delivered_from.
  change (e :: es') with ([e] ++ es'). rewrite omap_app.
  enough (delivered_from j [e] ≠ [] ∨ delivered_from j es' ≠ []) as Hne.
  { fold (delivered_from j [e]) (delivered_from j es'). destruct (delivered_from j [e]); [|done]. cbn.
    by destruct Hne. }
  assert (big_buffers [op]) as Hb' by (by repeat constructor).
  destruct (grid_step_closer _ _ _ _ _ _ _ _ _ _ Hg E1 Hb' Hk Hx Hj) as [?|(c' & Hk' & Er & Hd')]; [by left|].
  destruct (accounted_nonempty _ _ _ _ _ _ Ha Hj) as [?|(v' & q' & Hj')]; [by left|]. right.
  apply (IH g1 es' c' v' q'); try done; rewrite Er; [done|].
  assert (pops_of k (op :: ops) = pops_of k [op] + pops_of k ops)%nat as Ep.
  { unfold pops_of. change (op :: ops) with ([op] ++ ops). by rewrite filter_app, length_app. }
  lia.
Qed.
End grid_proofs.

(** C6: whatever producers push and consumers pop, each producer's payloads
    are delivered in the order they were accepted, none lost and none twice:
    what was in its ring followed by what was accepted into it is what was
    delivered from it followed by what it still holds. *)
Theorem grid_per_producer_fifo `{BoundedFifoLaws R} (g : grid R) ops g' es :
  grid_ok g → grid_run g ops = (g', es) →
  grid_ok g' ∧ length (store g') = length (store g) ∧
  ∀ p q, queues (store g) !! p = Some q →
    ∃ q', queues (store g') !! p = Some q' ∧ q ++ pushed_to p es = delivered_from p es ++ q'.
Proof.
  intros Hg Hr. destruct (grid_run_ok _ _ _ _ Hg Hr) as [Hg' [Hl Ha]]. split; [done|].
  split; [|done]. unfold queues in Hl. by rewrite !length_fmap in Hl.
Qed.

(** C7: no producer is starved: if a ring of consumer [k] holds an item, then
    by the time [k] has made as many pops as it has rings, with any calls by
    others in between, every buffer holding a payload, that item has been
    delivered. *)
Theorem grid_fair `{BoundedFifoLaws R} (g : grid R) ops g' es k c j v q :
  grid_ok g → grid_run g ops = (g', es) → big_buffers ops →
  consumers g !! k = Some c → j ∈ rings c → queues (store g) !! j = Some (v :: q) →
  (length (rings c) ≤ pops_of k ops)%nat →
  ∃ later, delivered_from j es = v :: later.
Proof.
  intros Hg Hr Hb Hk Hin Hj Hn. apply list_elem_of_lookup in Hin as [x Hx].
  pose proof (Forall_lookup_1 _ _ _ _ (gi_consumers _ Hg) Hk) as Hco.
  destruct (distance_offset _ _ _ (co_some _ _ Hco) (lookup_lt_Some _ _ _ Hx)) as [Hd _].
  assert (delivered_from j es ≠ []) as Hne by (eapply (grid_run_serves ops g g' es k c x j v q); eauto; lia).
  destruct (grid_run_ok _ _ _ _ Hg Hr) as [_ [_ Ha]]. destruct (Ha _ _ Hj) as (q' & _ & E).
  destruct (delivered_from j es) as [|w ws]; [done|]. injection E as -> _. eauto.
Qed.

(** A consumer's call with room for a payload returns [Empty] exactly
    when all its rings are empty and then changes nothing; a call whose buffer is
    too short returns [Empty] whatever the rings hold, where a single ring
    reports [PayloadTooLarge]. *)
Lemma consumer_empty `{BoundedFifoLaws R} (st : list R) c out st' c' out' o :
  Forall fifo_inv st → consumer_ok (length st) c →
  consumer_try_pop c st out = (st', c', out', o) →
  (o = Err Empty ↔
   (length out < fifo_width)%nat ∨ ∀ j, j ∈ rings c → queues st !! j = Some []) ∧
  (o = Err Empty → queues st' = queues st ∧ c' = c ∧ out' = out).
Proof.
  intros Hr Hco Hp. destruct (decide (fifo_width ≤ length out)%nat) as [Hw|Hw].
  - destruct (consumer_try_pop_drained 0 _ _ _ _ _ _ _ Hr Hco Hw Hp)
      as (_ & _ & _ & _ & [(Eq & -> & _ & -> & -> & Hall)|(i & j & v & q & _ & _ & Hj & Hq & _ & _ & _ & _ & ->)]).
    + split; [|done]. split; [by right|done].
    + split; [|done]. split; [done|]. intros [?|Hall]; [lia|].
      specialize (Hall j ltac:(by eapply list_elem_of_lookup_2)). congruence.
  - unfold consumer_try_pop in Hp. destruct (drain _ _ _ _ _) as [[st1 out1] o1] eqn:Ed.
    destruct Hco as [Hn Hids].
    apply drain_short in Ed as (Hr' & Hl & Hq & -> & ->); [|done|lia|done|lia].
    injection Hp as <- <- <- <-. split; [|done]. split; [left; lia|done].
Qed.

(** * Grids made of SPSC rings *)

#[local] Existing Instance SpscRing.spsc_fifo.
#[local] Existing Instance SpscRing.spsc_fifo_laws.

Lemma create_rings_ok {R} (mk : nat → res RingError R) offs rs :
  create_rings mk offs = Ok rs ↔ Forall2 (λ i r, mk i = Ok r) offs rs.
Proof.
  split.
  - revert rs. induction offs as [|i offs IH]; intros rs Hr; cbn in Hr.
    + injection Hr as <-. constructor.
    + apply bind_ok in Hr as (r & Hr & (rs' & Hrs & [= <-])%bind_ok). constructor; [done|by apply IH].
  - induction 1 as [|i r offs rs Hr _ IH]; cbn; [done|]. by rewrite Hr; cbn; rewrite IH.
Qed.

(** Every lane of the region is memory for slots, whatever it holds. *)
Definition carved_ok (m : carved) (lane_bytes : Z) : Prop :=
  ∀ i, SpscRing.region_ok (sub_region m lane_bytes i).

Lemma create_in_region_created m cap c :
  0 ≤ cap ≤ SpscRing.MAX_CAPACITY → SpscRing.region_ok m →
  SpscRing.create_in_region m cap = Ok c →
  SpscRing.wf c ∧ SpscRing.contents c = [] ∧
  SpscRing.region_ptr (SpscRing.mem c) = SpscRing.region_ptr m ∧
  SpscRing.region_len (SpscRing.mem c) = SpscRing.region_len m.
Proof.
  intros Hc Hm Hcr. unfold SpscRing.create_in_region in Hcr.
  apply bind_ok in Hcr as ([] & Hok & Hcr). rewrite assert_ok in Hok.
  destruct (_ <? _); [done|]. destruct (negb _); [done|]. injection Hcr as <-.
  by destruct (SpscRing.init_layout_wf SpscRing.Region m cap Hm Hc Hok).
Qed.

Lemma file_size_lane cap :
  0 ≤ cap ≤ SpscRing.MAX_CAPACITY →
  SpscRing.spsc_ring_file_size cap = 192 + 64 * cap.
Proof.
  unfold SpscRing.spsc_ring_file_size, SpscRing.MAX_CAPACITY, SpscRing.SPSC_SLOT_SIZE, SpscRing.SPSC_HEADER_BYTES.
  intros. rewrite (wrap_small _ (cap * 64)), wrap_small by lia. lia.
Qed.

Lemma subregion_fields m lane_bytes i :
  SpscRing.region_ptr (sub_region m lane_bytes i) = whole_ptr m + Z.of_nat i * lane_bytes ∧
  SpscRing.region_len (sub_region m lane_bytes i) = lane_bytes.
Proof. unfold sub_region. by destruct (lane_bytes_at m _). Qed.

(** A grid carved out of one region: the lanes of its rings are
    consecutive, lie inside the region and do not overlap; every ring is
    well-formed and empty, every consumer has rings to drain and starts at its
    first; and at an aligned base a region of the right size is never refused. *)
Lemma grid_in_region m n k cap :
  let lane := SpscRing.spsc_ring_file_size cap in
  0 ≤ cap ≤ SpscRing.MAX_CAPACITY → capacity_ok cap = true → carved_ok m lane →
  (1 ≤ k ≤ n)%nat → lane * Z.of_nat n ≤ whole_len m < 2 ^ 64 →
  whole_ptr m mod SpscRing.REGION_ALIGN = 0 →
  ∃ rs cs, create_grid_in_region m n k cap = Ok (rs, (seq 0 n, cs)) ∧
    length rs = n ∧ length cs = k ∧ grid_ok (MkGrid rs cs) ∧ queues rs = replicate n [] ∧
    ∀ i r, rs !! i = Some r →
      SpscRing.region_ptr (SpscRing.mem r) = whole_ptr m + Z.of_nat i * lane ∧
      SpscRing.region_len (SpscRing.mem r) = lane ∧ Z.of_nat i * lane + lane ≤ whole_len m.
Proof.
  intros lane Hc Hok Hm Hk Hl Hp. pose proof (file_size_lane cap Hc) as El. fold lane in El.
  assert (∀ i, ∃ r, SpscRing.create_in_region (sub_region m lane i) cap = Ok r) as Hmk.
  { intros i. destruct (subregion_fields m lane i) as [E1 E2].
    unfold SpscRing.create_in_region. rewrite Hok, E1, E2. cbn [assert_ mbind res_bind].
    fold lane. rewrite Z.ltb_irrefl.
    assert ((whole_ptr m + Z.of_nat i * lane) mod SpscRing.REGION_ALIGN = 0) as ->; [|by eexists].
    rewrite Zplus_mod, Hp, El. unfold SpscRing.REGION_ALIGN. cbn [Z.add].
    replace (Z.of_nat i * (192 + 64 * cap)) with ((Z.of_nat i * (3 + cap)) * 64) by lia.
    by rewrite Z.mod_mul. }
  assert (∃ rs, Forall2 (λ i r, SpscRing.create_in_region (sub_region m lane i) cap = Ok r) (seq 0 n) rs)
    as [rs Hrs].
  { induction (seq 0 n) as [|i l [rs IH]]; [by exists []|].
    destruct (Hmk i) as [r Hr]. exists (r :: rs). by constructor. }
  assert (length rs = n) as Hlen by (apply Forall2_length in Hrs; by rewrite length_seq in Hrs).
  assert (∀ i r, rs !! i = Some r → SpscRing.wf r ∧ SpscRing.contents r = [] ∧
    SpscRing.region_ptr (SpscRing.mem r) = whole_ptr m + Z.of_nat i * lane ∧
    SpscRing.region_len (SpscRing.mem r) = lane ∧ Z.of_nat i * lane + lane ≤ whole_len m) as Hring.
  { intros i r Hr. pose proof (lookup_lt_Some _ _ _ Hr).
    destruct (Forall2_lookup_r _ _ _ _ _ Hrs Hr) as (i' & [-> _]%lookup_seq & Hcr).
    destruct (subregion_fields m lane i) as [E1 E2].
    destruct (create_in_region_created _ _ _ Hc (Hm i) Hcr) as (? & ? & ? & ?).
    split_and!; [done..|congruence|congruence|nia]. }
  exists rs, (build_grid (seq 0 n) k).2. split_and!; [|done|apply build_grid_length| | |].
  - unfold create_grid_in_region. rewrite !(proj2 (Nat.leb_le _ _)) by lia.
    cbn [assert_ mbind res_bind]. fold lane.
    rewrite (proj2 (Z.leb_gt _ _)), (proj2 (Z.ltb_ge _ _)) by lia.
    by rewrite (proj2 (create_rings_ok _ _ _) Hrs).
  - split; cbn [store consumers].
    + apply Forall_lookup. intros i r Hr. by apply (Hring i r Hr).
    + apply Forall_lookup. intros j c Hcj.
      destruct (grid_partition_facts n k j c Hk Hcj) as (Hd & Hne & Hin). split.
      * rewrite Hd. destruct (rings c); [done|cbn; lia].
      * apply Forall_forall. intros i Hi. rewrite Hlen. by apply Hin.
  - apply list_eq. intros i. unfold queues. rewrite list_lookup_fmap.
    destruct (rs !! i) as [r|] eqn:Er; cbn.
    + destruct (Hring i r Er) as (_ & -> & _). symmetry. apply lookup_replicate.
      split; [done|]. apply lookup_lt_Some in Er. lia.
    + symmetry. apply lookup_replicate_None. apply lookup_ge_None in Er. lia.
  - intros i r Hr. by apply (Hring i r Hr).
Qed.

(** ** Witnesses: two producers, one consumer *)

Definition grid2 : grid SpscRing.SpscRingCore :=
  MkGrid [SpscRing.ring2; SpscRing.ring2] [MkConsumer [0; 1]%nat 0].

Lemma grid2_ok : grid_ok grid2.
Proof.
  split; cbn.
  - repeat constructor; apply SpscRing.ring2_wf.
  - repeat constructor; cbn; lia.
Qed.

Definition buf : list Z := SpscRing.zero_slot.

Lemma grid_per_producer_fifo_witness :
  ∃ g' es, grid_run grid2 [GPush 0 [1]; GPush 1 [2]; GPush 0 [3]; GPop 0 buf; GPop 0 buf] = (g', es) ∧
           pushed_to 0 es = delivered_from 0 es ++ [pad 64 [3]].
Proof.
  destruct (grid_run grid2 _) as [g' es] eqn:E. exists g', es. split; [done|].
  destruct (grid_per_producer_fifo grid2 _ g' es grid2_ok E) as (_ & _ & Hq).
  destruct (Hq 0%nat [] eq_refl) as (q' & Hq' & Ha). cbn in Ha. rewrite Ha. f_equal.
  apply (f_equal fst) in E. cbn [fst] in E. rewrite <- E in Hq'. vm_compute in Hq'. by injection Hq'.
Defined.

Lemma grid_fair_witness :
  ∃ g' es later, grid_run (grid_step grid2 (GPush 1 [2])).1 [GPop 0 buf; GPush 0 [5]; GPop 0 buf] = (g', es) ∧
    delivered_from 1 es = pad 64 [2] :: later.
Proof.
  destruct (grid_run _ _) as [g' es] eqn:E. exists g', es.
  destruct (grid_step grid2 (GPush 1 [2])) as [g1 e1] eqn:E1.
  destruct (grid_step_ok _ _ _ _ grid2_ok E1) as [Hg1 _].
  assert (g1 = (grid_step grid2 (GPush 1 [2])).1) as Eg by (by rewrite E1).
  destruct (grid_fair g1 [GPop 0 buf; GPush 0 [5]; GPop 0 buf] g' es 0 (MkConsumer [0; 1]%nat 0) 1%nat (pad 64 [2]) [])
    as (later & Hl); [exact Hg1|exact E|by unfold big_buffers; rewrite !Forall_cons| | | |vm_compute; lia|by exists later].
  - rewrite Eg. reflexivity.
  - cbn. set_solver.
  - rewrite Eg. vm_compute. reflexivity.
Defined.

Lemma consumer_empty_witness :
  (consumer_try_pop (MkConsumer [0; 1]%nat 0) (store (grid_step grid2 (GPush 1 [2])).1) [0]).2 = Err Empty.
Proof.
  destruct (grid_step grid2 (GPush 1 [2])) as [g1 e1] eqn:E1.
  destruct (grid_step_ok _ _ _ _ grid2_ok E1) as [[Hr Hc] _]. cbn [fst].
  destruct (consumer_try_pop _ _ _) as [[[st' c'] out'] o] eqn:Ep.
  destruct (consumer_empty (store g1) (MkConsumer [0; 1]%nat 0) [0] st' c' out' o Hr) as [[_ He] _].
  - assert (length (store g1) = 2%nat) as ->; [|by repeat constructor; cbn; lia].
    apply (f_equal (λ p, length (store p.1))) in E1. cbn [fst] in E1. by rewrite <- E1.
  - exact Ep.
  - apply He. left. by apply Nat.ltb_lt.
Defined.
