(* ===== verification/SharedRegion.v ===== *)
(** [SharedRegion<T>], the typed arena of
    [crates/subetha-cxc/src/shared_region.rs]: slots handed out by a bump
    cursor and recycled through a free list threaded through [next_links], its
    head a word packing a 32-bit generation counter over a 32-bit index.

    The operations are those of one caller at a time: the compare-exchange of
    [allocate] and [free] finds the head it loaded, so each loop makes one
    turn.  [push_op] calls to the observation ring change nothing of the region
    and are left out.  Slots are a list of [T]; [allocate] and [free] are proved
    against the set of live slots, for pointers the code's contract allows. *)
From stdpp Require Import gmap.
From S2P Require Import Prelude.

Definition REGION_MAGIC : Z := 0x41505247.
Definition NIL_INDEX : Z := 2 ^ 32 - 1.

Record RegionHeader := MkRegionHeader {
  magic : Z;
  hdr_capacity : Z;
  hdr_slot_size : Z;
  bump_next : Z;
  free_head : Z;
  hdr_slots_offset : Z;
  alignment : Z;
  layout_tag : Z;
}.

Definition REGION_HEADER_BYTES : Z := 64.

Definition region_file_size (cap slot_size : Z) : Z :=
  u64 (u64 (REGION_HEADER_BYTES + u64 (cap * 4)) + u64 (cap * slot_size)).

Inductive RegionError :=
| Full
| InvalidPtr
| PayloadTooLarge
| LayoutMismatch
| IoError (kind : Z).

#[export] Instance RegionError_eq_dec : EqDecision RegionError.
Proof. solve_decision. Defined.

(** [OffsetPtr<T>] is its index. *)
Definition is_nil (ptr : Z) : bool := ptr =? NIL_INDEX.

Definition pack (counter index : Z) : Z := Z.lor (Z.shiftl counter 32) index.
Definition unpack (v : Z) : Z * Z := (u32 (Z.shiftr v 32), u32 v).

#[global] Arguments pack : simpl never.
#[global] Arguments unpack : simpl never.

Section region.
Context {T : Type} `{Inhabited T}.

(** The mapped file: header, free links and slots; a handle adds the capacity. *)
Record region_mem := MkMem {
  mem_len : Z;
  mem_hdr : RegionHeader;
  next_links : list Z;
  slots : list T;
}.

Record SharedRegion := MkRegion { capacity : Z; mem : region_mem }.

Definition header (r : SharedRegion) : RegionHeader := mem_hdr (mem r).

(** ** Construction *)

(** The element type's [size_of] and [align_of]. *)
Context (size_of align_of : Z).

Definition slots_offset_for (cap : Z) : Z := REGION_HEADER_BYTES + cap * 4.

(** On zeroed bytes: the bump cursor is zero already. *)
Definition init_region (m : region_mem) (cap : Z) : region_mem :=
  let h := mem_hdr m in
  MkMem (mem_len m)
    (MkRegionHeader REGION_MAGIC (u32 cap) (u32 size_of) (bump_next h) (pack 0 NIL_INDEX)
       (u32 (slots_offset_for cap)) (u32 align_of) 0)
    (next_links m) (slots m).

Definition from_region (m : region_mem) (cap : Z) : res RegionError SharedRegion :=
  let h := mem_hdr m in
  if negb (magic h =? REGION_MAGIC) || negb (hdr_capacity h =? u32 cap) ||
     negb (hdr_slot_size h =? u32 size_of) ||
     (negb (hdr_slots_offset h =? 0) && negb (hdr_slots_offset h =? slots_offset_for cap)) ||
     negb (layout_tag h =? 0)
  then Err LayoutMismatch
  else mret (MkRegion cap m).

(** [create]: [attached] is the file [mmf_attach::create_or_attach] mapped,
    laid out by [init_region] if this call or another created it. *)
Definition create (attached : res RegionError region_mem) (cap : Z) : res RegionError SharedRegion :=
  _ ← assert_ (1 <=? cap);
  _ ← assert_ (cap <? NIL_INDEX);
  m ← attached;
  from_region m cap.

(** [reset]: [truncated] is the zeroed file [mmf_attach::reset] mapped. *)
Definition reset (truncated : res RegionError region_mem) (cap : Z) : res RegionError SharedRegion :=
  _ ← assert_ (1 <=? cap);
  _ ← assert_ (cap <? NIL_INDEX);
  m ← truncated;
  from_region (init_region m cap) cap.

Definition open (opened : res RegionError region_mem) (cap : Z) : res RegionError SharedRegion :=
  m ← opened;
  if mem_len m <? region_file_size cap size_of then Err LayoutMismatch
  else from_region m cap.

(** ** The calls *)

Definition next_link (r : SharedRegion) (idx : Z) : Z := next_links (mem r) !!! Z.to_nat idx.
Definition slot (r : SharedRegion) (idx : Z) : T := slots (mem r) !!! Z.to_nat idx.

Definition with_mem (r : SharedRegion) (bump head : Z) (links : list Z) (s : list T) : SharedRegion :=
  let h := header r in
  MkRegion (capacity r)
    (MkMem (mem_len (mem r))
       (MkRegionHeader (magic h) (hdr_capacity h) (hdr_slot_size h) bump head
          (hdr_slots_offset h) (alignment h) (layout_tag h))
       links s).

Definition write_slot (r : SharedRegion) (idx : Z) (v : T) : SharedRegion :=
  with_mem r (bump_next (header r)) (free_head (header r)) (next_links (mem r))
    (<[Z.to_nat idx := v]> (slots (mem r))).

(** The walk of [free_count], bounded by the capacity. *)
Fixpoint count_free (visits : nat) (r : SharedRegion) (idx : Z) : nat :=
  match visits with
  | O => 0
  | S n => if idx =? NIL_INDEX then 0 else S (count_free n r (next_link r idx))
  end.

Definition free_count (r : SharedRegion) : Z :=
  Z.of_nat (count_free (Z.to_nat (capacity r)) r (unpack (free_head (header r))).2).

Definition len (r : SharedRegion) : Z := Z.max 0 (bump_next (header r) - free_count r).
Definition is_empty (r : SharedRegion) : bool := len r =? 0.

Definition allocate (r : SharedRegion) (value : T) : SharedRegion * res RegionError Z :=
  let '(counter, idx) := unpack (free_head (header r)) in
  if negb (idx =? NIL_INDEX) then
    let next_idx := next_link r idx in
    let new_head := pack (u32 (counter + 1)) next_idx in
    (write_slot (with_mem r (bump_next (header r)) new_head (next_links (mem r)) (slots (mem r)))
       idx value, Ok idx)
  else
    let idx := bump_next (header r) in
    let bumped b := with_mem r b (free_head (header r)) (next_links (mem r)) (slots (mem r)) in
    if capacity r <=? idx
    then (bumped (u64 (u64 (idx + 1) - 1)), Err Full)
    else (write_slot (bumped (u64 (idx + 1))) (u32 idx) value, Ok (u32 idx)).

Definition free (r : SharedRegion) (ptr : Z) : SharedRegion * res RegionError T :=
  if is_nil ptr || (capacity r <=? ptr) then (r, Err InvalidPtr)
  else
    let value := slot r ptr in
    let '(counter, old_top) := unpack (free_head (header r)) in
    let links := <[Z.to_nat ptr := old_top]> (next_links (mem r)) in
    (with_mem r (bump_next (header r)) (pack (u32 (counter + 1)) ptr) links (slots (mem r)), Ok value).

Definition get (r : SharedRegion) (ptr : Z) : res RegionError T :=
  if is_nil ptr || (capacity r <=? ptr) then Err InvalidPtr else Ok (slot r ptr).

Definition set (r : SharedRegion) (ptr : Z) (value : T) : SharedRegion * res RegionError unit :=
  if is_nil ptr || (capacity r <=? ptr) then (r, Err InvalidPtr)
  else (write_slot r ptr value, Ok tt).

Definition clear (r : SharedRegion) : SharedRegion :=
  with_mem r 0 (pack 0 NIL_INDEX) (next_links (mem r)) (slots (mem r)).
End region.
Arguments region_mem : clear implicits.
Arguments SharedRegion : clear implicits.

(** * The packed head *)

Lemma unpack_pack c i : 0 ≤ c < 2 ^ 32 → 0 ≤ i < 2 ^ 32 → unpack (pack c i) = (c, i).
Proof.
  intros Hc Hi. unfold unpack, pack, wrap. f_equal.
  - rewrite Z.shiftr_lor, Z.shiftr_shiftl_l by lia. rewrite Z.sub_diag, Z.shiftl_0_r.
    rewrite (Z.shiftr_eq_0 i), Z.lor_0_r; [by apply Z.mod_small|lia|].
    destruct (decide (i = 0)) as [->|]; [done|]. apply Z.log2_lt_pow2; lia.
  - rewrite <- Z.land_ones, Z.land_lor_distr_l, !Z.land_ones by lia.
    rewrite Z.shiftl_mul_pow2, Z.mod_mul, Z.lor_0_l by lia. by apply Z.mod_small.
Qed.

(** * Well-formed regions *)

Section facts.
Context {T : Type} `{Inhabited T}.
Implicit Types (r : SharedRegion T).

(** The free list from [idx] on. *)
Fixpoint free_chain (r : SharedRegion T) (idx : Z) (fl : list Z) : Prop :=
  match fl with
  | [] => idx = NIL_INDEX
  | x :: fl => idx = x ∧ free_chain r (next_link r x) fl
  end.

Definition top (r : SharedRegion T) : Z := (unpack (free_head (header r))).2.

Record wf (r : SharedRegion T) (fl : list Z) : Prop := {
  wf_cap : 1 ≤ capacity r < NIL_INDEX;
  wf_bump : 0 ≤ bump_next (header r) ≤ capacity r;
  wf_links : length (next_links (mem r)) = Z.to_nat (capacity r);
  wf_slots : length (slots (mem r)) = Z.to_nat (capacity r);
  wf_chain : free_chain r (top r) fl;
  wf_nodup : NoDup fl;
  wf_free : Forall (λ i, 0 ≤ i < bump_next (header r)) fl;
  wf_head : ∃ c i, 0 ≤ c < 2 ^ 32 ∧ 0 ≤ i < 2 ^ 32 ∧ free_head (header r) = pack c i;
}.

(** A slot that was handed out and not freed. *)
Definition live (r : SharedRegion T) (fl : list Z) (i : Z) : Prop :=
  0 ≤ i < bump_next (header r) ∧ i ∉ fl.

Lemma region_write_slot r i v j :
  0 ≤ i < Z.of_nat (length (slots (mem r))) → 0 ≤ j →
  slot (write_slot r i v) j = if decide (i = j) then v else slot r j.
Proof.
  intros Hi Hj. unfold slot, write_slot. cbn. case_decide as E.
  - subst. apply list_lookup_total_insert_eq. lia.
  - apply list_lookup_total_insert_ne. lia.
Qed.

Lemma slot_write_with r b h l i v j :
  0 ≤ i < capacity r → length (slots (mem r)) = Z.to_nat (capacity r) → 0 ≤ j →
  slot (write_slot (with_mem r b h l (slots (mem r))) i v) j = if decide (i = j) then v else slot r j.
Proof. intros Hi Hl Hj. rewrite region_write_slot by (cbn [with_mem slots mem]; lia). done. Qed.

(** The chain depends on the links of its members only. *)
Lemma free_chain_ext r r' idx fl :
  (∀ x, x ∈ fl → next_link r' x = next_link r x) → free_chain r idx fl → free_chain r' idx fl.
Proof.
  revert idx. induction fl as [|x fl IH]; intros idx He; cbn; [done|]. intros [-> Hc]. split; [done|].
  rewrite He by (apply elem_of_cons; by left). apply IH; [|done]. intros y Hy.
  apply He, elem_of_cons. by right.
Qed.

Lemma count_free_chain n r idx fl :
  free_chain r idx fl → Forall (λ i, 0 ≤ i < NIL_INDEX) fl → (length fl ≤ n)%nat →
  count_free n r idx = length fl.
Proof.
  revert idx fl. induction n as [|n IH]; intros idx fl Hc Hf Hn; cbn [count_free].
  - destruct fl; [done|cbn in Hn; lia].
  - destruct fl as [|x fl]; cbn in Hc; [by rewrite Hc|]. destruct Hc as [-> Hc].
    apply Forall_cons in Hf as [Hx Hf]. rewrite (proj2 (Z.eqb_neq _ _)) by lia. cbn in *.
    f_equal. apply IH; [done|done|lia].
Qed.

Lemma head_unpack r fl :
  wf r fl → ∃ c, 0 ≤ c < 2 ^ 32 ∧ 0 ≤ top r < 2 ^ 32 ∧ unpack (free_head (header r)) = (c, top r).
Proof.
  intros Hw. destruct (wf_head _ _ Hw) as (c & i & Hc & Hi & E). exists c.
  unfold top. rewrite E, unpack_pack by done. done.
Qed.

Lemma free_lt r fl i : wf r fl → i ∈ fl → 0 ≤ i < bump_next (header r).
Proof. intros Hw Hi. pose proof (wf_free _ _ Hw) as Hf. rewrite Forall_forall in Hf. by apply Hf. Qed.

Lemma live_lt r fl i : wf r fl → live r fl i → 0 ≤ i < capacity r.
Proof. intros Hw [Hi _]. pose proof (wf_bump _ _ Hw). lia. Qed.

(** [allocate]: a slot that was not live, or [Full] with every slot live. *)
Lemma allocate_spec r fl v r' o :
  wf r fl → allocate r v = (r', o) →
  (o = Err Full ∧ r' = r ∧ fl = [] ∧ bump_next (header r) = capacity r) ∨
  (∃ i fl', o = Ok i ∧ wf r' fl' ∧ 0 ≤ i < capacity r ∧ ¬ live r fl i ∧ capacity r' = capacity r ∧
     (∀ j, live r' fl' j ↔ j = i ∨ live r fl j) ∧ slot r' i = v ∧
     (∀ j, 0 ≤ j → j ≠ i → slot r' j = slot r j) ∧ (fl = [] → i = bump_next (header r))).
Proof.
  intros Hw Ha. destruct (head_unpack r fl Hw) as (c & Hc & Ht & Eu).
  pose proof (wf_bump _ _ Hw) as Hb. pose proof (wf_cap _ _ Hw) as Hcap.
  pose proof (wf_chain _ _ Hw) as Hch. pose proof (wf_slots _ _ Hw) as Hsl.
  unfold NIL_INDEX in *. unfold allocate in Ha. rewrite Eu in Ha.
  destruct fl as [|x fl]; cbn [free_chain] in Hch.
  - rewrite Hch, Z.eqb_refl in Ha. cbn [negb] in Ha.
    destruct (Z.leb_spec (capacity r) (bump_next (header r))).
    + injection Ha as <- <-. left. split_and!; try done; [|lia].
      rewrite wrap_small by (rewrite wrap_small by lia; lia). rewrite wrap_small by lia.
      rewrite Z.add_simpl_r. by destruct r as [? [? [] ? ?]].
    + injection Ha as <- <-. right. rewrite !wrap_small by lia. exists (bump_next (header r)), [].
      split_and!; try done; try lia.
      * split; cbn; rewrite ?length_insert; try done; try lia; try apply Hw.
      * intros [? _]. lia.
      * intros j. unfold live. cbn. pose proof (not_elem_of_nil j). split.
        -- intros [? _]. destruct (decide (j = bump_next (header r))); [by left|right; split; [lia|done]].
        -- intros [->|[? _]]; split; (lia || done).
      * rewrite slot_write_with, decide_True by (lia || done). done.
      * intros j Hj Hne. by rewrite slot_write_with, decide_False by (lia || done).
  - destruct Hch as [Ex Hch]. destruct (free_lt r _ x Hw ltac:(set_solver)) as [Hx0 Hx1].
    rewrite Ex in Ha. unfold NIL_INDEX in Ha. rewrite (proj2 (Z.eqb_neq _ _)) in Ha by lia. cbn [negb] in Ha. injection Ha as <- <-.
    pose proof (wf_nodup _ _ Hw) as [Hnx Hnd]%NoDup_cons.
    assert (0 ≤ next_link r x < 2 ^ 32) as Hnl.
    { destruct fl as [|y fl]; cbn [free_chain] in Hch; [rewrite Hch; unfold NIL_INDEX; lia|]. destruct Hch as [-> _].
      pose proof (free_lt r _ y Hw ltac:(set_solver)). lia. }
    pose proof (wrap_bound 32 (c + 1) ltac:(lia)) as Hwb.
    right. exists x, fl. split_and!; try done; try lia.
    + split; cbn; try done; try lia; try apply Hw.
      * by rewrite length_insert.
      * unfold top. cbn. rewrite unpack_pack by done. cbn.
        revert Hch. apply free_chain_ext. done.
      * pose proof (wf_free _ _ Hw) as Hf. by apply Forall_cons in Hf as [_ ?].
      * by exists (u32 (c + 1)), (next_link r x).
    + unfold live. set_solver.
    + intros j. unfold live. cbn. split.
      * intros [? ?]. destruct (decide (j = x)); [by left|right]. set_solver.
      * intros [->|[? ?]]; [done|]. set_solver.
    + rewrite slot_write_with, decide_True by (lia || done). done.
    + intros j Hj Hne. by rewrite slot_write_with, decide_False by (lia || done).
Qed.

(** [free] of a live slot returns its value and makes it available. *)
Lemma free_spec r fl i r' o :
  wf r fl → live r fl i → free r i = (r', o) →
  o = Ok (slot r i) ∧ wf r' (i :: fl) ∧ capacity r' = capacity r ∧
  (∀ j, live r' (i :: fl) j ↔ live r fl j ∧ j ≠ i) ∧ (∀ j, slot r' j = slot r j).
Proof.
  intros Hw Hl Hf. destruct (head_unpack r fl Hw) as (c & Hc & Ht & Eu).
  pose proof (live_lt _ _ _ Hw Hl) as Hi. pose proof (wf_cap _ _ Hw) as Hcap.
  destruct Hl as [Hlt Hnin]. unfold NIL_INDEX in *. unfold free, is_nil, NIL_INDEX in Hf. rewrite Eu in Hf.
  rewrite (proj2 (Z.eqb_neq _ _)), (proj2 (Z.leb_gt _ _)) in Hf by lia. cbn [orb] in Hf.
  injection Hf as <- <-. pose proof (wrap_bound 32 (c + 1) ltac:(lia)) as Hwb.
  pose proof (wf_links _ _ Hw) as Hlk.
  split_and!; try done.
  - split; cbn; try done; try apply Hw.
    + by rewrite length_insert.
    + unfold top. cbn. rewrite unpack_pack by lia. cbn. split; [done|].
      unfold next_link at 1. cbn. rewrite list_lookup_total_insert_eq by lia.
      generalize (wf_chain _ _ Hw). apply free_chain_ext. intros x Hx.
      unfold next_link. cbn. apply list_lookup_total_insert_ne.
      pose proof (free_lt r fl x Hw Hx). intros E. assert (x = i) by lia. by subst.
    + apply NoDup_cons. split; [done|apply Hw].
    + apply Forall_cons. split; [done|apply Hw].
    + exists (u32 (c + 1)), i. split_and!; (lia || done).
  - intros j. unfold live. cbn. set_solver.
Qed.

Lemma write_slot_wf r fl i v : wf r fl → wf (write_slot r i v) fl.
Proof.
  intros Hw. split; cbn; try apply Hw; [by rewrite length_insert; apply Hw|].
  generalize (wf_chain _ _ Hw). by apply free_chain_ext.
Qed.

(** Counting the live slots. *)
Lemma len_spec r fl : wf r fl → len r = bump_next (header r) - Z.of_nat (length fl) ∧ (Z.of_nat (length fl) ≤ bump_next (header r)).
Proof.
  intros Hw. pose proof (wf_bump _ _ Hw) as Hb. pose proof (wf_cap _ _ Hw) as Hcap.
  assert (Z.of_nat (length fl) ≤ bump_next (header r)) as Hle.
  { assert (length fl ≤ length (seqZ 0 (bump_next (header r))))%nat as Hl.
    { apply submseteq_length, NoDup_submseteq; [apply Hw|]. intros x Hx%(free_lt r fl x Hw).
      apply elem_of_seqZ. lia. }
    rewrite length_seqZ in Hl. lia. }
  split; [|done]. unfold len, free_count. fold (top r).
  rewrite (count_free_chain _ r (top r) fl).
  - lia.
  - apply Hw.
  - eapply Forall_impl; [apply Hw|]. cbn. lia.
  - lia.
Qed.
End facts.

(** * The contract: a heap of at most [capacity] cells *)

Section heap.
Context {T : Type} `{Inhabited T}.
Implicit Types (r : SharedRegion T) (m : gmap Z T).

Inductive rop := RAlloc (v : T) | RFree (p : Z) | RGet (p : Z) | RSet (p : Z) (v : T) | RLen.
Inductive rres :=
| RPtr (o : res RegionError Z)
| RVal (o : res RegionError T)
| RUnit (o : res RegionError unit)
| RCount (n : Z).

Definition region_step (r : SharedRegion T) (op : rop) : SharedRegion T * rres :=
  match op with
  | RAlloc v => let '(r', o) := allocate r v in (r', RPtr o)
  | RFree p => let '(r', o) := free r p in (r', RVal o)
  | RGet p => (r, RVal (get r p))
  | RSet p v => let '(r', o) := set r p v in (r', RUnit o)
  | RLen => (r, RCount (len r))
  end.

(** What each call may return on a heap, and the heap it leaves; a pointer is
    used only while its cell is allocated, or is nil or past the capacity. *)
Inductive heap_step (cap : Z) : gmap Z T → rop → rres → gmap Z T → Prop :=
| heap_alloc m v i :
    0 ≤ i < cap → m !! i = None → heap_step cap m (RAlloc v) (RPtr (Ok i)) (<[i := v]> m)
| heap_full m v : Z.of_nat (size m) = cap → heap_step cap m (RAlloc v) (RPtr (Err Full)) m
| heap_free m p v : m !! p = Some v → heap_step cap m (RFree p) (RVal (Ok v)) (delete p m)
| heap_get m p v : m !! p = Some v → heap_step cap m (RGet p) (RVal (Ok v)) m
| heap_set m p v w : m !! p = Some w → heap_step cap m (RSet p v) (RUnit (Ok tt)) (<[p := v]> m)
| heap_len m : heap_step cap m RLen (RCount (Z.of_nat (size m))) m
| heap_free_invalid m p : cap ≤ p → heap_step cap m (RFree p) (RVal (Err InvalidPtr)) m
| heap_get_invalid m p : cap ≤ p → heap_step cap m (RGet p) (RVal (Err InvalidPtr)) m
| heap_set_invalid m p v : cap ≤ p → heap_step cap m (RSet p v) (RUnit (Err InvalidPtr)) m.

(** The caller's side of the contract. *)
Definition pointer_ok (cap : Z) (m : gmap Z T) (op : rop) : Prop :=
  match op with
  | RFree p | RGet p | RSet p _ => is_Some (m !! p) ∨ cap ≤ p
  | _ => True
  end.

Definition heap_rel (r : SharedRegion T) (m : gmap Z T) : Prop :=
  ∃ fl, wf r fl ∧ ∀ i v, m !! i = Some v ↔ live r fl i ∧ slot r i = v.

Lemma heap_rel_live r m fl i :
  (∀ i v, m !! i = Some v ↔ live r fl i ∧ slot r i = v) → live r fl i ↔ is_Some (m !! i).
Proof. intros Hm. split; [intros ?; exists (slot r i); by apply Hm|intros [v [? _]%Hm]; done]. Qed.

(** The live slots, counted. *)
Lemma heap_rel_size r m fl :
  wf r fl → (∀ i v, m !! i = Some v ↔ live r fl i ∧ slot r i = v) →
  Z.of_nat (size m) = bump_next (header r) - Z.of_nat (length fl).
Proof.
  intros Hw Hm. pose proof (len_spec r fl Hw) as [_ Hle]. pose proof (wf_bump _ _ Hw).
  assert (dom m ∪ list_to_set fl = (list_to_set (seqZ 0 (bump_next (header r))) : gset Z)) as Hu.
  { apply set_eq. intros i. rewrite elem_of_union, elem_of_dom, !elem_of_list_to_set, elem_of_seqZ.
    rewrite <- (heap_rel_live r m fl i Hm). unfold live. split.
    - intros [[? _]|Hi%(free_lt r fl i Hw)]; lia.
    - intros Hi. destruct (decide (i ∈ fl)); [by right|left]. split; [lia|done]. }
  apply (f_equal size) in Hu. rewrite size_union in Hu.
  - rewrite size_dom, !size_list_to_set, length_seqZ in Hu by (apply NoDup_seqZ || apply Hw). lia.
  - intros i Hi%elem_of_dom Hf%elem_of_list_to_set. apply (heap_rel_live r m fl i Hm) in Hi as [_ ?]. done.
Qed.

Lemma region_step_refines r m op r' o :
  heap_rel r m → pointer_ok (capacity r) m op → region_step r op = (r', o) →
  ∃ m', heap_step (capacity r) m op o m' ∧ heap_rel r' m' ∧ capacity r' = capacity r.
Proof.
  intros (fl & Hw & Hm) Hp Hs. pose proof (heap_rel_live r m fl) as Hlv.
  assert (∀ p, live r fl p → is_nil p || (capacity r <=? p) = false) as Hin.
  { intros p Hl%(live_lt r fl p Hw). pose proof (wf_cap _ _ Hw). unfold is_nil.
    by rewrite (proj2 (Z.eqb_neq _ _)), (proj2 (Z.leb_gt _ _)) by lia. }
  assert (∀ p, capacity r ≤ p → is_nil p || (capacity r <=? p) = true) as Hout.
  { intros p Hc. by rewrite (proj2 (Z.leb_le _ _)), orb_true_r by lia. }
  destruct op as [v|p|p|p v|]; cbn [region_step pointer_ok] in *.
  - destruct (allocate r v) as [r1 o1] eqn:Ea. injection Hs as <- <-.
    destruct (allocate_spec _ _ _ _ _ Hw Ea) as
      [(-> & -> & -> & Eb)|(i & fl' & -> & Hw' & Hi & Hnl & Hc' & Hl' & Hv & Hsl & _)].
    + exists m. split_and!; [|by exists []|done]. apply heap_full.
      rewrite (heap_rel_size r m [] Hw Hm). cbn. lia.
    + exists (<[i := v]> m). split_and!; [|exists fl'; split; [done|]|done].
      * apply heap_alloc; [done|]. apply eq_None_not_Some. by rewrite <- (Hlv i Hm).
      * intros j w. rewrite Hl'. destruct (decide (j = i)) as [->|Hne].
        -- rewrite lookup_insert_eq. split; [intros [= ->]; auto|intros [_ <-]; by rewrite Hv].
        -- rewrite lookup_insert_ne, Hm by done. split.
           ++ intros [Hlj <-]. split; [by right|]. apply Hsl; [apply Hlj|done].
           ++ intros [[?|Hlj] <-]; [done|]. split; [done|]. symmetry. apply Hsl; [apply Hlj|done].
  - destruct (free r p) as [r1 o1] eqn:Ef. injection Hs as <- <-. destruct Hp as [Hsome|Hc].
    + destruct Hsome as [v Hv]. pose proof Hv as [Hl <-]%Hm.
      destruct (free_spec _ _ _ _ _ Hw Hl Ef) as (-> & Hw' & Hc' & Hl' & Hsl).
      exists (delete p m). split_and!; [by apply heap_free|exists (p :: fl); split; [done|]|done].
      intros j w. rewrite lookup_delete_Some, Hl', Hm, Hsl. naive_solver.
    + unfold free in Ef. rewrite Hout in Ef by done. injection Ef as <- <-.
      exists m. split_and!; [by apply heap_free_invalid|by exists fl|done].
  - injection Hs as <- <-. exists m. unfold get. destruct Hp as [[v Hv]|Hc].
    + pose proof Hv as [Hl Hsv]%Hm. rewrite Hin, Hsv by done.
      split_and!; [by apply heap_get|by exists fl|done].
    + rewrite Hout by done. split_and!; [by apply heap_get_invalid|by exists fl|done].
  - destruct (set r p v) as [r1 o1] eqn:Ef. injection Hs as <- <-. unfold set in Ef.
    destruct Hp as [[w Hv]|Hc].
    + pose proof Hv as [Hl Hsv]%Hm. rewrite Hin in Ef by done. injection Ef as <- <-.
      exists (<[p := v]> m). split_and!; [by eapply heap_set| |done]. exists fl.
      split; [by apply write_slot_wf|]. pose proof (live_lt r fl p Hw Hl) as Hpl.
      pose proof (wf_slots _ _ Hw). intros j u. unfold live. cbn. destruct (decide (p = j)) as [<-|Hne].
      * rewrite lookup_insert_eq, region_write_slot, decide_True by (lia || done). naive_solver.
      * rewrite lookup_insert_ne, Hm by done. split.
        -- intros [Hlj <-]. split; [done|]. rewrite region_write_slot, decide_False by (done || destruct Hlj; lia). done.
        -- intros [Hlj <-]. split; [done|]. rewrite region_write_slot, decide_False by (done || destruct Hlj; lia). done.
    + rewrite Hout in Ef by done. injection Ef as <- <-.
      exists m. split_and!; [by apply heap_set_invalid|by exists fl|done].
  - injection Hs as <- <-. exists m. split_and!; [|by exists fl|done].
    rewrite (proj1 (len_spec r fl Hw)), <- (heap_rel_size r m fl Hw Hm). apply heap_len.
Qed.

(** ** Sequences of calls *)

Fixpoint region_run (r : SharedRegion T) (ops : list rop) : SharedRegion T * list rres :=
  match ops with
  | [] => (r, [])
  | op :: ops =>
      let '(r1, o) := region_step r op in
      let '(r2, os) := region_run r1 ops in (r2, o :: os)
  end.

Inductive heap_run (cap : Z) : gmap Z T → list rop → list rres → gmap Z T → Prop :=
| heap_run_nil m : heap_run cap m [] [] m
| heap_run_cons m op o m1 ops os m2 :
    heap_step cap m op o m1 → heap_run cap m1 ops os m2 → heap_run cap m (op :: ops) (o :: os) m2.

(** The heap after a call that returned [o]. *)
Definition heap_next (m : gmap Z T) (op : rop) (o : rres) : gmap Z T :=
  match op, o with
  | RAlloc v, RPtr (Ok i) => <[i := v]> m
  | RFree p, RVal (Ok _) => delete p m
  | RSet p v, RUnit (Ok _) => <[p := v]> m
  | _, _ => m
  end.

Fixpoint pointers_ok (cap : Z) (m : gmap Z T) (ops : list rop) (os : list rres) : Prop :=
  match ops, os with
  | op :: ops, o :: os => pointer_ok cap m op ∧ pointers_ok cap (heap_next m op o) ops os
  | _, _ => True
  end.

Lemma heap_step_next cap m op o m' : heap_step cap m op o m' → m' = heap_next m op o.
Proof. by destruct 1. Qed.

Lemma region_run_refines r m ops r' os :
  heap_rel r m → region_run r ops = (r', os) → pointers_ok (capacity r) m ops os →
  ∃ m', heap_run (capacity r) m ops os m' ∧ heap_rel r' m' ∧ capacity r' = capacity r.
Proof.
  revert r m os. induction ops as [|op ops IH]; intros r m os Hm Hr Hp; cbn [region_run] in Hr.
  - injection Hr as <- <-. exists m. split_and!; [constructor|done|done].
  - destruct (region_step r op) as [r1 o] eqn:E1, (region_run r1 ops) as [r2 os'] eqn:E2.
    injection Hr as <- <-. cbn in Hp. destruct Hp as [Hp Hps].
    destruct (region_step_refines _ _ _ _ _ Hm Hp E1) as (m1 & Hs & Hm1 & Hc1).
    rewrite <- (heap_step_next _ _ _ _ _ Hs) in Hps. rewrite <- Hc1 in Hps.
    destruct (IH _ _ _ Hm1 E2 Hps) as (m2 & Hr2 & Hm2 & Hc2). rewrite Hc1 in Hr2.
    exists m2. split_and!; [by econstructor|done|congruence].
Qed.

(** Zeroed bytes of the right size. *)
Record zeroed (m : region_mem T) (cap : Z) : Prop := {
  zm_bump : bump_next (mem_hdr m) = 0;
  zm_links : length (next_links m) = Z.to_nat cap;
  zm_slots : length (slots m) = Z.to_nat cap;
}.

Lemma init_region_ok size_of align_of (m : region_mem T) cap :
  zeroed m cap → 1 ≤ cap < NIL_INDEX → wf (MkRegion cap (init_region size_of align_of m cap)) [].
Proof.
  intros [Hb Hl Hs] Hc. split; cbn; try done.
  - rewrite Hb. lia.
  - by apply NoDup_nil_2.
  - exists 0, NIL_INDEX. unfold NIL_INDEX. split_and!; (lia || done).
Qed.

Lemma init_from_region size_of align_of (m : region_mem T) cap :
  1 ≤ cap < NIL_INDEX → slots_offset_for cap < 2 ^ 32 →
  from_region size_of (init_region size_of align_of m cap) cap =
  Ok (MkRegion cap (init_region size_of align_of m cap)).
Proof.
  intros Hc Ho. unfold from_region. cbn. unfold slots_offset_for, REGION_HEADER_BYTES in *.
  rewrite (wrap_small 32 (64 + cap * 4)) by lia. rewrite !Z.eqb_refl. cbn.
  by rewrite andb_false_r.
Qed.
End heap.

(** C8: an arena laid out on zeroed memory is a heap: every allocation returns
    a slot no live pointer names and is refused exactly when all [capacity]
    slots are live; a live pointer reads the value last stored through it, frees
    to that value, and no other pointer is affected; [len] counts the live
    slots; nil and out-of-range pointers are refused. *)
Theorem region_refines_heap {T} `{Inhabited T} size_of align_of (m : region_mem T) cap ops r r' os :
  zeroed m cap → slots_offset_for cap < 2 ^ 32 →
  reset size_of align_of (Ok m) cap = Ok r → region_run r ops = (r', os) →
  pointers_ok cap ∅ ops os →
  ∃ h, heap_run cap ∅ ops os h ∧ heap_rel r' h.
Proof.
  intros Hz Ho Hr Hrun Hp. unfold reset in Hr.
  apply bind_ok in Hr as ([] & H1 & Hr). apply bind_ok in Hr as ([] & H2 & Hr).
  rewrite assert_ok in H1, H2. bool_to_prop. cbn in Hr.
  rewrite init_from_region in Hr by (lia || done). injection Hr as <-.
  destruct (region_run_refines (MkRegion cap (init_region size_of align_of m cap)) ∅ ops r' os)
    as (h & Hh & Hrel & _); [|exact Hrun|exact Hp|by exists h].
  exists []. split; [by apply init_region_ok|]. intros i v. rewrite lookup_empty. split; [done|].
  intros [[Hi _] _]. cbn in Hi. rewrite (zm_bump _ _ Hz) in Hi. lia.
Qed.

(** ** Witness *)

Definition mem2 : region_mem Z :=
  MkMem 88 (MkRegionHeader 0 0 0 0 0 0 0 0) [0; 0] [0; 0].

Lemma region_refines_heap_witness :
  ∃ r r' os, reset 8 8 (Ok mem2) 2 = Ok r ∧
    region_run r [RAlloc 5; RAlloc 6; RAlloc 7; RFree 0; RAlloc 8; RGet 0; RLen] = (r', os) ∧
    os = [RPtr (Ok 0); RPtr (Ok 1); RPtr (Err Full); RVal (Ok 5); RPtr (Ok 0); RVal (Ok 8); RCount 2] ∧
    ∃ h, heap_run 2 ∅ [RAlloc 5; RAlloc 6; RAlloc 7; RFree 0; RAlloc 8; RGet 0; RLen] os h.
Proof.
  do 3 eexists. split; [reflexivity|]. split; [vm_compute; reflexivity|]. split; [reflexivity|].
  edestruct (region_refines_heap 8 8 mem2 2
    [RAlloc 5; RAlloc 6; RAlloc 7; RFree 0; RAlloc 8; RGet 0; RLen]) as (h & Hh & _);
    [by split|done|reflexivity|vm_compute; reflexivity| |by exists h].
  cbn. split_and!; try done; left; by eexists.
Defined.
