(* ===== verification/LinkedList.v ===== *)
(** [SharedLinkedList<T>], the doubly-linked list of
    [crates/subetha-cxc/src/shared_linked_list.rs]: nodes in a [SharedRegion],
    slot 0 a sentinel that closes the list into a ring, handles that stay valid
    until their node is removed.

    Links are slot indices and the link updates write one field of a node in
    place, as the code does.  The list is proved to be the list of its
    (handle, value) pairs, for handles the contract of the file's header allows
    (live, or nil or the sentinel, which are refused). *)
From stdpp Require Import gmap.
From S2P Require Import Prelude SharedRegion.

Definition HEAD_INDEX : Z := 0.

Record Node (T : Type) := MkNode { value : T; next : Z; prev : Z }.
Arguments MkNode {T}.
Arguments value {T}.
Arguments next {T}.
Arguments prev {T}.

#[export] Instance Node_inhabited {T} `{Inhabited T} : Inhabited (Node T) :=
  populate (MkNode inhabitant 0 0).

Inductive LinkedListError :=
| LRegion (e : RegionError)
| InvalidHandle
| LLayoutMismatch
| LIoError (kind : Z).

#[export] Instance LinkedListError_eq_dec : EqDecision LinkedListError.
Proof. solve_decision. Defined.

(** [impl From<RegionError> for LinkedListError], as [?] uses it. *)
Definition from_region_error {A} (o : res RegionError A) : res LinkedListError A :=
  match o with Ok a => Ok a | Err e => Err (LRegion e) | Panic => Panic end.

Section list_code.
Context {T : Type} `{Inhabited T}.

Record SharedLinkedList := MkList { region : SharedRegion (Node T) }.
Implicit Types (l : SharedLinkedList).

Definition node l (idx : Z) : Node T := slot (region l) idx.

(** Field-direct accesses. *)
Definition read_value l idx : T := value (node l idx).
Definition read_next l idx : Z := next (node l idx).
Definition read_prev l idx : Z := prev (node l idx).
Definition set_next l idx v : SharedLinkedList :=
  MkList (write_slot (region l) idx (MkNode (value (node l idx)) v (prev (node l idx)))).
Definition set_prev l idx v : SharedLinkedList :=
  MkList (write_slot (region l) idx (MkNode (value (node l idx)) (next (node l idx)) v)).
Definition set_value l idx v : SharedLinkedList :=
  MkList (write_slot (region l) idx (MkNode v (next (node l idx)) (prev (node l idx)))).

(** Construction: [made] is what [SharedRegion::create] returned, [dflt] is
    [T::default()]. *)
Definition create (made : res RegionError (SharedRegion (Node T))) (dflt : T) (cap : Z) :
    res LinkedListError SharedLinkedList :=
  _ ← assert_ (2 <=? cap);
  region ← from_region_error made;
  let '(region', o) := allocate region (MkNode dflt HEAD_INDEX HEAD_INDEX) in
  head_ptr ← from_region_error o;
  _ ← assert_ (head_ptr =? HEAD_INDEX);
  mret (MkList region').

Definition open (opened : res RegionError (SharedRegion (Node T))) : res LinkedListError SharedLinkedList :=
  region ← from_region_error opened; mret (MkList region).

Definition llen l : Z := Z.max 0 (len (region l) - 1).
Definition lis_empty l : bool := llen l =? 0.

(** [region.get(..).expect(..)]. *)
Definition read_node l (idx : Z) : res LinkedListError (Node T) :=
  match get (region l) idx with Ok n => Ok n | _ => Panic end.

Definition push_front l (v : T) : SharedLinkedList * res LinkedListError Z :=
  let old_first := read_next l HEAD_INDEX in
  let '(region', o) := allocate (region l) (MkNode v old_first HEAD_INDEX) in
  let l1 := MkList region' in
  match o with
  | Ok new_idx =>
      let l2 := if negb (old_first =? HEAD_INDEX) then set_prev l1 old_first new_idx
                else set_prev l1 HEAD_INDEX new_idx in
      (set_next l2 HEAD_INDEX new_idx, Ok new_idx)
  | Err e => (l1, Err (LRegion e))
  | Panic => (l1, Panic)
  end.

Definition push_back l (v : T) : SharedLinkedList * res LinkedListError Z :=
  let old_last := read_prev l HEAD_INDEX in
  let '(region', o) := allocate (region l) (MkNode v HEAD_INDEX old_last) in
  let l1 := MkList region' in
  match o with
  | Ok new_idx =>
      let l2 := if negb (old_last =? HEAD_INDEX) then set_next l1 old_last new_idx
                else set_next l1 HEAD_INDEX new_idx in
      (set_prev l2 HEAD_INDEX new_idx, Ok new_idx)
  | Err e => (l1, Err (LRegion e))
  | Panic => (l1, Panic)
  end.

(** The two sides of the splice in [remove_by_index]. *)
Definition unlink l (node_prev node_next : Z) : SharedLinkedList :=
  let l1 :=
    if node_prev =? HEAD_INDEX then
      let l' := set_next l HEAD_INDEX node_next in
      if node_next =? HEAD_INDEX then set_prev l' HEAD_INDEX HEAD_INDEX else l'
    else set_next l node_prev node_next in
  if node_next =? HEAD_INDEX then
    let l' := set_prev l1 HEAD_INDEX node_prev in
    if node_prev =? HEAD_INDEX then set_next l' HEAD_INDEX HEAD_INDEX else l'
  else set_prev l1 node_next node_prev.

Definition remove_by_index l (idx : Z) : SharedLinkedList * option T :=
  let node_prev := read_prev l idx in
  let node_next := read_next l idx in
  let node_value := read_value l idx in
  let l1 := unlink l node_prev node_next in
  (MkList (free (region l1) idx).1, Some node_value).

Definition pop_front l : SharedLinkedList * option T :=
  let first_idx := read_next l HEAD_INDEX in
  if first_idx =? HEAD_INDEX then (l, None) else remove_by_index l first_idx.

Definition pop_back l : SharedLinkedList * res LinkedListError (option T) :=
  match read_node l HEAD_INDEX with
  | Ok head =>
      if prev head =? HEAD_INDEX then (l, Ok None)
      else let '(l', o) := remove_by_index l (prev head) in (l', Ok o)
  | Err e => (l, Err e)
  | Panic => (l, Panic)
  end.

Definition bad_handle (h : Z) : bool := is_nil h || (h =? HEAD_INDEX).

Definition remove l (h : Z) : SharedLinkedList * option T :=
  if bad_handle h then (l, None) else remove_by_index l h.

Definition lget l (h : Z) : option T :=
  if bad_handle h then None else Some (read_value l h).

Definition lset l (h : Z) (v : T) : SharedLinkedList * res LinkedListError unit :=
  if bad_handle h then (l, Err InvalidHandle) else (set_value l h v, Ok tt).

Definition first l : res LinkedListError (option T) :=
  head ← read_node l HEAD_INDEX;
  if next head =? HEAD_INDEX then Ok None
  else n ← read_node l (next head); Ok (Some (value n)).

Definition last l : res LinkedListError (option T) :=
  head ← read_node l HEAD_INDEX;
  if prev head =? HEAD_INDEX then Ok None
  else n ← read_node l (prev head); Ok (Some (value n)).

(** The three iterations: [while cur != HEAD_INDEX], [None] while still running
    when the fuel is used up. *)
Fixpoint walk {B} (fuel : nat) (go : Node T → Z) (emit : Z → Node T → B) l (cur : Z) :
    option (res LinkedListError (list B)) :=
  if cur =? HEAD_INDEX then Some (Ok [])
  else match fuel with
  | O => None
  | S fuel =>
      match read_node l cur with
      | Ok n => option_map (fmap (M := res LinkedListError) (cons (emit cur n))) (walk fuel go emit l (go n))
      | Err e => Some (Err e)
      | Panic => Some Panic
      end
  end.

Definition iter_with {B} (go : Node T → Z) (emit : Z → Node T → B) l :
    option (res LinkedListError (list B)) :=
  match read_node l HEAD_INDEX with
  | Ok head => walk (Z.to_nat (capacity (region l))) go emit l (go head)
  | Err e => Some (Err e)
  | Panic => Some Panic
  end.

Definition iter_forward l := iter_with next (λ _ n, value n) l.
Definition iter_backward l := iter_with prev (λ _ n, value n) l.
Definition iter_forward_with_handles l := iter_with next (λ i n, (i, value n)) l.
End list_code.
Arguments SharedLinkedList : clear implicits.

(** * Linked nodes *)

Section links.
Context {T : Type} `{Inhabited T}.
Implicit Types (l : SharedLinkedList T) (xs ys : list Z).

(** From [a] through [xs] to [b], forwards and backwards. *)
Fixpoint seg l (a : Z) xs (b : Z) : Prop :=
  match xs with
  | [] => read_next l a = b ∧ read_prev l b = a
  | x :: xs => read_next l a = x ∧ read_prev l x = a ∧ seg l x xs b
  end.

Lemma seg_app l a xs x ys b : seg l a (xs ++ x :: ys) b ↔ seg l a xs x ∧ seg l x ys b.
Proof.
  revert a. induction xs as [|y xs IH]; intros a; cbn; [tauto|]. rewrite IH. tauto.
Qed.

Lemma seg_ext l l' a xs b :
  (∀ x, x = a ∨ x ∈ xs → read_next l' x = read_next l x) →
  (∀ x, x = b ∨ x ∈ xs → read_prev l' x = read_prev l x) →
  seg l a xs b → seg l' a xs b.
Proof.
  revert a. induction xs as [|y xs IH]; intros a Hn Hp; cbn.
  - rewrite Hn, Hp by auto. done.
  - rewrite Hn, Hp by set_solver. intros (? & ? & Hs). split_and!; [done..|].
    apply IH; [| |done]; intros x Hx; [apply Hn|apply Hp]; set_solver.
Qed.

(** A list cut in two: the last node before the cut points to the first after
    it. *)
Lemma seg_split l a xs ys b :
  seg l a (xs ++ ys) b ↔
  seg l a xs (default b (head ys)) ∧ seg l (default a (list.last xs)) ys b.
Proof.
  revert a. induction xs as [|x xs IH]; intros a.
  - cbn. destruct ys; cbn; tauto.
  - rewrite last_cons. cbn. rewrite IH. destruct (list.last xs); cbn; tauto.
Qed.

(** The part before a changed link, and the part after it. *)
Lemma seg_left l l' a xs t t' :
  let z := default a (list.last xs) in
  seg l a xs t → NoDup (a :: xs) → read_next l' z = t' → read_prev l' t' = z →
  (∀ j, j = a ∨ j ∈ xs → j ≠ z → read_next l' j = read_next l j) →
  (∀ j, j ∈ xs → read_prev l' j = read_prev l j) → seg l' a xs t'.
Proof.
  revert a. induction xs as [|x xs IH]; intros a z Hs Hnd Hz Ht Hn Hp; [done|].
  assert (z = default x (list.last xs)) as Ez.
  { subst z. rewrite last_cons. by destruct (list.last xs). }
  apply NoDup_cons in Hnd as [Hax Hnd]. cbn in Hs. destruct Hs as (Hs1 & Hs2 & Hs).
  assert (z ∈ x :: xs) as Hzin.
  { rewrite Ez. destruct (list.last xs) eqn:E; cbn; [|apply elem_of_cons; by left].
    apply last_Some_elem_of in E. apply elem_of_cons. by right. }
  cbn. rewrite Hn by (auto || congruence).
  rewrite Hp by (apply elem_of_cons; by left). split_and!; [done..|].
  apply (IH x); rewrite <- ?Ez; try done.
  - intros j Hj. apply Hn. right. by rewrite elem_of_cons.
  - intros j Hj. apply Hp. rewrite elem_of_cons. by right.
Qed.

Lemma seg_right l l' c c' ys e :
  let z := default e (head ys) in
  seg l c ys e → NoDup (ys ++ [e]) → read_next l' c' = z → read_prev l' z = c' →
  (∀ j, j ∈ ys → read_next l' j = read_next l j) →
  (∀ j, j = e ∨ j ∈ ys → j ≠ z → read_prev l' j = read_prev l j) → seg l' c' ys e.
Proof.
  intros z Hs Hnd Hz Ht Hn Hp. destruct ys as [|y ys]; [done|]. cbn in z. subst z.
  cbn in Hs. destruct Hs as (_ & _ & Hs). cbn. split_and!; [done..|].
  apply NoDup_cons in Hnd as [Hy _]. rewrite elem_of_app, list_elem_of_singleton in Hy.
  revert Hs. apply seg_ext.
  - intros j Hj. apply Hn. by rewrite elem_of_cons.
  - intros j Hj. apply Hp; [rewrite elem_of_cons; tauto|]. intros ->. tauto.
Qed.

Lemma seg_first l xs :
  seg l HEAD_INDEX xs HEAD_INDEX → read_next l HEAD_INDEX = default HEAD_INDEX (head xs).
Proof. destruct xs; cbn; tauto. Qed.

Lemma seg_last l xs :
  seg l HEAD_INDEX xs HEAD_INDEX → read_prev l HEAD_INDEX = default HEAD_INDEX (list.last xs).
Proof.
  destruct xs as [|x xs _] using rev_ind; [cbn; tauto|]. rewrite seg_app, last_snoc. cbn. tauto.
Qed.

(** The ring invariant: the nodes in order, the live slots being the sentinel
    and them. *)
Record dll l (fl xs : list Z) : Prop := {
  dll_wf : wf (region l) fl;
  dll_seg : seg l HEAD_INDEX xs HEAD_INDEX;
  dll_nodup : NoDup (HEAD_INDEX :: xs);
  dll_live i : live (region l) fl i ↔ i = HEAD_INDEX ∨ i ∈ xs;
}.

Lemma dll_range l fl xs i : dll l fl xs → i = HEAD_INDEX ∨ i ∈ xs → 0 ≤ i < capacity (region l).
Proof. intros Hd Hi. apply (live_lt _ fl); [apply Hd|by apply Hd]. Qed.

(** ** Writing fields *)

Definition in_region l (i : Z) : Prop := 0 ≤ i < Z.of_nat (length (slots (mem (region l)))).

Lemma node_write l i n j :
  in_region l i → 0 ≤ j →
  node (MkList (write_slot (region l) i n)) j = if decide (i = j) then n else node l j.
Proof. intros. unfold node. cbn. by apply region_write_slot. Qed.

Lemma length_write l i n :
  length (slots (mem (region (MkList (write_slot (region l) i n))))) = length (slots (mem (region l))).
Proof. cbn. by rewrite length_insert. Qed.

(** [l'] is [l] with some next fields and some prev fields changed. *)
Definition same_nodes l l' (fn fp : Z → option Z) : Prop :=
  (∀ fl, wf (region l) fl → wf (region l') fl) ∧
  bump_next (header (region l')) = bump_next (header (region l)) ∧
  capacity (region l') = capacity (region l) ∧
  length (slots (mem (region l'))) = length (slots (mem (region l))) ∧
  ∀ j, 0 ≤ j → node l' j =
    MkNode (value (node l j)) (default (next (node l j)) (fn j)) (default (prev (node l j)) (fp j)).

Lemma same_nodes_refl l : same_nodes l l (λ _, None) (λ _, None).
Proof. split_and!; try done. intros j _. by destruct (node l j). Qed.

Lemma same_nodes_set_next l l' fn fp i v :
  same_nodes l l' fn fp → in_region l i →
  same_nodes l (set_next l' i v) (λ j, if decide (i = j) then Some v else fn j) fp.
Proof.
  intros (Hw & Hb & Hc & Hl & Hn) Hi. unfold in_region in Hi. split_and!; try done.
  - intros fl Hwf. by apply write_slot_wf, Hw.
  - unfold set_next. by rewrite length_write.
  - intros j Hj. unfold set_next. rewrite node_write by (unfold in_region; rewrite ?Hl; done).
    case_decide as E; [subst; by rewrite Hn|by rewrite Hn].
Qed.

Lemma same_nodes_set_prev l l' fn fp i v :
  same_nodes l l' fn fp → in_region l i →
  same_nodes l (set_prev l' i v) fn (λ j, if decide (i = j) then Some v else fp j).
Proof.
  intros (Hw & Hb & Hc & Hl & Hn) Hi. unfold in_region in Hi. split_and!; try done.
  - intros fl Hwf. by apply write_slot_wf, Hw.
  - unfold set_prev. by rewrite length_write.
  - intros j Hj. unfold set_prev. rewrite node_write by (unfold in_region; rewrite ?Hl; done).
    case_decide as E; [subst; by rewrite Hn|by rewrite Hn].
Qed.

Lemma same_nodes_ext l l' fn fp gn gp :
  same_nodes l l' fn fp → (∀ j, fn j = gn j) → (∀ j, fp j = gp j) → same_nodes l l' gn gp.
Proof.
  intros (? & ? & ? & ? & Hn) En Ep. split_and!; try done. intros j Hj. by rewrite Hn, En, Ep by done.
Qed.

(** The splice writes one next and one prev field, whatever its branches. *)
Lemma unlink_nodes l p n :
  in_region l p → in_region l n → in_region l 0 →
  same_nodes l (unlink l p n) (λ j, if decide (p = j) then Some n else None)
    (λ j, if decide (n = j) then Some p else None).
Proof.
  intros Hp Hn H0. unfold unlink. pose proof (same_nodes_refl l) as Hr. unfold HEAD_INDEX in *.
  destruct (Z.eqb_spec p 0) as [->|Hp0], (Z.eqb_spec n 0) as [->|Hn0].
  - eapply same_nodes_ext; [by repeat first [apply same_nodes_set_next|apply same_nodes_set_prev]|..];
      intros j; by repeat case_decide.
  - eapply same_nodes_ext; [by repeat first [apply same_nodes_set_next|apply same_nodes_set_prev]|..];
      intros j; by repeat case_decide.
  - eapply same_nodes_ext; [by repeat first [apply same_nodes_set_next|apply same_nodes_set_prev]|..];
      intros j; by repeat case_decide.
  - eapply same_nodes_ext; [by repeat first [apply same_nodes_set_next|apply same_nodes_set_prev]|..];
      intros j; by repeat case_decide.
Qed.

(** ** The operations on the ring *)

Lemma dll_count l fl xs :
  dll l fl xs → 1 + Z.of_nat (length xs) + Z.of_nat (length fl) = bump_next (header (region l)).
Proof.
  intros Hd. pose proof (dll_wf _ _ _ Hd) as Hw. pose proof (wf_bump _ _ Hw).
  assert ((HEAD_INDEX :: xs) ++ fl ≡ₚ seqZ 0 (bump_next (header (region l)))) as Hp.
  { apply NoDup_Permutation; [|apply NoDup_seqZ|].
    - apply NoDup_app. split_and!; [apply Hd| |apply Hw]. intros i Hi%elem_of_cons Hf.
      apply (dll_live _ _ _ Hd) in Hi as [_ ?]. done.
    - intros i. rewrite elem_of_app, elem_of_cons, <- (dll_live _ _ _ Hd), elem_of_seqZ. unfold live.
      split; [intros [[? _]|?%(free_lt _ fl i Hw)]; lia|]. intros Hi.
      destruct (decide (i ∈ fl)); [by right|left]. split; [lia|done]. }
  apply Permutation_length in Hp. rewrite length_app, length_seqZ in Hp. cbn in Hp. lia.
Qed.

Lemma dll_len l fl xs : dll l fl xs → llen l = Z.of_nat (length xs).
Proof.
  intros Hd. pose proof (dll_count _ _ _ Hd). unfold llen.
  rewrite (proj1 (len_spec _ _ (dll_wf _ _ _ Hd))). lia.
Qed.

(** The new node is allocated: either no slot is left, or [i] is a slot of its
    own. *)
Lemma dll_allocate l fl xs nd r' o :
  dll l fl xs → allocate (region l) nd = (r', o) →
  (o = Err Full ∧ r' = region l ∧ Z.of_nat (length xs) + 1 = capacity (region l)) ∨
  (∃ i fl', o = Ok i ∧ wf r' fl' ∧ i ∉ HEAD_INDEX :: xs ∧ 0 ≤ i < capacity (region l) ∧
     capacity r' = capacity (region l) ∧ length (slots (mem r')) = length (slots (mem (region l))) ∧
     (∀ j, live r' fl' j ↔ j = HEAD_INDEX ∨ j ∈ i :: xs) ∧
     (∀ j, 0 ≤ j → node (MkList r') j = if decide (i = j) then nd else node l j)).
Proof.
  intros Hd Ha. pose proof (dll_count _ _ _ Hd) as Hcnt.
  destruct (allocate_spec _ _ _ _ _ (dll_wf _ _ _ Hd) Ha) as
    [(-> & -> & -> & Eb)|(i & fl' & -> & Hw' & Hi & Hnl & Hc & Hl & Hv & Hs & _)].
  - left. cbn in Hcnt. split_and!; [done..|lia].
  - right. exists i, fl'. rewrite (dll_live _ _ _ Hd) in Hnl. split_and!; try done; try lia.
    + by rewrite elem_of_cons.
    + rewrite (wf_slots _ _ Hw'), (wf_slots _ _ (dll_wf _ _ _ Hd)), Hc. done.
    + intros j. rewrite Hl, (dll_live _ _ _ Hd), elem_of_cons. tauto.
    + intros j Hj. unfold node. cbn. case_decide as E; [by subst|]. apply Hs; [done|congruence].
Qed.

Lemma same_nodes_live l l' fn fp fl i :
  same_nodes l l' fn fp → live (region l') fl i ↔ live (region l) fl i.
Proof. intros (_ & Hb & _). unfold live. by rewrite Hb. Qed.

(** What a list operation that inserted [i] with value [v] did, and one that
    removed [i]. *)
Definition inserted l l' (fl' xs xs' : list Z) (i : Z) (v : T) : Prop :=
  dll l' fl' xs' ∧ i ∉ HEAD_INDEX :: xs ∧ 0 < i < capacity (region l) ∧
  capacity (region l') = capacity (region l) ∧ read_value l' i = v ∧
  ∀ j, j ∈ xs → read_value l' j = read_value l j.

Definition full_list l xs : Prop := Z.of_nat (length xs) + 1 = capacity (region l).

Lemma head_in_region l fl xs i : dll l fl xs → i = HEAD_INDEX ∨ i ∈ xs → in_region l i.
Proof.
  intros Hd Hi. pose proof (dll_range _ _ _ _ Hd Hi). unfold in_region.
  rewrite (wf_slots _ _ (dll_wf _ _ _ Hd)). lia.
Qed.

(** Splitting the ring invariant's no-repeat condition at a position. *)
Lemma nodup_cut xs ys :
  NoDup (HEAD_INDEX :: xs ++ ys) → NoDup (HEAD_INDEX :: xs) ∧ NoDup (ys ++ [HEAD_INDEX]).
Proof.
  intros [H0 Hnd]%NoDup_cons. rewrite elem_of_app in H0. apply NoDup_app in Hnd as (Nx & _ & Ny).
  split.
  - apply NoDup_cons. tauto.
  - apply NoDup_app. split_and!; [done| |apply NoDup_singleton].
    intros x Hx ->%list_elem_of_singleton. tauto.
Qed.

Lemma last_cases xs : default HEAD_INDEX (list.last xs) = HEAD_INDEX ∨ default HEAD_INDEX (list.last xs) ∈ xs.
Proof. destruct (list.last xs) eqn:E; cbn; [right; by apply last_Some_elem_of|by left]. Qed.

Lemma head_cases ys : default HEAD_INDEX (head ys) = HEAD_INDEX ∨ default HEAD_INDEX (head ys) ∈ ys.
Proof. destruct ys; cbn; [by left|right; apply elem_of_cons; by left]. Qed.

(** Linking a fresh node [i] between [a] and [b], where [a] was followed by
    [b]. *)
Lemma link_between l r' fl' xs ys i v l' :
  let a := default HEAD_INDEX (list.last xs) in
  let b := default HEAD_INDEX (head ys) in
  NoDup (HEAD_INDEX :: xs ++ ys) → seg l HEAD_INDEX (xs ++ ys) HEAD_INDEX →
  (∀ j, j = HEAD_INDEX ∨ j ∈ xs ++ ys → 0 ≤ j) →
  wf r' fl' → i ∉ HEAD_INDEX :: xs ++ ys → 0 ≤ i →
  (∀ j, live r' fl' j ↔ j = HEAD_INDEX ∨ j ∈ i :: xs ++ ys) →
  (∀ j, 0 ≤ j → node (MkList r') j = if decide (i = j) then MkNode v b a else node l j) →
  same_nodes (MkList r') l' (λ j, if decide (a = j) then Some i else None)
    (λ j, if decide (b = j) then Some i else None) →
  dll l' fl' (xs ++ i :: ys) ∧ read_value l' i = v ∧
  ∀ j, j ∈ xs ++ ys → read_value l' j = read_value l j.
Proof.
  intros a b Hnd Hseg Hpos Hw Hni Hi Hlive Hnode Hsame. pose proof Hsame as (Hsw & _ & _ & _ & Hn).
  assert (∀ j, j = HEAD_INDEX ∨ j ∈ xs ++ ys → i ≠ j) as Hij.
  { intros j Hj ->. apply Hni. by rewrite elem_of_cons. }
  assert (∀ j, 0 ≤ j → read_next l' j = if decide (a = j) then i else if decide (i = j) then b else read_next l j) as En.
  { intros j Hj. unfold read_next at 1. rewrite Hn by done. cbn. rewrite Hnode by done.
    by destruct (decide (a = j)), (decide (i = j)). }
  assert (∀ j, 0 ≤ j → read_prev l' j = if decide (b = j) then i else if decide (i = j) then a else read_prev l j) as Ep.
  { intros j Hj. unfold read_prev at 1. rewrite Hn by done. cbn. rewrite Hnode by done.
    by destruct (decide (b = j)), (decide (i = j)). }
  setoid_rewrite elem_of_app in Hpos. setoid_rewrite elem_of_app in Hij.
  assert (a = HEAD_INDEX ∨ a ∈ xs) as Ha by apply last_cases.
  assert (b = HEAD_INDEX ∨ b ∈ ys) as Hb by apply head_cases.
  destruct (nodup_cut _ _ Hnd) as [Nx Ny]. apply NoDup_cons in Hnd as [H0 Hnd].
  pose proof (proj1 (NoDup_app _ _) Hnd) as (_ & Nxy & _). rewrite elem_of_app in H0.
  apply seg_split in Hseg as [Hs1 Hs2]. fold a in Hs2. fold b in Hs1.
  split; [split|split].
  - by apply Hsw.
  - apply seg_app. split.
    + apply (seg_left l l' _ _ b i Hs1 Nx); fold a.
      * rewrite En, decide_True by (done || apply Hpos; tauto). done.
      * rewrite Ep, decide_False, decide_True by (done || intros <-; apply (Hij b); tauto). done.
      * intros j Hj Hja. rewrite En, !decide_False by (done || apply Hpos || apply Hij; tauto). done.
      * intros j Hj. rewrite Ep, !decide_False; [done|apply Hij; tauto| |apply Hpos; tauto].
        intros <-. destruct Hb as [Hb|Hb]; [rewrite Hb in Hj; tauto|by apply (Nxy b)].
    + apply (seg_right l l' a i _ _ Hs2 Ny); fold b.
      * rewrite En, decide_False, decide_True by (done || intros <-; apply (Hij a); tauto). done.
      * rewrite Ep, decide_True by (done || apply Hpos; tauto). done.
      * intros j Hj. rewrite En, !decide_False; [done|apply Hij; tauto| |apply Hpos; tauto].
        intros <-. destruct Ha as [Ha|Ha]; [rewrite Ha in Hj; tauto|by apply (Nxy a)].
      * intros j Hj Hjb. rewrite Ep, !decide_False by (done || apply Hpos || apply Hij; tauto). done.
  - apply NoDup_cons. split; [rewrite elem_of_app, elem_of_cons; intros [?|[?|?]]; try tauto; by apply (Hij HEAD_INDEX); [tauto|]|].
    rewrite <- Permutation_middle. apply NoDup_cons. split; [|done]. intros Hin.
    apply (Hij i); [right; by rewrite elem_of_app in Hin|done].
  - intros j. rewrite (same_nodes_live _ _ _ _ _ _ Hsame). cbn. rewrite Hlive.
    rewrite elem_of_cons, !elem_of_app, elem_of_cons. tauto.
  - unfold read_value. rewrite Hn, Hnode, decide_True by done. done.
  - intros j Hj. rewrite elem_of_app in Hj. unfold read_value. rewrite Hn, Hnode by (apply Hpos; tauto).
    rewrite decide_False by (apply Hij; tauto). done.
Qed.

Lemma dll_pos l fl xs j : dll l fl xs → j = HEAD_INDEX ∨ j ∈ xs → 0 ≤ j.
Proof. intros Hd Hj. by apply (dll_range l fl xs). Qed.

Lemma push_front_spec l fl xs v l' o :
  dll l fl xs → push_front l v = (l', o) →
  (o = Err (LRegion Full) ∧ l' = l ∧ full_list l xs) ∨
  (∃ i fl', o = Ok i ∧ inserted l l' fl' xs (i :: xs) i v).
Proof.
  intros Hd Hp. unfold push_front in Hp.
  destruct (allocate (region l) _) as [r' o1] eqn:Ea.
  destruct (dll_allocate _ _ _ _ _ _ Hd Ea) as [(-> & -> & Hf)|(i & fl' & -> & Hw & Hni & Hi & Hc & Hl & Hlv & Hn)].
  - injection Hp as <- <-. left. by destruct l.
  - right. exists i, fl'. pose proof (seg_first l xs (dll_seg _ _ _ Hd)) as Ef.
    assert (in_region (MkList r') (default HEAD_INDEX (head xs))) as Hb.
    { unfold in_region. cbn. rewrite Hl. apply (head_in_region l fl xs); [done|apply head_cases]. }
    assert (in_region (MkList r') HEAD_INDEX) as H0.
    { unfold in_region. cbn. rewrite Hl. apply (head_in_region l fl xs); [done|by left]. }
    assert (i ≠ HEAD_INDEX) as Hi0 by (intros ->; apply Hni; apply elem_of_cons; by left).
    destruct (link_between l r' fl' [] xs i v l') as (Hd' & Hv & Hvs); try done; try lia;
      try exact (dll_nodup _ _ _ Hd); try exact (dll_seg _ _ _ Hd).
    + intros j. apply (dll_pos l fl xs j Hd).
    + cbn. rewrite Ef in Hn. exact Hn.
    + injection Hp as <- <-. rewrite Ef. cbn [list.last default].
      destruct (Z.eqb_spec (default HEAD_INDEX (head xs)) HEAD_INDEX) as [E|E]; cbn [negb];
        rewrite ?E in *; apply same_nodes_set_next; try done; apply same_nodes_set_prev; try done;
        apply same_nodes_refl.
    + assert (capacity (region l') = capacity (region l)) as Hc'.
      { injection Hp as <- <-. rewrite <- Hc. by destruct (negb _). }
      split; [by injection Hp as _ <-|]. unfold HEAD_INDEX in *. split_and!; try done; lia.
Qed.

Lemma push_back_spec l fl xs v l' o :
  dll l fl xs → push_back l v = (l', o) →
  (o = Err (LRegion Full) ∧ l' = l ∧ full_list l xs) ∨
  (∃ i fl', o = Ok i ∧ inserted l l' fl' xs (xs ++ [i]) i v).
Proof.
  intros Hd Hp. unfold push_back in Hp.
  destruct (allocate (region l) _) as [r' o1] eqn:Ea.
  destruct (dll_allocate _ _ _ _ _ _ Hd Ea) as [(-> & -> & Hf)|(i & fl' & -> & Hw & Hni & Hi & Hc & Hl & Hlv & Hn)].
  - injection Hp as <- <-. left. by destruct l.
  - right. exists i, fl'. pose proof (seg_last l xs (dll_seg _ _ _ Hd)) as Ef.
    assert (in_region (MkList r') (default HEAD_INDEX (list.last xs))) as Hb.
    { unfold in_region. cbn. rewrite Hl. apply (head_in_region l fl xs); [done|apply last_cases]. }
    assert (in_region (MkList r') HEAD_INDEX) as H0.
    { unfold in_region. cbn. rewrite Hl. apply (head_in_region l fl xs); [done|by left]. }
    assert (i ≠ HEAD_INDEX) as Hi0 by (intros ->; apply Hni; apply elem_of_cons; by left).
    destruct (link_between l r' fl' xs [] i v l') as (Hd' & Hv & Hvs); rewrite ?app_nil_r in *;
      try done; try lia;
      try exact (dll_nodup _ _ _ Hd); try exact (dll_seg _ _ _ Hd).
    + intros j. apply (dll_pos l fl xs j Hd).
    + cbn. rewrite Ef in Hn. exact Hn.
    + injection Hp as <- <-. rewrite Ef. cbn [head default].
      destruct (Z.eqb_spec (default HEAD_INDEX (list.last xs)) HEAD_INDEX) as [E|E]; cbn [negb];
        rewrite ?E in *; apply same_nodes_set_prev; try done; apply same_nodes_set_next; try done;
        apply same_nodes_refl.
    + assert (capacity (region l') = capacity (region l)) as Hc'.
      { injection Hp as <- <-. rewrite <- Hc. by destruct (negb _). }
      split; [by injection Hp as _ <-|]. unfold HEAD_INDEX in *. split_and!; try done; lia.
Qed.

(** Removing the node between [xs] and [ys]. *)
Lemma remove_by_index_spec l fl xs i ys l' o :
  dll l fl (xs ++ i :: ys) → remove_by_index l i = (l', o) →
  o = Some (read_value l i) ∧ dll l' (i :: fl) (xs ++ ys) ∧
  capacity (region l') = capacity (region l) ∧
  ∀ j, j ∈ xs ++ ys → read_value l' j = read_value l j.
Proof.
  intros Hd Hr. pose proof (dll_seg _ _ _ Hd) as Hseg. apply seg_app in Hseg as [Hs1 Hs2].
  pose proof (dll_pos l fl _ HEAD_INDEX Hd ltac:(by left)) as Hp0.
  set (p := default HEAD_INDEX (list.last xs)). set (n := default HEAD_INDEX (head ys)).
  assert (read_prev l i = p ∧ read_next l i = n) as [Ep En].
  { split.
    - pose proof Hs1 as Hs. rewrite <- (app_nil_r xs), seg_split in Hs. cbn in Hs. apply Hs.
    - change ys with ([] ++ ys) in Hs2. rewrite seg_split in Hs2. cbn in Hs2. apply Hs2. }
  pose proof (dll_nodup _ _ _ Hd) as Hnd0. rewrite <- Permutation_middle in Hnd0.
  apply NoDup_cons in Hnd0 as [H0 Hnd]. apply NoDup_cons in Hnd as [Hix Hnd].
  rewrite elem_of_cons in H0.
  assert (NoDup (HEAD_INDEX :: xs ++ ys)) as Hnd' by (apply NoDup_cons; tauto).
  destruct (nodup_cut _ _ Hnd') as [Nx Ny]. pose proof (proj1 (NoDup_app _ _) Hnd) as (_ & Nxy & _).
  rewrite elem_of_app in H0, Hix.
  assert (p = HEAD_INDEX ∨ p ∈ xs) as Hpx by apply last_cases.
  assert (n = HEAD_INDEX ∨ n ∈ ys) as Hny by apply head_cases.
  assert (∀ j, j = HEAD_INDEX ∨ j ∈ xs ∨ j ∈ ys → in_region l j ∧ 0 ≤ j) as Hin.
  { intros j Hj. assert (j = HEAD_INDEX ∨ j ∈ xs ++ i :: ys) as Hj' by
      (rewrite elem_of_app, elem_of_cons; tauto).
    split; [by apply (head_in_region l fl _ j Hd)|by apply (dll_pos l fl _ j Hd)]. }
  unfold remove_by_index in Hr. rewrite Ep, En in Hr.
  pose proof (unlink_nodes l p n (proj1 (Hin p ltac:(tauto))) (proj1 (Hin n ltac:(tauto)))
    (proj1 (Hin 0 ltac:(by left)))) as Hsame.
  set (l1 := unlink l p n) in *. pose proof Hsame as (Hsw & _ & Hsc & _ & Hsn).
  assert (live (region l1) fl i) as Hli.
  { apply (same_nodes_live _ _ _ _ _ _ Hsame), (dll_live _ _ _ Hd). rewrite elem_of_app, elem_of_cons. tauto. }
  destruct (free (region l1) i) as [r2 o2] eqn:Ef.
  destruct (free_spec _ _ _ _ _ (Hsw _ (dll_wf _ _ _ Hd)) Hli Ef) as (_ & Hw2 & Hc2 & Hl2 & Hs').
  injection Hr as <- <-. split; [done|].
  assert (∀ j, 0 ≤ j → node (MkList r2) j = MkNode (value (node l j))
    (if decide (p = j) then n else read_next l j) (if decide (n = j) then p else read_prev l j)) as Hn2.
  { intros j Hj. unfold node at 1. cbn. rewrite Hs'. fold (node l1 j). rewrite Hsn by done.
    unfold read_next, read_prev. by destruct (decide (p = j)), (decide (n = j)). }
  split_and!; [split|cbn; congruence|].
  - done.
  - apply seg_split. fold p n. split.
    + apply (seg_left l _ _ _ i n Hs1 Nx); fold p.
      * unfold read_next. rewrite Hn2 by (apply Hin; tauto). cbn. by rewrite decide_True.
      * unfold read_prev. rewrite Hn2 by (apply Hin; tauto). cbn. by rewrite decide_True.
      * intros j Hj Hjp. unfold read_next at 1. rewrite Hn2 by (apply Hin; tauto). cbn.
        by rewrite decide_False by done.
      * intros j Hj. unfold read_prev at 1. rewrite Hn2 by (apply Hin; tauto). cbn.
        rewrite decide_False; [done|]. intros <-.
        destruct Hny as [E|?]; [rewrite E in Hj; tauto|by apply (Nxy n)].
    + apply (seg_right l _ i p _ _ Hs2 Ny); fold n.
      * unfold read_next. rewrite Hn2 by (apply Hin; tauto). cbn. by rewrite decide_True.
      * unfold read_prev. rewrite Hn2 by (apply Hin; tauto). cbn. by rewrite decide_True.
      * intros j Hj. unfold read_next at 1. rewrite Hn2 by (apply Hin; tauto). cbn.
        rewrite decide_False; [done|]. intros <-.
        destruct Hpx as [E|?]; [rewrite E in Hj; tauto|by apply (Nxy p)].
      * intros j Hj Hjn. unfold read_prev at 1. rewrite Hn2 by (apply Hin; tauto). cbn.
        by rewrite decide_False by done.
  - done.
  - intros j. cbn. rewrite Hl2, (same_nodes_live _ _ _ _ _ _ Hsame), (dll_live _ _ _ Hd).
    rewrite !elem_of_app, elem_of_cons. split.
    + tauto.
    + intros Hj. split; [tauto|]. intros ->. destruct Hj; [apply H0; by left|tauto].
  - intros j Hj. rewrite elem_of_app in Hj. unfold read_value. rewrite Hn2 by (apply Hin; tauto). done.
Qed.
End links.

(** * Iterating *)

Section iterate.
Context {T : Type} `{Inhabited T}.
Implicit Types (l : SharedLinkedList T).

Lemma read_node_ok l fl xs i :
  dll l fl xs → i = HEAD_INDEX ∨ i ∈ xs → read_node l i = Ok (node l i).
Proof.
  intros Hd Hi. pose proof (dll_range _ _ _ _ Hd Hi) as Hr. pose proof (wf_cap _ _ (dll_wf _ _ _ Hd)).
  unfold read_node, get, is_nil. by rewrite (proj2 (Z.eqb_neq _ _)), (proj2 (Z.leb_gt _ _)) by lia.
Qed.

Lemma walk_next {B} (emit : Z → Node T → B) l fl xs ys a fuel :
  dll l fl (xs ++ ys) → seg l a ys HEAD_INDEX → (length ys ≤ fuel)%nat →
  walk fuel next emit l (default HEAD_INDEX (head ys)) = Some (Ok ((λ i, emit i (node l i)) <$> ys)).
Proof.
  revert xs a fuel. induction ys as [|y ys IH]; intros xs a fuel Hd Hs Hf; [by destruct fuel|].
  destruct fuel as [|fuel]; cbn in Hf; [lia|].
  change (default HEAD_INDEX (head (y :: ys))) with y.
  assert (y ≠ HEAD_INDEX) as Hy.
  { pose proof (dll_nodup _ _ _ Hd) as [H0 _]%NoDup_cons. rewrite elem_of_app, elem_of_cons in H0.
    intros ->. tauto. }
  cbn [walk]. rewrite (proj2 (Z.eqb_neq _ _) Hy).
  rewrite (read_node_ok l fl _ y Hd) by (right; rewrite elem_of_app, elem_of_cons; tauto).
  cbn in Hs. destruct Hs as (_ & _ & Hs).
  assert (next (node l y) = default HEAD_INDEX (head ys)) as ->.
  { destruct ys; cbn in Hs; unfold read_next in Hs; tauto. }
  rewrite (IH (xs ++ [y]) y); [done| |done|lia]. by rewrite <- (assoc (++)).
Qed.

Lemma walk_prev {B} (emit : Z → Node T → B) l fl xs ys b fuel :
  dll l fl (xs ++ ys) → seg l HEAD_INDEX xs b → (length xs ≤ fuel)%nat →
  walk fuel prev emit l (default HEAD_INDEX (list.last xs)) =
  Some (Ok ((λ i, emit i (node l i)) <$> reverse xs)).
Proof.
  revert ys b fuel. induction xs as [|x xs IH] using rev_ind; intros ys b fuel Hd Hs Hf; [by destruct fuel|].
  rewrite length_app in Hf. cbn in Hf. destruct fuel as [|fuel]; [lia|].
  rewrite last_snoc. change (default HEAD_INDEX (Some x)) with x. apply seg_app in Hs as [Hs _].
  assert (x ≠ HEAD_INDEX) as Hx.
  { pose proof (dll_nodup _ _ _ Hd) as [H0 _]%NoDup_cons. rewrite !elem_of_app, list_elem_of_singleton in H0.
    intros ->. tauto. }
  cbn [walk]. rewrite (proj2 (Z.eqb_neq _ _) Hx).
  rewrite (read_node_ok l fl _ x Hd) by (right; rewrite !elem_of_app, list_elem_of_singleton; tauto).
  assert (prev (node l x) = default HEAD_INDEX (list.last xs)) as ->.
  { pose proof Hs as Hs'. rewrite <- (app_nil_r xs), seg_split in Hs'. cbn in Hs'. apply Hs'. }
  rewrite (IH (x :: ys) x fuel); [|by rewrite <- (assoc (++)) in Hd|done|lia].
  cbn. by rewrite reverse_snoc.
Qed.

Lemma dll_fuel l fl xs : dll l fl xs → (length xs ≤ Z.to_nat (capacity (region l)))%nat.
Proof.
  intros Hd. pose proof (dll_count _ _ _ Hd). pose proof (wf_bump _ _ (dll_wf _ _ _ Hd)). lia.
Qed.

Lemma iter_next {B} (emit : Z → Node T → B) l fl xs :
  dll l fl xs → iter_with next emit l = Some (Ok ((λ i, emit i (node l i)) <$> xs)).
Proof.
  intros Hd. unfold iter_with. rewrite (read_node_ok l fl xs) by auto.
  fold (read_next l HEAD_INDEX). rewrite (seg_first l xs (dll_seg _ _ _ Hd)).
  exact (walk_next emit l fl [] xs HEAD_INDEX _ Hd (dll_seg _ _ _ Hd) (dll_fuel _ _ _ Hd)).
Qed.

Lemma iter_prev {B} (emit : Z → Node T → B) l fl xs :
  dll l fl xs → iter_with prev emit l = Some (Ok ((λ i, emit i (node l i)) <$> reverse xs)).
Proof.
  intros Hd. unfold iter_with. rewrite (read_node_ok l fl xs) by auto.
  fold (read_prev l HEAD_INDEX). rewrite (seg_last l xs (dll_seg _ _ _ Hd)).
  rewrite <- (app_nil_r xs) in Hd.
  apply (walk_prev emit l fl xs [] HEAD_INDEX); rewrite ?app_nil_r in Hd; [by rewrite app_nil_r|apply Hd|].
  by apply (dll_fuel l fl).
Qed.
End iterate.

(** * The contract: a list of (handle, value) pairs *)

Section contract.
Context {T : Type} `{Inhabited T}.
Implicit Types (l : SharedLinkedList T) (es : list (Z * T)).

Inductive lop :=
| LPushFront (v : T) | LPushBack (v : T) | LPopFront | LPopBack
| LRemove (h : Z) | LGet (h : Z) | LSet (h : Z) (v : T)
| LFirst | LLast | LIter | LIterBack | LIterHandles | LLen.

Inductive lres :=
| RHandle (o : res LinkedListError Z)
| ROpt (o : res LinkedListError (option T))
| RSet' (o : res LinkedListError unit)
| RVals (o : option (res LinkedListError (list T)))
| RPairs (o : option (res LinkedListError (list (Z * T))))
| RLen' (n : Z).

Definition list_step (l : SharedLinkedList T) (op : lop) : SharedLinkedList T * lres :=
  match op with
  | LPushFront v => let '(l', o) := push_front l v in (l', RHandle o)
  | LPushBack v => let '(l', o) := push_back l v in (l', RHandle o)
  | LPopFront => let '(l', o) := pop_front l in (l', ROpt (Ok o))
  | LPopBack => let '(l', o) := pop_back l in (l', ROpt o)
  | LRemove h => let '(l', o) := remove l h in (l', ROpt (Ok o))
  | LGet h => (l, ROpt (Ok (lget l h)))
  | LSet h v => let '(l', o) := lset l h v in (l', RSet' o)
  | LFirst => (l, ROpt (first l))
  | LLast => (l, ROpt (last l))
  | LIter => (l, RVals (iter_forward l))
  | LIterBack => (l, RVals (iter_backward l))
  | LIterHandles => (l, RPairs (iter_forward_with_handles l))
  | LLen => (l, RLen' (llen l))
  end.

Inductive seq_step (cap : Z) : list (Z * T) → lop → lres → list (Z * T) → Prop :=
| seq_push_front es v h :
    0 < h < cap → h ∉ es.*1 → seq_step cap es (LPushFront v) (RHandle (Ok h)) ((h, v) :: es)
| seq_push_back es v h :
    0 < h < cap → h ∉ es.*1 → seq_step cap es (LPushBack v) (RHandle (Ok h)) (es ++ [(h, v)])
| seq_full_front es v : Z.of_nat (length es) + 1 = cap →
    seq_step cap es (LPushFront v) (RHandle (Err (LRegion Full))) es
| seq_full_back es v : Z.of_nat (length es) + 1 = cap →
    seq_step cap es (LPushBack v) (RHandle (Err (LRegion Full))) es
| seq_pop_front h v es : seq_step cap ((h, v) :: es) LPopFront (ROpt (Ok (Some v))) es
| seq_pop_back h v es : seq_step cap (es ++ [(h, v)]) LPopBack (ROpt (Ok (Some v))) es
| seq_pop_front_none : seq_step cap [] LPopFront (ROpt (Ok None)) []
| seq_pop_back_none : seq_step cap [] LPopBack (ROpt (Ok None)) []
| seq_remove es1 h v es2 :
    seq_step cap (es1 ++ (h, v) :: es2) (LRemove h) (ROpt (Ok (Some v))) (es1 ++ es2)
| seq_get es1 h v es2 :
    seq_step cap (es1 ++ (h, v) :: es2) (LGet h) (ROpt (Ok (Some v))) (es1 ++ (h, v) :: es2)
| seq_set es1 h v w es2 :
    seq_step cap (es1 ++ (h, v) :: es2) (LSet h w) (RSet' (Ok tt)) (es1 ++ (h, w) :: es2)
| seq_remove_bad es h : bad_handle h = true → seq_step cap es (LRemove h) (ROpt (Ok None)) es
| seq_get_bad es h : bad_handle h = true → seq_step cap es (LGet h) (ROpt (Ok None)) es
| seq_set_bad es h w : bad_handle h = true → seq_step cap es (LSet h w) (RSet' (Err InvalidHandle)) es
| seq_first es : seq_step cap es LFirst (ROpt (Ok (snd <$> head es))) es
| seq_last es : seq_step cap es LLast (ROpt (Ok (snd <$> list.last es))) es
| seq_iter es : seq_step cap es LIter (RVals (Some (Ok es.*2))) es
| seq_iter_back es : seq_step cap es LIterBack (RVals (Some (Ok (reverse es.*2)))) es
| seq_iter_handles es : seq_step cap es LIterHandles (RPairs (Some (Ok es))) es
| seq_len es : seq_step cap es LLen (RLen' (Z.of_nat (length es))) es.

Definition handle_ok es (op : lop) : Prop :=
  match op with
  | LRemove h | LGet h | LSet h _ => h ∈ es.*1 ∨ bad_handle h = true
  | _ => True
  end.

Definition entries l (xs : list Z) : list (Z * T) := (λ i, (i, read_value l i)) <$> xs.

Definition list_rel l es : Prop := ∃ fl xs, dll l fl xs ∧ es = entries l xs.

Lemma entries_fst l xs : (entries l xs).*1 = xs.
Proof. unfold entries. rewrite <- list_fmap_compose. apply list_fmap_id. Qed.

Lemma entries_ext l l' xs :
  (∀ j, j ∈ xs → read_value l' j = read_value l j) → entries l' xs = entries l xs.
Proof. intros He. apply list_fmap_ext. intros k i Hi. cbn. f_equal. apply He. by eapply list_elem_of_lookup_2. Qed.

Lemma bad_handle_live l fl xs i : dll l fl xs → i ∈ xs → bad_handle i = false.
Proof.
  intros Hd Hi. pose proof (dll_range _ _ _ _ Hd (or_intror Hi)). pose proof (wf_cap _ _ (dll_wf _ _ _ Hd)).
  unfold bad_handle, is_nil. rewrite (proj2 (Z.eqb_neq i NIL_INDEX)) by lia. cbn. apply Z.eqb_neq.
  intros ->. pose proof (dll_nodup _ _ _ Hd) as [? _]%NoDup_cons. done.
Qed.

Lemma remove_rel l fl xs i ys l' o :
  dll l fl (xs ++ i :: ys) → remove_by_index l i = (l', o) →
  o = Some (read_value l i) ∧ list_rel l' (entries l xs ++ entries l ys) ∧
  capacity (region l') = capacity (region l).
Proof.
  intros Hd Hr. destruct (remove_by_index_spec _ _ _ _ _ _ _ Hd Hr) as (-> & Hd' & Hc & Hv).
  split_and!; [done| |done]. exists (i :: fl), (xs ++ ys). split; [done|].
  rewrite (entries_ext l l' (xs ++ ys)) by done. unfold entries. by rewrite fmap_app.
Qed.

(** Each operation refines the contract; the calls that change the list first. *)
Lemma push_refines l es op v l' o :
  list_rel l es → op = LPushFront v ∨ op = LPushBack v → list_step l op = (l', o) →
  ∃ es', seq_step (capacity (region l)) es op o es' ∧ list_rel l' es' ∧
         capacity (region l') = capacity (region l).
Proof.
  intros (fl & xs & Hd & ->) Hop Hs.
  assert (∀ l'', full_list l xs → l'' = l →
    list_rel l'' (entries l xs) ∧ capacity (region l'') = capacity (region l) ∧
    Z.of_nat (length (entries l xs)) + 1 = capacity (region l)) as Hfull.
  { intros ? Hf ->. unfold entries at 2. rewrite length_fmap. split_and!; [by exists fl, xs|done|done]. }
  destruct Hop as [-> | ->]; cbn [list_step] in Hs.
  - destruct (push_front l v) as [l1 o1] eqn:Ep. injection Hs as <- <-.
    destruct (push_front_spec _ _ _ _ _ _ Hd Ep) as [(-> & -> & Hf)|(i & fl' & -> & Hd' & Hn & Hi & Hc & Hv & Hvs)].
    + destruct (Hfull l Hf eq_refl) as (? & ? & ?). eexists. split_and!; [by apply seq_full_front|done|done].
    + exists ((i, v) :: entries l xs). apply not_elem_of_cons in Hn as [_ Hn].
      split_and!; [apply seq_push_front; [done|by rewrite entries_fst]| |done].
      exists fl', (i :: xs). split; [done|]. cbn. rewrite Hv. f_equal. symmetry. by apply entries_ext.
  - destruct (push_back l v) as [l1 o1] eqn:Ep. injection Hs as <- <-.
    destruct (push_back_spec _ _ _ _ _ _ Hd Ep) as [(-> & -> & Hf)|(i & fl' & -> & Hd' & Hn & Hi & Hc & Hv & Hvs)].
    + destruct (Hfull l Hf eq_refl) as (? & ? & ?). eexists. split_and!; [by apply seq_full_back|done|done].
    + exists (entries l xs ++ [(i, v)]). apply not_elem_of_cons in Hn as [_ Hn].
      split_and!; [apply seq_push_back; [done|by rewrite entries_fst]| |done].
      exists fl', (xs ++ [i]). split; [done|]. unfold entries at 2. rewrite fmap_app. cbn. rewrite Hv.
      f_equal. symmetry. by apply entries_ext.
Qed.

Lemma pop_refines l es op l' o :
  list_rel l es → op = LPopFront ∨ op = LPopBack → list_step l op = (l', o) →
  ∃ es', seq_step (capacity (region l)) es op o es' ∧ list_rel l' es' ∧
         capacity (region l') = capacity (region l).
Proof.
  intros (fl & xs & Hd & ->) Hop Hs. pose proof (dll_seg _ _ _ Hd) as Hseg.
  assert (∀ i, i ∈ xs → i ≠ HEAD_INDEX) as H0.
  { intros i Hi ->. pose proof (dll_nodup _ _ _ Hd) as [? _]%NoDup_cons. done. }
  destruct Hop as [-> | ->]; cbn [list_step] in Hs.
  - unfold pop_front in Hs. rewrite (seg_first l xs Hseg) in Hs. destruct xs as [|x xs].
    + injection Hs as <- <-. exists []. split_and!; [constructor|by exists fl, []|done].
    + change (default HEAD_INDEX (head (x :: xs))) with x in Hs.
      rewrite (proj2 (Z.eqb_neq _ _) (H0 x ltac:(set_solver))) in Hs.
      destruct (remove_by_index l x) as [l1 o1] eqn:Er. injection Hs as <- <-.
      destruct (remove_rel l fl [] x xs l1 o1 Hd Er) as (-> & Hrel & Hc).
      eexists. split_and!; [apply seq_pop_front|exact Hrel|done].
  - unfold pop_back in Hs. rewrite (read_node_ok l fl xs) in Hs by auto.
    fold (read_prev l HEAD_INDEX) in Hs. rewrite (seg_last l xs Hseg) in Hs.
    destruct xs as [|x xs _] using rev_ind.
    + injection Hs as <- <-. exists []. split_and!; [constructor|by exists fl, []|done].
    + rewrite last_snoc in Hs. change (default HEAD_INDEX (Some x)) with x in Hs.
      rewrite (proj2 (Z.eqb_neq _ _) (H0 x ltac:(set_solver))) in Hs.
      destruct (remove_by_index l x) as [l1 o1] eqn:Er. injection Hs as <- <-.
      destruct (remove_rel l fl xs x [] l1 o1 Hd Er) as (-> & Hrel & Hc).
      eexists. split_and!; [|exact Hrel|done]. unfold entries at 1. rewrite fmap_app.
      cbn [fmap list_fmap]. change (entries l []) with (@nil (Z * T)). rewrite app_nil_r. apply seq_pop_back.
Qed.

Lemma entries_split l xs i ys :
  entries l (xs ++ i :: ys) = entries l xs ++ (i, read_value l i) :: entries l ys.
Proof. unfold entries. by rewrite fmap_app. Qed.

Lemma handle_refines l es op h l' o :
  list_rel l es → handle_ok es op → op = LRemove h ∨ op = LGet h ∨ (∃ w, op = LSet h w) →
  list_step l op = (l', o) →
  ∃ es', seq_step (capacity (region l)) es op o es' ∧ list_rel l' es' ∧
         capacity (region l') = capacity (region l).
Proof.
  intros (fl & xs & Hd & ->) Hok Hop Hs.
  assert (h ∈ xs ∨ bad_handle h = true) as [Hin|Hbad].
  { destruct Hop as [-> | [-> | [w ->]]]; cbn in Hok; by rewrite entries_fst in Hok. }
  - pose proof (bad_handle_live _ _ _ _ Hd Hin) as Hb.
    apply list_elem_of_split in Hin as (ys & zs & ->). rewrite entries_split.
    destruct Hop as [-> | [-> | [w ->]]]; cbn [list_step] in Hs.
    + unfold remove in Hs. rewrite Hb in Hs. destruct (remove_by_index l h) as [l1 o1] eqn:Er.
      injection Hs as <- <-. destruct (remove_rel _ _ _ _ _ _ _ Hd Er) as (-> & Hrel & Hc).
      eexists. split_and!; [apply seq_remove|exact Hrel|done].
    + injection Hs as <- <-. unfold lget. rewrite Hb. eexists.
      split_and!; [apply seq_get|exists fl, (ys ++ h :: zs); by rewrite entries_split|done].
    + unfold lset in Hs. rewrite Hb in Hs. injection Hs as <- <-. eexists.
      split_and!; [apply seq_set| |done]. exists fl, (ys ++ h :: zs).
      assert (in_region l h) as Hir by (apply (head_in_region l fl _ h Hd); set_solver).
      assert (∀ j, 0 ≤ j → node (set_value l h w) j =
        if decide (h = j) then MkNode w (next (node l h)) (prev (node l h)) else node l j) as Hn.
      { intros j Hj. by apply node_write. }
      assert (∀ j, j = HEAD_INDEX ∨ j ∈ ys ++ h :: zs → 0 ≤ j) as Hp by (intros j; apply (dll_pos l fl _ j Hd)).
      assert (∀ j, j ∈ ys ++ zs → h ≠ j) as Hne.
      { intros j Hj <-. pose proof (dll_nodup _ _ _ Hd) as [_ Hnd]%NoDup_cons.
        rewrite <- Permutation_middle in Hnd. by apply NoDup_cons in Hnd as [? _]. }
      split.
      * split; [by apply write_slot_wf, Hd| |apply Hd|apply Hd].
        generalize (dll_seg _ _ _ Hd). apply seg_ext; intros j Hj; unfold read_next, read_prev;
          rewrite Hn by (by apply Hp); case_decide; by subst.
      * rewrite entries_split. unfold read_value at 1. rewrite Hn, decide_True by (done || apply Hp; set_solver).
        f_equal; [|f_equal]; symmetry; apply entries_ext; intros j Hj; unfold read_value;
          rewrite Hn, decide_False by (apply Hne || apply Hp; set_solver); done.
  - destruct Hop as [-> | [-> | [w ->]]]; cbn [list_step] in Hs.
    + unfold remove in Hs. rewrite Hbad in Hs. injection Hs as <- <-. eexists.
      split_and!; [by apply seq_remove_bad|by exists fl, xs|done].
    + injection Hs as <- <-. unfold lget. rewrite Hbad. eexists.
      split_and!; [by apply seq_get_bad|by exists fl, xs|done].
    + unfold lset in Hs. rewrite Hbad in Hs. injection Hs as <- <-. eexists.
      split_and!; [by apply seq_set_bad|by exists fl, xs|done].
Qed.

Lemma entries_values l xs : (entries l xs).*2 = read_value l <$> xs.
Proof. unfold entries. by rewrite <- list_fmap_compose. Qed.

Lemma look_refines l es op l' o :
  list_rel l es →
  match op with LFirst | LLast | LIter | LIterBack | LIterHandles | LLen => True | _ => False end →
  list_step l op = (l', o) → l' = l ∧ seq_step (capacity (region l)) es op o es.
Proof.
  intros (fl & xs & Hd & ->) Hop Hs. pose proof (dll_seg _ _ _ Hd) as Hseg.
  assert (∀ i, i ∈ xs → i ≠ HEAD_INDEX) as H0.
  { intros i Hi ->. pose proof (dll_nodup _ _ _ Hd) as [? _]%NoDup_cons. done. }
  destruct op; try done; cbn [list_step] in Hs; injection Hs as <- <-; (split; [done|]).
  - assert (first l = Ok (snd <$> head (entries l xs))) as ->; [|apply seq_first].
    unfold first. rewrite (read_node_ok l fl xs) by auto. cbn [mbind res_bind].
    fold (read_next l HEAD_INDEX). rewrite (seg_first l xs Hseg). destruct xs as [|x xs]; [done|].
    change (default HEAD_INDEX (head (x :: xs))) with x.
    rewrite (proj2 (Z.eqb_neq _ _) (H0 x ltac:(set_solver))).
    rewrite (read_node_ok l fl (x :: xs)) by (done || set_solver). done.
  - assert (last l = Ok (snd <$> list.last (entries l xs))) as ->; [|apply seq_last].
    unfold last. rewrite (read_node_ok l fl xs) by auto. cbn [mbind res_bind].
    fold (read_prev l HEAD_INDEX). rewrite (seg_last l xs Hseg).
    destruct xs as [|x xs _] using rev_ind; [done|]. unfold entries. rewrite fmap_app, last_snoc.
    change ((λ i, (i, read_value l i)) <$> [x]) with [(x, read_value l x)]. rewrite last_snoc.
    change (default HEAD_INDEX (Some x)) with x.
    rewrite (proj2 (Z.eqb_neq _ _) (H0 x ltac:(set_solver))).
    rewrite (read_node_ok l fl (xs ++ [x])) by (done || set_solver). done.
  - unfold iter_forward. rewrite (iter_next _ l fl xs Hd).
    change ((λ i, value (node l i)) <$> xs) with (read_value l <$> xs). rewrite <- entries_values. apply seq_iter.
  - unfold iter_backward. rewrite (iter_prev _ l fl xs Hd).
    change ((λ i, value (node l i)) <$> reverse xs) with (read_value l <$> reverse xs).
    rewrite fmap_reverse, <- entries_values. apply seq_iter_back.
  - unfold iter_forward_with_handles. rewrite (iter_next _ l fl xs Hd). apply seq_iter_handles.
  - rewrite (dll_len l fl xs Hd). replace (length xs) with (length (entries l xs)); [apply seq_len|].
    unfold entries. by rewrite length_fmap.
Qed.

Lemma list_step_refines l es op l' o :
  list_rel l es → handle_ok es op → list_step l op = (l', o) →
  ∃ es', seq_step (capacity (region l)) es op o es' ∧ list_rel l' es' ∧
         capacity (region l') = capacity (region l).
Proof.
  intros Hr Hok Hs. destruct op.
  1,2: eapply push_refines; [done| |done]; auto.
  1,2: eapply pop_refines; [done| |done]; auto.
  1,2,3: eapply handle_refines; [done|done| |done]; eauto.
  all: match type of Hs with list_step _ ?op = _ =>
    destruct (look_refines l es op l' o Hr I Hs) as [-> ?]; by exists es end.
Qed.

(** ** Sequences of calls *)

Fixpoint list_run (l : SharedLinkedList T) (ops : list lop) : SharedLinkedList T * list lres :=
  match ops with
  | [] => (l, [])
  | op :: ops =>
      let '(l1, o) := list_step l op in
      let '(l2, os) := list_run l1 ops in (l2, o :: os)
  end.

Inductive seq_run (cap : Z) : list (Z * T) → list lop → list lres → list (Z * T) → Prop :=
| seq_run_nil es : seq_run cap es [] [] es
| seq_run_cons es op o es1 ops os es2 :
    seq_step cap es op o es1 → seq_run cap es1 ops os es2 → seq_run cap es (op :: ops) (o :: os) es2.

(** The pairs after a call that returned [o]. *)
Definition seq_next es (op : lop) (o : lres) : list (Z * T) :=
  match op, o with
  | LPushFront v, RHandle (Ok h) => (h, v) :: es
  | LPushBack v, RHandle (Ok h) => es ++ [(h, v)]
  | LPopFront, _ => drop 1 es
  | LPopBack, _ => take (length es - 1) es
  | LRemove h, _ => filter (λ e, e.1 ≠ h) es
  | LSet h w, _ => (λ e, if decide (e.1 = h) then (h, w) else e) <$> es
  | _, _ => es
  end.

(** Every handle used is live when it is used, or nil or the sentinel: a
    condition on the calls and the handles they returned. *)
Fixpoint handles_ok es (ops : list lop) (os : list lres) : Prop :=
  match ops, os with
  | op :: ops, o :: os => handle_ok es op ∧ handles_ok (seq_next es op o) ops os
  | _, _ => True
  end.

Lemma filter_others es h : h ∉ es.*1 → filter (λ e, e.1 ≠ h) es = es.
Proof.
  induction es as [|e es IH]; [done|]. rewrite fmap_cons, not_elem_of_cons. intros [? ?].
  rewrite filter_cons_True by congruence. by rewrite IH.
Qed.

Lemma set_others es h w :
  h ∉ es.*1 → (λ e, if decide (e.1 = h) then (h, w) else e) <$> es = es.
Proof.
  induction es as [|e es IH]; [done|]. rewrite fmap_cons, not_elem_of_cons. intros [? ?].
  cbn. rewrite decide_False by congruence. f_equal. by apply IH.
Qed.

Lemma nodup_middle es1 h (v : T) es2 : NoDup (es1 ++ (h, v) :: es2).*1 → h ∉ es1.*1 ∧ h ∉ es2.*1.
Proof.
  rewrite fmap_app. cbn. rewrite <- Permutation_middle. intros [Hn _]%NoDup_cons.
  by rewrite not_elem_of_app in Hn.
Qed.

(** A handle that is bad is not among those in use. *)
Definition sound_handles es : Prop := NoDup es.*1 ∧ ∀ h, h ∈ es.*1 → bad_handle h = false.

Lemma seq_step_next cap es op o es' :
  sound_handles es → seq_step cap es op o es' → es' = seq_next es op o.
Proof.
  intros [Hnd Hbad] Hs. destruct Hs; cbn; try done.
  - by rewrite length_app, Nat.add_sub, take_app_length.
  - apply nodup_middle in Hnd as [? ?]. rewrite filter_app, filter_cons_False by (cbn; tauto).
    by rewrite !filter_others.
  - apply nodup_middle in Hnd as [? ?]. rewrite fmap_app, fmap_cons. cbn.
    rewrite decide_True by done. by rewrite !set_others.
  - rewrite filter_others; [done|]. intros Hh%Hbad. congruence.
  - rewrite set_others; [done|]. intros Hh%Hbad. congruence.
Qed.

Lemma list_rel_sound l es : list_rel l es → sound_handles es.
Proof.
  intros (fl & xs & Hd & ->). unfold sound_handles. rewrite entries_fst. split.
  - by pose proof (dll_nodup _ _ _ Hd) as [_ ?]%NoDup_cons.
  - intros h. by apply (bad_handle_live l fl xs).
Qed.

Lemma list_run_refines l es ops l' os :
  list_rel l es → list_run l ops = (l', os) → handles_ok es ops os →
  ∃ es', seq_run (capacity (region l)) es ops os es' ∧ list_rel l' es'.
Proof.
  revert l es os. induction ops as [|op ops IH]; intros l es os Hrel Hr Hok; cbn [list_run] in Hr.
  - injection Hr as <- <-. exists es. split; [constructor|done].
  - destruct (list_step l op) as [l1 o] eqn:E1, (list_run l1 ops) as [l2 os'] eqn:E2.
    injection Hr as <- <-. cbn in Hok. destruct Hok as [Hop Hrest].
    destruct (list_step_refines _ _ _ _ _ Hrel Hop E1) as (es1 & Hs & Hrel1 & Hc).
    rewrite <- (seq_step_next _ _ _ _ _ (list_rel_sound _ _ Hrel) Hs) in Hrest.
    destruct (IH _ _ _ Hrel1 E2 Hrest) as (es2 & Hs2 & Hrel2). rewrite Hc in Hs2.
    exists es2. split; [by econstructor|done].
Qed.

(** ** Construction *)

Lemma create_rel (r : SharedRegion (Node T)) dflt cap l :
  wf r [] → bump_next (header r) = 0 → create (Ok r) dflt cap = Ok l →
  list_rel l [] ∧ capacity (region l) = capacity r.
Proof.
  intros Hw Hb Hc. unfold create in Hc. apply bind_ok in Hc as ([] & _ & Hc). cbn [mbind res_bind from_region_error] in Hc.
  destruct (allocate r _) as [r' o] eqn:Ea.
  destruct (allocate_spec _ _ _ _ _ Hw Ea) as
    [(-> & _)|(i & fl' & -> & Hw' & Hi & _ & Hcap & Hl & Hv & _ & Hz)]; [done|].
  cbn [from_region_error mbind res_bind] in Hc. apply bind_ok in Hc as ([] & _ & [= <-]).
  split; [|done]. specialize (Hz eq_refl). rewrite Hb in Hz. subst i.
  exists fl', []. split; [|done]. split; cbn.
  - done.
  - unfold read_next, read_prev, node, HEAD_INDEX. cbn. by rewrite Hv.
  - apply NoDup_singleton.
  - intros i. rewrite Hl. unfold live. rewrite Hb, elem_of_nil. unfold HEAD_INDEX. split; [|tauto].
    intros [?|[? _]]; [tauto|lia].
Qed.
End contract.

(** C9: a list created in a fresh region, under any sequence of calls whose
    handles are live (or nil or the sentinel), is the sequence of its (handle,
    value) pairs: pushes add at the ends with a handle not in use, or are refused
    exactly when [capacity - 1] nodes are linked; pops and O(1) removals take
    out the right element and keep the order and every other handle; the
    iterations terminate and list the values forwards and backwards. *)
Theorem linked_list_refines_sequence {T} `{Inhabited T} (r : SharedRegion (Node T)) dflt cap l ops l' os :
  wf r [] → bump_next (header r) = 0 → create (Ok r) dflt cap = Ok l →
  list_run l ops = (l', os) → handles_ok [] ops os →
  ∃ es, seq_run (capacity r) [] ops os es ∧ list_rel l' es.
Proof.
  intros Hw Hb Hc Hr Hok. destruct (create_rel r dflt cap l Hw Hb Hc) as [Hrel Ec].
  rewrite <- Ec in *. by apply (list_run_refines l [] ops l' os).
Qed.

(** [create] attaches to a region that already holds a list and then
    allocates its sentinel again, which is not slot 0: the call panics (or
    reports the region full) instead of returning the list. *)
Lemma linked_list_create_twice {T} `{Inhabited T} (l : SharedLinkedList T) es dflt cap :
  list_rel l es →
  create (Ok (region l)) dflt cap = Panic ∨ create (Ok (region l)) dflt cap = Err (LRegion Full).
Proof.
  intros (fl & xs & Hd & _). unfold create. destruct (2 <=? cap); [|by left]. cbn [assert_ mbind res_bind from_region_error].
  destruct (allocate (region l) _) as [r' o] eqn:Ea.
  destruct (dll_allocate _ _ _ _ _ _ Hd Ea) as [(-> & _)|(i & fl' & -> & _ & Hni & _)]; [by right|left].
  cbn. rewrite (proj2 (Z.eqb_neq _ _)); [done|]. intros ->. apply Hni, elem_of_cons. by left.
Qed.

(** ** Witnesses *)

Definition nodes4 : SharedRegion (Node Z) :=
  MkRegion 4 (init_region 16 8
    (MkMem 400 (MkRegionHeader 0 0 0 0 0 0 0 0) [0; 0; 0; 0] (replicate 4 (MkNode 0 0 0))) 4).

Lemma nodes4_wf : wf nodes4 [].
Proof. apply init_region_ok; [by split|done]. Qed.

Definition ops4 : list (@lop Z) := [LPushBack 1; LPushFront 2; LPushBack 3; LPushBack 4; LRemove 1; LIter; LLen].

Definition list4 : SharedLinkedList Z :=
  match create (Ok nodes4) 0 4 with Ok l => l | _ => MkList nodes4 end.

Definition results4 : list (@lres Z) :=
  [RHandle (Ok 1); RHandle (Ok 2); RHandle (Ok 3); RHandle (Err (LRegion Full));
   ROpt (Ok (Some 1)); RVals (Some (Ok [2; 3])); RLen' 2].

Lemma ops4_ok : handles_ok [] ops4 results4.
Proof. cbn. split_and!; try done. left. set_solver. Qed.

Lemma linked_list_refines_sequence_witness :
  ∃ es, (list_run list4 ops4).2 = results4 ∧ seq_run 4 [] ops4 results4 es.
Proof.
  assert ((list_run list4 ops4).2 = results4) as Er by (vm_compute; reflexivity).
  destruct (list_run list4 ops4) as [l' os] eqn:E. cbn [snd] in Er. subst os.
  destruct (linked_list_refines_sequence nodes4 0 4 list4 ops4 l' results4) as (es & Hs & _).
  - apply nodes4_wf.
  - reflexivity.
  - vm_compute. reflexivity.
  - exact E.
  - exact ops4_ok.
  - exists es. split; [reflexivity|exact Hs].
Defined.

Lemma list4_rel : list_rel list4 [].
Proof. apply (create_rel nodes4 0 4 list4 nodes4_wf); [reflexivity|vm_compute; reflexivity]. Qed.

Lemma linked_list_create_twice_witness :
  create (Ok (region list4)) 0 4 = Panic ∨ create (Ok (region list4)) 0 4 = Err (LRegion Full).
Proof. exact (linked_list_create_twice list4 [] 0 4 list4_rel). Defined.

(** A handle whose node has been removed is not recognised as stale:
    reading it returns the removed value, removing it again reports a removal,
    and the slot, freed twice, is handed out to two later pushes at once. *)
Lemma linked_list_stale_handle :
  let '(l1, o1) := push_back list4 7 in
  let '(l2, o2) := remove l1 1 in
  let '(l3, o3) := remove l2 1 in
  let '(l4, o4) := push_back l3 8 in
  let '(l5, o5) := push_back l4 9 in
  o1 = Ok 1 ∧ o2 = Some 7 ∧ lget l2 1 = Some 7 ∧ o3 = Some 7 ∧ o4 = Ok 1 ∧ o5 = Ok 1.
Proof. vm_compute. by repeat split. Qed.
