(* ===== verification/HashMap.v ===== *)
(** [SharedHashMap<K, V>], the open-addressed hash map of
    [crates/subetha-cxc/src/shared_hash_map.rs]: FNV-1a, linear probing,
    tombstones reused by inserts, a SeqLock version and a publish-last hash per
    slot.

    The calls are those of one caller at a time.  Everything the code can spin
    on is kept: [lock_slot] and [read_payload] spin on an odd version,
    [published_hash] on an occupied slot without a hash, [place] on a restarted
    probe; a spin that nothing would end is the result [None], so a theorem that
    a call returns [Some] says it terminates.  Key and value bytes are
    parameters.  Calls to the observation ring, the load-factor estimates
    (floating point) and flushing are left out. *)
From stdpp Require Import gmap.
From S2P Require Import Prelude.

Definition MAP_MAGIC : Z := 0x4150484D.
Definition MAP_PAYLOAD_BYTES : Z := 48.
Definition SLOT_EMPTY : Z := 0.
Definition SLOT_OCCUPIED : Z := 1.
Definition SLOT_TOMBSTONE : Z := 2.
Definition HASH_UNSET : Z := 0.
Definition MAP_HEADER_BYTES : Z := 64.
Definition MAP_SLOT_BYTES : Z := 64.

Record MapHeader := MkMapHeader {
  magic : Z;
  hdr_capacity : Z;
  count : Z;
  key_size : Z;
  value_size : Z;
  tombstones : Z;
  removals : Z;
}.

Definition map_file_size (cap : Z) : Z := u64 (MAP_HEADER_BYTES + u64 (cap * MAP_SLOT_BYTES)).

Inductive MapError := Full | PayloadTooLarge | LayoutMismatch | KeyAbsent | IoError (kind : Z).
#[export] Instance MapError_eq_dec : EqDecision MapError.
Proof. solve_decision. Defined.

Inductive InsertOutcome := Inserted | Updated.
Inductive Placed (V : Type) := New | Existing (v : V).
Inductive Probe (V : Type) := PlacedP (p : Placed V) | Restart | FullP.
Inductive Found (V : Type) := Here (v : V) | Elsewhere | Vacated | Moved.
Inductive Claim := ClaimPlaced | Lost | GaveBack.
Arguments New {V}. Arguments Existing {V}. Arguments PlacedP {V}. Arguments Restart {V}.
Arguments FullP {V}. Arguments Here {V}. Arguments Elsewhere {V}. Arguments Vacated {V}.
Arguments Moved {V}.

Definition fnv1a_64 (bytes : list Z) : Z :=
  fold_left (λ h b, u64 (Z.lxor h b * 0x100000001b3)) bytes 0xcbf29ce484222325.

Record MapSlot (K V : Type) := MkSlot { state : Z; version : Z; hash : Z; payload : K * V }.
Arguments MkSlot {K V}. Arguments state {K V}. Arguments version {K V}.
Arguments hash {K V}. Arguments payload {K V}.

#[export] Instance MapSlot_inhabited {K V} `{Inhabited K, Inhabited V} : Inhabited (MapSlot K V) :=
  populate (MkSlot 0 0 0 inhabitant).

Record map_mem (K V : Type) := MkMem { mem_len : Z; mem_hdr : MapHeader; mem_slots : list (MapSlot K V) }.
Arguments MkMem {K V}. Arguments mem_len {K V}. Arguments mem_hdr {K V}. Arguments mem_slots {K V}.

Record SharedHashMap (K V : Type) := MkMap { capacity : Z; mem : map_mem K V }.
Arguments MkMap {K V}. Arguments capacity {K V}. Arguments mem {K V}.

(** The byte views of [K] and [V] the code takes through raw pointers. *)
Class MapBytes (K V : Type) := {
  key_bytes : K → list Z;
  value_bytes : V → list Z;
  size_of_key : Z;
  size_of_value : Z;
}.

Section code.
Context {K V : Type} `{EqDecision K, Inhabited K, Inhabited V} `{!MapBytes K V}.
Implicit Types (m : SharedHashMap K V) (s : MapSlot K V).

Definition header m : MapHeader := mem_hdr (mem m).
Definition slots m : list (MapSlot K V) := mem_slots (mem m).

Definition with_hdr (h : MapHeader) m : SharedHashMap K V :=
  MkMap (capacity m) (MkMem (mem_len (mem m)) h (slots m)).
Definition with_slots (l : list (MapSlot K V)) m : SharedHashMap K V :=
  MkMap (capacity m) (MkMem (mem_len (mem m)) (header m) l).

Definition with_counts (c t r : Z) m : SharedHashMap K V :=
  let h := header m in
  with_hdr (MkMapHeader (magic h) (hdr_capacity h) c (key_size h) (value_size h) t r) m.

(** ** Construction *)

Definition check_layout : res MapError unit :=
  if MAP_PAYLOAD_BYTES <? size_of_key + size_of_value then Err PayloadTooLarge else Ok tt.

(** On zeroed bytes. *)
Definition init_region (r : map_mem K V) (cap : Z) : map_mem K V :=
  let h := mem_hdr r in
  MkMem (mem_len r)
    (MkMapHeader MAP_MAGIC (u32 cap) (count h) (u32 size_of_key) (u32 size_of_value)
       (tombstones h) (removals h))
    (mem_slots r).

Definition from_region (r : map_mem K V) (cap : Z) : res MapError (SharedHashMap K V) :=
  let h := mem_hdr r in
  if negb (magic h =? MAP_MAGIC) || negb (hdr_capacity h =? u32 cap) ||
     negb (key_size h =? u32 size_of_key) || negb (value_size h =? u32 size_of_value)
  then Err LayoutMismatch
  else mret (MkMap cap r).

(** [create] and [reset]: what [mmf_attach] mapped, laid out by [init_region]
    when new. *)
Definition create (attached : res MapError (map_mem K V)) (cap : Z) : res MapError (SharedHashMap K V) :=
  _ ← check_layout;
  _ ← assert_ (2 <=? cap);
  r ← attached;
  from_region r cap.

Definition reset (truncated : res MapError (map_mem K V)) (cap : Z) : res MapError (SharedHashMap K V) :=
  _ ← check_layout;
  _ ← assert_ (2 <=? cap);
  r ← truncated;
  from_region (init_region r cap) cap.

Definition open (opened : res MapError (map_mem K V)) (cap : Z) : res MapError (SharedHashMap K V) :=
  _ ← check_layout;
  r ← opened;
  if mem_len r <? map_file_size cap then Err LayoutMismatch else from_region r cap.

(** ** Slots *)

Definition wrap_idx m (i : Z) : Z :=
  if is_power_of_two (capacity m) then Z.land i (capacity m - 1) else i mod capacity m.

Definition slot m (idx : Z) : MapSlot K V := slots m !!! Z.to_nat idx.
Definition set_slot (idx : Z) s m : SharedHashMap K V :=
  with_slots (<[Z.to_nat idx := s]> (slots m)) m.

Definition store_state (idx st : Z) m :=
  let s := slot m idx in set_slot idx (MkSlot st (version s) (hash s) (payload s)) m.
Definition store_hash (idx h : Z) m :=
  let s := slot m idx in set_slot idx (MkSlot (state s) (version s) h (payload s)) m.
Definition store_version (idx v : Z) m :=
  let s := slot m idx in set_slot idx (MkSlot (state s) v (hash s) (payload s)) m.
Definition copy_payload (idx : Z) (k : K) (v : V) m :=
  let s := slot m idx in set_slot idx (MkSlot (state s) (version s) (hash s) (k, v)) m.

Definition len m : Z := count (header m).
Definition is_empty m : bool := len m =? 0.
Definition tombstone_count m : Z := tombstones (header m).

Definition hash_key (k : K) : Z :=
  let h := fnv1a_64 (key_bytes k) in if h =? HASH_UNSET then 1 else h.

(** Taking the SeqLock: the version turns odd; a version found odd is never
    released when there is no other caller. *)
Definition lock_slot (idx : Z) m : option (Z * SharedHashMap K V) :=
  let v := version (slot m idx) in
  if Z.land v 1 =? 0 then Some (u32 (v + 1), store_version idx (u32 (v + 1)) m) else None.

Definition unlock_slot (idx held : Z) m : SharedHashMap K V := store_version idx (u32 (held + 1)) m.

Definition write_payload (idx : Z) (k : K) (v : V) m : option (SharedHashMap K V) :=
  '(held, m1) ← lock_slot idx m; Some (unlock_slot idx held (copy_payload idx k v m1)).

Definition publish_claimed (idx h : Z) (k : K) (v : V) m : option (SharedHashMap K V) :=
  m1 ← write_payload idx k v m; Some (store_hash idx h m1).

Definition published_hash (idx : Z) m : option Z :=
  let h := hash (slot m idx) in
  if negb (h =? HASH_UNSET) then Some h
  else if negb (state (slot m idx) =? SLOT_OCCUPIED) then Some HASH_UNSET
  else None.

Definition read_payload (idx : Z) m : option (K * V) :=
  if Z.land (version (slot m idx)) 1 =? 0 then Some (payload (slot m idx)) else None.

Definition read_payload_locked (idx : Z) m : K * V := payload (slot m idx).

Definition holds (idx h : Z) m : bool :=
  (state (slot m idx) =? SLOT_OCCUPIED) && (hash (slot m idx) =? h).

(** ** Placing a key *)

Definition release_tombstone m : SharedHashMap K V :=
  let cur := tombstones (header m) in
  if cur =? 0 then m else with_counts (count (header m)) (cur - 1) (removals (header m)) m.

Definition claim (idx from rem h : Z) (k : K) (v : V) m : option (SharedHashMap K V * Claim) :=
  if negb (state (slot m idx) =? from) then Some (m, Lost)
  else
    let m1 := store_state idx SLOT_OCCUPIED m in
    let m2 := if from =? SLOT_TOMBSTONE then store_hash idx HASH_UNSET m1 else m1 in
    if negb (removals (header m2) =? rem) then
      let m3 := store_state idx SLOT_TOMBSTONE m2 in
      let m4 := if from =? SLOT_EMPTY
                then with_counts (count (header m3)) (u64 (tombstones (header m3) + 1)) (removals (header m3)) m3
                else m3 in
      Some (m4, GaveBack)
    else
      m3 ← publish_claimed idx h k v m2;
      let m4 := with_counts (u64 (count (header m3) + 1)) (tombstones (header m3)) (removals (header m3)) m3 in
      Some (if from =? SLOT_TOMBSTONE then release_tombstone m4 else m4, ClaimPlaced).

Definition present (idx h : Z) (k : K) (v : V) (overwrite : bool) m :
    option (SharedHashMap K V * Found V) :=
  ph ← published_hash idx m;
  if ph =? HASH_UNSET then Some (m, Vacated)
  else if negb (ph =? h) then Some (m, Elsewhere)
  else if negb overwrite then
    '(k', existing) ← read_payload idx m;
    Some (m, if decide (k' = k) then Here existing else Elsewhere)
  else
    '(held, m1) ← lock_slot idx m;
    let '(k', existing) := read_payload_locked idx m1 in
    let '(m2, found) :=
      if decide (k' = k) then
        if negb (holds idx h m1) then (m1, Moved)
        else (copy_payload idx k v m1, Here existing)
      else (m1, Elsewhere) in
    Some (unlock_slot idx held m2, found).

Definition claim_outcome (c : Claim) : Probe V :=
  match c with ClaimPlaced => PlacedP New | Lost | GaveBack => Restart end.

(** The [for] loop of [probe_once] over the offsets left; [ft] is the first
    tombstone seen. *)
Fixpoint probe_loop (offs : list nat) (rem h start : Z) (k : K) (v : V) (overwrite : bool)
    (ft : option Z) m : option (SharedHashMap K V * Probe V) :=
  match offs with
  | [] =>
      match ft with
      | Some t => '(m', c) ← claim t SLOT_TOMBSTONE rem h k v m; Some (m', claim_outcome c)
      | None => Some (m, FullP)
      end
  | i :: offs =>
      let idx := wrap_idx m (start + Z.of_nat i) in
      let occupied st m :=
        if st =? SLOT_TOMBSTONE
        then probe_loop offs rem h start k v overwrite (Some (default idx ft)) m
        else
          '(m', f) ← present idx h k v overwrite m;
          match f with
          | Here existing => Some (m', PlacedP (Existing existing))
          | Moved => Some (m', Restart)
          | Vacated => probe_loop offs rem h start k v overwrite (Some (default idx ft)) m'
          | Elsewhere => probe_loop offs rem h start k v overwrite ft m'
          end in
      let st := state (slot m idx) in
      if st =? SLOT_EMPTY then
        match ft with
        | Some t => '(m', c) ← claim t SLOT_TOMBSTONE rem h k v m; Some (m', claim_outcome c)
        | None =>
            '(m', c) ← claim idx SLOT_EMPTY rem h k v m;
            match c with
            | ClaimPlaced => Some (m', PlacedP New)
            | GaveBack => Some (m', Restart)
            | Lost => occupied (state (slot m' idx)) m'
            end
        end
      else occupied st m
  end.

Definition offsets m : list nat := seq 0 (Z.to_nat (capacity m)).

Definition probe_once (h start : Z) (k : K) (v : V) (overwrite : bool) m :
    option (SharedHashMap K V * Probe V) :=
  probe_loop (offsets m) (removals (header m)) h start k v overwrite None m.

(** The loop of [place]: [fuel] probes at most. *)
Fixpoint place_loop (fuel : nat) (h start : Z) (k : K) (v : V) (overwrite : bool) m :
    option (SharedHashMap K V * res MapError (Placed V)) :=
  match fuel with
  | O => None
  | S fuel =>
      '(m', p) ← probe_once h start k v overwrite m;
      match p with
      | PlacedP p => Some (m', Ok p)
      | Restart => place_loop fuel h start k v overwrite m'
      | FullP => Some (m', Err Full)
      end
  end.

Definition place (fuel : nat) (k : K) (v : V) (overwrite : bool) m :
    option (SharedHashMap K V * res MapError (Placed V)) :=
  let h := hash_key k in place_loop fuel h (wrap_idx m h) k v overwrite m.

(** [match r? { .. }]: the result of a call that returned, mapped. *)
Definition on_result {A B} (f : A → B) (x : option (SharedHashMap K V * res MapError A)) :
    option (SharedHashMap K V * res MapError B) :=
  match x with Some (m, o) => Some (m, f <$> o) | None => None end.

Definition insert (fuel : nat) (k : K) (v : V) m :
    option (SharedHashMap K V * res MapError InsertOutcome) :=
  on_result (λ p, match p with New => Inserted | Existing _ => Updated end) (place fuel k v true m).

Definition insert_if_absent (fuel : nat) (k : K) (v : V) m :
    option (SharedHashMap K V * res MapError (option V)) :=
  on_result (λ p, match p with New => None | Existing e => Some e end) (place fuel k v false m).

Definition swap (fuel : nat) (k : K) (v : V) m :
    option (SharedHashMap K V * res MapError (option V)) :=
  on_result (λ p, match p with New => None | Existing e => Some e end) (place fuel k v true m).

(** ** Looking up *)

Fixpoint get_loop (offs : list nat) (h start : Z) (k : K) m : option (option V) :=
  match offs with
  | [] => Some None
  | i :: offs =>
      let idx := wrap_idx m (start + Z.of_nat i) in
      let st := state (slot m idx) in
      if st =? SLOT_EMPTY then Some None
      else if st =? SLOT_OCCUPIED then
        ph ← published_hash idx m;
        if ph =? h then
          '(k', v) ← read_payload idx m;
          if decide (k' = k) then Some (Some v) else get_loop offs h start k m
        else get_loop offs h start k m
      else get_loop offs h start k m
  end.

Definition get (k : K) m : option (option V) :=
  let h := hash_key k in get_loop (offsets m) h (wrap_idx m h) k m.

Definition contains_key (k : K) m : option bool := o ← get k m; Some (bool_decide (is_Some o)).

Fixpoint cas_loop (offs : list nat) (h start : Z) (k : K) (expected new : V) m :
    option (SharedHashMap K V * res MapError (unit + V)) :=
  match offs with
  | [] => Some (m, Err KeyAbsent)
  | i :: offs =>
      let idx := wrap_idx m (start + Z.of_nat i) in
      let st := state (slot m idx) in
      if st =? SLOT_EMPTY then Some (m, Err KeyAbsent)
      else if negb (st =? SLOT_OCCUPIED) then cas_loop offs h start k expected new m
      else
        ph ← published_hash idx m;
        if negb (ph =? h) then cas_loop offs h start k expected new m
        else
          '(held, m1) ← lock_slot idx m;
          let '(k', current) := read_payload_locked idx m1 in
          if decide (k' = k) then
            if negb (holds idx h m1) then Some (unlock_slot idx held m1, Err KeyAbsent)
            else if bool_decide (value_bytes current = value_bytes expected)
            then Some (unlock_slot idx held (copy_payload idx k new m1), Ok (inl tt))
            else Some (unlock_slot idx held m1, Ok (inr current))
          else cas_loop offs h start k expected new (unlock_slot idx held m1)
  end.

Definition compare_exchange (k : K) (expected new : V) m :=
  let h := hash_key k in cas_loop (offsets m) h (wrap_idx m h) k expected new m.

Fixpoint remove_loop (offs : list nat) (h start : Z) (k : K) m :
    option (SharedHashMap K V * option V) :=
  match offs with
  | [] => Some (m, None)
  | i :: offs =>
      let idx := wrap_idx m (start + Z.of_nat i) in
      let st := state (slot m idx) in
      if st =? SLOT_EMPTY then Some (m, None)
      else if negb (st =? SLOT_OCCUPIED) then remove_loop offs h start k m
      else
        ph ← published_hash idx m;
        if negb (ph =? h) then remove_loop offs h start k m
        else
          '(held, m1) ← lock_slot idx m;
          let '(k', v) := read_payload_locked idx m1 in
          if decide (k' = k) then
            if negb (holds idx h m1) then Some (unlock_slot idx held m1, None)
            else
              let c := header m1 in
              let m2 := with_counts (count c) (tombstones c) (u64 (removals c + 1)) m1 in
              let m3 := store_hash idx HASH_UNSET (store_state idx SLOT_TOMBSTONE m2) in
              let m4 := unlock_slot idx held m3 in
              let c4 := header m4 in
              Some (with_counts (u64 (count c4 - 1)) (u64 (tombstones c4 + 1)) (removals c4) m4, Some v)
          else remove_loop offs h start k (unlock_slot idx held m1)
  end.

Definition remove (k : K) m := let h := hash_key k in remove_loop (offsets m) h (wrap_idx m h) k m.

(** ** The whole table *)

(** [for i in 0..capacity { state.store(SLOT_EMPTY) }] and the two counters. *)
Definition clear m : SharedHashMap K V :=
  let m1 := with_slots
    (imap (λ i s, if bool_decide (Z.of_nat i < capacity m)
                  then MkSlot SLOT_EMPTY (version s) (hash s) (payload s) else s) (slots m)) m in
  with_counts 0 0 (removals (header m1)) m1.

(** The pairs of the slots that satisfy [keep], in slot order. *)
Fixpoint collect (keep : MapSlot K V → bool) (offs : list nat) m : option (list (K * V)) :=
  match offs with
  | [] => Some []
  | i :: offs =>
      let idx := Z.of_nat i in
      if keep (slot m idx)
      then p ← read_payload idx m; l ← collect keep offs m; Some (p :: l)
      else collect keep offs m
  end.

Definition occupied_slot s : bool := state s =? SLOT_OCCUPIED.

Definition snapshot m : option (list (K * V)) :=
  collect (λ s, occupied_slot s && negb (hash s =? HASH_UNSET)) (offsets m) m.

Fixpoint reinsert (fuel : nat) (live : list (K * V)) m : option (SharedHashMap K V * res MapError unit) :=
  match live with
  | [] => Some (m, Ok tt)
  | (k, v) :: live =>
      '(m', o) ← insert fuel k v m;
      match o with
      | Ok _ => reinsert fuel live m'
      | Err e => Some (m', Err e)
      | Panic => Some (m', Panic)
      end
  end.

Definition compact (fuel : nat) m : option (SharedHashMap K V * res MapError Z) :=
  live ← collect occupied_slot (offsets m) m;
  let reclaimed :=
    Z.of_nat (length (filter (λ i, state (slot m (Z.of_nat i)) = SLOT_TOMBSTONE) (offsets m))) in
  on_result (λ _, reclaimed) (reinsert fuel live (clear m)).
End code.

(** * Slots and counters *)

Section count.
Context {A : Type} (P : A → Prop) `{∀ x, Decision (P x)}.

Definition countP (l : list A) : Z := Z.of_nat (length (filter P l)).

Lemma countP_insert l i x y :
  l !! i = Some x →
  countP (<[i := y]> l) =
  countP l - (if decide (P x) then 1 else 0) + (if decide (P y) then 1 else 0).
Proof.
  intros Hi. rewrite insert_take_drop by (by eapply lookup_lt_Some).
  rewrite <- (take_drop_middle l i x Hi) at 3. unfold countP.
  rewrite !filter_app, !length_app, !filter_cons. repeat case_decide; cbn; lia.
Qed.

Lemma countP_bound l : 0 ≤ countP l ≤ Z.of_nat (length l).
Proof. unfold countP. pose proof (length_filter P l). lia. Qed.

Lemma countP_pos l x : x ∈ l → P x → 0 < countP l.
Proof.
  intros Hx HP. unfold countP. destruct (filter P l) eqn:E; [|cbn; lia].
  assert (x ∈ filter P l) as Hf by (by apply list_elem_of_filter). rewrite E in Hf.
  by apply elem_of_nil in Hf.
Qed.

Lemma countP_all l : countP l = Z.of_nat (length l) → ∀ x, x ∈ l → P x.
Proof.
  unfold countP. intros E x Hx. destruct (decide (P x)) as [|Hn]; [done|].
  pose proof (length_filter_lt P l x Hx Hn). lia.
Qed.

Lemma countP_Forall l : Forall P l → countP l = Z.of_nat (length l).
Proof.
  unfold countP. induction 1 as [|x l Hx Hl IH]; [done|]. rewrite filter_cons, decide_True by done. cbn. lia.
Qed.
End count.

Section basics.
Context {K V : Type} `{EqDecision K, Inhabited K, Inhabited V} `{!MapBytes K V}.
Implicit Types (m : SharedHashMap K V) (s : MapSlot K V).

Definition good m : Prop :=
  2 ≤ capacity m < 2 ^ 32 ∧ length (slots m) = Z.to_nat (capacity m).

Lemma wrap_idx_mod m i : good m → wrap_idx m i = i mod capacity m.
Proof.
  intros [Hc _]. unfold wrap_idx. destruct (is_power_of_two (capacity m)) eqn:E; [|done].
  destruct (is_power_of_two_spec (capacity m) ltac:(lia) E) as (k & Hk & ->).
  by rewrite land_mask_mod by lia.
Qed.

Lemma slot_set_slot m i s j :
  good m → 0 ≤ i < capacity m → 0 ≤ j →
  slot (set_slot i s m) j = if decide (i = j) then s else slot m j.
Proof.
  intros [Hc Hl] Hi Hj. unfold slot, set_slot. cbn. case_decide as E.
  - subst. apply list_lookup_total_insert_eq. lia.
  - apply list_lookup_total_insert_ne. lia.
Qed.

Lemma slot_lookup m i : good m → 0 ≤ i < capacity m → slots m !! Z.to_nat i = Some (slot m i).
Proof. intros [Hc Hl] Hi. apply list_lookup_lookup_total_lt. lia. Qed.

Lemma slot_set_here m i s : good m → 0 ≤ i < capacity m → slot (set_slot i s m) i = s.
Proof. intros. rewrite slot_set_slot by (done || lia). by rewrite decide_True. Qed.

Lemma good_set_slot m i s : good m → good (set_slot i s m).
Proof. intros [Hc Hl]. split; [done|]. cbn. by rewrite length_insert. Qed.

Lemma set_slot_twice m i s s' : set_slot i s (set_slot i s' m) = set_slot i s m.
Proof. unfold set_slot, with_slots. cbn. by rewrite list_insert_insert_eq. Qed.

(** Two slots agree but for their version, which is even in both. *)
Definition even (v : Z) : Prop := Z.land v 1 = 0.

Lemma even_mod v : even v ↔ v mod 2 = 0.
Proof. unfold even. change 1 with (Z.ones 1). by rewrite Z.land_ones. Qed.

Lemma u32_mod2 v : u32 v mod 2 = v mod 2.
Proof. apply (wrap_mod_pow2 32 1). lia. Qed.

Lemma even_next v : even v → even (u32 (u32 (v + 1) + 1)).
Proof.
  rewrite !even_mod, u32_mod2, <- Zplus_mod_idemp_l, u32_mod2, Zplus_mod_idemp_l. intros Hv.
  replace (v + 1 + 1) with (v + 1 * 2) by lia. by rewrite Z.mod_add by lia.
Qed.

(** What a slot holds, versions aside. *)
Definition core s : Z * Z * (K * V) := (state s, hash s, payload s).

(** [m'] is [m] but for the versions of slots the call locked and released. *)
Record eqv m m' : Prop := {
  eqv_cap : capacity m' = capacity m;
  eqv_hdr : header m' = header m;
  eqv_len : length (slots m') = length (slots m);
  eqv_core i : 0 ≤ i < capacity m → core (slot m' i) = core (slot m i);
  eqv_even i : 0 ≤ i < capacity m → even (version (slot m i)) → even (version (slot m' i));
}.

#[export] Instance eqv_refl : Reflexive eqv.
Proof. by split. Qed.

#[export] Instance eqv_trans : Transitive eqv.
Proof.
  intros m1 m2 m3 [C1 H1 L1 S1 E1] [C2 H2 L2 S2 E2]. split; try congruence.
  - intros i Hi. rewrite S2, S1 by (rewrite ?C1; done). done.
  - intros i Hi ?. apply E2; [by rewrite C1|]. by apply E1.
Qed.

Lemma eqv_good m m' : eqv m m' → good m → good m'.
Proof. intros [C _ L _ _] [Hc Hl]. split; [by rewrite C|]. by rewrite L, C. Qed.

(** Locking and releasing a slot, with [s] what its content became meanwhile. *)
Lemma lock_slot_even m i : even (version (slot m i)) →
  lock_slot i m = Some (u32 (version (slot m i) + 1), store_version i (u32 (version (slot m i) + 1)) m).
Proof. intros Hv. unfold lock_slot. by rewrite Hv. Qed.

Definition bump_version s : Z := u32 (u32 (version s + 1) + 1).

Lemma lock_unlock_eqv m i :
  good m → 0 ≤ i < capacity m →
  eqv m (unlock_slot i (u32 (version (slot m i) + 1)) (store_version i (u32 (version (slot m i) + 1)) m)).
Proof.
  intros Hg Hi. unfold unlock_slot, store_version. rewrite slot_set_here, set_slot_twice by done. cbn.
  split; try done.
  - cbn. by rewrite length_insert.
  - intros j Hj. rewrite slot_set_slot by (done || lia). case_decide; by subst.
  - intros j Hj Hv. rewrite slot_set_slot by (done || lia). case_decide; [|done]. subst. by apply even_next.
Qed.
End basics.

(** * Well-formed tables *)

Section tables.
Context {K V : Type} `{EqDecision K, Inhabited K, Inhabited V} `{!MapBytes K V}.
Implicit Types (m : SharedHashMap K V) (s : MapSlot K V).

(** The [d]-th slot of the probe sequence of [k]. *)
Definition pos m (k : K) (d : Z) : Z := (hash_key k + d) mod capacity m.

(** How far along that sequence slot [i] is. *)
Definition dist m (k : K) (i : Z) : Z := (i - hash_key k) mod capacity m.

Definition entry m (i : Z) (k : K) (v : V) : Prop :=
  0 ≤ i < capacity m ∧ state (slot m i) = SLOT_OCCUPIED ∧ payload (slot m i) = (k, v).

Definition is_occ s : Prop := state s = SLOT_OCCUPIED.
Definition is_tomb s : Prop := state s = SLOT_TOMBSTONE.
#[export] Instance is_occ_dec s : Decision (is_occ s) := decide (state s = SLOT_OCCUPIED).
#[export] Instance is_tomb_dec s : Decision (is_tomb s) := decide (state s = SLOT_TOMBSTONE).

Record wf m : Prop := {
  wf_good : good m;
  wf_state i : 0 ≤ i < capacity m →
    state (slot m i) = SLOT_EMPTY ∨ state (slot m i) = SLOT_OCCUPIED ∨ state (slot m i) = SLOT_TOMBSTONE;
  wf_even i : 0 ≤ i < capacity m → even (version (slot m i));
  wf_hash i k v : entry m i k v → hash (slot m i) = hash_key k;
  wf_uniq i j k v w : entry m i k v → entry m j k w → i = j;
  wf_reach i k v d : entry m i k v → 0 ≤ d < dist m k i → state (slot m (pos m k d)) ≠ SLOT_EMPTY;
  wf_count : count (header m) = countP is_occ (slots m);
  wf_tombs : tombstones (header m) = countP is_tomb (slots m);
}.

Lemma hash_key_pos (k : K) : 0 < hash_key k.
Proof.
  unfold hash_key. destruct (Z.eqb_spec (fnv1a_64 (key_bytes k)) HASH_UNSET) as [|E]; [done|].
  assert (∀ bs h, 0 ≤ h → 0 ≤ fold_left (λ h b, u64 (Z.lxor h b * 0x100000001b3)) bs h) as Hf.
  { induction bs as [|b bs IH]; intros h Hh; cbn; [done|]. apply IH, wrap_bound. done. }
  pose proof (Hf (key_bytes k) 0xcbf29ce484222325 ltac:(done)) as H1. fold (fnv1a_64 (key_bytes k)) in H1.
  unfold HASH_UNSET in E. lia.
Qed.

Section pos.
Context m (Hg : good m).

Lemma pos_bound k d : 0 ≤ pos m k d < capacity m.
Proof using Hg. destruct Hg as [Hc _]. apply Z.mod_pos_bound. lia. Qed.

Lemma dist_bound k i : 0 ≤ dist m k i < capacity m.
Proof using Hg. destruct Hg as [Hc _]. apply Z.mod_pos_bound. lia. Qed.

Lemma pos_dist k i : 0 ≤ i < capacity m → pos m k (dist m k i) = i.
Proof using Hg.
  intros Hi. unfold pos, dist. rewrite Zplus_mod_idemp_r.
  replace (hash_key k + (i - hash_key k)) with i by lia. by apply Z.mod_small.
Qed.

Lemma dist_pos k d : 0 ≤ d < capacity m → dist m k (pos m k d) = d.
Proof using Hg.
  intros Hd. unfold pos, dist. rewrite Zminus_mod_idemp_l.
  replace (hash_key k + d - hash_key k) with d by lia. by apply Z.mod_small.
Qed.

(** The index the loops compute. *)
Lemma probe_index k d :
  wrap_idx m (wrap_idx m (hash_key k) + Z.of_nat d) = pos m k (Z.of_nat d).
Proof using Hg.
  rewrite !wrap_idx_mod by done. unfold pos. by rewrite Zplus_mod_idemp_l.
Qed.
End pos.

(** ** The probe sequence *)

Definition absent m (k : K) : Prop := ∀ i v, ¬ entry m i k v.

(** A slot a search for [k] passes over. *)
Definition passes m (k : K) (i : Z) : Prop :=
  state (slot m i) ≠ SLOT_EMPTY ∧ (state (slot m i) = SLOT_OCCUPIED → (payload (slot m i)).1 ≠ k).

Lemma absent_at_empty m k d :
  wf m → 0 ≤ d < capacity m → (∀ d', 0 ≤ d' < d → passes m k (pos m k d')) →
  state (slot m (pos m k d)) = SLOT_EMPTY → absent m k.
Proof.
  intros Hw Hd Hp He i v Hent. pose proof (wf_good _ Hw) as Hg. pose proof Hent as (Hi & Ho & Hpl).
  pose proof (dist_bound m Hg k i). pose proof (pos_dist m Hg k i Hi) as Epd.
  destruct (decide (dist m k i < d)).
  - destruct (Hp (dist m k i) ltac:(lia)) as [_ Hne]. rewrite Epd in Hne. by rewrite Hpl in Hne; apply Hne.
  - destruct (decide (dist m k i = d)) as [<-|]; [rewrite Epd, Ho in He; done|].
    apply (wf_reach _ Hw i k v d Hent); [lia|done].
Qed.

Lemma absent_after_all m k :
  wf m → (∀ d, 0 ≤ d < capacity m → passes m k (pos m k d)) → absent m k.
Proof.
  intros Hw Hp i v (Hi & Ho & Hpl). pose proof (wf_good _ Hw) as Hg.
  destruct (Hp (dist m k i) (dist_bound m Hg k i)) as [_ Hne]. rewrite pos_dist in Hne by done.
  by rewrite Hpl in Hne; apply Hne.
Qed.

(** The three ways a search can end, with the number of slots passed. *)
Inductive search m (k : K) : nat → Prop :=
| search_found d v :
    Z.of_nat d < capacity m → entry m (pos m k (Z.of_nat d)) k v → search m k d
| search_empty d :
    Z.of_nat d < capacity m → state (slot m (pos m k (Z.of_nat d))) = SLOT_EMPTY → absent m k → search m k d
| search_none d : Z.of_nat d = capacity m → absent m k → search m k d.

Lemma search_ends m k :
  wf m → ∃ d, search m k d ∧ ∀ d', (d' < d)%nat → passes m k (pos m k (Z.of_nat d')).
Proof.
  intros Hw. pose proof (wf_good _ Hw) as Hg. pose proof Hg as [Hc _].
  assert (∀ n d, (n + d = Z.to_nat (capacity m))%nat →
    (∀ d', (d' < d)%nat → passes m k (pos m k (Z.of_nat d'))) →
    ∃ d, search m k d ∧ ∀ d', (d' < d)%nat → passes m k (pos m k (Z.of_nat d'))) as H1.
  { induction n as [|n IH]; intros d Hn Hp.
    - exists d. split; [|done]. apply search_none; [lia|]. apply absent_after_all; [done|].
      intros d' Hd'. rewrite <- (Z2Nat.id d') by lia. apply Hp. lia.
    - destruct (decide (state (slot m (pos m k (Z.of_nat d))) = SLOT_EMPTY)) as [E|E].
      { exists d. split; [|done]. apply search_empty; [lia|done|].
        apply (absent_at_empty m k (Z.of_nat d)); [done|lia| |done].
        intros d' Hd'. rewrite <- (Z2Nat.id d') by lia. apply Hp. lia. }
      destruct (decide (state (slot m (pos m k (Z.of_nat d))) = SLOT_OCCUPIED ∧
                        (payload (slot m (pos m k (Z.of_nat d)))).1 = k)) as [[Eo Ek]|Hn'].
      { exists d. split; [|done]. apply (search_found _ _ _ (payload (slot m (pos m k (Z.of_nat d)))).2); [lia|].
        split; [by apply pos_bound|]. split; [done|].
        destruct (payload (slot m (pos m k (Z.of_nat d)))); cbn in *; by subst. }
      apply (IH (S d)); [lia|]. intros d' Hd'. destruct (decide (d' = d)) as [->|]; [|apply Hp; lia].
      split; [done|]. tauto. }
  apply (H1 (Z.to_nat (capacity m)) 0%nat); lia.
Qed.

(** ** Updates *)

(** [m'] is [m] with slot [i] set to [s], counters aside. *)
Definition upd m (i : Z) s m' : Prop :=
  capacity m' = capacity m ∧ slots m' = <[Z.to_nat i := s]> (slots m).

Lemma upd_good m i s m' : upd m i s m' → good m → good m'.
Proof. intros [C S] [Hc Hl]. split; [by rewrite C|]. by rewrite S, length_insert, C. Qed.

Lemma upd_slot m i s m' j :
  upd m i s m' → good m → 0 ≤ i < capacity m → 0 ≤ j →
  slot m' j = if decide (i = j) then s else slot m j.
Proof.
  intros [C S] Hg Hi Hj. rewrite <- (slot_set_slot m i s j) by done. unfold slot. by rewrite S.
Qed.

Lemma upd_entry m i s m' j k v :
  upd m i s m' → good m → 0 ≤ i < capacity m →
  entry m' j k v ↔ (j = i ∧ state s = SLOT_OCCUPIED ∧ payload s = (k, v)) ∨ (j ≠ i ∧ entry m j k v).
Proof.
  intros Hu Hg Hi. unfold entry. rewrite (proj1 Hu). split.
  - intros (Hj & H1 & H2). rewrite (upd_slot m i s m') in H1, H2 by (done || lia).
    case_decide; [left; naive_solver|right; naive_solver].
  - intros [(-> & H1 & H2)|(Hne & Hj & H1 & H2)]; split_and!; try lia;
      rewrite (upd_slot m i s m') by (done || lia); case_decide; try done; congruence.
Qed.

Lemma upd_pos m i s m' k d : upd m i s m' → pos m' k d = pos m k d.
Proof. intros [C _]. unfold pos. by rewrite C. Qed.

Lemma upd_dist m i s m' k d : upd m i s m' → dist m' k d = dist m k d.
Proof. intros [C _]. unfold dist. by rewrite C. Qed.

Lemma countP_upd (P : MapSlot K V → Prop) `{∀ s, Decision (P s)} m i s m' :
  upd m i s m' → good m → 0 ≤ i < capacity m →
  countP P (slots m') =
  countP P (slots m) - (if decide (P (slot m i)) then 1 else 0) + (if decide (P s) then 1 else 0).
Proof. intros [_ ->] Hg Hi. apply countP_insert. by apply slot_lookup. Qed.

(** A slot that is written keeps the table well formed when what it holds is
    hashed, reachable and nowhere else, and it does not become empty. *)
Lemma upd_wf m i s m' :
  upd m i s m' → wf m → 0 ≤ i < capacity m →
  state s = SLOT_OCCUPIED ∨ state s = SLOT_TOMBSTONE →
  even (version s) →
  (∀ k v, state s = SLOT_OCCUPIED → payload s = (k, v) →
     hash s = hash_key k ∧ (∀ j w, j ≠ i → ¬ entry m j k w) ∧
     (∀ d, 0 ≤ d < dist m k i → state (slot m (pos m k d)) ≠ SLOT_EMPTY)) →
  count (header m') = countP is_occ (slots m') →
  tombstones (header m') = countP is_tomb (slots m') →
  wf m'.
Proof.
  intros Hu Hw Hi Hst Hev Hocc Hcnt Htmb. pose proof (wf_good _ Hw) as Hg. pose proof (proj1 Hu) as C.
  assert (∀ j, 0 ≤ j → slot m' j = if decide (i = j) then s else slot m j) as Hslot.
  { intros. by apply (upd_slot m i s m'). }
  assert (∀ j, 0 ≤ j → state (slot m j) ≠ SLOT_EMPTY → state (slot m' j) ≠ SLOT_EMPTY) as Hne.
  { intros j Hj. rewrite Hslot by done. case_decide; [|done]. by destruct Hst as [-> | ->]. }
  split; try done.
  - by eapply upd_good.
  - intros j Hj. rewrite Hslot by lia. case_decide; [tauto|]. apply wf_state; [done|]. by rewrite <- C.
  - intros j Hj. rewrite Hslot by lia. case_decide; [done|]. apply wf_even; [done|]. by rewrite <- C.
  - intros j k v He. pose proof He as (Hj & _). rewrite Hslot by lia.
    apply (upd_entry m i s m') in He; [|done..]. destruct He as [(-> & H1 & H2)|(Hn & He)].
    + rewrite decide_True by done. by destruct (Hocc k v H1 H2).
    + rewrite decide_False by done. by eapply wf_hash.
  - intros a b k v w Ha Hb.
    apply (upd_entry m i s m') in Ha; [|done..]. apply (upd_entry m i s m') in Hb; [|done..].
    destruct Ha as [(-> & H1 & H2)|(Hn & Ha)], Hb as [(-> & H3 & H4)|(Hn' & Hb)].
    + done.
    + destruct (Hocc k v H1 H2) as (_ & Hno & _). by destruct (Hno b w).
    + destruct (Hocc k w H3 H4) as (_ & Hno & _). by destruct (Hno a v).
    + by eapply wf_uniq.
  - intros j k v d He. rewrite (upd_dist m i s m'), (upd_pos m i s m') by done. intros Hd.
    apply Hne; [apply (pos_bound m Hg)|].
    apply (upd_entry m i s m') in He; [|done..]. destruct He as [(-> & H1 & H2)|(Hn & He)].
    + destruct (Hocc k v H1 H2) as (_ & _ & Hr). by apply Hr.
    + by eapply wf_reach.
Qed.

(** ** Versions do not matter *)

Section eqv.
Context m m' (He : eqv m m').

Lemma eqv_slot i : 0 ≤ i < capacity m →
  state (slot m' i) = state (slot m i) ∧ hash (slot m' i) = hash (slot m i) ∧
  payload (slot m' i) = payload (slot m i).
Proof using He. intros Hi. pose proof (eqv_core _ _ He i Hi) as E. unfold core in E. naive_solver. Qed.

Lemma eqv_pos k d : pos m' k d = pos m k d.
Proof using He. unfold pos. by rewrite (eqv_cap _ _ He). Qed.

Lemma eqv_entry i k v : entry m' i k v ↔ entry m i k v.
Proof using He.
  unfold entry. rewrite (eqv_cap _ _ He). split; intros (Hi & ? & ?);
    destruct (eqv_slot i Hi) as (E1 & E2 & E3); split_and!; congruence || lia.
Qed.

Lemma eqv_countP (P : MapSlot K V → Prop) `{∀ s, Decision (P s)} :
  good m → (∀ s s', state s = state s' → P s ↔ P s') → countP P (slots m') = countP P (slots m).
Proof using He.
  intros [Hc Hl] HP. pose proof (eqv_len _ _ He) as El.
  assert (∀ i s s', slots m !! i = Some s → slots m' !! i = Some s' → P s ↔ P s') as Hi.
  { intros i s s' E1 E2. apply HP.
    pose proof (lookup_lt_Some _ _ _ E1). destruct (eqv_slot (Z.of_nat i) ltac:(lia)) as (Es & _).
    unfold slot in Es. rewrite Nat2Z.id in Es.
    by rewrite (list_lookup_total_correct _ _ _ E1), (list_lookup_total_correct _ _ _ E2) in Es. }
  unfold countP. f_equal. revert El Hi. generalize (slots m) (slots m'). clear.
  induction l as [|x l IH]; intros [|y l'] El Hi; try done. cbn in El.
  rewrite !filter_cons. pose proof (Hi 0%nat x y eq_refl eq_refl).
  assert (length (filter P l') = length (filter P l)) as E.
  { apply IH; [lia|]. intros i. apply (Hi (S i)). }
  repeat case_decide; cbn; tauto || lia.
Qed.

Lemma eqv_wf : wf m → wf m'.
Proof using He.
  intros Hw. pose proof (wf_good _ Hw) as Hg. pose proof (eqv_cap _ _ He) as C.
  split.
  - by eapply eqv_good.
  - intros i. rewrite C. intros Hi. destruct (eqv_slot i Hi) as (-> & _). by apply wf_state.
  - intros i. rewrite C. intros Hi. apply (eqv_even _ _ He); [done|]. by apply wf_even.
  - intros i k v. rewrite eqv_entry. intros H1. destruct (eqv_slot i (proj1 H1)) as (_ & -> & _). by eapply wf_hash.
  - intros i j k v w. rewrite !eqv_entry. by apply wf_uniq.
  - intros i k v d. rewrite eqv_entry, eqv_pos. unfold dist. rewrite C. intros H1 Hd.
    destruct (eqv_slot (pos m k d) (pos_bound m Hg k d)) as (-> & _). by apply (wf_reach _ Hw i k v d).
  - rewrite (eqv_hdr _ _ He), wf_count by done. symmetry. apply eqv_countP; [done|]. unfold is_occ. by intros ?? ->.
  - rewrite (eqv_hdr _ _ He), wf_tombs by done. symmetry. apply eqv_countP; [done|]. unfold is_tomb. by intros ?? ->.
Qed.

Lemma eqv_search k D : good m → search m k D → search m' k D.
Proof using He.
  intros Hg Hs. pose proof (eqv_cap _ _ He) as C. destruct Hs as [d v Hd Hent|d Hd Hemp Ha|d Hd Ha].
  - apply (search_found _ _ _ v); [by rewrite C|]. by rewrite eqv_pos, eqv_entry.
  - apply search_empty; [by rewrite C| |].
    + rewrite eqv_pos. by destruct (eqv_slot _ (pos_bound m Hg k (Z.of_nat d))) as (-> & _).
    + intros i v. rewrite eqv_entry. apply Ha.
  - apply search_none; [by rewrite C|]. intros i v. rewrite eqv_entry. apply Ha.
Qed.

Lemma eqv_passes k d : good m → passes m k (pos m k d) → passes m' k (pos m' k d).
Proof using He.
  intros Hg. rewrite eqv_pos. destruct (eqv_slot (pos m k d) (pos_bound m Hg k d)) as (E1 & _ & E3).
  unfold passes. by rewrite E1, E3.
Qed.
End eqv.
End tables.

(** * The contents of a table *)

Section contents.
Context {K V : Type} `{Countable K, Inhabited K, Inhabited V} `{!MapBytes K V}.
Implicit Types (m : SharedHashMap K V) (s : MapSlot K V).

(** The pairs of the occupied slots, in slot order, and the map they form. *)
Definition pairs m : list (K * V) := payload <$> filter is_occ (slots m).
Definition contents m : gmap K V := list_to_map (pairs m).

Lemma elem_of_pairs m k v : good m → (k, v) ∈ pairs m ↔ ∃ i, entry m i k v.
Proof.
  intros Hg. unfold pairs. rewrite list_elem_of_fmap. split.
  - intros (s & Es & Hs). apply list_elem_of_filter in Hs as [Ho Hs].
    apply list_elem_of_lookup in Hs as [i Hi]. exists (Z.of_nat i). destruct Hg as [Hc Hl].
    pose proof (lookup_lt_Some _ _ _ Hi). unfold entry, slot. rewrite Nat2Z.id.
    rewrite (list_lookup_total_correct _ _ _ Hi). split_and!; try lia; done.
  - intros (i & Hi & Ho & Ep). exists (slot m i). split; [done|]. apply list_elem_of_filter. split; [done|].
    eapply list_elem_of_lookup_2. by apply slot_lookup.
Qed.

(** Filtering keeps pairs of positions apart. *)
Lemma pairs_NoDup m : wf m → NoDup (pairs m).*1.
Proof.
  intros Hw. pose proof (wf_good _ Hw) as Hg. destruct Hg as [Hc Hl] eqn:Eg.
  assert (∀ i j s s', slots m !! i = Some s → slots m !! j = Some s' → is_occ s → is_occ s' →
    (payload s).1 = (payload s').1 → i = j) as Hinj.
  { intros i j s s' E1 E2 O1 O2 Ek.
    pose proof (lookup_lt_Some _ _ _ E1). pose proof (lookup_lt_Some _ _ _ E2).
    destruct (payload s) as [k v] eqn:P1, (payload s') as [k' w] eqn:P2. cbn in Ek. subst k'.
    assert (Z.of_nat i = Z.of_nat j) as E; [|lia].
    apply (wf_uniq _ Hw _ _ k v w); unfold entry, slot; rewrite Nat2Z.id;
      [rewrite (list_lookup_total_correct _ _ _ E1)|rewrite (list_lookup_total_correct _ _ _ E2)];
      split_and!; try lia; done. }
  unfold pairs. revert Hinj. generalize (slots m). clear. induction l as [|x l IH]; intros Hinj; [constructor|].
  rewrite filter_cons. assert (NoDup (payload <$> filter is_occ l).*1) as Hl.
  { apply IH. intros i j s s' E1 E2 O1 O2 Ek. pose proof (Hinj (S i) (S j) s s' E1 E2 O1 O2 Ek). lia. }
  case_decide as Hx; [|done]. cbn. constructor; [|done]. intros Hin.
  apply list_elem_of_fmap in Hin as (p & Ep & Hp). apply list_elem_of_fmap in Hp as (s & -> & Hs).
  apply list_elem_of_filter in Hs as [Ho Hs]. apply list_elem_of_lookup in Hs as [i Hi].
  pose proof (Hinj 0%nat (S i) x s eq_refl Hi Hx Ho Ep). lia.
Qed.

Lemma contents_Some m k v : wf m → contents m !! k = Some v ↔ ∃ i, entry m i k v.
Proof.
  intros Hw. rewrite <- elem_of_pairs by apply Hw. symmetry. apply elem_of_list_to_map. by apply pairs_NoDup.
Qed.

Lemma contents_None m k : wf m → contents m !! k = None ↔ absent m k.
Proof.
  intros Hw. split.
  - intros E i v He. assert (contents m !! k = Some v) by (apply contents_Some; eauto). congruence.
  - intros Ha. destruct (contents m !! k) as [v|] eqn:E; [|done].
    apply contents_Some in E as [i He]; [|done]. by destruct (Ha i v).
Qed.

Lemma contents_list m : wf m → map_to_list (contents m) ≡ₚ pairs m.
Proof. intros Hw. apply map_to_list_to_map. by apply pairs_NoDup. Qed.

Lemma contents_size m : wf m → Z.of_nat (size (contents m)) = count (header m).
Proof.
  intros Hw. rewrite wf_count by done. unfold countP. f_equal.
  rewrite <- length_map_to_list, contents_list by done. unfold pairs. by rewrite length_fmap.
Qed.

Lemma contents_ext m m' :
  wf m → wf m' → (∀ k v, (∃ i, entry m' i k v) ↔ (∃ i, entry m i k v)) → contents m' = contents m.
Proof.
  intros Hw Hw' Hiff. apply map_eq. intros k. apply option_eq. intros v.
  by rewrite !contents_Some.
Qed.

Lemma eqv_contents m m' : wf m → eqv m m' → contents m' = contents m.
Proof.
  intros Hw He. apply contents_ext; [done|by eapply eqv_wf|]. intros k v.
  by setoid_rewrite (eqv_entry m m' He).
Qed.

(** The outcome of a search, on the contents. *)
Lemma search_contents m k d :
  wf m → search m k d →
  (Z.of_nat d < capacity m ∧ ∃ v, entry m (pos m k (Z.of_nat d)) k v ∧ contents m !! k = Some v) ∨
  (contents m !! k = None ∧
   (Z.of_nat d < capacity m ∧ state (slot m (pos m k (Z.of_nat d))) = SLOT_EMPTY ∨ Z.of_nat d = capacity m)).
Proof.
  intros Hw [d' v Hd He|d' Hd He Ha|d' Hd Ha].
  - left. split; [done|]. exists v. split; [done|]. apply contents_Some; eauto.
  - right. split; [by apply contents_None|]. by left.
  - right. split; [by apply contents_None|]. by right.
Qed.

(** ** Loops that skip the slots they pass *)

Lemma skip_to {X R} (F : list nat → X → R) (Inv : nat → X → Prop) D n x :
  Inv 0%nat x →
  (∀ d offs x, (d < D)%nat → Inv d x → ∃ x', Inv (S d) x' ∧ F (d :: offs) x = F offs x') →
  ∃ x', Inv D x' ∧ F (seq 0 (D + n)) x = F (seq D n) x'.
Proof.
  intros Hinit Hs.
  assert (∀ D', (D' ≤ D)%nat → ∃ x', Inv D' x' ∧ F (seq 0 (D + n)) x = F (seq D' (D - D' + n)) x') as Hd.
  { induction D' as [|D' IH]; intros HD.
    - exists x. by rewrite Nat.sub_0_r.
    - destruct IH as (x1 & Hi & E); [lia|]. replace (D - D' + n)%nat with (S (D - S D' + n)) in E by lia.
      cbn [seq] in E. destruct (Hs D' (seq (S D') (D - S D' + n)) x1 ltac:(lia) Hi) as (x2 & Hi2 & E2).
      exists x2. by rewrite E, E2. }
  destruct (Hd D ltac:(lia)) as (x' & Hi & E). exists x'. by rewrite Nat.sub_diag in E.
Qed.

(** The state of a slot that a search passes. *)
Lemma passes_cases m k i :
  wf m → 0 ≤ i < capacity m → passes m k i →
  state (slot m i) = SLOT_TOMBSTONE ∨
  (state (slot m i) = SLOT_OCCUPIED ∧ published_hash i m = Some (hash (slot m i)) ∧
   hash (slot m i) ≠ HASH_UNSET ∧ (payload (slot m i)).1 ≠ k).
Proof.
  intros Hw Hi [Hne Hp]. destruct (wf_state _ Hw i Hi) as [|[Ho|]]; [done| |by left].
  right. assert (hash (slot m i) ≠ HASH_UNSET) as Hh.
  { rewrite (wf_hash _ Hw i (payload (slot m i)).1 (payload (slot m i)).2).
    - pose proof (hash_key_pos (payload (slot m i)).1). unfold HASH_UNSET. lia.
    - split; [done|]. split; [done|]. by destruct (payload (slot m i)). }
  split_and!; [done| |done|by apply Hp]. unfold published_hash.
  by apply Z.eqb_neq in Hh as ->.
Qed.

(** The hash of an entry. *)
Lemma entry_published m i k v : wf m → entry m i k v → published_hash i m = Some (hash_key k).
Proof.
  intros Hw He. unfold published_hash. rewrite (wf_hash _ Hw _ _ _ He).
  pose proof (hash_key_pos k).
  destruct (Z.eqb_spec (hash_key k) HASH_UNSET); [unfold HASH_UNSET in *; lia|done].
Qed.
End contents.

(** * Lookups *)

Section lookups.
Context {K V : Type} `{Countable K, Inhabited K, Inhabited V} `{!MapBytes K V}.
Implicit Types (m : SharedHashMap K V) (s : MapSlot K V).

Lemma offsets_split m D : (D ≤ Z.to_nat (capacity m))%nat →
  offsets m = seq 0 (D + (Z.to_nat (capacity m) - D)).
Proof. intros HD. unfold offsets. f_equal. lia. Qed.

Lemma search_bound m k D : good m → search m k D → (D ≤ Z.to_nat (capacity m))%nat.
Proof. intros [Hc _] []; lia. Qed.

(** A search that stops before the end has the next offset at hand. *)
Lemma seq_at m D : Z.of_nat D < capacity m →
  seq D (Z.to_nat (capacity m) - D) = D :: seq (S D) (Z.to_nat (capacity m) - S D).
Proof. intros HD. by replace (Z.to_nat (capacity m) - D)%nat with (S (Z.to_nat (capacity m) - S D)) by lia. Qed.

Lemma get_loop_skip m k d offs :
  wf m → passes m k (pos m k (Z.of_nat d)) →
  get_loop (d :: offs) (hash_key k) (wrap_idx m (hash_key k)) k m =
  get_loop offs (hash_key k) (wrap_idx m (hash_key k)) k m.
Proof.
  intros Hw Hp. pose proof (wf_good _ Hw) as Hg. cbn [get_loop]. rewrite probe_index by done.
  pose proof (pos_bound m Hg k (Z.of_nat d)) as Hb.
  destruct (passes_cases m k _ Hw Hb Hp) as [Et|(Eo & Eh & Hh & Hk)]; [by rewrite Et|].
  rewrite Eo. cbn. rewrite Eh. cbn. destruct (_ =? hash_key k); [|done].
  unfold read_payload. rewrite (wf_even _ Hw _ Hb). cbn.
  destruct (payload _) as [k' v]. cbn in Hk. by rewrite decide_False by done.
Qed.

Lemma get_spec m k : wf m → get k m = Some (contents m !! k).
Proof.
  intros Hw. pose proof (wf_good _ Hw) as Hg. destruct (search_ends m k Hw) as (D & Hs & Hp).
  unfold get. rewrite (offsets_split m D) by (by eapply search_bound).
  destruct (skip_to (λ offs (_ : unit), get_loop offs (hash_key k) (wrap_idx m (hash_key k)) k m)
    (λ _ _, True) D (Z.to_nat (capacity m) - D) tt I) as (_ & _ & E).
  { intros d offs [] Hd _. exists tt. split; [done|]. by apply get_loop_skip, Hp. }
  cbn beta in E. rewrite E.
  destruct (search_contents m k D Hw Hs) as [(HD & v & He & ->)|(-> & [[HD He]|HD])].
  - rewrite seq_at by done. cbn [get_loop]. rewrite probe_index by done.
    pose proof He as (Hb & Eo & Ep). rewrite Eo. cbn.
    rewrite (entry_published m _ k v) by done. cbn. rewrite Z.eqb_refl.
    unfold read_payload. rewrite (wf_even _ Hw _ Hb). cbn. rewrite Ep. by rewrite decide_True.
  - rewrite seq_at by done. cbn [get_loop]. rewrite probe_index by done. by rewrite He.
  - by replace (Z.to_nat (capacity m) - D)%nat with 0%nat by lia.
Qed.

Lemma contains_key_spec m k : wf m → contains_key k m = Some (bool_decide (is_Some (contents m !! k))).
Proof. intros Hw. unfold contains_key. by rewrite get_spec. Qed.

(** ** Searches that lock the slots whose hash matches *)

(** Passing a slot, whether or not it is locked on the way, changes only its
    version; [F] is the loop. *)
Definition skips {R} (F : list nat → SharedHashMap K V → R) (k : K) : Prop :=
  ∀ m d offs, wf m → passes m k (pos m k (Z.of_nat d)) →
    ∃ m', eqv m m' ∧ F (d :: offs) m = F offs m'.

Lemma skips_to {R} (F : list nat → SharedHashMap K V → R) k m :
  wf m → skips F k →
  ∃ D m', eqv m m' ∧ wf m' ∧ search m' k D ∧
    F (offsets m) m = F (seq D (Z.to_nat (capacity m') - D)) m' ∧
    (∀ d, (d < D)%nat → state (slot m' (pos m' k (Z.of_nat d))) ≠ SLOT_EMPTY).
Proof.
  intros Hw HF. pose proof (wf_good _ Hw) as Hg. destruct (search_ends m k Hw) as (D & Hs & Hp).
  destruct (skip_to F (λ _, eqv m) D (Z.to_nat (capacity m) - D) m) as (m' & He & E).
  { reflexivity. }
  { intros d offs m1 Hd He. destruct (HF m1 d offs) as (m2 & He2 & E2).
    - by eapply eqv_wf.
    - eapply eqv_passes; [done..|]. by apply Hp.
    - exists m2. split; [by etrans|done]. }
  exists D, m'. split_and!; [done|by eapply eqv_wf| | |].
  - by eapply eqv_search.
  - rewrite (offsets_split m D) by (by eapply search_bound). by rewrite (eqv_cap _ _ He).
  - intros d Hd. destruct (eqv_passes m m' He k (Z.of_nat d) Hg (Hp d Hd)) as [Hn _]. done.
Qed.
End lookups.

(** * Updates in place and removals *)

Section updates.
Context {K V : Type} `{Countable K, Inhabited K, Inhabited V} `{!MapBytes K V}.
Implicit Types (m : SharedHashMap K V) (s : MapSlot K V).

Lemma slot_with_counts c t r m i : slot (with_counts c t r m) i = slot m i.
Proof. done. Qed.

Lemma set_slot_with_counts c t r i s m :
  set_slot i s (with_counts c t r m) = with_counts c t r (set_slot i s m).
Proof. done. Qed.

Lemma good_with_counts c t r m : good m → good (with_counts c t r m).
Proof. done. Qed.

Lemma with_counts_twice c t r c' t' r' m :
  with_counts c t r (with_counts c' t' r' m) = with_counts c t r m.
Proof. done. Qed.

(** Rewrites a chain of stores to one slot into one [set_slot]. *)
Ltac slot_norm :=
  unfold store_version, store_state, store_hash, copy_payload;
  repeat (progress (rewrite ?slot_with_counts, ?set_slot_with_counts, ?with_counts_twice, ?set_slot_twice)
          || (rewrite slot_set_here by (done || lia || by apply good_set_slot)));
  try reflexivity.

(** Locking a slot and reading it. *)
Lemma locked_slot m i held :
  good m → 0 ≤ i < capacity m →
  slot (store_version i held m) i =
    MkSlot (state (slot m i)) held (hash (slot m i)) (payload (slot m i)).
Proof. intros. unfold store_version. by rewrite slot_set_here. Qed.

Lemma locked_reads m i held h :
  good m → 0 ≤ i < capacity m →
  read_payload_locked i (store_version i held m) = payload (slot m i) ∧
  holds i h (store_version i held m) = holds i h m.
Proof. intros. unfold read_payload_locked, holds. by rewrite !locked_slot. Qed.

Lemma entry_holds m i k v : wf m → entry m i k v → holds i (hash_key k) m = true.
Proof.
  intros Hw He. unfold holds. rewrite (wf_hash _ Hw _ _ _ He), Z.eqb_refl.
  by destruct He as (_ & -> & _).
Qed.

(** The counters after a slot was written, by the states before and after. *)
Ltac count_cases :=
  repeat case_decide; unfold is_occ, is_tomb, SLOT_EMPTY, SLOT_OCCUPIED, SLOT_TOMBSTONE in *; cbn in *; lia.

(** The slot of a key written over with a new value. *)
Definition overwritten m (i : Z) (k : K) (v : V) : SharedHashMap K V :=
  set_slot i (MkSlot (state (slot m i)) (bump_version (slot m i)) (hash (slot m i)) (k, v)) m.

Lemma overwritten_eq m i k v :
  good m → 0 ≤ i < capacity m →
  unlock_slot i (u32 (version (slot m i) + 1))
    (copy_payload i k v (store_version i (u32 (version (slot m i) + 1)) m)) = overwritten m i k v.
Proof.
  intros Hg Hi. unfold unlock_slot, overwritten. slot_norm.
Qed.

Lemma bump_even s : even (version s) → even (bump_version s).
Proof. apply even_next. Qed.

Lemma overwritten_spec m i k v w :
  wf m → entry m i k v →
  wf (overwritten m i k w) ∧ contents (overwritten m i k w) = <[k := w]> (contents m).
Proof.
  intros Hw He. pose proof (wf_good _ Hw) as Hg. pose proof He as (Hi & Ho & Ep).
  assert (upd m i (MkSlot SLOT_OCCUPIED (bump_version (slot m i)) (hash (slot m i)) (k, w))
    (overwritten m i k w)) as Hu.
  { split; [done|]. unfold overwritten. by rewrite Ho. }
  assert (wf (overwritten m i k w)) as Hw'.
  { eapply upd_wf; try done.
    - by left.
    - apply bump_even. by apply wf_even.
    - intros k' v' _ [= <- <-]. split_and!.
      + by apply (wf_hash _ Hw i k v).
      + intros j x Hj Hej. apply Hj. by eapply wf_uniq.
      + intros d. by apply (wf_reach _ Hw i k v).
    - erewrite countP_upd by done. cbn. rewrite (wf_count _ Hw). count_cases.
    - erewrite countP_upd by done. cbn. rewrite (wf_tombs _ Hw). count_cases. }
  split; [done|]. apply map_eq. intros k'. apply option_eq. intros v'.
  rewrite contents_Some by done. setoid_rewrite (upd_entry m i _ _ _ _ _ Hu Hg Hi). cbn.
  destruct (decide (k' = k)) as [->|Hk].
  - rewrite lookup_insert_eq. split.
    + intros (j & [(_ & _ & [= ->])|(Hj & Hej)]); [done|]. destruct Hj. by eapply (wf_uniq m Hw).
    + intros [= ->]. exists i. by left.
  - rewrite lookup_insert_ne, contents_Some by done. split.
    + intros (j & [(_ & _ & [= -> _])|(Hj & Hej)]); [done|]. by exists j.
    + intros (j & Hej). exists j. right. split; [|done]. intros ->.
      destruct Hej as (_ & _ & E). congruence.
Qed.

(** The slot of a removed key. *)
Definition removed m (i : Z) : SharedHashMap K V :=
  with_counts (u64 (count (header m) - 1)) (u64 (tombstones (header m) + 1)) (u64 (removals (header m) + 1))
    (set_slot i (MkSlot SLOT_TOMBSTONE (bump_version (slot m i)) HASH_UNSET (payload (slot m i))) m).

Lemma slots_disjoint m : countP is_occ (slots m) + countP is_tomb (slots m) ≤ Z.of_nat (length (slots m)).
Proof.
  unfold countP. induction (slots m) as [|s l IH]; [done|]. rewrite !filter_cons.
  unfold is_occ, is_tomb, SLOT_OCCUPIED, SLOT_TOMBSTONE in *. repeat case_decide; cbn [length]; lia.
Qed.

Lemma removed_spec m i k v :
  wf m → entry m i k v → wf (removed m i) ∧ contents (removed m i) = delete k (contents m).
Proof.
  intros Hw He. pose proof (wf_good _ Hw) as Hg. pose proof He as (Hi & Ho & Ep).
  assert (upd m i (MkSlot SLOT_TOMBSTONE (bump_version (slot m i)) HASH_UNSET (payload (slot m i)))
    (removed m i)) as Hu by done.
  assert (wf (removed m i)) as Hw'.
  { pose proof (slots_disjoint m) as Hd. pose proof (countP_bound is_tomb (slots m)).
    assert (0 < countP is_occ (slots m)).
    { eapply countP_pos; [|exact Ho]. eapply list_elem_of_lookup_2. by apply slot_lookup. }
    destruct Hg as [Hc Hl] eqn:Eg.
    eapply upd_wf; try done.
    - by right.
    - apply bump_even. by apply wf_even.
    - erewrite countP_upd by done. change (count (header (removed m i))) with (u64 (count (header m) - 1)).
      rewrite (wf_count _ Hw), (wrap_small 64) by lia. count_cases.
    - erewrite countP_upd by done. change (tombstones (header (removed m i))) with (u64 (tombstones (header m) + 1)).
      rewrite (wf_tombs _ Hw), (wrap_small 64) by lia. count_cases. }
  split; [done|]. apply map_eq. intros k'. apply option_eq. intros v'.
  rewrite contents_Some by done. setoid_rewrite (upd_entry m i _ _ _ _ _ Hu Hg Hi). cbn.
  rewrite lookup_delete_Some, contents_Some by done. split.
  - intros (j & [(_ & [=] & _)|(Hj & Hej)]). split; [|eauto]. intros ->. apply Hj. by eapply (wf_uniq m Hw).
  - intros (Hk & j & Hej). exists j. right. split; [|done]. intros ->. destruct Hej as (_ & _ & E). congruence.
Qed.

(** Locking a passed slot finds another key, and leaves an equivalent table. *)
Lemma lock_passed m k i :
  wf m → 0 ≤ i < capacity m → state (slot m i) = SLOT_OCCUPIED → (payload (slot m i)).1 ≠ k →
  ∃ held m1 k' v, lock_slot i m = Some (held, m1) ∧ read_payload_locked i m1 = (k', v) ∧ k' ≠ k ∧
    eqv m (unlock_slot i held m1) ∧ wrap_idx (unlock_slot i held m1) = wrap_idx m.
Proof.
  intros Hw Hi Ho Hk. pose proof (wf_good _ Hw) as Hg. destruct (payload (slot m i)) as [k' v] eqn:Ep.
  eexists _, _, k', v. split_and!.
  - apply lock_slot_even. by apply wf_even.
  - unfold read_payload_locked. by rewrite locked_slot.
  - done.
  - by apply lock_unlock_eqv.
  - done.
Qed.

(** Locking the slot of an entry finds it. *)
Lemma lock_entry m k i v :
  wf m → entry m i k v →
  lock_slot i m = Some (u32 (version (slot m i) + 1), store_version i (u32 (version (slot m i) + 1)) m) ∧
  read_payload_locked i (store_version i (u32 (version (slot m i) + 1)) m) = (k, v) ∧
  holds i (hash_key k) (store_version i (u32 (version (slot m i) + 1)) m) = true.
Proof.
  intros Hw He. pose proof (wf_good _ Hw) as Hg. pose proof He as (Hi & Ho & Ep). split_and!.
  - apply lock_slot_even. by apply wf_even.
  - unfold read_payload_locked. by rewrite locked_slot.
  - destruct (locked_reads m i (u32 (version (slot m i) + 1)) (hash_key k) Hg Hi) as [_ ->].
    by apply (entry_holds m i k v).
Qed.

(** ** [remove] *)

Lemma remove_skips (k : K) :
  skips (λ offs m, remove_loop offs (hash_key k) (wrap_idx m (hash_key k)) k m) k.
Proof.
  intros m d offs Hw Hp. pose proof (wf_good _ Hw) as Hg.
  pose proof (pos_bound m Hg k (Z.of_nat d)) as Hb.
  cbn [remove_loop]. rewrite probe_index by done.
  destruct (passes_cases m k _ Hw Hb Hp) as [Et|(Eo & Eh & Hh & Hk)].
  { rewrite Et. by exists m. }
  rewrite Eo. cbn. rewrite Eh. cbn. destruct (_ =? hash_key k); cbn; [|by exists m].
  destruct (lock_passed m k _ Hw Hb Eo Hk) as (held & m1 & k' & v & -> & E & Hk' & He & Ew).
  cbn. rewrite E, decide_False by done. exists (unlock_slot (pos m k (Z.of_nat d)) held m1).
  by rewrite Ew.
Qed.

Lemma removed_eq m i c t :
  good m → 0 ≤ i < capacity m →
  let held := u32 (version (slot m i) + 1) in
  with_counts (u64 (count (header m) - 1)) (u64 (tombstones (header m) + 1)) (u64 (removals (header m) + 1))
    (unlock_slot i held (store_hash i HASH_UNSET (store_state i SLOT_TOMBSTONE
       (with_counts c t (u64 (removals (header m) + 1)) (store_version i held m))))) = removed m i.
Proof. intros Hg Hi held. unfold unlock_slot, removed. slot_norm. Qed.

Lemma remove_spec m k :
  wf m → ∃ m', remove k m = Some (m', contents m !! k) ∧ wf m' ∧ capacity m' = capacity m ∧
    contents m' = delete k (contents m).
Proof.
  intros Hw. destruct (skips_to _ k m Hw (remove_skips k)) as (D & m1 & He & Hw1 & Hs & E & _).
  pose proof (wf_good _ Hw1) as Hg. pose proof (eqv_cap _ _ He) as C. unfold remove. rewrite E.
  rewrite <- (eqv_contents m m1) by done.
  destruct (search_contents m1 k D Hw1 Hs) as [(HD & v & Hent & Ec)|(Ec & Hcase)].
  - rewrite Ec, seq_at by done. cbn [remove_loop]. rewrite probe_index by done.
    pose proof Hent as (Hb & Eo & Ep). rewrite Eo. cbn.
    rewrite (entry_published m1 _ k v) by done. cbn. rewrite Z.eqb_refl. cbn.
    destruct (lock_entry m1 k _ v Hw1 Hent) as (-> & E1 & E2). cbn. rewrite E1, decide_True, E2 by done. cbn.
    destruct (removed_spec m1 _ k v Hw1 Hent) as [Hw' Ec'].
    exists (removed m1 (pos m1 k (Z.of_nat D))). split; [|done]. repeat f_equal.
    by apply removed_eq.
  - rewrite delete_id by done. rewrite Ec. exists m1. split; [|done].
    destruct Hcase as [[HD Hemp]|HD].
    + rewrite seq_at by done. cbn [remove_loop]. rewrite probe_index by done. by rewrite Hemp.
    + by replace (Z.to_nat (capacity m1) - D)%nat with 0%nat by lia.
Qed.

(** ** [compare_exchange] *)

Lemma cas_skips (k : K) (expected new : V) :
  skips (λ offs m, cas_loop offs (hash_key k) (wrap_idx m (hash_key k)) k expected new m) k.
Proof.
  intros m d offs Hw Hp. pose proof (wf_good _ Hw) as Hg.
  pose proof (pos_bound m Hg k (Z.of_nat d)) as Hb.
  cbn [cas_loop]. rewrite probe_index by done.
  destruct (passes_cases m k _ Hw Hb Hp) as [Et|(Eo & Eh & Hh & Hk)].
  { rewrite Et. by exists m. }
  rewrite Eo. cbn. rewrite Eh. cbn. destruct (_ =? hash_key k); cbn; [|by exists m].
  destruct (lock_passed m k _ Hw Hb Eo Hk) as (held & m1 & k' & v & -> & E & Hk' & He & Ew).
  cbn. rewrite E, decide_False by done. exists (unlock_slot (pos m k (Z.of_nat d)) held m1).
  by rewrite Ew.
Qed.

Definition cas_result (σ : gmap K V) (k : K) (expected new : V) : gmap K V * res MapError (unit + V) :=
  match σ !! k with
  | None => (σ, Err KeyAbsent)
  | Some cur =>
      if bool_decide (value_bytes cur = value_bytes expected) then (<[k := new]> σ, Ok (inl tt))
      else (σ, Ok (inr cur))
  end.

Lemma compare_exchange_spec m k expected new :
  wf m → ∃ m', compare_exchange k expected new m = Some (m', (cas_result (contents m) k expected new).2) ∧
    wf m' ∧ capacity m' = capacity m ∧ contents m' = (cas_result (contents m) k expected new).1.
Proof.
  intros Hw. destruct (skips_to _ k m Hw (cas_skips k expected new)) as (D & m1 & He & Hw1 & Hs & E & _).
  pose proof (wf_good _ Hw1) as Hg. pose proof (eqv_cap _ _ He) as C. unfold compare_exchange. rewrite E.
  rewrite <- (eqv_contents m m1) by done. unfold cas_result.
  destruct (search_contents m1 k D Hw1 Hs) as [(HD & v & Hent & Ec)|(Ec & Hcase)].
  - rewrite Ec, seq_at by done. cbn [cas_loop]. rewrite probe_index by done.
    pose proof Hent as (Hb & Eo & Ep). rewrite Eo. cbn.
    rewrite (entry_published m1 _ k v) by done. cbn. rewrite Z.eqb_refl. cbn.
    destruct (lock_entry m1 k _ v Hw1 Hent) as (-> & E1 & E2). cbn. rewrite E1, decide_True, E2 by done. cbn.
    case_bool_decide; cbn.
    + rewrite overwritten_eq by done. destruct (overwritten_spec m1 _ k v new Hw1 Hent) as [Hw' Ec'].
      by eexists.
    + pose proof (lock_unlock_eqv m1 (pos m1 k (Z.of_nat D)) Hg Hb) as He'.
      eexists. split; [done|]. split; [by eapply eqv_wf|]. split; [done|]. by apply eqv_contents.
  - rewrite Ec. exists m1. split; [|done]. destruct Hcase as [[HD Hemp]|HD].
    + rewrite seq_at by done. cbn [cas_loop]. rewrite probe_index by done. by rewrite Hemp.
    + by replace (Z.to_nat (capacity m1) - D)%nat with 0%nat by lia.
Qed.

(** ** Placing a key *)

(** A vacant slot claimed for a new key. *)
Definition claimed m (i : Z) (k : K) (v : V) : SharedHashMap K V :=
  with_counts (u64 (count (header m) + 1))
    (if state (slot m i) =? SLOT_TOMBSTONE then tombstones (header m) - 1 else tombstones (header m))
    (removals (header m))
    (set_slot i (MkSlot SLOT_OCCUPIED (bump_version (slot m i)) (hash_key k) (k, v)) m).

Lemma tomb_counted m i : wf m → 0 ≤ i < capacity m → is_tomb (slot m i) → 0 < tombstones (header m).
Proof.
  intros Hw Hi Ht. rewrite wf_tombs by done. eapply countP_pos; [|done].
  eapply list_elem_of_lookup_2. by apply slot_lookup; [apply Hw|].
Qed.

Lemma claim_eq m i k v :
  wf m → 0 ≤ i < capacity m → state (slot m i) ≠ SLOT_OCCUPIED →
  claim i (state (slot m i)) (removals (header m)) (hash_key k) k v m = Some (claimed m i k v, ClaimPlaced).
Proof.
  intros Hw Hi Hst. pose proof (wf_good _ Hw) as Hg. unfold claim. rewrite Z.eqb_refl. cbn [negb].
  unfold claimed. destruct (Z.eqb_spec (state (slot m i)) SLOT_TOMBSTONE) as [Et|Et].
  - pose proof (tomb_counted m i Hw Hi Et) as Hpos.
    change (removals (header (store_hash _ _ _))) with (removals (header m)). rewrite Z.eqb_refl. cbn [negb].
    unfold publish_claimed, write_payload. rewrite lock_slot_even.
    2:{ slot_norm. cbn. by apply wf_even. }
    cbn [mbind option_bind]. unfold unlock_slot. slot_norm. unfold release_tombstone.
    change (tombstones (header (with_counts ?c ?t ?r ?mm))) with t. cbn [version].
    change (tombstones (header (set_slot ?c ?t m))) with (tombstones (header m)).
    destruct (Z.eqb_spec (tombstones (header m)) 0); [lia|]. done.
  - change (removals (header (store_state _ _ _))) with (removals (header m)). rewrite Z.eqb_refl. cbn [negb].
    unfold publish_claimed, write_payload. rewrite lock_slot_even.
    2:{ slot_norm. cbn. by apply wf_even. }
    cbn [mbind option_bind]. unfold unlock_slot. slot_norm.
Qed.

Lemma claimed_spec m d k v :
  wf m → absent m k → 0 ≤ d < capacity m →
  (∀ d', 0 ≤ d' < d → state (slot m (pos m k d')) ≠ SLOT_EMPTY) →
  state (slot m (pos m k d)) ≠ SLOT_OCCUPIED →
  wf (claimed m (pos m k d) k v) ∧ contents (claimed m (pos m k d) k v) = <[k := v]> (contents m).
Proof.
  intros Hw Ha Hd Hne Hst. pose proof (wf_good _ Hw) as Hg. set (i := pos m k d) in *.
  assert (0 ≤ i < capacity m) as Hi by apply (pos_bound m Hg).
  assert (upd m i (MkSlot SLOT_OCCUPIED (bump_version (slot m i)) (hash_key k) (k, v)) (claimed m i k v)) as Hu by done.
  assert (wf (claimed m i k v)) as Hw'.
  { pose proof (slots_disjoint m) as Hdj. pose proof (countP_bound is_tomb (slots m)).
    pose proof (countP_bound is_occ (slots m)). destruct Hg as [Hc Hl] eqn:Eg.
    eapply upd_wf; try done.
    - by left.
    - apply bump_even. by apply wf_even.
    - intros k' v' _ [= <- <-]. split_and!; [done|intros j w _; apply Ha|].
      intros d' Hd'. apply Hne. unfold i in Hd'. by rewrite (dist_pos m Hg) in Hd'.
    - erewrite countP_upd by done. change (count (header (claimed m i k v))) with (u64 (count (header m) + 1)).
      rewrite (wf_count _ Hw), (wrap_small 64) by lia. count_cases.
    - erewrite countP_upd by done.
      change (tombstones (header (claimed m i k v))) with
        (if state (slot m i) =? SLOT_TOMBSTONE then tombstones (header m) - 1 else tombstones (header m)).
      rewrite (wf_tombs _ Hw). destruct (Z.eqb_spec (state (slot m i)) SLOT_TOMBSTONE); count_cases. }
  split; [done|]. apply map_eq. intros k'. apply option_eq. intros v'.
  rewrite contents_Some by done. setoid_rewrite (upd_entry m i _ _ _ _ _ Hu Hg Hi). cbn.
  destruct (decide (k' = k)) as [->|Hk].
  - rewrite lookup_insert_eq. split.
    + intros (j & [(_ & _ & [= ->])|(Hj & Hej)]); [done|]. by destruct (Ha j v').
    + intros [= ->]. exists i. by left.
  - rewrite lookup_insert_ne, contents_Some by done. split.
    + intros (j & [(_ & _ & [= -> _])|(Hj & Hej)]); [done|]. by exists j.
    + intros (j & Hej). exists j. right. split; [|done]. intros ->. by destruct Hej as (_ & Ho & _).
Qed.

(** The first tombstone among the first [d] slots of the probe sequence. *)
Definition first_tomb m (k : K) (d : nat) (ft : option Z) : Prop :=
  match ft with
  | None => ∀ d', (d' < d)%nat → ¬ is_tomb (slot m (pos m k (Z.of_nat d')))
  | Some t => ∃ d', (d' < d)%nat ∧ t = pos m k (Z.of_nat d') ∧ is_tomb (slot m t)
  end.

Lemma first_tomb_step m k d ft :
  first_tomb m k d ft →
  first_tomb m k (S d) (if decide (is_tomb (slot m (pos m k (Z.of_nat d))))
                        then Some (default (pos m k (Z.of_nat d)) ft) else ft).
Proof.
  intros Hf. case_decide as Ht; destruct ft as [t|]; cbn in *.
  - destruct Hf as (d' & Hd' & -> & Ht'). exists d'. split; [lia|done].
  - exists d. split; [lia|done].
  - destruct Hf as (d' & Hd' & -> & Ht'). exists d'. split; [lia|done].
  - intros d' Hd'. destruct (decide (d' = d)) as [->|]; [done|]. apply Hf. lia.
Qed.

Lemma eqv_first_tomb m m' k d ft : eqv m m' → good m → first_tomb m k d ft → first_tomb m' k d ft.
Proof.
  intros He Hg. destruct ft as [t|]; cbn.
  - intros (d' & Hd' & -> & Ht). exists d'. split; [done|]. split; [by rewrite (eqv_pos m m')|].
    unfold is_tomb. by destruct (eqv_slot m m' He _ (pos_bound m Hg k (Z.of_nat d'))) as (-> & _).
  - intros Hn d' Hd'. rewrite (eqv_pos m m') by done. unfold is_tomb.
    destruct (eqv_slot m m' He _ (pos_bound m Hg k (Z.of_nat d'))) as (-> & _). by apply Hn.
Qed.

(** A slot that holds another key: [present] says so, whichever way it reads. *)
Lemma present_passed m i k v overwrite :
  wf m → 0 ≤ i < capacity m → state (slot m i) = SLOT_OCCUPIED → (payload (slot m i)).1 ≠ k →
  published_hash i m = Some (hash (slot m i)) → hash (slot m i) ≠ HASH_UNSET →
  ∃ m', present i (hash_key k) k v overwrite m = Some (m', Elsewhere) ∧ eqv m m'.
Proof.
  intros Hw Hi Ho Hk Eh Hh. unfold present. rewrite Eh. cbn.
  apply Z.eqb_neq in Hh as ->. destruct (_ =? hash_key k); cbn; [|by exists m].
  destruct overwrite; cbn.
  - destruct (lock_passed m k i Hw Hi Ho Hk) as (held & m1 & k' & w & -> & E & Hk' & He & Ew).
    cbn. rewrite E, decide_False by done. by eexists.
  - unfold read_payload. rewrite (wf_even _ Hw _ Hi). cbn. destruct (payload (slot m i)) as [k' w].
    cbn in *. rewrite decide_False by done. by exists m.
Qed.

(** The slot that holds the key. *)
Lemma present_entry m i k v w (overwrite : bool) :
  wf m → entry m i k w →
  present i (hash_key k) k v overwrite m =
    Some (if overwrite then overwritten m i k v else m, Here w).
Proof.
  intros Hw He. pose proof He as (Hi & Ho & Ep). pose proof (wf_good _ Hw) as Hg. unfold present.
  rewrite (entry_published m i k w) by done. cbn. pose proof (hash_key_pos k).
  destruct (Z.eqb_spec (hash_key k) HASH_UNSET); [unfold HASH_UNSET in *; lia|]. rewrite Z.eqb_refl. cbn.
  destruct overwrite; cbn.
  - destruct (lock_entry m k i w Hw He) as (-> & E1 & E2). cbn. rewrite E1, decide_True, E2 by done. cbn.
    by rewrite overwritten_eq.
  - unfold read_payload. rewrite (wf_even _ Hw _ Hi). cbn. rewrite Ep. by rewrite decide_True.
Qed.

(** The loop of [probe_once] as a function of the table and the tombstone seen. *)
Definition probing (k : K) (v : V) (overwrite : bool) (offs : list nat) (x : SharedHashMap K V * option Z) :=
  probe_loop offs (removals (header x.1)) (hash_key k) (wrap_idx x.1 (hash_key k)) k v overwrite x.2 x.1.

Lemma probing_skip m k v overwrite d offs ft :
  wf m → passes m k (pos m k (Z.of_nat d)) → first_tomb m k d ft →
  ∃ m' ft', eqv m m' ∧ first_tomb m' k (S d) ft' ∧
    probing k v overwrite (d :: offs) (m, ft) = probing k v overwrite offs (m', ft').
Proof.
  intros Hw Hp Hf. pose proof (wf_good _ Hw) as Hg. pose proof (pos_bound m Hg k (Z.of_nat d)) as Hb.
  pose proof (first_tomb_step m k d ft Hf) as Hf'. unfold probing. cbn [probe_loop fst snd].
  rewrite probe_index by done.
  destruct (passes_cases m k _ Hw Hb Hp) as [Et|(Eo & Eh & Hh & Hk)].
  { rewrite decide_True in Hf' by done. eexists m, _. split; [done|]. split; [exact Hf'|]. by rewrite Et. }
  rewrite decide_False in Hf' by (unfold is_tomb; by rewrite Eo). rewrite Eo. cbn.
  destruct (present_passed m _ k v overwrite Hw Hb Eo Hk Eh Hh) as (m' & -> & He). cbn.
  exists m', ft. split; [done|]. split; [by eapply eqv_first_tomb|].
  unfold wrap_idx. by rewrite (eqv_hdr _ _ He), (eqv_cap _ _ He).
Qed.

(** The result of a probe, by what the table holds. *)
Definition placed (σ : gmap K V) (cap : Z) (k : K) (v : V) (overwrite : bool) : gmap K V * Probe V :=
  match σ !! k with
  | Some w => (if overwrite then <[k := v]> σ else σ, PlacedP (Existing w))
  | None => if Z.of_nat (size σ) <? cap then (<[k := v]> σ, PlacedP New) else (σ, FullP)
  end.

Lemma size_bound m : wf m → Z.of_nat (size (contents m)) ≤ capacity m.
Proof.
  intros Hw. rewrite contents_size, wf_count by done. destruct (wf_good _ Hw) as [Hc Hl].
  pose proof (countP_bound is_occ (slots m)). lia.
Qed.

(** A table with a slot that is not occupied has room. *)
Lemma has_room m i :
  wf m → 0 ≤ i < capacity m → state (slot m i) ≠ SLOT_OCCUPIED → Z.of_nat (size (contents m)) < capacity m.
Proof.
  intros Hw Hi Hst. pose proof (size_bound m Hw).
  destruct (decide (Z.of_nat (size (contents m)) = capacity m)) as [E|]; [|lia].
  rewrite contents_size, wf_count in E by done. destruct Hst. pose proof (wf_good _ Hw) as Hg.
  apply (countP_all is_occ (slots m)); [destruct Hg; lia|].
  eapply list_elem_of_lookup_2. by apply slot_lookup.
Qed.

Lemma all_occupied m :
  good m → (∀ i, 0 ≤ i < capacity m → is_occ (slot m i)) → countP is_occ (slots m) = capacity m.
Proof.
  intros [Hc Hl] Hall. assert (Forall is_occ (slots m)) as Hf.
  { apply Forall_lookup_2. intros i s Hi. pose proof (lookup_lt_Some _ _ _ Hi).
    pose proof (Hall (Z.of_nat i) ltac:(lia)) as Ho. unfold slot in Ho.
    by rewrite Nat2Z.id, (list_lookup_total_correct _ _ _ Hi) in Ho. }
  rewrite <- (Z2Nat.id (capacity m)), <- Hl by lia. by apply countP_Forall.
Qed.

(** Claiming a vacant slot of the probe sequence. *)
Lemma claim_places m k v d :
  wf m → contents m !! k = None → 0 ≤ d < capacity m →
  (∀ d', 0 ≤ d' < d → state (slot m (pos m k d')) ≠ SLOT_EMPTY) →
  state (slot m (pos m k d)) ≠ SLOT_OCCUPIED →
  ∃ m', claim (pos m k d) (state (slot m (pos m k d))) (removals (header m)) (hash_key k) k v m =
      Some (m', ClaimPlaced) ∧
    wf m' ∧ capacity m' = capacity m ∧ tombstones (header m') ≤ tombstones (header m) ∧
    contents m' = <[k := v]> (contents m) ∧
    Z.of_nat (size (contents m)) < capacity m.
Proof.
  intros Hw Hc Hd Hne Hst. pose proof (pos_bound m (wf_good _ Hw) k d) as Hb. eexists.
  split; [by apply claim_eq|].
  destruct (claimed_spec m d k v) as [Hw' Ec]; [done|by apply contents_None|done..|].
  split; [done|]. split; [done|]. split; [|split; [done|by apply (has_room m (pos m k d))]].
  unfold claimed. cbn. destruct (_ =? SLOT_TOMBSTONE); lia.
Qed.

(** A probe that ends without the key and with a tombstone seen takes it. *)
Lemma claim_first_tomb m k v D t :
  wf m → contents m !! k = None → Z.of_nat D ≤ capacity m →
  (∀ d, (d < D)%nat → passes m k (pos m k (Z.of_nat d))) → first_tomb m k D (Some t) →
  ∃ m', claim t SLOT_TOMBSTONE (removals (header m)) (hash_key k) k v m = Some (m', ClaimPlaced) ∧
    wf m' ∧ capacity m' = capacity m ∧ tombstones (header m') ≤ tombstones (header m) ∧
    contents m' = <[k := v]> (contents m) ∧
    Z.of_nat (size (contents m)) < capacity m.
Proof.
  intros Hw Hc HD Hp (d & Hd & -> & Ht). rewrite <- Ht.
  apply claim_places; [done|done|lia| |by rewrite Ht].
  intros d' Hd'. rewrite <- (Z2Nat.id d') by lia. apply Hp. lia.
Qed.

Lemma probing_ends m k v overwrite D ft :
  wf m → search m k D → (∀ d, (d < D)%nat → passes m k (pos m k (Z.of_nat d))) → first_tomb m k D ft →
  ∃ m', probing k v overwrite (seq D (Z.to_nat (capacity m) - D)) (m, ft) =
      Some (m', (placed (contents m) (capacity m) k v overwrite).2) ∧
    wf m' ∧ capacity m' = capacity m ∧ tombstones (header m') ≤ tombstones (header m) ∧
    contents m' = (placed (contents m) (capacity m) k v overwrite).1.
Proof.
  intros Hw Hs Hp Hf. pose proof (wf_good _ Hw) as Hg. pose proof (search_bound m k D Hg Hs) as HDb.
  unfold placed, probing. cbn [fst snd].
  destruct (search_contents m k D Hw Hs) as [(HD & w & Hent & Ec)|(Ec & [[HD Hemp]|HD])]; rewrite Ec.
  - rewrite seq_at by done. cbn [probe_loop]. rewrite probe_index by done.
    pose proof Hent as (Hb & Eo & Ep). rewrite Eo. cbn.
    rewrite (present_entry m _ k v w) by done. cbn. eexists. split; [done|].
    destruct overwrite; [|done]. destruct (overwritten_spec m _ k w v Hw Hent). done.
  - rewrite seq_at by done. cbn [probe_loop]. rewrite probe_index, Hemp by done. cbn [Z.eqb SLOT_EMPTY].
    destruct ft as [t|].
    + destruct (claim_first_tomb m k v D t) as (m' & -> & Hw' & C & Ht & E' & Hsz); [done|done|lia|done..|].
      apply Z.ltb_lt in Hsz as ->. cbn. by exists m'.
    + pose proof (pos_bound m Hg k (Z.of_nat D)).
      destruct (claim_places m k v (Z.of_nat D)) as (m' & E' & Hw' & C & Ht & Ec' & Hsz); [done|done|lia| |by rewrite Hemp|].
      { intros d' Hd'. rewrite <- (Z2Nat.id d') by lia. apply Hp. lia. }
      rewrite Hemp in E'. change (if 0 =? 0 then ?a else _) with a. unfold SLOT_EMPTY in E' |- *. rewrite E'.
      apply Z.ltb_lt in Hsz as ->. cbn. by exists m'.
  - replace (Z.to_nat (capacity m) - D)%nat with 0%nat by lia. cbn [probe_loop seq]. destruct ft as [t|].
    + destruct (claim_first_tomb m k v D t) as (m' & -> & Hw' & C & Ht & E' & Hsz); [done|done|lia|done..|].
      apply Z.ltb_lt in Hsz as ->. cbn. by exists m'.
    + exists m. assert (Z.of_nat (size (contents m)) = capacity m) as Hfull.
      { rewrite contents_size, wf_count by done. apply all_occupied; [done|]. intros i Hi.
        pose proof (dist_bound m Hg k i) as Hdb. rewrite <- (pos_dist m Hg k i Hi), <- (Z2Nat.id (dist m k i)) by lia.
        assert (Z.to_nat (dist m k i) < D)%nat as Hlt by lia. destruct (Hp _ Hlt) as [Hne _].
        pose proof (Hf _ Hlt) as Hnt. unfold is_tomb in Hnt.
        destruct (wf_state _ Hw _ (pos_bound m Hg k (Z.of_nat (Z.to_nat (dist m k i))))) as [|[]]; done. }
      rewrite Hfull, Z.ltb_irrefl. done.
Qed.

Lemma probe_once_spec m k v overwrite :
  wf m → ∃ m', probe_once (hash_key k) (wrap_idx m (hash_key k)) k v overwrite m =
      Some (m', (placed (contents m) (capacity m) k v overwrite).2) ∧
    wf m' ∧ capacity m' = capacity m ∧ tombstones (header m') ≤ tombstones (header m) ∧
    contents m' = (placed (contents m) (capacity m) k v overwrite).1.
Proof.
  intros Hw. pose proof (wf_good _ Hw) as Hg0. destruct (search_ends m k Hw) as (D & Hs & Hp).
  pose proof (search_bound m k D Hg0 Hs) as HDb.
  destruct (skip_to (probing k v overwrite)
    (λ d x, eqv m x.1 ∧ first_tomb x.1 k d x.2) D (Z.to_nat (capacity m) - D) (m, None)) as ([m1 ft] & [He Hf] & E).
  { split; [done|]. intros ? ?. lia. }
  { intros d offs [m1 ft] Hd [He Hf]. cbn [fst snd] in *.
    destruct (probing_skip m1 k v overwrite d offs ft) as (m2 & ft' & He2 & Hf2 & E2).
    - by eapply eqv_wf.
    - eapply eqv_passes; [done..|]. by apply Hp.
    - done.
    - exists (m2, ft'). split; [|done]. split; [by etrans|done]. }
  cbn [fst snd] in He, Hf. unfold probe_once. rewrite (offsets_split m D) by done.
  change (probe_loop ?o _ _ _ k v overwrite None m) with (probing k v overwrite o (m, None)). rewrite E.
  rewrite <- (eqv_contents m m1), <- (eqv_cap m m1), <- (eqv_hdr m m1) by done.
  apply probing_ends; [by eapply eqv_wf| |intros d Hd; eapply eqv_passes; [done..|]; by apply Hp|done].
  by eapply eqv_search.
Qed.

(** One probe is enough when no other caller interferes. *)
Definition place_result (p : Probe V) : res MapError (Placed V) :=
  match p with PlacedP p => Ok p | _ => Err Full end.

Lemma place_spec fuel m k v overwrite :
  wf m → ∃ m', place (S fuel) k v overwrite m =
      Some (m', place_result (placed (contents m) (capacity m) k v overwrite).2) ∧
    wf m' ∧ capacity m' = capacity m ∧ tombstones (header m') ≤ tombstones (header m) ∧
    contents m' = (placed (contents m) (capacity m) k v overwrite).1.
Proof.
  intros Hw. destruct (probe_once_spec m k v overwrite Hw) as (m' & E & Hr). exists m'. split; [|done].
  unfold place. cbn [place_loop]. rewrite E. cbn. unfold placed.
  destruct (contents m !! k); [done|]. by destruct (_ <? _).
Qed.
End updates.

(** * The whole table *)

Section whole.
Context {K V : Type} `{Countable K, Inhabited K, Inhabited V} `{!MapBytes K V}.
Implicit Types (m : SharedHashMap K V) (s : MapSlot K V).

Lemma clear_slot m i :
  good m → 0 ≤ i < capacity m →
  slot (clear m) i = MkSlot SLOT_EMPTY (version (slot m i)) (hash (slot m i)) (payload (slot m i)).
Proof.
  intros Hg Hi. unfold slot at 1, clear. cbn. erewrite list_lookup_total_correct; [done|].
  rewrite list_lookup_imap, slot_lookup by done. cbn. by rewrite bool_decide_eq_true_2 by lia.
Qed.

Lemma countP_none (P : MapSlot K V → Prop) `{∀ s, Decision (P s)} m :
  good m → (∀ i, 0 ≤ i < capacity m → ¬ P (slot m i)) → countP P (slots m) = 0.
Proof.
  intros [Hc Hl] Hn. pose proof (countP_bound P (slots m)).
  destruct (decide (countP P (slots m) = 0)) as [|Hne]; [done|]. unfold countP in *.
  destruct (filter P (slots m)) as [|s l] eqn:E; [done|].
  assert (s ∈ filter P (slots m)) as Hs by (rewrite E; apply elem_of_cons; by left).
  apply list_elem_of_filter in Hs as [HP Hs]. apply list_elem_of_lookup in Hs as [i Hi].
  pose proof (lookup_lt_Some _ _ _ Hi). destruct (Hn (Z.of_nat i)); [lia|].
  unfold slot. by rewrite Nat2Z.id, (list_lookup_total_correct _ _ _ Hi).
Qed.

Lemma clear_spec m :
  wf m → wf (clear m) ∧ contents (clear m) = ∅ ∧ capacity (clear m) = capacity m ∧ tombstone_count (clear m) = 0.
Proof.
  intros Hw. pose proof (wf_good _ Hw) as Hg. destruct Hg as [Hc Hl] eqn:Eg.
  assert (good (clear m)) as Hg' by (split; [done|]; cbn; by rewrite length_imap).
  assert (∀ i k v, ¬ entry (clear m) i k v) as Hno.
  { intros i k v (Hi & Ho & _). by rewrite clear_slot in Ho. }
  assert (wf (clear m)) as Hw'.
  { split; try done.
    - intros i Hi. rewrite clear_slot by done. by left.
    - intros i Hi. rewrite clear_slot by done. by apply (wf_even m Hw).
    - intros ??? He. by destruct (Hno _ _ _ He).
    - intros ????? He. by destruct (Hno _ _ _ He).
    - intros ???? He. by destruct (Hno _ _ _ He).
    - symmetry. apply countP_none; [done|]. intros i Hi. unfold is_occ. by rewrite clear_slot.
    - symmetry. apply countP_none; [done|]. intros i Hi. unfold is_tomb. by rewrite clear_slot. }
  split_and!; try done. apply map_empty. intros k. apply contents_None; [done|]. intros i v. apply Hno.
Qed.

Lemma collect_spec (keep : MapSlot K V → bool) m :
  wf m → (∀ i, 0 ≤ i < capacity m → keep (slot m i) = bool_decide (is_occ (slot m i))) →
  collect keep (offsets m) m = Some (pairs m).
Proof.
  intros Hw Hk. pose proof (wf_good _ Hw) as [Hc Hl]. unfold offsets, pairs. rewrite <- Hl.
  assert (∀ n j, (j + n = length (slots m))%nat →
    collect keep (seq j n) m = Some (payload <$> filter is_occ (drop j (slots m)))) as Hs.
  { induction n as [|n IH]; intros j Hj.
    - cbn. by rewrite drop_ge by lia.
    - cbn [seq collect]. rewrite (drop_S (slots m) (slot m (Z.of_nat j)) j).
      2:{ rewrite <- (Nat2Z.id j) at 1. apply slot_lookup; [by apply Hw|lia]. }
      rewrite Hk, filter_cons by lia. rewrite IH by lia.
      destruct (decide (is_occ (slot m (Z.of_nat j)))).
      + rewrite bool_decide_eq_true_2 by done. unfold read_payload.
        rewrite (wf_even m Hw) by lia. done.
      + by rewrite bool_decide_eq_false_2 by done. }
  by rewrite (Hs (length (slots m)) 0%nat).
Qed.

Lemma occupied_slot_spec s : occupied_slot s = bool_decide (is_occ s).
Proof. unfold occupied_slot, is_occ. by destruct (Z.eqb_spec (state s) SLOT_OCCUPIED); case_bool_decide. Qed.

Lemma snapshot_spec m : wf m → snapshot m = Some (pairs m).
Proof.
  intros Hw. apply collect_spec; [done|]. intros i Hi. rewrite occupied_slot_spec.
  case_bool_decide as Ho; [|done]. cbn.
  rewrite (wf_hash m Hw i (payload (slot m i)).1 (payload (slot m i)).2).
  - pose proof (hash_key_pos (payload (slot m i)).1).
    destruct (Z.eqb_spec (hash_key (payload (slot m i)).1) HASH_UNSET); [unfold HASH_UNSET in *; lia|done].
  - split; [done|]. split; [done|]. by destruct (payload (slot m i)).
Qed.

(** Inserting pairs that fit: no [Full], and no tombstone is made. *)
Lemma reinsert_spec fuel live m :
  wf m → Z.of_nat (size (contents m)) + Z.of_nat (length live) ≤ capacity m →
  ∃ m', reinsert (S fuel) live m = Some (m', Ok tt) ∧ wf m' ∧ capacity m' = capacity m ∧
    tombstones (header m') ≤ tombstones (header m) ∧
    contents m' = foldl (λ σ p, <[p.1 := p.2]> σ) (contents m) live.
Proof.
  revert m. induction live as [|[k v] live IH]; intros m Hw Hsz; [by exists m|]. cbn [length] in Hsz.
  destruct (place_spec fuel m k v true Hw) as (m1 & E & Hw1 & C1 & T1 & Ec1).
  assert ((placed (contents m) (capacity m) k v true).1 = <[k := v]> (contents m) ∧
    ∃ p, place_result (placed (contents m) (capacity m) k v true).2 = Ok p) as [Ep [p Er]].
  { unfold placed. destruct (contents m !! k); [by eauto|].
    rewrite (proj2 (Z.ltb_lt _ _)) by lia. by eauto. }
  rewrite Ep in Ec1. rewrite Er in E. destruct (IH m1 Hw1) as (m2 & E2 & Hw2 & C2 & T2 & Ec2).
  { rewrite C1, Ec1. destruct (contents m !! k) eqn:Ek.
    - rewrite map_size_insert_Some by (by rewrite Ek). lia.
    - rewrite map_size_insert_None by done. lia. }
  exists m2. cbn [reinsert]. unfold insert. rewrite E. cbn. split; [done|]. split_and!; [done|congruence|lia|].
  by rewrite Ec2, Ec1.
Qed.

Lemma foldl_insert (l : list (K * V)) : NoDup l.*1 →
  foldl (λ σ p, <[p.1 := p.2]> σ) ∅ l = (list_to_map l : gmap K V).
Proof.
  induction l as [|[k v] l IH] using rev_ind; [done|]. rewrite fmap_app, foldl_app. cbn.
  intros (Hn & Hk & _)%NoDup_app. rewrite list_to_map_snoc, IH; [done..|].
  intros Hin. destruct (Hk k Hin). by apply elem_of_cons; left.
Qed.

Lemma reclaimed_spec m : wf m →
  Z.of_nat (length (filter (λ i, state (slot m (Z.of_nat i)) = SLOT_TOMBSTONE) (offsets m))) = tombstone_count m.
Proof.
  intros Hw. unfold tombstone_count. rewrite wf_tombs by done. pose proof (wf_good _ Hw) as [Hc Hl].
  unfold countP, offsets. f_equal. rewrite <- Hl.
  assert (∀ n j, (j + n = length (slots m))%nat →
    length (filter (λ i, state (slot m (Z.of_nat i)) = SLOT_TOMBSTONE) (seq j n)) =
    length (filter is_tomb (drop j (slots m)))) as Hs.
  { induction n as [|n IH]; intros j Hj; [by rewrite drop_ge by lia|]. cbn [seq].
    rewrite (drop_S (slots m) (slot m (Z.of_nat j)) j), !filter_cons.
    2:{ rewrite <- (Nat2Z.id j) at 1. apply slot_lookup; [by apply Hw|lia]. }
    pose proof (IH (S j) ltac:(lia)). unfold is_tomb at 1. repeat case_decide; cbn [length]; lia || done. }
  by rewrite (Hs (length (slots m)) 0%nat).
Qed.

(** [compact] keeps every pair, reports the tombstones there were, and leaves none. *)
Lemma compact_spec fuel m :
  wf m → ∃ m', compact (S fuel) m = Some (m', Ok (tombstone_count m)) ∧ wf m' ∧ capacity m' = capacity m ∧
    contents m' = contents m ∧ tombstone_count m' = 0.
Proof.
  intros Hw. destruct (clear_spec m Hw) as (Hw0 & Ec0 & C0 & T0). pose proof (size_bound m Hw) as Hsz.
  destruct (reinsert_spec fuel (pairs m) (clear m) Hw0) as (m' & E & Hw' & C' & T' & Ec').
  { rewrite Ec0, map_size_empty, C0. rewrite <- length_map_to_list, contents_list in Hsz by done. lia. }
  exists m'. split.
  - unfold compact. rewrite collect_spec by (done || (intros; apply occupied_slot_spec)).
    cbn [mbind option_bind]. rewrite E. cbn. by rewrite reclaimed_spec.
  - split; [done|]. split; [congruence|]. split.
    + rewrite Ec', Ec0. by apply foldl_insert, pairs_NoDup.
    + unfold tombstone_count in *. pose proof (countP_bound is_tomb (slots m')).
      pose proof (wf_tombs m' Hw'). lia.
Qed.

(** ** The calls of a client *)

Inductive mop :=
| MInsert (k : K) (v : V)
| MInsertIfAbsent (k : K) (v : V)
| MSwap (k : K) (v : V)
| MGet (k : K)
| MContains (k : K)
| MCas (k : K) (expected new : V)
| MRemove (k : K)
| MClear
| MCompact
| MSnapshot
| MLen.

Inductive mres :=
| RInsert (r : res MapError InsertOutcome)
| RPut (r : res MapError (option V))
| ROption (o : option V)
| RBool (b : bool)
| RCas (r : res MapError (unit + V))
| RUnit
| RReclaimed (r : res MapError Z)
| RPairs (l : list (K * V))
| RLen (n : Z).

(** A call with [fuel] probes allowed to [place]. *)
Definition map_call (fuel : nat) (op : mop) m : option (SharedHashMap K V * mres) :=
  let ret {A} (f : A → mres) (x : option (SharedHashMap K V * A)) :=
    match x with Some (m', a) => Some (m', f a) | None => None end in
  match op with
  | MInsert k v => ret RInsert (insert fuel k v m)
  | MInsertIfAbsent k v => ret RPut (insert_if_absent fuel k v m)
  | MSwap k v => ret RPut (swap fuel k v m)
  | MGet k => o ← get k m; Some (m, ROption o)
  | MContains k => b ← contains_key k m; Some (m, RBool b)
  | MCas k e n => ret RCas (compare_exchange k e n m)
  | MRemove k => ret ROption (remove k m)
  | MClear => Some (clear m, RUnit)
  | MCompact => ret RReclaimed (compact fuel m)
  | MSnapshot => l ← snapshot m; Some (m, RPairs l)
  | MLen => Some (m, RLen (len m))
  end.

(** What a map of capacity [cap] promises: the new contents and the result. *)
Definition put_result (σ : gmap K V) (cap : Z) (k : K) (v : V) (overwrite : bool) :
    gmap K V * res MapError (option V) :=
  match σ !! k with
  | Some w => (if overwrite then <[k := v]> σ else σ, Ok (Some w))
  | None => if Z.of_nat (size σ) <? cap then (<[k := v]> σ, Ok None) else (σ, Err Full)
  end.

Definition map_step (cap : Z) (σ : gmap K V) (e : mop * mres) (σ' : gmap K V) : Prop :=
  match e with
  | (MInsert k v, RInsert r) =>
      put_result σ cap k v true = (σ', (λ o, match o with Inserted => None | Updated => σ !! k end) <$> r) ∧
      (r = Ok Updated → is_Some (σ !! k))
  | (MInsertIfAbsent k v, RPut r) => put_result σ cap k v false = (σ', r)
  | (MSwap k v, RPut r) => put_result σ cap k v true = (σ', r)
  | (MGet k, ROption o) => σ' = σ ∧ o = σ !! k
  | (MContains k, RBool b) => σ' = σ ∧ b = bool_decide (is_Some (σ !! k))
  | (MCas k e n, RCas r) => cas_result σ k e n = (σ', r)
  | (MRemove k, ROption o) => σ' = delete k σ ∧ o = σ !! k
  | (MClear, RUnit) => σ' = ∅
  | (MCompact, RReclaimed r) => σ' = σ ∧ ∃ n, r = Ok n ∧ 0 ≤ n ≤ cap - Z.of_nat (size σ)
  | (MSnapshot, RPairs l) => σ' = σ ∧ l ≡ₚ map_to_list σ
  | (MLen, RLen n) => σ' = σ ∧ n = Z.of_nat (size σ)
  | _ => False
  end.

Lemma put_spec fuel m k v overwrite :
  wf m → ∃ m' p, place (S fuel) k v overwrite m = Some (m', p) ∧ wf m' ∧ capacity m' = capacity m ∧
    put_result (contents m) (capacity m) k v overwrite =
      (contents m', (λ p, match p with New => None | Existing e => Some e end) <$> p).
Proof.
  intros Hw. destruct (place_spec fuel m k v overwrite Hw) as (m' & E & Hw' & C' & _ & Ec').
  eexists m', _. split; [exact E|]. split; [done|]. split; [done|]. rewrite Ec'. unfold put_result, placed.
  destruct (contents m !! k); [done|]. by destruct (_ <? _).
Qed.

Lemma tombs_room m : wf m → 0 ≤ tombstone_count m ≤ capacity m - Z.of_nat (size (contents m)).
Proof.
  intros Hw. unfold tombstone_count. rewrite wf_tombs, contents_size, wf_count by done.
  pose proof (slots_disjoint m). pose proof (countP_bound is_tomb (slots m)).
  destruct (wf_good _ Hw). lia.
Qed.

(** Every call returns and does what the contract says. *)
Lemma map_call_refines fuel op m :
  wf m → ∃ m' r, map_call (S fuel) op m = Some (m', r) ∧ wf m' ∧ capacity m' = capacity m ∧
    map_step (capacity m) (contents m) (op, r) (contents m').
Proof.
  intros Hw. destruct op as [k v|k v|k v|k|k|k e n|k| | | |]; cbn [map_call map_step].
  - destruct (put_spec fuel m k v true Hw) as (m' & p & E & Hw' & C & Ep).
    unfold insert. rewrite E. cbn. do 2 eexists. split; [done|]. split; [done|]. split; [done|].
    rewrite Ep. unfold put_result in Ep. destruct p as [[|w]|e|]; cbn in *.
    + done.
    + destruct (contents m !! k) as [w'|]; [|by case_match]. simplify_eq. by eauto.
    + done.
    + done.
  - destruct (put_spec fuel m k v false Hw) as (m' & p & E & Hw' & C & Ep).
    unfold insert_if_absent. rewrite E. cbn. eauto 10.
  - destruct (put_spec fuel m k v true Hw) as (m' & p & E & Hw' & C & Ep).
    unfold swap. rewrite E. cbn. eauto 10.
  - rewrite get_spec by done. cbn. eauto 10.
  - rewrite contains_key_spec by done. cbn. eauto 10.
  - destruct (compare_exchange_spec m k e n Hw) as (m' & E & Hw' & C & Ec). rewrite E. cbn.
    do 2 eexists. split; [done|]. split; [done|]. split; [done|]. rewrite Ec. by destruct (cas_result _ _ _ _).
  - destruct (remove_spec m k Hw) as (m' & E & Hw' & C & Ec). rewrite E. cbn. eauto 10.
  - destruct (clear_spec m Hw) as (Hw' & Ec & C & _). eauto 10.
  - destruct (compact_spec fuel m Hw) as (m' & E & Hw' & C & Ec & _). rewrite E. cbn.
    do 2 eexists. split; [done|]. split; [done|]. split; [done|]. split; [done|].
    eexists. split; [done|]. by apply tombs_room.
  - rewrite snapshot_spec by done. cbn. do 2 eexists. split; [done|]. split; [done|]. split; [done|].
    split; [done|]. by rewrite contents_list.
  - do 2 eexists. split; [done|]. split; [done|]. split; [done|]. split; [done|].
    by rewrite contents_size.
Qed.

Fixpoint map_run (fuel : nat) (ops : list mop) m : option (SharedHashMap K V * list mres) :=
  match ops with
  | [] => Some (m, [])
  | op :: ops =>
      match map_call fuel op m with
      | Some (m1, r) => match map_run fuel ops m1 with Some (m2, rs) => Some (m2, r :: rs) | None => None end
      | None => None
      end
  end.

Lemma map_run_refines fuel ops m :
  wf m → ∃ m' rs, map_run (S fuel) ops m = Some (m', rs) ∧ wf m' ∧ capacity m' = capacity m ∧
    length rs = length ops ∧ ltrace (map_step (capacity m)) (contents m) (zip ops rs) (contents m').
Proof.
  revert m. induction ops as [|op ops IH]; intros m Hw; cbn.
  { exists m, []. split_and!; [done..|constructor]. }
  destruct (map_call_refines fuel op m Hw) as (m1 & r & E & Hw1 & C1 & Hst). rewrite E.
  destruct (IH m1 Hw1) as (m2 & rs & E2 & Hw2 & C2 & El & Ht). rewrite E2.
  exists m2, (r :: rs). cbn. split_and!; [done|done|congruence|by rewrite El|].
  econstructor; [done|]. by rewrite <- C1.
Qed.
End whole.
Arguments mop : clear implicits.
Arguments mres : clear implicits.

(** * Properties *)

Section properties.
Context {K V : Type} `{Countable K, Inhabited K, Inhabited V} `{!MapBytes K V}.
Implicit Types (m : SharedHashMap K V) (s : MapSlot K V).

(** The bytes [reset] leaves before the header is written: all zero, with room
    for [cap] slots. *)
Definition zeroed (r : map_mem K V) (cap : Z) : Prop :=
  mem_hdr r = MkMapHeader 0 0 0 0 0 0 0 ∧ length (mem_slots r) = Z.to_nat cap ∧
  Forall (λ s, state s = 0 ∧ version s = 0 ∧ hash s = 0) (mem_slots r).

Lemma reset_wf r cap m :
  zeroed r cap → 2 ≤ cap < 2 ^ 32 → reset (Ok r) cap = Ok m →
  wf m ∧ contents m = ∅ ∧ capacity m = cap.
Proof.
  intros (Hh & Hl & Hz) Hcap. unfold reset. destruct check_layout as [[]| |]; [|done..]. cbn.
  rewrite (proj2 (Z.leb_le 2 cap)) by lia. cbn. unfold from_region. cbn. rewrite !Z.eqb_refl. cbn.
  intros [= <-]. set (m := MkMap cap _).
  assert (good m) as Hg by done.
  assert (∀ i, 0 ≤ i < capacity m → state (slot m i) = 0 ∧ version (slot m i) = 0 ∧ hash (slot m i) = 0) as Hs.
  { intros i Hi. eapply (Forall_lookup_1 _ _ _ _ Hz). by apply (slot_lookup m). }
  assert (∀ i k v, ¬ entry m i k v) as Hno.
  { intros i k v (Hi & Ho & _). destruct (Hs i Hi) as (E & _). by rewrite E in Ho. }
  assert (wf m) as Hw.
  { split; try done.
    - intros i Hi. left. by apply Hs.
    - intros i Hi. destruct (Hs i Hi) as (_ & -> & _). done.
    - intros ??? He. by destruct (Hno _ _ _ He).
    - intros ????? He. by destruct (Hno _ _ _ He).
    - intros ???? He. by destruct (Hno _ _ _ He).
    - cbn. rewrite Hh. symmetry. apply (countP_none is_occ m); [done|]. intros i Hi.
      unfold is_occ. by destruct (Hs i Hi) as (-> & _).
    - cbn. rewrite Hh. symmetry. apply (countP_none is_tomb m); [done|]. intros i Hi.
      unfold is_tomb. by destruct (Hs i Hi) as (-> & _). }
  split_and!; [done| |done]. apply map_empty. intros k. apply contents_None; [done|]. intros i v. apply Hno.
Qed.

(** C10: a freshly created hash map, under any sequence of calls by one caller at
    a time, is a finite map of bounded size: every call returns (no probe loop
    or SeqLock spin runs on), with the result the contract [map_step] gives on
    the map's contents.  [insert], [swap] and [insert_if_absent] fail with
    [Full] exactly when the key is new and [capacity] keys are present, however
    many tombstones removals left; [get], [contains_key], [remove] and
    [compare_exchange] find every key wherever collisions moved it; [compact]
    keeps the contents; [snapshot] lists them once each and [len] counts them. *)
Theorem hash_map_refines_map (r : map_mem K V) cap m fuel ops :
  zeroed r cap → 2 ≤ cap < 2 ^ 32 → reset (Ok r) cap = Ok m →
  ∃ m' rs, map_run (S fuel) ops m = Some (m', rs) ∧ length rs = length ops ∧
    ltrace (map_step cap) ∅ (zip ops rs) (contents m') ∧ wf m'.
Proof.
  intros Hz Hcap Hr. destruct (reset_wf r cap m Hz Hcap Hr) as (Hw & Ec & C).
  destruct (map_run_refines fuel ops m Hw) as (m' & rs & E & Hw' & _ & El & Ht).
  rewrite Ec, C in Ht. eauto 10.
Qed.

(** [compact] returns the number of tombstones, keeps every pair, leaves no
    tombstone, and afterwards a search passes occupied slots only. *)
Lemma hash_map_compact (fuel : nat) m :
  wf m → ∃ m', compact (S fuel) m = Some (m', Ok (tombstone_count m)) ∧ wf m' ∧
    contents m' = contents m ∧ len m' = len m ∧ tombstone_count m' = 0 ∧
    (∀ i, 0 ≤ i < capacity m → state (slot m' i) = SLOT_EMPTY ∨ state (slot m' i) = SLOT_OCCUPIED).
Proof.
  intros Hw. destruct (compact_spec fuel m Hw) as (m' & E & Hw' & C & Ec & T).
  exists m'. split_and!; try done.
  - unfold len. by rewrite <- !contents_size, Ec.
  - intros i Hi. rewrite <- C in Hi. destruct (wf_state m' Hw' i Hi) as [|[|Ht]]; [tauto..|].
    pose proof (tomb_counted m' i Hw' Hi Ht). unfold tombstone_count in T. lia.
Qed.

(** [clear] empties a slot without resetting its cached hash, and an insert
    that claims an empty slot marks it occupied before it writes its own
    payload: a [get] of the key the slot held before the [clear], arriving
    between those two stores, takes the stale hash for a published one and
    returns the cleared value. *)
Lemma hash_map_stale_after_clear m i k v :
  wf m → entry m i k v → dist m k i = 0 →
  get k (clear m) = Some None ∧ get k (store_state i SLOT_OCCUPIED (clear m)) = Some (Some v).
Proof.
  intros Hw He Hd. pose proof (wf_good _ Hw) as Hg. destruct (clear_spec m Hw) as (Hw0 & Ec & C & _).
  split; [by rewrite get_spec, Ec by done|].
  set (m1 := store_state i SLOT_OCCUPIED (clear m)).
  pose proof He as (Hi & Ho & Ep). pose proof (wf_good _ Hw0) as Hg0.
  assert (good m1) as Hg1 by (by apply good_set_slot).
  assert (slot m1 i = MkSlot SLOT_OCCUPIED (version (slot m i)) (hash (slot m i)) (k, v)) as Es.
  { unfold m1, store_state. rewrite slot_set_here, clear_slot by done. cbn. by rewrite Ep. }
  assert (pos m1 k (Z.of_nat 0) = i) as Epos.
  { rewrite <- (pos_dist m Hg k i Hi). by rewrite Hd. }
  unfold get, offsets. destruct (Z.to_nat (capacity m1)) eqn:En; [destruct Hg1; lia|].
  cbn [seq get_loop]. rewrite probe_index, Epos by done. rewrite Es. cbn [state Z.eqb].
  unfold published_hash, read_payload. rewrite Es. cbn [hash version payload].
  rewrite (wf_hash m Hw i k v He), (wf_even m Hw i Hi). pose proof (hash_key_pos k).
  destruct (Z.eqb_spec (hash_key k) HASH_UNSET); [unfold HASH_UNSET in *; lia|]. cbn.
  by rewrite Z.eqb_refl, decide_True.
Qed.
End properties.

(** ** Witnesses *)

(** [SharedHashMap<u32, u32>]. *)
Definition u32_bytes (x : Z) : list Z := [u8 x; u8 (Z.shiftr x 8); u8 (Z.shiftr x 16); u8 (Z.shiftr x 24)].
#[export] Instance u32_map : MapBytes Z Z :=
  {| key_bytes := u32_bytes; value_bytes := u32_bytes; size_of_key := 4; size_of_value := 4 |}.

Definition zeros3 : map_mem Z Z :=
  MkMem 256 (MkMapHeader 0 0 0 0 0 0 0) (replicate 3 (MkSlot 0 0 0 (0, 0))).
Definition map3 : SharedHashMap Z Z := match reset (Ok zeros3) 3 with Ok m => m | _ => MkMap 0 zeros3 end.

Lemma map3_reset : zeroed zeros3 3 ∧ reset (Ok zeros3) 3 = Ok map3.
Proof. by repeat first [constructor | split]. Qed.

Definition ops3 : list (mop Z Z) :=
  [MInsert 1 10; MInsert 2 20; MInsertIfAbsent 1 11; MRemove 1; MSwap 3 30; MInsert 4 40; MInsert 5 50;
   MCas 3 30 31; MGet 3; MCompact; MLen; MGet 1].

Definition results3 : list (mres Z Z) :=
  [RInsert (Ok Inserted); RInsert (Ok Inserted); RPut (Ok (Some 10)); ROption (Some 10); RPut (Ok None);
   RInsert (Ok Inserted); RInsert (Err Full); RCas (Ok (inl tt)); ROption (Some 31); RReclaimed (Ok 0);
   RLen 3; ROption None].

Lemma hash_map_refines_map_witness :
  ∃ m', option_map snd (map_run 1 ops3 map3) = Some results3 ∧
    ltrace (map_step 3) ∅ (zip ops3 results3) (contents m').
Proof.
  destruct map3_reset as [Hz Hr].
  destruct (hash_map_refines_map zeros3 3 map3 0 ops3 Hz ltac:(lia) Hr) as (m' & rs & E & _ & Ht & _).
  assert (option_map snd (map_run 1 ops3 map3) = Some results3) as Er by (vm_compute; reflexivity).
  exists m'. split; [exact Er|]. rewrite E in Er. injection Er as ->. exact Ht.
Defined.

Definition map3' : SharedHashMap Z Z :=
  match map_run 1 [MInsert 1 10; MInsert 2 20; MRemove 2] map3 with Some (m, _) => m | None => map3 end.

Lemma map3'_wf : wf map3'.
Proof.
  destruct map3_reset as [Hz Hr]. destruct (reset_wf zeros3 3 map3 Hz ltac:(lia) Hr) as (Hw & _).
  destruct (map_run_refines 0 [MInsert 1 10; MInsert 2 20; MRemove 2] map3 Hw) as (m' & rs & E & Hw' & _).
  unfold map3'. by rewrite E.
Qed.
