(* ===== verification/LruCache.v ===== *)
(** [SharedLRUCache<K, V>], the LRU cache of
    [crates/subetha-cxc/src/shared_lru_cache.rs], composed of a map from keys to
    list handles and a linked list of (key, value) pairs, most recent first.

    The cache is written against two interfaces, [CacheMap] and [CacheList],
    that state what it relies on; the hash map and the linked list discharge
    them at the end.  As in [HashMap], [None] is a call that never returns.
    Writer calls are one at a time, as the header of the source requires;
    [debug_assert!] is compiled out, flushing and observation are left out. *)
From stdpp Require Import gmap.
From S2P Require Import Prelude SharedRegion LinkedList HashMap.

Inductive LRUError :=
| EMap (e : MapError)
| ELinkedList (e : LinkedListError)
| ELayoutMismatch
| EIoError (kind : Z).

(** The conversions [?] uses. *)
Definition from_map {A} (o : res MapError A) : res LRUError A :=
  match o with Ok a => Ok a | Err e => Err (EMap e) | Panic => Panic end.
Definition from_list {A} (o : res LinkedListError A) : res LRUError A :=
  match o with Ok a => Ok a | Err e => Err (ELinkedList e) | Panic => Panic end.

(** * Interfaces *)

(** The calls the cache makes on its map of handles. *)
Class MapOps (M K : Type) := {
  map_get : K → M → option (option Z);
  map_contains : K → M → option bool;
  map_insert : K → Z → M → option (M * res MapError InsertOutcome);
  map_remove : K → M → option (M * option Z);
}.

(** What it relies on: [map_rep m σ] is "the map [m] holds [σ]", and a new key is
    taken while fewer than [map_cap m] are present. *)
Class CacheMap (M K : Type) `{Countable K} `{!MapOps M K} := {
  map_rep : M → gmap K Z → Prop;
  map_cap : M → Z;
  map_get_law m σ k : map_rep m σ → map_get k m = Some (σ !! k);
  map_contains_law m σ k : map_rep m σ → map_contains k m = Some (bool_decide (is_Some (σ !! k)));
  map_insert_law m σ k h :
    map_rep m σ → is_Some (σ !! k) ∨ Z.of_nat (size σ) < map_cap m →
    ∃ m' o, map_insert k h m = Some (m', Ok o) ∧ map_rep m' (<[k := h]> σ) ∧ map_cap m' = map_cap m;
  map_remove_law m σ k :
    map_rep m σ →
    ∃ m', map_remove k m = Some (m', σ !! k) ∧ map_rep m' (delete k σ) ∧ map_cap m' = map_cap m;
}.

(** The calls on the list. *)
Class ListOps (L T : Type) := {
  list_len : L → Z;
  list_get : L → Z → option T;
  list_push_front : L → T → L * res LinkedListError Z;
  list_push_back : L → T → L * res LinkedListError Z;
  list_pop_back : L → L * res LinkedListError (option T);
  list_remove : L → Z → L * option T;
  list_forward : L → option (res LinkedListError (list T));
  list_backward : L → option (res LinkedListError (list T));
}.

(** [list_rep l hs]: the list holds the values [hs.*2] under the handles
    [hs.*1]; it takes up to [list_cap l] of them. *)
Class CacheList (L T : Type) `{!ListOps L T} := {
  list_rep : L → list (Z * T) → Prop;
  list_cap : L → Z;
  list_handles l hs : list_rep l hs → NoDup hs.*1;
  list_len_law l hs : list_rep l hs → list_len l = Z.of_nat (length hs);
  list_get_law l hs1 h v hs2 : list_rep l (hs1 ++ (h, v) :: hs2) → list_get l h = Some v;
  list_push_law l hs v :
    list_rep l hs → Z.of_nat (length hs) < list_cap l →
    ∃ l' h, list_push_front l v = (l', Ok h) ∧ list_rep l' ((h, v) :: hs) ∧ list_cap l' = list_cap l;
  list_pop_law l hs :
    list_rep l hs →
    ∃ l', list_pop_back l = (l', Ok (snd <$> list.last hs)) ∧ list_rep l' (take (length hs - 1) hs) ∧
      list_cap l' = list_cap l;
  list_remove_law l hs1 h v hs2 :
    list_rep l (hs1 ++ (h, v) :: hs2) →
    ∃ l', list_remove l h = (l', Some v) ∧ list_rep l' (hs1 ++ hs2) ∧ list_cap l' = list_cap l;
  list_forward_law l hs : list_rep l hs → list_forward l = Some (Ok hs.*2);
  list_backward_law l hs : list_rep l hs → list_backward l = Some (Ok (reverse hs.*2));
}.

(** * The cache *)

Record SharedLRUCache (M L : Type) := MkLRU { cmap : M; clist : L; ccapacity : Z }.
Arguments MkLRU {M L}.
Arguments cmap {M L}.
Arguments clist {M L}.
Arguments ccapacity {M L}.

Section lru_code.
Context {M L K V : Type} `{EqDecision K} `{!MapOps M K} `{!ListOps L (K * V)}.
Abbreviation cache := (SharedLRUCache M L).
Implicit Types (c : cache).

Definition with_map m c : cache := MkLRU m (clist c) (ccapacity c).
Definition with_list l c : cache := MkLRU (cmap c) l (ccapacity c).

(** The sizes [create] and [open] give the two parts; [made_map] and
    [made_list] are what their constructors returned. *)
Definition map_size_for (capacity : Z) : Z := Z.max (u64 (capacity * 8)) 32.
Definition list_size_for (capacity : Z) : Z := capacity + 2.

Definition lru_create (made_map : Z → res MapError M) (made_list : Z → res LinkedListError L) (capacity : Z) :
    res LRUError cache :=
  _ ← assert_ (1 <=? capacity);
  m ← from_map (made_map (map_size_for capacity));
  l ← from_list (made_list (list_size_for capacity));
  mret (MkLRU m l capacity).

Definition lru_open (opened_map : Z → res MapError M) (opened_list : Z → res LinkedListError L) (capacity : Z) :
    res LRUError cache :=
  m ← from_map (opened_map (map_size_for capacity));
  l ← from_list (opened_list (list_size_for capacity));
  mret (MkLRU m l capacity).

Definition lru_len c : Z := list_len (clist c).
Definition lru_is_empty c : bool := lru_len c =? 0.

Definition lru_get (key : K) c : option (option V) :=
  o ← map_get key (cmap c);
  match o with
  | None => Some None
  | Some idx =>
      match list_get (clist c) idx with
      | None => Some None
      | Some (k, v) => if decide (k ≠ key) then Some None else Some (Some v)
      end
  end.

Definition lru_contains_key (key : K) c : option bool := map_contains key (cmap c).

Definition touch_status (key : K) c : option (cache * Z) :=
  o ← map_get key (cmap c);
  match o with
  | None => Some (c, 2)
  | Some idx =>
      let '(l1, removed) := list_remove (clist c) idx in
      match removed with
      | None => Some (with_list l1 c, 2)
      | Some (k, v) =>
          let '(l2, pushed) := list_push_front l1 (k, v) in
          match pushed with
          | Ok new_handle =>
              match map_insert k new_handle (cmap c) with
              | Some (m', Ok _) => Some (MkLRU m' l2 (ccapacity c), 0)
              | Some (m', _) => Some (MkLRU m' l2 (ccapacity c), 3)
              | None => None
              end
          | _ =>
              let '(l3, back) := list_push_back l2 (k, v) in
              Some (with_list l3 c, match back with Ok _ => 2 | _ => 3 end)
          end
      end
  end.

Definition touch (key : K) c : option (cache * bool) :=
  match touch_status key c with Some (c', status) => Some (c', status =? 0) | None => None end.

Definition get_and_touch (key : K) c : option (cache * option V) :=
  o ← lru_get key c;
  match o with
  | None => Some (c, None)
  | Some v => match touch key c with Some (c', _) => Some (c', Some v) | None => None end
  end.

Definition evict_oldest c : option (cache * res LRUError (option (K * V))) :=
  match list_pop_back (clist c) with
  | (l1, Ok (Some (k, v))) =>
      match map_remove k (cmap c) with
      | Some (m1, _) => Some (MkLRU m1 l1 (ccapacity c), Ok (Some (k, v)))
      | None => None
      end
  | (l1, Ok None) => Some (with_list l1 c, Ok None)
  | (l1, Err e) => Some (with_list l1 c, Err (ELinkedList e))
  | (l1, Panic) => Some (with_list l1 c, Panic)
  end.

(** [list.push_front((key, value))?] then [map.insert(key, handle)?], returning
    [out]. *)
Definition push_and_insert (key : K) (value : V) (out : option V) c :
    option (cache * res LRUError (option V)) :=
  match list_push_front (clist c) (key, value) with
  | (l1, Ok new_handle) =>
      match map_insert key new_handle (cmap c) with
      | Some (m1, Ok _) => Some (MkLRU m1 l1 (ccapacity c), Ok out)
      | Some (m1, Err e) => Some (MkLRU m1 l1 (ccapacity c), Err (EMap e))
      | Some (m1, Panic) => Some (MkLRU m1 l1 (ccapacity c), Panic)
      | None => None
      end
  | (l1, Err e) => Some (with_list l1 c, Err (ELinkedList e))
  | (l1, Panic) => Some (with_list l1 c, Panic)
  end.

Definition put_inner (key : K) (value : V) c : option (cache * res LRUError (option V)) :=
  o ← map_get key (cmap c);
  match o with
  | Some idx =>
      let '(l1, removed) := list_remove (clist c) idx in
      push_and_insert key value (snd <$> removed) (with_list l1 c)
  | None =>
      if ccapacity c <=? lru_len c then
        match evict_oldest c with
        | Some (c1, Panic) => Some (c1, Panic)
        | Some (c1, _) => push_and_insert key value None c1
        | None => None
        end
      else push_and_insert key value None c
  end.

Definition lru_remove (key : K) c : option (cache * option V) :=
  match map_remove key (cmap c) with
  | None => None
  | Some (m1, None) => Some (with_map m1 c, None)
  | Some (m1, Some idx) =>
      let '(l1, removed) := list_remove (clist c) idx in
      Some (MkLRU m1 l1 (ccapacity c), snd <$> removed)
  end.

Definition snapshot_mru_first c := list_forward (clist c).
Definition snapshot_lru_first c := list_backward (clist c).
End lru_code.

(** * The contract: pairs, most recently used first *)

Inductive lru_op (K V : Type) :=
| OGet (k : K) | OContains (k : K) | OTouch (k : K) | OGetAndTouch (k : K) | OPut (k : K) (v : V)
| ORemove (k : K) | OEvict | OLen | OMruFirst | OLruFirst.

Inductive lru_res (K V : Type) :=
| LVal (o : option V)
| LBool (b : bool)
| LPut (r : res LRUError (option V))
| LEvict (r : res LRUError (option (K * V)))
| LLen' (n : Z)
| LPairs (r : res LinkedListError (list (K * V))).
Arguments OGet {K V}. Arguments OContains {K V}. Arguments OTouch {K V}. Arguments OGetAndTouch {K V}.
Arguments OPut {K V}. Arguments ORemove {K V}. Arguments OEvict {K V}. Arguments OLen {K V}.
Arguments OMruFirst {K V}. Arguments OLruFirst {K V}.
Arguments LVal {K V}. Arguments LBool {K V}. Arguments LPut {K V}. Arguments LEvict {K V}.
Arguments LLen' {K V}. Arguments LPairs {K V}.

Section contract.
Context {K V : Type} `{Countable K}.
Implicit Types (es : list (K * V)).

Definition value_of es (k : K) : option V := (list_to_map es : gmap K V) !! k.
Definition without (k : K) es : list (K * V) := filter (λ e, e.1 ≠ k) es.

Definition lru_spec (cap : Z) es (op : lru_op K V) : list (K * V) * lru_res K V :=
  let promote k := match value_of es k with Some v => (k, v) :: without k es | None => es end in
  match op with
  | OGet k => (es, LVal (value_of es k))
  | OContains k => (es, LBool (bool_decide (k ∈ es.*1)))
  | OTouch k => (promote k, LBool (bool_decide (k ∈ es.*1)))
  | OGetAndTouch k => (promote k, LVal (value_of es k))
  | OPut k v =>
      match value_of es k with
      | Some old => ((k, v) :: without k es, LPut (Ok (Some old)))
      | None => (take (Z.to_nat cap) ((k, v) :: es), LPut (Ok None))
      end
  | ORemove k => (without k es, LVal (value_of es k))
  | OEvict => (take (length es - 1) es, LEvict (Ok (list.last es)))
  | OLen => (es, LLen' (Z.of_nat (length es)))
  | OMruFirst => (es, LPairs (Ok es))
  | OLruFirst => (es, LPairs (Ok (reverse es)))
  end.

Fixpoint lru_spec_run (cap : Z) es (ops : list (lru_op K V)) : list (K * V) * list (lru_res K V) :=
  match ops with
  | [] => (es, [])
  | op :: ops =>
      let '(es1, r) := lru_spec cap es op in
      let '(es2, rs) := lru_spec_run cap es1 ops in (es2, r :: rs)
  end.
End contract.

(** * Refinement, against the interfaces *)

Section refinement.
Context {M L K V : Type} `{Countable K} `{!MapOps M K, !CacheMap M K} `{!ListOps L (K * V), !CacheList L (K * V)}.
Abbreviation cache := (SharedLRUCache M L).
Implicit Types (c : cache) (hs : list (Z * (K * V))) (es : list (K * V)).

Definition lru_call (op : lru_op K V) c : option (cache * lru_res K V) :=
  let ret {A} (f : A → lru_res K V) (x : option (cache * A)) :=
    match x with Some (c', a) => Some (c', f a) | None => None end in
  match op with
  | OGet k => o ← lru_get k c; Some (c, LVal o)
  | OContains k => b ← lru_contains_key k c; Some (c, LBool b)
  | OTouch k => ret LBool (touch k c)
  | OGetAndTouch k => ret LVal (get_and_touch k c)
  | OPut k v => ret LPut (put_inner k v c)
  | ORemove k => ret LVal (lru_remove k c)
  | OEvict => ret LEvict (evict_oldest c)
  | OLen => Some (c, LLen' (lru_len c))
  | OMruFirst => l ← snapshot_mru_first c; Some (c, LPairs l)
  | OLruFirst => l ← snapshot_lru_first c; Some (c, LPairs l)
  end.

(** The map the list implies. *)
Definition index hs : list (K * Z) := (λ e, (e.2.1, e.1)) <$> hs.

Definition keys hs : list K := (hs.*2).*1.

Lemma index_fst hs : (index hs).*1 = keys hs.
Proof. unfold index, keys. by rewrite <- !list_fmap_compose. Qed.

Definition lru_rel c es : Prop :=
  ∃ hs, list_rep (clist c) hs ∧ map_rep (cmap c) (list_to_map (index hs)) ∧
    NoDup (keys hs) ∧ es = hs.*2 ∧
    Z.of_nat (length es) ≤ ccapacity c ∧ 1 ≤ ccapacity c ≤ list_cap (clist c) ∧ ccapacity c ≤ map_cap (cmap c).

Lemma index_middle hs1 h k v hs2 :
  NoDup (keys (hs1 ++ (h, (k, v)) :: hs2)) →
  (list_to_map (index (hs1 ++ (h, (k, v)) :: hs2)) : gmap K Z) = <[k := h]> (list_to_map (index (hs1 ++ hs2))) ∧
  NoDup (keys (hs1 ++ hs2)) ∧ k ∉ keys (hs1 ++ hs2).
Proof.
  intros Hnd. assert (index (hs1 ++ (h, (k, v)) :: hs2) ≡ₚ (k, h) :: index (hs1 ++ hs2)) as Hp.
  { unfold index. rewrite !fmap_app. cbn. by rewrite Permutation_middle. }
  split.
  - rewrite (list_to_map_proper _ _ ltac:(by rewrite index_fst) Hp). done.
  - rewrite <- !index_fst in *. rewrite Hp in Hnd. cbn in Hnd. by apply NoDup_cons in Hnd as [].
Qed.

Lemma index_lookup hs k :
  NoDup (keys hs) →
  match (list_to_map (index hs) : gmap K Z) !! k with
  | Some h => ∃ hs1 v hs2, hs = hs1 ++ (h, (k, v)) :: hs2
  | None => k ∉ keys hs
  end.
Proof.
  intros Hnd. destruct (_ !! k) as [h|] eqn:E.
  - apply elem_of_list_to_map in E; [|by rewrite index_fst].
    apply list_elem_of_fmap in E as ([h' [k' v]] & [= -> ->] & Hin).
    apply list_elem_of_split in Hin as (hs1 & hs2 & ->). by exists hs1, v, hs2.
  - apply not_elem_of_list_to_map in E. by rewrite index_fst in E.
Qed.

Lemma index_size hs : NoDup (keys hs) → size (list_to_map (index hs) : gmap K Z) = length hs.
Proof.
  intros Hnd. rewrite <- length_map_to_list, map_to_list_to_map by (by rewrite index_fst).
  unfold index. by rewrite length_fmap.
Qed.

(** The same cut, on the pairs. *)
Lemma without_none (k : K) es : k ∉ es.*1 → without k es = es.
Proof.
  induction es as [|[k' v] es IH]; [done|]. rewrite fmap_cons, not_elem_of_cons. intros [Hne ?].
  cbn in Hne. unfold without. rewrite filter_cons_True by (cbn; congruence). f_equal. by apply IH.
Qed.

Lemma pairs_middle es1 (k : K) (v : V) es2 :
  NoDup (es1 ++ (k, v) :: es2).*1 →
  value_of (es1 ++ (k, v) :: es2) k = Some v ∧ without k (es1 ++ (k, v) :: es2) = es1 ++ es2.
Proof.
  intros Hnd. split.
  - apply elem_of_list_to_map; [done|]. rewrite elem_of_app, elem_of_cons. by right; left.
  - rewrite fmap_app in Hnd. cbn in Hnd. rewrite <- Permutation_middle in Hnd.
    apply NoDup_cons in Hnd as [[Hk1 Hk2]%not_elem_of_app Hnd].
    unfold without. rewrite filter_app, filter_cons_False by (cbn; tauto).
    by rewrite <- (without_none k es1), <- (without_none k es2) at 2.
Qed.

Lemma value_of_none es (k : K) : k ∉ es.*1 → value_of es k = None.
Proof. apply not_elem_of_list_to_map_1. Qed.

(** A key that is cached: where, and with what. *)
Lemma lru_lookup c es k :
  lru_rel c es →
  (∃ hs1 h v hs2,
     list_rep (clist c) (hs1 ++ (h, (k, v)) :: hs2) ∧ NoDup (keys (hs1 ++ (h, (k, v)) :: hs2)) ∧
     es = (hs1 ++ (h, (k, v)) :: hs2).*2 ∧ map_get k (cmap c) = Some (Some h) ∧
     map_rep (cmap c) (<[k := h]> (list_to_map (index (hs1 ++ hs2)))) ∧
     value_of es k = Some v ∧ without k es = hs1.*2 ++ hs2.*2 ∧ k ∈ es.*1) ∨
  (map_get k (cmap c) = Some None ∧ value_of es k = None ∧ without k es = es ∧ k ∉ es.*1).
Proof.
  intros (hs & Hl & Hm & Hnd & -> & _). rewrite (map_get_law _ _ _ Hm).
  pose proof (index_lookup hs k Hnd) as Hk. destruct (_ !! k) as [h|].
  - left. destruct Hk as (hs1 & v & hs2 & ->). exists hs1, h, v, hs2.
    destruct (index_middle _ _ _ _ _ Hnd) as (Ei & _). rewrite Ei in Hm.
    destruct (pairs_middle hs1.*2 k v hs2.*2) as [E1 E2].
    { unfold keys in Hnd. by rewrite fmap_app in Hnd. }
    rewrite !fmap_app, !fmap_cons in *. cbn [fst snd] in *. split_and!; try done.
    rewrite elem_of_app, elem_of_cons. tauto.
  - right. split_and!; [done|by apply value_of_none|by apply without_none|done].
Qed.

Lemma insert_over (σ σ' : gmap K Z) k h : delete k σ = delete k σ' → <[k := h]> σ = <[k := h]> σ'.
Proof. intros E. by rewrite <- (insert_delete_eq σ), E, insert_delete_eq. Qed.

(** The push and the map update shared by [put] and [touch]. *)
Lemma push_ok c hs σ k v :
  list_rep (clist c) hs → map_rep (cmap c) σ → NoDup (keys hs) → k ∉ keys hs →
  delete k σ = list_to_map (index hs) → is_Some (σ !! k) ∨ Z.of_nat (size σ) < map_cap (cmap c) →
  Z.of_nat (length hs) < ccapacity c → 1 ≤ ccapacity c ≤ list_cap (clist c) → ccapacity c ≤ map_cap (cmap c) →
  ∃ l' h m' o, list_push_front (clist c) (k, v) = (l', Ok h) ∧ map_insert k h (cmap c) = Some (m', Ok o) ∧
    lru_rel (MkLRU m' l' (ccapacity c)) ((k, v) :: hs.*2).
Proof.
  intros Hl Hm Hnd Hk Hd Hroom Hlen Hcl Hcm.
  destruct (list_push_law _ _ (k, v) Hl ltac:(lia)) as (l' & h & Ep & Hl' & Cl).
  destruct (map_insert_law _ _ k h Hm Hroom) as (m' & o & Ei & Hm' & Cm).
  exists l', h, m', o. split_and!; [done..|]. exists ((h, (k, v)) :: hs). cbn [clist cmap ccapacity].
  rewrite Cl, Cm. split_and!; try lia; try done.
  - cbn. erewrite (insert_over _ σ); [done|]. rewrite Hd. by apply delete_id, not_elem_of_list_to_map_1; rewrite index_fst.
  - by apply NoDup_cons.
  - cbn. rewrite length_fmap. lia.
Qed.

(** Promoting a cached key, with a value old or new. *)
Lemma promote_ok c es hs1 h k v w hs2 :
  lru_rel c es → list_rep (clist c) (hs1 ++ (h, (k, v)) :: hs2) → es = (hs1 ++ (h, (k, v)) :: hs2).*2 →
  NoDup (keys (hs1 ++ (h, (k, v)) :: hs2)) → map_rep (cmap c) (<[k := h]> (list_to_map (index (hs1 ++ hs2)))) →
  ∃ l1 l2 h' m' o, list_remove (clist c) h = (l1, Some (k, v)) ∧ list_push_front l1 (k, w) = (l2, Ok h') ∧
    map_insert k h' (cmap c) = Some (m', Ok o) ∧
    lru_rel (MkLRU m' l2 (ccapacity c)) ((k, w) :: hs1.*2 ++ hs2.*2).
Proof.
  intros (hs & _ & _ & _ & Ehs & Hlen & Hcl & Hcm) Hl -> Hnd Hm.
  destruct (index_middle _ _ _ _ _ Hnd) as (_ & Hnd' & Hk).
  destruct (list_remove_law _ _ _ _ _ Hl) as (l1 & Er & Hl1 & C1).
  destruct (push_ok (with_list l1 c) (hs1 ++ hs2) _ k w Hl1 Hm Hnd' Hk) as (l2 & h' & m' & o & Ep & Ei & Hr).
  - rewrite delete_insert_eq. by apply delete_id, not_elem_of_list_to_map_1; rewrite index_fst.
  - left. by rewrite lookup_insert_eq.
  - cbn. rewrite length_fmap, !length_app in *. cbn in Hlen. lia.
  - cbn. by rewrite C1.
  - done.
  - exists l1, l2, h', m', o. rewrite fmap_app in Hr. by split_and!.
Qed.

Lemma touch_ok c es k :
  lru_rel c es →
  ∃ c', touch k c = Some (c', bool_decide (k ∈ es.*1)) ∧ ccapacity c' = ccapacity c ∧
    lru_rel c' (match value_of es k with Some v => (k, v) :: without k es | None => es end).
Proof.
  intros Hrel. unfold touch, touch_status.
  destruct (lru_lookup c es k Hrel) as
    [(hs1 & h & v & hs2 & Hl & Hnd & Ees & -> & Hm & -> & -> & Hin)|(-> & -> & _ & Hin)].
  - destruct (promote_ok c es hs1 h k v v hs2 Hrel Hl Ees Hnd Hm) as (l1 & l2 & h' & m' & o & Er & Ep & Ei & Hr).
    cbn. rewrite Er, Ep, Ei. rewrite bool_decide_eq_true_2 by done. by eexists.
  - cbn. rewrite bool_decide_eq_false_2 by done. by eexists.
Qed.

Lemma get_ok c es k : lru_rel c es → lru_get k c = Some (value_of es k).
Proof.
  intros Hrel. unfold lru_get.
  destruct (lru_lookup c es k Hrel) as [(hs1 & h & v & hs2 & Hl & _ & _ & -> & _ & -> & _)|(-> & -> & _)]; cbn; [|done].
  by rewrite (list_get_law _ _ _ _ _ Hl), decide_False by tauto.
Qed.

Lemma evict_ok c es :
  lru_rel c es →
  ∃ c', evict_oldest c = Some (c', Ok (list.last es)) ∧ ccapacity c' = ccapacity c ∧
    list_cap (clist c') = list_cap (clist c) ∧ lru_rel c' (take (length es - 1) es).
Proof.
  intros (hs & Hl & Hm & Hnd & -> & Hlen & Hcl & Hcm). unfold evict_oldest.
  destruct (list_pop_law _ _ Hl) as (l' & -> & Hl' & Cl). rewrite length_fmap, <- fmap_take, fmap_last.
  destruct hs as [|[h [k v]] hs _] using rev_ind.
  - eexists. split; [done|]. split_and!; [done..|]. exists []. cbn. rewrite Cl.
    split_and!; first [done|lia|apply NoDup_nil_2].
  - rewrite last_snoc. cbn [fmap option_fmap option_map snd]. rewrite length_app, Nat.add_sub in *.
    rewrite take_app_length in *.
    destruct (index_middle _ _ _ _ _ Hnd) as (Ei & Hnd' & Hk). rewrite app_nil_r in *.
    destruct (map_remove_law _ _ k Hm) as (m' & -> & Hm' & Cm). eexists. split; [done|].
    split_and!; [done..|]. exists hs. cbn [clist cmap ccapacity]. rewrite Cl, Cm. split_and!; try done; try lia.
    + rewrite Ei, delete_insert_id in Hm'; [done|].
      by apply not_elem_of_list_to_map_1; rewrite index_fst.
    + rewrite fmap_app, length_app in Hlen. lia.
Qed.

Lemma push_and_insert_eq c k v out l' h m' o :
  list_push_front (clist c) (k, v) = (l', Ok h) → map_insert k h (cmap c) = Some (m', Ok o) →
  push_and_insert k v out c = Some (MkLRU m' l' (ccapacity c), Ok out).
Proof. intros E1 E2. unfold push_and_insert. by rewrite E1, E2. Qed.

(** A new key, when there is room for it. *)
Lemma put_new_ok c es k v :
  lru_rel c es → k ∉ es.*1 → Z.of_nat (length es) < ccapacity c →
  ∃ c', push_and_insert k v None c = Some (c', Ok None) ∧ ccapacity c' = ccapacity c ∧ lru_rel c' ((k, v) :: es).
Proof.
  intros (hs & Hl & Hm & Hnd & -> & Hlen & Hcl & Hcm) Hk Hroom. rewrite length_fmap in *.
  destruct (push_ok c hs _ k v Hl Hm Hnd Hk) as (l' & h & m' & o & Ep & Ei & Hr); try done.
  - by apply delete_id, not_elem_of_list_to_map_1; rewrite index_fst.
  - right. rewrite index_size by done. lia.
  - eexists. split; [by eapply push_and_insert_eq|done].
Qed.

Lemma put_ok c es k v :
  lru_rel c es →
  ∃ c', lru_call (OPut k v) c = Some (c', (lru_spec (ccapacity c) es (OPut k v)).2) ∧
    ccapacity c' = ccapacity c ∧ lru_rel c' (lru_spec (ccapacity c) es (OPut k v)).1.
Proof.
  intros Hrel. cbn [lru_call lru_spec]. unfold put_inner.
  destruct (lru_lookup c es k Hrel) as
    [(hs1 & h & w & hs2 & Hl & Hnd & Ees & -> & Hm & -> & -> & Hin)|(-> & -> & Ew & Hk)].
  - destruct (promote_ok c es hs1 h k w v hs2 Hrel Hl Ees Hnd Hm) as (l1 & l2 & h' & m' & o & Er & Ep & Ei & Hr).
    cbn. rewrite Er. erewrite (push_and_insert_eq (with_list l1 c)) by done. by eexists.
  - cbn [mbind option_bind]. pose proof Hrel as (hs & Hl & _ & _ & Ehs & Hlen & Hcl & _).
    assert (lru_len c = Z.of_nat (length es)) as El.
    { unfold lru_len. rewrite (list_len_law _ _ Hl), Ehs. by rewrite length_fmap. }
    rewrite El. destruct (Z.leb_spec (ccapacity c) (Z.of_nat (length es))) as [Hfull|Hroom].
    + destruct (evict_ok c es Hrel) as (c1 & -> & C1 & _ & Hrel1).
      destruct (put_new_ok c1 _ k v Hrel1) as (c2 & -> & C2 & Hrel2).
      * intros Hin. apply Hk. apply list_elem_of_fmap in Hin as (e & -> & Hin).
        apply list_elem_of_fmap. exists e. split; [done|]. apply elem_of_take in Hin as (i & Hi & _). by eapply list_elem_of_lookup_2.
      * rewrite length_take, C1. lia.
      * exists c2. cbn [fst snd]. split_and!; [done|congruence|].
        replace (Z.to_nat (ccapacity c)) with (S (length es - 1)) by lia. done.
    + destruct (put_new_ok c es k v Hrel Hk Hroom) as (c2 & -> & C2 & Hrel2). exists c2. cbn [fst snd].
      split_and!; [done..|]. rewrite take_ge by (cbn; lia). done.
Qed.

Lemma remove_ok c es k :
  lru_rel c es →
  ∃ c', lru_remove k c = Some (c', value_of es k) ∧ ccapacity c' = ccapacity c ∧ lru_rel c' (without k es).
Proof.
  intros Hrel. unfold lru_remove. pose proof Hrel as (hs & Hl & Hm & Hnd & -> & Hlen & Hcl & Hcm).
  destruct (map_remove_law _ _ k Hm) as (m1 & -> & Hm1 & C1). pose proof (index_lookup hs k Hnd) as Hk.
  destruct (_ !! k) as [h|].
  - destruct Hk as (hs1 & v & hs2 & ->). destruct (index_middle _ _ _ _ _ Hnd) as (Ei & Hnd' & Hk).
    destruct (list_remove_law _ _ _ _ _ Hl) as (l1 & -> & Hl1 & Cl).
    destruct (pairs_middle hs1.*2 k v hs2.*2) as [E1 E2].
    { unfold keys in Hnd. by rewrite fmap_app in Hnd. }
    rewrite !fmap_app, !fmap_cons in *. cbn [fst snd fmap option_fmap option_map] in *. rewrite E1, E2.
    eexists. split; [done|]. split; [done|]. exists (hs1 ++ hs2). cbn [clist cmap ccapacity]. rewrite C1, Cl.
    rewrite fmap_app. split_and!; try done; try lia.
    + rewrite Ei, delete_insert_id in Hm1; [done|]. by apply not_elem_of_list_to_map_1; rewrite index_fst.
    + rewrite length_app in *. cbn in Hlen. lia.
  - rewrite value_of_none, without_none by done. eexists. split; [done|]. split; [done|].
    exists hs. cbn [clist cmap ccapacity with_map]. rewrite C1. split_and!; try done; try lia.
    rewrite delete_id in Hm1; [done|]. by apply not_elem_of_list_to_map_1; rewrite index_fst.
Qed.

Lemma lru_call_refines op c es :
  lru_rel c es →
  ∃ c', lru_call op c = Some (c', (lru_spec (ccapacity c) es op).2) ∧ ccapacity c' = ccapacity c ∧
    lru_rel c' (lru_spec (ccapacity c) es op).1.
Proof.
  intros Hrel. pose proof Hrel as (hs & Hl & Hm & Hnd & Ehs & _).
  destruct op as [k|k|k|k|k v|k| | | |]; [..|by apply put_ok| | | | |]; cbn [lru_call lru_spec fst snd].
  - rewrite (get_ok c es k Hrel). by exists c.
  - unfold lru_contains_key. rewrite (map_contains_law _ _ _ Hm). exists c. cbn. split_and!; try done.
    do 3 f_equal. apply bool_decide_ext. rewrite Ehs. pose proof (index_lookup hs k Hnd) as Hk.
    destruct (_ !! k).
    + destruct Hk as (hs1 & v & hs2 & ->). rewrite !fmap_app, !fmap_cons, elem_of_app, elem_of_cons. cbn.
      split; [tauto|done].
    + split; [by intros [??]|done].
  - destruct (touch_ok c es k Hrel) as (c' & -> & ? & ?). by exists c'.
  - unfold get_and_touch. rewrite (get_ok c es k Hrel). destruct (touch_ok c es k Hrel) as (c' & Et & ? & ?).
    destruct (value_of es k); cbn; [rewrite Et|]; by eexists.
  - destruct (remove_ok c es k Hrel) as (c' & -> & ? & ?). by exists c'.
  - destruct (evict_ok c es Hrel) as (c' & -> & ? & _ & ?). by exists c'.
  - exists c. unfold lru_len. rewrite (list_len_law _ _ Hl). split; [by rewrite Ehs, length_fmap|done].
  - exists c. unfold snapshot_mru_first. rewrite (list_forward_law _ _ Hl). cbn. by rewrite <- Ehs.
  - exists c. unfold snapshot_lru_first. rewrite (list_backward_law _ _ Hl). cbn. by rewrite <- Ehs.
Qed.

Fixpoint lru_run (ops : list (lru_op K V)) c : option (cache * list (lru_res K V)) :=
  match ops with
  | [] => Some (c, [])
  | op :: ops =>
      match lru_call op c with
      | Some (c1, r) => match lru_run ops c1 with Some (c2, rs) => Some (c2, r :: rs) | None => None end
      | None => None
      end
  end.

Lemma lru_run_refines ops c es :
  lru_rel c es →
  ∃ c', lru_run ops c = Some (c', (lru_spec_run (ccapacity c) es ops).2) ∧
    lru_rel c' (lru_spec_run (ccapacity c) es ops).1 ∧ ccapacity c' = ccapacity c.
Proof.
  revert c es. induction ops as [|op ops IH]; intros c es Hrel; cbn; [by exists c|].
  destruct (lru_call_refines op c es Hrel) as (c1 & -> & C1 & Hrel1).
  destruct (IH c1 _ Hrel1) as (c2 & -> & Hrel2 & C2). rewrite C1 in *.
  destruct (lru_spec _ es op) as [es1 r]. cbn [fst snd] in *.
  destruct (lru_spec_run _ es1 ops) as [es2 rs]. by exists c2.
Qed.

(** The number of pairs never exceeds the capacity. *)
Lemma lru_rel_bound c es : lru_rel c es → Z.of_nat (length es) ≤ ccapacity c ∧ NoDup es.*1.
Proof. intros (hs & _ & _ & Hnd & -> & Hlen & _). done. Qed.
End refinement.

(** * The hash map and the linked list meet the interfaces *)

Section instances.
Context {K V : Type} `{Countable K, Inhabited K, Inhabited V} `{!MapBytes K Z}.

(** [place] restarts its probe only when another caller interferes, so one
    probe is allowed: a second one would show as a call that does not return. *)
#[export] Instance hash_map_ops : MapOps (SharedHashMap K Z) K := {
  map_get := HashMap.get;
  map_contains := HashMap.contains_key;
  map_insert := HashMap.insert 1;
  map_remove := HashMap.remove;
}.

#[export] Program Instance hash_map_cache : CacheMap (SharedHashMap K Z) K := {
  map_rep m σ := HashMap.wf m ∧ contents m = σ;
  map_cap := HashMap.capacity;
}.
Next Obligation. intros m σ k [Hw <-]. by apply get_spec. Qed.
Next Obligation. intros m σ k [Hw <-]. by apply contains_key_spec. Qed.
Next Obligation.
  intros m σ k h [Hw <-] Hroom. destruct (map_call_refines 0 (MInsert k h) m Hw) as (m' & r & E & Hw' & C & Hs).
  cbn in E, Hs |- *. destruct (insert 1 k h m) as [[m1 o]|]; [|done]. injection E as -> <-.
  destruct Hs as [Hp _]. unfold put_result in Hp. destruct (contents m !! k) as [w|] eqn:Ek.
  - destruct o as [o| |]; [|done..]. injection Hp as Ec _. by exists m', o.
  - destruct Hroom as [[? [=]]|Hroom]. apply Z.ltb_lt in Hroom as Hl. cbn in Hl. rewrite Hl in Hp.
    destruct o as [o| |]; [|done..]. injection Hp as Ec _. by exists m', o.
Qed.
Next Obligation. intros m σ k [Hw <-]. destruct (HashMap.remove_spec m k Hw) as (m' & E & ? & ? & ?). by exists m'. Qed.

#[export] Instance linked_list_ops : ListOps (SharedLinkedList (K * V)) (K * V) := {
  list_len := llen;
  list_get := lget;
  list_push_front := push_front;
  list_push_back := push_back;
  list_pop_back := pop_back;
  list_remove := LinkedList.remove;
  list_forward := iter_forward;
  list_backward := iter_backward;
}.

Lemma entries_cut {T} `{Inhabited T} (l : SharedLinkedList T) xs hs1 h v hs2 :
  entries l xs = hs1 ++ (h, v) :: hs2 →
  ∃ ys zs, xs = ys ++ h :: zs ∧ hs1 = entries l ys ∧ v = read_value l h ∧ hs2 = entries l zs.
Proof.
  unfold entries. intros E. apply fmap_app_inv in E as (ys & zs' & -> & E & ->).
  symmetry in E. apply fmap_cons_inv in E as (h' & zs & [= -> ->] & -> & ->). by exists ys, zs.
Qed.

(** One call of the list, with its contract. *)
Lemma list_call {T} `{Inhabited T} (l : SharedLinkedList T) hs op :
  list_rel l hs → handle_ok hs op →
  ∃ hs', seq_step (SharedRegion.capacity (region l)) hs op (list_step l op).2 hs' ∧
    list_rel (list_step l op).1 hs' ∧
    SharedRegion.capacity (region (list_step l op).1) = SharedRegion.capacity (region l).
Proof.
  intros Hl Hop. destruct (list_step l op) as [l' o] eqn:E. by apply (list_step_refines l hs op l' o).
Qed.

#[export] Program Instance linked_list_cache : CacheList (SharedLinkedList (K * V)) (K * V) := {
  list_rep := list_rel;
  list_cap l := SharedRegion.capacity (region l) - 1;
}.
Next Obligation. intros l hs Hl. apply (list_rel_sound l hs Hl). Qed.
Next Obligation. intros l hs Hl. destruct (list_call l hs LLen Hl I) as (? & Hs & _). cbn in *. by inversion Hs. Qed.
Next Obligation.
  intros l hs1 h v hs2 (fl & xs & Hd & (ys & zs & -> & _ & -> & _)%symmetry%entries_cut). cbn. unfold lget.
  by rewrite (bad_handle_live l fl (ys ++ h :: zs)) by (done || set_solver).
Qed.
Next Obligation.
  intros l hs v Hl Hroom. destruct (list_call l hs (LPushFront v) Hl I) as (hs' & Hs & Hl' & C). cbn in *.
  destruct (push_front l v) as [l' o]. cbn in *. inversion Hs; subst; [|lia]. eexists l', _. by rewrite C.
Qed.
Next Obligation.
  intros l hs Hl. destruct (list_call l hs LPopBack Hl I) as (hs' & Hs & Hl' & C). cbn in *.
  destruct (pop_back l) as [l' o]. cbn in *. exists l'. rewrite C. inversion Hs; subst.
  - by rewrite last_snoc, length_app, Nat.add_sub, take_app_length.
  - done.
Qed.
Next Obligation.
  intros l hs1 h v hs2 (fl & xs & Hd & (ys & zs & -> & -> & -> & ->)%symmetry%entries_cut). cbn.
  unfold LinkedList.remove. rewrite (bad_handle_live l fl (ys ++ h :: zs)) by (done || set_solver).
  destruct (remove_by_index l h) as [l' o] eqn:Er. destruct (remove_rel _ _ _ _ _ _ _ Hd Er) as (-> & Hl' & C).
  exists l'. by rewrite C.
Qed.
Next Obligation. intros l hs Hl. destruct (list_call l hs LIter Hl I) as (? & Hs & _). cbn in *. by inversion Hs. Qed.
Next Obligation. intros l hs Hl. destruct (list_call l hs LIterBack Hl I) as (? & Hs & _). cbn in *. by inversion Hs. Qed.
End instances.

(** * Properties *)

Section properties.
Context {K V : Type} `{Countable K, Inhabited K, Inhabited V} `{!MapBytes K Z}.
Abbreviation lru := (SharedLRUCache (SharedHashMap K Z) (SharedLinkedList (K * V))).

(** [SharedLRUCache::create] at a path where neither file exists: zeroed bytes
    for the map and a fresh region for the list. *)
Definition create_fresh (zr : map_mem K Z) (r : SharedRegion (Node (K * V))) (dflt : K * V) (cap : Z) : res LRUError lru :=
  lru_create (λ n, HashMap.create (Ok (HashMap.init_region zr n)) n) (λ n, LinkedList.create (Ok r) dflt n) cap.

Definition fresh_files (zr : map_mem K Z) (r : SharedRegion (Node (K * V))) (cap : Z) : Prop :=
  zeroed zr (map_size_for cap) ∧ SharedRegion.wf r [] ∧ bump_next (SharedRegion.header r) = 0 ∧
  SharedRegion.capacity r = list_size_for cap.

Lemma create_fresh_rel zr r dflt cap c :
  fresh_files zr r cap → cap * 8 < 2 ^ 32 → create_fresh zr r dflt cap = Ok c →
  lru_rel c [] ∧ ccapacity c = cap.
Proof.
  intros (Hz & Hw & Hb & Hcr) Hcap Hc. unfold create_fresh, lru_create in Hc.
  apply bind_ok in Hc as ([] & Ha & Hc). unfold assert_ in Ha. destruct (Z.leb_spec 1 cap) as [H1'|]; [|done].
  assert (2 ≤ map_size_for cap < 2 ^ 32) as Hms.
  { unfold map_size_for. rewrite (wrap_small 64) by lia. lia. }
  apply bind_ok in Hc as (m & Em & Hc). apply bind_ok in Hc as (l & El & [= <-]).
  destruct (HashMap.create _ _) as [m'| |] eqn:Em'; try done. injection Em as ->.
  destruct (LinkedList.create _ _ _) as [l'| |] eqn:El'; try done. injection El as ->.
  destruct (reset_wf zr (map_size_for cap) m Hz Hms Em') as (Hwm & Ec & Cm).
  destruct (create_rel r dflt _ l Hw Hb El') as [Hl Cl]. split; [|done].
  exists []. cbn. rewrite Cl, Hcr, Cm. unfold list_size_for, map_size_for in *.
  rewrite (wrap_small 64) in * by lia. split_and!; first [done|lia|apply NoDup_nil_2].
Qed.

(** C11: an LRU cache created on fresh files, under any sequence of calls of one
    writer, returns from every call with the result of the abstract cache: a
    list of pairs with distinct keys, most recently used first, of at most
    [capacity] pairs.  [put] returns the old value of a cached key and otherwise
    evicts exactly the least recently used pair when the cache is full;
    [get] does not promote, [touch] and [get_and_touch] do; the map and the list
    stay in step. So [put] never answers [Map(Full)], however many evictions went
    before, and tombstones never fill the map: here the code does better than the
    module documentation and the wiki page of the cache, which say that both
    happen after about seven times the capacity in evictions; inserts reuse the
    tombstones. *)
Theorem lru_cache_refines_lru (zr : map_mem K Z) (r : SharedRegion (Node (K * V))) dflt cap c ops :
  fresh_files zr r cap → cap * 8 < 2 ^ 32 → create_fresh zr r dflt cap = Ok c →
  ∃ c', lru_run ops c = Some (c', (lru_spec_run cap [] ops).2) ∧
    lru_rel c' (lru_spec_run cap [] ops).1 ∧
    Z.of_nat (length (lru_spec_run cap [] ops).1) ≤ cap ∧ NoDup (lru_spec_run cap [] ops).1.*1.
Proof.
  intros Hf Hcap Hc. destruct (create_fresh_rel zr r dflt cap c Hf Hcap Hc) as [Hrel <-].
  destruct (lru_run_refines ops c [] Hrel) as (c' & E & Hrel' & C). exists c'.
  pose proof (lru_rel_bound c' _ Hrel') as [Hb Hnd]. rewrite C in Hb. done.
Qed.

(** [put] never fails, however many insertions and evictions went before:
    inserts into the map reuse the tombstones evictions leave, so the map is
    never full. *)
Lemma lru_put_never_fails (zr : map_mem K Z) (r : SharedRegion (Node (K * V))) dflt cap c ops k v :
  fresh_files zr r cap → cap * 8 < 2 ^ 32 → create_fresh zr r dflt cap = Ok c →
  ∃ c1 rs c2 old, lru_run ops c = Some (c1, rs) ∧ put_inner k v c1 = Some (c2, Ok old).
Proof.
  intros Hf Hcap Hc. destruct (create_fresh_rel zr r dflt cap c Hf Hcap Hc) as [Hrel _].
  destruct (lru_run_refines ops c [] Hrel) as (c1 & E & Hrel1 & _).
  destruct (put_ok c1 _ k v Hrel1) as (c2 & Ep & _). cbn [lru_call] in Ep.
  destruct (put_inner k v c1) as [[c2' o]|] eqn:Eo; [|done]. injection Ep as -> Er. cbn [lru_spec] in Er.
  destruct (value_of _ k); injection Er as ->; by eauto 10.
Qed.
End properties.

(** ** Witnesses *)

Definition zeros32 : map_mem Z Z :=
  HashMap.MkMem 2112 (MkMapHeader 0 0 0 0 0 0 0) (replicate 32 (MkSlot 0 0 0 (0, 0))).
Definition pair_nodes4 : SharedRegion (Node (Z * Z)) :=
  MkRegion 4 (SharedRegion.init_region 24 8
    (SharedRegion.MkMem 400 (MkRegionHeader 0 0 0 0 0 0 0 0) [0; 0; 0; 0] (replicate 4 (MkNode (0, 0) 0 0))) 4).

Lemma fresh2 : fresh_files zeros32 pair_nodes4 2.
Proof.
  split; [|split; [|done]].
  - split; [done|]. split; [done|]. apply Forall_replicate. done.
  - apply init_region_ok; [by split|done].
Qed.

Definition lru2 : SharedLRUCache (SharedHashMap Z Z) (SharedLinkedList (Z * Z)) :=
  match create_fresh zeros32 pair_nodes4 (0, 0) 2 with
  | Ok c => c
  | _ => MkLRU (MkMap 0 zeros32) (MkList pair_nodes4) 0
  end.

Lemma lru2_created : create_fresh zeros32 pair_nodes4 (0, 0) 2 = Ok lru2.
Proof. vm_compute. reflexivity. Qed.

Definition lru_ops2 : list (lru_op Z Z) :=
  [OPut 1 10; OPut 2 20; OTouch 1; OPut 3 30; OGet 2; OGet 1; OPut 1 11; OMruFirst; OEvict; OLen].

Lemma lru_cache_refines_lru_witness :
  ∃ c', lru_run lru_ops2 lru2 =
    Some (c', [LPut (Ok None); LPut (Ok None); LBool true; LPut (Ok None); LVal None; LVal (Some 10);
               LPut (Ok (Some 10)); LPairs (Ok [(1, 11); (3, 30)]); LEvict (Ok (Some (3, 30))); LLen' 1]).
Proof.
  destruct (lru_cache_refines_lru zeros32 pair_nodes4 (0, 0) 2 lru2 lru_ops2 fresh2 ltac:(lia) lru2_created)
    as (c' & E & _). exists c'. exact E.
Defined.

Lemma lru_put_never_fails_witness :
  ∃ c1 rs c2 old, lru_run lru_ops2 lru2 = Some (c1, rs) ∧ put_inner 7 70 c1 = Some (c2, Ok old).
Proof.
  exact (lru_put_never_fails zeros32 pair_nodes4 (0, 0) 2 lru2 lru_ops2 7 70 fresh2 ltac:(lia) lru2_created).
Defined.
