(* ===== verification/ControlFrame.v ===== *)
(** The control-plane codec of [crates/subetha-cxc/src/control_frame.rs]: a
    datagram is a tag byte and a sequence of frames, each a type byte, a QUIC
    varint length and a body.

    Bytes are integers below 256; [u64] fields keep their width, so the
    clamping of [put_varint] to 62 bits shows in the round trip.  The decoding
    loop recurses on fuel, the number of bytes left, which each iteration
    reduces. *)
From S2P Require Import Prelude.

Definition PKT_CONTROL : Z := 4.

(** Frame types, with their wire tags. *)
Inductive FrameType :=
| Ack | Nak | Loss | Timing | Ring | Path | Link | LossAcct | Pmtu | BwProbe | Trace | AvailBw | Forecast
| Periodicity | SessionChallenge | SessionResponse | SessionAnnounce.

(** [ty as u8]. *)
Definition to_u8 (ty : FrameType) : Z :=
  match ty with
  | Ack => 0x01 | Nak => 0x02 | Loss => 0x03 | Timing => 0x04 | Ring => 0x05 | Path => 0x06 | Link => 0x07
  | LossAcct => 0x08 | Pmtu => 0x09 | BwProbe => 0x0A | Trace => 0x0B | AvailBw => 0x0C | Forecast => 0x0D
  | Periodicity => 0x0E | SessionChallenge => 0x0F | SessionResponse => 0x10 | SessionAnnounce => 0x11
  end.

Definition from_u8 (v : Z) : option FrameType :=
  match v with
  | 0x01 => Some Ack | 0x02 => Some Nak | 0x03 => Some Loss | 0x04 => Some Timing | 0x05 => Some Ring
  | 0x06 => Some Path | 0x07 => Some Link | 0x08 => Some LossAcct | 0x09 => Some Pmtu | 0x0A => Some BwProbe
  | 0x0B => Some Trace | 0x0C => Some AvailBw | 0x0D => Some Forecast | 0x0E => Some Periodicity
  | 0x0F => Some SessionChallenge | 0x10 => Some SessionResponse | 0x11 => Some SessionAnnounce
  | _ => None
  end.

Record SessionFrame := MkSession { epoch : Z; nonce : Z }.
Definition NONCE_MASK : Z := 2 ^ 62 - 1.
Record AckFrame := MkAck { ack_through : Z }.
Record NakFrame := MkNak { block : Z; mask : Z }.
Record LossFrame := MkLoss { loss_x255 : Z; burstiness_x255 : Z; owd_trend_class : Z; loss_class : Z }.
Record TimingFrame := MkTiming { send_ts : Z; echo_ts : Z }.
Record RingFrame := MkRing { fill_pct : Z; ring_kind : Z; producers : Z; consumers : Z; trend : Z; flags : Z }.
Record PathFrame := MkPath { ttl : Z; ecn : Z; hop_count : Z; ce_count : Z; ect_count : Z }.
Record LinkFrame := MkLink { class : Z; quality : Z }.
Record LossAcctFrame := MkLossAcct { seq_ : Z; last_recv_seq : Z }.
Record PmtuFrame := MkPmtu { pmtu_ : Z }.
Record BwProbeFrame := MkBwProbe { probe_id : Z; idx : Z; bw_send_ts : Z }.
Record TraceFrame := MkTrace { hop_ttl : Z; trace_probe_id : Z }.
Record AvailBwFrame := MkAvailBw { avail_kbps : Z; capacity_kbps : Z }.
Record ForecastFrame := MkForecast { forecast_kbps : Z }.
Record PeriodicityFrame := MkPeriodicity { period_ds : Z; secs_to_spike_ds : Z; confidence_x255 : Z }.

Record ControlPacket := MkPacket {
  ack : option AckFrame;
  nak : option NakFrame;
  loss : option LossFrame;
  timing : option TimingFrame;
  ring : option RingFrame;
  path : option PathFrame;
  link : option LinkFrame;
  loss_acct : option LossAcctFrame;
  pmtu : option PmtuFrame;
  bw_probe : list BwProbeFrame;
  trace : list TraceFrame;
  avail_bw : option AvailBwFrame;
  forecast : option ForecastFrame;
  periodicity : option PeriodicityFrame;
  session_challenge : option SessionFrame;
  session_response : option SessionFrame;
  session_announce : option Z;
}.

Definition new : ControlPacket :=
  MkPacket None None None None None None None None None [] [] None None None None None None.

Definition is_none {A} (o : option A) : bool := match o with None => true | Some _ => false end.
Definition is_nil {A} (l : list A) : bool := match l with [] => true | _ => false end.

Definition is_empty (p : ControlPacket) : bool :=
  is_none (ack p) && is_none (nak p) && is_none (loss p) && is_none (timing p) && is_none (ring p) &&
  is_none (path p) && is_none (link p) && is_none (loss_acct p) && is_none (pmtu p) &&
  is_nil (bw_probe p) && is_nil (trace p).

Definition is_control (buf : list Z) : bool :=
  match buf with b :: _ => b =? PKT_CONTROL | [] => false end.

(** ** Varints *)

Definition MAX62 : Z := 2 ^ 62 - 1.

(** The bytes [put_varint] appends. *)
Definition varint (v0 : Z) : list Z :=
  let v := Z.min v0 MAX62 in
  if v <? 2 ^ 6 then [u8 v]
  else if v <? 2 ^ 14 then [Z.lor 0x40 (u8 (Z.shiftr v 8)); u8 v]
  else if v <? 2 ^ 30 then Z.lor 0x80 (u8 (Z.shiftr v 24)) :: tail (be_bytes 4 (u32 v))
  else Z.lor 0xC0 (u8 (Z.shiftr v 56)) :: tail (be_bytes 8 v).

Definition put_varint (out : list Z) (v : Z) : list Z := out ++ varint v.

Definition get_varint (buf : list Z) (pos : nat) : option (Z * nat) :=
  first ← buf !! pos;
  let len := Nat.pow 2 (Z.to_nat (Z.shiftr first 6)) in
  if (length buf <? pos + len)%nat then None
  else Some (fold_left be_acc (take (len - 1) (drop (pos + 1) buf)) (Z.land first 0x3F), (pos + len)%nat).

(** ** Encoding *)

Definition put_frame (out : list Z) (ty : FrameType) (body : list Z) : list Z :=
  put_varint (out ++ [to_u8 ty]) (Z.of_nat (length body)) ++ body.

(** [if let Some(f) = o { put_frame(&mut out, ty, body(f)) }]. *)
Definition put_opt {A} (out : list Z) (o : option A) (ty : FrameType) (body : A → list Z) : list Z :=
  match o with Some f => put_frame out ty (body f) | None => out end.

(** [for f in fs { put_frame(&mut out, ty, body(f)) }]. *)
Definition put_all {A} (out : list Z) (fs : list A) (ty : FrameType) (body : A → list Z) : list Z :=
  fold_left (λ out f, put_frame out ty (body f)) fs out.

Definition ack_body (f : AckFrame) := put_varint [] (ack_through f).
Definition nak_body (f : NakFrame) := put_varint (put_varint [] (block f)) (mask f).
Definition loss_body (f : LossFrame) := [loss_x255 f; burstiness_x255 f; owd_trend_class f; loss_class f].
Definition timing_body (f : TimingFrame) := put_varint (put_varint [] (send_ts f)) (echo_ts f).
Definition ring_body (f : RingFrame) := [fill_pct f; ring_kind f; producers f; consumers f; trend f; flags f].
Definition path_body (f : PathFrame) :=
  put_varint (put_varint [ttl f; ecn f; hop_count f] (ce_count f)) (ect_count f).
Definition link_body (f : LinkFrame) := [class f; quality f].
Definition loss_acct_body (f : LossAcctFrame) := put_varint (put_varint [] (seq_ f)) (last_recv_seq f).
Definition pmtu_body (f : PmtuFrame) := put_varint [] (pmtu_ f).
Definition bw_probe_body (f : BwProbeFrame) := put_varint [probe_id f; idx f] (bw_send_ts f).
Definition trace_body (f : TraceFrame) := [hop_ttl f; trace_probe_id f].
Definition avail_bw_body (f : AvailBwFrame) := put_varint (put_varint [] (avail_kbps f)) (capacity_kbps f).
Definition forecast_body (f : ForecastFrame) := put_varint [] (forecast_kbps f).
Definition periodicity_body (f : PeriodicityFrame) :=
  put_varint (put_varint [] (period_ds f)) (secs_to_spike_ds f) ++ [confidence_x255 f].
Definition session_body (f : SessionFrame) := put_varint (put_varint [] (epoch f)) (nonce f).
Definition announce_body (e : Z) := put_varint [] e.

Definition encode_control (p : ControlPacket) : list Z :=
  let out := [PKT_CONTROL] in
  let out := put_opt out (ack p) Ack ack_body in
  let out := put_opt out (nak p) Nak nak_body in
  let out := put_opt out (loss p) Loss loss_body in
  let out := put_opt out (timing p) Timing timing_body in
  let out := put_opt out (ring p) Ring ring_body in
  let out := put_opt out (path p) Path path_body in
  let out := put_opt out (link p) Link link_body in
  let out := put_opt out (loss_acct p) LossAcct loss_acct_body in
  let out := put_opt out (pmtu p) Pmtu pmtu_body in
  let out := put_all out (bw_probe p) BwProbe bw_probe_body in
  let out := put_all out (trace p) Trace trace_body in
  let out := put_opt out (avail_bw p) AvailBw avail_bw_body in
  let out := put_opt out (forecast p) Forecast forecast_body in
  let out := put_opt out (periodicity p) Periodicity periodicity_body in
  let out := put_opt out (session_challenge p) SessionChallenge session_body in
  let out := put_opt out (session_response p) SessionResponse session_body in
  put_opt out (session_announce p) SessionAnnounce announce_body.

Definition PAD_TYPE : Z := 0x7F.
Definition HEADER : nat := 3.

Definition pad_control_to (buf : list Z) (target_len : nat) : list Z :=
  if (target_len <? length buf + HEADER + 64)%nat then buf
  else
    let body_len := (target_len - length buf - HEADER)%nat in
    put_varint (buf ++ [PAD_TYPE]) (Z.of_nat body_len) ++ replicate body_len 0.

(** ** Decoding *)

(** Assignments to one field of the packet. *)
Definition set_ack (x : option AckFrame) (p : ControlPacket) : ControlPacket :=
  let 'MkPacket _ x1 x2 x3 x4 x5 x6 x7 x8 x9 x10 x11 x12 x13 x14 x15 x16 := p in
  MkPacket x x1 x2 x3 x4 x5 x6 x7 x8 x9 x10 x11 x12 x13 x14 x15 x16.
Definition set_nak (x : option NakFrame) (p : ControlPacket) : ControlPacket :=
  let 'MkPacket x0 _ x2 x3 x4 x5 x6 x7 x8 x9 x10 x11 x12 x13 x14 x15 x16 := p in
  MkPacket x0 x x2 x3 x4 x5 x6 x7 x8 x9 x10 x11 x12 x13 x14 x15 x16.
Definition set_loss (x : option LossFrame) (p : ControlPacket) : ControlPacket :=
  let 'MkPacket x0 x1 _ x3 x4 x5 x6 x7 x8 x9 x10 x11 x12 x13 x14 x15 x16 := p in
  MkPacket x0 x1 x x3 x4 x5 x6 x7 x8 x9 x10 x11 x12 x13 x14 x15 x16.
Definition set_timing (x : option TimingFrame) (p : ControlPacket) : ControlPacket :=
  let 'MkPacket x0 x1 x2 _ x4 x5 x6 x7 x8 x9 x10 x11 x12 x13 x14 x15 x16 := p in
  MkPacket x0 x1 x2 x x4 x5 x6 x7 x8 x9 x10 x11 x12 x13 x14 x15 x16.
Definition set_ring (x : option RingFrame) (p : ControlPacket) : ControlPacket :=
  let 'MkPacket x0 x1 x2 x3 _ x5 x6 x7 x8 x9 x10 x11 x12 x13 x14 x15 x16 := p in
  MkPacket x0 x1 x2 x3 x x5 x6 x7 x8 x9 x10 x11 x12 x13 x14 x15 x16.
Definition set_path (x : option PathFrame) (p : ControlPacket) : ControlPacket :=
  let 'MkPacket x0 x1 x2 x3 x4 _ x6 x7 x8 x9 x10 x11 x12 x13 x14 x15 x16 := p in
  MkPacket x0 x1 x2 x3 x4 x x6 x7 x8 x9 x10 x11 x12 x13 x14 x15 x16.
Definition set_link (x : option LinkFrame) (p : ControlPacket) : ControlPacket :=
  let 'MkPacket x0 x1 x2 x3 x4 x5 _ x7 x8 x9 x10 x11 x12 x13 x14 x15 x16 := p in
  MkPacket x0 x1 x2 x3 x4 x5 x x7 x8 x9 x10 x11 x12 x13 x14 x15 x16.
Definition set_loss_acct (x : option LossAcctFrame) (p : ControlPacket) : ControlPacket :=
  let 'MkPacket x0 x1 x2 x3 x4 x5 x6 _ x8 x9 x10 x11 x12 x13 x14 x15 x16 := p in
  MkPacket x0 x1 x2 x3 x4 x5 x6 x x8 x9 x10 x11 x12 x13 x14 x15 x16.
Definition set_pmtu (x : option PmtuFrame) (p : ControlPacket) : ControlPacket :=
  let 'MkPacket x0 x1 x2 x3 x4 x5 x6 x7 _ x9 x10 x11 x12 x13 x14 x15 x16 := p in
  MkPacket x0 x1 x2 x3 x4 x5 x6 x7 x x9 x10 x11 x12 x13 x14 x15 x16.
Definition set_bw_probe (x : list BwProbeFrame) (p : ControlPacket) : ControlPacket :=
  let 'MkPacket x0 x1 x2 x3 x4 x5 x6 x7 x8 _ x10 x11 x12 x13 x14 x15 x16 := p in
  MkPacket x0 x1 x2 x3 x4 x5 x6 x7 x8 x x10 x11 x12 x13 x14 x15 x16.
Definition set_trace (x : list TraceFrame) (p : ControlPacket) : ControlPacket :=
  let 'MkPacket x0 x1 x2 x3 x4 x5 x6 x7 x8 x9 _ x11 x12 x13 x14 x15 x16 := p in
  MkPacket x0 x1 x2 x3 x4 x5 x6 x7 x8 x9 x x11 x12 x13 x14 x15 x16.
Definition set_avail_bw (x : option AvailBwFrame) (p : ControlPacket) : ControlPacket :=
  let 'MkPacket x0 x1 x2 x3 x4 x5 x6 x7 x8 x9 x10 _ x12 x13 x14 x15 x16 := p in
  MkPacket x0 x1 x2 x3 x4 x5 x6 x7 x8 x9 x10 x x12 x13 x14 x15 x16.
Definition set_forecast (x : option ForecastFrame) (p : ControlPacket) : ControlPacket :=
  let 'MkPacket x0 x1 x2 x3 x4 x5 x6 x7 x8 x9 x10 x11 _ x13 x14 x15 x16 := p in
  MkPacket x0 x1 x2 x3 x4 x5 x6 x7 x8 x9 x10 x11 x x13 x14 x15 x16.
Definition set_periodicity (x : option PeriodicityFrame) (p : ControlPacket) : ControlPacket :=
  let 'MkPacket x0 x1 x2 x3 x4 x5 x6 x7 x8 x9 x10 x11 x12 _ x14 x15 x16 := p in
  MkPacket x0 x1 x2 x3 x4 x5 x6 x7 x8 x9 x10 x11 x12 x x14 x15 x16.
Definition set_session_challenge (x : option SessionFrame) (p : ControlPacket) : ControlPacket :=
  let 'MkPacket x0 x1 x2 x3 x4 x5 x6 x7 x8 x9 x10 x11 x12 x13 _ x15 x16 := p in
  MkPacket x0 x1 x2 x3 x4 x5 x6 x7 x8 x9 x10 x11 x12 x13 x x15 x16.
Definition set_session_response (x : option SessionFrame) (p : ControlPacket) : ControlPacket :=
  let 'MkPacket x0 x1 x2 x3 x4 x5 x6 x7 x8 x9 x10 x11 x12 x13 x14 _ x16 := p in
  MkPacket x0 x1 x2 x3 x4 x5 x6 x7 x8 x9 x10 x11 x12 x13 x14 x x16.
Definition set_session_announce (x : option Z) (p : ControlPacket) : ControlPacket :=
  let 'MkPacket x0 x1 x2 x3 x4 x5 x6 x7 x8 x9 x10 x11 x12 x13 x14 x15 _ := p in
  MkPacket x0 x1 x2 x3 x4 x5 x6 x7 x8 x9 x10 x11 x12 x13 x14 x15 x.

Definition byte_at (body : list Z) (i : nat) : Z := default 0 (body !! i).

(** [if let Some((v, _)) = get_varint(body, 0)]. *)
Definition one_varint (body : list Z) (f : Z → ControlPacket → ControlPacket) (p : ControlPacket) : ControlPacket :=
  match get_varint body 0 with Some (v, _) => f v p | None => p end.

(** [if let Some((a, n)) = get_varint(body, 0) && let Some((b, _)) = get_varint(body, n)]. *)
Definition two_varints (body : list Z) (f : Z → Z → ControlPacket → ControlPacket) (p : ControlPacket) : ControlPacket :=
  match get_varint body 0 with
  | Some (a, n) => match get_varint body n with Some (b, _) => f a b p | None => p end
  | None => p
  end.

(** The [match] of [decode_control] on one frame. *)
Definition apply_frame (ty : Z) (body : list Z) (p : ControlPacket) : ControlPacket :=
  let len := length body in
  match from_u8 ty with
  | Some Ack => one_varint body (λ v, set_ack (Some (MkAck (u32 v)))) p
  | Some Nak => two_varints body (λ a b, set_nak (Some (MkNak (u32 a) (u32 b)))) p
  | Some Loss =>
      if (3 <=? len)%nat
      then set_loss (Some (MkLoss (byte_at body 0) (byte_at body 1) (byte_at body 2) (default 0 (body !! 3%nat)))) p
      else p
  | Some Timing => two_varints body (λ a b, set_timing (Some (MkTiming a b))) p
  | Some Ring =>
      if (6 <=? len)%nat
      then set_ring (Some (MkRing (byte_at body 0) (byte_at body 1) (byte_at body 2) (byte_at body 3)
                                  (byte_at body 4) (byte_at body 5))) p
      else p
  | Some Path =>
      if (3 <=? len)%nat then
        let '(ce, n1) := default (0, 3%nat) (get_varint body 3) in
        let '(ect, _) := default (0, n1) (get_varint body n1) in
        set_path (Some (MkPath (byte_at body 0) (byte_at body 1) (byte_at body 2) ce ect)) p
      else p
  | Some Link => if (2 <=? len)%nat then set_link (Some (MkLink (byte_at body 0) (byte_at body 1))) p else p
  | Some LossAcct => two_varints body (λ a b, set_loss_acct (Some (MkLossAcct (u32 a) (u32 b)))) p
  | Some Pmtu => one_varint body (λ v, set_pmtu (Some (MkPmtu (u16 v)))) p
  | Some BwProbe =>
      if (2 <=? len)%nat then
        match get_varint body 2 with
        | Some (ts, _) => set_bw_probe (bw_probe p ++ [MkBwProbe (byte_at body 0) (byte_at body 1) ts]) p
        | None => p
        end
      else p
  | Some Trace =>
      if (2 <=? len)%nat then set_trace (trace p ++ [MkTrace (byte_at body 0) (byte_at body 1)]) p else p
  | Some AvailBw => two_varints body (λ a b, set_avail_bw (Some (MkAvailBw a b))) p
  | Some SessionAnnounce => one_varint body (λ v, set_session_announce (Some (u32 v))) p
  | Some SessionChallenge => two_varints body (λ a b, set_session_challenge (Some (MkSession (u32 a) b))) p
  | Some SessionResponse => two_varints body (λ a b, set_session_response (Some (MkSession (u32 a) b))) p
  | Some Forecast => one_varint body (λ v, set_forecast (Some (MkForecast v))) p
  | Some Periodicity =>
      match get_varint body 0 with
      | Some (period, n1) =>
          match get_varint body n1 with
          | Some (to_spike, n2) =>
              if (n2 <? len)%nat
              then set_periodicity (Some (MkPeriodicity period to_spike (byte_at body n2))) p
              else p
          | None => p
          end
      | None => p
      end
  | None => p
  end.

(** The loop from [pos]; [fuel] iterations at most. *)
Fixpoint decode_loop (fuel : nat) (buf : list Z) (pos : nat) (p : ControlPacket) : option ControlPacket :=
  match buf !! pos with
  | None => Some p
  | Some ty =>
      match fuel with
      | O => None
      | S fuel =>
          match get_varint buf (pos + 1) with
          | None => Some p
          | Some (len, next) =>
              if Z.of_nat (length buf) <? Z.of_nat next + len then Some p
              else decode_loop fuel buf (next + Z.to_nat len) (apply_frame ty (take (Z.to_nat len) (drop next buf)) p)
          end
      end
  end.

(** The result, or the loop still running after as many iterations as bytes. *)
Definition decode_control (buf : list Z) : option (option ControlPacket) :=
  if negb (is_control buf) then Some None
  else option_map Some (decode_loop (length buf) buf 1 new).

(** * Varints *)

Lemma tail_be_bytes n v : tail (be_bytes (S n) v) = be_bytes n v.
Proof.
  revert v. induction n as [|n IH]; intros v; [done|].
  change (be_bytes (S (S n)) v) with (be_bytes (S n) (Z.shiftr v 8) ++ [u8 v]).
  pose proof (length_be_bytes (S n) (Z.shiftr v 8)) as Hl.
  destruct (be_bytes (S n) (Z.shiftr v 8)) as [|b bs] eqn:E; [done|]. cbn [tail app].
  change bs with (tail (b :: bs)). rewrite <- E, IH. done.
Qed.

(** The two fields of the first byte. *)
Lemma first_byte k hi :
  0 ≤ k < 4 → 0 ≤ hi < 64 →
  Z.shiftr (Z.lor (Z.shiftl k 6) hi) 6 = k ∧ Z.land (Z.lor (Z.shiftl k 6) hi) 0x3F = hi.
Proof.
  intros Hk Hh. rewrite lor_shiftl_add by lia. change 0x3F with (2 ^ 6 - 1). rewrite land_mask_mod by lia.
  rewrite Z.shiftr_div_pow2 by lia. change (2 ^ 6) with 64. rewrite Z.div_add_l, Z.div_small by lia.
  rewrite (Z.add_comm (k * 64)), Z.mod_add, Z.mod_small by lia. lia.
Qed.

(** What [put_varint] writes: a 2-bit length class [k] and [2^k] bytes. *)
Lemma varint_form v0 : 0 ≤ v0 →
  ∃ k n hi, 0 ≤ k < 4 ∧ 0 ≤ hi < 64 ∧ S n = Nat.pow 2 (Z.to_nat k) ∧
    varint v0 = Z.lor (Z.shiftl k 6) hi :: be_bytes n (Z.min v0 MAX62) ∧
    hi * 2 ^ (8 * Z.of_nat n) + Z.min v0 MAX62 mod 2 ^ (8 * Z.of_nat n) = Z.min v0 MAX62 ∧ (n ≤ 7)%nat.
Proof.
  intros Hv. unfold varint. set (v := Z.min v0 MAX62).
  assert (0 ≤ v < 2 ^ 62) as Hb by (unfold v, MAX62; lia).
  assert (∀ s, 0 < s → v < 64 * 2 ^ s → u8 (Z.shiftr v s) = v / 2 ^ s ∧ 0 ≤ v / 2 ^ s < 64 ∧
    (v / 2 ^ s) * 2 ^ s + v mod 2 ^ s = v) as Hhi.
  { intros s Hs Hlt. rewrite Z.shiftr_div_pow2 by lia.
    assert (0 ≤ v / 2 ^ s < 64) as Hd.
    { split; [apply Z.div_pos; lia|]. apply Z.div_lt_upper_bound; lia. }
    rewrite (wrap_small 8) by lia. split_and!; [done|lia..|]. pose proof (Z.div_mod v (2 ^ s)). lia. }
  destruct (Z.ltb_spec v (2 ^ 6)); [|destruct (Z.ltb_spec v (2 ^ 14)); [|destruct (Z.ltb_spec v (2 ^ 30))]].
  - exists 0, 0%nat, v. rewrite (wrap_small 8) by lia. split_and!; try lia; try done.
    change (8 * Z.of_nat 0) with 0. rewrite Z.pow_0_r, Z.mod_1_r. lia.
  - destruct (Hhi 8) as (E & ? & ?); [lia..|]. exists 1, 1%nat, (v / 2 ^ 8). rewrite E. split_and!; lia || done.
  - destruct (Hhi 24) as (E & ? & ?); [lia..|]. exists 2, 3%nat, (v / 2 ^ 24). rewrite E, tail_be_bytes.
    rewrite (wrap_small 32) by lia. split_and!; lia || done.
  - destruct (Hhi 56) as (E & ? & ?); [lia..|]. exists 3, 7%nat, (v / 2 ^ 56). rewrite E, tail_be_bytes.
    split_and!; lia || done.
Qed.

Lemma varint_nonempty v : 0 ≤ v → (1 ≤ length (varint v) ≤ 8)%nat.
Proof.
  intros Hv. destruct (varint_form v Hv) as (k & n & hi & _ & _ & _ & -> & _ & Hn). cbn.
  rewrite length_be_bytes. lia.
Qed.

Lemma get_put_varint pre v post :
  0 ≤ v → get_varint (pre ++ varint v ++ post) (length pre) =
    Some (Z.min v MAX62, (length pre + length (varint v))%nat).
Proof.
  intros Hv. destruct (varint_form v Hv) as (k & n & hi & Hk & Hh & En & -> & Ev & Hn).
  unfold get_varint. rewrite lookup_app_r, Nat.sub_diag by done. cbn [lookup list_lookup mbind option_bind app].
  destruct (first_byte k hi Hk Hh) as [-> ->]. rewrite <- En.
  set (x := Z.lor (Z.shiftl k 6) hi). set (bs := be_bytes n (Z.min v MAX62)).
  assert (length bs = n) as Hbs by apply length_be_bytes.
  destruct (Nat.ltb_spec (length (pre ++ x :: bs ++ post)) (length pre + S n)) as [Hlt|_].
  { rewrite length_app in Hlt. cbn in Hlt. rewrite length_app in Hlt. lia. }
  assert (drop (length pre + 1) (pre ++ x :: bs ++ post) = bs ++ post) as ->.
  { rewrite drop_app_ge by lia. by replace (length pre + 1 - length pre)%nat with 1%nat by lia. }
  replace (S n - 1)%nat with (length bs) by lia. rewrite take_app_length. cbn [length]. rewrite Hbs.
  unfold bs. rewrite be_bytes_fold, Ev; [done|lia|].
  assert (2 ^ (8 * Z.of_nat n) ≤ 2 ^ 56) by (apply Z.pow_le_mono_r; lia). nia.
Qed.

(** A varint cut short is not read. *)
Lemma get_cut_varint pre v m :
  0 ≤ v → (m < length (varint v))%nat → get_varint (pre ++ take m (varint v)) (length pre) = None.
Proof.
  intros Hv. destruct (varint_form v Hv) as (k & n & hi & Hk & Hh & En & -> & _ & Hn). intros Hm.
  unfold get_varint. rewrite lookup_app_r, Nat.sub_diag by done. destruct m as [|m]; [done|].
  cbn [take lookup list_lookup mbind option_bind]. destruct (first_byte k hi Hk Hh) as [-> _]. rewrite <- En.
  cbn [length] in Hm. rewrite length_be_bytes in Hm.
  destruct (Nat.ltb_spec (length (pre ++ Z.lor (Z.shiftl k 6) hi :: take m (be_bytes n (Z.min v MAX62)))) (length pre + S n))
    as [|Hge]; [done|].
  rewrite length_app in Hge. cbn in Hge. rewrite length_take, length_be_bytes in Hge. lia.
Qed.

Lemma get_varint_next buf pos v next :
  get_varint buf pos = Some (v, next) → (pos < next ≤ length buf)%nat.
Proof.
  unfold get_varint. destruct (buf !! pos) as [b|]; [|done]. cbn [mbind option_bind].
  pose proof (Nat.pow_nonzero 2 (Z.to_nat (Z.shiftr b 6)) ltac:(lia)).
  destruct (Nat.ltb_spec (length buf) (pos + Nat.pow 2 (Z.to_nat (Z.shiftr b 6)))); [done|].
  intros [= _ <-]. lia.
Qed.

(** * Frames on the wire *)

Definition wire_frame (f : Z * list Z) : list Z := f.1 :: varint (Z.of_nat (length f.2)) ++ f.2.
Definition wire (fs : list (Z * list Z)) : list Z := concat (wire_frame <$> fs).
Definition apply_frames (fs : list (Z * list Z)) (p : ControlPacket) : ControlPacket :=
  fold_left (λ p f, apply_frame f.1 f.2 p) fs p.

(** Bodies a varint can measure. *)
Definition small_body (f : Z * list Z) : Prop := Z.of_nat (length f.2) ≤ MAX62.

Lemma decode_frame fuel pre f post p :
  small_body f →
  decode_loop (S fuel) (pre ++ wire_frame f ++ post) (length pre) p =
  decode_loop fuel (pre ++ wire_frame f ++ post) (length (pre ++ wire_frame f)) (apply_frame f.1 f.2 p).
Proof.
  intros Hb. destruct f as [ty body]. unfold small_body, wire_frame in *. cbn [fst snd] in *. cbn [decode_loop].
  rewrite lookup_app_r, Nat.sub_diag by done. cbn [lookup list_lookup app].
  set (vs := varint (Z.of_nat (length body))).
  assert (pre ++ ty :: (vs ++ body) ++ post = (pre ++ [ty]) ++ vs ++ (body ++ post)) as Eb.
  { by rewrite <- !(assoc (++)). }
  replace (length pre + 1)%nat with (length (pre ++ [ty])) by (rewrite length_app; done).
  pose proof (get_put_varint (pre ++ [ty]) (Z.of_nat (length body)) (body ++ post) ltac:(lia)) as Eg.
  fold vs in Eg. rewrite <- Eb in Eg. rewrite Eg, Z.min_l by done.
  destruct (Z.ltb_spec (Z.of_nat (length (pre ++ ty :: (vs ++ body) ++ post)))
    (Z.of_nat (length (pre ++ [ty]) + length vs) + Z.of_nat (length body))) as [Hlt|_].
  { rewrite !length_app in Hlt. cbn in Hlt. rewrite !length_app in Hlt. lia. }
  rewrite Nat2Z.id. f_equal.
  - rewrite !length_app. cbn. rewrite length_app. lia.
  - f_equal. rewrite Eb, (assoc (++)), drop_app_length' by (by rewrite !length_app). apply take_app_length.
Qed.

Lemma decode_wire fuel pre fs post p :
  Forall small_body fs →
  decode_loop (length fs + fuel) (pre ++ wire fs ++ post) (length pre) p =
  decode_loop fuel (pre ++ wire fs ++ post) (length (pre ++ wire fs)) (apply_frames fs p).
Proof.
  intros Hfs. revert pre p. induction Hfs as [|f fs Hf Hfs IH]; intros pre p.
  { by rewrite app_nil_r. }
  change (wire (f :: fs)) with (wire_frame f ++ wire fs). rewrite <- (assoc (++)). cbn [length Nat.add].
  rewrite decode_frame by done. rewrite (assoc (++) pre), IH, <- !(assoc (++)). done.
Qed.

Lemma decode_end fuel buf p : decode_loop fuel buf (length buf) p = Some p.
Proof. destruct fuel; cbn; by rewrite lookup_ge_None_2. Qed.

Lemma wire_length fs : (length fs ≤ length (wire fs))%nat.
Proof.
  induction fs as [|f fs IH]; [done|]. change (wire (f :: fs)) with (wire_frame f ++ wire fs).
  rewrite length_app. cbn. lia.
Qed.

Lemma decode_control_wire fs rest :
  Forall small_body fs →
  ∃ fuel, decode_control (PKT_CONTROL :: wire fs ++ rest) =
    option_map Some (decode_loop (S fuel) (PKT_CONTROL :: wire fs ++ rest) (S (length (wire fs))) (apply_frames fs new)).
Proof.
  intros Hfs. exists (length (wire fs ++ rest) - length fs)%nat. pose proof (wire_length fs).
  unfold decode_control. cbn [is_control]. rewrite Z.eqb_refl. cbn [negb]. f_equal.
  rewrite <- (decode_wire _ [PKT_CONTROL] fs rest new Hfs). f_equal. cbn. rewrite length_app. lia.
Qed.

(** A frame cut short ends the parse. *)
Lemma decode_cut fuel pre f n p :
  small_body f → (n < length (wire_frame f))%nat →
  decode_loop (S fuel) (pre ++ take n (wire_frame f)) (length pre) p = Some p.
Proof.
  intros Hb Hn. destruct f as [ty body]. unfold small_body, wire_frame in *. cbn [fst snd] in *.
  cbn [decode_loop]. destruct n as [|n]; [rewrite take_0, app_nil_r; by rewrite lookup_ge_None_2|].
  cbn [take]. rewrite lookup_app_r, Nat.sub_diag by done. cbn [lookup list_lookup].
  set (v := Z.of_nat (length body)) in *. cbn [length] in Hn. rewrite length_app in Hn.
  replace (length pre + 1)%nat with (length (pre ++ [ty])) by (rewrite length_app; done).
  assert (pre ++ ty :: take n (varint v ++ body) = (pre ++ [ty]) ++ take n (varint v ++ body)) as ->
    by (by rewrite <- (assoc (++))).
  destruct (decide (n < length (varint v))%nat).
  - rewrite take_app_le by lia. by rewrite get_cut_varint by lia.
  - rewrite take_app_ge by lia. rewrite get_put_varint by lia. rewrite Z.min_l by done.
    rewrite (proj2 (Z.ltb_lt _ _)); [done|]. rewrite !length_app, length_take. unfold v in *. lia.
Qed.

(** * Frames of a packet *)

Definition clamp (v : Z) : Z := Z.min v MAX62.

Definition opt_frames {A} (o : option A) (ty : FrameType) (body : A → list Z) : list (Z * list Z) :=
  match o with Some f => [(to_u8 ty, body f)] | None => [] end.
Definition all_frames {A} (fs : list A) (ty : FrameType) (body : A → list Z) : list (Z * list Z) :=
  (λ f, (to_u8 ty, body f)) <$> fs.

Definition frames_of (p : ControlPacket) : list (Z * list Z) :=
  opt_frames (ack p) Ack ack_body ++ opt_frames (nak p) Nak nak_body ++ opt_frames (loss p) Loss loss_body ++
  opt_frames (timing p) Timing timing_body ++ opt_frames (ring p) Ring ring_body ++
  opt_frames (path p) Path path_body ++ opt_frames (link p) Link link_body ++
  opt_frames (loss_acct p) LossAcct loss_acct_body ++ opt_frames (pmtu p) Pmtu pmtu_body ++
  all_frames (bw_probe p) BwProbe bw_probe_body ++ all_frames (trace p) Trace trace_body ++
  opt_frames (avail_bw p) AvailBw avail_bw_body ++ opt_frames (forecast p) Forecast forecast_body ++
  opt_frames (periodicity p) Periodicity periodicity_body ++
  opt_frames (session_challenge p) SessionChallenge session_body ++
  opt_frames (session_response p) SessionResponse session_body ++
  opt_frames (session_announce p) SessionAnnounce announce_body.

Lemma wire_app fs gs : wire (fs ++ gs) = wire fs ++ wire gs.
Proof. unfold wire. by rewrite fmap_app, concat_app. Qed.

Lemma put_opt_wire {A} out (o : option A) ty body : put_opt out o ty body = out ++ wire (opt_frames o ty body).
Proof.
  destruct o as [f|]; cbn; [|by rewrite app_nil_r].
  unfold put_frame, put_varint. by rewrite app_nil_r, <- !(assoc (++)).
Qed.

Lemma put_all_wire {A} out (fs : list A) ty body : put_all out fs ty body = out ++ wire (all_frames fs ty body).
Proof.
  revert out. induction fs as [|f fs IH]; intros out; cbn; [by rewrite app_nil_r|]. unfold put_all in IH.
  rewrite IH. unfold put_frame, put_varint, wire. cbn. by rewrite <- !(assoc (++)).
Qed.

Lemma encode_wire p : encode_control p = PKT_CONTROL :: wire (frames_of p).
Proof.
  unfold encode_control, frames_of. rewrite !put_opt_wire, !put_all_wire, !wire_app.
  by rewrite <- !(assoc (++)).
Qed.

Lemma read_one pre v post : 0 ≤ v →
  get_varint (put_varint pre v ++ post) (length pre) = Some (clamp v, length (put_varint pre v)).
Proof. intros Hv. unfold put_varint. rewrite <- (assoc (++)), get_put_varint by done. by rewrite length_app. Qed.

Lemma read_one_end pre v : 0 ≤ v →
  get_varint (put_varint pre v) (length pre) = Some (clamp v, length (put_varint pre v)).
Proof. intros Hv. pose proof (read_one pre v [] Hv) as E. by rewrite app_nil_r in E. Qed.

Lemma read_first pre a b : 0 ≤ a →
  get_varint (put_varint (put_varint pre a) b) (length pre) = Some (clamp a, length (put_varint pre a)).
Proof. intros Ha. by apply read_one. Qed.

Lemma clamp_u32 v : 0 ≤ v < 2 ^ 32 → u32 (clamp v) = v.
Proof. intros Hv. unfold clamp, MAX62. rewrite Z.min_l by lia. by apply (wrap_small 32). Qed.

Lemma clamp_small v : v < 2 ^ 62 → clamp v = v.
Proof. unfold clamp, MAX62. lia. Qed.

(** ** Field widths *)

Definition is_u16 (x : Z) : Prop := 0 ≤ x < 2 ^ 16.
Definition is_u32 (x : Z) : Prop := 0 ≤ x < 2 ^ 32.
Definition is_u64 (x : Z) : Prop := 0 ≤ x < 2 ^ 64.
Definition opt_all {A} (P : A → Prop) (o : option A) : Prop := match o with Some x => P x | None => True end.

(** The fields of a packet fit their Rust types (single bytes need no bound:
    they are copied as they are). *)
Record typed (p : ControlPacket) : Prop := {
  ty_ack : opt_all (λ f, is_u32 (ack_through f)) (ack p);
  ty_nak : opt_all (λ f, is_u32 (block f) ∧ is_u32 (mask f)) (nak p);
  ty_timing : opt_all (λ f, is_u64 (send_ts f) ∧ is_u64 (echo_ts f)) (timing p);
  ty_path : opt_all (λ f, is_u64 (ce_count f) ∧ is_u64 (ect_count f)) (path p);
  ty_loss_acct : opt_all (λ f, is_u32 (seq_ f) ∧ is_u32 (last_recv_seq f)) (loss_acct p);
  ty_pmtu : opt_all (λ f, is_u16 (pmtu_ f)) (pmtu p);
  ty_bw_probe : Forall (λ f, is_u64 (bw_send_ts f)) (bw_probe p);
  ty_avail_bw : opt_all (λ f, is_u64 (avail_kbps f) ∧ is_u64 (capacity_kbps f)) (avail_bw p);
  ty_forecast : opt_all (λ f, is_u64 (forecast_kbps f)) (forecast p);
  ty_periodicity : opt_all (λ f, is_u64 (period_ds f) ∧ is_u64 (secs_to_spike_ds f)) (periodicity p);
  ty_challenge : opt_all (λ f, is_u32 (epoch f) ∧ is_u64 (nonce f)) (session_challenge p);
  ty_response : opt_all (λ f, is_u32 (epoch f) ∧ is_u64 (nonce f)) (session_response p);
  ty_announce : opt_all is_u32 (session_announce p);
}.

Definition clamp_session (f : SessionFrame) := MkSession (epoch f) (clamp (nonce f)).
Definition clamp_probe (f : BwProbeFrame) := MkBwProbe (probe_id f) (idx f) (clamp (bw_send_ts f)).

(** What the peer gets: every 64-bit field clamped to 62 bits. *)
Definition clamped (p : ControlPacket) : ControlPacket :=
  MkPacket (ack p) (nak p) (loss p)
    (option_map (λ f, MkTiming (clamp (send_ts f)) (clamp (echo_ts f))) (timing p))
    (ring p)
    (option_map (λ f, MkPath (ttl f) (ecn f) (hop_count f) (clamp (ce_count f)) (clamp (ect_count f))) (path p))
    (link p) (loss_acct p) (pmtu p) (clamp_probe <$> bw_probe p) (trace p)
    (option_map (λ f, MkAvailBw (clamp (avail_kbps f)) (clamp (capacity_kbps f))) (avail_bw p))
    (option_map (λ f, MkForecast (clamp (forecast_kbps f))) (forecast p))
    (option_map (λ f, MkPeriodicity (clamp (period_ds f)) (clamp (secs_to_spike_ds f)) (confidence_x255 f)) (periodicity p))
    (option_map clamp_session (session_challenge p)) (option_map clamp_session (session_response p))
    (session_announce p).

(** ** Applying one frame *)

Lemma one_varint_ok v f q : 0 ≤ v → one_varint (put_varint [] v) f q = f (clamp v) q.
Proof. intros Hv. unfold one_varint. change 0%nat with (length (@nil Z)). by rewrite (read_one_end [] v Hv). Qed.

Lemma two_varints_ok a b f q :
  0 ≤ a → 0 ≤ b → two_varints (put_varint (put_varint [] a) b) f q = f (clamp a) (clamp b) q.
Proof. intros Ha Hb. unfold two_varints. change 0%nat with (length (@nil Z)).
  by rewrite (read_first [] a b Ha), (read_one_end _ b Hb). Qed.

Ltac apply_varints :=
  intros; destruct_and?; unfold is_u16, is_u32, is_u64 in *;
  match goal with |- apply_frame _ (?b _) _ = _ => unfold b end;
  unfold apply_frame; cbn [from_u8 to_u8];
  first [rewrite one_varint_ok by lia | rewrite two_varints_ok by lia];
  rewrite ?clamp_u32 by lia.

Section apply.
Context (q : ControlPacket).

Lemma apply_ack f : is_u32 (ack_through f) → apply_frame (to_u8 Ack) (ack_body f) q = set_ack (Some f) q.
Proof. apply_varints. by destruct f. Qed.

Lemma apply_nak f :
  is_u32 (block f) ∧ is_u32 (mask f) → apply_frame (to_u8 Nak) (nak_body f) q = set_nak (Some f) q.
Proof. apply_varints. by destruct f. Qed.

Lemma apply_loss f : apply_frame (to_u8 Loss) (loss_body f) q = set_loss (Some f) q.
Proof. by destruct f. Qed.

Lemma apply_timing f :
  is_u64 (send_ts f) ∧ is_u64 (echo_ts f) →
  apply_frame (to_u8 Timing) (timing_body f) q = set_timing (Some (MkTiming (clamp (send_ts f)) (clamp (echo_ts f)))) q.
Proof. by apply_varints. Qed.

Lemma apply_ring f : apply_frame (to_u8 Ring) (ring_body f) q = set_ring (Some f) q.
Proof. by destruct f. Qed.

(** Bytes before a varint stay where they are. *)
Lemma byte_at_put pre v post i : (i < length pre)%nat → byte_at (put_varint pre v ++ post) i = byte_at pre i.
Proof. intros Hi. unfold byte_at, put_varint. by rewrite <- (assoc (++)), lookup_app_l. Qed.

Lemma length_put pre v : (length pre ≤ length (put_varint pre v))%nat.
Proof. unfold put_varint. rewrite length_app. lia. Qed.

Lemma apply_path f :
  is_u64 (ce_count f) ∧ is_u64 (ect_count f) →
  apply_frame (to_u8 Path) (path_body f) q =
    set_path (Some (MkPath (ttl f) (ecn f) (hop_count f) (clamp (ce_count f)) (clamp (ect_count f)))) q.
Proof.
  intros [[? _] [? _]]. unfold apply_frame, path_body. cbn [from_u8 to_u8].
  set (pre := [ttl f; ecn f; hop_count f]). set (b1 := put_varint pre (ce_count f)).
  pose proof (length_put pre (ce_count f)) as L1. pose proof (length_put b1 (ect_count f)) as L2.
  rewrite (proj2 (Nat.leb_le 3 _)) by (change (length pre) with 3%nat in L1; fold b1 in L1; lia).
  change 3%nat with (length pre). unfold b1. rewrite read_first by done. cbn [from_option id].
  rewrite read_one_end by done. cbn [from_option id].
  assert (∀ i, (i < 3)%nat → byte_at (put_varint (put_varint pre (ce_count f)) (ect_count f)) i = byte_at pre i) as Hb.
  { intros i Hi. pose proof (byte_at_put pre (ce_count f) (varint (ect_count f)) i Hi) as E. exact E. }
  rewrite !Hb by lia. done.
Qed.

Lemma apply_link f : apply_frame (to_u8 Link) (link_body f) q = set_link (Some f) q.
Proof. by destruct f. Qed.

Lemma apply_loss_acct f :
  is_u32 (seq_ f) ∧ is_u32 (last_recv_seq f) →
  apply_frame (to_u8 LossAcct) (loss_acct_body f) q = set_loss_acct (Some f) q.
Proof. apply_varints. by destruct f. Qed.

Lemma apply_pmtu f : is_u16 (pmtu_ f) → apply_frame (to_u8 Pmtu) (pmtu_body f) q = set_pmtu (Some f) q.
Proof.
  apply_varints. rewrite clamp_small, (wrap_small 16) by lia. by destruct f.
Qed.

Lemma apply_bw_probe f :
  is_u64 (bw_send_ts f) →
  apply_frame (to_u8 BwProbe) (bw_probe_body f) q = set_bw_probe (bw_probe q ++ [clamp_probe f]) q.
Proof.
  intros [? _]. unfold apply_frame, bw_probe_body. cbn [from_u8 to_u8].
  pose proof (length_put [probe_id f; idx f] (bw_send_ts f)) as L.
  rewrite (proj2 (Nat.leb_le 2 _)) by done. rewrite (read_one_end [probe_id f; idx f]) by done.
  done.
Qed.

Lemma apply_trace f : apply_frame (to_u8 Trace) (trace_body f) q = set_trace (trace q ++ [f]) q.
Proof. by destruct f. Qed.

Lemma apply_avail_bw f :
  is_u64 (avail_kbps f) ∧ is_u64 (capacity_kbps f) →
  apply_frame (to_u8 AvailBw) (avail_bw_body f) q =
    set_avail_bw (Some (MkAvailBw (clamp (avail_kbps f)) (clamp (capacity_kbps f)))) q.
Proof. by apply_varints. Qed.

Lemma apply_forecast f :
  is_u64 (forecast_kbps f) →
  apply_frame (to_u8 Forecast) (forecast_body f) q = set_forecast (Some (MkForecast (clamp (forecast_kbps f)))) q.
Proof. by apply_varints. Qed.

Lemma apply_periodicity f :
  is_u64 (period_ds f) ∧ is_u64 (secs_to_spike_ds f) →
  apply_frame (to_u8 Periodicity) (periodicity_body f) q =
    set_periodicity (Some (MkPeriodicity (clamp (period_ds f)) (clamp (secs_to_spike_ds f)) (confidence_x255 f))) q.
Proof.
  intros [[? _] [? _]]. unfold apply_frame, periodicity_body. cbn [from_u8 to_u8].
  set (b1 := put_varint [] (period_ds f)). set (b2 := put_varint b1 (secs_to_spike_ds f)).
  assert (get_varint (b2 ++ [confidence_x255 f]) 0 = Some (clamp (period_ds f), length b1)) as ->.
  { unfold b2, put_varint at 1. rewrite <- (assoc (++)). by apply (read_one []). }
  unfold b2. rewrite read_one by done. fold b2.
  rewrite (proj2 (Nat.ltb_lt _ _)) by (rewrite length_app; cbn; lia).
  unfold byte_at. by rewrite lookup_app_r, Nat.sub_diag by done.
Qed.

Lemma apply_session f :
  is_u32 (epoch f) ∧ is_u64 (nonce f) →
  apply_frame (to_u8 SessionChallenge) (session_body f) q = set_session_challenge (Some (clamp_session f)) q ∧
  apply_frame (to_u8 SessionResponse) (session_body f) q = set_session_response (Some (clamp_session f)) q.
Proof. split; by apply_varints. Qed.

Lemma apply_announce e :
  is_u32 e → apply_frame (to_u8 SessionAnnounce) (announce_body e) q = set_session_announce (Some e) q.
Proof. by apply_varints. Qed.
End apply.

Lemma apply_frames_app fs gs q : apply_frames (fs ++ gs) q = apply_frames gs (apply_frames fs q).
Proof. apply fold_left_app. Qed.

Lemma apply_opt {A} (o : option A) ty body (set : option A → ControlPacket → ControlPacket) (g : A → A) P q :
  (∀ f q, P f → apply_frame (to_u8 ty) (body f) q = set (Some (g f)) q) → opt_all P o → set None q = q →
  apply_frames (opt_frames o ty body) q = set (option_map g o) q.
Proof. intros Ha HP Hn. destruct o as [f|]; cbn; [by apply Ha|done]. Qed.

Lemma apply_all_probes fs q :
  Forall (λ f, is_u64 (bw_send_ts f)) fs →
  apply_frames (all_frames fs BwProbe bw_probe_body) q = set_bw_probe (bw_probe q ++ (clamp_probe <$> fs)) q.
Proof.
  intros Hf. revert q. induction Hf as [|f fs Hf Hfs IH]; intros q.
  - cbn. rewrite app_nil_r. by destruct q.
  - change (apply_frames _ q) with
      (apply_frames (all_frames fs BwProbe bw_probe_body) (apply_frame (to_u8 BwProbe) (bw_probe_body f) q)).
    rewrite IH, apply_bw_probe by done. destruct q. cbn. by rewrite <- (assoc (++)).
Qed.

Lemma apply_all_traces fs q : apply_frames (all_frames fs Trace trace_body) q = set_trace (trace q ++ fs) q.
Proof.
  revert q. induction fs as [|f fs IH]; intros q.
  - cbn. rewrite app_nil_r. by destruct q.
  - change (apply_frames _ q) with
      (apply_frames (all_frames fs Trace trace_body) (apply_frame (to_u8 Trace) (trace_body f) q)).
    rewrite IH, apply_trace. destruct q. cbn. by rewrite <- (assoc (++)).
Qed.

Lemma option_map_id {A} (o : option A) : option_map (λ x, x) o = o.
Proof. by destruct o. Qed.

Lemma apply_frames_of p : typed p → apply_frames (frames_of p) new = clamped p.
Proof.
  intros []. unfold frames_of. rewrite !apply_frames_app.
  rewrite (apply_opt (ack p) Ack ack_body set_ack (λ f, f) _ _ (λ f q, apply_ack q f)) by done.
  rewrite (apply_opt (nak p) Nak nak_body set_nak (λ f, f) _ _ (λ f q, apply_nak q f)) by done.
  rewrite (apply_opt (loss p) Loss loss_body set_loss (λ f, f) (λ _, True) _ (λ f q _, apply_loss q f))
    by (done || by destruct (loss p)).
  rewrite (apply_opt (timing p) _ _ _ _ _ _ (λ f q, apply_timing q f)) by done.
  rewrite (apply_opt (ring p) Ring ring_body set_ring (λ f, f) (λ _, True) _ (λ f q _, apply_ring q f))
    by (done || by destruct (ring p)).
  rewrite (apply_opt (path p) _ _ _ _ _ _ (λ f q, apply_path q f)) by done.
  rewrite (apply_opt (link p) Link link_body set_link (λ f, f) (λ _, True) _ (λ f q _, apply_link q f))
    by (done || by destruct (link p)).
  rewrite (apply_opt (loss_acct p) LossAcct loss_acct_body set_loss_acct (λ f, f) _ _ (λ f q, apply_loss_acct q f)) by done.
  rewrite (apply_opt (pmtu p) Pmtu pmtu_body set_pmtu (λ f, f) _ _ (λ f q, apply_pmtu q f)) by done.
  rewrite apply_all_probes, apply_all_traces by done.
  rewrite (apply_opt (avail_bw p) _ _ _ _ _ _ (λ f q, apply_avail_bw q f)) by done.
  rewrite (apply_opt (forecast p) _ _ _ _ _ _ (λ f q, apply_forecast q f)) by done.
  rewrite (apply_opt (periodicity p) _ _ _ _ _ _ (λ f q, apply_periodicity q f)) by done.
  rewrite (apply_opt (session_challenge p) _ _ _ _ _ _ (λ f q H, proj1 (apply_session q f H))) by done.
  rewrite (apply_opt (session_response p) _ _ _ _ _ _ (λ f q H, proj2 (apply_session q f H))) by done.
  rewrite (apply_opt (session_announce p) SessionAnnounce announce_body set_session_announce (λ f, f) _ _
    (λ f q, apply_announce q f)) by done.
  rewrite !option_map_id. reflexivity.
Qed.

Lemma put_varint_length pre v : 0 ≤ v → (length (put_varint pre v) ≤ length pre + 8)%nat.
Proof. intros Hv. unfold put_varint. rewrite length_app. pose proof (varint_nonempty v Hv). lia. Qed.

Lemma opt_all_true {A} (o : option A) : opt_all (λ _, True) o.
Proof. by destruct o. Qed.

Lemma small_opt {A} (o : option A) ty body P :
  opt_all P o → (∀ f, P f → (length (body f) ≤ 32)%nat) → Forall small_body (opt_frames o ty body).
Proof.
  intros HP Hb. destruct o as [f|]; [|constructor]. constructor; [|constructor].
  unfold small_body, MAX62. cbn. pose proof (Hb f HP). lia.
Qed.

Lemma small_all {A} (fs : list A) ty body P :
  Forall P fs → (∀ f, P f → (length (body f) ≤ 32)%nat) → Forall small_body (all_frames fs ty body).
Proof.
  intros HP Hb. unfold all_frames. apply Forall_fmap. eapply Forall_impl; [exact HP|]. intros f Hf.
  unfold small_body, MAX62. cbn. pose proof (Hb f Hf). lia.
Qed.

(** Bodies are short: three bytes and three varints at most. *)
Ltac short_body :=
  match goal with |- (length (?b _) ≤ _)%nat => unfold b | _ => idtac end;
  unfold is_u16, is_u32, is_u64 in *; destruct_and?; rewrite ?length_app;
  repeat match goal with
  | |- context [length (put_varint ?pre ?v)] =>
      lazymatch goal with
      | _ : (length (put_varint pre v) ≤ _)%nat |- _ => fail
      | _ => pose proof (put_varint_length pre v ltac:(lia))
      end
  | H : context [length (put_varint ?pre ?v)] |- _ =>
      lazymatch goal with
      | _ : (length (put_varint pre v) ≤ _)%nat |- _ => fail
      | _ => pose proof (put_varint_length pre v ltac:(lia))
      end
  end; cbn [length] in *; lia.

Lemma frames_small p : typed p → Forall small_body (frames_of p).
Proof.
  intros []. unfold frames_of. rewrite !Forall_app. split_and!;
    first [eapply small_opt; [eassumption|] | eapply small_all; [eassumption|]
          | eapply (small_opt _ _ _ (λ _, True)); [apply opt_all_true|]
          | eapply (small_all _ _ _ (λ _, True)); [by apply Forall_true|]];
    cbn beta; intros f Hf; try short_body; cbn; lia.
Qed.

(** * Properties *)

(** The 64-bit fields of a packet. *)
Definition wide_fields (p : ControlPacket) : list Z :=
  match timing p with Some f => [send_ts f; echo_ts f] | None => [] end ++
  match path p with Some f => [ce_count f; ect_count f] | None => [] end ++
  (bw_send_ts <$> bw_probe p) ++
  match avail_bw p with Some f => [avail_kbps f; capacity_kbps f] | None => [] end ++
  match forecast p with Some f => [forecast_kbps f] | None => [] end ++
  match periodicity p with Some f => [period_ds f; secs_to_spike_ds f] | None => [] end ++
  match session_challenge p with Some f => [nonce f] | None => [] end ++
  match session_response p with Some f => [nonce f] | None => [] end.

Lemma clamped_id p : Forall (λ v, v < 2 ^ 62) (wide_fields p) → clamped p = p.
Proof.
  unfold wide_fields. rewrite !Forall_app. intros (H1 & H2 & H3 & H4 & H5 & H6 & H7 & H8). destruct p.
  unfold clamped. cbn in *. f_equal.
  - destruct timing0 as [[]|]; [|done]. cbn in *. rewrite !Forall_cons in H1. destruct_and?. by rewrite !clamp_small.
  - destruct path0 as [[]|]; [|done]. cbn in *. rewrite !Forall_cons in H2. destruct_and?. by rewrite !clamp_small.
  - induction bw_probe0 as [|[] l IH]; [done|]. cbn in *. rewrite Forall_cons in H3. destruct H3.
    unfold clamp_probe at 1. cbn. by rewrite clamp_small, IH.
  - destruct avail_bw0 as [[]|]; [|done]. cbn in *. rewrite !Forall_cons in H4. destruct_and?. by rewrite !clamp_small.
  - destruct forecast0 as [[]|]; [|done]. cbn in *. rewrite !Forall_cons in H5. destruct_and?. by rewrite !clamp_small.
  - destruct periodicity0 as [[]|]; [|done]. cbn in *. rewrite !Forall_cons in H6. destruct_and?. by rewrite !clamp_small.
  - destruct session_challenge0 as [[]|]; [|done]. cbn in *. rewrite !Forall_cons in H7. destruct_and?.
    unfold clamp_session. cbn. by rewrite !clamp_small.
  - destruct session_response0 as [[]|]; [|done]. cbn in *. rewrite !Forall_cons in H8. destruct_and?.
    unfold clamp_session. cbn. by rewrite !clamp_small.
Qed.

Lemma decode_wire_frames fs : Forall small_body fs →
  decode_control (PKT_CONTROL :: wire fs) = Some (Some (apply_frames fs new)).
Proof.
  intros Hfs. destruct (decode_control_wire fs [] Hfs) as [fuel E]. rewrite app_nil_r in E. rewrite E.
  change (S (length (wire fs))) with (length (PKT_CONTROL :: wire fs)). by rewrite decode_end.
Qed.

Lemma decode_encode p : typed p → decode_control (encode_control p) = Some (Some (clamped p)).
Proof.
  intros Hp. rewrite encode_wire, decode_wire_frames by (by apply frames_small).
  by rewrite apply_frames_of.
Qed.

(** C12: decoding an encoded packet gives the packet back, with every 64-bit
    field clamped to 62 bits and so unchanged when it fits, and every 16- and
    32-bit field and every probe and trace of a train intact. *)
Theorem control_round_trip p :
  typed p →
  decode_control (encode_control p) = Some (Some (clamped p)) ∧
  (Forall (λ v, v < 2 ^ 62) (wide_fields p) → decode_control (encode_control p) = Some (Some p)).
Proof.
  intros Hp. split; [by apply decode_encode|]. intros Hw. by rewrite decode_encode, clamped_id.
Qed.

(** C13: decoding returns for every byte string, and [None] exactly for one that
    is not a control datagram; a frame of a type the decoder does not know,
    anywhere, is skipped without touching the others; a datagram cut inside a
    frame decodes to the frames before the cut. *)
Theorem control_decode_robust :
  (∀ buf, ∃ o, decode_control buf = Some o ∧ (o = None ↔ is_control buf = false)) ∧
  (∀ fs1 f fs2, Forall small_body (fs1 ++ f :: fs2) → from_u8 f.1 = None →
     decode_control (PKT_CONTROL :: wire (fs1 ++ f :: fs2)) = decode_control (PKT_CONTROL :: wire (fs1 ++ fs2))) ∧
  (∀ fs f n, Forall small_body (fs ++ [f]) → (n < length (wire_frame f))%nat →
     decode_control (PKT_CONTROL :: wire fs ++ take n (wire_frame f)) = decode_control (PKT_CONTROL :: wire fs)).
Proof.
  split_and!.
  - intros buf. unfold decode_control. destruct (is_control buf); cbn [negb]; [|by exists None].
    assert (∀ fuel pos p, (length buf - pos ≤ fuel)%nat → ∃ p', decode_loop fuel buf pos p = Some p') as Hl.
    { induction fuel as [|fuel IH]; intros pos p Hf; cbn [decode_loop].
      - rewrite lookup_ge_None_2 by lia. by eexists.
      - destruct (buf !! pos) as [ty|]; [|by eexists].
        destruct (get_varint buf (pos + 1)) as [[len next]|] eqn:Ev; [|by eexists].
        apply get_varint_next in Ev. destruct (_ <? _); [by eexists|]. apply IH. lia. }
    destruct (Hl (length buf) 1%nat new ltac:(lia)) as [p' ->]. exists (Some p'). done.
  - intros fs1 f fs2 Hs Hu. rewrite !decode_wire_frames.
    + rewrite !apply_frames_app. do 2 f_equal. cbn. f_equal. unfold apply_frame. by rewrite Hu.
    + by apply Forall_app in Hs as [? [_ ?]%Forall_cons]; apply Forall_app.
    + done.
  - intros fs f n [Hs [Hf _]%Forall_cons]%Forall_app Hn. rewrite (decode_wire_frames fs) by done.
    destruct (decode_control_wire fs (take n (wire_frame f)) Hs) as [fuel ->].
    pose proof (decode_cut fuel (PKT_CONTROL :: wire fs) f n (apply_frames fs new) Hf Hn) as E. cbn [app length] in E.
    by rewrite E.
Qed.

(** Padding never changes what a datagram decodes to; it is left out when
    fewer than 67 bytes are missing, and otherwise brings the datagram to exactly
    the target length, provided the padding body is below 2^14 bytes: from
    there to 2^30 its length takes a four-byte varint and the datagram is two
    bytes too long. *)
Lemma control_padding p target :
  typed p → Z.of_nat target < 2 ^ 30 →
  let buf := encode_control p in
  let buf' := pad_control_to buf target in
  decode_control buf' = decode_control buf ∧
  Z.of_nat (length buf') =
    if (target <? length buf + HEADER + 64)%nat then Z.of_nat (length buf)
    else if Z.of_nat (target - length buf - HEADER) <? 2 ^ 14 then Z.of_nat target else Z.of_nat target + 2.
Proof.
  intros Hp Ht buf buf'. unfold buf', pad_control_to.
  destruct (Nat.ltb_spec target (length buf + HEADER + 64)) as [|Hge]; [done|].
  set (n := (target - length buf - HEADER)%nat). unfold HEADER in *.
  assert (put_varint (buf ++ [PAD_TYPE]) (Z.of_nat n) ++ replicate n 0 =
    PKT_CONTROL :: wire (frames_of p ++ [(PAD_TYPE, replicate n 0)])) as E.
  { unfold buf. rewrite encode_wire, wire_app. unfold put_varint, wire at 2, wire_frame. cbn.
    rewrite length_replicate, app_nil_r. by rewrite <- !(assoc (++)). }
  split.
  - rewrite E. unfold buf. rewrite encode_wire, !decode_wire_frames.
    + by rewrite apply_frames_app.
    + by apply frames_small.
    + apply Forall_app. split; [by apply frames_small|]. constructor; [|constructor].
      unfold small_body, MAX62. cbn. rewrite length_replicate. lia.
  - unfold put_varint. rewrite !length_app, length_replicate. cbn [length].
    assert (64 ≤ Z.of_nat n < 2 ^ 30) as Hn by lia. unfold varint.
    rewrite Z.min_l by (unfold MAX62; lia). rewrite (proj2 (Z.ltb_ge _ (2 ^ 6))) by lia.
    destruct (Z.ltb_spec (Z.of_nat n) (2 ^ 14)); cbn [length]; [lia|].
    rewrite (proj2 (Z.ltb_lt _ (2 ^ 30))) by lia. cbn [length]. rewrite tail_be_bytes, length_be_bytes. lia.
Qed.

(** [is_empty] does not look at the frames added after the probes and
    traces: a packet that carries a bandwidth report, a forecast, a cadence or a
    session frame, and nothing else, counts as empty, yet its encoding carries
    that frame. *)
Lemma control_is_empty_incomplete :
  (∀ p, is_empty p = true ↔
     ack p = None ∧ nak p = None ∧ loss p = None ∧ timing p = None ∧ ring p = None ∧ path p = None ∧
     link p = None ∧ loss_acct p = None ∧ pmtu p = None ∧ bw_probe p = [] ∧ trace p = []) ∧
  ∃ p q : ControlPacket, is_empty p = true ∧ encode_control p ≠ encode_control new ∧
    session_challenge p = Some (MkSession 7 9) ∧ is_empty q = true ∧ avail_bw q = Some (MkAvailBw 1 2) ∧
    encode_control q ≠ encode_control new.
Proof.
  split.
  - intros p. unfold is_empty. rewrite !andb_true_iff.
    assert (∀ A (o : option A), is_none o = true ↔ o = None) as Hn by (by intros A [x|]).
    assert (∀ A (l : list A), is_nil l = true ↔ l = []) as Hl by (by intros A [|x l]).
    rewrite !Hn, !Hl. tauto.
  - exists (set_session_challenge (Some (MkSession 7 9)) new), (set_avail_bw (Some (MkAvailBw 1 2)) new).
    split_and!; try reflexivity; vm_compute; discriminate.
Qed.

(** ** Witnesses *)

Definition packet1 : ControlPacket :=
  set_timing (Some (MkTiming (2 ^ 62 + 5) 300)) (set_bw_probe [MkBwProbe 1 0 70000; MkBwProbe 1 1 70001]
    (set_nak (Some (MkNak 17 0xF0F0F0F0)) (set_session_response (Some (MkSession 3 (2 ^ 61))) new))).

Lemma packet1_typed : typed packet1.
Proof.
  by repeat first [constructor | split].
Qed.

Lemma control_round_trip_witness :
  decode_control (encode_control packet1) = Some (Some (clamped packet1)) ∧
  timing (clamped packet1) = Some (MkTiming (2 ^ 62 - 1) 300).
Proof. split; [apply (control_round_trip packet1 packet1_typed)|reflexivity]. Defined.

Lemma control_decode_robust_witness :
  decode_control (PKT_CONTROL :: wire ([(1, [5])] ++ (200, [1; 2; 3]) :: [(9, [64; 100])])) =
    Some (Some (set_ack (Some (MkAck 5)) (set_pmtu (Some (MkPmtu 100)) new))) ∧
  decode_control (PKT_CONTROL :: wire [(1, [5])] ++ take 3 (wire_frame (9, [64; 100]))) =
    Some (Some (set_ack (Some (MkAck 5)) new)).
Proof.
  destruct control_decode_robust as (_ & Hu & Hc). split.
  - rewrite (Hu [(1, [5])] (200, [1; 2; 3]) [(9, [64; 100])]); [reflexivity| |reflexivity].
    repeat constructor; vm_compute; discriminate.
  - rewrite (Hc [(1, [5])] (9, [64; 100]) 3%nat); [reflexivity| |vm_compute; lia].
    repeat constructor; vm_compute; discriminate.
Defined.
