(* ===== verification/ResidueFec.v ===== *)
(** The residue erasure code of [crates/subetha-cxc/src/residue_fec.rs]:
    redundant residues modulo a table of primes above [2^16], reconstruction by
    Garner's mixed-radix algorithm, and the striping of the code over packets.

    Words keep their width ([u32], [u64] reductions are written where the code
    computes in them), so the Barrett bound and the sums that must not overflow
    are proved.  A buffer the caller passes to be filled is a result; its length
    is a parameter where the code checks it.  An out-of-range index of a slice
    is [Panic]. *)
From Stdlib Require Import Znumtheory.
From S2P Require Import Prelude.

Definition MODULI : list Z :=
  [65537; 65539; 65543; 65551; 65557; 65563; 65579; 65581;
   65587; 65599; 65609; 65617; 65629; 65633; 65647; 65651;
   65657; 65677; 65687; 65699; 65701; 65707; 65713; 65717;
   65719; 65729; 65731; 65761; 65777; 65789; 65809; 65827].

Definition MAX_MODULI : nat := length MODULI.
Definition BARRETT_SHIFT : Z := 34.

Definition modulus (i : nat) : Z := MODULI !!! i.
Arguments modulus : simpl never.

(** The table of reciprocals, computed at compile time. *)
Definition BARRETT : list Z := (λ m, Z.shiftl 1 BARRETT_SHIFT / m) <$> MODULI.

Definition reduce (x : Z) (idx : nat) : Z :=
  let m := modulus idx in
  let q := Z.shiftr (u64 (x * BARRETT !!! idx)) BARRETT_SHIFT in
  let r := u64 (x - q * m) in
  let r := if m <=? r then r - m else r in
  let r := if m <=? r then r - m else r in
  u32 r.

Inductive ResidueError := TooManyModuli | NotEnoughResidues | BadResidueIndex | LengthMismatch.

(** [mod_inv]: square and multiply by [m - 2]; [None] when [fuel] iterations do
    not end the loop. *)
Fixpoint mod_inv_loop (fuel : nat) (result base exp m : Z) : option Z :=
  if exp <=? 0 then Some result
  else match fuel with
  | O => None
  | S fuel =>
      let result := if Z.land exp 1 =? 1 then u64 (result * base) mod m else result in
      mod_inv_loop fuel result (u64 (base * base) mod m) (Z.shiftr exp 1) m
  end.

Definition mod_inv (a m : Z) : Z := u32 (default 0 (mod_inv_loop 32 1 (a mod m) (m - 2) m)).

Record ResidueCode := MkCode { k : nat; n : nat; inv : list Z; residual : list Z }.

(** [for i in 0..n { for j in 0..n { out[i * n + j] = f(i, j) } }]. *)
Definition table (n : nat) (f : nat → nat → Z) : list Z := f' ← seq 0 n; (λ j, f f' j) <$> seq 0 n.

Definition code_new (k r : nat) : res ResidueError ResidueCode :=
  let n := (k + r)%nat in
  if ((k =? 0) || (MAX_MODULI <? n))%nat then Err TooManyModuli
  else Ok (MkCode k n
    (table n (λ i j, if (i =? j)%nat then 0 else mod_inv (modulus i mod modulus j) (modulus j)))
    (table n (λ i j, modulus i mod modulus j))).

Definition redundancy (c : ResidueCode) : nat := (n c - k c)%nat.

(** The inner loop of [mixed_radix] over the earlier digits. *)
Fixpoint take_out (c : ResidueCode) (idx : nat) (earlier : list (nat * Z)) (value : Z) : Z :=
  match earlier with
  | [] => value
  | (prev_idx, digit) :: earlier =>
      let m := modulus idx in
      let d := reduce digit idx in
      let value := u32 (value + (m - d)) in
      let value := if m <=? value then value - m else value in
      take_out c idx earlier (reduce (u64 (value * (inv c !!! (prev_idx * n c + idx)%nat))) idx)
  end.

(** The outer loop; [ds] are the (index, digit) pairs so far. *)
Fixpoint mixed_radix_loop (c : ResidueCode) (have : list (nat * Z)) (ds : list (nat * Z)) :
    res ResidueError (list (nat * Z)) :=
  match have with
  | [] => Ok ds
  | (idx, residue) :: have =>
      if (n c <=? idx)%nat then Err BadResidueIndex
      else mixed_radix_loop c have (ds ++ [(idx, take_out c idx ds (reduce residue idx))])
  end.

(** [mixed_radix] into a buffer of [len] digits. *)
Definition mixed_radix (c : ResidueCode) (have : list (nat * Z)) (len : nat) : res ResidueError (list Z) :=
  if negb (len =? length have)%nat then Err LengthMismatch
  else ds ← mixed_radix_loop c have []; Ok ds.*2.

(** [evaluate_mod]: [for slot in (0..digits.len()).rev()]. *)
Fixpoint evaluate_loop (c : ResidueCode) (have : list (nat * Z)) (digits : list Z) (target : nat) (slot : nat) (acc : Z) : Z :=
  let t := modulus target in
  match slot with
  | O => acc
  | S slot' =>
      let acc := u32 (acc + reduce (digits !!! slot') target) in
      let acc := if t <=? acc then acc - t else acc in
      match slot' with
      | O => acc
      | S before =>
          let step := residual c !!! ((have !!! before).1 * n c + target)%nat in
          evaluate_loop c have digits target slot' (reduce (u64 (acc * step)) target)
      end
  end.

Definition evaluate_mod (c : ResidueCode) (have : list (nat * Z)) (digits : list Z) (target : nat) : Z :=
  evaluate_loop c have digits target (length digits) 0.

(** [encode] into a buffer of [repair_len] residues. *)
Definition encode (c : ResidueCode) (chunks : list Z) (repair_len : nat) : res ResidueError (list Z) :=
  if negb (length chunks =? k c)%nat || negb (repair_len =? redundancy c)%nat then Err LengthMismatch
  else
    let have := imap (λ i x, (i, x)) chunks in
    digits ← mixed_radix c have (k c);
    Ok ((λ slot, evaluate_mod c have digits (k c + slot)) <$> seq 0 repair_len).

(** The residues that arrived: an array of [MAX_MODULI] words and a bit mask. *)
Fixpoint gather (c : ResidueCode) (have : list (nat * Z)) (residues : list Z) (present : Z) :
    res ResidueError (list Z * Z) :=
  match have with
  | [] => Ok (residues, present)
  | (idx, residue) :: have =>
      if (n c <=? idx)%nat then Err BadResidueIndex
      else if Z.land present (Z.shiftl 1 (Z.of_nat idx)) =? 0
      then gather c have (<[idx := residue]> residues) (Z.lor present (Z.shiftl 1 (Z.of_nat idx)))
      else gather c have residues present
  end.

(** The first [want] residues that are present, in index order. *)
Fixpoint select (idxs : list nat) (residues : list Z) (present : Z) (want : nat) : list (nat * Z) :=
  match idxs, want with
  | [], _ | _, O => []
  | idx :: idxs, S want' =>
      if negb (Z.land present (Z.shiftl 1 (Z.of_nat idx)) =? 0)
      then (idx, residues !!! idx) :: select idxs residues present want'
      else select idxs residues present want
  end.

(** [used.iter().find(|(idx, _)| *idx == i)]. *)
Fixpoint find_index (used : list (nat * Z)) (i : nat) : option Z :=
  match used with
  | [] => None
  | (idx, residue) :: used => if (idx =? i)%nat then Some residue else find_index used i
  end.

(** [decode] into a buffer of [out_len] chunks. *)
Definition decode (c : ResidueCode) (have : list (nat * Z)) (out_len : nat) : res ResidueError (list Z) :=
  if negb (out_len =? k c)%nat then Err LengthMismatch
  else if (length have <? k c)%nat then Err NotEnoughResidues
  else
    '(residues, present) ← gather c have (replicate MAX_MODULI 0) 0;
    if (count_ones 32 present <? k c)%nat then Err NotEnoughResidues
    else
      let used := select (seq 0 (n c)) residues present (k c) in
      digits ← mixed_radix c used (k c);
      Ok ((λ i, match find_index used i with
                | Some residue => u16 residue
                | None => u16 (evaluate_mod c used digits i)
                end) <$> seq 0 out_len).

(** * The tables *)

Lemma modulus_lookup i : (i < 32)%nat → MODULI !! i = Some (modulus i).
Proof. intros Hi. exact (list_lookup_lookup_total_lt (A := Z) MODULI i Hi). Qed.

Lemma modulus_range i : (i < 32)%nat → 65536 < modulus i < 65828.
Proof.
  intros Hi. assert (Forall (λ m, 65536 < m < 65828) MODULI) as H by (repeat constructor; lia).
  apply (Forall_lookup_1 _ _ i _ H). by apply modulus_lookup.
Qed.

Lemma BARRETT_lookup i : (i < 32)%nat → BARRETT !!! i = 2 ^ 34 / modulus i.
Proof.
  intros Hi. apply list_lookup_total_correct. unfold BARRETT.
  by rewrite list_lookup_fmap, modulus_lookup.
Qed.

(** Facts about pairs of moduli, checked by evaluation. *)
Definition all_pairs (P : nat → nat → bool) : bool :=
  forallb (λ i, forallb (P i) (seq 0 32)) (seq 0 32).

Lemma all_pairs_spec P i j : all_pairs P = true → (i < 32)%nat → (j < 32)%nat → P i j = true.
Proof.
  unfold all_pairs. intros H Hi Hj. rewrite forallb_forall in H.
  specialize (H i ltac:(apply in_seq; lia)). rewrite forallb_forall in H. apply H, in_seq. lia.
Qed.

Lemma modulus_mono i j : (i < j < 32)%nat → modulus i < modulus j.
Proof.
  intros Hij. assert (all_pairs (λ i j, (j <=? i)%nat || (modulus i <? modulus j)) = true) as H
    by (vm_compute; reflexivity).
  apply (all_pairs_spec _ i j) in H; [|lia..]. apply orb_true_iff in H as [E|E].
  - apply Nat.leb_le in E. lia.
  - by apply Z.ltb_lt.
Qed.

(** Every modulus has the computed inverse modulo every other. *)
Lemma mod_inv_spec i j :
  (i < 32)%nat → (j < 32)%nat → i ≠ j →
  (modulus i * mod_inv (modulus i mod modulus j) (modulus j)) mod modulus j = 1.
Proof.
  intros Hi Hj Hij. assert (all_pairs (λ i j, (i =? j)%nat ||
    ((modulus i * mod_inv (modulus i mod modulus j) (modulus j)) mod modulus j =? 1)) = true) as H
    by (vm_compute; reflexivity).
  apply (all_pairs_spec _ i j) in H; [|done..]. apply orb_true_iff in H as [E|E].
  - by apply Nat.eqb_eq in E.
  - by apply Z.eqb_eq.
Qed.

Lemma mod_inv_loop_ends fuel result base exp m :
  exp < 2 ^ Z.of_nat fuel → is_Some (mod_inv_loop fuel result base exp m).
Proof.
  revert result base exp. induction fuel as [|fuel IH]; intros result base exp He; cbn [mod_inv_loop].
  - cbn in He. rewrite (proj2 (Z.leb_le exp 0)) by lia. by eexists.
  - destruct (Z.leb_spec exp 0); [by eexists|]. apply IH.
    rewrite Nat2Z.inj_succ, Z.pow_succ_r in He by lia. rewrite Z.shiftr_div_pow2 by lia.
    apply Z.div_lt_upper_bound; lia.
Qed.

Lemma mod_inv_bound a m : 0 ≤ mod_inv a m < 2 ^ 32.
Proof. by apply (wrap_bound 32). Qed.

Lemma table_lookup n f i j : (i < n)%nat → (j < n)%nat → table n f !!! (i * n + j)%nat = f i j.
Proof.
  intros Hi Hj. unfold table. rewrite list_lookup_total_alt.
  assert (∀ l a, (a < length l)%nat →
    (l ≫= (λ x, (λ y, f x y) <$> seq 0 n)) !! (a * n + j)%nat = Some (f (l !!! a) j)) as H.
  { induction l as [|x l IH]; intros a Ha; [cbn in Ha; lia|]. cbn [mbind list_bind].
    destruct a as [|a].
    - rewrite lookup_app_l by (rewrite length_fmap, length_seq; lia). cbn.
      rewrite list_lookup_fmap, lookup_seq_lt by lia. done.
    - rewrite lookup_app_r by (rewrite length_fmap, length_seq; lia). rewrite length_fmap, length_seq.
      replace (S a * n + j - n)%nat with (a * n + j)%nat by lia. apply IH. cbn in Ha. lia. }
  rewrite H by (by rewrite length_seq). cbn. f_equal. by rewrite lookup_total_seq_lt.
Qed.

(** * Barrett reduction *)

Lemma reduce_spec x idx : (idx < 32)%nat → 0 ≤ x < 2 ^ 34 → reduce x idx = x mod modulus idx.
Proof.
  intros Hi Hx. unfold reduce. rewrite BARRETT_lookup by done. pose proof (modulus_range idx Hi) as Hm.
  set (m := modulus idx) in *. set (b := 2 ^ 34 / m).
  pose proof (Z.div_mod (2 ^ 34) m ltac:(lia)) as Eb. fold b in Eb.
  pose proof (Z.mod_pos_bound (2 ^ 34) m ltac:(lia)) as Rb.
  assert (0 ≤ b < 2 ^ 18) as Hb by (split; [apply Z.div_pos; lia|apply Z.div_lt_upper_bound; lia]).
  assert (0 ≤ x * b ≤ 2 ^ 34 * 2 ^ 18) as Hxb
    by (split; [apply Z.mul_nonneg_nonneg; lia|apply Z.mul_le_mono_nonneg; lia]).
  rewrite (wrap_small 64 (x * b)) by lia. unfold BARRETT_SHIFT. rewrite Z.shiftr_div_pow2 by lia.
  set (q := x * b / 2 ^ 34). pose proof (Z.div_mod (x * b) (2 ^ 34) ltac:(lia)) as Eq. fold q in Eq.
  pose proof (Z.mod_pos_bound (x * b) (2 ^ 34) ltac:(lia)) as Rq.
  assert (q * m ≤ x) as Hlo.
  { apply (Z.mul_le_mono_pos_r _ _ (2 ^ 34)); [lia|]. assert (x * (b * m) ≤ x * 2 ^ 34) by (apply Z.mul_le_mono_nonneg_l; lia). nia. }
  assert (x < (q + 2) * m) as Hhi.
  { apply (Z.mul_lt_mono_pos_r (2 ^ 34)); [lia|].
    assert (x * 2 ^ 34 ≤ x * (m * b + m)) by (apply Z.mul_le_mono_nonneg_l; lia).
    assert (x * m < 2 ^ 34 * m) by (apply Z.mul_lt_mono_pos_r; lia). nia. }
  rewrite (wrap_small 64 (x - q * m)) by lia.
  assert (∀ r, 0 ≤ r < m → r = x - q * m ∨ r = x - q * m - m → u32 r = x mod m) as Hend.
  { intros r Hr He. rewrite (wrap_small 32) by lia. symmetry. destruct He as [-> | ->].
    - symmetry. apply (Z.mod_unique_pos x m q); lia.
    - symmetry. apply (Z.mod_unique_pos x m (q + 1)); lia. }
  destruct (Z.leb_spec m (x - q * m)).
  - destruct (Z.leb_spec m (x - q * m - m)); [lia|]. apply Hend; [lia|by right].
  - destruct (Z.leb_spec m (x - q * m)); [lia|]. apply Hend; [lia|by left].
Qed.

(** * Mixed radix *)

(** The value of digits, each with the index of its modulus, least significant
    first, above [x]. *)
Definition mr (ds : list (nat * Z)) (x : Z) : Z := foldr (λ '(i, d) acc, d + modulus i * acc) x ds.

Definition digit_ok (d : nat * Z) : Prop := (d.1 < 32)%nat ∧ 0 ≤ d.2 < modulus d.1.

Definition product (idxs : list nat) : Z := foldr (λ i acc, modulus i * acc) 1 idxs.

Lemma mr_app ds es x : mr (ds ++ es) x = mr ds (mr es x).
Proof. apply foldr_app. Qed.

Lemma mr_bound ds : Forall digit_ok ds → 0 ≤ mr ds 0 < product ds.*1.
Proof.
  induction 1 as [|[i d] ds [Hi Hd] Hds IH]; [cbn; lia|]. cbn [mr foldr fmap list_fmap product fst snd] in *.
  fold (mr ds 0). fold (product ds.*1). pose proof (modulus_range i Hi).
  assert (modulus i * mr ds 0 ≤ modulus i * (product ds.*1 - 1)) by (apply Z.mul_le_mono_nonneg_l; lia). nia.
Qed.

(** A code as [code_new] builds it. *)
Record code_ok (c : ResidueCode) : Prop := {
  ok_k : (1 ≤ k c ≤ n c)%nat;
  ok_n : (n c ≤ 32)%nat;
  ok_inv i j : (i < n c)%nat → (j < n c)%nat → i ≠ j →
    inv c !!! (i * n c + j)%nat = mod_inv (modulus i mod modulus j) (modulus j);
  ok_residual i j : (i < n c)%nat → (j < n c)%nat → residual c !!! (i * n c + j)%nat = modulus i mod modulus j;
}.

Lemma code_new_ok a b c : code_new a b = Ok c → code_ok c ∧ k c = a ∧ n c = (a + b)%nat.
Proof.
  unfold code_new. destruct (Nat.eqb_spec a 0); [done|]. cbn [orb].
  destruct (Nat.ltb_spec MAX_MODULI (a + b)); [done|]. intros [= <-]. split; [|done].
  split; cbn [k n inv residual].
  - lia.
  - done.
  - intros i j Hi Hj Hij. rewrite table_lookup by done. by rewrite (proj2 (Nat.eqb_neq i j)).
  - intros i j Hi Hj. by rewrite table_lookup.
Qed.

(** Inverses are reduced, so products stay below [2^34]. *)
Lemma mod_inv_lt i j : (i < 32)%nat → (j < 32)%nat → i ≠ j →
  0 ≤ mod_inv (modulus i mod modulus j) (modulus j) < modulus j.
Proof.
  intros Hi Hj Hij. assert (all_pairs (λ i j, (mod_inv (modulus i mod modulus j) (modulus j) <? modulus j)) = true) as H
    by (vm_compute; reflexivity).
  apply (all_pairs_spec _ i j) in H; [|done..]. apply Z.ltb_lt in H. pose proof (mod_inv_bound (modulus i mod modulus j) (modulus j)). lia.
Qed.

Section garner.
Context (c : ResidueCode) (Hc : code_ok c).

Lemma idx_lt i : (i < n c)%nat → (i < 32)%nat.
Proof using Hc. pose proof (ok_n c Hc). lia. Qed.

(** Subtraction modulo [m], as the loop does it. *)
Lemma sub_mod_step m v d : 65536 < m < 65828 → 0 ≤ v < m → 0 ≤ d < m →
  let w := u32 (v + (m - d)) in
  let w := if m <=? w then w - m else w in
  0 ≤ w < m ∧ w = (v - d) mod m.
Proof using.
  intros Hm Hv Hd. rewrite (wrap_small 32) by lia. cbn zeta.
  destruct (Z.leb_spec m (v + (m - d))).
  - split; [lia|]. apply (Z.mod_unique_pos _ _ 0); lia.
  - split; [lia|]. apply (Z.mod_unique_pos _ _ (-1)); lia.
Qed.

Lemma take_out_spec idx ds v :
  (idx < n c)%nat → Forall digit_ok ds → (∀ i, i ∈ ds.*1 → (i < n c)%nat ∧ i ≠ idx) → 0 ≤ v < modulus idx →
  0 ≤ take_out c idx ds v < modulus idx ∧ (mr ds (take_out c idx ds v)) mod modulus idx = v.
Proof using Hc.
  intros Hidx Hds. revert v. induction Hds as [|[i d] ds [Hi Hd] Hds IH]; intros v Hin Hv.
  { cbn. split; [done|]. by apply Z.mod_small. }
  pose proof (modulus_range idx (idx_lt idx Hidx)) as Hm. set (m := modulus idx) in *. cbn [fst snd] in *.
  destruct (Hin i) as [Hic Hne]; [set_solver|]. pose proof (modulus_range i Hi) as Hmi.
  pose proof (idx_lt idx Hidx) as Hidx32.
  cbn [take_out]. fold m. rewrite (reduce_spec d idx) by (done || lia). fold m.
  destruct (sub_mod_step m v (d mod m) Hm Hv (Z.mod_pos_bound d m ltac:(lia))) as [Hw Ew]. cbn zeta in Hw, Ew.
  set (w := if m <=? _ then _ else _) in *.
  rewrite (ok_inv c Hc) by done. fold m. set (a := mod_inv (modulus i mod m) m).
  pose proof (mod_inv_lt i idx Hi Hidx32 Hne) as Ha. fold m in Ha. fold a in Ha.
  pose proof (mod_inv_spec i idx Hi Hidx32 Hne) as Ei. fold m in Ei. fold a in Ei.
  assert (0 ≤ w * a < 2 ^ 34) as Hwa by nia.
  rewrite (wrap_small 64), reduce_spec by (done || lia). fold m.
  destruct (IH ((w * a) mod m)) as [Hr Er]; [intros j Hj; apply Hin; set_solver|apply Z.mod_pos_bound; lia|].
  split; [done|]. cbn [mr foldr]. fold (mr ds (take_out c idx ds ((w * a) mod m))).
  rewrite <- Zplus_mod_idemp_r, <- Zmult_mod_idemp_r, Er, Zmult_mod_idemp_r, Zplus_mod_idemp_r.
  replace (d + modulus i * (w * a)) with (d + (modulus i * a) * w) by lia.
  rewrite <- Zplus_mod_idemp_r, <- Zmult_mod_idemp_l, Ei, Z.mul_1_l, Zplus_mod_idemp_r, Ew.
  rewrite Zplus_mod_idemp_r. replace (d + (v - d mod m)) with (v + (d - d mod m)) by lia.
  rewrite <- Zplus_mod_idemp_r, Zminus_mod_idemp_r, Z.sub_diag, Z.mod_0_l, Z.add_0_r by lia.
  by apply Z.mod_small.
Qed.

Lemma mixed_radix_loop_spec have ds :
  NoDup (ds.*1 ++ have.*1) → Forall digit_ok ds → (∀ i, i ∈ ds.*1 ++ have.*1 → (i < n c)%nat) →
  Forall (λ h, 0 ≤ h.2 < 2 ^ 34) have →
  ∃ es, mixed_radix_loop c have ds = Ok (ds ++ es) ∧ es.*1 = have.*1 ∧ Forall digit_ok es ∧
    ∀ idx r, (idx, r) ∈ have → (mr (ds ++ es) 0) mod modulus idx = r mod modulus idx.
Proof using Hc.
  revert ds. induction have as [|[idx r] have IH]; intros ds Hnd Hds Hlt Hr.
  { exists []. rewrite app_nil_r. split_and!; [done|done|constructor|]. intros ?? []%elem_of_nil. }
  cbn [fmap list_fmap fst] in *. apply Forall_cons in Hr as [Hr Hrs]. cbn in Hr.
  assert (idx < n c)%nat as Hidx by (apply Hlt; set_solver).
  pose proof (modulus_range idx (idx_lt idx Hidx)) as Hm.
  cbn [mixed_radix_loop]. rewrite (proj2 (Nat.leb_gt _ _) Hidx).
  rewrite reduce_spec by (done || by apply idx_lt). set (d := take_out _ _ _ _).
  destruct (take_out_spec idx ds (r mod modulus idx)) as [Hd Ed]; [done|done| |apply Z.mod_pos_bound; lia|].
  { intros i Hi. split; [apply Hlt; set_solver|]. intros ->. apply NoDup_app in Hnd as (_ & Hx & _).
    apply (Hx idx Hi). set_solver. }
  fold d in Hd, Ed. destruct (IH (ds ++ [(idx, d)])) as (es & E & Ee & Hes & Hmod).
  - rewrite fmap_app. cbn. by rewrite <- (assoc (++)).
  - apply Forall_app. split; [done|]. constructor; [|constructor]. split; [by apply idx_lt|done].
  - intros i. rewrite fmap_app. cbn. rewrite <- (assoc (++)). apply Hlt.
  - done.
  - exists ((idx, d) :: es). rewrite <- (assoc (++)) in E. cbn [app] in E. split_and!; [done|by cbn; rewrite Ee| |].
    + constructor; [split; [by apply idx_lt|done]|done].
    + intros i s [[= -> ->]|Hin]%elem_of_cons.
      * rewrite mr_app. cbn [mr foldr]. fold (mr es 0).
        assert (∀ l x y, x mod modulus idx = y mod modulus idx → mr l x mod modulus idx = mr l y mod modulus idx) as Hcong.
        { induction l as [|[j e] l IHl]; intros x y Hxy; [done|]. cbn. fold (mr l x). fold (mr l y).
          rewrite <- Zplus_mod_idemp_r, <- Zmult_mod_idemp_r, (IHl x y Hxy), Zmult_mod_idemp_r, Zplus_mod_idemp_r.
          done. }
        rewrite (Hcong ds _ d); [done|]. by rewrite Z.mul_comm, Z.mod_add by lia.
      * specialize (Hmod i s Hin). by rewrite <- (assoc (++)) in Hmod.
Qed.

(** ** Evaluating the digits *)

Lemma evaluate_loop_spec ds have target slot acc :
  (target < n c)%nat → Forall digit_ok ds → have.*1 = ds.*1 → (∀ i, i ∈ ds.*1 → (i < n c)%nat) →
  (0 < slot ≤ length ds)%nat → 0 ≤ acc < modulus target →
  acc = (modulus (ds !!! (slot - 1)%nat).1 * mr (drop slot ds) 0) mod modulus target →
  evaluate_loop c have ds.*2 target slot acc = (mr ds 0) mod modulus target.
Proof using Hc.
  intros Ht Hds Eh Hlt. set (t := modulus target). pose proof (modulus_range target (idx_lt _ Ht)) as Hm. fold t in Hm.
  revert acc. induction slot as [|s IH]; intros acc Hs Hacc Eacc; [lia|].
  replace (S s - 1)%nat with s in Eacc by lia.
  assert (∃ i d, ds !! s = Some (i, d)) as (i & d & Es).
  { destruct (lookup_lt_is_Some_2 ds s ltac:(lia)) as [[i d] E]. eauto. }
  pose proof (Forall_lookup_1 _ _ _ _ Hds Es) as [Hi Hd]. cbn in Hi, Hd. pose proof (modulus_range i Hi) as Hmi.
  rewrite (list_lookup_total_correct _ _ _ Es) in Eacc. cbn [fst] in Eacc.
  cbn [evaluate_loop]. fold t.
  assert (ds.*2 !!! s = d) as -> by (apply list_lookup_total_correct; by rewrite list_lookup_fmap, Es).
  rewrite reduce_spec by (lia || by apply idx_lt). fold t.
  assert (∀ acc', 0 ≤ acc' < t → acc' = (mr (drop s ds) 0) mod t →
    (match s with
     | 0%nat => acc'
     | S before => evaluate_loop c have ds.*2 target s
         (reduce (u64 (acc' * (residual c !!! ((have !!! before).1 * n c + target)%nat))) target)
     end) = mr ds 0 mod t) as Hend.
  { intros acc' Hacc' Eacc'. destruct s as [|b]; [done|].
    assert (∃ j e, ds !! b = Some (j, e)) as (j & e & Eb).
    { destruct (lookup_lt_is_Some_2 ds b ltac:(lia)) as [[j e] E]. eauto. }
    pose proof (Forall_lookup_1 _ _ _ _ Hds Eb) as [Hj _]. cbn in Hj.
    assert ((have !!! b).1 = j) as ->.
    { assert (have.*1 !! b = Some j) as E by (by rewrite Eh, list_lookup_fmap, Eb).
      rewrite list_lookup_fmap in E. destruct (have !! b) as [p|] eqn:Ep; [|done]. injection E as <-.
      by rewrite (list_lookup_total_correct _ _ _ Ep). }
    assert (j < n c)%nat as Hjc by (apply Hlt; eapply list_elem_of_lookup_2; by rewrite list_lookup_fmap, Eb).
    rewrite (ok_residual c Hc) by done. fold t. pose proof (Z.mod_pos_bound (modulus j) t ltac:(lia)).
    rewrite (wrap_small 64), reduce_spec by (done || nia || by apply idx_lt). fold t.
    apply IH; [lia|by apply Z.mod_pos_bound; lia|].
    replace (S b - 1)%nat with b by lia. rewrite (list_lookup_total_correct _ _ _ Eb). cbn [fst].
    by rewrite Zmult_mod_idemp_r, Eacc', Zmult_mod_idemp_l, Z.mul_comm. }
  assert ((acc + d mod t) mod t = (mr (drop s ds) 0) mod t) as Esum.
  { rewrite (drop_S _ _ _ Es). cbn [mr foldr]. fold (mr (drop (S s) ds) 0).
    by rewrite Zplus_mod_idemp_r, Eacc, Zplus_mod_idemp_l, Z.add_comm. }
  pose proof (Z.mod_pos_bound d t ltac:(lia)). rewrite (wrap_small 32) by lia.
  destruct (Z.leb_spec t (acc + d mod t)); apply Hend; try lia.
  - rewrite <- Esum. apply (Z.mod_unique_pos _ _ 1); lia.
  - rewrite <- Esum. symmetry. apply Z.mod_small. lia.
Qed.

Lemma evaluate_mod_spec ds have target :
  (target < n c)%nat → Forall digit_ok ds → have.*1 = ds.*1 → (∀ i, i ∈ ds.*1 → (i < n c)%nat) →
  evaluate_mod c have ds.*2 target = (mr ds 0) mod modulus target.
Proof using Hc.
  intros Ht Hds Eh Hlt. pose proof (modulus_range target (idx_lt _ Ht)). unfold evaluate_mod. rewrite length_fmap.
  destruct ds as [|d ds]; [cbn; by rewrite Z.mod_0_l by lia|].
  apply evaluate_loop_spec; [done..| |lia|].
  - cbn. lia.
  - rewrite drop_all. cbn [mr foldr]. by rewrite Z.mul_0_r, Z.mod_0_l by lia.
Qed.
End garner.

(** * Uniqueness *)

Lemma moduli_coprime i j : (i < 32)%nat → (j < 32)%nat → i ≠ j → rel_prime (modulus i) (modulus j).
Proof.
  intros Hi Hj Hij. pose proof (mod_inv_spec i j Hi Hj Hij) as E. pose proof (modulus_range j Hj).
  set (a := mod_inv _ _) in E. apply bezout_rel_prime.
  apply (Bezout_intro _ _ _ a (- ((modulus i * a) / modulus j))).
  pose proof (Z.div_mod (modulus i * a) (modulus j) ltac:(lia)). lia.
Qed.

Lemma product_coprime i idxs :
  (i < 32)%nat → (∀ j, j ∈ idxs → (j < 32)%nat ∧ j ≠ i) → rel_prime (modulus i) (product idxs).
Proof.
  intros Hi. induction idxs as [|j idxs IH]; intros Hin; cbn [product foldr].
  - apply rel_prime_sym, rel_prime_1.
  - fold (product idxs). destruct (Hin j) as [Hj Hne]; [set_solver|]. apply rel_prime_mult.
    + by apply moduli_coprime.
    + apply IH. intros l Hl. apply Hin. set_solver.
Qed.

Lemma product_divides idxs x :
  NoDup idxs → (∀ i, i ∈ idxs → (i < 32)%nat) → (∀ i, i ∈ idxs → (modulus i | x)) → (product idxs | x).
Proof.
  induction idxs as [|i idxs IH]; intros Hnd Hlt Hdiv; cbn [product foldr]; [apply Z.divide_1_l|].
  fold (product idxs). apply NoDup_cons in Hnd as [Hni Hnd].
  assert ((product idxs | x)) as [q ->].
  { apply IH; [done|intros j Hj; apply Hlt; set_solver|intros j Hj; apply Hdiv; set_solver]. }
  assert ((modulus i | q)) as [p ->]; [|exists p; lia].
  apply (Gauss _ (product idxs)).
  - rewrite Z.mul_comm. apply Hdiv. set_solver.
  - apply product_coprime; [apply Hlt; set_solver|]. intros j Hj. split; [apply Hlt; set_solver|].
    intros ->. done.
Qed.

(** The Chinese remainder theorem, for the part that is needed. *)
Lemma crt_unique idxs x y :
  NoDup idxs → (∀ i, i ∈ idxs → (i < 32)%nat) → 0 ≤ x < product idxs → 0 ≤ y < product idxs →
  (∀ i, i ∈ idxs → x mod modulus i = y mod modulus i) → x = y.
Proof.
  intros Hnd Hlt Hx Hy Heq.
  assert ((product idxs | x - y)) as [q Eq].
  { apply product_divides; [done..|]. intros i Hi. pose proof (modulus_range i (Hlt i Hi)).
    apply Z.mod_divide; [lia|]. by rewrite Zminus_mod, (Heq i Hi), Z.sub_diag, Z.mod_0_l by lia. }
  assert (q = 0) as -> by nia. lia.
Qed.

(** The first [length idxs] moduli have the smallest product. *)
Lemma product_least idxs a :
  (∀ i j x y, idxs !! i = Some x → idxs !! j = Some y → (i < j)%nat → (x < y)%nat) →
  (∀ x, x ∈ idxs → (a ≤ x < 32)%nat) → (0 < product (seq a (length idxs)) ≤ product idxs).
Proof.
  revert a. induction idxs as [|x idxs IH]; intros a Hsort Hlt; cbn [length seq product foldr]; [cbn; lia|].
  fold (product (seq (S a) (length idxs))). fold (product idxs).
  assert (a ≤ x < 32)%nat as Hx by (apply Hlt; set_solver).
  assert (modulus a ≤ modulus x) as Hm.
  { destruct (decide (a = x)) as [->|]; [lia|]. pose proof (modulus_mono a x ltac:(lia)). lia. }
  pose proof (modulus_range a ltac:(lia)). pose proof (modulus_range x ltac:(lia)).
  destruct (IH (S a)) as [H1 H2].
  - intros i j u v Hi Hj Hij. apply (Hsort (S i) (S j)); [done..|lia].
  - intros y Hy. split; [|apply Hlt; set_solver]. apply list_elem_of_lookup in Hy as [j Hj].
    pose proof (Hsort 0%nat (S j) x y eq_refl Hj ltac:(lia)). lia.
  - split; [nia|]. apply Z.mul_le_mono_nonneg; lia.
Qed.

(** * Encoding *)

(** [cw i], for [i < n], is the [i]-th residue of a value. *)
Definition codeword (v : Z) (i : nat) : Z := v mod modulus i.

Definition is_chunk (x : Z) : Prop := 0 ≤ x < 2 ^ 16.

Lemma imap_fst (l : list Z) : (imap (λ i x, (i, x)) l).*1 = seq 0 (length l).
Proof.
  apply list_eq. intros i. rewrite list_lookup_fmap, list_lookup_imap.
  destruct (l !! i) as [x|] eqn:E; cbn.
  - apply lookup_lt_Some in E. by rewrite lookup_seq_lt.
  - apply lookup_ge_None in E. by rewrite lookup_seq_ge.
Qed.

Lemma elem_of_imap (l : list Z) i x : (i, x) ∈ imap (λ i x, (i, x)) l ↔ l !! i = Some x.
Proof.
  rewrite list_elem_of_lookup. setoid_rewrite list_lookup_imap. split.
  - intros (j & E). destruct (l !! j) eqn:Ej; [|done]. cbn in E. by injection E as -> ->.
  - intros E. exists i. by rewrite E.
Qed.

Lemma mixed_radix_spec c have :
  code_ok c → NoDup have.*1 → (∀ i, i ∈ have.*1 → (i < n c)%nat) → Forall (λ h, 0 ≤ h.2 < 2 ^ 34) have →
  ∃ ds, mixed_radix c have (length have) = Ok ds.*2 ∧ ds.*1 = have.*1 ∧ Forall digit_ok ds ∧
    ∀ idx r, (idx, r) ∈ have → (mr ds 0) mod modulus idx = r mod modulus idx.
Proof.
  intros Hc Hnd Hlt Hr. unfold mixed_radix. rewrite Nat.eqb_refl. cbn [negb].
  destruct (mixed_radix_loop_spec c Hc have []) as (ds & -> & E & Hds & Hm); [done|constructor|done|done|].
  by exists ds.
Qed.

Lemma encode_spec c chunks :
  code_ok c → length chunks = k c → Forall is_chunk chunks →
  ∃ v repair, encode c chunks (redundancy c) = Ok repair ∧ 0 ≤ v < product (seq 0 (k c)) ∧
    length repair = redundancy c ∧
    ∀ i, (i < n c)%nat → (chunks ++ repair) !! i = Some (codeword v i).
Proof.
  intros Hc El Hch. pose proof (ok_k c Hc) as Hk. pose proof (ok_n c Hc) as Hn.
  unfold encode. rewrite El, !Nat.eqb_refl. cbn [negb orb].
  set (have := imap (λ i x, (i, x)) chunks).
  assert (have.*1 = seq 0 (k c)) as Eh by (unfold have; rewrite imap_fst; by rewrite El).
  assert (length have = k c) as Elh by (unfold have; by rewrite length_imap).
  destruct (mixed_radix_spec c have Hc) as (ds & Emr & Ed & Hds & Hm).
  - rewrite Eh. apply NoDup_seq.
  - intros i. rewrite Eh, elem_of_seq. lia.
  - apply Forall_forall. intros [i x] Hx. apply elem_of_imap, (Forall_lookup_1 _ _ _ _ Hch) in Hx.
    unfold is_chunk in Hx. cbn. lia.
  - rewrite Elh in Emr. rewrite Emr. cbn [mbind res_bind]. exists (mr ds 0). eexists. split; [done|].
    pose proof (mr_bound ds Hds) as Hb. rewrite Ed, Eh in Hb. split; [done|].
    split; [by rewrite length_fmap, length_seq|]. intros i Hi.
    destruct (decide (i < k c)%nat).
    + rewrite lookup_app_l by lia. destruct (lookup_lt_is_Some_2 chunks i ltac:(lia)) as [x Ex]. rewrite Ex.
      f_equal. unfold codeword. rewrite (Hm i x) by (by apply elem_of_imap).
      pose proof (Forall_lookup_1 _ _ _ _ Hch Ex) as Hx. unfold is_chunk in Hx.
      pose proof (modulus_range i ltac:(lia)). symmetry. apply Z.mod_small. lia.
    + rewrite lookup_app_r by lia. rewrite El, list_lookup_fmap, lookup_seq_lt by (unfold redundancy; lia). cbn.
      f_equal. replace (k c + (i - k c))%nat with i by lia. unfold codeword.
      apply (evaluate_mod_spec c Hc); [done|done|congruence|]. intros j. rewrite Ed, Eh, elem_of_seq. lia.
Qed.

(** * Decoding *)

Lemma land_bit p i : 0 ≤ i → (Z.land p (Z.shiftl 1 i) =? 0) = negb (Z.testbit p i).
Proof.
  intros Hi. rewrite Z.shiftl_1_l. destruct (Z.testbit p i) eqn:E; cbn.
  - apply Z.eqb_neq. intros H. assert (Z.testbit (Z.land p (2 ^ i)) i = true) as Hb
      by (by rewrite Z.land_spec, E, Z.pow2_bits_true).
    by rewrite H, Z.bits_0 in Hb.
  - apply Z.eqb_eq, Z.bits_inj'. intros j Hj. rewrite Z.land_spec, Z.bits_0, Z.pow2_bits_eqb by lia.
    destruct (Z.eqb_spec i j) as [->|]; [by rewrite E|apply andb_false_r].
Qed.

Definition bit (p : Z) (i : nat) : bool := Z.testbit p (Z.of_nat i).

Lemma gather_spec c have residues present v :
  code_ok c → Forall (λ h, (h.1 < n c)%nat ∧ h.2 = codeword v h.1) have → length residues = 32%nat →
  (∀ i, bit present i = true → residues !!! i = codeword v i) →
  ∃ residues' present', gather c have residues present = Ok (residues', present') ∧
    (∀ i, bit present' i = bit present i || bool_decide (i ∈ have.*1)) ∧
    (∀ i, bit present' i = true → residues' !!! i = codeword v i).
Proof.
  intros Hc Hh. revert residues present. induction Hh as [|[idx r] have [Hi Hr] Hh IH]; intros residues present Hl Hp.
  { exists residues, present. split_and!; [done| |done]. intros i. rewrite bool_decide_eq_false_2 by apply not_elem_of_nil.
    by rewrite orb_false_r. }
  cbn [fst snd] in *. pose proof (ok_n c Hc). cbn [gather]. rewrite (proj2 (Nat.leb_gt _ _)) by done.
  rewrite land_bit by lia. fold (bit present idx).
  assert (∀ p' i, bit p' i || bool_decide (i ∈ have.*1) = bit present i || bool_decide (i ∈ ((idx, r) :: have).*1) ↔
    bit p' i || bool_decide (i ∈ have.*1) = bit present i || (bool_decide (i = idx) || bool_decide (i ∈ have.*1))) as Hb.
  { intros p' i. cbn. by rewrite (bool_decide_ext (i ∈ idx :: have.*1) (i = idx ∨ i ∈ have.*1) (elem_of_cons _ _ _)), bool_decide_or. }
  destruct (bit present idx) eqn:Eb; cbn [negb].
  - destruct (IH residues present Hl Hp) as (r' & p' & E & H1 & H2). exists r', p'. split_and!; [done| |done].
    intros i. rewrite H1. apply Hb. destruct (decide (i = idx)) as [->|Hne]; [by rewrite Eb|].
    by rewrite (bool_decide_eq_false_2 (i = idx)).
  - assert (∀ i, bit (Z.lor present (Z.shiftl 1 (Z.of_nat idx))) i = bit present i || bool_decide (i = idx)) as Hbit.
    { intros i. unfold bit. rewrite Z.lor_spec, Z.shiftl_1_l, Z.pow2_bits_eqb by lia. f_equal.
      destruct (Z.eqb_spec (Z.of_nat idx) (Z.of_nat i)); case_bool_decide; lia || done. }
    destruct (IH (<[idx := r]> residues) (Z.lor present (Z.shiftl 1 (Z.of_nat idx)))) as (r' & p' & E & H1 & H2).
    + by rewrite length_insert.
    + intros i. rewrite Hbit. intros [Hpi|Hpi]%orb_true_iff.
      * rewrite list_lookup_total_insert_ne by (intros ->; congruence). by apply Hp.
      * apply bool_decide_eq_true in Hpi as ->. rewrite list_lookup_total_insert_eq by lia. done.
    + exists r', p'. split_and!; [done| |done]. intros i. rewrite H1. apply Hb. rewrite Hbit. by rewrite orb_assoc.
Qed.

Lemma count_ones_filter m x : count_ones m x = length (filter (λ i, bit x i = true) (seq 0 m)).
Proof.
  revert x. induction m as [|m IH]; intros x; [done|]. cbn [count_ones seq].
  assert (∀ l, length (filter (λ i, bit x i = true) (S <$> l)) = length (filter (λ i, bit (Z.div2 x) i = true) l)) as Hs.
  { induction l as [|i l IHl]; [done|]. cbn [fmap list_fmap]. rewrite !filter_cons.
    assert (bit x (S i) = bit (Z.div2 x) i) as ->.
    { unfold bit. rewrite Nat2Z.inj_succ. by rewrite Z.div2_spec, Z.shiftr_spec, Z.add_1_r by lia. }
    case_decide; cbn; by rewrite IHl. }
  rewrite <- fmap_S_seq, filter_cons. rewrite IH, <- Hs.
  assert (bit x 0 = Z.odd x) as -> by (unfold bit; apply Z.bit0_odd).
  by destruct (Z.odd x).
Qed.

Lemma select_spec idxs residues present want :
  select idxs residues present want =
  take want ((λ i, (i, residues !!! i)) <$> filter (λ i, bit present i = true) idxs).
Proof.
  revert want. induction idxs as [|i idxs IH]; intros [|want]; cbn [select]; try (by rewrite ?take_nil).
  rewrite land_bit by lia. fold (bit present i). rewrite negb_involutive, filter_cons.
  destruct (bit present i) eqn:E.
  - rewrite decide_True by done. cbn. by rewrite IH.
  - rewrite decide_False by congruence. apply IH.
Qed.

Lemma find_index_spec used i :
  match find_index used i with
  | Some r => (i, r) ∈ used
  | None => i ∉ used.*1
  end.
Proof.
  induction used as [|[j r] used IH]; cbn; [apply not_elem_of_nil|].
  destruct (Nat.eqb_spec j i) as [->|Hn]; [apply elem_of_cons; by left|].
  destruct (find_index used i); [apply elem_of_cons; by right|].
  apply not_elem_of_cons. done.
Qed.

(** Increasing lists. *)
Definition incr (l : list nat) : Prop :=
  ∀ i j x y, l !! i = Some x → l !! j = Some y → (i < j)%nat → (x < y)%nat.

Lemma incr_filter_seq (P : nat → Prop) `{∀ i, Decision (P i)} a m : incr (filter P (seq a m)).
Proof.
  revert a. induction m as [|m IH]; intros a; [intros ???? [=]|]. cbn [seq]. rewrite filter_cons.
  case_decide; [|apply IH]. intros [|i] [|j] x y; cbn; try lia.
  - intros [= <-] Hj _. apply list_elem_of_lookup_2, list_elem_of_filter in Hj as [_ Hj]. apply elem_of_seq in Hj. lia.
  - intros Hi Hj Hij. apply (IH (S a) i j); [done..|lia].
Qed.

Lemma incr_take m l : incr l → incr (take m l).
Proof.
  intros Hl i j x y. rewrite !lookup_take_Some. intros [Hi _] [Hj _]. by apply (Hl i j).
Qed.

Lemma received_indices c (have : list (nat * Z)) present :
  code_ok c → (∀ i, i ∈ have.*1 → (i < n c)%nat) → (∀ i, bit present i = bool_decide (i ∈ have.*1)) →
  filter (λ i, bit present i = true) (seq 0 (n c)) ≡ₚ remove_dups have.*1 ∧
  count_ones 32 present = length (remove_dups have.*1).
Proof.
  intros Hc Hlt Hb. pose proof (ok_n c Hc).
  assert (filter (λ i, bit present i = true) (seq 0 (n c)) ≡ₚ remove_dups have.*1) as HL.
  { apply NoDup_Permutation; [apply NoDup_filter, NoDup_seq|apply NoDup_remove_dups|].
    intros i. rewrite list_elem_of_filter, elem_of_remove_dups, Hb, bool_decide_eq_true, elem_of_seq.
    split; [tauto|]. intros Hi. split; [done|]. pose proof (Hlt i Hi). lia. }
  split; [done|]. rewrite count_ones_filter. replace 32%nat with (n c + (32 - n c))%nat by lia.
  rewrite seq_app, filter_app, length_app, HL.
  assert (filter (λ i, bit present i = true) (seq (0 + n c) (32 - n c)) = []) as ->; [|cbn; lia].
  apply elem_of_nil_inv. intros x Hx.
  apply list_elem_of_filter in Hx as [Hx Hs]. rewrite Hb, bool_decide_eq_true in Hx. apply elem_of_seq in Hs.
  pose proof (Hlt x Hx). lia.
Qed.

Lemma decode_spec c have v :
  code_ok c → 0 ≤ v < product (seq 0 (k c)) → (∀ i, (i < k c)%nat → is_chunk (codeword v i)) →
  Forall (λ h, (h.1 < n c)%nat ∧ h.2 = codeword v h.1) have →
  decode c have (k c) =
    if (k c <=? length (remove_dups have.*1))%nat then Ok (codeword v <$> seq 0 (k c)) else Err NotEnoughResidues.
Proof.
  intros Hc Hv Hch Hh. pose proof (ok_k c Hc) as Hk. pose proof (ok_n c Hc) as Hn.
  assert (∀ i, i ∈ have.*1 → (i < n c)%nat) as Hlt.
  { intros i Hi. apply list_elem_of_fmap in Hi as ([j r] & -> & Hj). by apply (proj1 (Forall_forall _ _) Hh) in Hj as [? _]. }
  unfold decode. rewrite Nat.eqb_refl. cbn [negb].
  destruct (Nat.ltb_spec (length have) (k c)) as [Hshort|_].
  { rewrite (proj2 (Nat.leb_gt _ _)); [done|]. eapply Nat.le_lt_trans; [|exact Hshort].
    rewrite <- (length_fmap fst have). apply submseteq_length. apply NoDup_submseteq; [apply NoDup_remove_dups|]. intros i. by rewrite elem_of_remove_dups. }
  destruct (gather_spec c have (replicate MAX_MODULI 0) 0 v Hc Hh) as (rs & ps & -> & Hb & Hrs); [done| |].
  { intros i Hi. unfold bit in Hi. by rewrite Z.bits_0 in Hi. }
  assert (∀ i, bit ps i = bool_decide (i ∈ have.*1)) as Hb'.
  { intros i. rewrite Hb. unfold bit. by rewrite Z.bits_0. }
  destruct (received_indices c have ps Hc Hlt Hb') as [HL Ecount]. cbn [mbind res_bind]. rewrite Ecount.
  destruct (Nat.leb_spec (k c) (length (remove_dups have.*1))) as [Henough|Hfew].
  2:{ by rewrite (proj2 (Nat.ltb_lt _ _)). }
  rewrite (proj2 (Nat.ltb_ge _ _)) by done. rewrite select_spec.
  set (L := filter (λ i, bit ps i = true) (seq 0 (n c))) in *.
  set (used := take (k c) ((λ i, (i, rs !!! i)) <$> L)).
  assert (used.*1 = take (k c) L) as Eu.
  { unfold used. rewrite fmap_take, <- list_fmap_compose. f_equal. apply list_fmap_id. }
  assert (length used = k c) as Elu.
  { unfold used. rewrite length_take, length_fmap, HL. lia. }
  assert (∀ i r, (i, r) ∈ used → (i < n c)%nat ∧ r = codeword v i) as Hused.
  { intros i r Hi. apply elem_of_take in Hi as (j & Hj & _). rewrite list_lookup_fmap in Hj.
    destruct (L !! j) as [i'|] eqn:Ej; [|done]. injection Hj as <- <-. rename Ej into Hj.
    apply list_elem_of_lookup_2, list_elem_of_filter in Hj as [Hbi Hs]. apply elem_of_seq in Hs.
    split; [lia|]. by apply Hrs. }
  assert (NoDup used.*1) as Hnd.
  { rewrite Eu. apply (sublist_NoDup _ L); [apply NoDup_filter, NoDup_seq|apply sublist_take]. }
  assert (∀ i, i ∈ used.*1 → (i < n c)%nat) as Hult.
  { intros i Hi. apply list_elem_of_fmap in Hi as ([j r] & -> & Hj). by apply (Hused j r). }
  destruct (mixed_radix_spec c used Hc Hnd Hult) as (ds & Emr & Ed & Hds & Hm).
  { apply Forall_forall. intros [i r] Hi. destruct (Hused i r Hi) as [Hin ->]. cbn. unfold codeword.
    pose proof (modulus_range i ltac:(lia)). pose proof (Z.mod_pos_bound v (modulus i) ltac:(lia)). lia. }
  rewrite Elu in Emr. rewrite Emr. cbn [mbind res_bind].
  assert (mr ds 0 = v) as Emv.
  { assert (product (seq 0 (k c)) ≤ product used.*1) as Hle.
    { rewrite Eu. destruct (product_least (take (k c) L) 0) as [_ Hp].
      - apply incr_take, incr_filter_seq.
      - intros x. rewrite <- Eu. intros Hx. pose proof (Hult x Hx). lia.
      - rewrite <- Eu, length_fmap, Elu in Hp. by rewrite <- Eu. }
    pose proof (mr_bound ds Hds) as Hb0. rewrite Ed in Hb0.
    apply (crt_unique used.*1); [done| |lia|lia|].
    - intros i Hi. pose proof (Hult i Hi). lia.
    - intros i Hi. apply list_elem_of_fmap in Hi as ([j r] & -> & Hj). cbn. rewrite (Hm j r Hj).
      destruct (Hused j r Hj) as [Hjn ->]. unfold codeword. pose proof (modulus_range j ltac:(lia)).
      by rewrite Z.mod_mod by lia. }
  f_equal. apply list_fmap_ext. intros p i Hi. apply lookup_seq in Hi as [-> Hi]. cbn [Nat.add].
  assert (u16 (codeword v p) = codeword v p) as Eu16 by (apply (wrap_small 16), Hch; lia).
  pose proof (find_index_spec used p) as Hf. destruct (find_index used p) as [r|].
  - by destruct (Hused p r Hf) as [_ ->].
  - rewrite (evaluate_mod_spec c Hc ds used p); [by rewrite Emv|lia|done|congruence|].
    intros j. rewrite Ed. apply Hult.
Qed.

(** * Packets *)

Definition OVERFLOW_COUNT_BYTES : nat := 2.

Record PacketResidueCode := MkPacketCode { code : ResidueCode }.

Definition packet_new (k r : nat) : res ResidueError PacketResidueCode :=
  c ← code_new k r; Ok (MkPacketCode c).

(** [u16::from_le_bytes([p[at], p[at + 1]])], and its inverse. *)
Definition read_u16 (p : list Z) (at_ : nat) : res ResidueError Z :=
  match p !! at_, p !! (at_ + 1)%nat with Some a, Some b => Ok (a + 256 * b) | _, _ => Panic end.
Definition le_u16 (x : Z) : list Z := [u8 x; u8 (Z.shiftr x 8)].

(** [body[at..at + 2].copy_from_slice(bytes)]. *)
Definition write_at (at_ : nat) (bytes body : list Z) : list Z :=
  take at_ body ++ bytes ++ drop (at_ + length bytes) body.

Fixpoint map_res {E A B} (f : A → res E B) (l : list A) : res E (list B) :=
  match l with
  | [] => Ok []
  | x :: l => y ← f x; ys ← map_res f l; Ok (y :: ys)
  end.

(** One column of [encode_packets]: its residues go into the bodies, and those
    above [u16::MAX] into the overflow lists. *)
Definition write_column (col : nat) (residues : list Z) (out : list (list Z * list Z)) : list (list Z * list Z) :=
  zip_with (λ '(body, overflow) r,
    (write_at (col * 2) (le_u16 (u16 r)) body,
     if 65535 <? r then overflow ++ [u16 (Z.of_nat col)] else overflow)) out residues.

Fixpoint encode_columns (c : ResidueCode) (sources : list (list Z)) (cols : list nat)
    (out : list (list Z * list Z)) : res ResidueError (list (list Z * list Z)) :=
  match cols with
  | [] => Ok out
  | col :: cols =>
      chunks ← map_res (λ src, read_u16 src (col * 2)) sources;
      residues ← encode c chunks (redundancy c);
      encode_columns c sources cols (write_column col residues out)
  end.

(** A body with its overflow list appended. *)
Definition finish_packet (b : list Z * list Z) : list Z :=
  b.1 ++ le_u16 (u16 (Z.of_nat (length b.2))) ++ concat (le_u16 <$> b.2).

Definition encode_packets (p : PacketResidueCode) (sources : list (list Z)) : res ResidueError (list (list Z)) :=
  let c := code p in
  if negb (length sources =? k c)%nat then Err LengthMismatch
  else
    let len := length (sources !!! 0%nat) in
    if negb (Nat.modulo len 2 =? 0)%nat || existsb (λ s, negb (length s =? len)%nat) sources then Err LengthMismatch
    else
      let cols := seq 0 (Nat.div len 2) in
      out ← encode_columns c sources cols (replicate (redundancy c) (replicate len 0, []));
      Ok (map finish_packet out).

(** The overflow lists of the repair packets that arrived. *)
Fixpoint read_overflows (k len : nat) (have : list (nat * list Z)) : res ResidueError (list (nat * list Z)) :=
  match have with
  | [] => Ok []
  | (idx, packet) :: have =>
      if (idx <? k)%nat then read_overflows k len have
      else if (length packet <? len + OVERFLOW_COUNT_BYTES)%nat then Err LengthMismatch
      else
        count ← read_u16 packet len;
        let count := Z.to_nat count in
        if (length packet <? len + OVERFLOW_COUNT_BYTES + count * 2)%nat then Err LengthMismatch
        else
          cols ← map_res (λ c, read_u16 packet (len + OVERFLOW_COUNT_BYTES + c * 2)) (seq 0 count);
          rest ← read_overflows k len have;
          Ok ((idx, cols) :: rest)
  end.

Fixpoint overflowed (sets : list (nat * list Z)) (idx col : nat) : bool :=
  match sets with
  | [] => false
  | (i, cols) :: sets => if (i =? idx)%nat then existsb (Z.eqb (u16 (Z.of_nat col))) cols else overflowed sets idx col
  end.

(** One column of the packets that arrived. *)
Definition read_column (k : nat) (sets : list (nat * list Z)) (col : nat) (have : list (nat * list Z)) :
    res ResidueError (list (nat * Z)) :=
  map_res (λ '(idx, packet),
    low ← read_u16 packet (col * 2);
    Ok (idx, if (idx <? k)%nat then low else if overflowed sets idx col then low + Z.shiftl 1 16 else low)) have.

Fixpoint decode_columns (c : ResidueCode) (sets : list (nat * list Z)) (have : list (nat * list Z)) (cols : list nat)
    (out : list (list Z)) : res ResidueError (list (list Z)) :=
  match cols with
  | [] => Ok out
  | col :: cols =>
      column ← read_column (k c) sets col have;
      recovered ← decode c column (k c);
      decode_columns c sets have cols (zip_with (λ body x, write_at (col * 2) (le_u16 x) body) out recovered)
  end.

(** [decode_packets] into [out_len] buffers. *)
Definition decode_packets (p : PacketResidueCode) (have : list (nat * list Z)) (len out_len : nat) :
    res ResidueError (list (list Z)) :=
  let c := code p in
  if negb (out_len =? k c)%nat || negb (Nat.modulo len 2 =? 0)%nat then Err LengthMismatch
  else if (length have <? k c)%nat then Err NotEnoughResidues
  else
    sets ← read_overflows (k c) len have;
    decode_columns c sets have (seq 0 (Nat.div len 2)) (replicate out_len (replicate len 0)).

(** ** Columns and bytes *)

Definition pack (xs : list Z) : list Z := concat (le_u16 <$> xs).

Lemma length_pack xs : length (pack xs) = (2 * length xs)%nat.
Proof. unfold pack. induction xs as [|x xs IH]; [done|]. cbn. unfold pack in IH. rewrite IH. lia. Qed.

Lemma pack_app xs ys : pack (xs ++ ys) = pack xs ++ pack ys.
Proof. unfold pack. by rewrite fmap_app, concat_app. Qed.

Lemma le_u16_value x : is_chunk x → u8 x + 256 * u8 (Z.shiftr x 8) = x.
Proof.
  unfold is_chunk. intros Hx. rewrite Z.shiftr_div_pow2 by lia. change (2 ^ 8) with 256.
  rewrite (wrap_small 8 (x / 256)) by (split; [apply Z.div_pos; lia|apply Z.div_lt_upper_bound; lia]).
  unfold wrap. change (2 ^ 8) with 256. pose proof (Z.div_mod x 256 ltac:(lia)). lia.
Qed.

Lemma read_u16_at p a b q : read_u16 (p ++ a :: b :: q) (length p) = Ok (a + 256 * b).
Proof.
  unfold read_u16. rewrite !lookup_app_r by lia.
  rewrite Nat.sub_diag. by replace (length p + 1 - length p)%nat with 1%nat by lia.
Qed.

(** Reading a column of packed words. *)
Lemma read_pack pre xs post i x :
  xs !! i = Some x → is_chunk x → read_u16 (pre ++ pack xs ++ post) (length pre + i * 2) = Ok x.
Proof.
  intros Hi Hx. apply list_elem_of_split_length in Hi as (l1 & l2 & -> & ->).
  assert (pre ++ pack (l1 ++ x :: l2) ++ post = (pre ++ pack l1) ++ u8 x :: u8 (Z.shiftr x 8) :: (pack l2 ++ post)) as ->.
  { rewrite pack_app. unfold pack at 2. cbn. fold (pack l2). by rewrite <- !(assoc (++)). }
  replace (length pre + length l1 * 2)%nat with (length (pre ++ pack l1)) by (rewrite length_app, length_pack; lia).
  rewrite read_u16_at. by rewrite le_u16_value.
Qed.

(** Every byte string of even length is packed words. *)
Lemma bytes_pack m s :
  length s = (2 * m)%nat → Forall (λ b, 0 ≤ b < 256) s → ∃ xs, s = pack xs ∧ length xs = m ∧ Forall is_chunk xs.
Proof.
  revert s. induction m as [|m IH]; intros s El Hs.
  - destruct s; [|cbn in El; lia]. exists []. by split_and!.
  - destruct s as [|a [|b s]]; cbn in El; try lia. rewrite !Forall_cons in Hs. destruct Hs as (Ha & Hb & Hs).
    destruct (IH s ltac:(lia) Hs) as (xs & -> & El' & Hxs). exists (a + 256 * b :: xs).
    split_and!; [|cbn; lia|constructor; [unfold is_chunk; lia|done]].
    unfold pack at 2. cbn. fold (pack xs). rewrite Z.shiftr_div_pow2 by lia. change (2 ^ 8) with 256.
    assert ((a + 256 * b) / 256 = b) as ->.
    { rewrite (Z.mul_comm 256), Z.div_add, Z.div_small by lia. lia. }
    rewrite (wrap_small 8 b) by lia. f_equal. unfold wrap. change (2 ^ 8) with 256.
    by rewrite (Z.mul_comm 256), Z.mod_add, Z.mod_small by lia.
Qed.

(** A buffer of [len] bytes whose first columns have been written. *)
Definition stripe (len : nat) (xs : list Z) : list Z := pack xs ++ replicate (len - 2 * length xs) 0.

Lemma write_stripe len xs x :
  (2 * length xs + 2 ≤ len)%nat → write_at (length xs * 2) (le_u16 x) (stripe len xs) = stripe len (xs ++ [x]).
Proof.
  intros Hl. unfold write_at, stripe. replace (length xs * 2)%nat with (length (pack xs)) by (rewrite length_pack; lia).
  rewrite take_app_length, pack_app, length_app. cbn [length le_u16]. rewrite drop_app_ge by lia.
  rewrite length_pack, drop_replicate. unfold pack at 3. cbn. rewrite <- (assoc (++)). cbn. do 4 f_equal. lia.
Qed.

(** The columns whose residue needs a seventeenth bit. *)
Fixpoint overflow_cols (a : nat) (rs : list Z) : list Z :=
  match rs with
  | [] => []
  | r :: rs => (if 65535 <? r then [u16 (Z.of_nat a)] else []) ++ overflow_cols (S a) rs
  end.

Lemma overflow_snoc a rs r :
  overflow_cols a (rs ++ [r]) =
  overflow_cols a rs ++ (if 65535 <? r then [u16 (Z.of_nat (a + length rs))] else []).
Proof.
  revert a. induction rs as [|x rs IH]; intros a; cbn.
  - by rewrite app_nil_r, Nat.add_0_r.
  - by rewrite IH, <- (assoc (++)), Nat.add_succ_r.
Qed.

Lemma overflow_length a rs : (length (overflow_cols a rs) ≤ length rs)%nat.
Proof.
  revert a. induction rs as [|x rs IH]; intros a; cbn; [done|]. rewrite length_app. pose proof (IH (S a)).
  destruct (65535 <? x); cbn; lia.
Qed.

Lemma overflow_chunks a rs : Forall is_chunk (overflow_cols a rs).
Proof.
  revert a. induction rs as [|x rs IH]; intros a; cbn; [constructor|]. apply Forall_app. split; [|done].
  destruct (65535 <? x); [|constructor]. constructor; [|constructor]. by apply (wrap_bound 16).
Qed.

Lemma overflow_spec a rs i r :
  Z.of_nat (a + length rs) ≤ 65536 → rs !! i = Some r →
  existsb (Z.eqb (u16 (Z.of_nat (a + i)))) (overflow_cols a rs) = (65535 <? r).
Proof.
  revert a i. induction rs as [|x rs IH]; intros a i Hl Hi; [done|]. cbn [length] in Hl. cbn [overflow_cols].
  rewrite existsb_app. destruct i as [|i]; cbn in Hi.
  - injection Hi as ->. rewrite Nat.add_0_r. destruct (65535 <? r); cbn; [by rewrite Z.eqb_refl|].
    assert (∀ rs a', (a < a')%nat → Z.of_nat (a' + length rs) ≤ 65536 →
      existsb (Z.eqb (u16 (Z.of_nat a))) (overflow_cols a' rs) = false) as Hno; [|apply Hno; lia].
    clear. induction rs as [|y rs IH]; intros a' Ha Hl; [done|]. cbn [length] in Hl. cbn [overflow_cols].
    rewrite existsb_app, IH, orb_false_r by lia. destruct (65535 <? y); [|done]. cbn [existsb]. rewrite orb_false_r.
    apply Z.eqb_neq. rewrite !(wrap_small 16) by lia. lia.
  - pose proof (lookup_lt_Some _ _ _ Hi). rewrite <- Nat.add_succ_comm, IH by (done || lia). destruct (65535 <? x); [|done]. cbn [existsb].
    rewrite (proj2 (Z.eqb_neq _ _)); [done|]. rewrite !(wrap_small 16) by lia. lia.
Qed.

(** ** The columns of the packets *)

Lemma map_res_ok {E A B} (f : A → res E B) (g : A → B) l :
  (∀ x, x ∈ l → f x = Ok (g x)) → map_res f l = Ok (g <$> l).
Proof.
  induction l as [|x l IH]; intros Hf; [done|]. cbn. rewrite (Hf x) by set_solver. cbn.
  rewrite IH by (intros y Hy; apply Hf; set_solver). done.
Qed.

Definition cell (xss : list (list Z)) (i col : nat) : option Z := match xss !! i with Some xs => xs !! col | None => None end.

(** Column [col] of the sources and of the repairs are residues of one value. *)
Definition col_ok (c : ResidueCode) (xss rss : list (list Z)) (col : nat) : Prop :=
  ∃ v, 0 ≤ v < product (seq 0 (k c)) ∧
    (∀ i, (i < k c)%nat → cell xss i col = Some (codeword v i)) ∧
    (∀ j, (j < redundancy c)%nat → cell rss j col = Some (codeword v (k c + j))).

Definition grid (l : list (list Z)) (rows cols : nat) : Prop :=
  length l = rows ∧ Forall (λ xs, length xs = cols) l.

Definition repair_state (len : nat) (rs : list Z) : list Z * list Z := (stripe len (u16 <$> rs), overflow_cols 0 rs).

Lemma grid_row l rows cols i : grid l rows cols → (i < rows)%nat → ∃ xs, l !! i = Some xs ∧ length xs = cols.
Proof.
  intros [Hl Hf] Hi. destruct (lookup_lt_is_Some_2 l i ltac:(lia)) as [xs E]. exists xs. split; [done|].
  exact (Forall_lookup_1 _ _ _ _ Hf E).
Qed.

Lemma grid_snoc rss col rows cols :
  grid rss rows cols → length col = rows →
  grid (zip_with (λ rs r, rs ++ [r]) rss col) rows (S cols) ∧
  (∀ i j, (j < cols)%nat → cell (zip_with (λ rs r, rs ++ [r]) rss col) i j = cell rss i j) ∧
  (∀ i, (i < rows)%nat → cell (zip_with (λ rs r, rs ++ [r]) rss col) i cols = col !! i).
Proof.
  intros Hg Hcl. pose proof Hg as [Hl Hf].
  assert (∀ i, cell (zip_with (λ rs r, rs ++ [r]) rss col) i = λ j,
    match rss !! i, col !! i with Some rs, Some r => (rs ++ [r]) !! j | _, _ => None end) as Hcell.
  { intros i. unfold cell. rewrite lookup_zip_with. destruct (rss !! i), (col !! i); done. }
  split_and!.
  - split; [rewrite length_zip_with; lia|]. apply Forall_lookup_2. intros i xs Hi. rewrite lookup_zip_with in Hi.
    destruct (rss !! i) as [rs|] eqn:E; [|done]. destruct (col !! i); [|done]. injection Hi as <-.
    rewrite length_app. pose proof (Forall_lookup_1 _ _ _ _ Hf E) as Hrs. cbn in *. lia.
  - intros i j Hj. rewrite Hcell. unfold cell. destruct (rss !! i) as [rs|] eqn:E; [|done].
    pose proof (Forall_lookup_1 _ _ _ _ Hf E) as Hrs. cbn in Hrs. pose proof (lookup_lt_Some _ _ _ E).
    destruct (lookup_lt_is_Some_2 col i ltac:(lia)) as [r ->]. by rewrite lookup_app_l by lia.
  - intros i Hi. rewrite Hcell. destruct (grid_row _ _ _ i Hg Hi) as (rs & -> & Hrs).
    destruct (lookup_lt_is_Some_2 col i ltac:(lia)) as [r ->]. by rewrite lookup_app_r, Hrs, Nat.sub_diag by lia.
Qed.

Lemma write_column_state len rss col residues :
  grid rss (length residues) col → (2 * col + 2 ≤ len)%nat →
  write_column col residues (repair_state len <$> rss) =
  repair_state len <$> zip_with (λ rs r, rs ++ [r]) rss residues.
Proof.
  intros [Hl Hf] Hlen. unfold write_column. apply list_eq. intros i.
  rewrite lookup_zip_with, !list_lookup_fmap, lookup_zip_with.
  destruct (rss !! i) as [rs|] eqn:E; [|done]. destruct (residues !! i) as [r|]; [|done].
  pose proof (Forall_lookup_1 _ _ _ _ Hf E) as Hrs. cbn in Hrs. cbn [mbind option_bind fmap option_fmap option_map].
  unfold repair_state. cbn. f_equal. f_equal.
  - rewrite fmap_app. cbn. rewrite <- write_stripe by (rewrite length_fmap; lia). by rewrite length_fmap, Hrs.
  - rewrite overflow_snoc. cbn. rewrite Hrs. destruct (65535 <? r); [done|by rewrite app_nil_r].
Qed.

Lemma encode_columns_spec c xss len m cnt rss :
  code_ok c → grid xss (k c) m → Forall (Forall is_chunk) xss → (2 * m ≤ len)%nat → (cnt ≤ m)%nat →
  grid rss (redundancy c) (m - cnt) → (∀ col, (col < m - cnt)%nat → col_ok c xss rss col) →
  ∃ rss', encode_columns c (pack <$> xss) (seq (m - cnt) cnt) (repair_state len <$> rss) = Ok (repair_state len <$> rss') ∧
    grid rss' (redundancy c) m ∧ ∀ col, (col < m)%nat → col_ok c xss rss' col.
Proof.
  intros Hc Hx Hch Hlen. revert rss. induction cnt as [|cnt IH]; intros rss Hcnt Hr Hok.
  { exists rss. rewrite Nat.sub_0_r in *. done. }
  set (a := (m - S cnt)%nat) in *. cbn [seq encode_columns].
  assert (map_res (λ src, read_u16 src (a * 2)) (pack <$> xss) = Ok ((λ xs, xs !!! a) <$> xss)) as ->.
  { assert (∀ l : list (list Z), Forall (Forall is_chunk) l → Forall (λ xs, length xs = m) l →
      map_res (λ src, read_u16 src (a * 2)) (pack <$> l) = Ok ((λ xs, xs !!! a) <$> l)) as Hgo;
      [|apply Hgo; [done|apply Hx]].
    induction l as [|xs l IHl]; intros Hc1 Hl1; [done|]. apply Forall_cons in Hc1 as [Hc0 Hc1].
    apply Forall_cons in Hl1 as [Hl0 Hl1]. cbn [fmap list_fmap map_res].
    destruct (lookup_lt_is_Some_2 xs a ltac:(lia)) as [x Ex].
    pose proof (read_pack [] xs [] a x Ex (Forall_lookup_1 _ _ _ _ Hc0 Ex)) as Er. rewrite app_nil_r in Er.
    cbn [app length Nat.add] in Er. rewrite Er. cbn [mbind res_bind].
    rewrite (list_lookup_total_correct _ _ _ Ex). rewrite IHl by done. done. }
  cbn [mbind res_bind].
  destruct (encode_spec c ((λ xs, xs !!! a) <$> xss) Hc) as (v & repair & -> & Hv & Hrl & Hcw).
  { rewrite length_fmap. apply Hx. }
  { apply Forall_fmap, Forall_lookup_2. intros i xs Hi. cbn.
    pose proof (Forall_lookup_1 _ _ _ _ Hch Hi) as Hxs. pose proof (Forall_lookup_1 _ _ _ _ (proj2 Hx) Hi) as Hl. cbn in Hl.
    destruct (lookup_lt_is_Some_2 xs a ltac:(lia)) as [x Ex]. rewrite (list_lookup_total_correct _ _ _ Ex).
    exact (Forall_lookup_1 _ _ _ _ Hxs Ex). }
  cbn [mbind res_bind]. rewrite write_column_state by (rewrite ?Hrl; done || lia).
  destruct (grid_snoc rss repair _ _ Hr Hrl) as (Hg & Hold & Hnew).
  replace (S a) with (m - cnt)%nat in * by lia. apply IH; [lia|done|].
  intros col Hcol. destruct (decide (col < a)%nat).
  - destruct (Hok col ltac:(lia)) as (w & Hw & H1 & H2). exists w. split_and!; [lia..|done|].
    intros j Hj. rewrite Hold by done. by apply H2.
  - replace col with a by lia. exists v. split_and!; [lia..| |].
    + intros i Hi. destruct (grid_row _ _ _ i Hx Hi) as (xs & Exs & Hxl). unfold cell. rewrite Exs.
      pose proof (ok_k c Hc). specialize (Hcw i ltac:(lia)). rewrite lookup_app_l in Hcw by (rewrite length_fmap, (proj1 Hx); lia).
      rewrite list_lookup_fmap, Exs in Hcw. cbn in Hcw. destruct (lookup_lt_is_Some_2 xs a ltac:(lia)) as [x Ex].
      by rewrite (list_lookup_total_correct _ _ _ Ex) in Hcw; rewrite Ex.
    + intros j Hj. rewrite Hnew by done. unfold redundancy in Hj. specialize (Hcw (k c + j)%nat ltac:(lia)).
      rewrite lookup_app_r in Hcw by (rewrite length_fmap, (proj1 Hx); lia).
      rewrite length_fmap, (proj1 Hx), Nat.add_comm, Nat.add_sub in Hcw. by rewrite Hcw, Nat.add_comm.
Qed.

(** ** Reading the packets back *)

(** The packet of a row of repair residues. *)
Definition repair_packet (rs : list Z) : list Z :=
  pack ((u16 <$> rs) ++ u16 (Z.of_nat (length (overflow_cols 0 rs))) :: overflow_cols 0 rs).

Lemma finish_state m rs : length rs = m → finish_packet (repair_state (2 * m) rs) = repair_packet rs.
Proof.
  intros Hl. unfold finish_packet, repair_state, stripe, repair_packet. cbn [fst snd].
  rewrite length_fmap, Hl, Nat.sub_diag, app_nil_r, pack_app. done.
Qed.

Definition packet_at (c : ResidueCode) (xss rss : list (list Z)) (idx : nat) : list Z :=
  if (idx <? k c)%nat then pack (xss !!! idx) else repair_packet (rss !!! (idx - k c)%nat).

Section decode.
Context (c : ResidueCode) (Hc : code_ok c) (xss rss : list (list Z)) (m : nat) (Hm : Z.of_nat m < 65536).
Context (Hx : grid xss (k c) m) (Hr : grid rss (redundancy c) m).
Context (Hch : Forall (Forall is_chunk) xss) (Hok : ∀ col, (col < m)%nat → col_ok c xss rss col).
Context (have : list (nat * list Z)) (Hh : Forall (λ h, (h.1 < n c)%nat ∧ h.2 = packet_at c xss rss h.1) have).

Lemma repair_row idx : (k c ≤ idx < n c)%nat → length (rss !!! (idx - k c)%nat) = m.
Proof using Hr.
  intros Hi. destruct (grid_row _ _ _ (idx - k c) Hr) as (rs & E & Hl); [unfold redundancy; lia|].
  by rewrite (list_lookup_total_correct _ _ _ E).
Qed.

Lemma u16_words rs : Forall is_chunk (u16 <$> rs).
Proof using. apply Forall_fmap, Forall_true. intros x. by apply (wrap_bound 16). Qed.

(** A word of a repair packet. *)
Lemma read_repair rs i x :
  ((u16 <$> rs) ++ u16 (Z.of_nat (length (overflow_cols 0 rs))) :: overflow_cols 0 rs) !! i = Some x →
  read_u16 (repair_packet rs) (i * 2) = Ok x.
Proof using.
  intros Hi. pose proof (read_pack [] _ [] i x Hi) as E. rewrite app_nil_r in E. apply E.
  refine (Forall_lookup_1 _ _ _ _ _ Hi). apply Forall_app. split; [apply u16_words|].
  constructor; [by apply (wrap_bound 16)|apply overflow_chunks].
Qed.

Definition overflow_set (idx : nat) : nat * list Z := (idx, overflow_cols 0 (rss !!! (idx - k c)%nat)).

Lemma read_overflows_spec l :
  Forall (λ h, (h.1 < n c)%nat ∧ h.2 = packet_at c xss rss h.1) l →
  read_overflows (k c) (2 * m) l = Ok (overflow_set <$> filter (λ idx, (k c ≤ idx)%nat) l.*1).
Proof using Hm Hr.
  induction 1 as [|[idx p] l [Hi Hp] Hl IH]; [done|]. cbn [fst snd] in Hi, Hp. cbn [read_overflows fmap list_fmap fst].
  rewrite filter_cons. unfold packet_at in Hp. destruct (Nat.ltb_spec idx (k c)) as [|Hge].
  { by rewrite decide_False by lia. }
  rewrite decide_True by done. set (rs := rss !!! (idx - k c)%nat) in *.
  assert (length rs = m) as Hrs by (apply repair_row; lia). pose proof (overflow_length 0 rs) as Hol.
  set (cs := overflow_cols 0 rs) in *.
  assert (length p = (2 * m + 2 + 2 * length cs)%nat) as Hpl.
  { rewrite Hp. unfold repair_packet. rewrite length_pack, length_app, length_fmap. cbn. fold cs. lia. }
  unfold OVERFLOW_COUNT_BYTES. rewrite (proj2 (Nat.ltb_ge _ _)) by lia.
  assert (read_u16 p (2 * m) = Ok (Z.of_nat (length cs))) as ->.
  { rewrite Hp, (Nat.mul_comm 2 m). erewrite read_repair; [|rewrite lookup_app_r by (rewrite length_fmap; lia);
      rewrite length_fmap, Hrs, Nat.sub_diag; done]. fold cs. by rewrite (wrap_small 16) by lia. }
  cbn [mbind res_bind]. rewrite Nat2Z.id. rewrite (proj2 (Nat.ltb_ge _ _)) by lia.
  assert (map_res (λ i, read_u16 p (2 * m + 2 + i * 2)) (seq 0 (length cs)) = Ok cs) as ->.
  { rewrite (map_res_ok _ (λ i, cs !!! i)).
    - f_equal. apply list_eq. intros i. rewrite list_lookup_fmap. destruct (decide (i < length cs)%nat).
      + rewrite lookup_seq_lt by done. cbn. symmetry. by apply list_lookup_lookup_total_lt.
      + rewrite lookup_seq_ge, lookup_ge_None_2 by lia. done.
    - intros i Hi'. apply elem_of_seq in Hi'. replace (2 * m + 2 + i * 2)%nat with ((m + S i) * 2)%nat by lia.
      rewrite Hp. apply read_repair. rewrite lookup_app_r by (rewrite length_fmap; lia).
      rewrite length_fmap, Hrs. replace (m + S i - m)%nat with (S i) by lia. cbn. fold cs.
      apply list_lookup_lookup_total_lt. lia. }
  cbn [mbind res_bind]. rewrite IH. cbn. unfold overflow_set at 1. done.
Qed.

Lemma overflowed_spec idx col r l :
  (k c ≤ idx < n c)%nat → idx ∈ l → (rss !!! (idx - k c)%nat) !! col = Some r →
  overflowed (overflow_set <$> filter (λ idx, (k c ≤ idx)%nat) l) idx col = (65535 <? r).
Proof using Hm Hr.
  intros Hi Hin Hcell. induction l as [|j l IH]; [by apply elem_of_nil in Hin|]. rewrite filter_cons.
  destruct (decide (k c ≤ j)%nat) as [Hj|Hj]; cbn [fmap list_fmap overflowed overflow_set].
  - destruct (Nat.eqb_spec j idx) as [->|Hne].
    + apply (overflow_spec 0); [|done]. rewrite repair_row by done. lia.
    + apply IH. apply elem_of_cons in Hin as [->|]; done.
  - apply IH. apply elem_of_cons in Hin as [->|]; [lia|done].
Qed.

Lemma read_column_spec col v :
  (col < m)%nat → 0 ≤ v < product (seq 0 (k c)) →
  (∀ i, (i < k c)%nat → cell xss i col = Some (codeword v i)) →
  (∀ j, (j < redundancy c)%nat → cell rss j col = Some (codeword v (k c + j))) →
  read_column (k c) (overflow_set <$> filter (λ idx, (k c ≤ idx)%nat) have.*1) col have =
    Ok ((λ h, (h.1, codeword v h.1)) <$> have).
Proof using Hc Hm Hx Hr Hch Hh.
  intros Hcol Hv H1 H2. unfold read_column. apply map_res_ok. intros [idx p] Hin.
  pose proof (proj1 (Forall_forall _ _) Hh _ Hin) as [Hi Hp]. cbn [fst snd] in *. pose proof (ok_n c Hc). subst p.
  assert (idx ∈ have.*1) as Hin' by (apply list_elem_of_fmap; by exists (idx, packet_at c xss rss idx)).
  unfold packet_at. destruct (Nat.ltb_spec idx (k c)) as [Hlt|Hge].
  - specialize (H1 idx Hlt). unfold cell in H1. destruct (xss !! idx) as [xs|] eqn:Ex; [|done].
    rewrite (list_lookup_total_correct _ _ _ Ex).
    pose proof (read_pack [] xs [] col _ H1 (Forall_lookup_1 _ _ _ _ (Forall_lookup_1 _ _ _ _ Hch Ex) H1)) as Er.
    rewrite app_nil_r in Er. cbn [app length Nat.add] in Er. by rewrite Er.
  - specialize (H2 (idx - k c)%nat ltac:(unfold redundancy; lia)). replace (k c + (idx - k c))%nat with idx in H2 by lia.
    unfold cell in H2. destruct (rss !! (idx - k c)%nat) as [rs|] eqn:Er; [|done].
    pose proof (list_lookup_total_correct _ _ _ Er) as Et.
    rewrite (overflowed_spec idx col (codeword v idx)) by (done || lia || by rewrite Et). rewrite Et.
    assert (length rs = m) as Hrs by (rewrite <- Et; apply repair_row; lia).
    rewrite (read_repair rs col (u16 (codeword v idx))).
    2:{ rewrite lookup_app_l by (rewrite length_fmap; lia). by rewrite list_lookup_fmap, H2. }
    cbn [mbind res_bind]. do 2 f_equal. unfold codeword. pose proof (modulus_range idx ltac:(lia)).
    pose proof (Z.mod_pos_bound v (modulus idx) ltac:(lia)). set (r := v mod modulus idx) in *.
    destruct (Z.ltb_spec 65535 r).
    + change (Z.shiftl 1 16) with 65536. assert (u16 r = r - 65536); [|lia].
      symmetry. apply (Z.mod_unique_pos r (2 ^ 16) 1); lia.
    + apply (wrap_small 16). lia.
Qed.

Lemma decode_columns_spec cnt :
  (k c ≤ length (remove_dups have.*1))%nat → (cnt ≤ m)%nat →
  decode_columns c (overflow_set <$> filter (λ idx, (k c ≤ idx)%nat) have.*1) have (seq (m - cnt) cnt)
    ((λ xs, stripe (2 * m) (take (m - cnt) xs)) <$> xss) = Ok (pack <$> xss).
Proof using Hc Hm Hx Hr Hch Hok Hh.
  intros Hen. induction cnt as [|cnt IH]; intros Hcnt.
  { cbn. f_equal. apply list_fmap_ext. intros i xs Hi. rewrite Nat.sub_0_r.
    pose proof (Forall_lookup_1 _ _ _ _ (proj2 Hx) Hi) as Hl. cbn in Hl. unfold stripe.
    rewrite take_ge by lia. by rewrite Hl, Nat.sub_diag, app_nil_r. }
  set (a := (m - S cnt)%nat) in *. cbn [seq decode_columns].
  destruct (Hok a ltac:(lia)) as (v & Hv & H1 & H2). rewrite (read_column_spec a v) by (done || lia).
  cbn [mbind res_bind]. rewrite (decode_spec c _ v); [|done|done| |].
  - rewrite <- list_fmap_compose.
    change ((fst ∘ (λ h, (h.1, codeword v h.1))) <$> have) with have.*1.
    rewrite (proj2 (Nat.leb_le _ _)) by done. cbn [mbind res_bind]. rewrite <- IH by lia.
    replace (S a) with (m - cnt)%nat by lia. f_equal. apply list_eq. intros i.
    rewrite lookup_zip_with, !list_lookup_fmap. destruct (xss !! i) as [xs|] eqn:Ei; cbn; [|done].
    pose proof (lookup_lt_Some _ _ _ Ei) as Hlt. rewrite (proj1 Hx) in Hlt. rewrite lookup_seq_lt by done. cbn. f_equal.
    pose proof (Forall_lookup_1 _ _ _ _ (proj2 Hx) Ei) as Hl. cbn in Hl. specialize (H1 i Hlt). unfold cell in H1.
    rewrite Ei in H1. replace (m - cnt)%nat with (S a) by lia. rewrite (take_S_r _ _ _ H1).
    rewrite <- write_stripe by (rewrite length_take; lia). f_equal. rewrite length_take. lia.
  - intros i Hi. specialize (H1 i Hi). unfold cell in H1. destruct (xss !! i) as [xs|] eqn:Ei; [|done].
    exact (Forall_lookup_1 _ _ _ _ (Forall_lookup_1 _ _ _ _ Hch Ei) H1).
  - apply Forall_fmap. eapply Forall_impl; [exact Hh|]. intros [idx p] [Hi _]. done.
Qed.
End decode.

Lemma half_columns m : Nat.modulo (2 * m) 2 = 0%nat ∧ Nat.div (2 * m) 2 = m.
Proof. rewrite Nat.mul_comm. split; [apply Nat.Div0.mod_mul|by apply Nat.div_mul]. Qed.

(** Sources of [m] columns, as columns. *)
Lemma sources_pack sources m :
  Forall (λ s, length s = (2 * m)%nat) sources → Forall (Forall (λ b, 0 ≤ b < 256)) sources →
  ∃ xss, sources = pack <$> xss ∧ grid xss (length sources) m ∧ Forall (Forall is_chunk) xss.
Proof.
  intros Hlen Hb. induction sources as [|s l IH].
  - exists []. by split_and!.
  - apply Forall_cons in Hlen as [H1 H2]. apply Forall_cons in Hb as [H3 H4].
    destruct (IH H2 H4) as (xss & -> & [E1 E2] & H5). destruct (bytes_pack m s H1 H3) as (xs & -> & E3 & H6).
    exists (xs :: xss). split_and!; [done| |by constructor]. split; [cbn; lia|by constructor].
Qed.

Lemma encode_packets_spec c xss m :
  code_ok c → grid xss (k c) m → Forall (Forall is_chunk) xss →
  ∃ rss, encode_packets (MkPacketCode c) (pack <$> xss) = Ok (repair_packet <$> rss) ∧
    grid rss (redundancy c) m ∧ ∀ col, (col < m)%nat → col_ok c xss rss col.
Proof.
  intros Hc Hx Hch. pose proof (ok_k c Hc) as Hk. destruct (half_columns m) as [Emod Ediv].
  destruct (encode_columns_spec c xss (2 * m) m m (replicate (redundancy c) [])) as (rss & E & Hr & Hcol); try done.
  { rewrite Nat.sub_diag. split; [by rewrite length_replicate|]. by apply Forall_replicate. }
  { intros col Hcol. lia. }
  exists rss. split; [|done]. unfold encode_packets. cbn [code]. rewrite length_fmap, (proj1 Hx), Nat.eqb_refl. cbn [negb].
  assert (length ((pack <$> xss) !!! 0%nat) = (2 * m)%nat) as ->.
  { destruct (grid_row _ _ _ 0 Hx ltac:(lia)) as (xs & Exs & Hxs).
    rewrite (list_lookup_total_correct _ 0 (pack xs)) by (by rewrite list_lookup_fmap, Exs).
    by rewrite length_pack, Hxs. }
  rewrite Emod, Ediv. assert (existsb (λ s, negb (length s =? 2 * m)%nat) (pack <$> xss) = false) as ->.
  { apply not_true_iff_false. intros (s & Hs & Hns)%existsb_exists. apply list_elem_of_In in Hs.
    apply list_elem_of_fmap in Hs as (xs & -> & Hs). pose proof (proj1 (Forall_forall _ _) (proj2 Hx) xs Hs) as Hl.
    cbn in Hl. by rewrite length_pack, Hl, Nat.eqb_refl in Hns. }
  cbn [Nat.eqb negb orb]. rewrite Nat.sub_diag in E.
  assert (repair_state (2 * m) <$> replicate (redundancy c) [] = replicate (redundancy c) (replicate (2 * m) 0, [])) as E0.
  { rewrite fmap_replicate. unfold repair_state, stripe. cbn [fmap list_fmap pack concat app length overflow_cols].
    by rewrite Nat.mul_0_r, Nat.sub_0_r. }
  rewrite E0 in E. rewrite E. cbn [mbind res_bind]. f_equal. change (map finish_packet) with (fmap (M := list) finish_packet).
  rewrite <- list_fmap_compose. apply list_fmap_ext. intros i rs Hi. cbn. apply finish_state.
  exact (Forall_lookup_1 _ _ _ _ (proj2 Hr) Hi).
Qed.

Lemma decode_packets_spec c xss rss m have :
  code_ok c → Z.of_nat m < 65536 → grid xss (k c) m → grid rss (redundancy c) m → Forall (Forall is_chunk) xss →
  (∀ col, (col < m)%nat → col_ok c xss rss col) →
  Forall (λ h, ((pack <$> xss) ++ (repair_packet <$> rss)) !! h.1 = Some h.2) have →
  (k c ≤ length (remove_dups have.*1))%nat →
  decode_packets (MkPacketCode c) have (2 * m) (k c) = Ok (pack <$> xss).
Proof.
  intros Hc Hm Hx Hr Hch Hcol Hh Hen. destruct (half_columns m) as [Emod Ediv]. pose proof (ok_k c Hc).
  unfold decode_packets. cbn [code]. rewrite Nat.eqb_refl, Emod, Ediv. cbn [negb orb Nat.eqb].
  rewrite (proj2 (Nat.ltb_ge _ _)).
  2:{ etrans; [exact Hen|]. rewrite <- (length_fmap fst have). apply submseteq_length.
      apply NoDup_submseteq; [apply NoDup_remove_dups|]. intros i. by rewrite elem_of_remove_dups. }
  assert (Forall (λ h, (h.1 < n c)%nat ∧ h.2 = packet_at c xss rss h.1) have) as Hh'.
  { eapply Forall_impl; [exact Hh|]. intros [i q] Hi. cbn in *. pose proof (lookup_lt_Some _ _ _ Hi) as Hlt.
    rewrite length_app, !length_fmap, (proj1 Hr), (proj1 Hx) in Hlt. unfold redundancy in Hlt.
    split; [lia|]. unfold packet_at. destruct (Nat.ltb_spec i (k c)) as [Hik|Hik].
    - rewrite lookup_app_l, list_lookup_fmap in Hi by (rewrite length_fmap, (proj1 Hx); lia).
      destruct (xss !! i) eqn:Ei; [|done]. injection Hi as <-. by rewrite (list_lookup_total_correct _ _ _ Ei).
    - rewrite lookup_app_r, length_fmap, (proj1 Hx), list_lookup_fmap in Hi by (rewrite length_fmap, (proj1 Hx); lia).
      destruct (rss !! (i - k c)%nat) eqn:Ei; [|done]. injection Hi as <-. by rewrite (list_lookup_total_correct _ _ _ Ei). }
  rewrite (read_overflows_spec c xss rss m Hm Hr have Hh'). cbn [mbind res_bind].
  pose proof (decode_columns_spec c Hc xss rss m Hm Hx Hr Hch Hcol have Hh' m ltac:(lia) ltac:(lia)) as Ed.
  rewrite Nat.sub_diag in Ed. rewrite <- Ed. f_equal. apply list_eq. intros i. rewrite list_lookup_fmap.
  destruct (xss !! i) eqn:Ei; cbn [fmap option_fmap option_map].
  - pose proof (lookup_lt_Some _ _ _ Ei) as Hlt. rewrite (proj1 Hx) in Hlt. rewrite lookup_replicate_2 by done.
    unfold stripe. rewrite take_0. cbn [pack fmap list_fmap concat app length]. by rewrite Nat.mul_0_r, Nat.sub_0_r.
  - apply lookup_ge_None in Ei. rewrite (proj1 Hx) in Ei. by apply lookup_replicate_None.
Qed.

(** * Properties *)

(** The reduction by a precomputed reciprocal is the remainder, for every
    modulus of the table and every value below [2^34]; and every value the code
    reduces stays below that bound, so no 64-bit product overflows. *)
Lemma barrett_reduce_exact x idx :
  (idx < MAX_MODULI)%nat → 0 ≤ x < 2 ^ 34 →
  reduce x idx = x mod modulus idx ∧ 0 ≤ x * (BARRETT !!! idx) < 2 ^ 64.
Proof.
  intros Hi Hx. split; [by apply reduce_spec|]. rewrite BARRETT_lookup by done. pose proof (modulus_range idx Hi).
  assert (0 ≤ 2 ^ 34 / modulus idx < 2 ^ 18) as Hb by (split; [apply Z.div_pos; lia|apply Z.div_lt_upper_bound; lia]).
  assert (x * (2 ^ 34 / modulus idx) ≤ 2 ^ 34 * 2 ^ 18) by (apply Z.mul_le_mono_nonneg; lia). nia.
Qed.

(** C14: any [k] distinct residues, information or redundant, in any order and
    with repetitions, recover every chunk; with fewer than [k] distinct ones
    decoding reports [NotEnoughResidues] and nothing else. *)
Theorem residue_any_k_recover kk rr c chunks :
  code_new kk rr = Ok c → length chunks = kk → Forall is_chunk chunks →
  ∃ repair, encode c chunks rr = Ok repair ∧ length repair = rr ∧
    ∀ have, Forall (λ h, (chunks ++ repair) !! h.1 = Some h.2) have →
      decode c have kk = if (kk <=? length (remove_dups have.*1))%nat then Ok chunks else Err NotEnoughResidues.
Proof.
  intros Hn El Hch. destruct (code_new_ok kk rr c Hn) as (Hc & Ek & En).
  assert (redundancy c = rr) as Er by (unfold redundancy; lia).
  destruct (encode_spec c chunks Hc ltac:(lia) Hch) as (v & repair & E & Hv & Hrl & Hcw).
  exists repair. rewrite Er in E, Hrl. split_and!; [done..|]. intros have Hh. pose proof (ok_k c Hc).
  rewrite <- Ek. rewrite (decode_spec c have v Hc Hv).
  - destruct (_ <=? _)%nat; [|done]. f_equal. apply list_eq. intros i. rewrite list_lookup_fmap.
    destruct (decide (i < k c)%nat).
    + rewrite lookup_seq_lt by done. specialize (Hcw i ltac:(lia)). rewrite lookup_app_l in Hcw by lia. done.
    + rewrite lookup_seq_ge, lookup_ge_None_2 by lia. done.
  - intros i Hi. specialize (Hcw i ltac:(lia)). rewrite lookup_app_l in Hcw by lia.
    exact (Forall_lookup_1 _ _ _ _ Hch Hcw).
  - eapply Forall_impl; [exact Hh|]. intros [i r] Hi. cbn in *. pose proof (lookup_lt_Some _ _ _ Hi) as Hlt.
    rewrite length_app in Hlt. split; [lia|]. rewrite Hcw in Hi by lia. by injection Hi as ->.
Qed.

(** Striped over packets, [k] source packets of one even length below 2^17
    bytes give [r] repair packets such that any [k] of the [k + r] packets
    recover the sources byte for byte; the overflow lists carry the
    seventeenth bit of the residues that need it. *)
Lemma residue_packets_recover kk rr p sources m :
  packet_new kk rr = Ok p → length sources = kk → Forall (λ s, length s = (2 * m)%nat) sources →
  Forall (Forall (λ b, 0 ≤ b < 256)) sources → Z.of_nat m < 65536 →
  ∃ repairs, encode_packets p sources = Ok repairs ∧ length repairs = rr ∧
    ∀ have, Forall (λ h, (sources ++ repairs) !! h.1 = Some h.2) have →
      (kk ≤ length (remove_dups have.*1))%nat → decode_packets p have (2 * m) kk = Ok sources.
Proof.
  intros Hn El Hlen Hb Hm. unfold packet_new in Hn. apply bind_ok in Hn as (c & Hn & [= <-]).
  destruct (code_new_ok kk rr c Hn) as (Hc & Ek & En). assert (redundancy c = rr) as Er by (unfold redundancy; lia).
  destruct (sources_pack sources m Hlen Hb) as (xss & -> & Hx & Hch). rewrite El, <- Ek in Hx.
  destruct (encode_packets_spec c xss m Hc Hx Hch) as (rss & E & Hr & Hcol).
  exists (repair_packet <$> rss). split_and!; [done|rewrite length_fmap, (proj1 Hr); done|].
  intros have Hh Hen. rewrite <- Ek in *. by apply (decode_packets_spec c xss rss m have).
Qed.

(** ** Witnesses *)

Definition code32 : ResidueCode := match code_new 3 2 with Ok c => c | _ => MkCode 0 0 [] [] end.

Lemma code32_new : code_new 3 2 = Ok code32.
Proof. vm_compute. reflexivity. Qed.

Lemma residue_any_k_recover_witness :
  ∃ repair, encode code32 [1000; 65535; 0] 2 = Ok repair ∧
    decode code32 [(4%nat, repair !!! 1%nat); (1%nat, 65535); (3%nat, repair !!! 0%nat)] 3 = Ok [1000; 65535; 0].
Proof.
  destruct (residue_any_k_recover 3 2 code32 [1000; 65535; 0] code32_new eq_refl) as (repair & E & El & Hd).
  { repeat constructor; lia. }
  exists repair. split; [exact E|]. rewrite (Hd [(4%nat, repair !!! 1%nat); (1%nat, 65535); (3%nat, repair !!! 0%nat)]).
  - reflexivity.
  - destruct repair as [|a [|b []]]; [discriminate El|discriminate El| |discriminate El]. repeat constructor.
Defined.
