(* ===== verification/Gf256.v ===== *)
(** GF(256): module [gf] of crates/subetha-cxc/src/fec.rs.

    A [u8] of the field is a [byte]. The tables are computed by the source's
    own loops, and the operations read them; the field laws follow from the
    step of the table loop, multiplication by the generator, being linear. The
    bytes with these operations are registered as a field. *)
From Stdlib Require Import Strings.Byte Ring Field.
From S2P Require Import Prelude.
#[local] Open Scope word_scope.

(** * Bytes *)

#[export] Instance byte_eq_dec' : EqDecision byte := Byte.byte_eq_dec.

(** [b as u16] and wider, and [x as u8]. *)
Definition bZ (b : byte) : Z := Z.of_N (Byte.to_N b).
Definition Zb (x : Z) : byte := default x00 (Byte.of_N (Z.to_N (x mod 256))).

Definition band (a b : byte) : byte := Zb (Z.land (bZ a) (bZ b)).
Definition bshr (a : byte) (k : Z) : byte := Zb (bZ a >> k).

Lemma bZ_range b : 0 ≤ bZ b < 256.
Proof. unfold bZ. pose proof (Byte.to_N_bounded b). lia. Qed.

Lemma Zb_bZ b : Zb (bZ b) = b.
Proof.
  unfold Zb. rewrite Z.mod_small by apply bZ_range. unfold bZ.
  by rewrite N2Z.id, Byte.of_to_N.
Qed.

Lemma bZ_Zb x : bZ (Zb x) = x mod 256.
Proof.
  unfold Zb, bZ. pose proof (Z.mod_pos_bound x 256 ltac:(lia)) as Hb.
  destruct (Byte.of_N (Z.to_N (x mod 256))) as [b|] eqn:E.
  - apply Byte.to_of_N in E. change (default x00 (Some b)) with b. rewrite E. lia.
  - apply Byte.of_N_None_iff in E. lia.
Qed.

Lemma bZ_inj a b : bZ a = bZ b → a = b.
Proof. intros E. rewrite <- (Zb_bZ a), <- (Zb_bZ b). by rewrite E. Qed.

Definition all_bytes : list byte := Zb <$> seqZ 0 256.

Lemma all_bytes_complete b : b ∈ all_bytes.
Proof.
  apply list_elem_of_fmap. exists (bZ b). rewrite Zb_bZ. split; [done|].
  apply elem_of_seqZ. pose proof (bZ_range b). lia.
Qed.

(** A decidable property of one or two bytes is checked by evaluation. *)
Lemma byte_check (P : byte → bool) : forallb P all_bytes = true → ∀ b, P b = true.
Proof. intros H b. rewrite forallb_forall in H. apply H, list_elem_of_In, all_bytes_complete. Qed.

Lemma byte_check2 (P : byte → byte → bool) :
  forallb (λ a, forallb (P a) all_bytes) all_bytes = true → ∀ a b, P a b = true.
Proof. intros H a. apply byte_check. exact (byte_check _ H a). Qed.

Lemma beqb_eq a b : Byte.eqb a b = true → a = b.
Proof. apply Byte.byte_dec_bl. Qed.

Lemma eqb_ne a b : a ≠ b → Byte.eqb a b = false.
Proof. intros Hn. destruct (Byte.eqb a b) eqn:E; [|done]. by apply beqb_eq in E. Qed.

(** * The field: module [gf] *)

(** [build_tables]: the powers of the generator, then a second period. *)
Fixpoint period_loop (n i : nat) (x : Z) (log exp : list byte) : list byte * list byte :=
  match n with
  | O => (log, exp)
  | S n =>
      let exp := <[i := Zb x]> exp in
      let log := <[Z.to_nat x := Zb (Z.of_nat i)]> log in
      let x := u16 (x << 1) in
      let x := if Z.land x 256 =? 0 then x else x ⊕ 285 in
      period_loop n (S i) x log exp
  end.

Fixpoint second_loop (n j : nat) (exp : list byte) : list byte :=
  match n with
  | O => exp
  | S n => second_loop n (S j) (<[j := nth (j - 255) exp x00]> exp)
  end.

Definition build_tables : list byte * list byte :=
  let '(log, exp) := period_loop 255 0 1 (replicate 256 x00) (replicate 512 x00) in
  (log, second_loop 257 255 exp).

Definition TABLES : list byte * list byte := Eval vm_compute in build_tables.
Definition LOG : list byte := Eval vm_compute in TABLES.1.
Definition EXP : list byte := Eval vm_compute in TABLES.2.

Definition log_at (a : byte) : nat := Byte.to_nat (nth (Byte.to_nat a) LOG x00).
Definition exp_at (i : nat) : byte := nth i EXP x00.

Definition add (a b : byte) : byte := Zb (bZ a ⊕ bZ b).

Definition mul (a b : byte) : byte :=
  if Byte.eqb a x00 || Byte.eqb b x00 then x00 else exp_at (log_at a + log_at b).

Definition inv (a : byte) : byte := exp_at (255 - log_at a).

Definition div (a b : byte) : byte :=
  if Byte.eqb a x00 then x00 else exp_at (log_at a + 255 - log_at b).

(** * The field laws *)

(** The tables are the ones the loops build. *)
Lemma tables_built : build_tables = (LOG, EXP).
Proof. vm_compute. reflexivity. Qed.

(** Multiplication by the generator, the step of [build_tables]. *)
Definition xtime (a : byte) : byte :=
  let x := bZ a << 1 in Zb (if Z.land x 256 =? 0 then x else x ⊕ 285).

(** Every table index the operations use is in range. *)
Lemma log_at_bound a : (log_at a < 255)%nat.
Proof.
  apply Nat.ltb_lt. revert a. apply (byte_check (λ a, log_at a <? 255)%nat). by vm_compute.
Qed.

Lemma exp_at_iter i : (i < 512)%nat → exp_at i = Nat.iter i xtime x01.
Proof.
  intros Hi. apply beqb_eq.
  assert (forallb (λ i, Byte.eqb (exp_at i) (Nat.iter i xtime x01)) (seq 0 512) = true) as H
    by (vm_compute; reflexivity).
  rewrite forallb_forall in H. apply H, in_seq. lia.
Qed.

Lemma iter_log a : a ≠ x00 → Nat.iter (log_at a) xtime x01 = a.
Proof.
  intros Ha. apply beqb_eq.
  pose proof (byte_check (λ a, Byte.eqb a x00 || Byte.eqb (Nat.iter (log_at a) xtime x01) a)
    ltac:(vm_compute; reflexivity) a) as H. cbn beta in H. by rewrite (eqb_ne _ _ Ha) in H.
Qed.

Lemma bZ_add a b : bZ (add a b) = bZ a ⊕ bZ b.
Proof.
  unfold add. rewrite bZ_Zb. apply Z.mod_small, (lxor_bound 8); [lia|apply bZ_range..].
Qed.

Lemma add_comm a b : add a b = add b a.
Proof. apply bZ_inj. by rewrite !bZ_add, Z.lxor_comm. Qed.
Lemma add_assoc a b c : add a (add b c) = add (add a b) c.
Proof. apply bZ_inj. by rewrite !bZ_add, Z.lxor_assoc. Qed.
Lemma add_0_l a : add x00 a = a.
Proof. apply bZ_inj. by rewrite bZ_add, Z.lxor_0_l. Qed.
Lemma add_0_r a : add a x00 = a.
Proof. by rewrite add_comm, add_0_l. Qed.
Lemma add_self a : add a a = x00.
Proof. apply bZ_inj. by rewrite bZ_add, Z.lxor_nilpotent. Qed.

Lemma xtime_add a b : xtime (add a b) = add (xtime a) (xtime b).
Proof.
  apply beqb_eq. revert a b.
  apply (byte_check2 (λ a b, Byte.eqb (xtime (add a b)) (add (xtime a) (xtime b)))).
  vm_compute. reflexivity.
Qed.

Lemma iter_xtime_add n a b :
  Nat.iter n xtime (add a b) = add (Nat.iter n xtime a) (Nat.iter n xtime b).
Proof. induction n as [|n IH]; [done|]. rewrite !Nat.iter_succ. by rewrite IH, xtime_add. Qed.

Lemma iter_xtime_0 n : Nat.iter n xtime x00 = x00.
Proof. induction n as [|n IH]; [done|]. by rewrite Nat.iter_succ, IH. Qed.

Lemma mul_0_l a : mul x00 a = x00.
Proof. done. Qed.
Lemma mul_0_r a : mul a x00 = x00.
Proof. unfold mul. by rewrite orb_true_r. Qed.

(** Multiplying by a nonzero byte is stepping as often as its logarithm says. *)
Lemma mul_iter a b : b ≠ x00 → mul a b = Nat.iter (log_at b) xtime a.
Proof.
  intros Hb. destruct (decide (a = x00)) as [->|Ha]; [by rewrite iter_xtime_0|].
  unfold mul. rewrite (eqb_ne a), (eqb_ne b) by done. cbn [orb].
  rewrite exp_at_iter by (pose proof (log_at_bound a); pose proof (log_at_bound b); lia).
  by rewrite Nat.add_comm, Nat.iter_add, iter_log.
Qed.

Lemma mul_comm a b : mul a b = mul b a.
Proof. unfold mul. by rewrite orb_comm, Nat.add_comm. Qed.

Lemma mul_xtime_l a b : mul (xtime a) b = xtime (mul a b).
Proof.
  destruct (decide (b = x00)) as [->|Hb]; [by rewrite !mul_0_r|].
  rewrite !mul_iter by done. by rewrite <- Nat.iter_succ_r.
Qed.

Lemma mul_assoc a b c : mul a (mul b c) = mul (mul a b) c.
Proof.
  destruct (decide (c = x00)) as [->|Hc]; [by rewrite !mul_0_r|].
  rewrite !(mul_iter _ c) by done. generalize (log_at c) as n. intros n.
  induction n as [|n IH]; [done|]. rewrite !Nat.iter_succ. by rewrite mul_comm, mul_xtime_l, mul_comm, IH.
Qed.

Lemma mul_add_l a b c : mul (add a b) c = add (mul a c) (mul b c).
Proof.
  destruct (decide (c = x00)) as [->|Hc]; [by rewrite !mul_0_r|].
  rewrite !mul_iter by done. apply iter_xtime_add.
Qed.

Lemma mul_1_l a : mul x01 a = a.
Proof.
  destruct (decide (a = x00)) as [->|Ha]; [done|]. by rewrite mul_iter, iter_log.
Qed.

Lemma mul_inv_l a : a ≠ x00 → mul (inv a) a = x01.
Proof.
  intros Ha. apply beqb_eq.
  pose proof (byte_check (λ a, Byte.eqb a x00 || Byte.eqb (mul (inv a) a) x01)
    ltac:(vm_compute; reflexivity) a) as H. cbn beta in H. by rewrite (eqb_ne _ _ Ha) in H.
Qed.

Lemma div_inv a b : b ≠ x00 → div a b = mul a (inv b).
Proof.
  intros Hb. apply beqb_eq.
  pose proof (byte_check2 (λ a b, Byte.eqb b x00 || Byte.eqb (div a b) (mul a (inv b)))
    ltac:(vm_compute; reflexivity) a b) as H. cbn beta in H. by rewrite (eqb_ne _ _ Hb) in H.
Qed.

(** Addition is its own inverse, so the field's subtraction is addition. *)
Lemma gf_ring : ring_theory x00 x01 add mul add (λ a, a) (@eq byte).
Proof.
  constructor; auto using add_0_l, add_comm, add_assoc, mul_1_l, mul_comm, mul_assoc, mul_add_l,
    add_self.
Qed.

Definition quot (a b : byte) : byte := mul a (inv b).

Lemma gf_field : field_theory x00 x01 add mul add (λ a, a) quot inv (@eq byte).
Proof. constructor; auto using gf_ring, mul_inv_l. Qed.

(** Coefficients are taken modulo two, so that [ring] and [field] cancel
    [a + a]. *)
Lemma gf_morph :
  ring_morph x00 x01 add mul add (λ a, a) (@eq byte)
    false true xorb andb xorb (λ b, b) Bool.eqb (λ b : bool, if b then x01 else x00).
Proof.
  constructor; try done; by intros [] [].
Qed.

Ltac gf_cst t := match t with x00 => constr:(false) | x01 => constr:(true) | _ => constr:(InitialRing.NotConstant) end.

Add Field gf256 : gf_field (morphism gf_morph, constants [gf_cst]).

#[global] Opaque add mul inv.

Lemma mul_add_r a b c : mul a (add b c) = add (mul a b) (mul a c).
Proof. ring. Qed.

Lemma add_add_cancel a b : add a (add a b) = b.
Proof. ring. Qed.

Lemma mul_eq_0 a b : mul a b = x00 → a = x00 ∨ b = x00.
Proof.
  intros H. destruct (decide (a = x00)) as [|Ha]; [by left|]. right.
  transitivity (mul (inv a) (mul a b)); [|by rewrite H, mul_0_r].
  by rewrite mul_assoc, mul_inv_l, mul_1_l.
Qed.

Lemma add_eq_0 a b : add a b = x00 → a = b.
Proof.
  intros H. transitivity (add a (add b b)); [by rewrite add_self, add_0_r|].
  by rewrite add_assoc, H, add_0_l.
Qed.
