(* ===== verification/GfKernels.v ===== *)
(** The GF(256) multiply-add kernels and their dispatch: [GfBackend] and the
    [gf_mul_add] and [gf_mul] families of crates/subetha-cxc/src/fec.rs.

    The vector kernels are built from the intrinsics they call, each intrinsic
    on a vector given as the list of its bytes. A call whose instruction the
    host does not have, or that reads past the end of [src], has no result
    ([None]). Debug assertions are those of a release build: absent. *)
From Stdlib Require Import Strings.Byte Ring Field.
From S2P Require Import Prelude Gf256.
#[local] Open Scope word_scope.

(** * Backends *)

Inductive GfBackend :=
| Scalar | Ssse3 | Avx2 | Avx512Pshufb | Gfni256 | Gfni512 | AffineScalar | Neon.

#[export] Instance GfBackend_eq_dec : EqDecision GfBackend.
Proof. solve_decision. Defined.

(** The host: its architecture and what the feature-detection macros report. *)
Inductive Arch := X86_64 | Aarch64 | OtherArch.
Inductive Feature := neon | ssse3 | avx2 | avx512f | avx512bw | gfni.
Record Host := { arch : Arch; has : Feature → bool }.

Definition available (h : Host) (b : GfBackend) : bool :=
  match b, arch h with
  | Scalar, _ | AffineScalar, _ => true
  | Neon, Aarch64 => has h neon
  | Ssse3, X86_64 => has h ssse3
  | Avx2, X86_64 => has h avx2
  | Avx512Pshufb, X86_64 => has h avx512f && has h avx512bw
  | Gfni256, X86_64 => has h gfni && has h avx2
  | Gfni512, X86_64 => has h gfni && has h avx512f && has h avx512bw
  | _, _ => false
  end.

(** [b as u8] and back. *)
Definition backend_to_u8 (b : GfBackend) : Z :=
  match b with
  | Scalar => 0 | Ssse3 => 1 | Avx2 => 2 | Avx512Pshufb => 3
  | Gfni256 => 4 | Gfni512 => 5 | AffineScalar => 6 | Neon => 7
  end.

Definition backend_from_u8 (v : Z) : GfBackend :=
  match v with
  | 1 => Ssse3 | 2 => Avx2 | 3 => Avx512Pshufb | 4 => Gfni256 | 5 => Gfni512
  | 6 => AffineScalar | 7 => Neon | _ => Scalar
  end.

Definition GF_LADDER (h : Host) : list GfBackend :=
  match arch h with
  | X86_64 => [Gfni512; Avx512Pshufb; Gfni256; Avx2; Ssse3; Scalar]
  | Aarch64 => [Neon; Scalar]
  | OtherArch => [Scalar]
  end.

Definition detect_best_backend (h : Host) : GfBackend :=
  default Scalar (List.find (available h) (GF_LADDER h)).

Definition BACKEND_UNINIT : Z := 255.

(** [current_backend]: the cached selection, and the cache after the call. *)
Definition current_backend (h : Host) (selected : Z) : GfBackend * Z :=
  if selected =? BACKEND_UNINIT then
    let b := detect_best_backend h in (b, backend_to_u8 b)
  else (backend_from_u8 selected, selected).

(** * Scalar kernels *)

(** [for (o, &s) in out.iter_mut().zip(src)]: the rest of [out] stays. *)
Fixpoint zip_update (f : byte → byte → byte) (out src : list byte) : list byte :=
  match out, src with
  | o :: out, s :: src => f o s :: zip_update f out src
  | out, _ => out
  end.

Definition gf_mul_add_scalar (out src : list byte) (coef : byte) : list byte :=
  zip_update (λ o s, add o (mul coef s)) out src.

Definition bit (x : Z) (i : nat) : bool := Z.testbit x (Z.of_nat i).

(** [gf_affine_matrix]: row [i] collects bit [i] of [coef * 2^j]. *)
Definition affine_row (coef : byte) (i : nat) : Z :=
  fold_left (λ row j,
    if bit (bZ (mul coef (Zb (1 << Z.of_nat j)))) i
    then Z.lor row (1 << Z.of_nat j) else row) (seq 0 8) 0.

Definition gf_affine_matrix (coef : byte) : Z :=
  fold_left (λ m i, Z.lor m (affine_row coef i << Z.of_nat (8 * (7 - i)))) (seq 0 8) 0.

Definition gf2p8affine_byte (x : byte) (m : Z) : byte :=
  Zb (fold_left (λ out i,
    let mat_byte := Z.land (m >> Z.of_nat (8 * (7 - i))) 255 in
    if Nat.odd (count_ones 8 (Z.land mat_byte (bZ x)))
    then Z.lor out (1 << Z.of_nat i) else out) (seq 0 8) 0).

Definition gf_mul_add_affine_scalar (out src : list byte) (coef : byte) : list byte :=
  let m := gf_affine_matrix coef in
  zip_update (λ o s, add o (gf2p8affine_byte s m)) out src.

(** [gf_nibble_tables]. *)
Definition gf_nibble_tables (coef : byte) : list byte * list byte :=
  ((λ i, mul coef (Zb (Z.of_nat i))) <$> seq 0 16,
   (λ i, mul coef (Zb (Z.of_nat i << 4))) <$> seq 0 16).

(** * Vector intrinsics *)

Definition vxor (a b : list byte) : list byte := zip_with add a b.
Definition vand (a b : list byte) : list byte := zip_with band a b.

(** [_mm*_set1_epi8], [vdupq_n_u8]; [_mm*_broadcast*] of a 16-byte table. *)
Definition set1_epi8 (w : nat) (b : byte) : list byte := replicate w b.
Definition broadcast128 (w : nat) (t : list byte) : list byte := concat (replicate (w / 16) t).

(** [_mm*_srli_epi16]: little-endian 16-bit lanes shifted right. *)
Fixpoint srli_epi16 (k : Z) (v : list byte) : list byte :=
  match v with
  | b0 :: b1 :: v =>
      let w := (bZ b0 + 256 * bZ b1) >> k in
      Zb w :: Zb (w >> 8) :: srli_epi16 k v
  | _ => []
  end.

(** [_mm*_shuffle_epi8]: within each 128-bit lane, an index with its top bit
    set gives zero and another its low four bits' entry. *)
Definition shuffle_epi8 (t idx : list byte) : list byte :=
  imap (λ i x, if bit (bZ x) 7 then x00
               else nth (16 * (i / 16) + Z.to_nat (Z.land (bZ x) 15)) t x00) idx.

(** [vqtbl1q_u8]: an index out of the table gives zero; [vshrq_n_u8]. *)
Definition vqtbl1q_u8 (t idx : list byte) : list byte :=
  (λ x, nth (Byte.to_nat x) t x00) <$> idx.
Definition vshrq_n_u8 (k : Z) (v : list byte) : list byte := (λ b, bshr b k) <$> v.

(** [_mm*_gf2p8affine_epi64_epi8]: bit [i] of a result byte is the parity of
    the source byte under matrix byte [7 - i] of its 64-bit lane, xor bit [i]
    of the immediate. *)
Definition parity8 (x : Z) : bool := foldr (λ i p, xorb (bit x i) p) false (seq 0 8).
Definition affine_hw (imm : Z) (qw : Z) (x : byte) : byte :=
  Zb (foldr (λ i acc,
    acc + (if xorb (parity8 (Z.land (qw >> Z.of_nat (8 * (7 - i))) (bZ x))) (bit imm i)
           then 2 ^ Z.of_nat i else 0)) 0 (seq 0 8)).
Definition gf2p8affine_epi64_epi8 (imm : Z) (v : list byte) (m : list Z) : list byte :=
  imap (λ i x, affine_hw imm (nth (i / 8) m 0) x) v.

(** * Vector kernels *)

(** The tail: [while i < n { out[i] ^= gf::mul(coef, src[i]); i += 1 }]. *)
Fixpoint tail_loop (coef : byte) (out src : list byte) : option (list byte) :=
  match out, src with
  | [], _ => Some []
  | o :: out, s :: src => rest ← tail_loop coef out src; Some (add o (mul coef s) :: rest)
  | _ :: _, [] => None
  end.

(** The body: [while i + w <= n], one vector of [w] bytes at a time. *)
Fixpoint wide_loop (fuel w : nat) (prod : list byte → list byte) (coef : byte)
    (out src : list byte) : option (list byte) :=
  match fuel with
  | O => None
  | S fuel =>
      if (w <=? length out)%nat then
        if (w <=? length src)%nat then
          rest ← wide_loop fuel w prod coef (drop w out) (drop w src);
          Some (vxor (take w out) (prod (take w src)) ++ rest)
        else None
      else tail_loop coef out src
  end.

Definition pshufb_prod (w : nat) (coef : byte) (s : list byte) : list byte :=
  let '(lo, hi) := gf_nibble_tables coef in
  let lo_v := broadcast128 w lo in
  let hi_v := broadcast128 w hi in
  let mask := set1_epi8 w x0f in
  let lo_n := vand s mask in
  let hi_n := vand (srli_epi16 4 s) mask in
  vxor (shuffle_epi8 lo_v lo_n) (shuffle_epi8 hi_v hi_n).

Definition gfni_prod (w : nat) (coef : byte) (s : list byte) : list byte :=
  let matrix := replicate (w / 8) (gf_affine_matrix coef) in
  gf2p8affine_epi64_epi8 0 s matrix.

Definition neon_prod (coef : byte) (s : list byte) : list byte :=
  let '(lo, hi) := gf_nibble_tables coef in
  let mask := set1_epi8 16 x0f in
  let lo_n := vand s mask in
  let hi_n := vshrq_n_u8 4 s in
  vxor (vqtbl1q_u8 lo lo_n) (vqtbl1q_u8 hi hi_n).

Definition gf_mul_add_ssse3 (out src : list byte) (coef : byte) : option (list byte) :=
  wide_loop (S (length out)) 16 (pshufb_prod 16 coef) coef out src.
Definition gf_mul_add_avx2 (out src : list byte) (coef : byte) : option (list byte) :=
  wide_loop (S (length out)) 32 (pshufb_prod 32 coef) coef out src.
Definition gf_mul_add_avx512 (out src : list byte) (coef : byte) : option (list byte) :=
  wide_loop (S (length out)) 64 (pshufb_prod 64 coef) coef out src.
Definition gf_mul_add_gfni256 (out src : list byte) (coef : byte) : option (list byte) :=
  wide_loop (S (length out)) 32 (gfni_prod 32 coef) coef out src.
Definition gf_mul_add_gfni512 (out src : list byte) (coef : byte) : option (list byte) :=
  wide_loop (S (length out)) 64 (gfni_prod 64 coef) coef out src.
Definition gf_mul_add_neon (out src : list byte) (coef : byte) : option (list byte) :=
  wide_loop (S (length out)) 16 (neon_prod coef) coef out src.

(** * Dispatch *)

Definition gf_mul_add_backend (h : Host) (b : GfBackend) (out src : list byte) (coef : byte)
    : option (list byte) :=
  match b, arch h with
  | Scalar, _ => Some (gf_mul_add_scalar out src coef)
  | AffineScalar, _ => Some (gf_mul_add_affine_scalar out src coef)
  | Neon, Aarch64 => if available h Neon then gf_mul_add_neon out src coef else None
  | Ssse3, X86_64 => if available h Ssse3 then gf_mul_add_ssse3 out src coef else None
  | Avx2, X86_64 => if available h Avx2 then gf_mul_add_avx2 out src coef else None
  | Avx512Pshufb, X86_64 =>
      if available h Avx512Pshufb then gf_mul_add_avx512 out src coef else None
  | Gfni256, X86_64 => if available h Gfni256 then gf_mul_add_gfni256 out src coef else None
  | Gfni512, X86_64 => if available h Gfni512 then gf_mul_add_gfni512 out src coef else None
  | _, _ => Some (gf_mul_add_scalar out src coef)
  end.

Definition gf_mul_add (h : Host) (b : GfBackend) (out src : list byte) (coef : byte)
    : option (list byte) :=
  if Byte.eqb coef x00 then Some out
  else if Byte.eqb coef x01 then Some (zip_update add out src)
  else gf_mul_add_backend h b out src coef.

Definition gf_mul_add_auto (h : Host) (selected : Z) (out src : list byte) (coef : byte)
    : option (list byte) * Z :=
  let '(b, selected) := current_backend h selected in
  (gf_mul_add h b out src coef, selected).

Definition SCALE_CHUNK : nat := 1024.

(** [for chunk in v.chunks_mut(SCALE_CHUNK)]. *)
Fixpoint scale_chunks (fuel : nat) (h : Host) (b : GfBackend) (v : list byte) (coef : byte)
    : option (list byte) :=
  match fuel, v with
  | _, [] => Some []
  | O, _ => None
  | S fuel, v =>
      let chunk := take SCALE_CHUNK v in
      let n := length chunk in
      chunk' ← gf_mul_add_backend h b (replicate n x00) chunk coef;
      rest ← scale_chunks fuel h b (drop SCALE_CHUNK v) coef;
      Some (chunk' ++ rest)
  end.

Definition gf_mul_backend (h : Host) (b : GfBackend) (v : list byte) (coef : byte)
    : option (list byte) :=
  if Byte.eqb coef x01 then Some v
  else if Byte.eqb coef x00 then Some (replicate (length v) x00)
  else scale_chunks (length v) h b v coef.

Definition gf_mul_auto (h : Host) (selected : Z) (v : list byte) (coef : byte)
    : option (list byte) * Z :=
  let '(b, selected) := current_backend h selected in
  (gf_mul_backend h b v coef, selected).

(** * The kernels compute the field multiply-add *)

(** The reference: [out[i] ^= coef * src[i]]. *)
Definition axpy (out src : list byte) (coef : byte) : list byte :=
  zip_with (λ o s, add o (mul coef s)) out src.

Lemma length_axpy out src coef : length src = length out → length (axpy out src coef) = length out.
Proof. intros E. unfold axpy. rewrite length_zip_with. lia. Qed.

Lemma zip_update_eq f out src : length src = length out → zip_update f out src = zip_with f out src.
Proof.
  revert src. induction out as [|o out IH]; intros [|s src] E; try done; try (cbn in E; lia).
  cbn. f_equal. apply IH. by injection E.
Qed.

(** The affine matrix of a coefficient multiplies by it, in the emulation and
    in the instruction. *)
Lemma affine_byte_mul coef x : gf2p8affine_byte x (gf_affine_matrix coef) = mul coef x.
Proof.
  apply beqb_eq. revert coef x.
  apply (byte_check2 (λ c, let m := gf_affine_matrix c in λ x, Byte.eqb (gf2p8affine_byte x m) (mul c x))).
  vm_compute. reflexivity.
Qed.

Lemma affine_hw_mul coef x : affine_hw 0 (gf_affine_matrix coef) x = mul coef x.
Proof.
  apply beqb_eq. revert coef x.
  apply (byte_check2 (λ c, let m := gf_affine_matrix c in λ x, Byte.eqb (affine_hw 0 m x) (mul c x))).
  vm_compute. reflexivity.
Qed.

(** A product is the exclusive or of the products of the two nibbles. *)
Definition lo_nibble (x : byte) : byte := band x x0f.
Definition hi_nibble (x : byte) : byte := bshr x 4.

Lemma nibbles x : x = add (lo_nibble x) (Zb (bZ (hi_nibble x) << 4)).
Proof.
  apply beqb_eq. revert x.
  apply (byte_check (λ x, Byte.eqb x (add (lo_nibble x) (Zb (bZ (hi_nibble x) << 4))))).
  vm_compute. reflexivity.
Qed.

Lemma nibble_small x :
  bit (bZ (lo_nibble x)) 7 = false ∧ bit (bZ (hi_nibble x)) 7 = false ∧
  bZ (lo_nibble x) < 16 ∧ bZ (hi_nibble x) < 16.
Proof.
  pose proof (byte_check (λ x, negb (bit (bZ (lo_nibble x)) 7) && negb (bit (bZ (hi_nibble x)) 7)
    && (bZ (lo_nibble x) <? 16) && (bZ (hi_nibble x) <? 16)) ltac:(vm_compute; reflexivity) x) as H.
  cbn beta in H. by bool_to_prop.
Qed.

Lemma to_nat_bZ b : Byte.to_nat b = Z.to_nat (bZ b).
Proof. unfold bZ. rewrite Byte.to_nat_via_N. lia. Qed.

Lemma nth_table (f : nat → byte) i : (i < 16)%nat → nth i (f <$> seq 0 16) x00 = f i.
Proof.
  intros Hi. apply nth_lookup_Some. rewrite list_lookup_fmap, lookup_seq_lt by done. done.
Qed.

(** Looking both nibbles up in the tables of [coef] gives the product. *)
Lemma nibble_tables_mul coef x :
  add (nth (Byte.to_nat (lo_nibble x)) (gf_nibble_tables coef).1 x00)
      (nth (Byte.to_nat (hi_nibble x)) (gf_nibble_tables coef).2 x00) = mul coef x.
Proof.
  destruct (nibble_small x) as (_ & _ & Hl & Hh).
  pose proof (bZ_range (lo_nibble x)). pose proof (bZ_range (hi_nibble x)).
  unfold gf_nibble_tables. cbn [fst snd]. rewrite !nth_table by (rewrite to_nat_bZ; lia).
  rewrite !to_nat_bZ, !Z2Nat.id, Zb_bZ, <- mul_add_r, <- nibbles by lia. done.
Qed.

Lemma vand_mask w v : length v = w → vand v (set1_epi8 w x0f) = lo_nibble <$> v.
Proof.
  intros <-. unfold vand, set1_epi8, lo_nibble. induction v as [|b v IH]; [done|].
  cbn. by f_equal.
Qed.

Lemma srli_epi16_nibble b0 b1 :
  let w := (bZ b0 + 256 * bZ b1) >> 4 in
  band (Zb w) x0f = hi_nibble b0 ∧ band (Zb (w >> 8)) x0f = hi_nibble b1.
Proof.
  pose proof (byte_check2 (λ b0 b1, let w := (bZ b0 + 256 * bZ b1) >> 4 in
    Byte.eqb (band (Zb w) x0f) (hi_nibble b0) && Byte.eqb (band (Zb (w >> 8)) x0f) (hi_nibble b1))
    ltac:(vm_compute; reflexivity) b0 b1) as H. cbv zeta beta in H |- *.
  apply andb_true_iff in H as [H1 H2]. split; by apply beqb_eq.
Qed.

Lemma srli_hi v : Nat.even (length v) = true → lo_nibble <$> srli_epi16 4 v = hi_nibble <$> v.
Proof.
  remember (length v) as n eqn:E. revert v E. induction (lt_wf n) as [n _ IH]. intros v -> He.
  destruct v as [|b0 [|b1 v]]; [done|done|]. cbn [length Nat.even] in He.
  destruct (srli_epi16_nibble b0 b1) as [E0 E1]. cbv zeta in E0, E1. cbn [srli_epi16].
  cbv zeta. rewrite !fmap_cons. unfold lo_nibble at 1 2. rewrite E0, E1. do 2 f_equal.
  eapply IH; [|reflexivity|done]. cbn. lia.
Qed.

Lemma length_srli k v : Nat.even (length v) = true → length (srli_epi16 k v) = length v.
Proof.
  remember (length v) as n eqn:E. revert v E. induction (lt_wf n) as [n _ IH]. intros v -> He.
  destruct v as [|b0 [|b1 v]]; [done|done|]. cbn [length Nat.even] in He. cbn.
  f_equal. f_equal. eapply IH; [|reflexivity|done]. cbn. lia.
Qed.

Lemma nth_broadcast w t i j :
  length t = 16%nat → (16 * (w / 16) = w)%nat → (i < w)%nat → (j < 16)%nat →
  nth (16 * (i / 16) + j) (broadcast128 w t) x00 = nth j t x00.
Proof.
  intros Ht Hw Hi Hj. unfold broadcast128.
  assert (i / 16 < w / 16)%nat as Hq by (apply Nat.Div0.div_lt_upper_bound; lia).
  revert Hq. generalize (w / 16)%nat (i / 16)%nat. clear -Ht Hj. intros n q. revert q.
  induction n as [|n IH]; intros q Hq; [lia|]. cbn [replicate concat].
  destruct q as [|q]; [by rewrite app_nth1 by lia|].
  rewrite app_nth2 by lia. rewrite <- (IH q) by lia. f_equal. lia.
Qed.

Definition shuffle_entry (t : list byte) (x : byte) : byte := nth (Byte.to_nat x) t x00.

Lemma shuffle_table w t idx :
  length t = 16%nat → (16 * (w / 16) = w)%nat → length idx = w →
  Forall (λ x, bit (bZ x) 7 = false ∧ bZ x < 16) idx →
  shuffle_epi8 (broadcast128 w t) idx = shuffle_entry t <$> idx.
Proof.
  intros Ht Hw <- Hidx. unfold shuffle_epi8. apply list_eq. intros i.
  rewrite list_lookup_imap, list_lookup_fmap. destruct (idx !! i) as [x|] eqn:Ex; [|done]. cbn.
  pose proof (proj1 (Forall_lookup _ _) Hidx _ _ Ex) as [Hb Hs]. cbn beta in Hb, Hs.
  rewrite Hb. f_equal. unfold shuffle_entry. apply lookup_lt_Some in Ex.
  pose proof (bZ_range x). rewrite to_nat_bZ.
  assert (Z.land (bZ x) 15 = bZ x) as ->.
  { change 15 with (2 ^ 4 - 1). rewrite land_mask_mod by lia. apply Z.mod_small. lia. }
  apply nth_broadcast; [done..|lia].
Qed.

Lemma nibbles_small v :
  Forall (λ x, bit (bZ x) 7 = false ∧ bZ x < 16) (lo_nibble <$> v) ∧
  Forall (λ x, bit (bZ x) 7 = false ∧ bZ x < 16) (hi_nibble <$> v).
Proof.
  split; apply Forall_fmap, Forall_true; intros x; destruct (nibble_small x) as (?&?&?&?); by split.
Qed.

(** What every vector kernel has to compute on a vector of its width. *)
Definition multiplies (w : nat) (coef : byte) (prod : list byte → list byte) : Prop :=
  ∀ s, length s = w → prod s = mul coef <$> s.

Lemma vxor_nibbles coef s :
  vxor (shuffle_entry (gf_nibble_tables coef).1 <$> (lo_nibble <$> s))
       (shuffle_entry (gf_nibble_tables coef).2 <$> (hi_nibble <$> s)) = mul coef <$> s.
Proof.
  induction s as [|x s IH]; [done|]. cbn. f_equal; [apply nibble_tables_mul|exact IH].
Qed.

Lemma pshufb_multiplies w coef :
  (16 * (w / 16) = w)%nat → multiplies w coef (pshufb_prod w coef).
Proof.
  intros Hw s Hs. assert (Nat.even (length s) = true) as He.
  { rewrite Hs, <- Hw. by rewrite Nat.even_mul. }
  unfold pshufb_prod. rewrite (surjective_pairing (gf_nibble_tables coef)).
  rewrite !vand_mask by (rewrite ?length_srli; done). rewrite srli_hi by done.
  destruct (nibbles_small s). rewrite !shuffle_table by (try done; by rewrite length_fmap).
  apply vxor_nibbles.
Qed.

Lemma gfni_multiplies w coef : (8 * (w / 8) = w)%nat → multiplies w coef (gfni_prod w coef).
Proof.
  intros Hw s Hs. unfold gfni_prod, gf2p8affine_epi64_epi8. apply list_eq. intros i.
  rewrite list_lookup_imap, list_lookup_fmap. destruct (s !! i) as [x|] eqn:Ex; [|done].
  cbn [fmap option_fmap option_map].
  apply lookup_lt_Some in Ex. f_equal. rewrite nth_lookup, lookup_replicate_2.
  - apply affine_hw_mul.
  - apply Nat.Div0.div_lt_upper_bound. lia.
Qed.

Lemma neon_multiplies coef : multiplies 16 coef (neon_prod coef).
Proof.
  intros s Hs. unfold neon_prod. rewrite (surjective_pairing (gf_nibble_tables coef)).
  rewrite vand_mask by done. apply vxor_nibbles.
Qed.

Lemma tail_loop_axpy coef out src :
  length src = length out → tail_loop coef out src = Some (axpy out src coef).
Proof.
  revert src. induction out as [|o out IH]; intros [|s src] E; try done; try (cbn in E; lia).
  cbn [tail_loop]. rewrite IH by (by injection E). done.
Qed.

Lemma wide_loop_axpy fuel w prod coef out src :
  multiplies w coef prod → (0 < w)%nat → (length out < fuel)%nat → length src = length out →
  wide_loop fuel w prod coef out src = Some (axpy out src coef).
Proof.
  intros Hp Hw. revert out src. induction fuel as [|fuel IH]; intros out src Hf E; [lia|].
  cbn [wide_loop]. destruct (Nat.leb_spec w (length out)); [|by apply tail_loop_axpy].
  rewrite (proj2 (Nat.leb_le _ _)) by lia. rewrite IH by len. cbn.
  f_equal. rewrite Hp by len. unfold vxor, axpy. rewrite zip_with_fmap_r.
  rewrite <- zip_with_app by len. by rewrite !take_drop.
Qed.

(** Every backend the host can run is the reference. *)
Lemma backend_axpy h b out src coef :
  available h b = true → length src = length out →
  gf_mul_add_backend h b out src coef = Some (axpy out src coef).
Proof.
  intros Ha E. unfold gf_mul_add_backend, gf_mul_add_scalar, gf_mul_add_affine_scalar.
  assert (zip_update (λ o s, add o (mul coef s)) out src = axpy out src coef) as Es
    by (by apply zip_update_eq).
  destruct b, (arch h) eqn:Harch; rewrite ?Ha, ?Es; try done;
    try (apply wide_loop_axpy; [|lia|lia|done]);
    try (by apply pshufb_multiplies); try (by apply gfni_multiplies); try apply neon_multiplies;
    rewrite zip_update_eq by done; f_equal; unfold axpy;
    apply zip_with_ext; try done; intros; by rewrite affine_byte_mul.
Qed.

Lemma axpy_0 out src : length src = length out → axpy out src x00 = out.
Proof.
  revert src. induction out as [|o out IH]; intros [|s src] E; try done; try (cbn in E; lia).
  unfold axpy in *. cbn. rewrite mul_0_l, add_0_r. f_equal. apply IH. by injection E.
Qed.

Lemma gf_mul_add_axpy h b out src coef :
  available h b = true → length src = length out →
  gf_mul_add h b out src coef = Some (axpy out src coef).
Proof.
  intros Ha E. unfold gf_mul_add. destruct (Byte.eqb coef x00) eqn:E0.
  { apply beqb_eq in E0 as ->. by rewrite axpy_0. }
  destruct (Byte.eqb coef x01) eqn:E1; [|by apply backend_axpy].
  apply beqb_eq in E1 as ->. rewrite zip_update_eq by done. f_equal. unfold axpy.
  apply zip_with_ext; try done. intros. by rewrite mul_1_l.
Qed.

Lemma axpy_zeros v coef : axpy (replicate (length v) x00) v coef = mul coef <$> v.
Proof. unfold axpy. induction v as [|x v IH]; [done|]. cbn. by rewrite add_0_l, IH. Qed.

Lemma scale_chunks_mul fuel h b v coef :
  available h b = true → (length v ≤ fuel)%nat →
  scale_chunks fuel h b v coef = Some (mul coef <$> v).
Proof.
  intros Ha. revert v. induction fuel as [|fuel IH]; intros v Hf.
  { destruct v; [done|cbn in Hf; lia]. }
  destruct v as [|x v']; [done|]. set (v := x :: v') in *. cbn [scale_chunks]. fold v.
  change (match v with [] => Some [] | _ :: _ => ?e end) with e. cbv zeta.
  rewrite backend_axpy by (done || by rewrite length_replicate). cbn [mbind option_bind].
  assert (1 ≤ SCALE_CHUNK)%nat by (unfold SCALE_CHUNK; lia).
  rewrite IH by (rewrite length_drop; unfold v in *; cbn in *; lia). cbn [mbind option_bind].
  by rewrite axpy_zeros, <- fmap_app, take_drop.
Qed.

Lemma fmap_mul_1 (v : list byte) : mul x01 <$> v = v.
Proof. induction v as [|x v IH]; [done|]. cbn. by rewrite mul_1_l, IH. Qed.

Lemma gf_mul_backend_mul h b v coef :
  available h b = true → gf_mul_backend h b v coef = Some (mul coef <$> v).
Proof.
  intros Ha. unfold gf_mul_backend.
  destruct (Byte.eqb coef x01) eqn:E1; [apply beqb_eq in E1 as ->; by rewrite fmap_mul_1|].
  destruct (Byte.eqb coef x00) eqn:E0; [|by apply scale_chunks_mul].
  apply beqb_eq in E0 as ->. f_equal. induction v as [|x v IH]; [done|]. cbn. by rewrite <- IH.
Qed.

(** ** Dispatch never runs an instruction the host does not have *)

Lemma backend_u8_roundtrip b : backend_from_u8 (backend_to_u8 b) = b.
Proof. by destruct b. Qed.

(** The cache holds nothing, or a backend the host can run. *)
Definition cache_ok (h : Host) (selected : Z) : Prop :=
  selected = BACKEND_UNINIT ∨ ∃ b, selected = backend_to_u8 b ∧ available h b = true.

Lemma detect_available h : available h (detect_best_backend h) = true.
Proof.
  unfold detect_best_backend. destruct (List.find _ _) as [b|] eqn:E; [|done].
  by apply find_some in E as [_ ?].
Qed.

Lemma current_backend_ok h selected :
  cache_ok h selected →
  available h (current_backend h selected).1 = true ∧ cache_ok h (current_backend h selected).2.
Proof.
  intros Hc. unfold current_backend. destruct (Z.eqb_spec selected BACKEND_UNINIT) as [->|Hn].
  - split; [apply detect_available|]. right. eauto using detect_available.
  - destruct Hc as [|(b & -> & Hb)]; [done|]. cbn. rewrite backend_u8_roundtrip.
    split; [done|]. right. eauto.
Qed.

(** C16: on any host, every backend the host can run, with its wide loop, its
    scalar tail and its shortcuts, computes [out[i] ^= coef * src[i]] over
    GF(256); and the automatic entry points [gf_mul_add_auto] and
    [gf_mul_auto], whose cached selection is empty or was made on this host,
    pick such a backend, keep the cache so, and never fault. *)
Theorem gf_kernels_agree h selected b out src coef :
  available h b = true → cache_ok h selected → length src = length out →
  gf_mul_add_backend h b out src coef = Some (axpy out src coef) ∧
  gf_mul_add h b out src coef = Some (axpy out src coef) ∧
  gf_mul_backend h b out coef = Some (mul coef <$> out) ∧
  (∃ s, gf_mul_add_auto h selected out src coef = (Some (axpy out src coef), s) ∧ cache_ok h s) ∧
  (∃ s, gf_mul_auto h selected out coef = (Some (mul coef <$> out), s) ∧ cache_ok h s).
Proof.
  intros Ha Hc E. destruct (current_backend_ok _ _ Hc) as [Hb Hc'].
  unfold gf_mul_add_auto, gf_mul_auto. destruct (current_backend h selected) as [b' s].
  cbn [fst snd] in *. split_and!; auto using backend_axpy, gf_mul_add_axpy, gf_mul_backend_mul;
    exists s; split; auto; f_equal; auto using gf_mul_add_axpy, gf_mul_backend_mul.
Qed.

Definition test_host : Host := {| arch := X86_64; has := λ _, true |}.

Lemma gf_kernels_agree_witness :
  gf_mul_add_backend test_host Avx2 (replicate 35 x01) (replicate 35 x03) x80
    = Some (replicate 35 x9c).
Proof.
  rewrite (proj1 (gf_kernels_agree test_host BACKEND_UNINIT Avx2 (replicate 35 x01) (replicate 35 x03) x80
    eq_refl (or_introl eq_refl) eq_refl)).
  vm_compute. reflexivity.
Defined.
