(* ===== verification/GfLinear.v ===== *)
(** Linear algebra over GF(256) for the erasure codes: finite sums, Cauchy
    matrices, and row operations as linear maps on columns. *)
From Stdlib Require Import Strings.Byte Ring Field.
From S2P Require Import Prelude Gf256.

(** * Sums *)

Section sums.
Context {A : Type}.
Implicit Types (l : list A) (f g : A → byte).

Definition fsum l f : byte := foldr (λ i s, add (f i) s) x00 l.

Lemma fsum_nil f : fsum [] f = x00.
Proof. done. Qed.
Lemma fsum_cons i l f : fsum (i :: l) f = add (f i) (fsum l f).
Proof. done. Qed.

Lemma fsum_app l1 l2 f : fsum (l1 ++ l2) f = add (fsum l1 f) (fsum l2 f).
Proof.
  induction l1 as [|i l1 IH]; [by rewrite add_0_l|]. cbn [app]. by rewrite !fsum_cons, IH, add_assoc.
Qed.

Lemma fsum_ext l f g : (∀ i, i ∈ l → f i = g i) → fsum l f = fsum l g.
Proof.
  induction l as [|i l IH]; intros H; [done|]. rewrite !fsum_cons. f_equal; [|apply IH; intros];
    apply H; set_solver.
Qed.

Lemma fsum_add l f g : fsum l (λ i, add (f i) (g i)) = add (fsum l f) (fsum l g).
Proof. induction l as [|i l IH]; [done|]. rewrite !fsum_cons, IH. ring. Qed.

Lemma fsum_mul_l l c f : fsum l (λ i, mul c (f i)) = mul c (fsum l f).
Proof. induction l as [|i l IH]; [by rewrite fsum_nil, mul_0_r|]. rewrite !fsum_cons, IH. ring. Qed.

Lemma fsum_mul_r l c f : fsum l (λ i, mul (f i) c) = mul (fsum l f) c.
Proof. rewrite mul_comm, <- fsum_mul_l. apply fsum_ext. intros. apply mul_comm. Qed.

Lemma fsum_0 l f : (∀ i, i ∈ l → f i = x00) → fsum l f = x00.
Proof.
  intros H. rewrite (fsum_ext l f (λ _, mul x00 x00)) by (intros; by rewrite H).
  by rewrite fsum_mul_l, mul_0_l.
Qed.

(** A sum with one nonzero term. *)
Lemma fsum_pick l i f :
  NoDup l → i ∈ l → (∀ j, j ∈ l → j ≠ i → f j = x00) → fsum l f = f i.
Proof.
  induction 1 as [|j l Hj Hl IH]; intros Hi H0; [by apply not_elem_of_nil in Hi|].
  rewrite fsum_cons. apply elem_of_cons in Hi as [->|Hi].
  - rewrite fsum_0; [apply add_0_r|]. intros j' Hj'. apply H0; set_solver.
  - rewrite (H0 j), add_0_l by set_solver. apply IH; set_solver.
Qed.

(** The terms outside a sublist vanish. *)
Lemma fsum_restrict l (P : A → Prop) `{∀ i, Decision (P i)} f :
  (∀ i, i ∈ l → ¬ P i → f i = x00) → fsum l f = fsum (filter P l) f.
Proof.
  induction l as [|i l IH]; intros H0; [done|]. rewrite fsum_cons, filter_cons.
  rewrite IH by set_solver. destruct (decide (P i)); [done|].
  by rewrite (H0 i), add_0_l by set_solver.
Qed.
End sums.
Arguments fsum : simpl never.

Lemma fsum_swap {A B} (l1 : list A) (l2 : list B) f :
  fsum l1 (λ i, fsum l2 (λ j, f i j)) = fsum l2 (λ j, fsum l1 (λ i, f i j)).
Proof.
  induction l1 as [|i l1 IH]; [symmetry; by apply fsum_0|].
  rewrite fsum_cons, IH, <- fsum_add. by apply fsum_ext.
Qed.

(** * Cauchy matrices *)

Section cauchy.
Context (β : nat → byte) (bound : nat).
Hypothesis β_inj : ∀ i j, (i < bound)%nat → (j < bound)%nat → β i = β j → i = j.

Lemma β_add_ne i j : (i < bound)%nat → (j < bound)%nat → i ≠ j → add (β i) (β j) ≠ x00.
Proof. intros Hi Hj Hn E%add_eq_0. eauto. Qed.

(** What is left of two rows when the first column is eliminated between them:
    a multiple of a smaller Cauchy row. *)
Lemma cauchy_eliminate p q c d :
  add p c ≠ x00 → add q c ≠ x00 →
  add (mul (add p d) (inv (add p c))) (mul (add q d) (inv (add q c)))
  = mul (add p q) (mul (inv (add p c)) (mul (add c d) (inv (add q c)))).
Proof. intros. by field. Qed.

(** A square Cauchy matrix with distinct row and column points has a trivial
    kernel. *)
Lemma cauchy_kernel cs ps (x : nat → byte) :
  length cs = length ps → NoDup cs → NoDup ps → (∀ i, i ∈ cs → i ∉ ps) →
  Forall (λ i, i < bound)%nat cs → Forall (λ i, i < bound)%nat ps →
  (∀ p, p ∈ ps → fsum cs (λ c, mul (inv (add (β p) (β c))) (x c)) = x00) →
  ∀ c, c ∈ cs → x c = x00.
Proof.
  revert ps x. induction cs as [|d cs IH]; intros [|q ps] x El Hcs Hps Hd Bc Bp Hx;
    [set_solver|done|done|]. injection El as El.
  apply NoDup_cons in Hcs as [Hdc Hcs], Hps as [Hqp Hps].
  apply Forall_cons in Bc as [Bd Bc], Bp as [Bq Bp].
  assert (∀ c, c ∈ cs → add (β q) (β c) ≠ x00 ∧ add (β c) (β d) ≠ x00) as Hne.
  { intros c Hc. assert (c < bound)%nat by (by eapply Forall_forall in Bc).
    split; apply β_add_ne; set_solver. }
  assert (add (β q) (β d) ≠ x00) as Hqd by (apply β_add_ne; set_solver).
  (* the reduced system *)
  assert (∀ c, c ∈ cs → mul (mul (add (β c) (β d)) (inv (add (β q) (β c)))) (x c) = x00) as Hy.
  { apply (IH ps (λ c, mul (mul (add (β c) (β d)) (inv (add (β q) (β c)))) (x c)));
      [done..|set_solver|done|done|].
    intros p Hp. assert (p < bound)%nat by (by eapply Forall_forall in Bp).
    assert (add (β p) (β q) ≠ x00) as Hpq by (apply β_add_ne; set_solver).
    assert (add (β p) (β d) ≠ x00) as Hpd by (apply β_add_ne; set_solver).
    assert (mul (add (β p) (β q)) (fsum cs (λ c, mul (inv (add (β p) (β c)))
      (mul (mul (add (β c) (β d)) (inv (add (β q) (β c)))) (x c)))) = x00) as Hm;
      [|by apply mul_eq_0 in Hm as [?|?]].
    pose proof (Hx p ltac:(set_solver)) as Ep. pose proof (Hx q ltac:(set_solver)) as Eq.
    rewrite fsum_cons in Ep, Eq.
    transitivity (add (mul (add (β p) (β d)) (fsum cs (λ c, mul (inv (add (β p) (β c))) (x c))))
                      (mul (add (β q) (β d)) (fsum cs (λ c, mul (inv (add (β q) (β c))) (x c))))).
    - rewrite <- !fsum_mul_l, <- fsum_add. apply fsum_ext. intros c Hc.
      assert (c < bound)%nat by (by eapply Forall_forall in Bc).
      assert (add (β p) (β c) ≠ x00) by (apply β_add_ne; set_solver).
      rewrite !mul_assoc, <- mul_add_l. rewrite cauchy_eliminate by (done || by apply Hne). ring.
    - apply add_eq_0 in Ep, Eq. rewrite <- Ep, <- Eq.
      rewrite !mul_assoc, !(mul_comm (add _ (β d))), !mul_inv_l by done. apply add_self. }
  assert (∀ c, c ∈ cs → x c = x00) as Hxc.
  { intros c Hc. destruct (Hne c Hc) as [Hq Hcd]. pose proof (Hy c Hc) as E.
    apply mul_eq_0 in E as [E|E]; [|done]. apply mul_eq_0 in E as [E|E]; [done|].
    exfalso. pose proof (mul_inv_l _ Hq) as E1. by rewrite E, mul_0_l in E1. }
  intros c Hc. apply elem_of_cons in Hc as [->|Hc]; [|auto].
  pose proof (Hx q ltac:(set_solver)) as Eq. rewrite fsum_cons in Eq.
  rewrite (fsum_0 cs), add_0_r in Eq by (intros c Hc; by rewrite Hxc, mul_0_r).
  apply mul_eq_0 in Eq as [E|E]; [|done].
  exfalso. pose proof (mul_inv_l _ Hqd) as E1. by rewrite E, mul_0_l in E1.
Qed.
End cauchy.

(** * Row operations *)

(** A row operation acts on every column alike, linearly, and loses nothing. *)
Class RowOp (n : nat) (G : (nat → byte) → nat → byte) : Prop := {
  rowop_linear l (u : nat → nat → byte) (x : nat → byte) i :
    G (λ i', fsum l (λ j, mul (u i' j) (x j))) i
    = fsum l (λ j, mul (G (λ i', u i' j) i) (x j));
  rowop_ext v w i : (∀ j, v j = w j) → G v i = G w i;
  rowop_injective v : (∀ i, (i < n)%nat → G v i = x00) → ∀ i, (i < n)%nat → v i = x00 }.

Definition op_swap (p q : nat) (v : nat → byte) (i : nat) : byte :=
  if decide (i = p) then v q else if decide (i = q) then v p else v i.
Definition op_scale (p : nat) (c : byte) (v : nat → byte) (i : nat) : byte :=
  if decide (i = p) then mul (v p) c else v i.
Definition op_elim (p : nat) (f : nat → byte) (v : nat → byte) (i : nat) : byte :=
  if decide (i = p) then v p else add (v i) (mul (f i) (v p)).

Lemma op_swap_rowop n p q : (p < n)%nat → (q < n)%nat → RowOp n (op_swap p q).
Proof.
  intros Hp Hq. split; unfold op_swap.
  - intros l u x i. repeat case_decide; done.
  - intros v w i H. by rewrite !H.
  - intros v H i Hi. destruct (decide (i = p)) as [->|Hip]; [|destruct (decide (i = q)) as [->|]].
    + pose proof (H q Hq) as E. revert E. repeat case_decide; congruence.
    + pose proof (H p Hp) as E. by rewrite decide_True in E.
    + pose proof (H i Hi) as E. by rewrite !decide_False in E.
Qed.

Lemma op_scale_rowop n p c : c ≠ x00 → RowOp n (op_scale p c).
Proof.
  intros Hc. split; unfold op_scale.
  - intros l u x i. case_decide; [|done]. rewrite <- fsum_mul_r. apply fsum_ext. intros. ring.
  - intros v w i H. by rewrite !H.
  - intros v H i Hi. pose proof (H i Hi) as E. case_decide; [|done]. subst.
    by apply mul_eq_0 in E as [?|?].
Qed.

Lemma op_elim_rowop n p f : (p < n)%nat → RowOp n (op_elim p f).
Proof.
  intros Hp. split; unfold op_elim.
  - intros l u x i. case_decide; [done|]. rewrite <- fsum_mul_l, <- fsum_add.
    apply fsum_ext. intros. ring.
  - intros v w i H. by rewrite !H.
  - intros v H i Hi. assert (v p = x00) as Ep.
    { pose proof (H p Hp) as E. by rewrite decide_True in E. }
    pose proof (H i Hi) as E. case_decide; [by subst|]. by rewrite Ep, mul_0_r, add_0_r in E.
Qed.


Lemma rowop_compose n G1 G2 : RowOp n G1 → RowOp n G2 → RowOp n (λ v, G2 (G1 v)).
Proof.
  intros H1 H2. split.
  - intros l u x i. rewrite <- (rowop_linear l (λ i' j, G1 (λ i', u i' j) i') x i).
    apply (rowop_ext (n := n)). intros j. apply (rowop_linear (n := n)).
  - intros v w i E. apply (rowop_ext (n := n)). intros j. by apply (rowop_ext (n := n)).
  - intros v E i Hi. eapply (rowop_injective (n := n) (G := G1)); [|done].
    by apply (rowop_injective (n := n) (G := G2)).
Qed.

Lemma rowop_id n : RowOp n (λ v, v).
Proof. by split. Qed.
