(* ===== verification/Fec.v ===== *)
(** The systematic Cauchy Reed-Solomon erasure code: [RsCode] and [invert] of
    crates/subetha-cxc/src/fec.rs.

    Matrices are the source's row-major vectors, written in place by the same
    loops. A shard count is a [nat] (a [usize] whose sums do not wrap). The
    selected backend of the process is the argument [selected] of the calls,
    returned as they leave it. *)
From Stdlib Require Import Strings.Byte Ring Field.
From S2P Require Import Prelude Gf256 GfKernels GfLinear.

(** * Data *)

Inductive FecError := BadParams | TooFewShards | BadShardLen.

#[export] Instance FecError_eq_dec : EqDecision FecError.
Proof. solve_decision. Defined.

Record RsCode := { k : nat; r : nat; cauchy : list byte; backend : option GfBackend }.

(** Indexing a byte vector the code has sized. *)
Definition at_ (m : list byte) (i : nat) : byte := nth i m x00.

(** [x as u8]. *)
Definition as_u8 (x : nat) : byte := Zb (Z.of_nat x).

(** [for i in 0..n { s = f(i, s) }]. *)
Definition for_range {S} (n : nat) (f : nat → S → S) (s : S) : S :=
  fold_left (λ s i, f i s) (seq 0 n) s.

(** * [RsCode] *)

Definition cauchy_matrix (k r : nat) : list byte :=
  for_range r (λ j, for_range k (λ c m, <[j * k + c := inv (add (as_u8 (k + j)) (as_u8 c))]> m))%nat
    (replicate (r * k) x00).

Definition rs_new (k r : nat) : res FecError RsCode :=
  if (k =? 0)%nat || (r =? 0)%nat || (256 <? k + r)%nat then Err BadParams
  else Ok {| k := k; r := r; cauchy := cauchy_matrix k r; backend := None |}.

Definition with_backend (code : RsCode) (b : option GfBackend) : RsCode :=
  {| k := k code; r := r code; cauchy := cauchy code; backend := b |}.

Definition effective_backend (h : Host) (selected : Z) (code : RsCode) : GfBackend * Z :=
  match backend code with
  | Some b => (b, selected)
  | None => current_backend h selected
  end.

(** The inner loops of [encode] and [decode]: [n] shards are multiplied by
    their coefficients and accumulated, zero coefficients skipped. *)
Definition accumulate (h : Host) (b : GfBackend) (n : nat) (coef : nat → byte)
    (src : nat → list byte) (out : list byte) : option (list byte) :=
  for_range n (λ c acc,
    out ← acc;
    if Byte.eqb (coef c) x00 then Some out else gf_mul_add h b out (src c) (coef c)) (Some out).

Definition or_panic {A} (x : option A) : res FecError A :=
  match x with Some a => Ok a | None => Panic end.

(** [encode]: the parity shards after the call. *)
Definition encode (h : Host) (selected : Z) (code : RsCode) (data parity : list (list byte))
    : res FecError (list (list byte)) * Z :=
  if negb (length data =? k code)%nat || negb (length parity =? r code)%nat
  then (Err BadParams, selected)
  else
    match data with
    | [] => (Panic, selected)
    | d0 :: _ =>
        let len := length d0 in
        if (len =? 0)%nat || existsb (λ s, negb (length s =? len)%nat) data
             || existsb (λ s, negb (length s =? len)%nat) parity
        then (Err BadShardLen, selected)
        else
          let '(b, selected) := effective_backend h selected code in
          (or_panic (mapM (λ j,
             accumulate h b (k code) (λ c, at_ (cauchy code) (j * k code + c)%nat)
               (λ c, nth c data []) (replicate (length (nth j parity [])) x00))
             (seq 0 (r code))), selected)
    end.

(** [enc_entry]. *)
Definition enc_entry (code : RsCode) (row col : nat) : byte :=
  if (row <? k code)%nat then (if (row =? col)%nat then x01 else x00)
  else at_ (cauchy code) ((row - k code) * k code + col).

(** The survivor scan of [decode]: positions and common length. *)
Fixpoint survivors (kk idx : nat) (shards : list (option (list byte))) (surv : list nat)
    (len : nat) : res FecError (list nat * nat) :=
  match shards with
  | [] => Ok (surv, len)
  | Some v :: shards =>
      if (length surv <? kk)%nat then
        if (len =? 0)%nat then survivors kk (S idx) shards (surv ++ [idx]) (length v)
        else if negb (length v =? len)%nat then Err BadShardLen
        else survivors kk (S idx) shards (surv ++ [idx]) len
      else survivors kk (S idx) shards surv len
  | None :: shards => survivors kk (S idx) shards surv len
  end.

(** ** [invert] *)

Definition swap (m : list byte) (i j : nat) : list byte :=
  <[i := at_ m j]> (<[j := at_ m i]> m).

(** [while piv < n && a[piv * n + col] == 0 { piv += 1 }]; [n - piv] rounds
    are enough. *)
Fixpoint find_pivot (fuel n : nat) (a : list byte) (col piv : nat) : nat :=
  match fuel with
  | O => piv
  | S fuel =>
      if (piv <? n)%nat && Byte.eqb (at_ a (piv * n + col)) x00
      then find_pivot fuel n a col (S piv) else piv
  end.

(** A loop over the columns that does the same to [a] and to [inv]. *)
Definition both (n : nat) (f : nat → list byte → list byte) (m : list byte * list byte)
    : list byte * list byte :=
  for_range n (λ c m, (f c m.1, f c m.2)) m.

Definition eliminate (n col row : nat) (m : list byte * list byte) : list byte * list byte :=
  if (row =? col)%nat then m
  else
    let factor := at_ m.1 (row * n + col) in
    if Byte.eqb factor x00 then m
    else both n (λ c x,
      <[(row * n + c)%nat := add (at_ x (row * n + c)) (mul factor (at_ x (col * n + c)))]> x) m.

Definition pivot_step (n col : nat) (m : list byte * list byte)
    : option (list byte * list byte) :=
  let piv := find_pivot n n m.1 col col in
  if (piv =? n)%nat then None
  else
    let m := if (piv =? col)%nat then m
             else both n (λ c x, swap x (col * n + c) (piv * n + c)) m in
    let pinv := inv (at_ m.1 (col * n + col)) in
    let m := both n (λ c x, <[(col * n + c)%nat := mul (at_ x (col * n + c)) pinv]> x) m in
    Some (for_range n (eliminate n col) m).

Definition invert (m : list byte) (n : nat) : option (list byte) :=
  let inv := for_range n (λ i x, <[(i * n + i)%nat := x01]> x) (replicate (n * n) x00) in
  snd <$> for_range n (λ col acc, m ← acc; pivot_step n col m) (Some (m, inv)).

(** ** [decode] *)

Definition survivor_matrix (code : RsCode) (surv : list nat) : list byte :=
  for_range (length surv) (λ row,
    for_range (k code) (λ c a,
      <[(row * k code + c)%nat := enc_entry code (nth row surv 0%nat) c]> a))
    (replicate (k code * k code) x00).

(** One round of the recovery loop; a missing survivor would be a panic. *)
Definition recover (h : Host) (b : GfBackend) (code : RsCode) (surv : list nat) (len : nat)
    (inv : list byte) (i : nat) (shards : list (option (list byte)))
    : option (list (option (list byte))) :=
  match nth i shards None with
  | Some _ => Some shards
  | None =>
      out ← accumulate h b (k code) (λ j, at_ inv (i * k code + j)%nat)
              (λ j, default [] (nth (nth j surv 0%nat) shards None)) (replicate len x00);
      Some (<[i := Some out]> shards)
  end.

Definition decode (h : Host) (selected : Z) (code : RsCode) (shards : list (option (list byte)))
    : res FecError (list (option (list byte))) * Z :=
  if negb (length shards =? k code + r code)%nat then (Err BadParams, selected)
  else if forallb (λ i, bool_decide (is_Some (nth i shards None))) (seq 0 (k code))
  then (Ok shards, selected)
  else
    match survivors (k code) 0 shards [] 0 with
    | Err e => (Err e, selected)
    | Panic => (Panic, selected)
    | Ok (surv, len) =>
        if (length surv <? k code)%nat || (len =? 0)%nat then (Err TooFewShards, selected)
        else
          match invert (survivor_matrix code surv) (k code) with
          | None => (Err TooFewShards, selected)
          | Some inv =>
              let '(b, selected) := effective_backend h selected code in
              (or_panic (for_range (k code)
                 (λ i acc, shards ← acc; recover h b code surv len inv i shards)
                 (Some shards)), selected)
          end
    end.

(** * Loops and row-major matrices *)

Lemma for_range_S {S} n (f : nat → S → S) s : for_range (Datatypes.S n) f s = f n (for_range n f s).
Proof. unfold for_range. by rewrite seq_S, fold_left_app. Qed.
Arguments for_range : simpl never.

Lemma for_range_0 {S} (f : nat → S → S) s : for_range 0 f s = s.
Proof. done. Qed.

(** Loop invariants. *)
Lemma for_range_ind {S} (P : nat → S → Prop) n (f : nat → S → S) s :
  P 0%nat s → (∀ i s, (i < n)%nat → P i s → P (Datatypes.S i) (f i s)) → P n (for_range n f s).
Proof.
  intros H0 HS. enough (∀ t, (t ≤ n)%nat → P t (for_range t f s)) as H by (apply H; lia).
  intros t. induction t as [|t IH]; intros Ht; [done|]. rewrite for_range_S. apply HS; [lia|].
  apply IH. lia.
Qed.

Lemma at_insert m p q x :
  (p < length m)%nat → at_ (<[p := x]> m) q = if decide (p = q) then x else at_ m q.
Proof.
  intros Hp. unfold at_. rewrite !nth_lookup. case_decide as E.
  - subst. by rewrite list_lookup_insert_eq.
  - by rewrite list_lookup_insert_ne.
Qed.

Lemma at_out m p : (length m ≤ p)%nat → at_ m p = x00.
Proof. intros H. unfold at_. by apply nth_overflow. Qed.

Lemma idx_inj n i j i' j' :
  (j < n)%nat → (j' < n)%nat → (i * n + j = i' * n + j')%nat → i = i' ∧ j = j'.
Proof.
  intros Hj Hj' E. assert (i = i') as ->; [|lia].
  assert (∀ a b, (b < n)%nat → ((a * n + b) / n)%nat = a) as Hd.
  { intros a b Hb. rewrite Nat.div_add_l by lia. rewrite Nat.div_small by done. lia. }
  by rewrite <- (Hd i j Hj), E, Hd.
Qed.

Lemma cell_lt h n i j : (i < h)%nat → (j < n)%nat → (i * n + j < h * n)%nat.
Proof. intros. nia. Qed.

(** Filling a matrix row by row. *)
Lemma fill_matrix h w (g : nat → nat → byte) :
  let m := for_range h (λ row, for_range w (λ c m, <[(row * w + c)%nat := g row c]> m))
             (replicate (h * w) x00) in
  length m = (h * w)%nat ∧
  ∀ i j, (i < h)%nat → (j < w)%nat → at_ m (i * w + j) = g i j.
Proof.
  cbv zeta.
  pose (P := λ (t : nat) (m : list byte), length m = (h * w)%nat ∧
    ∀ i j, (i < h)%nat → (i < t)%nat → (j < w)%nat → at_ m (i * w + j) = g i j).
  enough (P h (for_range h (λ row, for_range w (λ c m, <[(row * w + c)%nat := g row c]> m))
    (replicate (h * w) x00))) as [Hl H] by (split; auto).
  apply for_range_ind; [split; [by rewrite length_replicate|lia]|]. intros row m Hrow [Hl Hm].
  pose (Q := λ (t : nat) (m' : list byte), length m' = (h * w)%nat ∧
    ∀ i j, (i < h)%nat → (j < w)%nat → (i < row)%nat ∨ i = row ∧ (j < t)%nat →
    at_ m' (i * w + j) = g i j).
  enough (Q w (for_range w (λ c m, <[(row * w + c)%nat := g row c]> m) m)) as [Hl' H].
  { split; [done|]. intros i j Hi Hit Hj. apply H; [done..|]. lia. }
  apply for_range_ind; [split; [done|]; intros i j Hi Hj [?|?]; [auto|lia]|].
  intros c m' Hc [Hl' H']. split; [by rewrite length_insert|]. intros i j Hi Hj Hij.
  rewrite at_insert by (rewrite Hl'; by apply cell_lt). case_decide as E.
  - apply idx_inj in E as [-> ->]; [done|lia|done].
  - apply H'; [done..|]. destruct Hij as [|[-> Ht]]; [by left|]. right. split; [done|].
    destruct (decide (j = c)); [by subst|lia].
Qed.

(** ** Row operations on a square matrix *)

Section square.
Context (n : nat).

Definition ent (m : list byte) (i j : nat) : byte := at_ m (i * n + j).

Definition square (m : list byte) : Prop := length m = (n * n)%nat.

(** [m'] is [m] with the row operation [G] done. *)
Definition acts (G : (nat → byte) → nat → byte) (m m' : list byte) : Prop :=
  square m' ∧ ∀ i j, (i < n)%nat → (j < n)%nat → ent m' i j = G (λ i', ent m i' j) i.

Lemma ent_insert m i j p q x :
  square m → (p < n)%nat → (q < n)%nat → (j < n)%nat →
  ent (<[(p * n + q)%nat := x]> m) i j = if decide (i = p ∧ j = q) then x else ent m i j.
Proof.
  intros Hm Hp Hq Hj. unfold ent. rewrite at_insert by (rewrite Hm; by apply cell_lt).
  case_decide as E; case_decide as E'; try done.
  - apply idx_inj in E as [-> ->]; naive_solver.
  - destruct E' as [-> ->]. done.
Qed.

Lemma ent_out m i j : square m → (n ≤ i)%nat → ent m i j = x00.
Proof. intros Hm Hi. apply at_out. rewrite Hm. nia. Qed.

(** A loop over the columns whose round [c] acts on column [c]. *)
Lemma column_loop G (f : nat → list byte → list byte) m :
  RowOp n G →
  (∀ c m, (c < n)%nat → square m → square (f c m) ∧
     ∀ i j, (i < n)%nat → (j < n)%nat →
     ent (f c m) i j = if decide (j = c) then G (λ i', ent m i' c) i else ent m i j) →
  square m → acts G m (for_range n f m).
Proof.
  intros HG Hf Hm.
  pose (P := λ (t : nat) (m' : list byte), square m' ∧ ∀ i j, (i < n)%nat → (j < n)%nat →
    ent m' i j = if decide (j < t)%nat then G (λ i', ent m i' j) i else ent m i j).
  enough (P n (for_range n f m)) as [Hl H].
  { split; [done|]. intros i j Hi Hj. rewrite H by done. by rewrite decide_True. }
  apply for_range_ind.
  - split; [done|]. intros i j _ _. by rewrite decide_False by lia.
  - intros c m' Hc [Hm' H']. destruct (Hf c m' Hc Hm') as [Hsq Hent]. split; [done|].
    intros i j Hi Hj. rewrite Hent by done. destruct (decide (j = c)) as [->|Hne].
    + rewrite decide_True by lia. apply (rowop_ext (n := n)). intros i'.
      destruct (decide (i' < n)%nat); [|by rewrite !ent_out by (done || lia)].
      rewrite H' by done. by rewrite decide_False by lia.
    + rewrite H' by done. destruct (decide (j < c)%nat), (decide (j < S c)%nat); done || lia.
Qed.

Lemma both_split f (m : list byte * list byte) :
  both n f m = (for_range n f m.1, for_range n f m.2).
Proof.
  unfold both. apply (for_range_ind (λ t x, x = (for_range t f m.1, for_range t f m.2)));
    [by destruct m|]. intros i x _ ->. by rewrite !for_range_S.
Qed.

Lemma swap_acts p q m :
  (p < n)%nat → (q < n)%nat → p ≠ q → square m →
  acts (op_swap p q) m (for_range n (λ c x, swap x (p * n + c) (q * n + c)) m).
Proof.
  intros Hp Hq Hne. apply column_loop; [by apply op_swap_rowop|]. clear m. intros c m Hc Hm.
  assert (square (<[(q * n + c)%nat := at_ m (p * n + c)]> m)) as Hs
    by (unfold square; by rewrite length_insert).
  split; [unfold square, swap; by rewrite length_insert|]. intros i j Hi Hj.
  unfold swap, op_swap. rewrite !ent_insert by done. fold (ent m q c) (ent m p c).
  destruct (decide (j = c)) as [->|]; repeat case_decide; naive_solver.
Qed.

Lemma scale_acts p x m :
  (p < n)%nat → x ≠ x00 → square m →
  acts (op_scale p x) m (for_range n (λ c m, <[(p * n + c)%nat := mul (at_ m (p * n + c)) x]> m) m).
Proof.
  intros Hp Hx. apply column_loop; [by apply op_scale_rowop|]. clear m. intros c m Hc Hm.
  split; [unfold square; by rewrite length_insert|]. intros i j Hi Hj.
  unfold op_scale. rewrite ent_insert by done. fold (ent m p c).
  destruct (decide (j = c)) as [->|]; repeat case_decide; naive_solver.
Qed.

(** Eliminating column [p] of one row. *)
Lemma elim_row_acts p row x m :
  (p < n)%nat → (row < n)%nat → row ≠ p → square m →
  acts (op_elim p (λ i, if decide (i = row) then x else x00)) m
    (for_range n (λ c m,
      <[(row * n + c)%nat := add (at_ m (row * n + c)) (mul x (at_ m (p * n + c)))]> m) m).
Proof.
  intros Hp Hrow Hne. apply column_loop; [by apply op_elim_rowop|]. clear m. intros c m Hc Hm.
  split; [unfold square; by rewrite length_insert|]. intros i j Hi Hj.
  unfold op_elim. rewrite ent_insert by done. fold (ent m p c) (ent m row c).
  destruct (decide (j = c)) as [->|]; repeat case_decide; try naive_solver.
  by rewrite mul_0_l, add_0_r.
Qed.

(** The whole elimination: every other row loses its entry of column [p]. *)
Lemma eliminate_all p (a b : list byte) :
  (p < n)%nat → square a → square b →
  let m := for_range n (eliminate n p) (a, b) in
  acts (op_elim p (λ i, ent a i p)) a m.1 ∧ acts (op_elim p (λ i, ent a i p)) b m.2.
Proof.
  intros Hp Ha Hb. cbv zeta. set (f := λ i, ent a i p).
  pose (done_rows := λ (t : nat) (m m' : list byte), square m' ∧ ∀ i j, (i < n)%nat → (j < n)%nat →
    ent m' i j = if decide (i < t)%nat then op_elim p f (λ i', ent m i' j) i else ent m i j).
  enough (done_rows n a (for_range n (eliminate n p) (a, b)).1 ∧
          done_rows n b (for_range n (eliminate n p) (a, b)).2) as [ [? H1] [? H2] ].
  { split; (split; [done|]); intros i j Hi Hj; rewrite ?H1, ?H2 by done; by rewrite decide_True. }
  apply (for_range_ind (λ t m, done_rows t a m.1 ∧ done_rows t b m.2)).
  { split; (split; [done|]); intros i j _ _; by rewrite decide_False by lia. }
  intros row m Hrow [ [Hs1 H1] [Hs2 H2] ]. unfold eliminate. fold (ent m.1 row p).
  assert (ent m.1 row p = f row) as ->.
  { rewrite H1 by done. by rewrite decide_False by lia. }
  (* rows already done are not touched, and row [p] is never changed *)
  assert (∀ x y y', done_rows row x y → square y' →
    (∀ i j, (i < n)%nat → (j < n)%nat → ent y' i j =
       op_elim p (λ i, if decide (i = row) then f row else x00) (λ i', ent y i' j) i) →
    done_rows (S row) x y') as Hstep.
  { intros x y y' [_ Hy] Hs' Hy'. split; [done|]. intros i j Hi Hj. rewrite Hy' by done.
    unfold op_elim. rewrite !Hy by done. unfold op_elim. rewrite (decide_True (P := p = p)) by done.
    assert (∀ z : byte, (if decide (p < row)%nat then z else z) = z) as Hid by (intros; by case_decide).
    rewrite Hid. repeat case_decide; subst; try done; try lia; by rewrite mul_0_l, add_0_r. }
  assert (∀ y i j, row = p ∨ f row = x00 →
    ent y i j = op_elim p (λ i, if decide (i = row) then f row else x00) (λ i', ent y i' j) i) as Hskip.
  { intros y i j Hc. unfold op_elim. case_decide; [by subst|].
    case_decide; [destruct Hc as [?| ->]; [lia|]|]; by rewrite mul_0_l, add_0_r. }
  destruct (Nat.eqb_spec row p) as [Erow|Hne].
  { split; [apply (Hstep a m.1)|apply (Hstep b m.2)]; (by split) || done || (intros; apply Hskip; by left). }
  cbv zeta. destruct (Byte.eqb (f row) x00) eqn:E0.
  { apply beqb_eq in E0.
    split; [apply (Hstep a m.1)|apply (Hstep b m.2)]; (by split) || done || (intros; apply Hskip; by right). }
  rewrite both_split. cbn [fst snd].
  split; [apply (Hstep a m.1)|apply (Hstep b m.2)]; (by split) || (by apply elim_row_acts).
Qed.

Lemma find_pivot_spec fuel a col piv :
  (n - piv ≤ fuel)%nat → (piv ≤ n)%nat →
  let p := find_pivot fuel n a col piv in
  (piv ≤ p ≤ n)%nat ∧ (∀ i, (piv ≤ i < p)%nat → ent a i col = x00) ∧
  ((p < n)%nat → ent a p col ≠ x00).
Proof.
  revert piv. induction fuel as [|fuel IH]; intros piv Hf Hp; cbn [find_pivot].
  { split_and!; [lia..|intros; lia|lia]. }
  fold (ent a piv col). destruct (Nat.ltb_spec piv n); cbn [andb].
  2: { split_and!; [lia..|intros; lia|lia]. }
  destruct (Byte.eqb (ent a piv col) x00) eqn:E.
  - apply beqb_eq in E. destruct (IH (S piv)) as (H1 & H2 & H3); [lia..|].
    split_and!; [lia..| |done]. intros i Hi. destruct (decide (i = piv)) as [->|]; [done|].
    apply H2. lia.
  - split_and!; [lia..|intros; lia|]. intros _. by apply Byte.eqb_false.
Qed.

(** The first [c] columns are those of the identity. *)
Definition units (c : nat) (m : list byte) : Prop :=
  ∀ i j, (i < n)%nat → (j < c)%nat → ent m i j = if decide (i = j) then x01 else x00.

Lemma acts_compose G1 G2 m m1 m2 :
  RowOp n G2 → square m → acts G1 m m1 → acts G2 m1 m2 →
  (∀ v i, (n ≤ i)%nat → (∀ i', (n ≤ i')%nat → v i' = x00) → G1 v i = x00) →
  acts (λ v, G2 (G1 v)) m m2.
Proof.
  intros H2 Hm [Hs1 E1] [Hs2 E2] Hout. split; [done|]. intros i j Hi Hj. rewrite E2 by done.
  apply (rowop_ext (n := n)). intros i'. destruct (decide (i' < n)%nat); [by apply E1|].
  rewrite ent_out by (done || lia). symmetry. apply Hout; [lia|]. intros. by apply ent_out.
Qed.

(** Swapping a pivot up, scaling it to one and eliminating its column makes
    one more identity column. *)
Lemma scale_elim_units col x m1 m2 m3 :
  (col < n)%nat → units col m1 → (ent m1 col col ≠ x00) → x = inv (ent m1 col col) →
  acts (op_scale col x) m1 m2 → acts (op_elim col (λ i, ent m2 i col)) m2 m3 →
  units (S col) m3.
Proof.
  intros Hcol Hu Hpv -> [_ E2] [_ E3] i j Hi Hj.
  assert (∀ i j, (i < n)%nat → (j < col)%nat → ent m2 i j = if decide (i = j) then x01 else x00) as Hu2.
  { intros i' j' Hi' Hj'. rewrite E2 by lia. unfold op_scale. case_decide; subst;
      rewrite Hu by lia; repeat case_decide; subst; try lia; by rewrite ?mul_0_l. }
  assert (ent m2 col col = x01) as Hcc.
  { rewrite E2 by lia. unfold op_scale. rewrite decide_True by done.
    rewrite mul_comm. by apply mul_inv_l. }
  rewrite E3 by lia. unfold op_elim. destruct (decide (j = col)) as [->|Hjc].
  - rewrite Hcc. case_decide; [done|]. rewrite mul_comm, mul_1_l. apply add_self.
  - rewrite (Hu2 col j), (decide_False (P := col = j)), mul_0_r, add_0_r by lia.
    rewrite (Hu2 i j) by lia. repeat case_decide; subst; done || lia.
Qed.

Lemma pivot_step_spec col a b :
  (col < n)%nat → square a → square b →
  match pivot_step n col (a, b) with
  | None => ∀ i, (col ≤ i < n)%nat → ent a i col = x00
  | Some (a', b') =>
      (∃ G, RowOp n G ∧ acts G a a' ∧ acts G b b') ∧ (units col a → units (S col) a')
  end.
Proof.
  intros Hcol Ha Hb. unfold pivot_step. cbn [fst snd].
  destruct (find_pivot_spec n a col col) as (Hp & Hz & Hnz); [lia..|].
  set (piv := find_pivot n n a col col) in *. destruct (Nat.eqb_spec piv n) as [En|Hn].
  { intros i Hi. apply Hz. lia. }
  specialize (Hnz ltac:(lia)). cbv zeta.
  (* the swap *)
  set (m1 := if (piv =? col)%nat then (a, b) else both n _ (a, b)).
  assert (∃ G, RowOp n G ∧ acts G a m1.1 ∧ acts G b m1.2 ∧ ent m1.1 col col ≠ x00 ∧
    (units col a → units col m1.1) ∧
    (∀ v i, (n ≤ i)%nat → (∀ i', (n ≤ i')%nat → v i' = x00) → G v i = x00))
    as (G1 & HG1 & A1 & B1 & Hpv & Hu1 & Hout1).
  { unfold m1. destruct (Nat.eqb_spec piv col) as [E|Hne].
    - exists (λ v, v). rewrite E in Hnz. split_and!; auto using rowop_id; by split.
    - rewrite both_split. cbn [fst snd].
      destruct (swap_acts col piv a) as [Hs E]; [lia..|done|].
      exists (op_swap col piv). split_and!; [apply op_swap_rowop; lia|by split|apply swap_acts; done || lia|..].
      + rewrite E by lia. unfold op_swap. by rewrite decide_True.
      + intros Hu i j Hi Hj. rewrite E by lia. unfold op_swap. rewrite !Hu by lia.
        repeat case_decide; done || lia.
      + intros v i Hi Hv. unfold op_swap. repeat case_decide; try lia. auto. }
  clearbody m1. destruct m1 as [a1 b1]. cbn [fst snd] in *. fold (ent a1 col col).
  set (x := inv (ent a1 col col)). assert (x ≠ x00) as Hx.
  { intros E. pose proof (mul_inv_l _ Hpv) as E1. fold x in E1. by rewrite E, mul_0_l in E1. }
  rewrite both_split. cbn [fst snd].
  pose proof (scale_acts col x a1 Hcol Hx (proj1 A1)) as A2.
  pose proof (scale_acts col x b1 Hcol Hx (proj1 B1)) as B2.
  set (a2 := for_range n _ a1) in *. set (b2 := for_range n _ b1) in *. clearbody a2 b2.
  destruct (eliminate_all col a2 b2 Hcol (proj1 A2) (proj1 B2)) as [A3 B3].
  destruct (for_range n (eliminate n col) (a2, b2)) as [a3 b3]. cbn [fst snd] in *.
  split; [|intros Hu; by eapply scale_elim_units; [| |exact Hpv| |exact A2|exact A3]; auto].
  pose proof (op_scale_rowop n col x Hx) as R2.
  pose proof (op_elim_rowop n col (λ i, ent a2 i col) Hcol) as R3.
  exists (λ v, op_elim col (λ i, ent a2 i col) (op_scale col x (G1 v))).
  assert (∀ v i, (n ≤ i)%nat → (∀ i', (n ≤ i')%nat → v i' = x00) → op_scale col x (G1 v) i = x00) as Hout2.
  { intros v i Hi Hv. unfold op_scale. rewrite decide_False by lia. by apply Hout1. }
  split_and!.
  - apply rowop_compose; [by apply (rowop_compose n G1 (op_scale col x))|done].
  - eapply (acts_compose (λ v, op_scale col x (G1 v))); eauto. by eapply acts_compose.
  - eapply (acts_compose (λ v, op_scale col x (G1 v))); eauto. by eapply acts_compose.
Qed.

(** ** Gauss-Jordan elimination inverts *)

Definition kernel_trivial (m : list byte) : Prop :=
  ∀ x : nat → byte, (∀ i, (i < n)%nat → fsum (seq 0 n) (λ j, mul (ent m i j) (x j)) = x00) →
  ∀ j, (j < n)%nat → x j = x00.

(** [a] is [b] times [A]. *)
Definition product (b A a : list byte) : Prop :=
  ∀ i j, (i < n)%nat → (j < n)%nat → ent a i j = fsum (seq 0 n) (λ l, mul (ent b i l) (ent A l j)).

Lemma acts_kernel G a a' : RowOp n G → acts G a a' → kernel_trivial a → kernel_trivial a'.
Proof.
  intros HG [_ E] Hk x Hx. apply Hk. apply (rowop_injective (n := n) (G := G)).
  intros i Hi. rewrite (rowop_linear (n := n)), <- (Hx i Hi). apply fsum_ext. intros j Hj%elem_of_seq.
  by rewrite E by lia.
Qed.

Lemma acts_product G A a a' b b' :
  RowOp n G → square a → square b → acts G a a' → acts G b b' → product b A a → product b' A a'.
Proof.
  intros HG Ha Hb [_ Ea] [_ Eb] Hp i j Hi Hj. rewrite Ea by done.
  transitivity (G (λ i', fsum (seq 0 n) (λ l, mul (ent b i' l) (ent A l j))) i).
  - apply (rowop_ext (n := n)). intros i'. destruct (decide (i' < n)%nat); [by apply Hp|].
    rewrite ent_out by (done || lia). symmetry. apply fsum_0. intros l _.
    by rewrite ent_out, mul_0_l by (done || lia).
  - rewrite (rowop_linear (n := n)). apply fsum_ext. intros l Hl%elem_of_seq.
    by rewrite Eb by lia.
Qed.

(** A column without a pivot gives a vector of the kernel. *)
Lemma no_pivot_kernel c a :
  (c < n)%nat → units c a → (∀ i, (c ≤ i < n)%nat → ent a i c = x00) → ¬ kernel_trivial a.
Proof.
  intros Hc Hu Hz Hk.
  pose (e := λ j, if decide (j = c) then x01 else x00).
  pose (y := λ j, if decide (j < c)%nat then ent a j c else x00).
  assert (add (e c) (y c) = x00) as E; [apply (Hk (λ j, add (e j) (y j))); [|done]|].
  2: { unfold e, y in E. rewrite decide_True, decide_False, add_0_r in E by lia. done. }
  intros i Hi.
  rewrite (fsum_ext _ _ (λ j, add (mul (ent a i j) (e j)) (mul (ent a i j) (y j))))
    by (intros; apply mul_add_r).
  rewrite fsum_add, (fsum_pick _ c); [|apply NoDup_seq|apply elem_of_seq; lia|].
  2: { intros j _ Hne. unfold e. rewrite decide_False by done. apply mul_0_r. }
  unfold e. rewrite decide_True, mul_comm, mul_1_l by done.
  destruct (decide (i < c)%nat) as [Hlt|Hge].
  - rewrite (fsum_pick _ i); [|apply NoDup_seq|apply elem_of_seq; lia|].
    + unfold y. rewrite (decide_True (P := (i < c)%nat)), (Hu i i), decide_True, mul_1_l by done.
      apply add_self.
    + intros j Hj Hne. unfold y. case_decide; [|apply mul_0_r].
      by rewrite Hu, decide_False, mul_0_l by (done || lia).
  - rewrite Hz, add_0_l by lia. apply fsum_0. intros j _. unfold y. case_decide; [|apply mul_0_r].
    by rewrite Hu, decide_False, mul_0_l by (done || lia).
Qed.

Lemma identity_spec :
  let m := for_range n (λ i x, <[(i * n + i)%nat := x01]> x) (replicate (n * n) x00) in
  square m ∧ ∀ i j, (i < n)%nat → (j < n)%nat → ent m i j = if decide (i = j) then x01 else x00.
Proof.
  cbv zeta.
  pose (P := λ (t : nat) (m : list byte), square m ∧ ∀ i j, (i < n)%nat → (j < n)%nat →
    ent m i j = if decide (i = j ∧ i < t)%nat then x01 else x00).
  enough (P n (for_range n (λ i x, <[(i * n + i)%nat := x01]> x) (replicate (n * n) x00))) as [Hs H].
  { split; [done|]. intros i j Hi Hj. rewrite H by done. repeat case_decide; naive_solver. }
  apply for_range_ind.
  - split; [unfold square; by rewrite length_replicate|]. intros i j Hi Hj.
    rewrite decide_False by lia. unfold ent, at_. apply nth_lookup_Some, lookup_replicate_2, cell_lt; done.
  - intros t m Ht [Hs H]. split; [unfold square; by rewrite length_insert|]. intros i j Hi Hj.
    rewrite ent_insert by done. rewrite H by done. repeat case_decide; try done; lia.
Qed.

(** A matrix with a trivial kernel is inverted. *)
Lemma invert_correct A :
  square A → kernel_trivial A →
  ∃ inv, invert A n = Some inv ∧
    ∀ i j, (i < n)%nat → (j < n)%nat →
    fsum (seq 0 n) (λ l, mul (ent inv i l) (ent A l j)) = if decide (i = j) then x01 else x00.
Proof.
  intros HA Hk. unfold invert. destruct identity_spec as [Hs0 HI].
  set (I := for_range n _ (replicate (n * n) x00)) in *.
  pose (P := λ (t : nat) (acc : option (list byte * list byte)), ∃ a b, acc = Some (a, b) ∧
    square a ∧ square b ∧ kernel_trivial a ∧ units t a ∧ product b A a).
  assert (P n (for_range n (λ col acc, m ← acc; pivot_step n col m) (Some (A, I))))
    as (a & b & -> & _ & _ & _ & Hu & Hp).
  { apply for_range_ind.
    - exists A, I. split_and!; [done..|intros ???; lia|]. intros i j Hi Hj.
      rewrite (fsum_pick _ i); [|apply NoDup_seq|apply elem_of_seq; lia|].
      + by rewrite HI, decide_True, mul_1_l.
      + intros l Hl%elem_of_seq Hne. by rewrite HI, decide_False, mul_0_l by (done || lia).
    - intros col acc Hcol (a & b & -> & Ha & Hb & Hka & Hu & Hp). cbn [mbind option_bind].
      pose proof (pivot_step_spec col a b Hcol Ha Hb) as Hstep.
      destruct (pivot_step n col (a, b)) as [ [a' b'] |].
      + destruct Hstep as [(G & HG & Ea & Eb) Hu']. exists a', b'.
        split_and!; [done|apply Ea|apply Eb|by eapply acts_kernel|auto|by apply (acts_product G A a a' b b')].
      + by destruct (no_pivot_kernel col a). }
  exists b. split; [done|]. intros i j Hi Hj. rewrite <- Hp by done. by apply Hu.
Qed.
End square.

(** * The code recovers *)

(** ** Accumulation *)

(** The linear combination of [m] shards of [len] bytes. *)
Definition combine (m len : nat) (coef : nat → byte) (src : nat → list byte) : list byte :=
  (λ x, fsum (seq 0 m) (λ c, mul (coef c) (at_ (src c) x))) <$> seq 0 len.

Lemma length_combine m len coef src : length (combine m len coef src) = len.
Proof. unfold combine. len. Qed.

Lemma lookup_combine m len coef src x :
  (x < len)%nat →
  combine m len coef src !! x = Some (fsum (seq 0 m) (λ c, mul (coef c) (at_ (src c) x))).
Proof. intros Hx. unfold combine. by rewrite list_lookup_fmap, lookup_seq_lt. Qed.

Lemma lookup_at (l : list byte) x : (x < length l)%nat → l !! x = Some (at_ l x).
Proof. intros Hx. unfold at_. destruct (lookup_lt_is_Some_2 l x Hx) as [b Hb]. by rewrite (nth_lookup_Some _ _ _ _ Hb). Qed.

Lemma byte_list_eq (l1 l2 : list byte) :
  length l1 = length l2 → (∀ x, (x < length l1)%nat → at_ l1 x = at_ l2 x) → l1 = l2.
Proof.
  intros El H. apply list_eq. intros x. destruct (decide (x < length l1)%nat).
  - rewrite !lookup_at by lia. f_equal. auto.
  - rewrite !lookup_ge_None_2 by lia. done.
Qed.

Lemma at_combine m len coef src x :
  (x < len)%nat → at_ (combine m len coef src) x = fsum (seq 0 m) (λ c, mul (coef c) (at_ (src c) x)).
Proof. intros Hx. unfold at_. by rewrite (nth_lookup_Some _ _ _ _ (lookup_combine m len coef src x Hx)). Qed.

Lemma at_axpy out src coef x :
  length src = length out → (x < length out)%nat →
  at_ (axpy out src coef) x = add (at_ out x) (mul coef (at_ src x)).
Proof.
  intros El Hx. apply nth_lookup_Some. unfold axpy. rewrite lookup_zip_with.
  rewrite !lookup_at by lia. done.
Qed.

Lemma accumulate_combine h b m len coef src :
  available h b = true → (∀ c, (c < m)%nat → length (src c) = len) →
  accumulate h b m coef src (replicate len x00) = Some (combine m len coef src).
Proof.
  intros Hb Hl. unfold accumulate.
  apply (for_range_ind (λ t acc, acc = Some (combine t len coef src))).
  - f_equal. apply byte_list_eq; [by rewrite length_combine, length_replicate|].
    intros x Hx. rewrite length_replicate in Hx. rewrite at_combine by done.
    by apply nth_lookup_Some, lookup_replicate_2.
  - intros c acc Hc ->. cbn [mbind option_bind].
    assert (axpy (combine c len coef src) (src c) (coef c) = combine (S c) len coef src) as E.
    { apply byte_list_eq; rewrite length_axpy, !length_combine by (rewrite length_combine; auto); [done|].
      intros x Hx. rewrite at_axpy, !at_combine by (rewrite ?length_combine; auto).
      rewrite seq_S, fsum_app, fsum_cons, fsum_nil, add_0_r. done. }
    destruct (Byte.eqb (coef c) x00) eqn:E0.
    + apply beqb_eq in E0. rewrite <- E, E0, axpy_0; [done|]. rewrite length_combine. auto.
    + rewrite gf_mul_add_axpy; [by rewrite E|done|]. rewrite length_combine. auto.
Qed.

(** ** Construction *)

Lemma as_u8_inj i j : (i < 256)%nat → (j < 256)%nat → as_u8 i = as_u8 j → i = j.
Proof.
  intros Hi Hj E. apply (f_equal bZ) in E. unfold as_u8 in E.
  rewrite !bZ_Zb, !Z.mod_small in E by lia. lia.
Qed.

(** A code built by [new], with any backend pinned. *)
Definition built (code : RsCode) : Prop :=
  (0 < k code)%nat ∧ (0 < r code)%nat ∧ (k code + r code ≤ 256)%nat ∧
  cauchy code = cauchy_matrix (k code) (r code).

(** The backend of a code is one the host can run, or left to detection. *)
Definition backend_ok (h : Host) (code : RsCode) : Prop :=
  match backend code with Some b => available h b = true | None => True end.

Lemma rs_new_built kk rr code : rs_new kk rr = Ok code → built code ∧ k code = kk ∧ r code = rr.
Proof.
  unfold rs_new. destruct (_ || _) eqn:E; [done|]. intros [= <-]. unfold built. cbn.
  apply orb_false_iff in E as [ [E1 E2]%orb_false_iff E3].
  apply Nat.eqb_neq in E1, E2. apply Nat.ltb_ge in E3. split_and!; done || lia.
Qed.

Lemma effective_backend_ok h selected code :
  backend_ok h code → cache_ok h selected →
  available h (effective_backend h selected code).1 = true ∧
  cache_ok h (effective_backend h selected code).2.
Proof.
  unfold backend_ok, effective_backend. destruct (backend code) as [b|]; [done|].
  intros _. apply current_backend_ok.
Qed.

(** The encoding matrix: the identity above the Cauchy matrix. *)
Lemma enc_entry_eq code row col :
  built code → (row < k code + r code)%nat → (col < k code)%nat →
  enc_entry code row col =
    if decide (row < k code)%nat then (if decide (row = col) then x01 else x00)
    else inv (add (as_u8 row) (as_u8 col)).
Proof.
  intros (_ & _ & _ & Ec) Hrow Hcol. unfold enc_entry. destruct (Nat.ltb_spec row (k code)).
  - rewrite decide_True by done. destruct (Nat.eqb_spec row col); by case_decide.
  - rewrite decide_False by lia. rewrite Ec.
    destruct (fill_matrix (r code) (k code) (λ j c, inv (add (as_u8 (k code + j)) (as_u8 c)))) as [_ H'].
    unfold cauchy_matrix. rewrite H' by lia. by replace (k code + (row - k code))%nat with row by lia.
Qed.

(** The parity shards of [data], as the wire format defines them. *)
Definition parity_shard (kk len : nat) (data : list (list byte)) (j : nat) : list byte :=
  combine kk len (λ c, inv (add (as_u8 (kk + j)) (as_u8 c))) (λ c, nth c data []).

Lemma existsb_lengths len (l : list (list byte)) :
  Forall (λ s, length s = len) l → existsb (λ s, negb (length s =? len)%nat) l = false.
Proof.
  induction 1 as [|s l Hs _ IH]; [done|]. cbn. by rewrite Hs, Nat.eqb_refl, IH.
Qed.

Lemma nth_Forall {A} (P : A → Prop) l i d : Forall P l → (i < length l)%nat → P (nth i l d).
Proof. intros Hl Hi. apply (proj1 (Forall_forall P l)  Hl). apply list_elem_of_In, nth_In, Hi. Qed.

Lemma mapM_Some {A B} (f : A → option B) (g : A → B) l :
  (∀ x, x ∈ l → f x = Some (g x)) → mapM f l = Some (g <$> l).
Proof.
  induction l as [|x l IH]; intros H; [done|]. cbn. rewrite H, IH by set_solver. done.
Qed.

Lemma combine_ext m len c1 c2 s1 s2 :
  (∀ c, (c < m)%nat → c1 c = c2 c ∧ s1 c = s2 c) → combine m len c1 s1 = combine m len c2 s2.
Proof.
  intros H. unfold combine. apply list_fmap_ext. intros _ x _. apply fsum_ext.
  intros c Hc%elem_of_seq. by destruct (H c ltac:(lia)) as [-> ->].
Qed.

Lemma encode_parity h selected code data parity len :
  built code → backend_ok h code → cache_ok h selected →
  length data = k code → length parity = r code → (0 < len)%nat →
  Forall (λ s, length s = len) data → Forall (λ s, length s = len) parity →
  ∃ selected', cache_ok h selected' ∧
  encode h selected code data parity
    = (Ok (parity_shard (k code) len data <$> seq 0 (r code)), selected').
Proof.
  intros Hb Hbk Hc Hd Hp Hlen Fd Fp. destruct (effective_backend_ok _ _ _ Hbk Hc) as [Ha Hc'].
  unfold encode. rewrite Hd, Hp, !Nat.eqb_refl. cbn [negb orb].
  destruct data as [|d0 data'] eqn:Edata. { destruct Hb. cbn in Hd. lia. }
  rewrite <- Edata in *. assert (length d0 = len) as -> by (rewrite Edata in Fd; by inversion Fd).
  rewrite (proj2 (Nat.eqb_neq _ _)), !existsb_lengths by (done || lia). cbn [orb].
  destruct (effective_backend h selected code) as [b sel]. cbn [fst snd] in *. exists sel.
  split; [done|]. f_equal. rewrite (mapM_Some _ (parity_shard (k code) len data)); [done|].
  intros j Hj%elem_of_seq. rewrite (nth_Forall _ _ _ _ Fp) by lia.
  rewrite accumulate_combine by (done || intros; apply (nth_Forall _ _ _ _ Fd); lia).
  f_equal. apply combine_ext. intros c Hcc. split; [|done].
  pose proof (enc_entry_eq code (k code + j) c Hb ltac:(lia) Hcc) as E.
  rewrite decide_False in E by lia. rewrite <- E. unfold enc_entry.
  rewrite (proj2 (Nat.ltb_ge _ _)) by lia. by replace (k code + j - k code)%nat with j by lia.
Qed.

(** ** Survivors *)

(** The positions of the shards received, from [idx] on. *)
Fixpoint positions (idx : nat) (shards : list (option (list byte))) : list nat :=
  match shards with
  | [] => []
  | Some _ :: shards => idx :: positions (S idx) shards
  | None :: shards => positions (S idx) shards
  end.

Definition received (shards : list (option (list byte))) : nat := length (positions 0 shards).

Lemma elem_of_positions idx shards p :
  p ∈ positions idx shards ↔ (idx ≤ p)%nat ∧ is_Some (nth (p - idx) shards None).
Proof.
  revert idx. induction shards as [|s shards IH]; intros idx; cbn [positions].
  { split; [set_solver|]. intros [_ H]. destruct (p - idx)%nat; cbn in H; by destruct H. }
  destruct (decide (p = idx)) as [->|Hne].
  { rewrite Nat.sub_diag. destruct s as [v|]; cbn [nth].
    - split; [by eauto|]. set_solver.
    - rewrite IH. split; [lia|]. intros [_ [? ?]]. done. }
  assert (p ∈ positions (S idx) shards ↔ (idx ≤ p)%nat ∧ is_Some (nth (p - idx) (s :: shards) None)) as <-.
  { rewrite IH. destruct (decide (idx < p)%nat); [|split; lia].
    replace (p - idx)%nat with (S (p - S idx)) by lia. cbn [nth]. split; intros [? ?]; split; done || lia. }
  destruct s; set_solver.
Qed.

Lemma NoDup_positions idx shards : NoDup (positions idx shards).
Proof.
  revert idx. induction shards as [|[v|] shards IH]; intros idx; cbn; [constructor| |done].
  constructor; [|done]. rewrite elem_of_positions. lia.
Qed.

(** The scan takes the first [kk] of them when all have one length. *)
Lemma survivors_spec kk len idx shards surv l :
  (0 < len)%nat → Forall (λ s, ∀ v, s = Some v → length v = len) shards →
  (length surv ≤ kk)%nat → l = (if decide (surv = []) then 0%nat else len) →
  let s' := surv ++ take (kk - length surv) (positions idx shards) in
  survivors kk idx shards surv l = Ok (s', if decide (s' = []) then 0%nat else len).
Proof.
  intros Hlen Hs. revert idx surv l. induction Hs as [|s shards Hv _ IH]; intros idx surv l Hk El.
  { cbn. rewrite take_nil, app_nil_r. by subst. }
  cbv zeta in *. destruct s as [v|]; cbn [survivors positions]; [|by apply IH].
  specialize (Hv v eq_refl). destruct (Nat.ltb_spec (length surv) kk) as [Hlt|Hge].
  2: { rewrite IH by done. by replace (kk - length surv)%nat with 0%nat by lia. }
  assert (survivors kk (S idx) shards (surv ++ [idx]) len =
    Ok (surv ++ take (kk - length surv) (idx :: positions (S idx) shards), len)) as E.
  { rewrite IH by (first [len | by rewrite decide_False by (by destruct surv)]).
    rewrite length_app. cbn [length]. rewrite <- app_assoc. cbn [app].
    replace (kk - length surv)%nat with (S (kk - (length surv + 1))) by lia. cbn [take].
    by rewrite decide_False by (by destruct surv). }
  assert ((if decide (surv ++ take (kk - length surv) (idx :: positions (S idx) shards) = [])
           then 0%nat else len) = len) as ->.
  { replace (kk - length surv)%nat with (S (kk - (length surv + 1))) by lia.
    rewrite decide_False; [done|]. by destruct surv. }
  subst l. destruct (decide (surv = [])) as [->|Hne].
  - cbn [Nat.eqb]. by rewrite Hv.
  - rewrite (proj2 (Nat.eqb_neq len 0)) by lia. by rewrite Hv, Nat.eqb_refl.
Qed.

(** ** Any [k] rows of the encoding matrix are independent *)

Lemma filter_split {A} (P : A → Prop) `{∀ x, Decision (P x)} (l : list A) :
  (length (filter P l) + length (filter (λ x, ¬ P x) l) = length l)%nat.
Proof.
  induction l as [|x l IH]; [done|]. rewrite !filter_cons. repeat case_decide; cbn; naive_solver lia.
Qed.

(** As many data columns are missing as parity rows are used. *)
Lemma missing_count kk surv :
  NoDup surv → length surv = kk →
  length (filter (λ c, c ∉ surv) (seq 0 kk)) = length (filter (λ p, ¬ (p < kk)%nat) surv).
Proof.
  intros Hnd Hl. pose proof (filter_split (λ c, c ∈ surv) (seq 0 kk)) as E1.
  pose proof (filter_split (λ p, p < kk)%nat surv) as E2.
  assert (length (filter (λ c, c ∈ surv) (seq 0 kk)) = length (filter (λ p, p < kk)%nat surv)) as E.
  { apply Permutation_length, NoDup_Permutation.
    - apply NoDup_filter, NoDup_seq.
    - by apply NoDup_filter.
    - intros x. rewrite !list_elem_of_filter, elem_of_seq. split; intros; split; try tauto; lia. }
  rewrite length_seq in E1. lia.
Qed.

Lemma survivor_kernel code surv :
  built code → NoDup surv → length surv = k code →
  Forall (λ p, p < k code + r code)%nat surv →
  square (k code) (survivor_matrix code surv) ∧
  (∀ row c, (row < k code)%nat → (c < k code)%nat →
     ent (k code) (survivor_matrix code surv) row c = enc_entry code (nth row surv 0%nat) c) ∧
  kernel_trivial (k code) (survivor_matrix code surv).
Proof.
  intros Hb Hnd Hl Hbd.
  destruct (fill_matrix (length surv) (k code) (λ row, enc_entry code (nth row surv 0%nat))) as [H1 H2].
  unfold survivor_matrix. rewrite Hl in *.
  split; [exact H1|]. split; [intros row c Hr Hc; exact (H2 row c Hr Hc)|]. intros x Hx.
  (* every survivor's equation *)
  assert (∀ p, p ∈ surv → fsum (seq 0 (k code)) (λ c, mul (enc_entry code p c) (x c)) = x00) as Hp.
  { intros p Hp. apply list_elem_of_lookup in Hp as [row Hrow].
    pose proof (lookup_lt_Some _ _ _ Hrow) as Hlt. rewrite <- (Hx row) by lia.
    apply fsum_ext. intros c Hc%elem_of_seq. unfold ent. rewrite H2 by lia.
    by rewrite (nth_lookup_Some _ _ _ _ Hrow). }
  assert (∀ p, p ∈ surv → (p < k code)%nat → x p = x00) as Hdata.
  { intros p Hpin Hpk. rewrite <- (Hp p Hpin). symmetry.
    rewrite (fsum_pick _ p); [|apply NoDup_seq|apply elem_of_seq; lia|].
    - by rewrite enc_entry_eq, !decide_True, mul_1_l by (done || lia).
    - intros j Hj%elem_of_seq Hne.
      by rewrite enc_entry_eq, decide_True, decide_False, mul_0_l by (done || lia). }
  set (cs := filter (λ c, c ∉ surv) (seq 0 (k code))).
  set (ps := filter (λ p, ¬ (p < k code)%nat) surv).
  assert (∀ c, c ∈ cs → x c = x00) as Hcs.
  { destruct Hb as (Hk & Hr & Hkr & Hc).
    apply (cauchy_kernel as_u8 256 as_u8_inj cs ps).
    - by apply missing_count.
    - apply NoDup_filter, NoDup_seq.
    - by apply NoDup_filter.
    - intros c. unfold cs, ps. rewrite !list_elem_of_filter. tauto.
    - apply Forall_forall. intros c [_ Hcc%elem_of_seq]%list_elem_of_filter. lia.
    - apply Forall_forall. intros p [_ Hpp]%list_elem_of_filter.
      pose proof (proj1 (Forall_forall _ _) Hbd _ Hpp) as Hlt. cbn beta in Hlt. lia.
    - intros p [Hpk Hpin]%list_elem_of_filter. rewrite <- (Hp p Hpin).
      rewrite (fsum_restrict (seq 0 (k code)) (λ c, c ∉ surv)).
      + apply fsum_ext. intros c [_ Hcc%elem_of_seq]%list_elem_of_filter.
        pose proof (proj1 (Forall_forall _ _) Hbd _ Hpin) as Hlt. cbn beta in Hlt.
        by rewrite enc_entry_eq, decide_False by (done || lia).
      + intros c Hcc%elem_of_seq Hn. rewrite Hdata, mul_0_r; [done| |lia].
        by destruct (decide (c ∈ surv)). }
  intros j Hj. destruct (decide (j ∈ surv)); [by apply Hdata|].
  apply Hcs, list_elem_of_filter. split; [done|]. apply elem_of_seq. lia.
Qed.

(** ** Decoding *)

(** What arrives of the shards sent: each is received unchanged or lost. *)
Definition erased (sent : list (list byte)) (shards : list (option (list byte))) : Prop :=
  Forall2 (λ v s, s = None ∨ s = Some v) sent shards.

Section decoding.
Context (code : RsCode) (data : list (list byte)) (len : nat).
Hypothesis Hbuilt : built code.
Hypothesis Hdata : length data = k code.
Hypothesis Hlens : Forall (λ s, length s = len) data.

Definition sent : list (list byte) :=
  data ++ (parity_shard (k code) len data <$> seq 0 (r code)).

Lemma length_sent : length sent = (k code + r code)%nat.
Proof. unfold sent. len. Qed.

Lemma sent_lens : Forall (λ s, length s = len) sent.
Proof.
  apply Forall_app. split; [done|]. apply Forall_fmap, Forall_true. intros j. apply length_combine.
Qed.

(** Every shard sent is its row of the encoding matrix times the data. *)
Lemma sent_entry p x :
  (p < k code + r code)%nat → (x < len)%nat →
  at_ (nth p sent []) x = fsum (seq 0 (k code)) (λ c, mul (enc_entry code p c) (at_ (nth c data []) x)).
Proof.
  intros Hp Hx. unfold sent. destruct (decide (p < k code)%nat) as [Hk|Hk].
  - rewrite app_nth1 by lia. rewrite (fsum_pick _ p); [|apply NoDup_seq|apply elem_of_seq; lia|].
    + by rewrite enc_entry_eq, !decide_True, mul_1_l by (done || lia).
    + intros j Hj%elem_of_seq Hne.
      by rewrite enc_entry_eq, decide_True, decide_False, mul_0_l by (done || lia).
  - rewrite app_nth2 by lia. rewrite Hdata, (nth_lookup_Some _ _ _ (parity_shard (k code) len data (p - k code))).
    + unfold parity_shard. rewrite at_combine by done. apply fsum_ext. intros c Hc%elem_of_seq.
      rewrite enc_entry_eq, decide_False by (done || lia).
      by replace (k code + (p - k code))%nat with p by lia.
    + by rewrite list_lookup_fmap, lookup_seq_lt by lia.
Qed.

(** A row of the inverse times the survivors is a data shard. *)
Lemma combine_survivors surv inv i :
  length surv = k code → Forall (λ p, p < k code + r code)%nat surv → (i < k code)%nat →
  (∀ c, (c < k code)%nat →
     fsum (seq 0 (k code)) (λ j, mul (ent (k code) inv i j) (enc_entry code (nth j surv 0%nat) c))
     = if decide (i = c) then x01 else x00) →
  combine (k code) len (λ j, at_ inv (i * k code + j)) (λ j, nth (nth j surv 0%nat) sent [])
  = nth i data [].
Proof.
  intros Hl Hs Hi Hinv. assert (length (nth i data []) = len) as Hli
    by (apply (nth_Forall _ _ _ _ Hlens); lia).
  apply byte_list_eq; rewrite length_combine; [done|]. intros x Hx. rewrite at_combine by done.
  transitivity (fsum (seq 0 (k code)) (λ c,
    mul (if decide (i = c) then x01 else x00) (at_ (nth c data []) x))).
  - rewrite (fsum_ext _ _ (λ j, fsum (seq 0 (k code)) (λ c, mul (ent (k code) inv i j)
      (mul (enc_entry code (nth j surv 0%nat) c) (at_ (nth c data []) x))))).
    + rewrite fsum_swap. apply fsum_ext. intros c Hc%elem_of_seq. rewrite <- Hinv by lia.
      rewrite <- fsum_mul_r. apply fsum_ext. intros j _. apply mul_assoc.
    + intros j Hj%elem_of_seq. rewrite fsum_mul_l. unfold ent. f_equal.
      apply sent_entry; [|done]. apply (nth_Forall _ _ _ _ Hs). lia.
  - rewrite (fsum_pick _ i); [|apply NoDup_seq|apply elem_of_seq; lia|].
    + by rewrite decide_True, mul_1_l.
    + intros c _ Hne. by rewrite decide_False, mul_0_l.
Qed.

Context (shards : list (option (list byte))).
Hypothesis Herased : erased sent shards.

Lemma length_shards : length shards = (k code + r code)%nat.
Proof. by rewrite <- (Forall2_length _ _ _ Herased), length_sent. Qed.

Lemma shard_some p v : shards !! p = Some (Some v) → sent !! p = Some v.
Proof.
  intros H. destruct (Forall2_lookup_r _ _ _ _ _ Herased H) as (w & Hw & [?|[= ->] ]); done.
Qed.

Lemma shards_lens : Forall (λ s, ∀ v, s = Some v → length v = len) shards.
Proof.
  apply Forall_lookup. intros p s Hs v ->. apply shard_some in Hs.
  exact (Forall_lookup_1 _ _ _ _ sent_lens Hs).
Qed.

(** The recovery loop fills in the data shards. *)
Lemma recover_loop h b surv inv :
  available h b = true → length surv = k code →
  Forall (λ p, ∃ v, shards !! p = Some (Some v)) surv →
  (∀ i c, (i < k code)%nat → (c < k code)%nat →
     fsum (seq 0 (k code)) (λ j, mul (ent (k code) inv i j) (enc_entry code (nth j surv 0%nat) c))
     = if decide (i = c) then x01 else x00) →
  ∃ shards', for_range (k code) (λ i acc, shards ← acc; recover h b code surv len inv i shards)
      (Some shards) = Some shards' ∧
    ∀ i, shards' !! i = if decide (i < k code)%nat then Some (Some (nth i data [])) else shards !! i.
Proof.
  intros Hb Hl Hs Hinv. pose proof length_shards as Hls. pose proof length_sent as Hlsent.
  assert (Forall (λ p, p < k code + r code)%nat surv) as Hbd.
  { eapply Forall_impl; [exact Hs|]. intros p [v Hv%lookup_lt_Some]. lia. }
  pose (filled := λ (t : nat) (acc : option (list (option (list byte)))), ∃ sh, acc = Some sh ∧
    ∀ i, sh !! i = if decide (i < t)%nat then Some (Some (nth i data [])) else shards !! i).
  enough (filled (k code) (for_range (k code)
    (λ i acc, shards ← acc; recover h b code surv len inv i shards) (Some shards))) by done.
  apply for_range_ind.
  { exists shards. split; [done|]. intros i. by rewrite decide_False by lia. }
  intros i acc Hi (sh & -> & Hsh). cbn [mbind option_bind]. unfold recover.
  assert (∀ p, (p < k code)%nat → sent !! p = Some (nth p data [])) as Hsi.
  { intros p Hp. unfold sent. rewrite lookup_app_l by lia.
    destruct (lookup_lt_is_Some_2 data p ltac:(lia)) as [w Hw]. by rewrite (nth_lookup_Some _ _ _ _ Hw). }
  assert (∀ j, (j < k code)%nat →
    default [] (nth (nth j surv 0%nat) sh None) = nth (nth j surv 0%nat) sent []) as Hsrc.
  { intros j Hj. destruct (nth_Forall _ _ j 0%nat Hs ltac:(lia)) as [v Hv].
    rewrite (nth_lookup sh), (nth_lookup sent), Hsh, (shard_some _ _ Hv). case_decide; [|by rewrite Hv].
    pose proof (shard_some _ _ Hv) as E. rewrite Hsi in E by lia. by injection E as ->. }
  rewrite (nth_lookup sh), Hsh, decide_False by lia.
  destruct (lookup_lt_is_Some_2 shards i ltac:(lia)) as [s Hsome]. rewrite Hsome.
  change (default None (Some s)) with s. destruct s as [v|].
  - exists sh. split; [done|]. intros i'. rewrite Hsh. pose proof (shard_some _ _ Hsome) as Ev.
    destruct (decide (i' = i)) as [->|]; [|repeat case_decide; done || lia].
    rewrite decide_False, decide_True by lia. rewrite Hsi in Ev by lia. congruence.
  - rewrite (accumulate_combine h b (k code) len); [|done|].
    + cbn [mbind option_bind]. eexists. split; [done|]. intros i'.
      rewrite (combine_ext _ _ _ (λ j, at_ inv (i * k code + j)) _ (λ j, nth (nth j surv 0%nat) sent []))
        by auto.
      rewrite combine_survivors by auto. destruct (decide (i' = i)) as [->|].
      * rewrite decide_True by lia. apply list_lookup_insert_eq.
        apply lookup_lt_is_Some. rewrite Hsh, decide_False, Hsome by lia. eauto.
      * rewrite list_lookup_insert_ne, Hsh by done. repeat case_decide; done || lia.
    + intros c Hc. rewrite Hsrc by done. apply (nth_Forall _ _ _ _ sent_lens).
      rewrite Hlsent. apply (nth_Forall _ _ _ _ Hbd). lia.
Qed.
End decoding.

Lemma positions_lookup shards p : p ∈ positions 0 shards → ∃ v, shards !! p = Some (Some v).
Proof.
  rewrite elem_of_positions, Nat.sub_0_r. intros [_ [v Hv] ]. exists v. rewrite nth_lookup in Hv.
  destruct (shards !! p); naive_solver.
Qed.

Lemma data_present shards n :
  forallb (λ i, bool_decide (is_Some (nth i shards None))) (seq 0 n) = true →
  (n ≤ received shards)%nat ∧ ∀ i, (i < n)%nat → ∃ v, shards !! i = Some (Some v).
Proof.
  intros H. assert (∀ i, (i < n)%nat → i ∈ positions 0 shards) as Hin.
  { intros i Hi. rewrite forallb_forall in H. specialize (H i ltac:(apply in_seq; lia)).
    apply bool_decide_eq_true in H. apply elem_of_positions. rewrite Nat.sub_0_r. split; [lia|done]. }
  split; [|auto using positions_lookup]. unfold received. rewrite <- (length_seq n 0).
  apply submseteq_length, NoDup_submseteq; [apply NoDup_seq|]. intros i Hi%elem_of_seq. apply Hin. lia.
Qed.

(** [decode] on what arrives of an encoded block. *)
Lemma rs_decode_spec h selected code data len shards :
  built code → backend_ok h code → cache_ok h selected →
  length data = k code → Forall (λ s, length s = len) data → (0 < len)%nat →
  erased (sent code data len) shards →
  if decide (k code ≤ received shards)%nat then
    ∃ shards' selected', decode h selected code shards = (Ok shards', selected') ∧
      cache_ok h selected' ∧
      ∀ i, shards' !! i = if decide (i < k code)%nat then Some (Some (nth i data [])) else shards !! i
  else decode h selected code shards = (Err TooFewShards, selected).
Proof.
  intros Hb Hbk Hc Hd Fd Hlen He. pose proof (length_shards code data len Hd shards He) as Hls.
  unfold decode. rewrite Hls, Nat.eqb_refl. cbn [negb].
  destruct (forallb _ _) eqn:Eall.
  { destruct (data_present _ _ Eall) as [Hge Hall]. rewrite decide_True by done.
    exists shards, selected. split_and!; [done..|]. intros i. case_decide as Hi; [|done].
    destruct (Hall i Hi) as [v Hv]. rewrite Hv. pose proof (shard_some _ _ _ _ He _ _ Hv) as E.
    unfold sent in E. rewrite lookup_app_l in E by lia. by rewrite (nth_lookup_Some _ _ _ _ E). }
  rewrite (survivors_spec (k code) len 0 shards [] 0 Hlen (shards_lens _ _ _ Fd _ He)) by (done || cbn; lia).
  cbn [app length]. rewrite Nat.sub_0_r. set (surv := take (k code) (positions 0 shards)).
  assert (length surv = Nat.min (k code) (received shards)) as Hsl by (unfold surv; apply length_take).
  destruct (decide (k code ≤ received shards)%nat) as [Hge|Hlt].
  2: { by rewrite (proj2 (Nat.ltb_lt _ _)) by lia. }
  rewrite Nat.min_l in Hsl by done. destruct (Hb) as (Hk & _).
  rewrite (proj2 (Nat.ltb_ge _ _)), decide_False by (try lia; intros E; rewrite E in Hsl; cbn in Hsl; lia).
  rewrite (proj2 (Nat.eqb_neq len 0)) by lia. cbn [orb].
  assert (NoDup surv) as Hnd.
  { pose proof (NoDup_positions 0 shards) as H. rewrite <- (take_drop (k code)) in H.
    by apply NoDup_app in H as [? _]. }
  assert (Forall (λ p, ∃ v, shards !! p = Some (Some v)) surv) as Hs.
  { apply Forall_forall. intros p Hp. by eapply positions_lookup, (subseteq_take (k code)). }
  assert (Forall (λ p, p < k code + r code)%nat surv) as Hbd.
  { eapply Forall_impl; [exact Hs|]. intros p [v Hv%lookup_lt_Some]. lia. }
  destruct (survivor_kernel code surv) as (Hsq & Hent & Hker); [done|exact Hnd|done..|].
  destruct (invert_correct (k code) _ Hsq Hker) as (inv & -> & Hinv).
  destruct (effective_backend_ok _ _ _ Hbk Hc) as [Ha Hc'].
  destruct (effective_backend h selected code) as [b sel]. cbn [fst snd] in *.
  destruct (recover_loop code data len Hb Hd Fd shards He h b surv inv Ha Hsl Hs) as (sh & -> & Hsh).
  { intros i c Hi Hcc. rewrite <- Hinv by done. apply fsum_ext. intros j Hj%elem_of_seq.
    by rewrite Hent by lia. }
  exists sh, sel. split_and!; [done..|exact Hsh].
Qed.

(** C15: the code is MDS. For every accepted [(k, r)], any backend pinned that
    the host can run (or none), and any [k] data shards of one nonzero length:
    [encode] succeeds and writes into every parity shard the Cauchy combination
    of the data; then from any [k] or more of the [k + r] shards, whichever
    were lost, [decode] succeeds and gives back every data shard byte for byte,
    leaving the other slots as they are; from fewer it reports
    [TooFewShards]. *)
Theorem rs_any_k_recover h selected kk rr new b data parity len :
  rs_new kk rr = Ok new → let code := with_backend new b in
  backend_ok h code → cache_ok h selected →
  length data = kk → length parity = rr → (0 < len)%nat →
  Forall (λ s, length s = len) (data ++ parity) →
  let coded := parity_shard kk len data <$> seq 0 rr in
  (∃ s, cache_ok h s ∧ encode h selected code data parity = (Ok coded, s)) ∧
  ∀ shards, erased (data ++ coded) shards →
    if decide (kk ≤ received shards)%nat then
      ∃ shards' s, decode h selected code shards = (Ok shards', s) ∧ cache_ok h s ∧
        ∀ i, shards' !! i = if decide (i < kk)%nat then Some (Some (nth i data [])) else shards !! i
    else decode h selected code shards = (Err TooFewShards, selected).
Proof.
  intros Hn code Hbk Hc Hd Hp Hlen [Fd Fp]%Forall_app coded.
  destruct (rs_new_built _ _ _ Hn) as (Hb & Ek & Er).
  assert (built code) as Hb' by exact Hb. change (k code = kk) in Ek. change (r code = rr) in Er.
  clearbody code. subst coded. rewrite <- Ek, <- Er in *. split.
  - by apply encode_parity.
  - intros shards He. by apply (rs_decode_spec h selected code data len).
Qed.

(** Two data shards and two parity shards of 17 bytes: one vector of the widest
    128-bit kernel and a tail. *)
Definition test_data : list (list byte) := [replicate 17 x2a; Zb <$> seqZ 1 17].
Definition test_code : RsCode := {| k := 2; r := 2; cauchy := cauchy_matrix 2 2; backend := None |}.

Lemma rs_any_k_recover_witness :
  let coded := parity_shard 2 17 test_data <$> seq 0 2 in
  ∃ shards' s,
    decode test_host BACKEND_UNINIT test_code [None; None; Some (nth 0 coded []); Some (nth 1 coded [])]
      = (Ok shards', s) ∧ shards' !! 0%nat = Some (Some (replicate 17 x2a)).
Proof.
  destruct (rs_any_k_recover test_host BACKEND_UNINIT 2 2 test_code None test_data
    [replicate 17 x00; replicate 17 x00] 17) as [_ H];
    [reflexivity|exact I|by left|reflexivity|reflexivity|lia|by repeat constructor|].
  specialize (H [None; None; Some (nth 0 (parity_shard 2 17 test_data <$> seq 0 2) []);
    Some (nth 1 (parity_shard 2 17 test_data <$> seq 0 2) [])]).
  destruct H as (sh & s & E & _ & Hi).
  { repeat (apply Forall2_cons; split; [first [by left | by right]|]). apply Forall2_nil. done. }
  exists sh, s. split; [exact E|]. by rewrite Hi.
Defined.

(** A received shard of no bytes is not refused. When it comes first, the
    scan takes the common length from the next one, and the recovery reads the
    empty shard at that length: on a host with vector instructions the kernel
    loads past its end, and on a scalar host the call succeeds with a data
    shard that was never sent. *)
Lemma rs_decode_empty_shard :
  let coded := parity_shard 3 16 [replicate 16 x01; replicate 16 x02; replicate 16 x03] <$> seq 0 2 in
  let code := {| k := 3; r := 2; cauchy := cauchy_matrix 3 2; backend := None |} in
  let shards := [Some []; None; None; Some (nth 0 coded []); Some (nth 1 coded [])] in
  fst (decode test_host BACKEND_UNINIT code shards) = Panic ∧
  ∃ shards' v,
    fst (decode {| arch := OtherArch; has := λ _, false |} BACKEND_UNINIT code shards) = Ok shards' ∧
    shards' !! 1%nat = Some (Some v) ∧ v ≠ replicate 16 x02.
Proof.
  cbv zeta. split; [vm_compute; reflexivity|].
  eexists _, _. split; [vm_compute; reflexivity|]. split; [reflexivity|]. by vm_compute.
Qed.
