(* ===== verification/RlcFec.v ===== *)
(** The sliding-window random linear code:
    crates/subetha-cxc/src/rlc_fec.rs, encoder and decoder.

    Source ids are [u32]s, with the wrap-arounds and saturations of the source.
    The multiply-add calls go through the automatic backend, which is fixed for
    a process by its first call ([GfKernels.current_backend]); its host and the
    cached selection are parameters of the calls. A call that would fault has
    no result. *)
From Stdlib Require Import Strings.Byte Ring Field Sorting.Sorted.
From stdpp Require Import gmap.
From S2P Require Import Prelude Gf256 GfKernels GfLinear Fec.
#[local] Open Scope word_scope.

(** * Generator *)

Definition DEFAULT_DT : Z := 15.

Definition TAPS : list byte := Zb <$> [
  0x01; 0x02; 0x03; 0x05; 0x07; 0x0b; 0x0d; 0x11;
  0x13; 0x17; 0x1d; 0x1f; 0x25; 0x29; 0x2b; 0x2f;
  0x35; 0x3b; 0x3d; 0x43; 0x47; 0x49; 0x4f; 0x53;
  0x59; 0x61; 0x65; 0x67; 0x6b; 0x6d; 0x71; 0x7f;
  0x83; 0x89; 0x8b; 0x95; 0x97; 0x9d; 0xa3; 0xa7;
  0xad; 0xb3; 0xb5; 0xbf; 0xc1; 0xc5; 0xc7; 0xd3;
  0xdf; 0xe3; 0xe5; 0xe9; 0xef; 0xf1; 0xf5; 0xf7;
  0xfb; 0xfd; 0x04; 0x08; 0x0e; 0x16; 0x1a; 0x22].

Definition DENSITY_CLASSES : nat := 16.

Definition fixed_coef (tap : nat) (dt : Z) : byte :=
  if (length TAPS <=? tap)%nat then x00
  else if Z.of_nat (tap mod DENSITY_CLASSES) <=? dt then nth tap TAPS x00 else x00.

Record RepairSymbol := {
  repair_key : Z; first_source_id : Z; window_size : Z; dt : Z; payload : list byte }.

Definition GENERATOR_PUBLISHED_TAPS : Z := 1.

Definition density (r : RepairSymbol) : Z := Z.land (dt r) 15.
Definition generator (r : RepairSymbol) : Z := dt r >> 4.

Definition coefficient (r : RepairSymbol) (off : Z) : byte :=
  let newest := Z.max 0 (window_size r - 1) in
  fixed_coef (Z.to_nat (newest - off)) (density r).

Definition generator_is_readable (r : RepairSymbol) : bool :=
  generator r =? GENERATOR_PUBLISHED_TAPS.

(** * Encoder *)

Record RlcEncoder := {
  window : list (Z * list byte); window_max : nat; step : nat; edt : Z; esymbol_len : nat;
  next_source_id : Z; since_last_repair : nat; next_repair_key : Z; coding_on : bool }.

Definition enc_new (window_max step : nat) (dt : Z) (symbol_len : nat) : RlcEncoder :=
  {| window := []; window_max := Nat.max window_max 1; step := Nat.max step 1; edt := Z.min dt 15;
     esymbol_len := symbol_len; next_source_id := 0; since_last_repair := 0;
     next_repair_key := 0; coding_on := true |}.

(** [while self.window.len() > self.window_max { self.window.pop_front() }]. *)
Definition trim {A} (max : nat) (w : list A) : list A := drop (length w - max) w.

Definition set_params (e : RlcEncoder) (wmax stp : nat) (d : Z) : RlcEncoder :=
  {| window := trim (Nat.max wmax 1) (window e); window_max := Nat.max wmax 1;
     step := Nat.max stp 1; edt := Z.min d 15; esymbol_len := esymbol_len e;
     next_source_id := next_source_id e; since_last_repair := since_last_repair e;
     next_repair_key := next_repair_key e; coding_on := coding_on e |}.

Definition set_coding (e : RlcEncoder) (on : bool) : RlcEncoder :=
  {| window := window e; window_max := window_max e; step := step e; edt := edt e;
     esymbol_len := esymbol_len e; next_source_id := next_source_id e;
     since_last_repair := since_last_repair e; next_repair_key := next_repair_key e;
     coding_on := on |}.

Definition with_stream (e : RlcEncoder) (w : list (Z * list byte)) (next : Z) (since : nat)
    (key : Z) : RlcEncoder :=
  {| window := w; window_max := window_max e; step := step e; edt := edt e;
     esymbol_len := esymbol_len e; next_source_id := next; since_last_repair := since;
     next_repair_key := key; coding_on := coding_on e |}.

(** [while let Some((sid, _)) = front() { if *sid < floor { pop } else { break } }]. *)
Fixpoint drop_below (floor : Z) (w : list (Z * list byte)) : list (Z * list byte) :=
  match w with
  | (sid, s) :: w' => if sid <? floor then drop_below floor w' else w
  | [] => []
  end.

Definition enc_forget_below (e : RlcEncoder) (floor : Z) : RlcEncoder :=
  with_stream e (drop_below floor (window e)) (next_source_id e) (since_last_repair e)
    (next_repair_key e).

Definition enc_rebase_to (e : RlcEncoder) (base : Z) : RlcEncoder :=
  with_stream e [] base 0 (next_repair_key e).

Section coder.
Context (h : Host) (selected : Z).

(** [gf_mul_add_auto] and [gf_scale]. *)
Definition mul_add_auto (out src : list byte) (c : byte) : option (list byte) :=
  (gf_mul_add_auto h selected out src c).1.
Definition gf_scale (v : list byte) (c : byte) : option (list byte) :=
  (gf_mul_auto h selected v c).1.

(** The accumulation loop of [emit_repair], from position [i] on. *)
Fixpoint emit_loop (newest i : nat) (d : Z) (w : list (Z * list byte)) (payload : list byte)
    : option (list byte) :=
  match w with
  | [] => Some payload
  | (_, sym) :: w =>
      let c := fixed_coef (newest - i) d in
      payload ← if Byte.eqb c x00 then Some payload else mul_add_auto payload sym c;
      emit_loop newest (S i) d w payload
  end.

Definition emit_repair (e : RlcEncoder) : option (RepairSymbol * RlcEncoder) :=
  let key := next_repair_key e in
  let first := match window e with (id, _) :: _ => id | [] => 0 end in
  let newest := (length (window e) - 1)%nat in
  payload ← emit_loop newest 0 (edt e) (window e) (replicate (esymbol_len e) x00);
  Some ({| repair_key := key; first_source_id := first;
           window_size := u16 (Z.of_nat (length (window e)));
           dt := Z.lor (GENERATOR_PUBLISHED_TAPS << 4) (Z.land (edt e) 15);
           payload := payload |},
        with_stream e (window e) (next_source_id e) (since_last_repair e) (u32 (key + 1))).

Definition push_source (e : RlcEncoder) (p : list byte)
    : option (Z * option RepairSymbol * RlcEncoder) :=
  let sid := next_source_id e in
  let w := trim (window_max e) (window e ++ [(sid, p)]) in
  let e := with_stream e w (u32 (sid + 1)) (S (since_last_repair e)) (next_repair_key e) in
  if coding_on e && (step e <=? since_last_repair e)%nat then
    let e := with_stream e w (next_source_id e) 0 (next_repair_key e) in
    '(rep, e) ← emit_repair e;
    Some (sid, Some rep, e)
  else Some (sid, None, e).

(** * Decoder *)

Record RlcDecoder := {
  symbol_len : nat; source : gmap Z (list byte); repairs : list RepairSymbol;
  highest : Z; horizon : Z; refused_repairs : Z }.

Definition dec_new (len : nat) : RlcDecoder :=
  {| symbol_len := len; source := ∅; repairs := []; highest := 0; horizon := 1024;
     refused_repairs := 0 |}.

Definition with_horizon (d : RlcDecoder) (hz : Z) : RlcDecoder :=
  {| symbol_len := symbol_len d; source := source d; repairs := repairs d;
     highest := highest d; horizon := Z.max hz 1; refused_repairs := refused_repairs d |}.

Definition with_store (d : RlcDecoder) (s : gmap Z (list byte)) (rs : list RepairSymbol) (hi : Z)
    : RlcDecoder :=
  {| symbol_len := symbol_len d; source := s; repairs := rs; highest := hi;
     horizon := horizon d; refused_repairs := refused_repairs d |}.

(** [entry(id).or_insert_with(..)]. *)
Definition or_insert (id : Z) (v : list byte) (s : gmap Z (list byte)) : gmap Z (list byte) :=
  match s !! id with Some _ => s | None => <[id := v]> s end.

Definition on_source (d : RlcDecoder) (sid : Z) (p : list byte) : RlcDecoder :=
  with_store d (or_insert sid p (source d)) (repairs d) (Z.max (highest d) sid).

Definition add_repair (d : RlcDecoder) (r : RepairSymbol) : RlcDecoder :=
  if negb (generator_is_readable r) then
    {| symbol_len := symbol_len d; source := source d; repairs := repairs d;
       highest := highest d; horizon := horizon d; refused_repairs := u64 (refused_repairs d + 1) |}
  else
    with_store d (source d) (repairs d ++ [r])
      (Z.max (highest d) (Z.max 0 (u32 (first_source_id r + window_size r) - 1))).

Definition dget (d : RlcDecoder) (sid : Z) : option (list byte) := source d !! sid.
Definition dhas (d : RlcDecoder) (sid : Z) : bool := bool_decide (is_Some (source d !! sid)).

(** [r.first_source_id.wrapping_add(r.window_size as u32) > floor]. *)
Definition ends_after (floor : Z) (r : RepairSymbol) : bool :=
  floor <? u32 (first_source_id r + window_size r).

Definition dec_forget_below (d : RlcDecoder) (floor : Z) : RlcDecoder :=
  let rs := List.filter (ends_after floor) (repairs d) in
  let safe := match first_source_id <$> rs with
              | [] => floor
              | f :: fs => Z.min floor (foldl Z.min f fs)
              end in
  with_store d (filter (λ kv, safe ≤ kv.1) (source d)) rs (highest d).

Definition dec_rebase_to (d : RlcDecoder) (base : Z) : RlcDecoder :=
  with_store d ∅ [] base.

(** The source id of a window position. *)
Definition sid_at (r : RepairSymbol) (off : Z) : Z := u32 (first_source_id r + off).
Definition offsets (r : RepairSymbol) : list Z := seqZ 0 (window_size r).

Definition prune (s : gmap Z (list byte)) (rs : list RepairSymbol) : list RepairSymbol :=
  List.filter (λ r, existsb (λ off, bool_decide (s !! sid_at r off = None)) (offsets r)) rs.

(** [BTreeSet::insert] into an ascending list. *)
Fixpoint bt_insert (x : Z) (l : list Z) : list Z :=
  match l with
  | [] => [x]
  | y :: l' => if x <? y then x :: l else if x =? y then l else y :: bt_insert x l'
  end.

(** The unknowns: missing source ids at or above [lo] that a repair covers. *)
Definition unknown_set (lo : Z) (s : gmap Z (list byte)) (rs : list RepairSymbol) : list Z :=
  fold_left (λ acc r,
    fold_left (λ acc off,
      let sid := sid_at r off in
      if (lo <=? sid) && bool_decide (s !! sid = None) then bt_insert sid acc else acc)
      (offsets r) acc) rs [].

(** [idx[&sid]]: the column of an unknown. *)
Fixpoint index_of (sid : Z) (l : list Z) : nat :=
  match l with
  | [] => 0
  | x :: l => if x =? sid then 0 else S (index_of sid l)
  end.

Record Row := { coefs : list byte; rhs : list byte }.

(** The loop over a repair's window: [None] for a fault, [Some None] when the
    repair is not usable. *)
Fixpoint row_loop (lo : Z) (s : gmap Z (list byte)) (unknowns : list Z) (r : RepairSymbol)
    (offs : list Z) (row : Row) (covers : bool) : option (option (Row * bool)) :=
  match offs with
  | [] => Some (Some (row, covers))
  | off :: offs =>
      let sid := sid_at r off in
      let c := coefficient r off in
      if Byte.eqb c x00 then row_loop lo s unknowns r offs row covers
      else
        match s !! sid with
        | Some sym =>
            v ← mul_add_auto (rhs row) sym c;
            row_loop lo s unknowns r offs {| coefs := coefs row; rhs := v |} covers
        | None =>
            if lo <=? sid then
              row_loop lo s unknowns r offs
                {| coefs := <[index_of sid unknowns := c]> (coefs row); rhs := rhs row |} true
            else Some None
        end
  end.

Definition build_row (lo : Z) (s : gmap Z (list byte)) (unknowns : list Z) (r : RepairSymbol)
    : option (list Row) :=
  x ← row_loop lo s unknowns r (offsets r)
        {| coefs := replicate (length unknowns) x00; rhs := payload r |} false;
  Some (match x with Some (row, true) => [row] | _ => [] end).

Fixpoint build_rows (lo : Z) (s : gmap Z (list byte)) (unknowns : list Z) (rs : list RepairSymbol)
    : option (list Row) :=
  match rs with
  | [] => Some []
  | r :: rs =>
      row ← build_row lo s unknowns r;
      rest ← build_rows lo s unknowns rs;
      Some (row ++ rest)
  end.

(** ** Reduced row echelon form *)

Definition row_at (rows : list Row) (i : nat) : Row := nth i rows {| coefs := []; rhs := [] |}.

Definition find_row (rows : list Row) (pivot col : nat) : option nat :=
  List.find (λ i, negb (Byte.eqb (at_ (coefs (row_at rows i)) col) x00))
    (seq pivot (length rows - pivot)).

Definition swap_rows (rows : list Row) (i j : nat) : list Row :=
  <[i := row_at rows j]> (<[j := row_at rows i]> rows).

Definition eliminate_row (pivot col : nat) (prow : Row) (i : nat) (row : Row) : option Row :=
  if (i =? pivot)%nat then Some row
  else
    let f := at_ (coefs row) col in
    if Byte.eqb f x00 then Some row
    else
      v ← mul_add_auto (rhs row) (rhs prow) f;
      Some {| coefs := zip_update (λ rc pc, add rc (mul f pc)) (coefs row) (coefs prow);
              rhs := v |}.

Fixpoint eliminate_rows (pivot col : nat) (prow : Row) (i : nat) (rows : list Row)
    : option (list Row) :=
  match rows with
  | [] => Some []
  | row :: rows =>
      row ← eliminate_row pivot col prow i row;
      rest ← eliminate_rows pivot col prow (S i) rows;
      Some (row :: rest)
  end.

Definition column_step (col : nat) (st : list Row * nat) : option (list Row * nat) :=
  let '(rows, pivot) := st in
  match find_row rows pivot col with
  | None => Some (rows, pivot)
  | Some sel =>
      let rows := swap_rows rows pivot sel in
      let prow := row_at rows pivot in
      let i := inv (at_ (coefs prow) col) in
      v ← gf_scale (rhs prow) i;
      let prow := {| coefs := (λ cf, mul cf i) <$> coefs prow; rhs := v |} in
      rows ← eliminate_rows pivot col prow 0 (<[pivot := prow]> rows);
      Some (rows, S pivot)
  end.

Definition rref (ncols : nat) (rows : list Row) : option (list Row) :=
  fst <$> for_range ncols (λ col acc, st ← acc; column_step col st) (Some (rows, 0%nat)).

(** A row that is a single unit coefficient determines its unknown. *)
Definition determines (ncols : nat) (row : Row) : option nat :=
  match List.filter (λ c, negb (Byte.eqb (at_ (coefs row) c) x00)) (seq 0 ncols) with
  | [c] => if Byte.eqb (at_ (coefs row) c) x01 then Some c else None
  | _ => None
  end.

Definition take_row (unknowns : list Z) (acc : gmap Z (list byte) * list Z) (row : Row)
    : gmap Z (list byte) * list Z :=
  match determines (length unknowns) row with
  | Some c =>
      let sid := nth c unknowns 0 in
      match acc.1 !! sid with
      | Some _ => acc
      | None => (<[sid := rhs row]> acc.1, acc.2 ++ [sid])
      end
  | None => acc
  end.

Definition try_recover (d : RlcDecoder) : option (RlcDecoder * list Z) :=
  let lo := Z.max 0 (highest d - horizon d) in
  let rs := List.filter (ends_after lo) (repairs d) in
  let unknowns := unknown_set lo (source d) rs in
  if (length unknowns =? 0)%nat then
    Some (with_store d (source d) (prune (source d) rs) (highest d), [])
  else
    rows ← build_rows lo (source d) unknowns rs;
    rows ← rref (length unknowns) rows;
    let '(s, recovered) := fold_left (take_row unknowns) rows (source d, []) in
    Some (with_store d s (prune s rs) (highest d), recovered).

Definition recover (d : RlcDecoder) : option (RlcDecoder * list Z) := try_recover d.

Definition on_repair (d : RlcDecoder) (r : RepairSymbol) : option (RlcDecoder * list Z) :=
  try_recover (add_repair d r).
End coder.

(** * The reduction *)

Section reduction.
Context (h : Host) (selected : Z) (Hcache : cache_ok h selected).
Context (n len : nat).

Lemma mul_add_auto_axpy out src c :
  length src = length out → mul_add_auto h selected out src c = Some (axpy out src c).
Proof using Hcache.
  intros El. unfold mul_add_auto, gf_mul_add_auto. pose proof (current_backend_ok _ _ Hcache) as [Hb _].
  destruct (current_backend h selected) as [b s]. cbn in *. by apply gf_mul_add_axpy.
Qed.

Lemma gf_scale_mul v c : gf_scale h selected v c = Some (mul c <$> v).
Proof using Hcache.
  unfold gf_scale, gf_mul_auto. pose proof (current_backend_ok _ _ Hcache) as [Hb _].
  destruct (current_backend h selected) as [b s]. cbn in *. by apply gf_mul_backend_mul.
Qed.

Definition row_wf (row : Row) : Prop := length (coefs row) = n ∧ length (rhs row) = len.

(** The coefficient matrix and the right-hand sides. *)
Definition M (rows : list Row) (i c : nat) : byte := at_ (coefs (row_at rows i)) c.
Definition R (rows : list Row) (i x : nat) : byte := at_ (rhs (row_at rows i)) x.

(** The same row operation on both. *)
Definition acts_on (G : (nat → byte) → nat → byte) (rows rows' : list Row) : Prop :=
  length rows' = length rows ∧ Forall row_wf rows' ∧
  ∀ i, (i < length rows)%nat →
    (∀ c, (c < n)%nat → M rows' i c = G (λ i', M rows i' c) i) ∧
    (∀ x, (x < len)%nat → R rows' i x = G (λ i', R rows i' x) i).

Lemma row_at_wf rows i : Forall row_wf rows → (i < length rows)%nat → row_wf (row_at rows i).
Proof. intros Hw Hi. exact (nth_Forall row_wf rows i _ Hw Hi). Qed.

Lemma row_at_insert rows i j row :
  (i < length rows)%nat → row_at (<[i := row]> rows) j = if decide (i = j) then row else row_at rows j.
Proof.
  intros Hi. unfold row_at. rewrite !nth_lookup. case_decide as E.
  - subst. by rewrite list_lookup_insert_eq.
  - by rewrite list_lookup_insert_ne.
Qed.

Lemma row_at_out rows i : (length rows ≤ i)%nat → row_at rows i = {| coefs := []; rhs := [] |}.
Proof. intros. by apply nth_overflow. Qed.

Lemma at_nil i : at_ [] i = x00.
Proof. by destruct i. Qed.

Lemma M_out rows i c : (length rows ≤ i)%nat → M rows i c = x00.
Proof. intros. unfold M. rewrite row_at_out by done. apply at_nil. Qed.
Lemma R_out rows i x : (length rows ≤ i)%nat → R rows i x = x00.
Proof. intros. unfold R. rewrite row_at_out by done. apply at_nil. Qed.

Lemma acts_on_compose G1 G2 rows rows1 rows2 :
  RowOp (length rows) G2 → acts_on G1 rows rows1 → acts_on G2 rows1 rows2 →
  (∀ v i, (length rows ≤ i)%nat → (∀ i', (length rows ≤ i')%nat → v i' = x00) → G1 v i = x00) →
  acts_on (λ v, G2 (G1 v)) rows rows2.
Proof.
  intros HG (L1 & W1 & E1) (L2 & W2 & E2) Hout. split_and!; [lia|done|]. intros i Hi.
  rewrite L1 in E2. destruct (E2 i Hi) as [Ec Ex]. split.
  - intros c Hc. rewrite Ec by done. apply (rowop_ext (n := length rows)). intros i'.
    destruct (decide (i' < length rows)%nat); [by apply E1|].
    rewrite M_out by lia. symmetry. apply Hout; [lia|]. intros. by apply M_out.
  - intros x Hx. rewrite Ex by done. apply (rowop_ext (n := length rows)). intros i'.
    destruct (decide (i' < length rows)%nat); [by apply E1|].
    rewrite R_out by lia. symmetry. apply Hout; [lia|]. intros. by apply R_out.
Qed.

Lemma swap_rows_acts rows p q :
  Forall row_wf rows → (p < length rows)%nat → (q < length rows)%nat →
  acts_on (op_swap p q) rows (swap_rows rows p q).
Proof.
  intros Hw Hp Hq. unfold swap_rows. split_and!.
  - by rewrite !length_insert.
  - apply Forall_insert; [apply Forall_insert; [done|]|]; by apply row_at_wf.
  - intros i Hi. unfold M, R, op_swap. rewrite !row_at_insert by (by rewrite ?length_insert).
    split; intros; repeat case_decide; subst; done || lia.
Qed.

Lemma scale_row_acts rows p x :
  Forall row_wf rows → (p < length rows)%nat →
  acts_on (op_scale p x) rows
    (<[p := {| coefs := (λ cf, mul cf x) <$> coefs (row_at rows p);
               rhs := mul x <$> rhs (row_at rows p) |}]> rows).
Proof.
  intros Hw Hp. destruct (row_at_wf rows p Hw Hp) as [Lc Lr]. split_and!.
  - by rewrite length_insert.
  - apply Forall_insert; [done|]. split; cbn; by rewrite length_fmap.
  - intros i Hi. unfold M, R, op_scale. rewrite row_at_insert by done.
    split; intros z Hz; repeat case_decide; subst; try done; cbn; unfold at_ at 1.
    + rewrite nth_lookup, list_lookup_fmap, lookup_at by lia. done.
    + rewrite nth_lookup, list_lookup_fmap, lookup_at by lia. cbn. apply mul_comm.
Qed.

Lemma eliminate_row_spec p col prow i row :
  row_wf row → row_wf prow → (col < n)%nat →
  ∃ row', eliminate_row h selected p col prow i row = Some row' ∧ row_wf row' ∧
    ∀ f, f = (if decide (i = p) then x00 else at_ (coefs row) col) →
    (∀ c, (c < n)%nat → at_ (coefs row') c = add (at_ (coefs row) c) (mul f (at_ (coefs prow) c))) ∧
    (∀ x, (x < len)%nat → at_ (rhs row') x = add (at_ (rhs row) x) (mul f (at_ (rhs prow) x))).
Proof using Hcache.
  intros [Lc Lr] [Pc Pr] Hcol. unfold eliminate_row.
  destruct (Nat.eqb_spec i p) as [->|Hne].
  { exists row. split_and!; [done..|]. intros f ->. rewrite decide_True by done.
    split; intros; by rewrite mul_0_l, add_0_r. }
  cbv zeta. destruct (Byte.eqb (at_ (coefs row) col) x00) eqn:E0.
  { exists row. split_and!; [done..|]. intros f ->. rewrite decide_False by done.
    apply beqb_eq in E0. rewrite E0. split; intros; by rewrite mul_0_l, add_0_r. }
  rewrite mul_add_auto_axpy by lia. cbn [mbind option_bind]. eexists. split; [done|]. cbn [coefs rhs].
  rewrite zip_update_eq by lia. fold (axpy (coefs row) (coefs prow) (at_ (coefs row) col)).
  split; [split; cbn [coefs rhs]; rewrite length_axpy; lia|]. intros f ->. rewrite decide_False by done.
  split; intros; by rewrite at_axpy by lia.
Qed.

Lemma eliminate_rows_spec p col prow k rows :
  Forall row_wf rows → row_wf prow → (col < n)%nat →
  ∃ rows', eliminate_rows h selected p col prow k rows = Some rows' ∧
    length rows' = length rows ∧ Forall row_wf rows' ∧
    ∀ i, (i < length rows)%nat → ∀ f, f = (if decide (k + i = p)%nat then x00 else M rows i col) →
    (∀ c, (c < n)%nat → M rows' i c = add (M rows i c) (mul f (at_ (coefs prow) c))) ∧
    (∀ x, (x < len)%nat → R rows' i x = add (R rows i x) (mul f (at_ (rhs prow) x))).
Proof using Hcache.
  intros Hw Hp Hcol. revert k. induction Hw as [|row rows Hrow _ IH]; intros k.
  { exists []. split_and!; [done..|]. cbn. lia. }
  cbn [eliminate_rows]. destruct (eliminate_row_spec p col prow k row) as (row' & -> & Hrow' & E); [done..|].
  cbn [mbind option_bind]. destruct (IH (S k)) as (rows' & -> & Hl & Hw' & E').
  cbn [mbind option_bind]. exists (row' :: rows'). split_and!; [done|cbn; lia|by constructor|].
  intros [|i] Hi f Hf.
  - apply (E f). by rewrite Nat.add_0_r in Hf.
  - apply (E' i ltac:(cbn in Hi; lia) f). rewrite Hf. by rewrite Nat.add_succ_r.
Qed.

(** ** One column *)

Lemma find_row_spec rows p col :
  match find_row rows p col with
  | Some sel => (p ≤ sel < length rows)%nat ∧ M rows sel col ≠ x00
  | None => ∀ i, (p ≤ i < length rows)%nat → M rows i col = x00
  end.
Proof.
  unfold find_row. destruct (List.find _ _) as [sel|] eqn:E.
  - apply find_some in E as [Hin Hb]. apply in_seq in Hin. split; [lia|].
    apply negb_true_iff in Hb. by apply Byte.eqb_false.
  - intros i Hi. pose proof (find_none _ _ E i ltac:(apply in_seq; lia)) as Hb. cbn beta in Hb.
    apply negb_false_iff in Hb. by apply beqb_eq.
Qed.

Lemma column_step_spec rows p col :
  Forall row_wf rows → (col < n)%nat →
  match find_row rows p col with
  | None => column_step h selected col (rows, p) = Some (rows, p)
  | Some sel =>
      ∃ x f rows', column_step h selected col (rows, p) = Some (rows', S p) ∧
        x = inv (M rows sel col) ∧
        f = (λ i, op_scale p x (op_swap p sel (λ i', M rows i' col)) i) ∧
        acts_on (λ v, op_elim p f (op_scale p x (op_swap p sel v))) rows rows'
  end.
Proof using Hcache.
  intros Hw Hcol. pose proof (find_row_spec rows p col) as Hf. unfold column_step.
  destruct (find_row rows p col) as [sel|]; [|done]. destruct Hf as [Hsel Hnz].
  assert (p < length rows)%nat as Hp by lia.
  pose proof (swap_rows_acts rows p sel Hw Hp ltac:(lia)) as A1.
  set (rows1 := swap_rows rows p sel) in *. destruct A1 as (L1 & W1 & E1) eqn:EA; clear EA.
  assert (at_ (coefs (row_at rows1 p)) col = M rows sel col) as Ep.
  { fold (M rows1 p col). destruct (E1 p Hp) as [-> _]; [|done]. unfold op_swap. by rewrite decide_True. }
  cbv zeta. rewrite Ep. set (x := inv (M rows sel col)). assert (x ≠ x00) as Hx.
  { intros E. pose proof (mul_inv_l _ Hnz) as E'. fold x in E'. by rewrite E, mul_0_l in E'. }
  rewrite gf_scale_mul. cbn [mbind option_bind].
  pose proof (scale_row_acts rows1 p x W1 ltac:(lia)) as A2.
  set (prow := {| coefs := _; rhs := mul x <$> _ |}) in *. set (rows2 := <[p := prow]> rows1) in *.
  destruct A2 as (L2 & W2 & E2) eqn:EA; clear EA.
  assert (row_at rows2 p = prow) as Eprow.
  { unfold rows2. rewrite row_at_insert by lia. by rewrite decide_True. }
  assert (row_wf prow) as Wp. { rewrite <- Eprow. apply row_at_wf; [done|]. lia. }
  destruct (eliminate_rows_spec p col prow 0 rows2 W2 Wp Hcol) as (rows3 & -> & L3 & W3 & E3).
  cbn [mbind option_bind].
  set (f := λ i, op_scale p x (op_swap p sel (λ i', M rows i' col)) i).
  exists x, f, rows3. split_and!; [done..|].
  pose proof (op_scale_rowop (length rows) p x Hx) as R2.
  assert (acts_on (λ v, op_scale p x (op_swap p sel v)) rows rows2) as A12.
  { eapply (acts_on_compose (op_swap p sel)); [done|by split_and!|by split_and!|].
    intros v i Hi Hv. unfold op_swap. repeat case_decide; try lia. auto. }
  apply (acts_on_compose (λ v, op_scale p x (op_swap p sel v)) (op_elim p f) rows rows2 rows3);
    [by apply op_elim_rowop|done| |].
  - split_and!; [lia|done|]. intros i Hi. rewrite L2, L1 in Hi.
    assert (M rows2 i col = f i) as Ef by (by apply A12).
    destruct (E3 i ltac:(lia) _ eq_refl) as [Hc Hxx]. cbn [Nat.add] in Hc, Hxx. rewrite Ef in Hc, Hxx.
    unfold op_elim. split; intros z Hz; [rewrite Hc by done|rewrite Hxx by done];
      rewrite <- Eprow; fold (M rows2 p z) (R rows2 p z); case_decide; subst; try done;
      by rewrite mul_0_l, add_0_r.
  - intros v i Hi Hv. unfold op_scale, op_swap. repeat case_decide; try lia. auto.
Qed.
End reduction.

(** ** Echelon form *)

Section echelon.
Context (h : Host) (selected : Z) (Hcache : cache_ok h selected).
Context (n len : nat).
Notation acts_on := (acts_on n len).

(** Values for the unknowns that satisfy every equation. *)
Definition satisfied (t : nat → nat → byte) (rows : list Row) : Prop :=
  ∀ i x, (i < length rows)%nat → (x < len)%nat →
  fsum (seq 0 n) (λ c, mul (M rows i c) (t c x)) = R rows i x.

(** Solutions of the homogeneous system. *)
Definition in_kernel (y : nat → byte) (rows : list Row) : Prop :=
  ∀ i, (i < length rows)%nat → fsum (seq 0 n) (λ c, mul (M rows i c) (y c)) = x00.

Lemma acts_satisfied G rows rows' t :
  RowOp (length rows) G → acts_on G rows rows' → satisfied t rows → satisfied t rows'.
Proof.
  intros HG (L & _ & E) Hs i x Hi Hx. rewrite L in Hi. destruct (E i Hi) as [Ec Ex].
  rewrite Ex by done.
  transitivity (G (λ i', fsum (seq 0 n) (λ c, mul (M rows i' c) (t c x))) i).
  - rewrite (rowop_linear (n := length rows)). apply fsum_ext. intros c Hc%elem_of_seq.
    by rewrite Ec by lia.
  - apply (rowop_ext (n := length rows)). intros i'. destruct (decide (i' < length rows)%nat); [by apply Hs|].
    rewrite R_out by lia. apply fsum_0. intros c _. by rewrite M_out, mul_0_l by lia.
Qed.

Lemma acts_in_kernel G rows rows' y :
  RowOp (length rows) G → acts_on G rows rows' → in_kernel y rows' → in_kernel y rows.
Proof.
  intros HG (L & _ & E) Hk. unfold in_kernel in *. rewrite L in Hk.
  apply (rowop_injective (n := length rows) (G := G)). intros i Hi.
  rewrite (rowop_linear (n := length rows)), <- (Hk i Hi). apply fsum_ext. intros c Hc%elem_of_seq.
  destruct (E i Hi) as [Ec _]. by rewrite Ec by lia.
Qed.

(** After [t] columns: pivot [k] has its unit column, and the rows below the
    pivots are zero so far. *)
Definition echelon (t : nat) (rows : list Row) (ps : list nat) : Prop :=
  (length ps ≤ length rows)%nat ∧ Forall (λ q, q < t)%nat ps ∧
  (∀ k q, ps !! k = Some q → ∀ i, (i < length rows)%nat →
     M rows i q = if decide (i = k) then x01 else x00) ∧
  (∀ i c, (length ps ≤ i < length rows)%nat → (c < t)%nat → M rows i c = x00).

Lemma echelon_skip t rows ps :
  echelon t rows ps → (∀ i, (length ps ≤ i < length rows)%nat → M rows i t = x00) →
  echelon (S t) rows ps.
Proof.
  intros (Hl & Hb & Hp & Hz) H0. split_and!; [done| |done|].
  - eapply Forall_impl; [exact Hb|]. cbn. lia.
  - intros i c Hi Hc. destruct (decide (c = t)) as [->|]; [by apply H0|]. apply Hz; lia.
Qed.

Lemma echelon_pivot t rows rows' ps sel x f :
  (t < n)%nat → echelon t rows ps → (length ps ≤ sel < length rows)%nat →
  M rows sel t ≠ x00 → x = inv (M rows sel t) →
  f = (λ i, op_scale (length ps) x (op_swap (length ps) sel (λ i', M rows i' t)) i) →
  acts_on (λ v, op_elim (length ps) f (op_scale (length ps) x (op_swap (length ps) sel v))) rows rows' →
  echelon (S t) rows' (ps ++ [t]).
Proof.
  intros Ht (Hl & Hb & Hp & Hz) Hsel Hnz Hx Hf (L & _ & E). set (p := length ps) in *.
  assert (f p = x01) as Hfp.
  { rewrite Hf. unfold op_scale, op_swap. rewrite !decide_True by done. subst x.
    rewrite mul_comm. by apply mul_inv_l. }
  assert (∀ i, (i < length rows)%nat → M rows' i t = if decide (i = p) then x01 else x00) as Hnew.
  { intros i Hi. destruct (E i Hi) as [-> _]; [|done]. unfold op_elim. rewrite <- (f_equal (λ g, g p) Hf).
    rewrite <- (f_equal (λ g, g i) Hf), Hfp. case_decide; [done|].
    rewrite mul_comm, mul_1_l. apply add_self. }
  (* columns whose rows from [p] on are zero are left alone *)
  assert (∀ c, (c < n)%nat → (∀ i, (p ≤ i < length rows)%nat → M rows i c = x00) →
    ∀ i, (i < length rows)%nat → M rows' i c = M rows i c) as Hkeep.
  { intros c Hc H0 i Hi. destruct (E i Hi) as [-> _]; [|done]. unfold op_elim, op_scale, op_swap.
    rewrite !(decide_True (P := p = p)), (H0 sel), mul_0_l, mul_0_r by lia.
    repeat case_decide; subst; rewrite ?add_0_r; try done; rewrite ?H0 by lia; try done; by rewrite ?mul_0_l. }
  split_and!.
  - rewrite length_app, L. cbn. lia.
  - apply Forall_app. split; [eapply Forall_impl; [exact Hb|]; cbn; lia|]. repeat constructor.
  - intros k q Hq i Hi. rewrite L in Hi. apply lookup_app_Some in Hq as [Hq|[Hk Hq] ].
    + rewrite Hkeep; [by apply Hp| |intros; apply Hz; [done|]|done];
        pose proof (Forall_lookup_1 _ _ _ _ Hb Hq); cbn beta in *; lia.
    + apply list_lookup_singleton_Some in Hq as [Hk0 <-]. rewrite Hnew by done.
      replace k with p by (unfold p; lia). done.
  - rewrite L, length_app. intros i c Hi Hc. cbn [length] in Hi.
    destruct (decide (c = t)) as [->|]; [rewrite Hnew by lia; by rewrite decide_False by lia|].
    rewrite Hkeep; [apply Hz; lia|lia| |lia]. intros. apply Hz; lia.
Qed.

Lemma rref_spec rows :
  Forall (row_wf n len) rows →
  ∃ rows' ps, rref h selected n rows = Some rows' ∧ Forall (row_wf n len) rows' ∧
    echelon n rows' ps ∧
    (∀ t, satisfied t rows → satisfied t rows') ∧ (∀ y, in_kernel y rows' → in_kernel y rows).
Proof using Hcache.
  intros Hw.
  pose (P := λ (t : nat) (acc : option (list Row * nat)), ∃ rows' ps, acc = Some (rows', length ps) ∧
    Forall (row_wf n len) rows' ∧ echelon t rows' ps ∧
    (∀ t, satisfied t rows → satisfied t rows') ∧ (∀ y, in_kernel y rows' → in_kernel y rows)).
  enough (P n (for_range n (λ col acc, st ← acc; column_step h selected col st) (Some (rows, 0%nat))))
    as (rows' & ps & E & H).
  { exists rows', ps. unfold rref. by rewrite E. }
  apply for_range_ind.
  { exists rows, []. split_and!; auto. split_and!; cbn; [lia|done|done|lia]. }
  intros t acc Ht (rows1 & ps & -> & W1 & He & Hs & Hk). cbn [mbind option_bind].
  pose proof (column_step_spec h selected Hcache n len rows1 (length ps) t W1 Ht) as Hstep.
  pose proof (find_row_spec rows1 (length ps) t) as Hf.
  destruct (find_row rows1 (length ps) t) as [sel|].
  - destruct Hstep as (x & f & rows2 & -> & Hx & Hff & HA). destruct Hf as [Hsel Hnz].
    assert (x ≠ x00) as Hx0.
    { intros E. pose proof (mul_inv_l _ Hnz) as E'. rewrite <- Hx, E, mul_0_l in E'. done. }
    pose proof (op_swap_rowop (length rows1) (length ps) sel ltac:(lia) ltac:(lia)) as R1.
    pose proof (op_scale_rowop (length rows1) (length ps) x Hx0) as R2.
    pose proof (op_elim_rowop (length rows1) (length ps) f ltac:(lia)) as R3.
    pose proof (rowop_compose _ _ _ (rowop_compose _ _ _ R1 R2) R3) as RR. cbv beta in RR.
    exists rows2, (ps ++ [t]). split_and!.
    + by rewrite length_app, Nat.add_comm.
    + apply HA.
    + by eapply echelon_pivot.
    + intros tr Htr. eapply acts_satisfied; eauto.
    + intros y Hy. eapply Hk, acts_in_kernel; eauto.
  - rewrite Hstep. exists rows1, ps. split_and!; auto using echelon_skip.
Qed.

(** ** A determined unknown has its own row *)

Lemma pivot_nodup rows ps t k k' q :
  echelon t rows ps → ps !! k = Some q → ps !! k' = Some q → k = k'.
Proof.
  intros (Hl & _ & Hp & _) Hk Hk'. pose proof (lookup_lt_Some _ _ _ Hk).
  pose proof (Hp k q Hk k ltac:(lia)) as E. rewrite (Hp k' q Hk' k ltac:(lia)) in E.
  rewrite (decide_True (P := k = k)) in E by done. by destruct (decide (k = k')).
Qed.

(** The solution that a column without a pivot gives. *)
Definition free_solution (rows : list Row) (ps : list nat) (c0 c : nat) : byte :=
  add (if decide (c = c0) then x01 else x00)
      (fsum (seq 0 (length ps)) (λ k, if decide (ps !! k = Some c) then M rows k c0 else x00)).

Lemma free_solution_pivot rows ps k q c0 :
  echelon n rows ps → ps !! k = Some q → q ≠ c0 → free_solution rows ps c0 q = M rows k c0.
Proof.
  intros He Hk Hne. unfold free_solution. rewrite decide_False, add_0_l by done.
  pose proof (lookup_lt_Some _ _ _ Hk).
  rewrite (fsum_pick _ k); [by rewrite decide_True|apply NoDup_seq|apply elem_of_seq; lia|].
  intros j _ Hj. rewrite decide_False; [done|]. intros Hj'. apply Hj. by eapply pivot_nodup.
Qed.

Lemma free_solution_self rows ps c0 : c0 ∉ ps → free_solution rows ps c0 c0 = x01.
Proof.
  intros Hn. unfold free_solution. rewrite decide_True by done. rewrite fsum_0; [apply add_0_r|].
  intros k _. rewrite decide_False; [done|]. intros Hk. apply Hn. by eapply list_elem_of_lookup_2.
Qed.

Lemma free_solution_kernel rows ps c0 :
  echelon n rows ps → (c0 < n)%nat → in_kernel (free_solution rows ps c0) rows.
Proof.
  intros (Hl & Hb & Hp & Hz) Hc0 i Hi.
  rewrite (fsum_ext _ _ (λ c, add (mul (M rows i c) (if decide (c = c0) then x01 else x00))
    (fsum (seq 0 (length ps)) (λ k, mul (M rows i c)
      (if decide (ps !! k = Some c) then M rows k c0 else x00))))).
  2: { intros c _. unfold free_solution. by rewrite mul_add_r, fsum_mul_l. }
  rewrite fsum_add, fsum_swap, (fsum_pick _ c0); [|apply NoDup_seq|apply elem_of_seq; lia|].
  2: { intros j _ Hj. by rewrite decide_False, mul_0_r. }
  rewrite decide_True, mul_comm, mul_1_l by done.
  rewrite (fsum_ext _ _ (λ k, mul (if decide (i = k) then x01 else x00) (M rows k c0))).
  - destruct (decide (i < length ps)%nat).
    + rewrite (fsum_pick _ i); [|apply NoDup_seq|apply elem_of_seq; lia|].
      * rewrite decide_True, mul_1_l by done. apply add_self.
      * intros j _ Hj. by rewrite decide_False, mul_0_l.
    + rewrite Hz, add_0_l by lia. apply fsum_0. intros k Hk%elem_of_seq.
      by rewrite decide_False, mul_0_l by lia.
  - intros k Hk%elem_of_seq. destruct (lookup_lt_is_Some_2 ps k ltac:(lia)) as [q Hq].
    pose proof (Forall_lookup_1 _ _ _ _ Hb Hq) as Hqn. cbn beta in Hqn.
    rewrite (fsum_pick _ q); [|apply NoDup_seq|apply elem_of_seq; lia|].
    + by rewrite decide_True, (Hp k q Hq i Hi) by done.
    + intros j _ Hj. rewrite decide_False, mul_0_r; congruence.
Qed.

Lemma determined_row rows ps u :
  echelon n rows ps → (u < n)%nat → (∀ y, in_kernel y rows → y u = x00) →
  ∃ i, (i < length rows)%nat ∧ ∀ c, (c < n)%nat → M rows i c = if decide (c = u) then x01 else x00.
Proof.
  intros He Hu Hdet. destruct (decide (u ∈ ps)) as [Hin|Hout].
  2: { pose proof (Hdet _ (free_solution_kernel rows ps u He Hu)) as E.
       by rewrite free_solution_self in E. }
  apply list_elem_of_lookup in Hin as [k Hk]. pose proof (lookup_lt_Some _ _ _ Hk) as Hlt.
  destruct (He) as (Hl & Hb & Hp & Hz). exists k. split; [lia|]. intros c Hc.
  destruct (decide (c = u)) as [->|Hne]; [rewrite (Hp k u Hk k) by lia; by rewrite decide_True|].
  destruct (decide (c ∈ ps)) as [Hcin|Hcout].
  - apply list_elem_of_lookup in Hcin as [k' Hk']. rewrite (Hp k' c Hk' k) by lia.
    rewrite decide_False; [done|]. intros ->. congruence.
  - rewrite <- (free_solution_pivot rows ps k u c He Hk) by done.
    by apply Hdet, free_solution_kernel.
Qed.
End echelon.

(** * Building the system *)

Lemma elem_of_bt_insert x y l : x ∈ bt_insert y l ↔ x = y ∨ x ∈ l.
Proof.
  induction l as [|z l IH]; cbn; [set_solver|]. destruct (Z.ltb_spec y z); [set_solver|].
  destruct (Z.eqb_spec y z); [|rewrite !elem_of_cons, IH; tauto]. subst. set_solver.
Qed.

Lemma bt_insert_sorted y l : StronglySorted Z.lt l → StronglySorted Z.lt (bt_insert y l).
Proof.
  induction 1 as [|z l Hs IH Hz]; cbn; [by repeat constructor|].
  destruct (Z.ltb_spec y z); [|destruct (Z.eqb_spec y z)].
  - constructor; [by constructor|]. constructor; [done|]. eapply Forall_impl; [exact Hz|]. cbn. lia.
  - by constructor.
  - constructor; [done|]. apply Forall_forall. intros x [->|Hx]%elem_of_bt_insert; [lia|].
    by eapply Forall_forall in Hx.
Qed.

Lemma sorted_NoDup l : StronglySorted Z.lt l → NoDup l.
Proof.
  induction 1 as [|z l Hs IH Hz]; constructor; [|done]. intros Hin.
  eapply Forall_forall in Hin; [|exact Hz]. cbn in Hin. lia.
Qed.

(** What [unknown_set] collects. *)
Lemma unknown_set_spec lo s rs :
  NoDup (unknown_set lo s rs) ∧
  ∀ sid, sid ∈ unknown_set lo s rs ↔
    ∃ r off, r ∈ rs ∧ off ∈ offsets r ∧ sid = sid_at r off ∧ lo ≤ sid ∧ s !! sid = None.
Proof.
  pose (covered := λ (rs : list RepairSymbol) sid, ∃ r off, r ∈ rs ∧ off ∈ offsets r ∧
    sid = sid_at r off ∧ lo ≤ sid ∧ s !! sid = None).
  enough (∀ acc, StronglySorted Z.lt acc → ∀ rs,
    let l := fold_left (λ acc r, fold_left (λ acc off,
      let sid := sid_at r off in
      if (lo <=? sid) && bool_decide (s !! sid = None) then bt_insert sid acc else acc)
      (offsets r) acc) rs acc in
    StronglySorted Z.lt l ∧ ∀ sid, sid ∈ l ↔ sid ∈ acc ∨ covered rs sid) as H.
  { destruct (H [] ltac:(constructor) rs) as [Hs Hin]. split; [by apply sorted_NoDup|].
    intros sid. unfold unknown_set. rewrite Hin.
    split; [intros [Hn|Hc]; [by apply not_elem_of_nil in Hn|exact Hc]|by right]. }
  intros acc Hacc rs'. revert acc Hacc. induction rs' as [|r rs' IH]; intros acc Hacc; cbn [fold_left].
  { split; [done|]. intros sid. split; [by left|]. intros [?|(r & off & Hr & _)]; [done|].
    by apply not_elem_of_nil in Hr. }
  assert (∀ offs acc, StronglySorted Z.lt acc →
    let l := fold_left (λ acc off, let sid := sid_at r off in
      if (lo <=? sid) && bool_decide (s !! sid = None) then bt_insert sid acc else acc) offs acc in
    StronglySorted Z.lt l ∧ ∀ sid, sid ∈ l ↔ sid ∈ acc ∨
      ∃ off, off ∈ offs ∧ sid = sid_at r off ∧ lo ≤ sid ∧ s !! sid = None) as Hin.
  { clear. intros offs. induction offs as [|off offs IH]; intros acc Hacc; cbn [fold_left].
    { split; [done|]. intros sid. split; [by left|]. intros [?|(off & Ho & _)]; [done|].
      by apply not_elem_of_nil in Ho. }
    cbv zeta. set (acc' := if _ && _ then _ else _).
    assert (StronglySorted Z.lt acc' ∧ ∀ sid, sid ∈ acc' ↔ sid ∈ acc ∨
      (sid = sid_at r off ∧ lo ≤ sid ∧ s !! sid = None)) as [Hs' Ha'].
    { unfold acc'. destruct (Z.leb_spec lo (sid_at r off)); cbn [andb].
      - case_bool_decide; [|naive_solver]. split; [by apply bt_insert_sorted|].
        intros sid. rewrite elem_of_bt_insert. naive_solver.
      - split; [done|]. naive_solver lia. }
    destruct (IH acc' Hs') as [Hs2 H2]. split; [done|]. intros sid. rewrite H2, Ha'.
    setoid_rewrite elem_of_cons. naive_solver. }
  destruct (Hin (offsets r) acc Hacc) as [Hs1 H1]. destruct (IH _ Hs1) as [Hs2 H2]. split; [done|].
  intros sid. rewrite H2, H1. unfold covered. setoid_rewrite elem_of_cons. naive_solver.
Qed.

Lemma index_of_spec sid l :
  sid ∈ l → (index_of sid l < length l)%nat ∧ nth (index_of sid l) l 0 = sid.
Proof.
  induction l as [|x l IH]; [set_solver|]. intros Hin. cbn. destruct (Z.eqb_spec x sid); [split; [lia|done]|].
  apply elem_of_cons in Hin as [?|Hin]; [congruence|]. destruct (IH Hin). split; [lia|done].
Qed.

(** Setting a zero coefficient adds one term to the equation. *)
Lemma fsum_insert (l : list byte) i c (z : nat → byte) :
  (i < length l)%nat → at_ l i = x00 →
  fsum (seq 0 (length l)) (λ j, mul (at_ (<[i := c]> l) j) (z j))
  = add (fsum (seq 0 (length l)) (λ j, mul (at_ l j) (z j))) (mul c (z i)).
Proof.
  intros Hi H0.
  rewrite (fsum_ext _ _ (λ j, add (mul (at_ l j) (z j)) (mul (if decide (j = i) then c else x00) (z j)))).
  - rewrite fsum_add. f_equal. rewrite (fsum_pick _ i); [by rewrite decide_True|apply NoDup_seq|apply elem_of_seq; lia|].
    intros j _ Hj. by rewrite decide_False, mul_0_l.
  - intros j _. rewrite at_insert by done. destruct (decide (i = j)) as [->|].
    + by rewrite decide_True, H0, mul_0_l, add_0_l.
    + by rewrite decide_False, mul_0_l, add_0_r by done.
Qed.

Section building.
Context (h : Host) (selected : Z) (Hcache : cache_ok h selected).
Context (lo : Z) (s : gmap Z (list byte)) (unknowns : list Z) (len : nat).
Hypothesis Hstore : ∀ sid v, s !! sid = Some v → length v = len.
Hypothesis Hnodup : NoDup unknowns.

Notation n := (length unknowns).
Notation unknown := (λ c, nth c unknowns 0).

(** The terms of a repair's equation: those of missing symbols, and those of
    known ones. *)
Definition miss_term (r : RepairSymbol) (y : Z → byte) (off : Z) : byte :=
  if decide (s !! sid_at r off = None) then mul (coefficient r off) (y (sid_at r off)) else x00.
Definition known_term (r : RepairSymbol) (x : nat) (off : Z) : byte :=
  match s !! sid_at r off with Some sym => mul (coefficient r off) (at_ sym x) | None => x00 end.

(** No symbol below the horizon is missing from the equation. *)
Definition usable (r : RepairSymbol) (offs : list Z) : Prop :=
  ∀ off, off ∈ offs → coefficient r off ≠ x00 → s !! sid_at r off = None → lo ≤ sid_at r off.

Definition row_result (r : RepairSymbol) (offs : list Z) (row : Row) (covers : bool)
    (res : option (Row * bool)) : Prop :=
  match res with
  | None => ¬ usable r offs
  | Some (row', covers') =>
      row_wf n len row' ∧
      (∀ y, fsum (seq 0 n) (λ c, mul (at_ (coefs row') c) (y (unknown c)))
            = add (fsum (seq 0 n) (λ c, mul (at_ (coefs row) c) (y (unknown c))))
                  (fsum offs (miss_term r y))) ∧
      (∀ x, (x < len)%nat → at_ (rhs row') x = add (at_ (rhs row) x) (fsum offs (known_term r x))) ∧
      (covers' = false → covers = false ∧ coefs row' = coefs row)
  end.

Lemma row_loop_spec r offs row covers :
  row_wf n len row → NoDup (sid_at r <$> offs) →
  (∀ off, off ∈ offs → s !! sid_at r off = None → lo ≤ sid_at r off → sid_at r off ∈ unknowns) →
  (∀ off, off ∈ offs → s !! sid_at r off = None → sid_at r off ∈ unknowns →
     at_ (coefs row) (index_of (sid_at r off) unknowns) = x00) →
  ∃ res, row_loop h selected lo s unknowns r offs row covers = Some res ∧
    row_result r offs row covers res.
Proof using Hcache Hstore Hnodup.
  revert row covers. induction offs as [|off offs IH]; intros row covers Hw Hnd Hcov Hz.
  { eexists. split; [done|]. cbn. split_and!; [apply Hw..| | |done]; intros; by rewrite fsum_nil, add_0_r. }
  cbn in Hnd. apply NoDup_cons in Hnd as [Hoff Hnd]. cbn [row_loop]. cbv zeta.
  assert (∀ row' covers', row_wf n len row' →
    (∀ off', off' ∈ offs → s !! sid_at r off' = None → sid_at r off' ∈ unknowns →
       at_ (coefs row') (index_of (sid_at r off') unknowns) = x00) →
    (coefficient r off ≠ x00 → s !! sid_at r off = None → lo ≤ sid_at r off) →
    (∀ y, fsum (seq 0 n) (λ c, mul (at_ (coefs row') c) (y (unknown c)))
            = add (fsum (seq 0 n) (λ c, mul (at_ (coefs row) c) (y (unknown c)))) (miss_term r y off)) →
    (∀ x, (x < len)%nat → at_ (rhs row') x = add (at_ (rhs row) x) (known_term r x off)) →
    (covers' = false → covers = false ∧ coefs row' = coefs row) →
    ∃ res, row_loop h selected lo s unknowns r offs row' covers' = Some res ∧
      row_result r (off :: offs) row covers res) as Hnext.
  { intros row' covers' Hw' Hz' Hus Hy Hx Hc'.
    destruct (IH row' covers' Hw' Hnd ltac:(set_solver) Hz') as (res & -> & Hres).
    exists res. split; [done|]. destruct res as [ [row2 covers2] |]; cbn in *.
    - destruct Hres as (Hw2 & Hy2 & Hx2 & Hc2). split_and!; [apply Hw2..| | |].
      + intros y. by rewrite Hy2, Hy, fsum_cons, add_assoc.
      + intros x Hlx. by rewrite Hx2, Hx, fsum_cons, add_assoc by done.
      + intros E. destruct (Hc2 E) as [-> ->]. auto.
    - intros Hu. apply Hres. intros off' Hin. apply Hu. set_solver. }
  destruct (Byte.eqb (coefficient r off) x00) eqn:E0.
  { apply beqb_eq in E0. apply Hnext; auto; [set_solver|congruence|intros y|intros x _].
    - unfold miss_term. rewrite E0, mul_0_l. case_decide; by rewrite add_0_r.
    - unfold known_term. rewrite E0. destruct (s !! _); by rewrite ?mul_0_l, add_0_r. }
  destruct (s !! sid_at r off) as [sym|] eqn:Es.
  - assert (length sym = length (rhs row)) as El by (rewrite (Hstore _ _ Es); symmetry; apply Hw).
    rewrite mul_add_auto_axpy by done. cbn [mbind option_bind].
    apply Hnext; cbn [coefs rhs]; auto; [|set_solver|congruence|intros y|intros x Hx].
    + split; cbn [coefs rhs]; [apply Hw|]. rewrite length_axpy by done. apply Hw.
    + unfold miss_term. rewrite decide_False by congruence. by rewrite add_0_r.
    + unfold known_term. rewrite Es. apply at_axpy; [done|]. rewrite (proj2 Hw). done.
  - destruct (Z.leb_spec lo (sid_at r off)) as [Hle|Hgt].
    2: { exists None. split; [done|]. intros Hu. apply Byte.eqb_false in E0.
         pose proof (Hu off ltac:(set_solver) E0 Es). lia. }
    assert (sid_at r off ∈ unknowns) as Hin by (apply Hcov; set_solver).
    destruct (index_of_spec _ _ Hin) as [Hi Hn]. destruct (Hw) as [Lc Lr].
    apply Hnext; cbn [coefs rhs]; auto; [split; cbn; by rewrite ?length_insert| |intros y|intros x Hx|done].
    + intros off' Hoff' Hs' Hin'. rewrite at_insert by lia. destruct (index_of_spec _ _ Hin') as [Hi' Hn'].
      case_decide as E; [|apply Hz; set_solver]. exfalso. apply Hoff. rewrite <- Hn, E, Hn'.
      apply list_elem_of_fmap. eauto.
    + unfold miss_term. rewrite decide_True by done. rewrite <- Lc at 1 2. rewrite fsum_insert; [by rewrite Hn|lia|].
      apply Hz; set_solver.
    + unfold known_term. by rewrite Es, add_0_r.
Qed.
End building.

(** * Recovery *)

(** A repair as the encoder makes it over the symbols [T]. *)
Definition genuine (T : Z → list byte) (len : nat) (r : RepairSymbol) : Prop :=
  0 ≤ window_size r < 2 ^ 16 ∧ length (payload r) = len ∧
  ∀ x, (x < len)%nat →
    at_ (payload r) x = fsum (offsets r) (λ off, mul (coefficient r off) (at_ (T (sid_at r off)) x)).

(** A decoder that holds nothing but the symbols [T] and genuine repairs. *)
Definition dec_ok (T : Z → list byte) (len : nat) (d : RlcDecoder) : Prop :=
  (∀ sid v, source d !! sid = Some v → v = T sid) ∧ Forall (genuine T len) (repairs d).

(** The system [try_recover] solves, and the unknowns it determines: those that
    vanish in every solution of its homogeneous equations. *)
Definition floor_of (d : RlcDecoder) : Z := Z.max 0 (highest d - horizon d).
Definition live_repairs (d : RlcDecoder) : list RepairSymbol :=
  List.filter (ends_after (floor_of d)) (repairs d).
Definition determined (d : RlcDecoder) (u : Z) : Prop :=
  u ∈ unknown_set (floor_of d) (source d) (live_repairs d) ∧
  ∀ y : Z → byte,
    (∀ r, r ∈ live_repairs d → usable (floor_of d) (source d) r (offsets r) →
       fsum (offsets r) (miss_term (source d) r y) = x00) → y u = x00.

Lemma sids_NoDup r : 0 ≤ window_size r < 2 ^ 16 → NoDup (sid_at r <$> offsets r).
Proof.
  intros Hw. apply NoDup_fmap_2_strong; [|apply NoDup_seqZ].
  intros a b Ha%elem_of_seqZ Hb%elem_of_seqZ E. unfold sid_at in E.
  apply wrap_inj in E; [lia|lia|]. change (2 ^ 32) with 4294967296. lia.
Qed.

(** Reading the solution off. *)
Lemma determines_spec n row c :
  determines n row = Some c ↔
  (c < n)%nat ∧ ∀ c', (c' < n)%nat → at_ (coefs row) c' = if decide (c' = c) then x01 else x00.
Proof.
  unfold determines. set (nz := List.filter _ _).
  assert (∀ c', c' ∈ nz ↔ (c' < n)%nat ∧ at_ (coefs row) c' ≠ x00) as Hnz.
  { intros c'. unfold nz. rewrite list_elem_of_In, filter_In, in_seq.
    split; intros [Hc Hb]; (split; [lia|]).
    - apply negb_true_iff in Hb. by apply Byte.eqb_false.
    - apply negb_true_iff. by apply eqb_ne. }
  assert (NoDup nz) as Hnn.
  { unfold nz. apply NoDup_ListNoDup, List.NoDup_filter, NoDup_ListNoDup, NoDup_seq. }
  split.
  - destruct nz as [|c0 [|c1 l] ] eqn:E; [done| |done]. destruct (Byte.eqb _ x01) eqn:E1; [|done].
    intros [= <-]. apply beqb_eq in E1. split; [apply Hnz; set_solver|]. intros c' Hc'.
    case_decide as Ec; [by subst|]. destruct (decide (at_ (coefs row) c' = x00)) as [|Hne]; [done|].
    assert (c' ∈ [c0]) by (by apply Hnz). set_solver.
  - intros [Hc Hrow]. assert (nz = [c]) as ->.
    { assert (nz ≡ₚ [c]) as Hp.
      { apply NoDup_Permutation; [done|apply NoDup_singleton|]. intros c'.
        rewrite Hnz, list_elem_of_singleton. split.
        - intros [Hc' Hne]. destruct (decide (c' = c)); [done|]. by rewrite Hrow, decide_False in Hne.
        - intros ->. split; [done|]. by rewrite Hrow, decide_True. }
      by apply Permutation_singleton_r in Hp. }
    rewrite Hrow, decide_True by done. done.
Qed.

Section recovery.
Context (h : Host) (selected : Z) (Hcache : cache_ok h selected).
Context (T : Z → list byte) (len : nat) (HT : ∀ sid, length (T sid) = len).

Section system.
Context (lo : Z) (s : gmap Z (list byte)) (unknowns : list Z).
Hypothesis Hs : ∀ sid v, s !! sid = Some v → v = T sid.
Hypothesis Hnd : NoDup unknowns.
Notation n := (length unknowns).
Notation unknown := (λ c, nth c unknowns 0).

(** The right values of the unknowns. *)
Definition truth (c x : nat) : byte := at_ (T (unknown c)) x.

(** Every equation is satisfied by the right values, and a solution of the
    homogeneous rows solves the homogeneous equation of every usable repair. *)
Definition row_good (row : Row) : Prop :=
  row_wf n len row ∧
  ∀ x, (x < len)%nat → fsum (seq 0 n) (λ c, mul (at_ (coefs row) c) (truth c x)) = at_ (rhs row) x.

Lemma build_row_spec r :
  genuine T len r →
  (∀ off, off ∈ offsets r → s !! sid_at r off = None → lo ≤ sid_at r off → sid_at r off ∈ unknowns) →
  ∃ rows, build_row h selected lo s unknowns r = Some rows ∧ Forall row_good rows ∧
    ∀ y, (∀ row, row ∈ rows → fsum (seq 0 n) (λ c, mul (at_ (coefs row) c) (y (unknown c))) = x00) →
    usable lo s r (offsets r) → fsum (offsets r) (miss_term s r y) = x00.
Proof using Hcache HT Hs Hnd.
  intros (Hw & Hl & Hp) Hcov. unfold build_row. set (row0 := {| coefs := _; rhs := _ |}).
  assert (∀ i, at_ (coefs row0) i = x00) as H0.
  { intros i. cbn [row0 coefs]. unfold at_. rewrite nth_lookup.
    destruct (replicate n x00 !! i) as [b|] eqn:E; [|done]. by apply lookup_replicate in E as [-> _]. }
  destruct (row_loop_spec h selected Hcache lo s unknowns len) with (r := r) (offs := offsets r)
    (row := row0) (covers := false) as (res & -> & Hres); [| |split| | | |].
  - intros sid v Hv. by rewrite (Hs _ _ Hv).
  - done.
  - apply length_replicate.
  - done.
  - by apply sids_NoDup.
  - done.
  - intros. apply H0.
  - cbn [mbind option_bind]. destruct res as [ [row covers] |]; unfold row_result in Hres; cbv iota beta in Hres.
    2: { exists []. split_and!; [done..|]. intros y _ Hu. by destruct Hres. }
    destruct Hres as (Hwf & Hy & Hx & Hc).
    assert (∀ y, fsum (seq 0 n) (λ c, mul (at_ (coefs row) c) (y (unknown c)))
      = fsum (offsets r) (miss_term s r y)) as Hy'.
    { intros y. rewrite Hy, fsum_0; [apply add_0_l|]. intros c _. by rewrite H0, mul_0_l. }
    destruct covers.
    + exists [row]. split_and!; [done| |].
      * constructor; [|done]. split; [done|]. intros x Hlx. unfold truth.
        rewrite (Hy' (λ sid, at_ (T sid) x)), Hx by done. cbn [row0 rhs]. rewrite Hp by done.
        rewrite <- fsum_add. apply fsum_ext. intros off _. unfold miss_term, known_term.
        destruct (s !! sid_at r off) as [v|] eqn:E.
        -- rewrite decide_False by done. rewrite (Hs _ _ E). by rewrite add_self.
        -- by rewrite decide_True, add_0_r.
      * intros y Hrow _. rewrite <- Hy'. apply Hrow. set_solver.
    + exists []. split_and!; [done..|]. intros y _ _. rewrite <- Hy'. apply fsum_0. intros c _.
      destruct (Hc eq_refl) as [_ ->]. by rewrite H0, mul_0_l.
Qed.

Lemma build_rows_spec rs :
  Forall (genuine T len) rs →
  (∀ r off, r ∈ rs → off ∈ offsets r → s !! sid_at r off = None → lo ≤ sid_at r off →
     sid_at r off ∈ unknowns) →
  ∃ rows, build_rows h selected lo s unknowns rs = Some rows ∧ Forall row_good rows ∧
    ∀ y, (∀ row, row ∈ rows → fsum (seq 0 n) (λ c, mul (at_ (coefs row) c) (y (unknown c))) = x00) →
    ∀ r, r ∈ rs → usable lo s r (offsets r) → fsum (offsets r) (miss_term s r y) = x00.
Proof using Hcache HT Hs Hnd.
  induction 1 as [|r rs Hr _ IH]; intros Hcov.
  { exists []. split_and!; [done..|]. intros y _ r Hr. by apply not_elem_of_nil in Hr. }
  destruct (build_row_spec r Hr) as (row & E & Hg & Hk).
  { intros off. apply Hcov. by left. }
  destruct IH as (rows & E' & Hg' & Hk').
  { intros r' off Hr'. apply Hcov. by right. }
  cbn [build_rows]. rewrite E, E'. cbn [mbind option_bind]. exists (row ++ rows).
  split_and!; [done|by apply Forall_app|]. intros y Hy r' [->|Hin]%elem_of_cons.
  - apply Hk. intros row' Hrow'. apply Hy, elem_of_app. by left.
  - apply Hk'; [|done]. intros row' Hrow'. apply Hy, elem_of_app. by right.
Qed.

Lemma take_rows_spec rows s0 ids0 :
  Forall row_good rows → (∀ sid v, s0 !! sid = Some v → v = T sid) →
  let res := fold_left (take_row unknowns) rows (s0, ids0) in
  (∀ sid v, res.1 !! sid = Some v → v = T sid) ∧ s0 ⊆ res.1 ∧
  (∀ sid, sid ∈ res.2 ↔ sid ∈ ids0 ∨ s0 !! sid = None ∧ is_Some (res.1 !! sid)) ∧
  (∀ row c, row ∈ rows → determines n row = Some c → is_Some (res.1 !! unknown c)) ∧
  (∀ sid, is_Some (res.1 !! sid) → is_Some (s0 !! sid) ∨ sid ∈ unknowns).
Proof using HT.
  intros Hg. revert s0 ids0. induction Hg as [|row rows [Hwf Hr] _ IH]; intros s0 ids0 Hs0.
  { cbv zeta. cbn. split_and!; [done..| | |].
    - intros sid. split; [by left|]. intros [?|[E [v Hv] ] ]; congruence.
    - intros row c Hin. by apply not_elem_of_nil in Hin.
    - by left. }
  cbn [fold_left]. cbv zeta. remember (take_row unknowns (s0, ids0) row) as acc eqn:Eacc.
  unfold take_row in Eacc. cbn [fst snd] in Eacc.
  destruct (determines n row) as [c|] eqn:Ed.
  - destruct (proj1 (determines_spec n row c) Ed) as [Hc Hrow].
    assert (rhs row = T (unknown c)) as Erhs.
    { apply byte_list_eq; [by rewrite HT, (proj2 Hwf)|]. rewrite (proj2 Hwf). intros x Hx.
      rewrite <- Hr by done. rewrite (fsum_pick _ c); [|apply NoDup_seq|apply elem_of_seq; lia|].
      - by rewrite Hrow, decide_True, mul_1_l.
      - intros j Hj%elem_of_seq Hne. by rewrite Hrow, decide_False, mul_0_l by (done || lia). }
    destruct (s0 !! nth c unknowns 0) as [v|] eqn:Es; subst acc.
    + destruct (IH s0 ids0 Hs0) as (H1 & H2 & H3 & H4 & H5). split_and!; [done..| |done].
      intros row' c' [->|Hin]%elem_of_cons Hd; [|by eapply H4].
      rewrite Ed in Hd. injection Hd as <-. exists v. by eapply lookup_weaken.
    + destruct (IH (<[unknown c := rhs row]> s0) (ids0 ++ [unknown c])) as (H1 & H2 & H3 & H4 & H5).
      { intros sid v. destruct (decide (sid = unknown c)) as [->|].
        - rewrite lookup_insert_eq. intros [= <-]. done.
        - rewrite lookup_insert_ne by done. apply Hs0. }
      assert (s0 ⊆ <[unknown c := rhs row]> s0) as Hsub by (by apply insert_subseteq).
      split_and!; [done|by etrans| | |].
      * intros sid. rewrite H3, elem_of_app, list_elem_of_singleton.
        destruct (decide (sid = unknown c)) as [->|Hne].
        -- split; [|tauto]. intros _. right. split; [done|]. exists (rhs row).
           eapply lookup_weaken; [apply lookup_insert_eq|done].
        -- rewrite lookup_insert_ne by done. tauto.
      * intros row' c' [->|Hin]%elem_of_cons Hd; [|by eapply H4].
        rewrite Ed in Hd. injection Hd as <-. exists (rhs row).
        eapply lookup_weaken; [apply lookup_insert_eq|done].
      * intros sid Hsid. destruct (H5 sid Hsid) as [Hsome|]; [|by right].
        destruct (decide (sid = unknown c)) as [->|]; [right|left].
        -- apply list_elem_of_In, nth_In. done.
        -- by rewrite lookup_insert_ne in Hsome.
  - subst acc. destruct (IH s0 ids0 Hs0) as (H1 & H2 & H3 & H4 & H5). split_and!; [done..| |done].
    intros row' c' [->|Hin]%elem_of_cons Hd; [congruence|by eapply H4].
Qed.
End system.
End recovery.

Section recovering.
Context (h : Host) (selected : Z) (Hcache : cache_ok h selected).
Context (T : Z → list byte) (len : nat) (HT : ∀ sid, length (T sid) = len).

Lemma Forall_filterb {A} (P : A → Prop) f (l : list A) : Forall P l → Forall P (List.filter f l).
Proof. rewrite !Forall_forall. intros H x [Hx _]%list_elem_of_In%filter_In. by apply H, list_elem_of_In. Qed.

Lemma with_store_ok d s rs hi :
  (∀ sid v, s !! sid = Some v → v = T sid) → Forall (genuine T len) rs →
  dec_ok T len (with_store d s rs hi).
Proof. by split. Qed.

(** One pass keeps the decoder right, reports what it added, and adds every
    unknown its equations determine. *)
Lemma try_recover_spec d :
  dec_ok T len d →
  ∃ d' ids, try_recover h selected d = Some (d', ids) ∧ dec_ok T len d' ∧
    source d ⊆ source d' ∧ (∀ r, r ∈ repairs d' → r ∈ repairs d) ∧
    (∀ sid, is_Some (source d' !! sid) → is_Some (source d !! sid) ∨
       ∃ r off, r ∈ repairs d ∧ off ∈ offsets r ∧ sid = sid_at r off) ∧
    (∀ sid, sid ∈ ids ↔ source d !! sid = None ∧ is_Some (source d' !! sid)) ∧
    (∀ u, determined d u → is_Some (source d' !! u)).
Proof using Hcache HT.
  intros [Hs Hr]. unfold try_recover. fold (floor_of d). fold (live_repairs d). cbv zeta.
  assert (Forall (genuine T len) (live_repairs d)) as Hlive by (by apply Forall_filterb).
  assert (∀ s, (∀ sid v, s !! sid = Some v → v = T sid) →
    dec_ok T len (with_store d s (prune s (live_repairs d)) (highest d))) as Hok.
  { intros s Hss. apply with_store_ok; [done|]. by apply Forall_filterb. }
  assert (∀ f g r, r ∈ List.filter f (List.filter g (repairs d)) → r ∈ repairs d) as Hsub.
  { intros f g r [ [Hrin _]%filter_In _]%list_elem_of_In%filter_In. by apply list_elem_of_In. }
  destruct (unknown_set_spec (floor_of d) (source d) (live_repairs d)) as [Hnd Hin].
  unfold determined. set (us := unknown_set _ _ _) in *.
  destruct (Nat.eqb_spec (length us) 0) as [E0|Hne].
  { exists (with_store d (source d) (prune (source d) (live_repairs d)) (highest d)), [].
    split_and!; [done|by apply Hok|done|intros r; apply Hsub|by left| |].
    - intros sid. split; [intros H; by apply not_elem_of_nil in H|]. intros [E [v Hv] ]. cbn in Hv. congruence.
    - intros u [Hu _]. destruct us; [by apply not_elem_of_nil in Hu|done]. }
  destruct (build_rows_spec h selected Hcache T len HT (floor_of d) (source d) us Hs Hnd (live_repairs d) Hlive)
    as (rows & -> & Hg & Hk).
  { intros r off Hrin Hoff E Hle. apply Hin. exists r, off. done. }
  cbn [mbind option_bind].
  assert (Forall (row_wf (length us) len) rows) as Hwf by (eapply Forall_impl; [exact Hg|]; by intros ? [? _]).
  destruct (rref_spec h selected Hcache (length us) len rows Hwf) as (rows' & ps & -> & Hwf' & He & Hsat & Hker).
  cbn [mbind option_bind].
  assert (satisfied (length us) len (truth T us) rows) as Hsat0.
  { intros i x Hi Hx. apply (nth_Forall _ _ i {| coefs := []; rhs := [] |} Hg Hi). done. }
  assert (Forall (row_good T len us) rows') as Hg'.
  { apply Forall_lookup. intros i row Hrow. pose proof (lookup_lt_Some _ _ _ Hrow) as Hi.
    split; [exact (Forall_lookup_1 _ _ _ _ Hwf' Hrow)|]. intros x Hx.
    pose proof (Hsat _ Hsat0 i x Hi Hx) as E. unfold M, R, row_at in E.
    by rewrite (nth_lookup_Some _ _ _ _ Hrow) in E. }
  destruct (take_rows_spec T len HT us rows' (source d) [] Hg' Hs) as (H1 & H2 & H3 & H4 & H5).
  destruct (fold_left (take_row us) rows' (source d, [])) as [s ids]. cbn [fst snd] in *.
  exists (with_store d s (prune s (live_repairs d)) (highest d)), ids.
  split_and!; [done|by apply Hok|done|intros r; apply Hsub| | |].
  - intros sid Hsid. destruct (H5 sid Hsid) as [|Hu]; [by left|right].
    apply Hin in Hu as (r & off & Hrin & Hoff & E & _). exists r, off. split_and!; [|done..].
    apply list_elem_of_In in Hrin. apply filter_In in Hrin as [? _]. by apply list_elem_of_In.
  - intros sid. rewrite H3. cbn. split; [|by right]. intros [H|H]; [by apply not_elem_of_nil in H|done].
  - intros u [Hu Hdet]. destruct (index_of_spec _ _ Hu) as [Hi Hn]. rewrite <- Hn.
    destruct (determined_row (length us) rows' ps (index_of u us) He Hi) as (i & Hil & Hrow).
    { intros y Hy.
      assert (∀ c, (c < length us)%nat → index_of (nth c us 0) us = c) as Hinv.
      { intros c Hc. destruct (index_of_spec (nth c us 0) us) as [Hi' Hn'].
        { apply list_elem_of_In, nth_In. done. }
        eapply (proj1 (NoDup_nth us 0)); [by apply NoDup_ListNoDup|done..]. }
      apply (Hdet (λ sid, y (index_of sid us))). apply Hk. intros row Hrow.
      apply list_elem_of_lookup in Hrow as [k Hrow]. pose proof (lookup_lt_Some _ _ _ Hrow) as Hkl.
      rewrite <- (Hker _ Hy k Hkl). apply fsum_ext. intros c Hc%elem_of_seq. unfold M, row_at.
      rewrite (nth_lookup_Some _ _ _ _ Hrow), Hinv by lia. done. }
    apply (H4 (row_at rows' i)); [apply list_elem_of_In, nth_In; done|].
    apply determines_spec. split; [done|]. exact Hrow.
Qed.

Lemma add_repair_ok d r : dec_ok T len d → genuine T len r → dec_ok T len (add_repair d r).
Proof.
  intros [Hs Hr] Hg. unfold add_repair. destruct (negb _); [by split|].
  apply with_store_ok; [done|]. apply Forall_app. split; [done|]. by apply Forall_singleton.
Qed.

Lemma on_source_ok d sid : dec_ok T len d → dec_ok T len (on_source d sid (T sid)).
Proof.
  intros [Hs Hr]. apply with_store_ok; [|done]. unfold or_insert. intros sid' v.
  destruct (source d !! sid) eqn:E; [apply Hs|]. destruct (decide (sid' = sid)) as [->|].
  - rewrite lookup_insert_eq. by intros [= <-].
  - rewrite lookup_insert_ne by done. apply Hs.
Qed.

Lemma dec_forget_ok d floor : dec_ok T len d → dec_ok T len (dec_forget_below d floor).
Proof.
  intros [Hs Hr]. apply with_store_ok; [|by apply Forall_filterb].
  intros sid v [Hv _]%map_lookup_filter_Some. by apply Hs.
Qed.

Lemma dec_rebase_ok d base : dec_ok T len (dec_rebase_to d base).
Proof. by apply with_store_ok. Qed.
End recovering.

(** * The encoder's repairs are genuine *)

Lemma fsum_fmap {A B} (g : A → B) (l : list A) f : fsum (g <$> l) f = fsum l (λ a, f (g a)).
Proof. induction l as [|a l IH]; [done|]. rewrite fmap_cons, !fsum_cons. by rewrite IH. Qed.

(** The symbols of a history, and zeros elsewhere. *)
Definition symbols (len : nat) (hist : gmap Z (list byte)) (sid : Z) : list byte :=
  default (replicate len x00) (hist !! sid).

Definition covered (hist : gmap Z (list byte)) (r : RepairSymbol) : Prop :=
  ∀ off, off ∈ offsets r → is_Some (hist !! sid_at r off).

(** A repair made of symbols that were sent. *)
Definition repair_ok (len : nat) (hist : gmap Z (list byte)) (r : RepairSymbol) : Prop :=
  covered hist r ∧ genuine (symbols len hist) len r.

Definition enc_ok (len : nat) (hist : gmap Z (list byte)) (e : RlcEncoder) : Prop :=
  fst <$> window e = seqZ (next_source_id e - Z.of_nat (length (window e))) (Z.of_nat (length (window e))) ∧
  Forall (λ p, hist !! p.1 = Some p.2) (window e) ∧
  (length (window e) ≤ window_max e)%nat ∧ 0 < Z.of_nat (window_max e) < 2 ^ 16 ∧
  0 ≤ edt e ≤ 15 ∧ Z.of_nat (length (window e)) ≤ next_source_id e < 2 ^ 32 ∧ esymbol_len e = len.

Definition dec_in (len : nat) (hist : gmap Z (list byte)) (d : RlcDecoder) : Prop :=
  source d ⊆ hist ∧ Forall (repair_ok len hist) (repairs d).

Section sending.
Context (h : Host) (selected : Z) (Hcache : cache_ok h selected).
Context (len : nat).

Lemma emit_loop_spec newest i d w out :
  Forall (λ p : Z * list byte, length p.2 = len) w → length out = len →
  ∃ out', emit_loop h selected newest i d w out = Some out' ∧ length out' = len ∧
    ∀ x, (x < len)%nat → at_ out' x =
      add (at_ out x) (fsum (seq 0 (length w)) (λ j, mul (fixed_coef (newest - (i + j)) d) (at_ (nth j w (0, [])).2 x))).
Proof using Hcache.
  intros Hw. revert i out. induction Hw as [|[sid sym] w Hl _ IH]; intros i out Hout.
  { exists out. split_and!; [done..|]. intros x _. cbn [length seq]. by rewrite fsum_nil, add_0_r. }
  cbn [emit_loop]. cbv zeta. cbv beta in Hl. cbn [snd] in Hl.
  assert ((if Byte.eqb (fixed_coef (newest - i) d) x00 then Some out
           else mul_add_auto h selected out sym (fixed_coef (newest - i) d))
          = Some (axpy out sym (fixed_coef (newest - i) d))) as ->.
  { destruct (Byte.eqb _ _) eqn:E0; [|by rewrite (mul_add_auto_axpy h selected Hcache) by lia].
    apply beqb_eq in E0. by rewrite E0, axpy_0 by lia. }
  cbn [mbind option_bind].
  destruct (IH (S i) (axpy out sym (fixed_coef (newest - i) d))) as (out' & -> & Hl' & Hx).
  { rewrite length_axpy; lia. }
  exists out'. split_and!; [done..|]. intros x Hlx. rewrite Hx by done. cbn [length seq].
  rewrite at_axpy, fsum_cons by lia. cbn [nth snd]. rewrite Nat.add_0_r, <- add_assoc. do 2 f_equal.
  rewrite <- fmap_S_seq, fsum_fmap. apply fsum_ext. intros j _. cbn [nth].
  by rewrite Nat.add_succ_r.
Qed.

Lemma density_of d : 0 ≤ d ≤ 15 → Z.land (Z.lor (Z.shiftl 1 4) (Z.land d 15)) 15 = d.
Proof.
  intros Hd. assert (forallb (λ d, Z.land (Z.lor (Z.shiftl 1 4) (Z.land d 15)) 15 =? d) (seqZ 0 16) = true) as H
    by (vm_compute; reflexivity).
  rewrite forallb_forall in H. apply Z.eqb_eq, H, list_elem_of_In, elem_of_seqZ. lia.
Qed.

Lemma emit_repair_spec hist e :
  enc_ok len hist e → window e ≠ [] → (∀ sid v, hist !! sid = Some v → length v = len) →
  ∃ r, emit_repair h selected e = Some (r, with_stream e (window e) (next_source_id e)
         (since_last_repair e) (u32 (next_repair_key e + 1))) ∧ repair_ok len hist r.
Proof using Hcache.
  intros (Hids & Hh & Hl & Hmax & Hdt & Hn & Hlen) Hne Hhl. unfold emit_repair. set (m := length (window e)) in *.
  destruct (emit_loop_spec (m - 1) 0 (edt e) (window e) (replicate (esymbol_len e) x00))
    as (out & -> & Hlo & Hx).
  { eapply Forall_impl; [exact Hh|]. intros [sid v] Hv. by eapply Hhl. }
  { by rewrite length_replicate. }
  cbn [mbind option_bind]. eexists. split; [done|].
  set (r := {| repair_key := _; first_source_id := _; window_size := _; dt := _; payload := out |}).
  assert (0 < m)%nat as Hm by (unfold m; destruct (window e); [done|cbn; lia]).
  assert (window_size r = Z.of_nat m) as Hws.
  { cbn [r window_size]. apply wrap_small. fold m. lia. }
  assert (first_source_id r = next_source_id e - Z.of_nat m) as Hfirst.
  { cbn [r first_source_id]. destruct (window e) as [|[id v] w]; [done|].
    apply (f_equal head) in Hids. fold m in Hids. rewrite fmap_cons in Hids. cbn [head fst] in Hids.
    destruct (Z.of_nat m) eqn:Em; [lia| |lia]. rewrite seqZ_cons in Hids by lia. by injection Hids as ->. }
  assert (∀ j, (j < m)%nat → ∃ v, window e !! j = Some (sid_at r (Z.of_nat j), v) ∧
    hist !! sid_at r (Z.of_nat j) = Some v) as Hwin.
  { intros j Hj. destruct (lookup_lt_is_Some_2 (window e) j Hj) as [ [id v] Hjv].
    assert (id = sid_at r (Z.of_nat j)) as ->.
    { apply (f_equal (lookup j)) in Hids. rewrite list_lookup_fmap, Hjv in Hids.
      symmetry in Hids. apply lookup_seqZ in Hids as [Hids _]. cbn [fst] in Hids.
      unfold sid_at. rewrite (wrap_small 32 (first_source_id r + Z.of_nat j)); [lia|].
      change (2 ^ 32) with 4294967296 in *. lia. }
    exists v. split; [done|]. exact (Forall_lookup_1 _ _ _ _ Hh Hjv). }
  split.
  { intros off Hoff%elem_of_seqZ. rewrite Hws in Hoff. destruct (Hwin (Z.to_nat off)) as (v & _ & Hv); [lia|].
    rewrite Z2Nat.id in Hv by lia. eauto. }
  split_and!; [lia..|done|]. intros x Hxl. cbn [r payload]. rewrite Hx by done.
  assert (at_ (replicate (esymbol_len e) x00) x = x00) as ->
    by (apply nth_lookup_Some, lookup_replicate_2; lia).
  rewrite add_0_l. unfold offsets, seqZ. rewrite Hws, Nat2Z.id, fsum_fmap. apply fsum_ext.
  intros j Hj%elem_of_seq. destruct (Hwin j ltac:(lia)) as (v & Hjv & Hhv). rewrite Z.add_0_r.
  rewrite (nth_lookup_Some _ _ _ _ Hjv). cbn [snd]. unfold symbols. rewrite Hhv. cbn [default from_option].
  f_equal. unfold coefficient, density. rewrite Hws. cbn [r dt]. rewrite density_of by done.
  f_equal. lia.
Qed.
End sending.

(** * The link *)

Inductive packet := PSource (sid : Z) (p : list byte) | PRepair (r : RepairSymbol).

(** Both ends, every symbol sent so far, and the packets put on the wire; a
    packet may be delivered never, once or often, in any order. *)
Record link := { lenc : RlcEncoder; ldec : RlcDecoder; hist : gmap Z (list byte); wire : list packet }.

Definition with_enc (l : link) (e : RlcEncoder) : link :=
  {| lenc := e; ldec := ldec l; hist := hist l; wire := wire l |}.
Definition with_dec (l : link) (d : RlcDecoder) : link :=
  {| lenc := lenc l; ldec := d; hist := hist l; wire := wire l |}.

Section links.
Context (h : Host) (selected : Z) (Hcache : cache_ok h selected) (len : nat).

(** Ids are not reused: they stay below [2^32] and a rebase goes forward. *)
Inductive link_step : link → link → Prop :=
| link_send l p sid rep e' :
    length p = len → next_source_id (lenc l) + 1 < 2 ^ 32 →
    push_source h selected (lenc l) p = Some (sid, rep, e') →
    link_step l {| lenc := e'; ldec := ldec l; hist := <[sid := p]> (hist l);
                   wire := wire l ++ PSource sid p :: match rep with Some r => [PRepair r] | None => [] end |}
| link_params l wmax stp d :
    Z.of_nat wmax < 2 ^ 16 → 0 ≤ d → link_step l (with_enc l (set_params (lenc l) wmax stp d))
| link_coding l on : link_step l (with_enc l (set_coding (lenc l) on))
| link_enc_forget l floor : link_step l (with_enc l (enc_forget_below (lenc l) floor))
| link_enc_rebase l base :
    next_source_id (lenc l) ≤ base < 2 ^ 32 → link_step l (with_enc l (enc_rebase_to (lenc l) base))
| link_source l sid p : PSource sid p ∈ wire l → link_step l (with_dec l (on_source (ldec l) sid p))
| link_add l r : PRepair r ∈ wire l → link_step l (with_dec l (add_repair (ldec l) r))
| link_repair l r d ids :
    PRepair r ∈ wire l → on_repair h selected (ldec l) r = Some (d, ids) → link_step l (with_dec l d)
| link_recover l d ids : recover h selected (ldec l) = Some (d, ids) → link_step l (with_dec l d)
| link_dec_forget l floor : link_step l (with_dec l (dec_forget_below (ldec l) floor))
| link_dec_rebase l base : link_step l (with_dec l (dec_rebase_to (ldec l) base)).

Definition packet_ok (hs : gmap Z (list byte)) (p : packet) : Prop :=
  match p with PSource sid v => hs !! sid = Some v | PRepair r => repair_ok len hs r end.

Definition link_ok (l : link) : Prop :=
  enc_ok len (hist l) (lenc l) ∧ dec_in len (hist l) (ldec l) ∧
  Forall (packet_ok (hist l)) (wire l) ∧
  (∀ sid v, hist l !! sid = Some v → length v = len ∧ 0 ≤ sid < next_source_id (lenc l)).

(** ** What a longer history keeps *)

Lemma repair_ok_mono hs hs' r : hs ⊆ hs' → repair_ok len hs r → repair_ok len hs' r.
Proof.
  intros Hsub [Hc (Hw & Hl & Hx)]. assert (covered hs' r) as Hc'.
  { intros off Hoff. destruct (Hc off Hoff) as [v Hv]. exists v. by eapply lookup_weaken. }
  split; [done|]. split_and!; [apply Hw..|done|]. intros x Hlx. rewrite Hx by done. apply fsum_ext.
  intros off Hoff. destruct (Hc off Hoff) as [v Hv]. unfold symbols.
  by rewrite Hv, (lookup_weaken _ _ _ _ Hv Hsub).
Qed.

Lemma packet_ok_mono hs hs' p : hs ⊆ hs' → packet_ok hs p → packet_ok hs' p.
Proof. destruct p; cbn; [intros; by eapply lookup_weaken|apply repair_ok_mono]. Qed.

Lemma dec_in_mono hs hs' d : hs ⊆ hs' → dec_in len hs d → dec_in len hs' d.
Proof.
  intros Hsub [Hs Hr]. split; [by etrans|]. eapply Forall_impl; [exact Hr|].
  intros r. by apply repair_ok_mono.
Qed.

(** A decoder inside the history is right about the history's symbols. *)
Lemma dec_in_ok hs d : dec_in len hs d → dec_ok (symbols len hs) len d.
Proof.
  intros [Hs Hr]. split.
  - intros sid v Hv. unfold symbols. by rewrite (lookup_weaken _ _ _ _ Hv Hs).
  - eapply Forall_impl; [exact Hr|]. by intros r [_ ?].
Qed.

Lemma symbols_length hs : (∀ sid v, hs !! sid = Some v → length v = len) →
  ∀ sid, length (symbols len hs sid) = len.
Proof.
  intros H sid. unfold symbols. destruct (hs !! sid) eqn:E; cbn; [by eapply H|apply length_replicate].
Qed.

(** ** The sender *)

Definition consecutive (next : Z) (w : list (Z * list byte)) : Prop :=
  fst <$> w = seqZ (next - Z.of_nat (length w)) (Z.of_nat (length w)).

Lemma consecutive_drop next w k : consecutive next w → consecutive next (drop k w).
Proof.
  unfold consecutive. intros Hids. rewrite fmap_drop, Hids, length_drop. set (m := length w).
  destruct (decide (k ≤ m)%nat).
  - replace (Z.of_nat m) with (Z.of_nat k + Z.of_nat (m - k)) at 2 by lia.
    rewrite seqZ_app by lia. rewrite drop_app_length' by (rewrite length_seqZ; lia). f_equal; lia.
  - rewrite drop_ge by (rewrite length_seqZ; lia). replace (m - k)%nat with 0%nat by lia. done.
Qed.

Lemma consecutive_snoc next w p : consecutive next w → consecutive (next + 1) (w ++ [(next, p)]).
Proof.
  unfold consecutive. intros Hids. rewrite fmap_app, Hids, length_app. cbn [length].
  rewrite Nat.add_1_r, seqZ_S. f_equal; [f_equal; lia|]. cbn. f_equal. lia.
Qed.

Lemma drop_below_drop floor w : ∃ k, drop_below floor w = drop k w.
Proof.
  induction w as [|[sid v] w [k IH] ]; [by exists 0%nat|]. cbn. destruct (sid <? floor).
  - by exists (S k).
  - by exists 0%nat.
Qed.

(** Shrinking the window from the front keeps the encoder right. *)
Lemma enc_ok_shrink hs e e' k :
  enc_ok len hs e → window e' = drop k (window e) → next_source_id e' = next_source_id e →
  (length (window e') ≤ window_max e')%nat → 0 < Z.of_nat (window_max e') < 2 ^ 16 → 0 ≤ edt e' ≤ 15 →
  esymbol_len e' = len → enc_ok len hs e'.
Proof.
  intros (Hids & Hh & _ & _ & _ & Hnx & _) Hw Hn Hl Hm Hd Hs.
  pose proof (consecutive_drop _ _ k Hids) as Hids'.
  split_and!; try done; rewrite ?Hw, ?Hn in *; try lia.
  - done.
  - by apply Forall_drop.
  - rewrite length_drop. lia.
Qed.

Lemma push_source_spec hs e p :
  enc_ok len hs e → (∀ sid v, hs !! sid = Some v → length v = len ∧ 0 ≤ sid < next_source_id e) →
  length p = len → next_source_id e + 1 < 2 ^ 32 →
  ∃ rep e', push_source h selected e p = Some (next_source_id e, rep, e') ∧
    let hs' := <[next_source_id e := p]> hs in
    enc_ok len hs' e' ∧ next_source_id e' = next_source_id e + 1 ∧
    match rep with Some r => repair_ok len hs' r | None => True end.
Proof using Hcache.
  intros He Hhs Hp Hid. unfold push_source. set (sid := next_source_id e) in *. cbv zeta.
  destruct (He) as (Hids & Hh & Hl & Hm & Hd & Hn & Hlen).
  set (hs' := <[sid := p]> hs).
  set (w := trim (window_max e) (window e ++ [(sid, p)])).
  assert (u32 (sid + 1) = sid + 1) as Eu by (apply wrap_small; unfold sid in *; lia).
  assert (length w = Nat.min (S (length (window e))) (window_max e)) as Hlw by (unfold w, trim; len).
  assert (∀ since key, enc_ok len hs' (with_stream e w (u32 (sid + 1)) since key)) as Hok.
  { intros since key. rewrite Eu. unfold enc_ok. cbn [with_stream window next_source_id window_max edt esymbol_len].
    split_and!; try lia; [|].
    - apply consecutive_drop, consecutive_snoc, Hids.
    - apply Forall_drop, Forall_app. split; [|apply Forall_singleton; apply lookup_insert_eq].
      eapply Forall_impl; [exact Hh|]. intros [id v] Hv. cbn [fst snd] in *. unfold hs'.
      rewrite lookup_insert_ne; [done|]. destruct (Hhs _ _ Hv) as [_ Hlt]. unfold sid in *. lia. }
  cbn [with_stream coding_on step since_last_repair next_source_id next_repair_key].
  destruct (_ && _).
  - assert (w ≠ []) as Hw.
    { intros E. apply (f_equal length) in E. rewrite Hlw in E. cbn [length] in E. lia. }
    destruct (emit_repair_spec h selected Hcache len hs' (with_stream e w (u32 (sid + 1)) 0 (next_repair_key e)))
      as (r & Er & Hr); [apply Hok|done| |].
    { intros id v. unfold hs'. destruct (decide (id = sid)) as [->|].
      - rewrite lookup_insert_eq. by intros [= <-].
      - rewrite lookup_insert_ne by done. intros Hv. by destruct (Hhs _ _ Hv). }
    match goal with |- context [emit_repair h selected ?x] =>
      change x with (with_stream e w (u32 (sid + 1)) 0 (next_repair_key e)) end.
    rewrite Er. cbn [mbind option_bind]. eexists _, _. split; [done|]. cbv zeta. split_and!; [apply Hok|exact Eu|done].
  - eexists _, _. split; [done|]. cbv zeta. split_and!; [apply Hok|exact Eu|done].
Qed.

(** ** The receiver *)

Lemma try_recover_in hs d :
  (∀ sid v, hs !! sid = Some v → length v = len) → dec_in len hs d →
  ∃ d' ids, try_recover h selected d = Some (d', ids) ∧ dec_in len hs d'.
Proof using Hcache.
  intros Hl [Hsub Hr]. destruct (try_recover_spec h selected Hcache (symbols len hs) len
    (symbols_length hs Hl) d (dec_in_ok hs d (conj Hsub Hr)))
    as (d' & ids & E & [Hs' _] & _ & Hrs & Hnew & _). exists d', ids. split; [done|]. split.
  - apply map_subseteq_spec. intros sid v Hv. rewrite (Hs' sid v Hv). unfold symbols.
    assert (is_Some (hs !! sid)) as [w ->]; [|done].
    destruct (Hnew sid) as [ [w Hw] |(r & off & Hrin & Hoff & ->)]; [by exists v| |].
    + exists w. by eapply lookup_weaken.
    + eapply Forall_forall in Hrin; [|exact Hr]. by apply Hrin.
  - apply Forall_forall. intros r Hrin. by eapply Forall_forall in Hr; [|apply Hrs].
Qed.

Lemma add_repair_in hs d r : dec_in len hs d → repair_ok len hs r → dec_in len hs (add_repair d r).
Proof.
  intros [Hs Hr] Hok. unfold add_repair. destruct (negb _); [by split|]. split; [done|].
  apply Forall_app. split; [done|]. by apply Forall_singleton.
Qed.

(** ** Every step keeps the link right *)

Lemma send_ok l p sid rep e' :
  link_ok l → length p = len → next_source_id (lenc l) + 1 < 2 ^ 32 →
  push_source h selected (lenc l) p = Some (sid, rep, e') →
  link_ok {| lenc := e'; ldec := ldec l; hist := <[sid := p]> (hist l);
             wire := wire l ++ PSource sid p :: match rep with Some r => [PRepair r] | None => [] end |}.
Proof using Hcache.
  intros (He & Hd & Hw & Hh) Hp Hid E.
  destruct (push_source_spec (hist l) (lenc l) p He Hh Hp Hid) as (rep' & e2 & E' & He' & Hn & Hr).
  rewrite E in E'. injection E' as Esid <- <-. rewrite <- Esid in *.
  assert (hist l !! sid = None) as Hfresh.
  { destruct (hist l !! sid) as [v|] eqn:Ev; [|done]. destruct (Hh _ _ Ev) as [_ ?]. lia. }
  assert (hist l ⊆ <[sid := p]> (hist l)) as Hsub by (by apply insert_subseteq).
  split_and!; cbn [lenc ldec hist wire]; [done|by eapply dec_in_mono| |].
  - apply Forall_app. split; [eapply Forall_impl; [exact Hw|]; intros q; by apply packet_ok_mono|].
    constructor; [apply lookup_insert_eq|]. destruct rep; [by apply Forall_singleton|done].
  - intros id v. destruct (He) as (_ & _ & _ & _ & _ & Hnx & _). rewrite Hn.
    destruct (decide (id = sid)) as [->|].
    + rewrite lookup_insert_eq. intros [= <-]. lia.
    + rewrite lookup_insert_ne by done. intros Hv. destruct (Hh _ _ Hv). lia.
Qed.

Lemma with_enc_ok l e' k :
  link_ok l → window e' = drop k (window (lenc l)) → next_source_id e' = next_source_id (lenc l) →
  (length (window e') ≤ window_max e')%nat → 0 < Z.of_nat (window_max e') < 2 ^ 16 →
  0 ≤ edt e' ≤ 15 → esymbol_len e' = len → link_ok (with_enc l e').
Proof.
  intros (He & Hd & Hw & Hh) Hwin Hn Hl Hm Hdt Hs.
  split_and!; cbn [with_enc lenc ldec hist wire]; [by eapply enc_ok_shrink|done..|]. by rewrite Hn.
Qed.

Lemma with_dec_ok l d : link_ok l → dec_in len (hist l) d → link_ok (with_dec l d).
Proof. intros (He & _ & Hw & Hh) Hd. by split_and!. Qed.

Lemma link_step_ok l l' : link_ok l → link_step l l' → link_ok l'.
Proof using Hcache.
  intros Hok Hst. destruct (Hok) as (He & Hd & Hw & Hh).
  destruct (He) as (Hids & Hwin & Hl & Hm & Hdt & Hn & Hsl).
  assert (∀ p, p ∈ wire l → packet_ok (hist l) p) as Hpk by (by apply Forall_forall).
  destruct Hst as [l p sid rep e' Hp Hid E|l wmax stp d Hwm Hd0|l on|l floor|l base Hb|l sid p Hin
    |l r Hin|l r d ids Hin E|l d ids E|l floor|l base].
  - by apply send_ok.
  - apply (with_enc_ok l _ (length (window (lenc l)) - Nat.max wmax 1)); try done;
      cbn [set_params window window_max edt]; unfold trim; rewrite ?length_drop; lia.
  - by apply (with_enc_ok l _ 0).
  - destruct (drop_below_drop floor (window (lenc l))) as [k Ek].
    apply (with_enc_ok l _ k); try done. cbn [enc_forget_below with_stream window window_max].
    rewrite Ek, length_drop. lia.
  - split_and!; cbn [with_enc lenc ldec hist wire]; [|done..|].
    + split_and!; cbn; try done; lia.
    + cbn. intros id v Hv. destruct (Hh _ _ Hv). lia.
  - apply with_dec_ok; [done|]. destruct Hd as [Hs Hr]. split; [|done]. cbn. unfold or_insert.
    destruct (source (ldec l) !! sid) eqn:E; [done|]. apply insert_subseteq_l; [|done].
    exact (Hpk _ Hin).
  - apply with_dec_ok; [done|]. apply add_repair_in; [done|]. exact (Hpk _ Hin).
  - apply with_dec_ok; [done|]. destruct (try_recover_in (hist l) (add_repair (ldec l) r)) as (d' & ids' & E' & Hd').
    { intros id v Hv. by destruct (Hh _ _ Hv). }
    { apply add_repair_in; [done|]. exact (Hpk _ Hin). }
    unfold on_repair in E. rewrite E' in E. by injection E as <- _.
  - apply with_dec_ok; [done|]. destruct (try_recover_in (hist l) (ldec l)) as (d' & ids' & E' & Hd').
    { intros id v Hv. by destruct (Hh _ _ Hv). }
    { done. }
    unfold recover in E. rewrite E' in E. by injection E as <- _.
  - apply with_dec_ok; [done|]. destruct Hd as [Hs Hr]. split; [|by apply Forall_filterb].
    cbn. etrans; [apply map_filter_subseteq|done].
  - apply with_dec_ok; [done|]. split; [apply map_empty_subseteq|constructor].
Qed.

Definition link_start (wmax stp : nat) (d hz : Z) : link :=
  {| lenc := enc_new wmax stp d len; ldec := with_horizon (dec_new len) hz; hist := ∅; wire := [] |}.

Lemma link_start_ok wmax stp d hz :
  Z.of_nat wmax < 2 ^ 16 → 0 ≤ d → link_ok (link_start wmax stp d hz).
Proof.
  intros Hw Hd. split_and!; cbn.
  - split_and!; cbn; try done; lia.
  - split; [apply map_empty_subseteq|constructor].
  - constructor.
  - intros sid v Hv. by rewrite lookup_empty in Hv.
Qed.
End links.

(** * The properties *)

(** A repair whose window misses one symbol, in scope of the solver. *)
Definition isolated (d : RlcDecoder) (r : RepairSymbol) (off : Z) : Prop :=
  generator_is_readable r = true ∧ off ∈ offsets r ∧ coefficient r off ≠ x00 ∧
  source d !! sid_at r off = None ∧
  (∀ off', off' ∈ offsets r → off' ≠ off → is_Some (source d !! sid_at r off')) ∧
  floor_of (add_repair d r) ≤ sid_at r off ∧ ends_after (floor_of (add_repair d r)) r = true.

Lemma isolated_determined T len d r off :
  genuine T len r → isolated d r off → determined (add_repair d r) (sid_at r off).
Proof.
  intros (Hw & _) (Hread & Hoff & Hc & Hmiss & Hrest & Hfl & Hend).
  assert (r ∈ live_repairs (add_repair d r)) as Hlive.
  { apply list_elem_of_In, filter_In. split; [|done]. apply list_elem_of_In. unfold add_repair.
    rewrite Hread. cbn. set_solver. }
  assert (source (add_repair d r) = source d) as Es by (unfold add_repair; by rewrite Hread).
  split.
  - apply unknown_set_spec. exists r, off. rewrite Es. split_and!; done.
  - intros y Hy. specialize (Hy r Hlive). rewrite Es in Hy.
    assert (∀ off', off' ∈ offsets r → source d !! sid_at r off' = None → off' = off) as Honly.
    { intros off' Hin E. destruct (decide (off' = off)); [done|].
      destruct (Hrest off' Hin) as [v Hv]; [done|congruence]. }
    rewrite (fsum_pick _ off) in Hy; [|apply NoDup_seqZ|done|].
    + unfold miss_term in Hy. rewrite decide_True in Hy by done.
      assert (mul (coefficient r off) (y (sid_at r off)) = x00) as [?|?]%mul_eq_0; [|done..].
      apply Hy. intros off' Hin Hcc E. by rewrite (Honly _ Hin E).
    + intros off' Hin Hne. unfold miss_term. rewrite decide_False; [done|].
      intros E. by apply Hne, Honly.
Qed.

(** C18: the decoder recovers exactly what its equations determine. Given
    symbols [T] of one length, a decoder that holds only such symbols and
    repairs made of them, and a further such repair: [on_repair] returns; every
    symbol stored afterwards is the right one and none is lost; the ids
    returned are those newly stored; every missing symbol whose value follows
    from the stored repairs in scope (it vanishes in every solution of their
    homogeneous equations) is recovered; in particular a repair that misses one
    symbol recovers it at once. *)
Theorem rlc_recovers_determined h selected T len d r :
  cache_ok h selected → (∀ sid, length (T sid) = len) → dec_ok T len d → genuine T len r →
  ∃ d' ids, on_repair h selected d r = Some (d', ids) ∧
    (∀ sid v, dget d' sid = Some v → v = T sid) ∧ source d ⊆ source d' ∧
    (∀ sid, sid ∈ ids ↔ dhas d sid = false ∧ dhas d' sid = true) ∧
    (∀ u, determined (add_repair d r) u → dget d' u = Some (T u)) ∧
    (∀ off, isolated d r off → dget d' (sid_at r off) = Some (T (sid_at r off))).
Proof.
  intros Hc HT Hd Hr.
  destruct (try_recover_spec h selected Hc T len HT (add_repair d r) (add_repair_ok T len d r Hd Hr))
    as (d' & ids & E & [Hs _] & Hsub & _ & _ & Hids & Hdet).
  assert (source (add_repair d r) = source d) as Es by (unfold add_repair; by destruct (negb _)).
  assert (∀ u, determined (add_repair d r) u → dget d' u = Some (T u)) as Hdet'.
  { intros u Hu. destruct (Hdet u Hu) as [v Hv]. unfold dget. rewrite Hv. f_equal. by apply Hs. }
  rewrite Es in *. exists d', ids. split_and!; [done..| |done|].
  - intros sid. rewrite Hids. unfold dhas. rewrite bool_decide_eq_false, bool_decide_eq_true.
    by rewrite eq_None_not_Some.
  - intros off Hi. by eapply Hdet', isolated_determined.
Qed.

(** Four symbols of two bytes, of which the third is missing. *)
Definition test_symbols (sid : Z) : list byte := [Zb (sid + 7); Zb (3 * sid)].
Definition test_repair : RepairSymbol :=
  {| repair_key := 0; first_source_id := 0; window_size := 4; dt := 31;
     payload := (λ x, fsum (seqZ 0 4) (λ off, mul (fixed_coef (Z.to_nat (3 - off)) 15)
                  (at_ (test_symbols off) x))) <$> seq 0 2 |}.
Definition test_decoder : RlcDecoder :=
  on_source (on_source (on_source (dec_new 2) 0 (test_symbols 0)) 1 (test_symbols 1)) 3 (test_symbols 3).

Lemma rlc_recovers_determined_witness :
  ∃ d' ids, on_repair test_host BACKEND_UNINIT test_decoder test_repair = Some (d', ids) ∧
    dget d' 2 = Some (test_symbols 2).
Proof.
  destruct (rlc_recovers_determined test_host BACKEND_UNINIT test_symbols 2 test_decoder test_repair)
    as (d' & ids & E & _ & _ & _ & _ & Hi).
  - by left.
  - done.
  - unfold test_decoder. do 3 apply on_source_ok. split; [|constructor]. intros sid v Hv. cbn in Hv.
    by rewrite lookup_empty in Hv.
  - split; [done|]. split; [done|]. intros [|[|x] ] Hx; [vm_compute; reflexivity..|lia].
  - exists d', ids. split; [exact E|]. apply (Hi 2). split_and!.
    + reflexivity.
    + apply elem_of_seqZ. cbn. lia.
    + vm_compute. discriminate.
    + vm_compute. reflexivity.
    + intros off Hoff%elem_of_seqZ Hne. cbn in Hoff.
      assert (off = 0 ∨ off = 1 ∨ off = 3) as [->|[->| ->] ] by lia; vm_compute; eauto.
    + vm_compute. discriminate.
    + vm_compute. reflexivity.
Defined.

(** C17: the link never fabricates data. From a fresh encoder (of a window below
    [2^16] symbols) and decoder, under any interleaving of sends, retunings,
    window trims and forward rebases at the sender, and of deliveries of
    packets the sender put on the wire, reordered, repeated or lost, recovery
    passes, trims and rebases at the receiver: every symbol the receiver holds
    is the one sent under that id, and neither end ever faults. *)
Theorem rlc_never_misrecovers h selected len wmax stp d hz l :
  cache_ok h selected → Z.of_nat wmax < 2 ^ 16 → 0 ≤ d →
  rtc (link_step h selected len) (link_start len wmax stp d hz) l →
  (∀ sid v, dget (ldec l) sid = Some v → hist l !! sid = Some v) ∧
  (∀ r, PRepair r ∈ wire l → is_Some (on_repair h selected (ldec l) r)) ∧
  is_Some (recover h selected (ldec l)) ∧
  (∀ p, length p = len → next_source_id (lenc l) + 1 < 2 ^ 32 →
     is_Some (push_source h selected (lenc l) p)).
Proof.
  intros Hc Hw Hd Hr.
  assert (link_ok len l) as (He & Hdec & Hwire & Hh).
  { eapply (rtc_invariant (link_step h selected len) (link_ok len)); [|by apply link_start_ok|exact Hr].
    intros x y. by apply link_step_ok. }
  assert (∀ sid v, hist l !! sid = Some v → length v = len) as Hl by (intros sid v Hv; by destruct (Hh _ _ Hv)).
  split_and!.
  - intros sid v Hv. by eapply lookup_weaken; [exact Hv|apply Hdec].
  - intros r Hin. eapply Forall_forall in Hin; [|exact Hwire]. cbn in Hin.
    destruct (try_recover_in h selected Hc len (hist l) (add_repair (ldec l) r)) as (d' & ids & E & _); [done| |].
    + by apply add_repair_in.
    + unfold on_repair. by rewrite E.
  - destruct (try_recover_in h selected Hc len (hist l) (ldec l)) as (d' & ids & E & _); [done..|].
    unfold recover. by rewrite E.
  - intros p Hp Hid. destruct (push_source_spec h selected Hc len (hist l) (lenc l) p) as (rep & e & E & _); [done..|].
    by rewrite E.
Qed.

(** One symbol sent, its repair delivered without it. *)
Lemma rlc_never_misrecovers_witness :
  ∃ l, rtc (link_step test_host BACKEND_UNINIT 1) (link_start 1 4 1 15 8) l ∧
    ∀ v, dget (ldec l) 0 = Some v → hist l !! 0 = Some v.
Proof.
  eexists. split.
  - eapply rtc_l; [eapply (link_send _ _ _ _ [x2a]); [reflexivity|cbn; lia|vm_compute; reflexivity]|].
    eapply rtc_l; [|apply rtc_refl].
    eapply link_repair; [cbn; right; left|vm_compute; reflexivity].
  - intros v Hv. eapply (rlc_never_misrecovers test_host BACKEND_UNINIT 1 4 1 15 8); [by left|lia|lia| |exact Hv].
    eapply rtc_l; [eapply (link_send _ _ _ _ [x2a]); [reflexivity|cbn; lia|vm_compute; reflexivity]|].
    eapply rtc_l; [|apply rtc_refl].
    eapply link_repair; [cbn; right; left|vm_compute; reflexivity].
Defined.
