(* ===== verification/RwLock.v ===== *)
(** The reader-writer lock with writer priority:
    crates/subetha-cxc/src/shared_rw_lock.rs.

    The lock is one 64-bit word. The functions on it are the decisions of the
    calls; [tstep] cuts the calls into their atomic accesses and [lock_step]
    interleaves any number of threads, whose guards release on drop. File
    creation, back-off and observation calls are left out. *)
From S2P Require Import Prelude.
#[local] Open Scope word_scope.

(** * The word *)

Definition RWLOCK_MAGIC : Z := 0x415052574C4F434B.
Definition WRITER_BIT : Z := 1 << 63.
Definition WAITING_SHIFT : Z := 32.
Definition WAITING_MASK : Z := 0x7FFFFFFF << WAITING_SHIFT.
Definition READERS_MASK : Z := 0xFFFFFFFF.

Record RWLockHeader := { magic : Z; state : Z }.

(** The payload of [IoError] is the [std::io::ErrorKind] discriminant. *)
Inductive RWLockError := WouldBlock | LayoutMismatch | IoError (kind : Z).

(** [reset], and the winner of [create_or_open]: zeroed, then the magic. *)
Definition reset : RWLockHeader := {| magic := RWLOCK_MAGIC; state := 0 |}.

Definition HEADER_SIZE : Z := 64.

Definition open (file_len : Z) (hdr : RWLockHeader) : res RWLockError RWLockHeader :=
  if file_len <? HEADER_SIZE then Err LayoutMismatch
  else if negb (magic hdr =? RWLOCK_MAGIC) then Err LayoutMismatch
  else Ok hdr.

(** [s & m] and [s & !m]. *)
Definition masked (s m : Z) : Z := Z.land s m.
Definition cleared (s m : Z) : Z := Z.ldiff s m.

Definition writer_active (s : Z) : bool := negb (masked s WRITER_BIT =? 0).
Definition writers_waiting (s : Z) : Z := masked s WAITING_MASK >> WAITING_SHIFT.
Definition readers (s : Z) : Z := masked s READERS_MASK.

(** One round of the loops: refused, or the word to exchange for [s]. *)
Definition read_attempt (s : Z) : res RWLockError Z :=
  if writer_active s || (0 <? writers_waiting s) then Err WouldBlock
  else Ok (Z.lor (cleared s READERS_MASK) (u64 (readers s + 1))).

Definition write_attempt (s : Z) : res RWLockError Z :=
  if writer_active s || (0 <? readers s) then Err WouldBlock
  else Ok (Z.lor (cleared s WRITER_BIT) WRITER_BIT).

Definition write_attempt_registered (s : Z) : res RWLockError Z :=
  if writer_active s || (0 <? readers s) then Err WouldBlock
  else Ok (Z.lor (Z.lor (masked s READERS_MASK) WRITER_BIT)
             (u64 (u64 (writers_waiting s - 1) << WAITING_SHIFT))).

(** [None] when there is no reader to release. *)
Definition release_read_attempt (s : Z) : option Z :=
  if readers s =? 0 then None
  else Some (Z.lor (cleared s READERS_MASK) (readers s - 1)).

Definition register_waiting_writer (s : Z) : Z := u64 (s + (1 << WAITING_SHIFT)).
Definition unregister_waiting_writer (s : Z) : Z := u64 (s - (1 << WAITING_SHIFT)).
Definition release_write (s : Z) : Z := cleared s WRITER_BIT.

Definition reader_count (s : Z) : Z := u32 (masked s READERS_MASK).
Definition has_writer (s : Z) : bool := writer_active s.
Definition waiting_writers (s : Z) : Z := u32 (writers_waiting s).

(** * The calls, an access at a time *)

(** Where a thread is: before a load or before the exchange of the word it
    loaded, for each call; holding a guard; or registered and between tries.
    [blocking] is [read_lock], which retries on [WouldBlock]. *)
Inductive thread :=
| Idle
| ReadLoad (blocking : bool)
| ReadCas (blocking : bool) (s new : Z)
| Reading
| ReleaseLoad
| ReleaseCas (s new : Z)
| WriteLoad
| WriteCas (s new : Z)
| Register (blocking : bool)
| Registered
| RegLoad (blocking : bool)
| RegCas (blocking : bool) (s new : Z)
| Unregister
| Writing.

Inductive event :=
| Tau
| ReadAcquired | ReadRefused | ReadReleased | ReleaseIgnored
| WriteAcquired | WriteRefused | WriteReleased
| WriterRegistered | WriterUnregistered.

Definition tstep (w : Z) (t : thread) : Z * thread * event :=
  match t with
  | ReadLoad blocking =>
      match read_attempt w with
      | Ok new => (w, ReadCas blocking w new, Tau)
      | _ => (w, if blocking then ReadLoad true else Idle, ReadRefused)
      end
  | ReadCas blocking s new =>
      if w =? s then (new, Reading, ReadAcquired) else (w, ReadLoad blocking, Tau)
  | ReleaseLoad =>
      match release_read_attempt w with
      | None => (w, Idle, ReleaseIgnored)
      | Some new => (w, ReleaseCas w new, Tau)
      end
  | ReleaseCas s new =>
      if w =? s then (new, Idle, ReadReleased) else (w, ReleaseLoad, Tau)
  | WriteLoad =>
      match write_attempt w with
      | Ok new => (w, WriteCas w new, Tau)
      | _ => (w, Idle, WriteRefused)
      end
  | WriteCas s new => if w =? s then (new, Writing, WriteAcquired) else (w, WriteLoad, Tau)
  | Register blocking =>
      (register_waiting_writer w, if blocking then RegLoad true else Registered, WriterRegistered)
  | RegLoad blocking =>
      match write_attempt_registered w with
      | Ok new => (w, RegCas blocking w new, Tau)
      | _ => (w, if blocking then RegLoad true else Registered, WriteRefused)
      end
  | RegCas blocking s new =>
      if w =? s then (new, Writing, WriteAcquired) else (w, RegLoad blocking, Tau)
  | Unregister => (unregister_waiting_writer w, Idle, WriterUnregistered)
  | Idle | Reading | Registered | Writing => (w, t, Tau)
  end.

Record system := { word : Z; threads : list thread }.

(** What a caller may do between accesses: begin a call, drop a guard. *)
Inductive call_step : thread → thread → Prop :=
| call_read blocking : call_step Idle (ReadLoad blocking)
| call_try_write : call_step Idle WriteLoad
| call_write_lock : call_step Idle (Register true)
| call_register : call_step Idle (Register false)
| call_try_registered : call_step Registered (RegLoad false)
| call_unregister : call_step Registered Unregister
| call_drop_read : call_step Reading ReleaseLoad.

(** Dropping a write guard is one access. *)
Inductive lock_step : system → event → system → Prop :=
| lock_thread w ts i t w' t' e :
    ts !! i = Some t → tstep w t = (w', t', e) →
    lock_step {| word := w; threads := ts |} e {| word := w'; threads := <[i := t']> ts |}
| lock_call w ts i t t' :
    ts !! i = Some t → call_step t t' →
    lock_step {| word := w; threads := ts |} Tau {| word := w; threads := <[i := t']> ts |}
| lock_drop_write w ts i :
    ts !! i = Some Writing →
    lock_step {| word := w; threads := ts |} WriteReleased
      {| word := release_write w; threads := <[i := Idle]> ts |}.

(** * The fields of the word *)

(** A word with the writer flag, the waiting writers and the readers. *)
Definition encode (wr : bool) (waiting rd : Z) : Z :=
  Z.b2z wr * 2 ^ 63 + waiting * 2 ^ 32 + rd.

Definition fields_ok (waiting rd : Z) : Prop := 0 ≤ waiting < 2 ^ 31 ∧ 0 ≤ rd < 2 ^ 32.

Section fields.
Context (wr : bool) (waiting rd : Z) (Hok : fields_ok waiting rd).
Notation s := (encode wr waiting rd).

Lemma encode_bound : 0 ≤ s < 2 ^ 64.
Proof. destruct Hok. unfold encode. destruct wr; cbn [Z.b2z]; lia. Qed.

Lemma low_bound : 0 ≤ waiting * 2 ^ 32 + rd < 2 ^ 63.
Proof. destruct Hok. lia. Qed.

Lemma encode_lor : s = Z.lor (Z.b2z wr << 63) (waiting * 2 ^ 32 + rd).
Proof. rewrite lor_shiftl_add by (apply low_bound || lia). unfold encode. lia. Qed.

Lemma low_bit_63 : Z.testbit (waiting * 2 ^ 32 + rd) 63 = false.
Proof.
  rewrite <- (Z.mod_small _ (2 ^ 63) low_bound). by apply Z.mod_pow2_bits_high.
Qed.

Lemma encode_bit_63 : Z.testbit s 63 = wr.
Proof.
  rewrite encode_lor, Z.lor_spec, Z.shiftl_spec by lia. rewrite low_bit_63, orb_false_r.
  by destruct wr.
Qed.

Lemma writer_active_encode : writer_active s = wr.
Proof.
  transitivity (Z.testbit s 63); [|apply encode_bit_63]. unfold writer_active, masked, WRITER_BIT.
  assert (Z.land s (1 << 63) = Z.b2z (Z.testbit s 63) << 63) as ->.
  { apply Z.bits_inj'. intros n Hn. rewrite Z.land_spec.
    destruct (decide (n < 63)); [by rewrite !Z.shiftl_spec_low, andb_false_r by lia|].
    rewrite !Z.shiftl_spec by lia. destruct (decide (n = 63)) as [->|].
    - cbn [Z.sub]. by destruct (Z.testbit s 63).
    - assert (Z.testbit 1 (n - 63) = false) as -> by (apply Z.bits_above_log2; cbn; lia).
      rewrite andb_false_r. symmetry. destruct (Z.testbit s 63); cbn [Z.b2z].
      + apply Z.bits_above_log2; cbn; lia.
      + apply Z.bits_0. }
  by destruct (Z.testbit s 63).
Qed.

Lemma readers_encode : readers s = rd.
Proof.
  destruct Hok as [? ?]. unfold readers, masked, READERS_MASK. change 0xFFFFFFFF with (2 ^ 32 - 1).
  rewrite land_mask_mod by lia. unfold encode.
  replace (Z.b2z wr * 2 ^ 63 + waiting * 2 ^ 32 + rd) with (rd + (Z.b2z wr * 2 ^ 31 + waiting) * 2 ^ 32) by lia.
  rewrite Z.mod_add by lia. by apply Z.mod_small.
Qed.

Lemma high_div : s / 2 ^ 32 = Z.b2z wr * 2 ^ 31 + waiting.
Proof.
  destruct Hok as [? ?]. unfold encode. symmetry. apply Z.div_unique with rd; lia.
Qed.

Lemma writers_waiting_encode : writers_waiting s = waiting.
Proof.
  destruct Hok as [? ?]. unfold writers_waiting, masked, WAITING_MASK, WAITING_SHIFT.
  rewrite Z.shiftr_land, Z.shiftr_shiftl_l by lia. change (0x7FFFFFFF << (32 - 32)) with (2 ^ 31 - 1).
  rewrite land_mask_mod, Z.shiftr_div_pow2, high_div by lia.
  rewrite Z.add_comm, Z.mod_add by lia. by apply Z.mod_small.
Qed.

Lemma set_readers rd' :
  0 ≤ rd' < 2 ^ 32 → Z.lor (cleared s READERS_MASK) rd' = encode wr waiting rd'.
Proof.
  intros Hr. unfold cleared, READERS_MASK. change 0xFFFFFFFF with (Z.ones 32).
  rewrite Z.ldiff_ones_r by lia. rewrite Z.shiftr_div_pow2, high_div by lia.
  rewrite lor_shiftl_add by lia. unfold encode. lia.
Qed.

Lemma clear_writer : cleared s WRITER_BIT = encode false waiting rd.
Proof.
  unfold cleared, WRITER_BIT. rewrite encode_lor. unfold encode. cbn [Z.b2z]. rewrite Z.mul_0_l, Z.add_0_l.
  apply Z.bits_inj'. intros n Hn. rewrite Z.ldiff_spec, Z.lor_spec.
  destruct (decide (n < 63)); [by rewrite !Z.shiftl_spec_low, andb_true_r by lia|].
  rewrite !Z.shiftl_spec by lia. destruct (decide (n = 63)) as [->|].
  - by rewrite low_bit_63, orb_false_r, andb_false_r.
  - assert (∀ b, Z.testbit (Z.b2z b) (n - 63) = false) as Hb.
    { intros []; [apply Z.bits_above_log2; cbn; lia|apply Z.bits_0]. }
    rewrite Hb, orb_false_l. change 1 with (Z.b2z true). by rewrite Hb, andb_true_r.
Qed.
End fields.

(** * The invariant *)

Definition is_reader (t : thread) : bool :=
  match t with Reading | ReleaseLoad | ReleaseCas _ _ => true | _ => false end.
Definition is_writer (t : thread) : bool := match t with Writing => true | _ => false end.
Definition is_waiting (t : thread) : bool :=
  match t with Registered | RegLoad _ | RegCas _ _ _ | Unregister => true | _ => false end.

(** A thread about to exchange holds the word its attempt computed. *)
Definition thread_ok (t : thread) : Prop :=
  match t with
  | ReadCas _ s new => read_attempt s = Ok new
  | ReleaseCas s new => release_read_attempt s = Some new
  | WriteCas s new => write_attempt s = Ok new
  | RegCas _ s new => write_attempt_registered s = Ok new
  | _ => True
  end.

Record lock_inv (sys : system) : Prop := {
  li_threads : Forall thread_ok (threads sys);
  li_few : Z.of_nat (length (threads sys)) < 2 ^ 31;
  li_word : word sys = encode (0 <? count is_writer (threads sys))
                         (count is_waiting (threads sys)) (count is_reader (threads sys));
  li_one : count is_writer (threads sys) ≤ 1;
  li_excl : 0 < count is_writer (threads sys) → count is_reader (threads sys) = 0 }.

Section invariant.
Context (sys : system) (Hi : lock_inv sys).
Notation ts := (threads sys).
Notation wr := (0 <? count is_writer ts).
Notation waiting := (count is_waiting ts).
Notation rd := (count is_reader ts).

Lemma inv_fields : fields_ok waiting rd.
Proof.
  pose proof (count_bound is_waiting ts). pose proof (count_bound is_reader ts).
  pose proof (li_few _ Hi). split; lia.
Qed.

(** What the attempts do on the word of the invariant. *)
Lemma read_attempt_inv new :
  read_attempt (word sys) = Ok new → wr = false ∧ waiting = 0 ∧ new = encode false 0 (rd + 1).
Proof.
  pose proof inv_fields as Hf. rewrite (li_word _ Hi). unfold read_attempt.
  rewrite writer_active_encode, writers_waiting_encode, readers_encode by done.
  destruct (0 <? count is_writer ts) eqn:Ew; cbn [orb]; [done|].
  destruct (Z.ltb_spec 0 waiting); [done|]. intros [= <-].
  assert (waiting = 0) as E0 by (destruct Hf; lia). split_and!; [done..|].
  pose proof (count_bound is_reader ts). pose proof (li_few _ Hi).
  rewrite (wrap_small 64 (rd + 1)), set_readers by (done || lia). by rewrite E0.
Qed.

Lemma write_attempt_inv new :
  write_attempt (word sys) = Ok new → wr = false ∧ rd = 0 ∧ new = encode true waiting 0.
Proof.
  pose proof inv_fields as Hf. rewrite (li_word _ Hi). unfold write_attempt.
  rewrite writer_active_encode, readers_encode, clear_writer by done.
  destruct (0 <? count is_writer ts) eqn:Ew; cbn [orb]; [done|].
  destruct (Z.ltb_spec 0 rd); [done|]. intros [= <-].
  assert (rd = 0) as -> by (destruct Hf; lia). split_and!; [done..|].
  rewrite Z.lor_comm. unfold WRITER_BIT, encode. cbn [Z.b2z]. destruct Hf. rewrite lor_shiftl_add; lia.
Qed.

Lemma write_attempt_registered_inv new :
  0 < waiting → write_attempt_registered (word sys) = Ok new →
  wr = false ∧ rd = 0 ∧ new = encode true (waiting - 1) 0.
Proof.
  intros Hw. pose proof inv_fields as Hf. rewrite (li_word _ Hi). unfold write_attempt_registered.
  rewrite writer_active_encode, writers_waiting_encode by done.
  change (masked (encode wr waiting rd) READERS_MASK) with (readers (encode wr waiting rd)).
  rewrite readers_encode by done.
  destruct (0 <? count is_writer ts) eqn:Ew; cbn [orb]; [done|].
  destruct (Z.ltb_spec 0 rd); [done|]. intros [= <-].
  assert (rd = 0) as -> by (destruct Hf; lia). split_and!; [done..|].
  unfold WAITING_SHIFT. destruct Hf. rewrite (wrap_small 64 (waiting - 1)) by lia.
  rewrite Z.shiftl_mul_pow2 by lia. rewrite (wrap_small 64 (_ * _)) by lia.
  rewrite Z.lor_0_l. unfold WRITER_BIT, encode. cbn [Z.b2z]. rewrite lor_shiftl_add; lia.
Qed.

Lemma release_read_inv :
  0 < rd → release_read_attempt (word sys) = Some (encode wr waiting (rd - 1)).
Proof.
  intros Hr. pose proof inv_fields as Hf. rewrite (li_word _ Hi). unfold release_read_attempt.
  rewrite readers_encode by done. destruct (Z.eqb_spec rd 0); [lia|]. f_equal.
  destruct (Hf). apply set_readers; [done|lia].
Qed.
End invariant.

(** A step changes one thread and re-encodes the word. *)
Lemma lock_inv_change sys i t t' :
  lock_inv sys → threads sys !! i = Some t → thread_ok t' →
  let wr' := count is_writer (threads sys) - Z.b2z (is_writer t) + Z.b2z (is_writer t') in
  let rd' := count is_reader (threads sys) - Z.b2z (is_reader t) + Z.b2z (is_reader t') in
  let wait' := count is_waiting (threads sys) - Z.b2z (is_waiting t) + Z.b2z (is_waiting t') in
  wr' ≤ 1 → (0 < wr' → rd' = 0) →
  lock_inv {| word := encode (0 <? wr') wait' rd'; threads := <[i := t']> (threads sys) |}.
Proof.
  intros Hi Ht Hok wr' rd' wait' H1 H2. split; cbn [word threads].
  - apply Forall_insert; [apply Hi|done].
  - rewrite length_insert. apply Hi.
  - by rewrite !(count_insert _ _ _ _ _ Ht).
  - by rewrite (count_insert _ _ _ _ _ Ht).
  - by rewrite !(count_insert _ _ _ _ _ Ht).
Qed.

(** What an event says of the state it leaves. *)
Definition event_ok (sys : system) (e : event) : Prop :=
  let wr := count is_writer (threads sys) in
  let rd := count is_reader (threads sys) in
  let wait := count is_waiting (threads sys) in
  match e with
  | ReadAcquired => wr = 0 ∧ wait = 0
  | WriteAcquired => wr = 0 ∧ rd = 0
  | ReadRefused => 0 < wr ∨ 0 < wait
  | WriteRefused => 0 < wr ∨ 0 < rd
  | ReleaseIgnored => False
  | _ => True
  end.

Lemma lock_inv_same w ts i t t' :
  lock_inv {| word := w; threads := ts |} → ts !! i = Some t → thread_ok t' →
  is_writer t' = is_writer t → is_reader t' = is_reader t → is_waiting t' = is_waiting t →
  lock_inv {| word := w; threads := <[i := t']> ts |}.
Proof.
  intros Hi Ht Hok Ew Er Ea. destruct (Hi) as [H1 H2 H3 H4 H5]. cbn [word threads] in *.
  rewrite H3. pose proof (lock_inv_change _ i t t' Hi Ht Hok) as H. cbn [threads] in H.
  rewrite Ew, Er, Ea, !Z.sub_add in H. by apply H.
Qed.

(** ** Each change of the word *)

Section changes.
Context (w : Z) (ts : list thread) (i : nat) (t : thread).
Notation sys := {| word := w; threads := ts |}.
Hypothesis Hi : lock_inv sys.
Hypothesis Ht : ts !! i = Some t.

Lemma change_to t' :
  thread_ok t' →
  let wr' := count is_writer ts - Z.b2z (is_writer t) + Z.b2z (is_writer t') in
  let rd' := count is_reader ts - Z.b2z (is_reader t) + Z.b2z (is_reader t') in
  let wait' := count is_waiting ts - Z.b2z (is_waiting t) + Z.b2z (is_waiting t') in
  wr' ≤ 1 → (0 < wr' → rd' = 0) → ∀ new, new = encode (0 <? wr') wait' rd' →
  lock_inv {| word := new; threads := <[i := t']> ts |}.
Proof using Hi Ht. intros Hok wr' rd' wait' H1 H2 new ->. by apply (lock_inv_change sys i t t' Hi Ht). Qed.

Lemma writers_01 : count is_writer ts = 0 ∨ count is_writer ts = 1.
Proof using Hi. pose proof (count_bound is_writer ts). pose proof (li_one _ Hi). cbn [threads] in *. lia. Qed.

Lemma acquire_read new :
  is_writer t = false → is_reader t = false → is_waiting t = false → read_attempt w = Ok new →
  lock_inv {| word := new; threads := <[i := Reading]> ts |} ∧ event_ok sys ReadAcquired.
Proof using Hi Ht.
  intros Ew Er Ea E. destruct (read_attempt_inv sys Hi new E) as (Hw & Ha & ->). cbn [threads] in *.
  apply Z.ltb_ge in Hw. pose proof writers_01. split; [|split; cbn; lia].
  apply change_to; rewrite ?Ew, ?Er, ?Ea; cbn [is_writer is_reader is_waiting Z.b2z thread_ok]; try done; try lia.
  rewrite (proj2 (Z.ltb_ge _ _)) by lia. f_equal; lia.
Qed.

Lemma acquire_write new :
  is_writer t = false → is_reader t = false → is_waiting t = false → write_attempt w = Ok new →
  lock_inv {| word := new; threads := <[i := Writing]> ts |} ∧ event_ok sys WriteAcquired.
Proof using Hi Ht.
  intros Ew Er Ea E. destruct (write_attempt_inv sys Hi new E) as (Hw & Hr & ->). cbn [threads] in *.
  apply Z.ltb_ge in Hw. pose proof writers_01. split; [|split; cbn; lia].
  apply change_to; rewrite ?Ew, ?Er, ?Ea; cbn [is_writer is_reader is_waiting Z.b2z thread_ok]; try done; try lia.
  rewrite (proj2 (Z.ltb_lt _ _)) by lia. f_equal; lia.
Qed.

Lemma acquire_registered new :
  is_writer t = false → is_reader t = false → is_waiting t = true → write_attempt_registered w = Ok new →
  lock_inv {| word := new; threads := <[i := Writing]> ts |} ∧ event_ok sys WriteAcquired.
Proof using Hi Ht.
  intros Ew Er Ea E. pose proof (count_pos is_waiting ts i t Ht Ea) as Hp.
  destruct (write_attempt_registered_inv sys Hi new Hp E) as (Hw & Hr & ->). cbn [threads] in *.
  apply Z.ltb_ge in Hw. pose proof writers_01. split; [|split; cbn; lia].
  apply change_to; rewrite ?Ew, ?Er, ?Ea; cbn [is_writer is_reader is_waiting Z.b2z thread_ok]; try done; try lia.
  rewrite (proj2 (Z.ltb_lt _ _)) by lia. f_equal; lia.
Qed.

Lemma release_reader new :
  is_writer t = false → is_reader t = true → is_waiting t = false → release_read_attempt w = Some new →
  lock_inv {| word := new; threads := <[i := Idle]> ts |}.
Proof using Hi Ht.
  intros Ew Er Ea E. pose proof (count_pos is_reader ts i t Ht Er) as Hp.
  pose proof (release_read_inv sys Hi Hp) as E'. cbn [word threads] in E'. rewrite E in E'. injection E' as ->.
  pose proof (li_excl _ Hi) as H2. pose proof writers_01. cbn [threads] in H2.
  apply change_to; rewrite ?Ew, ?Er, ?Ea; cbn [is_writer is_reader is_waiting Z.b2z thread_ok]; try done; try lia.
  by rewrite !Z.sub_0_r, !Z.add_0_r.
Qed.

Lemma register_one t' :
  is_writer t = false → is_reader t = false → is_waiting t = false →
  is_writer t' = false → is_reader t' = false → is_waiting t' = true → thread_ok t' →
  lock_inv {| word := register_waiting_writer w; threads := <[i := t']> ts |}.
Proof using Hi Ht.
  intros Ew Er Ea Ew' Er' Ea' Hok. pose proof (li_excl _ Hi) as H2. pose proof writers_01.
  pose proof (li_word _ Hi) as Hw. cbn [word threads] in *. pose proof (count_bound is_reader ts).
  apply change_to; rewrite ?Ew, ?Er, ?Ea, ?Ew', ?Er', ?Ea'; cbn [Z.b2z]; try done; try lia.
  assert (count is_waiting (<[i := t']> ts) = count is_waiting ts + 1) as Hc.
  { rewrite (count_insert _ _ _ _ _ Ht), Ea, Ea'. cbn [Z.b2z]. lia. }
  pose proof (count_bound is_waiting (<[i := t']> ts)) as Hb. rewrite length_insert, Hc in Hb.
  pose proof (li_few _ Hi) as Hn. cbn [threads] in Hn. pose proof (count_bound is_waiting ts).
  unfold register_waiting_writer. rewrite Hw, !Z.sub_0_r, !Z.add_0_r.
  assert (fields_ok (count is_waiting ts + 1) (count is_reader ts)) as Hf by (split; lia).
  pose proof (encode_bound (0 <? count is_writer ts) _ _ Hf) as He.
  rewrite <- (wrap_small 64 (encode _ (_ + 1) _)) by done. f_equal. unfold encode, WAITING_SHIFT.
  change (1 << 32) with (2 ^ 32). lia.
Qed.

Lemma unregister_one :
  is_writer t = false → is_reader t = false → is_waiting t = true →
  lock_inv {| word := unregister_waiting_writer w; threads := <[i := Idle]> ts |}.
Proof using Hi Ht.
  intros Ew Er Ea. pose proof (li_excl _ Hi) as H2. pose proof writers_01.
  pose proof (count_pos is_waiting ts i t Ht Ea) as Hp.
  pose proof (li_word _ Hi) as Hw. pose proof (inv_fields sys Hi) as [Hf1 Hf2]. cbn [word threads] in *.
  apply change_to; rewrite ?Ew, ?Er, ?Ea; cbn [is_writer is_reader is_waiting Z.b2z thread_ok]; try done; try lia.
  unfold unregister_waiting_writer. rewrite Hw, !Z.sub_0_r, !Z.add_0_r.
  assert (fields_ok (count is_waiting ts - 1) (count is_reader ts)) as Hf by (split; lia).
  pose proof (encode_bound (0 <? count is_writer ts) _ _ Hf) as He.
  rewrite <- (wrap_small 64 (encode _ (_ - 1) _)) by done. f_equal. unfold encode, WAITING_SHIFT.
  change (1 << 32) with (2 ^ 32). lia.
Qed.

Lemma drop_writer :
  is_writer t = true → is_reader t = false → is_waiting t = false →
  lock_inv {| word := release_write w; threads := <[i := Idle]> ts |}.
Proof using Hi Ht.
  intros Ew Er Ea. pose proof (li_excl _ Hi) as H2. pose proof writers_01.
  pose proof (count_pos is_writer ts i t Ht Ew) as Hp.
  pose proof (li_word _ Hi) as Hw. pose proof (inv_fields sys Hi) as Hf. cbn [word threads] in *.
  apply change_to; rewrite ?Ew, ?Er, ?Ea; cbn [is_writer is_reader is_waiting Z.b2z thread_ok]; try done; try lia.
  unfold release_write. rewrite Hw, clear_writer by done.
  rewrite (proj2 (Z.ltb_ge _ _)) by lia. f_equal; lia.
Qed.

(** Refusals are true of the word they were read from. *)
Lemma read_refused x :
  read_attempt w = x → (∀ new, x ≠ Ok new) → event_ok sys ReadRefused.
Proof using Hi.
  intros <- Hx. cbn. destruct (decide (0 < count is_writer ts)); [by left|right].
  destruct (decide (0 < count is_waiting ts)); [done|]. exfalso.
  pose proof (inv_fields sys Hi) as Hf. pose proof (li_word _ Hi) as Hw. cbn [word threads] in *.
  unfold read_attempt in Hx. rewrite Hw, writer_active_encode, writers_waiting_encode in Hx by done.
  rewrite !(proj2 (Z.ltb_ge _ _)) in Hx by lia. by eapply Hx.
Qed.

Lemma write_refused x :
  write_attempt w = x ∨ write_attempt_registered w = x → (∀ new, x ≠ Ok new) → event_ok sys WriteRefused.
Proof using Hi.
  intros E Hx. cbn. destruct (decide (0 < count is_writer ts)); [by left|right].
  destruct (decide (0 < count is_reader ts)); [done|]. exfalso.
  pose proof (inv_fields sys Hi) as Hf. pose proof (li_word _ Hi) as Hw. cbn [word threads] in *.
  destruct E as [<-|<-]; unfold write_attempt, write_attempt_registered in Hx;
    rewrite Hw, writer_active_encode, readers_encode in Hx by done;
    rewrite !(proj2 (Z.ltb_ge _ _)) in Hx by lia; by eapply Hx.
Qed.

Lemma stay t' :
  thread_ok t' → is_writer t' = is_writer t → is_reader t' = is_reader t → is_waiting t' = is_waiting t →
  lock_inv {| word := w; threads := <[i := t']> ts |}.
Proof using Hi Ht. intros. by eapply lock_inv_same. Qed.

End changes.

Lemma lock_thread_inv w ts i t w' t' e :
  lock_inv {| word := w; threads := ts |} → ts !! i = Some t → tstep w t = (w', t', e) →
  lock_inv {| word := w'; threads := <[i := t']> ts |} ∧ event_ok {| word := w; threads := ts |} e.
Proof.
  intros Hi Ht E. pose proof (Forall_lookup_1 _ _ _ _ (li_threads _ Hi) Ht) as Hok.
  destruct t as [|b|b s new| | |s new| |s new|b| |b|b s new| |]; cbn [tstep thread_ok] in E, Hok.
  - simplify_eq. split; [by eapply stay|done].
  - destruct (read_attempt w) eqn:Ea; simplify_eq; (split; [destruct b; by eapply stay|]); try done;
      by eapply read_refused.
  - destruct (Z.eqb_spec w s); simplify_eq; [by eapply acquire_read|]. split; [by eapply stay|done].
  - simplify_eq. split; [by eapply stay|done].
  - pose proof (count_pos is_reader ts i _ Ht eq_refl) as Hp.
    pose proof (release_read_inv _ Hi Hp) as E'. cbn [word threads] in E'. rewrite E' in E. simplify_eq.
    split; [by eapply stay|done].
  - destruct (Z.eqb_spec w s); simplify_eq; (split; [|done]); [by eapply release_reader|by eapply stay].
  - destruct (write_attempt w) eqn:Ea; simplify_eq; (split; [by eapply stay|]); try done;
      by (eapply write_refused; [done|left; exact Ea|]).
  - destruct (Z.eqb_spec w s); simplify_eq; [by eapply acquire_write|]. split; [by eapply stay|done].
  - simplify_eq. split; [|done]. destruct b; by eapply register_one.
  - simplify_eq. split; [by eapply stay|done].
  - destruct (write_attempt_registered w) eqn:Ea; simplify_eq; (split; [destruct b; by eapply stay|]); try done;
      by (eapply write_refused; [done|right; exact Ea|]).
  - destruct (Z.eqb_spec w s); simplify_eq; [by eapply acquire_registered|]. split; [by eapply stay|done].
  - simplify_eq. split; [by eapply unregister_one|done].
  - simplify_eq. split; [by eapply stay|done].
Qed.

Lemma lock_step_inv sys e sys' :
  lock_inv sys → lock_step sys e sys' → lock_inv sys' ∧ event_ok sys e.
Proof.
  intros Hi Hst. destruct Hst as [w ts i t w' t' e Ht E|w ts i t t' Ht Hc|w ts i Ht].
  - by eapply lock_thread_inv.
  - split; [|done]. by destruct Hc; eapply lock_inv_same.
  - split; [|done]. by eapply drop_writer.
Qed.

Definition start (n : nat) : system := {| word := state reset; threads := replicate n Idle |}.

Lemma start_inv n : Z.of_nat n < 2 ^ 31 → lock_inv (start n).
Proof.
  intros Hn. assert (∀ P, P Idle = false → count P (replicate n Idle) = 0) as Hc.
  { intros P HP. unfold count. induction n as [|n IH]; [done|]. cbn. rewrite HP. apply IH. lia. }
  split; cbn [start word threads]; rewrite ?Hc by done; try done.
  - apply Forall_replicate. done.
  - by rewrite length_replicate.
Qed.

Lemma reachable_inv n tr sys :
  Z.of_nat n < 2 ^ 31 → ltrace lock_step (start n) tr sys → lock_inv sys.
Proof.
  intros Hn. apply ltrace_inv; [|by apply start_inv]. intros ??? Hi Hst. by eapply lock_step_inv.
Qed.

(** * A call that runs alone *)

Definition at_rest (t : thread) : bool :=
  match t with Idle | Reading | Registered | Writing => true | _ => false end.

(** [n] accesses of one thread, none of any other; it stops at rest. *)
Fixpoint alone (n : nat) (w : Z) (t : thread) : Z * thread :=
  match n with
  | O => (w, t)
  | S n => if at_rest t then (w, t) else let '(w', t', _) := tstep w t in alone n w' t'
  end.

Definition retries (t : thread) : bool :=
  match t with
  | ReadLoad b | ReadCas b _ _ | Register b | RegLoad b | RegCas b _ _ => b
  | _ => false
  end.

(** What the call is after. *)
Definition wanted (t : thread) : thread :=
  match t with
  | ReadLoad _ | ReadCas _ _ _ => Reading
  | WriteLoad | WriteCas _ _ | RegLoad _ | RegCas _ _ _ | Register true => Writing
  | Register false => Registered
  | ReleaseLoad | ReleaseCas _ _ | Unregister => Idle
  | _ => t
  end.

(** Nothing held or registered stands in the way of it. *)
Definition grantable (ts : list thread) (t : thread) : Prop :=
  match wanted t with
  | Reading => count is_writer ts = 0 ∧ count is_waiting ts = 0
  | Writing => count is_writer ts = 0 ∧ count is_reader ts = 0
  | _ => True
  end.

Lemma event_ok_read sys t :
  event_ok sys ReadRefused → wanted t = Reading → ~ grantable (threads sys) t.
Proof. unfold grantable. cbn. intros H ->. lia. Qed.

Lemma event_ok_write sys t :
  event_ok sys WriteRefused → wanted t = Writing → ~ grantable (threads sys) t.
Proof. unfold grantable. cbn. intros H ->. lia. Qed.

(** The attempts succeed when nothing stands in the way. *)
Section granted.
Context (w : Z) (ts : list thread) (Hi : lock_inv {| word := w; threads := ts |}).

Lemma read_granted t :
  wanted t = Reading → grantable ts t → ∃ new, read_attempt w = Ok new.
Proof using Hi.
  intros Ht Hg. destruct (read_attempt w) as [new|x|] eqn:E; [by exists new|exfalso..];
    (eapply event_ok_read; [by eapply read_refused|done..]).
Qed.

Lemma write_granted t :
  wanted t = Writing → grantable ts t →
  (∃ new, write_attempt w = Ok new) ∧ ∃ new, write_attempt_registered w = Ok new.
Proof using Hi.
  intros Ht Hg.
  split; [destruct (write_attempt w) as [new|x|] eqn:E|destruct (write_attempt_registered w) as [new|x|] eqn:E];
    try (by exists new); exfalso;
    (eapply event_ok_write; [eapply write_refused; [done|first [left; exact E|right; exact E]|done]|done..]).
Qed.

(** A release finds its own guard in the count. *)
Lemma release_granted i t :
  ts !! i = Some t → is_reader t = true → ∃ new, release_read_attempt w = Some new.
Proof using Hi.
  intros Ht Hr. eexists. by apply (release_read_inv _ Hi), (count_pos _ _ _ _ Ht).
Qed.
End granted.

(** Run the accesses of [alone], the exchanges succeeding on the word just loaded. *)
Ltac solo := repeat (cbn [alone at_rest tstep snd]; rewrite ?Z.eqb_refl; try done; case_match; simplify_eq).

(** * The properties *)

(** C19: mutual exclusion and writer priority. Among fewer than [2^31] threads,
    under any interleaving of their atomic accesses: at most one thread holds
    the write guard, and then none holds a read guard; the word always says
    exactly how many hold and wait, so [has_writer], [reader_count] and
    [waiting_writers] report the truth; a read guard is granted only when no
    writer holds or waits, a write guard only when nothing is held; a refusal
    has its reason; and a release never finds the count at zero. *)
Theorem rwlock_exclusion n tr sys :
  Z.of_nat n < 2 ^ 31 → ltrace lock_step (start n) tr sys →
  let ts := threads sys in
  count is_writer ts ≤ 1 ∧ (0 < count is_writer ts → count is_reader ts = 0) ∧
  has_writer (word sys) = (0 <? count is_writer ts) ∧
  reader_count (word sys) = count is_reader ts ∧
  waiting_writers (word sys) = count is_waiting ts ∧
  ∀ e sys', lock_step sys e sys' → event_ok sys e.
Proof.
  intros Hn Htr. pose proof (reachable_inv _ _ _ Hn Htr) as Hi.
  pose proof (inv_fields sys Hi) as Hf. destruct (Hf) as [Ha Hr]. cbv zeta.
  split_and!; [apply Hi..| | | |].
  - rewrite (li_word _ Hi). by apply writer_active_encode.
  - unfold reader_count. change (masked (word sys) READERS_MASK) with (readers (word sys)).
    rewrite (li_word _ Hi), readers_encode by done. by apply wrap_small.
  - unfold waiting_writers. rewrite (li_word _ Hi), writers_waiting_encode by done. apply wrap_small. lia.
  - intros e sys' Hst. by eapply lock_step_inv.
Qed.

(** Calls return. From any reachable state a thread that runs alone for
    three accesses, wherever in a call it is and however stale the word it
    loaded, has what it asked for when nothing held or registered refuses it
    (a read guard, a write guard, the release of its guard, the return of its
    registration); and a call that does not block is over in any case. *)
Lemma rwlock_alone_returns n tr sys i t :
  Z.of_nat n < 2 ^ 31 → ltrace lock_step (start n) tr sys → threads sys !! i = Some t →
  (grantable (threads sys) t → (alone 3 (word sys) t).2 = wanted t) ∧
  (retries t = false → at_rest (alone 3 (word sys) t).2 = true).
Proof.
  intros Hn Htr Ht. pose proof (reachable_inv _ _ _ Hn Htr) as Hi. destruct sys as [w ts].
  cbn [word threads] in *.
  split.
  - intros Hg. destruct t as [|b|b s new| | |s new| |s new|b| |b|b s new| |]; try done.
    1, 2: edestruct (read_granted w ts Hi) as [new' E]; [|exact Hg|]; [done|solo].
    1, 2: destruct (release_granted _ _ Hi _ _ Ht eq_refl) as [new' E]; solo.
    1, 2: edestruct (write_granted w ts Hi) as [ [new' E] _]; [|exact Hg|]; [done|solo].
    2, 3: edestruct (write_granted w ts Hi) as [_ [new' E] ]; [|exact Hg|]; [done|solo].
    destruct b; [|done].
    pose proof (register_one _ _ _ _ Hi Ht (RegLoad true) eq_refl eq_refl eq_refl eq_refl eq_refl eq_refl I) as Hi'.
    destruct (write_granted _ _ Hi' (RegLoad true) eq_refl) as [_ [new' E] ]; [|solo].
    revert Hg. unfold grantable. cbn [wanted]. by rewrite !(count_insert _ _ _ _ _ Ht), !Z.add_0_r, !Z.sub_0_r.
  - intros Hb. destruct t as [|b|b s new| | |s new| |s new|b| |b|b s new| |]; cbn [retries] in Hb; subst; solo.
Qed.

(** * Witnesses *)

(** Thread 1 loads the word, thread 0 takes a read guard under it. *)
Definition raced : system := {| word := 1; threads := [Reading; ReadCas true 0 1] |}.

Lemma raced_trace :
  ltrace lock_step (start 2) [Tau; Tau; Tau; Tau; ReadAcquired] raced.
Proof.
  eapply ltrace_cons; [apply (lock_call _ _ 1 Idle (ReadLoad true)); [done|constructor]|].
  eapply ltrace_cons; [apply (lock_thread _ _ 1 (ReadLoad true)); done|].
  eapply ltrace_cons; [apply (lock_call _ _ 0 Idle (ReadLoad false)); [done|constructor]|].
  eapply ltrace_cons; [apply (lock_thread _ _ 0 (ReadLoad false)); done|].
  eapply ltrace_cons; [apply (lock_thread _ _ 0 (ReadCas false 0 1)); done|].
  apply ltrace_nil.
Qed.

Lemma rwlock_exclusion_witness :
  Z.of_nat 2 < 2 ^ 31 ∧ reader_count (word raced) = 1 ∧ has_writer (word raced) = false ∧
  ∀ e sys', lock_step raced e sys' → event_ok raced e.
Proof.
  split; [done|]. destruct (rwlock_exclusion 2 _ _ eq_refl raced_trace) as (_ & _ & Hw & Hr & _ & He).
  split; [exact Hr|]. split; [exact Hw|exact He].
Defined.
