(* ===== verification/UdpSend.v ===== *)
(** The sender of the reliable datagram transport: the data datagram and
    [Encoder] of crates/subetha-cxc/src/reliable_udp.rs, with the segment code of
    tower.rs.

    Items are staged, sealed into blocks of [k] data shards, protected by the
    Reed-Solomon code of [Fec], and kept for retransmission until acknowledged;
    the tower adds parity over whole blocks. A call that would panic has no
    result ([None]). [usize] counts are [nat]s, block ids and epochs [u32]s. The
    session epoch, drawn from clocks, is an argument of [enc_new]; the host and
    its cached kernel selection are parameters of the calls. [eprintln!] reports
    and [set_parity_covering], which computes in floating point before it clamps
    as [set_parity] does, are left out. *)
From Stdlib Require Import Strings.Byte.
From stdpp Require Import gmap sorting.
From S2P Require Import Prelude Gf256 GfKernels GfLinear Fec.
#[local] Open Scope word_scope.

(** * The data datagram *)

Definition PKT_DATA : byte := x01.
Definition DATA_HEADER : nat := 13.
Definition EPOCH_OFFSET : nat := 9.
Definition FLAG_PARITY : Z := 1.
Definition FLAG_OUTER : Z := 2.
Definition FLAG_RETRANSMIT : Z := 4.
Definition OUTER_ID_BIT : Z := 0x80000000.
Definition MAX_SHARDS : nat := 32.
Definition ITEM_LEN_PREFIX : nat := 2.
Definition NAK_NONE : Z := 2 ^ 32 - 1.

(** [x.to_le_bytes()] on [n] bytes, and [from_le_bytes]. *)
Fixpoint le_bytes (n : nat) (x : Z) : list byte :=
  match n with O => [] | S n => Zb x :: le_bytes n (x >> 8) end.

Fixpoint from_le (l : list byte) : Z :=
  match l with [] => 0 | b :: l => bZ b + 256 * from_le l end.

Definition is_data (buf : list byte) : bool :=
  match buf with b :: _ => Byte.eqb b PKT_DATA | [] => false end.

Definition datagram_epoch (buf : list byte) : option Z :=
  if negb (is_data buf) || (length buf <? DATA_HEADER)%nat then None
  else Some (from_le (take 4 (drop EPOCH_OFFSET buf))).

Definition is_outer_datagram (buf : list byte) : bool :=
  (DATA_HEADER <? length buf)%nat && is_data buf
  && negb (Z.land (bZ (at_ buf 8)) FLAG_OUTER =? 0).

(** The [k] and [r] of a block are the bytes of its header. *)
Record PendingBlock := { pk : byte; pr : byte; pshard_len : nat; pshards : list (list byte) }.

Definition byte_nat (b : byte) : nat := Z.to_nat (bZ b).

Definition datagram_flagged (pb : PendingBlock) (block_id : Z) (idx : nat) (extra_flags epoch : Z)
    : option (list byte) :=
  shard ← pshards pb !! idx;
  let parity := if (byte_nat (pk pb) <=? idx)%nat then FLAG_PARITY else 0 in
  Some (PKT_DATA :: le_bytes 4 block_id ++
        [as_u8 idx; pk pb; pr pb; Zb (Z.lor parity extra_flags)] ++ le_bytes 4 epoch ++ shard).

Definition datagram (pb : PendingBlock) (block_id : Z) (idx : nat) (epoch : Z) : option (list byte) :=
  datagram_flagged pb block_id idx 0 epoch.

(** What the receiver reports back. *)
Record Feedback := {
  ack_through : Z; nak_block : Z; nak_mask : Z;
  loss_x255 : Z; burstiness_x255 : Z; owd_trend_class : Z; loss_class : Z }.

(** * Segment code *)

Record SegmentCode := { code : RsCode; d : nat; r_outer : nat }.

Definition segment_new (d r_outer : nat) : res FecError SegmentCode :=
  code ← rs_new d r_outer; Ok {| code := code; d := d; r_outer := r_outer |}.

Definition segment_encode (h : Host) (selected : Z) (s : SegmentCode) (data_blocks parity_blocks : list (list byte))
    : res FecError (list (list byte)) * Z :=
  encode h selected (code s) data_blocks parity_blocks.

Definition segment_decode (h : Host) (selected : Z) (s : SegmentCode) (blocks : list (option (list byte)))
    : res FecError (list (option (list byte))) * Z :=
  decode h selected (code s) blocks.

(** * The encoder *)

(** Counters that nothing of the protocol reads. *)
Record EncStats := {
  unservable_naks : Z; last_unservable_nak : option Z; tail_probe_naks : Z;
  retx_sent : Z; retx_lo : option Z; retx_hi : option Z;
  last_nak_block : option Z; last_retx_block : option Z;
  passthrough_blocks : Z; fec_blocks : Z }.

Record Encoder := {
  ek : nat; er : nat; r_min : nat; r_max : nat; eshard_len : nat; epoch : Z;
  next_block : Z; acked_through : Z; flow_window : Z;
  staged : list (list byte); pending : gmap Z PendingBlock;
  tower_d : nat; tower_r_outer : nat; seg_infos : list (list byte); seg_id : Z;
  stats : EncStats }.

Definition clamp (lo hi x : nat) : nat := if (x <? lo)%nat then lo else if (hi <? x)%nat then hi else x.

Definition enc_new (k r max_item : nat) (derived_epoch : Z) : Encoder :=
  let r_max := (MAX_SHARDS - k)%nat in
  {| ek := k; er := clamp 0 r_max r; r_min := 0; r_max := r_max;
     eshard_len := max_item + ITEM_LEN_PREFIX; epoch := derived_epoch;
     next_block := 0; acked_through := 0; flow_window := 256; staged := []; pending := ∅;
     tower_d := 0; tower_r_outer := 0; seg_infos := []; seg_id := 0;
     stats := {| unservable_naks := 0; last_unservable_nak := None; tail_probe_naks := 0;
                 retx_sent := 0; retx_lo := None; retx_hi := None; last_nak_block := None;
                 last_retx_block := None; passthrough_blocks := 0; fec_blocks := 0 |} |}.

(** Updates of one field. *)
Definition set_er (e : Encoder) (r : nat) : Encoder :=
  {| ek := ek e; er := r; r_min := r_min e; r_max := r_max e; eshard_len := eshard_len e; epoch := epoch e;
     next_block := next_block e; acked_through := acked_through e; flow_window := flow_window e;
     staged := staged e; pending := pending e; tower_d := tower_d e; tower_r_outer := tower_r_outer e;
     seg_infos := seg_infos e; seg_id := seg_id e; stats := stats e |}.
Definition set_next_block (e : Encoder) (n : Z) : Encoder :=
  {| ek := ek e; er := er e; r_min := r_min e; r_max := r_max e; eshard_len := eshard_len e; epoch := epoch e;
     next_block := n; acked_through := acked_through e; flow_window := flow_window e;
     staged := staged e; pending := pending e; tower_d := tower_d e; tower_r_outer := tower_r_outer e;
     seg_infos := seg_infos e; seg_id := seg_id e; stats := stats e |}.
Definition set_acked (e : Encoder) (n : Z) : Encoder :=
  {| ek := ek e; er := er e; r_min := r_min e; r_max := r_max e; eshard_len := eshard_len e; epoch := epoch e;
     next_block := next_block e; acked_through := n; flow_window := flow_window e;
     staged := staged e; pending := pending e; tower_d := tower_d e; tower_r_outer := tower_r_outer e;
     seg_infos := seg_infos e; seg_id := seg_id e; stats := stats e |}.
Definition set_window (e : Encoder) (n : Z) : Encoder :=
  {| ek := ek e; er := er e; r_min := r_min e; r_max := r_max e; eshard_len := eshard_len e; epoch := epoch e;
     next_block := next_block e; acked_through := acked_through e; flow_window := n;
     staged := staged e; pending := pending e; tower_d := tower_d e; tower_r_outer := tower_r_outer e;
     seg_infos := seg_infos e; seg_id := seg_id e; stats := stats e |}.
Definition set_staged (e : Encoder) (l : list (list byte)) : Encoder :=
  {| ek := ek e; er := er e; r_min := r_min e; r_max := r_max e; eshard_len := eshard_len e; epoch := epoch e;
     next_block := next_block e; acked_through := acked_through e; flow_window := flow_window e;
     staged := l; pending := pending e; tower_d := tower_d e; tower_r_outer := tower_r_outer e;
     seg_infos := seg_infos e; seg_id := seg_id e; stats := stats e |}.
Definition set_pending (e : Encoder) (p : gmap Z PendingBlock) : Encoder :=
  {| ek := ek e; er := er e; r_min := r_min e; r_max := r_max e; eshard_len := eshard_len e; epoch := epoch e;
     next_block := next_block e; acked_through := acked_through e; flow_window := flow_window e;
     staged := staged e; pending := p; tower_d := tower_d e; tower_r_outer := tower_r_outer e;
     seg_infos := seg_infos e; seg_id := seg_id e; stats := stats e |}.
Definition set_tower (e : Encoder) (d r_outer : nat) : Encoder :=
  {| ek := ek e; er := er e; r_min := r_min e; r_max := r_max e; eshard_len := eshard_len e; epoch := epoch e;
     next_block := next_block e; acked_through := acked_through e; flow_window := flow_window e;
     staged := staged e; pending := pending e; tower_d := d; tower_r_outer := r_outer;
     seg_infos := seg_infos e; seg_id := seg_id e; stats := stats e |}.
Definition set_segment (e : Encoder) (infos : list (list byte)) (id : Z) : Encoder :=
  {| ek := ek e; er := er e; r_min := r_min e; r_max := r_max e; eshard_len := eshard_len e; epoch := epoch e;
     next_block := next_block e; acked_through := acked_through e; flow_window := flow_window e;
     staged := staged e; pending := pending e; tower_d := tower_d e; tower_r_outer := tower_r_outer e;
     seg_infos := infos; seg_id := id; stats := stats e |}.
Definition set_stats (e : Encoder) (s : EncStats) : Encoder :=
  {| ek := ek e; er := er e; r_min := r_min e; r_max := r_max e; eshard_len := eshard_len e; epoch := epoch e;
     next_block := next_block e; acked_through := acked_through e; flow_window := flow_window e;
     staged := staged e; pending := pending e; tower_d := tower_d e; tower_r_outer := tower_r_outer e;
     seg_infos := seg_infos e; seg_id := seg_id e; stats := s |}.

Definition enable_tower (e : Encoder) (d r_outer : nat) : Encoder :=
  let e := if (d =? 0)%nat || (r_outer =? 0)%nat || (MAX_SHARDS <? d + r_outer)%nat
           then set_tower e 0 0 else set_tower e d r_outer in
  set_segment e [] (seg_id e).

Definition set_flow_window (e : Encoder) (blocks : Z) : Encoder := set_window e (Z.max blocks 1).
Definition with_flow_window (e : Encoder) (blocks : Z) : Encoder := set_window e (Z.max blocks 1).
Definition in_flight (e : Encoder) : Z := u32 (next_block e - acked_through e).
Definition flow_blocked (e : Encoder) : bool := flow_window e <=? in_flight e.
Definition max_item (e : Encoder) : nat := eshard_len e - ITEM_LEN_PREFIX.
Definition set_parity (e : Encoder) (r : nat) : Encoder := set_er e (clamp (r_min e) (r_max e) r).

(** [v.resize(n, 0)]. *)
Definition resize (n : nat) (v : list byte) : list byte := take n v ++ replicate (n - length v) x00.

(** [v.chunks(n)], for a positive [n]. *)
Fixpoint chunks_fuel (fuel n : nat) (v : list byte) : list (list byte) :=
  match fuel, v with
  | O, _ | _, [] => []
  | S fuel, _ => take n v :: chunks_fuel fuel n (drop n v)
  end.
Definition chunks (n : nat) (v : list byte) : list (list byte) := chunks_fuel (length v) n v.

Definition ok_or_panic {E A} (x : res E A) : option A := match x with Ok a => Some a | _ => None end.

Section sender.
Context (h : Host) (selected : Z).

(** [RsCode::new(k, r).expect(..)] and [encode(..).expect(..)], into [r] fresh
    parity shards of [len] bytes. *)
Definition parity_of (k r len : nat) (data : list (list byte)) : option (list (list byte)) :=
  code ← ok_or_panic (rs_new k r);
  ok_or_panic (encode h selected code data (replicate r (replicate len x00))).1.

(** The outer-parity blocks of a segment, each coded again as a block. *)
Definition outer_block (e : Encoder) (d : nat) (sid : Z) (oidx : nat) (oinfo : list byte)
    : option (list (list byte)) :=
  let oshards := chunks (eshard_len e) oinfo in
  oparity ← parity_of (ek e) (er e) (eshard_len e) oshards;
  let opb := {| pk := as_u8 (ek e); pr := as_u8 (er e); pshard_len := eshard_len e;
                pshards := oshards ++ oparity |} in
  let oid := Z.lor (Z.lor (Z.lor (Z.lor OUTER_ID_BIT (u32 (Z.of_nat d << 27)))
                                 (u32 (Z.of_nat (tower_r_outer e) << 24)))
                          (u32 (sid << 8))) (Z.of_nat oidx) in
  mapM (λ i, datagram_flagged opb oid i FLAG_OUTER (epoch e)) (seq 0 (ek e + er e)).

Definition seal_segment (e : Encoder) : option (Encoder * list (list byte)) :=
  let infos := seg_infos e in
  let d := length infos in
  let e := set_segment e [] (seg_id e) in
  if (d =? 0)%nat || (tower_r_outer e =? 0)%nat then Some (e, [])
  else
    seg ← ok_or_panic (segment_new d (tower_r_outer e));
    outer ← ok_or_panic (segment_encode h selected seg infos
              (replicate (tower_r_outer e) (replicate (length (nth 0 infos [])) x00))).1;
    let sid := seg_id e in
    let e := set_segment e [] (u32 (sid + 1)) in
    out ← mapM (λ p, outer_block e d sid p.1 p.2) (imap pair outer);
    Some (e, concat out).

(** The shard length of a block: the fixed one under the tower, else the
    longest staged shard. *)
Definition block_shard_len (e : Encoder) : nat :=
  if (0 <? tower_d e)%nat then eshard_len e
  else Nat.max (match staged e with
                | [] => ITEM_LEN_PREFIX
                | l => foldr Nat.max 0%nat (length <$> l)
                end) ITEM_LEN_PREFIX.

(** [while self.staged.len() < self.k] pushes zeroed shards. *)
Definition fill (k len : nat) (l : list (list byte)) : list (list byte) :=
  l ++ replicate (k - length l) (replicate len x00).

Definition count_block (s : EncStats) (r : nat) : EncStats :=
  {| unservable_naks := unservable_naks s; last_unservable_nak := last_unservable_nak s;
     tail_probe_naks := tail_probe_naks s; retx_sent := retx_sent s; retx_lo := retx_lo s;
     retx_hi := retx_hi s; last_nak_block := last_nak_block s; last_retx_block := last_retx_block s;
     passthrough_blocks := if (r =? 0)%nat then u64 (passthrough_blocks s + 1) else passthrough_blocks s;
     fec_blocks := if (r =? 0)%nat then fec_blocks s else u64 (fec_blocks s + 1) |}.

Definition seal_block (e : Encoder) : option (Encoder * list (list byte)) :=
  let len := block_shard_len e in
  let data := fill (ek e) len (resize len <$> staged e) in
  let r := er e in
  let info := concat data in
  let e := set_stats e (count_block (stats e) r) in
  parity ← (if (0 <? r)%nat then parity_of (ek e) r len data else Some []);
  let block_id := next_block e in
  let e := set_next_block e (u32 (block_id + 1)) in
  let pb := {| pk := as_u8 (ek e); pr := as_u8 r; pshard_len := len; pshards := data ++ parity |} in
  datagrams ← mapM (λ i, datagram pb block_id i (epoch e)) (seq 0 (ek e + r));
  let e := set_staged (set_pending e (<[block_id := pb]> (pending e))) [] in
  if (0 <? tower_d e)%nat then
    let e := set_segment e (seg_infos e ++ [info]) (seg_id e) in
    if (length (seg_infos e) =? tower_d e)%nat then
      '(e, outer) ← seal_segment e; Some (e, datagrams ++ outer)
    else Some (e, datagrams)
  else Some (e, datagrams).

Definition push (e : Encoder) (item : list byte) : option (Encoder * list (list byte)) :=
  let shard := le_bytes 2 (Z.of_nat (length item)) ++ item in
  let e := set_staged e (staged e ++ [shard]) in
  if (length (staged e) =? ek e)%nat then seal_block e else Some (e, []).

Definition flush (e : Encoder) : option (Encoder * list (list byte)) :=
  '(e, out) ← (if (length (staged e) =? 0)%nat then Some (e, []) else seal_block e);
  if (0 <? tower_d e)%nat && negb (length (seg_infos e) =? 0)%nat then
    '(e, outer) ← seal_segment e; Some (e, out ++ outer)
  else Some (e, out).
End sender.

(** ** Feedback and retransmission *)

Definition opt_min (x : option Z) (y : Z) : Z := match x with Some lo => Z.min lo y | None => y end.
Definition opt_max (x : option Z) (y : Z) : Z := match x with Some hi => Z.max hi y | None => y end.

Definition count_nak (s : EncStats) (b : Z) : EncStats :=
  {| unservable_naks := unservable_naks s; last_unservable_nak := last_unservable_nak s;
     tail_probe_naks := tail_probe_naks s; retx_sent := retx_sent s; retx_lo := retx_lo s;
     retx_hi := retx_hi s; last_nak_block := Some b; last_retx_block := last_retx_block s;
     passthrough_blocks := passthrough_blocks s; fec_blocks := fec_blocks s |}.

Definition count_retx (b : Z) (s : EncStats) : EncStats :=
  {| unservable_naks := unservable_naks s; last_unservable_nak := last_unservable_nak s;
     tail_probe_naks := tail_probe_naks s; retx_sent := u64 (retx_sent s + 1);
     retx_lo := Some (opt_min (retx_lo s) b); retx_hi := Some (opt_max (retx_hi s) b);
     last_nak_block := last_nak_block s; last_retx_block := Some b;
     passthrough_blocks := passthrough_blocks s; fec_blocks := fec_blocks s |}.

Definition count_unserved (s : EncStats) (b next : Z) : EncStats :=
  {| unservable_naks := if b <? next then u64 (unservable_naks s + 1) else unservable_naks s;
     last_unservable_nak := if (b <? next) || (next <? b) then Some b else last_unservable_nak s;
     tail_probe_naks := if b <? next then tail_probe_naks s else u64 (tail_probe_naks s + 1);
     retx_sent := retx_sent s; retx_lo := retx_lo s; retx_hi := retx_hi s;
     last_nak_block := last_nak_block s; last_retx_block := last_retx_block s;
     passthrough_blocks := passthrough_blocks s; fec_blocks := fec_blocks s |}.

(** The shards of a block that the mask asks for; the shift of a [u32] takes its
    distance modulo 32. *)
Definition requested (mask : Z) (n : nat) : list nat :=
  List.filter (λ idx, negb (Z.land mask (u32 (1 << Z.of_nat (idx mod 32))) =? 0)) (seq 0 n).

Definition on_feedback (e : Encoder) (fb : Feedback) : option (Encoder * list (list byte)) :=
  let e := if acked_through e <? ack_through fb then set_acked e (ack_through fb) else e in
  let e := set_pending e (filter (λ p, ¬ p.1 < ack_through fb) (pending e)) in
  if nak_block fb =? NAK_NONE then Some (e, [])
  else
    let e := set_stats e (count_nak (stats e) (nak_block fb)) in
    match pending e !! nak_block fb with
    | Some pb =>
        let idxs := requested (nak_mask fb) (length (pshards pb)) in
        out ← mapM (λ idx, datagram_flagged pb (nak_block fb) idx FLAG_RETRANSMIT (epoch e)) idxs;
        Some (set_stats e (foldr (λ _ s, count_retx (nak_block fb) s) (stats e) idxs), out)
    | None => Some (set_stats e (count_unserved (stats e) (nak_block fb) (next_block e)), [])
    end.

(** A [BTreeMap]'s keys in order. *)
Definition sorted_keys {A} (m : gmap Z A) : list Z := merge_sort Z.le (elements (dom m)).

Definition oldest_pending (e : Encoder) : option Z := head (sorted_keys (pending e)).

Definition probe_block (e : Encoder) (block_id : Z) : option (list (list byte)) :=
  match pending e !! block_id with
  | Some pb => mapM (λ idx, datagram_flagged pb block_id idx FLAG_RETRANSMIT (epoch e))
                 (seq 0 (byte_nat (pk pb)))
  | None => Some []
  end.

Definition retransmit_all_data (e : Encoder) : option (list (list byte)) :=
  out ← mapM (probe_block e) (sorted_keys (pending e)); Some (concat out).
