(* ===== verification/UdpReceive.v ===== *)
(** The receiver of the reliable datagram transport: [Decoder] of
    crates/subetha-cxc/src/reliable_udp.rs.

    Datagrams of a session are sorted into the blocks of a bounded window; a
    block is decoded when [k] of its shards are there, and blocks are delivered
    in order. Whole lost blocks are rebuilt from the tower's parity. A call that
    would panic has no result ([None]). The timing, loss-class and burst
    estimators, which only feed the readings of a feedback packet, are left
    out: those readings are an argument of [feedback]. *)
From Stdlib Require Import Strings.Byte.
From stdpp Require Import gmap sorting.
From S2P Require Import Prelude Gf256 GfKernels GfLinear Fec UdpSend.
#[local] Open Scope word_scope.

Record RxBlock := {
  bk : nat; br : nat; bshard_len : nat; mask : Z; retransmitted : Z; false_recovery : Z;
  shards : list (option (list byte)); decoded : bool }.

Definition rx_new (k r shard_len : nat) : RxBlock :=
  {| bk := k; br := r; bshard_len := shard_len; mask := 0; retransmitted := 0; false_recovery := 0;
     shards := replicate (k + r) None; decoded := false |}.

Definition rx_count (b : RxBlock) : nat := count_ones 32 (mask b).

(** [RejectCounts], with the ranges of ids seen and refused. *)
Record RejectCounts := {
  malformed : Z; rej_epoch : Z; shape : Z; rej_delivered : Z; rej_window : Z; block_shape : Z;
  delivered_lo : option Z; delivered_hi : option Z; seen_lo : option Z; seen_hi : option Z }.

Definition rejects_total (c : RejectCounts) : Z :=
  u64 (malformed c + rej_epoch c + shape c + rej_delivered c + rej_window c + block_shape c).

(** The loss accounting. *)
Record LossCounts := { total_expected : Z; total_missing : Z; peak_loss : Z; false_recoveries : Z }.

(** The tower's part of the state. *)
Record Tower := {
  rtower_d : nat; rtower_r_outer : nat; inner_k : nat; inner_shard_len : nat;
  data_infos : gmap Z (list byte); outer_rx : gmap Z RxBlock;
  seg_outer : gmap Z (gmap Z (list byte)); seg_d : gmap Z nat }.

Record Decoder := {
  session_epoch : option Z; unknown_epoch : option Z; window : gmap Z RxBlock;
  next_deliver : Z; highest_seen : Z; highest_decoded : Z;
  loss : LossCounts; rejects : RejectCounts; window_cap : Z; tower : Tower }.

Definition no_rejects : RejectCounts :=
  {| malformed := 0; rej_epoch := 0; shape := 0; rej_delivered := 0; rej_window := 0; block_shape := 0;
     delivered_lo := None; delivered_hi := None; seen_lo := None; seen_hi := None |}.

Definition with_window (cap : Z) : Decoder :=
  {| session_epoch := None; unknown_epoch := None; window := ∅; next_deliver := 0;
     highest_seen := 0; highest_decoded := 0;
     loss := {| total_expected := 0; total_missing := 0; peak_loss := 0; false_recoveries := 0 |};
     rejects := no_rejects; window_cap := Z.max cap 1;
     tower := {| rtower_d := 0; rtower_r_outer := 0; inner_k := 0; inner_shard_len := 0;
                 data_infos := ∅; outer_rx := ∅; seg_outer := ∅; seg_d := ∅ |} |}.

Definition dec_new : Decoder := with_window 256.

(** Updates of parts of the state. *)
Definition set_session (x : Decoder) (s u : option Z) : Decoder :=
  {| session_epoch := s; unknown_epoch := u; window := window x; next_deliver := next_deliver x;
     highest_seen := highest_seen x; highest_decoded := highest_decoded x; loss := loss x;
     rejects := rejects x; window_cap := window_cap x; tower := tower x |}.
Definition set_blocks (x : Decoder) (w : gmap Z RxBlock) : Decoder :=
  {| session_epoch := session_epoch x; unknown_epoch := unknown_epoch x; window := w;
     next_deliver := next_deliver x; highest_seen := highest_seen x; highest_decoded := highest_decoded x;
     loss := loss x; rejects := rejects x; window_cap := window_cap x; tower := tower x |}.
Definition set_frontier (x : Decoder) (nd hs hd : Z) : Decoder :=
  {| session_epoch := session_epoch x; unknown_epoch := unknown_epoch x; window := window x;
     next_deliver := nd; highest_seen := hs; highest_decoded := hd;
     loss := loss x; rejects := rejects x; window_cap := window_cap x; tower := tower x |}.
Definition set_loss (x : Decoder) (l : LossCounts) : Decoder :=
  {| session_epoch := session_epoch x; unknown_epoch := unknown_epoch x; window := window x;
     next_deliver := next_deliver x; highest_seen := highest_seen x; highest_decoded := highest_decoded x;
     loss := l; rejects := rejects x; window_cap := window_cap x; tower := tower x |}.
Definition set_rejects (x : Decoder) (c : RejectCounts) : Decoder :=
  {| session_epoch := session_epoch x; unknown_epoch := unknown_epoch x; window := window x;
     next_deliver := next_deliver x; highest_seen := highest_seen x; highest_decoded := highest_decoded x;
     loss := loss x; rejects := c; window_cap := window_cap x; tower := tower x |}.
Definition set_tower_state (x : Decoder) (t : Tower) : Decoder :=
  {| session_epoch := session_epoch x; unknown_epoch := unknown_epoch x; window := window x;
     next_deliver := next_deliver x; highest_seen := highest_seen x; highest_decoded := highest_decoded x;
     loss := loss x; rejects := rejects x; window_cap := window_cap x; tower := t |}.
Definition set_infos (t : Tower) (infos : gmap Z (list byte)) : Tower :=
  {| rtower_d := rtower_d t; rtower_r_outer := rtower_r_outer t; inner_k := inner_k t;
     inner_shard_len := inner_shard_len t; data_infos := infos; outer_rx := outer_rx t;
     seg_outer := seg_outer t; seg_d := seg_d t |}.

(** One more refusal of a kind. *)
Inductive refusal := Malformed | WrongEpoch | Shape | Delivered (id : Z) | Window | BlockShape.

Definition note_refusal (c : RejectCounts) (why : refusal) : RejectCounts :=
  {| malformed := match why with Malformed => u64 (malformed c + 1) | _ => malformed c end;
     rej_epoch := match why with WrongEpoch => u64 (rej_epoch c + 1) | _ => rej_epoch c end;
     shape := match why with Shape => u64 (shape c + 1) | _ => shape c end;
     rej_delivered := match why with Delivered _ => u64 (rej_delivered c + 1) | _ => rej_delivered c end;
     rej_window := match why with Window => u64 (rej_window c + 1) | _ => rej_window c end;
     block_shape := match why with BlockShape => u64 (block_shape c + 1) | _ => block_shape c end;
     delivered_lo := match why with Delivered id => Some (opt_min (delivered_lo c) id) | _ => delivered_lo c end;
     delivered_hi := match why with Delivered id => Some (opt_max (delivered_hi c) id) | _ => delivered_hi c end;
     seen_lo := seen_lo c; seen_hi := seen_hi c |}.

Definition note_seen (c : RejectCounts) (id : Z) : RejectCounts :=
  {| malformed := malformed c; rej_epoch := rej_epoch c; shape := shape c; rej_delivered := rej_delivered c;
     rej_window := rej_window c; block_shape := block_shape c; delivered_lo := delivered_lo c;
     delivered_hi := delivered_hi c; seen_lo := Some (opt_min (seen_lo c) id);
     seen_hi := Some (opt_max (seen_hi c) id) |}.

Definition refuse (x : Decoder) (why : refusal) : Decoder := set_rejects x (note_refusal (rejects x) why).

(** ** Sessions *)

Definition note_unknown_epoch (x : Decoder) (epoch : Z) : Decoder :=
  if bool_decide (session_epoch x = Some epoch) then x else set_session x (session_epoch x) (Some epoch).

Definition take_unknown_epoch (x : Decoder) : Decoder * option Z :=
  (set_session x (session_epoch x) None, unknown_epoch x).

Definition adopt_epoch (x : Decoder) (epoch : Z) : Decoder :=
  let x := set_blocks (set_frontier (set_session x (Some epoch) None) 0 0 0) ∅ in
  let t := tower x in
  set_tower_state x {| rtower_d := rtower_d t; rtower_r_outer := rtower_r_outer t; inner_k := inner_k t;
    inner_shard_len := inner_shard_len t; data_infos := ∅; outer_rx := ∅; seg_outer := ∅; seg_d := ∅ |}.

(** ** A shard joins its block *)

Definition shape_differs (b : RxBlock) (k r shard_len : nat) : bool :=
  negb (bshard_len b =? shard_len)%nat || negb (bk b =? k)%nat || negb (br b =? r)%nat.

Definition has_bit (m : Z) (idx : nat) : bool := negb (Z.land m (u32 (1 << Z.of_nat idx)) =? 0).
Definition with_bit (m : Z) (idx : nat) : Z := Z.lor m (u32 (1 << Z.of_nat idx)).

Definition put_shard (b : RxBlock) (idx : nat) (payload : list byte) : RxBlock :=
  {| bk := bk b; br := br b; bshard_len := bshard_len b; mask := with_bit (mask b) idx;
     retransmitted := retransmitted b; false_recovery := false_recovery b;
     shards := <[idx := Some payload]> (shards b); decoded := decoded b |}.

Definition set_marks (b : RxBlock) (rt fr : Z) : RxBlock :=
  {| bk := bk b; br := br b; bshard_len := bshard_len b; mask := mask b; retransmitted := rt;
     false_recovery := fr; shards := shards b; decoded := decoded b |}.

Definition store_shard (b : RxBlock) (idx : nat) (payload : list byte) (is_retransmit : bool) : RxBlock :=
  if negb (has_bit (mask b) idx) then
    let b := put_shard b idx payload in
    if is_retransmit then set_marks b (with_bit (retransmitted b) idx) (false_recovery b) else b
  else if negb is_retransmit && has_bit (retransmitted b) idx then
    set_marks b (retransmitted b) (with_bit (false_recovery b) idx)
  else b.

Definition set_decoded (b : RxBlock) (sh : list (option (list byte))) : RxBlock :=
  {| bk := bk b; br := br b; bshard_len := bshard_len b; mask := mask b; retransmitted := retransmitted b;
     false_recovery := false_recovery b; shards := sh; decoded := true |}.

(** The [k] data shards of a block, concatenated. *)
Definition info_of (b : RxBlock) : list byte := concat (omap id (take (bk b) (shards b))).

Section receiver.
Context (h : Host) (selected : Z) (reorder_guard : bool).

(** [RsCode::new(..).expect(..).decode(shards)]: the shards after it, and
    whether it succeeded. *)
Definition rs_recover (b : RxBlock) : option (list (option (list byte)) * bool) :=
  code ← ok_or_panic (rs_new (bk b) (br b));
  match (decode h selected code (shards b)).1 with
  | Ok sh => Some (sh, true)
  | Err _ => Some (shards b, false)
  | Panic => None
  end.

(** The block once [k] shards are there; [true] when this call decoded it. *)
Definition try_decode (b : RxBlock) : option (RxBlock * bool) :=
  if negb (decoded b) && (bk b <=? rx_count b)%nat then
    '(sh, recovered) ← (if (br b =? 0)%nat
      then Some (shards b, forallb (λ i, bool_decide (is_Some (nth i (shards b) None))) (seq 0 (bk b)))
      else rs_recover b);
    Some (if recovered : bool then (set_decoded b sh, true) else (b, false))
  else Some (b, false).

(** ** Tower recovery *)

Definition try_tower_recover (x : Decoder) (block_id : Z) : option (Decoder * bool) :=
  let t := tower x in
  let big_d := Z.of_nat (rtower_d t) in
  if (rtower_d t =? 0)%nat || (rtower_r_outer t =? 0)%nat || (inner_k t =? 0)%nat then Some (x, false)
  else
    let seg := block_id / big_d in
    let base := u32 (seg * big_d) in
    match seg_d t !! seg, seg_outer t !! seg with
    | Some d, Some outers =>
        let idx_in_seg := Z.to_nat (block_id - base) in
        if (d <=? idx_in_seg)%nat then Some (x, false)
        else
          let blocks := ((λ i, data_infos t !! u32 (base + Z.of_nat i)) <$> seq 0 d) ++
                        ((λ j, outers !! Z.of_nat j) <$> seq 0 (rtower_r_outer t)) in
          if (length (omap id blocks) <? d)%nat then Some (x, false)
          else
            match segment_new d (rtower_r_outer t) with
            | Ok code =>
                match (segment_decode h selected code blocks).1 with
                | Ok blocks =>
                    match nth idx_in_seg blocks None with
                    | Some info =>
                        let k := inner_k t in
                        let shard_len := Nat.max (inner_shard_len t) 1 in
                        if negb (length info =? k * shard_len)%nat then Some (x, false)
                        else
                          let rb := {| bk := k; br := 0; bshard_len := shard_len;
                            mask := u32 (Z.ones (Z.of_nat k)); retransmitted := 0; false_recovery := 0;
                            shards := (λ i, Some (take shard_len (drop (i * shard_len) info))) <$> seq 0 k;
                            decoded := true |} in
                          let x := set_tower_state x (set_infos t (<[block_id := info]> (data_infos t))) in
                          let x := set_frontier x (next_deliver x) (highest_seen x)
                                     (Z.max (highest_decoded x) block_id) in
                          Some (set_blocks x (<[block_id := rb]> (window x)), true)
                    | None => Some (x, false)
                    end
                | Err _ => Some (x, false)
                | Panic => None
                end
            | _ => Some (x, false)
            end
    | _, _ => Some (x, false)
    end.

(** ** Delivery *)

Definition data_mask (k : nat) : Z := if (32 <=? k)%nat then 2 ^ 32 - 1 else (1 << Z.of_nat k) - 1.

(** [total_missing * 255 / total_expected], capped. *)
Definition loss_estimate (l : LossCounts) : Z :=
  if total_expected l =? 0 then 0
  else Z.min (Z.min (total_missing l * 255) (2 ^ 64 - 1) / total_expected l) 255.

Definition account (l : LossCounts) (b : RxBlock) : LossCounts :=
  let dm := data_mask (bk b) in
  let data_present := Z.of_nat (count_ones 32 (Z.land (mask b) dm)) in
  let fec_recovered := Z.max 0 (Z.of_nat (bk b) - data_present) in
  let arq_recovered := Z.of_nat (count_ones 32
    (Z.land (if reorder_guard then Z.ldiff (retransmitted b) (false_recovery b) else retransmitted b) dm)) in
  let l := {| total_expected := u64 (u64 (total_expected l * 31) / 32 + Z.of_nat (bk b));
              total_missing := u64 (u64 (total_missing l * 31) / 32 + fec_recovered + arq_recovered);
              peak_loss := peak_loss l;
              false_recoveries := u64 (false_recoveries l
                + Z.of_nat (count_ones 32 (Z.land (false_recovery b) dm))) |} in
  {| total_expected := total_expected l; total_missing := total_missing l;
     peak_loss := Z.max (peak_loss l) (loss_estimate l); false_recoveries := false_recoveries l |}.

(** The item of a data shard, if it holds one: a length and that many bytes. *)
Definition shard_item (s : option (list byte)) : option (list (list byte)) :=
  shard ← s;
  if (length shard <? ITEM_LEN_PREFIX)%nat then None
  else
    let item_len := Z.to_nat (from_le (take 2 shard)) in
    Some (if (0 <? item_len)%nat
          then [take (Nat.min (ITEM_LEN_PREFIX + item_len) (length shard) - ITEM_LEN_PREFIX) (drop ITEM_LEN_PREFIX shard)]
          else []).

Definition block_items (b : RxBlock) : option (list (list byte)) :=
  items ← mapM (λ i, shard_item (nth i (shards b) None)) (seq 0 (bk b)); Some (concat items).

(** The loop of [drain_in_order]. A block delivered was in the window or is
    rebuilt by an iteration before, and a segment rebuilds at most 15. *)
Definition drain_fuel (x : Decoder) : nat := S (2 * (size (window x) + 15 * size (seg_outer (tower x)))).

Fixpoint drain_loop (fuel : nat) (x : Decoder) (out : list (list byte)) : option (Decoder * list (list byte)) :=
  match fuel with
  | O => None
  | S fuel =>
      let nd := next_deliver x in
      match window x !! nd with
      | Some b =>
          if decoded b then
            items ← block_items b;
            let x := set_loss (set_blocks x (delete nd (window x))) (account (loss x) b) in
            drain_loop fuel (set_frontier x (u32 (nd + 1)) (highest_seen x) (highest_decoded x)) (out ++ items)
          else Some (x, out)
      | None =>
          '(x, recovered) ← try_tower_recover x nd;
          if recovered : bool then drain_loop fuel x out else Some (x, out)
      end
  end.

Definition prune (x : Decoder) : Decoder :=
  let keep_from := Z.max 0 (next_deliver x - u32 (window_cap x)) in
  let t := set_infos (tower x) (filter (λ p, keep_from ≤ p.1) (data_infos (tower x))) in
  if (0 <? rtower_d t)%nat then
    let keep_seg := Z.max 0 (keep_from / Z.of_nat (rtower_d t) - 1) in
    set_tower_state x
      {| rtower_d := rtower_d t; rtower_r_outer := rtower_r_outer t; inner_k := inner_k t;
         inner_shard_len := inner_shard_len t; data_infos := data_infos t;
         outer_rx := filter (λ p, keep_seg ≤ Z.land (p.1 >> 8) 0xFFFF) (outer_rx t);
         seg_outer := filter (λ p, keep_seg ≤ p.1) (seg_outer t);
         seg_d := filter (λ p, keep_seg ≤ p.1) (seg_d t) |}
  else set_tower_state x t.

Definition drain_in_order (x : Decoder) : option (Decoder * list (list byte)) :=
  '(x, out) ← drain_loop (drain_fuel x) x []; Some (prune x, out).

(** ** Ingest *)

Definition handle_outer (x : Decoder) (oid : Z) (idx k r : nat) (payload : list byte) : option Decoder :=
  let d := Z.to_nat (Z.land (oid >> 27) 0xF) in
  let r_outer := Z.to_nat (Z.land (oid >> 24) 0x7) in
  let seg := Z.land (oid >> 8) 0xFFFF in
  let oidx := Z.land oid 0xFF in
  if (d =? 0)%nat || (r_outer =? 0)%nat then Some x
  else
    let t := tower x in
    let t' rx outer := {| rtower_d := Nat.max d (rtower_d t); rtower_r_outer := r_outer;
      inner_k := inner_k t; inner_shard_len := inner_shard_len t; data_infos := data_infos t;
      outer_rx := rx; seg_outer := outer; seg_d := <[seg := d]> (seg_d t) |} in
    let b := default (rx_new k r (length payload)) (outer_rx t !! oid) in
    if shape_differs b k r (length payload)
    then Some (set_tower_state x (t' (<[oid := b]> (outer_rx t)) (seg_outer t)))
    else
      let b := if has_bit (mask b) idx then b else put_shard b idx payload in
      if negb (decoded b) && (bk b <=? rx_count b)%nat then
        '(sh, ok) ← rs_recover b;
        if ok : bool then
          let info := info_of (set_decoded b sh) in
          let outers := default ∅ (seg_outer t !! seg) in
          Some (set_tower_state x (t' (delete oid (outer_rx t)) (<[seg := <[oidx := info]> outers]> (seg_outer t))))
        else Some (set_tower_state x (t' (<[oid := b]> (outer_rx t)) (seg_outer t)))
      else Some (set_tower_state x (t' (<[oid := b]> (outer_rx t)) (seg_outer t))).

(** A data shard that passed the gates of the session and of its shape. *)
Definition ingest_shard (x : Decoder) (block_id : Z) (idx k r : nat) (is_retransmit : bool) (payload : list byte)
    : option (Decoder * list (list byte)) :=
  let t := tower x in
  let x := if (inner_k t =? 0)%nat
           then set_tower_state x {| rtower_d := rtower_d t; rtower_r_outer := rtower_r_outer t;
                  inner_k := k; inner_shard_len := length payload; data_infos := data_infos t;
                  outer_rx := outer_rx t; seg_outer := seg_outer t; seg_d := seg_d t |}
           else x in
  if block_id <? next_deliver x then Some (refuse x (Delivered block_id), [])
  else if Z.min (next_deliver x + u32 (window_cap x)) (2 ^ 32 - 1) <=? block_id then Some (refuse x Window, [])
  else
    let x := set_frontier x (next_deliver x) (Z.max (highest_seen x) block_id) (highest_decoded x) in
    let b := default (rx_new k r (length payload)) (window x !! block_id) in
    if shape_differs b k r (length payload)
    then drain_in_order (refuse (set_blocks x (<[block_id := b]> (window x))) BlockShape)
    else
      '(b, newly) ← try_decode (store_shard b idx payload is_retransmit);
      let x := set_blocks x (<[block_id := b]> (window x)) in
      drain_in_order
        (if newly : bool then
           let x := set_tower_state x (set_infos (tower x) (<[block_id := info_of b]> (data_infos (tower x)))) in
           set_frontier x (next_deliver x) (highest_seen x) (Z.max (highest_decoded x) block_id)
         else x).

Definition ingest (x : Decoder) (buf : list byte) : option (Decoder * list (list byte)) :=
  if negb (is_data buf) || (length buf <? DATA_HEADER)%nat then Some (refuse x Malformed, [])
  else
    let block_id := from_le (take 4 (drop 1 buf)) in
    let idx := byte_nat (at_ buf 5) in
    let k := byte_nat (at_ buf 6) in
    let r := byte_nat (at_ buf 7) in
    let is_retransmit := negb (Z.land (bZ (at_ buf 8)) FLAG_RETRANSMIT =? 0) in
    let x := set_rejects x (note_seen (rejects x) block_id) in
    let epoch := from_le (take 4 (drop EPOCH_OFFSET buf)) in
    if negb (bool_decide (session_epoch x = None ∨ session_epoch x = Some epoch))
    then Some (refuse (set_session x (session_epoch x) (Some epoch)) WrongEpoch, [])
    else
      let x := set_session x (Some epoch) (unknown_epoch x) in
      let payload := drop DATA_HEADER buf in
      if (k =? 0)%nat || (MAX_SHARDS <? k + r)%nat || (k + r <=? idx)%nat then Some (refuse x Shape, [])
      else if negb (Z.land block_id OUTER_ID_BIT =? 0) then
        x ← handle_outer x block_id idx k r payload; drain_in_order x
      else ingest_shard x block_id idx k r is_retransmit payload.

Definition on_packet (x : Decoder) (buf : list byte) : option (Decoder * list (list byte)) := ingest x buf.

Definition skip_head (x : Decoder) : option (Decoder * list (list byte)) :=
  let nd := next_deliver x in
  let x := set_blocks x (delete nd (window x)) in
  let x := set_tower_state x (set_infos (tower x) (delete nd (data_infos (tower x)))) in
  drain_in_order (set_frontier x (u32 (nd + 1)) (highest_seen x) (highest_decoded x)).
End receiver.

(** ** Feedback *)

Definition missing_mask (b : RxBlock) : Z :=
  let full := if (32 <=? bk b + br b)%nat then 2 ^ 32 - 1 else (1 << Z.of_nat (bk b + br b)) - 1 in
  Z.ldiff full (mask b).

(** What the estimators read at the moment: burstiness, delay trend, loss class. *)
Record Readings := { burstiness : Z; trend_class : Z; class_code : Z }.

Definition feedback (x : Decoder) (drive_arq : bool) (m : Readings) : Feedback :=
  let ack := next_deliver x in
  let '(nak, nmask) :=
    if drive_arq || (ack <? highest_seen x) then
      match window x !! ack with
      | Some b => if decoded b then (NAK_NONE, 0) else (ack, missing_mask b)
      | None => (ack, 2 ^ 32 - 1)
      end
    else (NAK_NONE, 0) in
  {| ack_through := ack; nak_block := nak; nak_mask := nmask; loss_x255 := loss_estimate (loss x);
     burstiness_x255 := burstiness m; owd_trend_class := trend_class m; loss_class := class_code m |}.

Definition push_gap (x : Decoder) (id : Z) (gaps : list (Z * Z)) : list (Z * Z) :=
  match window x !! id with
  | Some b => if decoded b then gaps else gaps ++ [(id, missing_mask b)]
  | None => gaps ++ [(id, 2 ^ 32 - 1)]
  end.

(** [while id <= highest_decoded && gaps.len() < max]; ids step by one. *)
Fixpoint gap_loop (fuel : nat) (x : Decoder) (max : nat) (id : Z) (gaps : list (Z * Z)) : list (Z * Z) :=
  match fuel with
  | O => gaps
  | S fuel =>
      if (id <=? highest_decoded x) && (length gaps <? max)%nat
      then gap_loop fuel x max (Z.min (id + 1) (2 ^ 32 - 1)) (push_gap x id gaps) else gaps
  end.

Definition missing_blocks (x : Decoder) (max : nat) (drive_tail : bool) : list (Z * Z) :=
  let nd := next_deliver x in
  let gaps := gap_loop (Z.to_nat (highest_decoded x + 1 - nd)) x max nd [] in
  if drive_tail && (length gaps <? max)%nat then push_gap x (Z.max nd (highest_seen x)) gaps else gaps.

Definition head_status (x : Decoder) : option (Z * nat * nat * bool) :=
  (λ b, (next_deliver x, rx_count b, bk b, decoded b)) <$> window x !! next_deliver x.
