(* ===== verification/UdpLink.v ===== *)
(** The reliable datagram transport end to end: the encoder and the decoder of
    crates/subetha-cxc/src/reliable_udp.rs joined by a link that loses, repeats
    and reorders datagrams.

    [link_do] performs one operation of either end; a datagram received is any
    that was ever sent. The invariant keeps, as a ghost, the history of sealed
    blocks: what is on the wire and in either end's maps is part of it. *)
From Stdlib Require Import Strings.Byte.
From stdpp Require Import gmap sorting.
From S2P Require Import Prelude Gf256 GfKernels GfLinear Fec UdpSend UdpReceive.
#[local] Open Scope word_scope.

(** A traversal that succeeds everywhere. *)
Lemma mapM_all {A B} (f : A → option B) (P : A → B → Prop) (l : list A) :
  (∀ x, x ∈ l → ∃ y, f x = Some y ∧ P x y) → ∃ k, mapM f l = Some k ∧ Forall2 P l k.
Proof.
  induction l as [|x l IH]; intros H; [by exists []; eauto|].
  destruct (H x) as (y & E & Hp); [set_solver|]. destruct IH as (ys & Es & Hps); [set_solver|].
  exists (y :: ys). cbn. rewrite E. cbn. rewrite Es. cbn. split; [done|by constructor].
Qed.

(** * Words on the wire *)

Lemma length_le_bytes n x : length (le_bytes n x) = n.
Proof. revert x. induction n as [|n IH]; intros x; [done|]. cbn [le_bytes length]. by rewrite IH. Qed.

Lemma from_le_bytes n x : from_le (le_bytes n x) = x mod 2 ^ (8 * Z.of_nat n).
Proof.
  revert x. induction n as [|n IH]; intros x; cbn [le_bytes from_le].
  - by rewrite Z.mod_1_r.
  - rewrite IH, bZ_Zb, Z.shiftr_div_pow2 by lia. change (2 ^ 8) with 256.
    replace (8 * Z.of_nat (S n)) with (8 + 8 * Z.of_nat n) by lia.
    rewrite Z.pow_add_r by lia. change (2 ^ 8) with 256. symmetry. apply Z.rem_mul_r; lia.
Qed.

Lemma byte_nat_as_u8 n : (n < 256)%nat → byte_nat (as_u8 n) = n.
Proof. intros Hn. unfold byte_nat, as_u8. rewrite bZ_Zb, Z.mod_small by lia. lia. Qed.

(** The fields of a datagram as the receiver reads them. *)
Lemma datagram_fields pb id idx flags epoch dg :
  datagram_flagged pb id idx flags epoch = Some dg →
  0 ≤ id < 2 ^ 32 → 0 ≤ epoch < 2 ^ 32 → (idx < 256)%nat →
  pshards pb !! idx = Some (drop DATA_HEADER dg) ∧ is_data dg = true ∧ (DATA_HEADER ≤ length dg)%nat ∧
  from_le (take 4 (drop 1 dg)) = id ∧ byte_nat (at_ dg 5) = idx ∧ at_ dg 6 = pk pb ∧ at_ dg 7 = pr pb ∧
  from_le (take 4 (drop EPOCH_OFFSET dg)) = epoch.
Proof.
  unfold datagram_flagged. intros H Hid Hep Hidx.
  destruct (pshards pb !! idx) as [shard|] eqn:Es; [|done]. cbn [mbind option_bind] in H.
  injection H as <-. pose proof (from_le_bytes 4 id) as E1. pose proof (from_le_bytes 4 epoch) as E2.
  rewrite Z.mod_small in E1, E2 by done. pose proof (byte_nat_as_u8 idx Hidx) as E3.
  cbn [le_bytes app take drop at_ nth DATA_HEADER EPOCH_OFFSET length is_data] in *.
  split_and!; [done|done|unfold DATA_HEADER; lia|done..].
Qed.

(** * Received blocks *)

Lemma popcount_filter n x :
  count_ones n x = length (List.filter (λ i, Z.testbit x (Z.of_nat i)) (seq 0 n)).
Proof.
  revert x. induction n as [|n IH]; intros x; [done|]. cbn [count_ones seq List.filter].
  assert (length (List.filter (λ i, Z.testbit x (Z.of_nat i)) (seq 1 n)) = count_ones n (Z.div2 x)) as E.
  { rewrite IH, <- seq_shift, List.filter_map_swap, length_map.
    erewrite List.filter_ext; [done|]. intros i. cbv beta.
    by rewrite Nat2Z.inj_succ, Z.div2_spec, Z.shiftr_spec by lia. }
  change (Z.testbit x (Z.of_nat 0)) with (Z.odd x). rewrite <- E. by destruct (Z.odd x).
Qed.

(** A block's bitmap says which shards it holds. *)
Definition bitmap (m : Z) (sh : list (option (list byte))) : Prop :=
  0 ≤ m < 2 ^ 32 ∧ ∀ i, Z.testbit m (Z.of_nat i) = bool_decide (is_Some (nth i sh None)).

Lemma bitmap_count m sh : (length sh ≤ 32)%nat → bitmap m sh → count_ones 32 m = received sh.
Proof.
  intros Hl [_ Hb]. rewrite popcount_filter. unfold received.
  apply Permutation_length, NoDup_Permutation.
  - apply NoDup_ListNoDup, List.NoDup_filter, NoDup_ListNoDup, NoDup_seq.
  - apply NoDup_positions.
  - intros i. rewrite list_elem_of_In, filter_In, <- list_elem_of_In, elem_of_seq, elem_of_positions.
    rewrite Nat.sub_0_r, Hb, bool_decide_eq_true. split; [by intros [_ ?]; split; [lia|]|].
    intros [_ Hs]. split; [|done]. split; [lia|]. destruct (decide (i < length sh)%nat); [lia|].
    rewrite nth_overflow in Hs by lia. by destruct Hs.
Qed.

Lemma bit_word idx : (idx < 32)%nat → u32 (1 << Z.of_nat idx) = 2 ^ Z.of_nat idx.
Proof.
  intros Hi. rewrite Z.shiftl_mul_pow2, Z.mul_1_l by lia. apply wrap_small. split; [lia|].
  apply Z.pow_lt_mono_r; lia.
Qed.

Lemma has_bit_test m idx : (idx < 32)%nat → has_bit m idx = Z.testbit m (Z.of_nat idx).
Proof.
  intros Hi. unfold has_bit. rewrite bit_word by done. destruct (Z.testbit m (Z.of_nat idx)) eqn:E.
  - destruct (Z.eqb_spec (Z.land m (2 ^ Z.of_nat idx)) 0) as [H0|]; [|done].
    apply (f_equal (λ z, Z.testbit z (Z.of_nat idx))) in H0.
    rewrite Z.land_spec, E, Z.pow2_bits_true, Z.bits_0 in H0 by lia. done.
  - destruct (Z.eqb_spec (Z.land m (2 ^ Z.of_nat idx)) 0) as [|H0]; [done|]. destruct H0.
    apply Z.bits_inj'. intros n Hn. rewrite Z.land_spec, Z.bits_0.
    destruct (decide (n = Z.of_nat idx)) as [->|]; [by rewrite E|].
    by rewrite Z.pow2_bits_false, andb_false_r by lia.
Qed.

Lemma test_with_bit m idx n :
  (idx < 32)%nat → 0 ≤ n → Z.testbit (with_bit m idx) n = Z.testbit m n || (n =? Z.of_nat idx).
Proof.
  intros Hi Hn. unfold with_bit. rewrite bit_word, Z.lor_spec by done. f_equal.
  rewrite Z.pow2_bits_eqb by lia. apply Z.eqb_sym.
Qed.

Lemma with_bit_bound m idx : (idx < 32)%nat → 0 ≤ m < 2 ^ 32 → 0 ≤ with_bit m idx < 2 ^ 32.
Proof.
  intros Hi Hm. unfold with_bit. rewrite bit_word by done.
  assert (0 ≤ 2 ^ Z.of_nat idx < 2 ^ 32) as Hp by (split; [lia|apply Z.pow_lt_mono_r; lia]).
  split; [apply Z.lor_nonneg; lia|]. destruct (decide (m = 0)) as [->|]; [rewrite Z.lor_0_l; apply Hp|].
  apply Z.log2_lt_pow2; [|].
  - assert (0 ≤ Z.lor m (2 ^ Z.of_nat idx)) as Hge by (apply Z.lor_nonneg; lia).
    enough (Z.lor m (2 ^ Z.of_nat idx) ≠ 0) by lia. intros E%Z.lor_eq_0_iff. lia.
  - rewrite Z.log2_lor by lia. apply Z.max_lub_lt.
    + apply Z.log2_lt_pow2; lia.
    + rewrite Z.log2_pow2; lia.
Qed.

Lemma bitmap_insert m sh idx v :
  (idx < length sh)%nat → (length sh ≤ 32)%nat → bitmap m sh → bitmap (with_bit m idx) (<[idx := Some v]> sh).
Proof.
  intros Hi Hl [Hm Hb]. split; [apply with_bit_bound; [lia|done]|]. intros i.
  rewrite test_with_bit, Hb by lia. rewrite !nth_lookup. destruct (decide (i = idx)) as [->|Hne].
  - rewrite list_lookup_insert_eq, Z.eqb_refl, orb_true_r by done. done.
  - rewrite list_lookup_insert_ne by done. rewrite (proj2 (Z.eqb_neq _ _)) by lia. apply orb_false_r.
Qed.

(** * Blocks *)

(** A sealed block: its items, its parity and its shard length. *)
Record block := { b_items : list (list byte); b_r : nat; b_len : nat }.

Definition stage (item : list byte) : list byte := le_bytes 2 (Z.of_nat (length item)) ++ item.

Section blocks.
Context (k : nat).

Definition b_data (b : block) : list (list byte) := fill k (b_len b) (resize (b_len b) ∘ stage <$> b_items b).
Definition b_all (b : block) : list (list byte) :=
  b_data b ++ (parity_shard k (b_len b) (b_data b) <$> seq 0 (b_r b)).
Definition b_pending (b : block) : PendingBlock :=
  {| pk := as_u8 k; pr := as_u8 (b_r b); pshard_len := b_len b; pshards := b_all b |}.

Record block_ok (b : block) : Prop := {
  ok_items : (length (b_items b) ≤ k)%nat;
  ok_shards : (k + b_r b ≤ MAX_SHARDS)%nat;
  ok_prefix : (ITEM_LEN_PREFIX ≤ b_len b)%nat;
  ok_lens : Forall (λ i, Z.of_nat (length i) < 2 ^ 16 ∧ (ITEM_LEN_PREFIX + length i ≤ b_len b)%nat) (b_items b) }.

Lemma length_resize n v : length (resize n v) = n.
Proof. unfold resize. rewrite length_app, length_take, length_replicate. lia. Qed.

Lemma length_b_data b : block_ok b → length (b_data b) = k.
Proof.
  intros Hb. pose proof (ok_items _ Hb). unfold b_data, fill.
  rewrite length_app, length_replicate, length_fmap. lia.
Qed.

Lemma b_data_lens b : Forall (λ s, length s = b_len b) (b_data b).
Proof.
  unfold b_data, fill. apply Forall_app. split.
  - apply Forall_fmap, Forall_true. intros i. apply length_resize.
  - apply Forall_replicate, length_replicate.
Qed.

Lemma length_b_all b : block_ok b → length (b_all b) = (k + b_r b)%nat.
Proof. intros Hb. unfold b_all. by rewrite length_app, length_b_data, length_fmap, length_seq. Qed.

Lemma b_all_lens b : Forall (λ s, length s = b_len b) (b_all b).
Proof.
  apply Forall_app. split; [apply b_data_lens|]. apply Forall_fmap, Forall_true. intros j. apply length_combine.
Qed.

(** What a shard says of its item. *)
Lemma shard_item_stage n item :
  Z.of_nat (length item) < 2 ^ 16 → (ITEM_LEN_PREFIX + length item ≤ n)%nat →
  shard_item (Some (resize n (stage item))) = Some (if decide (item = []) then [] else [item]).
Proof.
  intros Hl Hn. unfold shard_item. cbn [mbind option_bind]. rewrite length_resize.
  unfold ITEM_LEN_PREFIX in *. rewrite (proj2 (Nat.ltb_ge n 2)) by lia.
  unfold resize, stage. pose proof (length_le_bytes 2 (Z.of_nat (length item))) as L2.
  rewrite (take_ge _ n) by (rewrite length_app; lia).
  rewrite <- (assoc_L (++)), (take_app_le _ _ 2), (take_ge _ 2) by lia. rewrite from_le_bytes, Z.mod_small by lia.
  rewrite Nat2Z.id. f_equal. destruct item as [|x item]; [done|]. rewrite (proj2 (Nat.ltb_lt _ _)) by (cbn; lia).
  rewrite decide_False by done. f_equal. rewrite drop_app_ge, L2, Nat.sub_diag, drop_0 by lia.
  rewrite Nat.min_l by lia. rewrite take_app_le, take_ge by (cbn [length] in *; lia). done.
Qed.

Lemma shard_item_zero n : (ITEM_LEN_PREFIX ≤ n)%nat → shard_item (Some (replicate n x00)) = Some [].
Proof. destruct n as [|[|n] ]; unfold ITEM_LEN_PREFIX; try lia. intros _. done. Qed.

Definition nonempty (items : list (list byte)) : list (list byte) := filter (λ i, i ≠ []) items.

Lemma nonempty_concat items : concat ((λ i, if decide (i = []) then [] else [i]) <$> items) = nonempty items.
Proof.
  induction items as [|i items IH]; [done|]. cbn [fmap list_fmap concat]. rewrite IH. unfold nonempty.
  rewrite filter_cons. repeat case_decide; naive_solver.
Qed.

Lemma concat_nils {A} n : concat (replicate n ([] : list A)) = [].
Proof. by induction n. Qed.

(** Delivering a block whose data shards are all there gives its items. *)
Lemma block_items_data b rb :
  block_ok b → bk rb = k → (∀ i, (i < k)%nat → shards rb !! i = Some (b_all b !! i)) →
  block_items rb = Some (nonempty (b_items b)).
Proof.
  intros Hb Hk Hs. unfold block_items. rewrite Hk.
  pose (g := λ i, match b_items b !! i with Some it => if decide (it = []) then [] else [it] | None => [] end).
  rewrite (mapM_Some _ g).
  - cbn [mbind option_bind]. f_equal. rewrite <- nonempty_concat. pose proof (ok_items _ Hb) as Hl.
    replace k with (length (b_items b) + (k - length (b_items b)))%nat by lia. rewrite seq_app, fmap_app, concat_app.
    etransitivity; [|apply app_nil_r]. f_equal.
    + f_equal. apply list_eq. intros i. rewrite !list_lookup_fmap.
      destruct (decide (i < length (b_items b))%nat) as [Hi|].
      * rewrite lookup_seq_lt by done. destruct (lookup_lt_is_Some_2 _ _ Hi) as [it Hit].
        cbn [fmap option_fmap option_map]. unfold g. cbn [Nat.add]. by rewrite Hit.
      * rewrite lookup_seq_ge, (lookup_ge_None_2 (b_items b)) by lia. done.
    + rewrite <- (concat_nils (k - length (b_items b))). f_equal. apply list_eq. intros i.
      rewrite list_lookup_fmap. destruct (decide (i < k - length (b_items b))%nat) as [Hi|].
      * rewrite lookup_seq_lt, lookup_replicate_2 by done. cbn. unfold g.
        rewrite lookup_ge_None_2 by lia. done.
      * rewrite lookup_seq_ge by lia. symmetry. apply lookup_replicate_None. lia.
  - intros i Hi%elem_of_seq. rewrite nth_lookup, Hs by lia. cbn [default from_option].
    change (default None (Some (b_all b !! i))) with (b_all b !! i).
    unfold b_all, b_data, fill. pose proof (ok_items _ Hb) as Hl.
    rewrite lookup_app_l by (rewrite length_app, length_fmap, length_replicate; lia). unfold g.
    destruct (b_items b !! i) as [it|] eqn:Ei.
    + rewrite lookup_app_l by (rewrite length_fmap; by eapply lookup_lt_Some). rewrite list_lookup_fmap, Ei.
      destruct (Forall_lookup_1 _ _ _ _ (ok_lens _ Hb) Ei). by apply shard_item_stage.
    + apply lookup_ge_None in Ei. rewrite lookup_app_r by (rewrite length_fmap; lia).
      rewrite lookup_replicate_2 by (rewrite length_fmap; lia). apply shard_item_zero, (ok_prefix _ Hb).
Qed.

(** ** Blocks being received *)

(** Shards the receiver holds are those of the block; undecoded, the bitmap
    counts them and they are fewer than [k]; decoded, all data is there. *)
Record rx_part (b : block) (rb : RxBlock) : Prop := {
  rx_k : bk rb = k; rx_r : br rb = b_r b; rx_len : bshard_len rb = b_len b;
  rx_shards : erased (b_all b) (shards rb);
  rx_wait : decoded rb = false → bitmap (mask rb) (shards rb);
  rx_done : decoded rb = true → ∀ i, (i < k)%nat → shards rb !! i = Some (b_all b !! i) }.

Definition rx_ok (b : block) (rb : RxBlock) : Prop :=
  rx_part b rb ∧ (decoded rb = false → (received (shards rb) < k)%nat).

Lemma rx_new_part b : block_ok b → rx_part b (rx_new k (b_r b) (b_len b)).
Proof.
  intros Hb. split; try done.
  - cbn [shards rx_new]. apply Forall2_same_length_lookup_2; [by rewrite length_replicate, length_b_all|].
    intros i v s _ Hs. apply lookup_replicate in Hs as [-> _]. by left.
  - intros _. split; [done|]. intros i. cbn [mask shards rx_new]. rewrite Z.bits_0, nth_lookup.
    destruct (replicate (k + b_r b) None !! i) as [s|] eqn:E; [|done]. apply lookup_replicate in E as [-> _]. done.
Qed.

Lemma erased_insert l sh i v : erased l sh → l !! i = Some v → erased l (<[i := Some v]> sh).
Proof.
  intros He Hi. rewrite <- (list_insert_id l i v Hi). apply Forall2_insert; [done|by right].
Qed.

Lemma erased_length l sh : erased l sh → length sh = length l.
Proof. intros He. symmetry. by eapply Forall2_length. Qed.

Lemma put_shard_part b rb idx v :
  block_ok b → rx_part b rb → b_all b !! idx = Some v → rx_part b (put_shard rb idx v).
Proof.
  intros Hb [H1 H2 H3 H4 H5 H6] Hv. pose proof (erased_length _ _ H4) as Hl. pose proof (lookup_lt_Some _ _ _ Hv).
  rewrite length_b_all in * by done. pose proof (ok_shards _ Hb). unfold MAX_SHARDS in *.
  split; cbn [put_shard bk br bshard_len shards mask decoded]; try done.
  - by apply erased_insert.
  - intros Hd. apply bitmap_insert; [lia..|auto].
  - intros Hd i Hi. destruct (decide (i = idx)) as [->|].
    + rewrite list_lookup_insert_eq by lia. by rewrite Hv.
    + rewrite list_lookup_insert_ne by done. auto.
Qed.

Lemma set_marks_part b rb rt fr : rx_part b rb → rx_part b (set_marks rb rt fr).
Proof. intros [H1 H2 H3 H4 H5 H6]. by split. Qed.

Lemma store_shard_part b rb idx v is_rt :
  block_ok b → rx_part b rb → b_all b !! idx = Some v →
  let rb' := store_shard rb idx v is_rt in
  rx_part b rb' ∧ decoded rb' = decoded rb ∧ (∀ n, 0 ≤ n → Z.testbit (mask rb) n = true → Z.testbit (mask rb') n = true) ∧
  Z.testbit (mask rb') (Z.of_nat idx) = true.
Proof.
  intros Hb Hr Hv. pose proof (lookup_lt_Some _ _ _ Hv) as Hi. rewrite length_b_all in Hi by done.
  pose proof (ok_shards _ Hb). unfold MAX_SHARDS in *. cbv zeta. unfold store_shard.
  rewrite has_bit_test by lia. destruct (Z.testbit (mask rb) (Z.of_nat idx)) eqn:E; cbn [negb].
  - destruct (negb is_rt && _); [|done]. split; [by apply set_marks_part|done].
  - assert (rx_part b (put_shard rb idx v)) as Hp by by apply put_shard_part.
    assert (∀ n, 0 ≤ n → Z.testbit (mask (put_shard rb idx v)) n = Z.testbit (mask rb) n || (n =? Z.of_nat idx)) as Hm.
    { intros n Hn. cbn [put_shard mask]. apply test_with_bit; lia. }
    destruct is_rt; (split; [by try apply set_marks_part|]); cbn [set_marks mask decoded];
      (split; [done|]); rewrite Hm, Z.eqb_refl, orb_true_r by lia; (split; [|done]);
      intros n Hn Ht; by rewrite Hm, Ht.
Qed.

(** With all of a pass-through block's shards counted, each is there. *)
Lemma received_all sh :
  (length sh ≤ received sh)%nat → ∀ i, (i < length sh)%nat → is_Some (nth i sh None).
Proof.
  intros Hr i Hi. assert (positions 0 sh ≡ₚ seq 0 (length sh)) as Hp.
  { apply submseteq_length_Permutation; [|rewrite length_seq; done].
    apply NoDup_submseteq; [apply NoDup_positions|]. intros p [_ Hp]%elem_of_positions.
    rewrite Nat.sub_0_r in Hp. apply elem_of_seq. destruct (decide (p < length sh)%nat); [lia|].
    rewrite nth_overflow in Hp by lia. by destruct Hp. }
  assert (i ∈ positions 0 sh) as [_ Hs]%elem_of_positions.
  { rewrite Hp. apply elem_of_seq. lia. }
  by rewrite Nat.sub_0_r in Hs.
Qed.

Lemma erased_some l sh i : erased l sh → is_Some (nth i sh None) → sh !! i = Some (l !! i).
Proof.
  intros He [v Hv]. rewrite nth_lookup in Hv. destruct (sh !! i) as [s|] eqn:E; [|done]. cbn in Hv. subst s.
  destruct (Forall2_lookup_r _ _ _ _ _ He E) as (w & Hw & [?|[= ->] ]); [done|]. by rewrite Hw.
Qed.

Context (h : Host) (selected : Z).

(** A counted-out block decodes, and a decoded one is left alone. *)
Lemma try_decode_ok b rb :
  (0 < k)%nat → cache_ok h selected → block_ok b → rx_part b rb →
  ∃ rb' newly, try_decode h selected rb = Some (rb', newly) ∧ rx_ok b rb' ∧ mask rb' = mask rb ∧
    (decoded rb = true → rb' = rb).
Proof.
  intros Hk Hc Hb Hr. destruct (Hr) as [H1 H2 H3 H4 H5 H6]. pose proof (erased_length _ _ H4) as Hl.
  rewrite length_b_all in Hl by done. pose proof (ok_shards _ Hb) as Hm. unfold MAX_SHARDS in Hm.
  unfold try_decode, rx_count. destruct (decoded rb) eqn:Ed; cbn [negb andb].
  { exists rb, false. split_and!; [done|split; [done|congruence]|done..]. }
  specialize (H5 eq_refl). rewrite H1, (bitmap_count _ (shards rb)) by (done || lia).
  destruct (Nat.leb_spec k (received (shards rb))) as [Hge|Hlt].
  2: { exists rb, false. split_and!; [done|split; done|done..]. }
  rewrite H2. destruct (Nat.eqb_spec (b_r b) 0) as [E0|Hn0].
  - assert (∀ i, (i < k)%nat → is_Some (nth i (shards rb) None)) as Hall.
    { intros i Hi. apply received_all; lia. }
    assert (forallb (λ i, bool_decide (is_Some (nth i (shards rb) None))) (seq 0 k) = true) as ->.
    { apply forallb_forall. intros i Hi%in_seq. apply bool_decide_eq_true, Hall. lia. }
    cbn [mbind option_bind]. eexists _, _. split; [done|]. split; [|done]. split; [|done].
    split; cbn [set_decoded bk br bshard_len shards decoded]; try done.
    intros _ i Hi. eapply erased_some; [done|]. by apply Hall.
  - unfold rs_recover. rewrite H1, H2.
    destruct (rs_new k (b_r b)) as [cd|e|] eqn:En.
    2, 3: exfalso; revert En; unfold rs_new; rewrite (proj2 (Nat.eqb_neq k 0)), (proj2 (Nat.eqb_neq (b_r b) 0)),
      (proj2 (Nat.ltb_ge _ _)) by lia; done.
    cbn [ok_or_panic mbind option_bind]. destruct (rs_new_built _ _ _ En) as (Hbt & Ek & Er).
    assert (backend_ok h cd) as Hbk.
    { revert En. unfold rs_new. destruct (_ || _); [done|]. by intros [= <-]. }
    assert (erased (sent cd (b_data b) (b_len b)) (shards rb)) as He.
    { unfold sent. by rewrite Ek, Er. }
    pose proof (rs_decode_spec h selected cd (b_data b) (b_len b) (shards rb) Hbt Hbk Hc) as Hdec.
    rewrite Ek in Hdec. rewrite decide_True in Hdec by done.
    destruct Hdec as (sh & sel & -> & _ & Hsh); [by apply length_b_data|apply b_data_lens| |done|].
    { pose proof (ok_prefix _ Hb). unfold ITEM_LEN_PREFIX in *. lia. }
    cbn [fst mbind option_bind]. eexists _, _. split; [done|]. split; [|done]. split; [|done].
    assert (∀ i, (i < k)%nat → sh !! i = Some (b_all b !! i)) as Hd.
    { intros i Hi. rewrite Hsh, decide_True by done. unfold b_all. rewrite lookup_app_l by (rewrite length_b_data; done).
      destruct (lookup_lt_is_Some_2 (b_data b) i ltac:(rewrite length_b_data; done)) as [v Hv].
      by rewrite Hv, (nth_lookup_Some _ _ _ _ Hv). }
    split; cbn [set_decoded bk br bshard_len shards decoded]; try done.
    apply Forall2_lookup. intros i. destruct (decide (i < k)%nat) as [Hi|Hi].
    + rewrite Hd by done. destruct (lookup_lt_is_Some_2 (b_all b) i) as [v ->]; [rewrite length_b_all by done; lia|].
      constructor. by right.
    + rewrite Hsh, decide_False by done. by apply Forall2_lookup.
Qed.
End blocks.

(** * The receiver *)

Section receiving.
Context (h : Host) (selected : Z) (guard : bool) (k : nat) (ep : Z).
Hypothesis Hc : cache_ok h selected.
Hypothesis Hk : (0 < k ≤ MAX_SHARDS)%nat.
Implicit Types (hist : list block) (x : Decoder).

Record hist_ok hist : Prop := {
  ho_blocks : Forall (block_ok k) hist;
  ho_len : Z.of_nat (length hist) < 2 ^ 31 }.

(** The items of the first [n] blocks. *)
Definition items_upto hist (n : Z) : list (list byte) :=
  concat (nonempty ∘ b_items <$> take (Z.to_nat n) hist).

Record dec_inv hist x : Prop := {
  di_session : session_epoch x = None ∨ session_epoch x = Some ep;
  di_next : 0 ≤ next_deliver x ≤ Z.of_nat (length hist);
  di_window : ∀ id rb, window x !! id = Some rb →
    next_deliver x ≤ id ∧ ∃ b, hist !! Z.to_nat id = Some b ∧ rx_ok k b rb;
  di_tower : rtower_d (tower x) = 0%nat }.

(** Nothing deliverable is left undelivered. *)
Definition waits x : Prop := ∀ rb, window x !! next_deliver x = Some rb → decoded rb = false.

Lemma dec_inv_same hist x x' :
  session_epoch x' = session_epoch x → next_deliver x' = next_deliver x → window x' = window x →
  rtower_d (tower x') = rtower_d (tower x) → dec_inv hist x → dec_inv hist x'.
Proof using. intros E1 E2 E3 E4 [H1 H2 H3 H4]. split; by rewrite ?E1, ?E2, ?E3, ?E4. Qed.

Lemma items_upto_succ hist n b :
  0 ≤ n → hist !! Z.to_nat n = Some b → items_upto hist (n + 1) = items_upto hist n ++ nonempty (b_items b).
Proof using.
  clear Hk.
  intros Hn Hb. unfold items_upto. rewrite Z2Nat.inj_add by lia. change (Z.to_nat 1) with 1%nat.
  rewrite Nat.add_1_r, (take_S_r _ _ _ Hb), fmap_app, concat_app. cbn. by rewrite app_nil_r.
Qed.

(** What a call of the receiver leaves: items delivered are those of the blocks
    it moved past, later blocks are not lost. *)
Record received_more hist x x' (out : list (list byte)) : Prop := {
  rm_inv : dec_inv hist x'; rm_waits : waits x';
  rm_cap : window_cap x' = window_cap x;
  rm_next : next_deliver x ≤ next_deliver x';
  rm_items : items_upto hist (next_deliver x) ++ out = items_upto hist (next_deliver x');
  rm_keeps : ∀ id rb, next_deliver x' ≤ id → window x !! id = Some rb →
    ∃ rb', window x' !! id = Some rb' ∧ ∀ n, 0 ≤ n → Z.testbit (mask rb) n = true → Z.testbit (mask rb') n = true }.

Lemma tower_off x id : rtower_d (tower x) = 0%nat → try_tower_recover h selected x id = Some (x, false).
Proof using. intros E. unfold try_tower_recover. by rewrite E. Qed.

Lemma drain_loop_ok hist fuel x out :
  hist_ok hist → dec_inv hist x → (size (window x) < fuel)%nat →
  ∃ x' new, drain_loop h selected guard fuel x out = Some (x', out ++ new) ∧ received_more hist x x' new.
Proof using Hc Hk.
  intros Hh. revert x out. induction fuel as [|fuel IH]; intros x out Hi Hf; [lia|]. cbn [drain_loop].
  destruct (window x !! next_deliver x) as [rb|] eqn:Ew.
  - destruct (di_window _ _ Hi _ _ Ew) as (_ & b & Hb & Hrb & Hrw).
    pose proof (Forall_lookup_1 _ _ _ _ (ho_blocks _ Hh) Hb) as Hbok.
    pose proof (di_next _ _ Hi) as Hn. pose proof (ho_len _ Hh) as Hl.
    apply lookup_lt_Some in Hb as Hlt. destruct (decoded rb) eqn:Ed.
    2: { exists x, []. rewrite app_nil_r. split; [done|]. split; try done; [|by rewrite app_nil_r|eauto].
         intros rb' E. congruence. }
    rewrite (block_items_data k b rb Hbok (rx_k _ _ _ Hrb) (rx_done _ _ _ Hrb Ed)).
    cbn [mbind option_bind]. rewrite (wrap_small 32) by lia.
    set (x1 := set_frontier _ _ _ _).
    assert (dec_inv hist x1) as Hi1.
    { split; cbn; [apply Hi|lia| |apply Hi]. intros id rb' [Hne Hid]%lookup_delete_Some.
      destruct (di_window _ _ Hi _ _ Hid) as (? & Hex). split; [lia|done]. }
    assert (size (window x1) < fuel)%nat as Hf1.
    { cbn. rewrite <- (insert_delete_id _ _ _ Ew), map_size_insert_None in Hf by apply lookup_delete_eq. lia. }
    destruct (IH x1 (out ++ nonempty (b_items b)) Hi1 Hf1) as (x2 & new & -> & [R1 R2 R3 R4 R5 R6]).
    exists x2, (nonempty (b_items b) ++ new). rewrite <- (assoc_L (++)). split; [done|].
    cbn [x1 set_frontier set_loss set_blocks next_deliver window window_cap] in *. split; try done; [lia| |].
    + rewrite (assoc_L (++)), <- (items_upto_succ _ _ _ (proj1 Hn) Hb). done.
    + intros id rb' Hid Hw. apply R6; [done|]. rewrite lookup_delete_ne by lia. done.
  - rewrite tower_off by apply Hi. cbn [mbind option_bind]. exists x, []. rewrite app_nil_r.
    split; [done|]. split; try done; [|by rewrite app_nil_r|eauto]. intros rb' E. congruence.
Qed.

Lemma prune_same x :
  let x' := prune x in
  session_epoch x' = session_epoch x ∧ next_deliver x' = next_deliver x ∧ window x' = window x ∧
  window_cap x' = window_cap x ∧ rtower_d (tower x') = rtower_d (tower x).
Proof using. cbv zeta. unfold prune. cbn [set_infos rtower_d]. by destruct (0 <? rtower_d (tower x))%nat. Qed.

Lemma drain_ok hist x :
  hist_ok hist → dec_inv hist x →
  ∃ x' new, drain_in_order h selected guard x = Some (x', new) ∧ received_more hist x x' new.
Proof using Hc Hk.
  intros Hh Hi. unfold drain_in_order.
  destruct (drain_loop_ok hist (drain_fuel x) x [] Hh Hi) as (x' & new & -> & [R1 R2 R3 R4 R5 R6]);
    [unfold drain_fuel; lia|].
  cbn [mbind option_bind app]. exists (prune x'), new. split; [done|].
  destruct (prune_same x') as (E1 & E2 & E3 & E4 & E5).
  split; rewrite ?E2, ?E3, ?E4; try done. - by apply (dec_inv_same _ x').
  - unfold waits. by rewrite E2, E3.
Qed.

Lemma received_more_refl hist x x' :
  dec_inv hist x → waits x → session_epoch x' = None ∨ session_epoch x' = Some ep →
  next_deliver x' = next_deliver x → window x' = window x → window_cap x' = window_cap x →
  rtower_d (tower x') = rtower_d (tower x) → received_more hist x x' [].
Proof using.
  intros [H1 H2 H3 H4] Hw Hs E1 E2 E3 E4. split; try done; rewrite ?E1, ?E2; try done.
  - split; by rewrite ?E1, ?E2, ?E4.
  - intros rb. rewrite E1, E2. apply Hw.
  - apply app_nil_r.
  - eauto.
Qed.

(** A call that first changes the window at or past the frontier. *)
Lemma received_more_step hist x x1 x' out :
  next_deliver x1 = next_deliver x → window_cap x1 = window_cap x →
  (∀ id rb, window x !! id = Some rb → ∃ rb', window x1 !! id = Some rb' ∧
     ∀ n, 0 ≤ n → Z.testbit (mask rb) n = true → Z.testbit (mask rb') n = true) →
  received_more hist x1 x' out → received_more hist x x' out.
Proof using.
  intros E1 E2 Hw [R1 R2 R3 R4 R5 R6]. split; rewrite <- ?E1, <- ?E2; try done.
  intros id rb Hid Hrb. destruct (Hw _ _ Hrb) as (rb1 & H1 & Hm1).
  destruct (R6 _ _ Hid H1) as (rb2 & H2 & Hm2). exists rb2. split; [done|]. auto.
Qed.

Hypothesis Hep : 0 ≤ ep < 2 ^ 32.

(** One shard of a block of the history. *)
Lemma ingest_shard_ok hist x id b idx is_rt v :
  hist_ok hist → dec_inv hist x → waits x → 1 ≤ window_cap x < 2 ^ 32 →
  hist !! id = Some b → b_all k b !! idx = Some v →
  ∃ x' out, ingest_shard h selected guard x (Z.of_nat id) idx k (b_r b) is_rt v = Some (x', out) ∧
    received_more hist x x' out ∧
    (Z.of_nat id = next_deliver x → next_deliver x' = next_deliver x →
     ∃ rb', window x' !! next_deliver x = Some rb' ∧ Z.testbit (mask rb') (Z.of_nat idx) = true).
Proof using Hc Hk.
  intros Hh Hi Hw Hcap Hb Hv. pose proof (Forall_lookup_1 _ _ _ _ (ho_blocks _ Hh) Hb) as Hbok.
  pose proof (di_next _ _ Hi) as Hn. pose proof (ho_len _ Hh) as Hl. apply lookup_lt_Some in Hb as Hlt.
  unfold ingest_shard. set (x0 := if (inner_k (tower x) =? 0)%nat then _ else x).
  assert (session_epoch x0 = session_epoch x ∧ next_deliver x0 = next_deliver x ∧ window x0 = window x ∧
    window_cap x0 = window_cap x ∧ rtower_d (tower x0) = rtower_d (tower x)) as (E1 & E2 & E3 & E4 & E5).
  { unfold x0. by destruct (inner_k (tower x) =? 0)%nat. }
  clearbody x0. rewrite E2, E4, (wrap_small 32) by lia.
  destruct (Z.ltb_spec (Z.of_nat id) (next_deliver x)).
  { eexists _, _. split; [done|]. split; [|lia].
    apply received_more_refl; try done. cbn. rewrite E1. apply Hi. }
  destruct (Z.leb_spec (Z.min (next_deliver x + window_cap x) (2 ^ 32 - 1)) (Z.of_nat id)).
  { eexists _, _. split; [done|]. split; [|lia].
    apply received_more_refl; try done. cbn. rewrite E1. apply Hi. }
  cbn [set_frontier window]. rewrite E3.
  assert (length v = b_len b) as Hvl by apply (Forall_lookup_1 _ _ _ _ (b_all_lens k b) Hv). rewrite Hvl.
  set (rb := default _ _).
  assert (rx_part k b rb) as Hrb.
  { unfold rb. destruct (window x !! Z.of_nat id) as [rb0|] eqn:E; [|by apply rx_new_part].
    destruct (di_window _ _ Hi _ _ E) as (_ & b' & Hb' & [Hp _]). rewrite Nat2Z.id in Hb'. by simplify_eq. }
  assert (∀ rb0, window x !! Z.of_nat id = Some rb0 → rb = rb0) as Hrb0.
  { intros rb0 E. unfold rb. by rewrite E. }
  clearbody rb. unfold shape_differs. destruct (Hrb) as [P1 P2 P3 _ _ _].
  rewrite P1, P2, P3, !Nat.eqb_refl. cbn [negb orb].
  destruct (store_shard_part k b rb idx v is_rt Hbok Hrb Hv) as (S1 & S2 & S3 & S4).
  destruct (try_decode_ok k h selected b (store_shard rb idx v is_rt)) as (rb' & newly & -> & T1 & T2 & T3);
    [lia|done..|].
  cbn [mbind option_bind]. set (x1 := if newly : bool then _ else _).
  assert (session_epoch x1 = session_epoch x ∧ next_deliver x1 = next_deliver x ∧
    window x1 = <[Z.of_nat id := rb']> (window x) ∧
    window_cap x1 = window_cap x ∧ rtower_d (tower x1) = rtower_d (tower x)) as (F1 & F2 & F3 & F4 & F5).
  { unfold x1. destruct newly; cbn; by rewrite ?E3. }
  clearbody x1. assert (dec_inv hist x1) as Hi1.
  { split; rewrite ?F1, ?F2, ?F3, ?F5; try apply Hi. intros id' rb1 Hid.
    apply lookup_insert_Some in Hid as [ [<- <-]|[Hne Hid] ]; [|by apply Hi].
    split; [done|]. exists b. by rewrite Nat2Z.id. }
  destruct (drain_ok hist x1 Hh Hi1) as (x' & out & -> & Hmore). exists x', out. split; [done|]. split.
  - eapply (received_more_step hist x x1); try done. intros id' rb1 Hid. rewrite F3.
    destruct (decide (id' = Z.of_nat id)) as [->|]; [|rewrite lookup_insert_ne by done; eauto].
    rewrite lookup_insert_eq. exists rb'. split; [done|]. intros n Hn0 Ht.
    rewrite T2. apply S3; [done|]. by rewrite (Hrb0 _ Hid).
  - intros Hid Heq. destruct (rm_keeps _ _ _ _ Hmore (Z.of_nat id) rb') as (rb2 & H2 & Hm2);
      [lia|by rewrite F3, lookup_insert_eq|].
    exists rb2. rewrite <- Hid. split; [done|]. apply Hm2; [lia|]. by rewrite T2.
Qed.

(** A datagram of a block of the history. *)
Definition data_dg hist (dg : list byte) (id : nat) (idx : nat) : Prop :=
  ∃ b flags, hist !! id = Some b ∧ (idx < k + b_r b)%nat ∧
    datagram_flagged (b_pending k b) (Z.of_nat id) idx flags ep = Some dg.

Lemma outer_bit_clear (x : Z) : 0 ≤ x < 2 ^ 31 → Z.land x OUTER_ID_BIT = 0.
Proof using.
  clear Hk.
  intros Hx. unfold OUTER_ID_BIT. change 2147483648 with (2 ^ 31). apply Z.bits_inj'. intros n Hn.
  rewrite Z.land_spec, Z.pow2_bits_eqb, Z.bits_0 by lia. destruct (Z.eqb_spec 31 n) as [<-|]; [|by rewrite andb_false_r].
  rewrite andb_true_r. destruct (decide (x = 0)) as [->|]; [apply Z.bits_0|].
  apply Z.bits_above_log2; [lia|]. apply Z.log2_lt_pow2; lia.
Qed.

Lemma ingest_ok hist x dg id idx :
  hist_ok hist → dec_inv hist x → waits x → 1 ≤ window_cap x < 2 ^ 32 → data_dg hist dg id idx →
  ∃ x' out, ingest h selected guard x dg = Some (x', out) ∧ received_more hist x x' out ∧
    (Z.of_nat id = next_deliver x → next_deliver x' = next_deliver x →
     ∃ rb', window x' !! next_deliver x = Some rb' ∧ Z.testbit (mask rb') (Z.of_nat idx) = true).
Proof using Hc Hk Hep.
  intros Hh Hi Hw Hcap (b & flags & Hb & Hidx & Hdg). pose proof (ho_len _ Hh) as Hl.
  pose proof (Forall_lookup_1 _ _ _ _ (ho_blocks _ Hh) Hb) as Hbok. apply lookup_lt_Some in Hb as Hlt.
  pose proof (ok_shards _ _ Hbok) as Hm. unfold MAX_SHARDS in *.
  destruct (datagram_fields _ _ _ _ _ _ Hdg) as (G1 & G2 & G3 & G4 & G5 & G6 & G7 & G8); [lia..|].
  unfold ingest. rewrite G2, (proj2 (Nat.ltb_ge _ _)) by done. cbn [negb orb].
  rewrite G4, G5, G6, G7, G8. cbn [b_pending pk pr pshards] in *. rewrite !byte_nat_as_u8 by lia.
  cbn [set_rejects session_epoch unknown_epoch]. rewrite bool_decide_true by apply Hi. cbn [negb].
  rewrite (proj2 (Nat.eqb_neq k 0)), (proj2 (Nat.ltb_ge MAX_SHARDS _)), (proj2 (Nat.leb_gt _ _)) by (unfold MAX_SHARDS; lia).
  cbn [orb]. rewrite outer_bit_clear by lia. cbn [Z.eqb negb].
  set (x0 := set_session _ _ _).
  assert (dec_inv hist x0) as Hi0. { destruct Hi as [_ ? ? ?]. split; try done. by right. }
  destruct (ingest_shard_ok hist x0 id b idx
    (negb (Z.land (bZ (at_ dg 8)) FLAG_RETRANSMIT =? 0)) (drop DATA_HEADER dg)) as (x' & out & -> & Hmore & Hadv);
    [done..|].
  exists x', out. split; [done|]. split; [|done]. apply (received_more_step hist x x0); try done. eauto.
Qed.

(** * The sender *)

Record enc_inv hist (todo : list (list byte)) (e : Encoder) : Prop := {
  en_k : ek e = k; en_r : (er e ≤ MAX_SHARDS - k)%nat;
  en_rmin : r_min e = 0%nat; en_rmax : r_max e = (MAX_SHARDS - k)%nat;
  en_epoch : epoch e = ep; en_next : next_block e = Z.of_nat (length hist);
  en_staged : staged e = stage <$> todo; en_todo : (length todo ≤ k)%nat;
  en_lens : Forall (λ i, Z.of_nat (length i) < 2 ^ 16) todo;
  en_tower : tower_d e = 0%nat;
  en_pending : ∀ id pb, pending e !! id = Some pb → 0 ≤ id ∧
    ∃ b, hist !! Z.to_nat id = Some b ∧ pb = b_pending k b;
  en_unacked : ∀ id, acked_through e ≤ id → 0 ≤ id < Z.of_nat (length hist) → is_Some (pending e !! id) }.

Lemma parity_of_ok r len data :
  (0 < r)%nat → (k + r ≤ MAX_SHARDS)%nat → (0 < len)%nat → length data = k →
  Forall (λ s, length s = len) data →
  parity_of h selected k r len data = Some (parity_shard k len data <$> seq 0 r).
Proof using Hc Hk.
  intros Hr Hm Hl Hd Fd. unfold parity_of. destruct (rs_new k r) as [cd|e|] eqn:En.
  2, 3: exfalso; revert En; unfold rs_new; rewrite (proj2 (Nat.eqb_neq k 0)), (proj2 (Nat.eqb_neq r 0)),
      (proj2 (Nat.ltb_ge _ _)) by (unfold MAX_SHARDS in *; lia); done.
  destruct (rs_new_built _ _ _ En) as (Hbt & Ek & Er).
  assert (backend_ok h cd) as Hbk.
  { revert En. unfold rs_new. destruct (_ || _); [done|]. by intros [= <-]. }
  cbn [ok_or_panic mbind option_bind].
  destruct (encode_parity h selected cd data (replicate r (replicate len x00)) len Hbt Hbk Hc)
    as (sel & _ & ->); [congruence|by rewrite length_replicate|done|done| |].
  { apply Forall_replicate, length_replicate. }
  cbn [fst ok_or_panic]. by rewrite Ek, Er.
Qed.

Lemma max_stage_len todo (i : list byte) :
  i ∈ todo → (ITEM_LEN_PREFIX + length i ≤ foldr Nat.max 0 (length <$> (stage <$> todo)))%nat.
Proof using.
  clear Hk.
  intros Hi. induction Hi as [i l|i y l _ IH]; cbn [fmap list_fmap foldr].
  - unfold stage, ITEM_LEN_PREFIX. rewrite length_app, length_le_bytes. lia.
  - lia.
Qed.

(** The block a seal makes of the staged items. *)
Definition next_sealed (e : Encoder) todo : block :=
  {| b_items := todo; b_r := er e; b_len := block_shard_len e |}.

Lemma next_sealed_ok hist todo e :
  enc_inv hist todo e → todo ≠ [] → block_ok k (next_sealed e todo).
Proof using Hk.
  intros He Hne. pose proof (en_todo _ _ _ He) as Ht.
  split; cbn [next_sealed b_items b_r b_len]; unfold block_shard_len; rewrite ?(en_tower _ _ _ He); cbn [Nat.ltb Nat.leb].
  - done.
  - pose proof (en_r _ _ _ He). unfold MAX_SHARDS in *. lia.
  - lia.
  - apply Forall_forall. intros i Hi. split; [exact (proj1 (Forall_forall _ _) (en_lens _ _ _ He) i Hi)|].
    rewrite (en_staged _ _ _ He). pose proof (max_stage_len todo i Hi). destruct todo; [done|]. cbn [fmap list_fmap] in *. lia.
Qed.

(** Any requested shards of a block can be sent. *)
Lemma datagrams_ok hist id b (flags : Z) idxs :
  hist_ok hist → hist !! id = Some b → Forall (λ i, i < k + b_r b)%nat idxs →
  ∃ ds, mapM (λ i, datagram_flagged (b_pending k b) (Z.of_nat id) i flags ep) idxs = Some ds ∧
    Forall2 (λ i dg, data_dg hist dg id i) idxs ds.
Proof using.
  intros Hh Hb Hidx. pose proof (Forall_lookup_1 _ _ _ _ (ho_blocks _ Hh) Hb) as Hbok.
  apply (mapM_all _ (λ i dg, data_dg hist dg id i)). intros i Hi.
  pose proof (proj1 (Forall_forall _ _) Hidx i Hi) as Hlt. cbv beta in Hlt.
  destruct (lookup_lt_is_Some_2 (b_all k b) i) as [v Hv]; [by rewrite length_b_all|].
  assert (∃ dg, datagram_flagged (b_pending k b) (Z.of_nat id) i flags ep = Some dg) as [dg Hdg].
  { unfold datagram_flagged. cbn [b_pending pshards]. rewrite Hv. by eexists. }
  exists dg. split; [done|]. by exists b, flags.
Qed.

Lemma hist_ok_snoc hist b :
  hist_ok hist → block_ok k b → Z.of_nat (length hist) + 1 < 2 ^ 31 → hist_ok (hist ++ [b]).
Proof using.
  clear Hk.
  intros [H1 H2] Hb Hl. split; [apply Forall_app; by split; [|constructor]|].
  rewrite length_app. cbn. lia.
Qed.

Lemma seal_block_ok hist todo e :
  hist_ok hist → enc_inv hist todo e → todo ≠ [] → Z.of_nat (length hist) + 1 < 2 ^ 31 →
  let hist' := hist ++ [next_sealed e todo] in
  ∃ e' ds, seal_block h selected e = Some (e', ds) ∧ enc_inv hist' [] e' ∧
    acked_through e' = acked_through e ∧ flow_window e' = flow_window e ∧
    Forall (λ dg, ∃ idx, data_dg hist' dg (length hist) idx) ds.
Proof using Hc Hk.
  intros Hh He Hne Hlen. pose proof (next_sealed_ok _ _ _ He Hne) as Hb. set (b := next_sealed e todo) in *.
  cbv zeta. pose proof (hist_ok_snoc _ _ Hh Hb Hlen) as Hh'.
  assert ((hist ++ [b]) !! length hist = Some b) as Hlb.
  { rewrite lookup_app_r, Nat.sub_diag by lia. done. }
  unfold seal_block. destruct (He) as [H1 H2 H3 H4 H5 H6 H7 H8 H9 H10 H11 H12].
  cbn [set_stats ek er epoch next_block]. rewrite H1, H7, <- list_fmap_compose.
  change (fill k (block_shard_len e) (resize (block_shard_len e) ∘ stage <$> todo)) with (b_data k b).
  assert ((if (0 <? er e)%nat then parity_of h selected k (er e) (block_shard_len e) (b_data k b) else Some [])
    = Some (parity_shard k (b_len b) (b_data k b) <$> seq 0 (b_r b))) as ->.
  { change (er e) with (b_r b). change (block_shard_len e) with (b_len b).
    pose proof (ok_prefix _ _ Hb). pose proof (ok_shards _ _ Hb). unfold ITEM_LEN_PREFIX in *.
    destruct (Nat.ltb_spec 0 (b_r b)) as [Hr|Hr].
    - apply parity_of_ok; [done..|lia|by apply length_b_data|apply b_data_lens].
    - by replace (b_r b) with 0%nat by lia. }
  cbn [mbind option_bind set_next_block set_stats epoch ek er next_block]. rewrite ?H1, H5, H6.
  destruct (datagrams_ok (hist ++ [b]) (length hist) b 0 (seq 0 (k + er e)) Hh' Hlb) as (ds & Eds & Fds).
  { apply Forall_forall. intros i Hi%elem_of_seq. cbn. lia. }
  unfold datagram. change {| pk := _; pr := _; pshard_len := _; pshards := _ |} with (b_pending k b).
  rewrite Eds. cbn [mbind option_bind set_staged set_pending set_next_block set_stats tower_d]. rewrite H10.
  eexists _, ds. split; [done|]. split; [|split; [done|split; [done|]] ].
  - assert (Z.of_nat (length (hist ++ [b])) = Z.of_nat (length hist) + 1) as El by (rewrite length_app; cbn; lia).
    split; cbn [set_staged set_pending set_next_block set_stats ek er r_min r_max epoch next_block staged tower_d pending acked_through];
      try done; [|cbn; lia| |].
    + rewrite El. apply wrap_small. lia.
    + intros id pb [ [<- <-]|[Hneq Hp] ]%lookup_insert_Some.
      * split; [lia|]. exists b. by rewrite Nat2Z.id.
      * destruct (H11 _ _ Hp) as (? & b' & Hb' & ->). split; [done|]. exists b'. split; [|done].
        by apply lookup_app_l_Some.
    + intros id Ha Hid. destruct (decide (id = Z.of_nat (length hist))) as [->|]; [rewrite lookup_insert_eq; eauto|].
      rewrite lookup_insert_ne by done. apply H12; lia.
  - apply Forall_forall. intros dg Hdg. apply list_elem_of_lookup in Hdg as [i Hi].
    destruct (Forall2_lookup_r _ _ _ _ _ Fds Hi) as (idx & _ & Hd). by exists idx.
Qed.

Definition on_wire hist (dg : list byte) : Prop := ∃ id idx, data_dg hist dg id idx.

Lemma on_wire_all hist id idxs ds :
  Forall2 (λ i dg, data_dg hist dg id i) idxs ds → Forall (on_wire hist) ds.
Proof using.
  intros Hf. apply Forall_forall. intros dg Hdg. apply list_elem_of_lookup in Hdg as [i Hi].
  destruct (Forall2_lookup_r _ _ _ _ _ Hf Hi) as (idx & _ & Hd). by exists id, idx.
Qed.

Lemma on_wire_snoc hist b dg : on_wire hist dg → on_wire (hist ++ [b]) dg.
Proof using.
  intros (id & idx & b' & flags & Hb & ?). exists id, idx, b', flags. split; [|done]. by apply lookup_app_l_Some.
Qed.

Lemma probe_ok hist todo e id :
  hist_ok hist → enc_inv hist todo e → ∃ ds, probe_block e id = Some ds ∧ Forall (on_wire hist) ds.
Proof using Hk.
  intros Hh He. unfold probe_block. destruct (pending e !! id) as [pb|] eqn:Ep; [|by exists []].
  destruct (en_pending _ _ _ He _ _ Ep) as (H0 & b & Hb & ->). rewrite (en_epoch _ _ _ He).
  cbn [b_pending pk]. rewrite byte_nat_as_u8 by (unfold MAX_SHARDS in *; lia).
  destruct (datagrams_ok hist (Z.to_nat id) b FLAG_RETRANSMIT (seq 0 k) Hh Hb) as (ds & E & Hd).
  { apply Forall_forall. intros i Hi%elem_of_seq. lia. }
  rewrite Z2Nat.id in E by done. exists ds. split; [exact E|]. by eapply on_wire_all.
Qed.

Lemma resend_ok hist todo e :
  hist_ok hist → enc_inv hist todo e → ∃ ds, retransmit_all_data e = Some ds ∧ Forall (on_wire hist) ds.
Proof using Hk.
  intros Hh He. unfold retransmit_all_data.
  destruct (mapM_all (probe_block e) (λ _ ds, Forall (on_wire hist) ds) (sorted_keys (pending e)))
    as (dss & -> & Hd).
  { intros id _. by eapply probe_ok. }
  exists (concat dss). split; [done|]. clear -Hd. induction Hd; [constructor|]. by apply Forall_app.
Qed.

Lemma requested_bound m n : Forall (λ i, i < n)%nat (requested m n).
Proof using.
  clear Hk.
  apply Forall_forall. intros i Hi. unfold requested in Hi. apply list_elem_of_In, filter_In in Hi as [Hi _].
  apply in_seq in Hi. lia.
Qed.

(** The part of [on_feedback] before the retransmission: the acknowledgement. *)
Definition acknowledged (e : Encoder) (ack : Z) : Encoder :=
  let e := if acked_through e <? ack then set_acked e ack else e in
  set_pending e (filter (λ p, ¬ p.1 < ack) (pending e)).

Lemma acknowledged_inv hist todo e ack :
  enc_inv hist todo e → enc_inv hist todo (acknowledged e ack) ∧
  acked_through (acknowledged e ack) = Z.max (acked_through e) ack.
Proof using.
  clear Hk.
  intros [H1 H2 H3 H4 H5 H6 H7 H8 H9 H10 H11 H12]. unfold acknowledged.
  assert (acked_through (if acked_through e <? ack then set_acked e ack else e)
    = Z.max (acked_through e) ack) as Ea.
  { destruct (Z.ltb_spec (acked_through e) ack); cbn; lia. }
  split; [|exact Ea]. split; try (destruct (acked_through e <? ack); done).
  - intros id pb Hp. cbn [set_pending pending] in Hp.
    assert (pending e !! id = Some pb) as Hp' by (destruct (acked_through e <? ack); by apply map_lookup_filter_Some_1_1 in Hp).
    by apply H11.
  - intros id Ha Hid. cbn [set_pending acked_through pending] in *. rewrite Ea in Ha.
    destruct (H12 id) as [pb Hpb]; [lia|done|]. exists pb.
    apply map_lookup_filter_Some_2; [by destruct (acked_through e <? ack)|]. cbn. lia.
Qed.

Lemma on_feedback_ok hist todo e fb :
  hist_ok hist → enc_inv hist todo e →
  ∃ e' ds, on_feedback e fb = Some (e', ds) ∧ enc_inv hist todo e' ∧
    acked_through e' = Z.max (acked_through e) (ack_through fb) ∧ Forall (on_wire hist) ds ∧
    ∀ b, nak_block fb ≠ NAK_NONE → Z.max (acked_through e) (ack_through fb) ≤ nak_block fb → 0 ≤ nak_block fb →
      hist !! Z.to_nat (nak_block fb) = Some b →
      Forall2 (λ i dg, data_dg hist dg (Z.to_nat (nak_block fb)) i) (requested (nak_mask fb) (k + b_r b)) ds.
Proof using.
  clear Hk.
  intros Hh He. destruct (acknowledged_inv hist todo e (ack_through fb) He) as [Hi Ha].
  unfold on_feedback. change (set_pending _ _) with (acknowledged e (ack_through fb)).
  set (e1 := acknowledged e (ack_through fb)) in *. clearbody e1.
  destruct (Z.eqb_spec (nak_block fb) NAK_NONE) as [En|En].
  { exists e1, []. split_and!; try done. }
  cbn [set_stats pending epoch next_block]. destruct (pending e1 !! nak_block fb) as [pb|] eqn:Ep.
  - destruct (en_pending _ _ _ Hi _ _ Ep) as (H0 & b & Hb & ->). rewrite (en_epoch _ _ _ Hi).
    pose proof (Forall_lookup_1 _ _ _ _ (ho_blocks _ Hh) Hb) as Hbok. cbn [b_pending pshards].
    rewrite length_b_all by done.
    destruct (datagrams_ok hist (Z.to_nat (nak_block fb)) b FLAG_RETRANSMIT
      (requested (nak_mask fb) (k + b_r b)) Hh Hb (requested_bound _ _)) as (ds & E & Hd).
    rewrite Z2Nat.id in E by done.
    change (mapM _ _) with (mapM (λ i, datagram_flagged (b_pending k b) (nak_block fb) i FLAG_RETRANSMIT ep)
      (requested (nak_mask fb) (k + b_r b))). rewrite E. cbn [mbind option_bind].
    eexists _, ds. split; [done|]. split; [by destruct Hi|]. split; [done|]. split; [by eapply on_wire_all|].
    intros b' _ _ _ Hb'. by simplify_eq.
  - eexists _, []. split; [done|]. split; [by destruct Hi|]. split; [done|]. split; [constructor|].
    intros b _ Hge H0 Hb. exfalso. destruct (en_unacked _ _ _ Hi (nak_block fb)) as [pb E]; [lia| |congruence].
    apply lookup_lt_Some in Hb. lia.
Qed.
End receiving.

(** * The link *)

(** Both ends, all datagrams ever sent, the items pushed and those delivered. *)
Record link := {
  l_enc : Encoder; l_dec : Decoder; l_wire : list (list byte);
  l_pushed : list (list byte); l_out : list (list byte) }.

Inductive link_op :=
| OPush (item : list byte)
| OFlush
| OSetParity (r : nat)
| OSetFlowWindow (blocks : Z)
| OFeedback (fb : Feedback)
| OProbe (id : Z)
| OResendAll
| OReceive (dg : list byte).

Definition send (s : link) (item : list (list byte)) (res : option (Encoder * list (list byte))) : option link :=
  '(e, ds) ← res;
  Some {| l_enc := e; l_dec := l_dec s; l_wire := l_wire s ++ ds; l_pushed := l_pushed s ++ item; l_out := l_out s |}.

Definition link_do (h : Host) (selected : Z) (guard : bool) (s : link) (op : link_op) : option link :=
  let e := l_enc s in
  match op with
  | OPush item => send s [item] (push h selected e item)
  | OFlush => send s [] (flush h selected e)
  | OSetParity r => send s [] (Some (set_parity e r, []))
  | OSetFlowWindow n => send s [] (Some (set_flow_window e n, []))
  | OFeedback fb => send s [] (on_feedback e fb)
  | OProbe id => send s [] (ds ← probe_block e id; Some (e, ds))
  | OResendAll => send s [] (ds ← retransmit_all_data e; Some (e, ds))
  | OReceive dg =>
      '(x, out) ← on_packet h selected guard (l_dec s) dg;
      Some {| l_enc := e; l_dec := x; l_wire := l_wire s; l_pushed := l_pushed s; l_out := l_out s ++ out |}
  end.

(** Item lengths fit their prefix, block ids stay below the outer ids, an
    acknowledgement (of any age) is one the receiver gave, and the link makes
    nothing up. Requests for retransmission are arbitrary. *)
Definition allowed (s : link) (op : link_op) : Prop :=
  match op with
  | OPush item => Z.of_nat (length item) < 2 ^ 16 ∧ next_block (l_enc s) < 2 ^ 31 - 1
  | OFlush => next_block (l_enc s) < 2 ^ 31 - 1
  | OFeedback fb => ack_through fb ≤ next_deliver (l_dec s)
  | OReceive dg => dg ∈ l_wire s
  | _ => True
  end.

Definition link_step (h : Host) (selected : Z) (guard : bool) (s : link) (op : link_op) (s' : link) : Prop :=
  allowed s op ∧ link_do h selected guard s op = Some s'.

Definition link_start (k r max_item : nat) (derived_epoch cap : Z) : link :=
  {| l_enc := enc_new k r max_item derived_epoch; l_dec := with_window cap;
     l_wire := []; l_pushed := []; l_out := [] |}.

Section link.
Context (h : Host) (selected : Z) (guard : bool) (k : nat) (ep : Z).
Hypothesis Hc : cache_ok h selected.
Hypothesis Hk : (0 < k ≤ MAX_SHARDS)%nat.
Hypothesis Hep : 0 ≤ ep < 2 ^ 32.

Record link_inv (s : link) (hist : list block) (todo : list (list byte)) : Prop := {
  ln_hist : hist_ok k hist;
  ln_enc : enc_inv k ep hist todo (l_enc s); ln_staged : (length todo < k)%nat;
  ln_dec : dec_inv k ep hist (l_dec s); ln_waits : waits (l_dec s);
  ln_cap : 1 ≤ window_cap (l_dec s) < 2 ^ 32;
  ln_acked : 0 ≤ acked_through (l_enc s) ≤ next_deliver (l_dec s);
  ln_wire : Forall (on_wire k ep hist) (l_wire s);
  ln_pushed : l_pushed s = concat (b_items <$> hist) ++ todo;
  ln_out : l_out s = items_upto hist (next_deliver (l_dec s)) }.

Lemma dec_inv_snoc hist b x : dec_inv k ep hist x → dec_inv k ep (hist ++ [b]) x.
Proof using.
  clear Hk.
  intros [H1 H2 H3 H4]. split; try done; [rewrite length_app; lia|]. intros id rb Hid.
  destruct (H3 _ _ Hid) as (? & b' & Hb' & ?). split; [done|]. exists b'. split; [|done]. by apply lookup_app_l_Some.
Qed.

Lemma items_upto_snoc hist b n : n ≤ Z.of_nat (length hist) → items_upto (hist ++ [b]) n = items_upto hist n.
Proof using.
  clear Hk. intros Hn. unfold items_upto. by rewrite take_app_le by lia. Qed.

(** The sender did something: its state, perhaps one more block, datagrams. *)
Lemma link_inv_send s hist todo e' ds item todo' bs :
  link_inv s hist todo → hist_ok k (hist ++ bs) → (length bs ≤ 1)%nat →
  enc_inv k ep (hist ++ bs) todo' e' → (length todo' < k)%nat →
  0 ≤ acked_through e' ≤ next_deliver (l_dec s) → Forall (on_wire k ep (hist ++ bs)) ds →
  concat (b_items <$> bs) ++ todo' = todo ++ item →
  link_inv {| l_enc := e'; l_dec := l_dec s; l_wire := l_wire s ++ ds; l_pushed := l_pushed s ++ item; l_out := l_out s |}
    (hist ++ bs) todo'.
Proof using.
  clear Hk.
  intros [H1 H2 H3 H4 H5 H6 H7 H8 H9 H10] Hh Hbs He Ht Ha Hds Hit.
  assert (dec_inv k ep (hist ++ bs) (l_dec s) ∧ Forall (on_wire k ep (hist ++ bs)) (l_wire s) ∧
    items_upto (hist ++ bs) (next_deliver (l_dec s)) = items_upto hist (next_deliver (l_dec s))) as (Hd & Hw & Hi).
  { destruct bs as [|b [|] ]; [by rewrite app_nil_r| |cbn in Hbs; lia]. split_and!; [by apply dec_inv_snoc| |].
    - eapply Forall_impl; [done|]. intros dg. apply on_wire_snoc.
    - apply items_upto_snoc, H4. }
  split; cbn [l_enc l_dec l_wire l_pushed l_out]; try done.
  - by apply Forall_app.
  - by rewrite fmap_app, concat_app, <- (assoc_L (++)), Hit, H9, (assoc_L (++)).
  - by rewrite Hi.
Qed.

Lemma link_inv_seal s hist todo todo1 item e1 :
  link_inv s hist todo → todo1 = todo ++ item → enc_inv k ep hist todo1 e1 → todo1 ≠ [] →
  acked_through e1 = acked_through (l_enc s) → next_block (l_enc s) < 2 ^ 31 - 1 →
  ∃ e2 ds, seal_block h selected e1 = Some (e2, ds) ∧ tower_d e2 = 0%nat ∧
  ∃ hist' todo', link_inv
    {| l_enc := e2; l_dec := l_dec s; l_wire := l_wire s ++ ds; l_pushed := l_pushed s ++ item; l_out := l_out s |}
    hist' todo'.
Proof using Hc Hk.
  intros Hi -> He Hne Ha Hlt. destruct (Hi) as [H1 H2 H3 H4 H5 H6 H7 H8 H9 H10].
  rewrite (en_next _ _ _ _ _ H2) in Hlt.
  destruct (seal_block_ok h selected k ep Hc Hk hist (todo ++ item) e1 H1 He Hne) as (e2 & ds & E & He2 & Ha2 & _ & Hd); [lia|].
  exists e2, ds. split; [done|]. split; [apply He2|].
  exists (hist ++ [next_sealed e1 (todo ++ item)]), []. eapply link_inv_send; try done.
  - apply hist_ok_snoc; [done| |lia]. by eapply next_sealed_ok.
  - cbn. lia.
  - by rewrite Ha2, Ha.
  - eapply Forall_impl; [done|]. intros dg [idx Hdg]. by exists (length hist), idx.
  - cbn. by rewrite !app_nil_r.
Qed.

Lemma enc_inv_stage hist todo e item :
  enc_inv k ep hist todo e → Z.of_nat (length item) < 2 ^ 16 → (length todo < k)%nat →
  enc_inv k ep hist (todo ++ [item]) (set_staged e (staged e ++ [stage item])).
Proof using.
  clear Hk.
  intros [H1 H2 H3 H4 H5 H6 H7 H8 H9 H10 H11 H12] Hl Ht. split; try done; cbn [set_staged staged].
  - by rewrite H7, fmap_app.
  - rewrite length_app. cbn. lia.
  - apply Forall_app. by split; [|constructor].
Qed.

Lemma link_do_ok s hist todo op :
  link_inv s hist todo → allowed s op →
  ∃ s' hist' todo', link_do h selected guard s op = Some s' ∧ link_inv s' hist' todo'.
Proof using Hc Hk Hep.
  intros Hi Hal. destruct (Hi) as [H1 H2 H3 H4 H5 H6 H7 H8 H9 H10].
  assert (∀ e ds, enc_inv k ep hist todo e → 0 ≤ acked_through e ≤ next_deliver (l_dec s) →
    Forall (on_wire k ep hist) ds →
    ∃ hist' todo', link_inv {| l_enc := e; l_dec := l_dec s; l_wire := l_wire s ++ ds;
      l_pushed := l_pushed s ++ []; l_out := l_out s |} hist' todo') as Hsend.
  { intros e ds He Ha Hd. exists (hist ++ []), todo.
    apply (link_inv_send s hist todo e ds [] todo []); rewrite ?app_nil_r; try done; cbn; lia. }
  destruct op as [item| |r|n|fb|id| |dg]; cbn [allowed] in Hal; cbn [link_do send].
  - destruct Hal as [Hl Hn]. unfold push. fold (stage item).
    pose proof (enc_inv_stage _ _ _ _ H2 Hl H3) as Hst. set (e1 := set_staged _ _) in *.
    assert (length (staged e1) = S (length todo)) as Els.
    { rewrite (en_staged _ _ _ _ _ Hst), length_fmap, length_app. cbn. lia. }
    assert (ek e1 = k) as -> by apply Hst. rewrite Els. destruct (Nat.eqb_spec (S (length todo)) k) as [E|E].
    + destruct (link_inv_seal s hist todo (todo ++ [item]) [item] e1 Hi) as (e2 & ds & -> & _ & hist' & todo' & Hinv);
        [done|done|by destruct todo|done|done|].
      eexists _, hist', todo'. split; [done|exact Hinv].
    + eexists _, (hist ++ []), (todo ++ [item]). split; [done|].
      apply (link_inv_send s hist todo e1 [] [item] (todo ++ [item]) []); rewrite ?app_nil_r; try done; [cbn; lia|].
      rewrite length_app. cbn. lia.
  - unfold flush. rewrite (en_staged _ _ _ _ _ H2), length_fmap.
    destruct (Nat.eqb_spec (length todo) 0) as [E|E].
    + cbn [mbind option_bind]. rewrite (en_tower _ _ _ _ _ H2). cbn [Nat.ltb Nat.leb andb].
      destruct (Hsend (l_enc s) [] H2 H7 ltac:(done)) as (hist' & todo' & Hinv). eauto.
    + destruct (link_inv_seal s hist todo todo [] (l_enc s) Hi) as (e2 & ds & -> & Et & hist' & todo' & Hinv);
        [by rewrite app_nil_r|done|by destruct todo|done|done|].
      cbn [mbind option_bind]. rewrite Et. cbn [Nat.ltb Nat.leb andb]. eauto.
  - destruct (Hsend (set_parity (l_enc s) r) []) as (hist' & todo' & Hinv); [|done|done|eauto].
    destruct H2. split; try done. unfold set_parity, clamp. cbn [set_er er]. rewrite en_rmin0, en_rmax0.
    destruct (Nat.ltb_spec r 0), (Nat.ltb_spec (MAX_SHARDS - k) r); lia.
  - destruct (Hsend (set_flow_window (l_enc s) n) []) as (hist' & todo' & Hinv); [by destruct H2|done|done|eauto].
  - destruct (on_feedback_ok k ep hist todo (l_enc s) fb H1 H2) as (e' & ds & -> & He & Ha & Hd & _).
    cbn [mbind option_bind]. destruct (Hsend e' ds He) as (hist' & todo' & Hinv); [lia|done|eauto].
  - destruct (probe_ok k ep Hk hist todo (l_enc s) id H1 H2) as (ds & -> & Hd). cbn [mbind option_bind].
    destruct (Hsend (l_enc s) ds H2 H7 Hd) as (hist' & todo' & Hinv). eauto.
  - destruct (resend_ok k ep Hk hist todo (l_enc s) H1 H2) as (ds & -> & Hd). cbn [mbind option_bind].
    destruct (Hsend (l_enc s) ds H2 H7 Hd) as (hist' & todo' & Hinv). eauto.
  - destruct (proj1 (Forall_forall _ _) H8 dg Hal) as (id & idx & Hdg). unfold on_packet.
    destruct (ingest_ok h selected guard k ep Hc Hk Hep hist (l_dec s) dg id idx H1 H4 H5 H6 Hdg)
      as (x' & out & -> & [R1 R2 R3 R4 R5 R6] & _).
    cbn [mbind option_bind]. eexists _, hist, todo. split; [done|].
    split; cbn [l_enc l_dec l_wire l_pushed l_out]; try done; [by rewrite R3|lia|by rewrite H10, R5].
Qed.

Lemma link_start_inv r max_item cap :
  1 ≤ cap < 2 ^ 32 → link_inv (link_start k r max_item ep cap) [] [].
Proof using Hk Hep.
  intros Hcap. split; cbn [link_start l_enc l_dec l_wire l_pushed l_out with_window window_cap next_deliver]; try done.
  - split; try done; cbn [enc_new er staged length]; try lia.
    unfold clamp. destruct (Nat.ltb_spec r 0), (Nat.ltb_spec (MAX_SHARDS - k) r); lia.
  - cbn. lia.
  - split; try done; by left.
  - lia.
Qed.

Lemma link_reachable r max_item cap ops s :
  1 ≤ cap < 2 ^ 32 → ltrace (link_step h selected guard) (link_start k r max_item ep cap) ops s →
  ∃ hist todo, link_inv s hist todo.
Proof using Hc Hk Hep.
  intros Hcap. apply (ltrace_inv _ (λ s, ∃ hist todo, link_inv s hist todo)).
  - intros s1 op s2 (hist & todo & Hi) [Ha Hdo]. destruct (link_do_ok _ _ _ _ Hi Ha) as (s' & hist' & todo' & E & Hi').
    rewrite E in Hdo. injection Hdo as <-. eauto.
  - exists [], []. by apply link_start_inv.
Qed.

(** ** A round of retransmission *)

(** The receiver takes datagrams in turn. *)
Fixpoint receive_all (x : Decoder) (out : list (list byte)) (ds : list (list byte)) : option (Decoder * list (list byte)) :=
  match ds with
  | [] => Some (x, out)
  | dg :: ds => '(x, items) ← on_packet h selected guard x dg; receive_all x (out ++ items) ds
  end.

Lemma received_more_trans hist x x1 x2 out1 out2 :
  received_more k ep hist x x1 out1 → received_more k ep hist x1 x2 out2 → received_more k ep hist x x2 (out1 ++ out2).
Proof using.
  clear Hk. intros [P1 P2 P3 P4 P5 P6] [Q1 Q2 Q3 Q4 Q5 Q6]. split; try done.
  - congruence.
  - lia.
  - by rewrite (assoc_L (++)), P5.
  - intros id rb Hid Hrb. destruct (P6 id rb) as (rb1 & H1 & M1); [lia|done|].
    destruct (Q6 id rb1) as (rb2 & H2 & M2); [done|done|]. exists rb2. auto.
Qed.

(** The shards of the awaited block, until it is delivered. *)
Lemma receive_block hist x id idxs ds acc :
  hist_ok k hist → dec_inv k ep hist x → waits x → 1 ≤ window_cap x < 2 ^ 32 → Z.of_nat id = next_deliver x →
  Forall2 (λ i dg, data_dg k ep hist dg id i) idxs ds →
  ∃ x' out, receive_all x acc ds = Some (x', acc ++ out) ∧ received_more k ep hist x x' out ∧
    (next_deliver x' = next_deliver x → ∀ idx, idx ∈ idxs →
     ∃ rb', window x' !! next_deliver x = Some rb' ∧ Z.testbit (mask rb') (Z.of_nat idx) = true).
Proof using Hc Hk Hep.
  intros Hh Hi Hw Hcap Hid Hf.
  enough (∀ x, dec_inv k ep hist x → waits x → 1 ≤ window_cap x < 2 ^ 32 → ∀ acc, ∃ x' out,
    receive_all x acc ds = Some (x', acc ++ out) ∧ received_more k ep hist x x' out ∧
    (next_deliver x' = Z.of_nat id → next_deliver x = Z.of_nat id → ∀ idx, idx ∈ idxs →
     ∃ rb', window x' !! Z.of_nat id = Some rb' ∧ Z.testbit (mask rb') (Z.of_nat idx) = true)) as H.
  { destruct (H x Hi Hw Hcap acc) as (x' & out & E & Hm & Hb). exists x', out. split; [done|]. split; [done|].
    intros En. rewrite <- Hid in *. auto. }
  clear x acc Hi Hw Hcap Hid. induction Hf as [|idx dg idxs ds Hdg _ IH]; intros x Hi Hw Hcap acc; cbn [receive_all].
  { exists x, []. rewrite app_nil_r. split; [done|]. split; [|intros _ _ idx; set_solver].
    apply received_more_refl; try done. apply Hi. }
  unfold on_packet. destruct (ingest_ok h selected guard k ep Hc Hk Hep hist x dg id idx Hh Hi Hw Hcap Hdg)
    as (x1 & out1 & -> & Hm1 & Hb1). cbn [mbind option_bind]. destruct (Hm1) as [R1 R2 R3 R4 R5 R6].
  destruct (IH x1 R1 R2 ltac:(by rewrite R3) (acc ++ out1)) as (x2 & out2 & -> & Hm2 & Hb2).
  exists x2, (out1 ++ out2). rewrite (assoc_L (++)). split; [done|]. split; [by eapply received_more_trans|].
  intros E2 E0 i Hin. pose proof (rm_next _ _ _ _ _ _ Hm2) as Hle.
  assert (next_deliver x1 = Z.of_nat id) as E1 by lia.
  apply elem_of_cons in Hin as [->|Hin]; [|by apply Hb2].
  destruct (Hb1 ltac:(lia) ltac:(lia)) as (rb1 & W1 & B1). rewrite E0 in W1.
  destruct (rm_keeps _ _ _ _ _ _ Hm2 (Z.of_nat id) rb1) as (rb2 & W2 & M2); [lia|done|].
  exists rb2. split; [done|]. apply M2; [lia|done].
Qed.

(** A time-out at the receiver: its feedback reaches the sender and the answer
    reaches the receiver. *)
Definition arq_round (m : Readings) (s : link) : option link :=
  '(e, ds) ← on_feedback (l_enc s) (feedback (l_dec s) true m);
  '(x, out) ← receive_all (l_dec s) [] ds;
  Some {| l_enc := e; l_dec := x; l_wire := l_wire s ++ ds; l_pushed := l_pushed s; l_out := l_out s ++ out |}.

Lemma elem_of_requested i mk n : (i < n ≤ 32)%nat → Z.testbit mk (Z.of_nat i) = true → i ∈ requested mk n.
Proof using.
  clear Hk. intros Hi Ht. unfold requested. apply list_elem_of_In, filter_In. split; [apply in_seq; lia|].
  rewrite Nat.mod_small by lia. change (has_bit mk i = true). rewrite has_bit_test by lia. done.
Qed.

Lemma ones_bit n i : (i < n ≤ 32)%nat →
  Z.testbit (if (32 <=? n)%nat then 2 ^ 32 - 1 else (1 << Z.of_nat n) - 1) (Z.of_nat i) = true.
Proof using.
  clear Hk. intros Hi. assert ((if (32 <=? n)%nat then 2 ^ 32 - 1 else (1 << Z.of_nat n) - 1) = Z.ones (Z.of_nat n)) as ->.
  { rewrite Z.ones_equiv, <- Z.sub_1_r. destruct (Nat.leb_spec 32 n).
    - by replace n with 32%nat by lia.
    - by rewrite Z.shiftl_mul_pow2, Z.mul_1_l by lia. }
  apply Z.ones_spec_low. lia.
Qed.

(** A block all of whose bits are set would have been decoded. *)
Lemma full_block_decoded b rb :
  block_ok k b → rx_ok k b rb → decoded rb = false →
  ~ (∀ i, (i < k + b_r b)%nat → Z.testbit (mask rb) (Z.of_nat i) = true).
Proof using.
  clear Hk. intros Hb [Hp Hlt] Hd Hall. specialize (Hlt Hd). destruct (rx_wait _ _ _ Hp Hd) as [_ Hbit].
  assert (k ≤ received (shards rb))%nat; [|lia].
  apply (data_present (shards rb) k). apply forallb_forall. intros i Hi%in_seq. apply bool_decide_eq_true.
  specialize (Hall i ltac:(lia)). rewrite Hbit in Hall. by apply bool_decide_eq_true in Hall.
Qed.

Lemma receive_wire hist x ds acc :
  hist_ok k hist → dec_inv k ep hist x → waits x → 1 ≤ window_cap x < 2 ^ 32 → Forall (on_wire k ep hist) ds →
  ∃ x' out, receive_all x acc ds = Some (x', acc ++ out) ∧ received_more k ep hist x x' out.
Proof using Hc Hk Hep.
  intros Hh Hi Hw Hcap Hf. revert x acc Hi Hw Hcap.
  induction Hf as [|dg ds (id & idx & Hdg) _ IH]; intros x acc Hi Hw Hcap; cbn [receive_all].
  { exists x, []. rewrite app_nil_r. split; [done|]. apply received_more_refl; try done. apply Hi. }
  unfold on_packet. destruct (ingest_ok h selected guard k ep Hc Hk Hep hist x dg id idx Hh Hi Hw Hcap Hdg)
    as (x1 & out1 & -> & Hm1 & _). cbn [mbind option_bind]. destruct (Hm1) as [R1 R2 R3 R4 R5 R6].
  destruct (IH x1 (acc ++ out1) R1 R2) as (x2 & out2 & -> & Hm2); [by rewrite R3|].
  exists x2, (out1 ++ out2). rewrite (assoc_L (++)). split; [done|]. by eapply received_more_trans.
Qed.

(** The awaited block cannot stay undelivered once all it lacked arrived. *)
Lemma round_stuck hist x x' out b :
  hist_ok k hist → dec_inv k ep hist x → received_more k ep hist x x' out →
  hist !! Z.to_nat (next_deliver x) = Some b → next_deliver x' = next_deliver x →
  (∀ idx, idx ∈ requested
     (match window x !! next_deliver x with Some rb => missing_mask rb | None => 2 ^ 32 - 1 end) (k + b_r b) →
   ∃ rb', window x' !! next_deliver x = Some rb' ∧ Z.testbit (mask rb') (Z.of_nat idx) = true) → False.
Proof using Hk.
  intros Hh Hi Hm Hb En Hbits. pose proof (Forall_lookup_1 _ _ _ _ (ho_blocks _ _ Hh) Hb) as Hbok.
  pose proof (ok_shards _ _ Hbok) as Hsh. unfold MAX_SHARDS in *.
  assert (∃ rb', window x' !! next_deliver x = Some rb' ∧
    ∀ i, (i < k + b_r b)%nat → Z.testbit (mask rb') (Z.of_nat i) = true) as (rb' & Hw & Hall).
  { destruct (window x !! next_deliver x) as [rb|] eqn:E.
    - destruct (rm_keeps _ _ _ _ _ _ Hm _ rb ltac:(by rewrite En) E) as (rb' & Hw & Hkeep).
      exists rb'. split; [done|]. intros i Hlt. destruct (di_window _ _ _ _ Hi _ _ E) as (_ & b' & Hb' & [Hp _]).
      assert (b' = b) as -> by congruence.
      destruct (Z.testbit (mask rb) (Z.of_nat i)) eqn:Et; [apply Hkeep; [lia|done]|].
      destruct (Hbits i) as (rb2 & Hw2 & Ht2); [|congruence]. apply elem_of_requested; [lia|].
      unfold missing_mask. rewrite Z.ldiff_spec, Et, (rx_k _ _ _ Hp), (rx_r _ _ _ Hp), ones_bit by lia. done.
    - assert (∀ i, (i < k + b_r b)%nat → i ∈ requested (2 ^ 32 - 1) (k + b_r b)) as Hreq.
      { intros i Hlt. apply elem_of_requested; [lia|]. apply (ones_bit 32). lia. }
      destruct (Hbits 0%nat (Hreq 0%nat ltac:(lia))) as (rb' & Hw & _). exists rb'. split; [done|].
      intros i Hlt. destruct (Hbits i (Hreq _ Hlt)) as (rb2 & Hw2 & ?). congruence. }
  rewrite <- En in Hw. pose proof (rm_waits _ _ _ _ _ _ Hm rb' Hw) as Hd.
  destruct (di_window _ _ _ _ (rm_inv _ _ _ _ _ _ Hm) _ _ Hw) as (_ & b' & Hb' & Hok).
  rewrite En in Hb'. assert (b' = b) as -> by congruence. by apply (full_block_decoded b rb').
Qed.

Lemma arq_round_ok m s hist todo :
  link_inv s hist todo → ∃ s', arq_round m s = Some s' ∧ link_inv s' hist todo ∧
    next_block (l_enc s') = next_block (l_enc s) ∧ staged (l_enc s') = staged (l_enc s) ∧
    l_pushed s' = l_pushed s ∧ next_deliver (l_dec s) ≤ next_deliver (l_dec s') ∧
    (next_deliver (l_dec s) < next_block (l_enc s) → next_deliver (l_dec s) < next_deliver (l_dec s')).
Proof using Hc Hk Hep.
  intros Hi. destruct (Hi) as [H1 H2 H3 H4 H5 H6 H7 H8 H9 H10]. unfold arq_round.
  pose proof (di_next _ _ _ _ H4) as Hn. pose proof (ho_len _ _ H1) as Hl.
  set (fb := feedback (l_dec s) true m). set (nd := next_deliver (l_dec s)) in *.
  assert (ack_through fb = nd ∧ nak_block fb = nd ∧
    nak_mask fb = match window (l_dec s) !! nd with Some rb => missing_mask rb | None => 2 ^ 32 - 1 end)
    as (F1 & F2 & F3).
  { unfold fb, feedback. cbn [orb]. fold nd. destruct (window (l_dec s) !! nd) as [rb|] eqn:E; [|done].
    by rewrite (H5 rb E). }
  clearbody fb.
  destruct (on_feedback_ok k ep hist todo (l_enc s) fb H1 H2) as (e & ds & -> & He & Ha & Hd & Hb).
  cbn [mbind option_bind]. rewrite F1, F2, F3 in *.
  assert (∃ x out, receive_all (l_dec s) [] ds = Some (x, out) ∧ received_more k ep hist (l_dec s) x out ∧
    (nd < Z.of_nat (length hist) → nd < next_deliver x)) as (x & out & -> & [R1 R2 R3 R4 R5 R6] & Hadv).
  { destruct (decide (nd < Z.of_nat (length hist))) as [Hlt|Hge].
    - destruct (lookup_lt_is_Some_2 hist (Z.to_nat nd)) as [b Hbk]; [lia|].
      pose proof (Forall_lookup_1 _ _ _ _ (ho_blocks _ _ H1) Hbk) as Hbok.
      pose proof (ok_shards _ _ Hbok) as Hsh. unfold MAX_SHARDS in *.
      specialize (Hb b ltac:(unfold NAK_NONE; lia) ltac:(lia) ltac:(lia) Hbk).
      destruct (receive_block hist (l_dec s) (Z.to_nat nd) _ ds [] H1 H4 H5 H6 ltac:(fold nd; lia) Hb)
        as (x & out & -> & Hm & Hbits). exists x, out. split; [done|]. split; [done|]. intros _.
      pose proof (rm_next _ _ _ _ _ _ Hm) as Hle. fold nd in Hle, Hbits.
      destruct (decide (next_deliver x = nd)) as [Eq|]; [exfalso|lia]. specialize (Hbits Eq).
      by eapply (round_stuck hist (l_dec s) x out b).
    - destruct (receive_wire hist (l_dec s) ds [] H1 H4 H5 H6 Hd) as (x & out & -> & Hm).
      exists x, out. split; [done|]. split; [done|lia]. }
  cbn [mbind option_bind]. eexists. split; [done|]. cbn [l_enc l_dec l_pushed].
  rewrite (en_next _ _ _ _ _ He), (en_next _ _ _ _ _ H2), (en_staged _ _ _ _ _ He), (en_staged _ _ _ _ _ H2).
  split; [|done]. split; cbn [l_enc l_dec l_wire l_pushed l_out]; try done.
  - by rewrite R3.
  - fold nd in R4. lia.
  - by apply Forall_app.
  - rewrite H10. exact R5.
Qed.

Lemma arq_rounds_ok m s hist todo n :
  link_inv s hist todo → ∃ s', Nat.iter n (λ s, s ≫= arq_round m) (Some s) = Some s' ∧ link_inv s' hist todo ∧
    next_block (l_enc s') = next_block (l_enc s) ∧ staged (l_enc s') = staged (l_enc s) ∧ l_pushed s' = l_pushed s ∧
    Z.min (next_block (l_enc s)) (next_deliver (l_dec s) + Z.of_nat n) ≤ next_deliver (l_dec s').
Proof using Hc Hk Hep.
  intros Hi. induction n as [|n (s1 & E & Hi1 & En & Es & Ep & Hle)]; [exists s; split_and!; done || lia|].
  destruct (arq_round_ok m s1 hist todo Hi1) as (s2 & E2 & Hi2 & En2 & Es2 & Ep2 & Hle2 & Hadv).
  exists s2. cbn [Nat.iter nat_rect]. change (nat_rect _ _ _ n) with (Nat.iter n (λ s, s ≫= arq_round m) (Some s)).
  rewrite E. cbn [mbind option_bind]. rewrite En, Es, Ep in *. split_and!; try done. lia.
Qed.

(** ** The items delivered *)

Lemma nonempty_app l1 l2 : nonempty (l1 ++ l2) = nonempty l1 ++ nonempty l2.
Proof using. apply filter_app. Qed.

Lemma items_upto_all hist n : Z.of_nat (length hist) ≤ n → items_upto hist n = nonempty (concat (b_items <$> hist)).
Proof using.
  clear Hk. intros Hn. unfold items_upto. rewrite take_ge by lia. clear Hn.
  induction hist as [|b hist IH]; [done|]. cbn. by rewrite IH, nonempty_app.
Qed.

Lemma items_upto_prefix hist n : items_upto hist n `prefix_of` nonempty (concat (b_items <$> hist)).
Proof using.
  clear Hk. rewrite <- (items_upto_all hist (Z.of_nat (length hist))) by lia. unfold items_upto.
  rewrite Nat2Z.id, (take_ge hist (length hist)) by done.
  rewrite <- (take_drop (Z.to_nat n) hist) at 2. rewrite fmap_app, concat_app. by exists (concat (nonempty ∘ b_items <$> drop (Z.to_nat n) hist)).
Qed.
End link.

(** * The properties *)

(** C20: ordered delivery. Whatever the two ends do, with any parity, over a
    link that loses, repeats and reorders datagrams, with any requests for
    retransmission and acknowledgements of any age (the tower of outer parity,
    [skip_head] and [adopt_epoch] apart): no call panics or fails to return, the items delivered are a prefix of the nonempty items pushed, in
    order and byte for byte, and once the receiver has passed the last sealed
    block they are all items of the sealed blocks. *)
Theorem udp_ordered_delivery h selected guard k r max_item ep cap ops s :
  cache_ok h selected → (0 < k ≤ MAX_SHARDS)%nat → 0 ≤ ep < 2 ^ 32 → 1 ≤ cap < 2 ^ 32 →
  ltrace (link_step h selected guard) (link_start k r max_item ep cap) ops s →
  l_out s `prefix_of` nonempty (l_pushed s) ∧
  next_deliver (l_dec s) ≤ next_block (l_enc s) ∧
  (next_deliver (l_dec s) = next_block (l_enc s) → staged (l_enc s) = [] → l_out s = nonempty (l_pushed s)) ∧
  ∀ op, allowed s op → ∃ s', link_do h selected guard s op = Some s'.
Proof.
  intros Hc Hk Hep Hcap Htr.
  destruct (link_reachable h selected guard k ep Hc Hk Hep _ _ _ _ _ Hcap Htr) as (hist & todo & Hi).
  destruct (Hi) as [H1 H2 H3 H4 H5 H6 H7 H8 H9 H10]. rewrite H9, nonempty_app. split_and!.
  - rewrite H10. etransitivity; [apply items_upto_prefix|]. by eexists.
  - rewrite (en_next _ _ _ _ _ H2). apply H4.
  - rewrite (en_next _ _ _ _ _ H2), (en_staged _ _ _ _ _ H2). intros En Es. apply fmap_nil_inv in Es as ->.
    rewrite app_nil_r, H10. apply items_upto_all. lia.
  - intros op Ha. destruct (link_do_ok h selected guard k ep Hc Hk Hep _ _ _ _ Hi Ha) as (s' & _ & _ & E & _). eauto.
Qed.

(** C21: retransmission delivers everything. From any state the ends can reach,
    each round in which the receiver's feedback gets through and is answered
    moves it past at least one more block, so after as many rounds as there
    are undelivered blocks every item of the sealed blocks is delivered,
    whatever was lost before. *)
Theorem udp_arq_delivers_all h selected guard k r max_item ep cap ops s m :
  cache_ok h selected → (0 < k ≤ MAX_SHARDS)%nat → 0 ≤ ep < 2 ^ 32 → 1 ≤ cap < 2 ^ 32 →
  ltrace (link_step h selected guard) (link_start k r max_item ep cap) ops s →
  let rounds := Z.to_nat (next_block (l_enc s) - next_deliver (l_dec s)) in
  ∃ s', Nat.iter rounds (λ s, s ≫= arq_round h selected guard m) (Some s) = Some s' ∧
    next_deliver (l_dec s') = next_block (l_enc s') ∧ l_pushed s' = l_pushed s ∧
    (staged (l_enc s) = [] → l_out s' = nonempty (l_pushed s)).
Proof.
  intros Hc Hk Hep Hcap Htr.
  destruct (link_reachable h selected guard k ep Hc Hk Hep _ _ _ _ _ Hcap Htr) as (hist & todo & Hi).
  cbv zeta. set (nb := next_block (l_enc s)). set (nd := next_deliver (l_dec s)).
  pose proof (arq_rounds_ok h selected guard k ep Hc Hk Hep m s hist todo (Z.to_nat (nb - nd)) Hi)
    as (s' & E & Hi' & En & Es & Ep & Hle).
  exists s'. split; [done|]. assert (next_deliver (l_dec s') = next_block (l_enc s')) as Eq.
  { pose proof (di_next _ _ _ _ (ln_dec _ _ _ _ _ Hi')). pose proof (en_next _ _ _ _ _ (ln_enc _ _ _ _ _ Hi')) as Hb.
    pose proof (di_next _ _ _ _ (ln_dec _ _ _ _ _ Hi)). pose proof (en_next _ _ _ _ _ (ln_enc _ _ _ _ _ Hi)) as Hb0.
    subst nb nd. lia. }
  split; [done|]. split; [done|]. intros E0. rewrite E0 in Es.
  destruct (Hi') as [H1 H2 H3 H4 H5 H6 H7 H8 H9 H10]. rewrite <- Ep, H9, H10, Eq, (en_next _ _ _ _ _ H2).
  rewrite (en_staged _ _ _ _ _ H2) in Es. apply fmap_nil_inv in Es as ->. rewrite app_nil_r.
  by apply items_upto_all.
Qed.

Lemma drain_panics h selected guard x rb :
  window x !! next_deliver x = Some rb → decoded rb = true → block_items rb = None →
  drain_in_order h selected guard x = None.
Proof. intros Hw Hd Hb. unfold drain_in_order, drain_fuel. cbn [drain_loop]. by rewrite Hw, Hd, Hb. Qed.

(** The gates a well-formed datagram of the session passes. *)
Lemma ingest_gates h selected guard x pb id idx flags epoch dg :
  datagram_flagged pb id idx flags epoch = Some dg → 0 ≤ id < 2 ^ 32 → 0 ≤ epoch < 2 ^ 32 → (idx < 256)%nat →
  session_epoch x = None ∨ session_epoch x = Some epoch →
  ingest h selected guard x dg =
    let x := set_session (set_rejects x (note_seen (rejects x) id)) (Some epoch) (unknown_epoch x) in
    let k := byte_nat (pk pb) in
    let r := byte_nat (pr pb) in
    if (k =? 0)%nat || (MAX_SHARDS <? k + r)%nat || (k + r <=? idx)%nat then Some (refuse x Shape, [])
    else if negb (Z.land id OUTER_ID_BIT =? 0) then
      x ← handle_outer h selected x id idx k r (drop DATA_HEADER dg); drain_in_order h selected guard x
    else ingest_shard h selected guard x id idx k r (negb (Z.land (bZ (at_ dg 8)) FLAG_RETRANSMIT =? 0)) (drop DATA_HEADER dg).
Proof.
  intros Hdg Hid Hep Hidx Hs. destruct (datagram_fields _ _ _ _ _ _ Hdg Hid Hep Hidx) as (G1 & G2 & G3 & G4 & G5 & G6 & G7 & G8).
  unfold ingest. rewrite G2, (proj2 (Nat.ltb_ge _ _)) by done. cbn [negb orb]. rewrite G4, G5, G6, G7, G8.
  cbn [set_rejects session_epoch unknown_epoch]. by rewrite bool_decide_true.
Qed.

(** ** Where the contract ends *)

(** Blocks of one item with one parity shard and the tower over segments of two
    blocks; three items, and the flush that seals the last, partial segment. *)
Definition tower_sent (h : Host) (selected : Z) : option (Encoder * list (list byte)) :=
  let e := enable_tower (enc_new 1 1 8 7) 2 1 in
  '(e, d0) ← push h selected e [x41];
  '(e, d1) ← push h selected e [x42];
  '(e, d2) ← push h selected e [x43];
  '(e, d3) ← flush h selected e;
  Some (e, d0 ++ d1 ++ d2 ++ d3).

(** A segment sealed short is recovered as the wrong block. The receiver
    computes the block a segment starts at from the largest segment it has
    seen, so when the first outer datagram to arrive is of a short segment, a
    missing block is rebuilt from another one: of the items [A], [B], [C] sent,
    the first datagram of block 0 and the first outer datagram of the flush
    make the receiver deliver [A] and then [C], and move past block 1. And a
    sender whose parity has been set to zero panics when it seals a segment. *)
Lemma udp_tower_misdelivers :
  (∃ e ds x0 x1,
    tower_sent test_host BACKEND_UNINIT = Some (e, ds) ∧ length ds = 10%nat ∧
    on_packet test_host BACKEND_UNINIT true dec_new (nth 0 ds []) = Some (x0, [ [x41] ]) ∧
    on_packet test_host BACKEND_UNINIT true x0 (nth 8 ds []) = Some (x1, [ [x43] ]) ∧
    next_deliver x1 = 2) ∧
  push test_host BACKEND_UNINIT (set_parity (enable_tower (enc_new 1 1 8 7) 1 1) 0) [x41] = None.
Proof.
  split; [|vm_compute; reflexivity]. eexists _, _, _, _.
  split; [vm_compute; reflexivity|]. split; [vm_compute; reflexivity|].
  split; [vm_compute; reflexivity|]. split; [vm_compute; reflexivity|vm_compute; reflexivity].
Qed.

(** One data shard, no parity, no payload. *)
Definition empty_shard_datagram (block_id epoch : Z) : list byte :=
  [PKT_DATA] ++ le_bytes 4 block_id ++ [x00; x01; x00; x00] ++ le_bytes 4 epoch.

(** Segment 0 of one block and one parity block, whose one shard has no parity. *)
Definition bare_outer_datagram (epoch : Z) : list byte :=
  [PKT_DATA] ++ le_bytes 4 0x89000000 ++ [x00; x01; x00; x02] ++ le_bytes 4 epoch ++ [x00].

(** A datagram can panic the receiver. A pass-through shard without bytes
    (thirteen header bytes, one data shard, no parity) completes its block and
    is then indexed for its length prefix; an outer datagram that names no
    parity reaches [RsCode::new(1, 0).expect(..)]. Both pass every gate of a
    receiver of that session, in any state that still waits for the block, or
    has not seen the segment. *)
Lemma udp_datagram_panics h selected guard x epoch :
  0 ≤ epoch < 2 ^ 32 → session_epoch x = None ∨ session_epoch x = Some epoch →
  (0 ≤ next_deliver x < 2 ^ 31 → 1 ≤ window_cap x < 2 ^ 32 → window x !! next_deliver x = None →
   on_packet h selected guard x (empty_shard_datagram (next_deliver x) epoch) = None) ∧
  (outer_rx (tower x) !! 0x89000000 = None → on_packet h selected guard x (bare_outer_datagram epoch) = None).
Proof.
  intros Hep Hs. split.
  - intros Hn Hcap Hw. unfold on_packet. erewrite (ingest_gates h selected guard x
      {| pk := x01; pr := x00; pshard_len := 0; pshards := [ [] ] |} (next_deliver x) 0 0 epoch);
      [|reflexivity|lia|done|lia|done]. cbn [pk pr]. unfold MAX_SHARDS. cbn [byte_nat Nat.eqb Nat.ltb Nat.leb orb].
    rewrite outer_bit_clear by done. cbn [Z.eqb negb]. unfold ingest_shard.
    set (x0 := if (inner_k _ =? 0)%nat then _ else _).
    assert (next_deliver x0 = next_deliver x ∧ window x0 = window x ∧ window_cap x0 = window_cap x) as (E1 & E2 & E3).
    { unfold x0. by destruct (inner_k _ =? 0)%nat. }
    clearbody x0. rewrite E1, E3, (wrap_small 32) by lia.
    rewrite (proj2 (Z.ltb_ge _ _)), (proj2 (Z.leb_gt _ _)) by lia.
    cbn [set_frontier window]. rewrite E2, Hw. cbn [default from_option].
    change (shape_differs _ _ _ _) with false. change (try_decode h selected _)
      with (Some ({| bk := 1; br := 0; bshard_len := 0; mask := 1; retransmitted := 0; false_recovery := 0;
                     shards := [Some [] ]; decoded := true |}, true)).
    cbn [mbind option_bind]. eapply drain_panics; [cbn; rewrite ?E1; apply lookup_insert_eq|done|done].
  - intros Ho. unfold on_packet. erewrite (ingest_gates h selected guard x
      {| pk := x01; pr := x00; pshard_len := 1; pshards := [ [x00] ] |} 0x89000000 0 FLAG_OUTER epoch);
      [|reflexivity|lia|done|lia|done]. cbn [pk pr]. unfold MAX_SHARDS. cbn [byte_nat Nat.eqb Nat.ltb Nat.leb orb].
    change (Z.land 0x89000000 OUTER_ID_BIT =? 0) with false. cbn [negb]. unfold handle_outer.
    cbn [set_session set_rejects tower]. rewrite Ho. reflexivity.
Qed.

(** * Witnesses *)

(** Blocks of two items with one parity shard. *)
Definition demo_start : link := link_start 2 1 8 7 4.
Definition demo_do : link → link_op → option link := link_do test_host BACKEND_UNINIT true.

Definition demo_sent : link := Eval vm_compute in
  default demo_start (s ← demo_do demo_start (OPush [x41]); demo_do s (OPush [x42; x43])).

(** The first data shard is lost; the parity shard and the second one arrive. *)
Definition demo_received : link := Eval vm_compute in
  default demo_start (s ← demo_do demo_sent (OReceive (nth 2 (l_wire demo_sent) []));
                      demo_do s (OReceive (nth 1 (l_wire demo_sent) []))).

Definition demo_pushes : list link_op := [OPush [x41]; OPush [x42; x43] ].
Definition demo_arrivals : list link_op :=
  [OReceive (nth 2 (l_wire demo_sent) []); OReceive (nth 1 (l_wire demo_sent) [])].

Lemma demo_sent_trace : ltrace (link_step test_host BACKEND_UNINIT true) demo_start demo_pushes demo_sent.
Proof.
  eapply ltrace_cons; [split; [done|vm_compute; reflexivity]|].
  eapply ltrace_cons; [split; [done|vm_compute; reflexivity]|]. apply ltrace_nil.
Qed.

Lemma demo_received_trace :
  ltrace (link_step test_host BACKEND_UNINIT true) demo_start (demo_pushes ++ demo_arrivals) demo_received.
Proof.
  apply (ltrace_app _ _ _ demo_sent); [apply demo_sent_trace|].
  eapply ltrace_cons; [split; [apply list_elem_of_In, nth_In; vm_compute; lia|vm_compute; reflexivity]|].
  eapply ltrace_cons; [split; [apply list_elem_of_In, nth_In; vm_compute; lia|vm_compute; reflexivity]|].
  apply ltrace_nil.
Qed.

Lemma udp_ordered_delivery_witness :
  next_deliver (l_dec demo_received) = next_block (l_enc demo_received) ∧ l_out demo_received = [ [x41]; [x42; x43] ].
Proof.
  split; [reflexivity|].
  destruct (udp_ordered_delivery test_host BACKEND_UNINIT true 2 1 8 7 4
    (demo_pushes ++ demo_arrivals) demo_received) as (_ & _ & H & _);
    [by left|unfold MAX_SHARDS; lia|lia|lia|exact demo_received_trace|].
  rewrite H by reflexivity. reflexivity.
Defined.

Lemma udp_arq_delivers_all_witness :
  ∃ s', arq_round test_host BACKEND_UNINIT true {| burstiness := 0; trend_class := 1; class_code := 0 |} demo_sent = Some s' ∧
    l_out s' = [ [x41]; [x42; x43] ].
Proof.
  destruct (udp_arq_delivers_all test_host BACKEND_UNINIT true 2 1 8 7 4 demo_pushes demo_sent
    {| burstiness := 0; trend_class := 1; class_code := 0 |}) as (s' & E & _ & _ & Ho);
    [by left|unfold MAX_SHARDS; lia|lia|lia|exact demo_sent_trace|].
  exists s'. split; [exact E|]. rewrite Ho by reflexivity. reflexivity.
Defined.
