(* ===== verification/Interleave.v ===== *)
(** The block interleaver: crates/subetha-cxc/src/interleave.rs, and what it
    buys the Reed-Solomon code of [Fec] against bursts.

    A datagram is moved out of its block when it is emitted; the emptied blocks
    are dropped at the end of the call, so the model reads them. *)
From Stdlib Require Import Strings.Byte.
From S2P Require Import Prelude Gf256 GfKernels GfLinear Fec.

(** * The interleaver *)

Record Interleaver := { depth : nat; pending : list (list (list byte)) }.

Definition il_new (d : nat) : Interleaver := {| depth := Nat.max d 1; pending := [] |}.

Definition buffered_blocks (il : Interleaver) : nat := length (pending il).

(** One column of every block that has it, column by column. *)
Definition column (blocks : list (list (list byte))) (col : nat) : list (list byte) :=
  omap (λ block, block !! col) blocks.

Definition max_len (blocks : list (list (list byte))) : nat := foldr Nat.max 0%nat (length <$> blocks).

Definition interleaved (blocks : list (list (list byte))) : list (list byte) :=
  concat (column blocks <$> seq 0 (max_len blocks)).

Definition emit (il : Interleaver) : Interleaver * list (list byte) :=
  ({| depth := depth il; pending := [] |}, interleaved (pending il)).

Definition flush (il : Interleaver) : Interleaver * list (list byte) :=
  match pending il with [] => (il, []) | _ => emit il end.

Definition add_block (il : Interleaver) (datagrams : list (list byte)) : Interleaver * list (list byte) :=
  match datagrams with
  | [] => (il, [])
  | _ =>
      let il := {| depth := depth il; pending := pending il ++ [datagrams] |} in
      if (depth il <=? length (pending il))%nat then emit il else (il, [])
  end.

Definition set_depth (il : Interleaver) (d : nat) : Interleaver * list (list byte) :=
  let '(il, flushed) := flush il in ({| depth := Nat.max d 1; pending := pending il |}, flushed).

(** * Nothing is lost *)

Inductive il_op := AddBlock (datagrams : list (list byte)) | SetDepth (d : nat) | Flush.

Definition il_do (il : Interleaver) (op : il_op) : Interleaver * list (list byte) :=
  match op with AddBlock b => add_block il b | SetDepth d => set_depth il d | Flush => flush il end.

Fixpoint il_run (il : Interleaver) (ops : list il_op) : Interleaver * list (list byte) :=
  match ops with
  | [] => (il, [])
  | op :: ops => let '(il, out) := il_do il op in let '(il, rest) := il_run il ops in (il, out ++ rest)
  end.

(** The datagrams an operation hands over. *)
Definition handed (op : il_op) : list (list byte) := match op with AddBlock b => b | _ => [] end.

Lemma max_len_ge blocks b : b ∈ blocks → (length b ≤ max_len blocks)%nat.
Proof. induction 1 as [b l|b y l _ IH]; cbn; [lia|]. unfold max_len in IH. lia. Qed.

Lemma columns_cons b blocks n :
  concat (column (b :: blocks) <$> seq 0 n) ≡ₚ take n b ++ concat (column blocks <$> seq 0 n).
Proof.
  induction n as [|n IH]; [done|]. rewrite seq_S, !fmap_app, !concat_app, IH. cbn [Nat.add fmap list_fmap concat].
  rewrite !app_nil_r. unfold column at 2. cbn [omap list_omap].
  destruct (b !! n) as [v|] eqn:E.
  - rewrite (take_S_r _ _ _ E), <- !(assoc_L (++)). apply Permutation_app_head. cbn.
    symmetry. apply Permutation_middle.
  - apply lookup_ge_None in E. rewrite !take_ge by lia. by rewrite (assoc_L (++)).
Qed.

Lemma columns_permute blocks n :
  Forall (λ b, length b ≤ n)%nat blocks → concat (column blocks <$> seq 0 n) ≡ₚ concat blocks.
Proof.
  induction 1 as [|b blocks Hb _ IH]; [|].
  - cbn. induction (seq 0 n) as [|i l IHl]; [done|exact IHl].
  - by rewrite columns_cons, IH, take_ge by done.
Qed.

Lemma interleaved_permutes blocks : interleaved blocks ≡ₚ concat blocks.
Proof. apply columns_permute, Forall_forall, max_len_ge. Qed.

Lemma il_do_permutes il op :
  let '(il', out) := il_do il op in
  out ++ concat (pending il') ≡ₚ concat (pending il) ++ handed op ∧
  ((length (pending il) < depth il)%nat → (length (pending il') < depth il')%nat).
Proof.
  assert (∀ il, let '(il', out) := flush il in out ++ concat (pending il') ≡ₚ concat (pending il) ∧
    pending il' = [] ∧ depth il' = depth il) as Hf.
  { intros [d p]. unfold flush. cbn [pending]. destruct p as [|b p]; [done|]. cbn [emit pending depth].
    split; [|done]. by rewrite app_nil_r, interleaved_permutes. }
  destruct op as [b|d|]; cbn [il_do handed].
  - unfold add_block. destruct b as [|x b]; [split; [by rewrite app_nil_r|done]|]. cbn [depth pending].
    destruct (Nat.leb_spec (depth il) (length (pending il ++ [x :: b]))); cbn [emit pending depth].
    + split; [|cbn; lia]. by rewrite app_nil_r, interleaved_permutes, concat_app; cbn; rewrite app_nil_r.
    + split; [|lia]. rewrite concat_app. cbn. by rewrite app_nil_r.
  - unfold set_depth. specialize (Hf il). destruct (flush il) as [il' out]. destruct Hf as (Hp & Ep & Hd).
    cbn [pending depth]. rewrite app_nil_r. split; [done|]. rewrite Ep. cbn. lia.
  - specialize (Hf il). destruct (flush il) as [il' out]. destruct Hf as (Hp & Ep & Hd).
    rewrite app_nil_r. split; [done|]. rewrite Ep, Hd. cbn. lia.
Qed.

(** * Bursts *)

(** Among blocks of one length, datagram [c] of block [j] goes out at position
    [c * m + j]. *)
Lemma length_column blocks n col :
  Forall (λ b, length b = n) blocks → (col < n)%nat → length (column blocks col) = length blocks.
Proof.
  intros Hf Hc. induction Hf as [|b blocks Hb _ IH]; [done|]. cbn.
  destruct (lookup_lt_is_Some_2 b col) as [v ->]; [lia|]. cbn. by f_equal.
Qed.

Lemma lookup_column blocks n col j :
  Forall (λ b, length b = n) blocks → (col < n)%nat → column blocks col !! j = blocks !! j ≫= (.!! col).
Proof.
  intros Hf Hc. revert j. induction Hf as [|b blocks Hb _ IH]; intros j; [done|]. cbn.
  destruct (lookup_lt_is_Some_2 b col) as [v E]; [lia|]. rewrite E. destruct j; cbn; [by rewrite E|apply IH].
Qed.

Lemma lookup_columns blocks n m :
  Forall (λ b, length b = n) blocks → (m ≤ n)%nat →
  let out := concat (column blocks <$> seq 0 m) in
  length out = (m * length blocks)%nat ∧
  ∀ c j, (c < m)%nat → (j < length blocks)%nat → out !! (c * length blocks + j)%nat = blocks !! j ≫= (.!! c).
Proof.
  intros Hf. induction m as [|m IH]; intros Hm; [split; [done|lia]|].
  destruct (IH ltac:(lia)) as [Hl Ho]. cbv zeta. rewrite seq_S, fmap_app, concat_app. cbn [Nat.add fmap list_fmap concat].
  rewrite app_nil_r, length_app, (length_column _ n), Hl by (done || lia). split; [lia|].
  intros c j Hc Hj. destruct (decide (c = m)) as [->|].
  - rewrite lookup_app_r, Hl by lia. replace (m * length blocks + j - m * length blocks)%nat with j by lia.
    by apply (lookup_column _ n).
  - rewrite lookup_app_l by (rewrite Hl; nia). apply Ho; lia.
Qed.

Lemma lookup_interleaved blocks n c j :
  Forall (λ b, length b = n) blocks → (c < n)%nat → (j < length blocks)%nat →
  interleaved blocks !! (c * length blocks + j)%nat = blocks !! j ≫= (.!! c).
Proof.
  intros Hf Hc Hj. unfold interleaved. assert (max_len blocks = n) as ->.
  { destruct Hf as [|b l Hb Hl]; [cbn in Hj; lia|]. unfold max_len. cbn. clear Hj. subst n.
    induction Hl as [|b' l Hb' _ IH]; cbn; lia. }
  by apply (lookup_columns blocks n n).
Qed.

(** What reaches block [j] of [m], by block and shard number, when the [w]
    positions from [a] on are lost. *)
Definition hit (m a w c j : nat) : bool := (a <=? c * m + j)%nat && (c * m + j <? a + w)%nat.

Definition routed (out : list (list byte)) (m n a w j : nat) : list (option (list byte)) :=
  (λ c, if hit m a w c j then None else out !! (c * m + j)%nat) <$> seq 0 n.

Lemma hits_bound m a w j n r :
  (j < m)%nat → (w ≤ m * r)%nat → (length (List.filter (λ c, hit m a w c j) (seq 0 n)) ≤ r)%nat.
Proof.
  intros Hj Hw. set (lo := ((a + m - 1 - j) / m)%nat).
  assert (length (List.filter (λ c, hit m a w c j) (seq 0 n)) ≤ length (seq lo r))%nat as H; [|by rewrite length_seq in H].
  apply submseteq_length, NoDup_submseteq.
  - apply NoDup_ListNoDup, List.NoDup_filter, NoDup_ListNoDup, NoDup_seq.
  - intros c Hc. apply list_elem_of_In, filter_In in Hc as [_ Hh]. unfold hit in Hh.
    apply andb_true_iff in Hh as [H1%Nat.leb_le H2%Nat.ltb_lt]. apply elem_of_seq.
    assert (lo * m ≤ a + m - 1 - j)%nat by (unfold lo; pose proof (Nat.Div0.mul_div_le (a + m - 1 - j) m); lia).
    assert (a + m - 1 - j < (lo + 1) * m)%nat.
    { unfold lo. pose proof (Nat.mul_succ_div_gt (a + m - 1 - j) m ltac:(lia)). lia. }
    split; nia.
Qed.

(** A burst leaves all but [r] shards of each block. *)
Lemma routed_received blocks block n a w j r :
  Forall (λ b, length b = n) blocks → blocks !! j = Some block → (w ≤ length blocks * r)%nat →
  erased block (routed (interleaved blocks) (length blocks) n a w j) ∧
  (n - r ≤ received (routed (interleaved blocks) (length blocks) n a w j))%nat.
Proof.
  intros Hf Hj Hw. pose proof (lookup_lt_Some _ _ _ Hj) as Hlt.
  pose proof (Forall_lookup_1 _ _ _ _ Hf Hj) as Hn. cbv beta in Hn. set (sh := routed _ _ _ _ _ _).
  assert (∀ c, (c < n)%nat → sh !! c = Some (if hit (length blocks) a w c j then None else block !! c)) as Hsh.
  { intros c Hc. unfold sh, routed. rewrite list_lookup_fmap, lookup_seq_lt by done. cbn [fmap option_fmap option_map Nat.add].
    by rewrite (lookup_interleaved _ n), Hj by done. }
  assert (length sh = n) as Hls by (unfold sh, routed; by rewrite length_fmap, length_seq).
  split.
  - apply Forall2_same_length_lookup_2; [lia|]. intros c v s Hv Hs.
    rewrite Hsh in Hs by (apply lookup_lt_Some in Hv; lia). injection Hs as <-.
    destruct (hit _ _ _ _ _); [by left|by right].
  - pose proof (hits_bound (length blocks) a w j n r Hlt Hw) as Hh.
    pose proof (List.filter_length (λ c, hit (length blocks) a w c j) (seq 0 n)) as Hsum. rewrite length_seq in Hsum.
    enough (length (List.filter (λ c, negb (hit (length blocks) a w c j)) (seq 0 n)) ≤ received sh)%nat by lia.
    unfold received. apply submseteq_length, NoDup_submseteq.
    + apply NoDup_ListNoDup, List.NoDup_filter, NoDup_ListNoDup, NoDup_seq.
    + intros c Hc. apply list_elem_of_In, filter_In in Hc as [Hin Hneg]. apply in_seq in Hin.
      apply elem_of_positions. split; [lia|]. rewrite Nat.sub_0_r, nth_lookup, Hsh by lia.
      apply negb_true_iff in Hneg. rewrite Hneg. cbn. apply lookup_lt_is_Some. lia.
Qed.

(** A whole group goes out with its last block. *)
Lemma il_run_group d p bs :
  Forall (λ b, b ≠ []) bs → (length p + length bs = d)%nat → bs ≠ [] →
  il_run {| depth := d; pending := p |} (AddBlock <$> bs)
  = ({| depth := d; pending := [] |}, interleaved (p ++ bs)).
Proof.
  intros Hf. revert p. induction Hf as [|b bs Hb _ IH]; intros p Hl Hne; [done|].
  cbn [fmap list_fmap il_run il_do]. unfold add_block. destruct b as [|x b]; [done|]. cbn [depth pending].
  rewrite length_app. cbn [length] in *. destruct bs as [|b' bs].
  - rewrite (proj2 (Nat.leb_le _ _)) by (cbn in *; lia). cbn. by rewrite app_nil_r.
  - rewrite (proj2 (Nat.leb_gt _ _)) by (cbn in *; lia). rewrite IH; [|rewrite length_app; cbn in *; lia|done].
    by rewrite <- (assoc_L (++)).
Qed.

(** * The properties *)

(** The interleaver only reorders. Under any calls, what has been emitted
    and what is still buffered are together the datagrams handed over, each as
    often; fewer blocks than the depth stay buffered, and none after a flush. *)
Lemma interleave_permutes d ops :
  let '(il, out) := il_run (il_new d) ops in
  out ++ concat (pending il) ≡ₚ concat (handed <$> ops) ∧
  (length (pending il) < depth il)%nat ∧
  let '(il', rest) := flush il in pending il' = [] ∧ out ++ rest ≡ₚ concat (handed <$> ops).
Proof.
  assert (∀ il, let '(il', out) := il_run il ops in
    out ++ concat (pending il') ≡ₚ concat (pending il) ++ concat (handed <$> ops) ∧
    ((length (pending il) < depth il)%nat → (length (pending il') < depth il')%nat)) as H.
  { induction ops as [|op ops IH]; intros il; cbn [il_run fmap list_fmap concat]; [by rewrite app_nil_r|].
    pose proof (il_do_permutes il op) as H1. destruct (il_do il op) as [il1 out1]. destruct H1 as [P1 L1].
    specialize (IH il1). destruct (il_run il1 ops) as [il2 out2]. destruct IH as [P2 L2]. split; [|auto].
    by rewrite <- (assoc_L (++)), P2, (assoc_L (++)), P1, <- (assoc_L (++)). }
  specialize (H (il_new d)). destruct (il_run (il_new d) ops) as [il out]. destruct H as [P L].
  change (concat (pending (il_new d))) with (@nil (list byte)) in P. split; [done|]. split; [apply L; cbn; lia|].
  pose proof (il_do_permutes il Flush) as Hf. cbn [il_do handed] in Hf.
  assert (pending (flush il).1 = []) as He by (unfold flush; destruct il as [? [|] ]; done).
  destruct (flush il) as [il' rest]. cbn [fst] in He. destruct Hf as [Pf _]. split; [done|].
  rewrite He in Pf. cbn [concat] in Pf. rewrite !app_nil_r in Pf. by rewrite Pf.
Qed.

(** C22: interleaving turns a burst into losses the code repairs. [depth] blocks
    of [k + r] shards go through the interleaver; whatever run of up to
    [depth * r] consecutive datagrams is then lost, every block decodes to its
    data, byte for byte, from the datagrams that arrive. (A run of [depth]
    takes at most one shard of each block.) *)
Theorem interleaved_rs_survives_burst h selected kk rr code blocks len a w j data :
  rs_new kk rr = Ok code → cache_ok h selected → (0 < len)%nat →
  Forall (λ data, length data = kk ∧ Forall (λ s, length s = len) data) blocks → blocks ≠ [] →
  blocks !! j = Some data → (w ≤ length blocks * rr)%nat →
  let coded := (λ data, data ++ (parity_shard kk len data <$> seq 0 rr)) <$> blocks in
  let '(il, out) := il_run (il_new (length blocks)) (AddBlock <$> coded) in
  pending il = [] ∧
  ∃ shards' s, decode h selected code (routed out (length blocks) (kk + rr) a w j) = (Ok shards', s) ∧
    ∀ i, (i < kk)%nat → shards' !! i = Some (data !! i).
Proof.
  intros Hn Hc Hlen Hf Hne Hj Hw coded. destruct (rs_new_built _ _ _ Hn) as (Hb & Ek & Er).
  assert (backend_ok h code) as Hbk.
  { revert Hn. unfold rs_new. destruct (_ || _); [done|]. by intros [= <-]. }
  assert (length coded = length blocks) as Hlc by apply length_fmap.
  assert (Forall (λ b, length b = kk + rr)%nat coded) as Hcl.
  { apply Forall_fmap. eapply Forall_impl; [exact Hf|]. intros x [Hx _]. cbn.
    by rewrite length_app, Hx, length_fmap, length_seq. }
  assert (il_new (length blocks) = {| depth := length blocks; pending := [] |}) as ->.
  { unfold il_new. f_equal. destruct blocks; [done|cbn; lia]. }
  rewrite il_run_group; [| |cbn; lia|by destruct blocks].
  2: { eapply Forall_impl; [exact Hcl|]. cbn. intros x Hx ->. destruct Hb as (? & _). cbn in Hx. lia. }
  cbn [app pending]. split; [done|].
  assert (coded !! j = Some (data ++ (parity_shard kk len data <$> seq 0 rr))) as Hcj
    by (unfold coded; by rewrite list_lookup_fmap, Hj).
  destruct (Forall_lookup_1 _ _ _ _ Hf Hj) as [Hd Fd]. rewrite <- Hlc in Hw |- *.
  destruct (routed_received coded _ (kk + rr) a w j rr Hcl Hcj Hw) as [He Hr].
  pose proof (rs_decode_spec h selected code data len (routed (interleaved coded) (length coded) (kk + rr) a w j)
    Hb Hbk Hc ltac:(lia) Fd Hlen) as Hdec.
  rewrite decide_True in Hdec by lia. destruct Hdec as (sh & s & E & _ & Hsh).
  { unfold sent. by rewrite Ek, Er. }
  exists sh, s. split; [done|]. intros i Hi. rewrite Hsh, decide_True by lia.
  destruct (lookup_lt_is_Some_2 data i) as [v Hv]; [lia|]. by rewrite Hv, (nth_lookup_Some _ _ _ _ Hv).
Qed.

(** Two blocks of two data shards and one parity shard, interleaved: positions
    2 and 3 are lost, the second shard of each block. *)
Lemma interleaved_rs_survives_burst_witness :
  let blocks := [ [ [x41]; [x42] ]; [ [x43]; [x44] ] ] in
  let coded := (λ data, data ++ (parity_shard 2 1 data <$> seq 0 1)) <$> blocks in
  let out := (il_run (il_new 2) (AddBlock <$> coded)).2 in
  ∃ shards' s, decode test_host BACKEND_UNINIT {| k := 2; r := 1; cauchy := cauchy_matrix 2 1; backend := None |}
      (routed out 2 3 2 2 1) = (Ok shards', s) ∧ ∀ i, (i < 2)%nat → shards' !! i = Some ([ [x43]; [x44] ] !! i).
Proof.
  cbv zeta. apply (interleaved_rs_survives_burst test_host BACKEND_UNINIT 2 1
    {| k := 2; r := 1; cauchy := cauchy_matrix 2 1; backend := None |} [ [ [x41]; [x42] ]; [ [x43]; [x44] ] ] 1 2 2 1
    [ [x43]; [x44] ]); [reflexivity|by left|lia|by repeat constructor|done|reflexivity|cbn; lia].
Defined.

(** Blocks of different lengths lose the spacing: with depth 2, the longer of
    two blocks has adjacent shards, so a burst of two takes both. *)
Lemma interleave_uneven :
  (il_run (il_new 2) [AddBlock [ [x01] ]; AddBlock [ [x11]; [x12]; [x13] ] ]).2 = [ [x01]; [x11]; [x12]; [x13] ].
Proof. reflexivity. Qed.
