(* ===== verification/TreiberStack.v ===== *)
(** The lock-free stack: crates/subetha-cxc/src/shared_treiber_stack.rs.

    The stack and its free list are chains through [next], each headed by a word
    that packs a 32-bit exchange counter over the index of the top slot. [tstep]
    cuts [push], [pop] and [peek] into their memory accesses, and [stack_step]
    interleaves any number of threads. [hgen] and [fgen] count the exchanges
    of the two heads without wrapping: no access reads them, they only say when
    a counter has come round ([timely]). Calls to the observation ring, file
    attachment and flushing are left out. *)
From stdpp Require Import gmap.
From S2P Require Import Prelude.
From S2P Require SharedRegion.

Definition STACK_MAGIC : Z := 0x41505354.
Definition STACK_NIL : Z := 2 ^ 32 - 1.

Record StackHeader := {
  magic : Z; capacity : Z; slot_size : Z; head : Z; free_head : Z; bump_next : Z;
  layout_tag : Z; alignment : Z }.

Definition HEADER_SIZE : Z := 64.

Definition stack_file_size (capacity slot_size : Z) : Z :=
  u64 (u64 (HEADER_SIZE + u64 (capacity * 4)) + u64 (capacity * slot_size)).

Inductive StackError := Full | LayoutMismatch | IoError (kind : Z).

Definition pack (counter index : Z) : Z := Z.lor (Z.shiftl counter 32) index.
Definition unpack (v : Z) : Z * Z := (u32 (Z.shiftr v 32), u32 v).
#[global] Arguments pack : simpl never.
#[global] Arguments unpack : simpl never.

(** [init_region] on zeroed bytes, for elements of [size] bytes. *)
Definition init_region (capacity size align : Z) : StackHeader :=
  {| magic := STACK_MAGIC; capacity := u32 capacity; slot_size := u32 size;
     head := pack 0 STACK_NIL; free_head := pack 0 STACK_NIL; bump_next := 0;
     layout_tag := 0; alignment := u32 align |}.

(** [from_region]: whether the header is taken. *)
Definition from_region (hdr : StackHeader) (cap size : Z) : res StackError unit :=
  if negb (magic hdr =? STACK_MAGIC) || negb (capacity hdr =? u32 cap) || negb (slot_size hdr =? u32 size)
  then Err LayoutMismatch else Ok tt.

Definition reset (cap size align : Z) : res StackError StackHeader :=
  _ ← assert_ (1 <=? cap); _ ← assert_ (cap <? STACK_NIL);
  let hdr := init_region cap size align in
  _ ← from_region hdr cap size; Ok hdr.

(** An opener maps [stack_file_size] bytes of a file of [file_len]. *)
Definition open (file_len : Z) (hdr : StackHeader) (cap size : Z) : res StackError StackHeader :=
  if file_len <? stack_file_size cap size then Err LayoutMismatch
  else _ ← from_region hdr cap size; Ok hdr.

(** * The accesses *)

Section stack.
Context {T : Type}.

(** The words the calls touch, the counts of exchanges, the links and the
    slots. *)
Record shared := {
  shead : Z; sfree : Z; sbump : Z; hgen : Z; fgen : Z; nexts : list Z; slots : list T }.

(** Where a thread is; [g] is the count of exchanges when it loaded [hd]. *)
Inductive thread :=
| Idle
| AcqLoad (v : T) | AcqNext (v : T) (hd g : Z) | AcqCas (v : T) (hd g nx : Z)
| Bump (v : T) | Unbump
| Write (v : T) (i : Z)
| PushLoad (v : T) (i : Z) | PushStore (v : T) (i hd g : Z) | PushCas (v : T) (i hd g : Z)
| PopLoad | PopNext (hd g : Z) | PopCas (hd g nx : Z) | PopRead (i : Z)
| RelLoad (v : T) (i : Z) | RelStore (v : T) (i hd g : Z) | RelCas (v : T) (i hd g : Z)
| PeekLoad | PeekRead (i : Z).

Inductive event :=
| Tau
| Pushed (v : T) | PushFull
| PopTaken | Popped (v : T) | PopEmpty
| Peeked (v : T) | PeekEmpty.

Definition set_head (s : shared) (w : Z) : shared :=
  {| shead := w; sfree := sfree s; sbump := sbump s; hgen := hgen s + 1; fgen := fgen s;
     nexts := nexts s; slots := slots s |}.
Definition set_free (s : shared) (w : Z) : shared :=
  {| shead := shead s; sfree := w; sbump := sbump s; hgen := hgen s; fgen := fgen s + 1;
     nexts := nexts s; slots := slots s |}.
Definition set_bump (s : shared) (w : Z) : shared :=
  {| shead := shead s; sfree := sfree s; sbump := w; hgen := hgen s; fgen := fgen s;
     nexts := nexts s; slots := slots s |}.
Definition set_next (s : shared) (i x : Z) : shared :=
  {| shead := shead s; sfree := sfree s; sbump := sbump s; hgen := hgen s; fgen := fgen s;
     nexts := <[Z.to_nat i := x]> (nexts s); slots := slots s |}.
Definition set_slot (s : shared) (i : Z) (v : T) : shared :=
  {| shead := shead s; sfree := sfree s; sbump := sbump s; hgen := hgen s; fgen := fgen s;
     nexts := nexts s; slots := <[Z.to_nat i := v]> (slots s) |}.

(** [pack(counter.wrapping_add(1), index)] over the loaded head. *)
Definition bumped (hd index : Z) : Z := pack (u32 ((unpack hd).1 + 1)) index.

(** One access; [None] is an access outside the region. *)
Definition tstep (s : shared) (t : thread) : option (shared * thread * event) :=
  match t with
  | Idle => Some (s, Idle, Tau)
  | AcqLoad v =>
      Some (s, if (unpack (sfree s)).2 =? STACK_NIL then Bump v else AcqNext v (sfree s) (fgen s), Tau)
  | AcqNext v hd g => nx ← nexts s !! Z.to_nat (unpack hd).2; Some (s, AcqCas v hd g nx, Tau)
  | AcqCas v hd g nx =>
      Some (if sfree s =? hd then (set_free s (bumped hd nx), Write v (unpack hd).2, Tau)
            else (s, AcqLoad v, Tau))
  | Bump v =>
      let idx := sbump s in
      Some (set_bump s (u32 (idx + 1)),
            if Z.of_nat (length (slots s)) <=? idx then Unbump else Write v idx, Tau)
  | Unbump => Some (set_bump s (u32 (sbump s - 1)), Idle, PushFull)
  | Write v i => if (Z.to_nat i <? length (slots s))%nat then Some (set_slot s i v, PushLoad v i, Tau) else None
  | PushLoad v i => Some (s, PushStore v i (shead s) (hgen s), Tau)
  | PushStore v i hd g =>
      if (Z.to_nat i <? length (nexts s))%nat
      then Some (set_next s i (unpack hd).2, PushCas v i hd g, Tau) else None
  | PushCas v i hd g =>
      Some (if shead s =? hd then (set_head s (bumped hd i), Idle, Pushed v) else (s, PushLoad v i, Tau))
  | PopLoad =>
      Some (if (unpack (shead s)).2 =? STACK_NIL then (s, Idle, PopEmpty)
            else (s, PopNext (shead s) (hgen s), Tau))
  | PopNext hd g => nx ← nexts s !! Z.to_nat (unpack hd).2; Some (s, PopCas hd g nx, Tau)
  | PopCas hd g nx =>
      Some (if shead s =? hd then (set_head s (bumped hd nx), PopRead (unpack hd).2, PopTaken)
            else (s, PopLoad, Tau))
  | PopRead i => v ← slots s !! Z.to_nat i; Some (s, RelLoad v i, Tau)
  | RelLoad v i => Some (s, RelStore v i (sfree s) (fgen s), Tau)
  | RelStore v i hd g =>
      if (Z.to_nat i <? length (nexts s))%nat
      then Some (set_next s i (unpack hd).2, RelCas v i hd g, Tau) else None
  | RelCas v i hd g =>
      Some (if sfree s =? hd then (set_free s (bumped hd i), Idle, Popped v) else (s, RelLoad v i, Tau))
  | PeekLoad =>
      Some (if (unpack (shead s)).2 =? STACK_NIL then (s, Idle, PeekEmpty)
            else (s, PeekRead (unpack (shead s)).2, Tau))
  | PeekRead i => v ← slots s !! Z.to_nat i; Some (s, Idle, Peeked v)
  end.

(** [is_empty], and [approx_len]: the walk visits at most [capacity] slots. *)
Definition is_empty (s : shared) : bool := (unpack (shead s)).2 =? STACK_NIL.

Fixpoint walk (fuel : nat) (s : shared) (idx : Z) : option nat :=
  match fuel with
  | O => Some O
  | S fuel =>
      if idx =? STACK_NIL then Some O
      else nx ← nexts s !! Z.to_nat idx; n ← walk fuel s nx; Some (S n)
  end.
Definition approx_len (s : shared) : option nat := walk (length (slots s)) s (unpack (shead s)).2.

Inductive call : thread → Prop :=
| call_push v : call (AcqLoad v)
| call_pop : call PopLoad
| call_peek : call PeekLoad.

Record system := { mem : shared; threads : list thread }.

(** A thread makes an access, or an idle one begins a call. *)
Inductive stack_step : system → nat * event → system → Prop :=
| step_thread s ts i t s' t' e :
    ts !! i = Some t → tstep s t = Some (s', t', e) →
    stack_step {| mem := s; threads := ts |} (i, e) {| mem := s'; threads := <[i := t']> ts |}
| step_call s ts i t :
    ts !! i = Some Idle → call t →
    stack_step {| mem := s; threads := ts |} (i, Tau) {| mem := s; threads := <[i := t]> ts |}.

(** No head goes through [2^32] exchanges while a thread is between loading it
    and exchanging it. *)
Definition timely_thread (s : shared) (t : thread) : Prop :=
  match t with
  | AcqNext _ _ g | AcqCas _ _ g _ | RelStore _ _ _ g | RelCas _ _ _ g => fgen s - g < 2 ^ 32
  | PushStore _ _ _ g | PushCas _ _ _ g | PopNext _ g | PopCas _ g _ => hgen s - g < 2 ^ 32
  | _ => True
  end.

Definition timely (sys : system) : Prop := Forall (timely_thread (mem sys)) (threads sys).

Definition timely_step (sys : system) (l : nat * event) (sys' : system) : Prop :=
  stack_step sys l sys' ∧ timely sys'.

(** A call to its end with every other thread idle: the memory it leaves and
    the events on the way. *)
Fixpoint run_alone (fuel : nat) (s : shared) (t : thread) : option (shared * list event) :=
  match fuel with
  | O => None
  | S fuel =>
      '(s', t', e) ← tstep s t;
      match t' with
      | Idle => Some (s', [e])
      | _ => '(s'', es) ← run_alone fuel s' t'; Some (s'', e :: es)
      end
  end.

Definition start (cap n : nat) (fill : list T) : system :=
  {| mem := {| shead := head (init_region (Z.of_nat cap) 0 0); sfree := free_head (init_region (Z.of_nat cap) 0 0);
               sbump := bump_next (init_region (Z.of_nat cap) 0 0); hgen := 0; fgen := 0;
               nexts := replicate cap 0; slots := fill |};
     threads := replicate n Idle |}.
End stack.

Arguments shared : clear implicits.
Arguments thread : clear implicits.
Arguments event : clear implicits.
Arguments system : clear implicits.

(** * The specification: a stack

    A pop takes the top when it exchanges the head and returns it later, so the
    abstract state has the values taken and not yet returned, by thread. What a
    [peek] returns is not constrained here (see [peek_unpushed]). *)

Section spec.
Context {T : Type}.

Record lifo := { contents : list T; taken : gmap nat T }.

Inductive lifo_step : lifo → nat * event T → lifo → Prop :=
| lifo_tau a i : lifo_step a (i, Tau) a
| lifo_push c m i v : lifo_step {| contents := c; taken := m |} (i, Pushed v) {| contents := v :: c; taken := m |}
| lifo_full a i : lifo_step a (i, PushFull) a
| lifo_take c m i v :
    lifo_step {| contents := v :: c; taken := m |} (i, PopTaken) {| contents := c; taken := <[i := v]> m |}
| lifo_pop c m i v : m !! i = Some v →
    lifo_step {| contents := c; taken := m |} (i, Popped v) {| contents := c; taken := delete i m |}
| lifo_empty m i : lifo_step {| contents := []; taken := m |} (i, PopEmpty) {| contents := []; taken := m |}
| lifo_peek a i v : lifo_step a (i, Peeked v) a
| lifo_peek_empty m i : lifo_step {| contents := []; taken := m |} (i, PeekEmpty) {| contents := []; taken := m |}.
End spec.

Arguments lifo : clear implicits.

(** * The invariant *)

Lemma stack_unpack_pack c i : 0 ≤ c < 2 ^ 32 → 0 ≤ i < 2 ^ 32 → unpack (pack c i) = (c, i).
Proof. exact (SharedRegion.unpack_pack c i). Qed.

Lemma unpack_gen g i : 0 ≤ i < 2 ^ 32 → unpack (pack (u32 g) i) = (u32 g, i).
Proof. intros Hi. apply stack_unpack_pack; [|done]. by apply (wrap_bound 32). Qed.

Lemma bumped_pack g i j : 0 ≤ i < 2 ^ 32 → bumped (pack (u32 g) i) j = pack (u32 (g + 1)) j.
Proof.
  intros Hi. unfold bumped. rewrite unpack_gen by done. cbn [fst]. f_equal. unfold wrap. apply Zplus_mod_idemp_l.
Qed.

Section invariant.
Context {T : Type} (cap : nat).
Implicit Types (s : shared T) (t : thread T) (ts : list (thread T)) (m : gmap nat T) (i : nat) (x : Z) (st fr : list Z).

(** The chain of links from [x] is the list [l] of slots. *)
Fixpoint chain (nx : list Z) (x : Z) (l : list Z) : Prop :=
  match l with
  | [] => x = STACK_NIL
  | y :: l => x = y ∧ ∃ z, nx !! Z.to_nat y = Some z ∧ chain nx z l
  end.

(** The slot a thread owns. *)
Definition held t : list Z :=
  match t with
  | Write _ x | PushLoad _ x | PushStore _ x _ _ | PushCas _ x _ _ | PopRead x
  | RelLoad _ x | RelStore _ x _ _ | RelCas _ x _ _ => [x]
  | _ => []
  end.

Definition is_unbump t : bool := match t with Unbump => true | _ => false end.

(** [hd], loaded at exchange [g] of a head that is now [w] after [gen]. *)
Definition loaded (w gen hd g bound : Z) : Prop :=
  0 ≤ g ≤ gen ∧ (∃ x, 0 ≤ x < bound ∧ hd = pack (u32 g) x) ∧ (g = gen → w = hd).

Definition loaded_h s hd g := loaded (shead s) (hgen s) hd g.
Definition loaded_f s hd g := loaded (sfree s) (fgen s) hd g.
Definition link_at s x y : Prop := nexts s !! Z.to_nat x = Some y.
Definition slot_at s x v : Prop := slots s !! Z.to_nat x = Some v.

Definition thread_ok s m i t : Prop :=
  match t with
  | AcqNext _ hd g => loaded_f s hd g (Z.of_nat cap)
  | AcqCas _ hd g nx => loaded_f s hd g (Z.of_nat cap) ∧ (g = fgen s → link_at s (unpack hd).2 nx)
  | PushLoad v x => slot_at s x v
  | PushStore v x hd g => slot_at s x v ∧ loaded_h s hd g (2 ^ 32)
  | PushCas v x hd g => slot_at s x v ∧ loaded_h s hd g (2 ^ 32) ∧ link_at s x (unpack hd).2
  | PopNext hd g => loaded_h s hd g (Z.of_nat cap)
  | PopCas hd g nx => loaded_h s hd g (Z.of_nat cap) ∧ (g = hgen s → link_at s (unpack hd).2 nx)
  | PopRead x => ∃ v, slot_at s x v ∧ m !! i = Some v
  | RelLoad v x => m !! i = Some v
  | RelStore v x hd g => m !! i = Some v ∧ loaded_f s hd g (2 ^ 32)
  | RelCas v x hd g => m !! i = Some v ∧ loaded_f s hd g (2 ^ 32) ∧ link_at s x (unpack hd).2
  | PeekRead x => 0 ≤ x < Z.of_nat cap
  | _ => True
  end.

(** A head word over its chain. *)
Definition head_ok (w gen : Z) (nx : list Z) (l : list Z) : Prop :=
  0 ≤ gen ∧ ∃ x, 0 ≤ x < 2 ^ 32 ∧ w = pack (u32 gen) x ∧ chain nx x l.

Record shared_ok s (c : list T) st fr (al : nat) : Prop := {
  so_nexts : length (nexts s) = cap; so_slots : length (slots s) = cap;
  so_alloc : (al ≤ cap)%nat;
  so_head : head_ok (shead s) (hgen s) (nexts s) st;
  so_free : head_ok (sfree s) (fgen s) (nexts s) fr;
  so_contents : Forall2 (slot_at s) st c }.

Record stack_inv (sys : system T) (a : lifo T) st fr (al : nat) : Prop := {
  sv_shared : shared_ok (mem sys) (contents a) st fr al;
  sv_slots : st ++ fr ++ concat (held <$> threads sys) ≡ₚ seqZ 0 (Z.of_nat al);
  sv_bump : sbump (mem sys) = Z.of_nat al + count is_unbump (threads sys);
  sv_full : 0 < count is_unbump (threads sys) → al = cap;
  sv_few : Z.of_nat cap + Z.of_nat (length (threads sys)) < 2 ^ 32;
  sv_threads : ∀ i t, threads sys !! i = Some t → thread_ok (mem sys) (taken a) i t;
  sv_timely : timely sys }.

(** ** Heads *)

Lemma top_unpack w gen nx l : head_ok w gen nx l → ∃ x, 0 ≤ x < 2 ^ 32 ∧ unpack w = (u32 gen, x) ∧ chain nx x l.
Proof using. intros (_ & x & Hx & -> & Hc). exists x. by rewrite unpack_gen. Qed.

Lemma chain_nil nx x l : chain nx x l → Forall (λ y, 0 ≤ y < STACK_NIL) l → (x = STACK_NIL ↔ l = []).
Proof using. destruct l as [|y l]; cbn; [done|]. intros [-> _] [Hy _]%Forall_cons. split; [lia|done]. Qed.

Lemma chain_ext nx nx' x l :
  (∀ y, y ∈ l → nx' !! Z.to_nat y = nx !! Z.to_nat y) → chain nx x l → chain nx' x l.
Proof using.
  revert x. induction l as [|y l IH]; intros x Hy; [done|]. cbn. intros (-> & z & Hz & Hc). split; [done|].
  exists z. rewrite Hy by set_solver. split; [done|]. apply IH; [set_solver|done].
Qed.

(** An exchange that finds the word it loaded finds the head unchanged. *)
Lemma exchange_current w gen nx l hd g bound :
  head_ok w gen nx l → loaded w gen hd g bound → bound ≤ 2 ^ 32 → gen - g < 2 ^ 32 → w = hd → g = gen.
Proof using.
  intros Hh (Hg & (x & Hx & ->) & _) Hb Ht E. destruct (top_unpack _ _ _ _ Hh) as (y & Hy & Hu & _).
  rewrite E, unpack_gen in Hu by lia. injection Hu as Hu _. symmetry in Hu.
  symmetry. apply (wrap_inj 32); [lia|lia|done].
Qed.

Lemma head_loaded w gen nx l bound :
  head_ok w gen nx l → Forall (λ y, 0 ≤ y < Z.of_nat cap) l → l ≠ [] ∨ bound = 2 ^ 32 → Z.of_nat cap ≤ bound →
  loaded w gen w gen bound.
Proof using.
  intros Hh Hl Hb Hbd. destruct (Hh) as (Hg & x & Hx & -> & Hc). split; [lia|]. split; [|done]. exists x.
  split; [|done]. destruct Hb as [Hne| ->]; [|done]. destruct l as [|y l]; [done|].
  destruct Hc as [-> _]. apply Forall_cons in Hl as [? _]. lia.
Qed.

(** ** Slots *)

Lemma elem_of_held x t ts : x ∈ held t → t ∈ ts → x ∈ concat (held <$> ts).
Proof using.
  intros Hx Ht. apply list_elem_of_In, in_concat. exists (held t). rewrite <- !list_elem_of_In. split; [|done].
  apply list_elem_of_fmap. eauto.
Qed.

Lemma held_split ts i t :
  ts !! i = Some t → ∃ rest, concat (held <$> ts) ≡ₚ held t ++ rest ∧
    (∀ t', concat (held <$> <[i := t']> ts) ≡ₚ held t' ++ rest) ∧
    ∀ j u x, j ≠ i → ts !! j = Some u → x ∈ held u → x ∈ rest.
Proof using.
  intros Hi. apply list_elem_of_split_length in Hi as (l1 & l2 & -> & ->).
  exists (concat (held <$> l1) ++ concat (held <$> l2)). split_and!.
  - rewrite fmap_app, concat_app. cbn. rewrite !(assoc_L (++)). apply Permutation_app_tail, Permutation_app_comm.
  - intros t'. rewrite insert_app_r_alt, Nat.sub_diag by lia. cbn [insert list_insert].
    rewrite fmap_app, concat_app. cbn. rewrite !(assoc_L (++)). apply Permutation_app_tail, Permutation_app_comm.
  - intros j u x Hj Hu Hx. apply elem_of_app. destruct (decide (j < length l1)%nat).
    + left. rewrite lookup_app_l in Hu by done. by eapply elem_of_held, list_elem_of_lookup_2.
    + right. rewrite lookup_app_r in Hu by lia. destruct (j - length l1)%nat as [|q] eqn:Eq; [lia|]. cbn in Hu.
      by eapply elem_of_held, list_elem_of_lookup_2.
Qed.

(** ** Frames *)

Lemma loaded_mono w gen w' gen' hd g bound :
  gen ≤ gen' → (gen' = gen → w' = w) → loaded w gen hd g bound → loaded w' gen' hd g bound.
Proof using.
  intros Hg Hw (H1 & H2 & H3). split; [lia|]. split; [done|]. intros ->. rewrite Hw by lia. apply H3. lia.
Qed.

(** What another thread relies on survives a change of the heads that advances
    their counts and of slots it does not own. *)
Record frame s s' (touched : list Z) : Prop := {
  fr_hgen : hgen s ≤ hgen s'; fr_head : hgen s' = hgen s → shead s' = shead s;
  fr_fgen : fgen s ≤ fgen s'; fr_free : fgen s' = fgen s → sfree s' = sfree s;
  fr_mem : ∀ x, 0 ≤ x → x ∉ touched →
    nexts s' !! Z.to_nat x = nexts s !! Z.to_nat x ∧ slots s' !! Z.to_nat x = slots s !! Z.to_nat x }.

Lemma thread_ok_frame s s' m m' i t touched :
  frame s s' touched → (∀ x, x ∈ held t → 0 ≤ x ∧ x ∉ touched) →
  (0 ≤ (unpack (shead s)).2 ∧ (unpack (shead s)).2 ∉ touched) →
  (0 ≤ (unpack (sfree s)).2 ∧ (unpack (sfree s)).2 ∉ touched) → m' !! i = m !! i →
  thread_ok s m i t → thread_ok s' m' i t.
Proof using.
  intros [F1 F2 F3 F4 F5] Hh [Hs1 Hs2] [Hf1 Hf2] Hm.
  assert (∀ hd g b, loaded_h s hd g b → loaded_h s' hd g b) as Lh by (intros; by eapply loaded_mono).
  assert (∀ hd g b, loaded_f s hd g b → loaded_f s' hd g b) as Lf by (intros; by eapply loaded_mono).
  assert (∀ x, x ∈ held t → ∀ v, slot_at s x v → slot_at s' x v) as Ls.
  { intros x Hx v Hv. destruct (Hh x Hx) as [E1 E2]. unfold slot_at. by rewrite (proj2 (F5 x E1 E2)). }
  assert (∀ x, x ∈ held t → ∀ y, link_at s x y → link_at s' x y) as Ln.
  { intros x Hx y Hy. destruct (Hh x Hx) as [E1 E2]. unfold link_at. by rewrite (proj1 (F5 x E1 E2)). }
  destruct t; cbn [thread_ok held] in *; rewrite ?Hm; auto using list_elem_of_here.
  - intros [Hl Hn]. split; [auto|]. intros ->. assert (fgen s' = fgen s) as E by (destruct Hl; lia).
    rewrite <- (proj2 (proj2 Hl) E) in *. unfold link_at. rewrite (proj1 (F5 _ Hf1 Hf2)). by apply Hn.
  - intros [? ?]. split; [eapply Ls|]; eauto using list_elem_of_here.
  - intros (? & ? & ?). split_and!; [eapply Ls|eauto|eapply Ln]; eauto using list_elem_of_here.
  - intros [Hl Hn]. split; [auto|]. intros ->. assert (hgen s' = hgen s) as E by (destruct Hl; lia).
    rewrite <- (proj2 (proj2 Hl) E) in *. unfold link_at. rewrite (proj1 (F5 _ Hs1 Hs2)). by apply Hn.
  - intros (v & Hv & ?). exists v. split; [eapply Ls|done]; eauto using list_elem_of_here.
  - intros [? ?]. auto.
  - intros (? & ? & ?). split_and!; [done|auto|eapply Ln; eauto using list_elem_of_here].
Qed.

Hypothesis Hcap : Z.of_nat cap < STACK_NIL.

(** Slots are below the capacity, and owned once. *)
Lemma slots_distinct st fr l al :
  (al ≤ cap)%nat → st ++ fr ++ l ≡ₚ seqZ 0 (Z.of_nat al) →
  NoDup (st ++ fr ++ l) ∧ ∀ x, x ∈ st ++ fr ++ l → 0 ≤ x < Z.of_nat cap.
Proof using.
  clear Hcap. intros Hal Hp. split; [rewrite Hp; apply NoDup_seqZ|].
  intros x Hx. rewrite Hp in Hx. apply elem_of_seqZ in Hx. lia.
Qed.

(** The top of a chain is one of its slots, or nil. *)
Lemma head_top w gen nx l (P : Z → Prop) : head_ok w gen nx l → (∀ x, x ∈ l → P x) → P STACK_NIL → P (unpack w).2.
Proof using.
  clear Hcap. intros Hh Hl Hn. destruct (top_unpack _ _ _ _ Hh) as (x & _ & -> & Hc). cbn. destruct l as [|y l]; cbn in Hc.
  - by rewrite Hc.
  - destruct Hc as [-> _]. apply Hl. set_solver.
Qed.

Lemma stack_inv_update sys a st fr al i t s' t' a' st' fr' al' touched :
  stack_inv sys a st fr al → threads sys !! i = Some t →
  shared_ok s' (contents a') st' fr' al' →
  (∀ rest, st ++ fr ++ held t ++ rest ≡ₚ seqZ 0 (Z.of_nat al) → st' ++ fr' ++ held t' ++ rest ≡ₚ seqZ 0 (Z.of_nat al')) →
  sbump s' = sbump (mem sys) + (Z.of_nat al' - Z.of_nat al) + Z.b2z (is_unbump t') - Z.b2z (is_unbump t) →
  (al ≤ al')%nat → (is_unbump t' = true → al' = cap) →
  frame (mem sys) s' touched → (∀ x, x ∈ touched → x ∈ held t) →
  thread_ok s' (taken a') i t' → (∀ j, j ≠ i → taken a' !! j = taken a !! j) →
  timely {| mem := s'; threads := <[i := t']> (threads sys) |} →
  stack_inv {| mem := s'; threads := <[i := t']> (threads sys) |} a' st' fr' al'.
Proof using Hcap.
  intros [H1 H2 H3 H4 H5 H6 H7] Ht Hs Hp Hb Hal Hfull Hfr Htc Hok Hm Htime.
  destruct (held_split _ _ _ Ht) as (rest & Hold & Hnew & Hrest).
  assert (st ++ fr ++ held t ++ rest ≡ₚ seqZ 0 (Z.of_nat al)) as Hall by (by rewrite <- Hold).
  destruct (slots_distinct _ _ _ _ (so_alloc _ _ _ _ _ H1) Hall) as [Hnd Hrg].
  assert (∀ x, x ∈ touched → x ∉ st ∧ x ∉ fr ∧ x ∉ rest ∧ x ≠ STACK_NIL) as Hout.
  { intros x Hx%Htc. apply NoDup_app in Hnd as (_ & N1 & Hnd). apply NoDup_app in Hnd as (_ & N2 & Hnd).
    apply NoDup_app in Hnd as (_ & N3 & _).
    assert (0 ≤ x < Z.of_nat cap) by (apply Hrg; set_solver). split_and!; [| | |lia]; set_solver. }
  split; cbn [mem threads]; try done.
  - rewrite Hnew. by apply Hp.
  - rewrite (count_insert _ _ _ _ _ Ht), Hb, H3. lia.
  - rewrite (count_insert _ _ _ _ _ Ht). intros Hpos. destruct (is_unbump t') eqn:E; [auto|].
    pose proof (so_alloc _ _ _ _ _ Hs). cbn [Z.b2z] in Hpos.
    assert (al = cap); [apply H4; destruct (is_unbump t); cbn in Hpos; lia|lia].
  - by rewrite length_insert.
  - intros j u Hu. destruct (decide (j = i)) as [->|Hne].
    + rewrite list_lookup_insert_eq in Hu by (by eapply lookup_lt_Some). by simplify_eq.
    + rewrite list_lookup_insert_ne in Hu by done.
      apply (thread_ok_frame (mem sys) s' (taken a) (taken a') j u touched); auto.
      * intros x Hx. pose proof (Hrest j u x Hne Hu Hx) as Hin. split; [|intros E; by destruct (Hout x E) as (_ & _ & ? & _)].
        apply Hrg. set_solver.
      * apply (head_top _ _ _ _ (λ x, 0 ≤ x ∧ x ∉ touched) (so_head _ _ _ _ _ H1)).
        -- intros x Hx. split; [apply Hrg; set_solver|]. intros E. by destruct (Hout x E).
        -- split; [unfold STACK_NIL; lia|]. intros E. by destruct (Hout _ E) as (_ & _ & _ & ?).
      * apply (head_top _ _ _ _ (λ x, 0 ≤ x ∧ x ∉ touched) (so_free _ _ _ _ _ H1)).
        -- intros x Hx. split; [apply Hrg; set_solver|]. intros E. by destruct (Hout x E) as (_ & ? & _).
        -- split; [unfold STACK_NIL; lia|]. intros E. by destruct (Hout _ E) as (_ & _ & _ & ?).
Qed.

(** ** Changes of the heads, the links and the slots *)

Lemma chain_top_range nx x l : chain nx x l → Forall (λ y, 0 ≤ y < Z.of_nat cap) l → 0 ≤ x < 2 ^ 32.
Proof using Hcap.
  unfold STACK_NIL in *. destruct l as [|y l]; cbn; [intros -> _; unfold STACK_NIL; lia|].
  intros [-> _] [? _]%Forall_cons. lia.
Qed.

Lemma head_push w gen nx l x :
  head_ok w gen nx l → 0 ≤ x < 2 ^ 32 → nx !! Z.to_nat x = Some (unpack w).2 → head_ok (bumped w x) (gen + 1) nx (x :: l).
Proof using.
  clear Hcap. intros (Hg & y & Hy & -> & Hc) Hx Hl. rewrite unpack_gen in Hl by done. split; [lia|].
  exists x. rewrite bumped_pack by done. split_and!; [lia..|done|]. cbn. eauto.
Qed.

Lemma head_pop w gen nx l y :
  head_ok w gen nx l → Forall (λ y, 0 ≤ y < Z.of_nat cap) l → (unpack w).2 ≠ STACK_NIL →
  nx !! Z.to_nat (unpack w).2 = Some y →
  ∃ l', l = (unpack w).2 :: l' ∧ head_ok (bumped w y) (gen + 1) nx l'.
Proof using Hcap.
  intros (Hg & z & Hz & -> & Hc) Hl. rewrite unpack_gen by done. cbn. intros Hne Hy.
  destruct l as [|z' l]; cbn in Hc; [done|]. destruct Hc as (<- & u & Hu & Hc). exists l. split; [done|].
  simplify_eq. split; [lia|]. exists u. rewrite bumped_pack by done. apply Forall_cons in Hl as [_ Hl].
  split; [by eapply chain_top_range|done].
Qed.

Lemma set_next_ok s c st fr al x y :
  shared_ok s c st fr al → (∀ z, z ∈ st ++ fr → 0 ≤ z) → 0 ≤ x → x ∉ st → x ∉ fr → shared_ok (set_next s x y) c st fr al.
Proof using.
  clear Hcap. intros [H1 H2 H3 H4 H5 H6] Hz Hx Hst Hfr.
  assert (∀ l z, (∀ u, u ∈ l → 0 ≤ u) → x ∉ l → chain (nexts s) z l → chain (<[Z.to_nat x := y]> (nexts s)) z l) as Hc.
  { intros l z Hl Hn. apply chain_ext. intros u Hu. apply list_lookup_insert_ne.
    pose proof (Hl u Hu). assert (u ≠ x) by (by intros ->). lia. }
  split; cbn; try done.
  - by rewrite length_insert.
  - destruct H4 as (? & z & ? & ? & ?). split; [done|]. exists z. split_and!; try done; try lia.
    apply Hc; [|done..]. set_solver.
  - destruct H5 as (? & z & ? & ? & ?). split; [done|]. exists z. split_and!; try done; try lia.
    apply Hc; [|done..]. set_solver.
Qed.

Lemma set_slot_ok s c st fr al x v :
  shared_ok s c st fr al → (∀ z, z ∈ st ++ fr → 0 ≤ z) → 0 ≤ x → x ∉ st → shared_ok (set_slot s x v) c st fr al.
Proof using.
  clear Hcap. intros [H1 H2 H3 H4 H5 H6] Hz Hx Hst. split; cbn; try done; [by rewrite length_insert|].
  clear -H6 Hz Hx Hst. induction H6 as [|z w st c Hw _ IH]; constructor.
  - unfold slot_at in *. cbn. rewrite list_lookup_insert_ne; [done|]. assert (0 ≤ z) by (apply Hz; set_solver).
    assert (z ≠ x) by set_solver. lia.
  - apply IH; set_solver.
Qed.

Lemma frame_refl s : frame s s [].
Proof using. split; done || lia. Qed.

Lemma frame_set_next s x y : 0 ≤ x → frame s (set_next s x y) [x].
Proof using.
  clear Hcap. intros Hx. split; cbn; try done; try lia. intros z Hz Hn. split; [|done].
  apply list_lookup_insert_ne. assert (z ≠ x) by set_solver. lia.
Qed.

Lemma frame_set_slot s x v : 0 ≤ x → frame s (set_slot s x v) [x].
Proof using.
  clear Hcap. intros Hx. split; cbn; try done; try lia. intros z Hz Hn. split; [done|].
  apply list_lookup_insert_ne. assert (z ≠ x) by set_solver. lia.
Qed.

Lemma frame_set_head s w : frame s (set_head s w) [].
Proof using. clear Hcap. split; cbn; try done; lia. Qed.

Lemma frame_set_free s w : frame s (set_free s w) [].
Proof using. clear Hcap. split; cbn; try done; lia. Qed.

Lemma frame_set_bump s w : frame s (set_bump s w) [].
Proof using. clear Hcap. split; cbn; try done; lia. Qed.

(** ** Each access *)

(** The obligations of [stack_inv_update] about what the access leaves alone. *)
Ltac untouched := try done; try (cbn; lia); try (by intros ? ?%elem_of_nil).

Section access.
Context (sys : system T) (a : lifo T) (st fr : list Z) (al : nat) (i : nat).
Hypothesis Hi : stack_inv sys a st fr al.
Notation s := (mem sys).
Notation next s' t' := {| mem := s'; threads := <[i := t']> (threads sys) |}.

Lemma lists_range : Forall (λ y, 0 ≤ y < Z.of_nat cap) st ∧ Forall (λ y, 0 ≤ y < Z.of_nat cap) fr.
Proof using Hi Hcap.
  destruct (slots_distinct _ _ _ _ (so_alloc _ _ _ _ _ (sv_shared _ _ _ _ _ Hi)) (sv_slots _ _ _ _ _ Hi)) as [_ Hr].
  split; apply Forall_forall; intros x Hx; apply Hr; set_solver.
Qed.

Lemma lists_nonneg z : z ∈ st ++ fr → 0 ≤ z.
Proof using Hi Hcap.
  destruct lists_range as [H1 H2]. rewrite Forall_forall in H1, H2. intros [Hz|Hz]%elem_of_app.
  - apply H1 in Hz. lia.
  - apply H2 in Hz. lia.
Qed.

(** The slot a thread owns. *)
Lemma owned t x : threads sys !! i = Some t → x ∈ held t → 0 ≤ x < Z.of_nat cap ∧ x ∉ st ∧ x ∉ fr.
Proof using Hi Hcap.
  intros Ht Hx. pose proof (elem_of_held _ _ _ Hx (list_elem_of_lookup_2 _ _ _ Ht)) as Hin.
  destruct (slots_distinct _ _ _ _ (so_alloc _ _ _ _ _ (sv_shared _ _ _ _ _ Hi)) (sv_slots _ _ _ _ _ Hi)) as [Hnd Hr].
  apply NoDup_app in Hnd as (_ & N1 & Hnd). apply NoDup_app in Hnd as (_ & N2 & _).
  split; [apply Hr; set_solver|]. split; intros E; [by apply (N1 x E), elem_of_app; right|by apply (N2 x E)].
Qed.

(** The thread moves on and nothing else changes. *)
Lemma local t t' :
  threads sys !! i = Some t → held t' = held t → is_unbump t' = is_unbump t → (is_unbump t' = true → al = cap) →
  thread_ok s (taken a) i t' → timely (next s t') → stack_inv (next s t') a st fr al.
Proof using Hi Hcap.
  intros Ht Hh Hu Hf Hok Htm. eapply (stack_inv_update sys a st fr al i t s t' a st fr al []); untouched.
  - apply (sv_shared _ _ _ _ _ Hi).
  - by rewrite Hh.
  - rewrite Hu. lia.
Qed.

(** The word loaded is the head as it is. *)
Lemma load_head bound : st ≠ [] ∨ bound = 2 ^ 32 → Z.of_nat cap ≤ bound → loaded_h s (shead s) (hgen s) bound.
Proof using Hi Hcap. intros. eapply head_loaded; [apply (sv_shared _ _ _ _ _ Hi)|apply lists_range|done|done]. Qed.

Lemma load_free bound : fr ≠ [] ∨ bound = 2 ^ 32 → Z.of_nat cap ≤ bound → loaded_f s (sfree s) (fgen s) bound.
Proof using Hi Hcap. intros. eapply head_loaded; [apply (sv_shared _ _ _ _ _ Hi)|apply lists_range|done|done]. Qed.

Lemma top_nil w gen l : head_ok w gen (nexts s) l → Forall (λ y, 0 ≤ y < Z.of_nat cap) l →
  ((unpack w).2 = STACK_NIL ↔ l = []).
Proof using Hcap.
  intros Hh Hl. destruct (top_unpack _ _ _ _ Hh) as (x & _ & -> & Hc). cbn. eapply chain_nil; [done|].
  eapply Forall_impl; [done|]. cbn. lia.
Qed.

(** A word loaded over a slot is not that of an empty chain. *)
Lemma loaded_slot w gen hd g : loaded w gen hd g (Z.of_nat cap) → 0 ≤ (unpack hd).2 < Z.of_nat cap.
Proof using Hcap.
  intros (_ & (x & Hx & ->) & _). rewrite unpack_gen by (unfold STACK_NIL in *; lia). done.
Qed.

Lemma free_taken v hd g nx :
  threads sys !! i = Some (AcqCas v hd g nx) → sfree s = hd →
  timely (next (set_free s (bumped hd nx)) (Write v (unpack hd).2)) →
  ∃ fr', stack_inv (next (set_free s (bumped hd nx)) (Write v (unpack hd).2)) a st fr' al.
Proof using Hi Hcap.
  intros Ht E Htm. destruct (sv_threads _ _ _ _ _ Hi _ _ Ht) as [Hl Hn]. destruct (sv_shared _ _ _ _ _ Hi) as [H1 H2 H3 H4 H5 H6].
  pose proof (Forall_lookup_1 _ _ _ _ (sv_timely _ _ _ _ _ Hi) Ht) as Ho. cbn in Ho.
  pose proof (exchange_current _ _ _ _ _ _ _ H5 Hl ltac:(unfold STACK_NIL in *; lia) Ho E) as Eg. specialize (Hn Eg).
  pose proof (loaded_slot _ _ _ _ Hl) as Hr. subst hd.
  destruct (head_pop _ _ _ _ _ H5 (proj2 lists_range) ltac:(lia) Hn) as (fr' & Efr & Hh). exists fr'.
  eapply (stack_inv_update sys a st fr al i _ _ _ a st fr' al []); untouched.
  - intros rest. rewrite Efr. cbn [held app]. intros <-. apply Permutation_app_head. rewrite <- Permutation_middle. done.
  - apply frame_set_free.
Qed.

Lemma head_taken hd g nx :
  threads sys !! i = Some (PopCas hd g nx) → shead s = hd →
  timely (next (set_head s (bumped hd nx)) (PopRead (unpack hd).2)) →
  ∃ a' st', lifo_step a (i, PopTaken) a' ∧
    stack_inv (next (set_head s (bumped hd nx)) (PopRead (unpack hd).2)) a' st' fr al.
Proof using Hi Hcap.
  intros Ht E Htm. destruct (sv_threads _ _ _ _ _ Hi _ _ Ht) as [Hl Hn]. destruct (sv_shared _ _ _ _ _ Hi) as [H1 H2 H3 H4 H5 H6].
  pose proof (Forall_lookup_1 _ _ _ _ (sv_timely _ _ _ _ _ Hi) Ht) as Ho. cbn in Ho.
  pose proof (exchange_current _ _ _ _ _ _ _ H4 Hl ltac:(unfold STACK_NIL in *; lia) Ho E) as Eg. specialize (Hn Eg).
  pose proof (loaded_slot _ _ _ _ Hl) as Hr. subst hd.
  destruct (head_pop _ _ _ _ _ H4 (proj1 lists_range) ltac:(lia) Hn) as (st' & Est & Hh).
  destruct a as [c tk]. cbn [contents taken] in *. rewrite Est in H6. inversion H6 as [|? v ? c' Hv Hc]; subst.
  exists {| contents := c'; taken := <[i := v]> tk |}, st'. split; [constructor|].
  eapply (stack_inv_update sys _ _ fr al i _ _ _ _ st' fr al []); untouched.
  - intros rest. cbn [held app]. intros <-. cbn [app]. rewrite (assoc_L (++) st'), <- Permutation_middle. by rewrite <- (assoc_L (++)).
  - apply frame_set_head.
  - exists v. cbn. by rewrite lookup_insert_eq.
  - intros j Hj. cbn. by rewrite lookup_insert_ne.
Qed.

Lemma head_given v x hd g :
  threads sys !! i = Some (PushCas v x hd g) → shead s = hd → timely (next (set_head s (bumped hd x)) Idle) →
  ∃ a', lifo_step a (i, Pushed v) a' ∧ stack_inv (next (set_head s (bumped hd x)) Idle) a' (x :: st) fr al.
Proof using Hi Hcap.
  intros Ht E Htm. destruct (sv_threads _ _ _ _ _ Hi _ _ Ht) as (Hv & Hl & Hn).
  destruct (sv_shared _ _ _ _ _ Hi) as [H1 H2 H3 H4 H5 H6].
  destruct (owned _ x Ht) as (Hr & _ & _); [by left|]. subst hd.
  pose proof (head_push _ _ _ _ x H4 ltac:(unfold STACK_NIL in *; lia) Hn) as Hh.
  destruct a as [c tk]. cbn [contents taken] in *.
  exists {| contents := v :: c; taken := tk |}. split; [constructor|].
  eapply (stack_inv_update sys _ st fr al i _ _ _ _ (x :: st) fr al []); untouched.
  - split; try done. cbn. by constructor.
  - intros rest. cbn [held app]. intros <-. rewrite !(assoc_L (++)), <- Permutation_middle. by rewrite <- !(assoc_L (++)).
  - apply frame_set_head.
Qed.

Lemma free_given v x hd g :
  threads sys !! i = Some (RelCas v x hd g) → sfree s = hd → timely (next (set_free s (bumped hd x)) Idle) →
  ∃ a', lifo_step a (i, Popped v) a' ∧ stack_inv (next (set_free s (bumped hd x)) Idle) a' st (x :: fr) al.
Proof using Hi Hcap.
  intros Ht E Htm. destruct (sv_threads _ _ _ _ _ Hi _ _ Ht) as (Hv & Hl & Hn).
  destruct (sv_shared _ _ _ _ _ Hi) as [H1 H2 H3 H4 H5 H6].
  destruct (owned _ x Ht) as (Hr & _ & _); [by left|]. subst hd.
  pose proof (head_push _ _ _ _ x H5 ltac:(unfold STACK_NIL in *; lia) Hn) as Hh.
  destruct a as [c tk]. cbn [contents taken] in *.
  exists {| contents := c; taken := delete i tk |}. split; [by constructor|].
  eapply (stack_inv_update sys _ st fr al i _ _ _ _ st (x :: fr) al []); untouched.
  - intros rest. cbn [held app]. intros <-. apply Permutation_app_head. by rewrite <- Permutation_middle.
  - apply frame_set_free.
  - intros j Hj. cbn. by rewrite lookup_delete_ne.
Qed.

(** A link or a value stored in the owned slot. *)
Lemma link_stored t t' x y :
  threads sys !! i = Some t → held t = [x] → held t' = [x] → is_unbump t' = is_unbump t → is_unbump t' = false →
  thread_ok (set_next s x y) (taken a) i t' → timely (next (set_next s x y) t') →
  stack_inv (next (set_next s x y) t') a st fr al.
Proof using Hi Hcap.
  intros Ht Hx Hx' Hu Hu' Hok Htm. destruct (owned _ x Ht) as (Hr & Ns & Nf); [rewrite Hx; by left|].
  eapply (stack_inv_update sys a st fr al i t _ t' a st fr al [x]); untouched.
  - apply set_next_ok; [apply (sv_shared _ _ _ _ _ Hi)|apply lists_nonneg|lia|done..].
  - by rewrite Hx, Hx'.
  - rewrite Hu. cbn. lia.
  - congruence.
  - apply frame_set_next. lia.
  - by rewrite Hx.
Qed.

Lemma value_stored v x :
  threads sys !! i = Some (Write v x) → timely (next (set_slot s x v) (PushLoad v x)) →
  stack_inv (next (set_slot s x v) (PushLoad v x)) a st fr al.
Proof using Hi Hcap.
  intros Ht Htm. destruct (owned _ x Ht) as (Hr & Ns & Nf); [by left|].
  eapply (stack_inv_update sys a st fr al i _ _ _ a st fr al [x]); untouched.
  - apply set_slot_ok; [apply (sv_shared _ _ _ _ _ Hi)|apply lists_nonneg|lia|done].
  - apply frame_set_slot. lia.
  - cbn. unfold slot_at. cbn. rewrite list_lookup_insert_eq; [done|].
    rewrite (so_slots _ _ _ _ _ (sv_shared _ _ _ _ _ Hi)). lia.
Qed.

Lemma unbumps_bound t : threads sys !! i = Some t → is_unbump t = false →
  0 ≤ count is_unbump (threads sys) < Z.of_nat (length (threads sys)).
Proof using Hi.
  intros Ht Hu. pose proof (count_bound is_unbump (<[i := Unbump]> (threads sys))) as Hb.
  rewrite (count_insert _ _ _ _ _ Ht), Hu, length_insert in Hb. cbn [is_unbump Z.b2z] in Hb.
  pose proof (count_bound is_unbump (threads sys)). lia.
Qed.

Lemma slot_bumped v :
  let idx := sbump s in let s' := set_bump s (u32 (idx + 1)) in
  let t' := if Z.of_nat (length (slots s)) <=? idx then Unbump else Write v idx in
  threads sys !! i = Some (Bump v) → timely (next s' t') → ∃ al', stack_inv (next s' t') a st fr al'.
Proof using Hi Hcap.
  cbv zeta. intros Ht. pose proof (unbumps_bound _ Ht eq_refl) as Hub. pose proof (sv_bump _ _ _ _ _ Hi) as Hb.
  pose proof (sv_few _ _ _ _ _ Hi) as Hfew. pose proof (sv_full _ _ _ _ _ Hi) as Hfull.
  destruct (sv_shared _ _ _ _ _ Hi) as [H1 H2 H3 H4 H5 H6]. rewrite H2, (wrap_small 32) by lia.
  destruct (Z.leb_spec (Z.of_nat cap) (sbump s)) as [Hge|Hlt]; intros Htm.
  - exists al. eapply (stack_inv_update sys a st fr al i _ _ _ a st fr al []); untouched.
  - assert (count is_unbump (threads sys) = 0) as E0.
    { destruct (decide (0 < count is_unbump (threads sys))) as [Hp|]; [rewrite Hfull in * by done; lia|lia]. }
    assert (sbump s = Z.of_nat al) as Eb by lia. exists (S al). rewrite Eb in *.
    eapply (stack_inv_update sys a st fr al i _ _ _ a st fr (S al) []); untouched.
    + by split; try done; lia.
    + intros rest. cbn [held app]. intros Hp. replace (Z.of_nat (S al)) with (Z.of_nat al + 1) by lia.
      rewrite seqZ_app by lia. rewrite <- Hp, Z.add_0_l. change (seqZ (Z.of_nat al) 1) with [Z.of_nat al].
      rewrite <- !(assoc_L (++)). do 2 apply Permutation_app_head. apply Permutation_cons_append.
Qed.

Lemma bump_undone :
  threads sys !! i = Some Unbump → timely (next (set_bump s (u32 (sbump s - 1))) Idle) →
  stack_inv (next (set_bump s (u32 (sbump s - 1))) Idle) a st fr al.
Proof using Hi Hcap.
  intros Ht Htm. pose proof (count_pos is_unbump _ _ _ Ht eq_refl) as Hp. pose proof (sv_bump _ _ _ _ _ Hi) as Hb.
  pose proof (sv_few _ _ _ _ _ Hi) as Hfew. pose proof (count_bound is_unbump (threads sys)) as Hcb.
  destruct (sv_shared _ _ _ _ _ Hi) as [H1 H2 H3 H4 H5 H6].
  eapply (stack_inv_update sys a st fr al i _ _ _ a st fr al []); untouched.
  - cbn. rewrite (wrap_small 32) by lia. lia.
Qed.
(** A step that changes no shared word is the identity of the specification,
    unless it reports something. *)
Lemma quiet t t' e :
  threads sys !! i = Some t → held t' = held t → is_unbump t' = is_unbump t → is_unbump t = false →
  thread_ok s (taken a) i t' → timely (next s t') → lifo_step a (i, e) a →
  ∃ a' st' fr' al', lifo_step a (i, e) a' ∧ stack_inv (next s t') a' st' fr' al'.
Proof using Hi Hcap.
  intros Ht Hh Hu Hu' Hok Htm Ha. exists a, st, fr, al. split; [done|]. eapply local; try done. congruence.
Qed.

(** A pop or a peek that loads the empty word finds the specification empty. *)
Lemma empty_contents : (unpack (shead s)).2 = STACK_NIL → contents a = [].
Proof using Hi Hcap.
  destruct (sv_shared _ _ _ _ _ Hi) as [H1 H2 H3 H4 H5 H6]. intros E%(top_nil _ _ _ H4 (proj1 lists_range)).
  rewrite E in H6. by inversion H6.
Qed.

Lemma nonempty_head : (unpack (shead s)).2 ≠ STACK_NIL → loaded_h s (shead s) (hgen s) (Z.of_nat cap).
Proof using Hi Hcap.
  intros E. apply load_head; [|done]. left. intros E'. apply E.
  by apply (top_nil _ _ _ (so_head _ _ _ _ _ (sv_shared _ _ _ _ _ Hi)) (proj1 lists_range)).
Qed.

Lemma nonempty_free : (unpack (sfree s)).2 ≠ STACK_NIL → loaded_f s (sfree s) (fgen s) (Z.of_nat cap).
Proof using Hi Hcap.
  intros E. apply load_free; [|done]. left. intros E'. apply E.
  by apply (top_nil _ _ _ (so_free _ _ _ _ _ (sv_shared _ _ _ _ _ Hi)) (proj2 lists_range)).
Qed.

(** A quiet step, down to what its thread now relies on. *)
Ltac silent := eapply quiet; [done|done|done|done| |done|by constructor].

(** The access of a thread is a step of the specification. *)
Lemma tstep_sim t s' t' e :
  threads sys !! i = Some t → tstep s t = Some (s', t', e) → timely (next s' t') →
  ∃ a' st' fr' al', lifo_step a (i, e) a' ∧ stack_inv (next s' t') a' st' fr' al'.
Proof using Hi Hcap.
  intros Ht Hstep Htm. pose proof (sv_threads _ _ _ _ _ Hi _ _ Ht) as Hok.
  assert (Z.of_nat cap ≤ 2 ^ 32) as Hc32 by (unfold STACK_NIL in *; lia).
  pose proof (load_head (2 ^ 32) (or_intror eq_refl) Hc32) as Lh. pose proof (load_free (2 ^ 32) (or_intror eq_refl) Hc32) as Lf.
  destruct t; cbn [tstep thread_ok] in *.
  - (* Idle *) simplify_eq. by silent.
  - (* AcqLoad *) destruct (Z.eqb_spec (unpack (sfree s)).2 STACK_NIL); simplify_eq; silent; [done|by apply nonempty_free].
  - (* AcqNext *) apply bind_Some in Hstep as (nx & Hnx & ?). simplify_eq. by silent.
  - (* AcqCas *) destruct (Z.eqb_spec (sfree s) hd); simplify_eq; [|by silent].
    edestruct free_taken as (fr' & ?); [done..|]. eexists a, st, fr', al. split; [constructor|done].
  - (* Bump *) simplify_eq. destruct (slot_bumped v Ht Htm) as (al' & ?). exists a, st, fr, al'. split; [constructor|done].
  - (* Unbump *) simplify_eq. exists a, st, fr, al. split; [constructor|by apply bump_undone].
  - (* Write *) case_match; simplify_eq. exists a, st, fr, al. split; [constructor|by apply value_stored].
  - (* PushLoad *) simplify_eq. by silent.
  - (* PushStore *) destruct (_ <? _)%nat eqn:Hlt; simplify_eq. exists a, st, fr, al. split; [constructor|].
    destruct Hok as [Hv Hl]. eapply link_stored; try done. split_and!; [done..|].
    by apply list_lookup_insert_eq, Nat.ltb_lt.
  - (* PushCas *) destruct (Z.eqb_spec (shead s) hd); simplify_eq; [|silent; by destruct Hok].
    edestruct head_given as (a' & ? & ?); [done..|]. by exists a', (i0 :: st), fr, al.
  - (* PopLoad *) destruct (Z.eqb_spec (unpack (shead s)).2 STACK_NIL) as [E|E]; simplify_eq; [|silent; by apply nonempty_head].
    eapply quiet; try done. pose proof (empty_contents E). destruct a. cbn in *. subst. constructor.
  - (* PopNext *) apply bind_Some in Hstep as (nx & Hnx & ?). simplify_eq. by silent.
  - (* PopCas *) destruct (Z.eqb_spec (shead s) hd); simplify_eq; [|by silent].
    edestruct head_taken as (a' & st' & ? & ?); [done..|]. by exists a', st', fr, al.
  - (* PopRead *) apply bind_Some in Hstep as (v & Hv & ?). simplify_eq. silent.
    destruct Hok as (v' & Hv' & ?). unfold slot_at in Hv'. cbn. congruence.
  - (* RelLoad *) simplify_eq. by silent.
  - (* RelStore *) destruct (_ <? _)%nat eqn:Hlt; simplify_eq. exists a, st, fr, al. split; [constructor|].
    destruct Hok as [Hv Hl]. eapply link_stored; try done. split_and!; [done..|].
    by apply list_lookup_insert_eq, Nat.ltb_lt.
  - (* RelCas *) destruct (Z.eqb_spec (sfree s) hd); simplify_eq; [|silent; by destruct Hok].
    edestruct free_given as (a' & ? & ?); [done..|]. by exists a', st, (i0 :: fr), al.
  - (* PeekLoad *) destruct (Z.eqb_spec (unpack (shead s)).2 STACK_NIL) as [E|E]; simplify_eq.
    + eapply quiet; try done. pose proof (empty_contents E). destruct a. cbn in *. subst. constructor.
    + silent. by eapply loaded_slot, nonempty_head.
  - (* PeekRead *) apply bind_Some in Hstep as (v & Hv & ?). simplify_eq. by silent.
Qed.
(** No access is outside the region. *)
Lemma tstep_in_region t : threads sys !! i = Some t → is_Some (tstep s t).
Proof using Hi Hcap.
  intros Ht. pose proof (sv_threads _ _ _ _ _ Hi _ _ Ht) as Hok. destruct (sv_shared _ _ _ _ _ Hi) as [H1 H2 _ _ _ _].
  assert (∀ x, x ∈ held t → 0 ≤ x < Z.of_nat cap) as Hh by (intros x Hx; by apply (owned _ x Ht)).
  destruct t; cbn [tstep thread_ok held] in *; try done; try (case_match; done).
  all: try (destruct (_ <? _)%nat eqn:E; [done|apply Nat.ltb_ge in E]; specialize (Hh _ (list_elem_of_here _ _)); lia).
  all: match goal with
       | |- is_Some (?l !! Z.to_nat ?x ≫= _) =>
           destruct (lookup_lt_is_Some_2 l (Z.to_nat x)) as [z ->]; [|done]; enough (0 ≤ x < Z.of_nat cap) by lia
       end.
  all: first [done | by eapply loaded_slot | by apply Hh, list_elem_of_here].
Qed.

(** No two threads own a slot. *)
Lemma held_disjoint j t u x :
  i ≠ j → threads sys !! i = Some t → threads sys !! j = Some u → x ∈ held t → x ∉ held u.
Proof using Hi Hcap.
  intros Hne Ht Hu Hx Hx'. destruct (held_split _ _ _ Ht) as (rest & Hold & _ & Hrest).
  pose proof (sv_slots _ _ _ _ _ Hi) as Hp. rewrite Hold in Hp.
  destruct (slots_distinct _ _ _ _ (so_alloc _ _ _ _ _ (sv_shared _ _ _ _ _ Hi)) Hp) as [Hnd _].
  apply NoDup_app in Hnd as (_ & _ & Hnd). apply NoDup_app in Hnd as (_ & _ & Hnd).
  apply NoDup_app in Hnd as (_ & Hnd & _). by apply (Hnd x Hx), (Hrest j u).
Qed.

Lemma walk_chain fuel x l :
  chain (nexts s) x l → Forall (λ y, 0 ≤ y < STACK_NIL) l → (length l ≤ fuel)%nat → walk fuel s x = Some (length l).
Proof using cap.
  revert x l. induction fuel as [|fuel IH]; intros x l Hc Hl Hf; [by destruct l; cbn in Hf; [|lia]|].
  cbn [walk]. pose proof (chain_nil _ _ _ Hc Hl) as Hn. destruct l as [|y l]; cbn in Hc.
  - by rewrite (proj2 Hn eq_refl), Z.eqb_refl.
  - destruct (Z.eqb_spec x STACK_NIL) as [E|_]; [by apply Hn in E|]. destruct Hc as (-> & z & -> & Hc). cbn.
    apply Forall_cons in Hl as [_ Hl]. rewrite (IH z l) by (done || cbn in Hf; lia). done.
Qed.

Lemma stack_length : (length (contents a) ≤ cap)%nat ∧ length (contents a) = length st.
Proof using Hi Hcap.
  destruct (sv_shared _ _ _ _ _ Hi) as [H1 H2 H3 H4 H5 H6]. pose proof (Forall2_length _ _ _ H6) as Hl.
  pose proof (sv_slots _ _ _ _ _ Hi) as Hp%Permutation_length. rewrite !length_app, length_seqZ in Hp. lia.
Qed.

(** What the observers return of the memory as it is. *)
Lemma observers :
  is_empty s = bool_decide (contents a = []) ∧ approx_len s = Some (length (contents a)).
Proof using Hi Hcap.
  destruct stack_length as [Hlc Hls]. destruct (sv_shared _ _ _ _ _ Hi) as [H1 H2 H3 H4 H5 H6]. split.
  - assert ((unpack (shead s)).2 = STACK_NIL ↔ contents a = []) as E.
    { rewrite (top_nil _ _ _ H4 (proj1 lists_range)), <- !length_zero_iff_nil. by rewrite Hls. }
    unfold is_empty. rewrite <- (bool_decide_ext _ _ E). by destruct (Z.eqb_spec (unpack (shead s)).2 STACK_NIL); case_bool_decide.
  - unfold approx_len. destruct (top_unpack _ _ _ _ H4) as (x & Hx & -> & Hc). cbn [snd].
    rewrite Hls. apply walk_chain; [done| |lia]. eapply Forall_impl; [apply lists_range|]. cbn. lia.
Qed.
End access.

Definition stack_rel (sys : system T) (a : lifo T) : Prop := ∃ st fr al, stack_inv sys a st fr al.

Lemma step_sim sys l sys' a :
  stack_rel sys a → timely_step sys l sys' → ∃ a', lifo_step a l a' ∧ stack_rel sys' a'.
Proof using Hcap.
  intros (st & fr & al & Hi) [Hstep Htm]. destruct Hstep as [s ts i t s' t' e Ht Hs|s ts i t Ht Hc].
  - destruct (tstep_sim _ _ _ _ _ i Hi t s' t' e Ht Hs Htm) as (a' & st' & fr' & al' & ? & ?).
    exists a'. split; [done|]. by exists st', fr', al'.
  - exists a. split; [constructor|]. exists st, fr, al. by destruct Hc; apply (local _ _ _ _ _ i Hi Idle).
Qed.

Lemma stack_start n fill :
  length fill = cap → Z.of_nat cap + Z.of_nat n < 2 ^ 32 →
  stack_inv (start cap n fill) {| contents := []; taken := ∅ |} [] [] 0.
Proof using Hcap.
  intros Hf Hn. assert (∀ n, concat (held <$> replicate n (@Idle T)) = []) as Hidle by (induction n0; done).
  assert (head_ok (pack 0 STACK_NIL) 0 (replicate cap 0) []) as Hh.
  { split; [done|]. exists STACK_NIL. unfold STACK_NIL. by split_and!; [..|cbn]. }
  split; cbn -[pack]; rewrite ?length_replicate; try done.
  - split; cbn -[pack]; rewrite ?length_replicate; try done; lia.
  - by rewrite Hidle.
  - unfold count. clear. induction n; cbn; lia.
  - unfold count. replace (List.filter is_unbump (replicate n (@Idle T))) with (@nil (thread T)); [cbn; lia|].
    clear. by induction n.
  - intros i t [-> _]%lookup_replicate. done.
  - apply Forall_replicate. done.
Qed.
End invariant.

(** * Refinement *)

Lemma run_rel {T} cap n (fill : list T) ls sys :
  Z.of_nat cap < STACK_NIL → Z.of_nat cap + Z.of_nat n < 2 ^ 32 → length fill = cap →
  ltrace timely_step (start cap n fill) ls sys →
  ∃ a, ltrace lifo_step {| contents := []; taken := ∅ |} ls a ∧ stack_rel cap sys a.
Proof.
  intros Hc Hn Hf. eapply simulation_trace; [intros c l c' a; by apply step_sim|].
  exists [], [], 0%nat. by apply stack_start.
Qed.

(** C23: [push] and [pop] of any number of threads, in any interleaving of their
    loads, stores and exchanges, are the pushes and pops of one stack: every
    run in which no head word is exchanged [2^32] times under a thread that is
    between loading and exchanging it has the events of a run of [lifo], where
    a push puts its value on top at its exchange, a pop takes the top at its
    exchange and returns that value, and empty is reported only of the empty
    stack. At every state no thread is about to leave the region, no two
    threads own the same slot (so no value is written or read under another
    thread), at most [cap] values are stacked, and [is_empty] and [approx_len]
    of the memory as it is are exact. When a push is refused, and what a peek
    returns, is not part of [lifo]: of a call that is not interrupted
    [treiber_alone_returns] says it. *)
Theorem treiber_refines_lifo {T} cap n (fill : list T) ls sys :
  Z.of_nat cap < STACK_NIL → Z.of_nat cap + Z.of_nat n < 2 ^ 32 → length fill = cap →
  ltrace timely_step (start cap n fill) ls sys →
  (∃ a, ltrace lifo_step {| contents := []; taken := ∅ |} ls a ∧ (length (contents a) ≤ cap)%nat ∧
     is_empty (mem sys) = bool_decide (contents a = []) ∧ approx_len (mem sys) = Some (length (contents a))) ∧
  (∀ i t, threads sys !! i = Some t → is_Some (tstep (mem sys) t)) ∧
  ∀ i j t u x, i ≠ j → threads sys !! i = Some t → threads sys !! j = Some u → x ∈ held t → x ∉ held u.
Proof.
  intros Hc Hn Hf Hr. destruct (run_rel _ _ _ _ _ Hc Hn Hf Hr) as (a & Ha & st & fr & al & Hi). split_and!.
  - exists a. split; [done|]. split; [by eapply stack_length|by eapply observers].
  - intros i t. by eapply tstep_in_region.
  - intros i j t u x. by eapply held_disjoint.
Qed.

(** ** A call alone *)

Section alone.
Context {T : Type}.
Implicit Types (s : shared T) (t : thread T).

Lemma timely_own s t s' t' e : tstep s t = Some (s', t', e) → timely_thread s t → timely_thread s' t'.
Proof.
  destruct t; cbn -[unpack bumped]; intros Hs Ht; simplify_option_eq; repeat case_match; simplify_eq; cbn in *; done || lia.
Qed.

(** The steps of [run_alone] are steps of the system. *)
Lemma run_alone_trace fuel s t s' es ts i :
  run_alone fuel s t = Some (s', es) → ts !! i = Some t → timely_thread s t →
  (∀ j u, j ≠ i → ts !! j = Some u → u = Idle) →
  ltrace timely_step {| mem := s; threads := ts |} ((i,.) <$> es) {| mem := s'; threads := <[i := Idle]> ts |}.
Proof.
  revert s t es ts. induction fuel as [|fuel IH]; intros s t es ts Hr Ht Htm Hts; [done|]. cbn [run_alone] in Hr.
  apply bind_Some in Hr as ([ [s1 t1] e] & Hs & Hr). pose proof (timely_own _ _ _ _ _ Hs Htm) as Htm1.
  assert (timely_step {| mem := s; threads := ts |} (i, e) {| mem := s1; threads := <[i := t1]> ts |}) as Hstep.
  { split; [by econstructor|]. apply Forall_lookup. cbn. intros j u Hu. destruct (decide (j = i)) as [->|Hne].
    - rewrite list_lookup_insert_eq in Hu by (by eapply lookup_lt_Some). by simplify_eq.
    - rewrite list_lookup_insert_ne in Hu by done. by rewrite (Hts j u Hne Hu). }
  assert (t1 = Idle ∧ s' = s1 ∧ es = [e] ∨
          ∃ es', es = e :: es' ∧ run_alone fuel s1 t1 = Some (s', es')) as [(-> & -> & ->)|(es' & -> & Hr')].
  { destruct t1; try (by left; simplify_eq); right; apply bind_Some in Hr as ([? es'] & ? & ?); simplify_eq; by exists es'. }
  - cbn. eauto using ltrace.
  - cbn. econstructor; [done|]. rewrite <- (list_insert_insert_eq ts i Idle t1).
    apply (IH s1 t1); [done| |done|].
    + apply list_lookup_insert_eq. by eapply lookup_lt_Some.
    + intros j u Hj Hu. rewrite list_lookup_insert_ne in Hu by done. by eapply Hts.
Qed.
(** One access of a call that goes on. *)
Lemma run_alone_step fuel s t s' t' e s'' es :
  tstep s t = Some (s', t', e) → t' ≠ Idle → run_alone fuel s' t' = Some (s'', es) →
  run_alone (S fuel) s t = Some (s'', e :: es).
Proof. intros Hs Hne Hr. cbn [run_alone]. rewrite Hs. cbn. destruct t'; try done; by rewrite Hr. Qed.

(** One access, with what decides its branch. *)
Ltac access H := eapply run_alone_step; [cbn [tstep]; rewrite H; reflexivity|done|].
Ltac last_access H := cbn [run_alone tstep]; rewrite H; reflexivity.

(** The whole call, from idle to idle. *)
Lemma alone_trace fuel sys i t s' es :
  Forall (eq Idle) (threads sys) → (i < length (threads sys))%nat → call t →
  run_alone fuel (mem sys) t = Some (s', es) →
  ltrace timely_step sys ((i,.) <$> Tau :: es) {| mem := s'; threads := threads sys |}.
Proof.
  intros Hid Hlt Hc Hr. destruct (lookup_lt_is_Some_2 (threads sys) i Hlt) as [u Hu].
  rewrite Forall_lookup in Hid. pose proof (Hid _ _ Hu) as <-. destruct sys as [s ts]. cbn in *.
  assert (timely_thread s t) as Ht by (by destruct Hc).
  eapply (ltrace_cons _ _ _ {| mem := s; threads := <[i := t]> ts |}).
  - split; [by constructor|]. apply Forall_insert; [|done]. apply Forall_lookup. intros j u Hj. by rewrite <- (Hid j u Hj).
  - replace ts with (<[i := Idle]> (<[i := t]> ts)) at 2 by (by rewrite list_insert_insert_eq, list_insert_id).
    eapply run_alone_trace; [done|by apply list_lookup_insert_eq|done|].
    intros j u Hj Hu'. rewrite list_lookup_insert_ne in Hu' by done. by rewrite <- (Hid j u Hu').
Qed.

Lemma write_alone s v x :
  (Z.to_nat x < length (slots s))%nat → (Z.to_nat x < length (nexts s))%nat →
  ∃ s', run_alone 4 s (Write v x) = Some (s', [Tau; Tau; Tau; Pushed v]).
Proof.
  intros H1%Nat.ltb_lt H2%Nat.ltb_lt. eexists. access H1. eapply run_alone_step; [done..|].
  access (H2 : (Z.to_nat x <? length (nexts (set_slot s x v)))%nat = true). last_access Z.eqb_refl.
Qed.

Lemma release_alone s v x :
  (Z.to_nat x < length (nexts s))%nat → ∃ s', run_alone 3 s (RelLoad v x) = Some (s', [Tau; Tau; Popped v]).
Proof.
  intros H%Nat.ltb_lt. eexists. eapply run_alone_step; [done..|]. access H. last_access Z.eqb_refl.
Qed.

Context (cap : nat) (sys : system T) (a : lifo T) (st fr : list Z) (al : nat).
Hypothesis Hcap : Z.of_nat cap < STACK_NIL.
Hypothesis Hi : stack_inv cap sys a st fr al.
Hypothesis Hidle : Forall (eq Idle) (threads sys).

Lemma idle_counts : al = length (st ++ fr) ∧ sbump (mem sys) = Z.of_nat al.
Proof using Hi Hidle.
  pose proof (sv_slots _ _ _ _ _ _ Hi) as Hp%Permutation_length. pose proof (sv_bump _ _ _ _ _ _ Hi) as Hb.
  assert (concat (held <$> threads sys) = [] ∧ count is_unbump (threads sys) = 0) as [E1 E2].
  { unfold count. clear -Hidle. by induction Hidle as [|? ts <- _ [IH1 IH2] ]. }
  rewrite E1, app_nil_r, length_seqZ in Hp. split; [lia|]. by rewrite Hb, E2, Z.add_0_r.
Qed.

Lemma push_alone v :
  ∃ fuel s' es, (fuel ≤ 7)%nat ∧ run_alone fuel (mem sys) (AcqLoad v) = Some (s', es) ∧
    last es = Some (if (length (contents a) <? cap)%nat then Pushed v else PushFull).
Proof using Hcap Hi Hidle.
  destruct idle_counts as [Hal Hb]. destruct (stack_length _ Hcap _ _ _ _ _ Hi) as [_ Hls].
  destruct (sv_shared _ _ _ _ _ _ Hi) as [H1 H2 H3 H4 H5 H6]. rewrite length_app in Hal.
  pose proof (lists_range _ Hcap _ _ _ _ _ Hi) as [_ Hfr].
  destruct (decide ((unpack (sfree (mem sys))).2 = STACK_NIL)) as [E|E].
  - assert (fr = []) as -> by (by apply (top_nil _ Hcap sys _ _ _ H5 Hfr)). cbn in Hal.
    destruct (decide (al = cap)) as [Ec|Ec].
    + eexists 3%nat, _, [Tau; Tau; PushFull]. split; [lia|]. rewrite (proj2 (Nat.ltb_ge _ _)) by lia. split; [|reflexivity].
      access (proj2 (Z.eqb_eq _ _) E).
      eapply run_alone_step; [cbn; rewrite (proj2 (Z.leb_le _ _)) by lia; reflexivity|done|]. reflexivity.
    + edestruct (write_alone (set_bump (mem sys) (u32 (sbump (mem sys) + 1))) v (sbump (mem sys))) as [s' Hs']; [cbn; lia..|].
      exists 6%nat. eexists _, [Tau; Tau; Tau; Tau; Tau; Pushed v]. split; [lia|]. rewrite (proj2 (Nat.ltb_lt _ _)) by lia. split; [|reflexivity].
      access (proj2 (Z.eqb_eq _ _) E).
      eapply run_alone_step; [cbn; rewrite (proj2 (Z.leb_gt _ _)) by lia; reflexivity|done|done].
  - pose proof (loaded_slot _ Hcap _ _ _ _ (nonempty_free _ Hcap _ _ _ _ _ Hi E)) as Hr.
    assert (0 < length fr)%nat as Hf.
    { destruct fr; [|cbn; lia]. destruct E. by apply (top_nil _ Hcap sys _ _ _ H5 Hfr). }
    destruct (lookup_lt_is_Some_2 (nexts (mem sys)) (Z.to_nat (unpack (sfree (mem sys))).2)) as [nx Hnx]; [lia|].
    edestruct (write_alone (set_free (mem sys) (bumped (sfree (mem sys)) nx)) v (unpack (sfree (mem sys))).2) as [s' Hs']; [cbn -[unpack]; lia..|].
    exists 7%nat. eexists _, [Tau; Tau; Tau; Tau; Tau; Tau; Pushed v]. split; [lia|]. rewrite (proj2 (Nat.ltb_lt _ _)) by lia. split; [|reflexivity].
    access (proj2 (Z.eqb_neq _ _) E).
    access Hnx.
    access Z.eqb_refl. done.
Qed.

Lemma pop_alone :
  ∃ fuel s' es, (fuel ≤ 7)%nat ∧ run_alone fuel (mem sys) PopLoad = Some (s', es) ∧
    last es = Some (match contents a with [] => PopEmpty | v :: _ => Popped v end).
Proof using Hcap Hi.
  destruct (sv_shared _ _ _ _ _ _ Hi) as [H1 H2 H3 H4 H5 H6].
  pose proof (lists_range _ Hcap _ _ _ _ _ Hi) as [Hst _]. pose proof (top_unpack _ _ _ _ H4) as (x & Hx & Hu & Hc).
  destruct (decide ((unpack (shead (mem sys))).2 = STACK_NIL)) as [E|E].
  - rewrite (empty_contents _ Hcap _ _ _ _ _ Hi E). exists 1%nat, (mem sys), [PopEmpty]. split; [lia|]. split; [|done].
    cbn -[unpack]. by rewrite E, Z.eqb_refl.
  - pose proof (loaded_slot _ Hcap _ _ _ _ (nonempty_head _ Hcap _ _ _ _ _ Hi E)) as Hr.
    destruct (lookup_lt_is_Some_2 (nexts (mem sys)) (Z.to_nat (unpack (shead (mem sys))).2)) as [nx Hnx]; [lia|].
    assert (∃ v c, slots (mem sys) !! Z.to_nat (unpack (shead (mem sys))).2 = Some v ∧ contents a = v :: c) as (v & c & Hv & ->).
    { rewrite Hu in *. cbn [snd] in *. destruct H6 as [|y v st' c' Hv _]; [done|]. destruct Hc as [-> _]. by exists v, c'. }
    destruct (release_alone (set_head (mem sys) (bumped (shead (mem sys)) nx)) v (unpack (shead (mem sys))).2) as [s' Hs']; [cbn -[unpack]; lia|].
    exists 7%nat. eexists _, [Tau; Tau; PopTaken; Tau; Tau; Tau; Popped v]. split; [lia|]. split; [|reflexivity].
    access (proj2 (Z.eqb_neq _ _) E).
    access Hnx.
    access Z.eqb_refl.
    eapply run_alone_step; [cbn -[unpack]; by rewrite Hv|done|done].
Qed.
End alone.

(** With every thread idle, a call returns within seven accesses whatever
    the history: [push] of [v] reports success unless the stack holds [cap]
    values, and then reports full; [pop] returns the top of the stack, or empty
    of the empty one. The run is a run of the system, so it has the effect on
    the stack that its events name. *)
Lemma treiber_alone_returns {T} cap n (fill : list T) ls sys i :
  Z.of_nat cap < STACK_NIL → Z.of_nat cap + Z.of_nat n < 2 ^ 32 → length fill = cap →
  ltrace timely_step (start cap n fill) ls sys → Forall (eq Idle) (threads sys) → (i < length (threads sys))%nat →
  ∃ a, ltrace lifo_step {| contents := []; taken := ∅ |} ls a ∧
    let returns t e := ∃ fuel s' es, (fuel ≤ 7)%nat ∧ run_alone fuel (mem sys) t = Some (s', es) ∧ last es = Some e ∧
      ltrace timely_step sys ((i,.) <$> Tau :: es) {| mem := s'; threads := threads sys |} in
    (∀ v, returns (AcqLoad v) (if (length (contents a) <? cap)%nat then Pushed v else PushFull)) ∧
    returns PopLoad (match contents a with [] => PopEmpty | v :: _ => Popped v end).
Proof.
  intros Hc Hn Hf Hr Hid Hlt. destruct (run_rel _ _ _ _ _ Hc Hn Hf Hr) as (a & Ha & st & fr & al & Hi).
  exists a. split; [done|]. intros returns.
  assert (∀ t e fuel s' es, call t → (fuel ≤ 7)%nat → run_alone fuel (mem sys) t = Some (s', es) →
    last es = Some e → returns t e) as Hret.
  { intros t e fuel s' es Hct Hfuel Hrun Hlast. exists fuel, s', es. split_and!; [done..|]. by eapply alone_trace. }
  split; [intros v|].
  - destruct (push_alone _ _ _ _ _ _ Hc Hi Hid v) as (fuel & s' & es & ? & ? & ?). by eapply Hret; [constructor|..].
  - destruct (pop_alone _ _ _ _ _ _ Hc Hi) as (fuel & s' & es & ? & ? & ?). by eapply Hret; [constructor|..].
Qed.

Lemma treiber_refines_lifo_witness :
  ∃ sys a, ltrace timely_step (start 1 2 [5]) ((0%nat,.) <$> [Tau; Tau; Tau; Tau; Tau; Tau; Pushed 7]) sys ∧
    ltrace lifo_step {| contents := []; taken := ∅ |} ((0%nat,.) <$> [Tau; Tau; Tau; Tau; Tau; Tau; Pushed 7]) a ∧
    approx_len (mem sys) = Some (length (contents a)).
Proof.
  assert (∃ s', run_alone 6 (mem (start 1 2 [5])) (AcqLoad 7) = Some (s', [Tau; Tau; Tau; Tau; Tau; Pushed 7])) as [s' Hs']
    by (vm_compute; eauto).
  pose proof (alone_trace 6 (start 1 2 [5]) 0 (AcqLoad 7) s' _ ltac:(repeat constructor) ltac:(cbn; lia)
    ltac:(constructor) Hs') as Hr.
  destruct (treiber_refines_lifo 1 2 [5] _ _ ltac:(done) ltac:(done) ltac:(done) Hr) as [(a & Ha & _ & _ & Hl) _].
  eauto.
Defined.

(** A thread makes its next access, or begins a call. *)
Ltac go i :=
  eapply ltrace_cons; [split; [eapply (step_thread _ _ i); reflexivity|repeat constructor; cbn; lia]|cbn -[bumped pack]].
Ltac begin i t :=
  eapply ltrace_cons; [split; [eapply (step_call _ _ i t); [reflexivity|constructor]|repeat constructor; cbn; lia]|cbn -[bumped pack]].

(** [peek] reads the slot after loading the head, and does not look at the head
    again: the slot may have been popped and taken by a push that is not done.
    Here the peek of thread 1 returns 9, which no push has put on the stack. *)
Lemma peek_unpushed :
  ∃ ls sys, ltrace timely_step (start 1 2 [0]) ls sys ∧ (1%nat, Peeked 9) ∈ ls ∧ ∀ i, (i, Pushed 9) ∉ ls.
Proof.
  eexists _, _. split.
  - begin 0%nat (AcqLoad 5). do 6 go 0%nat. begin 1%nat (@PeekLoad Z). go 1%nat.
    begin 0%nat (@PopLoad Z). do 7 go 0%nat. begin 0%nat (AcqLoad 9). do 4 go 0%nat. go 1%nat. constructor.
  - split; [set_solver|]. intros i Hi. repeat (apply elem_of_cons in Hi as [Hi|Hi]; [discriminate|]). by apply elem_of_nil in Hi.
Qed.
