(* ===== verification/BTree.v ===== *)
(** The ordered map: crates/subetha-cxc/src/shared_btree_map.rs.

    A B-tree of minimum degree [T] whose nodes lie in a mapped array, linked by
    their indices; free nodes form a chain through [children[0]]. The region is
    the map of the array's indices to nodes. Calls run in the monad [M]: a
    [Panic] is an access outside the region or an array, or a walk out of fuel.
    Readers are modelled at rest, one attempt of their retry loop at a time.
    Calls to the observation ring, file attachment and flushing are left out. *)
From stdpp Require Import gmap.
From S2P Require Import Prelude.

Definition T : nat := 8.
Definition B : nat := 2 * T - 1.
#[global] Arguments T : simpl never.
#[global] Arguments B : simpl never.
Definition MAX_TREE_DEPTH : nat := 64.
Definition NIL : Z := 2 ^ 32 - 1.
Definition BTREE_MAGIC : Z := 0x4254524545_4D4150.

Record BTreeHeader := {
  magic : Z; root : Z; node_count : Z; capacity : Z; len : Z; free_head : Z; version : Z;
  key_size : Z; value_size : Z; layout_tag : Z }.

Inductive BTreeError := Full | LayoutMismatch | InvalidConfig | IoError (kind : Z).

Definition HEADER_SIZE : Z := 64.

(** [node_size] is [size_of::<BTreeNode<K, V>>()]. *)
Definition btree_file_size (capacity node_size : Z) : Z := u64 (HEADER_SIZE + u64 (capacity * node_size)).

(** [init_region] on zeroed bytes. *)
Definition init_region (capacity ksize vsize : Z) : BTreeHeader :=
  {| magic := BTREE_MAGIC; root := NIL; node_count := 0; capacity := u64 capacity; len := 0;
     free_head := NIL; version := 0; key_size := u32 ksize; value_size := u32 vsize; layout_tag := 0 |}.

Definition from_region (hdr : BTreeHeader) (cap ksize vsize : Z) : res BTreeError unit :=
  if negb (magic hdr =? BTREE_MAGIC) || negb (capacity hdr =? u64 cap)
     || (negb (key_size hdr =? 0) && negb (key_size hdr =? ksize))
     || (negb (value_size hdr =? 0) && negb (value_size hdr =? vsize))
     || negb (layout_tag hdr =? 0)
  then Err LayoutMismatch else Ok tt.

Definition reset (cap ksize vsize : Z) : res BTreeError BTreeHeader :=
  if cap <? 1 then Err InvalidConfig
  else let hdr := init_region cap ksize vsize in _ ← from_region hdr cap ksize vsize; Ok hdr.

(** An opener maps [btree_file_size] bytes of a file of [file_len]. *)
Definition open (file_len : Z) (hdr : BTreeHeader) (cap ksize vsize node_size : Z) : res BTreeError BTreeHeader :=
  if file_len <? btree_file_size cap node_size then Err LayoutMismatch
  else _ ← from_region hdr cap ksize vsize; Ok hdr.

(** The order of the keys, with the laws [Ord] documents. *)
Class KeyOrd (K : Type) := {
  cmp : K → K → comparison;
  cmp_eq : ∀ x y, cmp x y = Eq ↔ x = y;
  cmp_opp : ∀ x y, cmp y x = CompOpp (cmp x y);
  cmp_trans : ∀ x y z, cmp x y = Lt → cmp y z = Lt → cmp x z = Lt }.

#[export] Instance Z_KeyOrd : KeyOrd Z.
Proof.
  refine {| cmp := Z.compare |}.
  - apply Z.compare_eq_iff.
  - intros x y. apply Z.compare_antisym.
  - intros x y z. rewrite !Z.compare_lt_iff. lia.
Defined.

(** * Arrays

    [None] is Rust's panic on an index out of range. *)

Section arrays.
Context {A : Type}.

Definition aset (i : nat) (x : A) (l : list A) : option (list A) :=
  if (i <? length l)%nat then Some (<[i := x]> l) else None.

(** [j = pos + n; while j > pos { l[j] = l[j - 1]; j -= 1 }] *)
Fixpoint shift_up (pos n : nat) (l : list A) : option (list A) :=
  match n with
  | O => Some l
  | S n' => x ← l !! (pos + n')%nat; l' ← aset (pos + n) x l; shift_up pos n' l'
  end.

(** [for j in from..from + n { l[j] = l[j + 1] }] *)
Fixpoint shift_down (from n : nat) (l : list A) : option (list A) :=
  match n with
  | O => Some l
  | S n' => x ← l !! S from; l' ← aset from x l; shift_down (S from) n' l'
  end.

(** [for j in 0..n { dst[d + j] = src[s + j] }] *)
Fixpoint copy (n s d : nat) (src dst : list A) : option (list A) :=
  match n with
  | O => Some dst
  | S n' => x ← src !! s; dst' ← aset d x dst; copy n' (S s) (S d) src dst'
  end.

(** [n - 1] of an index; below zero it leaves every array. *)
Definition below (n : nat) : option nat := match n with O => None | S n => Some n end.

(** Make room at [pos] among the first [n] elements and store [x] there. *)
Definition insert_at (pos n : nat) (x : A) (l : list A) : option (list A) :=
  l' ← shift_up pos (n - pos) l; aset pos x l'.
End arrays.

(** * The tree *)

Section btree.
Context {K V : Type} `{KeyOrd K}.

Record BTreeNode := {
  count : nat; is_leaf : bool; keys : list K; children : list Z; values : list V }.

(** The mapped header, the node array, and the capacity of the handle. *)
Record SharedBTreeMap := {
  header : BTreeHeader; region : gmap Z BTreeNode; mcapacity : Z }.

Definition M (A : Type) : Type := SharedBTreeMap → res BTreeError A * SharedBTreeMap.

#[export] Instance M_ret : MRet M := λ A a m, (Ok a, m).
#[export] Instance M_bind : MBind M := λ A A' k c m,
  match c m with
  | (Ok a, m') => k a m'
  | (Err e, m') => (Err e, m')
  | (Panic, m') => (Panic, m')
  end.

Definition get_state : M SharedBTreeMap := λ m, (Ok m, m).
Definition throw {A} (e : BTreeError) : M A := λ m, (Err e, m).
Definition lift {A} (o : option A) : M A := λ m, (match o with Some a => Ok a | None => Panic end, m).

Definition set_header (f : BTreeHeader → BTreeHeader) : M unit :=
  λ m, (Ok tt, {| header := f (header m); region := region m; mcapacity := mcapacity m |}).

Definition with_root (x : Z) (h : BTreeHeader) : BTreeHeader :=
  {| magic := magic h; root := x; node_count := node_count h; capacity := capacity h; len := len h;
     free_head := free_head h; version := version h; key_size := key_size h; value_size := value_size h;
     layout_tag := layout_tag h |}.
Definition with_node_count (x : Z) (h : BTreeHeader) : BTreeHeader :=
  {| magic := magic h; root := root h; node_count := x; capacity := capacity h; len := len h;
     free_head := free_head h; version := version h; key_size := key_size h; value_size := value_size h;
     layout_tag := layout_tag h |}.
Definition with_len (x : Z) (h : BTreeHeader) : BTreeHeader :=
  {| magic := magic h; root := root h; node_count := node_count h; capacity := capacity h; len := x;
     free_head := free_head h; version := version h; key_size := key_size h; value_size := value_size h;
     layout_tag := layout_tag h |}.
Definition with_free_head (x : Z) (h : BTreeHeader) : BTreeHeader :=
  {| magic := magic h; root := root h; node_count := node_count h; capacity := capacity h; len := len h;
     free_head := x; version := version h; key_size := key_size h; value_size := value_size h;
     layout_tag := layout_tag h |}.
Definition with_version (x : Z) (h : BTreeHeader) : BTreeHeader :=
  {| magic := magic h; root := root h; node_count := node_count h; capacity := capacity h; len := len h;
     free_head := free_head h; version := x; key_size := key_size h; value_size := value_size h;
     layout_tag := layout_tag h |}.

(** The node at an index of the region, and a change of it. *)
Definition node (idx : Z) : M BTreeNode := λ m, (match region m !! idx with Some n => Ok n | None => Panic end, m).
Definition write (idx : Z) (n : BTreeNode) : M unit :=
  λ m, match region m !! idx with
       | Some _ => (Ok tt, {| header := header m; region := <[idx := n]> (region m); mcapacity := mcapacity m |})
       | None => (Panic, m)
       end.

Definition with_count (c : nat) (n : BTreeNode) : BTreeNode :=
  {| count := c; is_leaf := is_leaf n; keys := keys n; children := children n; values := values n |}.
Definition with_pairs (ks : list K) (vs : list V) (n : BTreeNode) : BTreeNode :=
  {| count := count n; is_leaf := is_leaf n; keys := ks; children := children n; values := vs |}.
Definition with_children (cs : list Z) (n : BTreeNode) : BTreeNode :=
  {| count := count n; is_leaf := is_leaf n; keys := keys n; children := cs; values := values n |}.

(** ** Allocation *)

Definition alloc_node (leaf : bool) : M Z :=
  m ← get_state;
  let free := free_head (header m) in
  idx ← (if negb (free =? NIL) then
           n ← node free; next ← lift (children n !! 0%nat); _ ← set_header (with_free_head next); mret free
         else
           let idx := node_count (header m) in
           _ ← set_header (with_node_count (u32 (idx + 1)));
           if mcapacity m <=? idx then
             _ ← set_header (λ h, with_node_count (u32 (node_count h - 1)) h); throw Full
           else mret idx);
  n ← node idx;
  _ ← write idx {| count := 0; is_leaf := leaf; keys := keys n; children := replicate (B + 1) NIL; values := values n |};
  mret idx.

Definition free_node (idx : Z) : M unit :=
  m ← get_state;
  n ← node idx; cs ← lift (aset 0 (free_head (header m)) (children n)); _ ← write idx (with_children cs n);
  set_header (with_free_head idx).

Definition begin_write : M unit := set_header (λ h, with_version (u64 (version h + 1)) h).
Definition end_write : M unit := set_header (λ h, with_version (u64 (version h + 1)) h).

(** ** Search *)

(** The binary search between [lo] and [hi]; a step halves the distance, so the
    fuel [hi] is enough. *)
Fixpoint bsearch (fuel : nat) (ks : list K) (key : K) (lo hi : nat) : option (nat * bool) :=
  if (lo <? hi)%nat then
    match fuel with
    | O => None
    | S fuel =>
        let mid := ((lo + hi) / 2)%nat in
        mk ← ks !! mid;
        match cmp mk key with
        | Lt => bsearch fuel ks key (mid + 1) hi
        | Gt => bsearch fuel ks key lo mid
        | Eq => Some (mid, true)
        end
    end
  else Some (lo, false).

Definition search_node (n : BTreeNode) (key : K) : option (nat * bool) :=
  let c := Nat.min (count n) B in bsearch c (keys n) key 0 c.

Definition search (idx : Z) (key : K) : M (nat * bool) := n ← node idx; lift (search_node n key).

(** [keys[i] = k; values[i] = v] *)
Definition set_pair (i : nat) (k : K) (v : V) (n : BTreeNode) : option BTreeNode :=
  ks ← aset i k (keys n); vs ← aset i v (values n); Some (with_pairs ks vs n).
Definition pair_at (n : BTreeNode) (i : nat) : option (K * V) :=
  k ← keys n !! i; v ← values n !! i; Some (k, v).

(** ** Insertion *)

(** Make room at [pos] and store a pair there, one more than before. *)
Definition insert_pair (pos : nat) (k : K) (v : V) (n : BTreeNode) : option BTreeNode :=
  ks ← insert_at pos (count n) k (keys n); vs ← insert_at pos (count n) v (values n);
  Some (with_count (count n + 1) (with_pairs ks vs n)).

Definition split_child (parent : Z) (i : nat) : M unit :=
  p ← node parent; full ← lift (children p !! i);
  f ← node full; right ← alloc_node (is_leaf f);
  f ← node full; r ← node right;
  ks ← lift (copy (T - 1) T 0 (keys f) (keys r)); vs ← lift (copy (T - 1) T 0 (values f) (values r));
  cs ← lift (if is_leaf f then Some (children r) else copy T T 0 (children f) (children r));
  _ ← write right {| count := T - 1; is_leaf := is_leaf f; keys := ks; children := cs; values := vs |};
  f ← node full; median ← lift (pair_at f (T - 1)); _ ← write full (with_count (T - 1) f);
  p ← node parent;
  cs ← lift (insert_at (i + 1) (count p + 1) right (children p));
  p' ← lift (insert_pair i median.1 median.2 p);
  write parent (with_children cs p').

Definition set_value (idx : Z) (pos : nat) (value : V) : M V :=
  n ← node idx; old ← lift (values n !! pos); vs ← lift (aset pos value (values n));
  _ ← write idx (with_pairs (keys n) vs n); mret old.

Fixpoint insert_nonfull (fuel : nat) (idx : Z) (key : K) (value : V) : M (option V) :=
  match fuel with
  | O => lift None
  | S fuel =>
      pf ← search idx key; let '(pos, found) := pf in
      n ← node idx;
      if found : bool then old ← set_value idx pos value; mret (Some old)
      else if is_leaf n then
        n' ← lift (insert_pair pos key value n); _ ← write idx n';
        _ ← set_header (λ h, with_len (u64 (len h + 1)) h); mret None
      else
        child ← lift (children n !! pos); c ← node child;
        if (count c =? B)%nat then
          _ ← split_child idx pos;
          n ← node idx; med ← lift (keys n !! pos);
          match cmp key med with
          | Eq => old ← set_value idx pos value; mret (Some old)
          | Gt => next ← lift (children n !! (pos + 1)%nat); insert_nonfull fuel next key value
          | Lt => next ← lift (children n !! pos); insert_nonfull fuel next key value
          end
        else insert_nonfull fuel child key value
  end.

(** The first store of a root's pair and the growth by a level. *)
Definition plant (key : K) (value : V) : M (option V) :=
  r ← alloc_node true; n ← node r; n' ← lift (set_pair 0 key value n); _ ← write r (with_count 1 n');
  _ ← set_header (with_root r); _ ← set_header (λ h, with_len (u64 (len h + 1)) h); mret None.

Definition grow (old_root : Z) : M Z :=
  new_root ← alloc_node false;
  n ← node new_root; cs ← lift (aset 0 old_root (children n));
  _ ← write new_root (with_count 0 (with_children cs n));
  _ ← split_child new_root 0; _ ← set_header (with_root new_root); mret new_root.

(** A descent passes through a node of each level, so the fuel is one more than
    the nodes there are. *)
Definition depth_fuel (m : SharedBTreeMap) : nat := S (Z.to_nat (node_count (header m))).

Definition insert_inner (key : K) (value : V) : M (option V) :=
  m ← get_state;
  let root := root (header m) in
  if root =? NIL then plant key value
  else
    n ← node root;
    root ← (if (count n =? B)%nat then grow root else mret root);
    m ← get_state; insert_nonfull (depth_fuel m) root key value.

(** The version is advanced on either side whatever the body returns. *)
Definition mutation {A} (body : M A) : M A := λ m,
  let '(r, m) := body (begin_write m).2 in (r, (end_write m).2).

Definition insert (key : K) (value : V) : M (option V) := mutation (insert_inner key value).
(** ** Removal *)

(** Close the gap at [pos]. *)
Definition remove_pair (pos : nat) (n : BTreeNode) : option BTreeNode :=
  last ← below (count n);
  ks ← shift_down pos (last - pos) (keys n); vs ← shift_down pos (last - pos) (values n);
  Some (with_count last (with_pairs ks vs n)).

Fixpoint max_pair (fuel : nat) (idx : Z) : M (K * V) :=
  match fuel with
  | O => lift None
  | S fuel =>
      n ← node idx;
      if is_leaf n then last ← lift (below (count n)); lift (pair_at n last)
      else next ← lift (children n !! count n); max_pair fuel next
  end.

Fixpoint min_pair (fuel : nat) (idx : Z) : M (K * V) :=
  match fuel with
  | O => lift None
  | S fuel =>
      n ← node idx;
      if is_leaf n then lift (pair_at n 0) else next ← lift (children n !! 0%nat); min_pair fuel next
  end.

Definition merge_at (parent : Z) (i : nat) : M unit :=
  p ← node parent; left ← lift (children p !! i); right ← lift (children p !! (i + 1)%nat);
  l ← node left; sep ← lift (pair_at p i); l1 ← lift (set_pair (count l) sep.1 sep.2 l); r ← node right;
  ks ← lift (copy (count r) 0 (count l + 1) (keys r) (keys l1));
  vs ← lift (copy (count r) 0 (count l + 1) (values r) (values l1));
  cs ← lift (if is_leaf l then Some (children l) else copy (count r + 1) 0 (count l + 1) (children r) (children l));
  _ ← write left {| count := count l + 1 + count r; is_leaf := is_leaf l; keys := ks; children := cs; values := vs |};
  p ← node parent;
  p' ← lift (remove_pair i p); cs ← lift (shift_down (i + 1) (count p - (i + 1)) (children p));
  _ ← write parent (with_children cs p');
  free_node right.

Definition borrow_from_left (parent : Z) (i : nat) : M unit :=
  p ← node parent; child ← lift (children p !! i); j ← lift (below i); left ← lift (children p !! j);
  c ← node child; l ← node left;
  sep ← lift (pair_at p j); c' ← lift (insert_pair 0 sep.1 sep.2 c);
  cs ← lift (if is_leaf c then Some (children c)
             else last ← children l !! count l; insert_at 0 (count c + 1) last (children c));
  last ← lift (below (count l)); top ← lift (pair_at l last); p' ← lift (set_pair j top.1 top.2 p);
  _ ← write child (with_children cs c'); _ ← write parent p';
  l ← node left; write left (with_count last l).

Definition borrow_from_right (parent : Z) (i : nat) : M unit :=
  p ← node parent; child ← lift (children p !! i); right ← lift (children p !! (i + 1)%nat);
  c ← node child; r ← node right;
  sep ← lift (pair_at p i); c' ← lift (set_pair (count c) sep.1 sep.2 c);
  cs ← lift (if is_leaf c then Some (children c)
             else first ← children r !! 0%nat; aset (count c + 1) first (children c));
  low ← lift (pair_at r 0); p' ← lift (set_pair i low.1 low.2 p);
  _ ← write child (with_count (count c + 1) (with_children cs c')); _ ← write parent p';
  r ← node right;
  r' ← lift (remove_pair 0 r);
  rs ← lift (if is_leaf c then Some (children r) else shift_down 0 (count r) (children r));
  write right (with_children rs r').

Definition has_spare (idx : Z) : M bool := n ← node idx; mret (T <=? count n)%nat.

Definition merge_child (parent : Z) (i pcount : nat) : M Z :=
  j ← (if (i <? pcount)%nat then mret i else lift (below i));
  _ ← merge_at parent j; p ← node parent; lift (children p !! j).

Definition ensure_min_degree (parent : Z) (i : nat) : M Z :=
  p ← node parent; child ← lift (children p !! i);
  spare ← has_spare child;
  if spare : bool then mret child
  else
    let pcount := count p in
    left_spare ← (match i with S j => left ← lift (children p !! j); has_spare left | O => mret false end);
    if left_spare : bool then _ ← borrow_from_left parent i; mret child
    else
      right_spare ← (if (i <? pcount)%nat then right ← lift (children p !! (i + 1)%nat); has_spare right else mret false);
      if right_spare : bool then _ ← borrow_from_right parent i; mret child
      else merge_child parent i pcount.

Fixpoint delete_from (fuel : nat) (idx : Z) (key : K) : M (option V) :=
  match fuel with
  | O => lift None
  | S fuel =>
      pf ← search idx key; let '(pos, found) := pf in
      n ← node idx;
      if found : bool then
        old ← lift (values n !! pos);
        _ ← (if is_leaf n then n' ← lift (remove_pair pos n); write idx n'
             else
               left ← lift (children n !! pos); right ← lift (children n !! (pos + 1)%nat);
               left_spare ← has_spare left;
               if left_spare : bool then
                 pred ← max_pair (S fuel) left;
                 n' ← lift (set_pair pos pred.1 pred.2 n); _ ← write idx n';
                 _ ← delete_from fuel left pred.1; mret tt
               else
                 right_spare ← has_spare right;
                 if right_spare : bool then
                   succ ← min_pair (S fuel) right;
                   n' ← lift (set_pair pos succ.1 succ.2 n); _ ← write idx n';
                   _ ← delete_from fuel right succ.1; mret tt
                 else _ ← merge_at idx pos; _ ← delete_from fuel left key; mret tt);
        mret (Some old)
      else if is_leaf n then mret None
      else child ← ensure_min_degree idx pos; delete_from fuel child key
  end.

(** A root without pairs gives way to its only child, or to none. *)
Definition shrink (root : Z) : M unit :=
  rn ← node root;
  if (count rn =? 0)%nat then
    new_root ← (if is_leaf rn then mret NIL else lift (children rn !! 0%nat));
    _ ← set_header (with_root new_root); free_node root
  else mret tt.

Definition remove_inner (key : K) : M (option V) :=
  m ← get_state;
  let root := root (header m) in
  if root =? NIL then mret None
  else
    removed ← delete_from (depth_fuel m) root key;
    _ ← shrink root;
    _ ← (match removed with Some _ => set_header (λ h, with_len (u64 (len h - 1)) h) | None => mret tt end);
    mret removed.

Definition remove (key : K) : M (option V) := mutation (remove_inner key).

(** ** Readers

    [None] is a panic; an attempt that finds a writer at work or a node index
    outside the region is to be repeated. *)

Inductive attempt (A : Type) := Done (a : A) | Retry.
Arguments Done {A} a.
Arguments Retry {A}.

Fixpoint descend (fuel : nat) (m : SharedBTreeMap) (cap idx : Z) (key : K) : option (attempt (option V)) :=
  if idx =? NIL then Some (Done None)
  else match fuel with
  | O => None
  | S fuel =>
      if cap <=? idx then Some Retry
      else
        n ← region m !! idx; pf ← search_node n key;
        let '(pos, found) := pf in
        if found : bool then v ← values n !! pos; Some (Done (Some v))
        else if is_leaf n then Some (Done None)
        else next ← children n !! pos; descend fuel m cap next key
  end.

(** An iteration of [get_inner] that meets no writer. *)
Definition get_inner (m : SharedBTreeMap) (key : K) : option (attempt (option V)) :=
  if Z.odd (version (header m)) then Some Retry
  else descend (depth_fuel m) m (u32 (mcapacity m)) (root (header m)) key.

Definition contains_key (m : SharedBTreeMap) (key : K) : option (attempt bool) :=
  r ← get_inner m key;
  Some match r with Done (Some _) => Done true | Done None => Done false | Retry => Retry end.

Definition first (m : SharedBTreeMap) : option (option (K * V)) :=
  if root (header m) =? NIL then Some None
  else match (min_pair (depth_fuel m) (root (header m)) m).1 with Ok kv => Some (Some kv) | _ => None end.

Definition blen (m : SharedBTreeMap) : Z := len (header m).
Definition bis_empty (m : SharedBTreeMap) : bool := blen m =? 0.

(** *** Ranges *)

Inductive Bound := Included (k : K) | Excluded (k : K) | Unbounded.

Definition key_gt (k l : K) : bool := match cmp k l with Gt => true | _ => false end.
Definition key_ge (k l : K) : bool := match cmp k l with Lt => false | _ => true end.

Definition low_admits_below (k : K) (low : Bound) : bool :=
  match low with Unbounded => true | Included l | Excluded l => key_gt k l end.
Definition at_or_above_low (k : K) (low : Bound) : bool :=
  match low with Unbounded => true | Included l => key_ge k l | Excluded l => key_gt k l end.
Definition above_high (k : K) (high : Bound) : bool :=
  match high with Unbounded => false | Included hi => key_gt k hi | Excluded hi => key_ge k hi end.

Record scan := { out : list (K * V); torn : bool; stop : bool }.
Definition halted (w : scan) : bool := torn w || stop w.

(** The body of the loop over the keys of a node, from [i] for [n] more. *)
Fixpoint range_keys (rec : Z → scan → option scan) (nd : BTreeNode) (low high : Bound) (limit : nat)
    (i n : nat) (w : scan) : option scan :=
  match n with
  | O => Some w
  | S n' =>
      k ← keys nd !! i;
      w ← (if negb (is_leaf nd) && low_admits_below k low then c ← children nd !! i; rec c w else Some w);
      if halted w then Some w
      else if above_high k high then Some {| out := out w; torn := torn w; stop := true |}
      else
        if at_or_above_low k low then
          v ← values nd !! i;
          let w := {| out := out w ++ [(k, v)]; torn := torn w; stop := stop w |} in
          if (limit <=? length (out w))%nat then Some {| out := out w; torn := torn w; stop := true |}
          else range_keys rec nd low high limit (S i) n' w
        else range_keys rec nd low high limit (S i) n' w
  end.

Fixpoint walk_range (depth : nat) (m : SharedBTreeMap) (cap : Z) (low high : Bound) (limit : nat)
    (idx : Z) (w : scan) : option scan :=
  if halted w then Some w
  else match depth with
  | O => Some {| out := out w; torn := true; stop := stop w |}
  | S depth =>
      if cap <=? idx then Some {| out := out w; torn := true; stop := stop w |}
      else
        n ← region m !! idx;
        let count := Nat.min (count n) B in
        w ← range_keys (walk_range depth m cap low high limit) n low high limit 0 count w;
        if halted w then Some w
        else if is_leaf n then Some w
        else c ← children n !! count; walk_range depth m cap low high limit c w
  end.

Definition range_inner (m : SharedBTreeMap) (low high : Bound) (limit : nat) : option (attempt (list (K * V))) :=
  if (limit =? 0)%nat then Some (Done [])
  else if Z.odd (version (header m)) then Some Retry
  else
    w ← (if root (header m) =? NIL then Some {| out := []; torn := false; stop := false |}
         else walk_range MAX_TREE_DEPTH m (u32 (mcapacity m)) low high limit (root (header m))
                {| out := []; torn := false; stop := false |});
    Some (if torn w then Retry else Done (out w)).

(** *** Iteration *)

Fixpoint walk_keys (rec : Z → option (list (K * V))) (nd : BTreeNode) (i n : nat) : option (list (K * V)) :=
  match n with
  | O => Some []
  | S n' =>
      sub ← (if is_leaf nd then Some [] else c ← children nd !! i; rec c);
      kv ← pair_at nd i; rest ← walk_keys rec nd (S i) n'; Some (sub ++ kv :: rest)
  end.

Fixpoint walk (fuel : nat) (m : SharedBTreeMap) (idx : Z) : option (list (K * V)) :=
  match fuel with
  | O => None
  | S fuel =>
      n ← region m !! idx;
      body ← walk_keys (walk fuel m) n 0 (count n);
      tail ← (if is_leaf n then Some [] else c ← children n !! count n; walk fuel m c);
      Some (body ++ tail)
  end.

Definition iter_ascending (m : SharedBTreeMap) : option (list (K * V)) :=
  if root (header m) =? NIL then Some [] else walk (depth_fuel m) m (root (header m)).

(** A map just created, over whatever bytes the key and value arrays hold. *)
Definition created (cap ksize vsize : Z) (fill : gmap Z BTreeNode) : SharedBTreeMap :=
  {| header := init_region cap ksize vsize; region := fill; mcapacity := cap |}.
End btree.

Arguments BTreeNode : clear implicits.
Arguments SharedBTreeMap : clear implicits.
Arguments Bound : clear implicits.
Arguments scan : clear implicits.
Arguments Done {A} a.
Arguments Retry {A}.

(** * Arrays, by their parts *)

Section array_lemmas.
Context {A : Type}.
Implicit Types (l a b c : list A) (x y : A).

Lemma aset_mid i x a y c : i = length a → aset i x (a ++ y :: c) = Some (a ++ x :: c).
Proof.
  intros ->. unfold aset. rewrite length_app. cbn [length].
  rewrite (proj2 (Nat.ltb_lt _ _)) by lia. f_equal. rewrite insert_app_r_alt, Nat.sub_diag by lia. done.
Qed.

(** The element left behind at [pos] is overwritten by the caller. *)
Lemma shift_up_spec pos n a b y c :
  pos = length a → n = length b → ∃ z, shift_up pos n (a ++ b ++ y :: c) = Some (a ++ z :: b ++ c).
Proof.
  intros -> ->. revert y c. induction b as [|x b IH] using rev_ind; intros y c; [by exists y|].
  rewrite length_app, Nat.add_comm. cbn [length Nat.add shift_up].
  rewrite <- (assoc_L (++)). cbn [app]. rewrite lookup_app_r by lia. replace (length a + length b - length a)%nat with (length b) by lia.
  rewrite list_lookup_middle by done. cbn.
  change (a ++ b ++ x :: y :: c) with (a ++ b ++ [x] ++ y :: c). rewrite !(assoc_L (++)).
  rewrite aset_mid by (rewrite !length_app; cbn; lia). cbn. rewrite <- !(assoc_L (++)). cbn.
  destruct (IH x (x :: c)) as [z Hz]. exists z. by rewrite Hz.
Qed.

Lemma insert_at_spec pos n x a b y c :
  pos = length a → n = length (a ++ b) → insert_at pos n x (a ++ b ++ y :: c) = Some (a ++ x :: b ++ c).
Proof.
  intros -> ->. unfold insert_at. rewrite length_app. replace (length a + length b - length a)%nat with (length b) by lia.
  destruct (shift_up_spec (length a) (length b) a b y c) as [z ->]; [done..|]. cbn. by apply aset_mid.
Qed.

Lemma shift_down_spec from n a x b c :
  from = length a → n = length b → ∃ z, shift_down from n (a ++ x :: b ++ c) = Some (a ++ b ++ z :: c).
Proof.
  intros -> ->. revert a x. induction b as [|y b IH]; intros a x; [by exists x|].
  cbn [length shift_down]. rewrite lookup_app_r by lia. replace (S (length a) - length a)%nat with 1%nat by lia. cbn [lookup list_lookup].
  cbn. rewrite aset_mid by done. cbn. change (a ++ y :: y :: b ++ c) with (a ++ [y] ++ y :: b ++ c).
  rewrite (assoc_L (++)). destruct (IH (a ++ [y]) y) as [z Hz]. rewrite length_app, Nat.add_comm in Hz. cbn in Hz.
  exists z. rewrite Hz. by rewrite <- (assoc_L (++)).
Qed.

Lemma copy_spec n s d p mid q a b c :
  s = length p → d = length a → n = length mid → length b = n → copy n s d (p ++ mid ++ q) (a ++ b ++ c) = Some (a ++ mid ++ c).
Proof.
  intros -> -> ->. revert p a b. induction mid as [|x mid IH]; intros p a b Hb; [by destruct b|].
  destruct b as [|y b]; [done|]. cbn [length copy]. cbn [app]. rewrite list_lookup_middle by done. cbn.
  rewrite aset_mid by done. cbn. injection Hb as Hb.
  specialize (IH (p ++ [x]) (a ++ [x]) b Hb). rewrite !length_app, !(Nat.add_comm _ 1) in IH. cbn [length Nat.add] in IH.
  rewrite <- !(assoc_L (++)) in IH. cbn in IH. exact IH.
Qed.

Lemma split_at l n : (n ≤ length l)%nat → ∃ a b, l = a ++ b ∧ length a = n.
Proof. intros. exists (take n l), (drop n l). rewrite take_drop, length_take. split; [done|lia]. Qed.

Lemma nonempty_split l : (0 < length l)%nat → ∃ x l', l = x :: l'.
Proof. destruct l as [|x l']; cbn; [lia|eauto]. Qed.
End array_lemmas.
