(* ===== verification/SortedMap.v ===== *)
(** Finite maps as lists sorted by key: what the ordered map promises, and the
    in-order contents of a node between its subtrees. *)
From stdpp Require Import sorting.
From S2P Require Import Prelude BTree.

Section sorted.
Context {K V : Type} `{KeyOrd K}.
Implicit Types (k : K) (v : V) (l L X Y : list (K * V)).

(** ** The operations *)

Fixpoint look k L : option V :=
  match L with
  | [] => None
  | (k', v) :: L => match cmp k k' with Lt => None | Eq => Some v | Gt => look k L end
  end.

Fixpoint ins k v L : list (K * V) :=
  match L with
  | [] => [(k, v)]
  | (k', v') :: L' =>
      match cmp k k' with Lt => (k, v) :: L | Eq => (k, v) :: L' | Gt => (k', v') :: ins k v L' end
  end.

Fixpoint del k L : list (K * V) :=
  match L with
  | [] => []
  | (k', v') :: L' => match cmp k k' with Lt => L | Eq => L' | Gt => (k', v') :: del k L' end
  end.

Definition in_range (low high : Bound K) (kv : K * V) : bool :=
  at_or_above_low kv.1 low && negb (above_high kv.1 high).

Definition klt (a b : K * V) : Prop := cmp a.1 b.1 = Lt.
Definition sorted : list (K * V) → Prop := StronglySorted klt.
Definition under k X : Prop := ∀ x, x ∈ X → cmp x.1 k = Lt.
Definition over k X : Prop := ∀ x, x ∈ X → cmp k x.1 = Lt.

(** ** The order *)

Lemma cmp_refl k : cmp k k = Eq.
Proof. by apply cmp_eq. Qed.

Lemma cmp_gt k k' : cmp k k' = Gt ↔ cmp k' k = Lt.
Proof. rewrite (cmp_opp k' k). destruct (cmp k' k); done. Qed.

#[export] Instance klt_trans : Transitive klt.
Proof. intros x y z. unfold klt. apply cmp_trans. Qed.

Lemma under_app k X Y : under k (X ++ Y) ↔ under k X ∧ under k Y.
Proof. unfold under. set_solver. Qed.

Lemma over_app k X Y : over k (X ++ Y) ↔ over k X ∧ over k Y.
Proof. unfold over. set_solver. Qed.

Lemma over_cons k x X : over k (x :: X) ↔ cmp k x.1 = Lt ∧ over k X.
Proof. unfold over. set_solver. Qed.

Lemma under_snoc_trans k X x : cmp x.1 k = Lt → sorted (X ++ [x]) → under k (X ++ [x]).
Proof.
  intros Hx Hs y [Hy|Hy]%elem_of_app; [|by apply list_elem_of_singleton in Hy as ->].
  eapply cmp_trans; [|done]. apply (StronglySorted_app_1_elem_of _ _ _ _ _ Hs Hy). by apply list_elem_of_singleton.
Qed.

Lemma over_cons_trans k X x : cmp k x.1 = Lt → sorted (x :: X) → over k (x :: X).
Proof.
  intros Hx [Hs Hf]%StronglySorted_inv y [->|Hy]%elem_of_cons; [done|].
  eapply cmp_trans; [done|]. rewrite Forall_forall in Hf. by apply Hf.
Qed.

(** ** The operations in the middle of a list *)

Lemma look_mid k X L Y : under k X → over k Y → look k (X ++ L ++ Y) = look k L.
Proof.
  intros HX HY. induction X as [|[k' v'] X IH]; cbn.
  - clear HX. induction L as [|[k' v'] L IH]; cbn; [|by rewrite IH].
    destruct Y as [|[k' v'] Y]; [done|]. cbn. apply over_cons in HY as [HY _]. cbn in HY. by rewrite HY.
  - rewrite (proj2 (cmp_gt k k') (HX (k', v') (list_elem_of_here _ _))). apply IH. unfold under in *. set_solver.
Qed.

Lemma ins_mid k v X L Y : under k X → over k Y → ins k v (X ++ L ++ Y) = X ++ ins k v L ++ Y.
Proof.
  intros HX HY. induction X as [|[k' v'] X IH]; cbn.
  - clear HX. induction L as [|[k' v'] L IH]; cbn.
    + destruct Y as [|[k' v'] Y]; [done|]. cbn. apply over_cons in HY as [HY _]. cbn in HY. by rewrite HY.
    + rewrite IH. by destruct (cmp k k').
  - rewrite (proj2 (cmp_gt k k') (HX (k', v') (list_elem_of_here _ _))). rewrite IH; [done|]. unfold under in *. set_solver.
Qed.

Lemma del_mid k X L Y : under k X → over k Y → del k (X ++ L ++ Y) = X ++ del k L ++ Y.
Proof.
  intros HX HY. induction X as [|[k' v'] X IH]; cbn.
  - clear HX. induction L as [|[k' v'] L IH]; cbn.
    + destruct Y as [|[k' v'] Y]; [done|]. cbn. apply over_cons in HY as [HY _]. cbn in HY. by rewrite HY.
    + rewrite IH. by destruct (cmp k k').
  - rewrite (proj2 (cmp_gt k k') (HX (k', v') (list_elem_of_here _ _))). rewrite IH; [done|]. unfold under in *. set_solver.
Qed.

Lemma ops_single k v v' : look k [(k, v)] = Some v ∧ ins k v' [(k, v)] = [(k, v')] ∧ del k [(k, v)] = [].
Proof. cbn. by rewrite cmp_refl. Qed.

(** ** Sortedness *)

Lemma elem_ins k v L x : x ∈ ins k v L → x = (k, v) ∨ x ∈ L.
Proof. induction L as [|[k' v'] L IH]; cbn; [set_solver|]. destruct (cmp k k'); set_solver. Qed.

Lemma elem_del k L x : x ∈ del k L → x ∈ L.
Proof. induction L as [|[k' v'] L IH]; cbn; [set_solver|]. destruct (cmp k k'); set_solver. Qed.

Lemma sorted_ins k v L : sorted L → sorted (ins k v L).
Proof.
  unfold sorted. induction 1 as [|[k' v'] L Hs IH Hf]; cbn; [repeat constructor|].
  destruct (cmp k k') eqn:E.
  - apply cmp_eq in E as ->. by constructor.
  - constructor; [by constructor|]. apply Forall_cons. split; [done|]. eapply Forall_impl; [done|].
    intros x Hx. unfold klt in *. cbn in *. by eapply cmp_trans.
  - constructor; [done|]. apply Forall_forall. intros x [->|Hx]%elem_ins; [by apply cmp_gt|].
    rewrite Forall_forall in Hf. by apply Hf.
Qed.

Lemma sorted_del k L : sorted L → sorted (del k L).
Proof.
  unfold sorted. induction 1 as [|[k' v'] L Hs IH Hf]; cbn; [constructor|].
  destruct (cmp k k'); [done|by constructor|]. constructor; [done|].
  apply Forall_forall. intros x Hx%elem_del. rewrite Forall_forall in Hf. by apply Hf.
Qed.

Lemma length_ins k v L :
  sorted L → length (ins k v L) = (length L + match look k L with Some _ => 0 | None => 1 end)%nat.
Proof.
  induction 1 as [|[k' v'] L Hs IH Hf]; cbn; [done|]. destruct (cmp k k') eqn:E; cbn; rewrite ?IH; lia.
Qed.

Lemma length_del k L :
  (length (del k L) + match look k L with Some _ => 1 | None => 0 end = length L)%nat.
Proof. induction L as [|[k' v'] L IH]; cbn; [done|]. destruct (cmp k k') eqn:E; cbn; rewrite ?IH; lia. Qed.

(** The operations are those of a finite map. *)
Lemma look_ins k v k' L : sorted L → look k' (ins k v L) = match cmp k' k with Eq => Some v | _ => look k' L end.
Proof.
  induction 1 as [|[k0 v0] L Hs IH Hf]; cbn; [by destruct (cmp k' k)|].
  destruct (cmp k k0) eqn:E.
  - apply cmp_eq in E as ->. cbn. by destruct (cmp k' k0).
  - cbn. destruct (cmp k' k) eqn:E'; [done| |done]. by rewrite (cmp_trans _ _ _ E' E).
  - cbn. rewrite IH. destruct (cmp k' k0) eqn:E0, (cmp k' k) eqn:E'; try done.
    + apply cmp_eq in E0 as ->. apply cmp_eq in E' as ->. by rewrite cmp_refl in E.
    + apply cmp_eq in E' as ->. congruence.
Qed.

Lemma look_del k k' L : sorted L → look k' (del k L) = match cmp k' k with Eq => None | _ => look k' L end.
Proof.
  induction 1 as [|[k0 v0] L Hs IH Hf]; cbn; [by destruct (cmp k' k)|].
  assert (∀ k1, cmp k1 k0 = Lt ∨ cmp k1 k0 = Eq → look k1 L = None) as Hno.
  { intros k1 Hk. destruct Hs as [|[k2 v2] L Hs Hf2]; [done|]. cbn. apply Forall_cons in Hf as [Hlt _]. unfold klt in Hlt. cbn in Hlt.
    destruct Hk as [Hk|Hk]; [by rewrite (cmp_trans _ _ _ Hk Hlt)|apply cmp_eq in Hk as ->; by rewrite Hlt]. }
  destruct (cmp k k0) eqn:E.
  - apply cmp_eq in E as ->. destruct (cmp k' k0) eqn:E'; [|rewrite Hno by auto; done|done]. apply Hno. auto.
  - cbn. destruct (cmp k' k) eqn:E'; try done. apply cmp_eq in E' as ->. by rewrite E.
  - cbn. rewrite IH. destruct (cmp k' k0) eqn:E0, (cmp k' k) eqn:E'; try done.
    + apply cmp_eq in E0 as ->. apply cmp_eq in E' as ->. by rewrite cmp_refl in E.
Qed.
(** ** The contents of a node

    The pairs [A ++ B] of a node separate the contents of its subtrees; those
    of the subtree between [A] and [B] stand between [pre] and [post]. *)

Definition pre (ls : list (list (K * V))) (A : list (K * V)) : list (K * V) :=
  concat (zip_with (λ l kv, l ++ [kv]) ls A).
Definition post (B : list (K * V)) (ls : list (list (K * V))) : list (K * V) :=
  concat (zip_with cons B ls).
Definition flat (kvs : list (K * V)) (ls : list (list (K * V))) : list (K * V) :=
  match ls with [] => [] | l :: ls => l ++ post kvs ls end.

Lemma pre_snoc LA l A kv : length LA = length A → pre (LA ++ [l]) (A ++ [kv]) = pre LA A ++ l ++ [kv].
Proof. intros E. unfold pre. rewrite zip_with_app by done. rewrite concat_app. cbn. by rewrite app_nil_r. Qed.

Lemma post_cons kv B l LB : post (kv :: B) (l :: LB) = kv :: l ++ post B LB.
Proof. done. Qed.

Lemma post_app A B LA LB : length A = length LA → post (A ++ B) (LA ++ LB) = post A LA ++ post B LB.
Proof. intros E. unfold post. rewrite zip_with_app by done. apply concat_app. Qed.

Lemma flat_split A B LA l LB :
  length LA = length A → flat (A ++ B) (LA ++ l :: LB) = pre LA A ++ l ++ post B LB.
Proof.
  revert LA. induction A as [|a A IH]; intros [|l0 LA] E; try done. cbn in E. injection E as E.
  specialize (IH LA E). destruct LA as [|l1 LA]; cbn in *.
  - destruct A; [|done]. cbn in *. by rewrite <- !(assoc_L (++)).
  - rewrite <- !(assoc_L (++)). cbn. do 2 f_equal. destruct A as [|a1 A]; [done|]. cbn in *. done.
Qed.

(** The two ends of a flattened node. *)
Lemma flat_cons l kv B l1 LB : flat (kv :: B) (l :: l1 :: LB) = l ++ kv :: flat B (l1 :: LB).
Proof. done. Qed.

Lemma flat_snoc A LA l a : length LA = S (length A) → flat (A ++ [a]) (LA ++ [l]) = flat A LA ++ a :: l.
Proof.
  intros E. destruct LA as [|l0 LA _] using rev_ind; [done|]. rewrite length_app in E. cbn in E.
  rewrite <- (assoc_L (++)). cbn [app]. rewrite flat_split by lia.
  pose proof (flat_split A [] LA l0 [] ltac:(lia)) as Hf. rewrite app_nil_r in Hf. rewrite Hf.
  cbn. by rewrite !app_nil_r, <- (assoc_L (++)).
Qed.

(** A flattened node cut at one of its pairs. *)
Lemma flat_app A kv B LA LB :
  length LA = S (length A) → length LB = S (length B) → flat (A ++ kv :: B) (LA ++ LB) = flat A LA ++ kv :: flat B LB.
Proof.
  intros E1 E2. destruct LA as [|l LA _] using rev_ind; [done|]. destruct LB as [|l' LB]; [done|].
  rewrite length_app in E1. cbn in E1. rewrite <- (assoc_L (++)). cbn [app]. rewrite flat_split by lia.
  pose proof (flat_split A [] LA l [] ltac:(lia)) as Hf. rewrite app_nil_r in Hf. rewrite Hf. cbn.
  by rewrite app_nil_r, <- !(assoc_L (++)).
Qed.

Lemma under_pre k LA A R : length LA = length A → sorted (pre LA A ++ R) → under k A → under k (pre LA A).
Proof.
  intros E Hs HA. destruct A as [|a A _] using rev_ind; [by destruct LA|].
  destruct LA as [|l LA _] using rev_ind; [by rewrite length_app in E; cbn in E; lia|].
  rewrite !length_app in E. cbn in E. rewrite pre_snoc in * by lia. rewrite (assoc_L (++)) in *.
  apply under_snoc_trans; [|by apply StronglySorted_app_1_l in Hs].
  apply HA. set_solver.
Qed.

Lemma over_post k B LB R : length LB = length B → sorted (R ++ post B LB) → over k B → over k (post B LB).
Proof.
  intros E Hs HB. destruct B as [|b B]; [done|]. destruct LB as [|l LB]; [done|]. rewrite post_cons in *.
  apply over_cons_trans; [|by apply StronglySorted_app_1_r in Hs]. apply HB. set_solver.
Qed.
Lemma sorted_mid X x Y : sorted (X ++ x :: Y) → under x.1 X ∧ over x.1 Y.
Proof.
  intros Hs. split; intros y Hy.
  - apply (StronglySorted_app_1_elem_of _ _ _ y x Hs Hy). set_solver.
  - apply StronglySorted_app_1_r in Hs. apply StronglySorted_inv in Hs as [_ Hf]. rewrite Forall_forall in Hf. by apply Hf.
Qed.

Lemma elem_flat kvs ls x : length ls = S (length kvs) → x ∈ kvs → x ∈ flat kvs ls.
Proof.
  revert ls. induction kvs as [|kv kvs IH]; intros [|l [|l' ls] ] E Hx; try done; [by apply elem_of_nil in Hx|].
  rewrite flat_cons. apply elem_of_app. right. apply elem_of_cons in Hx as [->|Hx]; [by left|]. right. apply IH; [|done].
  cbn in *. lia.
Qed.

Lemma sorted_flat kvs ls : length ls = S (length kvs) → sorted (flat kvs ls) → sorted kvs.
Proof.
  revert ls. induction kvs as [|kv kvs IH]; intros [|l [|l' ls] ] E Hs; try done; [constructor..|].
  rewrite flat_cons in Hs. apply StronglySorted_app_1_r in Hs. apply StronglySorted_inv in Hs as [Hs Hf].
  constructor; [by apply (IH (l' :: ls)); [cbn in *; lia|] |]. apply Forall_forall. intros x Hx. rewrite Forall_forall in Hf.
  apply Hf, elem_flat; [cbn in *; lia|done].
Qed.

(** The operations at a key that is there, and where it is not. *)
Lemma ops_found k v v' X Y :
  sorted (X ++ (k, v) :: Y) →
  look k (X ++ (k, v) :: Y) = Some v ∧ ins k v' (X ++ (k, v) :: Y) = X ++ (k, v') :: Y ∧ del k (X ++ (k, v) :: Y) = X ++ Y.
Proof.
  intros Hs. destruct (sorted_mid _ _ _ Hs) as [HX HY]. change (X ++ (k, v) :: Y) with (X ++ [(k, v)] ++ Y).
  rewrite look_mid, ins_mid, del_mid by done. destruct (ops_single k v v') as (-> & -> & ->). done.
Qed.

Lemma ops_absent k X Y :
  under k X → over k Y → look k (X ++ Y) = None ∧ (∀ v, ins k v (X ++ Y) = X ++ (k, v) :: Y) ∧ del k (X ++ Y) = X ++ Y.
Proof.
  intros HX HY. change (X ++ Y) with (X ++ [] ++ Y). rewrite look_mid, del_mid by done. split; [done|]. split; [|done].
  intros v. by rewrite ins_mid.
Qed.
End sorted.
