(* ===== verification/BTreeNodes.v ===== *)
(** The operations of the ordered map on one node: what they do to the pairs and
    the links it holds. *)
From stdpp Require Import gmap sorting.
From S2P Require Import Prelude BTree SortedMap.

Ltac blia := cbn [length]; unfold B, T in *; lia.

(** Lengths of lists put together. *)
Ltac lens := repeat (progress (rewrite ?length_app, ?length_fmap in *; cbn [length app fmap list_fmap] in *)); blia.

Section nodes.
Context {K V : Type} `{KeyOrd K}.
Implicit Types (n : BTreeNode K V) (kvs A Bs : list (K * V)) (cs : list Z).

(** The node holds the pairs [kvs], the links [cs]. *)
Record pairs_ok n kvs : Prop := {
  po_count : count n = length kvs;
  po_keys : ∃ j, keys n = kvs.*1 ++ j; po_klen : length (keys n) = B;
  po_values : ∃ j, values n = kvs.*2 ++ j; po_vlen : length (values n) = B }.

Record kids_ok n cs : Prop := {
  ko_children : ∃ j, children n = cs ++ j; ko_len : length (children n) = (B + 1)%nat }.

(** What an operation on the pairs leaves alone. *)
Definition same_links n n' : Prop := children n' = children n ∧ is_leaf n' = is_leaf n.

Lemma pairs_bound n kvs : pairs_ok n kvs → (length kvs ≤ B)%nat.
Proof. intros [_ [j E] El _ _]. rewrite E, length_app, length_fmap in El. lia. Qed.

Lemma kids_bound n cs : kids_ok n cs → (length cs ≤ B + 1)%nat.
Proof. intros [ [j E] El]. rewrite E, length_app in El. lia. Qed.

Lemma pairs_count n kvs c : pairs_ok n kvs → count n = c → c = length kvs.
Proof. by intros [-> _ _ _ _] <-. Qed.

(** ** Reading *)

Lemma key_at n A x Bs : pairs_ok n (A ++ x :: Bs) → keys n !! length A = Some x.1.
Proof.
  intros [_ [j ->] _ _ _]. rewrite fmap_app. cbn. rewrite <- (assoc_L (++)). apply list_lookup_middle. by rewrite length_fmap.
Qed.

Lemma value_at n A x Bs : pairs_ok n (A ++ x :: Bs) → values n !! length A = Some x.2.
Proof.
  intros [_ _ _ [j ->] _]. rewrite fmap_app. cbn. rewrite <- (assoc_L (++)). apply list_lookup_middle. by rewrite length_fmap.
Qed.

Lemma pair_at_spec n A x Bs : pairs_ok n (A ++ x :: Bs) → pair_at n (length A) = Some x.
Proof. intros Hn. unfold pair_at. rewrite (key_at _ _ _ _ Hn). cbn. rewrite (value_at _ _ _ _ Hn). by destruct x. Qed.

Lemma kid_at n CA c CB : kids_ok n (CA ++ c :: CB) → children n !! length CA = Some c.
Proof. intros [ [j ->] _]. rewrite <- (assoc_L (++)). by apply list_lookup_middle. Qed.

(** ** The binary search *)

Lemma bsearch_spec fuel (ks : list K) key lo hi :
  (hi - lo ≤ fuel)%nat → (lo ≤ hi ≤ length ks)%nat →
  (∀ i j a b, (i < j)%nat → ks !! i = Some a → ks !! j = Some b → cmp a b = Lt) →
  (∀ i a, (i < lo)%nat → ks !! i = Some a → cmp a key = Lt) →
  (∀ i a, (hi ≤ i)%nat → ks !! i = Some a → cmp key a = Lt) →
  ∃ p, (p ≤ length ks)%nat ∧ (∀ i a, (i < p)%nat → ks !! i = Some a → cmp a key = Lt) ∧
    (bsearch fuel ks key lo hi = Some (p, true) ∧ ks !! p = Some key ∨
     bsearch fuel ks key lo hi = Some (p, false) ∧ ∀ i a, (p ≤ i)%nat → ks !! i = Some a → cmp key a = Lt).
Proof.
  revert lo hi. induction fuel as [|fuel IH]; intros lo hi Hf Hlh Hs Hlo Hhi; cbn [bsearch].
  - rewrite (proj2 (Nat.ltb_ge _ _)) by lia. exists lo. split; [lia|]. split; [done|]. right. split; [done|].
    intros i a Hi. apply Hhi. lia.
  - destruct (Nat.ltb_spec lo hi) as [Hlt|Hge].
    2:{ exists lo. split; [lia|]. split; [done|]. right. split; [done|]. intros i a Hi. apply Hhi. lia. }
    assert (lo ≤ (lo + hi) / 2 < hi)%nat as Hmid.
    { split; [apply Nat.div_le_lower_bound; lia|apply Nat.Div0.div_lt_upper_bound; lia]. }
    set (mid := ((lo + hi) / 2)%nat) in *. clearbody mid.
    destruct (lookup_lt_is_Some_2 ks mid ltac:(lia)) as [mk Hmk]. rewrite Hmk. cbn.
    destruct (cmp mk key) eqn:E.
    + apply cmp_eq in E as ->. exists mid. split; [lia|]. split; [|by left]. intros i a Hi Ha. by eapply Hs.
    + apply IH; [lia|lia|done| |done]. intros i a Hi Ha. destruct (decide (i = mid)) as [->|]; [congruence|].
      eapply cmp_trans; [|done]. apply (Hs i mid); [lia|done..].
    + apply cmp_gt in E. apply IH; [lia|lia|done|done|]. intros i a Hi Ha. destruct (decide (i = mid)) as [->|]; [congruence|].
      eapply cmp_trans; [done|]. apply (Hs mid i); [lia|done..].
Qed.

(** The bounds of the search stay among the [count] keys, so it does not see
    what lies beyond. *)
Lemma bsearch_prefix fuel (ks j : list K) key lo hi :
  (hi ≤ length ks)%nat → bsearch fuel (ks ++ j) key lo hi = bsearch fuel ks key lo hi.
Proof.
  revert lo hi. induction fuel as [|fuel IH]; intros lo hi Hh; cbn [bsearch]; [done|].
  destruct (Nat.ltb_spec lo hi); [|done].
  assert ((lo + hi) / 2 < hi)%nat by (apply Nat.Div0.div_lt_upper_bound; lia).
  set (mid := ((lo + hi) / 2)%nat) in *. clearbody mid.
  rewrite lookup_app_l by lia. destruct (ks !! _); [cbn|done]. destruct (cmp _ _); [done|by apply IH|apply IH; lia].
Qed.

Lemma search_node_spec n kvs key :
  pairs_ok n kvs → sorted kvs →
  ∃ A Bs, kvs = A ++ Bs ∧ under key A ∧
    (search_node n key = Some (length A, false) ∧ over key Bs ∨
     ∃ v B', Bs = (key, v) :: B' ∧ over key B' ∧ search_node n key = Some (length A, true)).
Proof.
  intros Hn Hs. pose proof (pairs_bound _ _ Hn) as Hb. destruct Hn as [Hc [j Hk] _ _ _].
  unfold search_node. rewrite Hc, Nat.min_l, Hk by done. rewrite bsearch_prefix by (by rewrite length_fmap).
  assert (∀ i j a b, (i < j)%nat → kvs !! i = Some a → kvs !! j = Some b → cmp a.1 b.1 = Lt) as Hord.
  { intros i i' a b Hi Ha Hb'. rewrite <- (take_drop_middle _ _ _ Hb') in Hs.
    eapply (StronglySorted_app_1_elem_of _ _ _ a b Hs); [|left]. apply list_elem_of_lookup. exists i.
    by rewrite lookup_take_lt. }
  destruct (bsearch_spec (length kvs) (kvs.*1) key 0 (length kvs)) as (p & Hp & Hlo & Hr).
  { lia. } { rewrite length_fmap. lia. }
  { intros i i' a b Hi. rewrite !list_lookup_fmap_Some. intros (x & -> & Hx) (y & -> & Hy). by eapply Hord. }
  { lia. } { intros i a Hi. rewrite list_lookup_fmap_Some. intros (x & -> & Hx%lookup_lt_Some). lia. }
  rewrite length_fmap in Hp. exists (take p kvs), (drop p kvs). rewrite take_drop, length_take, Nat.min_l by lia.
  split; [done|]. split.
  { intros x [i Hx]%list_elem_of_lookup. apply lookup_take_Some in Hx as [Hx Hi]. apply (Hlo i); [done|].
    rewrite list_lookup_fmap, Hx. done. }
  destruct Hr as [ [Hr Hkey]|[Hr Hhi] ].
  - right. apply list_lookup_fmap_Some in Hkey as ([k' v] & Ekey & Hx). cbn in Ekey. subst k'.
    exists v, (drop (S p) kvs). rewrite (drop_S _ _ _ Hx). split; [done|]. split; [|done].
    intros x [i Hx']%list_elem_of_lookup. rewrite lookup_drop in Hx'. apply (Hord p (S p + i)%nat (key, v)); [lia|done..].
  - left. split; [done|]. intros x [i Hx]%list_elem_of_lookup. rewrite lookup_drop in Hx. apply (Hhi (p + i)%nat); [lia|].
    rewrite list_lookup_fmap, Hx. done.
Qed.
(** ** Writing *)

(** The element after the pairs of a node that is not full. *)
Lemma spare_split {X} (l j : list X) (b : nat) : length (l ++ j) = b → (length l < b)%nat → ∃ y j', j = y :: j'.
Proof. destruct j as [|y j']; [rewrite app_nil_r; lia|eauto]. Qed.

Lemma insert_pair_spec n A Bs k v :
  pairs_ok n (A ++ Bs) → (length (A ++ Bs) < B)%nat →
  ∃ n', insert_pair (length A) k v n = Some n' ∧ pairs_ok n' (A ++ (k, v) :: Bs) ∧ same_links n n'.
Proof.
  intros [Hc [jk Hk] Hkl [jv Hv] Hvl] Hlt. rewrite Hk in Hkl. rewrite Hv in Hvl.
  destruct (spare_split _ _ _ Hkl) as (yk & jk' & ->); [by rewrite length_fmap|].
  destruct (spare_split _ _ _ Hvl) as (yv & jv' & ->); [by rewrite length_fmap|].
  unfold insert_pair. rewrite Hk, Hv, !fmap_app, <- !(assoc_L (++)).
  rewrite (insert_at_spec (length A) (count n) k (A.*1) (Bs.*1)) by (rewrite ?length_app, !length_fmap, ?Hc, ?length_app; done).
  cbn [mbind option_bind].
  rewrite (insert_at_spec (length A) (count n) v (A.*2) (Bs.*2)) by (rewrite ?length_app, !length_fmap, ?Hc, ?length_app; done).
  cbn. eexists. split; [done|]. split; [|by split].
  split; cbn; try lens.
  - exists jk'. rewrite fmap_app. cbn. by rewrite <- !(assoc_L (++)).
  - exists jv'. rewrite fmap_app. cbn. by rewrite <- !(assoc_L (++)).
Qed.

Lemma set_pair_spec n A x Bs k v :
  pairs_ok n (A ++ x :: Bs) → ∃ n', set_pair (length A) k v n = Some n' ∧ pairs_ok n' (A ++ (k, v) :: Bs) ∧ same_links n n'.
Proof.
  intros [Hc [jk Hk] Hkl [jv Hv] Hvl]. unfold set_pair. rewrite Hk, Hv, !fmap_app in *. cbn in *. rewrite <- !(assoc_L (++)) in *.
  cbn in *. rewrite !aset_mid by (by rewrite length_fmap). cbn. eexists. split; [done|]. split; [|by split].
  split; cbn; try lens.
  - exists jk. rewrite fmap_app. cbn. by rewrite <- (assoc_L (++)).
  - exists jv. rewrite fmap_app. cbn. by rewrite <- (assoc_L (++)).
Qed.

(** A pair stored after the last, before the count is raised. *)
Lemma set_pair_end n kvs k v :
  pairs_ok n kvs → (length kvs < B)%nat →
  ∃ n', set_pair (length kvs) k v n = Some n' ∧ pairs_ok (with_count (length kvs + 1) n') (kvs ++ [(k, v)]) ∧
    same_links n n' ∧ count n' = count n.
Proof.
  intros [Hc [jk Hk] Hkl [jv Hv] Hvl] Hlt. rewrite Hk in Hkl. rewrite Hv in Hvl.
  destruct (spare_split _ _ _ Hkl) as (yk & jk' & ->); [by rewrite length_fmap|].
  destruct (spare_split _ _ _ Hvl) as (yv & jv' & ->); [by rewrite length_fmap|].
  unfold set_pair. rewrite Hk, Hv, !aset_mid by (by rewrite length_fmap). cbn. eexists. split; [done|].
  split; [|by split].
  split; cbn; try lens.
  - exists jk'. rewrite fmap_app. cbn. by rewrite <- !(assoc_L (++)).
  - exists jv'. rewrite fmap_app. cbn. by rewrite <- !(assoc_L (++)).
Qed.

Lemma remove_pair_spec n A x Bs :
  pairs_ok n (A ++ x :: Bs) → ∃ n', remove_pair (length A) n = Some n' ∧ pairs_ok n' (A ++ Bs) ∧ same_links n n'.
Proof.
  intros [Hc [jk Hk] Hkl [jv Hv] Hvl]. unfold remove_pair. rewrite length_app in Hc. cbn in Hc.
  rewrite Hc, Nat.add_succ_r. cbn [below mbind option_bind]. replace (length A + length Bs - length A)%nat with (length Bs) by lia.
  rewrite Hk, Hv, !fmap_app in *. cbn in *. rewrite <- !(assoc_L (++)) in *. cbn in *.
  destruct (shift_down_spec (length A) (length Bs) (A.*1) x.1 (Bs.*1) jk) as [zk ->]; [by rewrite length_fmap..|]. cbn.
  destruct (shift_down_spec (length A) (length Bs) (A.*2) x.2 (Bs.*2) jv) as [zv ->]; [by rewrite length_fmap..|]. cbn.
  eexists. split; [done|]. split; [|by split].
  split; cbn; try lens.
  - exists (zk :: jk). rewrite fmap_app. by rewrite <- (assoc_L (++)).
  - exists (zv :: jv). rewrite fmap_app. by rewrite <- (assoc_L (++)).
Qed.

Lemma with_count_pairs n kvs rest : pairs_ok n (kvs ++ rest) → pairs_ok (with_count (length kvs) n) kvs.
Proof.
  intros [Hc [jk Hk] Hkl [jv Hv] Hvl]. split; cbn; try done.
  - exists (rest.*1 ++ jk). by rewrite Hk, fmap_app, <- (assoc_L (++)).
  - exists (rest.*2 ++ jv). by rewrite Hv, fmap_app, <- (assoc_L (++)).
Qed.

(** ** The links *)

Lemma insert_kid n CA CB c c0 :
  kids_ok n (CA ++ CB) → (length (CA ++ CB) < B + 1)%nat → c0 = length (CA ++ CB) →
  ∃ cs, insert_at (length CA) c0 c (children n) = Some cs ∧ kids_ok (with_children cs n) (CA ++ c :: CB).
Proof.
  intros [ [j Hj] Hl] Hlt ->. rewrite Hj in Hl. destruct (spare_split _ _ _ Hl Hlt) as (y & j' & ->).
  rewrite Hj, <- (assoc_L (++)). rewrite insert_at_spec by done. eexists. split; [done|].
  split; cbn; [exists j'; by rewrite <- (assoc_L (++))|lens].
Qed.

(** The link after the last, stored before the count is raised. *)
Lemma set_kid_end n cs c :
  kids_ok n cs → (length cs < B + 1)%nat →
  ∃ cs', aset (length cs) c (children n) = Some cs' ∧ kids_ok (with_children cs' n) (cs ++ [c]).
Proof.
  intros [ [j Hj] Hl] Hlt. rewrite Hj in Hl. destruct (spare_split _ _ _ Hl Hlt) as (y & j' & ->).
  rewrite Hj, aset_mid by done. eexists. split; [done|].
  split; cbn; [exists j'; by rewrite <- (assoc_L (++))|lens].
Qed.

Lemma remove_kid n CA c CB c0 :
  kids_ok n (CA ++ c :: CB) → c0 = length CB →
  ∃ cs, shift_down (length CA) c0 (children n) = Some cs ∧ kids_ok (with_children cs n) (CA ++ CB).
Proof.
  intros [ [j Hj] Hl] ->. rewrite Hj in *. rewrite <- (assoc_L (++)) in *. cbn in *.
  destruct (shift_down_spec (length CA) (length CB) CA c CB j) as [z ->]; [done..|]. eexists. split; [done|].
  split; cbn; [exists (z :: j); by rewrite <- (assoc_L (++))|lens].
Qed.

Lemma kids_prefix n CA CB : kids_ok n (CA ++ CB) → kids_ok n CA.
Proof. intros [ [j Hj] Hl]. split; [|done]. exists (CB ++ j). by rewrite Hj, <- (assoc_L (++)). Qed.

(** The links count, and what changes only pairs keeps them. *)
Lemma kids_ext n n' cs : kids_ok n cs → children n' = children n → kids_ok n' cs.
Proof. intros [? ?] E. split; by rewrite E. Qed.

Lemma pairs_ext n n' kvs :
  pairs_ok n kvs → count n' = count n → keys n' = keys n → values n' = values n → pairs_ok n' kvs.
Proof. intros [? ? ? ? ?] E1 E2 E3. split; by rewrite ?E1, ?E2, ?E3. Qed.
(** ** Copying *)

Lemma copy_array {X} (src dst P M' Q A : list X) b :
  (∃ j, src = (P ++ M' ++ Q) ++ j) → (∃ j, dst = A ++ j) → length dst = b → (length A + length M' ≤ b)%nat →
  ∃ l, copy (length M') (length P) (length A) src dst = Some l ∧ (∃ j, l = (A ++ M') ++ j) ∧ length l = b.
Proof.
  intros [j ->] [j' ->] Hl Hle. rewrite length_app in Hl.
  destruct (split_at j' (length M') ltac:(lia)) as (j1 & j2 & -> & Hj1). rewrite length_app in Hl.
  rewrite <- !(assoc_L (++)), copy_spec by done. eexists. split; [done|]. split; [by exists j2; rewrite <- (assoc_L (++))|lens].
Qed.

Lemma copy_pairs f r KP KB KQ RA :
  pairs_ok f (KP ++ KB ++ KQ) → pairs_ok r RA → (length RA + length KB ≤ B)%nat →
  ∃ ks vs, copy (length KB) (length KP) (length RA) (keys f) (keys r) = Some ks ∧
    copy (length KB) (length KP) (length RA) (values f) (values r) = Some vs ∧
    ∀ c lf cs, c = (length RA + length KB)%nat →
      pairs_ok {| count := c; is_leaf := lf; keys := ks; children := cs; values := vs |} (RA ++ KB).
Proof.
  intros [_ Fk _ Fv _] [_ Rk Rkl Rv Rvl] Hle. rewrite !fmap_app in Fk. rewrite !fmap_app in Fv.
  destruct (copy_array (keys f) (keys r) (KP.*1) (KB.*1) (KQ.*1) (RA.*1) B) as (ks & Hks & [jk Ejk] & Lk); [done|done|done|by rewrite !length_fmap|].
  destruct (copy_array (values f) (values r) (KP.*2) (KB.*2) (KQ.*2) (RA.*2) B) as (vs & Hvs & [jv Ejv] & Lv); [done|done|done|by rewrite !length_fmap|].
  rewrite !length_fmap in Hks. rewrite !length_fmap in Hvs. exists ks, vs. split; [done|]. split; [done|]. intros c lf cs ->.
  split; cbn; rewrite ?length_app, ?fmap_app; try done; [by exists jk|by exists jv].
Qed.

Lemma copy_kids f r CP CM CQ CR :
  kids_ok f (CP ++ CM ++ CQ) → kids_ok r CR → (length CR + length CM ≤ B + 1)%nat →
  ∃ cs, copy (length CM) (length CP) (length CR) (children f) (children r) = Some cs ∧
    ∀ n, children n = cs → kids_ok n (CR ++ CM).
Proof.
  intros [Fc _] [Rc Rl] Hle. destruct (copy_array (children f) (children r) CP CM CQ CR (B + 1)) as (cs & Hcs & E & L); [done..|].
  exists cs. split; [done|]. intros n En. split; by rewrite En.
Qed.
End nodes.
