(* ===== verification/BTreeRep.v ===== *)
(** The memory of the ordered map: which nodes make up a subtree, which are
    available, and what a change of a subtree does to the tree around it. *)
From stdpp Require Import gmap sorting.
From S2P Require Import Prelude BTree SortedMap BTreeNodes.

(** * Running the monad *)

Section run.
Context {K V : Type} `{KeyOrd K}.
Implicit Types (m : SharedBTreeMap K V) (n : BTreeNode K V).

Definition upd (x : Z) n m : SharedBTreeMap K V :=
  {| header := header m; region := <[x := n]> (region m); mcapacity := mcapacity m |}.
Definition hset (f : BTreeHeader → BTreeHeader) m : SharedBTreeMap K V :=
  {| header := f (header m); region := region m; mcapacity := mcapacity m |}.

Lemma bind_run {A A'} (c : M A) (f : A → M A') m a m' : c m = (Ok a, m') → (c ≫= f) m = f a m'.
Proof. intros E. unfold mbind, M_bind. by rewrite E. Qed.

Lemma bind_err {A A'} (c : M A) (f : A → M A') m e m' : c m = (Err e, m') → (c ≫= f) m = (Err e, m').
Proof. intros E. unfold mbind, M_bind. by rewrite E. Qed.

Lemma node_run x n m : region m !! x = Some n → node x m = (Ok n, m).
Proof. unfold node. by intros ->. Qed.

Lemma lift_run {A} (o : option A) a m : o = Some a → lift o m = (Ok a, m).
Proof. by intros ->. Qed.

Lemma write_run x n n0 m : region m !! x = Some n0 → write x n m = (Ok tt, upd x n m).
Proof. unfold write. by intros ->. Qed.
End run.

(** Read a node, take a partial result, write a node, change the header. *)
Ltac rd H := rewrite (bind_run _ _ _ _ _ (node_run _ _ _ H)); cbv beta.
Ltac lf H := rewrite (bind_run _ _ _ _ _ (lift_run _ _ _ H)); cbv beta.
Ltac wr H := rewrite (bind_run _ _ _ _ _ (write_run _ _ _ _ H)); cbv beta.
Ltac run H := rewrite (bind_run _ _ _ _ _ H); cbv beta.

(** * Subtrees *)

Section rep.
Context {K V : Type} `{KeyOrd K}.
Implicit Types (m : SharedBTreeMap K V) (n : BTreeNode K V) (A Bs : list (K * V)).

(** A subtree: the index of its node, the number of pairs in that node, its
    contents in order, and the nodes it is made of. *)
Record sub := { si : Z; sc : nat; sL : list (K * V); sF : list Z }.
Implicit Types (s p c : sub) (SA SB ss : list sub) (P : list Z).

Fixpoint rep m (h : nat) s : Prop :=
  match h with
  | O => ∃ n, region m !! si s = Some n ∧ is_leaf n = true ∧ pairs_ok n (sL s) ∧ kids_ok n [] ∧
           sc s = length (sL s) ∧ sF s = [si s]
  | S h => ∃ n kvs ss, region m !! si s = Some n ∧ is_leaf n = false ∧ pairs_ok n kvs ∧ kids_ok n (si <$> ss) ∧
             sc s = length kvs ∧ length ss = S (length kvs) ∧
             sL s = flat kvs (sL <$> ss) ∧ sF s = si s :: concat (sF <$> ss) ∧
             Forall (λ c, (T - 1 ≤ sc c)%nat ∧ rep m h c) ss
  end.

Definition good m h c : Prop := (T - 1 ≤ sc c)%nat ∧ rep m h c.

(** The subtree [s] of an inner node [p], after the pairs [A] and the subtrees
    [SA], before [Bs] and [SB]. *)
Definition focus m h p n A Bs SA s SB : Prop :=
  (region m !! si p = Some n ∧ is_leaf n = false) ∧
  (pairs_ok n (A ++ Bs) ∧ kids_ok n (si <$> SA ++ s :: SB)) ∧
  (length SA = length A ∧ length SB = length Bs ∧ sc p = length (A ++ Bs)) ∧
  sL p = pre (sL <$> SA) A ++ sL s ++ post Bs (sL <$> SB) ∧
  sF p = si p :: concat (sF <$> SA ++ s :: SB) ∧
  Forall (good m h) (SA ++ s :: SB).

Lemma rep_focus m h p n : rep m (S h) p → region m !! si p = Some n → 
  ∃ kvs, pairs_ok n kvs ∧ sc p = length kvs ∧ is_leaf n = false ∧
    ∀ A Bs, kvs = A ++ Bs → ∃ SA s SB, focus m h p n A Bs SA s SB.
Proof.
  intros (n' & kvs & ss & Hn & Hlf & Hp & Hk & Hsc & Hlen & HL & HF & Hss) Hn'. rewrite Hn in Hn'. injection Hn' as <-.
  exists kvs. split; [done|]. split; [done|]. split; [done|]. intros A Bs ->. rewrite length_app in Hlen.
  destruct (split_at ss (length A) ltac:(lia)) as (SA & rest & -> & HSA). rewrite length_app in Hlen.
  destruct (nonempty_split rest ltac:(lia)) as (s & SB & ->). cbn in Hlen. exists SA, s, SB.
  split; [done|]. split; [done|]. split; [split_and!; [done|lia|done]|]. split; [|done].
  rewrite HL, fmap_app. cbn. by rewrite flat_split by (by rewrite length_fmap).
Qed.

Lemma focus_rep m h p n A Bs SA s SB : focus m h p n A Bs SA s SB → rep m (S h) p.
Proof.
  intros ([Hn Hlf] & [Hp Hk] & (HA & HB & Hsc) & HL & HF & Hss). exists n, (A ++ Bs), (SA ++ s :: SB).
  split_and!; try done.
  - rewrite !length_app. cbn. lia.
  - rewrite HL, fmap_app. cbn. by rewrite flat_split by (by rewrite length_fmap).
Qed.

(** ** Leaves and inner nodes alike

    The subtrees of a node with the pairs [kvs], and its contents. *)
Definition subs_ok m (h : nat) (kvs : list (K * V)) ss : Prop :=
  match h with O => ss = [] | S h => length ss = S (length kvs) ∧ Forall (good m h) ss end.
Definition cont (h : nat) (kvs : list (K * V)) ss : list (K * V) :=
  match h with O => kvs | S _ => flat kvs (sL <$> ss) end.

Lemma rep_body m h s :
  rep m h s ↔ ∃ n kvs ss, (region m !! si s = Some n ∧ is_leaf n = bool_decide (h = 0%nat)) ∧
    (pairs_ok n kvs ∧ kids_ok n (si <$> ss)) ∧ sc s = length kvs ∧ subs_ok m h kvs ss ∧
    sL s = cont h kvs ss ∧ sF s = si s :: concat (sF <$> ss).
Proof.
  destruct h as [|h]; cbn; split.
  - intros (n & ? & ? & ? & ? & ? & ?). by exists n, (sL s), [].
  - intros (n & kvs & ss & [? ?] & [? ?] & ? & -> & E & ?). exists n. by rewrite E.
  - intros (n & kvs & ss & ?). destruct_and!. by exists n, kvs, ss.
  - intros (n & kvs & ss & ?). destruct_and!. by exists n, kvs, ss.
Qed.

(** Cut at a pair, and put together around one. *)
Lemma subs_cut m h A kv B' ss :
  subs_ok m h (A ++ kv :: B') ss →
  ∃ S1 S2, ss = S1 ++ S2 ∧ subs_ok m h A S1 ∧ subs_ok m h B' S2 ∧ cont h (A ++ kv :: B') ss = cont h A S1 ++ kv :: cont h B' S2.
Proof.
  destruct h as [|h]; cbn; [intros ->; by exists [], []|]. rewrite length_app. cbn. intros [Hl Hg].
  destruct (split_at ss (S (length A)) ltac:(lia)) as (S1 & S2 & -> & HS1). rewrite length_app in Hl.
  apply Forall_app in Hg as [? ?]. exists S1, S2. split_and!; try done; [lia|].
  rewrite fmap_app. apply flat_app; rewrite length_fmap; lia.
Qed.

Lemma subs_join m h A kv B' S1 S2 :
  subs_ok m h A S1 → subs_ok m h B' S2 →
  subs_ok m h (A ++ kv :: B') (S1 ++ S2) ∧ cont h (A ++ kv :: B') (S1 ++ S2) = cont h A S1 ++ kv :: cont h B' S2.
Proof.
  destruct h as [|h]; cbn; [by intros -> ->|]. intros [E1 G1] [E2 G2]. split; [split|].
  - rewrite !length_app. cbn. lia.
  - by apply Forall_app.
  - rewrite fmap_app. apply flat_app; rewrite length_fmap; lia.
Qed.

Lemma subs_length m h A ss : subs_ok m (S h) A ss → length ss = S (length A).
Proof. by intros [? _]. Qed.

(** The focus moved to the next subtree. *)
Lemma focus_next m h p n A kv B' SA s1 s2 SB :
  focus m h p n A (kv :: B') SA s1 (s2 :: SB) ↔ length SA = length A ∧ focus m h p n (A ++ [kv]) B' (SA ++ [s1]) s2 SB.
Proof.
  assert (length SA = length A → pre (sL <$> SA ++ [s1]) (A ++ [kv]) ++ sL s2 ++ post B' (sL <$> SB) =
    pre (sL <$> SA) A ++ sL s1 ++ post (kv :: B') (sL <$> s2 :: SB)) as E.
  { intros E. rewrite fmap_app. cbn [fmap list_fmap]. rewrite pre_snoc, post_cons by (by rewrite length_fmap). by rewrite <- !(assoc_L (++)). }
  unfold focus. rewrite <- !(assoc_L (++)). cbn [app]. split.
  - intros (? & ? & (? & ? & ?) & HL & ? & ?). split; [done|]. destruct_and!. split_and!; try done; try (rewrite ?length_app in *; cbn in *; lia). by rewrite E.
  - intros (Hl & ? & ? & (? & ? & ?) & HL & ? & ?). destruct_and!. split_and!; try done; try (rewrite ?length_app in *; cbn in *; lia). by rewrite E in HL.
Qed.

(** A subtree has its node, and depends on its own nodes only. *)
Lemma rep_node m h s : rep m h s → ∃ n, region m !! si s = Some n ∧ is_leaf n = bool_decide (h = 0%nat) ∧ count n = sc s.
Proof.
  destruct h as [|h]; cbn.
  - intros (n & Hn & Hlf & [Hp _ _ _ _] & _ & -> & _). exists n. by rewrite Hp.
  - intros (n & kvs & ss & Hn & Hlf & [Hp _ _ _ _] & _ & -> & _). exists n. by rewrite Hp.
Qed.

Lemma rep_self m h s : rep m h s → si s ∈ sF s.
Proof.
  destruct h as [|h]; cbn.
  - intros (n & _ & _ & _ & _ & _ & ->). set_solver.
  - intros (n & kvs & ss & _ & _ & _ & _ & _ & _ & _ & -> & _). set_solver.
Qed.

Lemma rep_count m h s : rep m h s → (sc s ≤ B)%nat.
Proof.
  destruct h as [|h]; cbn.
  - intros (n & _ & _ & Hp & _ & -> & _). by apply pairs_bound in Hp.
  - intros (n & kvs & ss & _ & _ & Hp & _ & -> & _). by apply pairs_bound in Hp.
Qed.

Lemma rep_ext m m' h s : (∀ y, y ∈ sF s → region m' !! y = region m !! y) → rep m h s → rep m' h s.
Proof.
  revert s. induction h as [|h IH]; intros s Hy; cbn [rep].
  - intros (n & Hn & ? & ? & ? & ? & HF). exists n. rewrite Hy by (rewrite HF; set_solver). done.
  - intros (n & kvs & ss & Hn & ? & ? & ? & ? & ? & ? & HF & Hss). exists n, kvs, ss.
    rewrite Hy by (rewrite HF; set_solver). split_and!; try done.
    apply Forall_forall. intros c Hc. rewrite Forall_forall in Hss. destruct (Hss c Hc) as [? Hr]. split; [done|].
    apply IH; [|done]. intros y Hyc. apply Hy. rewrite HF. right. apply list_elem_of_In, in_concat.
    exists (sF c). split; [|by apply list_elem_of_In]. apply list_elem_of_In, list_elem_of_fmap. eauto.
Qed.

Lemma good_ext m m' h ss :
  (∀ y, y ∈ concat (sF <$> ss) → region m' !! y = region m !! y) → Forall (good m h) ss → Forall (good m' h) ss.
Proof.
  intros Hy Hg. apply Forall_forall. intros c Hc. rewrite Forall_forall in Hg. destruct (Hg c Hc) as [? Hr]. split; [done|].
  eapply rep_ext; [|done]. intros y Hyc. apply Hy. apply list_elem_of_In, in_concat.
  exists (sF c). split; [|by apply list_elem_of_In]. apply list_elem_of_In, list_elem_of_fmap. eauto.
Qed.

Lemma subs_ext m m' h kvs ss :
  (∀ y, y ∈ concat (sF <$> ss) → region m' !! y = region m !! y) → subs_ok m h kvs ss → subs_ok m' h kvs ss.
Proof. destruct h as [|h]; cbn; [done|]. intros Hy [? ?]. split; [done|]. by eapply good_ext. Qed.

(** * The nodes available *)

Definition shape n : Prop := length (keys n) = B ∧ length (values n) = B ∧ length (children n) = (B + 1)%nat.

Fixpoint fchain m (x : Z) (l : list Z) : Prop :=
  match l with
  | [] => x = NIL
  | y :: l => x = y ∧ x ≠ NIL ∧ ∃ n z, region m !! y = Some n ∧ children n !! 0%nat = Some z ∧ fchain m z l
  end.

(** [P]: the free list, then the nodes never used. *)
Record arena m P : Prop := {
  ar_count : 0 ≤ node_count (header m) ≤ mcapacity m; ar_cap : mcapacity m < NIL;
  ar_nodes : ∀ x, 0 ≤ x < mcapacity m → ∃ n, region m !! x = Some n ∧ shape n;
  ar_dom : ∀ x n, region m !! x = Some n → 0 ≤ x < mcapacity m;
  ar_range : ∀ x, x ∈ P → 0 ≤ x < mcapacity m;
  ar_pool : ∃ fl, P = fl ++ seqZ (node_count (header m)) (mcapacity m - node_count (header m)) ∧
              fchain m (free_head (header m)) fl }.

(** What no operation below the root changes. *)
Definition same_map m m' : Prop :=
  root (header m') = root (header m) ∧ version (header m') = version (header m) ∧ mcapacity m' = mcapacity m.

Lemma fchain_ext m m' x l : (∀ y, y ∈ l → region m' !! y = region m !! y) → fchain m x l → fchain m' x l.
Proof.
  revert x. induction l as [|y l IH]; intros x Hy; cbn; [done|]. intros (-> & ? & n & z & Hn & Hz & Hc).
  split; [done|]. split; [done|]. exists n, z. rewrite Hy by set_solver. split_and!; [done..|]. apply IH; [set_solver|done].
Qed.

Lemma shape_pairs n : shape n → pairs_ok (with_count 0 n) [] ∧ kids_ok n [].
Proof. intros (H1 & H2 & H3). split; split; cbn; try done; eauto. Qed.
Lemma ok_shape n kvs cs : pairs_ok n kvs → kids_ok n cs → shape n.
Proof. intros [_ _ ? _ ?] [_ ?]. by split_and!. Qed.

Lemma arena_write m P x n n0 : arena m P → shape n → x ∉ P → region m !! x = Some n0 → arena (upd x n m) P.
Proof.
  intros [H1 H2 H3 Hd H4 (fl & HP & Hf)] Hs Hx Hn0. split; cbn; try done.
  - intros y Hy. destruct (decide (x = y)) as [->|Hne]; [rewrite lookup_insert_eq; eauto|].
    rewrite lookup_insert_ne by done. by apply H3.
  - intros y n' [ [<- _]|[_ Hy] ]%lookup_insert_Some; by eapply Hd.
  - exists fl. split; [done|]. eapply fchain_ext; [|done]. intros y Hy. cbn. apply lookup_insert_ne. set_solver.
Qed.

Lemma alloc_node_spec m P leaf :
  arena m P → NoDup P →
  (∃ x P' n m', P = x :: P' ∧ alloc_node leaf m = (Ok x, m') ∧ region m' = <[x := n]> (region m) ∧
     (pairs_ok n [] ∧ kids_ok n [] ∧ is_leaf n = leaf) ∧ arena m' P' ∧ same_map m m' ∧ len (header m') = len (header m)) ∨
  (P = [] ∧ alloc_node leaf m = (Err Full, m)).
Proof.
  intros Ha Hnd. pose proof Ha as [H1 H2 H3 Hd H4 (fl & HP & Hf)]. unfold NIL in H2. unfold alloc_node.
  assert (∀ n, shape n → let n' := {| count := 0; is_leaf := leaf; keys := keys n; children := replicate (B + 1) NIL;
    values := values n |} in shape n' ∧ pairs_ok n' [] ∧ kids_ok n' [] ∧ is_leaf n' = leaf) as Hfresh.
  { intros n (E1 & E2 & _) n'. assert (shape n') as Hs by (split_and!; [done|done|apply length_replicate]).
    destruct (shape_pairs n' Hs) as [ [? ? ? ? ?] ?]. done. }
  rewrite (bind_run get_state _ m m m) by done. cbv beta zeta.
  destruct fl as [|x fl].
  - cbn in Hf. rewrite Hf, Z.eqb_refl. cbn [negb]. cbn in HP.
    destruct (Z.leb_spec (mcapacity m) (node_count (header m))) as [Hge|Hlt].
    + right. split; [rewrite HP; by apply seqZ_nil; lia|]. erewrite bind_err; [done|].
      erewrite bind_run by reflexivity. erewrite bind_run by reflexivity. cbn. unfold throw. f_equal.
      rewrite (wrap_small 32 (node_count (header m) + 1)), (wrap_small 32) by lia. destruct m as [ [] ? ?]. cbn in *. unfold with_node_count. cbn.
      do 2 f_equal. lia.
    + left. destruct (H3 (node_count (header m))) as (n & Hn & Hs); [lia|]. destruct (Hfresh n Hs) as [Hs' Hok].
      rewrite seqZ_cons in HP by lia.
      eexists (node_count (header m)), _, _, _. split; [exact HP|].
      erewrite bind_run; [|erewrite bind_run by reflexivity; reflexivity]. cbv beta.
      erewrite bind_run; [|by apply node_run]. cbv beta. erewrite bind_run; [|by eapply write_run]. cbv beta.
      split; [reflexivity|]. cbn. split; [reflexivity|]. split; [exact Hok|]. split; [|done].
      set (m1 := hset (with_node_count (u32 (node_count (header m) + 1))) m).
      eapply (arena_write m1); [|done| |exact Hn].
      * split; cbn; rewrite ?(wrap_small 32) by lia; [lia|done|done|done| |].
        -- intros y Hy. apply H4. rewrite HP. by right.
        -- exists []. cbn. split; [|done]. f_equal; lia.
      * rewrite HP in Hnd. by apply NoDup_cons in Hnd as [? _].
  - destruct Hf as (Ex & Hnil & n & z & Hn & Hz & Hf). subst x. rewrite (proj2 (Z.eqb_neq _ _) Hnil). cbn [negb].
    left. cbn in HP. rewrite HP in Hnd. apply NoDup_cons in Hnd as [Hni Hnd].
    eexists (free_head (header m)), _, _, _. split; [exact HP|].
    destruct (H3 (free_head (header m))) as (n' & Hn' & Hs); [apply H4; rewrite HP; by left|]. simplify_eq.
    destruct (Hfresh n Hs) as [Hs' Hok].
    erewrite bind_run; [|rd Hn; lf Hz; erewrite bind_run by reflexivity; reflexivity]. cbv beta.
    erewrite bind_run; [|by apply node_run]. cbv beta. erewrite bind_run; [|by eapply write_run]. cbv beta.
    split; [reflexivity|]. cbn. split; [reflexivity|]. split; [exact Hok|]. split; [|done].
    eapply (arena_write (hset (with_free_head z) m)); [|done|done|exact Hn]. split; cbn; try done.
    + intros y Hy. apply H4. by right.
    + exists fl. split; [done|]. by eapply fchain_ext; [|done].
Qed.

Lemma free_node_spec m P x n :
  arena m P → region m !! x = Some n → shape n → x ∉ P →
  ∃ n' m', free_node x m = (Ok tt, m') ∧ region m' = <[x := n']> (region m) ∧ shape n' ∧ arena m' (x :: P) ∧
    same_map m m' ∧ len (header m') = len (header m).
Proof.
  intros Ha Hn Hs Hx. pose proof (ar_dom _ _ Ha _ _ Hn) as Hr. unfold free_node. rewrite (bind_run get_state _ m m m) by done. cbv beta.
  destruct Hs as (E1 & E2 & E3). destruct (nonempty_split (children n) ltac:(blia)) as (z & j & Ez).
  rd Hn. lf (eq_trans (f_equal (aset 0 _) Ez) (aset_mid 0 (free_head (header m)) [] z j eq_refl)). wr Hn. cbn [app].
  set (n' := with_children (free_head (header m) :: j) n). assert (shape n') as Hs'.
  { split_and!; [done|done|]. rewrite Ez in E3. done. }
  exists n', (hset (with_free_head x) (upd x n' m)). split; [done|]. split; [done|]. split; [done|]. split; [|done].
  pose proof (arena_write _ _ _ _ _ Ha Hs' Hx Hn) as [H1 H2 H3 Hd H4 (fl & HP & Hf)]. split; cbn in *; try done.
  - intros y [->|Hy]%elem_of_cons; [done|by apply H4].
  - exists (x :: fl). split; [by rewrite HP|]. cbn. split; [done|]. unfold NIL in *. split; [lia|].
    exists n', (free_head (header m)). rewrite lookup_insert_eq. split_and!; [done..|]. by eapply fchain_ext; [|done].
Qed.

(** * Changes of a subtree

    From [m] with the nodes [P] available to [m'] with [P']: the subtree [s]
    becomes [s'] in place, using its own nodes and the available ones. *)
Record change (h : nat) m P s m' P' s' : Prop := {
  ch_rep : rep m' h s'; ch_arena : arena m' P'; ch_si : si s' = si s;
  ch_nodes : sF s' ++ P' ≡ₚ sF s ++ P;
  ch_frame : ∀ y, y ∉ sF s ++ P → region m' !! y = region m !! y;
  ch_map : same_map m m' }.

Lemma change_refl h m P s : rep m h s → arena m P → change h m P s m P s.
Proof. done. Qed.

Lemma change_trans h m1 P1 s1 m2 P2 s2 m3 P3 s3 :
  change h m1 P1 s1 m2 P2 s2 → change h m2 P2 s2 m3 P3 s3 → change h m1 P1 s1 m3 P3 s3.
Proof.
  intros [A1 A2 A3 A4 A5 (A6 & A7 & A8)] [B1 B2 B3 B4 B5 (B6 & B7 & B8)]. split; try done.
  - congruence.
  - by rewrite B4.
  - intros y Hy. rewrite B5, A5; [done|done|]. by rewrite A4.
  - split_and!; congruence.
Qed.

(** A change of a subtree is a change of its parent. *)
Lemma focus_change h m P p n A Bs SA s SB m' P' s' :
  focus m h p n A Bs SA s SB → NoDup (sF p ++ P) → change h m P s m' P' s' → (T - 1 ≤ sc s')%nat →
  let p' := {| si := si p; sc := sc p; sL := pre (sL <$> SA) A ++ sL s' ++ post Bs (sL <$> SB);
               sF := si p :: concat (sF <$> SA ++ s' :: SB) |} in
  focus m' h p' n A Bs SA s' SB ∧ change (S h) m P p m' P' p'.
Proof.
  intros Hf Hnd [C1 C2 C3 C4 C5 C6] Ht p'. pose proof Hf as ([Hn Hlf] & [Hp Hk] & Hlen & HL & HF & Hss).
  rewrite HF, fmap_app, concat_app in Hnd. cbn in Hnd.
  apply Forall_app in Hss as [HSA Hss]. apply Forall_cons in Hss as [Hs HSB].
  assert (∀ y, y ∈ si p :: concat (sF <$> SA) ++ concat (sF <$> SB) → y ∉ sF s ++ P) as Hdis.
  { intros y Hy Hy'. revert Hnd. rewrite NoDup_cons, !NoDup_app. set_solver. }
  assert (focus m' h p' n A Bs SA s' SB) as Hf'.
  { split; [rewrite C5; [done|]; apply Hdis; set_solver|]. split; [split; [done|]|].
    - rewrite fmap_app in *. cbn in *. by rewrite C3.
    - split; [done|]. split; [done|]. split; [done|]. apply Forall_app. split; [|apply Forall_cons; split; [done|]].
      + eapply good_ext; [|done]. intros y Hy. apply C5, Hdis. set_solver.
      + eapply good_ext; [|done]. intros y Hy. apply C5, Hdis. set_solver. }
  split; [done|]. split; try done.
  - by eapply focus_rep.
  - rewrite HF. cbn. rewrite !fmap_app, !concat_app. cbn. rewrite <- !(assoc_L (++)).
    apply Permutation_skip, Permutation_app_head.
    rewrite (Permutation_app_comm (concat (sF <$> SB))), (Permutation_app_comm (concat (sF <$> SB)) P), !(assoc_L (++)), C4.
    solve_Permutation.
  - intros y Hy. apply C5. rewrite HF, fmap_app, concat_app in Hy. set_solver.
Qed.

(** * Nodes and foci as the operations use them *)

(** A node as the operations see it: its pairs, its links, whether it is a
    leaf. *)
Definition node_is (lf : bool) kvs cs n : Prop := is_leaf n = lf ∧ pairs_ok n kvs ∧ kids_ok n cs.

Lemma node_shape lf kvs cs n : node_is lf kvs cs n → shape n.
Proof. intros (_ & ? & ?). by eapply ok_shape. Qed.

(** A subtree rebuilt on changed memory. *)
Lemma rep_build m h s n kvs ss :
  region m !! si s = Some n → node_is (bool_decide (h = 0%nat)) kvs (si <$> ss) n → sc s = length kvs → subs_ok m h kvs ss →
  sL s = cont h kvs ss → sF s = si s :: concat (sF <$> ss) → rep m h s.
Proof. intros Hn (? & ? & ?) ? ? ? ?. apply rep_body. by exists n, kvs, ss. Qed.

Lemma sorted_body m h kvs ss : subs_ok m h kvs ss → sorted (cont h kvs ss) → sorted kvs.
Proof. destruct h as [|h]; cbn; [done|]. intros [E _]. apply sorted_flat. by rewrite length_fmap. Qed.

Lemma search_run m h s key :
  rep m h s → sorted (sL s) →
  ∃ n A Bs ss, (region m !! si s = Some n ∧ node_is (bool_decide (h = 0%nat)) (A ++ Bs) (si <$> ss) n) ∧
    sc s = length (A ++ Bs) ∧ subs_ok m h (A ++ Bs) ss ∧ sL s = cont h (A ++ Bs) ss ∧ sF s = si s :: concat (sF <$> ss) ∧
    under key A ∧
    (search (si s) key m = (Ok (length A, false), m) ∧ over key Bs ∨
     ∃ v B', Bs = (key, v) :: B' ∧ search (si s) key m = (Ok (length A, true), m)).
Proof.
  intros Hr Hs. apply rep_body in Hr as (n & kvs & ss & [Hn Hlf] & [Hp Hk] & Hsc & Hss & HL & HF).
  rewrite HL in Hs. destruct (search_node_spec n kvs key Hp (sorted_body _ _ _ _ Hss Hs)) as (A & Bs & -> & HA & Hcase).
  exists n, A, Bs, ss. split; [done|]. do 4 (split; [done|]). split; [done|].
  destruct Hcase as [ [E Ho]|(v & B' & -> & Ho & E)]; [left|right; exists v, B'; split; [done|] ]; unfold search; rd Hn; unfold lift; by rewrite E.
Qed.

Lemma focus_node m h p n A Bs SA s SB :
  focus m h p n A Bs SA s SB → region m !! si p = Some n ∧ node_is false (A ++ Bs) ((si <$> SA) ++ si s :: (si <$> SB)) n.
Proof. intros ([? ?] & [? Hk] & _). rewrite fmap_app in Hk. done. Qed.

(** The nodes of a parent, a subtree and the available ones are distinct. *)
Lemma focus_nodes m h p n A Bs SA s SB P :
  focus m h p n A Bs SA s SB → NoDup (sF p ++ P) →
  ∀ y, y ∈ concat (sF <$> SA) ++ concat (sF <$> SB) → y ≠ si p ∧ y ∉ sF s ∧ y ∉ P.
Proof.
  intros (_ & _ & _ & _ & HF & _) Hnd y Hy. rewrite HF, fmap_app, concat_app in Hnd. cbn in Hnd. revert Hnd.
  rewrite NoDup_cons, !NoDup_app. set_solver.
Qed.

Lemma focus_distinct m h p n A Bs SA s SB P :
  focus m h p n A Bs SA s SB → NoDup (sF p ++ P) → si p ∉ sF s ∧ si p ∉ P ∧ NoDup (sF s ++ P).
Proof.
  intros (_ & _ & _ & _ & HF & _) Hnd. rewrite HF, fmap_app, concat_app in Hnd. cbn in Hnd.
  rewrite NoDup_cons, !NoDup_app in Hnd. rewrite NoDup_app. set_solver.
Qed.

(** The index of the focused subtree. *)
Lemma focus_kid m h p n A Bs SA s SB : focus m h p n A Bs SA s SB → children n !! length A = Some (si s).
Proof.
  intros (_ & [_ Hk] & (HA & _) & _). rewrite fmap_app in Hk. cbn in Hk. rewrite <- HA, <- (length_fmap si). by eapply kid_at.
Qed.

Lemma focus_sub m h p n A Bs SA s SB : focus m h p n A Bs SA s SB → good m h s.
Proof. intros (_ & _ & _ & _ & _ & Hg). apply Forall_app in Hg as [_ Hg]. by apply Forall_cons in Hg as [? _]. Qed.

(** The focus at the place of a key, and what is around it. *)
Lemma focus_at m h p n A Bs ss :
  region m !! si p = Some n → node_is false (A ++ Bs) (si <$> ss) n → sc p = length (A ++ Bs) → subs_ok m (S h) (A ++ Bs) ss →
  sL p = cont (S h) (A ++ Bs) ss → sF p = si p :: concat (sF <$> ss) → ∃ SA s SB, ss = SA ++ s :: SB ∧ focus m h p n A Bs SA s SB.
Proof.
  intros Hn (Nl & Np & Nk) Hsc [Hlen Hg] HL HF. rewrite length_app in Hlen.
  destruct (split_at ss (length A) ltac:(lia)) as (SA & rest & -> & HSA). rewrite length_app in Hlen.
  destruct (nonempty_split rest ltac:(lia)) as (s & SB & ->). cbn in Hlen. exists SA, s, SB. split; [done|].
  split; [done|]. split; [done|]. split; [split_and!; [done|lia|done]|]. split; [|done].
  rewrite HL. cbn [cont]. rewrite fmap_app. cbn. by rewrite flat_split by (by rewrite length_fmap).
Qed.

Lemma focus_body m h p n A Bs SA s SB :
  focus m h p n A Bs SA s SB → subs_ok m (S h) (A ++ Bs) (SA ++ s :: SB) ∧ sL p = cont (S h) (A ++ Bs) (SA ++ s :: SB).
Proof.
  intros (_ & _ & (HA & HB & _) & HL & _ & Hg). split; [split; [rewrite !length_app; cbn; lia|done]|].
  rewrite HL. cbn [cont]. rewrite fmap_app. cbn. by rewrite flat_split by (by rewrite length_fmap).
Qed.

Lemma focus_bounds m h p n A Bs SA s SB key :
  focus m h p n A Bs SA s SB → sorted (sL p) → under key A → over key Bs →
  under key (pre (sL <$> SA) A) ∧ over key (post Bs (sL <$> SB)) ∧ sorted (sL s).
Proof.
  intros (_ & _ & (HA & HB & _) & HL & _) Hs Hu Ho. rewrite HL in Hs. split_and!.
  - eapply under_pre; [by rewrite length_fmap|exact Hs|done].
  - eapply over_post; [by rewrite length_fmap|rewrite (assoc_L (++)) in Hs; exact Hs|done].
  - by apply StronglySorted_app_1_r, StronglySorted_app_1_l in Hs.
Qed.

Lemma change_node m h P s n n' kvs kvs' ss :
  arena m P → NoDup (sF s ++ P) → region m !! si s = Some n → subs_ok m h kvs ss → sF s = si s :: concat (sF <$> ss) →
  node_is (bool_decide (h = 0%nat)) kvs' (si <$> ss) n' → (h = 0%nat ∨ length kvs' = length kvs) →
  change h m P s (upd (si s) n' m) P {| si := si s; sc := length kvs'; sL := cont h kvs' ss; sF := sF s |}.
Proof.
  intros Ha Hnd Hn Hss HF Hn' Hlen. rewrite HF in Hnd. apply NoDup_cons in Hnd as [Hni Hnd].
  split; cbn [si sc sL sF]; try done.
  - eapply (rep_build _ _ _ n' kvs' ss); cbn; [by rewrite lookup_insert_eq|done|done| |done|done].
    eapply (subs_ext m); [intros y Hy; cbn; rewrite lookup_insert_ne; [done|]; intros <-; apply Hni; mem|].
    destruct h as [|h]; [done|]. destruct Hlen as [?|Hlen]; [done|]. cbn in *. by rewrite Hlen.
  - eapply arena_write; [done|by eapply node_shape| |done]. intros E. apply Hni. mem.
  - intros y Hy. cbn. rewrite lookup_insert_ne; [done|]. intros <-. apply Hy. rewrite HF. mem.
Qed.
End rep.
