(* ===== verification/BTreeInsert.v ===== *)
(** Insertion into the ordered map. *)
From stdpp Require Import gmap sorting.
From S2P Require Import Prelude BTree SortedMap BTreeNodes BTreeRep.

Section insert.
Context {K V : Type} `{KeyOrd K}.
Implicit Types (m : SharedBTreeMap K V) (n : BTreeNode K V) (A Bs : list (K * V)) (s p : sub (K := K) (V := V)) (P : list Z).

(** ** Splitting a full child *)

Lemma split_child_run m P px n A Bs CA fx CB lf f KA med KB C1 C2 :
  region m !! px = Some n → node_is false (A ++ Bs) (CA ++ fx :: CB) n → length CA = length A → length CB = length Bs →
  region m !! fx = Some f → node_is lf (KA ++ med :: KB) (C1 ++ C2) f →
  length KA = (T - 1)%nat → length KB = (T - 1)%nat → (if lf then C1 = [] ∧ C2 = [] else length C1 = T ∧ length C2 = T) →
  (length (A ++ Bs) < B)%nat → arena m P → NoDup P → px ∉ P → fx ∉ P → px ≠ fx →
  (P = [] ∧ split_child px (length A) m = (Err Full, m)) ∨
  ∃ m' x P' n' f' r', P = x :: P' ∧ split_child px (length A) m = (Ok tt, m') ∧
    region m' = <[px := n']> (<[fx := f']> (<[x := r']> (region m))) ∧
    node_is false (A ++ med :: Bs) (CA ++ fx :: x :: CB) n' ∧ node_is lf KA C1 f' ∧ node_is lf KB C2 r' ∧
    arena m' P' ∧ same_map m m' ∧ len (header m') = len (header m).
Proof.
  intros Hn (Nl & Np & Nk) HA HB Hf (Fl & Fp & Fk) HKA HKB HC Hlt Ha Hnd Hp Hfx Hne. unfold split_child.
  rd Hn. assert (children n !! length A = Some fx) as Hkid by (rewrite <- HA; by eapply kid_at). lf Hkid. rd Hf.
  destruct (alloc_node_spec m P (is_leaf f) Ha Hnd) as [(x & P' & nr & m1 & -> & Hal & Hreg & (Rp & Rk & Rl) & Ha1 & Hsm & Hln)|[-> Hal] ];
    [right|by left; rewrite (bind_err _ _ _ _ _ Hal)].
  apply not_elem_of_cons in Hp as [Hpx Hp]. apply not_elem_of_cons in Hfx as [Hfxx Hfx]. apply NoDup_cons in Hnd as [Hx _].
  run Hal. assert (region m1 !! fx = Some f) as Hf1 by (by rewrite Hreg, lookup_insert_ne).
  assert (region m1 !! x = Some nr) as Hr1 by (by rewrite Hreg, lookup_insert_eq). rd Hf1. rd Hr1.
  (* the right half *)
  destruct (copy_pairs f nr (KA ++ [med]) KB [] []) as (ks & vs & Hks & Hvs & Hpairs).
  { by rewrite app_nil_r, <- (assoc_L (++)). } { done. } { blia. }
  assert (length (KA ++ [med]) = T) as E1 by (rewrite length_app, HKA; done). rewrite E1, HKB in Hks, Hvs. lf Hks. lf Hvs.
  assert (∃ cs, (if is_leaf f then Some (children nr) else copy T T 0 (children f) (children nr)) = Some cs ∧
    ∀ n0, children n0 = cs → kids_ok n0 C2) as (cs & Hcs & Hkids).
  { rewrite Fl. destruct lf; destruct HC as [HC1 HC2].
    - subst. exists (children nr). split; [done|]. intros n0 En. by eapply kids_ext.
    - destruct (copy_kids f nr C1 C2 [] []) as (cs & Hcs & Hk); [by rewrite app_nil_r|done|blia|].
      rewrite HC1, HC2 in Hcs. eauto. }
  lf Hcs. wr Hr1. set (r' := {| count := T - 1; is_leaf := is_leaf f; keys := ks; children := cs; values := vs |}).
  assert (node_is lf KB C2 r') as Hr' by (split_and!; [done|apply (Hpairs (T - 1)%nat); rewrite HKB; blia|by apply Hkids]).
  (* the left half *)
  assert (region (upd x r' m1) !! fx = Some f) as Hf2 by (cbn; by rewrite lookup_insert_ne). rd Hf2.
  assert (pair_at f (T - 1) = Some med) as Hmed by (rewrite <- HKA; by eapply pair_at_spec). lf Hmed. wr Hf2.
  set (f' := with_count (T - 1) f). assert (node_is lf KA C1 f') as Hf'.
  { split_and!; [done| |by eapply kids_ext; [eapply kids_prefix|] ]. unfold f'. rewrite <- HKA. by eapply with_count_pairs. }
  (* the parent *)
  assert (region (upd fx f' (upd x r' m1)) !! px = Some n) as Hn2.
  { cbn. rewrite !lookup_insert_ne by done. by rewrite Hreg, lookup_insert_ne. }
  rd Hn2. destruct (insert_kid n (CA ++ [fx]) CB x (count n + 1)) as (cs' & Hcs' & Hk').
  { by rewrite <- (assoc_L (++)). } { lens. } { rewrite (po_count _ _ Np). lens. }
  rewrite length_app, HA in Hcs'. cbn [length] in Hcs'. lf Hcs'.
  destruct (insert_pair_spec n A Bs med.1 med.2 Np Hlt) as (n' & Hn' & Np' & Ll & Lf). lf Hn'.
  rewrite (write_run _ _ _ _ Hn2). rewrite <- (assoc_L (++)) in Hk'. rewrite <- surjective_pairing in Np'.
  assert (node_is false (A ++ med :: Bs) (CA ++ fx :: x :: CB) (with_children cs' n')) as Hn3
    by (split_and!; [by cbn; rewrite Lf|by eapply pairs_ext|by eapply kids_ext]).
  eexists _, x, P', _, f', r'. split; [done|]. split; [done|]. cbn. rewrite Hreg, insert_insert_eq. split; [done|].
  split; [done|]. split; [done|]. split; [done|]. split; [|done].
  eapply arena_write; [|by eapply node_shape|done|exact Hn2]. eapply arena_write; [|by eapply node_shape|done|exact Hf2].
  eapply arena_write; [done|by eapply node_shape|done|done].
Qed.
Lemma split_child_spec m h p n A Bs SA s SB P :
  focus m h p n A Bs SA s SB → sc s = B → (length (A ++ Bs) < B)%nat → arena m P → NoDup (sF p ++ P) →
  (P = [] ∧ split_child (si p) (length A) m = (Err Full, m)) ∨
  ∃ m' P' p' n' kv s1 s2,
    split_child (si p) (length A) m = (Ok tt, m') ∧ change (S h) m P p m' P' p' ∧
    focus m' h p' n' A (kv :: Bs) SA s1 (s2 :: SB) ∧ sL p' = sL p ∧ (sc s1 = T - 1 ∧ sc s2 = T - 1)%nat ∧
    sL s = sL s1 ++ kv :: sL s2 ∧ sc p' = S (sc p) ∧ len (header m') = len (header m) ∧ length P = S (length P').
Proof.
  intros Hf Hsc Hlt Ha Hnd. destruct (focus_node _ _ _ _ _ _ _ _ _ Hf) as [Hn Hni].
  pose proof (focus_sub _ _ _ _ _ _ _ _ _ Hf) as [_ Hs]. pose proof Hf as (_ & _ & (HA & HB & Hscp) & HL & HF & Hg).
  apply rep_body in Hs as (f & kvs & ss & [Hfx Hlf] & [Fp Fk] & Hsc' & Hss & HLs & HFs).
  destruct (split_at kvs (T - 1)) as (KA & rest & -> & HKA); [blia|]. rewrite length_app in Hsc'.
  destruct (nonempty_split rest) as (med & KB & ->); [blia|]. cbn in Hsc'.
  destruct (subs_cut _ _ _ _ _ _ Hss) as (S1 & S2 & -> & HS1 & HS2 & Ec). rewrite fmap_app in Fk.
  set (kept := concat (sF <$> SA) ++ concat (sF <$> S1) ++ concat (sF <$> S2) ++ concat (sF <$> SB)).
  assert (sF p ++ P ≡ₚ [si p; si s] ++ kept ++ P) as Hperm.
  { rewrite HF, fmap_app, concat_app. cbn. rewrite HFs, fmap_app, concat_app. unfold kept. solve_Permutation. }
  rewrite Hperm in Hnd. apply NoDup_app in Hnd as (Hnd1 & Hnd2 & Hnd3). apply NoDup_app in Hnd3 as (_ & Hnd3 & HndP).
  assert (si p ≠ si s) as Hne by (apply NoDup_cons in Hnd1 as [Hn1 _]; intros E; apply Hn1; rewrite E; by left).
  assert (si p ∉ P ∧ si s ∉ P) as [HpP HsP] by (split; intros E; [apply (Hnd2 (si p))|apply (Hnd2 (si s))]; mem).
  destruct (split_child_run m P (si p) n A Bs (si <$> SA) (si s) (si <$> SB) (bool_decide (h = 0%nat)) f KA med KB (si <$> S1) (si <$> S2))
    as [ [-> Hr]|(m' & x & P' & n' & f' & r' & -> & Hr & Hreg & Hn' & Hf' & Hr' & Ha' & Hsm & Hln)];
    try done; try (by rewrite length_fmap); try blia.
  { destruct h as [|h]; cbn; [by cbn in HS1, HS2; subst|]. rewrite !length_fmap.
    rewrite (subs_length _ _ _ _ HS1), (subs_length _ _ _ _ HS2). split; blia. }
  { by left. }
  apply not_elem_of_cons in HpP as [Hpx HpP]. apply not_elem_of_cons in HsP as [Hsx HsP].
  assert (∀ y, y ∈ kept → region m' !! y = region m !! y) as Hy.
  { intros y Hy. rewrite Hreg, !lookup_insert_ne; [done|..]; intros <-; [apply (Hnd3 x Hy)|apply (Hnd2 (si s))|apply (Hnd2 (si p))]; mem. }
  set (s1 := {| si := si s; sc := (T - 1)%nat; sL := cont h KA S1; sF := si s :: concat (sF <$> S1) |}).
  set (s2 := {| si := x; sc := (T - 1)%nat; sL := cont h KB S2; sF := x :: concat (sF <$> S2) |}).
  set (p' := {| si := si p; sc := S (sc p); sL := sL p; sF := si p :: concat (sF <$> SA ++ s1 :: s2 :: SB) |}).
  assert (region m' !! si p = Some n' ∧ region m' !! si s = Some f' ∧ region m' !! x = Some r') as (Hn2 & Hf2 & Hr2).
  { rewrite Hreg, lookup_insert_eq, lookup_insert_ne, lookup_insert_eq, !lookup_insert_ne, lookup_insert_eq by congruence. done. }
  assert (rep m' h s1 ∧ rep m' h s2) as [Rs1 Rs2].
  { split; eapply rep_build; try done; try (cbn; blia); (eapply subs_ext; [|done]); intros y Hyy; apply Hy; unfold kept; mem. }
  apply Forall_app in Hg as [HgA HgB]. apply Forall_cons in HgB as [_ HgB].
  assert (focus m' h p' n' A (med :: Bs) SA s1 (s2 :: SB)) as Hf3.
  { destruct Hn' as (? & ? & ?). split; [done|]. split; [by rewrite fmap_app|]. split; [cbn; rewrite Hscp; lens|].
    split; [|split; [done|] ].
    - cbn [sL p' fmap list_fmap]. rewrite HL, HLs, Ec, post_cons. cbn. by rewrite <- !(assoc_L (++)).
    - apply Forall_app. split; [eapply good_ext; [|done]; intros y Hyy; apply Hy; unfold kept; mem|].
      do 2 (apply Forall_cons; split; [done|]). eapply good_ext; [|done]; intros y Hyy; apply Hy; unfold kept; mem. }
  right. exists m', P', p', n', med, s1, s2. split; [done|]. split; [|by rewrite HLs, Ec].
  split; [by eapply focus_rep|done|done| | |done].
  - rewrite Hperm. cbn. rewrite fmap_app, concat_app. cbn. unfold kept. solve_Permutation.
  - intros y Hyy. rewrite Hperm in Hyy. rewrite Hreg, !lookup_insert_ne; [done|intros <-; apply Hyy; mem..].
Qed.
(** ** A change of one node *)

Lemma set_value_run m x n A k v w B' :
  region m !! x = Some n → pairs_ok n (A ++ (k, v) :: B') →
  ∃ n', set_value x (length A) w m = (Ok v, upd x n' m) ∧ pairs_ok n' (A ++ (k, w) :: B') ∧ same_links n n'.
Proof.
  intros Hn Hp. unfold set_value. rd Hn. lf (value_at _ _ _ _ Hp). pose proof Hp as [Hc Hk Hkl [jv Hv] Hvl].
  rewrite fmap_app in Hv. cbn in Hv. rewrite <- (assoc_L (++)) in Hv. cbn in Hv.
  assert (aset (length A) w (values n) = Some (A.*2 ++ w :: B'.*2 ++ jv)) as Hset by (rewrite Hv; by rewrite aset_mid by (by rewrite length_fmap)).
  lf Hset. wr Hn. eexists. split; [done|]. split; [|done]. split; cbn.
  - rewrite Hc. lens.
  - rewrite fmap_app in *. done.
  - done.
  - exists jv. rewrite fmap_app. cbn. by rewrite <- (assoc_L (++)).
  - rewrite Hv in Hvl. lens.
Qed.
(** ** Insertion below a node with room *)

(** What an insertion into the contents [L] returns and leaves: the pair is in
    place, or the nodes ran out and the contents are as they were. *)
Definition outcome key value (L : list (K * V)) (l0 : Z) (r : res BTreeError (option V)) (L' : list (K * V)) (l1 : Z) P' : Prop :=
  (r = Ok (look key L) ∧ L' = ins key value L ∧ l1 = match look key L with Some _ => l0 | None => u64 (l0 + 1) end) ∨
  (r = Err Full ∧ L' = L ∧ l1 = l0 ∧ P' = []).

(** At most [d] nodes are taken. *)
Record inserts (d h : nat) m P s key value r m' P' s' : Prop := {
  in_change : change h m P s m' P' s'; in_count : (sc s ≤ sc s')%nat;
  in_outcome : outcome key value (sL s) (len (header m)) r (sL s') (len (header m')) P';
  in_pool : (length P ≤ length P' + d)%nat }.

Lemma inserts_focus d h m P p n A Bs SA s SB key value r m' P' s' :
  focus m h p n A Bs SA s SB → NoDup (sF p ++ P) →
  under key (pre (sL <$> SA) A) → over key (post Bs (sL <$> SB)) → inserts d h m P s key value r m' P' s' →
  ∃ p', inserts d (S h) m P p key value r m' P' p'.
Proof.
  intros Hf Hnd Hu Ho [Hc Hcount Hout Hpool]. pose proof (focus_sub _ _ _ _ _ _ _ _ _ Hf) as [Ht _].
  destruct (focus_change _ _ _ _ _ _ _ _ _ _ _ _ _ Hf Hnd Hc ltac:(lia)) as [_ Hc']. eexists. split; [exact Hc'|done| |done].
  destruct Hf as (_ & _ & _ & HL & _). cbn. unfold outcome. rewrite HL, look_mid, ins_mid by done.
  destruct Hout as [(-> & -> & ->)|(-> & -> & -> & ->)]; [by left|by right].
Qed.

Lemma inserts_after d h m P p m1 P1 p1 key value r m' P' p' :
  change h m P p m1 P1 p1 → sL p1 = sL p → (sc p ≤ sc p1)%nat → len (header m1) = len (header m) → length P = S (length P1) →
  inserts d h m1 P1 p1 key value r m' P' p' → inserts (S d) h m P p key value r m' P' p'.
Proof.
  intros Hc HL Hsc Hlen HP [Hc' Hsc' Hout Hpool]. split; [by eapply change_trans|lia| |lia]. by rewrite <- HL, <- Hlen.
Qed.

Lemma change_len h m P s m' P' s' l : change h m P s m' P' s' → change h m P s (hset (with_len l) m') P' s'.
Proof.
  intros [C1 [A1 A2 A3 A3' A4 (fl & A5 & A6)] C3 C4 C5 C6]. split; try done.
  - eapply rep_ext; [|done]. done.
  - split; try done. exists fl. split; [done|]. eapply fchain_ext; [|done]. done.
Qed.

Lemma inserts_more d d' h m P s key value r m' P' s' :
  (d ≤ d')%nat → inserts d h m P s key value r m' P' s' → inserts d' h m P s key value r m' P' s'.
Proof. intros ? []. split; [done..|lia]. Qed.

(** The key is in the node. *)
Lemma inserts_value h m P s n A v B' ss key value :
  arena m P → NoDup (sF s ++ P) → sorted (sL s) → region m !! si s = Some n →
  node_is (bool_decide (h = 0%nat)) (A ++ (key, v) :: B') (si <$> ss) n → sc s = length (A ++ (key, v) :: B') →
  subs_ok m h (A ++ (key, v) :: B') ss → sL s = cont h (A ++ (key, v) :: B') ss → sF s = si s :: concat (sF <$> ss) →
  ∃ m' s', set_value (si s) (length A) value m = (Ok v, m') ∧ inserts 0 h m P s key value (Ok (Some v)) m' P s'.
Proof.
  intros Ha Hnd Hs Hn (Nl & Np & Nk) Hsc Hss HL HF. destruct (set_value_run m (si s) n A key v value B' Hn Np) as (n' & Hr & Np' & Lc & Ll).
  eexists _, _. split; [exact Hr|]. split; [|cbn| |lia].
  - eapply (change_node m h P s n n' _ (A ++ (key, value) :: B') ss); try done; [|right; lens].
    split_and!; [congruence|done|by eapply kids_ext].
  - rewrite Hsc, !length_app. cbn. lia.
  - cbn [sL header upd]. destruct (subs_cut _ _ _ _ _ _ Hss) as (S1 & S2 & -> & H1 & H2 & Ec).
    rewrite (proj2 (subs_join _ _ _ (key, value) _ _ _ H1 H2)). rewrite HL, Ec in *.
    destruct (ops_found key v value _ _ Hs) as (El & Ei & _). left. rewrite El, Ei. done.
Qed.

(** The key goes into a leaf. *)
Lemma inserts_leaf m P s n A Bs key value :
  arena m P → NoDup (sF s ++ P) → region m !! si s = Some n → node_is true (A ++ Bs) [] n → sc s = length (A ++ Bs) →
  (length (A ++ Bs) < B)%nat → sL s = A ++ Bs → sF s = [si s] → under key A → over key Bs →
  ∃ n' m' s', insert_pair (length A) key value n = Some n' ∧
    m' = hset (λ h, with_len (u64 (len h + 1)) h) (upd (si s) n' m) ∧ inserts 0 0 m P s key value (Ok None) m' P s'.
Proof.
  intros Ha Hnd Hn (Nl & Np & Nk) Hsc Hlt HL HF HA HB.
  destruct (insert_pair_spec n A Bs key value Np Hlt) as (n' & Hn' & Np' & Lc & Ll). eexists n', _, _. split; [done|]. split; [done|].
  destruct (ops_absent key A Bs HA HB) as (El & Ei & _). split; [| | |lia].
  - apply (change_len 0 m P s (upd (si s) n' m) P _ (u64 (len (header m) + 1))).
    eapply (change_node m 0 P s n n' (A ++ Bs) (A ++ (key, value) :: Bs) []); try done; [|by left].
    split_and!; [by rewrite Ll, Nl|done|by eapply kids_ext].
  - rewrite Hsc, !length_app. cbn. lia.
  - left. rewrite HL, El, Ei. done.
Qed.

(** Around the pair a split has promoted. *)
Lemma insert_promoted fuel h m P p n A kv Bs SA s1 s2 SB key value :
  (∀ s, rep m h s → (sc s < B)%nat → sorted (sL s) → NoDup (sF s ++ P) →
     ∃ r m' P' s', insert_nonfull fuel (si s) key value m = (r, m') ∧ inserts h h m P s key value r m' P' s') →
  focus m h p n A (kv :: Bs) SA s1 (s2 :: SB) → (sc s1 < B ∧ sc s2 < B)%nat → sorted (sL p) → under key A → over key Bs →
  arena m P → NoDup (sF p ++ P) →
  ∃ r m' P' p', (n ← node (si p); med ← lift (keys n !! length A);
    match cmp key med with
    | Eq => old ← set_value (si p) (length A) value; mret (Some old)
    | Gt => next ← lift (children n !! (length A + 1)%nat); insert_nonfull fuel next key value
    | Lt => next ← lift (children n !! length A); insert_nonfull fuel next key value
    end) m = (r, m') ∧ inserts h (S h) m P p key value r m' P' p'.
Proof.
  intros IH Hf [Hc1 Hc2] Hs HA HB Ha Hnd. destruct (focus_node _ _ _ _ _ _ _ _ _ Hf) as [Hn Hni]. rd Hn.
  lf (key_at _ _ _ _ (proj1 (proj2 Hni))). destruct (cmp key kv.1) eqn:E.
  - apply cmp_eq in E. destruct kv as [k v]. cbn in E. subst k. destruct (focus_body _ _ _ _ _ _ _ _ _ Hf) as [Hss HL].
    rewrite <- fmap_cons, <- fmap_app in Hni. pose proof Hf as (_ & _ & (_ & _ & Hsc) & _ & HF & _).
    destruct (inserts_value (S h) m P p n A v Bs (SA ++ s1 :: s2 :: SB) key value) as (m' & p' & Hset & Hi); try done.
    run Hset. eexists _, _, _, _. split; [done|]. eapply inserts_more, Hi. lia.
  - lf (focus_kid _ _ _ _ _ _ _ _ _ Hf).
    destruct (focus_bounds _ _ _ _ _ _ _ _ _ key Hf Hs HA) as (Hu & Ho & Hs1); [by apply over_cons|].
    destruct (IH s1) as (r & m' & P' & s' & Hrun & Hi); [by eapply focus_sub|done|done|by eapply focus_distinct|].
    destruct (inserts_focus _ _ _ _ _ _ _ _ _ _ _ _ _ _ _ _ _ Hf Hnd Hu Ho Hi) as [p' Hi']. by eexists _, _, _, _.
  - apply focus_next in Hf as [_ Hf]. pose proof (focus_kid _ _ _ _ _ _ _ _ _ Hf) as Hkid. rewrite length_app in Hkid. lf Hkid.
    destruct (focus_bounds _ _ _ _ _ _ _ _ _ key Hf Hs) as (Hu & Ho & Hs1); [|done|].
    { apply under_app. split; [done|]. intros x ->%list_elem_of_singleton. by apply cmp_gt. }
    destruct (IH s2) as (r & m' & P' & s' & Hrun & Hi); [by eapply focus_sub|done|done|by eapply focus_distinct|].
    destruct (inserts_focus _ _ _ _ _ _ _ _ _ _ _ _ _ _ _ _ _ Hf Hnd Hu Ho Hi) as [p' Hi']. by eexists _, _, _, _.
Qed.

Lemma insert_nonfull_spec fuel h m P s key value :
  (h < fuel)%nat → rep m h s → (sc s < B)%nat → sorted (sL s) → arena m P → NoDup (sF s ++ P) →
  ∃ r m' P' s', insert_nonfull fuel (si s) key value m = (r, m') ∧ inserts h h m P s key value r m' P' s'.
Proof.
  revert h m P s. induction fuel as [|fuel IH]; intros h m P s Hfuel Hr Hroom Hs Ha Hnd; [lia|]. cbn [insert_nonfull].
  destruct (search_run m h s key Hr Hs) as (n & A & Bs & ss & [Hn Hni] & Hsc & Hss & HL & HF & HA & [ [Hse HB]|(v & B' & -> & Hse)]);
    rewrite (bind_run _ _ _ _ _ Hse); cbv beta iota; rd Hn; cbv iota.
  2:{ destruct (inserts_value h m P s n A v B' ss key value) as (m' & s' & Hset & Hi); try done.
      run Hset. eexists _, _, _, _. split; [done|]. eapply inserts_more, Hi. lia. }
  destruct h as [|h].
  - cbn in Hss. subst ss. destruct (inserts_leaf m P s n A Bs key value) as (n' & m' & s' & Hn' & -> & Hi); try done; [lia|].
    rewrite (proj1 Hni : is_leaf n = true). lf Hn'. wr Hn. erewrite bind_run by reflexivity. by eexists _, _, _, _.
  - rewrite (proj1 Hni : is_leaf n = false).
    destruct (focus_at m h s n A Bs ss Hn Hni Hsc Hss HL HF) as (SA & s0 & SB & -> & Hf).
    destruct (focus_bounds _ _ _ _ _ _ _ _ _ key Hf Hs HA HB) as (Hu & Ho & Hs0).
    pose proof (focus_sub _ _ _ _ _ _ _ _ _ Hf) as [Hsc0 Hr0].
    destruct (focus_distinct _ _ _ _ _ _ _ _ _ P Hf Hnd) as (_ & _ & Hnd0).
    lf (focus_kid _ _ _ _ _ _ _ _ _ Hf). destruct (rep_node _ _ _ Hr0) as (c & Hc & _ & Hcc). rd Hc. rewrite Hcc.
    destruct (Nat.eqb_spec (sc s0) B) as [Hfull|Hnf].
    2:{ destruct (IH h m P s0) as (r & m' & P' & s' & Hrun & Hi); try done; [lia|pose proof (rep_count _ _ _ Hr0); lia|].
        destruct (inserts_focus _ _ _ _ _ _ _ _ _ _ _ _ _ _ _ _ _ Hf Hnd Hu Ho Hi) as [p' Hi']. eexists _, _, _, _.
        split; [done|]. eapply inserts_more, Hi'. lia. }
    destruct (split_child_spec m h s n A Bs SA s0 SB P Hf Hfull ltac:(lia) Ha Hnd)
      as [ [-> Hsp]|(m1 & P1 & p1 & n1 & kv & s1 & s2 & Hsp & Hch & Hf1 & HL1 & [Hc1 Hc2] & Hcut & Hcp & Hlen & HP1)].
    { rewrite (bind_err _ _ _ _ _ Hsp). eexists _, _, [], s. split; [done|]. split; [by apply change_refl|done|by right|cbn; lia]. }
    run Hsp. pose proof Hch as [Cr Ca Csi Cn Cf Cm]. rewrite <- Csi.
    destruct (insert_promoted fuel h m1 P1 p1 n1 A kv Bs SA s1 s2 SB key value) as (r & m' & P' & p' & Hrun & Hi); try done.
    { intros s' ????. apply IH; [lia|done..]. } { blia. } { by rewrite HL1. } { by rewrite Cn. }
    exists r, m', P', p'. split; [done|]. eapply inserts_after; [done|done|lia|done|done|done].
Qed.
End insert.
