(* ===== verification/BTreeDelete.v ===== *)
(** Removal from the ordered map. *)
From stdpp Require Import gmap sorting.
From S2P Require Import Prelude BTree SortedMap BTreeNodes BTreeRep.

Section delete.
Context {K V : Type} `{KeyOrd K}.
Implicit Types (m : SharedBTreeMap K V) (n : BTreeNode K V) (A Bs : list (K * V)) (s p : sub (K := K) (V := V)) (P : list Z).

(** ** The ends of a subtree *)

Lemma max_pair_spec fuel h m s :
  (h < fuel)%nat → rep m h s → (1 ≤ sc s)%nat → ∃ l kv, max_pair fuel (si s) m = (Ok kv, m) ∧ sL s = l ++ [kv].
Proof.
  revert h s. induction fuel as [|fuel IH]; intros h s Hf Hr Hc; [lia|]. cbn [max_pair].
  pose proof Hr as (n & kvs & ss & [Hn Hlf] & [Hp Hk] & Hsc & Hss & HL & HF)%rep_body. rd Hn. destruct h as [|h].
  - rewrite (Hlf : is_leaf n = true). destruct kvs as [|kv kvs _] using rev_ind; [cbn in *; lia|].
    rewrite (po_count _ _ Hp), length_app, Nat.add_comm. cbn [length Nat.add below]. rewrite (bind_run _ _ _ (length kvs) m) by done.
    exists kvs, kv. split; [|done]. unfold lift. by rewrite (pair_at_spec _ _ _ _ Hp).
  - rewrite (Hlf : is_leaf n = false). rewrite <- (app_nil_r kvs) in Hp, Hsc, Hss, HL.
    destruct (focus_at m h s n kvs [] ss Hn) as (SA & s0 & SB & -> & Hfo); try done.
    destruct (focus_sub _ _ _ _ _ _ _ _ _ Hfo) as [Ht Hr0]. rewrite (po_count _ _ Hp), app_nil_r. lf (focus_kid _ _ _ _ _ _ _ _ _ Hfo).
    destruct (IH h s0) as (l & kv & Hrun & E); [lia|done|blia|]. destruct Hfo as (_ & _ & (_ & HB & _) & HL' & _).
    destruct SB; [|done]. exists (pre (sL <$> SA) kvs ++ l), kv. split; [done|]. rewrite HL', E. cbn. by rewrite app_nil_r, (assoc_L (++)).
Qed.

Lemma min_pair_spec fuel h m s :
  (h < fuel)%nat → rep m h s → (1 ≤ sc s)%nat → ∃ l kv, min_pair fuel (si s) m = (Ok kv, m) ∧ sL s = kv :: l.
Proof.
  revert h s. induction fuel as [|fuel IH]; intros h s Hf Hr Hc; [lia|]. cbn [min_pair].
  pose proof Hr as (n & kvs & ss & [Hn Hlf] & [Hp Hk] & Hsc & Hss & HL & HF)%rep_body. rd Hn. destruct h as [|h].
  - rewrite (Hlf : is_leaf n = true). destruct kvs as [|kv kvs]; [cbn in *; lia|].
    exists kvs, kv. split; [|done]. unfold lift. by rewrite (pair_at_spec n [] kv kvs Hp : pair_at n 0 = Some kv).
  - rewrite (Hlf : is_leaf n = false). destruct (focus_at m h s n [] kvs ss Hn) as (SA & s0 & SB & -> & Hfo); try done.
    destruct (focus_sub _ _ _ _ _ _ _ _ _ Hfo) as [Ht Hr0]. lf (focus_kid _ _ _ _ _ _ _ _ _ Hfo).
    destruct (IH h s0) as (l & kv & Hrun & E); [lia|done|blia|]. destruct Hfo as (_ & _ & (HA & _) & HL' & _).
    destruct SA; [|done]. eexists _, kv. split; [done|]. rewrite HL', E. done.
Qed.

Lemma next_kid n CA x y CB A : kids_ok n (CA ++ x :: y :: CB) → length CA = length A → children n !! (length A + 1)%nat = Some y.
Proof.
  intros Hk <-. replace (length CA + 1)%nat with (length (CA ++ [x])) by (by rewrite length_app).
  eapply (kid_at _ _ _ CB). by rewrite <- (assoc_L (++)).
Qed.

(** ** Moving pairs between neighbours

    A parent [px] with the links to [lx] and [rx] around the pair [kv]. The
    links of [lf] nodes are none. *)
Lemma merge_at_run m P px n A kv Bs CA lx rx CB lf l KL CL r KR CR :
  region m !! px = Some n → node_is false (A ++ kv :: Bs) (CA ++ lx :: rx :: CB) n → length CA = length A → length CB = length Bs →
  region m !! lx = Some l → node_is lf KL CL l → region m !! rx = Some r → node_is lf KR CR r →
  (if lf then CL = [] ∧ CR = [] else length CL = length KL + 1 ∧ length CR = length KR + 1)%nat →
  (length KL + 1 + length KR ≤ B)%nat → arena m P → px ∉ P → lx ∉ P → rx ∉ P → px ≠ lx → px ≠ rx → lx ≠ rx →
  ∃ m' n' l' r', merge_at px (length A) m = (Ok tt, m') ∧
    region m' = <[rx := r']> (<[px := n']> (<[lx := l']> (region m))) ∧
    node_is false (A ++ Bs) (CA ++ lx :: CB) n' ∧ node_is lf (KL ++ kv :: KR) (CL ++ CR) l' ∧
    arena m' (rx :: P) ∧ same_map m m' ∧ len (header m') = len (header m).
Proof.
  intros Hn (Nl & Np & Nk) HA HB Hl Hli Hr Hri HC Hle Ha Hp Hlx Hrx N1 N2 N3. pose proof Hli as (Ll & Lp & Lk). pose proof Hri as (Rl & Rp & Rk).
  unfold merge_at. rd Hn.
  assert (children n !! length A = Some lx) as Hk1 by (rewrite <- HA; by eapply kid_at). lf Hk1.
  pose proof (next_kid _ _ _ _ _ _ Nk HA) as Hk2. lf Hk2. rd Hl. lf (pair_at_spec _ _ _ _ Np).
  rewrite (po_count _ _ Lp).
  destruct (set_pair_end l KL kv.1 kv.2 Lp ltac:(lia)) as (l1 & Hl1 & Lp1 & [Lc1 Lf1] & _). lf Hl1. rd Hr.
  rewrite <- surjective_pairing in Lp1. rewrite (po_count _ _ Rp).
  destruct (copy_pairs r (with_count (length KL + 1) l1) [] KR [] (KL ++ [kv])) as (ks & vs & Hks & Hvs & Hpairs).
  { by rewrite app_nil_r. } { done. } { rewrite length_app. cbn. lia. }
  rewrite length_app in Hks, Hvs. cbn [length] in Hks, Hvs. lf Hks. lf Hvs.
  assert (∃ cs, (if is_leaf l then Some (children l) else copy (length KR + 1) 0 (length KL + 1) (children r) (children l)) = Some cs ∧
    ∀ n0, children n0 = cs → kids_ok n0 (CL ++ CR)) as (cs & Hcs & Hkids).
  { rewrite Ll. destruct lf; destruct HC as [HC1 HC2].
    - subst. exists (children l). split; [done|]. intros n0 En. by apply (kids_ext l).
    - destruct (copy_kids r l [] CR [] CL) as (cs & Hcs & Hk); [by rewrite app_nil_r|done|lia|].
      rewrite HC1, HC2 in Hcs. eauto. }
  lf Hcs. wr Hl.
  set (l' := {| count := length KL + 1 + length KR; is_leaf := is_leaf l; keys := ks; children := cs; values := vs |}).
  assert (node_is lf (KL ++ kv :: KR) (CL ++ CR) l') as Hl'.
  { split_and!; [done| |by apply Hkids]. change (KL ++ kv :: KR) with (KL ++ [kv] ++ KR). rewrite (assoc_L (++)).
    apply Hpairs. rewrite length_app. cbn. lia. }
  assert (region (upd lx l' m) !! px = Some n) as Hn2 by (cbn; by rewrite lookup_insert_ne). rd Hn2.
  destruct (remove_pair_spec n A kv Bs Np) as (n1 & Hn1 & Np1 & Nc1 & Nl1). lf Hn1.
  destruct (remove_kid n (CA ++ [lx]) rx CB (length Bs)) as (cs' & Hcs' & Hk'); [by rewrite <- (assoc_L (++))|done|].
  assert (shift_down (length A + 1) (count n - (length A + 1)) (children n) = Some cs') as Hcs2.
  { rewrite (po_count _ _ Np), !length_app. cbn. rewrite length_app, HA in Hcs'. cbn in Hcs'. rewrite <- Hcs'. f_equal. lia. }
  lf Hcs2. wr Hn2. set (n' := with_children cs' n1).
  assert (node_is false (A ++ Bs) (CA ++ lx :: CB) n') as Hn'.
  { split_and!; [cbn; congruence|by eapply pairs_ext|]. rewrite <- (assoc_L (++)) in Hk'. by eapply kids_ext. }
  set (m2 := upd px n' (upd lx l' m)). assert (region m2 !! rx = Some r) as Hr2 by (cbn; by rewrite !lookup_insert_ne).
  assert (arena m2 P) as Ha2.
  { eapply arena_write; [|by eapply node_shape|done|exact Hn2]. eapply arena_write; [done|by eapply node_shape|done|done]. }
  destruct (free_node_spec m2 P rx r Ha2 Hr2 (node_shape _ _ _ _ Hri) Hrx) as (r' & m' & Hfree & Hreg & _ & Ha' & Hsm & Hln).
  exists m', n', l', r'. done.
Qed.
Lemma borrow_left_run m P px n A kv Bs CA lx cx CB lf l KL top CL CT c KC CC :
  region m !! px = Some n → node_is false (A ++ kv :: Bs) (CA ++ lx :: cx :: CB) n → length CA = length A →
  region m !! lx = Some l → node_is lf (KL ++ [top]) (CL ++ CT) l → region m !! cx = Some c → node_is lf KC CC c →
  (if lf then CL = [] ∧ CT = [] ∧ CC = [] else length CL = length KL + 1 ∧ length CT = 1 ∧ length CC = length KC + 1)%nat →
  (length KC < B)%nat → arena m P → px ∉ P → lx ∉ P → cx ∉ P → px ≠ lx → px ≠ cx → lx ≠ cx →
  ∃ m' n' l' c', borrow_from_left px (length A + 1) m = (Ok tt, m') ∧
    region m' = <[lx := l']> (<[px := n']> (<[cx := c']> (region m))) ∧
    node_is false (A ++ top :: Bs) (CA ++ lx :: cx :: CB) n' ∧ node_is lf KL CL l' ∧ node_is lf (kv :: KC) (CT ++ CC) c' ∧
    arena m' P ∧ same_map m m' ∧ len (header m') = len (header m).
Proof.
  intros Hn (Nl & Np & Nk) HA Hl (Ll & Lp & Lk) Hc (Cl & Cp & Ck) HC Hlt Ha Hp Hlx Hcx N1 N2 N3.
  unfold borrow_from_left. rd Hn. pose proof (next_kid _ _ _ _ _ _ Nk HA) as Hk2. lf Hk2. rewrite Nat.add_comm. cbn [Nat.add below].
  rewrite (bind_run _ _ _ (length A) m) by done. cbv beta.
  assert (children n !! length A = Some lx) as Hk1 by (rewrite <- HA; by eapply kid_at). lf Hk1. rd Hc. rd Hl.
  lf (pair_at_spec _ _ _ _ Np). destruct (insert_pair_spec c [] KC kv.1 kv.2 Cp Hlt) as (c1 & Hc1 & Cp1 & Cc1 & Cl1).
  lf (Hc1 : insert_pair 0 kv.1 kv.2 c = Some c1). rewrite <- surjective_pairing in Cp1.
  rewrite (po_count _ _ Cp), (po_count _ _ Lp), length_app, (Nat.add_comm (length KL)). cbn [length Nat.add below].
  assert (∃ cs, (if is_leaf c then Some (children c) else last ← children l !! S (length KL); insert_at 0 (length KC + 1) last (children c)) = Some cs ∧
    ∀ n0, children n0 = cs → kids_ok n0 (CT ++ CC)) as (cs & Hcs & Hkids).
  { rewrite Cl. destruct lf; [destruct HC as (-> & -> & ->)|destruct HC as (HC1 & HC2 & HC3)].
    - exists (children c). split; [done|]. intros n0 En. by apply (kids_ext c).
    - destruct CT as [|t [|? ?] ]; [done| |done]. replace (S (length KL)) with (length CL) by lia.
      rewrite (kid_at _ _ _ _ Lk). cbn [mbind option_bind].
      destruct (insert_kid c [] CC t (length KC + 1) Ck) as (cs & Hcs & Hk); [cbn; lia|done|].
      exists cs. split; [done|]. intros n0 En. by eapply kids_ext. }
  lf Hcs. rewrite (bind_run _ _ _ (length KL) m) by done. cbv beta. lf (pair_at_spec _ _ _ _ Lp).
  destruct (set_pair_spec n A kv Bs top.1 top.2 Np) as (n' & Hn' & Np' & Nc' & Nl'). lf Hn'. rewrite <- surjective_pairing in Np'.
  wr Hc. set (c' := with_children cs c1). set (m1 := upd cx c' m).
  assert (region m1 !! px = Some n) as Hn1 by (cbn; by rewrite lookup_insert_ne). wr Hn1. set (m2 := upd px n' m1).
  assert (region m2 !! lx = Some l) as Hl2 by (cbn; by rewrite !lookup_insert_ne). rd Hl2. rewrite (write_run _ _ _ _ Hl2).
  assert (node_is false (A ++ top :: Bs) (CA ++ lx :: cx :: CB) n') as Hni by (split_and!; [congruence|done|by eapply kids_ext]).
  assert (node_is lf KL CL (with_count (length KL) l)) as Hli by (split_and!; [done|by eapply with_count_pairs|by eapply kids_ext; [eapply kids_prefix|] ]).
  assert (node_is lf (kv :: KC) (CT ++ CC) c') as Hci by (split_and!; [cbn; congruence|by eapply pairs_ext|by apply Hkids]).
  eexists _, n', _, c'. split; [done|]. split; [done|]. do 3 (split; [done|]). split; [|done].
  eapply arena_write; [|by eapply node_shape|done|exact Hl2]. eapply arena_write; [|by eapply node_shape|done|exact Hn1].
  eapply arena_write; [done|by eapply node_shape|done|done].
Qed.

Lemma borrow_right_run m P px n A kv Bs CA cx rx CB lf c KC CC r low KR CT CR :
  region m !! px = Some n → node_is false (A ++ kv :: Bs) (CA ++ cx :: rx :: CB) n → length CA = length A →
  region m !! cx = Some c → node_is lf KC CC c → region m !! rx = Some r → node_is lf (low :: KR) (CT ++ CR) r →
  (if lf then CT = [] ∧ CR = [] ∧ CC = [] else length CT = 1 ∧ length CR = length KR + 1 ∧ length CC = length KC + 1)%nat →
  (length KC < B)%nat → arena m P → px ∉ P → cx ∉ P → rx ∉ P → px ≠ cx → px ≠ rx → cx ≠ rx →
  ∃ m' n' c' r', borrow_from_right px (length A) m = (Ok tt, m') ∧
    region m' = <[rx := r']> (<[px := n']> (<[cx := c']> (region m))) ∧
    node_is false (A ++ low :: Bs) (CA ++ cx :: rx :: CB) n' ∧ node_is lf (KC ++ [kv]) (CC ++ CT) c' ∧ node_is lf KR CR r' ∧
    arena m' P ∧ same_map m m' ∧ len (header m') = len (header m).
Proof.
  intros Hn (Nl & Np & Nk) HA Hc (Cl & Cp & Ck) Hr (Rl & Rp & Rk) HC Hlt Ha Hp Hcx Hrx N1 N2 N3.
  unfold borrow_from_right. rd Hn. assert (children n !! length A = Some cx) as Hk1 by (rewrite <- HA; by eapply kid_at). lf Hk1.
  pose proof (next_kid _ _ _ _ _ _ Nk HA) as Hk2. lf Hk2. rd Hc. rd Hr. lf (pair_at_spec _ _ _ _ Np).
  rewrite (po_count _ _ Cp). destruct (set_pair_end c KC kv.1 kv.2 Cp Hlt) as (c1 & Hc1 & Cp1 & [Cc1 Cl1] & _). lf Hc1.
  rewrite <- surjective_pairing in Cp1.
  assert (∃ cs, (if is_leaf c then Some (children c) else first ← children r !! 0%nat; aset (length KC + 1) first (children c)) = Some cs ∧
    ∀ n0, children n0 = cs → kids_ok n0 (CC ++ CT)) as (cs & Hcs & Hkids).
  { rewrite Cl. destruct lf; [destruct HC as (-> & -> & ->)|destruct HC as (HC1 & HC2 & HC3)].
    - exists (children c). split; [done|]. intros n0 En. by apply (kids_ext c).
    - destruct CT as [|t [|? ?] ]; [done| |done]. rewrite (kid_at r [] t CR Rk : children r !! 0%nat = Some t). cbn [mbind option_bind].
      destruct (set_kid_end c CC t Ck) as (cs & Hcs & Hk); [lia|]. rewrite HC3 in Hcs.
      exists cs. split; [done|]. intros n0 En. by eapply kids_ext. }
  lf Hcs. lf (pair_at_spec r [] low KR Rp : pair_at r 0 = Some low).
  destruct (set_pair_spec n A kv Bs low.1 low.2 Np) as (n' & Hn' & Np' & Nc' & Nl'). lf Hn'. rewrite <- surjective_pairing in Np'.
  wr Hc. set (c' := with_count (length KC + 1) (with_children cs c1)). set (m1 := upd cx c' m).
  assert (region m1 !! px = Some n) as Hn1 by (cbn; by rewrite lookup_insert_ne). wr Hn1. set (m2 := upd px n' m1).
  assert (region m2 !! rx = Some r) as Hr2 by (cbn; by rewrite !lookup_insert_ne). rd Hr2.
  destruct (remove_pair_spec r [] low KR Rp) as (r1 & Hr1 & Rp1 & Rc1 & Rl1). lf (Hr1 : remove_pair 0 r = Some r1).
  assert (∃ rs, (if is_leaf c then Some (children r) else shift_down 0 (count r) (children r)) = Some rs ∧
    ∀ n0, children n0 = rs → kids_ok n0 CR) as (rs & Hrs & Hrkids).
  { rewrite Cl. destruct lf; [destruct HC as (-> & -> & ->)|destruct HC as (HC1 & HC2 & HC3)].
    - exists (children r). split; [done|]. intros n0 En. by apply (kids_ext r).
    - destruct CT as [|t [|? ?] ]; [done| |done]. rewrite (po_count _ _ Rp).
      destruct (remove_kid r [] t CR (length (low :: KR)) Rk) as (rs & Hrs & Hk); [cbn; lia|].
      exists rs. split; [done|]. intros n0 En. by eapply kids_ext. }
  lf Hrs. rewrite (write_run _ _ _ _ Hr2). set (r' := with_children rs r1).
  assert (node_is false (A ++ low :: Bs) (CA ++ cx :: rx :: CB) n') as Hni by (split_and!; [congruence|done|by eapply kids_ext]).
  assert (node_is lf (KC ++ [kv]) (CC ++ CT) c') as Hci by (split_and!; [cbn; congruence|by eapply pairs_ext|by apply Hkids]).
  assert (node_is lf KR CR r') as Hri by (split_and!; [cbn; congruence|by eapply pairs_ext|by apply Hrkids]).
  eexists _, n', c', r'. split; [done|]. split; [done|]. do 3 (split; [done|]). split; [|done].
  eapply arena_write; [|by eapply node_shape|done|exact Hr2]. eapply arena_write; [|by eapply node_shape|done|exact Hn1].
  eapply arena_write; [done|by eapply node_shape|done|done].
Qed.
(** ** Neighbours in the tree *)

(** A subtree opened: its node, its pairs and its own subtrees. *)
Definition opened m h s n kvs ss : Prop :=
  (region m !! si s = Some n ∧ node_is (bool_decide (h = 0%nat)) kvs (si <$> ss) n) ∧ sc s = length kvs ∧ subs_ok m h kvs ss ∧
  sL s = cont h kvs ss ∧ sF s = si s :: concat (sF <$> ss).

Lemma rep_opened m h s : rep m h s → ∃ n kvs ss, opened m h s n kvs ss.
Proof. intros (n & kvs & ss & [? ?] & [? ?] & ?)%rep_body. by exists n, kvs, ss. Qed.

(** How many links a node has. *)
Lemma subs_links m h kvs ss :
  subs_ok m h kvs ss → if bool_decide (h = 0%nat) then si <$> ss = [] else length (si <$> ss) = (length kvs + 1)%nat.
Proof.
  intros Hss. destruct h as [|h]; [by cbn in Hss; subst|]. rewrite bool_decide_false, length_fmap, (subs_length _ _ _ _ Hss) by done. lia.
Qed.

Lemma two_kids m h p n A kv Bs SA s1 s2 SB P n1 K1 S1 n2 K2 S2 :
  focus m h p n A (kv :: Bs) SA s1 (s2 :: SB) → NoDup (sF p ++ P) → opened m h s1 n1 K1 S1 → opened m h s2 n2 K2 S2 →
  (si p ∉ P ∧ si s1 ∉ P ∧ si s2 ∉ P) ∧ (si p ≠ si s1 ∧ si p ≠ si s2 ∧ si s1 ≠ si s2) ∧
  ∀ y, y ∈ concat (sF <$> S1) ++ concat (sF <$> S2) → y ≠ si p ∧ y ≠ si s1 ∧ y ≠ si s2.
Proof.
  intros (_ & _ & _ & _ & HF & _) Hnd (_ & _ & _ & _ & HF1) (_ & _ & _ & _ & HF2).
  assert (sF p ++ P ≡ₚ [si p; si s1; si s2] ++ (concat (sF <$> S1) ++ concat (sF <$> S2)) ++ (concat (sF <$> SA) ++ concat (sF <$> SB)) ++ P) as Hperm.
  { rewrite HF, fmap_app, concat_app. cbn. rewrite HF1, HF2. solve_Permutation. }
  rewrite Hperm in Hnd. apply NoDup_app in Hnd as (N1 & N2 & _). rewrite !NoDup_cons in N1.
  assert (∀ x, x ∈ [si p; si s1; si s2] → x ∉ P) as HP by (intros x Hx Hx'; apply (N2 x Hx); mem).
  assert (∀ y, y ∈ concat (sF <$> S1) ++ concat (sF <$> S2) → y ∉ [si p; si s1; si s2]) as Hy.
  { intros y Hy Hx. apply (N2 y Hx). apply elem_of_app. by left. }
  rewrite !not_elem_of_cons in N1. destruct N1 as (N11 & N12 & _). split; [split_and!; apply HP; mem|]. split; [tauto|].
  intros y Hyy. specialize (Hy y Hyy). rewrite !not_elem_of_cons in Hy. tauto.
Qed.

(** What a change of the three nodes leaves alone. *)
Lemma two_kids_kept m h p n A kv Bs SA s1 s2 SB P m' :
  focus m h p n A (kv :: Bs) SA s1 (s2 :: SB) → NoDup (sF p ++ P) →
  (∀ y, y ≠ si p → y ≠ si s1 → y ≠ si s2 → region m' !! y = region m !! y) →
  (∀ y, y ∈ concat (sF <$> SA) ++ concat (sF <$> SB) → region m' !! y = region m !! y) ∧
  (∀ y, y ∉ sF p → region m' !! y = region m !! y).
Proof.
  intros Hf Hnd Hreg. pose proof (focus_nodes _ _ _ _ _ _ _ _ _ _ Hf Hnd) as Hk1.
  pose proof Hf as Hf2. apply focus_next in Hf2 as [_ Hf2]. pose proof (focus_nodes _ _ _ _ _ _ _ _ _ _ Hf2 Hnd) as Hk2.
  destruct (focus_sub _ _ _ _ _ _ _ _ _ Hf) as [_ R1]. destruct (focus_sub _ _ _ _ _ _ _ _ _ Hf2) as [_ R2].
  pose proof (rep_self _ _ _ R1) as I1. pose proof (rep_self _ _ _ R2) as I2. pose proof Hf as (_ & _ & _ & _ & HF & _). split.
  - intros y Hy. destruct (Hk1 y) as (? & ? & _); [cbn; revert Hy; mem|]. destruct (Hk2 y) as (_ & ? & _).
    { rewrite fmap_app, concat_app. revert Hy. mem. } apply Hreg; [done|by intros ->..].
  - intros y Hy. apply Hreg; intros ->; apply Hy; rewrite HF, fmap_app, concat_app; cbn; mem.
Qed.

Lemma two_kids_change m h p n A kv Bs SA s1 s2 SB P m' n' kv' s1' s2' :
  focus m h p n A (kv :: Bs) SA s1 (s2 :: SB) → NoDup (sF p ++ P) →
  region m' !! si p = Some n' → node_is false (A ++ kv' :: Bs) ((si <$> SA) ++ si s1 :: si s2 :: (si <$> SB)) n' →
  good m' h s1' → good m' h s2' → si s1' = si s1 → si s2' = si s2 →
  sF s1' ++ sF s2' ≡ₚ sF s1 ++ sF s2 → sL s1' ++ kv' :: sL s2' = sL s1 ++ kv :: sL s2 →
  (∀ y, y ≠ si p → y ≠ si s1 → y ≠ si s2 → region m' !! y = region m !! y) → arena m' P → same_map m m' →
  ∃ p', change (S h) m P p m' P p' ∧ focus m' h p' n' A (kv' :: Bs) SA s1' (s2' :: SB) ∧ sL p' = sL p ∧ sc p' = sc p.
Proof.
  intros Hf Hnd Hn' (Nl & Np & Nk) G1 G2 E1 E2 HFs HLs Hreg Ha Hsm. pose proof Hf as (_ & _ & (HA & HB & Hsc) & HL & HF & Hg).
  destruct (two_kids_kept _ _ _ _ _ _ _ _ _ _ _ _ _ Hf Hnd Hreg) as (Hkept & Hfr).
  apply Forall_app in Hg as [HgA HgB]. apply Forall_cons in HgB as [_ HgB]. apply Forall_cons in HgB as [_ HgB].
  set (p' := {| si := si p; sc := sc p; sL := sL p; sF := si p :: concat (sF <$> SA ++ s1' :: s2' :: SB) |}).
  assert (focus m' h p' n' A (kv' :: Bs) SA s1' (s2' :: SB)) as Hf'.
  { split; [done|]. split; [split; [done|]|]. { rewrite fmap_app. cbn. by rewrite E1, E2. }
    split; [split_and!; [done|done|cbn; rewrite Hsc, !length_app; done]|]. split; [|split; [done|] ].
    - cbn [sL p' fmap list_fmap] in *. rewrite HL, !post_cons. f_equal. by rewrite !app_comm_cons, !(assoc_L (++)), HLs.
    - apply Forall_app. split; [eapply good_ext; [|done]; intros y Hy; apply Hkept; mem|].
      do 2 (apply Forall_cons; split; [done|]). eapply good_ext; [|done]; intros y Hy; apply Hkept; mem. }
  exists p'. split; [|done]. split; [by eapply focus_rep|done|done| | |done].
  - rewrite HF. cbn. rewrite !fmap_app, !concat_app. cbn. rewrite (assoc_L (++) (sF s1')), HFs. solve_Permutation.
  - intros y Hy. apply Hfr. intros E. apply Hy. mem.
Qed.
Lemma two_kids_merge m h p n A kv Bs SA s1 s2 SB P m' n' s' :
  focus m h p n A (kv :: Bs) SA s1 (s2 :: SB) → NoDup (sF p ++ P) →
  region m' !! si p = Some n' → node_is false (A ++ Bs) ((si <$> SA) ++ si s1 :: (si <$> SB)) n' →
  good m' h s' → si s' = si s1 → si s2 :: sF s' ≡ₚ sF s1 ++ sF s2 → sL s' = sL s1 ++ kv :: sL s2 →
  (∀ y, y ≠ si p → y ≠ si s1 → y ≠ si s2 → region m' !! y = region m !! y) → arena m' (si s2 :: P) → same_map m m' →
  ∃ p', change (S h) m P p m' (si s2 :: P) p' ∧ focus m' h p' n' A Bs SA s' SB ∧ sL p' = sL p ∧ S (sc p') = sc p.
Proof.
  intros Hf Hnd Hn' (Nl & Np & Nk) G E HFs HLs Hreg Ha Hsm. pose proof Hf as (_ & _ & (HA & HB & Hsc) & HL & HF & Hg).
  destruct (two_kids_kept _ _ _ _ _ _ _ _ _ _ _ _ _ Hf Hnd Hreg) as (Hkept & Hfr).
  apply Forall_app in Hg as [HgA HgB]. apply Forall_cons in HgB as [_ HgB]. apply Forall_cons in HgB as [_ HgB].
  set (p' := {| si := si p; sc := length (A ++ Bs); sL := sL p; sF := si p :: concat (sF <$> SA ++ s' :: SB) |}).
  assert (focus m' h p' n' A Bs SA s' SB) as Hf'.
  { split; [done|]. split; [split; [done|]|]. { rewrite fmap_app. cbn. by rewrite E. }
    split; [split_and!; [done|cbn in HB; lia|done]|]. split; [|split; [done|] ].
    - cbn [sL p' fmap list_fmap] in *. rewrite HL, post_cons, HLs. f_equal. by rewrite !app_comm_cons, !(assoc_L (++)).
    - apply Forall_app. split; [eapply good_ext; [|done]; intros y Hy; apply Hkept; mem|].
      apply Forall_cons; split; [done|]. eapply good_ext; [|done]; intros y Hy; apply Hkept; mem. }
  exists p'. split; [|split_and!; [done|done|cbn; rewrite Hsc, !length_app; cbn; lia]].
  split; [by eapply focus_rep|done|done| | |done].
  - rewrite HF. cbn. rewrite !fmap_app, !concat_app. cbn. rewrite (assoc_L (++) (sF s1)), <- HFs. solve_Permutation.
  - intros y Hy. apply Hfr. intros Ey. apply Hy. mem.
Qed.

(** ** The three operations *)

Lemma merge_at_spec m h p n A kv Bs SA s1 s2 SB P :
  focus m h p n A (kv :: Bs) SA s1 (s2 :: SB) → NoDup (sF p ++ P) → arena m P → (sc s1 + 1 + sc s2 ≤ B)%nat →
  ∃ m' P' p' n' s', merge_at (si p) (length A) m = (Ok tt, m') ∧ change (S h) m P p m' P' p' ∧ focus m' h p' n' A Bs SA s' SB ∧
    (sL p' = sL p ∧ S (sc p') = sc p) ∧ (sc s' = sc s1 + 1 + sc s2)%nat ∧ si s' = si s1 ∧ sL s' = sL s1 ++ kv :: sL s2 ∧
    len (header m') = len (header m).
Proof.
  intros Hf Hnd Ha Hle. destruct (focus_node _ _ _ _ _ _ _ _ _ Hf) as [Hn Hni]. pose proof Hf as (_ & _ & (HA & HB & _) & _).
  destruct (focus_sub _ _ _ _ _ _ _ _ _ Hf) as [Ht1 R1]. pose proof Hf as Hf2. apply focus_next in Hf2 as [_ Hf2].
  destruct (focus_sub _ _ _ _ _ _ _ _ _ Hf2) as [_ R2].
  destruct (rep_opened _ _ _ R1) as (l & KL & SL & O1). destruct (rep_opened _ _ _ R2) as (r & KR & SR & O2).
  destruct (two_kids _ _ _ _ _ _ _ _ _ _ _ P _ _ _ _ _ _ Hf Hnd O1 O2) as ((P1 & P2 & P3) & (N1 & N2 & N3) & Hk).
  destruct O1 as ([Hl Hli] & Hsc1 & Hss1 & HL1 & HF1). destruct O2 as ([Hr Hri] & Hsc2 & Hss2 & HL2 & HF2).
  pose proof (subs_links _ _ _ _ Hss1) as HC1. pose proof (subs_links _ _ _ _ Hss2) as HC2.
  destruct (merge_at_run m P (si p) n A kv Bs (si <$> SA) (si s1) (si s2) (si <$> SB) (bool_decide (h = 0%nat)) l KL (si <$> SL) r KR (si <$> SR))
    as (m' & n' & l' & r' & Hrun & Hreg & Hn' & Hl' & Ha' & Hsm & Hln); try done; try (by rewrite length_fmap); try lia.
  { rewrite length_fmap. cbn in HB. lia. } { by destruct (bool_decide (h = 0%nat)). }
  assert (∀ y, y ≠ si p → y ≠ si s1 → y ≠ si s2 → region m' !! y = region m !! y) as Hfr by (intros y ???; by rewrite Hreg, !lookup_insert_ne by done).
  set (s' := {| si := si s1; sc := (sc s1 + 1 + sc s2)%nat; sL := sL s1 ++ kv :: sL s2; sF := si s1 :: concat (sF <$> SL ++ SR) |}).
  assert (∀ y, y ∈ concat (sF <$> SL) ++ concat (sF <$> SR) → region m' !! y = region m !! y) as Hkept.
  { intros y Hy. destruct (Hk y Hy) as (? & ? & ?). by apply Hfr. }
  destruct (subs_join m' h KL kv KR SL SR) as [Hss Hc].
  { eapply subs_ext; [|done]. intros y Hy. apply Hkept. mem. } { eapply subs_ext; [|done]. intros y Hy. apply Hkept. mem. }
  assert (good m' h s') as Hg.
  { split; [cbn; lia|]. eapply (rep_build m' h s' l'); cbn; try done.
    - rewrite Hreg, !lookup_insert_ne, lookup_insert_eq by done. done.
    - by rewrite fmap_app.
    - rewrite Hsc1, Hsc2, length_app. cbn. lia.
    - by rewrite HL1, HL2, Hc. }
  destruct (two_kids_merge m h p n A kv Bs SA s1 s2 SB P m' n' s') as (p' & Hch & Hf' & HLp & Hscp); try done.
  { by rewrite Hreg, lookup_insert_ne, lookup_insert_eq by done. }
  { rewrite HF1, HF2. cbn. rewrite fmap_app, concat_app. solve_Permutation. }
  by exists m', (si s2 :: P), p', n', s'.
Qed.
Lemma borrow_left_spec m h p n A kv Bs SA s1 s2 SB P :
  focus m h p n A (kv :: Bs) SA s1 (s2 :: SB) → NoDup (sF p ++ P) → arena m P → (T ≤ sc s1)%nat → (sc s2 < B)%nat →
  ∃ m' p' n' kv' s1' s2' x, borrow_from_left (si p) (length A + 1) m = (Ok tt, m') ∧ change (S h) m P p m' P p' ∧
    focus m' h p' n' A (kv' :: Bs) SA s1' (s2' :: SB) ∧ (sL p' = sL p ∧ sc p' = sc p) ∧
    (sc s2' = S (sc s2) ∧ si s2' = si s2) ∧ (sL s1 = sL s1' ++ kv' :: x ∧ sL s2' = x ++ kv :: sL s2) ∧
    len (header m') = len (header m).
Proof.
  intros Hf Hnd Ha Hsp Hroom. destruct (focus_node _ _ _ _ _ _ _ _ _ Hf) as [Hn Hni]. pose proof Hf as (_ & _ & (HA & HB & _) & _).
  destruct (focus_sub _ _ _ _ _ _ _ _ _ Hf) as [_ R1]. pose proof Hf as Hf2. apply focus_next in Hf2 as [_ Hf2].
  destruct (focus_sub _ _ _ _ _ _ _ _ _ Hf2) as [Ht2 R2].
  destruct (rep_opened _ _ _ R1) as (l & K1 & S1 & O1). destruct (rep_opened _ _ _ R2) as (c & KC & SC & O2).
  destruct (two_kids _ _ _ _ _ _ _ _ _ _ _ P _ _ _ _ _ _ Hf Hnd O1 O2) as ((P1 & P2 & P3) & (N1 & N2 & N3) & Hk).
  destruct O1 as ([Hl Hli] & Hsc1 & Hss1 & HL1 & HF1). destruct O2 as ([Hc Hci] & Hsc2 & Hss2 & HL2 & HF2).
  destruct K1 as [|top KL _] using rev_ind; [cbn in *; blia|].
  destruct (subs_cut _ _ _ _ _ _ Hss1) as (SL & ST & -> & HSL & HST & Ec). rewrite fmap_app in Hli. rewrite length_app in Hsc1. cbn in Hsc1.
  pose proof (subs_links _ _ _ _ HSL) as HC1. pose proof (subs_links _ _ _ _ HST) as HC2. pose proof (subs_links _ _ _ _ Hss2) as HC3.
  destruct (borrow_left_run m P (si p) n A kv Bs (si <$> SA) (si s1) (si s2) (si <$> SB) (bool_decide (h = 0%nat)) l KL top (si <$> SL) (si <$> ST)
    c KC (si <$> SC)) as (m' & n' & l' & c' & Hrun & Hreg & Hn' & Hl' & Hc' & Ha' & Hsm & Hln); try done; try (by rewrite length_fmap); try lia.
  { by destruct (bool_decide (h = 0%nat)). }
  assert (∀ y, y ≠ si p → y ≠ si s1 → y ≠ si s2 → region m' !! y = region m !! y) as Hfr by (intros y ???; by rewrite Hreg, !lookup_insert_ne by done).
  assert (∀ y, y ∈ concat (sF <$> SL ++ ST) ++ concat (sF <$> SC) → region m' !! y = region m !! y) as Hkept.
  { intros y Hy. destruct (Hk y Hy) as (? & ? & ?). by apply Hfr. }
  rewrite fmap_app, concat_app in Hkept.
  set (s1' := {| si := si s1; sc := length KL; sL := cont h KL SL; sF := si s1 :: concat (sF <$> SL) |}).
  set (s2' := {| si := si s2; sc := S (sc s2); sL := cont h [] ST ++ kv :: sL s2; sF := si s2 :: concat (sF <$> ST ++ SC) |}).
  destruct (subs_join m' h [] kv KC ST SC) as [Hss Hcc].
  { eapply subs_ext; [|done]. intros y Hy. apply Hkept. mem. } { eapply subs_ext; [|done]. intros y Hy. apply Hkept. mem. }
  assert (good m' h s1') as G1.
  { split; [cbn; blia|]. eapply (rep_build m' h s1' l' KL SL); try done; [cbn; by rewrite Hreg, lookup_insert_eq|].
    eapply subs_ext; [|done]. intros y Hy. apply Hkept. mem. }
  assert (good m' h s2') as G2.
  { split; [cbn; lia|]. eapply (rep_build m' h s2' c' ([] ++ kv :: KC)); cbn [si sc sL sF s2']; try done.
    - by rewrite Hreg, !lookup_insert_ne, lookup_insert_eq by done.
    - by rewrite fmap_app.
    - rewrite Hsc2. done.
    - by rewrite HL2, Hcc. }
  destruct (two_kids_change m h p n A kv Bs SA s1 s2 SB P m' n' top s1' s2') as (p' & Hch & Hf' & HLp & Hscp); try done.
  { by rewrite Hreg, lookup_insert_ne, lookup_insert_eq by done. }
  { rewrite HF1, HF2. cbn. rewrite !fmap_app, !concat_app. solve_Permutation. }
  { cbn. rewrite HL1, Ec. by rewrite <- (assoc_L (++)). }
  exists m', p', n', top, s1', s2', (cont h [] ST). split; [done|]. split; [done|]. split; [done|]. split; [done|]. split; [done|].
  split; [|done]. split; [by rewrite HL1, Ec|done].
Qed.

Lemma borrow_right_spec m h p n A kv Bs SA s1 s2 SB P :
  focus m h p n A (kv :: Bs) SA s1 (s2 :: SB) → NoDup (sF p ++ P) → arena m P → (T ≤ sc s2)%nat → (sc s1 < B)%nat →
  ∃ m' p' n' kv' s1' s2' x, borrow_from_right (si p) (length A) m = (Ok tt, m') ∧ change (S h) m P p m' P p' ∧
    focus m' h p' n' A (kv' :: Bs) SA s1' (s2' :: SB) ∧ (sL p' = sL p ∧ sc p' = sc p) ∧
    (sc s1' = S (sc s1) ∧ si s1' = si s1) ∧ (sL s2 = x ++ kv' :: sL s2' ∧ sL s1' = sL s1 ++ kv :: x) ∧
    len (header m') = len (header m).
Proof.
  intros Hf Hnd Ha Hsp Hroom. destruct (focus_node _ _ _ _ _ _ _ _ _ Hf) as [Hn Hni]. pose proof Hf as (_ & _ & (HA & HB & _) & _).
  destruct (focus_sub _ _ _ _ _ _ _ _ _ Hf) as [Ht1 R1]. pose proof Hf as Hf2. apply focus_next in Hf2 as [_ Hf2].
  destruct (focus_sub _ _ _ _ _ _ _ _ _ Hf2) as [_ R2].
  destruct (rep_opened _ _ _ R1) as (c & KC & SC & O1). destruct (rep_opened _ _ _ R2) as (r & K2 & S2 & O2).
  destruct (two_kids _ _ _ _ _ _ _ _ _ _ _ P _ _ _ _ _ _ Hf Hnd O1 O2) as ((P1 & P2 & P3) & (N1 & N2 & N3) & Hk).
  destruct O1 as ([Hc Hci] & Hsc1 & Hss1 & HL1 & HF1). destruct O2 as ([Hr Hri] & Hsc2 & Hss2 & HL2 & HF2).
  destruct K2 as [|low KR]; [cbn in *; blia|].
  destruct (subs_cut m h [] low KR S2 Hss2) as (ST & SR & -> & HST & HSR & Ec). rewrite fmap_app in Hri. cbn in Hsc2.
  pose proof (subs_links _ _ _ _ HST) as HC1. pose proof (subs_links _ _ _ _ HSR) as HC2. pose proof (subs_links _ _ _ _ Hss1) as HC3.
  destruct (borrow_right_run m P (si p) n A kv Bs (si <$> SA) (si s1) (si s2) (si <$> SB) (bool_decide (h = 0%nat)) c KC (si <$> SC)
    r low KR (si <$> ST) (si <$> SR)) as (m' & n' & c' & r' & Hrun & Hreg & Hn' & Hc' & Hr' & Ha' & Hsm & Hln);
    try done; try (by rewrite length_fmap); try lia.
  { by destruct (bool_decide (h = 0%nat)). }
  assert (∀ y, y ≠ si p → y ≠ si s1 → y ≠ si s2 → region m' !! y = region m !! y) as Hfr by (intros y ???; by rewrite Hreg, !lookup_insert_ne by done).
  assert (∀ y, y ∈ concat (sF <$> SC) ++ concat (sF <$> ST ++ SR) → region m' !! y = region m !! y) as Hkept.
  { intros y Hy. destruct (Hk y Hy) as (? & ? & ?). by apply Hfr. }
  rewrite fmap_app, concat_app in Hkept.
  set (s1' := {| si := si s1; sc := S (sc s1); sL := sL s1 ++ kv :: cont h [] ST; sF := si s1 :: concat (sF <$> SC ++ ST) |}).
  set (s2' := {| si := si s2; sc := length KR; sL := cont h KR SR; sF := si s2 :: concat (sF <$> SR) |}).
  destruct (subs_join m' h KC kv [] SC ST) as [Hss Hcc].
  { eapply subs_ext; [|done]. intros y Hy. apply Hkept. mem. } { eapply subs_ext; [|done]. intros y Hy. apply Hkept. mem. }
  assert (good m' h s2') as G2.
  { split; [cbn; blia|]. eapply (rep_build m' h s2' r' KR SR); try done; [cbn; by rewrite Hreg, lookup_insert_eq|].
    eapply subs_ext; [|done]. intros y Hy. apply Hkept. mem. }
  assert (good m' h s1') as G1.
  { split; [cbn; lia|]. eapply (rep_build m' h s1' c' (KC ++ kv :: [])); cbn [si sc sL sF s1']; try done.
    - by rewrite Hreg, !lookup_insert_ne, lookup_insert_eq by done.
    - by rewrite fmap_app.
    - rewrite Hsc1, length_app. cbn. lia.
    - by rewrite HL1, Hcc. }
  destruct (two_kids_change m h p n A kv Bs SA s1 s2 SB P m' n' low s1' s2') as (p' & Hch & Hf' & HLp & Hscp); try done.
  { by rewrite Hreg, lookup_insert_ne, lookup_insert_eq by done. }
  { rewrite HF1, HF2. cbn. rewrite !fmap_app, !concat_app. solve_Permutation. }
  { cbn. rewrite HL2. rewrite (Ec : cont h (low :: KR) (ST ++ SR) = _). by rewrite <- (assoc_L (++)). }
  exists m', p', n', low, s1', s2', (cont h [] ST). split; [done|]. split; [done|]. split; [done|]. split; [done|]. split; [done|].
  split; [|done]. split; [by rewrite HL2|done].
Qed.
(** ** Room to remove below a child *)

Lemma has_spare_run m h s : rep m h s → has_spare (si s) m = (Ok (T <=? sc s)%nat, m).
Proof. intros Hr. destruct (rep_node _ _ _ Hr) as (n & Hn & _ & Hc). unfold has_spare. rd Hn. by rewrite Hc. Qed.

(** The child of [p] to descend to, with a pair to spare, the contents of [p] as
    they were and [key] still to be sought in that child. *)
Record prepared h m P p key m' P' p' n A Bs SA s SB : Prop := {
  pr_change : change (S h) m P p m' P' p'; pr_focus : focus m' h p' n A Bs SA s SB;
  pr_contents : sL p' = sL p; pr_count : (sc p ≤ S (sc p') ∧ sc p' ≤ sc p)%nat; pr_spare : (T ≤ sc s)%nat;
  pr_under : under key (pre (sL <$> SA) A); pr_over : over key (post Bs (sL <$> SB));
  pr_len : len (header m') = len (header m) }.

Definition prepares h m P p key (c : M Z) : Prop :=
  ∃ m' P' p' n A Bs SA s SB, c m = (Ok (si s), m') ∧ prepared h m P p key m' P' p' n A Bs SA s SB.

(** The left neighbour, when there is one. *)
Lemma left_neighbour m h p n A Bs SA s SB :
  focus m h p n A Bs SA s SB → A = [] ∧ SA = [] ∨
  ∃ A0 kv SA0 s0, A = A0 ++ [kv] ∧ SA = SA0 ++ [s0] ∧ focus m h p n A0 (kv :: Bs) SA0 s0 (s :: SB) ∧
    pre (sL <$> SA) A = pre (sL <$> SA0) A0 ++ sL s0 ++ [kv].
Proof.
  intros Hf. pose proof Hf as (_ & _ & (HA & _) & _). destruct A as [|kv A0 _] using rev_ind; [left; by destruct SA|right].
  destruct SA as [|s0 SA0 _] using rev_ind; [rewrite length_app in HA; cbn in HA; lia|]. rewrite !length_app in HA. cbn in HA.
  exists A0, kv, SA0, s0. split; [done|]. split; [done|]. split; [apply focus_next; split; [lia|done]|].
  rewrite fmap_app. cbn. apply pre_snoc. rewrite length_fmap. lia.
Qed.

Lemma right_neighbour m h p n A Bs SA s SB :
  focus m h p n A Bs SA s SB → Bs = [] ∧ SB = [] ∨
  ∃ kv B0 s0 SB0, Bs = kv :: B0 ∧ SB = s0 :: SB0 ∧ post Bs (sL <$> SB) = kv :: sL s0 ++ post B0 (sL <$> SB0).
Proof.
  intros (_ & _ & (_ & HB & _) & _). destruct Bs as [|kv B0], SB as [|s0 SB0]; try done; [by left|right]. by exists kv, B0, s0, SB0.
Qed.

Lemma left_spare_run m h p n A Bs SA s SB :
  focus m h p n A Bs SA s SB →
  (match length A with S j => left ← lift (children n !! j); has_spare left | O => mret false end) m =
  (Ok (match last SA with Some s0 => (T <=? sc s0)%nat | None => false end), m).
Proof.
  intros Hf. destruct (left_neighbour _ _ _ _ _ _ _ _ _ Hf) as [ [-> ->]|(A0 & kv & SA0 & s0 & -> & -> & Hf0 & _)]; [done|].
  rewrite length_app, Nat.add_comm, last_snoc. cbn [length Nat.add]. lf (focus_kid _ _ _ _ _ _ _ _ _ Hf0).
  eapply has_spare_run, (focus_sub _ _ _ _ _ _ _ _ _ Hf0).
Qed.

Lemma right_spare_run m h p n A Bs SA s SB :
  focus m h p n A Bs SA s SB →
  (if (length A <? count n)%nat then right ← lift (children n !! (length A + 1)%nat); has_spare right else mret false) m =
  (Ok (match SB with s0 :: _ => (T <=? sc s0)%nat | [] => false end), m).
Proof.
  intros Hf. destruct (focus_node _ _ _ _ _ _ _ _ _ Hf) as [_ (_ & Hp & _)]. rewrite (po_count _ _ Hp), length_app.
  destruct (right_neighbour _ _ _ _ _ _ _ _ _ Hf) as [ [-> ->]|(kv & B0 & s0 & SB0 & -> & -> & _)].
  - by rewrite (proj2 (Nat.ltb_ge _ _)) by (cbn; lia).
  - rewrite (proj2 (Nat.ltb_lt _ _)) by (cbn; lia). apply focus_next in Hf as [_ Hf].
    pose proof (focus_kid _ _ _ _ _ _ _ _ _ Hf) as Hkid. rewrite length_app in Hkid. lf Hkid.
    eapply has_spare_run, (focus_sub _ _ _ _ _ _ _ _ _ Hf).
Qed.

(** Merge with the right neighbour, or with the left one. *)
Lemma prepare_merge m h p n A kv Bs SA s1 s2 SB P key :
  focus m h p n A (kv :: Bs) SA s1 (s2 :: SB) → NoDup (sF p ++ P) → arena m P → sc s1 = (T - 1)%nat → sc s2 = (T - 1)%nat →
  under key (pre (sL <$> SA) A) → over key (post Bs (sL <$> SB)) →
  prepares h m P p key (_ ← merge_at (si p) (length A); q ← node (si p); lift (children q !! length A)).
Proof.
  intros Hf Hnd Ha H1 H2 Hu Ho.
  destruct (merge_at_spec _ _ _ _ _ _ _ _ _ _ _ P Hf Hnd Ha ltac:(blia)) as (m' & P' & p' & n' & s' & Hrun & Hch & Hf' & [HL Hsc] & Hs' & Hsi & HLs & Hln).
  exists m', P', p', n', A, Bs, SA, s', SB. split; [|split; try done; blia]. run Hrun.
  destruct (focus_node _ _ _ _ _ _ _ _ _ Hf') as [Hn' _]. rewrite (ch_si _ _ _ _ _ _ _ Hch) in Hn'. rd Hn'.
  apply lift_run, (focus_kid _ _ _ _ _ _ _ _ _ Hf').
Qed.

Lemma prepare_left m h p n A kv Bs SA s1 s2 SB P key :
  focus m h p n A (kv :: Bs) SA s1 (s2 :: SB) → NoDup (sF p ++ P) → arena m P → (T ≤ sc s1)%nat → sc s2 = (T - 1)%nat →
  under key (pre (sL <$> SA) A ++ sL s1 ++ [kv]) → over key (post Bs (sL <$> SB)) →
  prepares h m P p key (_ ← borrow_from_left (si p) (length A + 1); mret (si s2)).
Proof.
  intros Hf Hnd Ha H1 H2 Hu Ho. pose proof Hf as (_ & _ & (HA & _) & _).
  destruct (borrow_left_spec _ _ _ _ _ _ _ _ _ _ _ P Hf Hnd Ha H1 ltac:(blia))
    as (m' & p' & n' & kv' & s1' & s2' & x & Hrun & Hch & Hf' & [HL Hsc] & [Hsc2 Hsi2] & [HL1 HL2] & Hln).
  apply focus_next in Hf' as [_ Hf']. exists m', P, p', n', (A ++ [kv']), Bs, (SA ++ [s1']), s2', SB. run Hrun.
  split; [by rewrite Hsi2|]. split; try done; [lia|blia|]. rewrite fmap_app. cbn [fmap list_fmap]. rewrite pre_snoc by (by rewrite length_fmap).
  rewrite HL1 in Hu. intros y Hy. apply Hu. revert Hy. mem.
Qed.

Lemma prepare_right m h p n A Bs SA s SB P key :
  focus m h p n A Bs SA s SB → NoDup (sF p ++ P) → arena m P → (1 ≤ sc p)%nat → sc s = (T - 1)%nat →
  (∀ s0, last SA = Some s0 → (sc s0 < T)%nat) → under key (pre (sL <$> SA) A) → over key (post Bs (sL <$> SB)) →
  prepares h m P p key
    (right_spare ← (if (length A <? count n)%nat then right ← lift (children n !! (length A + 1)%nat); has_spare right else mret false);
     if right_spare : bool then _ ← borrow_from_right (si p) (length A); mret (si s) else merge_child (si p) (length A) (count n)).
Proof.
  intros Hf Hnd Ha Hc Hs Hl Hu Ho. unfold prepares. run (right_spare_run _ _ _ _ _ _ _ _ _ Hf).
  destruct (focus_node _ _ _ _ _ _ _ _ _ Hf) as [_ (_ & Hp & _)]. pose proof (po_count _ _ Hp) as Hcn. rewrite length_app in Hcn.
  destruct (right_neighbour _ _ _ _ _ _ _ _ _ Hf) as [ [-> ->]|(kv & B0 & s0 & SB0 & -> & -> & Ep)].
  - destruct (left_neighbour _ _ _ _ _ _ _ _ _ Hf) as [ [-> ->]|(A0 & kv & SA0 & s0 & -> & -> & Hf0 & Ep)].
    { destruct Hf as (_ & _ & (_ & _ & Hsc) & _). cbn in Hsc. lia. }
    rewrite length_app in *. unfold merge_child. rewrite (proj2 (Nat.ltb_ge _ _)) by (cbn in *; lia).
    rewrite (Nat.add_comm (length A0)). cbn [length Nat.add below]. rewrite (bind_run _ _ _ (length A0) m) by done.
    rewrite Ep in Hu. apply under_app in Hu as [Hu _].
    eapply prepare_merge; try done. specialize (Hl s0 (last_snoc _ _)). destruct (focus_sub _ _ _ _ _ _ _ _ _ Hf0). blia.
  - rewrite Ep in Ho. apply over_cons in Ho as [Hk Ho]. destruct (Nat.leb_spec T (sc s0)) as [Hsp|Hlt].
    + destruct (borrow_right_spec _ _ _ _ _ _ _ _ _ _ _ P Hf Hnd Ha Hsp ltac:(blia))
        as (m' & p' & n' & kv' & s1' & s2' & x & Hrun & Hch & Hf' & [HL Hsc] & [Hsc1 Hsi1] & [HL2 HL1] & Hln).
      exists m', P, p', n', A, (kv' :: B0), SA, s1', (s2' :: SB0). run Hrun. split; [by rewrite Hsi1|].
      split; try done; [lia|blia|]. cbn [fmap list_fmap]. rewrite post_cons. rewrite HL2 in Ho. intros y Hy. apply Ho. revert Hy. mem.
    + unfold merge_child. rewrite (proj2 (Nat.ltb_lt _ _)) by (cbn in *; lia). rewrite (bind_run _ _ _ (length A) m) by done.
      apply over_app in Ho as [_ Ho]. eapply prepare_merge; try done.
      apply focus_next in Hf as [_ Hf]. destruct (focus_sub _ _ _ _ _ _ _ _ _ Hf). blia.
Qed.

Lemma ensure_min_degree_spec m h p n A Bs SA s SB P key :
  focus m h p n A Bs SA s SB → NoDup (sF p ++ P) → arena m P → (1 ≤ sc p)%nat →
  under key (pre (sL <$> SA) A) → over key (post Bs (sL <$> SB)) → prepares h m P p key (ensure_min_degree (si p) (length A)).
Proof.
  intros Hf Hnd Ha Hc Hu Ho. destruct (focus_node _ _ _ _ _ _ _ _ _ Hf) as [Hn (_ & Hp & _)].
  pose proof (focus_sub _ _ _ _ _ _ _ _ _ Hf) as [Ht Hr]. unfold prepares, ensure_min_degree. rd Hn. lf (focus_kid _ _ _ _ _ _ _ _ _ Hf).
  run (has_spare_run _ _ _ Hr). destruct (Nat.leb_spec T (sc s)) as [Hsp|Hlt].
  { exists m, P, p, n, A, Bs, SA, s, SB. split; [done|]. split; try done; [|lia]. apply change_refl; [by eapply focus_rep|done]. }
  run (left_spare_run _ _ _ _ _ _ _ _ _ Hf).
  destruct (left_neighbour _ _ _ _ _ _ _ _ _ Hf) as [ [-> ->]|(A0 & kv & SA0 & s0 & -> & -> & Hf0 & Ep)].
  { eapply prepare_right; try done. blia. }
  rewrite last_snoc. destruct (Nat.leb_spec T (sc s0)) as [Hsp|Hl].
  - rewrite length_app. rewrite Ep in Hu. eapply prepare_left; try done. blia.
  - eapply prepare_right; try done; [blia|]. intros s1. rewrite last_snoc. by intros [= <-].
Qed.
(** ** Removal *)

Record deletes h m P s key m' P' s' : Prop := {
  de_change : change h m P s m' P' s'; de_count : (sc s ≤ S (sc s') ∧ sc s' ≤ sc s)%nat;
  de_contents : sL s' = del key (sL s); de_len : len (header m') = len (header m) }.

Lemma deletes_focus h m P p n A Bs SA s SB key m' P' s' :
  focus m h p n A Bs SA s SB → NoDup (sF p ++ P) → (T ≤ sc s)%nat →
  under key (pre (sL <$> SA) A) → over key (post Bs (sL <$> SB)) → deletes h m P s key m' P' s' →
  ∃ p', deletes (S h) m P p key m' P' p' ∧ sc p' = sc p.
Proof.
  intros Hf Hnd Ht Hu Ho [Hc [Hc1 _] HL Hln].
  destruct (focus_change _ _ _ _ _ _ _ _ _ _ _ _ _ Hf Hnd Hc ltac:(blia)) as [_ Hc']. eexists. split; [split; [exact Hc'|cbn; lia| |done]|done].
  cbn. destruct Hf as (_ & _ & _ & HLp & _). by rewrite HLp, del_mid, HL by done.
Qed.

(** The node of the parent rewritten with other pairs. *)
Lemma focus_write m h p n A Bs SA s SB P n' A' Bs' :
  focus m h p n A Bs SA s SB → arena m P → NoDup (sF p ++ P) → length A' = length A → length Bs' = length Bs →
  pairs_ok n' (A' ++ Bs') → same_links n n' →
  let p' := {| si := si p; sc := sc p; sL := pre (sL <$> SA) A' ++ sL s ++ post Bs' (sL <$> SB); sF := sF p |} in
  focus (upd (si p) n' m) h p' n' A' Bs' SA s SB ∧ change (S h) m P p (upd (si p) n' m) P p'.
Proof.
  intros Hf Ha Hnd HA' HB' Np' [Nc Nl] p'. destruct (focus_distinct _ _ _ _ _ _ _ _ _ P Hf Hnd) as (D1 & D2 & _).
  pose proof (focus_nodes _ _ _ _ _ _ _ _ _ P Hf Hnd) as Hk.
  pose proof Hf as ([Hn Hlf] & [Np Nk] & (HA & HB & Hsc) & HL & HF & Hg).
  apply Forall_app in Hg as [HgA HgB]. apply Forall_cons in HgB as [Hgs HgB].
  assert (focus (upd (si p) n' m) h p' n' A' Bs' SA s SB) as Hf'.
  { split; [cbn; rewrite lookup_insert_eq; by rewrite Nl|]. split; [split; [done|by eapply kids_ext]|].
    split; [cbn; rewrite !length_app in *; lia|]. split; [done|]. split; [done|].
    apply Forall_app. split; [|apply Forall_cons; split].
    - eapply good_ext; [|done]. intros y Hy. cbn. apply lookup_insert_ne. intros <-. destruct (Hk (si p)); [mem|done].
    - eapply (Forall_singleton (good _ h)), (good_ext m); [|by apply Forall_singleton]. intros y Hy. cbn in *. rewrite app_nil_r in Hy.
      apply lookup_insert_ne. by intros <-.
    - eapply good_ext; [|done]. intros y Hy. cbn. apply lookup_insert_ne. intros <-. destruct (Hk (si p)); [mem|done]. }
  split; [done|]. split; try done.
  - by eapply focus_rep.
  - eapply arena_write; [done| |done|done]. eapply ok_shape; [done|by eapply kids_ext].
  - intros y Hy. cbn. rewrite lookup_insert_ne; [done|]. intros <-. apply Hy. rewrite HF. mem.
Qed.

(** From a leaf. *)
Lemma deletes_leaf m P s n A v B' key :
  arena m P → NoDup (sF s ++ P) → sorted (sL s) → region m !! si s = Some n → node_is true (A ++ (key, v) :: B') [] n →
  sc s = length (A ++ (key, v) :: B') → sL s = A ++ (key, v) :: B' → sF s = [si s] →
  ∃ n' s', remove_pair (length A) n = Some n' ∧ deletes 0 m P s key (upd (si s) n' m) P s'.
Proof.
  intros Ha Hnd Hs Hn (Nl & Np & Nk) Hsc HL HF. destruct (remove_pair_spec n A (key, v) B' Np) as (n' & Hn' & Np' & Lc & Ll).
  eexists n', _. split; [done|]. split; [| | |done].
  - eapply (change_node m 0 P s n n' (A ++ (key, v) :: B') (A ++ B') []); try done; [|by left]. split_and!; [by rewrite Ll, Nl|done|by eapply kids_ext].
  - cbn. rewrite Hsc, !length_app. cbn. lia.
  - rewrite HL in *. destruct (ops_found key v v _ _ Hs) as (_ & _ & ->). done.
Qed.
(** From an inner node that has the key: by way of the pair before it, of the
    one after it, or by merging. *)
Section inner.
Context (fuel h : nat).
Hypothesis IH : ∀ m P s key, rep m h s → (1 ≤ sc s)%nat → sorted (sL s) → arena m P → NoDup (sF s ++ P) →
  ∃ m' P' s', delete_from fuel (si s) key m = (Ok (look key (sL s)), m') ∧ deletes h m P s key m' P' s'.
Context m P p n A (key : K) (v : V) (B' : list (K * V)) (SA : list (@sub K V)) s1 s2 (SB : list (@sub K V)).
Hypothesis Hf : focus m h p n A ((key, v) :: B') SA s1 (s2 :: SB).
Hypothesis Hnd : NoDup (sF p ++ P).
Hypothesis Ha : arena m P.
Hypothesis Hs : sorted (sL p).
Hypothesis Hfuel : (h < S fuel)%nat.

Lemma inner_contents : sL p = (pre (sL <$> SA) A ++ sL s1) ++ (key, v) :: sL s2 ++ post B' (sL <$> SB).
Proof using Hf. destruct Hf as (_ & _ & _ & -> & _). cbn. by rewrite <- (assoc_L (++)). Qed.

Lemma inner_del : del key (sL p) = (pre (sL <$> SA) A ++ sL s1) ++ sL s2 ++ post B' (sL <$> SB).
Proof using Hf Hs. rewrite inner_contents in *. by destruct (ops_found key v v _ _ Hs) as (_ & _ & ->). Qed.

Lemma inner_sorted : sorted (sL s1) ∧ sorted (sL s2).
Proof using Hf Hs.
  rewrite inner_contents in Hs. apply StronglySorted_app in Hs as (_ & H1 & H2). apply StronglySorted_app_1_r in H1.
  apply StronglySorted_inv in H2 as [H2 _]. by apply StronglySorted_app_1_l in H2.
Qed.

Lemma deletes_before :
  (T ≤ sc s1)%nat →
  ∃ m' P' p', (pred ← max_pair (S fuel) (si s1); n' ← lift (set_pair (length A) pred.1 pred.2 n); _ ← write (si p) n';
               _ ← delete_from fuel (si s1) pred.1; mret tt) m = (Ok tt, m') ∧ deletes (S h) m P p key m' P' p'.
Proof using All.
  intros Ht. destruct (focus_sub _ _ _ _ _ _ _ _ _ Hf) as [_ R1]. destruct inner_sorted as [Hs1 _].
  destruct (max_pair_spec (S fuel) h m s1 Hfuel R1 ltac:(blia)) as (l & kv & Hmax & EL). run Hmax.
  destruct (focus_node _ _ _ _ _ _ _ _ _ Hf) as [Hn (_ & Np & _)].
  destruct (set_pair_spec n A (key, v) B' kv.1 kv.2 Np) as (n' & Hn' & Np' & Hl). lf Hn'. wr Hn. rewrite <- surjective_pairing in Np'.
  destruct (focus_write _ _ _ _ _ _ _ _ _ P n' A (kv :: B') Hf Ha Hnd eq_refl eq_refl Np' Hl) as [Hf1 Hc1].
  destruct (focus_distinct _ _ _ _ _ _ _ _ _ P Hf1 Hnd) as (_ & _ & Hnd1). destruct (focus_sub _ _ _ _ _ _ _ _ _ Hf1) as [_ R1'].
  destruct (IH _ P s1 kv.1 R1' ltac:(blia) Hs1 (ch_arena _ _ _ _ _ _ _ Hc1) Hnd1) as (m2 & P2 & s1' & Hrun & [Hc2 [Hc21 Hc22] HL2 Hln2]).
  run Hrun. destruct (focus_change _ _ _ _ _ _ _ _ _ _ _ _ _ Hf1 Hnd Hc2 ltac:(blia)) as [_ Hc3].
  eexists m2, P2, _. split; [done|]. split; [by eapply change_trans|cbn; lia| |done].
  rewrite inner_del. cbn [sL]. rewrite HL2, EL. rewrite EL in Hs1. destruct kv as [pk pv]. cbn [fst snd] in *.
  destruct (ops_found pk pv pv l [] Hs1) as (_ & _ & ->). cbn. by rewrite app_nil_r, <- !(assoc_L (++)).
Qed.

Lemma deletes_after :
  (T ≤ sc s2)%nat →
  ∃ m' P' p', (succ ← min_pair (S fuel) (si s2); n' ← lift (set_pair (length A) succ.1 succ.2 n); _ ← write (si p) n';
               _ ← delete_from fuel (si s2) succ.1; mret tt) m = (Ok tt, m') ∧ deletes (S h) m P p key m' P' p'.
Proof using All.
  intros Ht. pose proof Hf as Hf0. apply focus_next in Hf0 as [_ Hf0]. destruct (focus_sub _ _ _ _ _ _ _ _ _ Hf0) as [_ R2].
  destruct inner_sorted as [_ Hs2].
  destruct (min_pair_spec (S fuel) h m s2 Hfuel R2 ltac:(blia)) as (l & kv & Hmin & EL). run Hmin.
  destruct (focus_node _ _ _ _ _ _ _ _ _ Hf) as [Hn (_ & Np & _)].
  destruct (set_pair_spec n A (key, v) B' kv.1 kv.2 Np) as (n' & Hn' & Np' & Hl). lf Hn'. wr Hn. rewrite <- surjective_pairing in Np'.
  destruct (focus_write _ _ _ _ _ _ _ _ _ P n' A (kv :: B') Hf Ha Hnd eq_refl eq_refl Np' Hl) as [Hf1 Hc1].
  apply focus_next in Hf1 as [HA Hf1].
  destruct (focus_distinct _ _ _ _ _ _ _ _ _ P Hf1 Hnd) as (_ & _ & Hnd1). destruct (focus_sub _ _ _ _ _ _ _ _ _ Hf1) as [_ R2'].
  destruct (IH _ P s2 kv.1 R2' ltac:(blia) Hs2 (ch_arena _ _ _ _ _ _ _ Hc1) Hnd1) as (m2 & P2 & s2' & Hrun & [Hc2 [Hc21 Hc22] HL2 Hln2]).
  run Hrun. destruct (focus_change _ _ _ _ _ _ _ _ _ _ _ _ _ Hf1 Hnd Hc2 ltac:(blia)) as [_ Hc3].
  eexists m2, P2, _. split; [done|]. split; [by eapply change_trans|cbn; lia| |done].
  rewrite inner_del. cbn [sL]. rewrite HL2, EL. rewrite EL in Hs2. destruct kv as [sk sv]. cbn [fst snd] in *.
  destruct (ops_found sk sv sv [] l Hs2) as (_ & _ & Ed). cbn [app] in Ed. rewrite Ed.
  rewrite fmap_app. cbn [fmap list_fmap]. rewrite pre_snoc by (by rewrite length_fmap). by rewrite <- !(assoc_L (++)).
Qed.

Lemma deletes_merged :
  sc s1 = (T - 1)%nat → sc s2 = (T - 1)%nat →
  ∃ m' P' p', (_ ← merge_at (si p) (length A); _ ← delete_from fuel (si s1) key; mret tt) m = (Ok tt, m') ∧ deletes (S h) m P p key m' P' p'.
Proof using All.
  intros H1 H2. destruct (merge_at_spec _ _ _ _ _ _ _ _ _ _ _ P Hf Hnd Ha ltac:(blia))
    as (m1 & P1 & p1 & n1 & s' & Hm & Hc1 & Hf1 & [HL1 Hsc1] & Hsc' & Hsi & HLs & Hln1). run Hm. rewrite <- Hsi.
  assert (NoDup (sF p1 ++ P1)) as Hnd1 by (by rewrite (ch_nodes _ _ _ _ _ _ _ Hc1)).
  destruct (focus_distinct _ _ _ _ _ _ _ _ _ P1 Hf1 Hnd1) as (_ & _ & Hnd2). destruct (focus_sub _ _ _ _ _ _ _ _ _ Hf1) as [_ R1].
  pose proof Hs as Hs'. rewrite <- HL1 in Hs'. destruct Hf1 as (F1 & F2 & F3 & HLp & F5). rewrite HLp in Hs'.
  assert (sorted (sL s')) as Hss by (by apply StronglySorted_app_1_r, StronglySorted_app_1_l in Hs').
  destruct (IH m1 P1 s' key R1 ltac:(blia) Hss (ch_arena _ _ _ _ _ _ _ Hc1) Hnd2) as (m2 & P2 & s'' & Hrun & [Hc2 [Hc21 Hc22] HL2 Hln2]).
  run Hrun. destruct (focus_change _ _ _ _ _ _ _ _ _ _ _ _ _ (conj F1 (conj F2 (conj F3 (conj HLp F5)))) Hnd1 Hc2 ltac:(blia)) as [_ Hc3].
  eexists m2, P2, _. split; [done|]. split; [by eapply change_trans|cbn; lia| |congruence].
  rewrite inner_del. cbn [sL]. rewrite HL2, HLs. rewrite HLs in Hss. destruct (ops_found key v v _ _ Hss) as (_ & _ & ->).
  by rewrite <- !(assoc_L (++)).
Qed.
End inner.
(** The key is in the node. *)
Lemma deletes_found fuel h m P p n A key v B' ss :
  (∀ h' m P s key, h = S h' → rep m h' s → (1 ≤ sc s)%nat → sorted (sL s) → arena m P → NoDup (sF s ++ P) →
     ∃ m' P' s', delete_from fuel (si s) key m = (Ok (look key (sL s)), m') ∧ deletes h' m P s key m' P' s') →
  (h < S fuel)%nat → opened m h p n (A ++ (key, v) :: B') ss → sorted (sL p) → arena m P → NoDup (sF p ++ P) →
  ∃ m' P' p',
    (if is_leaf n then n' ← lift (remove_pair (length A) n); write (si p) n'
     else
       left ← lift (children n !! length A); right ← lift (children n !! (length A + 1)%nat);
       left_spare ← has_spare left;
       if left_spare : bool then
         pred ← max_pair (S fuel) left;
         n' ← lift (set_pair (length A) pred.1 pred.2 n); _ ← write (si p) n';
         _ ← delete_from fuel left pred.1; mret tt
       else
         right_spare ← has_spare right;
         if right_spare : bool then
           succ ← min_pair (S fuel) right;
           n' ← lift (set_pair (length A) succ.1 succ.2 n); _ ← write (si p) n';
           _ ← delete_from fuel right succ.1; mret tt
         else _ ← merge_at (si p) (length A); _ ← delete_from fuel left key; mret tt) m = (Ok tt, m') ∧
    deletes h m P p key m' P' p'.
Proof.
  intros IH Hfuel ([Hn Hni] & Hsc & Hss & HL & HF) Hs Ha Hnd. rewrite (proj1 Hni). destruct h as [|h].
  - cbn in Hss. subst ss. destruct (deletes_leaf m P p n A v B' key) as (n' & p' & Hn' & Hd); try done.
    cbn [bool_decide decide_rel]. rewrite bool_decide_true by done. lf Hn'. rewrite (write_run _ _ _ _ Hn). by eexists _, _, _.
  - rewrite bool_decide_false by done. specialize (IH h).
    destruct (focus_at m h p n A ((key, v) :: B') ss Hn Hni Hsc Hss HL HF) as (SA & s1 & [|s2 SB] & -> & Hf); [by destruct Hf as (_ & _ & (_ & ? & _) & _)|].
    lf (focus_kid _ _ _ _ _ _ _ _ _ Hf). pose proof Hf as Hf2. apply focus_next in Hf2 as [_ Hf2].
    pose proof (focus_kid _ _ _ _ _ _ _ _ _ Hf2) as Hkid. rewrite length_app in Hkid. lf Hkid.
    destruct (focus_sub _ _ _ _ _ _ _ _ _ Hf) as [Ht1 R1]. destruct (focus_sub _ _ _ _ _ _ _ _ _ Hf2) as [Ht2 R2].
    assert (∀ m P s key, rep m h s → (1 ≤ sc s)%nat → sorted (sL s) → arena m P → NoDup (sF s ++ P) →
      ∃ m' P' s', delete_from fuel (si s) key m = (Ok (look key (sL s)), m') ∧ deletes h m P s key m' P' s') as IH' by (intros; by apply IH).
    run (has_spare_run _ _ _ R1). destruct (Nat.leb_spec T (sc s1)); [by eapply deletes_before; try done; lia|].
    run (has_spare_run _ _ _ R2). destruct (Nat.leb_spec T (sc s2)); [by eapply deletes_after; try done; lia|].
    eapply deletes_merged; try done; blia.
Qed.

Lemma delete_from_spec fuel h m P s key :
  (h < fuel)%nat → rep m h s → (h = 0%nat ∨ 1 ≤ sc s)%nat → sorted (sL s) → arena m P → NoDup (sF s ++ P) →
  ∃ m' P' s', delete_from fuel (si s) key m = (Ok (look key (sL s)), m') ∧ deletes h m P s key m' P' s'.
Proof.
  revert h m P s key. induction fuel as [|fuel IH]; intros h m P s key Hfuel Hr Hc Hs Ha Hnd; [lia|]. cbn [delete_from].
  destruct (search_run m h s key Hr Hs) as (n & A & Bs & ss & [Hn Hni] & Hsc & Hss & HL & HF & HA & [ [Hse HB]|(v & B' & -> & Hse)]);
    rewrite (bind_run _ _ _ _ _ Hse); cbv beta iota; rd Hn; cbv iota.
  2:{ lf (value_at _ _ _ _ (proj1 (proj2 Hni))).
      destruct (deletes_found fuel h m P s n A key v B' ss) as (m' & P' & s' & Hrun & Hd); try done.
      { intros h' m0 P0 s0 key0 -> ?????. apply IH; try done; [lia|by right]. }
      run Hrun. exists m', P', s'. split; [|done]. destruct (subs_cut _ _ _ _ _ _ Hss) as (S1 & S2 & -> & _ & _ & Ec).
      rewrite HL, Ec in *. by destruct (ops_found key v v _ _ Hs) as (-> & _). }
  rewrite (proj1 Hni). destruct h as [|h].
  - cbn in HL. destruct (ops_absent key A Bs HA HB) as (El & _ & Ed). rewrite HL, El. exists m, P, s. split; [done|].
    split; [by apply change_refl|lia|by rewrite HL, Ed|done].
  - destruct (focus_at m h s n A Bs ss Hn Hni Hsc Hss HL HF) as (SA & s0 & SB & -> & Hf).
    destruct (focus_bounds _ _ _ _ _ _ _ _ _ key Hf Hs HA HB) as (Hu & Ho & _).
    destruct (ensure_min_degree_spec _ _ _ _ _ _ _ _ _ P key Hf Hnd Ha ltac:(lia) Hu Ho)
      as (m1 & P1 & p1 & n1 & A1 & B1 & SA1 & s1 & SB1 & Hrun & [Hc1 Hf1 HL1 Hsc1 Ht1 Hu1 Ho1 Hln1]). rewrite bool_decide_false by done. run Hrun.
    assert (NoDup (sF p1 ++ P1)) as Hnd1 by (by rewrite (ch_nodes _ _ _ _ _ _ _ Hc1)).
    destruct (focus_distinct _ _ _ _ _ _ _ _ _ P1 Hf1 Hnd1) as (_ & _ & Hnd2). destruct (focus_sub _ _ _ _ _ _ _ _ _ Hf1) as [_ R1].
    assert (sL s = pre (sL <$> SA1) A1 ++ sL s1 ++ post B1 (sL <$> SB1)) as ELs by (rewrite <- HL1; by destruct Hf1 as (_ & _ & _ & ? & _)).
    assert (sorted (sL s1)) as Hs1 by (rewrite ELs in Hs; by apply StronglySorted_app_1_r, StronglySorted_app_1_l in Hs).
    destruct (IH h m1 P1 s1 key ltac:(lia) R1 ltac:(right; blia) Hs1 (ch_arena _ _ _ _ _ _ _ Hc1) Hnd2) as (m2 & P2 & s' & Hrun2 & Hd).
    destruct (deletes_focus _ _ _ _ _ _ _ _ _ _ _ _ _ _ Hf1 Hnd1 Ht1 Hu1 Ho1 Hd) as (p2 & [Hc2 Hsc2 HL2 Hln2] & Ep2).
    exists m2, P2, p2. rewrite Hrun2, ELs, look_mid by done. split; [done|].
    split; [by eapply change_trans|lia|by rewrite HL2, HL1|congruence].
Qed.
End delete.
