(* ===== verification/BTreeMap.v ===== *)
(** The ordered map as a whole: its state between calls, what each call does to
    the contents, and the readers. *)
From stdpp Require Import gmap sorting.
From S2P Require Import Prelude BTree SortedMap BTreeNodes BTreeRep BTreeInsert BTreeDelete.

Section map.
Context {K V : Type} `{KeyOrd K}.
Implicit Types (m : SharedBTreeMap K V) (n : BTreeNode K V) (L : list (K * V)) (s p : sub (K := K) (V := V)) (P : list Z).

(** ** Sizes *)

Lemma length_concat_ge {X} (ls : list (list X)) l : l ∈ ls → (length l ≤ length (concat ls))%nat.
Proof. induction ls as [|l0 ls IH]; intros Hl; [by apply elem_of_nil in Hl|]. cbn. rewrite length_app. apply elem_of_cons in Hl as [->|Hl]; [lia|]. apply IH in Hl. lia. Qed.

Lemma length_flat (kvs : list (K * V)) ls :
  length ls = S (length kvs) → length (flat kvs ls) = (length kvs + length (concat ls))%nat.
Proof.
  revert ls. induction kvs as [|kv kvs IH]; intros [|l [|l' ls] ] E; try done.
  rewrite flat_cons, length_app. cbn [length]. rewrite IH by (cbn in *; lia). cbn. rewrite !length_app. lia.
Qed.

Lemma rep_height m h s : rep m h s → (h < length (sF s))%nat.
Proof.
  revert s. induction h as [|h IH]; intros s; cbn.
  - intros (n & _ & _ & _ & _ & _ & ->). cbn. lia.
  - intros (n & kvs & ss & _ & _ & _ & _ & _ & Hl & _ & -> & Hg). destruct ss as [|c ss]; [done|].
    apply Forall_cons in Hg as [ [_ Hr] _]. apply IH in Hr. cbn. rewrite length_app. lia.
Qed.

Lemma rep_length m h s : rep m h s → (length (sL s) ≤ B * length (sF s))%nat.
Proof.
  revert s. induction h as [|h IH]; intros s; cbn [rep].
  - intros (n & _ & _ & Hp & _ & _ & ->). apply pairs_bound in Hp. cbn. lia.
  - intros (n & kvs & ss & _ & _ & Hp & _ & _ & Hl & -> & -> & Hg). apply pairs_bound in Hp.
    rewrite length_flat by (by rewrite length_fmap). cbn [length].
    assert (length (concat (sL <$> ss)) ≤ B * length (concat (sF <$> ss)))%nat; [|lia].
    clear Hl. induction Hg as [|c ss [_ Hr] Hg IHg]; [cbn; lia|]. cbn. rewrite !length_app. apply IH in Hr. lia.
Qed.

(** Nodes below the root are at least half full, so a tree is shallow. *)
Lemma good_size m h s : good m h s → (8 ^ h ≤ length (sF s))%nat.
Proof.
  revert s. induction h as [|h IH]; intros s [Ht Hr]; [apply rep_self in Hr; destruct (sF s); [by apply elem_of_nil in Hr|cbn; lia]|].
  cbn [rep] in Hr. destruct Hr as (n & kvs & ss & _ & _ & _ & _ & Hsc & Hl & _ & -> & Hg). cbn [length].
  assert (length ss * 8 ^ h ≤ length (concat (sF <$> ss)))%nat as Hle.
  { clear Hl. induction Hg as [|c ss Hr Hg IHg]; [cbn; lia|]. cbn. rewrite length_app. apply IH in Hr. lia. }
  rewrite Nat.pow_succ_r'. assert (8 ≤ length ss)%nat by blia. nia.
Qed.

Lemma good_keys m h s : good m h s → (7 * length (sF s) ≤ length (sL s))%nat.
Proof.
  revert s. induction h as [|h IH]; intros s [Ht Hr]; cbn [rep] in Hr.
  - destruct Hr as (n & _ & _ & _ & _ & Hsc & ->). cbn. blia.
  - destruct Hr as (n & kvs & ss & _ & _ & _ & _ & Hsc & Hl & -> & -> & Hg). rewrite length_flat by (by rewrite length_fmap). cbn [length].
    assert (7 * length (concat (sF <$> ss)) ≤ length (concat (sL <$> ss)))%nat; [|blia].
    clear Hl. induction Hg as [|c ss Hr Hg IHg]; [cbn; lia|]. cbn. rewrite !length_app. apply IH in Hr. lia.
Qed.

(** The root may be emptier. *)
Lemma rep_keys m h s : rep m h s → (7 * length (sF s) ≤ length (sL s) + 7)%nat.
Proof.
  destruct h as [|h]; cbn [rep].
  - intros (n & _ & _ & _ & _ & _ & ->). cbn. lia.
  - intros (n & kvs & ss & _ & _ & _ & _ & _ & Hl & -> & -> & Hg). rewrite length_flat by (by rewrite length_fmap). cbn [length].
    assert (7 * length (concat (sF <$> ss)) ≤ length (concat (sL <$> ss)))%nat; [|lia].
    clear Hl. induction Hg as [|c ss Hr Hg IHg]; [cbn; lia|]. cbn. rewrite !length_app. apply good_keys in Hr. lia.
Qed.

Lemma root_depth m h s : rep m h s → (Z.of_nat (length (sF s)) < 2 ^ 32) → (h ≤ 11)%nat.
Proof.
  intros Hr Hlt. destruct h as [|h]; [lia|]. cbn in Hr. destruct Hr as (n & kvs & ss & _ & _ & _ & _ & _ & Hl & _ & HF & Hg).
  destruct ss as [|c ss]; [done|]. apply Forall_cons in Hg as [Hc _]. apply good_size in Hc. rewrite HF in Hlt. cbn in Hlt. rewrite length_app in Hlt.
  destruct (decide (h ≤ 10)%nat); [lia|]. exfalso. assert (8 ^ 11 ≤ 8 ^ h)%nat as Hp by (apply Nat.pow_le_mono_r; lia).
  assert (Z.of_nat (8 ^ 11) = 2 ^ 33) as E by (rewrite Nat2Z.inj_pow; done). lia.
Qed.

(** ** The state between calls *)

(** The tree below a root index. *)
Definition tree m (r : Z) L (F : list Z) : Prop :=
  (r = NIL ∧ L = [] ∧ F = []) ∨ ∃ h s, rep m h s ∧ si s = r ∧ sL s = L ∧ sF s = F ∧ (1 ≤ sc s)%nat.

(** Of the region's nodes, [lost] are neither in the tree nor available. *)
Record contents_ok m L P (lost : nat) : Prop := {
  co_sorted : sorted L;
  co_tree : ∃ F, tree m (root (header m)) L F ∧ NoDup (F ++ P) ∧ Z.of_nat (length (F ++ P) + lost) = mcapacity m;
  co_arena : arena m P; co_len : len (header m) = u64 (Z.of_nat (length L)) }.

(** A subtree's nodes are in use. *)
Lemma nodes_used m P h s :
  rep m h s → arena m P → NoDup (sF s ++ P) → ∀ x, x ∈ sF s → 0 ≤ x < node_count (header m).
Proof.
  intros Hr Ha Hnd x Hx. assert (is_Some (region m !! x)) as [n Hn].
  { clear Ha Hnd P. revert s Hr Hx. induction h as [|h IH]; intros s; cbn [rep].
    - intros (n & Hn & _ & _ & _ & _ & ->) ->%list_elem_of_singleton. eauto.
    - intros (n & kvs & ss & Hn & _ & _ & _ & _ & _ & _ & -> & Hg) [->|Hx]%elem_of_cons; [eauto|].
      apply list_elem_of_In, in_concat in Hx as (F & HF & HxF). apply list_elem_of_In, list_elem_of_fmap in HF as (c & -> & Hc).
      rewrite Forall_forall in Hg. destruct (Hg c Hc) as [_ Hr]. eapply IH; [done|by apply list_elem_of_In]. }
  pose proof (ar_dom _ _ Ha _ _ Hn) as Hd. destruct (ar_pool _ _ Ha) as (fl & HP & _).
  destruct (decide (x < node_count (header m))); [lia|]. exfalso. apply NoDup_app in Hnd as (_ & Hnd & _).
  apply (Hnd x Hx). rewrite HP. apply elem_of_app. right. apply elem_of_seqZ. lia.
Qed.

Lemma nodes_few m P h s :
  rep m h s → arena m P → NoDup (sF s ++ P) → Z.of_nat (length (sF s)) ≤ node_count (header m).
Proof.
  intros Hr Ha Hnd. pose proof (nodes_used _ _ _ _ Hr Ha Hnd) as Hu. apply NoDup_app in Hnd as (Hnd & _ & _).
  assert (sF s ⊆+ seqZ 0 (node_count (header m))) as Hsub.
  { apply NoDup_submseteq; [done|]. intros x Hx. apply elem_of_seqZ. by apply Hu. }
  apply submseteq_length in Hsub. rewrite length_seqZ in Hsub. pose proof (ar_count _ _ Ha). lia.
Qed.

Lemma enough_fuel m P h s : rep m h s → arena m P → NoDup (sF s ++ P) → (h < depth_fuel m)%nat.
Proof.
  intros Hr Ha Hnd. pose proof (nodes_few _ _ _ _ Hr Ha Hnd). apply rep_height in Hr. unfold depth_fuel. lia.
Qed.
(** ** Insertion *)

Lemma rep_hset f m h s : rep m h s → rep (hset f m) h s.
Proof. by apply rep_ext. Qed.

Lemma arena_hset f m P :
  node_count (f (header m)) = node_count (header m) → free_head (f (header m)) = free_head (header m) →
  arena m P → arena (hset f m) P.
Proof.
  intros E1 E2 [A1 A2 A3 A4 A5 (fl & A6 & A7)]. split; cbn; rewrite ?E1; try done. exists fl. split; [done|].
  rewrite E2. by eapply fchain_ext; [|done].
Qed.

Lemma node_index m P x n : arena m P → region m !! x = Some n → x ≠ NIL.
Proof. intros Ha Hn. pose proof (ar_dom _ _ Ha _ _ Hn). pose proof (ar_cap _ _ Ha). lia. Qed.

(** What a call keeps of the header besides the root. *)
Definition same_version m m' : Prop := version (header m') = version (header m) ∧ mcapacity m' = mcapacity m.

(** A pair in an empty tree. *)
Lemma plant_spec m P key value :
  arena m P → NoDup P →
  (P = [] ∧ plant key value m = (Err Full, m)) ∨
  ∃ m' P' s, plant key value m = (Ok None, m') ∧ rep m' 0 s ∧ sc s = 1%nat ∧ sL s = [(key, value)] ∧ NoDup (sF s ++ P') ∧ arena m' P' ∧
    root (header m') = si s ∧ same_version m m' ∧ len (header m') = u64 (len (header m) + 1) ∧ length (sF s ++ P') = length P.
Proof.
  intros Ha Hnd. unfold plant.
  destruct (alloc_node_spec m P true Ha Hnd) as [(x & P' & n & m1 & -> & Hal & Hreg & (Np & Nk & Nl) & Ha1 & (S1 & S2 & S3) & Hln)|[-> Hal] ];
    [right|by left; rewrite (bind_err _ _ _ _ _ Hal)].
  run Hal. assert (region m1 !! x = Some n) as Hn by (by rewrite Hreg, lookup_insert_eq). rd Hn.
  destruct (set_pair_end n [] key value Np) as (n' & Hn' & Np' & [Lc Ll] & _); [cbn; blia|].
  lf (Hn' : set_pair 0 key value n = Some n'). wr Hn. erewrite bind_run by reflexivity. erewrite bind_run by reflexivity.
  apply NoDup_cons in Hnd as [Hx Hnd].
  set (m2 := upd x (with_count 1 n') m1). assert (arena m2 P') as Ha2.
  { eapply arena_write; [done| |done|done]. eapply ok_shape; [done|by eapply kids_ext]. }
  exists (hset (λ h, with_len (u64 (len h + 1)) h) (hset (with_root x) m2)), P', {| si := x; sc := 1; sL := [(key, value)]; sF := [x] |}.
  split; [done|]. split.
  { do 2 apply rep_hset. exists (with_count 1 n'). cbn. rewrite lookup_insert_eq. split_and!; try done; [by rewrite Ll|by eapply kids_ext]. }
  split; [done|]. split; [done|]. split; [by apply NoDup_cons|]. split; [by do 2 (apply arena_hset; [done|done|])|].
  split; [done|]. split; [done|]. cbn. by rewrite Hln.
Qed.

Lemma grow_spec m h s P :
  rep m h s → sc s = B → arena m P → NoDup (sF s ++ P) →
  (∃ m', grow (si s) m = (Err Full, m') ∧ rep m' h s ∧ arena m' [] ∧ same_map m m' ∧ len (header m') = len (header m) ∧ (length P ≤ 1)%nat) ∨
  ∃ m' P' p, grow (si s) m = (Ok (si p), m') ∧ rep m' (S h) p ∧ sc p = 1%nat ∧ sL p = sL s ∧ NoDup (sF p ++ P') ∧ arena m' P' ∧
    root (header m') = si p ∧ same_version m m' ∧ len (header m') = len (header m) ∧
    length (sF p ++ P') = length (sF s ++ P) ∧ length P = (length P' + 2)%nat.
Proof.
  intros Hr Hfull Ha Hnd. unfold grow. assert (NoDup P) as HndP by (by apply NoDup_app in Hnd as (_ & _ & ?)).
  destruct (alloc_node_spec m P false Ha HndP) as [(x & P' & n & m1 & -> & Hal & Hreg & (Np & Nk & Nl) & Ha1 & (S1 & S2 & S3) & Hln)|[-> Hal] ];
    [|left; exists m; rewrite (bind_err _ _ _ _ _ Hal); split_and!; try done; cbn; lia].
  run Hal. assert (region m1 !! x = Some n) as Hn by (by rewrite Hreg, lookup_insert_eq). rd Hn.
  destruct (set_kid_end n [] (si s) Nk) as (cs & Hcs & Nk'); [cbn; lia|]. lf (Hcs : aset 0 (si s) (children n) = Some cs). wr Hn.
  set (n0 := with_count 0 (with_children cs n)). set (m2 := upd x n0 m1).
  assert (x ∉ sF s ++ P') as Hx. { rewrite <- Permutation_middle in Hnd. by apply NoDup_cons in Hnd as [? _]. }
  assert (NoDup ((x :: sF s) ++ P')) as Hnd'. { by rewrite <- Permutation_middle in Hnd. }
  assert (pairs_ok n0 []) as Np0 by (destruct Np as [? ? ? ? ?]; by split). assert (kids_ok n0 [si s]) as Nk0 by (by eapply kids_ext).
  assert (arena m2 P') as Ha2. { eapply arena_write; [done|by eapply ok_shape| |done]. intros E. apply Hx. mem. }
  assert (rep m2 h s) as Hr2.
  { eapply rep_ext; [|exact Hr]. intros y Hy. cbn. rewrite Hreg, !lookup_insert_ne; [done|..]; intros <-; apply Hx; mem. }
  set (p0 := {| si := x; sc := 0; sL := sL s; sF := x :: sF s |}). assert (focus m2 h p0 n0 [] [] [] s []) as Hf.
  { split; [cbn; by rewrite lookup_insert_eq|]. split; [done|]. split; [done|]. split; [cbn; by rewrite app_nil_r|].
    split; [cbn; by rewrite app_nil_r|]. apply Forall_singleton. split; [blia|done]. }
  destruct (split_child_spec m2 h p0 n0 [] [] [] s [] P' Hf Hfull ltac:(cbn; blia) Ha2 Hnd')
    as [ [-> Hsp]|(m3 & P3 & p3 & n3 & kv & s1 & s2 & Hsp & Hch & Hf3 & HL3 & _ & _ & Hsc3 & Hln3 & HP3)];
    change (split_child (si p0) (length [])) with (split_child (K := K) (V := V) x 0) in Hsp.
  - left. exists m2. rewrite (bind_err _ _ _ _ _ Hsp). split_and!; try done.
  - right. run Hsp. erewrite bind_run by reflexivity. destruct Hch as [C1 C2 C3 C4 C5 (C6 & C7 & C8)].
    cbn [m2 header mcapacity upd] in C6, C7, C8, Hln3. exists (hset (with_root x) m3), P3, p3. rewrite C3. split; [done|]. split; [by apply rep_hset|]. split; [done|]. split; [done|].
    split; [by rewrite C4|]. split; [by apply arena_hset|]. split; [done|].
    split; [split; cbn; congruence|]. split; [cbn; congruence|]. split; [|cbn; lia]. rewrite C4. cbn. rewrite !length_app. cbn. lia.
Qed.
Lemma tree_root m P r h s L F :
  arena m P → rep m h s → si s = r → sL s = L → sF s = F → (1 ≤ sc s)%nat → r ≠ NIL ∧ tree m r L F.
Proof.
  intros Ha Hr E1 E2 E3 Hc. split; [|right; by exists h, s]. destruct (rep_node _ _ _ Hr) as (n & Hn & _). rewrite E1 in Hn. by eapply node_index.
Qed.

(** The contents once the subtree at the root has changed. *)
Lemma contents_from m L P lost h s :
  sorted L → rep m h s → sL s = L → (1 ≤ sc s)%nat → NoDup (sF s ++ P) → arena m P → root (header m) = si s →
  len (header m) = u64 (Z.of_nat (length L)) → Z.of_nat (length (sF s ++ P) + lost) = mcapacity m → contents_ok m L P lost.
Proof. intros Hs Hr HL Hc Hnd Ha Hroot Hln Hlost. split; try done. exists (sF s). split; [|done]. right. by exists h, s. Qed.

Lemma len_after key value L r L' l1 P' :
  sorted L → outcome key value L (u64 (Z.of_nat (length L))) r L' l1 P' → l1 = u64 (Z.of_nat (length L')) ∧ sorted L'.
Proof.
  intros Hs [(_ & -> & ->)|(_ & -> & -> & _)]; [|done]. split; [|by apply sorted_ins]. rewrite length_ins by done.
  destruct (look key L); [f_equal; lia|]. unfold wrap. rewrite Zplus_mod_idemp_l. f_equal. lia.
Qed.

(** A refusal loses at most a node, and happens only with few available. *)
Definition spending (P : list Z) (lost lost' : nat) (r : res BTreeError (option V)) : Prop :=
  match r with Ok _ => lost' = lost | _ => (lost ≤ lost' ≤ S lost)%nat ∧ (length P ≤ 13)%nat end.

(** After the descent below a root with room. *)
Lemma insert_descent m0 L P0 lost key value m P h s :
  sorted L → rep m h s → sL s = L → (1 ≤ sc s < B)%nat → NoDup (sF s ++ P) → arena m P → root (header m) = si s →
  len (header m) = u64 (Z.of_nat (length L)) → same_version m0 m → Z.of_nat (length (sF s ++ P) + lost) = mcapacity m →
  (length P0 ≤ length P + 2)%nat →
  ∃ r m' L' P' lost', insert_nonfull (depth_fuel m) (si s) key value m = (r, m') ∧
    outcome key value L (len (header m)) r L' (len (header m')) P' ∧ contents_ok m' L' P' lost' ∧ same_version m0 m' ∧ spending P0 lost lost' r.
Proof.
  intros Hs Hr HL [Hc Hroom] Hnd Ha Hroot Hlen [V1 V2] Hlost HP. rewrite <- HL in Hs.
  destruct (insert_nonfull_spec (depth_fuel m) h m P s key value) as (r & m' & P' & p' & Hrun & [ [C1 C2 C3 C4 C5 (C6 & C7 & C8)] Hc' Hout Hpool]);
    try done; [by eapply enough_fuel|].
  exists r, m', (sL p'), P', lost. rewrite <- HL in *. split; [done|]. split; [done|].
  rewrite Hlen in Hout. destruct (len_after _ _ _ _ _ _ _ Hs Hout) as [? ?].
  split; [|split; [split; congruence|] ].
  - eapply contents_from; try done; [lia|by rewrite C4|congruence|]. rewrite C4. congruence.
  - destruct Hout as [(-> & _)|(-> & _ & _ & ->)]; cbn; [done|]. pose proof (root_depth _ _ _ Hr) as Hh.
    pose proof (nodes_few _ _ _ _ Hr Ha Hnd). pose proof (ar_cap _ _ Ha). pose proof (ar_count _ _ Ha). unfold NIL in *. cbn in Hpool. lia.
Qed.

Lemma insert_inner_spec m L P lost key value :
  contents_ok m L P lost →
  ∃ r m' L' P' lost', insert_inner key value m = (r, m') ∧ outcome key value L (len (header m)) r L' (len (header m')) P' ∧
    contents_ok m' L' P' lost' ∧ same_version m m' ∧ spending P lost lost' r.
Proof.
  intros [Hs (F & Htree & Hnd & Hlost) Ha Hlen]. unfold insert_inner. rewrite (bind_run get_state _ m m m) by done. cbv beta zeta.
  destruct Htree as [(Er & -> & ->)|(h & s & Hr & Esi & EL & EF & Hc)].
  { rewrite Er, Z.eqb_refl. destruct (plant_spec m P key value Ha Hnd) as [ [-> Hp]|(m' & P' & s & Hp & Hr & Hsc & HL & Hnd' & Ha' & Hroot & Hv & Hln & HP)].
    - rewrite Hp. exists (Err Full), m, [], [], lost. split; [done|]. split; [by right|]. split; [|split; [done|cbn; lia] ]. split; try done.
      exists []. split; [by left|done].
    - rewrite Hp. exists (Ok None), m', [(key, value)], P', lost. split; [done|]. split; [by left|]. split; [|done].
      eapply contents_from; try done; [apply (sorted_ins key value []); constructor|lia| |].
      + rewrite Hln, Hlen. done.
      + rewrite HP. destruct Hv as [_ ->]. done. }
  subst L F. destruct (tree_root _ _ _ _ _ _ _ Ha Hr Esi eq_refl eq_refl Hc) as [Hne _]. rewrite (proj2 (Z.eqb_neq _ _) Hne).
  rewrite <- Esi. destruct (rep_node _ _ _ Hr) as (n & Hn & _ & Hcn). rd Hn. rewrite Hcn.
  destruct (Nat.eqb_spec (sc s) B) as [Hfull|Hnf].
  - destruct (grow_spec m h s P Hr Hfull Ha Hnd)
      as [(m' & Hg & Hr' & Ha' & (S1 & S2 & S3) & Hln & HP)|(m1 & P1 & p & Hg & Hr1 & Hsc1 & HL1 & Hnd1 & Ha1 & Hroot & Hv & Hln & HF & HP)].
    + rewrite (bind_err _ _ _ _ _ Hg). exists (Err Full), m', (sL s), [], (lost + length P)%nat. split; [done|]. split; [by right|].
      split; [|split; [done|cbn; lia] ]. eapply contents_from; try done; [|congruence..|].
      * rewrite app_nil_r. by apply NoDup_app in Hnd as (? & _).
      * rewrite app_nil_r, S3, <- Hlost, length_app. lia.
    + run Hg. rewrite (bind_run get_state _ m1 m1 m1) by done. cbv beta. rewrite <- Hln.
      eapply (insert_descent m (sL s) P lost key value m1 P1 (S h) p); try done; [blia|congruence| |lia].
      rewrite HF. destruct Hv as [_ ->]. done.
  - rewrite (bind_run _ _ m (si s) m) by done. cbv beta. rewrite (bind_run get_state _ m m m) by done. cbv beta.
    eapply (insert_descent m (sL s) P lost key value m P h s); try done; [pose proof (rep_count _ _ _ Hr); lia|lia].
Qed.

(** ** Removal *)

Lemma shrink_spec m P h s :
  rep m h s → arena m P → NoDup (sF s ++ P) → root (header m) = si s →
  ∃ m' P' F, shrink (si s) m = (Ok tt, m') ∧ tree m' (root (header m')) (sL s) F ∧ NoDup (F ++ P') ∧ arena m' P' ∧
    same_version m m' ∧ len (header m') = len (header m) ∧ length (F ++ P') = length (sF s ++ P).
Proof.
  intros Hr Ha Hnd Hroot. destruct (rep_node _ _ _ Hr) as (n & Hn & Hlf & Hcn). unfold shrink. rd Hn. rewrite Hcn.
  destruct (Nat.eqb_spec (sc s) 0) as [Hc|Hc].
  2:{ exists m, P, (sF s). split; [done|]. split; [|done]. right. exists h, s. split_and!; try done. lia. }
  assert (shape n) as Hsh by (destruct (ar_nodes _ _ Ha (si s)) as (n' & Hn' & ?); [by eapply ar_dom|by simplify_eq]).
  assert (si s ∉ P) as Hx. { intros E. apply NoDup_app in Hnd as (_ & Hnd & _). by apply (Hnd (si s)); [eapply rep_self|]. }
  assert (∀ r, ∃ m' n', free_node (si s) (hset (with_root r) m) = (Ok tt, m') ∧ region m' = <[si s := n']> (region m) ∧
    arena m' (si s :: P) ∧ root (header m') = r ∧ same_version m m' ∧ len (header m') = len (header m)) as Hfree.
  { intros r. destruct (free_node_spec (hset (with_root r) m) P (si s) n) as (n' & m' & Hrun & Hreg & _ & Ha' & (S1 & S2 & S3) & Hln); try done.
    - by apply arena_hset.
    - exists m', n'. done. }
  destruct h as [|h].
  - destruct (Hfree NIL) as (m' & n' & Hrun & Hreg & Ha' & Hrt & Hv & Hln). exists m', (si s :: P), [].
    rewrite (Hlf : is_leaf n = true). rewrite (bind_run _ _ m NIL m) by done. cbv beta. erewrite bind_run by reflexivity.
    split; [done|]. cbn in Hr. destruct Hr as (_ & _ & _ & _ & _ & Hl & HF). split; [left; rewrite Hrt; split_and!; [done| |done]|].
    { symmetry in Hl. rewrite Hc in Hl. by apply length_zero_iff_nil in Hl. }
    rewrite HF in *. done.
  - rewrite (Hlf : is_leaf n = false). destruct (rep_focus _ _ _ _ Hr Hn) as (kvs & Hp & Hsc & _ & Hfo). rewrite Hc in Hsc.
    destruct kvs; [|done]. destruct (Hfo [] [] eq_refl) as (SA & s0 & SB & Hf). pose proof Hf as (_ & _ & (H1 & H2 & _) & HL & HF & _).
    destruct SA; [|done]. destruct SB; [|done]. cbn in HL, HF. rewrite !app_nil_r in HL, HF.
    destruct (focus_sub _ _ _ _ _ _ _ _ _ Hf) as [Ht Hr0].
    destruct (Hfree (si s0)) as (m' & n' & Hrun & Hreg & Ha' & Hrt & Hv & Hln). exists m', (si s :: P), (sF s0).
    lf (focus_kid _ _ _ _ _ _ _ _ _ Hf : children n !! 0%nat = Some (si s0)). erewrite bind_run by reflexivity. split; [done|].
    rewrite HF in *. cbn in Hnd.
    split; [|split; [by rewrite <- Permutation_middle|split_and!; [done..|by rewrite <- Permutation_middle] ] ]. right. exists h, s0. rewrite Hrt.
    split_and!; try done; [|blia]. eapply rep_ext; [|done]. intros y Hy. rewrite Hreg. apply lookup_insert_ne. intros <-.
    apply NoDup_cons in Hnd as [Hni _]. apply Hni. mem.
Qed.

Lemma len_del key L l1 :
  l1 = u64 (Z.of_nat (length L)) →
  match look key L with Some _ => u64 (l1 - 1) | None => l1 end = u64 (Z.of_nat (length (del key L))).
Proof.
  intros ->. pose proof (length_del key L) as E. destruct (look key L); [|f_equal; lia]. unfold wrap. rewrite Zminus_mod_idemp_l. f_equal. lia.
Qed.

Lemma tree_hset f m r L F : tree m r L F → tree (hset f m) r L F.
Proof. intros [?|(h & s & Hr & ?)]; [by left|right; exists h, s]. split; [by apply rep_hset|done]. Qed.

Lemma remove_inner_spec m L P lost key :
  contents_ok m L P lost →
  ∃ m' P', remove_inner key m = (Ok (look key L), m') ∧ contents_ok m' (del key L) P' lost ∧ same_version m m'.
Proof.
  intros [Hs (F & Htree & Hnd & Hlost) Ha Hlen]. unfold remove_inner. rewrite (bind_run get_state _ m m m) by done. cbv beta zeta.
  destruct Htree as [(Er & -> & ->)|(h & s & Hr & Esi & <- & <- & Hc)].
  { rewrite Er, Z.eqb_refl. exists m, P. split; [done|]. split; [|done]. split; try done. exists []. split; [by left|done]. }
  destruct (tree_root _ _ _ _ _ _ _ Ha Hr Esi eq_refl eq_refl Hc) as [Hne _]. rewrite (proj2 (Z.eqb_neq _ _) Hne).
  rewrite <- Esi. destruct (delete_from_spec (depth_fuel m) h m P s key) as (m1 & P1 & s1 & Hrun & [ [C1 C2 C3 C4 C5 (C6 & C7 & C8)] Hcount HL1 Hln1]);
    [by eapply enough_fuel|done|by right|done|done|done|]. run Hrun.
  destruct (shrink_spec m1 P1 h s1) as (m2 & P2 & F & Hsh & Ht & Hnd2 & Ha2 & [V1 V2] & Hln2 & HF2); [done|done|by rewrite C4|congruence|].
  rewrite C3 in Hsh. run Hsh. rewrite C4 in HF2. rewrite HL1 in Ht. pose proof (len_del key (sL s) (len (header m2)) ltac:(congruence)) as Hld.
  destruct (look key (sL s)) as [v|].
  - erewrite bind_run by reflexivity. exists (hset (λ h, with_len (u64 (len h - 1)) h) m2), P2. split; [done|].
    split; [|split; cbn; congruence]. split; [by apply sorted_del| |by apply arena_hset|done]. exists F. split; [by apply tree_hset|split; [done|cbn; congruence] ].
  - rewrite (bind_run _ _ m2 tt m2) by done. exists m2, P2. split; [done|]. split; [|split; congruence].
    split; [by apply sorted_del| |done|done]. exists F. split; [done|]. split; [done|congruence].
Qed.

(** ** Mutations *)

(** The map between calls: no writer is at work. *)
Definition map_ok m L (lost : nat) : Prop := Z.odd (version (header m)) = false ∧ ∃ P, contents_ok m L P lost.

Lemma odd_wrap x : Z.odd (u64 x) = Z.odd x.
Proof. unfold wrap. rewrite <- !Z.bit0_odd, Z.mod_pow2_bits_low by lia. done. Qed.

Lemma contents_version m L P lost x : contents_ok m L P lost → contents_ok (hset (with_version x) m) L P lost.
Proof.
  intros [Hs (F & Ht & Hnd) Ha Hl]. split; try done; [|by apply arena_hset]. exists F. split; [by apply tree_hset|done].
Qed.

(** A mutation leaves the version even and runs its body in between. *)
Lemma mutation_spec {A} (body : M A) m L P lost :
  Z.odd (version (header m)) = false → contents_ok m L P lost →
  ∃ m0, contents_ok m0 L P lost ∧ mcapacity m0 = mcapacity m ∧
    ∀ r m' L' P' lost', body m0 = (r, m') → contents_ok m' L' P' lost' → same_version m0 m' →
      ∃ m'', mutation body m = (r, m'') ∧ map_ok m'' L' lost' ∧ contents_ok m'' L' P' lost' ∧ mcapacity m'' = mcapacity m.
Proof.
  intros Hv Hc. exists (hset (λ h, with_version (u64 (version h + 1)) h) m). split; [by apply contents_version|]. split; [done|].
  intros r m' L' P' lost' Hb Hc' [Hv' Hcap]. unfold mutation, begin_write. cbn -[hset]. fold (hset (λ h, with_version (u64 (version h + 1)) h) m).
  rewrite Hb. eexists. split; [done|]. pose proof (contents_version _ _ _ _ (u64 (version (header m') + 1)) Hc') as Hc2.
  split; [split; [|by exists P']|done]. cbn in *. rewrite odd_wrap, Hv', Z.odd_add, odd_wrap, Z.odd_add, Hv. done.
Qed.
(** No node is available. *)
Definition exhausted m : Prop := free_head (header m) = NIL ∧ node_count (header m) = mcapacity m.

Lemma arena_exhausted m : arena m [] → exhausted m.
Proof.
  intros [A1 _ _ _ _ (fl & E & Hf)]. symmetry in E. apply app_eq_nil in E as [-> E]. cbn in Hf. split; [done|].
  apply (f_equal length) in E. rewrite length_seqZ in E. cbn in E. lia.
Qed.

Lemma pool_size m L P lost :
  contents_ok m L P lost → 7 * (mcapacity m - Z.of_nat lost - Z.of_nat (length P)) ≤ Z.of_nat (length L) + 7.
Proof.
  intros [_ (F & Ht & _ & Hlost) _ _]. rewrite length_app in Hlost. assert (7 * length F ≤ length L + 7)%nat; [|lia].
  destruct Ht as [(_ & -> & ->)|(h & s & Hr & _ & <- & <- & _)]; [cbn; lia|]. by eapply rep_keys.
Qed.

(** An insertion is refused only when the nodes run out, which takes more keys
    than fill half of all but the lost nodes and fifteen others. *)
Lemma map_insert m L lost key value :
  map_ok m L lost →
  ∃ r m' L' lost', insert key value m = (r, m') ∧ map_ok m' L' lost' ∧ mcapacity m' = mcapacity m ∧
    (r = Ok (look key L) ∧ L' = ins key value L ∧ lost' = lost ∨
     r = Err Full ∧ L' = L ∧ (lost ≤ lost' ≤ S lost)%nat ∧ exhausted m' ∧
     7 * (mcapacity m - Z.of_nat lost - 14) ≤ Z.of_nat (length L)).
Proof.
  intros [Hv (P & Hc0)]. destruct (mutation_spec (insert_inner key value) m L P lost Hv Hc0) as (m0 & Hc & Hcap & Hmut).
  destruct (insert_inner_spec m0 L P lost key value Hc) as (r & m' & L' & P' & lost' & Hrun & Hout & Hc' & Hsv & Hsp).
  destruct (Hmut _ _ _ _ _ Hrun Hc' Hsv) as (m'' & Hrun' & Hok & Hc'' & Hcap'). exists r, m'', L', lost'.
  split; [done|]. split; [done|]. split; [done|].
  destruct Hout as [(-> & -> & _)|(-> & -> & _ & ->)]; [by left|right]. destruct Hsp as [Hl HP]. split; [done|]. split; [done|]. split; [done|].
  split; [by apply arena_exhausted, (co_arena _ _ _ _ Hc'')|]. pose proof (pool_size _ _ _ _ Hc0). lia.
Qed.

Lemma map_remove m L lost key :
  map_ok m L lost → ∃ m', remove key m = (Ok (look key L), m') ∧ map_ok m' (del key L) lost ∧ mcapacity m' = mcapacity m.
Proof.
  intros [Hv (P & Hc0)]. destruct (mutation_spec (remove_inner key) m L P lost Hv Hc0) as (m0 & Hc & Hcap & Hmut).
  destruct (remove_inner_spec m0 L P lost key Hc) as (m' & P' & Hrun & Hc' & Hsv).
  destruct (Hmut _ _ _ _ _ Hrun Hc' Hsv) as (m'' & Hrun' & Hok & _ & Hcap'). by exists m''.
Qed.

(** ** Sizes of the whole *)

Lemma map_bounds m L lost :
  map_ok m L lost → 0 ≤ mcapacity m < 2 ^ 32 - 1 ∧ Z.of_nat (length L) ≤ 15 * mcapacity m ∧ blen m = Z.of_nat (length L).
Proof.
  intros [_ (P & [Hs (F & Ht & Hnd & _) Ha Hl])]. pose proof (ar_cap _ _ Ha) as Hc. pose proof (ar_count _ _ Ha) as Hn. unfold NIL in Hc.
  assert (Z.of_nat (length L) ≤ 15 * mcapacity m) as Hle.
  { destruct Ht as [(_ & -> & _)|(h & s & Hr & _ & <- & <- & _)]; [cbn; lia|].
    pose proof (nodes_few _ _ _ _ Hr Ha Hnd). pose proof (rep_length _ _ _ Hr). blia. }
  split; [lia|]. split; [done|]. unfold blen. rewrite Hl. apply (wrap_small 64). lia.
Qed.
End map.
