(* ===== verification/BTreeRead.v ===== *)
(** The readers of the ordered map, on a map at rest. *)
From stdpp Require Import gmap sorting.
From S2P Require Import Prelude BTree SortedMap BTreeNodes BTreeRep BTreeDelete BTreeMap.

Section read.
Context {K V : Type} `{KeyOrd K}.
Implicit Types (m : SharedBTreeMap K V) (n : BTreeNode K V) (L : list (K * V)) (s p : sub (K := K) (V := V)) (P : list Z).

(** Every node of a subtree is inside the region. *)
Definition inside m (cap : Z) : Prop := ∀ x n, region m !! x = Some n → x < cap ∧ x ≠ NIL.

Lemma descend_spec fuel h m cap s key :
  (h < fuel)%nat → inside m cap → rep m h s → sorted (sL s) → descend fuel m cap (si s) key = Some (Done (look key (sL s))).
Proof.
  intros Hf Hin. revert h s Hf. induction fuel as [|fuel IH]; intros h s Hf Hr Hs; [lia|]. cbn [descend].
  destruct (search_run m h s key Hr Hs) as (n & A & Bs & ss & [Hn Hni] & Hsc & Hss & HL & HF & HA & Hcase).
  destruct (Hin _ _ Hn) as [Hlt Hne]. rewrite (proj2 (Z.eqb_neq _ _) Hne), (proj2 (Z.leb_gt _ _) Hlt), Hn. cbn [mbind option_bind].
  assert (∀ r, search (si s) key m = (Ok r, m) → search_node n key = Some r) as Hse.
  { intros r. unfold search. rewrite (bind_run _ _ _ _ _ (node_run _ _ _ Hn)). unfold lift. destruct (search_node n key); [|done]. by intros [= ->]. }
  destruct Hcase as [ [E HB]|(v & B' & -> & E)]; apply Hse in E; rewrite E; cbn [mbind option_bind].
  2:{ rewrite (value_at _ _ _ _ (proj1 (proj2 Hni))). cbn. destruct (subs_cut _ _ _ _ _ _ Hss) as (S1 & S2 & -> & _ & _ & Ec).
      rewrite HL, Ec in *. by destruct (ops_found key v v _ _ Hs) as (-> & _). }
  rewrite (proj1 Hni). destruct h as [|h].
  - cbn in HL. rewrite HL. by destruct (ops_absent key A Bs HA HB) as (-> & _).
  - rewrite bool_decide_false by done. destruct (focus_at m h s n A Bs ss Hn Hni Hsc Hss HL HF) as (SA & s0 & SB & -> & Hfo).
    rewrite (focus_kid _ _ _ _ _ _ _ _ _ Hfo). cbn. destruct (focus_bounds _ _ _ _ _ _ _ _ _ key Hfo Hs HA HB) as (Hu & Ho & Hs0).
    destruct (focus_sub _ _ _ _ _ _ _ _ _ Hfo) as [_ Hr0]. rewrite (IH h s0) by (done || lia).
    destruct Hfo as (_ & _ & _ & -> & _). by rewrite look_mid.
Qed.

(** ** Iteration *)

(** The contents of the subtrees of a node from the [i]th on; a leaf has none. *)
Definition kid_lists n (i : nat) (ls : list (list (K * V))) (Q : Z → list (K * V) → Prop) : Prop :=
  ∀ j l, ls !! j = Some l → if is_leaf n then l = [] else ∃ c, children n !! (i + j)%nat = Some c ∧ Q c l.

Lemma walk_keys_spec rec n A Bs ls :
  pairs_ok n (A ++ Bs) → length ls = length Bs → kid_lists n (length A) ls (λ c l, rec c = Some l) →
  walk_keys rec n (length A) (length Bs) = Some (pre ls Bs).
Proof.
  intros Hp. revert A ls Hp. induction Bs as [|b Bs IH]; intros A ls Hp Hl Hk; [by destruct ls|]. destruct ls as [|l ls]; [done|].
  cbn [length walk_keys]. pose proof (Hk 0%nat l eq_refl) as H0. rewrite Nat.add_0_r in H0.
  assert ((if is_leaf n then Some [] else c ← children n !! length A; rec c) = Some l) as ->.
  { destruct (is_leaf n); [by rewrite H0|]. destruct H0 as (c & -> & Hc). done. }
  cbn [mbind option_bind]. rewrite (pair_at_spec _ _ _ _ Hp). cbn [mbind option_bind].
  specialize (IH (A ++ [b]) ls). rewrite length_app, Nat.add_comm in IH. cbn [length Nat.add] in IH. rewrite IH.
  - cbn. by rewrite <- (assoc_L (++)).
  - by rewrite <- (assoc_L (++)).
  - cbn in Hl. lia.
  - intros j l' Hj. specialize (Hk (S j) l' Hj). by rewrite Nat.add_succ_r in Hk.
Qed.

(** A node's subtrees but the last, and the last. *)
Lemma body_parts m h s :
  rep m h s → ∃ n kvs ls last,
    region m !! si s = Some n ∧ pairs_ok n kvs ∧ sc s = length kvs ∧ length ls = length kvs ∧ sL s = pre ls kvs ++ last ∧
    ∀ (Q : Z → list (K * V) → Prop), (∀ h' c, h = S h' → rep m h' c → Q (si c) (sL c)) →
      kid_lists n 0 ls Q ∧ (if is_leaf n then last = [] else ∃ c, children n !! length kvs = Some c ∧ Q c last).
Proof.
  intros Hr. destruct h as [|h].
  - destruct Hr as (n & Hn & Hlf & Hp & _ & Hsc & _). exists n, (sL s), (replicate (length (sL s)) []), []. split; [done|]. split; [done|].
    split; [done|]. split; [by rewrite length_replicate|]. split.
    { rewrite app_nil_r. clear. induction (sL s) as [|x l IH]; [done|]. cbn. by rewrite <- IH at 1. }
    intros Q _. rewrite Hlf. split; [|done]. intros j l Hj. rewrite Hlf. by apply lookup_replicate in Hj as [-> _].
  - destruct (rep_node _ _ _ Hr) as (n & Hn & Hlf & _). destruct (rep_focus _ _ _ _ Hr Hn) as (kvs & Hp & Hsc & Hlf' & Hfo).
    destruct (Hfo kvs [] (eq_sym (app_nil_r _))) as (SA & s0 & SB & Hf). pose proof Hf as (_ & [_ Hk] & (HA & HB & _) & HL & _ & Hg).
    destruct SB; [|done]. exists n, kvs, (sL <$> SA), (sL s0). split; [done|]. split; [done|]. split; [done|]. split; [by rewrite length_fmap|].
    split; [by rewrite HL; cbn; rewrite app_nil_r|]. intros Q HQ. rewrite Forall_forall in Hg. split.
    + intros j l Hj. rewrite Hlf'. rewrite list_lookup_fmap in Hj. apply fmap_Some in Hj as (c & Hc & ->).
      exists (si c). split; [|by apply (HQ h); [|apply Hg, elem_of_app; left; by eapply list_elem_of_lookup_2] ].
      destruct Hk as [ [jc Hjc] _]. rewrite Hjc, fmap_app, <- (assoc_L (++)). cbn [Nat.add]. rewrite lookup_app_l by (rewrite length_fmap; by eapply lookup_lt_Some).
      by rewrite list_lookup_fmap, Hc.
    + rewrite Hlf'. exists (si s0). split; [by eapply focus_kid|]. apply (HQ h); [done|]. apply Hg. mem.
Qed.

Lemma walk_spec fuel h m s : (h < fuel)%nat → rep m h s → walk fuel m (si s) = Some (sL s).
Proof.
  revert h s. induction fuel as [|fuel IH]; intros h s Hf Hr; [lia|]. cbn [walk].
  destruct (body_parts m h s Hr) as (n & kvs & ls & last & Hn & Hp & Hsc & Hls & HL & HQ). rewrite Hn. cbn [mbind option_bind].
  destruct (HQ (λ c l, walk fuel m c = Some l)) as [Hk Hlast]; [intros h' c -> Hc; apply (IH h'); [lia|done]|].
  rewrite (po_count _ _ Hp). rewrite (walk_keys_spec (walk fuel m) n [] kvs ls Hp Hls Hk : walk_keys _ n 0 _ = _). cbn [mbind option_bind]. rewrite HL.
  destruct (is_leaf n); [by rewrite Hlast|]. destruct Hlast as (c & -> & Hc). cbn [mbind option_bind]. rewrite Hc. done.
Qed.
(** ** Ranges *)

Section range.
Context (low high : Bound K) (limit : nat).

Definition pick (L : list (K * V)) : list (K * V) := filter (λ kv, Is_true (in_range low high kv)) L.

Lemma pick_nil L : (∀ x, x ∈ L → in_range low high x = false) → pick L = [].
Proof.
  induction L as [|x L IH]; intros Hn; [done|]. unfold pick. rewrite filter_cons_False; [apply IH; intros y Hy; apply Hn; mem|].
  rewrite Hn by mem. by intros [].
Qed.

Lemma pick_app L1 L2 : pick (L1 ++ L2) = pick L1 ++ pick L2.
Proof. apply filter_app. Qed.

(** A scan that had found [O] has gone over [L], with [R] to come: it has all
    of [L] and room, or it has stopped with all it will ever return. *)
Definition scanned (O L R : list (K * V)) (w : scan K V) : Prop :=
  torn w = false ∧
  (stop w = true ∧ out w = take limit (O ++ pick (L ++ R)) ∨ stop w = false ∧ out w = O ++ pick L ∧ (length (out w) < limit)%nat).

Definition running (w : scan K V) : Prop := torn w = false ∧ stop w = false ∧ (length (out w) < limit)%nat.

Lemma scanned_trans O L1 L2 R w1 w2 :
  scanned O L1 (L2 ++ R) w1 → (stop w1 = true → w2 = w1) → (stop w1 = false → scanned (out w1) L2 R w2) → scanned O (L1 ++ L2) R w2.
Proof.
  intros [Ht Hc] Hs Hr. destruct Hc as [ [E1 E2]|(E1 & E2 & E3)].
  - rewrite (Hs E1). split; [done|]. left. by rewrite <- (assoc_L (++)).
  - destruct (Hr E1) as [Ht2 Hc2]. split; [done|]. rewrite E2 in *. rewrite !pick_app, <- !(assoc_L (++)) in *. destruct Hc2 as [ [? ->]|(? & -> & ?)]; [by left|].
    right. split; [done|]. rewrite !(assoc_L (++)) in *. done.
Qed.

Lemma above_high_mono k k' : cmp k k' = Lt → above_high k high = true → above_high k' high = true.
Proof.
  unfold above_high, key_gt, key_ge. destruct high as [b|b|]; [| |done]; intros Hlt.
  - destruct (cmp k b) eqn:E; try done. apply cmp_gt in E. by rewrite (proj2 (cmp_gt k' b) (cmp_trans _ _ _ E Hlt)).
  - destruct (cmp k b) eqn:E; try done; [apply cmp_eq in E as <-|apply cmp_gt in E; pose proof (cmp_trans _ _ _ E Hlt) as Hlt'].
    + by rewrite (proj2 (cmp_gt k' k) Hlt).
    + by rewrite (proj2 (cmp_gt k' b) Hlt').
Qed.

(** Keys above the high bound, and keys below one that does not pass the low
    bound, contribute nothing. *)
Lemma pick_above (kv : K * V) R : above_high kv.1 high = true → sorted (kv :: R) → pick (kv :: R) = [].
Proof.
  intros Hh Hs. apply pick_nil. intros x Hx. unfold in_range. assert (above_high x.1 high = true) as ->; [|by rewrite andb_false_r].
  apply elem_of_cons in Hx as [->|Hx]; [done|]. apply StronglySorted_inv in Hs as [_ Hf]. rewrite Forall_forall in Hf.
  by eapply above_high_mono, Hh; apply Hf.
Qed.

Lemma pick_below L (kv : K * V) : low_admits_below kv.1 low = false → under kv.1 L → pick L = [].
Proof.
  intros Hl Hu. apply pick_nil. intros x Hx. unfold in_range.
  assert (at_or_above_low x.1 low = false) as ->; [|done]. specialize (Hu x Hx). unfold low_admits_below, at_or_above_low, key_gt, key_ge in *.
  destruct low as [b|b|]; [| |done]; destruct (cmp kv.1 b) eqn:E; try done.
  - apply cmp_eq in E as <-. by rewrite Hu.
  - by rewrite (cmp_trans _ _ _ Hu E).
  - apply cmp_eq in E as <-. by rewrite Hu.
  - by rewrite (cmp_trans _ _ _ Hu E).
Qed.

(** One pair. *)
Lemma scan_pair (w : scan K V) kv R :
  running w → sorted (kv :: R) →
  let w1 := {| out := out w ++ [kv]; torn := torn w; stop := stop w |} in
  let w' :=
    if above_high kv.1 high then {| out := out w; torn := torn w; stop := true |}
    else if at_or_above_low kv.1 low then
      if (limit <=? length (out w1))%nat then {| out := out w1; torn := torn w1; stop := true |} else w1
    else w in
  scanned (out w) [kv] R w'.
Proof.
  intros (Ht & Hst & Hlt) Hs w1 w'. unfold w'. destruct (above_high kv.1 high) eqn:Eh.
  - split; [done|]. left. split; [done|]. cbn [out app]. rewrite (pick_above kv R Eh Hs), app_nil_r, firstn_all2 by lia. done.
  - destruct (at_or_above_low kv.1 low) eqn:El.
    + assert (pick [kv] = [kv]) as E by (unfold pick, in_range; cbn; rewrite El, Eh; done).
      destruct (Nat.leb_spec limit (length (out w1))) as [Hge|Hl].
      * split; [done|]. left. split; [done|]. cbn [out] in *. change ([kv] ++ R) with ([kv] ++ R). rewrite pick_app, E.
        unfold w1 in *. cbn [out] in *. rewrite length_app in Hge. cbn in Hge. rewrite (assoc_L (++)), take_app_length'; [done|]. rewrite length_app. cbn. lia.
      * split; [done|]. right. by rewrite E.
    + assert (pick [kv] = []) as E by (unfold pick, in_range; cbn; rewrite El; done).
      split; [done|]. right. rewrite E, app_nil_r. done.
Qed.

Lemma scanned_none (w : scan K V) L R : running w → pick L = [] → scanned (out w) L R w.
Proof. intros (? & ? & ?) E. split; [done|]. right. by rewrite E, app_nil_r. Qed.

Lemma scanned_running O L R w : scanned O L R w → stop w = false → running w.
Proof. intros [? [ [E _]|(_ & _ & ?)] ] ?; [congruence|done]. Qed.

Lemma sorted_tail L R : sorted (L ++ R) → sorted R.
Proof. apply StronglySorted_app_1_r. Qed.
Lemma sorted_under L (kv : K * V) R : sorted (L ++ kv :: R) → under kv.1 L.
Proof. intros Hs x Hx. apply (StronglySorted_app_1_elem_of _ _ _ _ _ Hs Hx). mem. Qed.

(** A scan of a subtree, in a map where [R] follows it. *)
Definition scans (rec : Z → scan K V → option (scan K V)) (c : Z) (l : list (K * V)) : Prop :=
  ∀ R w, running w → sorted (l ++ R) → ∃ w', rec c w = Some w' ∧ scanned (out w) l R w'.

Lemma range_keys_spec rec n A Bs ls R w :
  pairs_ok n (A ++ Bs) → length ls = length Bs → kid_lists n (length A) ls (scans rec) →
  sorted (pre ls Bs ++ R) → running w →
  ∃ w', range_keys rec n low high limit (length A) (length Bs) w = Some w' ∧ scanned (out w) (pre ls Bs) R w'.
Proof.
  intros Hp. revert A ls Hp w. induction Bs as [|b Bs IH]; intros A ls Hp w Hl Hk Hs Hw.
  { destruct ls; [|done]. exists w. split; [done|]. by apply scanned_none. }
  destruct ls as [|l ls]; [done|]. assert (pre (l :: ls) (b :: Bs) = l ++ [b] ++ pre ls Bs) as Epre by (cbn; by rewrite <- (assoc_L (++))). rewrite Epre in *. rewrite <- !(assoc_L (++)) in Hs.
  cbn [length range_keys]. rewrite (key_at _ _ _ _ Hp). cbn [mbind option_bind].
  assert (∃ w1, (if negb (is_leaf n) && low_admits_below b.1 low then c ← children n !! length A; rec c w else Some w) = Some w1 ∧
    scanned (out w) l (([b] ++ pre ls Bs) ++ R) w1) as (w1 & Hw1 & Hsc1).
  { pose proof (Hk 0%nat l eq_refl) as H0. rewrite Nat.add_0_r in H0. destruct (is_leaf n); cbn [negb andb].
    - subst l. exists w. split; [done|]. by apply scanned_none.
    - destruct (low_admits_below b.1 low) eqn:El.
      + destruct H0 as (c & -> & Hc). apply Hc; [done|]. by rewrite <- (assoc_L (++)).
      + exists w. split; [done|]. apply scanned_none; [done|]. eapply pick_below; [done|]. by eapply sorted_under. }
  cbn [mbind option_bind] in Hw1. rewrite Hw1. cbn [mbind option_bind].
  assert (halted w1 = stop w1) as Eh by (unfold halted; by rewrite (proj1 Hsc1)).
  destruct (stop w1) eqn:Est; rewrite Eh.
  { exists w1. split; [done|]. eapply scanned_trans; [done|done|congruence]. }
  pose proof (scanned_running _ _ _ _ Hsc1 Est) as Hr1. apply sorted_tail in Hs.
  pose proof (scan_pair w1 b (pre ls Bs ++ R) Hr1 Hs) as Hsc2. cbv zeta in Hsc2.
  assert (∀ w2, running w2 → ∃ w', range_keys rec n low high limit (S (length A)) (length Bs) w2 = Some w' ∧ scanned (out w2) (pre ls Bs) R w') as Hrest.
  { intros w2 Hr2. specialize (IH (A ++ [b]) ls). rewrite length_app, Nat.add_comm in IH. cbn [length Nat.add] in IH. apply IH; [|cbn in Hl; lia| |by apply sorted_tail in Hs|done].
    - by rewrite <- (assoc_L (++)).
    - intros j l' Hj. specialize (Hk (S j) l' Hj). by rewrite Nat.add_succ_r in Hk. }
  assert (∀ w2, scanned (out w1) [b] (pre ls Bs ++ R) w2 → stop w2 = false → ∃ w',
    range_keys rec n low high limit (S (length A)) (length Bs) w2 = Some w' ∧ scanned (out w) (l ++ [b] ++ pre ls Bs) R w') as Hgo.
  { intros w2 H2 E2. destruct (Hrest w2 (scanned_running _ _ _ _ H2 E2)) as (w' & Hw' & Hsc'). exists w'. split; [done|].
    eapply scanned_trans; [done|congruence|intros _]. eapply scanned_trans; [done|congruence|done]. }
  assert (∀ w2, scanned (out w1) [b] (pre ls Bs ++ R) w2 → stop w2 = true → ∃ w', Some w2 = Some w' ∧ scanned (out w) (l ++ [b] ++ pre ls Bs) R w') as Hend.
  { intros w2 H2 E2. exists w2. split; [done|]. eapply scanned_trans; [done|congruence|intros _]. eapply scanned_trans; [done|done|congruence]. }
  rewrite Est in Hsc2. revert Hsc2. destruct (above_high b.1 high); [intros; by apply Hend|]. destruct (at_or_above_low b.1 low); [|intros; by apply Hgo].
  rewrite (value_at _ _ _ _ Hp). cbn [mbind option_bind]. rewrite <- surjective_pairing. cbn [out torn stop].
  destruct (limit <=? _)%nat; intros; [by apply (Hend {| stop := true |})|by apply Hgo].
Qed.

Lemma walk_range_spec depth h m cap s :
  (h < depth)%nat → inside m cap → rep m h s → scans (walk_range depth m cap low high limit) (si s) (sL s).
Proof.
  intros Hd Hin. revert h s Hd. induction depth as [|depth IH]; intros h s Hd Hr R w Hw Hs; [lia|]. cbn [walk_range].
  assert (∀ w' : scan K V, torn w' = false → halted w' = stop w') as Eh by (intros w' E; unfold halted; by rewrite E).
  rewrite (Eh w) by apply Hw. rewrite (proj1 (proj2 Hw)).
  destruct (body_parts m h s Hr) as (n & kvs & ls & last & Hn & Hp & Hsc & Hls & HL & HQ).
  destruct (Hin _ _ Hn) as [Hlt _]. rewrite (proj2 (Z.leb_gt _ _) Hlt), Hn. cbn [mbind option_bind].
  destruct (HQ (scans (walk_range depth m cap low high limit))) as [Hk Hlast]; [intros h' c -> Hc; apply (IH h'); [lia|done]|].
  rewrite (po_count _ _ Hp), Nat.min_l by (by apply pairs_bound in Hp). rewrite HL in *. rewrite <- (assoc_L (++)) in Hs.
  destruct (range_keys_spec (walk_range depth m cap low high limit) n [] kvs ls (last ++ R) w Hp Hls Hk Hs Hw) as (w1 & E1 & Hsc1).
  change (length (A := K * V) []) with 0%nat in E1. rewrite E1. cbn [mbind option_bind]. rewrite (Eh w1) by apply Hsc1.
  destruct (stop w1) eqn:Est.
  { exists w1. split; [done|]. eapply scanned_trans; [done|done|congruence]. }
  pose proof (scanned_running _ _ _ _ Hsc1 Est) as Hr1. apply sorted_tail in Hs. destruct (is_leaf n).
  - subst last. exists w1. split; [done|]. by rewrite app_nil_r.
  - destruct Hlast as (c & -> & Hc). cbn [mbind option_bind]. destruct (Hc R w1 Hr1 Hs) as (w2 & E2 & Hsc2). exists w2. split; [done|].
    eapply scanned_trans; [done|congruence|done].
Qed.
End range.

(** ** A map between calls *)

(** A map is empty, or its tree is shallow and within the region. *)
Lemma map_tree m L lost :
  map_ok m L lost →
  Z.odd (version (header m)) = false ∧ sorted L ∧
  ((root (header m) =? NIL) = true ∧ L = [] ∨
   (root (header m) =? NIL) = false ∧ ∃ h s, rep m h s ∧ si s = root (header m) ∧ sL s = L ∧ (1 ≤ sc s)%nat ∧
     (h < depth_fuel m)%nat ∧ (h < MAX_TREE_DEPTH)%nat ∧ inside m (u32 (mcapacity m))).
Proof.
  intros [Hv (P & [Hs (F & Ht & Hnd & _) Ha _])]. split; [done|]. split; [done|].
  destruct Ht as [(-> & -> & _)|(h & s & Hr & Er & <- & <- & Hc)]; [left; by rewrite Z.eqb_refl|right].
  destruct (tree_root _ _ _ _ _ _ _ Ha Hr Er eq_refl eq_refl Hc) as [Hne _]. split; [by apply Z.eqb_neq|]. exists h, s.
  pose proof (ar_cap _ _ Ha) as Hcap. pose proof (ar_count _ _ Ha) as Hcnt. unfold NIL in Hcap. pose proof (nodes_few _ _ _ _ Hr Ha Hnd) as Hfew.
  split_and!; try done; [by eapply enough_fuel|pose proof (root_depth _ _ _ Hr); unfold MAX_TREE_DEPTH; lia|].
  intros x n Hn. rewrite (wrap_small 32) by lia. split; [|by eapply node_index]. pose proof (ar_dom _ _ Ha _ _ Hn). lia.
Qed.

Lemma reader_get m L lost key : map_ok m L lost → get_inner m key = Some (Done (look key L)).
Proof.
  intros (Hv & Hs & [ [Hr ->]|(Hr & h & s & Hrep & E & <- & _ & Hf & _ & Hin)])%map_tree; unfold get_inner; rewrite Hv.
  - apply Z.eqb_eq in Hr. rewrite Hr. done.
  - rewrite <- E. by eapply descend_spec.
Qed.

Lemma reader_contains m L lost key :
  map_ok m L lost → contains_key m key = Some (Done (match look key L with Some _ => true | None => false end)).
Proof. intros Hm. unfold contains_key. rewrite (reader_get _ _ _ _ Hm). cbn. by destruct (look key L). Qed.

Lemma reader_first m L lost : map_ok m L lost → first m = Some (head L).
Proof.
  intros (_ & Hs & [ [Hr ->]|(Hr & h & s & Hrep & E & <- & Hc & Hf & _ & _)])%map_tree; unfold first; rewrite Hr; [done|].
  rewrite <- E. destruct (min_pair_spec (depth_fuel m) h m s Hf Hrep Hc) as (R & kv & Hrun & ->). by rewrite Hrun.
Qed.

Lemma reader_range m L lost low high limit :
  map_ok m L lost → range_inner m low high limit = Some (Done (take limit (pick low high L))).
Proof.
  intros (Hv & Hs & [ [Hr ->]|(Hr & h & s & Hrep & E & <- & Hc & _ & Hd & Hin)])%map_tree; unfold range_inner; rewrite Hv, Hr;
    destruct (Nat.eqb_spec limit 0) as [->|Hl]; try done.
  { cbn. by rewrite take_nil. }
  destruct (walk_range_spec low high limit MAX_TREE_DEPTH h m (u32 (mcapacity m)) s Hd Hin Hrep [] {| out := []; torn := false; stop := false |})
    as (w & Hw & Ht & Hcase); [split_and!; [done..|cbn; lia]|by rewrite app_nil_r|].
  rewrite <- E, Hw. cbn [mbind option_bind]. rewrite Ht. do 2 f_equal. rewrite app_nil_r in Hcase. cbn [out app] in Hcase.
  destruct Hcase as [ [_ ->]|(_ & Ho & Hlt)]; [done|]. rewrite <- Ho, firstn_all2 by lia. done.
Qed.

Lemma reader_iter m L lost : map_ok m L lost → iter_ascending m = Some L.
Proof.
  intros (_ & Hs & [ [Hr ->]|(Hr & h & s & Hrep & E & <- & _ & Hf & _ & _)])%map_tree; unfold iter_ascending; rewrite Hr; [done|].
  rewrite <- E. by eapply walk_spec.
Qed.
End read.
