(* ===== verification/BTreeRefine.v ===== *)
(** The ordered map refines a sorted association list, and its tree is
    balanced. Then the calls that do not: an update that is refused, a refusal
    that loses a node, and a reader that never leaves a removed node. *)
From stdpp Require Import gmap sorting.
From S2P Require Import Prelude BTree SortedMap BTreeNodes BTreeRep BTreeDelete BTreeMap BTreeRead.

Section refine.
Context {K V : Type} `{KeyOrd K}.
Implicit Types (m : SharedBTreeMap K V) (n : BTreeNode K V) (L : list (K * V)) (s : sub (K := K) (V := V)).

(** ** Calls *)

Inductive call :=
| Insert (key : K) (value : V) | Remove (key : K) | Get (key : K) | ContainsKey (key : K) | First
| Range (low high : Bound K) (limit : nat) | IterAscending | Len | IsEmpty.

Inductive reply :=
| Wrote (r : res BTreeError (option V)) | Found (v : option V) | Yes (b : bool) | Pair (kv : option (K * V))
| Pairs (l : list (K * V)) | Size (n : Z).

(** A call on a map at rest. [None]: it panics, or a reader has to try again. *)
Definition exec (c : call) (m : SharedBTreeMap K V) : option (reply * SharedBTreeMap K V) :=
  match c with
  | Insert k v => match insert k v m with (Panic, _) => None | (r, m') => Some (Wrote r, m') end
  | Remove k => match remove k m with (Panic, _) => None | (r, m') => Some (Wrote r, m') end
  | Get k => match get_inner m k with Some (Done v) => Some (Found v, m) | _ => None end
  | ContainsKey k => match contains_key m k with Some (Done b) => Some (Yes b, m) | _ => None end
  | First => kv ← first m; Some (Pair kv, m)
  | Range low high limit => match range_inner m low high limit with Some (Done l) => Some (Pairs l, m) | _ => None end
  | IterAscending => l ← iter_ascending m; Some (Pairs l, m)
  | Len => Some (Size (blen m), m)
  | IsEmpty => Some (Yes (bis_empty m), m)
  end.

Fixpoint run (cs : list call) (m : SharedBTreeMap K V) : option (list reply * SharedBTreeMap K V) :=
  match cs with
  | [] => Some ([], m)
  | c :: cs => '(r, m) ← exec c m; '(rs, m) ← run cs m; Some (r :: rs, m)
  end.

(** ** The contract *)

Definition answer (c : call) (L : list (K * V)) : reply * list (K * V) :=
  match c with
  | Insert k v => (Wrote (Ok (look k L)), ins k v L)
  | Remove k => (Wrote (Ok (look k L)), del k L)
  | Get k => (Found (look k L), L)
  | ContainsKey k => (Yes (match look k L with Some _ => true | None => false end), L)
  | First => (Pair (head L), L)
  | Range low high limit => (Pairs (take limit (pick low high L)), L)
  | IterAscending => (Pairs L, L)
  | Len => (Size (Z.of_nat (length L)), L)
  | IsEmpty => (Yes (match L with [] => true | _ => false end), L)
  end.

(** A map of [cap] nodes that has refused [r] insertions may refuse another one
    only while it holds at least [7 * (cap - r - 14)] pairs. *)
Inductive omap_step (cap : Z) : list (K * V) * nat → call * reply → list (K * V) * nat → Prop :=
| answered L r c : omap_step cap (L, r) (c, (answer c L).1) ((answer c L).2, r)
| refused L r k v :
    7 * (cap - Z.of_nat r - 14) ≤ Z.of_nat (length L) →
    omap_step cap (L, r) (Insert k v, Wrote (Err Full)) (L, S r).

Definition represents (cap : Z) m (a : list (K * V) * nat) : Prop :=
  mcapacity m = cap ∧ ∃ lost, (lost ≤ a.2)%nat ∧ map_ok m a.1 lost.

Lemma exec_step cap m a c :
  represents cap m a → ∃ r m' a', exec c m = Some (r, m') ∧ omap_step cap a (c, r) a' ∧ represents cap m' a'.
Proof.
  destruct a as [L rf]. intros [Hcap (lost & Hl & Hm)]. cbn in Hl, Hm. pose proof (map_bounds _ _ _ Hm) as (_ & _ & Hlen).
  assert (represents cap m (L, rf)) as Hrep by (split; [done|]; exists lost; done).
  assert (∀ r, r = (answer c L).1 → (answer c L).2 = L → exec c m = Some (r, m) →
    ∃ r m' a', exec c m = Some (r, m') ∧ omap_step cap (L, rf) (c, r) a' ∧ represents cap m' a') as Hread.
  { intros r -> E Hx. exists (answer c L).1, m, (L, rf). split; [done|]. split; [|done]. pose proof (answered cap L rf c) as Hs. by rewrite E in Hs. }
  destruct c; cbn [exec] in *.
  - destruct (map_insert m L lost key value Hm) as (r & m' & L' & lost' & Hrun & Hm' & Hc' & Hcase). rewrite Hrun.
    destruct Hcase as [(-> & -> & ->)|(-> & -> & Hl' & _ & Hfull)].
    + exists (Wrote (Ok (look key L))), m', (ins key value L, rf). split; [done|]. split; [by apply (answered _ _ _ (Insert key value))|].
      split; [congruence|]. by exists lost.
    + exists (Wrote (Err Full)), m', (L, S rf). split; [done|]. split; [constructor; lia|]. split; [congruence|]. exists lost'. cbn. split; [lia|done].
  - destruct (map_remove m L lost key Hm) as (m' & Hrun & Hm' & Hc'). rewrite Hrun.
    exists (Wrote (Ok (look key L))), m', (del key L, rf). split; [done|]. split; [by apply (answered _ _ _ (Remove key))|].
    split; [congruence|]. by exists lost.
  - eapply Hread; [done..|]. by rewrite (reader_get _ _ _ _ Hm).
  - eapply Hread; [done..|]. by rewrite (reader_contains _ _ _ _ Hm).
  - eapply Hread; [done..|]. by rewrite (reader_first _ _ _ Hm).
  - eapply Hread; [done..|]. by rewrite (reader_range _ _ _ _ _ _ Hm).
  - eapply Hread; [done..|]. by rewrite (reader_iter _ _ _ Hm).
  - eapply Hread; [done..|]. by rewrite Hlen.
  - eapply Hread; [done..|]. cbn. unfold bis_empty. rewrite Hlen. do 3 f_equal. destruct L; [done|]. by apply Z.eqb_neq.
Qed.

(** ** Creation *)

(** The bytes of the node array, at their indices. *)
Definition mapped (cap : Z) (fill : gmap Z (BTreeNode K V)) : Prop :=
  ∀ x, match fill !! x with Some n => 0 ≤ x < cap ∧ shape n | None => ¬ 0 ≤ x < cap end.

Lemma created_ok cap ksize vsize fill :
  1 ≤ cap < NIL → mapped cap fill → represents cap (created cap ksize vsize fill) ([], 0%nat).
Proof.
  intros Hcap Hmap. split; [done|]. exists 0%nat. split; [done|]. split; [done|]. exists (seqZ 0 cap). split.
  - constructor.
  - exists []. split; [by left|]. split; [apply NoDup_seqZ|]. cbn. rewrite length_seqZ. lia.
  - split; cbn; try lia.
    + intros x Hx. specialize (Hmap x). destruct (fill !! x) as [n|]; [|done]. exists n. by destruct Hmap.
    + intros x n Hn. specialize (Hmap x). rewrite Hn in Hmap. by destruct Hmap.
    + intros x Hx%elem_of_seqZ. lia.
    + exists []. split; [|done]. cbn. by rewrite Z.sub_0_r.
  - done.
Qed.

Lemma run_spec cap cs m a :
  represents cap m a → ∃ rs m' a', run cs m = Some (rs, m') ∧ length rs = length cs ∧ ltrace (omap_step cap) a (zip cs rs) a' ∧ represents cap m' a'.
Proof.
  revert m a. induction cs as [|c cs IH]; intros m a Hr; [exists [], m, a; eauto using ltrace|].
  destruct (exec_step cap m a c Hr) as (r & m1 & a1 & Hx & Hst & Hr1). destruct (IH m1 a1 Hr1) as (rs & m' & a' & Hrun & Hl & Ht & Hr').
  exists (r :: rs), m', a'. cbn [run]. rewrite Hx. cbn. rewrite Hrun. cbn. split; [done|]. split; [lia|]. split; [|done]. by eapply ltrace_cons.
Qed.

(** ** Balance *)

(** The height of a subtree whose nodes hold at least [low] pairs, below the
    root at least seven, and whose leaves are all at one depth. *)
Fixpoint height (fuel : nat) (m : SharedBTreeMap K V) (low : nat) (idx : Z) : option nat :=
  match fuel with
  | O => None
  | S fuel =>
      n ← region m !! idx;
      if (low <=? count n)%nat && (count n <=? B)%nat then
        if is_leaf n then Some 0%nat
        else
          hs ← mapM (height fuel m (T - 1)) (take (S (count n)) (children n));
          match hs with
          | h :: hs => if forallb (Nat.eqb h) hs then Some (S h) else None
          | [] => None
          end
      else None
  end.

Lemma mapM_same {X Y} (f : X → option Y) (xs : list X) y :
  (∀ x, x ∈ xs → f x = Some y) → mapM f xs = Some (replicate (length xs) y).
Proof.
  induction xs as [|x xs IH]; intros Hf; [done|]. cbn. rewrite (Hf x) by mem. cbn. rewrite IH; [done|]. intros z Hz. apply Hf. mem.
Qed.

Lemma rep_balanced fuel h m s low :
  (h < fuel)%nat → rep m h s → (low ≤ sc s)%nat → height fuel m low (si s) = Some h.
Proof.
  revert h s low. induction fuel as [|fuel IH]; intros h s low Hf Hr Hc; [lia|]. cbn [height].
  destruct (rep_node _ _ _ Hr) as (n & Hn & Hlf & Hcn). pose proof (rep_count _ _ _ Hr) as Hb. rewrite Hn. cbn [mbind option_bind].
  rewrite Hcn, (proj2 (Nat.leb_le _ _) Hc), (proj2 (Nat.leb_le _ _) Hb). cbn [andb]. destruct h as [|h].
  - by rewrite (Hlf : is_leaf n = true).
  - rewrite (Hlf : is_leaf n = false). cbn [rep] in Hr. destruct Hr as (n' & kvs & ss & Hn' & _ & _ & Hk & Hsc & Hl & _ & _ & Hg). assert (n' = n) as -> by congruence.
    assert (take (S (sc s)) (children n) = si <$> ss) as ->.
    { destruct Hk as [ [jc ->] _]. rewrite take_app_length'; [done|]. rewrite length_fmap. lia. }
    rewrite (mapM_same _ _ h).
    + cbn [mbind option_bind]. rewrite length_fmap. destruct ss as [|c ss]; [done|]. cbn [length replicate].
      assert (forallb (Nat.eqb h) (replicate (length ss) h) = true) as ->; [|done].
      apply forallb_forall. intros x Hx. apply list_elem_of_In, elem_of_replicate in Hx as [-> _]. apply Nat.eqb_refl.
    + intros x Hx. apply list_elem_of_fmap in Hx as (c & -> & Hc'). rewrite Forall_forall in Hg. destruct (Hg c Hc') as [Ht Hrc].
      apply IH; [lia|done|done].
Qed.

(** ** The theorems *)

Definition is_insert (c : call) : bool := match c with Insert _ _ => true | _ => false end.
Definition inserts_in (cs : list call) : nat := length (List.filter is_insert cs).

Lemma answer_size c L : sorted L → (length (answer c L).2 ≤ length L + (if is_insert c then 1 else 0))%nat ∧ sorted (answer c L).2.
Proof.
  intros Hs. destruct c; cbn; try (split; [lia|done]).
  - split; [|by apply sorted_ins]. rewrite length_ins by done. destruct (look key L); lia.
  - split; [|by apply sorted_del]. pose proof (length_del key L). destruct (look key L); lia.
Qed.

Lemma answer_accepts c L : (answer c L).1 ≠ Wrote (Err Full).
Proof. by destruct c. Qed.

Lemma none_refused cap cs rs L a :
  length rs = length cs → sorted L → Z.of_nat (length L + inserts_in cs) ≤ 7 * (cap - 14) →
  ltrace (omap_step cap) (L, 0%nat) (zip cs rs) a → Wrote (Err Full) ∉ rs.
Proof.
  revert rs L. induction cs as [|c cs IH]; intros [|r rs] L Hl Hs Hn Ht; try done; [apply not_elem_of_nil|].
  inversion Ht as [|? ? ? ? ? Hst Hrest]; subst. unfold inserts_in in Hn. cbn in Hn. inversion Hst; subst.
  - destruct (answer_size c L Hs) as [Hsz Hs']. apply not_elem_of_cons. split; [intros E; by eapply answer_accepts|].
    eapply IH; [cbn in Hl; lia|done| |done]. unfold inserts_in. destruct (is_insert c); cbn in *; lia.
  - cbn in Hn. lia.
Qed.

Section whole.
Context (cap ksize vsize : Z) (fill : gmap Z (BTreeNode K V)) (cs : list call).
Hypotheses (Hcap : 1 ≤ cap < NIL) (Hfill : mapped cap fill).

(** C24: every sequence of calls on a map of [cap] nodes returns, with the replies
    a sorted association list gives: [insert] and [remove] return the value
    that was there, [get] and [contains_key] look the key up, [first] is the
    least pair, [range] is the first [limit] pairs within the bounds and
    [iter_ascending] all of them, in order. The exception is an [insert] that
    reports [Full]: it leaves the pairs as they are, and after [r] such refusals
    it can happen only to a map of at least [7 * (cap - r - 14)] pairs. *)
Theorem btree_refines_map :
  ∃ rs m L r, run cs (created cap ksize vsize fill) = Some (rs, m) ∧ length rs = length cs ∧
    ltrace (omap_step cap) ([], 0%nat) (zip cs rs) (L, r) ∧ iter_ascending m = Some L ∧ sorted L.
Proof using Hcap Hfill.
  destruct (run_spec cap cs _ _ (created_ok cap ksize vsize fill Hcap Hfill)) as (rs & m & [L r] & Hrun & Hl & Ht & _ & lost & _ & Hm).
  exists rs, m, L, r. split_and!; try done; [by eapply reader_iter|]. by apply map_tree in Hm as (_ & ? & _).
Qed.

(** C25: after any calls the tree is balanced: every leaf is at the same depth, at
    most eleven below the root whatever the capacity, the root holds from one
    to fifteen pairs and every other node from seven to fifteen; the length in
    the header is the number of pairs, at most fifteen for each node. *)
Theorem btree_balanced rs m :
  run cs (created cap ksize vsize fill) = Some (rs, m) →
  ∃ L, iter_ascending m = Some L ∧ blen m = Z.of_nat (length L) ∧ blen m ≤ 15 * cap ∧
    if root (header m) =? NIL then L = [] else ∃ h, (h ≤ 11)%nat ∧ height 12 m 1 (root (header m)) = Some h.
Proof using Hcap Hfill.
  intros Hrun. destruct (run_spec cap cs _ _ (created_ok cap ksize vsize fill Hcap Hfill)) as (rs' & m' & [L r] & Hrun' & _ & _ & Hc & lost & _ & Hm).
  assert (m' = m) as -> by congruence. pose proof (map_bounds _ _ _ Hm) as (_ & Hb & Hlen). cbn in Hb, Hlen. exists L.
  split; [by eapply reader_iter|]. split; [done|]. split; [lia|]. destruct Hm as [Hv (P & [Hs (F & Ht & Hnd & _) Ha _])]. cbn in Ht.
  destruct Ht as [(-> & -> & _)|(h & s & Hr & Er & <- & <- & Hcnt)]; [done|].
  destruct (tree_root _ _ _ _ _ _ _ Ha Hr Er eq_refl eq_refl Hcnt) as [Hne _]. rewrite (proj2 (Z.eqb_neq _ _) Hne).
  exists h. pose proof (nodes_few _ _ _ _ Hr Ha Hnd). pose proof (ar_count _ _ Ha). unfold NIL in Hcap.
  assert (h ≤ 11)%nat by (eapply root_depth; [done|lia]). split; [done|]. rewrite <- Er. apply rep_balanced; [lia|done|done].
Qed.

(** A map of [cap] nodes takes [7 * (cap - 14)] insertions without refusing
    one, whatever the keys and whatever is called in between. *)
Lemma btree_takes_inserts :
  Z.of_nat (inserts_in cs) ≤ 7 * (cap - 14) →
  ∃ rs m, run cs (created cap ksize vsize fill) = Some (rs, m) ∧ Wrote (Err Full) ∉ rs.
Proof using Hcap Hfill.
  intros Hn. destruct (run_spec cap cs _ _ (created_ok cap ksize vsize fill Hcap Hfill)) as (rs & m & a & Hrun & Hl & Ht & _).
  exists rs, m. split; [done|]. eapply (none_refused cap cs rs []); [done|constructor|done|done].
Qed.
End whole.
End refine.

(** ** Maps of integers *)

Definition blank_node : BTreeNode Z Z :=
  {| count := 0; is_leaf := false; keys := replicate B 0; children := replicate (B + 1) 0; values := replicate B 0 |}.
Definition blank (cap : Z) : gmap Z (BTreeNode Z Z) := list_to_map ((λ x, (x, blank_node)) <$> seqZ 0 cap).

Lemma blank_mapped cap : mapped cap (blank cap).
Proof.
  intros x. unfold blank. destruct (list_to_map _ !! x) as [n|] eqn:E.
  - apply elem_of_list_to_map_2, list_elem_of_fmap in E as (y & [= -> ->] & Hy%elem_of_seqZ). split; [lia|done].
  - apply not_elem_of_list_to_map in E. intros Hx. apply E. rewrite <- list_fmap_compose. apply list_elem_of_fmap. exists x.
    split; [done|]. apply elem_of_seqZ. lia.
Qed.

Definition puts (l : list Z) : list (call (K := Z) (V := Z)) := (λ k, Insert k (k + 1)) <$> l.
Definition takes (l : list Z) : list (call (K := Z) (V := Z)) := Remove <$> l.
Definition after (cap : Z) (cs : list call) : option (SharedBTreeMap Z Z) := snd <$> run cs (created cap 8 8 (blank cap)).

Definition some_calls : list (call (K := Z) (V := Z)) :=
  puts (seqZ 0 40) ++ takes (seqZ 10 20) ++ [Get 5; ContainsKey 12; First; Range (Excluded 3) (Included 31) 5; Len].

Lemma thirty : 1 ≤ 30 < NIL.
Proof. done. Qed.

Lemma btree_refines_map_witness :
  1 ≤ 30 < NIL ∧ ∃ rs m L r, run some_calls (created 30 8 8 (blank 30)) = Some (rs, m) ∧
    ltrace (omap_step 30) ([], 0%nat) (zip some_calls rs) (L, r) ∧ iter_ascending m = Some L.
Proof.
  split; [done|]. destruct (btree_refines_map 30 8 8 (blank 30) some_calls thirty (blank_mapped 30)) as (rs & m & L & r & H1 & _ & H2 & H3 & _).
  exists rs, m, L, r. split; [exact H1|]. split; [exact H2|exact H3].
Defined.

Lemma btree_balanced_witness :
  ∃ rs m L, run some_calls (created 30 8 8 (blank 30)) = Some (rs, m) ∧ iter_ascending m = Some L ∧ blen m = Z.of_nat (length L).
Proof.
  destruct (run_spec 30 some_calls _ _ (created_ok 30 8 8 (blank 30) thirty (blank_mapped 30))) as (rs & m & _ & E & _).
  destruct (btree_balanced 30 8 8 (blank 30) some_calls thirty (blank_mapped 30) rs m E) as (L & H1 & H2 & _).
  exists rs, m, L. split; [exact E|]. split; [exact H1|exact H2].
Defined.

(** ** What the contract leaves out *)

(** A map of one node holds fifteen pairs, and then refuses to update one of
    them: the root is split before the key is looked for. *)
Lemma update_refused :
  match run (puts (seqZ 0 15) ++ [Get 3; Insert 3 0]) (created 1 8 8 (blank 1)) with
  | Some (rs, _) => drop 15 rs = [Found (Some 4); Wrote (Err Full)]
  | None => False
  end.
Proof. by vm_compute. Qed.

(** The nodes of a free chain. *)
Fixpoint free_chain (fuel : nat) (m : SharedBTreeMap Z Z) (x : Z) : option nat :=
  if x =? NIL then Some 0%nat
  else match fuel with
  | O => None
  | S fuel => n ← region m !! x; y ← children n !! 0%nat; S <$> free_chain fuel m y
  end.

(** The sixteenth insertion into a map of two nodes takes a node for the new
    root and fails to get another: the first is neither freed nor linked. The
    map emptied again, one node of the two can be had. *)
Lemma refusal_loses_node :
  match after 2 (puts (seqZ 0 16) ++ takes (seqZ 0 15)) with
  | Some m => iter_ascending m = Some [] ∧ node_count (header m) = 2 ∧ free_chain 2 m (free_head (header m)) = Some 1%nat
  | None => False
  end.
Proof. vm_compute. split_and!; reflexivity. Qed.

(** [cap as u32] of a capacity of [2 ^ 32] is zero, so no node index passes. *)
Lemma huge_capacity_retries {K V} `{KeyOrd K} (m : SharedBTreeMap K V) key :
  mcapacity m = 2 ^ 32 → 0 ≤ root (header m) < NIL → get_inner m key = Some Retry.
Proof.
  intros Hc Hr. unfold get_inner. destruct (Z.odd _); [done|]. rewrite Hc. unfold depth_fuel. cbn [descend].
  rewrite (proj2 (Z.eqb_neq _ _)) by lia. change (u32 (2 ^ 32)) with 0. by rewrite (proj2 (Z.leb_le _ _)) by lia.
Qed.

(** *** A reader among removed nodes *)

(** The next node of a reader's descent; [None] when the loop is left. *)
Definition visit {K V} `{KeyOrd K} (m : SharedBTreeMap K V) (cap idx : Z) (key : K) : option Z :=
  if idx =? NIL then None
  else if cap <=? idx then None
  else
    n ← region m !! idx; pf ← search_node n key;
    if (pf : nat * bool).2 || is_leaf n then None else children n !! pf.1.

Fixpoint visits {K V} `{KeyOrd K} (i : nat) (m : SharedBTreeMap K V) (cap idx : Z) (key : K) : option Z :=
  match i with O => Some idx | S i => next ← visit m cap idx key; visits i m cap next key end.

Lemma visits_two {K V} `{KeyOrd K} (m : SharedBTreeMap K V) cap x y key i :
  visit m cap x key = Some y → visit m cap y key = Some x → is_Some (visits i m cap x key) ∧ is_Some (visits i m cap y key).
Proof. intros Hx Hy. induction i as [|i [IH1 IH2] ]; [split; eauto|]. cbn. rewrite Hx, Hy. done. Qed.

(** A descent that has visited [i] nodes is not over with that many. *)
Lemma visits_descend {K V} `{KeyOrd K} fuel (m : SharedBTreeMap K V) cap x key :
  is_Some (visits (S fuel) m cap x key) → descend fuel m cap x key = None.
Proof.
  revert x. induction fuel as [|fuel IH]; intros x [z Hz].
  - cbn in Hz. unfold visit in Hz. cbn. by destruct (x =? NIL).
  - cbn [descend]. change (visits (S (S fuel)) m cap x key) with (next ← visit m cap x key; visits (S fuel) m cap next key) in Hz.
    destruct (visit m cap x key) as [y|] eqn:E; [|done]. unfold visit in E. destruct (x =? NIL); [done|]. destruct (cap <=? x); [done|].
    destruct (region m !! x) as [n|]; [|done]. cbn in E |- *. destruct (search_node n key) as [ [pos fd]|]; [|done]. cbn in E |- *.
    destruct fd, (is_leaf n); try done. cbn in E. rewrite E. apply IH. by eexists.
Qed.

Definition built : list call := puts (reverse (seqZ 0 1030)).

(** A [get] that is overtaken by one [remove] can run forever. The map holds
    the keys below 1030. The reader looks for 583, which is there throughout; it
    has read the root and the index of the node below when the writer removes
    550. That merges the node into its neighbour, then a child of it, and chains
    the two in the free list, through the child's first link. Now each leads to
    the other: the reader goes round between them, whatever its number of
    visits, and does not come to compare the version. Another [get] of the key
    on the same map returns at once. *)
Lemma btree_get_may_spin :
  ∃ m1 m2 x, after 160 built = Some m1 ∧ after 160 (built ++ [Remove 550]) = Some m2 ∧
    visit m1 (u32 (mcapacity m1)) (root (header m1)) 583 = Some x ∧
    (∀ i, is_Some (visits i m2 (u32 (mcapacity m2)) x 583)) ∧
    (∀ fuel, descend fuel m2 (u32 (mcapacity m2)) x 583 = None) ∧
    get_inner m2 583 = Some (Done (Some 584)).
Proof.
  assert (match after 160 built, after 160 (built ++ [Remove 550]) with
    | Some m1, Some m2 =>
        visit m1 (u32 (mcapacity m1)) (root (header m1)) 583 = Some 146 ∧
        visit m2 (u32 (mcapacity m2)) 146 583 = Some 72 ∧ visit m2 (u32 (mcapacity m2)) 72 583 = Some 146 ∧
        get_inner m2 583 = Some (Done (Some 584))
    | _, _ => False
    end) as Hrun by (vm_compute; split_and!; reflexivity).
  destruct (after 160 built) as [m1|]; [|done]. destruct (after 160 (built ++ [Remove 550])) as [m2|]; [|done].
  destruct Hrun as (H1 & H2 & H3 & H4). exists m1, m2, 146.
  assert (∀ i, is_Some (visits i m2 (u32 (mcapacity m2)) 146 583)) as Hv by (intros i; by eapply visits_two).
  split_and!; try done. intros fuel. by apply visits_descend.
Qed.
