(* ===== verification/HolderTable.v ===== *)
(** Claimable slots: crates/subetha-cxc/src/holder_table.rs.

    A table is the list of its slots. The functions here are the calls run one
    at a time; [Epochs] cuts the ones it uses into their accesses. [alive] is
    the operating system's answer to [process_alive]. A slot index past the
    table, which the source reads through a raw pointer, is a panic or changes
    nothing; no caller here passes one. *)
From stdpp Require Import list.
From S2P Require Import Prelude.

Definition HOLDER_FREE : Z := 0.
Definition HOLDER_RESERVED : Z := 2 ^ 64 - 1.

Record HolderSlot := { state : Z; owner_pid : Z }.

Definition holder_table_size (capacity : Z) : Z := u64 (capacity * 64).

(** A zeroed region of [n] slots. *)
Definition free_slots (n : nat) : list HolderSlot := replicate n {| state := HOLDER_FREE; owner_pid := 0 |}.

Definition set_state (x : Z) (s : HolderSlot) : HolderSlot := {| state := x; owner_pid := owner_pid s |}.
Definition set_owner (x : Z) (s : HolderSlot) : HolderSlot := {| state := state s; owner_pid := x |}.

(** The first free slot, claimed for process [pid]. *)
Fixpoint reserve (pid : Z) (t : list HolderSlot) : option (nat * list HolderSlot) :=
  match t with
  | [] => None
  | s :: t =>
      if state s =? HOLDER_FREE then Some (0%nat, {| state := HOLDER_RESERVED; owner_pid := pid |} :: t)
      else '(i, t) ← reserve pid t; Some (S i, s :: t)
  end.

Definition decided (payload : Z) : bool := negb (payload =? HOLDER_FREE) && negb (payload =? HOLDER_RESERVED).

Definition publish {E} (i : nat) (payload : Z) (t : list HolderSlot) : res E (list HolderSlot) :=
  _ ← assert_ (decided payload); _ ← assert_ (i <? length t)%nat; Ok (alter (set_state payload) i t).

Definition claim {E} (pid payload : Z) (t : list HolderSlot) : res E (option nat * list HolderSlot) :=
  match reserve pid t with
  | None => Ok (None, t)
  | Some (i, t) => t ← publish i payload t; Ok (Some i, t)
  end.

Definition try_claim_slot {E} (pid : Z) (i : nat) (payload : Z) (t : list HolderSlot) : res E (bool * list HolderSlot) :=
  _ ← assert_ (decided payload);
  match t !! i with
  | None => Panic
  | Some s =>
      Ok (if state s =? HOLDER_FREE then (true, <[i := {| state := payload; owner_pid := pid |}]> t) else (false, t))
  end.

Definition release (i : nat) (t : list HolderSlot) : list HolderSlot :=
  <[i := {| state := HOLDER_FREE; owner_pid := 0 |}]> t.

(** The pid is exchanged for zero, then the state for free; a state other than
    [payload] puts the pid back. *)
Definition release_if (i : nat) (pid payload : Z) (t : list HolderSlot) : bool * list HolderSlot :=
  if (pid =? 0) || negb (decided payload) then (false, t)
  else match t !! i with
  | None => (false, t)
  | Some s =>
      if negb (owner_pid s =? pid) then (false, t)
      else if state s =? payload then (true, release i t)
      else (false, <[i := set_owner pid s]> t)
  end.

Definition payload (i : nat) (t : list HolderSlot) : option Z :=
  s ← t !! i; if decided (state s) then Some (state s) else None.

Definition live (t : list HolderSlot) : nat := length (List.filter (λ s, negb (state s =? HOLDER_FREE)) t).

Fixpoint try_fold {A} (f : A → Z → A) (acc : A) (t : list HolderSlot) : option A :=
  match t with
  | [] => Some acc
  | s :: t =>
      if state s =? HOLDER_FREE then try_fold f acc t
      else if state s =? HOLDER_RESERVED then None
      else try_fold f (f acc (state s)) t
  end.

(** The owner stays in a slot that is reaped. *)
Definition reap_slot (alive : Z → bool) (s : HolderSlot) : HolderSlot :=
  if (state s =? HOLDER_FREE) || (owner_pid s =? 0) || alive (owner_pid s) then s else set_state HOLDER_FREE s.

(** The table it leaves, and the number of slots it reports to have freed. *)
Definition reap_dead (alive : Z → bool) (t : list HolderSlot) : list HolderSlot := reap_slot alive <$> t.
Definition reap_count (alive : Z → bool) (t : list HolderSlot) : nat := (live t - live (reap_dead alive t))%nat.

(** * Lemmas *)

Section lemmas.
Implicit Types (t : list HolderSlot) (s : HolderSlot).

Lemma reserve_spec pid t i t' :
  reserve pid t = Some (i, t') →
  ∃ s, t !! i = Some s ∧ state s = HOLDER_FREE ∧ t' = <[i := {| state := HOLDER_RESERVED; owner_pid := pid |}]> t.
Proof.
  revert i t'. induction t as [|s t IH]; intros i t'; [done|]. cbn. destruct (Z.eqb_spec (state s) HOLDER_FREE) as [E|E].
  - intros [= <- <-]. by exists s.
  - destruct (reserve pid t) as [ [j t1]|]; [|done]. cbn. intros [= <- <-]. destruct (IH j t1 eq_refl) as (s0 & ? & ? & ->). by exists s0.
Qed.

Lemma reserve_none pid t : reserve pid t = None → Forall (λ s, state s ≠ HOLDER_FREE) t.
Proof.
  induction t as [|s t IH]; [done|]. cbn. destruct (Z.eqb_spec (state s) HOLDER_FREE) as [E|E]; [done|].
  destruct (reserve pid t) as [ [j t1]|]; [done|]. intros _. constructor; auto.
Qed.

Lemma publish_ok {E} i p t : decided p = true → (i < length t)%nat → @publish E i p t = Ok (alter (set_state p) i t).
Proof. intros Hd Hi. unfold publish. rewrite Hd, (proj2 (Nat.ltb_lt _ _) Hi). done. Qed.

(** A fold of minima is below its start and below every payload. *)
Lemma fold_min g t a p :
  try_fold (λ a v, Z.min a (g v)) a t = Some p →
  p ≤ a ∧ ∀ i s, t !! i = Some s → state s ≠ HOLDER_FREE → state s ≠ HOLDER_RESERVED ∧ p ≤ g (state s).
Proof.
  revert a. induction t as [|s t IH]; intros a; cbn.
  - intros [= <-]. split; [lia|]. by intros [].
  - destruct (Z.eqb_spec (state s) HOLDER_FREE) as [E|E].
    + intros [H1 H2]%IH. split; [done|]. intros [|i] s0; cbn; [by intros [= <-]|apply H2].
    + destruct (Z.eqb_spec (state s) HOLDER_RESERVED) as [E2|E2]; [done|]. intros [H1 H2]%IH. split; [lia|].
      intros [|i] s0; cbn; [intros [= <-] _; split; [done|lia]|apply H2].
Qed.

(** With nothing forming the fold has an answer, above any bound of its start
    and of the payloads. *)
Lemma fold_some g t a :
  Forall (λ s, state s ≠ HOLDER_RESERVED) t → ∃ p, try_fold (λ a v, Z.min a (g v)) a t = Some p ∧
    ∀ b, b ≤ a → (∀ i s, t !! i = Some s → state s ≠ HOLDER_FREE → b ≤ g (state s)) → b ≤ p.
Proof.
  intros Ht. revert a. induction Ht as [|s t Hs Ht IH]; intros a; cbn; [eauto|].
  destruct (Z.eqb_spec (state s) HOLDER_FREE) as [E|E].
  - destruct (IH a) as (p & -> & Hp). exists p. split; [done|]. intros b Hb Hg. apply Hp; [done|]. intros i s0. apply (Hg (S i)).
  - rewrite (proj2 (Z.eqb_neq _ _) Hs). destruct (IH (a `min` g (state s))) as (p & -> & Hp). exists p. split; [done|].
    intros b Hb Hg. apply Hp; [pose proof (Hg 0%nat s eq_refl E); lia|]. intros i s0. apply (Hg (S i)).
Qed.
End lemmas.
