(* ===== verification/Epochs.v ===== *)
(** Epochs and the pins held against them: crates/subetha-cxc/src/shared_epochs.rs.

    First the calls one at a time, over the tables of [HolderTable]; then [tstep],
    which cuts them into their memory accesses, and [epoch_step], which
    interleaves any number of threads of processes that may die. [None] of a call
    is a loop that another process would have to end. File attachment is left
    out. *)
From stdpp Require Import list sets.
From S2P Require Import Prelude HolderTable.

Definition EPOCH_MAGIC : Z := 0x4550_4F43_4853_5F32.
Definition RESERVATION_SPINS : nat := 64.

(** The mapped words: the counter of the header and the two tables. *)
Record SharedEpochs := { counter : Z; pins : list HolderSlot; tickets : list HolderSlot }.

Definition epoch_file_size (capacity : Z) : Z := u64 (64 + u64 (2 * holder_table_size capacity)).

Inductive EpochError := PinsExhausted | TicketsExhausted | LayoutMismatch | IoError (kind : Z).

Definition validate (magic capacity expected : Z) : res EpochError unit :=
  if negb (magic =? EPOCH_MAGIC) || negb (capacity =? u64 expected) then Err LayoutMismatch else Ok tt.

Definition create_anon {E} (capacity : nat) : res E SharedEpochs :=
  _ ← assert_ (1 <=? capacity)%nat;
  Ok {| counter := 0; pins := free_slots capacity; tickets := free_slots capacity |}.

Inductive which := Pins | Tickets.
#[export] Instance which_eq_dec : EqDecision which.
Proof. solve_decision. Defined.

Definition table (w : which) (e : SharedEpochs) : list HolderSlot :=
  match w with Pins => pins e | Tickets => tickets e end.
Definition with_table (w : which) (t : list HolderSlot) (e : SharedEpochs) : SharedEpochs :=
  match w with
  | Pins => {| counter := counter e; pins := t; tickets := tickets e |}
  | Tickets => {| counter := counter e; pins := pins e; tickets := t |}
  end.
Definition with_counter (c : Z) (e : SharedEpochs) : SharedEpochs :=
  {| counter := c; pins := pins e; tickets := tickets e |}.

(** * Calls one at a time *)

Section calls.
Context (alive : Z → bool).

Definition advance (e : SharedEpochs) : Z * SharedEpochs :=
  let x := u64 (counter e + 1) in (x, with_counter x e).

Definition fold_tickets (acc : Z) (t : list HolderSlot) : option Z := try_fold (λ acc p, Z.min acc (u64 (p - 2))) acc t.
Definition fold_pins (acc : Z) (t : list HolderSlot) : option Z := try_fold (λ acc p, Z.min acc (u64 (p - 1))) acc t.

(** Sixty-four scans in vain, a reap, and another scan. *)
Definition now (e : SharedEpochs) : option (Z * SharedEpochs) :=
  match fold_tickets (counter e) (tickets e) with
  | Some p => Some (p, e)
  | None =>
      let e := with_table Tickets (reap_dead alive (tickets e)) e in
      p ← fold_tickets (counter e) (tickets e); Some (p, e)
  end.

Definition reap_dead_pins (e : SharedEpochs) : SharedEpochs := with_table Pins (reap_dead alive (pins e)) e.

Definition try_claim (pid : Z) (e : SharedEpochs) : option (res EpochError (option (nat * Z)) * SharedEpochs) :=
  match reserve pid (pins e) with
  | None => Some (Ok None, e)
  | Some (slot, t) =>
      '(at_, e) ← now (with_table Pins t e);
      Some match publish slot (u64 (at_ + 1)) (pins e) with
           | Ok t => (Ok (Some (slot, at_)), with_table Pins t e)
           | Err x => (Err x, e)
           | Panic => (Panic, e)
           end
  end.

Definition claim_pin (pid : Z) (e : SharedEpochs) : option (res EpochError (nat * Z) * SharedEpochs) :=
  '(r, e) ← try_claim pid e;
  match r with
  | Ok (Some c) => Some (Ok c, e)
  | Ok None =>
      '(r, e) ← try_claim pid (reap_dead_pins e);
      Some (match r with Ok (Some c) => Ok c | Ok None => Err PinsExhausted | Err x => Err x | Panic => Panic end, e)
  | Err x => Some (Err x, e)
  | Panic => Some (Panic, e)
  end.

Definition release_pin (slot : nat) (e : SharedEpochs) : SharedEpochs := with_table Pins (release slot (pins e)) e.

Definition claim_ticket (pid : Z) (e : SharedEpochs) : res EpochError (nat * Z) * SharedEpochs :=
  match reserve pid (tickets e) with
  | None => (Err TicketsExhausted, e)
  | Some (slot, t) =>
      let '(x, e) := advance (with_table Tickets t e) in
      match publish slot (u64 (x + 1)) (tickets e) with
      | Ok t => (Ok (slot, x), with_table Tickets t e)
      | Err y => (Err y, e)
      | Panic => (Panic, e)
      end
  end.

Definition publish_ticket (slot : nat) (e : SharedEpochs) : SharedEpochs := with_table Tickets (release slot (tickets e)) e.

Definition dead_tickets (e : SharedEpochs) : list Z :=
  omap (λ s, if decided (state s) && negb (owner_pid s =? 0) && negb (alive (owner_pid s)) then Some (state s - 1) else None)
    (tickets e).

(** The first slot of the epoch decides. *)
Fixpoint free_dead (x : Z) (t : list HolderSlot) : bool * list HolderSlot :=
  match t with
  | [] => (false, [])
  | s :: t =>
      if negb (state s =? u64 (x + 1)) then let '(b, t) := free_dead x t in (b, s :: t)
      else if (owner_pid s =? 0) || alive (owner_pid s) then (false, s :: t)
      else (true, set_state HOLDER_FREE s :: t)
  end.
Definition free_dead_ticket (x : Z) (e : SharedEpochs) : bool * SharedEpochs :=
  let '(b, t) := free_dead x (tickets e) in (b, with_table Tickets t e).

Definition open_tickets (e : SharedEpochs) : nat := live (tickets e).
Definition live_pins (e : SharedEpochs) : nat := live (pins e).

Definition reclaim_horizon (e : SharedEpochs) : option (Z * SharedEpochs) :=
  '(n, e) ← now e;
  match fold_pins n (pins e) with
  | Some h => Some (h, e)
  | None =>
      '(n, e) ← now (reap_dead_pins e);
      h ← fold_pins n (pins e); Some (h, e)
  end.
End calls.

(** [PinGuard::sees] of a guard at [at_]. *)
Definition sees (at_ : Z) (superseded_at : option Z) : bool :=
  match superseded_at with None => true | Some x => at_ <? x end.

(** * Accesses *)

(** The caller of [now], and where a reap returns to. *)
Inductive use := ForPin (i : nat) | ForHorizon (restarts : nat) | ForNow.
Inductive back := BackNow (u : use) (restarts : nat) | BackHorizon (restarts : nat) | BackClaim | BackReap.

Inductive point :=
| Idle
| ResLoad (w : which) (again : bool) (i : nat) | ResCas (w : which) (again : bool) (i : nat) | ResPid (w : which) (i : nat)
| NowLoad (u : use) (restarts : nat) | NowFold (u : use) (restarts : nat) (i : nat) (acc : Z)
| PinStore (i : nat) (at_ : Z)
| TickAdd (i : nat) | TickStore (i : nat) (x : Z)
| HorFold (restarts : nat) (i : nat) (acc : Z)
| ReapLoad (w : which) (k : back) (i : nat) | ReapPid (w : which) (k : back) (i : nat) (st : Z)
| ReapCas (w : which) (k : back) (i : nat) (st : Z)
| DeadLoad (x : Z) (i : nat) | DeadPid (x : Z) (i : nat) | DeadCas (x : Z) (i : nat)
| RelPid (w : which) (i : nat) (payload : Z) | RelState (w : which) (i : nat) (payload : Z)
| AdvAdd.

Inductive event :=
| Tau | NowIs (p : Z) | HorizonIs (h : Z) | Pinned (i : nat) (at_ : Z) | PinsFull | Ticket (i : nat) (x : Z) | TicketsFull
| Released (w : which) (i : nat) | Advanced (x : Z) | Reaped | Freed (b : bool) | Died (pid : Z).

(** A thread of process [pid], with the guards and the tickets it holds. *)
Record thread := { pid : Z; pc : point; guards : list (nat * Z); stamps : list (nat * Z) }.

Definition goto (t : thread) (p : point) : thread := {| pid := pid t; pc := p; guards := guards t; stamps := stamps t |}.

(** After [restarts] scans that met a reservation. *)
Definition restart (restarts : nat) (reap again : point) : point :=
  if (restarts mod RESERVATION_SPINS =? 0)%nat then reap else again.

Definition resume (k : back) : point * event :=
  match k with
  | BackNow u r => (NowLoad u r, Tau)
  | BackHorizon r => (NowLoad (ForHorizon r) 0, Tau)
  | BackClaim => (ResLoad Pins true 0, Tau)
  | BackReap => (Idle, Reaped)
  end.

Definition now_is (u : use) (p : Z) : point * event :=
  match u with
  | ForPin i => (PinStore i p, Tau)
  | ForHorizon r => (HorFold r 0 p, Tau)
  | ForNow => (Idle, NowIs p)
  end.

Definition on_slot (w : which) (i : nat) (f : HolderSlot → HolderSlot) (e : SharedEpochs) : SharedEpochs :=
  with_table w (alter f i (table w e)) e.

(** One access; [None] is a panic. *)
Definition tstep (alive : Z → bool) (e : SharedEpochs) (t : thread) : option (SharedEpochs * thread * event) :=
  match pc t with
  | Idle => Some (e, t, Tau)
  | ResLoad w again i =>
      Some match table w e !! i with
           | None =>
               match w, again with
               | Tickets, _ => (e, goto t Idle, TicketsFull)
               | Pins, true => (e, goto t Idle, PinsFull)
               | Pins, false => (e, goto t (ReapLoad Pins BackClaim 0), Tau)
               end
           | Some s => (e, goto t (if state s =? HOLDER_FREE then ResCas w again i else ResLoad w again (S i)), Tau)
           end
  | ResCas w again i =>
      s ← table w e !! i;
      Some (if state s =? HOLDER_FREE then (on_slot w i (set_state HOLDER_RESERVED) e, goto t (ResPid w i), Tau)
            else (e, goto t (ResLoad w again (S i)), Tau))
  | ResPid w i =>
      Some (on_slot w i (set_owner (pid t)) e,
            goto t (match w with Pins => NowLoad (ForPin i) 0 | Tickets => TickAdd i end), Tau)
  | NowLoad u r => Some (e, goto t (NowFold u r 0 (counter e)), Tau)
  | NowFold u r i acc =>
      Some match tickets e !! i with
           | None => let '(p, ev) := now_is u acc in (e, goto t p, ev)
           | Some s =>
               (e, goto t
                 (if state s =? HOLDER_FREE then NowFold u r (S i) acc
                  else if state s =? HOLDER_RESERVED then restart (S r) (ReapLoad Tickets (BackNow u (S r)) 0) (NowLoad u (S r))
                  else NowFold u r (S i) (Z.min acc (u64 (state s - 2)))), Tau)
           end
  | PinStore i at_ =>
      if decided (u64 (at_ + 1)) then
        Some (on_slot Pins i (set_state (u64 (at_ + 1))) e,
              {| pid := pid t; pc := Idle; guards := (i, at_) :: guards t; stamps := stamps t |}, Pinned i at_)
      else None
  | TickAdd i => let x := u64 (counter e + 1) in Some (with_counter x e, goto t (TickStore i x), Tau)
  | TickStore i x =>
      if decided (u64 (x + 1)) then
        Some (on_slot Tickets i (set_state (u64 (x + 1))) e,
              {| pid := pid t; pc := Idle; guards := guards t; stamps := (i, x) :: stamps t |}, Ticket i x)
      else None
  | HorFold r i acc =>
      Some match pins e !! i with
           | None => (e, goto t Idle, HorizonIs acc)
           | Some s =>
               (e, goto t
                 (if state s =? HOLDER_FREE then HorFold r (S i) acc
                  else if state s =? HOLDER_RESERVED then restart (S r) (ReapLoad Pins (BackHorizon (S r)) 0) (NowLoad (ForHorizon (S r)) 0)
                  else HorFold r (S i) (Z.min acc (u64 (state s - 1)))), Tau)
           end
  | ReapLoad w k i =>
      Some match table w e !! i with
           | None => let '(p, ev) := resume k in (e, goto t p, ev)
           | Some s => (e, goto t (if state s =? HOLDER_FREE then ReapLoad w k (S i) else ReapPid w k i (state s)), Tau)
           end
  | ReapPid w k i st =>
      s ← table w e !! i;
      Some (e, goto t (if (owner_pid s =? 0) || alive (owner_pid s) then ReapLoad w k (S i) else ReapCas w k i st), Tau)
  | ReapCas w k i st =>
      s ← table w e !! i;
      Some (if state s =? st then on_slot w i (set_state HOLDER_FREE) e else e, goto t (ReapLoad w k (S i)), Tau)
  | DeadLoad x i =>
      Some match tickets e !! i with
           | None => (e, goto t Idle, Freed false)
           | Some s => (e, goto t (if state s =? u64 (x + 1) then DeadPid x i else DeadLoad x (S i)), Tau)
           end
  | DeadPid x i =>
      s ← tickets e !! i;
      Some (if (owner_pid s =? 0) || alive (owner_pid s) then (e, goto t Idle, Freed false) else (e, goto t (DeadCas x i), Tau))
  | DeadCas x i =>
      s ← tickets e !! i;
      Some (if state s =? u64 (x + 1) then (on_slot Tickets i (set_state HOLDER_FREE) e, goto t Idle, Freed true)
            else (e, goto t Idle, Freed false))
  | RelPid w i p => Some (on_slot w i (set_owner 0) e, goto t (RelState w i p), Tau)
  | RelState w i p => Some (on_slot w i (set_state HOLDER_FREE) e, goto t Idle, Released w i)
  | AdvAdd => let x := u64 (counter e + 1) in Some (with_counter x e, goto t Idle, Advanced x)
  end.

(** The calls of an idle thread; a guard or a ticket is dropped once. *)
Inductive starts : thread → thread → Prop :=
| start_pin t : starts t (goto t (ResLoad Pins false 0))
| start_ticket t : starts t (goto t (ResLoad Tickets false 0))
| start_now t : starts t (goto t (NowLoad ForNow 0))
| start_horizon t : starts t (goto t (NowLoad (ForHorizon 0) 0))
| start_reap t : starts t (goto t (ReapLoad Pins BackReap 0))
| start_free t x : starts t (goto t (DeadLoad x 0))
| start_advance t : starts t (goto t AdvAdd)
| start_unpin p a i x b st :
    starts {| pid := p; pc := Idle; guards := a ++ (i, x) :: b; stamps := st |}
           {| pid := p; pc := RelPid Pins i (u64 (x + 1)); guards := a ++ b; stamps := st |}
| start_publish p g a i x b :
    starts {| pid := p; pc := Idle; guards := g; stamps := a ++ (i, x) :: b |}
           {| pid := p; pc := RelPid Tickets i (u64 (x + 1)); guards := g; stamps := a ++ b |}.

Record system := { mem : SharedEpochs; dead : list Z; threads : list thread }.

Definition process_alive (dead : list Z) (p : Z) : bool := negb (existsb (Z.eqb p) dead).

Inductive epoch_step : system → event → system → Prop :=
| step_access e d a t b e' t' ev :
    process_alive d (pid t) = true → tstep (process_alive d) e t = Some (e', t', ev) →
    epoch_step {| mem := e; dead := d; threads := a ++ t :: b |} ev {| mem := e'; dead := d; threads := a ++ t' :: b |}
| step_call e d a t b t' :
    process_alive d (pid t) = true → pc t = Idle → starts t t' →
    epoch_step {| mem := e; dead := d; threads := a ++ t :: b |} Tau {| mem := e; dead := d; threads := a ++ t' :: b |}
| step_death e d ts p :
    epoch_step {| mem := e; dead := d; threads := ts |} (Died p) {| mem := e; dead := p :: d; threads := ts |}.

(** [n] threads of the processes [ps] over a fresh table. *)
Definition start (cap : nat) (ps : list Z) : system :=
  {| mem := {| counter := 0; pins := free_slots cap; tickets := free_slots cap |}; dead := [];
     threads := (λ p, {| pid := p; pc := Idle; guards := []; stamps := [] |}) <$> ps |}.
