(* ===== verification/EpochSafety.v ===== *)
(** The pins are safe from reclamation as long as no process dies, and are not
    once one does. *)
From stdpp Require Import list sets.
From S2P Require Import Prelude HolderTable Epochs.

(** * What a thread has in the tables *)

Inductive claim := Forming | Formed (p : Z).

Definition use_slot (u : use) : list nat := match u with ForPin i => [i] | _ => [] end.
Definition back_slot (k : back) : list nat := match k with BackNow u _ => use_slot u | _ => [] end.

(** The slot being claimed, and the slot being released. *)
Definition forming (w : which) (p : point) : list nat :=
  match w, p with
  | Pins, ResPid Pins i | Tickets, ResPid Tickets i => [i]
  | Pins, (NowLoad u _ | NowFold u _ _ _) => use_slot u
  | Pins, (ReapLoad _ k _ | ReapPid _ k _ _ | ReapCas _ k _ _) => back_slot k
  | Pins, PinStore i _ => [i]
  | Tickets, (TickAdd i | TickStore i _) => [i]
  | _, _ => []
  end.

Definition leaving (w : which) (p : point) : list (nat * Z) :=
  match w, p with
  | Pins, (RelPid Pins i x | RelState Pins i x) | Tickets, (RelPid Tickets i x | RelState Tickets i x) => [(i, x)]
  | _, _ => []
  end.

Definition formed (w : which) (t : thread) : list (nat * Z) :=
  leaving w (pc t) ++ ((λ g, (g.1, u64 (g.2 + 1))) <$> (match w with Pins => guards t | Tickets => stamps t end)).

Definition owned (w : which) (t : thread) : list (nat * claim) :=
  ((λ i, (i, Forming)) <$> forming w (pc t)) ++ ((λ g, (g.1, Formed g.2)) <$> formed w t).

(** The tickets that are open: taken and not yet released. *)
Definition opens (t : thread) : list (nat * Z) :=
  match pc t with
  | TickStore i x => [(i, x)]
  | RelPid Tickets i p | RelState Tickets i p => [(i, p - 1)]
  | _ => []
  end ++ stamps t.

(** What the pins of a thread have been seen to be at least. *)
Definition floors (t : thread) : list (nat * Z) :=
  match pc t with
  | NowFold (ForPin i) _ _ acc => [(i, acc)]
  | PinStore i at_ => [(i, at_)]
  | _ => []
  end ++ guards t.

(** * The invariant *)

(** The slots of a table and their owners. *)
Record owned_ok (tbl : list HolderSlot) (os : list (nat * claim)) : Prop := {
  oo_distinct : NoDup os.*1;
  oo_state : ∀ j c, (j, c) ∈ os → ∃ s, tbl !! j = Some s ∧
    match c with Forming => state s = HOLDER_RESERVED | Formed p => state s = p ∧ decided p = true end;
  oo_owner : ∀ j s, tbl !! j = Some s → state s ≠ HOLDER_FREE → ∃ c, (j, c) ∈ os }.

(** [p] is below every ticket open in the first [n] slots. *)
Definition unseen (e : SharedEpochs) (ts : list thread) (n : nat) (p : Z) : Prop :=
  0 ≤ p ≤ counter e ∧ ∀ t j x, t ∈ ts → (j, x) ∈ opens t → (j < n)%nat → p < x.

(** No pin in the first [n] slots is or will be below [p]. *)
Definition covers (e : SharedEpochs) (ts : list thread) (n : nat) (p : Z) : Prop :=
  unseen e ts (length (tickets e)) p ∧ ∀ t j f, t ∈ ts → (j, f) ∈ floors t → (j < n)%nat → p ≤ f.

Definition point_ok (e : SharedEpochs) (ts : list thread) (p : point) : Prop :=
  match p with
  | NowFold _ _ i acc => unseen e ts i acc
  | PinStore _ at_ => unseen e ts (length (tickets e)) at_
  | HorFold _ i acc => covers e ts i acc
  | TickStore _ x => 1 ≤ x ≤ counter e
  | RelPid Tickets _ p | RelState Tickets _ p => 2 ≤ p ≤ counter e + 1
  | RelPid Pins _ p | RelState Pins _ p => 1 ≤ p ≤ counter e + 1
  | ReapCas _ _ _ _ | DeadCas _ _ => False
  | _ => True
  end.

Record thread_ok (e : SharedEpochs) (ts : list thread) (t : thread) : Prop := {
  to_point : point_ok e ts (pc t);
  to_guards : ∀ j x, (j, x) ∈ guards t → unseen e ts (length (tickets e)) x;
  to_stamps : ∀ j x, (j, x) ∈ stamps t → 1 ≤ x ≤ counter e }.

Record epoch_inv (cap : nat) (hs : list Z) (sys : system) : Prop := {
  ei_alive : dead sys = []; ei_counter : 0 ≤ counter (mem sys);
  ei_length : ∀ w, length (table w (mem sys)) = cap;
  ei_owned : ∀ w, owned_ok (table w (mem sys)) (concat (owned w <$> threads sys));
  ei_threads : ∀ t, t ∈ threads sys → thread_ok (mem sys) (threads sys) t;
  ei_granted : ∀ h, h ∈ hs → covers (mem sys) (threads sys) cap h }.

(** ** Tables *)

Lemma owned_ok_perm tbl os os' : os ≡ₚ os' → owned_ok tbl os → owned_ok tbl os'.
Proof.
  intros Hp [H1 H2 H3]. split.
  - by rewrite <- Hp.
  - intros j c. rewrite <- Hp. apply H2.
  - intros j s ??. setoid_rewrite <- Hp. by eapply H3.
Qed.

Lemma owned_split w a t b : concat (owned w <$> a ++ t :: b) ≡ₚ owned w t ++ concat (owned w <$> a ++ b).
Proof. rewrite !fmap_app, !concat_app. cbn. solve_Permutation. Qed.

Lemma owned_claim tbl os i s f :
  owned_ok tbl os → tbl !! i = Some s → state s = HOLDER_FREE → state (f s) = HOLDER_RESERVED →
  owned_ok (alter f i tbl) ((i, Forming) :: os).
Proof.
  intros [H1 H2 H3] Hs E Ef. assert (i ∉ os.*1) as Hi.
  { intros (c & -> & Hin)%list_elem_of_fmap. destruct c as [j c]. destruct (H2 j c Hin) as (s' & Hs' & Hc). cbn in Hs.
    simplify_eq. rewrite E in Hc. destruct c; [done|]. by destruct Hc as [<- Hd]. }
  split.
  - by constructor.
  - intros j c [ [= -> ->]|Hin]%elem_of_cons; [exists (f s); by rewrite list_lookup_alter_eq, Hs|].
    rewrite list_lookup_alter_ne; [by apply H2|]. intros ->. apply Hi, list_elem_of_fmap. by exists (j, c).
  - intros j s'. destruct (decide (i = j)) as [<-|Hne]; [by eexists; left|]. rewrite list_lookup_alter_ne by done.
    intros Hj Hf. destruct (H3 j s' Hj Hf) as [c Hc]. exists c. by right.
Qed.

(** The claim of an owner changes with the slot. *)
Lemma owned_update tbl os i c c' f :
  (∀ s, tbl !! i = Some s → match c' with Forming => state (f s) = HOLDER_RESERVED | Formed p => state (f s) = p ∧ decided p = true end) →
  owned_ok tbl ((i, c) :: os) → owned_ok (alter f i tbl) ((i, c') :: os).
Proof.
  intros Hf [H1 H2 H3]. cbn in H1. apply NoDup_cons in H1 as [Hi H1]. split.
  - by constructor.
  - intros j c0 [ [= -> ->]|Hin]%elem_of_cons.
    + destruct (H2 i c) as (s & Hs & _); [by left|]. exists (f s). rewrite list_lookup_alter_eq, Hs. split; [done|by apply Hf].
    + rewrite list_lookup_alter_ne; [apply H2; by right|]. intros ->. apply Hi, list_elem_of_fmap. by exists (j, c0).
  - intros j s'. destruct (decide (i = j)) as [<-|Hne]; [by eexists; left|]. rewrite list_lookup_alter_ne by done.
    intros Hj Hfr. destruct (H3 j s' Hj Hfr) as [c0 [ [= -> ->]|Hc]%elem_of_cons]; [done|]. exists c0. by right.
Qed.

Lemma owned_free tbl os i c f :
  (∀ s, state (f s) = HOLDER_FREE) → owned_ok tbl ((i, c) :: os) → owned_ok (alter f i tbl) os.
Proof.
  intros Hf [H1 H2 H3]. cbn in H1. apply NoDup_cons in H1 as [Hi H1]. split; [done| |].
  - intros j c0 Hin. rewrite list_lookup_alter_ne; [apply H2; by right|]. intros ->. apply Hi, list_elem_of_fmap. by exists (j, c0).
  - intros j s'. destruct (decide (i = j)) as [<-|Hne].
    + rewrite list_lookup_alter_eq. intros (s & Hs & ->)%fmap_Some. by rewrite Hf.
    + rewrite list_lookup_alter_ne by done. intros Hj Hfr.
      destruct (H3 j s' Hj Hfr) as [c0 [ [= -> ->]|Hc]%elem_of_cons]; [done|]. by exists c0.
Qed.

Lemma owned_owner tbl os i x : owned_ok tbl os → owned_ok (alter (set_owner x) i tbl) os.
Proof.
  intros [H1 H2 H3]. split; [done| |].
  - intros j c Hin. destruct (H2 j c Hin) as (s & Hs & Hc). destruct (decide (i = j)) as [<-|Hne].
    + exists (set_owner x s). by rewrite list_lookup_alter_eq, Hs.
    + exists s. by rewrite list_lookup_alter_ne.
  - intros j s'. destruct (decide (i = j)) as [<-|Hne].
    + rewrite list_lookup_alter_eq. intros (s & Hs & ->)%fmap_Some. by apply (H3 i s).
    + rewrite list_lookup_alter_ne by done. by apply H3.
Qed.

(** ** What a step may change of pins and tickets *)

(** A thread goes from [t] to [t'] and the counter to [c']: tickets are new, and
    a pin's floor is kept, starts at the counter, or comes down to an open
    ticket. *)
Record grows (e : SharedEpochs) (ts : list thread) (t t' : thread) (c' : Z) : Prop := {
  gr_counter : counter e ≤ c';
  gr_opens : ∀ j x, (j, x) ∈ opens t' → (j, x) ∈ opens t ∨ counter e < x;
  gr_floors : ∀ j f, (j, f) ∈ floors t' → (j, f) ∈ floors t ∨ f = counter e ∨
    ∃ f0 t0 j0 x, (j, f0) ∈ floors t ∧ t0 ∈ ts ∧ (j0, x) ∈ opens t0 ∧ (j0 < length (tickets e))%nat ∧ f = Z.min f0 (x - 1) }.

Section step.
Context (e e' : SharedEpochs) (a b : list thread) (t t' : thread).
Hypotheses (Hg : grows e (a ++ t :: b) t t' (counter e')) (Hlen : length (tickets e') = length (tickets e)).

Lemma step_unseen n p : unseen e (a ++ t :: b) n p → unseen e' (a ++ t' :: b) n p.
Proof using Hg.
  clear Hlen. destruct Hg as [G1 G2 G3]. intros [Hp Hx]. split; [lia|]. intros t0 j x Ht Hj Hn.
  apply elem_of_app in Ht as [Ht|[->|Ht]%elem_of_cons].
  - eapply Hx; [|done..]. mem.
  - destruct (G2 j x Hj) as [?|?]; [|lia]. eapply Hx; [|done..]. mem.
  - eapply Hx; [|done..]. mem.
Qed.

Lemma step_covers n p : covers e (a ++ t :: b) n p → covers e' (a ++ t' :: b) n p.
Proof using Hg Hlen.
  intros [Hu Hf]. split; [rewrite Hlen; by apply step_unseen|]. destruct Hg as [G1 G2 G3]. intros t0 j f Ht Hj Hn.
  apply elem_of_app in Ht as [Ht|[->|Ht]%elem_of_cons].
  - eapply Hf; [|done..]. mem.
  - destruct (G3 j f Hj) as [?|[->|(f0 & t0 & j0 & x & H1 & H2 & H3 & H4 & ->)] ].
    + eapply Hf; [|done..]. mem.
    + apply Hu.
    + assert (p ≤ f0) by (eapply Hf; [|done..]; mem). assert (p < x) by (by eapply Hu). lia.
  - eapply Hf; [|done..]. mem.
Qed.

Lemma step_point p : point_ok e (a ++ t :: b) p → point_ok e' (a ++ t' :: b) p.
Proof using Hg Hlen.
  assert (counter e ≤ counter e') by apply Hg. destruct p as [| | | | | | | | | | | | | | | |[] ? ?|[] ? ?|]; cbn; try done; try lia.
  - apply step_unseen.
  - rewrite Hlen. apply step_unseen.
  - apply step_covers.
Qed.

Lemma step_thread t0 : thread_ok e (a ++ t :: b) t0 → thread_ok e' (a ++ t' :: b) t0.
Proof using Hg Hlen.
  intros [H1 H2 H3]. split.
  - by apply step_point.
  - intros j x Hj. rewrite Hlen. eapply step_unseen, H2, Hj.
  - intros j x Hj. apply H3 in Hj. assert (counter e ≤ counter e') by apply Hg. lia.
Qed.
End step.

(** A step keeps the invariant if it does so for the thread that makes it. *)
Lemma step_inv cap hs e e' a t b t' :
  epoch_inv cap hs {| mem := e; dead := []; threads := a ++ t :: b |} →
  grows e (a ++ t :: b) t t' (counter e') → (∀ w, length (table w e') = length (table w e)) →
  (∀ w os, owned_ok (table w e) (owned w t ++ os) → owned_ok (table w e') (owned w t' ++ os)) →
  thread_ok e' (a ++ t' :: b) t' →
  epoch_inv cap hs {| mem := e'; dead := []; threads := a ++ t' :: b |}.
Proof.
  intros [I1 I0 I2 I3 I4 I5] Hg Hlen Hown Ht. cbn in *. split; cbn.
  - done.
  - assert (counter e ≤ counter e') by apply Hg. lia.
  - intros w. by rewrite Hlen.
  - intros w. eapply owned_ok_perm; [symmetry; apply owned_split|]. apply Hown. eapply owned_ok_perm; [apply owned_split|]. apply I3.
  - intros t0 [Ht0|[->|Ht0]%elem_of_cons]%elem_of_app; [|done|]; eapply step_thread; try done; try apply (Hlen Tickets); apply I4; mem.
  - intros h Hh. eapply step_covers; [done|apply (Hlen Tickets)|by apply I5].
Qed.

(** ** Reading the tables *)

Section reads.
Context (cap : nat) (hs : list Z) (e : SharedEpochs) (ts : list thread).
Hypotheses (Hi : epoch_inv cap hs {| mem := e; dead := []; threads := ts |}) (Hc : counter e + 2 < 2 ^ 64).

Lemma bias x : 0 ≤ x ≤ counter e → u64 (x + 1) = x + 1.
Proof using Hc. intros. apply (wrap_small 64). lia. Qed.

Lemma owned_slot w t j c : t ∈ ts → (j, c) ∈ owned w t → ∃ s, table w e !! j = Some s ∧
  match c with Forming => state s = HOLDER_RESERVED | Formed p => state s = p ∧ decided p = true end.
Proof using Hi.
  intros Ht Hj. apply (oo_state _ _ (ei_owned _ _ _ Hi w)). cbn. apply list_elem_of_In, in_concat. exists (owned w t).
  split; apply list_elem_of_In; [|done]. by apply list_elem_of_fmap_2.
Qed.

Lemma slot_owned w j s : table w e !! j = Some s → state s ≠ HOLDER_FREE → ∃ t c, t ∈ ts ∧ (j, c) ∈ owned w t.
Proof using Hi.
  intros Hs Hf. destruct (oo_owner _ _ (ei_owned _ _ _ Hi w) j s Hs Hf) as [c Hj]. cbn in Hj.
  apply list_elem_of_In, in_concat in Hj as (l & Hl & Hj). apply list_elem_of_In, list_elem_of_fmap in Hl as (t & -> & Ht).
  exists t, c. split; [done|]. by apply list_elem_of_In.
Qed.

Lemma formed_owned w t g : g ∈ formed w t → (g.1, Formed g.2) ∈ owned w t.
Proof using. clear. intros Hg. apply elem_of_app. right. apply list_elem_of_fmap. by exists g. Qed.
Lemma forming_owned w t i : i ∈ forming w (pc t) → (i, Forming) ∈ owned w t.
Proof using. clear. intros Hg. apply elem_of_app. left. apply list_elem_of_fmap. by exists i. Qed.

Lemma thread_of t : t ∈ ts → thread_ok e ts t.
Proof using Hi. apply (ei_threads _ _ _ Hi). Qed.

(** An open ticket is in its slot, or its slot is reserved. *)
Lemma open_slot t j x :
  t ∈ ts → (j, x) ∈ opens t → ∃ s, tickets e !! j = Some s ∧ (state s = HOLDER_RESERVED ∨ state s = x + 1 ∧ decided (x + 1) = true).
Proof using Hi Hc.
  intros Ht Hx. destruct (thread_of t Ht) as [Hp _ Hst]. unfold opens in Hx. apply elem_of_app in Hx as [Hx|Hx].
  - destruct (pc t) as [| | | | | | | |i y| | | | | | | |[] i p|[] i p|] eqn:Epc; try (by apply elem_of_nil in Hx); apply list_elem_of_singleton in Hx; simplify_eq.
    + destruct (owned_slot Tickets t i Forming Ht) as (s & Hs & Hst'); [apply forming_owned; rewrite Epc; by left|]. exists s. eauto.
    + destruct (owned_slot Tickets t i (Formed p) Ht) as (s & Hs & Hst'); [apply (formed_owned Tickets t (i, p)); unfold formed; rewrite Epc; by left|].
      exists s. split; [done|]. right. by replace (p - 1 + 1) with p by lia.
    + destruct (owned_slot Tickets t i (Formed p) Ht) as (s & Hs & Hst'); [apply (formed_owned Tickets t (i, p)); unfold formed; rewrite Epc; by left|].
      exists s. split; [done|]. right. by replace (p - 1 + 1) with p by lia.
  - pose proof (Hst j x Hx). destruct (owned_slot Tickets t j (Formed (u64 (x + 1))) Ht) as (s & Hs & Hst').
    { apply (formed_owned Tickets t (j, u64 (x + 1))). apply elem_of_app. right. apply list_elem_of_fmap. by exists (j, x). }
    rewrite bias in Hst' by lia. exists s. eauto.
Qed.

Lemma open_below t j x : t ∈ ts → (j, x) ∈ opens t → (j < cap)%nat.
Proof using Hi Hc.
  intros Ht Hx. destruct (open_slot t j x Ht Hx) as (s & Hs & _). rewrite <- (ei_length _ _ _ Hi Tickets). by eapply lookup_lt_Some.
Qed.

(** What a scan reads of a ticket slot belongs to an open ticket. *)
Lemma ticket_read j s :
  tickets e !! j = Some s → state s ≠ HOLDER_FREE → state s ≠ HOLDER_RESERVED →
  2 ≤ state s ≤ counter e + 1 ∧ ∃ t, t ∈ ts ∧ (j, state s - 1) ∈ opens t.
Proof using Hi Hc.
  intros Hs Hf Hr. destruct (slot_owned Tickets j s Hs Hf) as (t & c & Ht & Hj). pose proof (owned_slot _ _ _ _ Ht Hj) as (s' & Hs' & Hst).
  assert (s' = s) as -> by (cbn in *; congruence). unfold owned in Hj. apply elem_of_app in Hj as [Hj|Hj].
  { apply list_elem_of_fmap in Hj as (i & [= -> ->] & _). done. }
  apply list_elem_of_fmap in Hj as ([i p] & [= -> ->] & Hj). cbn in Hst. destruct Hst as [-> _].
  destruct (thread_of t Ht) as [Hp _ Hstm]. unfold formed in Hj. apply elem_of_app in Hj as [Hj|Hj].
  - destruct (pc t) as [| | | | | | | | | | | | | | | |[] k q|[] k q|] eqn:Epc; try (by apply elem_of_nil in Hj); apply list_elem_of_singleton in Hj; simplify_eq;
      (split; [exact Hp|]; exists t; split; [done|]; unfold opens; rewrite Epc; by left).
  - apply list_elem_of_fmap in Hj as ([k x] & [= -> ->] & Hj). pose proof (Hstm k x Hj). cbn in *. rewrite bias by lia. split; [lia|].
    exists t. split; [done|]. apply elem_of_app. right. by replace (x + 1 - 1) with x by lia.
Qed.

(** A pin is in its slot, or its slot is reserved. *)
Lemma floor_slot t j f :
  t ∈ ts → (j, f) ∈ floors t → ∃ s, pins e !! j = Some s ∧ (state s = HOLDER_RESERVED ∨ state s = f + 1 ∧ decided (f + 1) = true).
Proof using Hi Hc.
  intros Ht Hx. destruct (thread_of t Ht) as [Hp Hgd _]. unfold floors in Hx. apply elem_of_app in Hx as [Hx|Hx].
  - assert (j ∈ forming Pins (pc t)) as Hj.
    { destruct (pc t) as [| | | | |[] ? ? ?| | | | | | | | | | | | |]; try (by apply elem_of_nil in Hx);
        apply list_elem_of_singleton in Hx; simplify_eq; by left. }
    destruct (owned_slot Pins t j Forming Ht) as (s & Hs & Hst); [by apply forming_owned|]. exists s. eauto.
  - destruct (Hgd j f Hx) as [Hf _]. destruct (owned_slot Pins t j (Formed (u64 (f + 1))) Ht) as (s & Hs & Hst).
    { apply (formed_owned Pins t (j, u64 (f + 1))). apply elem_of_app. right. apply list_elem_of_fmap. by exists (j, f). }
    rewrite bias in Hst by lia. exists s. eauto.
Qed.

Lemma floor_below t j f : t ∈ ts → (j, f) ∈ floors t → (j < cap)%nat.
Proof using Hi Hc.
  intros Ht Hx. destruct (floor_slot t j f Ht Hx) as (s & Hs & _). rewrite <- (ei_length _ _ _ Hi Pins). by eapply lookup_lt_Some.
Qed.

(** A published payload is not zero. *)
Lemma pin_read j s : pins e !! j = Some s → state s ≠ HOLDER_FREE → state s ≠ HOLDER_RESERVED → 1 ≤ state s ≤ counter e + 1.
Proof using Hi Hc.
  intros Hs Hf Hr. destruct (slot_owned Pins j s Hs Hf) as (t & c & Ht & Hj). pose proof (owned_slot _ _ _ _ Ht Hj) as (s' & Hs' & Hst).
  assert (s' = s) as -> by (cbn in *; congruence). unfold owned in Hj. apply elem_of_app in Hj as [Hj|Hj].
  { apply list_elem_of_fmap in Hj as (i & [= -> ->] & _). done. }
  apply list_elem_of_fmap in Hj as ([i p] & [= -> ->] & Hj). cbn in Hst. destruct Hst as [-> _].
  destruct (thread_of t Ht) as [Hp Hgd _]. unfold formed in Hj. apply elem_of_app in Hj as [Hj|Hj].
  - destruct (pc t) as [| | | | | | | | | | | | | | | |[] k q|[] k q|] eqn:Epc; try (by apply elem_of_nil in Hj); apply list_elem_of_singleton in Hj; by simplify_eq.
  - apply list_elem_of_fmap in Hj as ([k x] & [= -> ->] & Hj). destruct (Hgd k x Hj) as [? _]. cbn in *. rewrite bias by lia. lia.
Qed.
End reads.

(** ** Scans *)

Section scans.
Context (cap : nat) (hs : list Z) (e : SharedEpochs) (ts : list thread).
Hypotheses (Hi : epoch_inv cap hs {| mem := e; dead := []; threads := ts |}) (Hc : counter e + 2 < 2 ^ 64).

Lemma unseen_end i p : (cap ≤ i)%nat → unseen e ts i p → unseen e ts cap p.
Proof using Hi Hc. intros Hle [H1 H2]. split; [done|]. intros t j x Ht Hj Hlt. eapply H2; [done..|lia]. Qed.

(** Passing slot [i] of the tickets. *)
Lemma unseen_next i p s q :
  tickets e !! i = Some s → unseen e ts i p → 0 ≤ q ≤ p → state s ≠ HOLDER_RESERVED → (state s ≠ HOLDER_FREE → ∀ x, state s = x + 1 → q < x) → unseen e ts (S i) q.
Proof using Hi Hc.
  intros Hs [H1 H2] Hq Hr Hx. split; [lia|]. intros t j x Ht Hj Hlt. destruct (decide (j = i)) as [->|Hne].
  - destruct (open_slot _ _ _ _ Hi Hc t i x Ht Hj) as (s' & Hs' & [?|[E Hd] ]); [congruence|].
    assert (s' = s) as -> by congruence. apply Hx; [|done]. rewrite E. intros Ez. by rewrite Ez in Hd.
  - enough (p < x) by lia. eapply H2; [done..|lia].
Qed.

Lemma covers_end i p : (cap ≤ i)%nat → covers e ts i p → covers e ts cap p.
Proof using Hi Hc. intros Hle [H1 H2]. split; [done|]. intros t j x Ht Hj Hlt. eapply H2; [done..|lia]. Qed.

(** Passing slot [i] of the pins. *)
Lemma covers_next i p s q :
  pins e !! i = Some s → covers e ts i p → 0 ≤ q ≤ p → state s ≠ HOLDER_RESERVED → (state s ≠ HOLDER_FREE → ∀ f, state s = f + 1 → q ≤ f) → covers e ts (S i) q.
Proof using Hi Hc.
  intros Hs [ [H0 H1] H2] Hq Hr Hx. split.
  - split; [lia|]. intros t j x Ht Hj Hlt. enough (p < x) by lia. by eapply H1.
  - intros t j f Ht Hj Hlt. destruct (decide (j = i)) as [->|Hne].
    + destruct (floor_slot _ _ _ _ Hi Hc t i f Ht Hj) as (s' & Hs' & [?|[E Hd] ]); [congruence|].
      assert (s' = s) as -> by congruence. apply Hx; [|done]. rewrite E. intros Ez. by rewrite Ez in Hd.
    + enough (p ≤ f) by lia. eapply H2; [done..|lia].
Qed.
End scans.

(** ** Steps *)

Ltac by_pc Epc :=
  try match goal with |- ∀ w : which, _ => intros [] end; unfold opens, floors; cbn; rewrite ?Epc; cbn; try done; try (by intros ? ?; mem).


Section steps.
Context (cap : nat) (hs : list Z) (e : SharedEpochs) (a b : list thread) (t : thread).
Hypotheses (Hi : epoch_inv cap hs {| mem := e; dead := []; threads := a ++ t :: b |}) (Hc : counter e + 2 < 2 ^ 64).

Lemma own_ok : thread_ok e (a ++ t :: b) t.
Proof using Hi. apply (ei_threads _ _ _ Hi). cbn. mem. Qed.

Lemma floors_keep t' : (∀ j f, (j, f) ∈ floors t' → (j, f) ∈ floors t) → ∀ j f, (j, f) ∈ floors t' → (j, f) ∈ floors t ∨ f = counter e ∨
    ∃ f0 t0 j0 x, (j, f0) ∈ floors t ∧ t0 ∈ a ++ t :: b ∧ (j0, x) ∈ opens t0 ∧ (j0 < length (tickets e))%nat ∧ f = Z.min f0 (x - 1).
Proof using. clear. intros Hk j f Hj. left. by apply Hk. Qed.

(** The thread goes on without writing. *)
Lemma goto_inv p :
  (∀ w, forming w p = forming w (pc t)) → (∀ w, leaving w p = leaving w (pc t)) → opens (goto t p) = opens t →
  (grows e (a ++ t :: b) t (goto t p) (counter e)) → point_ok e (a ++ t :: b) p →
  epoch_inv cap hs {| mem := e; dead := []; threads := a ++ goto t p :: b |}.
Proof using Hi.
  intros Hf Hl Ho Hg Hp. eapply step_inv; [done|done|done| |].
  - intros w os. unfold owned, formed. cbn. by rewrite Hf, Hl.
  - destruct own_ok as [H1 H2 H3]. eapply step_thread; [done|done|]. by split.
Qed.

Lemma grows_same p :
  opens (goto t p) = opens t → (∀ g, g ∈ floors (goto t p) → g ∈ floors t) → grows e (a ++ t :: b) t (goto t p) (counter e).
Proof using. clear. intros Ho Hf. split; [done| |]. - intros j x. rewrite Ho. by left. - intros j f Hj. left. by apply Hf. Qed.

(** The thread writes to its slot: the claim [c] it has there becomes [c']. *)
Lemma write_inv w i f t' c c' rest :
  owned w t ≡ₚ c ++ rest → owned w t' ≡ₚ c' ++ rest → (∀ w', w' ≠ w → owned w' t' = owned w' t) →
  (∀ os, owned_ok (table w e) (c ++ os) → owned_ok (alter f i (table w e)) (c' ++ os)) →
  grows e (a ++ t :: b) t t' (counter e) → (thread_ok (on_slot w i f e) (a ++ t' :: b) t') →
  epoch_inv cap hs {| mem := on_slot w i f e; dead := []; threads := a ++ t' :: b |}.
Proof using Hi.
  intros E1 E2 E3 Hw Hg Ht. eapply step_inv; [done|by destruct w| | |done].
  - intros w'. destruct w, w'; cbn; by rewrite ?length_alter.
  - intros w' os Hos. destruct (decide (w' = w)) as [->|Hne].
    + assert (table w (on_slot w i f e) = alter f i (table w e)) as -> by (by destruct w).
      eapply owned_ok_perm; [by rewrite E2, <- (assoc_L (++))|]. apply Hw. eapply owned_ok_perm; [|exact Hos]. by rewrite E1, <- (assoc_L (++)).
    + rewrite E3 by done. assert (table w' (on_slot w i f e) = table w' e) as ->; [by destruct w, w'|done].
Qed.

(** A step that only moves the program point. *)
Lemma quiet_access p :
  (∀ w, forming w p = forming w (pc t)) → (∀ w, leaving w p = leaving w (pc t)) → opens (goto t p) = opens t →
  (∀ g, g ∈ floors (goto t p) → g ∈ floors t) → point_ok e (a ++ t :: b) p →
  epoch_inv cap hs {| mem := e; dead := []; threads := a ++ goto t p :: b |}.
Proof using Hi. intros. apply goto_inv; try done. by apply grows_same. Qed.

(** [now] passes a slot. *)
Lemma now_fold_inv u r i acc s p :
  pc t = NowFold u r i acc → tickets e !! i = Some s →
  p = (if state s =? HOLDER_FREE then NowFold u r (S i) acc
       else if state s =? HOLDER_RESERVED then restart (S r) (ReapLoad Tickets (BackNow u (S r)) 0) (NowLoad u (S r))
       else NowFold u r (S i) (Z.min acc (u64 (state s - 2)))) →
  epoch_inv cap hs {| mem := e; dead := []; threads := a ++ goto t p :: b |}.
Proof using Hi Hc.
  intros Epc Hs ->. destruct own_ok as [Hp _ _]. rewrite Epc in Hp. cbn in Hp.
  destruct (Z.eqb_spec (state s) HOLDER_FREE) as [Ef|Ef].
  - apply quiet_access; by_pc Epc. eapply unseen_next; try done; [destruct Hp; lia|by rewrite Ef].
  - destruct (Z.eqb_spec (state s) HOLDER_RESERVED) as [Er|Er].
    + unfold restart. destruct (_ =? 0)%nat; apply quiet_access; by_pc Epc; destruct u; by_pc Epc.
    + destruct (ticket_read _ _ _ _ Hi Hc i s Hs Ef Er) as (Hst & t0 & Ht0 & Ho). rewrite (wrap_small 64) by lia.
      apply goto_inv; by_pc Epc; [|eapply unseen_next; try done; [destruct Hp|]; lia]. split; [done|by_pc Epc; by left|].
      unfold floors. cbn. rewrite Epc. intros j f [Hj|Hj]%elem_of_app; [|left; mem]. destruct u; try (by apply elem_of_nil in Hj).
      apply list_elem_of_singleton in Hj as [= -> ->]. right. right. exists acc, t0, i, (state s - 1). split; [by left|]. split; [done|]. split; [done|].
      split; [by eapply lookup_lt_Some|]. f_equal. lia.
Qed.

Lemma hor_fold_inv r i acc s p :
  pc t = HorFold r i acc → pins e !! i = Some s →
  p = (if state s =? HOLDER_FREE then HorFold r (S i) acc
       else if state s =? HOLDER_RESERVED then restart (S r) (ReapLoad Pins (BackHorizon (S r)) 0) (NowLoad (ForHorizon (S r)) 0)
       else HorFold r (S i) (Z.min acc (u64 (state s - 1)))) →
  epoch_inv cap hs {| mem := e; dead := []; threads := a ++ goto t p :: b |}.
Proof using Hi Hc.
  intros Epc Hs ->. destruct own_ok as [Hp _ _]. rewrite Epc in Hp. cbn in Hp. pose proof Hp as [ [Ha _] _].
  destruct (Z.eqb_spec (state s) HOLDER_FREE) as [Ef|Ef].
  - apply quiet_access; by_pc Epc. eapply covers_next; try done; try (by rewrite Ef); lia.
  - destruct (Z.eqb_spec (state s) HOLDER_RESERVED) as [Er|Er].
    + unfold restart. destruct (_ =? 0)%nat; apply quiet_access; by_pc Epc.
    + pose proof (pin_read _ _ _ _ Hi Hc i s Hs Ef Er). rewrite (wrap_small 64) by lia. apply quiet_access; by_pc Epc.
      eapply covers_next; try done; lia.
Qed.

(** *** Writes *)

Lemma claim_inv w again i s :
  pc t = ResCas w again i → table w e !! i = Some s → state s = HOLDER_FREE →
  epoch_inv cap hs {| mem := on_slot w i (set_state HOLDER_RESERVED) e; dead := []; threads := a ++ goto t (ResPid w i) :: b |}.
Proof using Hi.
  intros Epc Hs Ef. assert (grows e (a ++ t :: b) t (goto t (ResPid w i)) (counter e)) as Hg by (apply grows_same; by_pc Epc).
  eapply (write_inv w i _ _ [] [(i, Forming)] (owned w t)); try done.
  - unfold owned, formed. cbn. rewrite Epc. by destruct w.
  - intros w' Hne. unfold owned, formed. cbn. rewrite Epc. by destruct w, w'.
  - intros os Hos. by eapply owned_claim.
  - eapply step_thread; [by destruct w|destruct w; cbn; by rewrite ?length_alter|]. destruct own_ok as [_ H2 H3]. by split.
Qed.

Lemma pid_inv w i :
  pc t = ResPid w i →
  epoch_inv cap hs {| mem := on_slot w i (set_owner (pid t)) e; dead := [];
                      threads := a ++ goto t (match w with Pins => NowLoad (ForPin i) 0 | Tickets => TickAdd i end) :: b |}.
Proof using Hi.
  intros Epc. set (p := match w with Pins => NowLoad (ForPin i) 0 | Tickets => TickAdd i end).
  assert (grows e (a ++ t :: b) t (goto t p) (counter e)) as Hg by (apply grows_same; destruct w; by_pc Epc).
  eapply (write_inv w i _ _ [] [] (owned w t)); try done.
  - unfold owned, formed, p. cbn. rewrite Epc. by destruct w.
  - intros w' Hne. unfold owned, formed, p. cbn. rewrite Epc. by destruct w, w'.
  - intros os Hos. by apply owned_owner.
  - eapply step_thread; [by destruct w|destruct w; cbn; by rewrite ?length_alter|]. destruct own_ok as [_ H2 H3]. split; [by destruct w|done..].
Qed.

Lemma rel_pid_inv w i x :
  pc t = RelPid w i x →
  epoch_inv cap hs {| mem := on_slot w i (set_owner 0) e; dead := []; threads := a ++ goto t (RelState w i x) :: b |}.
Proof using Hi.
  intros Epc. assert (grows e (a ++ t :: b) t (goto t (RelState w i x)) (counter e)) as Hg by (apply grows_same; destruct w; by_pc Epc).
  eapply (write_inv w i _ _ [] [] (owned w t)); try done.
  - unfold owned, formed. cbn. rewrite Epc. by destruct w.
  - intros w' Hne. unfold owned, formed. cbn. rewrite Epc. by destruct w, w'.
  - intros os Hos. by apply owned_owner.
  - eapply step_thread; [by destruct w|destruct w; cbn; by rewrite ?length_alter|]. destruct own_ok as [H1 H2 H3]. rewrite Epc in H1.
    split; [by destruct w|done..].
Qed.

Lemma rel_state_inv w i x :
  pc t = RelState w i x →
  epoch_inv cap hs {| mem := on_slot w i (set_state HOLDER_FREE) e; dead := []; threads := a ++ goto t Idle :: b |}.
Proof using Hi.
  intros Epc. assert (grows e (a ++ t :: b) t (goto t Idle) (counter e)) as Hg.
  { split; [done| |]; unfold opens, floors; cbn; rewrite Epc; intros j y Hj; left; mem. }
  eapply (write_inv w i _ _ [(i, Formed x)] [] (owned w (goto t Idle))); try done.
  - unfold owned, formed. cbn. rewrite Epc. by destruct w.
  - intros w' Hne. unfold owned, formed. cbn. rewrite Epc. by destruct w, w'.
  - intros os Hos. by eapply owned_free.
  - eapply step_thread; [by destruct w|destruct w; cbn; by rewrite ?length_alter|]. destruct own_ok as [_ H2 H3]. by split.
Qed.

(** A pin and a ticket are published. *)
Lemma pin_inv i x :
  pc t = PinStore i x → decided (u64 (x + 1)) = true →
  epoch_inv cap hs {| mem := on_slot Pins i (set_state (u64 (x + 1))) e; dead := [];
    threads := a ++ {| pid := pid t; pc := Idle; guards := (i, x) :: guards t; stamps := stamps t |} :: b |}.
Proof using Hi.
  intros Epc Hd. set (t' := {| pid := pid t; pc := Idle; guards := (i, x) :: guards t; stamps := stamps t |}).
  destruct own_ok as [H1 H2 H3]. rewrite Epc in H1. cbn in H1.
  assert (grows e (a ++ t :: b) t t' (counter e)) as Hg.
  { split; [done| |]; unfold opens, floors; cbn; rewrite Epc; intros j y Hj; left; [mem|exact Hj]. }
  eapply (write_inv Pins i _ _ [(i, Forming)] [(i, Formed (u64 (x + 1)))] ((λ g, (g.1, Formed g.2)) <$> ((λ g, (g.1, u64 (g.2 + 1))) <$> guards t))); try done.
  - unfold owned, formed. cbn. by rewrite Epc.
  - intros [] Hne; [done|]. unfold owned, formed. cbn. by rewrite Epc.
  - intros os Hos. eapply owned_update, Hos. done.
  - eapply (step_thread _ (on_slot Pins i (set_state (u64 (x + 1))) e)); [done|done|]. split; [done| |done].
    intros j y [ [= -> ->]|Hj]%elem_of_cons; [done|by eapply H2].
Qed.

Lemma ticket_inv i x :
  pc t = TickStore i x → decided (u64 (x + 1)) = true →
  epoch_inv cap hs {| mem := on_slot Tickets i (set_state (u64 (x + 1))) e; dead := [];
    threads := a ++ {| pid := pid t; pc := Idle; guards := guards t; stamps := (i, x) :: stamps t |} :: b |}.
Proof using Hi.
  intros Epc Hd. set (t' := {| pid := pid t; pc := Idle; guards := guards t; stamps := (i, x) :: stamps t |}).
  destruct own_ok as [H1 H2 H3]. rewrite Epc in H1. cbn in H1.
  assert (grows e (a ++ t :: b) t t' (counter e)) as Hg.
  { split; [done| |]; unfold opens, floors; cbn; rewrite Epc; intros j y Hj; left; [exact Hj|mem]. }
  eapply (write_inv Tickets i _ _ [(i, Forming)] [(i, Formed (u64 (x + 1)))] ((λ g, (g.1, Formed g.2)) <$> ((λ g, (g.1, u64 (g.2 + 1))) <$> stamps t))); try done.
  - unfold owned, formed. cbn. by rewrite Epc.
  - intros [] Hne; [|done]. unfold owned, formed. cbn. by rewrite Epc.
  - intros os Hos. eapply owned_update, Hos. done.
  - eapply (step_thread _ (on_slot Tickets i (set_state (u64 (x + 1))) e)); [done|cbn; by rewrite length_alter|]. split; [done|done|].
    intros j y [ [= -> ->]|Hj]%elem_of_cons; [done|by eapply H3].
Qed.

(** The counter advances. *)
Lemma counter_inv p :
  (∀ w, forming w p = forming w (pc t)) → (∀ w, leaving w p = leaving w (pc t)) →
  (∀ j x, (j, x) ∈ opens (goto t p) → (j, x) ∈ opens t ∨ counter e < x) → floors (goto t p) = floors t →
  point_ok (with_counter (counter e + 1) e) (a ++ goto t p :: b) p →
  epoch_inv cap hs {| mem := with_counter (counter e + 1) e; dead := []; threads := a ++ goto t p :: b |}.
Proof using Hi.
  intros Hf Hl Ho Hfl Hp.
  assert (grows e (a ++ t :: b) t (goto t p) (counter e + 1)) as Hg by (split; [lia|done|]; intros j f; rewrite Hfl; by left).
  eapply step_inv; [done|done|by intros []| |].
  - intros w os. unfold owned, formed. cbn. rewrite Hf, Hl. by destruct w.
  - destruct own_ok as [_ H2 H3]. pose proof (step_thread e (with_counter (counter e + 1) e) a b t (goto t p) Hg eq_refl (goto t Idle)) as [_ G2 G3];
      [by split|]. by split.
Qed.

Definition horizons (ev : event) : list Z := match ev with HorizonIs h => [h] | _ => [] end.

Lemma grant_inv r i acc :
  pc t = HorFold r i acc → pins e !! i = None →
  epoch_inv cap (acc :: hs) {| mem := e; dead := []; threads := a ++ goto t Idle :: b |}.
Proof using Hi Hc.
  intros Epc Hs. destruct own_ok as [Hp _ _]. rewrite Epc in Hp. cbn in Hp.
  assert (epoch_inv cap hs {| mem := e; dead := []; threads := a ++ goto t Idle :: b |}) as [I1 I0 I2 I3 I4 I5] by (apply quiet_access; by_pc Epc).
  split; try done. intros h [->|Hh]%elem_of_cons; [|by apply I5]. cbn. eapply step_covers; [|done|].
  - apply grows_same; by_pc Epc.
  - eapply covers_end; [done|done| |done]. apply lookup_ge_None in Hs. by rewrite <- (I2 Pins).
Qed.

Lemma now_load_inv u r :
  pc t = NowLoad u r → epoch_inv cap hs {| mem := e; dead := []; threads := a ++ goto t (NowFold u r 0 (counter e)) :: b |}.
Proof using Hi.
  intros Epc. apply goto_inv; by_pc Epc.
  - split; [done|by_pc Epc; by left|]. unfold floors. cbn. rewrite Epc. intros j f [Hj|Hj]%elem_of_app; [|left; mem].
    destruct u; try (by apply elem_of_nil in Hj). apply list_elem_of_singleton in Hj as [= -> ->]. by right; left.
  - split; [pose proof (ei_counter _ _ _ Hi) as H0; cbn in H0; lia|]. intros; lia.
Qed.

Lemma now_end_inv u r i acc p ev :
  pc t = NowFold u r i acc → tickets e !! i = None → now_is u acc = (p, ev) →
  epoch_inv cap hs {| mem := e; dead := []; threads := a ++ goto t p :: b |}.
Proof using Hi Hc.
  intros Epc Hs Hn. destruct own_ok as [Hp _ _]. rewrite Epc in Hp. cbn in Hp. apply lookup_ge_None in Hs.
  pose proof (ei_length _ _ _ Hi Tickets) as Hl. cbn in Hl. rewrite Hl in Hs. pose proof (unseen_end _ _ _ _ Hi Hc i acc Hs Hp) as Hu.
  destruct u; injection Hn as <- <-; apply quiet_access; by_pc Epc; rewrite ?Hl; try done. split; [by rewrite Hl|]. intros; lia.
Qed.

Lemma tstep_inv e' t' ev :
  tstep (process_alive []) e t = Some (e', t', ev) →
  epoch_inv cap (horizons ev ++ hs) {| mem := e'; dead := []; threads := a ++ t' :: b |} ∧ counter e' ≤ counter e + 1.
Proof using Hi Hc.
  pose proof (ei_counter _ _ _ Hi) as H0. cbn in H0. pose proof own_ok as [Hp _ _].
  unfold tstep. destruct (pc t) as [|w again i|w again i|w i|u r|u r i acc|i x|i|i x|r i acc|w k i|w k i st|w k i st|x i|x i|x i|w i p|w i p|] eqn:Epc.
  - intros [= <- <- <-]. split; [done|lia].
  - intros [= E]. destruct (table w e !! i) as [s|] eqn:Es.
    + injection E as <- <- <-. split; [|lia]. destruct (_ =? _); apply quiet_access; by_pc Epc.
    + destruct w, again; injection E as <- <- <-; (split; [|lia]); apply quiet_access; by_pc Epc.
  - destruct (table w e !! i) as [s|] eqn:Es; [|done]. cbn. intros [= E]. destruct (Z.eqb_spec (state s) HOLDER_FREE) as [Ef|Ef]; injection E as <- <- <-.
    + split; [by eapply claim_inv|]. destruct w; cbn; lia.
    + split; [|lia]. apply quiet_access; by_pc Epc.
  - intros [= <- <- <-]. split; [by apply pid_inv|]. destruct w; cbn; lia.
  - intros [= <- <- <-]. split; [by apply now_load_inv|lia].
  - intros [= E]. destruct (tickets e !! i) as [s|] eqn:Es.
    + injection E as <- <- <-. split; [by eapply now_fold_inv|lia].
    + destruct (now_is u acc) as [p ev'] eqn:En. injection E as <- <- <-. split; [|lia].
      assert (horizons ev' = []) as -> by (destruct u; by injection En as <- <-). by eapply now_end_inv.
  - destruct (decided _) eqn:Hd; [|done]. intros [= <- <- <-]. split; [by apply pin_inv|cbn; lia].
  - intros [= <- <- <-]. rewrite (wrap_small 64) by lia. split; [|cbn; lia]. apply counter_inv; by_pc Epc.
    + intros j y [ [= -> ->]|Hj]%elem_of_cons; [right; lia|by left].
    + lia.
  - destruct (decided _) eqn:Hd; [|done]. intros [= <- <- <-]. split; [by apply ticket_inv|cbn; lia].
  - intros [= E]. destruct (pins e !! i) as [s|] eqn:Es; injection E as <- <- <-; (split; [|lia]); [by eapply hor_fold_inv|by eapply grant_inv].
  - intros [= E]. destruct (table w e !! i) as [s|] eqn:Es.
    + injection E as <- <- <-. split; [|lia]. destruct (_ =? _); apply quiet_access; by_pc Epc.
    + destruct (resume k) as [p ev'] eqn:En. injection E as <- <- <-. split; [|lia].
      destruct k; injection En as <- <-; apply quiet_access; by_pc Epc; (destruct u || idtac); by_pc Epc.
  - destruct (table w e !! i) as [s|] eqn:Es; [|done]. cbn. rewrite orb_true_r. intros [= <- <- <-]. split; [|lia]. apply quiet_access; by_pc Epc.
  - destruct Hp.
  - intros [= E]. destruct (tickets e !! i) as [s|] eqn:Es; injection E as <- <- <-; (split; [|lia]); [destruct (_ =? _)|]; apply quiet_access; by_pc Epc.
  - destruct (tickets e !! i) as [s|] eqn:Es; [|done]. cbn. rewrite orb_true_r. intros [= <- <- <-]. split; [|lia]. apply quiet_access; by_pc Epc.
  - destruct Hp.
  - intros [= <- <- <-]. split; [by apply rel_pid_inv|]. destruct w; cbn; lia.
  - intros [= <- <- <-]. split; [by eapply rel_state_inv|]. destruct w; cbn; lia.
  - intros [= <- <- <-]. rewrite (wrap_small 64) by lia. split; [|cbn; lia]. apply counter_inv; by_pc Epc; intros j y Hj; by left.
Qed.
End steps.

Lemma starts_inv cap hs e a b t t' :
  epoch_inv cap hs {| mem := e; dead := []; threads := a ++ t :: b |} → counter e + 2 < 2 ^ 64 →
  pc t = Idle → starts t t' → epoch_inv cap hs {| mem := e; dead := []; threads := a ++ t' :: b |}.
Proof.
  intros Hi Hc Epc Hst. pose proof (own_ok _ _ _ _ _ _ Hi) as [_ Hgd Hsm].
  destruct Hst as [t|t|t|t|t|t x|t|p l i x r st|p g l i x r]; try (apply quiet_access; by_pc Epc).
  - destruct (Hgd i x) as [Hx _]; [cbn; mem|]. cbn in Hgd, Hsm. eapply step_inv; [done| |done| |].
    + split; [done|by left|]. unfold floors. cbn. intros j f Hj%elem_of_app. left. mem.
    + intros w os Hos. eapply owned_ok_perm; [|exact Hos]. destruct w; unfold owned, formed; cbn; [|done].
      rewrite !fmap_app. cbn. by rewrite <- Permutation_middle.
    + eapply (step_thread e e a b {| pid := p; pc := Idle; guards := l ++ (i, x) :: r; stamps := st |}); [|done|].
      * split; [done|by left|]. unfold floors. cbn. intros j f Hj%elem_of_app. left. mem.
      * split; cbn; [rewrite (wrap_small 64); lia| |done]. intros j y Hj%elem_of_app. apply (Hgd j y). mem.
  - pose proof (Hsm i x) as Hx. cbn in Hx, Hgd, Hsm. specialize (Hx ltac:(mem)). eapply step_inv; [done| |done| |].
    + split; [done| |by left]. unfold opens. cbn. intros j y Hj. left. rewrite (wrap_small 64) in Hj by lia. replace (x + 1 - 1) with x in Hj by lia.
      rewrite elem_of_cons, elem_of_app in Hj. mem.
    + intros w os Hos. eapply owned_ok_perm; [|exact Hos]. destruct w; unfold owned, formed; cbn; [done|].
      rewrite !fmap_app. cbn. by rewrite <- Permutation_middle.
    + eapply (step_thread e e a b {| pid := p; pc := Idle; guards := g; stamps := l ++ (i, x) :: r |}); [|done|].
      * split; [done| |by left]. unfold opens. cbn. intros j y Hj. left. rewrite (wrap_small 64) in Hj by lia. replace (x + 1 - 1) with x in Hj by lia.
      rewrite elem_of_cons, elem_of_app in Hj. mem.
      * split; cbn; [rewrite (wrap_small 64); lia|done|]. intros j y Hj%elem_of_app. apply (Hsm j y). mem.
Qed.

(** * Runs *)

Definition deathless (ls : list event) : Prop := ∀ p, Died p ∉ ls.

Lemma inv_fewer cap hs hs' sys : (∀ h, h ∈ hs' → h ∈ hs) → epoch_inv cap hs sys → epoch_inv cap hs' sys.
Proof. intros Hh [I1 I0 I2 I3 I4 I5]. split; auto. Qed.

Lemma concat_owned_idle w ps :
  concat (owned w <$> ((λ p, {| pid := p; pc := Idle; guards := []; stamps := [] |}) <$> ps)) = [].
Proof. induction ps as [|p ps IH]; [done|]. cbn. rewrite IH. by destruct w. Qed.

Lemma epoch_start_inv cap ps : epoch_inv cap [] (start cap ps).
Proof.
  split; cbn; try done.
  - intros []; apply length_replicate.
  - intros w. rewrite concat_owned_idle. split; [constructor|by intros j c ?%elem_of_nil|].
    intros j s. destruct w; intros [-> _]%lookup_replicate; done.
  - intros t (p & -> & _)%list_elem_of_fmap. split; cbn; [done|by intros j x ?%elem_of_nil..].
  - by intros h ?%elem_of_nil.
Qed.

Lemma run_inv cap ps ls sys :
  ltrace epoch_step (start cap ps) ls sys → deathless ls → Z.of_nat (length ls) < 2 ^ 63 →
  epoch_inv cap (concat (horizons <$> ls)) sys ∧ counter (mem sys) ≤ Z.of_nat (length ls).
Proof.
  revert ls sys. apply (ltrace_rev_ind epoch_step (start cap ps) (λ ls sys, deathless ls → Z.of_nat (length ls) < 2 ^ 63 →
    epoch_inv cap (concat (horizons <$> ls)) sys ∧ counter (mem sys) ≤ Z.of_nat (length ls))).
  { intros _ _. split; [apply epoch_start_inv|done]. }
  intros tr s1 ev s2 _ IH Hst Hd Hl. rewrite length_app in Hl. cbn in Hl. rewrite length_app. cbn [length].
  destruct IH as [Hi Hc]; [intros p Hp; apply (Hd p); mem|lia|]. pose proof (ei_alive _ _ _ Hi) as Hdead.
  assert (∀ h, h ∈ concat (horizons <$> tr ++ [ev]) → h ∈ horizons ev ++ concat (horizons <$> tr)) as Hh.
  { intros h. rewrite fmap_app, concat_app. cbn. rewrite app_nil_r, !elem_of_app. tauto. }
  destruct Hst as [e d a t b e' t' ev Ha Hts|e d a t b t' Ha Hpc Hs|e d ts p]; cbn in Hdead, Hc |- *; subst.
  - destruct (tstep_inv cap _ e a b t Hi ltac:(lia) _ _ _ Hts) as [Hi' Hc']. split; [by eapply inv_fewer|lia].
  - split; [|lia]. eapply inv_fewer; [exact Hh|]. cbn. eapply starts_inv; [exact Hi|lia|done|done].
  - exfalso. apply (Hd p). mem.
Qed.

(** C26: as long as no process dies, and for fewer than [2^63] steps of any
    interleaving of pins, tickets, writers and reclaimers: no horizon that
    [reclaim_horizon] has returned is above a pin that is held now, so what was
    superseded at or below a horizon is not visible to any pin, then or later;
    a pin is below every ticket that is open, so of a compound write it sees
    nothing before it is published; and the pins held are in slots of their
    own, which hold their epochs. *)
Theorem epoch_pins_safe cap ps ls sys :
  ltrace epoch_step (start cap ps) ls sys → deathless ls → Z.of_nat (length ls) < 2 ^ 63 →
  (∀ t i x, t ∈ threads sys → (i, x) ∈ guards t →
    (∀ h, HorizonIs h ∈ ls → h ≤ x ∧ ∀ died, died ≤ h → sees x (Some died) = false) ∧
    (∀ t' j y, t' ∈ threads sys → (j, y) ∈ stamps t' → x < y) ∧
    payload i (pins (mem sys)) = Some (x + 1)) ∧
  NoDup (concat ((λ t, (guards t).*1) <$> threads sys)).
Proof.
  intros Ht Hd Hl. destruct (run_inv _ _ _ _ Ht Hd Hl) as [Hi Hc]. destruct sys as [e d ts]. pose proof (ei_alive _ _ _ Hi) as Hdead. cbn in Hdead. subst d.
  cbn in Hc |- *. assert (counter e + 2 < 2 ^ 64) as Hc2 by lia. split.
  - intros t i x Hin Hg. assert ((i, x) ∈ floors t) as Hf by (apply elem_of_app; by right).
    pose proof (floor_below _ _ _ _ Hi Hc2 t i x Hin Hf) as Hlt. destruct (ei_threads _ _ _ Hi t Hin) as [_ Hgd _]. cbn in Hgd. split; [|split].
    + intros h Hh. assert (h ≤ x) as Hle.
      { destruct (ei_granted _ _ _ Hi h) as [_ Hcov].
        - apply list_elem_of_In, in_concat. exists [h]. split; [|by left]. apply list_elem_of_In, list_elem_of_fmap. by exists (HorizonIs h).
        - by eapply Hcov. }
      split; [done|]. intros died Hdd. cbn. apply Z.ltb_ge. lia.
    + intros t' j y Ht' Hy. destruct (Hgd i x Hg) as [_ Hun]. assert ((j, y) ∈ opens t') as Ho by (apply elem_of_app; by right).
      eapply Hun; [done..|]. rewrite (ei_length _ _ _ Hi Tickets : length (tickets e) = cap). by eapply open_below.
    + destruct (Hgd i x Hg) as [Hx _].
      destruct (owned_slot _ _ _ _ Hi Pins t i (Formed (u64 (x + 1))) Hin) as (s & Hs & Hst & Hdec).
      { apply (formed_owned Pins t (i, u64 (x + 1))). apply elem_of_app. right. apply list_elem_of_fmap. by exists (i, x). }
      unfold payload. cbn in Hs. rewrite Hs. cbn. rewrite Hst, Hdec. f_equal. apply (wrap_small 64). lia.
  - pose proof (oo_distinct _ _ (ei_owned _ _ _ Hi Pins)) as Hnd. cbn in Hnd. revert Hnd. clear.
    assert (concat ((λ t, (guards t).*1) <$> ts) ⊆+ (concat (owned Pins <$> ts)).*1) as Hsub; [|intros Hnd; apply submseteq_Permutation in Hsub as [k Hk]; rewrite Hk in Hnd; by apply NoDup_app in Hnd as [? _] ].
    induction ts as [|t ts IH]; [done|]. cbn. rewrite fmap_app. apply submseteq_app; [|done]. unfold owned, formed.
    rewrite !fmap_app, <- !list_fmap_compose. by do 2 apply submseteq_inserts_l.
Qed.

(** * Schedules *)

Inductive action := Access (i : nat) | Call (i : nat) (p : point) | Die (pid : Z).

Definition startable (p : point) : bool :=
  match p with
  | ResLoad _ false 0 | NowLoad ForNow 0 | NowLoad (ForHorizon 0) 0 | ReapLoad Pins BackReap 0 | AdvAdd => true
  | _ => false
  end.

Definition act (x : action) (sys : system) : option (event * system) :=
  match x with
  | Access i =>
      t ← threads sys !! i;
      if process_alive (dead sys) (pid t) then
        '(e, t, ev) ← tstep (process_alive (dead sys)) (mem sys) t;
        Some (ev, {| mem := e; dead := dead sys; threads := <[i := t]> (threads sys) |})
      else None
  | Call i p =>
      t ← threads sys !! i;
      match pc t with
      | Idle =>
          if process_alive (dead sys) (pid t) && startable p
          then Some (Tau, {| mem := mem sys; dead := dead sys; threads := <[i := goto t p]> (threads sys) |}) else None
      | _ => None
      end
  | Die p => Some (Died p, {| mem := mem sys; dead := p :: dead sys; threads := threads sys |})
  end.

Fixpoint sched (xs : list action) (sys : system) : option (list event * system) :=
  match xs with
  | [] => Some ([], sys)
  | x :: xs => '(ev, sys) ← act x sys; '(evs, sys) ← sched xs sys; Some (ev :: evs, sys)
  end.

Lemma split_thread ts i (t t' : thread) :
  ts !! i = Some t → ts = take i ts ++ t :: drop (S i) ts ∧ <[i := t']> ts = take i ts ++ t' :: drop (S i) ts.
Proof.
  intros Hi. split; [by rewrite take_drop_middle|]. rewrite <- (take_drop_middle ts i t Hi) at 1.
  rewrite insert_app_r_alt; [|rewrite length_take; lia]. replace (i - length (take i ts))%nat with 0%nat; [done|].
  rewrite length_take. apply lookup_lt_Some in Hi. lia.
Qed.

Lemma act_step x sys ev sys' : act x sys = Some (ev, sys') → epoch_step sys ev sys'.
Proof.
  destruct sys as [e d ts], x as [i|i p|p]; cbn.
  - destruct (ts !! i) as [t|] eqn:Hi; [|done]. cbn. destruct (process_alive d (pid t)) eqn:Ha; [|done].
    destruct (tstep _ e t) as [ [ [e' t'] ev']|] eqn:Ht; [|done]. cbn. intros [= <- <-].
    destruct (split_thread ts i t t' Hi) as [E1 E2]. rewrite E1 at 1. rewrite E2. by econstructor.
  - destruct (ts !! i) as [t|] eqn:Hi; [|done]. cbn. destruct (pc t) eqn:Hpc; try done. destruct (process_alive d (pid t)) eqn:Ha; [|done].
    destruct (startable p) eqn:Hs; [|done]. intros [= <- <-]. destruct (split_thread ts i t (goto t p) Hi) as [E1 E2]. rewrite E1 at 1. rewrite E2.
    apply step_call; [done|done|].
    destruct p as [|[] [] []| | |[|[]|] []| | | | | |[] [] []| | | | | | | |]; try done; constructor.
  - intros [= <- <-]. constructor.
Qed.

Lemma sched_run xs sys evs sys' : sched xs sys = Some (evs, sys') → ltrace epoch_step sys evs sys'.
Proof.
  revert sys evs. induction xs as [|x xs IH]; intros sys evs; cbn; [intros [= <- <-]; constructor|].
  destruct (act x sys) as [ [ev s1]|] eqn:Ha; [|done]. cbn. destruct (sched xs s1) as [ [evs1 s2]|] eqn:Hx; [|done]. cbn.
  intros [= <- <-]. eapply ltrace_cons; [by eapply act_step|by apply IH].
Qed.

Definition claim_pin_at (i : nat) : list action := Call i (ResLoad Pins false 0) :: replicate 7 (Access i).

Lemma epoch_pins_safe_witness :
  ∃ ls sys, ltrace epoch_step (start 1 [1; 2]) ls sys ∧ HorizonIs 0 ∈ ls ∧
    ∃ t, t ∈ threads sys ∧ (0%nat, 0) ∈ guards t ∧ ∀ h, HorizonIs h ∈ ls → h ≤ 0.
Proof.
  assert (∃ ls sys, sched (claim_pin_at 0 ++ [Call 1 AdvAdd; Access 1; Call 1 (NowLoad (ForHorizon 0) 0)] ++ replicate 5 (Access 1)) (start 1 [1; 2])
    = Some (ls, sys) ∧ HorizonIs 0 ∈ ls ∧ deathless ls ∧ (length ls < 100)%nat ∧ ∃ t, t ∈ threads sys ∧ (0%nat, 0) ∈ guards t) as (ls & sys & Hs & Hh & Hd & Hl & t & Ht & Hg).
  { eexists _, _. split; [vm_compute; reflexivity|]. split; [set_solver|]. split; [intros p Hp; set_solver|]. split; [cbn; lia|].
    eexists. split; [left|left]. }
  exists ls, sys. apply sched_run in Hs. split; [done|]. split; [done|]. exists t. split; [done|]. split; [done|]. intros h Hin.
  by destruct (epoch_pins_safe 1 [1; 2] ls sys Hs Hd ltac:(lia)) as [Hp _]; destruct (Hp t 0%nat 0 Ht Hg) as [Hp1 _]; apply Hp1.
Defined.

(** A process that dies makes pins unsafe. Process 1 dies with a pin, and
    process 2 reaps the slot, which keeps the pid of the dead. Process 3 reserves
    the slot; before it stores its own pid, process 2 reaps again, takes the
    reservation for one of the dead process and frees it. Process 4 gets the same
    slot for its pin at epoch 0, process 3 goes on and overwrites it with its own
    at epoch 1, and the horizon passes the pin of process 4, which is alive. *)
Lemma epoch_reap_frees_live :
  ∃ ls sys t, ltrace epoch_step (start 1 [1; 2; 3; 4; 5]) ls sys ∧ dead sys = [1] ∧
    t ∈ threads sys ∧ pid t = 4 ∧ guards t = [(0%nat, 0)] ∧ HorizonIs 1 ∈ ls ∧ ¬ deathless ls.
Proof.
  assert (∃ ls sys, sched
    (claim_pin_at 0 ++ [Die 1] ++ (Call 1 (ReapLoad Pins BackReap 0) :: replicate 4 (Access 1)) ++
     (Call 2 (ResLoad Pins false 0) :: replicate 2 (Access 2)) ++ (Call 1 (ReapLoad Pins BackReap 0) :: replicate 4 (Access 1)) ++
     claim_pin_at 3 ++ [Call 4 AdvAdd; Access 4] ++ replicate 5 (Access 2) ++
     (Call 4 (NowLoad (ForHorizon 0) 0) :: replicate 5 (Access 4))) (start 1 [1; 2; 3; 4; 5]) = Some (ls, sys) ∧
    dead sys = [1] ∧ (∃ t, threads sys !! 3%nat = Some t ∧ pid t = 4 ∧ guards t = [(0%nat, 0)]) ∧ HorizonIs 1 ∈ ls ∧ Died 1 ∈ ls)
    as (ls & sys & Hs & Hd & (t & Ht & Hp & Hg) & Hh & Hx).
  { eexists _, _. split; [vm_compute; reflexivity|]. split; [done|]. split; [by eexists|]. split; set_solver. }
  exists ls, sys, t. apply sched_run in Hs. split_and!; try done; [by eapply list_elem_of_lookup_2|]. intros Hno. by apply (Hno 1).
Qed.

(** A ticket of a dead process is to stay until every structure has voided its
    epoch, but a scan of the tickets that has waited sixty-four times for a
    reservation reaps them all. Here [now] then reports epoch 1, whose ticket was
    never published, and [dead_tickets] no longer names it. *)
Lemma now_publishes_dead_ticket :
  ∃ ls sys t, ltrace epoch_step (start 2 [1; 2; 3]) ls sys ∧ dead sys = [1] ∧
    t ∈ threads sys ∧ pid t = 1 ∧ stamps t = [(0%nat, 1)] ∧ NowIs 1 ∈ ls ∧ dead_tickets (process_alive (dead sys)) (mem sys) = [].
Proof.
  assert (∃ ls sys, sched
    ((Call 0 (ResLoad Tickets false 0) :: replicate 5 (Access 0)) ++ [Die 1] ++ (Call 1 (ResLoad Tickets false 0) :: replicate 3 (Access 1)) ++
     (Call 2 (NowLoad ForNow 0) :: replicate (64 * 3 + 6) (Access 2)) ++ replicate 3 (Access 1) ++ replicate 4 (Access 2)) (start 2 [1; 2; 3]) = Some (ls, sys) ∧
    dead sys = [1] ∧ (∃ t, threads sys !! 0%nat = Some t ∧ pid t = 1 ∧ stamps t = [(0%nat, 1)]) ∧ last ls = Some (NowIs 1) ∧
    dead_tickets (process_alive (dead sys)) (mem sys) = []) as (ls & sys & Hs & Hd & (t & Ht & Hp & Hg) & Hh & Hx).
  { eexists _, _. split; [vm_compute; reflexivity|]. split; [done|]. split; [by eexists|]. done. }
  exists ls, sys, t. apply sched_run in Hs. split_and!; try done; [by eapply list_elem_of_lookup_2|by apply last_Some_elem_of].
Qed.
