(* ===== verification/VersionedMap.v ===== *)
(** The ordered map with versions: crates/subetha-cxc/src/versioned_btree_map.rs.

    A [BTree] of values stamped with the epochs they were current between, next
    to the table of [Epochs]. Calls are run one at a time, in a monad over the
    pair; [None] is a call that does not return. *)
From stdpp Require Import gmap sorting.
From S2P Require Import Prelude BTree SortedMap HolderTable Epochs.

Definition DIED_LIVE : Z := 2 ^ 64 - 1.
Definition SWEEP_CHUNK : nat := Z.to_nat 4096.

Record Versioned (V : Type) := { born : Z; died : Z; value : V }.
Arguments born {V} _.
Arguments died {V} _.
Arguments value {V} _.

Definition is_live {V} (x : Versioned V) : bool := died x =? DIED_LIVE.
Definition visible_at {V} (x : Versioned V) (pin : Z) : bool := (born x <=? pin) && (pin <? died x).

Inductive VersionedError :=
| RebornUnderPin | VFull | VLayoutMismatch | VEpochs (e : EpochError) | VIoError (kind : Z).

Definition of_btree (e : BTreeError) : VersionedError :=
  match e with
  | Full => VFull
  | BTree.LayoutMismatch | InvalidConfig => VLayoutMismatch
  | BTree.IoError k => VIoError k
  end.

Section versioned.
Context {K V : Type} `{KeyOrd K} (alive : Z → bool).

Record VersionedBTreeMap := { tree : SharedBTreeMap K (Versioned V); epochs : SharedEpochs }.

Definition VM (A : Type) : Type := VersionedBTreeMap → option (res VersionedError A * VersionedBTreeMap).

#[export] Instance VM_ret : MRet VM := λ A a s, Some (Ok a, s).
#[export] Instance VM_bind : MBind VM := λ A A' k c s,
  match c s with
  | Some (Ok a, s') => k a s'
  | Some (Err e, s') => Some (Err e, s')
  | Some (Panic, s') => Some (Panic, s')
  | None => None
  end.

Definition fail {A} (e : VersionedError) : VM A := λ s, Some (Err e, s).

(** ** The tree and the epochs *)

Definition tget (key : K) : VM (option (Versioned V)) :=
  λ s, match get_inner (tree s) key with Some (Done v) => Some (Ok v, s) | _ => None end.
Definition trange (low high : Bound K) (limit : nat) : VM (list (K * Versioned V)) :=
  λ s, match range_inner (tree s) low high limit with Some (Done l) => Some (Ok l, s) | _ => None end.

(** What the tree reports is left to the caller. *)
Definition tinsert (key : K) (x : Versioned V) : VM (res BTreeError (option (Versioned V))) :=
  λ s, let '(r, m) := insert key x (tree s) in Some (Ok r, {| tree := m; epochs := epochs s |}).
Definition tremove (key : K) : VM (res BTreeError (option (Versioned V))) :=
  λ s, let '(r, m) := remove key (tree s) in Some (Ok r, {| tree := m; epochs := epochs s |}).

(** The operator [?] on a result of the tree. *)
Definition try_tree {A} (r : res BTreeError A) : VM A :=
  λ s, Some (match r with Ok a => Ok a | Err e => Err (of_btree e) | Panic => Panic end, s).

Definition vadvance : VM Z := λ s, let '(x, e) := advance (epochs s) in Some (Ok x, {| tree := tree s; epochs := e |}).
Definition vhorizon : VM Z :=
  λ s, '(h, e) ← reclaim_horizon alive (epochs s); Some (Ok h, {| tree := tree s; epochs := e |}).

Definition pin (pid : Z) : VM (nat * Z) :=
  λ s, '(r, e) ← claim_pin alive pid (epochs s);
       Some (match r with Ok c => Ok c | Err x => Err (VEpochs x) | Panic => Panic end, {| tree := tree s; epochs := e |}).

(** ** Readers *)

Definition get_at (key : K) (pin : Z) : VM (option V) :=
  r ← tget key; mret (match r with Some x => if visible_at x pin then Some (value x) else None | None => None end).

Definition get (key : K) : VM (option V) :=
  r ← tget key; mret (match r with Some x => if is_live x then Some (value x) else None | None => None end).

Definition range_at_with_cursor (low high : Bound K) (limit : nat) (at_ : Z) : VM (list (K * V) * option K) :=
  raw ← trange low high limit;
  mret ((λ kx, (kx.1, value kx.2)) <$> List.filter (λ kx, visible_at kx.2 at_) raw, fst <$> last raw).

Definition range_at (low high : Bound K) (limit : nat) (at_ : Z) : VM (list (K * V)) :=
  r ← range_at_with_cursor low high limit at_; mret r.1.

(** ** Sweeps *)

Fixpoint each_entry (f : K → Versioned V → nat → VM nat) (chunk : list (K * Versioned V)) (n : nat) : VM nat :=
  match chunk with
  | [] => mret n
  | (k, x) :: chunk => n ← f k x n; each_entry f chunk n
  end.

Definition above (cursor : option K) : Bound K := match cursor with Some k => Excluded k | None => Unbounded end.

(** The loop over the key range by chunks. An iteration goes past a key, so one
    more than there are is fuel enough. *)
Fixpoint by_chunks (fuel : nat) (f : K → Versioned V → nat → VM nat) (cursor : option K) (n : nat) : VM nat :=
  match fuel with
  | O => λ s, None
  | S fuel =>
      chunk ← trange (above cursor) Unbounded SWEEP_CHUNK;
      match last chunk with
      | None => mret n
      | Some (k, _) => n ← each_entry f chunk n; by_chunks fuel f (Some k) n
      end
  end.

Definition over_entries (f : K → Versioned V → nat → VM nat) : VM nat :=
  λ s, by_chunks (S (Z.to_nat (blen (tree s)))) f None 0 s.

Definition sweep_entry (horizon : Z) (k : K) (x : Versioned V) (freed : nat) : VM nat :=
  if negb (is_live x) && (died x <=? horizon) then r ← tremove k; _ ← try_tree r; mret (S freed) else mret freed.

Definition sweep : VM nat :=
  horizon ← vhorizon; freed ← over_entries (sweep_entry horizon);
  if (freed =? 0)%nat then fail VFull else mret freed.

Definition void_entry (epoch : Z) (k : K) (x : Versioned V) (touched : nat) : VM nat :=
  if born x =? epoch then r ← tremove k; _ ← try_tree r; mret (S touched)
  else if died x =? epoch then
    r ← tinsert k {| born := born x; died := DIED_LIVE; value := value x |}; _ ← try_tree r; mret (S touched)
  else mret touched.

Definition void_epoch (epoch : Z) : VM nat := over_entries (void_entry epoch).

(** ** Writers *)

Definition reborn (existing : option (Versioned V)) : VM bool :=
  match existing with
  | Some prev => if is_live prev then mret false else h ← vhorizon; mret (h <? died prev)
  | None => mret false
  end.

Definition place (key : K) (entry : Versioned V) : VM (option (Versioned V)) :=
  r ← tinsert key entry;
  match r with
  | Err Full => _ ← sweep; r ← tinsert key entry; try_tree r
  | _ => try_tree r
  end.

Definition insert_at (key : K) (val : V) (born : Z) : VM (option V) :=
  existing ← tget key; b ← reborn existing;
  if b : bool then fail RebornUnderPin
  else
    displaced ← place key {| born := born; died := DIED_LIVE; value := val |};
    mret (match displaced with Some x => if is_live x then Some (value x) else None | None => None end).

Definition vinsert (key : K) (val : V) : VM (option V) := born ← vadvance; insert_at key val born.

Definition stamp_dead (key : K) (prev : Versioned V) (died : Z) : VM (option V) :=
  r ← tinsert key {| born := born prev; died := died; value := value prev |};
  match r with
  | Ok _ => mret (Some (value prev))
  | Err Full => mret None
  | Err e => fail (of_btree e)
  | Panic => try_tree Panic
  end.

Definition live_entry (key : K) : VM (option (Versioned V)) :=
  prev ← tget key; mret (match prev with Some x => if is_live x then Some x else None | None => None end).

Definition vremove (key : K) : VM (option V) :=
  prev ← live_entry key;
  match prev with None => mret None | Some x => died ← vadvance; stamp_dead key x died end.

Definition remove_at (key : K) (died : Z) : VM (option V) :=
  prev ← live_entry key;
  match prev with None => mret None | Some x => stamp_dead key x died end.

(** ** A process's calls

    A ticket is named by its slot, and so is a pin that is dropped. *)

Inductive vcall :=
| VInsert (k : K) (v : V) | VRemove (k : K) | VInsertAt (slot : nat) (k : K) (v : V) | VRemoveAt (slot : nat) (k : K)
| VVoid (slot : nat) | VSweep | VPin | VRelease (slot : nat) | VBegin | VPublish (slot : nat).

Inductive vreply :=
| VWrote (r : res VersionedError (option V)) | VSwept (r : res VersionedError nat) | VPinned (r : res VersionedError (nat * Z))
| VTicket (r : res EpochError (nat * Z)) | VDone | VNoTicket.

Definition with_ticket (slot : nat) (k : Z → VersionedBTreeMap → option (vreply * VersionedBTreeMap))
    (s : VersionedBTreeMap) : option (vreply * VersionedBTreeMap) :=
  match payload slot (tickets (epochs s)) with Some p => k (p - 1) s | None => Some (VNoTicket, s) end.

Definition vexec (pid : Z) (c : vcall) (s : VersionedBTreeMap) : option (vreply * VersionedBTreeMap) :=
  match c with
  | VInsert k v => '(r, s) ← vinsert k v s; Some (VWrote r, s)
  | VRemove k => '(r, s) ← vremove k s; Some (VWrote r, s)
  | VInsertAt slot k v => with_ticket slot (λ x s, '(r, s) ← insert_at k v x s; Some (VWrote r, s)) s
  | VRemoveAt slot k => with_ticket slot (λ x s, '(r, s) ← remove_at k x s; Some (VWrote r, s)) s
  | VVoid slot => with_ticket slot (λ x s, '(r, s) ← void_epoch x s; Some (VSwept r, s)) s
  | VSweep => '(r, s) ← sweep s; Some (VSwept r, s)
  | VPin => '(r, s) ← pin pid s; Some (VPinned r, s)
  | VRelease slot => Some (VDone, {| tree := tree s; epochs := release_pin slot (epochs s) |})
  | VBegin => let '(r, e) := claim_ticket pid (epochs s) in Some (VTicket r, {| tree := tree s; epochs := e |})
  | VPublish slot => Some (VDone, {| tree := tree s; epochs := publish_ticket slot (epochs s) |})
  end.

Fixpoint vrun (pid : Z) (cs : list vcall) (s : VersionedBTreeMap) : option (list vreply * VersionedBTreeMap) :=
  match cs with
  | [] => Some ([], s)
  | c :: cs => '(r, s) ← vexec pid c s; '(rs, s) ← vrun pid cs s; Some (r :: rs, s)
  end.

Definition vcreated (cap npins : nat) (fill : gmap Z (BTreeNode K (Versioned V))) : VersionedBTreeMap :=
  {| tree := created (Z.of_nat cap) 0 0 fill;
     epochs := {| counter := 0; pins := free_slots npins; tickets := free_slots npins |} |}.
End versioned.

Arguments VersionedBTreeMap : clear implicits.
Arguments vcall : clear implicits.
Arguments vreply : clear implicits.
