(* ===== verification/VersionedSnapshot.v ===== *)
(** What a pin of the versioned map sees does not change, but for the keys that
    are written over; and the calls do to the current values what they report. *)
From stdpp Require Import gmap sorting.
From S2P Require Import Prelude BTree SortedMap BTreeRep BTreeMap BTreeRead BTreeRefine HolderTable Epochs VersionedMap.

(** * Sorted lists by their lookups *)

Section lookups.
Context {K V : Type} `{KeyOrd K}.
Implicit Types (L R : list (K * V)).

Lemma look_elem L k v : sorted L → (k, v) ∈ L ↔ look k L = Some v.
Proof.
  intros Hs. induction Hs as [|[k0 v0] L Hs IH Hf]; cbn; [split; [by intros ?%elem_of_nil|done]|]. rewrite elem_of_cons, IH.
  assert (∀ v', look k L = Some v' → cmp k k0 = Gt) as Hgt.
  { intros v' Hl. assert ((k, v') ∈ L) as Hin.
    { clear IH Hf Hs. induction L as [|[k1 v1] L IH]; [done|]. cbn in Hl. destruct (cmp k k1) eqn:E; [|done|right; by apply IH].
      apply cmp_eq in E as ->. injection Hl as ->. by left. }
    rewrite Forall_forall in Hf. apply cmp_gt. by apply (Hf (k, v')). }
  destruct (cmp k k0) eqn:E.
  - apply cmp_eq in E as ->. split; [intros [ [= ->]|Hl]; [done|]|intros [= ->]; by left]. by apply Hgt in Hl.
  - split; [intros [ [= -> ->]|Hl]|done]; [by rewrite cmp_refl in E|by apply Hgt in Hl].
  - split; [intros [ [= -> ->]|Hl]; [by rewrite cmp_refl in E|done]|by right].
Qed.

Lemma sorted_nodup L : sorted L → NoDup L.
Proof.
  induction 1 as [|[k v] L Hs IH Hf]; constructor; [|done]. intros Hin. rewrite Forall_forall in Hf. specialize (Hf _ Hin).
  unfold klt in Hf. cbn in Hf. by rewrite cmp_refl in Hf.
Qed.

Lemma sorted_look L R : sorted L → sorted R → (∀ k, look k L = look k R) → L = R.
Proof.
  intros HL HR E. eapply (StronglySorted_unique_strong klt); [|done|done|].
  - intros x y _ _ Hxy Hyx. exfalso. pose proof (cmp_trans _ _ _ Hxy Hyx) as Hc. by rewrite cmp_refl in Hc.
  - apply NoDup_Permutation; [by apply sorted_nodup..|]. intros [k v]. by rewrite !look_elem, E.
Qed.

Lemma sorted_pick low high L : sorted L → sorted (pick low high L).
Proof.
  induction 1 as [|x L Hs IH Hf]; [constructor|]. unfold pick in *. rewrite filter_cons. destruct (decide _); [|done].
  constructor; [done|]. apply Forall_forall. intros y [_ Hy]%list_elem_of_filter. rewrite Forall_forall in Hf. by apply Hf.
Qed.

Lemma look_pick low high L k : sorted L → look k (pick low high L) = match look k L with Some v => if in_range low high (k, v) then Some v else None | None => None end.
Proof.
  intros Hs. apply option_eq. intros v. rewrite <- look_elem by (by apply sorted_pick). unfold pick. rewrite list_elem_of_filter, look_elem by done.
  destruct (look k L) as [v'|]; [|naive_solver]. destruct (in_range low high (k, v')) eqn:E; split.
  - by intros [_ [= ->] ].
  - intros [= ->]. by rewrite E.
  - intros [Ht [= ->] ]. by rewrite E in Ht.
  - done.
Qed.

(** The pairs above the last key of a chunk are the ones that follow it. *)
Lemma pick_after (lo : Bound K) L chunk k v rest :
  sorted L → pick lo Unbounded L = chunk ++ rest → last chunk = Some (k, v) → pick (Excluded k) Unbounded L = rest.
Proof.
  intros Hs E Hl. apply last_Some in Hl as [l' ->]. pose proof (sorted_pick lo Unbounded L Hs) as Hp. rewrite E in Hp.
  assert (sorted rest) as Hr by (by apply StronglySorted_app_1_r in Hp).
  assert (at_or_above_low k lo = true) as Hlow.
  { assert ((k, v) ∈ pick lo Unbounded L) as Hin by (rewrite E; mem). unfold pick in Hin. apply list_elem_of_filter in Hin as [Hin _].
    unfold in_range in Hin. cbn in Hin. rewrite andb_true_r in Hin. by destruct (at_or_above_low k lo). }
  apply sorted_look; [by apply sorted_pick|done|]. intros k'. apply option_eq. intros v'. rewrite look_pick by done.
  assert (look k' L = Some v' ∧ cmp k k' = Lt ↔ (k', v') ∈ rest) as Hiff.
  { split.
    - intros [Hk Hlt]. assert ((k', v') ∈ pick lo Unbounded L) as Hin.
      { unfold pick. apply list_elem_of_filter. split; [|by apply look_elem]. unfold in_range. cbn. rewrite andb_true_r.
        destruct lo as [b|b|]; cbn in *; [| |done]; unfold key_ge, key_gt in *; destruct (cmp k b) eqn:Eb; try done.
        - apply cmp_eq in Eb as ->. by rewrite (proj2 (cmp_gt k' b) Hlt).
        - apply cmp_gt in Eb. by rewrite (proj2 (cmp_gt k' b) (cmp_trans _ _ _ Eb Hlt)).
        - apply cmp_gt in Eb. by rewrite (proj2 (cmp_gt k' b) (cmp_trans _ _ _ Eb Hlt)). }
      rewrite E in Hin. apply elem_of_app in Hin as [Hin|Hin]; [|done]. exfalso.
      assert (cmp k' k = Lt ∨ k' = k) as Hc.
      { apply StronglySorted_app_1_l in Hp. apply elem_of_app in Hin as [Hin|Hin].
        - left. apply (StronglySorted_app_1_elem_of _ _ _ _ (k, v) Hp Hin). mem.
        - apply list_elem_of_singleton in Hin as [= -> ->]. by right. }
      destruct Hc as [Hc| ->]; [|by rewrite cmp_refl in Hlt]. pose proof (cmp_trans _ _ _ Hc Hlt) as Hx. by rewrite cmp_refl in Hx.
    - intros Hin. split.
      + apply look_elem; [done|]. assert ((k', v') ∈ pick lo Unbounded L) as Hp' by (rewrite E; mem).
        unfold pick in Hp'. by apply list_elem_of_filter in Hp' as [_ ?].
      + apply (StronglySorted_app_1_elem_of _ _ _ (k, v) (k', v') Hp); [mem|done]. }
  rewrite <- look_elem, <- Hiff by done. unfold in_range. cbn. rewrite andb_true_r. unfold key_gt.
  destruct (look k' L) as [v0|]; [|naive_solver]. rewrite (cmp_opp k k'). destruct (cmp k k'); cbn; naive_solver.
Qed.
End lookups.

(** * Epochs at rest *)

Section epochs.
Context (alive : Z → bool).
Implicit Types (e : SharedEpochs) (s : HolderSlot).

(** No slot is reserved, and the counter is far from wrapping. *)
Record rest e : Prop := {
  re_counter : 0 ≤ counter e < 2 ^ 63;
  re_pins : ∀ i s, pins e !! i = Some s → state s = HOLDER_FREE ∨ 1 ≤ state s ≤ counter e + 1;
  re_tickets : ∀ i s, tickets e !! i = Some s → state s = HOLDER_FREE ∨ 2 ≤ state s ≤ counter e + 1 }.

(** A pin at [x] of a live process, below the open tickets. *)
Definition pinned e (slot : nat) (x : Z) : Prop :=
  0 ≤ x ≤ counter e ∧ (∃ s, pins e !! slot = Some s ∧ state s = x + 1 ∧ alive (owner_pid s) = true) ∧
  ∀ i s, tickets e !! i = Some s → state s ≠ HOLDER_FREE → x + 2 ≤ state s.

Definition keeps_pins e e' : Prop := ∀ slot x, pinned e slot x → pinned e' slot x.

Lemma small_not_reserved x : x ≤ 2 ^ 63 → x ≠ HOLDER_RESERVED.
Proof. unfold HOLDER_RESERVED. lia. Qed.

Lemma now_rest e :
  rest e → ∃ p, now alive e = Some (p, e) ∧ 0 ≤ p ≤ counter e ∧ ∀ i s, tickets e !! i = Some s → state s ≠ HOLDER_FREE → p + 2 ≤ state s.
Proof.
  intros [H1 H2 H3]. unfold now, fold_tickets.
  destruct (fold_some (λ v, u64 (v - 2)) (tickets e) (counter e)) as (p & Hp & Hge).
  { apply Forall_lookup. intros i s Hs. destruct (H3 i s Hs) as [->|?]; [done|apply small_not_reserved; lia]. }
  rewrite Hp. exists p. split; [done|]. apply fold_min in Hp as [Hle Hmin]. split.
  - split; [|done]. apply Hge; [lia|]. intros i s Hs Hf. destruct (H3 i s Hs) as [?|?]; [done|]. rewrite (wrap_small 64) by lia. lia.
  - intros i s Hs Hf. destruct (H3 i s Hs) as [?|?]; [done|]. destruct (Hmin i s Hs Hf) as [_ Hx]. rewrite (wrap_small 64) in Hx by lia. lia.
Qed.

Lemma horizon_rest e : rest e → ∃ h, reclaim_horizon alive e = Some (h, e) ∧ ∀ slot x, pinned e slot x → h ≤ x.
Proof.
  intros Hr. destruct (now_rest e Hr) as (n & Hn & Hb & _). destruct Hr as [H1 H2 H3]. unfold reclaim_horizon. rewrite Hn. cbn. unfold fold_pins.
  destruct (fold_some (λ v, u64 (v - 1)) (pins e) n) as (h & Hh & _).
  { apply Forall_lookup. intros i s Hs. destruct (H2 i s Hs) as [->|?]; [done|apply small_not_reserved; lia]. }
  rewrite Hh. exists h. split; [done|]. intros slot x (Hx & (s & Hs & Est & _) & _). apply fold_min in Hh as [_ Hmin].
  destruct (Hmin slot s Hs) as [_ Hle]; [rewrite Est; unfold HOLDER_FREE; lia|]. rewrite Est, (wrap_small 64) in Hle by lia. lia.
Qed.

Lemma advance_rest e x e' :
  rest e → counter e + 1 < 2 ^ 63 → advance e = (x, e') → x = counter e + 1 ∧ e' = with_counter (counter e + 1) e ∧ rest e' ∧ keeps_pins e e'.
Proof.
  intros [H1 H2 H3] Hc [= <- <-]. rewrite (wrap_small 64) by lia. split; [done|]. split; [done|]. split.
  - split; cbn; [lia| |]; intros i s Hs; [apply H2 in Hs|apply H3 in Hs]; lia.
  - intros slot y (Hy & Hs & Ht). split; [cbn; lia|done].
Qed.

(** A change of the pins that keeps the slots of live processes. *)
Lemma pins_rest e t :
  rest e → (∀ i s, t !! i = Some s → state s = HOLDER_FREE ∨ 1 ≤ state s ≤ counter e + 1) →
  (∀ i s, pins e !! i = Some s → state s ≠ HOLDER_FREE → alive (owner_pid s) = true → t !! i = Some s) →
  rest (with_table Pins t e) ∧ keeps_pins e (with_table Pins t e).
Proof.
  intros [H1 H2 H3] Ht Hk. split; [by split|]. intros slot x (Hx & (s & Hs & Est & Ha) & Hti). split; [done|]. split; [|done].
  exists s. split; [|done]. apply Hk; [done| |done]. rewrite Est. unfold HOLDER_FREE. lia.
Qed.

Lemma reap_rest e : rest e → rest (reap_dead_pins alive e) ∧ keeps_pins e (reap_dead_pins alive e).
Proof.
  intros Hr. apply pins_rest; [done| |].
  - intros i s. unfold reap_dead. rewrite list_lookup_fmap. intros (s0 & Hs & ->)%fmap_Some. pose proof (re_pins _ Hr i s0 Hs).
    unfold reap_slot. destruct (_ || _); [done|]. by left.
  - intros i s Hs Hf Ha. unfold reap_dead. rewrite list_lookup_fmap, Hs. cbn. unfold reap_slot. rewrite Ha, orb_true_r. done.
Qed.

Lemma try_claim_rest pid e :
  rest e → alive pid = true →
  ∃ r e', try_claim alive pid e = Some (Ok r, e') ∧ rest e' ∧ counter e' = counter e ∧ keeps_pins e e' ∧ ∀ slot x, r = Some (slot, x) → pinned e' slot x.
Proof.
  intros Hr Ha. unfold try_claim. destruct (reserve pid (pins e)) as [ [slot t]|] eqn:E; [|exists None, e; split_and!; try done; by intros ? ?].
  destruct (reserve_spec _ _ _ _ E) as (s & Hs & Hf & ->). set (res := {| state := HOLDER_RESERVED; owner_pid := pid |}).
  set (e1 := with_table Pins (<[slot := res]> (pins e)) e). assert (∃ p, now alive e1 = Some (p, e1) ∧ 0 ≤ p ≤ counter e ∧
    ∀ i s, tickets e !! i = Some s → state s ≠ HOLDER_FREE → p + 2 ≤ state s) as (p & Hn & Hb & Hp).
  { destruct (now_rest e Hr) as (p & Hn & Hp). exists p. split; [|done]. unfold now in *.
    change (fold_tickets (counter e1) (tickets e1)) with (fold_tickets (counter e) (tickets e)). destruct (fold_tickets (counter e) (tickets e)) as [q|] eqn:Eq.
    - by injection Hn as [= ->].
    - exfalso. destruct (fold_some (λ v, u64 (v - 2)) (tickets e) (counter e)) as (q & Hq & _); [|unfold fold_tickets in Eq; congruence].
      apply Forall_lookup. intros i s0 Hs0. destruct (re_tickets _ Hr i s0 Hs0) as [->|?]; [done|apply small_not_reserved]. destruct (re_counter _ Hr). lia. }
  rewrite Hn. cbn. pose proof (re_counter _ Hr). rewrite (wrap_small 64) by lia.
  rewrite publish_ok; [|unfold decided, HOLDER_FREE, HOLDER_RESERVED; rewrite !(proj2 (Z.eqb_neq _ _)) by lia; done|rewrite length_insert; by eapply lookup_lt_Some].
  assert (alter (set_state (p + 1)) slot (<[slot := res]> (pins e)) = <[slot := {| state := p + 1; owner_pid := pid |}]> (pins e)) as ->.
  { apply list_eq. intros i. destruct (decide (i = slot)) as [->|Hne].
    - rewrite list_lookup_alter_eq, !list_lookup_insert_eq by (by eapply lookup_lt_Some). done.
    - by rewrite list_lookup_alter_ne, !list_lookup_insert_ne by done. }
  set (t := <[slot := {| state := p + 1; owner_pid := pid |}]> (pins e)). exists (Some (slot, p)), (with_table Pins t e).
  destruct (pins_rest e t Hr) as [Hr' Hk].
  { intros i s0 Hs0. unfold t in Hs0. destruct (decide (i = slot)) as [->|Hne].
    - rewrite list_lookup_insert_eq in Hs0 by (by eapply lookup_lt_Some). injection Hs0 as <-. right. cbn. lia.
    - rewrite list_lookup_insert_ne in Hs0 by done. by apply (re_pins _ Hr i). }
  { intros i s0 Hs0 Hf0 _. unfold t. rewrite list_lookup_insert_ne; [done|]. intros ->. congruence. }
  split_and!; try done. intros slot' x [= <- <-]. split; [done|]. split; [|done]. exists {| state := p + 1; owner_pid := pid |}.
  split; [|done]. cbn. apply list_lookup_insert_eq. by eapply lookup_lt_Some.
Qed.

Lemma claim_pin_rest pid e :
  rest e → alive pid = true →
  ∃ r e', claim_pin alive pid e = Some (r, e') ∧ rest e' ∧ counter e' = counter e ∧ keeps_pins e e' ∧ ∀ slot x, r = Ok (slot, x) → pinned e' slot x.
Proof.
  intros Hr Ha. unfold claim_pin. destruct (try_claim_rest pid e Hr Ha) as (r & e1 & -> & Hr1 & Hc1 & Hk1 & Hp1). cbn [mbind option_bind]. destruct r as [ [slot x]|].
  { exists (Ok (slot, x)), e1. split_and!; try done. intros ? ? [= <- <-]. by apply Hp1. }
  destruct (reap_rest e1 Hr1) as [Hr2 Hk2]. destruct (try_claim_rest pid _ Hr2 Ha) as (r & e3 & -> & Hr3 & Hc3 & Hk3 & Hp3). cbn.
  eexists _, e3. split; [done|]. split; [done|]. split; [by rewrite Hc3|]. split; [intros s x Hs; by apply Hk3, Hk2, Hk1|].
  intros slot x E. destruct r as [ [slot' x']|]; [|done]. injection E as -> ->. by apply Hp3.
Qed.

Lemma claim_ticket_rest pid e :
  rest e → counter e + 1 < 2 ^ 63 →
  ∃ r e', claim_ticket pid e = (r, e') ∧ rest e' ∧ counter e ≤ counter e' ≤ counter e + 1 ∧ keeps_pins e e'.
Proof.
  intros Hr Hc. unfold claim_ticket. destruct (reserve pid (tickets e)) as [ [slot t]|] eqn:E; [|exists (Err TicketsExhausted), e; split; [done|]; split; [done|]; split; [lia|by intros ? ?] ].
  destruct (reserve_spec _ _ _ _ E) as (s & Hs & Hf & ->). pose proof Hr as [H1 H2 H3]. cbn. rewrite (wrap_small 64 (counter e + 1)) by lia. rewrite (wrap_small 64) by lia.
  rewrite publish_ok; [|unfold decided, HOLDER_FREE, HOLDER_RESERVED; rewrite !(proj2 (Z.eqb_neq _ _)) by lia; done|rewrite length_insert; by eapply lookup_lt_Some].
  eexists _, _. split; [done|]. unfold with_table, with_counter. cbn.
  assert (∀ i s0, alter (set_state (counter e + 1 + 1)) slot (<[slot := {| state := HOLDER_RESERVED; owner_pid := pid |}]> (tickets e)) !! i = Some s0 →
    state s0 = counter e + 2 ∨ tickets e !! i = Some s0) as Hti.
  { intros i s0. destruct (decide (i = slot)) as [->|Hne].
    - rewrite list_lookup_alter_eq, list_lookup_insert_eq by (by eapply lookup_lt_Some). intros [= <-]. left. cbn. lia.
    - rewrite list_lookup_alter_ne, list_lookup_insert_ne by done. by right. }
  split; [|split; [cbn; lia|] ].
  - split; cbn; [lia| |].
    + intros i s0 Hs0. apply H2 in Hs0. lia.
    + intros i s0 Hs0. destruct (Hti i s0 Hs0) as [->|Ho]; [right; lia|]. apply H3 in Ho. lia.
  - intros slot' x (Hx & Hp & Ht). split; [cbn; lia|]. split; [done|]. cbn. intros i s0 Hs0 Hf0. destruct (Hti i s0 Hs0) as [->|Ho]; [lia|by eapply Ht].
Qed.

Lemma publish_ticket_rest slot e : rest e → rest (publish_ticket slot e) ∧ keeps_pins e (publish_ticket slot e).
Proof.
  intros [H1 H2 H3]. assert (∀ i s, release slot (tickets e) !! i = Some s → state s = HOLDER_FREE ∨ tickets e !! i = Some s) as Hti.
  { intros i s Hs. unfold release in Hs. apply list_lookup_insert_Some in Hs as [(_ & <- & _)|[_ ?] ]; [by left|by right]. }
  split.
  - split; cbn; [done|done|]. intros i s Hs. destruct (Hti i s Hs) as [?|?]; [by left|by eapply H3].
  - intros slot' x (Hx & Hp & Ht). split; [done|]. split; [done|]. cbn. intros i s Hs Hf. destruct (Hti i s Hs) as [?|?]; [done|by eapply Ht].
Qed.

Lemma release_pin_rest slot e :
  rest e → rest (release_pin slot e) ∧ ∀ slot' x, slot' ≠ slot → pinned e slot' x → pinned (release_pin slot e) slot' x.
Proof.
  intros [H1 H2 H3]. split.
  - split; cbn; [done| |done]. intros i s Hs. unfold release in Hs. apply list_lookup_insert_Some in Hs as [(_ & <- & _)|[_ ?] ]; [by left|by eapply H2].
  - intros slot' x Hne (Hx & (s & Hs & Hst) & Ht). split; [done|]. split; [|done]. exists s. split; [|done]. cbn. unfold release.
    by rewrite list_lookup_insert_ne.
Qed.
End epochs.

(** * The map *)

Section versioned.
Context {K V : Type} `{KeyOrd K} (alive : Z → bool).
Implicit Types (s : VersionedBTreeMap K V) (L : list (K * Versioned V)) (x : Versioned V) (k : K) (p : Z).

(** What a pin sees of a key, and its current value. *)
Definition view p L k : option V :=
  match look k L with Some x => if visible_at x p then Some (value x) else None | None => None end.
Definition cur L k : option V :=
  match look k L with Some x => if is_live x then Some (value x) else None | None => None end.

Definition keq k k' : bool := match cmp k k' with Eq => true | _ => false end.
Definition nowhere (k : K) : bool := false.

Definition vok s L : Prop := rest (epochs s) ∧ ∃ lost, map_ok (tree s) L lost.

(** From [s] with the entries [L] to [s'] with [L']: pins stay, and see what
    they saw but for the keys [ow]. *)
Record moves s L (ow : K → bool) s' L' : Prop := {
  mv_ok : vok s' L'; mv_counter : counter (epochs s) ≤ counter (epochs s');
  mv_pins : keeps_pins alive (epochs s) (epochs s');
  mv_view : ∀ slot p, pinned alive (epochs s) slot p → ∀ k, view p L' k = if ow k then None else view p L k }.

Lemma moves_refl s L : vok s L → moves s L nowhere s L.
Proof. intros Hv. split; [done|lia|by intros ? ?|done]. Qed.

Lemma moves_trans s L f s1 L1 g s2 L2 :
  moves s L f s1 L1 → moves s1 L1 g s2 L2 → moves s L (λ k, f k || g k) s2 L2.
Proof.
  intros [A1 A2 A3 A4] [B1 B2 B3 B4]. split; [done|lia|intros ? ? ?; by apply B3, A3|].
  intros slot p Hp k. rewrite (B4 slot p) by (by apply A3). rewrite (A4 slot p Hp). by destruct (f k), (g k).
Qed.

Lemma moves_quiet s L s1 L1 g s2 L2 : moves s L nowhere s1 L1 → moves s1 L1 g s2 L2 → moves s L g s2 L2.
Proof. apply moves_trans. Qed.

Lemma moves_then s L f s1 L1 s2 L2 : moves s L f s1 L1 → moves s1 L1 nowhere s2 L2 → moves s L f s2 L2.
Proof.
  intros A B. destruct (moves_trans _ _ _ _ _ _ _ _ A B) as [C1 C2 C3 C4]. split; try done. intros slot p Hp k. rewrite (C4 slot p Hp).
  unfold nowhere. by rewrite orb_false_r.
Qed.

Lemma vok_sorted s L : vok s L → sorted L.
Proof. intros [_ [lost Hm] ]. by apply map_tree in Hm as (_ & ? & _). Qed.

Lemma keq_look k x k' L : sorted L → look k' (ins k x L) = if keq k' k then Some x else look k' L.
Proof. intros Hs. rewrite look_ins by done. unfold keq. by destruct (cmp k' k). Qed.
Lemma keq_del k k' L : sorted L → look k' (del k L) = if keq k' k then None else look k' L.
Proof. intros Hs. rewrite look_del by done. unfold keq. by destruct (cmp k' k). Qed.
Lemma keq_true k k' : keq k' k = true → k' = k.
Proof. unfold keq. destruct (cmp k' k) eqn:E; [|done..]. by apply cmp_eq in E. Qed.
Lemma keq_refl k : keq k k = true.
Proof. unfold keq. by rewrite cmp_refl. Qed.

(** ** The parts *)

Lemma tget_run s L k : vok s L → tget k s = Some (Ok (look k L), s).
Proof. intros [_ [lost Hm] ]. unfold tget. by rewrite (reader_get _ _ _ _ Hm). Qed.

Lemma trange_run s L low high limit : vok s L → trange low high limit s = Some (Ok (take limit (pick low high L)), s).
Proof. intros [_ [lost Hm] ]. unfold trange. by rewrite (reader_range _ _ _ _ _ _ Hm). Qed.

Lemma tinsert_run s L k x :
  vok s L → ∃ r s' L', tinsert k x s = Some (Ok r, s') ∧ epochs s' = epochs s ∧ vok s' L' ∧
    (r = Ok (look k L) ∧ L' = ins k x L ∨ r = Err Full ∧ L' = L).
Proof.
  intros [Hr [lost Hm] ]. destruct (map_insert (tree s) L lost k x Hm) as (r & m' & L' & lost' & Hrun & Hm' & _ & Hcase).
  unfold tinsert. rewrite Hrun. eexists r, _, L'. split; [done|]. split; [done|]. split; [split; [done|by exists lost']|].
  destruct Hcase as [(-> & -> & _)|(-> & -> & _)]; [by left|by right].
Qed.

Lemma tremove_run s L k :
  vok s L → ∃ s', tremove k s = Some (Ok (Ok (look k L)), s') ∧ epochs s' = epochs s ∧ vok s' (del k L).
Proof.
  intros [Hr [lost Hm] ]. destruct (map_remove (tree s) L lost k Hm) as (m' & Hrun & Hm' & _).
  unfold tremove. rewrite Hrun. eexists. split; [done|]. split; [done|]. split; [done|by exists lost].
Qed.

Lemma vhorizon_run s L :
  vok s L → ∃ h, vhorizon alive s = Some (Ok h, s) ∧ ∀ slot p, pinned alive (epochs s) slot p → h ≤ p.
Proof.
  intros [Hr _]. destruct (horizon_rest alive _ Hr) as (h & Hh & Hp). exists h. split; [|done]. unfold vhorizon. rewrite Hh. by destruct s.
Qed.

Lemma vadvance_run s L :
  vok s L → counter (epochs s) + 1 < 2 ^ 63 →
  ∃ s', vadvance s = Some (Ok (counter (epochs s) + 1), s') ∧ moves s L nowhere s' L ∧ counter (epochs s') = counter (epochs s) + 1 ∧
    (∀ slot p, pinned alive (epochs s') slot p → p < counter (epochs s) + 1) ∧ tree s' = tree s.
Proof.
  intros [Hr Hm] Hc. destruct (advance (epochs s)) as [y e'] eqn:E. destruct (advance_rest alive _ _ _ Hr Hc E) as (-> & -> & Hr' & Hk).
  unfold vadvance. rewrite E. eexists. split; [done|]. split; [split; cbn; [by split|lia|done|done]|]. split; [done|]. split; [|done].
  intros slot p (_ & (h & Hh & Est & _) & _). cbn in Hh. pose proof (re_counter _ Hr). destruct (re_pins _ Hr slot h Hh) as [Ef|?]; [rewrite Ef in Est; unfold HOLDER_FREE in Est|]; lia.
Qed.

(** A change of one entry that every pin sees alike. *)
Lemma moves_entry s L s' L' k nw :
  vok s' L' → epochs s' = epochs s → (∀ k', look k' L' = if keq k' k then nw else look k' L) →
  (∀ slot p, pinned alive (epochs s) slot p → match nw with Some x => if visible_at x p then Some (value x) else None | None => None end = view p L k) →
  moves s L nowhere s' L'.
Proof.
  intros Hv He Hl Hp. split; [done|by rewrite He|by intros ? ?; rewrite He|]. intros slot p Hpin k'. unfold nowhere, view. rewrite Hl.
  destruct (keq k' k) eqn:E; [|done]. apply keq_true in E as ->. rewrite (Hp slot p Hpin). done.
Qed.

(** A change that hides the key. *)
Lemma moves_over s L s' L' k nw :
  vok s' L' → epochs s' = epochs s → (∀ k', look k' L' = if keq k' k then nw else look k' L) →
  (∀ slot p, pinned alive (epochs s) slot p → match nw with Some x => visible_at x p = false | None => True end) →
  moves s L (λ k', keq k' k) s' L'.
Proof.
  intros Hv He Hl Hp. split; [done|by rewrite He|by intros ? ?; rewrite He|]. intros slot p Hpin k'. unfold view. rewrite Hl.
  destruct (keq k' k) eqn:E; [|done]. specialize (Hp slot p Hpin). destruct nw as [x|]; [by rewrite Hp|done].
Qed.

Lemma cur_entry L L' k nw :
  (∀ k', look k' L' = if keq k' k then nw else look k' L) →
  ∀ k', cur L' k' = if keq k' k then match nw with Some x => if is_live x then Some (value x) else None | None => None end else cur L k'.
Proof. intros Hl k'. unfold cur. rewrite Hl. by destruct (keq k' k). Qed.

(** ** Loops over the entries *)

Lemma vbind_run {A A'} (c : VM A) (f : A → VM A') s a s' : c s = Some (Ok a, s') → (c ≫= f) s = f a s'.
Proof. intros E. unfold mbind, VM_bind. by rewrite E. Qed.
Lemma vbind_err {A A'} (c : VM A) (f : A → VM A') s er s' : c s = Some (Err er, s') → (c ≫= f) s = Some (Err er, s').
Proof. intros E. unfold mbind, VM_bind. by rewrite E. Qed.

Section loop.
(** [f] handles an entry of a map whose epochs are [e]: it makes [g x] of an
    entry [x] and leaves the others, or fails and leaves them all, and [E] holds
    of the error, the entry and the state. *)
Context (e : SharedEpochs) (f : K → Versioned V → nat → VM (K := K) (V := V) nat).
Context (g : Versioned V → option (Versioned V)) (E : VersionedError → K → Versioned V → VersionedBTreeMap K V → Prop).
Hypothesis Hf : ∀ k x n s L, vok s L → epochs s = e → look k L = Some x →
  ∃ r s' L', f k x n s = Some (r, s') ∧ epochs s' = e ∧ moves s L nowhere s' L' ∧
    (∀ k', keq k' k = false → look k' L' = look k' L) ∧
    match r with Ok _ => look k L' = g x | Err er => E er k x s' ∧ look k L' = Some x | Panic => False end.

(** What became of the entries [R], and of the others. *)
Definition handled (R L : list (K * Versioned V)) (r : res VersionedError nat)
    (s' : VersionedBTreeMap K V) (L' : list (K * Versioned V)) : Prop :=
  (∀ k', (∀ x, (k', x) ∉ R) → look k' L' = look k' L) ∧
  match r with
  | Ok _ => ∀ k x, (k, x) ∈ R → look k L' = g x
  | Err er => (∃ k x, (k, x) ∈ R ∧ E er k x s' ∧ look k L' = Some x) ∧ ∀ k x, (k, x) ∈ R → look k L' = g x ∨ look k L' = Some x
  | Panic => False
  end.

(** The entries of [R2] come after those of [R1] and are handled after them. *)
Lemma handled_app R1 R2 L n s1 L1 r s2 L2 :
  (∀ k x y, (k, x) ∈ R1 → (k, y) ∉ R2) →
  handled R1 L (Ok n) s1 L1 → handled R2 L1 r s2 L2 → handled (R1 ++ R2) L r s2 L2.
Proof.
  intros Hd [Ho1 H1] [Ho2 H2]. split.
  - intros k' Hk'. rewrite Ho2, Ho1; [done|intros x Hx..]; apply (Hk' x); mem.
  - destruct r as [n'|er|]; [|destruct H2 as [(k & x & Hk & He) H2]; split; [exists k, x; split; [mem|done]|]; clear k x Hk He|done];
      intros k x [Hx|Hx]%elem_of_app; try (by apply H2); rewrite Ho2 by (intros y; by eapply Hd);
      try left; by apply H1.
Qed.

Lemma each_entry_run chunk n s L :
  vok s L → epochs s = e → sorted chunk → (∀ k x, (k, x) ∈ chunk → look k L = Some x) →
  ∃ r s' L', each_entry f chunk n s = Some (r, s') ∧ epochs s' = e ∧ moves s L nowhere s' L' ∧ handled chunk L r s' L'.
Proof using Hf.
  revert n s L. induction chunk as [|[k x] chunk IH]; intros n s L Hv He Hs Hl; cbn [each_entry].
  { exists (Ok n), s, L. split; [done|]. split; [done|]. split; [by apply moves_refl|]. split; [done|]. by intros ?? ?%not_elem_of_nil. }
  apply StronglySorted_inv in Hs as [Hs Hgt]. rewrite Forall_forall in Hgt.
  assert (∀ k' y, (k', y) ∈ chunk → keq k' k = false) as Hne.
  { intros k' y Hy. specialize (Hgt _ Hy). unfold klt in Hgt. cbn in Hgt. unfold keq. by rewrite (proj2 (cmp_gt k' k) Hgt). }
  destruct (Hf k x n s L Hv He (Hl k x ltac:(mem))) as (r & s1 & L1 & Hrun & He1 & Hmv & Ho & Hr).
  assert (∀ k', (∀ y, (k', y) ∉ [(k, x)]) → look k' L1 = look k' L) as Ho'.
  { intros k' Hk'. apply Ho. destruct (keq k' k) eqn:Ek; [|done]. apply keq_true in Ek as ->. exfalso. apply (Hk' x). mem. }
  destruct r as [n'|er|]; [| |done].
  - rewrite (vbind_run _ _ _ _ _ Hrun).
    destruct (IH n' s1 L1 (mv_ok _ _ _ _ _ Hmv) He1 Hs) as (r & s2 & L2 & Hrun2 & He2 & Hmv2 & Hh).
    { intros k' y Hy. rewrite Ho by by eapply Hne. apply Hl. mem. }
    exists r, s2, L2. split; [done|]. split; [done|]. split; [by eapply moves_quiet|].
    apply (handled_app [(k, x)] chunk L n' s1 L1); [|split; [done|]|done].
    + intros k' y z [= -> ->]%list_elem_of_singleton Hz. specialize (Hne _ _ Hz). by rewrite keq_refl in Hne.
    + by intros k' y [= -> ->]%list_elem_of_singleton.
  - exists (Err er), s1, L1. rewrite (vbind_err _ _ _ _ _ Hrun). split; [done|]. split; [done|]. split; [done|].
    destruct Hr as [Her Hk]. split.
    + intros k' Hk'. apply Ho'. intros y Hy. apply (Hk' y). apply list_elem_of_singleton in Hy as [= -> ->]. mem.
    + split; [exists k, x; split; [mem|done]|]. intros k' y [ [= -> ->]|Hy]%elem_of_cons; [by right|]. right. rewrite Ho by by eapply Hne. apply Hl. mem.
Qed.

Lemma by_chunks_run fuel cursor n s L :
  vok s L → epochs s = e → (length (pick (above cursor) Unbounded L) < fuel)%nat →
  ∃ r s' L', by_chunks fuel f cursor n s = Some (r, s') ∧ epochs s' = e ∧ moves s L nowhere s' L' ∧
    handled (pick (above cursor) Unbounded L) L r s' L'.
Proof using Hf.
  revert cursor n s L. induction fuel as [|fuel IH]; intros cursor n s L Hv He Hlen; [lia|]. cbn [by_chunks].
  rewrite (vbind_run _ _ _ _ _ (trange_run s L _ _ _ Hv)). set (R := pick (above cursor) Unbounded L) in *.
  pose proof (vok_sorted _ _ Hv) as HsL. pose proof (sorted_pick (above cursor) Unbounded L HsL : sorted R) as HsR.
  pose proof (take_drop SWEEP_CHUNK R) as Etd. destruct (last (take SWEEP_CHUNK R)) as [ [k x]|] eqn:El.
  2:{ exists (Ok n), s, L. split; [done|]. split; [done|]. split; [by apply moves_refl|].
      apply last_None in El. assert (R = []) as -> by (destruct R; [done|]; unfold SWEEP_CHUNK in El; by destruct (Z.to_nat 4096) eqn:E4).
      split; [done|]. by intros ?? ?%not_elem_of_nil. }
  assert (∀ k' y z, (k', y) ∈ take SWEEP_CHUNK R → (k', z) ∉ drop SWEEP_CHUNK R) as Hdis.
  { intros k' y z Hy Hz. rewrite <- Etd in HsR. pose proof (StronglySorted_app_1_elem_of _ _ _ _ _ HsR Hy Hz) as Hlt.
    unfold klt in Hlt. cbn in Hlt. by rewrite cmp_refl in Hlt. }
  destruct (each_entry_run (take SWEEP_CHUNK R) n s L Hv He) as (r & s1 & L1 & Hrun & He1 & Hmv & Hh).
  { rewrite <- Etd in HsR. by apply StronglySorted_app_1_l in HsR. }
  { intros k' y Hy. apply look_elem; [done|]. assert ((k', y) ∈ R) as Hin by (rewrite <- Etd; mem). unfold R, pick in Hin.
    by apply list_elem_of_filter in Hin as [_ ?]. }
  pose proof Hh as [Ho Hr]. destruct r as [n'|er|]; [| |done].
  2:{ exists (Err er), s1, L1. rewrite (vbind_err _ _ _ _ _ Hrun). split; [done|]. split; [done|]. split; [done|]. destruct Hr as [Her Hr]. split.
      - intros k' Hk'. apply Ho. intros y Hy. apply (Hk' y). rewrite <- Etd. mem.
      - split; [destruct Her as (k' & y & Hy & Her); exists k', y; split; [rewrite <- Etd; mem|done]|].
        intros k' y Hy. rewrite <- Etd in Hy. apply elem_of_app in Hy as [Hy|Hy]; [by apply Hr|]. right.
        rewrite Ho by (intros z Hz; by eapply Hdis). apply look_elem; [done|]. assert ((k', y) ∈ R) as Hin by (rewrite <- Etd; mem).
        unfold R, pick in Hin. by apply list_elem_of_filter in Hin as [_ ?]. }
  rewrite (vbind_run _ _ _ _ _ Hrun). pose proof (mv_ok _ _ _ _ _ Hmv) as Hv1.
  assert (pick (Excluded k) Unbounded L = drop SWEEP_CHUNK R) as Ek by (eapply pick_after; [done|symmetry; exact Etd|exact El]).
  assert (pick (Excluded k) Unbounded L1 = drop SWEEP_CHUNK R) as Ek1.
  { rewrite <- Ek. apply sorted_look; [apply sorted_pick; by eapply vok_sorted|by apply sorted_pick|]. intros k'.
    rewrite !look_pick by (done || by eapply vok_sorted).
    destruct (cmp k' k) eqn:E'; [| |rewrite Ho; [done|] ].
    1,2: by destruct (look k' L1), (look k' L); unfold in_range; cbn; unfold key_gt; rewrite ?E'.
    intros y Hy. assert (sorted (take SWEEP_CHUNK R)) as Hst by (rewrite <- Etd in HsR; by apply StronglySorted_app_1_l in HsR).
    apply last_Some in El as [l' El]. rewrite El in Hst, Hy. apply elem_of_app in Hy as [Hy|Hy].
    - pose proof (StronglySorted_app_1_elem_of _ _ _ _ (k, x) Hst Hy ltac:(mem)) as Hlt. unfold klt in Hlt. cbn in Hlt. congruence.
    - apply list_elem_of_singleton in Hy as [= -> ->]. by rewrite cmp_refl in E'. }
  destruct (IH (Some k) n' s1 L1 Hv1 He1) as (r & s2 & L2 & Hrun2 & He2 & Hmv2 & Hh2).
  { cbn [above]. rewrite Ek1. assert (0 < length (take SWEEP_CHUNK R))%nat as Hpos by (destruct (take SWEEP_CHUNK R); [done|cbn; lia]).
    rewrite <- Etd, length_app in Hlen. lia. }
  exists r, s2, L2. split; [done|]. split; [done|]. split; [by eapply moves_quiet|]. rewrite <- Etd.
  cbn [above] in Hh2. rewrite Ek1 in Hh2. by eapply handled_app.
Qed.

(** Over all the entries. *)
Lemma over_entries_run s L :
  vok s L → epochs s = e → ∃ r s' L', over_entries f s = Some (r, s') ∧ epochs s' = e ∧ moves s L nowhere s' L' ∧
    match r with
    | Ok _ => ∀ k, look k L' = (look k L ≫= g)
    | Err er => (∃ k x, look k L = Some x ∧ E er k x s' ∧ look k L' = Some x) ∧
        ∀ k, look k L' = look k L ∨ look k L' = (look k L ≫= g)
    | Panic => False
    end.
Proof using Hf.
  intros Hv He. pose proof (vok_sorted _ _ Hv) as HsL. unfold over_entries.
  destruct (by_chunks_run (S (Z.to_nat (blen (tree s)))) None 0 s L Hv He) as (r & s' & L' & Hrun & He' & Hmv & Ho & Hr).
  { destruct Hv as [_ [lost Hm] ]. pose proof (map_bounds _ _ _ Hm) as (_ & _ & Hlen). rewrite Hlen, Nat2Z.id.
    cbn [above]. apply Nat.lt_succ_r, length_filter. }
  assert (∀ k x, (k, x) ∈ pick Unbounded Unbounded L ↔ look k L = Some x) as Hin.
  { intros k x. unfold pick. rewrite list_elem_of_filter, look_elem by done. unfold in_range. cbn. tauto. }
  assert (∀ k, look k L = None → look k L' = None) as Hno.
  { intros k Hk. rewrite <- Hk. apply Ho. intros x Hx%Hin. congruence. }
  exists r, s', L'. split; [done|]. split; [done|]. split; [done|]. destruct r as [n|er|]; [| |done].
  - intros k. destruct (look k L) as [x|] eqn:Ek; [cbn; by apply Hr, Hin|by apply Hno].
  - destruct Hr as [(k & x & Hk%Hin & Her) Hr]. split; [by exists k, x|]. clear k x Hk Her.
    intros k. destruct (look k L) as [x|] eqn:Ek; [|left; by apply Hno].
    cbn. destruct (Hr k x); [by apply Hin|by right|by left].
Qed.
End loop.

Lemma moves_same s L s' : vok s' L → epochs s' = epochs s → moves s L nowhere s' L.
Proof. intros Hv He. split; [done|by rewrite He|by intros ? ?; rewrite He|done]. Qed.

Definition same_cur L L' : Prop := ∀ k, cur L' k = cur L k.
#[local] Instance same_cur_preorder : PreOrder same_cur.
Proof. split; [done|]. intros L1 L2 L3 E1 E2 k. by rewrite E2, E1. Qed.

Lemma pinned_small e slot p : rest e → pinned alive e slot p → 0 ≤ p < DIED_LIVE.
Proof. intros [Hc _ _] [Hp _]. unfold DIED_LIVE. lia. Qed.

(** ** Sweeping and voiding *)

(** What a sweep leaves of an entry, and what a voided epoch does. *)
Definition swept (h : Z) (x : Versioned V) : option (Versioned V) :=
  if negb (is_live x) && (died x <=? h) then None else Some x.
Definition voided (ep : Z) (x : Versioned V) : option (Versioned V) :=
  if born x =? ep then None
  else if died x =? ep then Some {| born := born x; died := DIED_LIVE; value := value x |} else Some x.

Lemma sweep_entry_run e h :
  (∀ slot p, pinned alive e slot p → h ≤ p) → ∀ k x n s L, vok s L → epochs s = e → look k L = Some x →
  ∃ r s' L', sweep_entry h k x n s = Some (r, s') ∧ epochs s' = e ∧ moves s L nowhere s' L' ∧
    (∀ k', keq k' k = false → look k' L' = look k' L) ∧
    match r with Ok _ => look k L' = swept h x | Err _ => False ∧ look k L' = Some x | Panic => False end.
Proof.
  intros Hh k x n s L Hv He Hl. unfold sweep_entry, swept. destruct (negb (is_live x) && (died x <=? h)) eqn:Ed.
  2:{ exists (Ok n), s, L. split_and!; try done. by apply moves_refl. }
  apply andb_true_iff in Ed as [Hd Hle]. apply negb_true_iff in Hd. apply Z.leb_le in Hle.
  destruct (tremove_run s L k Hv) as (s' & Hrun & He' & Hv'). rewrite (vbind_run _ _ _ _ _ Hrun). pose proof (vok_sorted _ _ Hv) as Hs.
  pose proof (λ k', keq_del k k' L Hs) as Hk. exists (Ok (S n)), s', (del k L). split; [done|]. split; [congruence|]. split; [|split].
  - eapply moves_entry; [done|done|exact Hk|]. intros slot p Hp. rewrite He in Hp. specialize (Hh slot p Hp). unfold view, visible_at. rewrite Hl.
    rewrite (proj2 (Z.ltb_ge _ _)) by lia. by rewrite andb_false_r.
  - intros k' E. by rewrite Hk, E.
  - by rewrite Hk, keq_refl.
Qed.

Lemma sweep_run s L :
  vok s L → ∃ r s' L', sweep alive s = Some (r, s') ∧ (r = Err VFull ∨ ∃ n, r = Ok n) ∧ epochs s' = epochs s ∧ moves s L nowhere s' L' ∧ same_cur L L'.
Proof.
  intros Hv. unfold sweep. destruct (vhorizon_run s L Hv) as (h & Hh & Hp). rewrite (vbind_run _ _ _ _ _ Hh).
  destruct (over_entries_run (epochs s) (sweep_entry h) (swept h) (λ _ _ _ _, False) (sweep_entry_run _ h Hp) s L Hv eq_refl)
    as (r & s' & L' & Hrun & He & Hmv & Hr).
  destruct r as [n|er|]; [|by destruct Hr as [(? & ? & _ & [] & _) _]|done]. assert (same_cur L L') as HC.
  { intros k. unfold cur. rewrite Hr. destruct (look k L) as [x|]; [cbn|done]. unfold swept.
    destruct (negb (is_live x)) eqn:El; [|done]. apply negb_true_iff in El. cbn. rewrite El. by destruct (_ <=? _); rewrite ?El. }
  rewrite (vbind_run _ _ _ _ _ Hrun). destruct (_ =? _)%nat; [exists (Err VFull), s', L'|exists (Ok n), s', L']; split_and!; eauto.
Qed.

(** The tree has no room for an entry of the key. *)
Definition refuses (s : VersionedBTreeMap K V) (k : K) : Prop := ∃ x, (BTree.insert k x (tree s)).1 = Err Full.

Lemma tinsert_refuses s k x s' : tinsert k x s = Some (Ok (Err Full), s') → refuses s k.
Proof. unfold tinsert. destruct (BTree.insert k x (tree s)) as [r m] eqn:E. intros [= -> _]. exists x. by rewrite E. Qed.

(** A voided epoch fails: the tree refuses an entry whose removal it undoes. *)
Definition void_fails (ep : Z) (er : VersionedError) (k : K) (x : Versioned V) (s' : VersionedBTreeMap K V) : Prop :=
  er = VFull ∧ born x ≠ ep ∧ died x = ep ∧
  ∃ s1, tinsert k {| born := born x; died := DIED_LIVE; value := value x |} s1 = Some (Ok (Err Full), s').

Lemma void_entry_run e ep :
  rest e → (∀ slot p, pinned alive e slot p → p < ep) → ∀ k x n s L, vok s L → epochs s = e → look k L = Some x →
  ∃ r s' L', void_entry ep k x n s = Some (r, s') ∧ epochs s' = e ∧ moves s L nowhere s' L' ∧
    (∀ k', keq k' k = false → look k' L' = look k' L) ∧
    match r with Ok _ => look k L' = voided ep x | Err er => void_fails ep er k x s' ∧ look k L' = Some x | Panic => False end.
Proof.
  intros Hre Hep k x n s L Hv He Hl. unfold void_entry, voided. pose proof (vok_sorted _ _ Hv) as Hs. destruct (Z.eqb_spec (born x) ep) as [Eb|Eb].
  - destruct (tremove_run s L k Hv) as (s' & Hrun & He' & Hv'). rewrite (vbind_run _ _ _ _ _ Hrun). pose proof (λ k', keq_del k k' L Hs) as Hk.
    exists (Ok (S n)), s', (del k L). split; [done|]. split; [congruence|].
    split; [|split; [intros k' E; by rewrite Hk, E|by rewrite Hk, keq_refl] ].
    eapply moves_entry; [done|done|exact Hk|]. intros slot p Hp. rewrite He in Hp. specialize (Hep slot p Hp). unfold view, visible_at. rewrite Hl.
    by rewrite (proj2 (Z.leb_gt _ _)) by lia.
  - destruct (Z.eqb_spec (died x) ep) as [Ed|Ed].
    2:{ exists (Ok n), s, L. split_and!; try done. by apply moves_refl. }
    set (x' := {| born := born x; died := DIED_LIVE; value := value x |}).
    destruct (tinsert_run s L k x' Hv) as (r & s' & L' & Hrun & He' & Hv' & [ [-> ->]|[-> ->] ]); rewrite (vbind_run _ _ _ _ _ Hrun).
    + pose proof (λ k', keq_look k x' k' L Hs) as Hk. exists (Ok (S n)), s', (ins k x' L). split; [done|]. split; [congruence|].
      split; [|split; [intros k' E; by rewrite Hk, E|by rewrite Hk, keq_refl] ]. eapply moves_entry; [done|done|exact Hk|]. intros slot p Hp.
      rewrite He in Hp. pose proof (pinned_small _ _ _ Hre Hp). specialize (Hep slot p Hp). unfold view, visible_at. rewrite Hl. cbn.
      by rewrite !(proj2 (Z.ltb_lt _ _)) by lia.
    + exists (Err VFull), s', L. split; [done|]. split; [congruence|]. split; [by apply moves_same|]. split; [done|]. split; [|done].
      split; [done|]. split; [done|]. split; [done|by exists s].
Qed.

(** The current value a voided epoch leaves of an entry. *)
Definition void_value (ep : Z) (x : option (Versioned V)) : option V :=
  match x with
  | Some x => if born x =? ep then None else if is_live x || (died x =? ep) then Some (value x) else None
  | None => None
  end.

Lemma cur_voided ep L L' k : look k L' = (look k L ≫= voided ep) → cur L' k = void_value ep (look k L).
Proof.
  intros E. unfold cur, void_value. rewrite E. destruct (look k L) as [x|]; [cbn|done]. unfold voided.
  destruct (born x =? ep); [done|]. destruct (died x =? ep); [|by rewrite orb_false_r]. by rewrite orb_true_r.
Qed.

Lemma void_run s L ep :
  vok s L → (∀ slot p, pinned alive (epochs s) slot p → p < ep) →
  ∃ r s' L', void_epoch ep s = Some (r, s') ∧ epochs s' = epochs s ∧ moves s L nowhere s' L' ∧
    match r with
    | Ok _ => ∀ k, cur L' k = void_value ep (look k L)
    | Err er => (∃ k x, look k L = Some x ∧ void_fails ep er k x s') ∧
        ∀ k, cur L' k = cur L k ∨ cur L' k = void_value ep (look k L)
    | Panic => False
    end.
Proof.
  intros Hv Hep.
  destruct (over_entries_run (epochs s) (void_entry ep) (voided ep) (void_fails ep) (void_entry_run _ ep (proj1 Hv) Hep) s L Hv eq_refl)
    as (r & s' & L' & Hrun & He & Hmv & Hr). exists r, s', L'. split; [done|]. split; [done|]. split; [done|]. destruct r as [n|er|]; [| |done].
  - intros k. apply cur_voided, Hr.
  - destruct Hr as [(k & x & Hk & Her & _) Hr]. split; [by exists k, x|]. clear k x Hk Her.
    intros k. destruct (Hr k) as [E|E]; [left; unfold cur; by rewrite E|right; by apply cur_voided].
Qed.

(** ** Insertion *)

Lemma place_run s L k x :
  vok s L → is_live x = true → (∀ slot p, pinned alive (epochs s) slot p → visible_at x p = false) →
  (cur L k = None → ∀ slot p, pinned alive (epochs s) slot p → view p L k = None) →
  ∃ r s' L', place alive k x s = Some (r, s') ∧ epochs s' = epochs s ∧
    match r with
    | Ok d => (match d with Some y => if is_live y then Some (value y) else None | None => None end) = cur L k ∧
        moves s L (λ k', match cur L k with Some _ => keq k' k | None => false end) s' L' ∧
        ∀ k', cur L' k' = if keq k' k then Some (value x) else cur L k'
    | Err er => er = VFull ∧ refuses s k ∧ moves s L nowhere s' L' ∧ same_cur L L'
    | Panic => False
    end.
Proof.
  intros Hv Hx Hvis Hnone. unfold place.
  assert (∀ s1 L1 s2, vok s1 L1 → epochs s1 = epochs s → moves s L nowhere s1 L1 → same_cur L L1 → vok s2 (ins k x L1) → epochs s2 = epochs s1 →
    (match look k L1 with Some y => if is_live y then Some (value y) else None | None => None end) = cur L k ∧
    moves s L (λ k', match cur L k with Some _ => keq k' k | None => false end) s2 (ins k x L1) ∧
    ∀ k', cur (ins k x L1) k' = if keq k' k then Some (value x) else cur L k') as Hput.
  { intros s1 L1 s2 Hv1 He1 Hmv1 HC1 Hv2 He2. pose proof (λ k', keq_look k x k' L1 (vok_sorted _ _ Hv1)) as Hk. split; [exact (HC1 k)|]. split.
    - eapply moves_quiet; [exact Hmv1|]. destruct (cur L k) as [v|] eqn:Ec.
      + eapply moves_over; [done|done|exact Hk|]. intros slot p Hp. rewrite He1 in Hp. by eapply Hvis.
      + eapply moves_entry; [done|done|exact Hk|]. intros slot p Hp. rewrite He1 in Hp. cbn. rewrite (Hvis slot p Hp).
        pose proof (mv_view _ _ _ _ _ Hmv1 slot p Hp k) as ->. cbn. symmetry. by eapply Hnone.
    - intros k'. rewrite (cur_entry _ _ _ _ Hk), Hx. destruct (keq k' k); [done|]. apply HC1. }
  destruct (tinsert_run s L k x Hv) as (r & s1 & L1 & Hrun & He1 & Hv1 & [ [-> ->]|[-> ->] ]); rewrite (vbind_run _ _ _ _ _ Hrun).
  { exists (Ok (look k L)), s1, (ins k x L). split; [done|]. split; [done|]. apply (Hput s L s1); try done. by apply moves_refl. }
  pose proof (tinsert_refuses _ _ _ _ Hrun) as Hfull.
  destruct (sweep_run s1 L Hv1) as (r & s2 & L2 & Hsw & Hr & He2 & Hmv2 & HC2).
  assert (moves s L nowhere s2 L2) as Hmv by (eapply moves_quiet; [by apply moves_same|done]).
  destruct Hr as [->|[n ->] ]; [exists (Err VFull), s2, L2; rewrite (vbind_err _ _ _ _ _ Hsw); split_and!; try done; congruence|].
  rewrite (vbind_run _ _ _ _ _ Hsw). pose proof (mv_ok _ _ _ _ _ Hmv2) as Hv2.
  destruct (tinsert_run s2 L2 k x Hv2) as (r & s3 & L3 & Hrun3 & He3 & Hv3 & [ [-> ->]|[-> ->] ]); rewrite (vbind_run _ _ _ _ _ Hrun3).
  - exists (Ok (look k L2)), s3, (ins k x L2). split; [done|]. split; [congruence|]. apply (Hput s2 L2 s3); try done. congruence.
  - exists (Err VFull), s3, L2. split; [done|]. split; [congruence|]. split; [done|]. split; [done|]. split; [|done]. eapply moves_quiet; [exact Hmv|by apply moves_same].
Qed.

(** The key's last entry died after the horizon. *)
Definition reborn_under_pin (s : VersionedBTreeMap K V) (k : K) (er : VersionedError) : Prop :=
  er = RebornUnderPin ∧
  ∃ x h, tget k s = Some (Ok (Some x), s) ∧ is_live x = false ∧ vhorizon alive s = Some (Ok h, s) ∧ h < died x.

Lemma insert_at_run s L k v ep :
  vok s L → (∀ slot p, pinned alive (epochs s) slot p → p < ep) →
  ∃ r s' L', insert_at alive k v ep s = Some (r, s') ∧ epochs s' = epochs s ∧
    match r with
    | Ok d => d = cur L k ∧ moves s L (λ k', match d with Some _ => keq k' k | None => false end) s' L' ∧
        ∀ k', cur L' k' = if keq k' k then Some v else cur L k'
    | Err er => (er = VFull ∧ refuses s k ∨ reborn_under_pin s' k er) ∧ moves s L nowhere s' L' ∧ same_cur L L'
    | Panic => False
    end.
Proof.
  intros Hv Hep. unfold insert_at. rewrite (vbind_run _ _ _ _ _ (tget_run s L k Hv)).
  assert (∃ b, reborn alive (look k L) s = Some (Ok b, s) ∧ (b = false → cur L k = None → ∀ slot p, pinned alive (epochs s) slot p → view p L k = None) ∧
    (b = true → reborn_under_pin s k RebornUnderPin)) as (b & Hb & Hn & Hre).
  { pose proof (tget_run s L k Hv) as Hg. unfold reborn, cur, view. destruct (look k L) as [x|]; [|by exists false]. destruct (is_live x) eqn:El; [by exists false|].
    destruct (vhorizon_run s L Hv) as (h & Hh & Hp). rewrite (vbind_run _ _ _ _ _ Hh). exists (h <? died x). split; [done|].
    split; [|intros Hlt%Z.ltb_lt; split; [done|by exists x, h] ].
    intros Hlt%Z.ltb_ge _ slot p Hpin. specialize (Hp slot p Hpin). unfold visible_at. rewrite (proj2 (Z.ltb_ge p _)) by lia. by rewrite andb_false_r. }
  rewrite (vbind_run _ _ _ _ _ Hb). destruct b.
  { exists (Err RebornUnderPin), s, L. split; [done|]. split; [done|]. split; [right; by apply Hre|]. split; [by apply moves_refl|done]. }
  set (x := {| born := ep; died := DIED_LIVE; value := v |}).
  destruct (place_run s L k x Hv) as (r & s' & L' & Hrun & He & Hcase); [done| |by apply Hn|].
  { intros slot p Hp. specialize (Hep slot p Hp). unfold visible_at. cbn. by rewrite (proj2 (Z.leb_gt _ _)) by lia. }
  destruct r as [d|er|]; [|exists (Err er), s', L'; rewrite (vbind_err _ _ _ _ _ Hrun); destruct Hcase as (Ee & Hf & Hc); split; [done|]; split; [done|]; split; [by left|done]|done].
  rewrite (vbind_run _ _ _ _ _ Hrun). destruct Hcase as (Ed & Hmv & Hcur). eexists (Ok _), s', L'. split; [done|]. split; [done|].
  split; [done|]. split; [|done]. by rewrite Ed.
Qed.

(** ** Removal *)

Lemma stamp_dead_run s L k x ep :
  vok s L → look k L = Some x → is_live x = true → ep ≠ DIED_LIVE → (∀ slot p, pinned alive (epochs s) slot p → p < ep) →
  ∃ d s' L', stamp_dead k x ep s = Some (Ok d, s') ∧ epochs s' = epochs s ∧ moves s L nowhere s' L' ∧
    match d with
    | Some v => cur L k = Some v ∧ ∀ k', cur L' k' = if keq k' k then None else cur L k'
    | None => refuses s k ∧ same_cur L L'
    end.
Proof.
  intros Hv Hl Hx Hne Hep. unfold stamp_dead. set (x' := {| born := born x; died := ep; value := value x |}).
  destruct (tinsert_run s L k x' Hv) as (r & s' & L' & Hrun & He' & Hv' & [ [-> ->]|[-> ->] ]); rewrite (vbind_run _ _ _ _ _ Hrun).
  - pose proof (λ k', keq_look k x' k' L (vok_sorted _ _ Hv)) as Hk. exists (Some (value x)), s', (ins k x' L). split; [done|]. split; [done|]. split; [|split].
    + eapply moves_entry; [done|done|exact Hk|]. intros slot p Hp. pose proof (pinned_small _ _ _ (proj1 Hv) Hp). specialize (Hep slot p Hp).
      unfold view, visible_at. rewrite Hl. apply Z.eqb_eq in Hx. rewrite Hx. cbn. by rewrite !(proj2 (Z.ltb_lt _ _)) by lia.
    + unfold cur. by rewrite Hl, Hx.
    + intros k'. rewrite (cur_entry _ _ _ _ Hk). cbn. unfold is_live. cbn. by rewrite (proj2 (Z.eqb_neq _ _) Hne).
  - exists None, s', L. split; [done|]. split; [done|]. split; [by apply moves_same|]. split; [by eapply tinsert_refuses|done].
Qed.

Lemma live_entry_run s L k : vok s L → live_entry k s = Some (Ok (match look k L with Some x => if is_live x then Some x else None | None => None end), s).
Proof. intros Hv. unfold live_entry. by rewrite (vbind_run _ _ _ _ _ (tget_run s L k Hv)). Qed.

(** What a removal reports, and what it does. *)
Definition removed s L k (d : option V) L' : Prop :=
  match d with
  | Some v => cur L k = Some v ∧ ∀ k', cur L' k' = if keq k' k then None else cur L k'
  | None => (cur L k = None ∨ refuses s k) ∧ same_cur L L'
  end.

Lemma remove_at_run s L k ep :
  vok s L → ep ≠ DIED_LIVE → (∀ slot p, pinned alive (epochs s) slot p → p < ep) →
  ∃ d s' L', remove_at k ep s = Some (Ok d, s') ∧ epochs s' = epochs s ∧ moves s L nowhere s' L' ∧ removed s L k d L'.
Proof.
  intros Hv Hne Hep. unfold remove_at. rewrite (vbind_run _ _ _ _ _ (live_entry_run s L k Hv)).
  destruct (look k L) as [x|] eqn:El; [destruct (is_live x) eqn:Hx|].
  - destruct (stamp_dead_run s L k x ep) as (d & s' & L' & Hrun & He & Hmv & Hc); try done. exists d, s', L'. split_and!; try done.
    destruct d; [done|]. destruct Hc. split; [by right|done].
  - exists None, s, L. split_and!; try done; [by apply moves_refl|]. split; [|done]. left. unfold cur. by rewrite El, Hx.
  - exists None, s, L. split_and!; try done; [by apply moves_refl|]. split; [|done]. left. unfold cur. by rewrite El.
Qed.

Lemma pinned_counter s slot p : pinned alive (epochs s) slot p → p ≤ counter (epochs s).
Proof. intros [? _]. lia. Qed.

Lemma vremove_run s L k :
  vok s L → counter (epochs s) + 1 < 2 ^ 63 →
  ∃ d s' L', vremove k s = Some (Ok d, s') ∧ counter (epochs s') ≤ counter (epochs s) + 1 ∧ moves s L nowhere s' L' ∧ removed s L k d L'.
Proof.
  intros Hv Hc. unfold vremove. rewrite (vbind_run _ _ _ _ _ (live_entry_run s L k Hv)).
  destruct (look k L) as [x|] eqn:El; [destruct (is_live x) eqn:Hx|].
  - destruct (vadvance_run s L Hv Hc) as (s1 & Hadv & Hmv1 & Hc1 & Hpin & Ht). rewrite (vbind_run _ _ _ _ _ Hadv). pose proof (mv_ok _ _ _ _ _ Hmv1) as Hv1.
    assert (0 ≤ counter (epochs s)) by apply Hv.
    pose proof (Z.lt_le_trans _ _ DIED_LIVE Hc ltac:(unfold DIED_LIVE; lia)).
    destruct (stamp_dead_run s1 L k x (counter (epochs s) + 1)) as (d & s' & L' & Hrun & He & Hmv & Hcur); try done; [lia|].
    exists d, s', L'. split; [done|]. split; [rewrite He; lia|]. split; [by eapply moves_quiet|].
    destruct d; [done|]. destruct Hcur as [Hfull ?]. split; [right|done]. destruct Hfull as [y Hy]. exists y. by rewrite <- Ht.
  - exists None, s, L. split_and!; try done; [lia|by apply moves_refl|]. split; [|done]. left. unfold cur. by rewrite El, Hx.
  - exists None, s, L. split_and!; try done; [lia|by apply moves_refl|]. split; [|done]. left. unfold cur. by rewrite El.
Qed.

(** ** Calls *)

(** An insertion that reports the value it replaced. *)
Definition overwrites k (cr : vcall K V * vreply V) : bool :=
  match cr with
  | (VInsert k' _, VWrote (Ok (Some _))) | (VInsertAt _ k' _, VWrote (Ok (Some _))) => keq k k'
  | _ => false
  end.

Arguments overwrites : simpl never.

Definition unchanged (f f' : K → option V) : Prop := ∀ k, f' k = f k.

(** What a call on [s] that replied [r] and left [s'] did to the current values
    [f]. An insertion fails only when the tree has no room for an entry of the
    key, or when the key's last entry died after the horizon; a removal answers
    none only when the key has no current value, or when the tree has no room to
    write its end; a voided epoch takes back what it inserted and restores what
    it removed, and stops halfway only when the tree refuses a restored entry. *)
Definition reported (s : VersionedBTreeMap K V) (c : vcall K V) (r : vreply V) (s' : VersionedBTreeMap K V) (f f' : K → option V) : Prop :=
  match c, r with
  | (VInsert k v | VInsertAt _ k v), VWrote (Ok d) => d = f k ∧ ∀ k', f' k' = if keq k' k then Some v else f k'
  | (VInsert k _ | VInsertAt _ k _), VWrote (Err er) =>
      (er = VFull ∧ refuses s k ∨ reborn_under_pin s' k er) ∧ unchanged f f'
  | (VRemove k | VRemoveAt _ k), VWrote (Ok (Some v)) => f k = Some v ∧ ∀ k', f' k' = if keq k' k then None else f k'
  | (VRemove k | VRemoveAt _ k), VWrote (Ok None) => (f k = None ∨ refuses s k) ∧ unchanged f f'
  | VVoid slot, VSwept v => ∃ p, payload slot (tickets (epochs s)) = Some p ∧
      match v with
      | Ok _ => ∀ k, ∃ e, tget k s = Some (Ok e, s) ∧ f' k = void_value (p - 1) e
      | Err er => (∃ k x, tget k s = Some (Ok (Some x), s) ∧ void_fails (p - 1) er k x s') ∧
          ∀ k, f' k = f k ∨ ∃ e, tget k s = Some (Ok e, s) ∧ f' k = void_value (p - 1) e
      | Panic => False
      end
  | (VInsertAt slot _ _ | VRemoveAt slot _ | VVoid slot), VNoTicket =>
      payload slot (tickets (epochs s)) = None ∧ unchanged f f'
  | VSweep, VSwept (Ok _ | Err VFull) | VPin, VPinned _ | VRelease _, VDone | VBegin, VTicket _ | VPublish _, VDone =>
      unchanged f f'
  | _, _ => False
  end.

(** A call from [s] to [s'] as the pins see it. *)
Record call_ok s L (c : vcall K V) (r : vreply V) s' L' : Prop := {
  ca_ok : vok s' L'; ca_counter : counter (epochs s) ≤ counter (epochs s') ≤ counter (epochs s) + 1;
  ca_view : ∀ slot p, c ≠ VRelease slot → pinned alive (epochs s) slot p →
    pinned alive (epochs s') slot p ∧ ∀ k, view p L' k = if overwrites k (c, r) then None else view p L k;
  ca_reported : reported s c r s' (cur L) (cur L');
  ca_pin : ∀ slot p, r = VPinned (Ok (slot, p)) → pinned alive (epochs s') slot p }.

Lemma call_from_moves s L c r s' L' :
  moves s L (λ k, overwrites k (c, r)) s' L' → counter (epochs s') ≤ counter (epochs s) + 1 → reported s c r s' (cur L) (cur L') →
  (∀ slot p, r ≠ VPinned (Ok (slot, p))) → call_ok s L c r s' L'.
Proof.
  intros [M1 M2 M3 M4] Hc Hr Hn. split; [done|lia| |done|intros slot p E; by destruct (Hn slot p)]. intros slot p _ Hp. split; [by apply M3|by eapply M4].
Qed.

(** Only the epochs change. *)
Lemma call_epochs s L c r e :
  vok s L → rest e → counter (epochs s) ≤ counter e ≤ counter (epochs s) + 1 → (∀ k, overwrites k (c, r) = false) →
  reported s c r {| tree := tree s; epochs := e |} (cur L) (cur L) →
  (∀ slot p, c ≠ VRelease slot → pinned alive (epochs s) slot p → pinned alive e slot p) →
  (∀ slot p, r = VPinned (Ok (slot, p)) → pinned alive e slot p) → call_ok s L c r {| tree := tree s; epochs := e |} L.
Proof.
  intros [_ Hm] Hr Hc Ho Hrep Hk Hp. split; [by split|done| |done|done]. intros slot p Hn Hpin. split; [by eapply Hk|]. intros k. by rewrite Ho.
Qed.

Lemma ticket_epoch s L slot p :
  vok s L → payload slot (tickets (epochs s)) = Some p →
  p - 1 ≠ DIED_LIVE ∧ ∀ slot' q, pinned alive (epochs s) slot' q → q < p - 1.
Proof.
  intros [ [H1 H2 H3] _] Hp. unfold payload in Hp. destruct (tickets (epochs s) !! slot) as [h|] eqn:E; [|done]. cbn in Hp.
  destruct (decided (state h)) eqn:Ed; [|done]. injection Hp as <-. assert (state h ≠ HOLDER_FREE) as Hf by (intros Ef; by rewrite Ef in Ed).
  destruct (H3 slot h E) as [?|?]; [done|]. split; [unfold DIED_LIVE; lia|]. intros slot' x (_ & _ & Ht). specialize (Ht slot h E Hf). lia.
Qed.

Lemma vexec_run pid c s L :
  vok s L → counter (epochs s) + 1 < 2 ^ 63 → alive pid = true →
  ∃ r s' L', vexec alive pid c s = Some (r, s') ∧ call_ok s L c r s' L' ∧ (c = VPin → (∃ r', r = VPinned r') ∧ L' = L).
Proof.
  intros Hv Hc Ha. pose proof (proj1 Hv) as Hr. assert (0 ≤ counter (epochs s)) as H0 by apply Hr.
  assert (∀ slot f, payload slot (tickets (epochs s)) = None → with_ticket slot f s = Some (VNoTicket, s)) as Hnone.
  { intros slot f E. unfold with_ticket. by rewrite E. }
  assert (∀ c', (∀ k, overwrites k (c', VNoTicket) = false) → reported s c' VNoTicket s (cur L) (cur L) → call_ok s L c' VNoTicket s L) as Hskip.
  { intros c' Ho Hrep. pose proof (call_epochs s L c' VNoTicket (epochs s) Hv Hr ltac:(lia) Ho Hrep) as Hx. destruct s. by apply Hx. }
  destruct c as [k v|k|slot k v|slot k|slot| | |slot| |slot]; cbn [vexec].
  - destruct (vadvance_run s L Hv Hc) as (s1 & Hadv & Hmv1 & Hc1 & Hpin & Ht). unfold vinsert. rewrite (vbind_run _ _ _ _ _ Hadv).
    destruct (insert_at_run s1 L k v (counter (epochs s) + 1) (mv_ok _ _ _ _ _ Hmv1) Hpin) as (r & s' & L' & -> & He & Hcase). cbn.
    exists (VWrote r), s', L'. split; [done|]. split; [|done]. destruct r as [d|er|]; [|destruct Hcase as (Hw & Hmv & HC)|done].
    + destruct Hcase as (-> & Hmv & Hcur). apply call_from_moves; [|rewrite He; lia|done|done]. eapply moves_quiet; [exact Hmv1|]. by destruct (cur L k).
    + apply call_from_moves; [by eapply moves_quiet|rewrite He; lia| |done]. split; [|done].
      destruct Hw as [ [-> [y Hy] ]|?]; [left|by right]. split; [done|]. exists y. by rewrite <- Ht.
  - destruct (vremove_run s L k Hv Hc) as (d & s' & L' & -> & Hc' & Hmv & Hrem). cbn. exists (VWrote (Ok d)), s', L'. split; [done|]. split; [|done].
    apply call_from_moves; [done|done| |done]. by destruct d.
  - destruct (payload slot (tickets (epochs s))) as [p|] eqn:E.
    2:{ exists VNoTicket, s, L. split; [by apply Hnone|]. split; [by apply Hskip|done]. }
    unfold with_ticket. rewrite E. destruct (ticket_epoch s L slot p Hv E) as [Hne Hlt].
    destruct (insert_at_run s L k v (p - 1) Hv Hlt) as (r & s' & L' & -> & He & Hcase). cbn. exists (VWrote r), s', L'. split; [done|]. split; [|done].
    destruct r as [d|er|]; [|destruct Hcase as (Hw & Hmv & HC)|done].
    + destruct Hcase as (-> & Hmv & Hcur). apply call_from_moves; [|rewrite He; lia|done|done]. by destruct (cur L k).
    + apply call_from_moves; [done|rewrite He; lia|done|done].
  - destruct (payload slot (tickets (epochs s))) as [p|] eqn:E.
    2:{ exists VNoTicket, s, L. split; [by apply Hnone|]. split; [by apply Hskip|done]. }
    unfold with_ticket. rewrite E. destruct (ticket_epoch s L slot p Hv E) as [Hne Hlt].
    destruct (remove_at_run s L k (p - 1) Hv Hne Hlt) as (d & s' & L' & -> & He & Hmv & Hrem). cbn. exists (VWrote (Ok d)), s', L'. split; [done|].
    split; [|done]. apply call_from_moves; [done|rewrite He; lia| |done]. by destruct d.
  - destruct (payload slot (tickets (epochs s))) as [p|] eqn:E.
    2:{ exists VNoTicket, s, L. split; [by apply Hnone|]. split; [by apply Hskip|done]. }
    unfold with_ticket. rewrite E. destruct (ticket_epoch s L slot p Hv E) as [Hne Hlt].
    destruct (void_run s L (p - 1) Hv Hlt) as (r & s' & L' & -> & He & Hmv & Hvoid). cbn. exists (VSwept r), s', L'. split; [done|].
    split; [|done]. apply call_from_moves; [done|rewrite He; lia| |done]. exists p. split; [done|]. destruct r as [n|er|]; [| |done].
    + intros k. exists (look k L). split; [by apply tget_run|apply Hvoid].
    + destruct Hvoid as [(k & x & Hk & Hf) Hvoid]. split; [exists k, x; split; [|done]; by rewrite <- Hk, (tget_run s L)|].
      clear k x Hk Hf. intros k. destruct (Hvoid k); [by left|right]. exists (look k L). split; [by apply tget_run|done].
  - destruct (sweep_run s L Hv) as (r & s' & L' & -> & Hr' & He & Hmv & HC). cbn. exists (VSwept r), s', L'. split; [done|].
    split; [|done]. apply call_from_moves; [done|rewrite He; lia| |done]. by destruct Hr' as [->|[n ->] ].
  - destruct (claim_pin_rest alive pid _ Hr Ha) as (r & e' & Hcl & Hr' & Hce & Hk & Hp). unfold pin. rewrite Hcl. cbn.
    eexists _, _, L. split; [done|]. split; [|by split; [eexists|] ]. apply call_epochs; try done; [lia| |].
    + intros sl p _ Hpin. by apply Hk.
    + intros sl p E. apply Hp. destruct r as [ [sl' p']| |]; [|done..]. by injection E as -> ->.
  - destruct (release_pin_rest alive slot _ Hr) as [Hr' Hk]. eexists _, _, L. split; [done|]. split; [|done].
    apply call_epochs; try done; [cbn; lia|]. intros sl p Hne Hpin. apply Hk; [congruence|done].
  - destruct (claim_ticket_rest alive pid _ Hr Hc) as (r & e' & Hcl & Hr' & Hce & Hk). rewrite Hcl. eexists _, _, L. split; [done|]. split; [|done].
    apply call_epochs; try done. intros sl p _ Hpin. by apply Hk.
  - destruct (publish_ticket_rest alive slot _ Hr) as [Hr' Hk]. eexists _, _, L. split; [done|]. split; [|done].
    apply call_epochs; try done; [cbn; lia|]. intros sl p _ Hpin. by apply Hk.
Qed.

Lemma vrun_run pid cs s L :
  vok s L → alive pid = true → counter (epochs s) + Z.of_nat (length cs) < 2 ^ 63 →
  ∃ rs s' L', vrun alive pid cs s = Some (rs, s') ∧ length rs = length cs ∧ vok s' L' ∧
    counter (epochs s') ≤ counter (epochs s) + Z.of_nat (length cs) ∧
    ∀ slot p, VRelease slot ∉ cs → pinned alive (epochs s) slot p →
      pinned alive (epochs s') slot p ∧ ∀ k, view p L' k = if existsb (overwrites k) (zip cs rs) then None else view p L k.
Proof.
  revert s L. induction cs as [|c cs IH]; intros s L Hv Ha Hc.
  { exists [], s, L. split; [done|]. split; [done|]. split; [done|]. split; [cbn; lia|done]. }
  cbn [length] in Hc. destruct (vexec_run pid c s L Hv ltac:(lia) Ha) as (r & s1 & L1 & Hx & [C1 C2 C3 _ _] & _).
  destruct (IH s1 L1 C1 Ha ltac:(lia)) as (rs & s' & L' & Hrun & Hl & Hv' & Hc' & Hk). exists (r :: rs), s', L'. cbn [vrun]. rewrite Hx. cbn.
  rewrite Hrun. cbn. split; [done|]. split; [lia|]. split; [done|]. split; [lia|]. intros slot p Hnr Hp. apply not_elem_of_cons in Hnr as [Hne Hnr].
  destruct (C3 slot p (not_eq_sym Hne) Hp) as [Hp1 Hv1]. destruct (Hk slot p Hnr Hp1) as [Hp' Hv2]. split; [done|]. intros k. rewrite Hv2, Hv1.
  change (existsb (overwrites k) (zip (c :: cs) (r :: rs))) with (overwrites k (c, r) || existsb (overwrites k) (zip cs rs)).
  by destruct (overwrites k (c, r)), (existsb _ (zip cs rs)).
Qed.

Lemma get_at_run s L k p : vok s L → get_at k p s = Some (Ok (view p L k), s).
Proof. intros Hv. unfold get_at. by rewrite (vbind_run _ _ _ _ _ (tget_run s L k Hv)). Qed.
Lemma get_run s L k : vok s L → get k s = Some (Ok (cur L k), s).
Proof. intros Hv. unfold get. by rewrite (vbind_run _ _ _ _ _ (tget_run s L k Hv)). Qed.

Lemma vcreated_ok cap npins fill : (1 ≤ cap)%nat → Z.of_nat cap < NIL → mapped (Z.of_nat cap) fill → vok (vcreated cap npins fill) [].
Proof.
  intros H1 H2 Hm. split.
  - split; cbn; [lia| |]; intros i h [-> _]%lookup_replicate; by left.
  - destruct (created_ok (Z.of_nat cap) 0 0 fill ltac:(lia) Hm) as (_ & lost & _ & Hok). by exists lost.
Qed.

(** ** The theorems *)

Section whole.
Context (cap npins : nat) (fill : gmap Z (BTreeNode K (Versioned V))) (pid : Z) (cs1 : list (vcall K V)).
Hypotheses (Hcap : (1 ≤ cap)%nat) (Hnil : Z.of_nat cap < NIL) (Hfill : mapped (Z.of_nat cap) fill) (Halive : alive pid = true).
(** C28: after any calls, a call returns, replies in kind, and does to the
    current values what it reports. [insert] and [insert_at] report the current
    value and put the new one in its place; they fail, changing nothing, only
    when the tree has no room for an entry of the key, or when the last entry of
    the key died after the reclaim horizon. [remove] and [remove_at] report the
    current value of the key and leave none; they answer none, changing nothing,
    only when the key has no current value or when the tree has no room to write
    the entry's end, where the code departs from the documentation of [remove].
    [void_epoch] leaves no value of a key written in its epoch, gives back the
    value of one removed in it, and keeps the others; it fails only when the tree
    refuses an entry it restores, and then some keys are not yet treated. Sweeps,
    pins and tickets change nothing. *)
Theorem versioned_current c :
  Z.of_nat (length cs1) < 2 ^ 62 →
  ∃ rs s r s' f f', vrun alive pid cs1 (vcreated cap npins fill) = Some (rs, s) ∧ vexec alive pid c s = Some (r, s') ∧
    (∀ k, get k s = Some (Ok (f k), s)) ∧ (∀ k, get k s' = Some (Ok (f' k), s')) ∧ reported s c r s' f f'.
Proof using Hcap Hnil Hfill Halive.
  intros Hfew. pose proof (vcreated_ok cap npins fill Hcap Hnil Hfill) as Hv0.
  destruct (vrun_run pid cs1 _ _ Hv0 Halive ltac:(cbn; lia)) as (rs & s & L & Hrun & _ & Hv & Hc & _). cbn in Hc.
  destruct (vexec_run pid c s L Hv ltac:(lia) Halive) as (r & s' & L' & Hx & [C1 _ _ C4 _] & _).
  exists rs, s, r, s', (cur L), (cur L'). split; [done|]. split; [done|]. split; [intros k; by apply get_run|]. split; [intros k; by apply get_run|done].
Qed.
(** C27: a pin sees a fixed view. After any calls [cs1] on a fresh map a pin is
    taken, and any calls [cs2] follow that do not drop it: inserts, removals,
    compound writes, sweeps, voided epochs, other pins. They all return, and then
    [get_at] of a key returns what it returned when the pin was taken, unless one
    of the calls was an insertion that reports to have replaced a current value
    of the key: of such a key the pin sees nothing. *)
Theorem versioned_snapshot cs2 :
  Z.of_nat (length cs1 + length cs2) < 2 ^ 62 →
  ∃ rs1 s1 r s2, vrun alive pid cs1 (vcreated cap npins fill) = Some (rs1, s1) ∧ vexec alive pid VPin s1 = Some (VPinned r, s2) ∧
    ∀ slot p, r = Ok (slot, p) → VRelease slot ∉ cs2 →
      ∃ rs2 s3, vrun alive pid cs2 s2 = Some (rs2, s3) ∧ length rs2 = length cs2 ∧
        ∀ k, ∃ v, get_at k p s1 = Some (Ok v, s1) ∧
          get_at k p s3 = Some (Ok (if existsb (overwrites k) (zip cs2 rs2) then None else v), s3).
Proof using Hcap Hnil Hfill Halive.
  intros Hfew. pose proof (vcreated_ok cap npins fill Hcap Hnil Hfill) as Hv0.
  destruct (vrun_run pid cs1 _ _ Hv0 Halive ltac:(cbn; lia)) as (rs1 & s1 & L1 & Hrun1 & _ & Hv1 & Hc1 & _). cbn in Hc1.
  destruct (vexec_run pid VPin s1 L1 Hv1 ltac:(lia) Halive) as (r & s2 & L2 & Hx & [C1 C2 _ _ C5] & [ [r' ->] ->] ); [done|].
  exists rs1, s1, r', s2. split; [done|]. split; [done|]. intros slot p -> Hnr.
  destruct (vrun_run pid cs2 s2 L1 C1 Halive ltac:(lia)) as (rs2 & s3 & L3 & Hrun2 & Hl2 & Hv3 & _ & Hk). exists rs2, s3. split; [done|]. split; [done|].
  intros k. exists (view p L1 k). split; [by apply get_at_run|]. destruct (Hk slot p Hnr (C5 slot p eq_refl)) as [_ Hview].
  rewrite (get_at_run _ _ k p Hv3). by rewrite Hview.
Qed.

End whole.
End versioned.

(** ** Runs *)

Definition vblank (cap : Z) : gmap Z (BTreeNode Z (Versioned Z)) :=
  (λ n, {| count := count n; is_leaf := is_leaf n; keys := keys n; children := children n;
           values := (λ v, {| born := 0; died := 0; value := v |}) <$> values n |}) <$> blank cap.

Lemma vblank_mapped cap : mapped cap (vblank cap).
Proof.
  intros x. unfold vblank. rewrite lookup_fmap. pose proof (blank_mapped cap x) as Hx. destruct (blank cap !! x) as [n|]; cbn; [|done].
  destruct Hx as [? Hw]. split; [done|]. destruct Hw. split; cbn; try done. by rewrite length_fmap.
Qed.

Definition before_pin : list (vcall Z Z) := (λ k, VInsert k (k + 1)) <$> seqZ 0 20.
Definition after_pin : list (vcall Z Z) := [VInsert 3 7; VRemove 4; VInsert 30 1; VBegin; VInsertAt 0 31 1; VSweep; VPublish 0; VInsert 4 9].

Lemma versioned_snapshot_witness :
  ∃ rs1 s1 r s2, vrun (λ _, true) 1 before_pin (vcreated 30 4 (vblank 30)) = Some (rs1, s1) ∧ vexec (λ _, true) 1 VPin s1 = Some (VPinned r, s2) ∧
    ∀ slot p, r = Ok (slot, p) → VRelease slot ∉ after_pin → ∃ rs2 s3, vrun (λ _, true) 1 after_pin s2 = Some (rs2, s3).
Proof.
  destruct (versioned_snapshot (λ _, true) 30 4 (vblank 30) 1 before_pin ltac:(lia) eq_refl (vblank_mapped 30) eq_refl after_pin eq_refl)
    as (rs1 & s1 & r & s2 & H1 & H2 & H3).
  exists rs1, s1, r, s2. split; [exact H1|]. split; [exact H2|]. intros slot p Hr Hn. destruct (H3 slot p Hr Hn) as (rs2 & s3 & H4 & _). exists rs2, s3. exact H4.
Defined.

Lemma versioned_current_witness :
  ∃ rs s r s' f f', vrun (λ _, true) 1 before_pin (vcreated 30 4 (vblank 30)) = Some (rs, s) ∧ vexec (λ _, true) 1 (VRemove 4) s = Some (r, s') ∧
    (∀ k, get k s = Some (Ok (f k), s)) ∧ (∀ k, get k s' = Some (Ok (f' k), s')) ∧ reported (λ _, true) s (VRemove 4) r s' f f'.
Proof.
  exact (versioned_current (λ _, true) 30 4 (vblank 30) 1 before_pin ltac:(lia) eq_refl (vblank_mapped 30) eq_refl (VRemove 4) eq_refl).
Defined.

Definition vdo {A} (c : VM (K := Z) (V := Z) A) (s : VersionedBTreeMap Z Z) : option (A * VersionedBTreeMap Z Z) :=
  match c s with Some (Ok a, s) => Some (a, s) | _ => None end.

(** The run of the witness: at the pin the removed key is still there, the two
    that came later are not, and the one written over is gone. *)
Lemma pin_view_run :
  ('(_, s) ← vrun (λ _, true) 1 before_pin (vcreated 30 4 (vblank 30)); '(slot, p, s) ← vdo (pin (λ _, true) 1) s;
   '(rs, s) ← vrun (λ _, true) 1 after_pin s; '(l, _) ← vdo (range_at (Included 2) (Included 31) 100 p) s; '(g, _) ← vdo (get 3) s;
   Some (p, rs, take 3 l, last l, g)) =
  Some (20, [VWrote (Ok (Some 4)); VWrote (Ok (Some 5)); VWrote (Ok None); VTicket (Ok (0%nat, 24)); VWrote (Ok None); VSwept (Err VFull);
             VDone; VWrote (Err RebornUnderPin)], [(2, 3); (4, 5); (5, 6)], Some (19, 20), Some 7).
Proof. vm_compute. reflexivity. Qed.

(** The entry that marks the removal needs room for a split the tree does not
    have: the caller is told that there was no such key, and it stays. *)
Lemma versioned_remove_lost :
  ('(_, s) ← vrun (λ _, true) 1 ((λ k, VInsert k (k + 1)) <$> seqZ 0 15) (vcreated 1 4 (vblank 1)); '(r, s) ← vdo (vremove 3) s; '(g, _) ← vdo (get 3) s; Some (r, g)) =
  Some (None, Some 4).
Proof. vm_compute. reflexivity. Qed.

(** An insert moves the counter on before it writes the entry. A pin taken in
    between is at the entry's epoch, and sees the key appear. *)
Lemma versioned_pin_between :
  ('(born, s) ← vdo vadvance (vcreated 30 4 (vblank 30)); '(slot, p, s) ← vdo (pin (λ _, true) 1) s; '(v, s) ← vdo (get_at 3 p) s;
   '(_, s) ← vdo (insert_at (λ _, true) 3 4 born) s; '(v', _) ← vdo (get_at 3 p) s; Some (v, v')) = Some (None, Some 4).
Proof. vm_compute. reflexivity. Qed.
