(* ===== verification/Marshal.v ===== *)
(** Values that cross address spaces: crates/subetha-core/src/marshal.rs.

    [Marshal] is the trait and [MarshalLaws] the contract its documentation
    states; the impls of the source are instances of both. A buffer is a list of
    bytes; [marshal] returns the buffer it leaves. *)
From stdpp Require Import list.
From S2P Require Import Prelude.

Inductive MarshalError := ShortBuffer (expected got : nat) | InvalidEncoding.

#[export] Instance MarshalError_eq_dec : EqDecision MarshalError.
Proof. solve_decision. Defined.

Class Marshal (T : Type) := {
  PAYLOAD_BYTES : nat;
  marshal : T → list Z → res MarshalError (list Z);
  unmarshal : list Z → res MarshalError T }.
#[global] Hint Mode Marshal ! : typeclass_instances.
Arguments PAYLOAD_BYTES T {_}.

Definition byte_range (b : Z) : Prop := 0 ≤ b < 256.

(** The contract. [valid] are the values the Rust type has among those of the
    type that models it; [bytes] is what [marshal] writes. *)
Class MarshalLaws (T : Type) `{Marshal T} := {
  valid : T → Prop;
  bytes : T → list Z;
  bytes_length v : valid v → length (bytes v) = PAYLOAD_BYTES T;
  bytes_range v : valid v → Forall byte_range (bytes v);
  marshal_writes v dst : valid v → (PAYLOAD_BYTES T ≤ length dst)%nat → marshal v dst = Ok (overwrite (bytes v) dst);
  marshal_short v dst : valid v → (length dst < PAYLOAD_BYTES T)%nat → marshal v dst = Panic;
  unmarshal_short src : (length src < PAYLOAD_BYTES T)%nat → unmarshal (T := T) src = Err (ShortBuffer (PAYLOAD_BYTES T) (length src));
  unmarshal_reads src : (PAYLOAD_BYTES T ≤ length src)%nat → unmarshal (T := T) src = unmarshal (take (PAYLOAD_BYTES T) src);
  unmarshal_bytes v : valid v → unmarshal (bytes v) = Ok v;
  unmarshal_only src v : length src = PAYLOAD_BYTES T → Forall byte_range src → unmarshal src = Ok v → valid v ∧ bytes v = src;
  unmarshal_total src : (PAYLOAD_BYTES T ≤ length src)%nat → (∃ v, unmarshal (T := T) src = Ok v) ∨ unmarshal (T := T) src = Err InvalidEncoding }.

(** * Integers *)

(** [to_le_bytes] and [from_le_bytes]. *)
Fixpoint to_le (n : nat) (x : Z) : list Z := match n with O => [] | S n => u8 x :: to_le n (Z.shiftr x 8) end.
Fixpoint of_le (bs : list Z) : Z := match bs with [] => 0 | b :: bs => b + 256 * of_le bs end.

Lemma length_to_le n x : length (to_le n x) = n.
Proof. revert x. induction n as [|n IH]; intros x; cbn; [done|]. by rewrite IH. Qed.

Lemma to_le_range n x : Forall byte_range (to_le n x).
Proof. revert x. induction n as [|n IH]; intros x; constructor; [by apply (wrap_bound 8)|apply IH]. Qed.

Lemma of_le_range bs : Forall byte_range bs → 0 ≤ of_le bs < 2 ^ (8 * Z.of_nat (length bs)).
Proof.
  induction 1 as [|b bs Hb _ IH]; [done|]. cbn [of_le length]. replace (8 * Z.of_nat (S (length bs))) with (8 + 8 * Z.of_nat (length bs)) by lia.
  rewrite Z.pow_add_r by lia. unfold byte_range in Hb. lia.
Qed.

Lemma of_to_le n x : of_le (to_le n x) = x mod 2 ^ (8 * Z.of_nat n).
Proof.
  revert x. induction n as [|n IH]; intros x; cbn [of_le to_le]; [by rewrite Z.mod_1_r|].
  replace (8 * Z.of_nat (S n)) with (8 + 8 * Z.of_nat n) by lia. rewrite IH, Z.shiftr_div_pow2, Z.pow_add_r, Z.rem_mul_r by lia. unfold wrap. lia.
Qed.

Lemma to_of_le bs : Forall byte_range bs → to_le (length bs) (of_le bs) = bs.
Proof.
  induction 1 as [|b bs Hb _ IH]; [done|]. cbn [of_le length to_le]. unfold byte_range in Hb. f_equal.
  - unfold wrap. change (2 ^ 8) with 256. by rewrite Z.mul_comm, Z.mod_add, Z.mod_small by lia.
  - rewrite Z.shiftr_div_pow2 by lia. change (2 ^ 8) with 256. by rewrite Z.mul_comm, Z.div_add, Z.div_small, Z.add_0_l by lia.
Qed.

(** [uN], [iN] and the floats, which are their bits, of [n] bytes. *)
Definition uint (n : nat) : Type := Z.
Definition sint (n : nat) : Type := Z.
#[global] Typeclasses Opaque uint sint.

(** The macro [impl_marshal_for_primitive], given the reading of the bytes. *)
Definition primitive (n : nat) (of_bits : Z → Z) : Marshal Z := {|
  PAYLOAD_BYTES := n;
  marshal v dst := if (length dst <? n)%nat then Panic else Ok (overwrite (to_le n v) dst);
  unmarshal src := if (length src <? n)%nat then Err (ShortBuffer n (length src)) else Ok (of_bits (of_le (take n src))) |}.

#[export] Instance uint_marshal n : Marshal (uint n) := primitive n id.
#[export] Instance sint_marshal n : Marshal (sint n) := primitive n (λ x, if x <? 2 ^ (8 * Z.of_nat n - 1) then x else x - 2 ^ (8 * Z.of_nat n)).

(** Bits that stand for the values of a range. *)
Section primitive.
Context (n : nat) (of_bits : Z → Z) (ok : Z → Prop).
Hypothesis back : ∀ v, ok v → of_bits (v mod 2 ^ (8 * Z.of_nat n)) = v.
Hypothesis forth : ∀ x, 0 ≤ x < 2 ^ (8 * Z.of_nat n) → ok (of_bits x) ∧ of_bits x mod 2 ^ (8 * Z.of_nat n) = x.

Lemma to_le_mod m x : to_le m (x mod 2 ^ (8 * Z.of_nat m)) = to_le m x.
Proof using.
  rewrite <- of_to_le. rewrite <- (length_to_le m x) at 1. apply to_of_le, to_le_range.
Qed.

#[refine] Definition primitive_laws : @MarshalLaws Z (primitive n of_bits) := {| valid := ok; bytes := to_le n |}.
Proof using back forth.
  all: cbn -[Nat.ltb]; intros *.
  - intros _. apply length_to_le.
  - intros _. apply to_le_range.
  - intros _ Hl. by rewrite (proj2 (Nat.ltb_ge _ _) Hl).
  - intros _ Hl. by rewrite (proj2 (Nat.ltb_lt _ _) Hl).
  - intros Hl. by rewrite (proj2 (Nat.ltb_lt _ _) Hl).
  - intros Hl. rewrite (proj2 (Nat.ltb_ge _ _) Hl), (proj2 (Nat.ltb_ge _ _)); [by rewrite take_take, Nat.min_id|rewrite length_take; lia].
  - intros Hv. rewrite length_to_le, Nat.ltb_irrefl, take_ge by (rewrite length_to_le; lia). by rewrite of_to_le, back.
  - intros Hl Hr. rewrite Hl, Nat.ltb_irrefl, take_ge by lia. intros [= <-]. pose proof (of_le_range _ Hr) as Hb. rewrite Hl in Hb.
    destruct (forth _ Hb) as [Hok Hm]. split; [done|]. rewrite <- to_le_mod, Hm, <- Hl. by apply to_of_le.
  - intros Hl. rewrite (proj2 (Nat.ltb_ge _ _) Hl). eauto.
Defined.
End primitive.

#[export] Instance uint_laws n : MarshalLaws (uint n).
Proof.
  apply (primitive_laws n id (λ v, 0 ≤ v < 2 ^ (8 * Z.of_nat n))); intros x Hx; [by apply Z.mod_small|]. split; [done|by apply Z.mod_small].
Defined.

#[export] Instance sint_laws n : MarshalLaws (sint (S n)).
Proof.
  apply (primitive_laws (S n) _ (λ v, - 2 ^ (8 * Z.of_nat (S n) - 1) ≤ v < 2 ^ (8 * Z.of_nat (S n) - 1)));
    intros x Hx; assert (2 ^ (8 * Z.of_nat (S n)) = 2 * 2 ^ (8 * Z.of_nat (S n) - 1)) as E by (rewrite <- Z.pow_succ_r by lia; f_equal; lia);
    rewrite E in *; set (h := 2 ^ (8 * Z.of_nat (S n) - 1)) in *.
  - destruct (decide (0 ≤ x)).
    + rewrite Z.mod_small by lia. by rewrite (proj2 (Z.ltb_lt _ _)) by lia.
    + rewrite <- (Z.mod_add x 1), Z.mod_small by lia. rewrite (proj2 (Z.ltb_ge _ _)) by lia. lia.
  - destruct (Z.ltb_spec x h); [split; [lia|by apply Z.mod_small]|]. split; [lia|]. rewrite <- (Z.mod_add _ 1), Z.mod_small by lia. lia.
Defined.

(** * [bool] and [()] *)

#[export] Instance bool_marshal : Marshal bool := {|
  PAYLOAD_BYTES := 1;
  marshal (v : bool) dst := match dst with [] => Panic | _ :: dst => Ok ((if v then 1 else 0) :: dst) end;
  unmarshal src := match src with
                   | [] => Err (ShortBuffer 1 0)
                   | b :: _ => if b =? 0 then Ok false else if b =? 1 then Ok true else Err InvalidEncoding
                   end |}.

#[export, refine] Instance bool_laws : MarshalLaws bool := {| valid (_ : bool) := True; bytes (v : bool) := [if v then 1 else 0] |}.
Proof.
  all: cbn; intros *; try done.
  - intros _. repeat constructor; by destruct v.
  - destruct dst; cbn; [lia|done].
  - destruct dst; cbn; [done|lia].
  - destruct src; cbn; [done|lia].
  - destruct src; cbn; [lia|done].
  - by destruct v.
  - destruct src as [|b [|] ]; [done| |done]. intros _ _. destruct (Z.eqb_spec b 0) as [->|]; [by intros [= <-]|].
    destruct (Z.eqb_spec b 1) as [->|]; [by intros [= <-]|done].
  - destruct src as [|b]; cbn; [lia|]. intros _. destruct (b =? 0), (b =? 1); eauto.
Defined.

#[export] Instance unit_marshal : Marshal unit := {| PAYLOAD_BYTES := 0; marshal _ dst := Ok dst; unmarshal _ := Ok tt |}.

#[export, refine] Instance unit_laws : MarshalLaws unit := {| valid (_ : unit) := True; bytes (_ : unit) := [] |}.
Proof.
  all: cbn; intros *; try done; try (intros; lia).
  - by destruct v.
  - intros ->%nil_length_inv _ _. done.
  - eauto.
Defined.

(** * Arrays and pairs *)

Definition array (n : nat) (T : Type) : Type := list T.
#[global] Typeclasses Opaque array.

Section array.
Context {T : Type} `{MarshalLaws T}.
Abbreviation w := (PAYLOAD_BYTES T).

(** The loop of [marshal] from element [i] on: each element is given its part
    of the buffer, and a part past the end panics. *)
Fixpoint marshal_items (i : nat) (items : list T) (dst : list Z) : res MarshalError (list Z) :=
  match items with
  | [] => Ok dst
  | v :: items =>
      if (length dst <? i * w + w)%nat then Panic
      else s ← marshal v (take w (drop (i * w) dst));
           marshal_items (S i) items (take (i * w) dst ++ s ++ drop (i * w + w) dst)
  end.

Fixpoint unmarshal_items (i n : nat) (src : list Z) : res MarshalError (list T) :=
  match n with
  | O => Ok []
  | S n => v ← unmarshal (take w (drop (i * w) src)); vs ← unmarshal_items (S i) n src; Ok (v :: vs)
  end.

#[export] Instance array_marshal n : Marshal (array n T) := {|
  PAYLOAD_BYTES := w * n;
  marshal (v : list T) dst := marshal_items 0 v dst;
  unmarshal src := if (length src <? w * n)%nat then Err (ShortBuffer (w * n) (length src)) else unmarshal_items 0 n src |}.

Definition bytes_of (vs : list T) : list Z := concat (bytes <$> vs).

Lemma length_bytes_of vs : Forall valid vs → length (bytes_of vs) = (w * length vs)%nat.
Proof. unfold bytes_of. induction 1 as [|v vs Hv _ IH]; cbn; [lia|]. rewrite length_app, IH, bytes_length by done. lia. Qed.

Lemma overwrite_all v s : valid v → length s = w → overwrite (bytes v) s = bytes v.
Proof. intros Hv Hl. unfold overwrite. rewrite drop_ge, app_nil_r; [done|]. rewrite bytes_length by done. lia. Qed.

Lemma marshal_items_ok i vs dst :
  Forall valid vs → ((i + length vs) * w ≤ length dst)%nat →
  marshal_items i vs dst = Ok (take (i * w) dst ++ bytes_of vs ++ drop ((i + length vs) * w) dst).
Proof.
  intros Hv. revert i dst. induction Hv as [|v vs Hv Hvs IH]; intros i dst Hl; cbn [marshal_items length] in *.
  { unfold bytes_of. cbn. by rewrite Nat.add_0_r, take_drop. }
  rewrite (proj2 (Nat.ltb_ge _ _)) by nia. rewrite marshal_writes by (done || (rewrite length_take, length_drop; nia)). cbn.
  rewrite overwrite_all by (done || (rewrite length_take, length_drop; nia)). pose proof (bytes_length v Hv) as Hb.
  assert (length (take (i * w) dst) = i * w)%nat as Ht by (rewrite length_take; nia).
  rewrite IH by (rewrite !length_app, length_drop, Ht, Hb; nia). f_equal. change (bytes_of (v :: vs)) with (bytes v ++ bytes_of vs).
  assert (length (take (i * w) dst ++ bytes v) = S i * w)%nat as Hab by (rewrite length_app; nia).
  assert (∀ n, drop (S i * w + n) (take (i * w) dst ++ bytes v ++ drop (i * w + w) dst) = drop (S i * w + n) dst) as Hd.
  { intros n. rewrite (assoc_L (++)), <- Hab, drop_app_add', drop_drop by done. f_equal. lia. }
  rewrite <- !(assoc_L (++)), Nat.mul_add_distr_r, Hd, (assoc_L (++) (take _ dst)), take_app_length' by done. rewrite <- !(assoc_L (++)).
  do 4 f_equal. nia.
Qed.

Lemma marshal_items_short i vs dst :
  Forall valid vs → (i * w ≤ length dst < (i + length vs) * w)%nat → marshal_items i vs dst = Panic.
Proof.
  intros Hv. revert i dst. induction Hv as [|v vs Hv Hvs IH]; intros i dst Hl; cbn [marshal_items length] in *; [lia|].
  destruct (Nat.ltb_spec (length dst) (i * w + w)); [done|]. rewrite marshal_writes by (done || (rewrite length_take, length_drop; nia)). cbn.
  rewrite overwrite_all by (done || (rewrite length_take, length_drop; nia)). apply IH. rewrite !length_app, length_take, length_drop, bytes_length by done. nia.
Qed.

Lemma unmarshal_items_part i n src m :
  ((i + n) * w ≤ m)%nat → unmarshal_items i n (take m src) = unmarshal_items i n src.
Proof.
  revert i. induction n as [|n IH]; intros i Hm; cbn [unmarshal_items]; [done|].
  rewrite IH by lia. do 2 f_equal. rewrite !take_drop_commute, take_take. do 2 f_equal. nia.
Qed.

Lemma unmarshal_items_bytes i vs pre :
  Forall valid vs → length pre = (i * w)%nat → unmarshal_items i (length vs) (pre ++ bytes_of vs) = Ok vs.
Proof.
  intros Hv. revert i pre. induction Hv as [|v vs Hv Hvs IH]; intros i pre Hl; cbn [unmarshal_items length]; [done|]. pose proof (bytes_length v Hv) as Hb.
  rewrite drop_app_length' by lia. unfold bytes_of. cbn. rewrite take_app_length' by done. rewrite unmarshal_bytes by done. cbn.
  rewrite (assoc_L (++)). fold (bytes_of vs). rewrite IH; [done|]. rewrite length_app. nia.
Qed.

Lemma unmarshal_items_only i n src vs :
  ((i + n) * w ≤ length src)%nat → Forall byte_range src → unmarshal_items i n src = Ok vs →
  length vs = n ∧ Forall valid vs ∧ bytes_of vs = take (n * w) (drop (i * w) src).
Proof.
  intros Hl Hr. revert i vs Hl. induction n as [|n IH]; intros i vs Hl; cbn [unmarshal_items]; [by intros [= <-]|].
  intros (v & Hv & (vs' & Hvs & [= <-])%bind_ok)%bind_ok. destruct (IH (S i) vs' ltac:(lia) Hvs) as (Hn & Hval & Hb).
  destruct (unmarshal_only (take w (drop (i * w) src)) v ltac:(rewrite length_take, length_drop; nia) (Forall_take _ _ _ (Forall_drop _ _ _ Hr)) Hv) as [Hval1 Hb1].
  split; [cbn; lia|]. split; [by constructor|]. change (bytes_of (v :: vs')) with (bytes v ++ bytes_of vs').
  rewrite Hb, Hb1. replace (S i * w)%nat with (i * w + w)%nat by lia. rewrite <- drop_drop. apply take_take_drop.
Qed.

Lemma unmarshal_items_total i n src :
  ((i + n) * w ≤ length src)%nat → (∃ vs, unmarshal_items i n src = Ok vs) ∨ unmarshal_items i n src = Err InvalidEncoding.
Proof.
  revert i. induction n as [|n IH]; intros i Hl; cbn [unmarshal_items]; [eauto|].
  destruct (unmarshal_total (T := T) (take w (drop (i * w) src))) as [ [v ->]| ->]; [rewrite length_take, length_drop; nia|cbn|by right].
  destruct (IH (S i)) as [ [vs ->]| ->]; [lia|cbn; eauto|by right].
Qed.

#[export, refine] Instance array_laws n : MarshalLaws (array n T) :=
  {| valid (vs : list T) := length vs = n ∧ Forall valid vs; bytes (vs : list T) := bytes_of vs |}.
Proof.
  all: cbn -[Nat.ltb Nat.mul]; intros *.
  - intros [<- Hv]. by apply length_bytes_of.
  - intros [_ Hv]. unfold bytes_of. apply Forall_concat, Forall_fmap. eapply Forall_impl; [done|]. intros x Hx. by apply bytes_range.
  - intros [<- Hv] Hl. rewrite marshal_items_ok by (done || lia). unfold overwrite. rewrite length_bytes_of by done.
    by replace ((0 + length v) * w)%nat with (w * length v)%nat by lia.
  - intros [<- Hv] Hl. apply marshal_items_short; [done|lia].
  - intros Hl. by rewrite (proj2 (Nat.ltb_lt _ _) Hl).
  - intros Hl. rewrite (proj2 (Nat.ltb_ge _ _) Hl), (proj2 (Nat.ltb_ge _ _)) by (rewrite length_take; lia). by rewrite unmarshal_items_part by lia.
  - intros [<- Hv]. rewrite length_bytes_of, Nat.ltb_irrefl by done. by apply (unmarshal_items_bytes 0 v []).
  - intros Hl Hr. rewrite Hl, Nat.ltb_irrefl. intros Hu. destruct (unmarshal_items_only 0 n src v ltac:(lia) Hr Hu) as (Hn & Hv & Hb).
    split; [done|]. rewrite Hb, drop_0. apply take_ge. lia.
  - intros Hl. rewrite (proj2 (Nat.ltb_ge _ _) Hl). apply unmarshal_items_total. lia.
Defined.
End array.

Section pair.
Context {A B : Type} `{MarshalLaws A} `{MarshalLaws B}.
Abbreviation wa := (PAYLOAD_BYTES A).
Abbreviation wb := (PAYLOAD_BYTES B).

#[export] Instance pair_marshal : Marshal (A * B) := {|
  PAYLOAD_BYTES := wa + wb;
  marshal v dst :=
    if (length dst <? wa)%nat then Panic
    else
      s ← marshal v.1 (take wa dst);
      let dst := s ++ drop wa dst in
      if (length dst <? wa + wb)%nat then Panic
      else s ← marshal v.2 (take wb (drop wa dst)); Ok (take wa dst ++ s ++ drop (wa + wb) dst);
  unmarshal src :=
    if (length src <? wa + wb)%nat then Err (ShortBuffer (wa + wb) (length src))
    else a ← unmarshal (take wa src); b ← unmarshal (take wb (drop wa src)); Ok (a, b) |}.

#[export, refine] Instance pair_laws : MarshalLaws (A * B) :=
  {| valid (v : A * B) := valid v.1 ∧ valid v.2; bytes (v : A * B) := bytes v.1 ++ bytes v.2 |}.
Proof.
  all: cbn -[Nat.ltb]; intros *.
  - intros [Ha Hb]. by rewrite length_app, !bytes_length.
  - intros [Ha Hb]. apply Forall_app. split; by apply bytes_range.
  - destruct v as [a b]. cbn -[Nat.ltb]. intros [Ha Hb] Hl. rewrite (proj2 (Nat.ltb_ge _ _)) by lia. pose proof (bytes_length a Ha) as La. pose proof (bytes_length b Hb) as Lb.
    rewrite marshal_writes by (done || (rewrite length_take; lia)). cbn -[Nat.ltb]. rewrite overwrite_all by (done || (rewrite length_take; lia)).
    rewrite (proj2 (Nat.ltb_ge _ _)) by (rewrite length_app, length_drop; lia).
    rewrite (drop_app_length' (bytes a) _ wa), (take_app_length' (bytes a) _ wa) by lia. rewrite marshal_writes by (done || (rewrite length_take, length_drop; lia)). cbn.
    rewrite overwrite_all by (done || (rewrite length_take, length_drop; lia)). f_equal. unfold overwrite.
    rewrite <- (assoc_L (++)), length_app, La, Lb. do 2 f_equal. rewrite <- La at 1. rewrite drop_app_add, drop_drop. done.
  - destruct v as [a b]. cbn -[Nat.ltb]. intros [Ha Hb] Hl. destruct (Nat.ltb_spec (length dst) wa); [done|].
    rewrite marshal_writes by (done || (rewrite length_take; lia)). cbn -[Nat.ltb]. rewrite overwrite_all by (done || (rewrite length_take; lia)).
    by rewrite (proj2 (Nat.ltb_lt _ _)) by (rewrite length_app, length_drop, bytes_length by done; lia).
  - intros Hl. by rewrite (proj2 (Nat.ltb_lt _ _) Hl).
  - intros Hl. rewrite (proj2 (Nat.ltb_ge _ _) Hl), (proj2 (Nat.ltb_ge _ _)) by (rewrite length_take; lia).
    rewrite take_take, Nat.min_l by lia. by rewrite <- take_drop_commute, take_take, Nat.min_id.
  - destruct v as [a b]. cbn -[Nat.ltb]. intros [Ha Hb]. pose proof (bytes_length a Ha) as La. pose proof (bytes_length b Hb) as Lb.
    rewrite length_app, La, Lb, Nat.ltb_irrefl, take_app_length', drop_app_length', unmarshal_bytes by done. cbn.
    rewrite take_ge by lia. by rewrite unmarshal_bytes.
  - intros Hl Hr. rewrite Hl, Nat.ltb_irrefl. intros (a & Ha & (b & Hb & [= <-])%bind_ok)%bind_ok. cbn.
    destruct (unmarshal_only (take wa src) a ltac:(rewrite length_take; lia) (Forall_take _ _ _ Hr) Ha) as [Va Ea].
    destruct (unmarshal_only (take wb (drop wa src)) b ltac:(rewrite length_take, length_drop; lia) (Forall_take _ _ _ (Forall_drop _ _ _ Hr)) Hb) as [Vb Eb].
    split; [done|]. rewrite Ea, Eb, take_take_drop. by rewrite take_ge by lia.
  - intros Hl. rewrite (proj2 (Nat.ltb_ge _ _) Hl).
    destruct (unmarshal_total (T := A) (take wa src)) as [ [a ->]| ->]; [rewrite length_take; lia|cbn|by right].
    destruct (unmarshal_total (T := B) (take wb (drop wa src))) as [ [b ->]| ->]; [rewrite length_take, length_drop; lia|cbn; eauto|by right].
Defined.
End pair.

(** * Every provided type *)

Inductive ty := Uint (n : nat) | Sint (n : nat) | Bool | Unit | Array (n : nat) (t : ty) | Pair (a b : ty).

Fixpoint sem (t : ty) : Type :=
  match t with
  | Uint n => uint n | Sint n => sint (S n) | Bool => bool | Unit => unit
  | Array n t => array n (sem t) | Pair a b => sem a * sem b
  end.

(** The impls the trait resolution composes for a type. *)
Fixpoint impls (t : ty) : { m : Marshal (sem t) & MarshalLaws (sem t) } :=
  match t with
  | Uint n => existT _ (uint_laws n)
  | Sint n => existT _ (sint_laws n)
  | Bool => existT _ bool_laws
  | Unit => existT _ unit_laws
  | Array n t => let 'existT _ l := impls t in existT _ (array_laws n)
  | Pair a b => let 'existT _ la := impls a in let 'existT _ lb := impls b in existT _ pair_laws
  end.
#[export] Instance sem_marshal t : Marshal (sem t) := projT1 (impls t).
#[export] Instance sem_laws t : MarshalLaws (sem t) := projT2 (impls t).

(** C29: every type built from the integers, floats (as their bits), [bool], [()],
    arrays and pairs keeps the contract of [Marshal]. Into a buffer that is long
    enough [marshal] writes its first [PAYLOAD_BYTES] bytes and no other, and
    [unmarshal] of the buffer returns the value; into a shorter one it panics. And
    [unmarshal] panics for no buffer, reports how many bytes are missing, and when
    it returns a value of some bytes, marshalling it leaves those bytes. *)
Theorem marshal_round_trip (t : ty) (v : sem t) (buf : list Z) :
  let n := PAYLOAD_BYTES (sem t) in
  (valid v → match marshal v buf with
             | Ok out => (n ≤ length buf)%nat ∧ length out = length buf ∧ drop n out = drop n buf ∧ unmarshal out = Ok v
             | Err _ => False
             | Panic => (length buf < n)%nat
             end) ∧
  match unmarshal (T := sem t) buf with
  | Ok x => (n ≤ length buf)%nat ∧ (Forall byte_range buf → valid x ∧ marshal x buf = Ok buf)
  | Err (ShortBuffer expected got) => expected = n ∧ got = length buf ∧ (got < n)%nat
  | Err InvalidEncoding => (n ≤ length buf)%nat
  | Panic => False
  end.
Proof.
  cbn. split.
  - intros Hv. destruct (Nat.le_gt_cases (PAYLOAD_BYTES (sem t)) (length buf)) as [Hl|Hl]; [|by rewrite marshal_short].
    pose proof (bytes_length v Hv) as Hb. rewrite marshal_writes by done. split; [done|]. split; [by apply length_overwrite; lia|].
    unfold overwrite. rewrite drop_app_length', Hb by done. split; [done|]. rewrite unmarshal_reads by (rewrite length_app; lia).
    rewrite take_app_length' by done. by apply unmarshal_bytes.
  - destruct (Nat.le_gt_cases (PAYLOAD_BYTES (sem t)) (length buf)) as [Hl|Hl]; [|by rewrite unmarshal_short by done].
    destruct (unmarshal_total (T := sem t) buf Hl) as [ [x E]| ->]; [rewrite E|done].
    split; [done|]. intros Hr. rewrite unmarshal_reads in E by done.
    destruct (unmarshal_only (take (PAYLOAD_BYTES (sem t)) buf) x ltac:(rewrite length_take; lia) (Forall_take _ _ _ Hr) E) as [Hv Hb]. split; [done|].
    rewrite marshal_writes, Hb by done. unfold overwrite. rewrite length_take, Nat.min_l by lia. by rewrite take_drop.
Qed.

Lemma marshal_round_trip_witness :
  let t := Pair (Uint 4) (Array 2 (Pair Bool (Sint 0))) in
  let v : sem t := (3405691582, [(true, -1); (false, 5)]) in
  match marshal v (replicate 9 7) with Ok out => length out = 9%nat ∧ unmarshal out = Ok v | _ => False end.
Proof.
  intros t v. assert (valid v) as Hv by (cbn; repeat constructor; cbn; lia).
  pose proof (proj1 (marshal_round_trip t v (replicate 9 7)) Hv) as Hm. destruct (marshal v (replicate 9 7)) as [out| |]; [|exact Hm|cbn in Hm; lia].
  destruct Hm as (_ & Hl & _ & Hu). split; [exact Hl|exact Hu].
Defined.
