(* ===== verification/Deque.v ===== *)
(** The work-stealing deque: crates/subetha-cxc/src/shared_deque.rs.

    The owner pushes and pops at the bottom, thieves steal at the top. [ostep] and
    [tstep] cut the calls into their accesses; the bytes of a slot are written
    and read one at a time and in any order, which the argument [k] picks, so
    that a thief can read a slot while it is written. Prefetches have no effect,
    and flushing is left out. *)
From stdpp Require Import list.
From S2P Require Import Prelude Marshal.

Definition DEQUE_MAGIC : Z := 0x5744_4551_0000_0001.

Inductive DequeError :=
| Io | InvalidCapacity | InvalidMagic | CapacityMismatch (file_capacity requested : Z)
| SlotBytesMismatch (file_slot_bytes type_slot_bytes : Z) | Full | EMarshal (e : MarshalError).

Record DequeHeader := {
  magic : Z; hcapacity : Z; slot_bytes : Z; alignment : Z; owner_pid : Z; htop : Z; hbottom : Z; hepoch : Z; layout_tag : Z }.

Definition HEADER_SIZE : Z := 64.

(** [raw] rounded up to a multiple of eight, and at least eight. *)
Definition slot_bytes_for (raw : nat) : Z :=
  let rounded := Z.land (u64 (Z.of_nat raw + 7)) (2 ^ 64 - 8) in
  u32 (if rounded <? 8 then 8 else rounded).

Definition deque_file_size (raw : nat) (capacity : Z) : Z := u64 (HEADER_SIZE + u64 (capacity * slot_bytes_for raw)).

Section deque.
Context {T : Type} `{MarshalLaws T} (align pid : Z).

(** The header, and the length of the mapping it is written into: a mapping
    shorter than the header is faulted on. *)
Definition create (capacity : Z) : res DequeError (DequeHeader * Z) :=
  if (capacity =? 0) || negb (is_power_of_two capacity) then Err InvalidCapacity
  else
    let slot_bytes := slot_bytes_for (PAYLOAD_BYTES T) in
    let total := u64 (HEADER_SIZE + u64 (capacity * slot_bytes)) in
    _ ← assert_ (HEADER_SIZE <=? total);
    Ok ({| magic := DEQUE_MAGIC; hcapacity := capacity; slot_bytes := slot_bytes; alignment := align;
           owner_pid := pid; htop := 0; hbottom := 0; hepoch := 0; layout_tag := 0 |}, total).

(** The slots a mapping of [len] bytes has room for. *)
Definition mapped_slots (h : DequeHeader) (len : Z) : nat := Z.to_nat ((len - HEADER_SIZE) / slot_bytes h).

Definition open_as_thief (h : DequeHeader) : res DequeError (Z * Z) :=
  if negb (magic h =? DEQUE_MAGIC) then Err InvalidMagic
  else if negb (slot_bytes h =? slot_bytes_for (PAYLOAD_BYTES T)) then Err (SlotBytesMismatch (slot_bytes h) (slot_bytes_for (PAYLOAD_BYTES T)))
  else Ok (hcapacity h, slot_bytes h).

(** * The calls an access at a time *)

(** The words and bytes the calls touch. *)
Record deque := { top : Z; bottom : Z; slots : list (list Z) }.

Definition i64 (x : Z) : Z := to_i64 (u64 x).

Definition approx_len (m : deque) : Z := Z.max (i64 (bottom m - top m)) 0.

Definition slot_of (capacity : Z) (b : Z) : nat := Z.to_nat (Z.land (u64 b) (capacity - 1)).

Definition set_top (x : Z) (m : deque) : deque := {| top := x; bottom := bottom m; slots := slots m |}.
Definition set_bottom (x : Z) (m : deque) : deque := {| top := top m; bottom := x; slots := slots m |}.
Definition write_byte (i o : nat) (x : Z) (m : deque) : deque :=
  {| top := top m; bottom := bottom m; slots := alter (<[o := x]>) i (slots m) |}.

(** What [marshal] writes into a slot; [PushBatchWith] takes the bytes its
    closure leaves in the slots. *)
Definition image (v : T) : list Z := match marshal v (replicate (PAYLOAD_BYTES T) 0) with Ok bs => bs | _ => [] end.

Inductive call := Push (v : T) | PushBatch (vs : list T) | PushBatchWith (ws : list (list Z)) | Pop.

Definition images (c : call) : list (list Z) :=
  match c with Push v => [image v] | PushBatch vs => image <$> vs | PushBatchWith ws => ws | Pop => [] end.

Inductive event :=
| Tau | Pushed (ws : list (list Z)) | PushFull (n : nat) | Popped (r : option T) | Stole (v : T) | StealNone | StealLost.

(** Where the owner is: [b] is the bottom it has loaded or lowered, [t] the top
    it has loaded. *)
Inductive owner :=
| OIdle
| PushTop (c : call) (b : Z)
| Copy (b : Z) (ws : list (list Z)) (todo : list (nat * nat * Z))
| PopStore (b : Z)
| PopTop (b : Z)
| PopRead (b t : Z) (got : list (option Z))
| PopCas (b t : Z) (v : T)
| PopBack (b : Z).

(** The byte writes of a push: slot, offset, byte. *)
Definition writes (ws : list (list Z)) : list (nat * nat * Z) :=
  concat (imap (λ i w, imap (λ o x, (i, o, x)) w) ws).

Definition full (capacity : Z) (c : call) (b t : Z) : bool :=
  match c with
  | Push _ => capacity <=? i64 (b - t)
  | _ => capacity <? i64 (i64 (b - t) + Z.of_nat (length (images c)))
  end.

(** The first access of a call, the load of the bottom; an empty batch returns
    at once. *)
Definition begin (c : call) (m : deque) : owner * event :=
  match c with
  | Pop => (PopStore (i64 (bottom m - 1)), Tau)
  | _ => if (length (images c) =? 0)%nat then (OIdle, Pushed []) else (PushTop c (bottom m), Tau)
  end.

Definition ostep (capacity : Z) (k : nat) (m : deque) (o : owner) : option (deque * owner * event) :=
  match o with
  | OIdle => None
  | PushTop c b =>
      Some (if full capacity c b (top m) then (m, OIdle, PushFull (length (images c)))
            else (m, Copy b (images c) (writes (images c)), Tau))
  | Copy b ws [] => Some (set_bottom (i64 (b + Z.of_nat (length ws))) m, OIdle, Pushed ws)
  | Copy b ws todo =>
      '(i, o, x) ← todo !! k;
      Some (write_byte (slot_of capacity (i64 (b + Z.of_nat i))) o x m, Copy b ws (delete k todo), Tau)
  | PopStore b => Some (set_bottom b m, PopTop b, Tau)
  | PopTop b =>
      Some (if b <? top m then (m, PopBack b, Popped None)
            else (m, PopRead b (top m) (replicate (PAYLOAD_BYTES T) None), Tau))
  | PopRead b t got =>
      match mapM id got with
      | Some bs =>
          Some (match unmarshal bs with
                | Ok v => if t <? b then (m, OIdle, Popped (Some v)) else (m, PopCas b t v, Tau)
                | _ => (m, OIdle, Popped None)
                end)
      | None => s ← slots m !! slot_of capacity b; x ← s !! k; Some (m, PopRead b t (<[k := Some x]> got), Tau)
      end
  | PopCas b t v =>
      Some (if top m =? t then (set_top (i64 (t + 1)) m, PopBack b, Popped (Some v)) else (m, PopBack b, Popped None))
  | PopBack b => Some (set_bottom (i64 (b + 1)) m, OIdle, Tau)
  end.

Inductive thief := TIdle | StealBottom (t : Z) | StealRead (t : Z) (got : list (option Z)) | StealCas (t : Z) (v : T).

Definition tstep (capacity : Z) (k : nat) (m : deque) (th : thief) : option (deque * thief * event) :=
  match th with
  | TIdle => Some (m, StealBottom (top m), Tau)
  | StealBottom t =>
      Some (if bottom m <=? t then (m, TIdle, StealNone) else (m, StealRead t (replicate (PAYLOAD_BYTES T) None), Tau))
  | StealRead t got =>
      match mapM id got with
      | Some bs => Some (match unmarshal bs with Ok v => (m, StealCas t v, Tau) | _ => (m, TIdle, StealLost) end)
      | None => s ← slots m !! slot_of capacity t; x ← s !! k; Some (m, StealRead t (<[k := Some x]> got), Tau)
      end
  | StealCas t v => Some (if top m =? t then (set_top (i64 (t + 1)) m, TIdle, Stole v) else (m, TIdle, StealLost))
  end.

Record system := { mem : deque; own : owner; thieves : list thief }.

(** One owner, whose calls satisfy [ok], and any number of thieves. *)
Inductive deque_step (capacity : Z) (ok : call → Prop) : system → event → system → Prop :=
| step_call m ths c o ev :
    ok c → begin c m = (o, ev) →
    deque_step capacity ok {| mem := m; own := OIdle; thieves := ths |} ev {| mem := m; own := o; thieves := ths |}
| step_own k m o ths m' o' ev :
    ostep capacity k m o = Some (m', o', ev) →
    deque_step capacity ok {| mem := m; own := o; thieves := ths |} ev {| mem := m'; own := o'; thieves := ths |}
| step_thief k m o a th b m' th' ev :
    tstep capacity k m th = Some (m', th', ev) →
    deque_step capacity ok {| mem := m; own := o; thieves := a ++ th :: b |} ev {| mem := m'; own := o; thieves := a ++ th' :: b |}.

(** A deque just created, its slots as the mapping has them. *)
Definition start (fill : list (list Z)) (n : nat) : system :=
  {| mem := {| top := 0; bottom := 0; slots := fill |}; own := OIdle; thieves := replicate n TIdle |}.

(** * The contract *)

Definition decodes (w : list Z) (v : T) : Prop := unmarshal (take (PAYLOAD_BYTES T) w) = Ok v.

Inductive deque_spec (capacity : nat) : list T → event → list T → Prop :=
| spec_tau q : deque_spec capacity q Tau q
| spec_push q ws vs : Forall2 decodes ws vs → (length q + length vs ≤ capacity)%nat → deque_spec capacity q (Pushed ws) (q ++ vs)
| spec_full q n : (capacity < length q + n)%nat → deque_spec capacity q (PushFull n) q
| spec_pop q v : deque_spec capacity (q ++ [v]) (Popped (Some v)) q
| spec_pop_none : deque_spec capacity [] (Popped None) []
| spec_steal v q : deque_spec capacity (v :: q) (Stole v) q
| spec_steal_none q : (length q ≤ 1)%nat → deque_spec capacity q StealNone q
| spec_lost q : deque_spec capacity q StealLost q.
End deque.

Arguments call : clear implicits.
Arguments owner : clear implicits.
Arguments thief : clear implicits.
Arguments event : clear implicits.
Arguments system : clear implicits.
