(* ===== verification/DequeRefine.v ===== *)
(** The interleaved calls of the work-stealing deque are the operations of one
    deque: every item pushed is popped or stolen once, with the bytes it was
    pushed with. *)
From stdpp Require Import list.
From S2P Require Import Prelude Marshal Deque.

Lemma i64_small x : - 2 ^ 63 ≤ x < 2 ^ 63 → i64 x = x.
Proof.
  intros Hx. unfold i64, to_i64, wrap. destruct (decide (0 ≤ x)).
  - rewrite Z.mod_small by lia. by rewrite (proj2 (Z.ltb_lt _ _)) by lia.
  - rewrite <- (Z.mod_add x 1), Z.mod_small by lia. rewrite (proj2 (Z.ltb_ge _ _)) by lia. lia.
Qed.

Lemma elem_of_writes ws i o x : (i, o, x) ∈ writes ws ↔ ∃ w, ws !! i = Some w ∧ w !! o = Some x.
Proof.
  unfold writes. rewrite list_elem_of_In, in_concat. setoid_rewrite <- list_elem_of_In. split.
  - intros (l & (j & w & -> & Hw)%elem_of_lookup_imap & (o' & x' & [= -> -> ->] & Hx)%elem_of_lookup_imap). eauto.
  - intros (w & Hw & Hx). exists (imap (λ o x, (i, o, x)) w). split; apply elem_of_lookup_imap; eauto.
Qed.

(** ** Positions and slots *)

Section positions.
Context (lg : Z).
Hypothesis Hlg : 0 ≤ lg < 62.
Abbreviation cap := (2 ^ lg).

Lemma cap_pos : 0 < cap ∧ cap ≤ 2 ^ 61.
Proof. split; [apply Z.pow_pos_nonneg; lia|]. apply Z.pow_le_mono_r; lia. Qed.

Lemma slot_of_mod p : 0 ≤ p < 2 ^ 63 → slot_of cap p = Z.to_nat (p mod cap).
Proof. intros Hp. unfold slot_of. by rewrite (wrap_small 64), land_mask_mod by lia. Qed.

Lemma slot_of_lt p : 0 ≤ p < 2 ^ 63 → (slot_of cap p < Z.to_nat cap)%nat.
Proof. intros Hp. pose proof cap_pos. rewrite slot_of_mod by done. pose proof (Z.mod_pos_bound p cap ltac:(lia)). lia. Qed.

Lemma slot_of_inj p p' : 0 ≤ p < 2 ^ 63 → 0 ≤ p' < 2 ^ 63 → - cap < p - p' < cap → slot_of cap p = slot_of cap p' → p = p'.
Proof.
  intros Hp Hp' Hd. pose proof cap_pos. rewrite !slot_of_mod by done. pose proof (Z.mod_pos_bound p cap ltac:(lia)).
  pose proof (Z.mod_pos_bound p' cap ltac:(lia)). intros E. apply (mod_window_inj cap); lia.
Qed.

End positions.

(** ** The invariant *)

(** The slots are two to the [lg], of [sb] bytes each. *)
Section refine.
Context {T : Type} `{MarshalLaws T} (lg : Z) (sb : nat).
Hypotheses (Hlg : 0 ≤ lg < 62) (Hsb : (PAYLOAD_BYTES T ≤ sb)%nat).
Abbreviation cap := (2 ^ lg).
Abbreviation w := (PAYLOAD_BYTES T).

(** A word a push may write: it decodes, and fits the slot. *)
Definition encodes (ws : list Z) : Prop := (w ≤ length ws ≤ sb)%nat ∧ ∃ v : T, decodes ws v.

(** The calls of an owner that keeps to the contract. *)
Definition sound (c : call T) : Prop :=
  match c with
  | Push v => valid v
  | PushBatch vs => Forall valid vs ∧ Z.of_nat (length vs) < 2 ^ 62
  | PushBatchWith ws => Forall encodes ws ∧ Z.of_nat (length ws) < 2 ^ 62
  | Pop => True
  end.

Definition holds (m : deque) (p : Z) (v : T) : Prop := ∃ s, slots m !! slot_of cap p = Some s ∧ decodes s v.

(** What has been read of the slot of position [p] is what is in it. *)
Definition saw (m : deque) (p : Z) (got : list (option Z)) : Prop :=
  ∃ s, slots m !! slot_of cap p = Some s ∧ ∀ j x, got !! j = Some (Some x) → s !! j = Some x.

(** Every byte of the words is still to be written or is in its slot. *)
Record written (m : deque) (b : Z) (ws : list (list Z)) (todo : list (nat * nat * Z)) : Prop := {
  wr_todo : ∀ i o x, (i, o, x) ∈ todo → ∃ wd, ws !! i = Some wd ∧ wd !! o = Some x;
  wr_done : ∀ i o x wd, ws !! i = Some wd → wd !! o = Some x →
    (i, o, x) ∈ todo ∨ ∃ s, slots m !! slot_of cap (b + Z.of_nat i) = Some s ∧ s !! o = Some x }.

Definition owner_inv (m : deque) (q : list T) (o : owner T) : Prop :=
  let hb := top m + Z.of_nat (length q) in
  match o with
  | OIdle => bottom m = hb
  | PushTop c b => bottom m = hb ∧ b = hb ∧ Forall encodes (images c) ∧ Z.of_nat (length (images c)) < 2 ^ 62 ∧ c ≠ Pop
  | Copy b ws todo => bottom m = hb ∧ b = hb ∧ Forall encodes ws ∧ Z.of_nat (length q + length ws) ≤ cap ∧ written m b ws todo
  | PopStore b => bottom m = hb ∧ b = hb - 1
  | PopTop b => bottom m = b ∧ b = hb - 1
  | PopRead b t got =>
      bottom m = b ∧ b = hb - 1 ∧ 0 ≤ t ≤ top m ∧ t ≤ b ∧ (t < b → top m ≤ b) ∧ length got = w ∧ (∃ v, holds m b v) ∧ saw m b got
  | PopCas b t v => bottom m = b ∧ b = hb - 1 ∧ t = b ∧ t ≤ top m ∧ holds m b v
  | PopBack b => bottom m = b ∧ b = hb - 1 ∧ q = []
  end.

(** The positions from here on are not the thieves': the owner has taken the last
    item once it has seen another above it. *)
Definition limit (hb : Z) (o : owner T) : Z := match o with PopRead b t _ => if t <? b then b else hb | _ => hb end.

Definition thief_inv (m : deque) (lim : Z) (th : thief T) : Prop :=
  match th with
  | TIdle => True
  | StealBottom t => 0 ≤ t ≤ top m
  | StealRead t got => 0 ≤ t ≤ top m ∧ length got = w ∧ (top m = t → t < lim ∧ saw m t got)
  | StealCas t v => 0 ≤ t ≤ top m ∧ (top m = t → t < lim ∧ holds m t v)
  end.

(** [total] items have been pushed, and [q] are there. *)
Record deque_inv (total : Z) (s : system T) (q : list T) : Prop := {
  di_slots : length (slots (mem s)) = Z.to_nat cap ∧ Forall (λ x, length x = sb) (slots (mem s));
  di_top : 0 ≤ top (mem s) ∧ top (mem s) + Z.of_nat (length q) ≤ total;
  di_len : Z.of_nat (length q) ≤ cap;
  di_items : ∀ j v, q !! j = Some v → holds (mem s) (top (mem s) + Z.of_nat j) v;
  di_owner : owner_inv (mem s) q (own s);
  di_thieves : Forall (thief_inv (mem s) (limit (top (mem s) + Z.of_nat (length q)) (own s))) (thieves s) }.

Lemma decodes_det s (v v' : T) : decodes s v → decodes s v' → v = v'.
Proof. unfold decodes. intros ->. by intros [= ->]. Qed.

Lemma holds_det m p (v v' : T) : holds m p v → holds m p v' → v = v'.
Proof. intros (s & Hs & Hv) (s' & Hs' & Hv'). rewrite Hs in Hs'. injection Hs' as <-. by eapply decodes_det. Qed.

(** A slot read to the end holds what was read. *)
Lemma saw_all m p got bs :
  saw m p got → mapM id got = Some bs → length got = w → ∃ s, slots m !! slot_of cap p = Some s ∧ take w s = bs.
Proof.
  intros (s & Hs & Hg) Hb Hl. exists s. split; [done|]. apply mapM_Some in Hb.
  pose proof (Forall2_length _ _ _ Hb) as El. apply list_eq. intros j. destruct (decide (j < w)%nat) as [Hj|Hj].
  - destruct (lookup_lt_is_Some_2 got j ltac:(lia)) as [g Eg]. destruct (Forall2_lookup_l _ _ _ _ _ Hb Eg) as (x & Ex & Hx). cbn in Hx. subst g.
    rewrite Ex, lookup_take_lt by done. by apply Hg.
  - rewrite lookup_take_ge, lookup_ge_None_2; [done|lia|lia].
Qed.

Lemma slot_some s total q p :
  deque_inv total s q → 0 ≤ p < 2 ^ 63 → ∃ sl, slots (mem s) !! slot_of cap p = Some sl ∧ length sl = sb.
Proof.
  intros [ [Hl Hf] _ _ _ _ _] Hp. destruct (lookup_lt_is_Some_2 (slots (mem s)) (slot_of cap p)) as [sl Es]; [rewrite Hl; by apply slot_of_lt|].
  exists sl. split; [done|]. rewrite Forall_lookup in Hf. by eapply Hf.
Qed.

Lemma saw_none m p s n : slots m !! slot_of cap p = Some s → saw m p (replicate n None).
Proof. intros Hs. exists s. split; [done|]. by intros j x [ [=] _]%lookup_replicate. Qed.

Lemma saw_insert m p got k s x : saw m p got → slots m !! slot_of cap p = Some s → s !! k = Some x → saw m p (<[k := Some x]> got).
Proof.
  intros (s' & Hs' & Hg) Hs Hx. rewrite Hs in Hs'. injection Hs' as <-. exists s. split; [done|]. intros j y.
  destruct (decide (j = k)) as [->|Hne]; [|rewrite list_lookup_insert_ne by done; apply Hg].
  intros Hl. assert (k < length got)%nat by (apply lookup_lt_Some in Hl; rewrite length_insert in Hl; lia). rewrite list_lookup_insert_eq in Hl by done. congruence.
Qed.

(** ** Frames *)

Lemma inv_total total s q : deque_inv total s q → total < 2 ^ 63 → 0 ≤ top (mem s) ∧ top (mem s) + Z.of_nat (length q) < 2 ^ 63 ∧ 0 ≤ total.
Proof. intros [_ ? _ _ _ _] ?. lia. Qed.

Lemma thief_inv_mono m lim lim' th : lim ≤ lim' → thief_inv m lim th → thief_inv m lim' th.
Proof.
  intros Hl. destruct th as [|t|t got|t v]; cbn; [done|done| |].
  - intros (Ht & Hg & Hi). split_and!; [lia|lia|done|]. intros E. destruct (Hi E). split; [lia|done].
  - intros (Ht & Hi). split_and!; [lia|lia|]. intros E. destruct (Hi E). split; [lia|done].
Qed.

(** The thieves look at the slot of the top only. *)
Lemma thief_inv_slots m m' lim th :
  top m' = top m → (top m < lim → slots m' !! slot_of cap (top m) = slots m !! slot_of cap (top m)) →
  thief_inv m lim th → thief_inv m' lim th.
Proof.
  intros Et Es. destruct th as [|t|t got|t v]; cbn; rewrite ?Et; [done|done| |].
  - intros (Ht & Hg & Hi). split_and!; [lia|lia|done|]. intros E. destruct (Hi E) as [Hlt Hs]. split; [done|]. subst t. unfold saw. by rewrite Es.
  - intros (Ht & Hi). split_and!; [lia|lia|]. intros E. destruct (Hi E) as [Hlt Hs]. split; [done|]. subst t. unfold holds. by rewrite Es.
Qed.

(** The owner goes on, and the memory stays but for the bottom. *)
Lemma inv_owner total m o ths q m' o' :
  deque_inv total {| mem := m; own := o; thieves := ths |} q → top m' = top m → slots m' = slots m → owner_inv m' q o' →
  (∀ hb, hb = top m + Z.of_nat (length q) → limit hb o ≤ limit hb o' ∨ (∃ b, limit hb o' = b ∧ top m < b)) →
  deque_inv total {| mem := m'; own := o'; thieves := ths |} q.
Proof.
  intros [I1 I2 I3 I4 I5 I6] Et Es Ho Hlim. cbn in *. split; cbn; rewrite ?Es, ?Et; try done.
  - intros j v Hj. unfold holds. rewrite Es. by apply I4.
  - eapply Forall_impl; [exact I6|]. intros th Hth. destruct (Hlim _ eq_refl) as [Hl|(b & Hb & Hl)].
    + eapply thief_inv_slots; [done|by rewrite Es|]. by eapply thief_inv_mono.
    + rewrite Hb. eapply (thief_inv_slots m); [done|by rewrite Es|]. destruct th as [|t|t got|t v]; cbn in *; [done|done| |].
      * destruct Hth as (? & ? & Hi). split_and!; [lia|lia|done|]. intros E. destruct (Hi E). split; [lia|done].
      * destruct Hth as (? & Hi). split_and!; [lia|lia|]. intros E. destruct (Hi E). split; [lia|done].
Qed.

(** ** The owner's steps *)

Definition pushes (ev : event T) : Z := match ev with Pushed ws => Z.of_nat (length ws) | _ => 0 end.

(** What a step of the owner has to show. *)
Definition simulated total (ths : list (thief T)) q (m' : deque) (o' : owner T) (ev : event T) : Prop :=
  ∃ q', deque_spec (Z.to_nat cap) q ev q' ∧ deque_inv (total + pushes ev) {| mem := m'; own := o'; thieves := ths |} q'.

Lemma push_top_sim total m ths q c b :
  deque_inv total {| mem := m; own := PushTop c b; thieves := ths |} q → total < 2 ^ 63 →
  if full cap c b (top m) then simulated total ths q m OIdle (PushFull (length (images c)))
  else simulated total ths q m (Copy b (images c) (writes (images c))) Tau.
Proof.
  intros Hi Ht. destruct (inv_total _ _ _ Hi Ht) as (T1 & T2 & _). pose proof (di_owner _ _ _ Hi) as Ho. cbn in Ho. destruct Ho as (Hb & -> & He & Hn & Hp). pose proof (di_len _ _ _ Hi) as Hlen.
  cbn in T1, T2, Hb, Hlen. pose proof (cap_pos lg Hlg).
  assert (full cap c (top m + Z.of_nat (length q)) (top m) = (cap <? Z.of_nat (length q) + Z.of_nat (length (images c)))) as ->.
  { unfold full. replace (top m + Z.of_nat (length q) - top m) with (Z.of_nat (length q)) by lia. rewrite (i64_small (Z.of_nat (length q))) by lia.
    destruct c as [v|vs|ws|]; [|by rewrite i64_small by lia..|done].
    apply eq_true_iff_eq. rewrite Z.leb_le, Z.ltb_lt. cbn [images length]. lia. }
  destruct (Z.ltb_spec cap (Z.of_nat (length q) + Z.of_nat (length (images c)))); exists q; cbn; rewrite Z.add_0_r.
  - split; [constructor; lia|]. eapply inv_owner; [exact Hi|done|done|by cbn|]. intros hb _. left. cbn. lia.
  - split; [constructor|]. eapply inv_owner; [exact Hi|done|done| |intros hb _; left; cbn; lia]. cbn. split_and!; try done; [lia|].
    split; [intros i o x; by rewrite elem_of_writes|]. intros i o x wd Hi' Ho. left. apply elem_of_writes. eauto.
Qed.

(** The bytes written, a slot decodes as its word does. *)
Lemma written_holds m b ws i wd v :
  written m b ws [] → ws !! i = Some wd → (w ≤ length wd)%nat → decodes wd v → (∃ s, slots m !! slot_of cap (b + Z.of_nat i) = Some s ∧ (w ≤ length s)%nat) →
  holds m (b + Z.of_nat i) v.
Proof.
  intros [_ Hd] Hw Hl Hv (s & Hs & Hls). exists s. split; [done|]. unfold decodes in *. rewrite <- Hv. f_equal. apply list_eq. intros j.
  destruct (decide (j < w)%nat) as [Hj|Hj]; [|by rewrite !lookup_take_ge by lia]. rewrite !lookup_take_lt by done.
  destruct (lookup_lt_is_Some_2 wd j ltac:(lia)) as [x Hx]. destruct (Hd i j x wd Hw Hx) as [ []%elem_of_nil|(s' & Hs' & Hx')].
  rewrite Hs in Hs'. injection Hs' as <-. congruence.
Qed.

Lemma encodes_all ws : Forall encodes ws → ∃ vs : list T, Forall2 decodes ws vs.
Proof.
  induction 1 as [|wd ws (_ & v & Hv) _ (vs & IH)]; [by exists []|]. exists (v :: vs). by constructor.
Qed.

Lemma copy_done_sim total m ths q b ws :
  deque_inv total {| mem := m; own := Copy b ws []; thieves := ths |} q → total + Z.of_nat (length ws) < 2 ^ 63 →
  simulated total ths q (set_bottom (i64 (b + Z.of_nat (length ws))) m) OIdle (Pushed ws).
Proof.
  intros Hi Ht. destruct (inv_total _ _ _ Hi ltac:(lia)) as (T1 & T2 & _). destruct Hi as [I1 I2 I3 I4 I5 I6] eqn:EI. clear EI. cbn in *.
  destruct I5 as (Hb & -> & He & Hn & Hw). destruct (encodes_all ws He) as (vs & Hvs). pose proof (Forall2_length _ _ _ Hvs) as El.
  rewrite i64_small by lia. exists (q ++ vs). split; [constructor; [done|lia]|]. split; cbn; rewrite ?length_app, <- ?El; try done; try lia.
  - intros j v. rewrite lookup_app. destruct (q !! j) as [v'|] eqn:Ej; [intros [= <-]; by apply I4|]. apply lookup_ge_None in Ej. intros Hv.
    destruct (Forall2_lookup_r _ _ _ _ _ Hvs Hv) as (wd & Hwd & Hdec). rewrite Forall_lookup in He. destruct (He _ _ Hwd) as [Hl _].
    replace (top m + Z.of_nat j) with (top m + Z.of_nat (length q) + Z.of_nat (j - length q)) by lia.
    eapply (written_holds m); [done|done|lia|done|]. destruct (slot_some _ _ _ (top m + Z.of_nat (length q) + Z.of_nat (j - length q)) Hi) as (sl & Hsl & Hl'); [|cbn in Hsl; eauto with lia].
    apply lookup_lt_Some in Hwd. lia.
  - eapply Forall_impl; [exact I6|]. intros th Hth. eapply (thief_inv_slots m); [done|done|]. eapply thief_inv_mono; [|exact Hth]. lia.
Qed.

Lemma copy_byte_sim total m ths q b ws todo k i o x :
  deque_inv total {| mem := m; own := Copy b ws todo; thieves := ths |} q → total < 2 ^ 62 → todo !! k = Some (i, o, x) →
  simulated total ths q (write_byte (slot_of cap (i64 (b + Z.of_nat i))) o x m) (Copy b ws (delete k todo)) Tau.
Proof.
  intros Hi Ht Hk. destruct (inv_total _ _ _ Hi ltac:(lia)) as (T1 & T2 & _). pose proof (cap_pos lg Hlg). destruct Hi as [I1 I2 I3 I4 I5 I6] eqn:EI. clear EI. cbn in *.
  destruct I5 as (Hb & -> & He & Hn & [Wt Wd]). destruct (Wt i o x (list_elem_of_lookup_2 _ _ _ Hk)) as (wd & Hwd & Hx).
  pose proof (lookup_lt_Some _ _ _ Hwd) as Hlt. rewrite i64_small by lia. set (p := top m + Z.of_nat (length q) + Z.of_nat i).
  assert (∀ p', top m ≤ p' < top m + cap → p' ≠ p → slots (write_byte (slot_of cap p) o x m) !! slot_of cap p' = slots m !! slot_of cap p') as Hother.
  { intros p' Hp' Hne. apply list_lookup_alter_ne. intros E. apply Hne. symmetry. apply (slot_of_inj lg Hlg); lia || done. }
  destruct (slot_some _ _ _ p Hi ltac:(lia)) as (sl & Hsl & Hlsl). cbn in Hsl.
  assert (slots (write_byte (slot_of cap p) o x m) !! slot_of cap p = Some (<[o := x]> sl)) as Hsame by (cbn; by rewrite list_lookup_alter_eq, Hsl).
  exists q. cbn. rewrite Z.add_0_r. split; [constructor|]. split; cbn; try done; try lia.
  - destruct I1 as [I1 I1']. split; [by rewrite length_alter|]. apply Forall_alter; [done|]. intros s _ Hs. by rewrite length_insert.
  - intros j v Hj. unfold holds. apply lookup_lt_Some in Hj as Hj'. rewrite Hother by lia. by apply I4.
  - split_and!; try done. split.
    + intros i' o' x' Hin. apply Wt. eapply elem_of_submseteq; [exact Hin|]. apply sublist_submseteq, sublist_delete.
    + intros i' o' x' wd' Hw' Hx'. destruct (decide (i' = i ∧ o' = o)) as [ [-> ->]|Hne].
      { right. exists (<[o := x]> sl). split; [exact Hsame|]. rewrite Hwd in Hw'. injection Hw' as <-. rewrite Hx in Hx'. injection Hx' as <-.
        rewrite list_lookup_insert_eq; [done|]. rewrite Forall_lookup in He. destruct (He _ _ Hwd) as [Hl _]. apply lookup_lt_Some in Hx. lia. }
      destruct (Wd i' o' x' wd' Hw' Hx') as [Hin|(s & Hs & Hxs)].
      * left. apply list_elem_of_lookup in Hin as (k' & Hk'). destruct (decide (k' = k)) as [->|]; [rewrite Hk in Hk'; naive_solver|].
        destruct (decide (k' < k)%nat); apply list_elem_of_lookup; [exists k'; by rewrite list_lookup_delete_lt|exists (k' - 1)%nat].
        rewrite list_lookup_delete_ge by lia. rewrite <- Hk'. f_equal. lia.
      * right. destruct (decide (i' = i)) as [->|Hni].
        { exists (<[o := x]> sl). split; [exact Hsame|]. fold p in Hs. rewrite Hsl in Hs. injection Hs as <-. rewrite list_lookup_insert_ne; [done|naive_solver]. }
        exists s. split; [|done]. apply lookup_lt_Some in Hw'. rewrite <- Hs. apply Hother; lia.
  - eapply Forall_impl; [exact I6|]. intros th Hth. eapply (thief_inv_slots m); [done| |exact Hth]. intros Hlt'. cbn. apply Hother; lia.
Qed.

(** After the top has moved no thief's load is current. *)
Lemma thief_inv_top m m' lim lim' th : top m' = top m + 1 → thief_inv m lim th → thief_inv m' lim' th.
Proof.
  intros Et. destruct th as [|t|t got|t v]; cbn; rewrite ?Et; [done|lia| |].
  - intros (Ht & Hg & _). split_and!; [lia|lia|done|lia].
  - intros (Ht & _). split_and!; lia.
Qed.

Lemma last_item total m o ths q b :
  deque_inv total {| mem := m; own := o; thieves := ths |} q → b = top m + Z.of_nat (length q) - 1 → top m ≤ b →
  ∃ q0 v, q = q0 ++ [v] ∧ holds m b v.
Proof.
  intros [_ _ _ I4 _ _] -> Hb. cbn in I4. destruct q as [|v q0 _] using rev_ind; [cbn in Hb; lia|]. exists q0, v. split; [done|].
  rewrite length_app in *. cbn in *. replace (top m + Z.of_nat (length q0 + 1) - 1) with (top m + Z.of_nat (length q0)) by lia.
  apply I4. by rewrite lookup_app_r, Nat.sub_diag by lia.
Qed.

Lemma pop_store_sim total m ths q b :
  deque_inv total {| mem := m; own := PopStore b; thieves := ths |} q → simulated total ths q (set_bottom b m) (PopTop b) Tau.
Proof.
  intros Hi. pose proof (di_owner _ _ _ Hi) as Ho. cbn in Ho. exists q. cbn. rewrite Z.add_0_r. split; [constructor|].
  eapply inv_owner; [exact Hi|done|done|cbn; lia|]. intros hb _. left. cbn. lia.
Qed.

Lemma pop_top_sim total m ths q b :
  deque_inv total {| mem := m; own := PopTop b; thieves := ths |} q → total < 2 ^ 62 →
  if b <? top m then simulated total ths q m (PopBack b) (Popped None) else simulated total ths q m (PopRead b (top m) (replicate w None)) Tau.
Proof.
  intros Hi Ht. destruct (inv_total _ _ _ Hi ltac:(lia)) as (T1 & T2 & _). pose proof (di_owner _ _ _ Hi) as Ho. cbn in T1, T2, Ho. destruct Ho as [Hb Eb].
  destruct (Z.ltb_spec b (top m)) as [Hlt|Hge]; exists q; cbn; rewrite Z.add_0_r.
  - assert (q = []) as -> by (apply nil_length_inv; lia). split; [constructor|]. eapply inv_owner; [exact Hi|done|done|by cbn|]. intros hb _. left. cbn. lia.
  - split; [constructor|]. destruct (last_item _ _ _ _ _ _ Hi Eb ltac:(lia)) as (q0 & v & Eq & Hv). eapply inv_owner; [exact Hi|done|done| |].
    + cbn. split_and!; try done; try lia; [apply length_replicate|eauto|]. destruct Hv as (s & Hs & _). by eapply saw_none.
    + intros hb ->. cbn. destruct (Z.ltb_spec (top m) b); [right; eauto|left; lia].
Qed.

Lemma pop_read_sim total m ths q b t got bs :
  deque_inv total {| mem := m; own := PopRead b t got; thieves := ths |} q → mapM id got = Some bs →
  ∃ v, unmarshal bs = Ok v ∧
    if t <? b then simulated total ths q m OIdle (Popped (Some v)) else simulated total ths q m (PopCas b t v) Tau.
Proof.
  intros Hi Hbs. pose proof (di_owner _ _ _ Hi) as Ho. cbn in Ho. destruct Ho as (Hb & Eb & Ht & Htb & Htop & Hg & (v & Hv) & Hsaw).
  destruct (saw_all _ _ _ _ Hsaw Hbs Hg) as (s & Hs & <-). exists v. assert (unmarshal (take w s) = Ok v) as Hu.
  { destruct Hv as (s' & Hs' & Hv). rewrite Hs in Hs'. by injection Hs' as <-. }
  split; [done|]. destruct (Z.ltb_spec t b) as [Hlt|Hge].
  - destruct (last_item _ _ _ _ _ _ Hi Eb ltac:(lia)) as (q0 & v' & -> & Hv'). pose proof (holds_det _ _ _ _ Hv Hv') as <-. exists q0. cbn. rewrite Z.add_0_r.
    split; [constructor|]. destruct Hi as [I1 I2 I3 I4 I5 I6]. cbn in *. rewrite length_app in *. cbn in *. split; cbn; try done; try lia.
    + intros j x Hj. apply I4. by apply lookup_app_l_Some.
    + eapply Forall_impl; [exact I6|]. intros th. apply thief_inv_mono. rewrite (proj2 (Z.ltb_lt _ _) Hlt). lia.
  - exists q. cbn. rewrite Z.add_0_r. split; [constructor|]. eapply inv_owner; [exact Hi|done|done|by cbn; split_and!; try lia|].
    intros hb ->. left. cbn. rewrite (proj2 (Z.ltb_ge _ _) Hge). lia.
Qed.

Lemma pop_byte_sim total m ths q b t got k s x :
  deque_inv total {| mem := m; own := PopRead b t got; thieves := ths |} q → slots m !! slot_of cap b = Some s → s !! k = Some x →
  simulated total ths q m (PopRead b t (<[k := Some x]> got)) Tau.
Proof.
  intros Hi Hs Hx. pose proof (di_owner _ _ _ Hi) as Ho. cbn in Ho. destruct Ho as (Hb & Eb & Ht & Htb & Htop & Hg & Hv & Hsaw).
  exists q. cbn. rewrite Z.add_0_r. split; [constructor|]. eapply inv_owner; [exact Hi|done|done| |intros hb _; left; cbn; lia]. cbn.
  split_and!; try done; try lia; [by rewrite length_insert|]. by eapply saw_insert.
Qed.

(** The top moves past the first item. *)
Lemma take_first total m o ths q v x q0 o' :
  deque_inv total {| mem := m; own := o; thieves := ths |} q → q = x :: q0 → holds m (top m) v →
  (v = x → owner_inv (set_top (top m + 1) m) q0 o') →
  v = x ∧ deque_inv total {| mem := set_top (top m + 1) m; own := o'; thieves := ths |} q0.
Proof.
  intros [I1 I2 I3 I4 I5 I6] -> Hv Ho. cbn in *. assert (v = x) as <-.
  { eapply holds_det; [exact Hv|]. specialize (I4 0%nat x eq_refl). by rewrite Z.add_0_r in I4. }
  split; [done|]. split; cbn; try done; try lia; [|by apply Ho|].
  - intros j y Hj. specialize (I4 (S j) y Hj). replace (top m + 1 + Z.of_nat j) with (top m + Z.of_nat (S j)) by lia. done.
  - eapply Forall_impl; [exact I6|]. intros th. by apply thief_inv_top.
Qed.

Lemma pop_cas_sim total m ths q b t v :
  deque_inv total {| mem := m; own := PopCas b t v; thieves := ths |} q → total < 2 ^ 62 →
  if top m =? t then simulated total ths q (set_top (i64 (t + 1)) m) (PopBack b) (Popped (Some v)) else simulated total ths q m (PopBack b) (Popped None).
Proof.
  intros Hi Ht. destruct (inv_total _ _ _ Hi ltac:(lia)) as (T1 & T2 & _). pose proof (di_owner _ _ _ Hi) as Ho. cbn in T1, T2, Ho. destruct Ho as (Hb & Eb & -> & Hle & Hv).
  destruct (Z.eqb_spec (top m) b) as [E|E]; cbn; unfold simulated; cbn; rewrite Z.add_0_r.
  - destruct q as [|x [|] ]; cbn [length] in Eb, T2; [lia| |lia]. rewrite i64_small, <- E by lia. rewrite <- E in Hv.
    destruct (take_first _ _ _ _ _ v x [] (PopBack (top m)) Hi eq_refl Hv) as [-> Hi']; [intros _; cbn; by split_and!; try lia|].
    exists []. split; [apply (spec_pop _ [] x)|done].
  - assert (q = []) as -> by (apply nil_length_inv; lia). exists []. split; [constructor|]. eapply inv_owner; [exact Hi|done|done|by cbn|]. intros hb _. left. cbn. lia.
Qed.

Lemma pop_back_sim total m ths q b :
  deque_inv total {| mem := m; own := PopBack b; thieves := ths |} q → total < 2 ^ 62 → simulated total ths q (set_bottom (i64 (b + 1)) m) OIdle Tau.
Proof.
  intros Hi Ht. destruct (inv_total _ _ _ Hi ltac:(lia)) as (T1 & T2 & _). pose proof (di_owner _ _ _ Hi) as Ho. cbn in T1, T2, Ho. destruct Ho as (Hb & Eb & ->).
  exists []. cbn in *. rewrite Z.add_0_r. split; [constructor|]. rewrite i64_small by lia. eapply inv_owner; [exact Hi|done|done|cbn; lia|]. intros hb _. left. cbn. lia.
Qed.

(** ** The thieves' steps *)

Lemma bottom_range total m o ths q :
  deque_inv total {| mem := m; own := o; thieves := ths |} q →
  let hb := top m + Z.of_nat (length q) in hb - 1 ≤ bottom m ≤ limit hb o ∧ limit hb o ≤ hb.
Proof.
  intros Hi. pose proof (di_owner _ _ _ Hi) as Ho. cbn in *. destruct o as [|c b|b ws todo|b|b|b t got|b t v|b]; cbn in *; try lia.
  destruct (Z.ltb_spec t b); lia.
Qed.

(** The owner does not mind the first item going, unless it is the one it has
    taken. *)
Lemma owner_inv_steal m q x o :
  owner_inv m (x :: q) o → top m < limit (top m + Z.of_nat (length (x :: q))) o → owner_inv (set_top (top m + 1) m) q o.
Proof.
  replace (top m + Z.of_nat (length (x :: q))) with (top m + 1 + Z.of_nat (length q)) by (cbn [length]; lia).
  destruct o as [|c b|b ws todo|b|b|b t got|b t v|b]; cbn -[Z.of_nat]; rewrite ?Nat2Z.inj_succ; intros Ho Hl.
  - lia.
  - destruct Ho as (? & -> & ?). split_and!; (lia || apply Ho || tauto).
  - destruct Ho as (? & -> & He & Hn & [W1 W2]). replace (top m + Z.succ (Z.of_nat (length q))) with (top m + 1 + Z.of_nat (length q)) in * by lia.
    split_and!; [lia|done|done|lia|]. by split.
  - lia.
  - lia.
  - destruct Ho as (? & ? & ? & ? & Hc & Hg & Hv & Hs). destruct (Z.ltb_spec t b); split_and!; (lia || done).
  - destruct Ho as (? & ? & -> & ? & Hv). split_and!; (lia || done).
  - by destruct Ho as (_ & _ & ?).
Qed.

Definition stolen total m o a (th' : thief T) b q (ev : event T) : Prop :=
  ∃ q', deque_spec (Z.to_nat cap) q ev q' ∧ deque_inv total {| mem := m; own := o; thieves := a ++ th' :: b |} q'.

(** A thief goes on, the memory as it is. *)
Lemma inv_thief total m o a th b q th' :
  deque_inv total {| mem := m; own := o; thieves := a ++ th :: b |} q →
  (thief_inv m (limit (top m + Z.of_nat (length q)) o) th → thief_inv m (limit (top m + Z.of_nat (length q)) o) th') →
  deque_inv total {| mem := m; own := o; thieves := a ++ th' :: b |} q.
Proof.
  intros [I1 I2 I3 I4 I5 I6] Hth. cbn in *. split; cbn; try done. apply Forall_app in I6 as [I6 [I7 I8]%Forall_cons]. apply Forall_app. split; [done|].
  constructor; [by apply Hth|done].
Qed.

Lemma steal_cas_sim total m o a b q t v :
  deque_inv total {| mem := m; own := o; thieves := a ++ StealCas t v :: b |} q → total < 2 ^ 62 → top m = t →
  stolen total (set_top (i64 (t + 1)) m) o a TIdle b q (Stole v).
Proof.
  intros Hi Ht E. destruct (inv_total _ _ _ Hi ltac:(lia)) as (T1 & T2 & _). pose proof (bottom_range _ _ _ _ _ Hi) as [_ Hlim].
  pose proof (di_thieves _ _ _ Hi) as Hf. cbn in *. apply Forall_app in Hf as [_ [ (_ & Hv) _]%Forall_cons]. destruct (Hv E) as [Hlt Hh]. subst t.
  destruct q as [|x q]; [cbn in *; lia|]. rewrite i64_small by lia.
  destruct (take_first _ _ _ _ _ v x q o Hi eq_refl Hh) as [-> Hi'].
  { intros _. by apply (owner_inv_steal m q x); [apply (di_owner _ _ _ Hi)|]. }
  exists q. split; [constructor|]. eapply inv_thief; [exact Hi'|done].
Qed.

Lemma thief_sim total m o a th b q k m' th' ev :
  deque_inv total {| mem := m; own := o; thieves := a ++ th :: b |} q → total < 2 ^ 62 → tstep cap k m th = Some (m', th', ev) →
  stolen total m' o a th' b q ev.
Proof.
  intros Hi Ht. pose proof (inv_total _ _ _ Hi ltac:(lia)) as (T1 & T2 & _). pose proof (bottom_range _ _ _ _ _ Hi) as [Hbot Hlim]. cbn in T1, T2.
  assert (∀ th' ev, (∀ q, deque_spec (Z.to_nat cap) q ev q) →
    (thief_inv m (limit (top m + Z.of_nat (length q)) o) th → thief_inv m (limit (top m + Z.of_nat (length q)) o) th') → stolen total m o a th' b q ev) as Hquiet.
  { intros th1 ev1 Hev Hth. exists q. split; [done|]. by eapply inv_thief. }
  destruct th as [|t|t got|t v]; cbn [tstep].
  - intros [= <- <- <-]. apply Hquiet; [constructor|]. intros _. cbn. lia.
  - destruct (Z.leb_spec (bottom m) t) as [Hle|Hgt]; intros [= <- <- <-].
    + pose proof (di_thieves _ _ _ Hi) as Hf. cbn in Hf. apply Forall_app in Hf as [_ [Hth _]%Forall_cons]. cbn in Hth.
      exists q. split; [constructor; lia|]. by eapply inv_thief.
    + apply Hquiet; [constructor|]. cbn. intros Hle. split_and!; [lia|lia|apply length_replicate|]. intros <-. split; [lia|].
      destruct (slot_some _ _ _ (top m) Hi ltac:(lia)) as (s & Hs & _). by eapply saw_none.
  - destruct (mapM id got) as [bs|] eqn:Hbs.
    + destruct (unmarshal bs) as [v|e|] eqn:Hu; intros [= <- <- <-]; (apply Hquiet; [intros; constructor|]); [|done..]. cbn. intros (Hle & Hg & Hs).
      split_and!; [lia|lia|]. intros E. destruct (Hs E) as [Hlt Hsaw]. split; [done|]. destruct (saw_all _ _ _ _ Hsaw Hbs Hg) as (s & Hsl & <-). by exists s.
    + destruct (slots m !! slot_of cap t) as [s|] eqn:Hs; [|done]. cbn. destruct (s !! k) as [x|] eqn:Hx; [|done]. cbn. intros [= <- <- <-].
      apply Hquiet; [constructor|]. cbn. intros (Hle & Hg & Hsaw). split_and!; [lia|lia|by rewrite length_insert|]. intros E. destruct (Hsaw E) as [Hlt Hsw].
      split; [done|]. by eapply saw_insert.
  - destruct (Z.eqb_spec (top m) t) as [E|E]; intros [= <- <- <-]; [by apply steal_cas_sim|]. by apply Hquiet; [constructor|].
Qed.

Lemma ostep_sim total m o ths q k m' o' ev :
  deque_inv total {| mem := m; own := o; thieves := ths |} q → total + pushes ev < 2 ^ 62 → ostep cap k m o = Some (m', o', ev) → simulated total ths q m' o' ev.
Proof.
  intros Hi Ht. assert (∀ ev' : event T, 0 ≤ pushes ev') as Hp by (intros []; cbn; lia). specialize (Hp ev).
  destruct o as [|c b|b ws [|y todo]|b|b|b t got|b t v|b]; cbn [ostep]; try done.
  - pose proof (push_top_sim _ _ _ _ _ _ Hi ltac:(lia)) as Hs. destruct (full _ _ _ _); by intros [= <- <- <-].
  - intros [= <- <- <-]. apply copy_done_sim; [done|]. cbn in Ht. lia.
  - destruct ((y :: todo) !! k) as [ [ [i o] x]|] eqn:Hk; [|done]. cbn [mbind option_bind]. intros [= <- <- <-]. eapply copy_byte_sim; [done|lia|done].
  - intros [= <- <- <-]. by apply pop_store_sim.
  - pose proof (pop_top_sim _ _ _ _ _ Hi ltac:(lia)) as Hs. destruct (_ <? _); by intros [= <- <- <-].
  - destruct (mapM id got) as [bs|] eqn:Hbs.
    + destruct (pop_read_sim _ _ _ _ _ _ _ _ Hi Hbs) as (v & -> & Hs). destruct (_ <? _); by intros [= <- <- <-].
    + destruct (slots m !! slot_of cap b) as [s|] eqn:Hs; [|done]. cbn. destruct (s !! k) as [x|] eqn:Hx; [|done]. cbn. intros [= <- <- <-]. by eapply pop_byte_sim.
  - pose proof (pop_cas_sim _ _ _ _ _ _ _ Hi ltac:(lia)) as Hs. destruct (_ =? _); by intros [= <- <- <-].
  - intros [= <- <- <-]. apply pop_back_sim; [done|lia].
Qed.

Lemma image_encodes v : valid v → encodes (image v).
Proof.
  intros Hv. unfold image. pose proof (bytes_length v Hv) as Hl. rewrite marshal_writes by (done || by rewrite length_replicate). unfold overwrite.
  rewrite drop_ge, app_nil_r by (rewrite length_replicate; lia). split; [lia|]. exists v. unfold decodes. rewrite take_ge by lia. by apply unmarshal_bytes.
Qed.

Lemma sound_images c : sound c → Forall encodes (images c) ∧ Z.of_nat (length (images c)) < 2 ^ 62.
Proof.
  destruct c as [v|vs|ws|]; cbn.
  - intros Hv. split; [|done]. constructor; [by apply image_encodes|done].
  - intros [Hv Hl]. split; [|by rewrite length_fmap]. apply Forall_fmap. eapply Forall_impl; [exact Hv|]. intros v. apply image_encodes.
  - done.
  - done.
Qed.

Lemma begin_sim total m ths q c o' ev :
  deque_inv total {| mem := m; own := OIdle; thieves := ths |} q → total < 2 ^ 62 → sound c → begin c m = (o', ev) → simulated total ths q m o' ev.
Proof.
  intros Hi Ht Hs. destruct (sound_images c Hs) as [He Hl]. pose proof (di_owner _ _ _ Hi) as Ho. destruct (inv_total _ _ _ Hi ltac:(lia)) as (T1 & T2 & _). cbn in *.
  assert (∀ o1 ev1, owner_inv m q o1 → (∀ hb, limit hb o1 = hb) → pushes ev1 = 0 → (deque_spec (Z.to_nat cap) q ev1 q) → simulated total ths q m o1 ev1) as Hq.
  { intros o1 ev1 Ho1 Hlim Hp Hsp. exists q. rewrite Hp, Z.add_0_r. split; [done|]. eapply inv_owner; [exact Hi|done|done|done|]. intros hb _. left. rewrite Hlim. cbn. lia. }
  assert (∀ c, c ≠ Pop → Forall encodes (images c) → Z.of_nat (length (images c)) < 2 ^ 62 →
    (if (length (images c) =? 0)%nat then (OIdle, Pushed []) else (PushTop c (bottom m), Tau)) = (o', ev) → simulated total ths q m o' ev) as Hpush.
  { intros c' Hc' He' Hl' E. destruct (_ =? _)%nat; injection E as <- <-; apply Hq; try done; [|constructor].
    pose proof (spec_push (Z.to_nat cap) q [] [] ltac:(constructor)) as Hsp. rewrite app_nil_r in Hsp. apply Hsp. pose proof (di_len _ _ _ Hi). cbn in *. lia. }
  destruct c as [v|vs|ws|]; cbn [begin]; [by apply (Hpush (Push v))|by apply (Hpush (PushBatch vs))|by apply (Hpush (PushBatchWith ws))|]. intros [= <- <-]. apply Hq; [|done|done|constructor]. rewrite i64_small by lia. cbn. lia.
Qed.
End refine.

(** ** Runs *)

Definition pushed {T} (ls : list (event T)) : Z := foldr Z.add 0 (pushes <$> ls).

Lemma pushed_nonneg {T} (ls : list (event T)) : 0 ≤ pushed ls.
Proof. unfold pushed. induction ls as [|ev ls IH]; cbn; [lia|]. destruct ev; cbn; lia. Qed.

Lemma pushed_app {T} (a b : list (event T)) : pushed (a ++ b) = pushed a + pushed b.
Proof. unfold pushed. induction a as [|ev a IH]; cbn; [done|]. rewrite IH. lia. Qed.

Lemma tstep_pushes {T} `{MarshalLaws T} cap k m (th : thief T) m' th' ev : tstep cap k m th = Some (m', th', ev) → pushes ev = 0.
Proof.
  destruct th as [|t|t got|t v]; cbn [tstep].
  - by intros [= <- <- <-].
  - destruct (_ <=? _); by intros [= <- <- <-].
  - destruct (mapM id got); [destruct (unmarshal _); by intros [= <- <- <-]|]. destruct (_ !! _) as [s|]; [|done]. cbn. destruct (_ !! _); [|done].
    by intros [= <- <- <-].
  - destruct (_ =? _); by intros [= <- <- <-].
Qed.

Section runs.
Context {T : Type} `{MarshalLaws T} (lg : Z) (sb : nat).
Hypotheses (Hlg : 0 ≤ lg < 62) (Hsb : (PAYLOAD_BYTES T ≤ sb)%nat).
Abbreviation cap := (2 ^ lg).

Lemma deque_start_inv fill n :
  length fill = Z.to_nat cap → Forall (λ x, length x = sb) fill → deque_inv (T := T) lg sb 0 (start fill n) [].
Proof.
  intros Hl Hf. pose proof (cap_pos lg Hlg). split; cbn; try done; [lia|]. by apply Forall_replicate.
Qed.

Lemma run_sim fill n ls (s : system T) :
  length fill = Z.to_nat cap → Forall (λ x, length x = sb) fill → ltrace (deque_step cap (sound sb)) (start fill n) ls s → pushed ls < 2 ^ 62 →
  ∃ q, ltrace (deque_spec (Z.to_nat cap)) [] ls q ∧ deque_inv lg sb (pushed ls) s q.
Proof.
  intros Hl Hf Ht. revert ls s Ht. refine (ltrace_rev_ind _ _ (λ ls s, _) _ _).
  { intros _. exists []. split; [constructor|]. by apply deque_start_inv. }
  intros ls s l s' _ IH Hst. rewrite pushed_app. change (pushed [l]) with (pushes l + 0). rewrite Z.add_0_r. intros Hb.
  assert (0 ≤ pushes l) by (destruct l; cbn; lia). destruct IH as (q & Hq & Hi); [lia|].
  assert (∃ q', deque_spec (Z.to_nat cap) q l q' ∧ deque_inv lg sb (pushed ls + pushes l) s' q') as (q' & Hstep & Hi').
  { destruct Hst as [m ths c o ev Hok Hbg|k m o ths m' o' ev Hs|k m o a th b m' th' ev Hs].
    - eapply begin_sim; [done|done|exact Hi|lia|done|done].
    - eapply ostep_sim; [done|done|exact Hi|lia|done].
    - destruct (thief_sim lg sb Hlg Hsb _ _ _ _ _ _ _ _ _ _ _ Hi ltac:(lia) Hs) as (q' & Hsp & Hi'). exists q'. split; [done|].
      by rewrite (tstep_pushes _ _ _ _ _ _ _ Hs), Z.add_0_r. }
  exists q'. split; [|done]. eapply ltrace_app; [exact Hq|]. eapply ltrace_cons; [done|constructor].
Qed.

(** No access is out of the region. *)
Lemma inv_accesses total (s : system T) q :
  deque_inv lg sb total s q → total < 2 ^ 62 → (∀ th k, th ∈ thieves s → (k < sb)%nat → is_Some (tstep cap k (mem s) th)) ∧
  (own s ≠ OIdle → ∃ k, is_Some (ostep cap k (mem s) (own s))).
Proof.
  intros Hi Ht. destruct (di_top _ _ _ _ _ Hi) as [T1 T2]. split.
  - intros th k Hin Hk. pose proof (di_thieves _ _ _ _ _ Hi) as Hf. rewrite Forall_forall in Hf. specialize (Hf th Hin).
    destruct th as [|t|t got|t v]; cbn in *; try by eauto. destruct (mapM id got); [eauto|].
    destruct (slot_some lg sb Hlg _ _ _ t Hi ltac:(lia)) as (sl & -> & Hl). cbn. destruct (lookup_lt_is_Some_2 sl k ltac:(lia)) as [x ->]. by eexists.
  - pose proof (di_owner _ _ _ _ _ Hi) as Ho. destruct s as [m o ths]. cbn in *. intros Hne.
    destruct o as [|c b|b ws [|[ [i off] x] todo]|b|b|b t got|b t v|b]; cbn in *; try done; try by (exists 0%nat; eauto).
    destruct Ho as (_ & Eb & Ht' & Htb & _ & Hg & _). destruct (mapM id got) as [bs|] eqn:Hbs; [exists 0%nat; eauto|].
    destruct (decide (sb = 0)%nat) as [E0|Hpos]; [destruct got; [done|cbn in Hg; lia]|]. exists 0%nat.
    destruct (slot_some lg sb Hlg _ _ _ b Hi ltac:(lia)) as (sl & Hsl & Hl). cbn in Hsl. rewrite Hsl. cbn.
    destruct (lookup_lt_is_Some_2 sl 0 ltac:(lia)) as [x ->]. by eexists.
Qed.
End runs.

Lemma slot_bytes_fit raw : Z.of_nat raw + 7 < 2 ^ 32 → Z.max 8 (Z.of_nat raw) ≤ slot_bytes_for raw < 2 ^ 32.
Proof.
  intros Hr. unfold slot_bytes_for. rewrite (wrap_small 64) by lia.
  assert (Z.land (Z.of_nat raw + 7) (2 ^ 64 - 8) = 8 * ((Z.of_nat raw + 7) / 8)) as ->.
  { rewrite <- (Z.shiftr_div_pow2 _ 3), Z.mul_comm, <- (Z.shiftl_mul_pow2 _ 3), <- Z.ldiff_ones_r by lia. apply Z.bits_inj'. intros i Hi.
    rewrite Z.land_spec, Z.ldiff_spec. change (2 ^ 64 - 8) with (Z.ldiff (Z.ones 64) (Z.ones 3)). rewrite Z.ldiff_spec.
    destruct (Z.testbit (Z.ones 3) i); cbn; [by rewrite !andb_false_r|]. rewrite !andb_true_r. destruct (decide (i < 64)).
    - by rewrite Z.ones_spec_low, andb_true_r by lia.
    - rewrite Z.bits_above_log2; [done|lia|]. apply Z.log2_lt_pow2; [lia|]. eapply Z.lt_le_trans; [exact Hr|]. apply Z.pow_le_mono_r; lia. }
  pose proof (Z.div_mod (Z.of_nat raw + 7) 8 ltac:(lia)). pose proof (Z.mod_pos_bound (Z.of_nat raw + 7) 8 ltac:(lia)).
  destruct (Z.ltb_spec (8 * ((Z.of_nat raw + 7) / 8)) 8); rewrite (wrap_small 32) by lia; lia.
Qed.

(** The size is not checked: a deque of [2^61] slots of eight bytes is created in a
    mapping of its header alone, without a slot. *)
Lemma deque_size_wraps align pid :
  ∃ h, create (T := uint 8) align pid (2 ^ 61) = Ok (h, HEADER_SIZE) ∧ hcapacity h = 2 ^ 61 ∧ mapped_slots h HEADER_SIZE = 0%nat.
Proof. eexists. split; [vm_compute; reflexivity|]. by vm_compute. Qed.

(** Below that the mapping has the slots of the capacity. *)
Lemma created_slots {T : Type} `{MarshalLaws T} align pid capacity h len :
  Z.of_nat (PAYLOAD_BYTES T) + 7 < 2 ^ 32 → 0 ≤ capacity → create (T := T) align pid capacity = Ok (h, len) →
  HEADER_SIZE + capacity * slot_bytes h < 2 ^ 64 →
  (∃ lg, 0 ≤ lg < 62 ∧ capacity = 2 ^ lg) ∧ hcapacity h = capacity ∧ slot_bytes h = slot_bytes_for (PAYLOAD_BYTES T) ∧ mapped_slots h len = Z.to_nat capacity.
Proof.
  intros Hpb Hpos Hcr Hs. pose proof (slot_bytes_fit (PAYLOAD_BYTES T) Hpb) as Hsb. unfold create in Hcr. destruct (_ || _) eqn:Ec; [done|].
  unfold assert_ in Hcr. destruct (_ <=? _); [|done]. cbn [mbind] in Hcr. injection Hcr as <- <-. cbn [hcapacity slot_bytes] in *. unfold HEADER_SIZE in *.
  apply orb_false_iff in Ec as [_ Ep%negb_false_iff]. destruct (is_power_of_two_spec capacity ltac:(nia) Ep) as (lg & Hlg & ->). split.
  { exists lg. split; [|done]. split; [lia|]. apply (Z.pow_lt_mono_r_iff 2); [lia|lia|]. nia. }
  split; [done|]. split; [done|]. unfold mapped_slots. cbn [slot_bytes]. unfold HEADER_SIZE. rewrite (wrap_small 64 (2 ^ lg * _)), wrap_small by nia.
  replace (64 + 2 ^ lg * slot_bytes_for (PAYLOAD_BYTES T) - 64) with (2 ^ lg * slot_bytes_for (PAYLOAD_BYTES T)) by lia. by rewrite Z.div_mul by lia.
Qed.

(** ** The theorem *)

(** C30: the owner's pushes and pops and any number of thieves' steals, in any
    interleaving of their accesses down to single bytes, are the operations of
    one deque of at most [capacity] items, for fewer than [2^62] items pushed. A
    push or batch appears at the bottom at once, and is refused only when it does
    not fit; a pop takes the last item, or finds none; a steal takes the first,
    with the value it was pushed with although the slot may be written while it is
    read. So every item leaves once. A steal that finds nothing was made when at
    most one item was there, which the owner was then taking. No access leaves
    the mapping that [create] made, whose size must not wrap ([deque_size_wraps]),
    whatever its slots hold at first; and with the owner at rest [approx_len] is
    the number of items. *)
Theorem deque_refines {T : Type} `{MarshalLaws T} align pid capacity h len fill n ls (s : system T) :
  Z.of_nat (PAYLOAD_BYTES T) + 7 < 2 ^ 32 → 0 ≤ capacity → create (T := T) align pid capacity = Ok (h, len) →
  HEADER_SIZE + capacity * slot_bytes h < 2 ^ 64 → length fill = mapped_slots h len → Forall (λ x, length x = Z.to_nat (slot_bytes h)) fill →
  ltrace (deque_step (hcapacity h) (sound (Z.to_nat (slot_bytes h)))) (start fill n) ls s → pushed ls < 2 ^ 62 →
  ∃ q, ltrace (deque_spec (Z.to_nat capacity)) [] ls q ∧
    (own s = OIdle → approx_len (mem s) = Z.of_nat (length q)) ∧
    (∀ th k, th ∈ thieves s → (k < Z.to_nat (slot_bytes h))%nat → is_Some (tstep capacity k (mem s) th)) ∧
    (own s ≠ OIdle → ∃ k, is_Some (ostep capacity k (mem s) (own s))).
Proof.
  intros Hpb Hcap Hcr Hsz Hl Hf Ht Hb. destruct (created_slots align pid capacity h len Hpb Hcap Hcr Hsz) as ((lg & Hlg & ->) & Ehc & Esb & Ems).
  rewrite Ehc, Esb, Ems in *. pose proof (slot_bytes_fit (PAYLOAD_BYTES T) Hpb) as Hsb.
  set (sb := Z.to_nat (slot_bytes_for (PAYLOAD_BYTES T))) in *. assert (PAYLOAD_BYTES T ≤ sb)%nat as Hle by lia.
  destruct (run_sim lg sb ltac:(lia) Hle fill n ls s Hl Hf Ht Hb) as (q & Hq & Hi). exists q. split; [done|]. split.
  - intros Eo. pose proof (di_owner _ _ _ _ _ Hi) as Ho. rewrite Eo in Ho. cbn in Ho. destruct (di_top _ _ _ _ _ Hi). unfold approx_len. rewrite Ho.
    replace (top (mem s) + Z.of_nat (length q) - top (mem s)) with (Z.of_nat (length q)) by lia. rewrite i64_small by lia. lia.
  - eapply (inv_accesses lg sb); [lia|done|exact Hi|lia].
Qed.

(** ** Schedules *)

Section schedules.
Context {T : Type} `{MarshalLaws T} (cap : Z).

Inductive action := Call (c : call T) | Own (k : nat) | Thief (i k : nat).

Definition act (x : action) (s : system T) : option (event T * system T) :=
  match x with
  | Call c => match own s with
              | OIdle => let '(o, ev) := begin c (mem s) in Some (ev, {| mem := mem s; own := o; thieves := thieves s |})
              | _ => None
              end
  | Own k => '(m, o, ev) ← ostep cap k (mem s) (own s); Some (ev, {| mem := m; own := o; thieves := thieves s |})
  | Thief i k =>
      th ← thieves s !! i; '(m, th, ev) ← tstep cap k (mem s) th; Some (ev, {| mem := m; own := own s; thieves := <[i := th]> (thieves s) |})
  end.

Fixpoint sched (xs : list action) (s : system T) : option (list (event T) * system T) :=
  match xs with
  | [] => Some ([], s)
  | x :: xs => '(ev, s) ← act x s; '(evs, s) ← sched xs s; Some (ev :: evs, s)
  end.

Definition calls_ok (ok : call T → Prop) (x : action) : Prop := match x with Call c => ok c | _ => True end.

Lemma act_run ok x s ev s' : calls_ok ok x → act x s = Some (ev, s') → deque_step cap ok s ev s'.
Proof.
  destruct s as [m o ths]. destruct x as [c|k|i k]; cbn; intros Hok.
  - destruct o; try done. destruct (begin c m) as [o' ev'] eqn:E. intros [= <- <-]. by eapply step_call.
  - destruct (ostep cap k m o) as [ [ [m' o'] ev']|] eqn:E; [|done]. intros [= <- <-]. by eapply step_own.
  - destruct (ths !! i) as [th|] eqn:Ei; [|done]. cbn. destruct (tstep cap k m th) as [ [ [m' th'] ev']|] eqn:E; [|done]. intros [= <- <-].
    rewrite <- (take_drop_middle ths i th Ei) at 1. pose proof (lookup_lt_Some _ _ _ Ei).
    replace (<[i:=th']> ths) with (take i ths ++ th' :: drop (S i) ths); [by eapply step_thief|]. symmetry. by apply insert_take_drop.
Qed.

Lemma sched_trace ok xs s evs s' : Forall (calls_ok ok) xs → sched xs s = Some (evs, s') → ltrace (deque_step cap ok) s evs s'.
Proof.
  intros Hok. revert s evs. induction Hok as [|x xs Hx _ IH]; intros s evs; cbn; [intros [= <- <-]; constructor|].
  destruct (act x s) as [ [ev s1]|] eqn:Ha; [|done]. cbn. destruct (sched xs s1) as [ [evs1 s2]|] eqn:Hs; [|done]. cbn.
  intros [= <- <-]. eapply ltrace_cons; [by eapply act_run|by apply IH].
Qed.
End schedules.

Definition word_fill : list (list Z) := replicate 2 (replicate 8 0).

(** A push, a steal in the middle of a pop, a batch. *)
Definition some_run : list (action (T := uint 2)) :=
  [Call (Push 258)] ++ replicate 4 (Own 0) ++ [Thief 0 0; Thief 0 0; Thief 0 0; Call Pop; Own 0; Own 0; Thief 0 1; Thief 0 0; Thief 0 0] ++
  [Own 0; Own 1; Own 0; Own 0; Own 0] ++ [Call (PushBatch [7; 8])] ++ replicate 6 (Own 0) ++ [Call Pop] ++ [Own 0; Own 0; Own 0; Own 1; Own 0].

Lemma deque_refines_witness :
  ∃ ls (s : system (uint 2)) q, ltrace (deque_step 2 (sound 8)) (start word_fill 1) ls s ∧
    List.filter (λ ev, match ev with Tau => false | _ => true end) ls = [Pushed [ [2; 1] ]; Stole 258; Popped None; Pushed [ [7; 0]; [8; 0] ]; Popped (Some 8)] ∧
    ltrace (deque_spec 2) [] ls q ∧ approx_len (mem s) = Z.of_nat (length q).
Proof.
  assert (∃ ls s, sched 2 some_run (start word_fill 1) = Some (ls, s) ∧
    List.filter (λ ev, match ev with Tau => false | _ => true end) ls = [Pushed [ [2; 1] ]; Stole 258; Popped None; Pushed [ [7; 0]; [8; 0] ]; Popped (Some 8)] ∧
    own s = OIdle ∧ pushed ls = 3) as (ls & s & Hs & He & Ho & Hp).
  { eexists _, _. split; [vm_compute; reflexivity|]. split; [reflexivity|]. split; reflexivity. }
  apply (sched_trace 2 (sound 8)) in Hs; [|repeat constructor; done].
  destruct (deque_refines (T := uint 2) 2 1 2 _ _ word_fill 1 ls s ltac:(done) ltac:(lia) eq_refl ltac:(done) eq_refl ltac:(repeat constructor) Hs ltac:(rewrite Hp; done)) as (q & Hq & Ha & _).
  exists ls, s, q. split; [exact Hs|]. split; [exact He|]. split; [exact Hq|by apply Ha].
Defined.

(** [pop] gives up on bytes that do not decode with the bottom lowered and the
    top where it was. The owner here fills a slot with such bytes, pops, and pushes
    a pair in their place, while a thief that saw the first item reads the slot:
    it takes half of each. The pair pushed was [(true, 5)]; what is stolen is
    [(true, 9)], and the deque is empty. *)
Lemma deque_torn_steal :
  ∃ ls (s : system (bool * uint 1)), ltrace (deque_step 2 (λ _, True)) (start word_fill 1) ls s ∧
    List.filter (λ ev, match ev with Tau => false | _ => true end) ls =
      [Pushed [ [7; 9; 0; 0; 0; 0; 0; 0] ]; Popped None; Stole (true, 9); Pushed [ [1; 5] ] ] ∧ own s = OIdle ∧ approx_len (mem s) = 0.
Proof.
  assert (∃ ls (s : system (bool * uint 1)), sched (T := bool * uint 1) 2 ([Call (PushBatchWith [ [7; 9; 0; 0; 0; 0; 0; 0] ])] ++ replicate 10 (Own 0) ++
    [Thief 0 0; Thief 0 0; Thief 0 1; Call Pop; Own 0; Own 0; Own 0; Own 1; Own 0; Call (Push (true, 5)); Own 0; Own 0; Thief 0 0; Thief 0 0; Thief 0 0; Own 0; Own 0])
    (start word_fill 1) = Some (ls, s) ∧ List.filter (λ ev, match ev with Tau => false | _ => true end) ls =
      [Pushed [ [7; 9; 0; 0; 0; 0; 0; 0] ]; Popped None; Stole (true, 9); Pushed [ [1; 5] ] ] ∧ own s = OIdle ∧ approx_len (mem s) = 0) as (ls & s & Hs & He).
  { eexists _, _. split; [vm_compute; reflexivity|]. split; [reflexivity|]. split; reflexivity. }
  exists ls, s. split; [|done]. eapply sched_trace; [|exact Hs]. repeat constructor.
Qed.
