(* ===== verification/Broadcast.v ===== *)
(** The broadcast ring: crates/subetha-cxc/src/shared_broadcast_ring.rs.

    One producer, and consumers that each see every message from where they
    registered. [pstep] and [cstep] cut the calls into their accesses, the copies
    of a payload into bytes. A consumer index is used by the thread that got it.
    The wait for consumers, which polls a clock, flushing and the backing of the
    region are left out. *)
From stdpp Require Import list gmap.
From S2P Require Import Prelude.

Definition BROADCAST_MAGIC : Z := 0x4150_4243.
Definition BROADCAST_PAYLOAD_BYTES : nat := 52.
Definition MAX_CONSUMERS : nat := 16.
Definition HEADER_SIZE : Z := 256.
Definition SLOT_SIZE : Z := 64.

Record BroadcastSlot := { version : Z; payload : list Z }.

(** The header and the slots behind it. *)
Record BroadcastHeader := {
  magic : Z; capacity : Z; producer_seq : Z; consumer_seqs : list Z; consumer_active : list Z; slots : list BroadcastSlot }.

Definition broadcast_file_size (cap : Z) : Z := u64 (HEADER_SIZE + u64 (cap * SLOT_SIZE)).

Inductive BroadcastError :=
| Full | Empty | NoConsumerSlot | InvalidConsumer | PayloadTooLarge | LayoutMismatch | IoError (kind : Z).

Definition init_broadcast_layout_raw (cap : Z) : BroadcastHeader :=
  {| magic := BROADCAST_MAGIC; capacity := u32 cap; producer_seq := 0;
     consumer_seqs := replicate MAX_CONSUMERS 0; consumer_active := replicate MAX_CONSUMERS 0;
     slots := replicate (Z.to_nat cap) {| version := 0; payload := replicate BROADCAST_PAYLOAD_BYTES 0 |} |}.

Definition create_anon (cap : Z) : res BroadcastError BroadcastHeader :=
  _ ← assert_ (2 <=? cap); _ ← assert_ (cap <=? 2 ^ 32 - 1); Ok (init_broadcast_layout_raw cap).

(** [create_from_shm] over [len] bytes. *)
Definition create_from_shm (len cap : Z) : res BroadcastError BroadcastHeader :=
  _ ← assert_ (2 <=? cap); _ ← assert_ (cap <=? 2 ^ 32 - 1);
  if len <? broadcast_file_size cap then Err LayoutMismatch else Ok (init_broadcast_layout_raw cap).

Definition open_from_shm (len : Z) (h : BroadcastHeader) (expected_capacity : Z) : res BroadcastError BroadcastHeader :=
  if len <? broadcast_file_size expected_capacity then Err LayoutMismatch
  else if negb (magic h =? BROADCAST_MAGIC) || negb (capacity h =? u32 expected_capacity) then Err LayoutMismatch
  else Ok h.

(** ** Observers *)

Definition active (h : BroadcastHeader) (i : nat) : bool := match consumer_active h !! i with Some a => negb (a =? 0) | None => false end.

Definition try_lag (i : nat) (h : BroadcastHeader) : option Z :=
  if active h i then my ← consumer_seqs h !! i; Some (Z.max (producer_seq h - my) 0) else None.

Definition lag (i : nat) (h : BroadcastHeader) : Z := default (2 ^ 64 - 1) (try_lag i h).

Definition producer_position (h : BroadcastHeader) : Z := producer_seq h.

Definition active_consumer_count (h : BroadcastHeader) : nat := length (List.filter (active h) (seq 0 MAX_CONSUMERS)).

Definition is_fully_drained (h : BroadcastHeader) : bool :=
  forallb (λ i, negb (active h i && match consumer_seqs h !! i with Some s => s <? producer_seq h | None => false end)) (seq 0 MAX_CONSUMERS).

(** ** Accesses *)

Definition wrap_slot (cap i : Z) : Z := if is_power_of_two cap then Z.land i (cap - 1) else i mod cap.
Definition slot (h : BroadcastHeader) (i : Z) : nat := Z.to_nat (wrap_slot (capacity h) i).

Definition set_slots (f : list BroadcastSlot → list BroadcastSlot) (h : BroadcastHeader) : BroadcastHeader :=
  {| magic := magic h; capacity := capacity h; producer_seq := producer_seq h; consumer_seqs := consumer_seqs h;
     consumer_active := consumer_active h; slots := f (slots h) |}.
Definition bump (h : BroadcastHeader) (i : Z) : BroadcastHeader :=
  set_slots (alter (λ s, {| version := u32 (version s + 1); payload := payload s |}) (slot h i)) h.
Definition put_byte (h : BroadcastHeader) (i : Z) (o : nat) (x : Z) : BroadcastHeader :=
  set_slots (alter (λ s, {| version := version s; payload := <[o := x]> (payload s) |}) (slot h i)) h.
Definition set_producer (x : Z) (h : BroadcastHeader) : BroadcastHeader :=
  {| magic := magic h; capacity := capacity h; producer_seq := x; consumer_seqs := consumer_seqs h;
     consumer_active := consumer_active h; slots := slots h |}.
Definition set_seq (i : nat) (x : Z) (h : BroadcastHeader) : BroadcastHeader :=
  {| magic := magic h; capacity := capacity h; producer_seq := producer_seq h; consumer_seqs := <[i := x]> (consumer_seqs h);
     consumer_active := consumer_active h; slots := slots h |}.
Definition set_active (i : nat) (x : Z) (h : BroadcastHeader) : BroadcastHeader :=
  {| magic := magic h; capacity := capacity h; producer_seq := producer_seq h; consumer_seqs := consumer_seqs h;
     consumer_active := <[i := x]> (consumer_active h); slots := slots h |}.

(** [Received i n bytes] is a receive of consumer [i] into a buffer of [n] bytes. *)
Inductive event :=
| Tau | Published (m : list Z) | PushFull | PushTooLarge
| Registered (i : nat) | NoSlot | Unregistered (i : nat) | Received (i n : nat) (bytes : list Z) | RecvEmpty (i : nat) | RecvInvalid.

(** ** The producer *)

(** Where the producer is: [p] is the position it has loaded, [i] the consumer it
    looks at, [low] the smallest cursor so far, [any] whether there was one. *)
Inductive producer :=
| PIdle
| MinLoad (m : list Z) (p : Z)
| MinActive (m : list Z) (p p' : Z) (i : nat) (low : Z) (any : bool)
| MinSeq (m : list Z) (p p' : Z) (i : nat) (low : Z) (any : bool)
| Odd (m : list Z) (p : Z)
| Copy (m : list Z) (p : Z) (todo : list (nat * Z))
| Even (m : list Z) (p : Z)
| Advance (m : list Z) (p : Z).

(** [write_bytes] of zeros, then [copy_nonoverlapping]. *)
Definition writes (m : list Z) : list (nat * Z) :=
  imap (λ o _, (o, 0)) (replicate BROADCAST_PAYLOAD_BYTES tt) ++ imap (λ o x, (o, x)) m.

(** [try_push]: the check of the length and the first load. *)
Definition push_begin (m : list Z) (h : BroadcastHeader) : producer * event :=
  if (BROADCAST_PAYLOAD_BYTES <? length m)%nat then (PIdle, PushTooLarge) else (MinLoad m (producer_seq h), Tau).

(** The end of the scan. *)
Definition checked (cap : Z) (m : list Z) (p p' low : Z) (any : bool) : producer * event :=
  let min_consumer := if any then low else p' in
  if cap <=? Z.max (p - min_consumer) 0 then (PIdle, PushFull) else (Odd m p, Tau).

Definition pstep (h : BroadcastHeader) (pr : producer) : option (BroadcastHeader * producer * event) :=
  match pr with
  | PIdle => None
  | MinLoad m p => Some (h, MinActive m p (producer_seq h) 0 (2 ^ 64 - 1) false, Tau)
  | MinActive m p p' i low any =>
      match consumer_active h !! i with
      | None => let '(pr, ev) := checked (capacity h) m p p' low any in Some (h, pr, ev)
      | Some a => Some (h, if a =? 0 then MinActive m p p' (S i) low any else MinSeq m p p' i low any, Tau)
      end
  | MinSeq m p p' i low any =>
      s ← consumer_seqs h !! i; Some (h, MinActive m p p' (S i) (if s <? low then s else low) true, Tau)
  | Odd m p => Some (bump h p, Copy m p (writes m), Tau)
  | Copy m p ((o, x) :: todo) => Some (put_byte h p o x, Copy m p todo, Tau)
  | Copy m p [] => Some (h, Even m p, Tau)
  | Even m p => Some (bump h p, Advance m p, Tau)
  | Advance m p => Some (set_producer (u64 (producer_seq h + 1)) h, PIdle, Published m)
  end.

(** ** A consumer *)

Inductive point :=
| Idle
| RegCas (i : nat) (only : bool)
| RegLoad (i : nat)
| RegStore (i : nat) (p : Z)
| RecvActive (i n : nat)
| RecvSeq (i n : nat)
| RecvProd (i n : nat) (s : Z)
| RecvVersion (i n : nat) (s : Z)
| RecvCopy (i n : nat) (s v : Z) (got : list Z)
| RecvAgain (i n : nat) (s v : Z) (got : list Z)
| RecvAdd (i n : nat) (got : list Z)
| UnregStore (i : nat).

(** A thread and the index it has registered. *)
Record consumer := { index : option nat; pc : point }.
Definition goto (c : consumer) (p : point) : consumer := {| index := index c; pc := p |}.

Definition cstep (h : BroadcastHeader) (c : consumer) : option (BroadcastHeader * consumer * event) :=
  match pc c with
  | Idle => None
  | RegCas i only =>
      match consumer_active h !! i with
      | None => Some (h, goto c Idle, NoSlot)
      | Some a =>
          if a =? 0 then Some (set_active i 1 h, goto c (RegLoad i), Tau)
          else if only then Some (h, goto c Idle, NoSlot) else Some (h, goto c (RegCas (S i) false), Tau)
      end
  | RegLoad i => Some (h, goto c (RegStore i (producer_seq h)), Registered i)
  | RegStore i p => Some (set_seq i p h, {| index := Some i; pc := Idle |}, Tau)
  | RecvActive i n =>
      if (MAX_CONSUMERS <=? i)%nat then Some (h, goto c Idle, RecvInvalid)
      else a ← consumer_active h !! i; Some (if a =? 0 then (h, goto c Idle, RecvInvalid) else (h, goto c (RecvSeq i n), Tau))
  | RecvSeq i n => s ← consumer_seqs h !! i; Some (h, goto c (RecvProd i n s), Tau)
  | RecvProd i n s =>
      Some (if producer_seq h <=? s then (h, goto c Idle, RecvEmpty i) else (h, goto c (RecvVersion i n s), Tau))
  | RecvVersion i n s =>
      sl ← slots h !! slot h s;
      Some (h, goto c (if Z.odd (version sl) then RecvVersion i n s else RecvCopy i n s (version sl) []), Tau)
  | RecvCopy i n s v got =>
      if (length got <? Nat.min n BROADCAST_PAYLOAD_BYTES)%nat then
        sl ← slots h !! slot h s; x ← payload sl !! length got; Some (h, goto c (RecvCopy i n s v (got ++ [x])), Tau)
      else Some (h, goto c (RecvAgain i n s v got), Tau)
  | RecvAgain i n s v got =>
      sl ← slots h !! slot h s; Some (h, goto c (if version sl =? v then RecvAdd i n got else RecvVersion i n s), Tau)
  | RecvAdd i n got => s ← consumer_seqs h !! i; Some (set_seq i (u64 (s + 1)) h, goto c Idle, Received i n got)
  | UnregStore i =>
      Some (if (MAX_CONSUMERS <=? i)%nat then h else set_active i 0 h, {| index := None; pc := Idle |}, Unregistered i)
  end.

(** The calls of an idle thread: it registers when it has no index, and receives
    or leaves with the one it has. *)
Inductive starts : consumer → consumer → Prop :=
| start_register : starts {| index := None; pc := Idle |} {| index := None; pc := RegCas 0 false |}
| start_claim i : starts {| index := None; pc := Idle |} {| index := None; pc := RegCas i true |}
| start_recv i n : starts {| index := Some i; pc := Idle |} {| index := Some i; pc := RecvActive i n |}
| start_unregister i : starts {| index := Some i; pc := Idle |} {| index := Some i; pc := UnregStore i |}.

Record system := { mem : BroadcastHeader; prod : producer; consumers : list consumer }.

Inductive broadcast_step : system → event → system → Prop :=
| step_push h cs m pr ev :
    push_begin m h = (pr, ev) →
    broadcast_step {| mem := h; prod := PIdle; consumers := cs |} ev {| mem := h; prod := pr; consumers := cs |}
| step_producer h pr cs h' pr' ev :
    pstep h pr = Some (h', pr', ev) →
    broadcast_step {| mem := h; prod := pr; consumers := cs |} ev {| mem := h'; prod := pr'; consumers := cs |}
| step_call h pr a c b c' :
    starts c c' →
    broadcast_step {| mem := h; prod := pr; consumers := a ++ c :: b |} Tau {| mem := h; prod := pr; consumers := a ++ c' :: b |}
| step_consumer h pr a c b h' c' ev :
    cstep h c = Some (h', c', ev) →
    broadcast_step {| mem := h; prod := pr; consumers := a ++ c :: b |} ev {| mem := h'; prod := pr; consumers := a ++ c' :: b |}.

Definition start (h : BroadcastHeader) (n : nat) : system :=
  {| mem := h; prod := PIdle; consumers := replicate n {| index := None; pc := Idle |} |}.

(** * The contract: a log, and a cursor for every consumer *)

Record topic := { log : list (list Z); cursors : gmap nat nat }.

Inductive topic_step (cap : nat) : topic → event → topic → Prop :=
| topic_tau t : topic_step cap t Tau t
| topic_publish t m :
    (∀ i c, cursors t !! i = Some c → (length (log t) - c < cap)%nat) → (length m ≤ BROADCAST_PAYLOAD_BYTES)%nat →
    topic_step cap t (Published m) {| log := log t ++ [pad BROADCAST_PAYLOAD_BYTES m]; cursors := cursors t |}
| topic_full t : topic_step cap t PushFull t
| topic_too_large t : topic_step cap t PushTooLarge t
| topic_register t i :
    cursors t !! i = None → topic_step cap t (Registered i) {| log := log t; cursors := <[i := length (log t)]> (cursors t) |}
| topic_no_slot t : topic_step cap t NoSlot t
| topic_unregister t i c :
    cursors t !! i = Some c → topic_step cap t (Unregistered i) {| log := log t; cursors := delete i (cursors t) |}
| topic_receive t i c m n :
    cursors t !! i = Some c → log t !! c = Some m →
    topic_step cap t (Received i n (take (Nat.min n BROADCAST_PAYLOAD_BYTES) m)) {| log := log t; cursors := <[i := S c]> (cursors t) |}
| topic_empty t i : cursors t !! i = Some (length (log t)) → topic_step cap t (RecvEmpty i) t.
