(* ===== verification/BroadcastSafety.v ===== *)
(** Every consumer of the broadcast ring receives every message published since
    it registered, once and in order, whatever the interleaving; and a receive
    never meets a slot that is being written. *)
From stdpp Require Import list gmap.
From S2P Require Import Prelude Broadcast.

(** ** Slots *)

Section slots.
Context (cap : Z).
Hypothesis Hcap : 2 ≤ cap < 2 ^ 32.

Lemma wrap_slot_mod i : wrap_slot cap i = i mod cap.
Proof.
  unfold wrap_slot. destruct (is_power_of_two cap) eqn:E; [|done]. destruct (is_power_of_two_spec cap ltac:(lia) E) as (k & Hk & ->). apply land_mask_mod. lia.
Qed.

Lemma slot_lt h i : capacity h = cap → (slot h i < Z.to_nat cap)%nat.
Proof. intros E. unfold slot. rewrite E, wrap_slot_mod. pose proof (Z.mod_pos_bound i cap ltac:(lia)). lia. Qed.

Lemma slot_inj h i j : capacity h = cap → - cap < i - j < cap → slot h i = slot h j → i = j.
Proof.
  intros Ec Hd. unfold slot. rewrite Ec, !wrap_slot_mod. pose proof (Z.mod_pos_bound i cap ltac:(lia)). pose proof (Z.mod_pos_bound j cap ltac:(lia)).
  intros E. apply (mod_window_inj cap); lia.
Qed.
End slots.

(** ** The bytes of a message *)

Definition put_all (todo : list (nat * Z)) (pl : list Z) : list Z := fold_left (λ pl '(o, x), <[o := x]> pl) todo pl.

Lemma put_all_app a b pl : put_all (a ++ b) pl = put_all b (put_all a pl).
Proof. apply fold_left_app. Qed.

Lemma put_all_imap m pre rest :
  length rest = length m → put_all (imap (λ o x, ((length pre + o)%nat, x)) m) (pre ++ rest) = pre ++ m.
Proof.
  revert pre rest. induction m as [|x m IH]; intros pre rest Hl; [by apply nil_length_inv in Hl as ->|]. destruct rest as [|y rest]; [done|]. injection Hl as Hl.
  cbn. rewrite Nat.add_0_r, insert_app_r_alt, Nat.sub_diag by lia. cbn. rewrite (cons_middle x pre rest), (assoc_L (++)), (cons_middle x pre m), (assoc_L (++)).
  rewrite <- (IH (pre ++ [x]) rest Hl). f_equal. apply imap_ext. intros o z _. cbn. f_equal. rewrite length_app. cbn. lia.
Qed.

Lemma put_all_prefix m pl : (length m ≤ length pl)%nat → put_all (imap (λ o x, (o, x)) m) pl = m ++ drop (length m) pl.
Proof.
  intros Hl. rewrite <- (take_drop (length m) pl) at 1.
  assert (∀ todo a b, Forall (λ p, (p.1 < length a)%nat) todo → put_all todo (a ++ b) = put_all todo a ++ b) as Hfr.
  { intros todo. induction todo as [|[o x] todo IH]; intros a b; [done|]. intros [Ho Hf]%Forall_cons. cbn in *. rewrite insert_app_l by done. apply IH.
    eapply Forall_impl; [exact Hf|]. intros p. by rewrite length_insert. }
  rewrite Hfr.
  - f_equal. apply (put_all_imap m [] (take (length m) pl)). rewrite length_take. lia.
  - apply Forall_lookup. intros i p Hp. rewrite list_lookup_imap in Hp. destruct (m !! i) eqn:E; [|done]. injection Hp as <-. cbn. apply lookup_lt_Some in E.
    rewrite length_take. lia.
Qed.

Lemma put_writes m pl : length pl = BROADCAST_PAYLOAD_BYTES → (length m ≤ BROADCAST_PAYLOAD_BYTES)%nat → put_all (writes m) pl = pad BROADCAST_PAYLOAD_BYTES m.
Proof.
  intros Hp Hm. unfold writes. rewrite put_all_app.
  assert (imap (λ o (_ : unit), (o, 0)) (replicate BROADCAST_PAYLOAD_BYTES tt) = imap (λ o x, (o, x)) (replicate BROADCAST_PAYLOAD_BYTES 0)) as -> by reflexivity.
  rewrite (put_all_prefix (replicate _ _)), length_replicate by (rewrite length_replicate; lia). rewrite drop_ge, app_nil_r by lia.
  rewrite put_all_prefix by (rewrite length_replicate; lia). unfold pad. f_equal. apply drop_replicate.
Qed.

Lemma length_put_all todo pl : length (put_all todo pl) = length pl.
Proof. revert pl. induction todo as [|[o x] todo IH]; intros pl; [done|]. cbn. by rewrite IH, length_insert. Qed.

Lemma elem_of_replace {A} (a b : list A) (x y : A) : y ∈ a ++ x :: b ↔ y = x ∨ y ∈ a ++ b.
Proof. rewrite !elem_of_app, elem_of_cons. tauto. Qed.

(** ** The invariant *)

Section invariant.
Context (cap : Z).
Hypothesis Hcap : 2 ≤ cap < 2 ^ 32.
Implicit Types (h : BroadcastHeader) (t : topic) (x : consumer) (pr : producer).

Abbreviation pos t := (Z.of_nat (length (log t))).

(** The index a thread owns, and the cursor it stands for. *)
Definition holds x : option nat := match pc x with RegLoad i | RegStore i _ => Some i | _ => index x end.

Definition cursor_of h x : option (nat * Z) :=
  match pc x with
  | RegLoad _ => None
  | RegStore i p => Some (i, p)
  | _ => i ← index x; s ← consumer_seqs h !! i; Some (i, s)
  end.

Definition writing pr : bool := match pr with Odd _ _ | Copy _ _ _ | Even _ _ | Advance _ _ => true | _ => false end.

(** The slot of message [s] holds it. *)
Definition holding h t (s v : Z) : Prop :=
  ∃ sl m, slots h !! slot h s = Some sl ∧ log t !! Z.to_nat s = Some m ∧ payload sl = m ∧ version sl = v ∧ Z.odd v = false.

Definition consumer_inv h t x : Prop :=
  let at_seq i (s : Z) := index x = Some i ∧ consumer_seqs h !! i = Some s in
  match pc x with
  | Idle => True
  | RegCas _ _ => index x = None
  | RegLoad i => index x = None
  | RegStore i p => index x = None ∧ 0 ≤ p ≤ pos t ∧ ∃ s, consumer_seqs h !! i = Some s ∧ s ≤ p
  | RecvActive i _ | RecvSeq i _ | UnregStore i => index x = Some i
  | RecvProd i _ s => at_seq i s
  | RecvVersion i _ s => at_seq i s ∧ s < pos t
  | RecvCopy i n s v got =>
      at_seq i s ∧ s < pos t ∧ holding h t s v ∧ (length got ≤ Nat.min n BROADCAST_PAYLOAD_BYTES)%nat ∧
      ∀ m, log t !! Z.to_nat s = Some m → got = take (length got) m
  | RecvAgain i n s v got => at_seq i s ∧ s < pos t ∧ holding h t s v ∧ ∀ m, log t !! Z.to_nat s = Some m → got = take (Nat.min n BROADCAST_PAYLOAD_BYTES) m
  | RecvAdd i n got => ∃ s, at_seq i s ∧ s < pos t ∧ ∀ m, log t !! Z.to_nat s = Some m → got = take (Nat.min n BROADCAST_PAYLOAD_BYTES) m
  end.

(** The consumers below [i] have been looked at. *)
Definition scanned t (p p' : Z) (i : nat) (low : Z) (any : bool) : Prop :=
  p = pos t ∧ p' = pos t ∧ (any = true → low ≤ pos t) ∧
  ∀ j c, cursors t !! j = Some c → (j < i)%nat → any = true ∧ low ≤ Z.of_nat c ∨ c = length (log t).

Definition producer_inv h t pr : Prop :=
  match pr with
  | PIdle => True
  | MinLoad m p => p = pos t ∧ (length m ≤ BROADCAST_PAYLOAD_BYTES)%nat
  | MinActive m p p' i low any => scanned t p p' i low any ∧ (length m ≤ BROADCAST_PAYLOAD_BYTES)%nat
  | MinSeq m p p' i low any => scanned t p p' i low any ∧ (length m ≤ BROADCAST_PAYLOAD_BYTES)%nat ∧ (i < MAX_CONSUMERS)%nat
  | Odd m p => p = pos t ∧ (length m ≤ BROADCAST_PAYLOAD_BYTES)%nat
  | Copy m p todo =>
      p = pos t ∧ (length m ≤ BROADCAST_PAYLOAD_BYTES)%nat ∧
      ∃ sl, slots h !! slot h p = Some sl ∧ put_all todo (payload sl) = pad BROADCAST_PAYLOAD_BYTES m
  | Even m p | Advance m p =>
      p = pos t ∧ (length m ≤ BROADCAST_PAYLOAD_BYTES)%nat ∧ ∃ sl, slots h !! slot h p = Some sl ∧ payload sl = pad BROADCAST_PAYLOAD_BYTES m
  end.

(** The slot that is being written. *)
Definition dirty h pr : option nat := match pr with Copy _ p _ | Even _ p => Some (slot h p) | _ => None end.

(** The cursors are those of the threads, and the producer is not past them. *)
Record ring_inv h t pr : Prop := {
  ri_cap : capacity h = cap;
  ri_pos : producer_seq h = pos t;
  ri_slots : length (slots h) = Z.to_nat cap;
  ri_payload : ∀ i sl, slots h !! i = Some sl → length (payload sl) = BROADCAST_PAYLOAD_BYTES;
  ri_version : ∀ i sl, slots h !! i = Some sl → Z.odd (version sl) = true ↔ dirty h pr = Some i;
  ri_log : ∀ s m, log t !! s = Some m → pos t - Z.of_nat s ≤ cap → (writing pr = true → pos t - Z.of_nat s < cap) →
    ∃ sl, slots h !! slot h (Z.of_nat s) = Some sl ∧ payload sl = m;
  ri_msgs : ∀ s m, log t !! s = Some m → length m = BROADCAST_PAYLOAD_BYTES;
  ri_producer : producer_inv h t pr }.

Record index_inv h t pr (cs : list consumer) : Prop := {
  ii_seqs : length (consumer_seqs h) = MAX_CONSUMERS ∧ ∀ i s, consumer_seqs h !! i = Some s → 0 ≤ s ≤ pos t;
  ii_active : length (consumer_active h) = MAX_CONSUMERS;
  ii_held : ∀ x i, x ∈ cs → holds x = Some i → ∃ a, consumer_active h !! i = Some a ∧ a ≠ 0;
  ii_alone : NoDup (omap holds cs);
  ii_cursor : ∀ x i s, x ∈ cs → cursor_of h x = Some (i, s) → cursors t !! i = Some (Z.to_nat s);
  ii_owner : ∀ i c, cursors t !! i = Some c → ∃ x, x ∈ cs ∧ holds x = Some i ∧ cursor_of h x = Some (i, Z.of_nat c);
  ii_bound : ∀ i c, cursors t !! i = Some c → (c ≤ length (log t))%nat ∧ pos t - Z.of_nat c ≤ cap ∧ (writing pr = true → pos t - Z.of_nat c < cap) }.

Record broadcast_inv t (s : system) : Prop := {
  bi_ring : ring_inv (mem s) t (prod s);
  bi_index : index_inv (mem s) t (prod s) (consumers s);
  bi_consumers : Forall (consumer_inv (mem s) t) (consumers s) }.

Lemma holds_cursor h x i s : cursor_of h x = Some (i, s) → holds x = Some i.
Proof.
  unfold cursor_of, holds. assert (∀ r, (i ← index x; s ← consumer_seqs h !! i; Some (i, s)) = Some (i, s) → r = index x → r = Some i) as Hi.
  { intros r. destruct (index x) as [j|]; [|done]. cbn. destruct (consumer_seqs h !! j); [|done]. cbn. by intros [= <- <-]. }
  destruct (pc x); try (intros E; by apply (Hi _ E)); [done|by intros [= <- <-] ].
Qed.

Lemma held_lt h t pr cs x i : index_inv h t pr cs → x ∈ cs → holds x = Some i → (i < MAX_CONSUMERS)%nat.
Proof. intros Hi Hx Hh. destruct (ii_held _ _ _ _ Hi x i Hx Hh) as (a & Ha & _). apply lookup_lt_Some in Ha. by rewrite (ii_active _ _ _ _ Hi) in Ha. Qed.

Lemma seq_some h t pr cs x i : index_inv h t pr cs → x ∈ cs → holds x = Some i → ∃ s, consumer_seqs h !! i = Some s ∧ 0 ≤ s ≤ pos t.
Proof.
  intros Hi Hx Hh. pose proof (held_lt _ _ _ _ _ _ Hi Hx Hh). destruct (ii_seqs _ _ _ _ Hi) as [Hl Hs].
  destruct (lookup_lt_is_Some_2 (consumer_seqs h) i ltac:(lia)) as [s Es]. eauto.
Qed.

Lemma held_once cs a x b i y : cs = a ++ x :: b → NoDup (omap holds cs) → holds x = Some i → y ∈ a ++ b → holds y ≠ Some i.
Proof.
  intros -> Hn Hx Hy Hi. rewrite omap_app in Hn. cbn in Hn. rewrite Hx in Hn. apply NoDup_app in Hn as (_ & H1 & H2). apply NoDup_cons in H2 as [H2 _].
  apply elem_of_app in Hy as [Hy|Hy]; [apply (H1 i); [|by left]|apply H2]; apply list_elem_of_omap; eauto.
Qed.

(** ** The producer's steps *)

(** The cursor of a thread that is receiving is the producer's concern. *)
Lemma reading_bound h t pr cs x i s :
  index_inv h t pr cs → x ∈ cs → cursor_of h x = Some (i, s) → 0 ≤ s → pos t - s ≤ cap ∧ (writing pr = true → pos t - s < cap).
Proof.
  intros Hi Hx Hc H0. pose proof (ii_cursor _ _ _ _ Hi x i s Hx Hc) as Hcu. destruct (ii_bound _ _ _ _ Hi _ _ Hcu) as (_ & B1 & B2).
  split; [lia|]. intros Hw. specialize (B2 Hw). lia.
Qed.

Lemma odd_bump v : Z.odd (u32 (v + 1)) = negb (Z.odd v).
Proof.
  unfold wrap. rewrite <- (Z.bit0_odd (_ mod _)), Z.mod_pow2_bits_low, Z.bit0_odd, Z.odd_add by lia. by destruct (Z.odd v).
Qed.

(** Threads that wait for no slot do not mind what happens to the slots. *)
Lemma consumer_inv_slots h h' t x :
  consumer_seqs h' = consumer_seqs h → (∀ i s v, cursor_of h x = Some (i, s) → s < pos t → holding h t s v → holding h' t s v) →
  consumer_inv h t x → consumer_inv h' t x.
Proof.
  intros Es Hh. unfold consumer_inv, cursor_of in *. rewrite Es. destruct (pc x); try done.
  all: intros ([H1 H2] & H3 & H4 & H5); rewrite H1 in Hh; cbn in Hh; rewrite H2 in Hh; (split; [done|]); (split; [done|]); (split; [by eapply Hh|done]).
Qed.

(** A write to the slot of the next message. *)
Lemma write_slot h t pr cs pr' f :
  broadcast_inv t {| mem := h; prod := pr; consumers := cs |} → writing pr = true → writing pr' = true →
  (∀ sl, length (payload (f sl)) = length (payload sl)) →
  (∀ sl, slots h !! slot h (pos t) = Some sl → Z.odd (version (f sl)) = true ↔ dirty h pr' = Some (slot h (pos t))) →
  (∀ i, i ≠ slot h (pos t) → dirty h pr' = Some i ↔ dirty h pr = Some i) →
  (∀ sl, slots h !! slot h (pos t) = Some sl → slots (set_slots (alter f (slot h (pos t))) h) !! slot h (pos t) = Some (f sl) →
    producer_inv (set_slots (alter f (slot h (pos t))) h) t pr') →
  broadcast_inv t {| mem := set_slots (alter f (slot h (pos t))) h; prod := pr'; consumers := cs |}.
Proof.
  intros [ [R1 R2 R3 R4 R5 R6 R7 R8] [I1 I2 I3 I4 I5 I6 I7] Hc] Hw Hw' Hl Hv Hd Hp. cbn in *.
  set (h' := set_slots (alter f (slot h (pos t))) h) in *. assert (∀ s, 0 ≤ s < pos t → pos t - s < cap → slots h' !! slot h s = slots h !! slot h s) as Hother.
  { intros s Hs Hlt. cbn. apply list_lookup_alter_ne. intros E. apply (slot_inj cap Hcap) in E; [lia|done|lia]. }
  assert (∀ sl, slots h !! slot h (pos t) = Some sl → slots h' !! slot h (pos t) = Some (f sl)) as Hsame by (intros sl Hsl; cbn; by rewrite list_lookup_alter_eq, Hsl).
  destruct (lookup_lt_is_Some_2 (slots h) (slot h (pos t))) as [sl0 Hsl0]; [rewrite R3; by apply slot_lt|].
  split; cbn; [split; cbn; try done| |].
  - by rewrite length_alter.
  - intros i sl Hi. destruct (decide (i = slot h (pos t))) as [->|Hne].
    + injection (eq_trans (eq_sym (Hsame _ Hsl0)) Hi) as <-. rewrite Hl. by eapply R4.
    + change (alter f (slot h (pos t)) (slots h) !! i = Some sl) in Hi. rewrite list_lookup_alter_ne in Hi by done. by eapply R4.
  - intros i sl Hi. change (dirty h' pr') with (dirty h pr'). destruct (decide (i = slot h (pos t))) as [->|Hne].
    + injection (eq_trans (eq_sym (Hsame _ Hsl0)) Hi) as <-. by apply Hv.
    + change (alter f (slot h (pos t)) (slots h) !! i = Some sl) in Hi. rewrite list_lookup_alter_ne in Hi by done. rewrite Hd by done. by apply R5.
  - intros s m Hs Hle Hlt. apply lookup_lt_Some in Hs as Hs'. destruct (R6 s m Hs Hle ltac:(auto)) as (sl & Hsl & Hm). exists sl. split; [|done].
    rewrite <- Hsl. apply (Hother (Z.of_nat s)); [lia|]. by apply Hlt.
  - by eapply Hp; [|apply Hsame].
  - split; cbn; try done. intros i c Hi. destruct (I7 i c Hi) as (? & ? & ?). auto.
  - apply Forall_forall. intros x Hx. rewrite Forall_forall in Hc. eapply (consumer_inv_slots h); [done| |by apply Hc].
    intros i s v Hcu Hlt (sl & m & Hsl & Hm & Hpl & Hve & Ho). exists sl, m. split_and!; try done. rewrite <- Hsl.
    assert (0 ≤ s) as H0.
    { pose proof (holds_cursor _ _ _ _ Hcu) as Hh. specialize (Hc x Hx). unfold cursor_of, consumer_inv in *.
      destruct (pc x); try done; try (destruct (index x) as [j|]; [|done]; cbn in Hcu; destruct (consumer_seqs h !! j) eqn:Ej; [|done];
        injection Hcu as <- <-; by apply I1 in Ej as [? _]). injection Hcu as <- <-. lia. }
    apply (Hother s); [lia|]. by eapply (reading_bound h t pr cs x i s).
Qed.

(** The producer goes on, the memory as it is. *)
Lemma inv_producer h t pr cs pr' :
  broadcast_inv t {| mem := h; prod := pr; consumers := cs |} → producer_inv h t pr' → dirty h pr' = dirty h pr → (writing pr = true → writing pr' = true) →
  (writing pr' = true → writing pr = true ∨ ∀ j c, cursors t !! j = Some c → pos t - Z.of_nat c < cap) →
  broadcast_inv t {| mem := h; prod := pr'; consumers := cs |}.
Proof.
  intros [ [R1 R2 R3 R4 R5 R6 R7 R8] [I1 I2 I3 I4 I5 I6 I7] Hc] Hp Hd Hw Hw'. cbn in *. split; cbn; [split; try done|split; try done|done].
  - intros i sl. rewrite Hd. apply R5.
  - intros s m Hs Hle Hlt. apply R6; auto.
  - intros i c Hi. destruct (I7 i c Hi) as (? & ? & B). split_and!; try done. intros E. destruct (Hw' E) as [E'|Hb]; [by apply B|by eapply Hb].
Qed.

Lemma scan_sim h t cs m p p' i low any h' pr' ev :
  broadcast_inv t {| mem := h; prod := MinActive m p p' i low any; consumers := cs |} →
  pstep h (MinActive m p p' i low any) = Some (h', pr', ev) →
  h' = h ∧ topic_step (Z.to_nat cap) t ev t ∧ broadcast_inv t {| mem := h; prod := pr'; consumers := cs |}.
Proof.
  intros Hi. pose proof (bi_index _ _ Hi) as Hx. pose proof (ri_producer _ _ _ (bi_ring _ _ Hi)) as (Hs & Hm). pose proof Hs as (-> & -> & Hlow & Hsc). cbn in Hx.
  cbn [pstep]. destruct (consumer_active h !! i) as [a|] eqn:Ea.
  - intros [= <- <- <-]. split; [done|]. split; [constructor|]. destruct (Z.eqb_spec a 0) as [->|Hne]; (eapply inv_producer; [exact Hi| |done|done|done]).
    2:{ split_and!; try done; try apply Hs. rewrite <- (ii_active _ _ _ _ Hx). by eapply lookup_lt_Some. }
    split; [|done]. split_and!; try done. intros j c Hj Hlt. destruct (decide (j = i)) as [->|]; [|apply (Hsc j c Hj); lia].
    destruct (ii_owner _ _ _ _ Hx i c Hj) as (x & Hin & Hh & _). destruct (ii_held _ _ _ _ Hx x i Hin Hh) as (a & Ha & Hz). rewrite Ea in Ha. by injection Ha as <-.
  - apply lookup_ge_None in Ea. rewrite (ii_active _ _ _ _ Hx) in Ea. rewrite (ri_cap _ _ _ (bi_ring _ _ Hi) : capacity h = cap). unfold checked.
    destruct (Z.leb_spec cap (Z.max (pos t - (if any then low else pos t)) 0)) as [Hle|Hgt]; intros [= <- <- <-]; (split; [done|]); (split; [constructor|]).
    + by eapply inv_producer.
    + eapply inv_producer; [exact Hi|done|done|done|]. intros _. right. intros j c Hj.
      destruct (ii_owner _ _ _ _ Hx j c Hj) as (x & Hin & Hh & _). pose proof (held_lt _ _ _ _ _ _ Hx Hin Hh).
      destruct (Hsc j c Hj ltac:(lia)) as [ [-> Hl]|Hl]; lia.
Qed.

Lemma min_seq_sim h t cs m p p' i low any h' pr' ev :
  broadcast_inv t {| mem := h; prod := MinSeq m p p' i low any; consumers := cs |} → pstep h (MinSeq m p p' i low any) = Some (h', pr', ev) →
  h' = h ∧ ev = Tau ∧ broadcast_inv t {| mem := h; prod := pr'; consumers := cs |}.
Proof.
  intros Hi. pose proof (bi_index _ _ Hi) as Hx. pose proof (ri_producer _ _ _ (bi_ring _ _ Hi)) as ((-> & -> & Hlow & Hsc) & Hm & _). cbn in Hx.
  cbn [pstep]. destruct (consumer_seqs h !! i) as [s|] eqn:Es; [|done]. cbn. intros [= <- <- <-]. split; [done|]. split; [done|].
  destruct (ii_seqs _ _ _ _ Hx) as [_ Hr]. pose proof (Hr _ _ Es). eapply inv_producer; [exact Hi| |done|done|done]. split; [|done]. split_and!; try done.
  - intros _. destruct (Z.ltb_spec s low); [lia|]. destruct any; [by apply Hlow|lia].
  - intros j c Hj Hlt. destruct (decide (j = i)) as [->|].
    + left. split; [done|]. destruct (ii_owner _ _ _ _ Hx i c Hj) as (x & Hin & Hh & Hc). pose proof (bi_consumers _ _ Hi) as Hf. cbn in Hf. rewrite Forall_forall in Hf.
      specialize (Hf x Hin). assert (s ≤ Z.of_nat c); [|destruct (Z.ltb_spec s low); lia]. unfold cursor_of, consumer_inv in *.
      destruct (pc x); try done; try (destruct (index x) as [k|]; [|done]; cbn in Hc; destruct (consumer_seqs h !! k) eqn:Ek; [|done]; injection Hc as -> ->; rewrite Es in Ek; injection Ek as ->; lia).
      injection Hc as -> ->. destruct Hf as (_ & _ & s' & Es' & Hle). rewrite Es in Es'. injection Es' as <-. lia.
    + destruct (Hsc j c Hj ltac:(lia)) as [ [_ Hl]|Hl]; [left; split; [done|]; destruct (Z.ltb_spec s low); lia|by right].
Qed.

Lemma next_slot h t pr cs : broadcast_inv t {| mem := h; prod := pr; consumers := cs |} →
  ∃ sl, slots h !! slot h (pos t) = Some sl ∧ length (payload sl) = BROADCAST_PAYLOAD_BYTES ∧ (Z.odd (version sl) = true ↔ dirty h pr = Some (slot h (pos t))).
Proof.
  intros [ [R1 R2 R3 R4 R5 R6 R7 R8] _ _]. cbn in *. destruct (lookup_lt_is_Some_2 (slots h) (slot h (pos t))) as [sl Hsl]; [rewrite R3; by apply slot_lt|].
  exists sl. split; [done|]. split; [by eapply R4|by apply R5].
Qed.

Lemma odd_sim h t cs m p :
  broadcast_inv t {| mem := h; prod := Odd m p; consumers := cs |} → broadcast_inv t {| mem := bump h p; prod := Copy m p (writes m); consumers := cs |}.
Proof.
  intros Hi. pose proof (ri_producer _ _ _ (bi_ring _ _ Hi)) as [-> Hm]. destruct (next_slot _ _ _ _ Hi) as (sl & Hsl & Hl & Hv). cbn in Hv.
  apply (write_slot h t (Odd m (pos t))); try done.
  - intros sl' Hsl'. rewrite Hsl in Hsl'. injection Hsl' as <-. cbn. rewrite odd_bump. destruct (Z.odd (version sl)); [by destruct Hv as [Hv _]; specialize (Hv eq_refl)|done].
  - cbn. naive_solver.
  - intros sl' Hsl' Hsl2. split_and!; [done|done|]. rewrite Hsl in Hsl'. injection Hsl' as <-. eexists. split; [exact Hsl2|]. by apply put_writes.
Qed.

Lemma copy_sim h t cs m p o (x : Z) todo :
  broadcast_inv t {| mem := h; prod := Copy m p ((o, x) :: todo); consumers := cs |} →
  broadcast_inv t {| mem := put_byte h p o x; prod := Copy m p todo; consumers := cs |}.
Proof.
  intros Hi. pose proof (ri_producer _ _ _ (bi_ring _ _ Hi)) as (-> & Hm & sl0 & Hsl0 & Hput). destruct (next_slot _ _ _ _ Hi) as (sl & Hsl & Hl & Hv). cbn in Hv, Hsl0.
  rewrite Hsl in Hsl0. injection Hsl0 as <-. apply (write_slot h t (Copy m (pos t) ((o, x) :: todo))); try done.
  - intros sl'. cbn. apply length_insert.
  - intros sl' Hsl'. rewrite Hsl in Hsl'. by injection Hsl' as <-.
  - intros sl' Hsl' Hsl2. split_and!; [done|done|]. rewrite Hsl in Hsl'. injection Hsl' as <-. eexists. by split.
Qed.

Lemma even_sim h t cs m p :
  broadcast_inv t {| mem := h; prod := Even m p; consumers := cs |} → broadcast_inv t {| mem := bump h p; prod := Advance m p; consumers := cs |}.
Proof.
  intros Hi. pose proof (ri_producer _ _ _ (bi_ring _ _ Hi)) as (-> & Hm & sl0 & Hsl0 & Hput). destruct (next_slot _ _ _ _ Hi) as (sl & Hsl & Hl & Hv). cbn in Hv, Hsl0.
  rewrite Hsl in Hsl0. injection Hsl0 as <-. apply (write_slot h t (Even m (pos t))); try done.
  - intros sl' Hsl'. rewrite Hsl in Hsl'. injection Hsl' as <-. cbn. rewrite odd_bump. rewrite (proj2 Hv eq_refl). done.
  - cbn. naive_solver.
  - intros sl' Hsl' Hsl2. split_and!; [done|done|]. rewrite Hsl in Hsl'. injection Hsl' as <-. eexists. by split.
Qed.

Lemma advance_sim h t cs m p :
  broadcast_inv t {| mem := h; prod := Advance m p; consumers := cs |} → pos t < 2 ^ 63 →
  let t' := {| log := log t ++ [pad BROADCAST_PAYLOAD_BYTES m]; cursors := cursors t |} in
  topic_step (Z.to_nat cap) t (Published m) t' ∧ broadcast_inv t' {| mem := set_producer (u64 (producer_seq h + 1)) h; prod := PIdle; consumers := cs |}.
Proof.
  intros [ [R1 R2 R3 R4 R5 R6 R7 (-> & Hm & sl & Hsl & Hpl)] [I1 I2 I3 I4 I5 I6 I7] Hc] Hb. cbn in *. split.
  { constructor; [|done]. intros i c Hi. destruct (I7 i c Hi) as (? & ? & B). specialize (B eq_refl). lia. }
  assert (pos {| log := log t ++ [pad BROADCAST_PAYLOAD_BYTES m]; cursors := cursors t |} = pos t + 1) as Ep by (cbn; rewrite length_app; cbn; lia).
  split; cbn; [split; cbn|split; cbn|]; try done.
  - rewrite R2, (wrap_small 64), length_app by lia. cbn. lia.
  - intros s x. rewrite lookup_app. destruct (log t !! s) as [x'|] eqn:Es.
    + intros [= <-] Hle _. apply R6; [done| |intros _]; rewrite length_app in Hle; cbn in Hle; lia.
    + intros Hx. apply lookup_ge_None in Es. destruct (s - length (log t))%nat as [|k] eqn:Ek; [|done]. injection Hx as <-. intros _ _.
      replace s with (length (log t)) by lia. by exists sl.
  - intros s x. rewrite lookup_app. destruct (log t !! s) as [x'|] eqn:Es; [intros [= <-]; by eapply R7|].
    intros Hx. destruct (s - length (log t))%nat as [|k]; [|done]. injection Hx as <-. by apply length_pad.
  - destruct I1 as [? I1]. split; [done|]. intros i s Hs. rewrite length_app. specialize (I1 i s Hs). cbn. lia.
  - intros i c Hi. destruct (I7 i c Hi) as (? & ? & B). specialize (B eq_refl). rewrite length_app. cbn. split_and!; [lia|lia|done].
  - eapply Forall_impl; [exact Hc|]. intros x. unfold consumer_inv. cbn -[Z.of_nat]. rewrite length_app. cbn -[Z.of_nat].
    assert (∀ s (got : list Z) k, s < pos t → 0 ≤ s → (∀ m0, log t !! Z.to_nat s = Some m0 → got = take k m0) →
      ∀ m0, (log t ++ [pad BROADCAST_PAYLOAD_BYTES m]) !! Z.to_nat s = Some m0 → got = take k m0) as Hgot.
    { intros s got k Hlt H0 Hg m0. rewrite lookup_app_l by lia. apply Hg. }
    assert (∀ s v, holding h t s v → holding (set_producer (u64 (producer_seq h + 1)) h) {| log := log t ++ [pad BROADCAST_PAYLOAD_BYTES m]; cursors := cursors t |} s v) as Hhold.
    { intros s v (sl0 & m0 & H1 & H2 & H3). exists sl0, m0. split_and!; try apply H3; try done. cbn. by apply lookup_app_l_Some. }
    destruct I1 as [_ I1]. destruct (pc x); try done.
    + intros (? & ? & ?). split_and!; try done; lia.
    + intros (? & ?). split_and!; try apply H; lia.
    + intros ((H1 & H2) & H3 & H4 & H5 & H6). pose proof (I1 _ _ H2). split_and!; try done; [lia|by apply Hhold|apply Hgot; (lia || done)].
    + intros ((H1 & H2) & H3 & H4 & H5). pose proof (I1 _ _ H2). split_and!; try done; [lia|by apply Hhold|apply Hgot; (lia || done)].
    + intros (s & (H1 & H2) & H3 & H4). pose proof (I1 _ _ H2). exists s. split_and!; try done; [lia|apply Hgot; (lia || done)].
Qed.

Lemma pstep_sim h t pr cs h' pr' ev :
  broadcast_inv t {| mem := h; prod := pr; consumers := cs |} → pos t < 2 ^ 63 → pstep h pr = Some (h', pr', ev) →
  ∃ t', topic_step (Z.to_nat cap) t ev t' ∧ broadcast_inv t' {| mem := h'; prod := pr'; consumers := cs |}.
Proof.
  intros Hi Hb. destruct pr as [|m p|m p p' i low any|m p p' i low any|m p|m p [|[o x] todo]|m p|m p]; try done.
  - intros [= <- <- <-]. exists t. split; [constructor|]. pose proof (bi_ring _ _ Hi) as [R1 R2 _ _ _ _ _ (-> & Hm)]. cbn in *.
    eapply inv_producer; [exact Hi| |done|done|done]. split; [|done]. split_and!; try done; [intros j c _ ?; lia].
  - intros Hs. destruct (scan_sim _ _ _ _ _ _ _ _ _ _ _ _ Hi Hs) as (-> & ? & ?). eauto.
  - intros Hs. destruct (min_seq_sim _ _ _ _ _ _ _ _ _ _ _ _ Hi Hs) as (-> & -> & ?). exists t. split; [constructor|done].
  - intros [= <- <- <-]. exists t. split; [constructor|by apply odd_sim].
  - intros [= <- <- <-]. exists t. split; [constructor|]. pose proof (ri_producer _ _ _ (bi_ring _ _ Hi)) as (? & ? & sl & ? & ?).
    eapply inv_producer; [exact Hi| |done|done|by left]. split_and!; eauto.
  - intros [= <- <- <-]. exists t. split; [constructor|by apply copy_sim].
  - intros [= <- <- <-]. exists t. split; [constructor|by apply even_sim].
  - intros [= <- <- <-]. eexists. by apply (advance_sim h t cs m p).
Qed.

(** ** The consumers' steps *)

(** A consumer goes on, the memory as it is. *)
Lemma inv_consumer h t pr a x x' b :
  broadcast_inv t {| mem := h; prod := pr; consumers := a ++ x :: b |} → holds x' = holds x → cursor_of h x' = cursor_of h x → consumer_inv h t x' →
  broadcast_inv t {| mem := h; prod := pr; consumers := a ++ x' :: b |}.
Proof.
  intros [Hr [I1 I2 I3 I4 I5 I6 I7] Hc] Hh Hcu Hx. cbn in *. split; cbn; [done|split; try done|].
  - intros y i [->|Hy]%elem_of_replace Hi; [rewrite Hh in Hi; apply (I3 x)|apply (I3 y)]; try done; apply elem_of_replace; auto.
  - rewrite omap_app in *. cbn in *. by rewrite Hh.
  - intros y i s [->|Hy]%elem_of_replace Hi; [rewrite Hcu in Hi; apply (I5 x)|apply (I5 y)]; try done; apply elem_of_replace; auto.
  - intros i c Hi. destruct (I6 i c Hi) as (y & [->|Hy]%elem_of_replace & H1 & H2); [exists x'|exists y]; rewrite elem_of_replace; split_and!; auto; congruence.
  - rewrite Forall_app, Forall_cons in *. tauto.
Qed.

Lemma cursor_of_other h h' y i :
  holds y ≠ Some i → (∀ j, j ≠ i → consumer_seqs h' !! j = consumer_seqs h !! j) → cursor_of h' y = cursor_of h y.
Proof.
  intros Hh Hs. unfold holds, cursor_of in *. destruct (pc y); try done; (destruct (index y) as [j|]; [|done]); cbn; rewrite Hs; congruence.
Qed.

Lemma consumer_inv_other h h' t t' y i :
  holds y ≠ Some i → (∀ j, j ≠ i → consumer_seqs h' !! j = consumer_seqs h !! j) → slots h' = slots h → capacity h' = capacity h → log t' = log t →
  consumer_inv h t y → consumer_inv h' t' y.
Proof.
  intros Hh Hs Hsl Hc Hl. assert (∀ s v, holding h t s v → holding h' t' s v) as Hho by (intros s v; unfold holding, slot; by rewrite Hsl, Hc, Hl).
  unfold holds, consumer_inv in *. rewrite Hl. destruct (pc y) as [|? ?|?|j p|? ?|? ?|j n s|j n s|j n s v got|j n s v got|j n got|?]; try done.
  - intros (? & ? & s & Es & ?). split_and!; try done; try lia. exists s. rewrite Hs by congruence. done.
  - intros [H1 H2]. rewrite Hs by congruence. done.
  - intros [ [H1 H2] H3]. rewrite Hs by congruence. done.
  - intros ([H1 H2] & H3 & H4 & H5). rewrite Hs by congruence. split; [done|]. split; [done|]. split; [by apply Hho|done].
  - intros ([H1 H2] & H3 & H4 & H5). rewrite Hs by congruence. split; [done|]. split; [done|]. split; [by apply Hho|done].
  - intros (s & [H1 H2] & H3 & H4). exists s. rewrite Hs by congruence. done.
Qed.

Lemma alone_replace a b x x' i :
  NoDup (omap holds (a ++ x :: b)) → (∀ y, y ∈ a ++ b → holds y ≠ Some i) → holds x' = None ∨ holds x' = Some i → NoDup (omap holds (a ++ x' :: b)).
Proof.
  intros Hn Ho Hx'. assert (NoDup (omap holds (a ++ b))) as Hab.
  { rewrite omap_app in *. cbn in Hn. destruct (holds x); [|done]. apply NoDup_app in Hn as (N1 & N2 & [_ N3]%NoDup_cons). apply NoDup_app. split_and!; try done.
    intros j Hj Hj'. apply (N2 j Hj). by right. }
  rewrite omap_app in *. cbn. destruct Hx' as [->| ->]; [done|]. apply NoDup_app in Hab as (N1 & N2 & N3).
  assert (∀ l, (∀ y, y ∈ l → holds y ≠ Some i) → i ∉ omap holds l) as Hni by (intros l Hl (y & Hy & Hi)%list_elem_of_omap; by apply (Hl y)).
  apply NoDup_app. split_and!; [done| |apply NoDup_cons; split; [|done]; apply Hni; intros y Hy; apply Ho, elem_of_app; by right].
  intros j Hj [->|Hj']%elem_of_cons; [|by apply (N2 j)]. revert Hj. apply Hni. intros y Hy. apply Ho, elem_of_app. by left.
Qed.

(** A step of the thread that has, or gets, index [i]. *)
Lemma inv_index t t' h h' pr a x x' b i :
  broadcast_inv t {| mem := h; prod := pr; consumers := a ++ x :: b |} →
  capacity h' = capacity h → producer_seq h' = producer_seq h → slots h' = slots h → log t' = log t →
  length (consumer_seqs h') = length (consumer_seqs h) → length (consumer_active h') = length (consumer_active h) →
  (∀ j, j ≠ i → consumer_seqs h' !! j = consumer_seqs h !! j ∧ consumer_active h' !! j = consumer_active h !! j ∧ cursors t' !! j = cursors t !! j) →
  (∀ y, y ∈ a ++ b → holds y ≠ Some i) → holds x = None ∨ holds x = Some i →
  (holds x' = None ∨ holds x' = Some i ∧ ∃ v, consumer_active h' !! i = Some v ∧ v ≠ 0) →
  (∀ s, consumer_seqs h' !! i = Some s → 0 ≤ s ≤ pos t) →
  match cursors t' !! i with
  | Some c => cursor_of h' x' = Some (i, Z.of_nat c) ∧ (c = length (log t) ∨ ∃ c0, cursors t !! i = Some c0 ∧ (c0 ≤ c ≤ length (log t))%nat)
  | None => cursor_of h' x' = None
  end →
  consumer_inv h' t' x' → broadcast_inv t' {| mem := h'; prod := pr; consumers := a ++ x' :: b |}.
Proof.
  intros [ [R1 R2 R3 R4 R5 R6 R7 R8] [I1 I2 I3 I4 I5 I6 I7] Hc] Ec Ep Es El L1 L2 Hne Hoth Hx Hx' Hseq Hcu Hix'. cbn in *.
  assert (∀ j, slot h' j = slot h j) as Esl by (intros j; unfold slot; by rewrite Ec).
  assert (dirty h' pr = dirty h pr) as Ed by (unfold dirty; destruct pr; by rewrite ?Esl).
  assert (∀ c, cursors t' !! i = Some c → c = length (log t) ∨ ∃ c0, cursors t !! i = Some c0 ∧ (c0 ≤ c ≤ length (log t))%nat) as Hci.
  { intros c E. rewrite E in Hcu. apply Hcu. }
  assert (holds x' = None ∨ holds x' = Some i) as Hhx' by tauto.
  split; cbn; [split|split|]; rewrite ?El; try done; try congruence.
  - by rewrite Es.
  - by rewrite Es, Ed.
  - intros s m. rewrite Es, Esl. apply R6.
  - assert (∀ p p' k low any, scanned t p p' k low any → scanned t' p p' k low any) as Hsc.
    { intros p p' k low any (-> & -> & S1 & S2). unfold scanned. rewrite El. split_and!; try done. intros j c Hj Hlt. destruct (decide (j = i)) as [->|Hji].
      - destruct (Hci c Hj) as [->|(c0 & Hc0 & Hle)]; [by right|]. destruct (S2 i c0 Hc0 Hlt) as [ [? ?]| ->]; [left; split; [done|lia]|right; lia].
      - destruct (Hne j Hji) as (_ & _ & E). rewrite E in Hj. by apply (S2 j). }
    unfold producer_inv in *. destruct pr; rewrite ?El, ?Esl, ?Es; try done; destruct R8; split; auto.
  - split; [lia|]. intros j s Hj. destruct (decide (j = i)) as [->|Hji]; [by apply Hseq|]. destruct (Hne j Hji) as (E & _). rewrite E in Hj. by eapply I1.
  - intros y j [->|Hy]%elem_of_replace Hj.
    + destruct Hx' as [E|[E Hv] ]; rewrite E in Hj; [done|]. injection Hj as <-. done.
    + assert (j ≠ i) as Hji by (intros ->; by apply (Hoth y)). destruct (Hne j Hji) as (_ & -> & _). apply (I3 y); [apply elem_of_replace; by right|done].
  - by eapply alone_replace.
  - intros y j s [->|Hy]%elem_of_replace Hj.
    + assert (j = i) as ->. { pose proof (holds_cursor _ _ _ _ Hj) as Hh. destruct Hhx' as [E|E]; congruence. }
      destruct (cursors t' !! i) as [c|]; [|congruence]. destruct Hcu as [E _]. rewrite E in Hj. injection Hj as <-. by rewrite Nat2Z.id.
    + rewrite (cursor_of_other h h' y i) in Hj; [|by apply Hoth|intros k Hk; by apply Hne]. assert (j ≠ i) as Hji.
      { intros ->. apply (Hoth y Hy). by eapply holds_cursor. }
      destruct (Hne j Hji) as (_ & _ & ->). apply (I5 y); [apply elem_of_replace; by right|done].
  - intros j c Hj. destruct (decide (j = i)) as [->|Hji].
    + rewrite Hj in Hcu. destruct Hcu as [E _]. exists x'. split; [apply elem_of_replace; by left|]. split; [by eapply holds_cursor|done].
    + destruct (Hne j Hji) as (_ & _ & E). rewrite E in Hj. destruct (I6 j c Hj) as (y & [->|Hy]%elem_of_replace & H1 & H2); [destruct Hx; congruence|].
      exists y. split; [apply elem_of_replace; by right|]. split; [done|]. rewrite <- H2. apply (cursor_of_other h h' y i); [by apply Hoth|intros k Hk; by apply Hne].
  - intros j c Hj. destruct (decide (j = i)) as [->|Hji]; [|destruct (Hne j Hji) as (_ & _ & E); rewrite E in Hj; by apply (I7 j)].
    destruct (Hci c Hj) as [->|(c0 & Hc0 & Hle)]; [split_and!; [lia|lia|intros _; lia]|]. destruct (I7 i c0 Hc0) as (B1 & B2 & B3). split_and!; [lia|lia|].
    intros Hw. specialize (B3 Hw). lia.
  - rewrite Forall_forall in *. intros y [->|Hy]%elem_of_replace; [done|]. eapply (consumer_inv_other h h' t t' y i); try done; [by apply Hoth|intros j Hj; by apply Hne|].
    apply Hc, elem_of_replace. by right.
Qed.

Section step.
Context (t : topic) (h : BroadcastHeader) (pr : producer) (a b : list consumer) (x : consumer).
Hypotheses (Hi : broadcast_inv t {| mem := h; prod := pr; consumers := a ++ x :: b |}) (Hb : pos t < 2 ^ 63).

Lemma this_in : x ∈ a ++ x :: b.
Proof. apply elem_of_replace. by left. Qed.

Lemma this_inv : consumer_inv h t x.
Proof. pose proof (bi_consumers _ _ Hi) as Hf. cbn in Hf. rewrite Forall_forall in Hf. apply Hf, this_in. Qed.

Lemma others i : holds x = Some i → ∀ y, y ∈ a ++ b → holds y ≠ Some i.
Proof. intros Hx y Hy. eapply held_once; [reflexivity|apply (bi_index _ _ Hi)|done|done]. Qed.

Lemma this_cursor i s : cursor_of h x = Some (i, s) → cursors t !! i = Some (Z.to_nat s) ∧ 0 ≤ s ≤ pos t.
Proof.
  intros Hc. pose proof (ii_cursor _ _ _ _ (bi_index _ _ Hi) x i s this_in Hc) as Hcu. split; [done|].
  pose proof this_inv as Hx. destruct (ii_seqs _ _ _ _ (bi_index _ _ Hi)) as [_ Hs]. cbn in Hs. unfold cursor_of, consumer_inv in *.
  destruct (pc x); try done; try (destruct (index x) as [j|]; [|done]; cbn in Hc; destruct (consumer_seqs h !! j) eqn:Ej; [|done]; injection Hc as <- <-; by eapply Hs).
  injection Hc as <- <-. lia.
Qed.

Definition goes (h' : BroadcastHeader) (x' : consumer) (ev : event) : Prop :=
  ∃ t', topic_step (Z.to_nat cap) t ev t' ∧ broadcast_inv t' {| mem := h'; prod := pr; consumers := a ++ x' :: b |}.

Lemma goes_quiet x' ev : topic_step (Z.to_nat cap) t ev t → holds x' = holds x → cursor_of h x' = cursor_of h x → consumer_inv h t x' → goes h x' ev.
Proof. intros Ht H1 H2 H3. exists t. split; [done|]. by eapply inv_consumer. Qed.

Lemma reg_cas_sim i : pc x = RegCas i false ∨ pc x = RegCas i true → consumer_active h !! i = Some 0 → goes (set_active i 1 h) (goto x (RegLoad i)) Tau.
Proof.
  intros Hpc Ha. assert (index x = None) as Hx by (pose proof this_inv as Hc; unfold consumer_inv in Hc; destruct Hpc as [E|E]; by rewrite E in Hc).
  assert (holds x = None) as Hh by (unfold holds; destruct Hpc as [-> | ->]; done).
  assert (∀ y, y ∈ a ++ x :: b → holds y ≠ Some i) as Hfree.
  { intros y Hy Hyi. destruct (ii_held _ _ _ _ (bi_index _ _ Hi) y i Hy Hyi) as (v & Hv & Hz). cbn in Hv. congruence. }
  assert (cursors t !! i = None) as Hcu.
  { destruct (cursors t !! i) as [c|] eqn:E; [|done]. destruct (ii_owner _ _ _ _ (bi_index _ _ Hi) i c E) as (y & Hy & Hyi & _). by destruct (Hfree y). }
  exists t. split; [constructor|]. eapply (inv_index t t h _ pr a x _ b i); [exact Hi|done|done|done|done| | | | | | | | |]; cbn.
  - done.
  - apply length_insert.
  - intros j Hj. by rewrite list_lookup_insert_ne.
  - intros y Hy. apply Hfree, elem_of_replace. by right.
  - by left.
  - right. split; [done|]. exists 1. rewrite list_lookup_insert_eq; [done|by eapply lookup_lt_Some].
  - intros s Hs. destruct (ii_seqs _ _ _ _ (bi_index _ _ Hi)) as [_ Hr]. by eapply Hr.
  - by rewrite Hcu.
  - done.
Qed.

Lemma reg_load_sim i : pc x = RegLoad i → goes h (goto x (RegStore i (producer_seq h))) (Registered i).
Proof.
  intros Hpc. pose proof this_inv as Hc. unfold consumer_inv in Hc. rewrite Hpc in Hc. assert (holds x = Some i) as Hh by (unfold holds; by rewrite Hpc).
  assert (cursor_of h x = None) as Hcx by (unfold cursor_of; by rewrite Hpc). assert (cursors t !! i = None) as Hcu.
  { destruct (cursors t !! i) as [c|] eqn:E; [|done]. destruct (ii_owner _ _ _ _ (bi_index _ _ Hi) i c E) as (y & [->|Hy]%elem_of_replace & Hyi & Hyc); cbn in *; [congruence|].
    by destruct (others i Hh y Hy). }
  pose proof (ri_pos _ _ _ (bi_ring _ _ Hi)) as Ep. cbn in Ep. destruct (seq_some _ _ _ _ _ _ (bi_index _ _ Hi) this_in Hh) as (s & Hs & Hsr). cbn in Hs.
  eexists. split; [by apply topic_register|]. eapply (inv_index t _ h _ pr a x _ b i); [exact Hi|done|done|done|done| | | | | | | | |]; cbn.
  - done.
  - done.
  - intros j Hj. by rewrite lookup_insert_ne.
  - by apply others.
  - by right.
  - right. split; [done|]. by apply (ii_held _ _ _ _ (bi_index _ _ Hi) x i this_in).
  - intros s' Hs'. destruct (ii_seqs _ _ _ _ (bi_index _ _ Hi)) as [_ Hr]. by eapply Hr.
  - rewrite lookup_insert_eq. cbn. rewrite Ep. auto.
  - unfold consumer_inv. cbn. split_and!; [done|lia|lia|]. exists s. split; [done|lia].
Qed.

Lemma reg_store_sim i p : pc x = RegStore i p → goes (set_seq i p h) {| index := Some i; pc := Idle |} Tau.
Proof.
  intros Hpc. pose proof this_inv as Hc. unfold consumer_inv in Hc. rewrite Hpc in Hc. destruct Hc as (Hx & Hp & s & Hs & Hle). assert (holds x = Some i) as Hh by (unfold holds; by rewrite Hpc).
  destruct (this_cursor i p) as [Hcu _]; [unfold cursor_of; by rewrite Hpc|]. apply lookup_lt_Some in Hs as Hlt.
  exists t. split; [constructor|]. eapply (inv_index t t h _ pr a x _ b i); [exact Hi|done|done|done|done| | | | | | | | |]; cbn.
  - apply length_insert.
  - done.
  - intros j Hj. by rewrite list_lookup_insert_ne.
  - by apply others.
  - by right.
  - right. split; [done|]. by apply (ii_held _ _ _ _ (bi_index _ _ Hi) x i this_in).
  - intros s'. rewrite list_lookup_insert_eq by done. by intros [= <-].
  - rewrite Hcu. unfold cursor_of. cbn. rewrite list_lookup_insert_eq by done. cbn. split; [f_equal; f_equal; lia|]. right. exists (Z.to_nat p). split; [done|lia].
  - done.
Qed.

Lemma add_sim i n got s : pc x = RecvAdd i n got → consumer_seqs h !! i = Some s → goes (set_seq i (u64 (s + 1)) h) (goto x Idle) (Received i n got).
Proof.
  intros Hpc Hs. pose proof this_inv as Hc. unfold consumer_inv in Hc. rewrite Hpc in Hc. destruct Hc as (s' & [Hx Hs'] & Hlt & Hg). rewrite Hs in Hs'. injection Hs' as <-.
  assert (holds x = Some i) as Hh by (unfold holds; by rewrite Hpc). destruct (this_cursor i s) as [Hcu Hsr]; [unfold cursor_of; rewrite Hpc, Hx; cbn; by rewrite Hs|].
  destruct (lookup_lt_is_Some_2 (log t) (Z.to_nat s) ltac:(lia)) as [m Hm]. rewrite (wrap_small 64) by lia. apply lookup_lt_Some in Hs as Hil.
  eexists. split; [rewrite (Hg m Hm); by eapply topic_receive|]. eapply (inv_index t _ h _ pr a x _ b i); [exact Hi|done|done|done|done| | | | | | | | |]; cbn.
  - apply length_insert.
  - done.
  - intros j Hj. by rewrite list_lookup_insert_ne, lookup_insert_ne.
  - by apply others.
  - by right.
  - right. split; [done|]. by apply (ii_held _ _ _ _ (bi_index _ _ Hi) x i this_in).
  - intros s'. rewrite list_lookup_insert_eq by done. intros [= <-]. lia.
  - rewrite lookup_insert_eq. unfold cursor_of. cbn. rewrite Hx. cbn. rewrite list_lookup_insert_eq by done. cbn. split; [f_equal; f_equal; lia|].
    right. exists (Z.to_nat s). split; [done|lia].
  - done.
Qed.

Lemma unreg_sim i : pc x = UnregStore i → goes (set_active i 0 h) {| index := None; pc := Idle |} (Unregistered i).
Proof.
  intros Hpc. pose proof this_inv as Hc. unfold consumer_inv in Hc. rewrite Hpc in Hc. assert (holds x = Some i) as Hh by (unfold holds; by rewrite Hpc).
  destruct (seq_some _ _ _ _ _ _ (bi_index _ _ Hi) this_in Hh) as (s & Hs & Hsr). cbn in Hs.
  destruct (this_cursor i s) as [Hcu _]; [unfold cursor_of; rewrite Hpc, Hc; cbn; by rewrite Hs|].
  eexists. split; [by eapply topic_unregister|]. eapply (inv_index t _ h _ pr a x _ b i); [exact Hi|done|done|done|done| | | | | | | | |]; cbn.
  - done.
  - apply length_insert.
  - intros j Hj. by rewrite list_lookup_insert_ne, lookup_delete_ne.
  - by apply others.
  - by right.
  - by left.
  - intros s' Hs'. destruct (ii_seqs _ _ _ _ (bi_index _ _ Hi)) as [_ Hr]. by eapply Hr.
  - by rewrite lookup_delete_eq.
  - done.
Qed.

(** The slot of a message that waits to be read holds it, and is at rest. *)
Lemma reading_slot i s :
  cursor_of h x = Some (i, s) → s < pos t → ∃ sl, slots h !! slot h s = Some sl ∧ holding h t s (version sl).
Proof.
  intros Hc Hlt. destruct (this_cursor i s Hc) as [Hcu Hsr]. destruct (reading_bound _ _ _ _ _ _ _ (bi_index _ _ Hi) this_in Hc ltac:(lia)) as [B1 B2]. cbn in B2.
  destruct (bi_ring _ _ Hi) as [R1 R2 R3 R4 R5 R6 R7 R8]. cbn in *. destruct (lookup_lt_is_Some_2 (log t) (Z.to_nat s) ltac:(lia)) as [m Hm].
  destruct (R6 (Z.to_nat s) m Hm ltac:(lia)) as (sl & Hsl & Hpl); [intros Hw; specialize (B2 Hw); lia|]. rewrite Z2Nat.id in Hsl by lia.
  exists sl. split; [done|]. exists sl, m. split_and!; try done. destruct (Z.odd (version sl)) eqn:Eo; [|done]. apply (R5 _ _ Hsl) in Eo.
  assert (∀ p : Z, writing pr = true → p = pos t → Some (slot h p) = Some (slot h s) → False) as Hno.
  { intros p Hw -> [= E]. specialize (B2 Hw). apply (slot_inj cap Hcap) in E; [lia|done|lia]. }
  unfold dirty in Eo. destruct pr; try done; exfalso; (eapply Hno; [done|apply R8|done]).
Qed.

Lemma cstep_sim h' x' ev : cstep h x = Some (h', x', ev) → goes h' x' ev.
Proof.
  pose proof this_inv as Hc. unfold cstep, consumer_inv in *. pose proof (bi_index _ _ Hi) as Hx. cbn in Hx.
  destruct (pc x) as [|i only|i|i p|i n|i n|i n s|i n s|i n s v got|i n s v got|i n got|i] eqn:Hpc; try done.
  - destruct (consumer_active h !! i) as [v|] eqn:Ea.
    + destruct (Z.eqb_spec v 0) as [->|]; [intros [= <- <- <-]; apply reg_cas_sim; [destruct only; [by right|by left]|done]|].
      destruct only; intros [= <- <- <-]; (apply goes_quiet; [constructor|..]); unfold holds, cursor_of; cbn; rewrite ?Hpc, ?Hc; done.
    + intros [= <- <- <-]. apply goes_quiet; [constructor|..]; unfold holds, cursor_of; cbn; rewrite ?Hpc, ?Hc; done.
  - intros [= <- <- <-]. by apply reg_load_sim.
  - intros [= <- <- <-]. by apply reg_store_sim.
  - assert (holds x = Some i) as Hh by (unfold holds; by rewrite Hpc). pose proof (held_lt _ _ _ _ _ _ Hx this_in Hh) as Hlt. rewrite (proj2 (Nat.leb_gt _ _)) by lia.
    destruct (ii_held _ _ _ _ Hx x i this_in Hh) as (v & -> & Hz). cbn. rewrite (proj2 (Z.eqb_neq _ _) Hz). intros [= <- <- <-].
    apply goes_quiet; [constructor|..]; unfold holds, cursor_of; cbn; rewrite ?Hpc; done.
  - destruct (consumer_seqs h !! i) as [s|] eqn:Es; [|done]. cbn. intros [= <- <- <-].
    apply goes_quiet; [constructor|..]; unfold holds, cursor_of; cbn; rewrite ?Hpc; done.
  - destruct Hc as [Hix Hs]. assert (cursor_of h x = Some (i, s)) as Hcx by (unfold cursor_of; rewrite Hpc, Hix; cbn; by rewrite Hs).
    pose proof (ri_pos _ _ _ (bi_ring _ _ Hi)) as Ep. cbn in Ep. destruct (this_cursor i s Hcx) as [Hcu Hsr].
    destruct (Z.leb_spec (producer_seq h) s) as [Hle|Hgt]; intros [= <- <- <-]; (apply goes_quiet; [|unfold holds, cursor_of; cbn; rewrite ?Hpc; done..|]).
    + constructor. rewrite Hcu. f_equal. lia.
    + done.
    + constructor.
    + unfold consumer_inv. cbn. split; [done|lia].
  - destruct Hc as ([Hix Hs] & Hlt). assert (cursor_of h x = Some (i, s)) as Hcx by (unfold cursor_of; rewrite Hpc, Hix; cbn; by rewrite Hs).
    destruct (reading_slot i s Hcx Hlt) as (sl & Hsl & Hho). rewrite Hsl. cbn. assert (Z.odd (version sl) = false) as -> by (destruct Hho as (? & ? & _ & _ & _ & _ & ?); done).
    intros [= <- <- <-]. apply goes_quiet; [constructor|unfold holds, cursor_of; cbn; rewrite ?Hpc; done..|]. unfold consumer_inv. cbn. split_and!; try done. lia.
  - destruct Hc as ([Hix Hs] & Hlt & Hho & Hl & Hg). destruct (Nat.ltb_spec (length got) (n `min` BROADCAST_PAYLOAD_BYTES)) as [Hlg|Hge].
    + pose proof Hho as (sl & m & Hsl & Hm & Hpl & Hv & Ho). rewrite Hsl. cbn. destruct (payload sl !! length got) as [y|] eqn:Ey; [|done]. cbn. intros [= <- <- <-].
      apply goes_quiet; [constructor|unfold holds, cursor_of; cbn; rewrite ?Hpc; done..|]. unfold consumer_inv. cbn. split_and!; try done; [by rewrite length_app; cbn; lia|].
      intros m' Hm'. rewrite Hm in Hm'. injection Hm' as <-. rewrite length_app. cbn. rewrite Nat.add_1_r, (take_S_r m (length got) y) by (by rewrite <- Hpl). by rewrite <- (Hg m Hm).
    + intros [= <- <- <-]. apply goes_quiet; [constructor|unfold holds, cursor_of; cbn; rewrite ?Hpc; done..|]. unfold consumer_inv. cbn -[Nat.min]. split_and!; try done.
      replace (n `min` BROADCAST_PAYLOAD_BYTES)%nat with (length got) by lia. done.
  - destruct Hc as ([Hix Hs] & Hlt & Hho & Hg). pose proof Hho as (sl & m & Hsl & Hm & Hpl & Hv & Ho). rewrite Hsl. cbn. rewrite (proj2 (Z.eqb_eq _ _) Hv). intros [= <- <- <-].
    apply goes_quiet; [constructor|unfold holds, cursor_of; cbn; rewrite ?Hpc; done..|]. unfold consumer_inv. cbn. exists s. done.
  - destruct (consumer_seqs h !! i) as [s|] eqn:Es; [|done]. cbn. intros [= <- <- <-]. by apply add_sim.
  - assert (holds x = Some i) as Hh by (unfold holds; by rewrite Hpc). pose proof (held_lt _ _ _ _ _ _ Hx this_in Hh) as Hlt. rewrite (proj2 (Nat.leb_gt _ _)) by lia.
    intros [= <- <- <-]. by apply unreg_sim.
Qed.
End step.
End invariant.

(** ** Runs *)

Definition published (ls : list event) : list (list Z) :=
  omap (λ ev, match ev with Published m => Some (pad BROADCAST_PAYLOAD_BYTES m) | _ => None end) ls.
(** What consumer [i] received: the length of its buffer, and the bytes. *)
Definition received (i : nat) (ls : list event) : list (nat * list Z) :=
  omap (λ ev, match ev with Received j n bytes => if decide (i = j) then Some (n, bytes) else None | _ => None end) ls.
(** Consumer [i] neither leaves nor is replaced. *)
Definition stays (i : nat) (ls : list event) : Prop := Registered i ∉ ls ∧ Unregistered i ∉ ls.

Lemma received_hit i n bs ls : received i (Received i n bs :: ls) = (n, bs) :: received i ls.
Proof. unfold received. cbn. by rewrite decide_True. Qed.
Lemma received_miss i j n bs ls : i ≠ j → received i (Received j n bs :: ls) = received i ls.
Proof. intros Hne. unfold received. cbn. by rewrite decide_False. Qed.

Section runs.
Context (cap : Z).
Hypothesis Hcap : 2 ≤ cap < 2 ^ 32.

Lemma broadcast_start_inv n : broadcast_inv cap {| log := []; cursors := ∅ |} (start (init_broadcast_layout_raw cap) n).
Proof.
  split; cbn -[MAX_CONSUMERS]; [split; cbn -[BROADCAST_PAYLOAD_BYTES]|split; cbn -[MAX_CONSUMERS]|]; try done.
  - unfold wrap. apply Z.mod_small. lia.
  - by rewrite length_replicate.
  - intros i sl [-> _]%lookup_replicate. apply length_replicate.
  - by intros i sl [-> _]%lookup_replicate.
  - split; [apply length_replicate|]. intros i s [-> _]%lookup_replicate. lia.
  - intros x i [-> _]%elem_of_replicate. done.
  - induction n as [|n IH]; cbn; [constructor|done].
  - intros x i s [-> _]%elem_of_replicate. done.
  - apply Forall_replicate. done.
Qed.

Lemma broadcast_run n ls s :
  ltrace broadcast_step (start (init_broadcast_layout_raw cap) n) ls s → Z.of_nat (length ls) < 2 ^ 63 →
  ∃ t, ltrace (topic_step (Z.to_nat cap)) {| log := []; cursors := ∅ |} ls t ∧ broadcast_inv cap t s ∧ (length (log t) ≤ length ls)%nat.
Proof.
  revert ls s. refine (ltrace_rev_ind _ _ (λ ls s, _) _ _).
  { intros _. eexists. split; [constructor|]. split; [apply broadcast_start_inv|done]. }
  intros ls s l s' _ IH Hst. rewrite length_app. cbn. intros Hl. destruct IH as (t & Ht & Hi & Hn); [lia|].
  assert (∃ t', topic_step (Z.to_nat cap) t l t' ∧ broadcast_inv cap t' s') as (t' & Hstep & Hi').
  { destruct Hst as [h cs m pr ev Hp|h pr cs h' pr' ev Hp|h pr a c b c' Hc|h pr a c b h' c' ev Hc].
    - unfold push_begin in Hp. destruct (Nat.ltb_spec BROADCAST_PAYLOAD_BYTES (length m)); injection Hp as <- <-; exists t; (split; [constructor|]); [done|].
      eapply inv_producer; [exact Hi| |done|done|done]. cbn. pose proof (ri_pos _ _ _ _ (bi_ring _ _ _ Hi)). done.
    - by eapply (pstep_sim cap Hcap h t pr cs); [|lia|].
    - exists t. split; [constructor|]. destruct Hc; (eapply inv_consumer; [done|exact Hi|done|done|done]).
    - by eapply (cstep_sim cap Hcap t h pr a b c); [|lia|]. }
  exists t'. split; [eapply ltrace_app; [exact Ht|]; eapply ltrace_cons; [done|constructor]|]. split; [done|].
  destruct Hstep; cbn; rewrite ?length_app; cbn; lia.
Qed.

(** What a run of the topic leaves in the log, and takes a cursor over. *)
Lemma topic_run c ls t t' i :
  ltrace (topic_step (Z.to_nat cap)) t ls t' → log t' = log t ++ published ls ∧
  (stays i ls → cursors t !! i = Some c → (c ≤ length (log t))%nat →
   (c + length (received i ls) ≤ length (log t'))%nat ∧ cursors t' !! i = Some (c + length (received i ls))%nat ∧
   Forall2 (λ '(n, got) m, got = take (Nat.min n BROADCAST_PAYLOAD_BYTES) m) (received i ls) (take (length (received i ls)) (drop c (log t')))).
Proof.
  intros Ht. revert c. induction Ht as [t|t l t1 ls t2 Hs Ht IH]; intros c.
  { split; [by rewrite app_nil_r|]. intros _ Hc Hle. cbn. rewrite Nat.add_0_r. split_and!; [done|done|constructor]. }
  assert (stays i (l :: ls) → stays i ls) as Hst by (intros [ [_ ?]%not_elem_of_cons [_ ?]%not_elem_of_cons]; done).
  assert (log t1 = log t → published (l :: ls) = published ls → log t2 = log t ++ published (l :: ls)) as Hlog by (intros <- ->; apply (IH 0%nat)).
  destruct Hs as [t|t m Hp Hm|t|t|t j Hj|t|t j c0 Hj|t j c0 m n Hj Hm|t j Hj].
  all: try (split; [by apply Hlog|]; intros Hss Hc; by apply (IH c); [apply Hst|]).
  - split; [destruct (IH 0%nat) as [-> _]; cbn; by rewrite <- (assoc_L (++))|]. intros Hss Hc Hle. apply (IH c); [by apply Hst|done|cbn; rewrite length_app; cbn; lia].
  - split; [by apply Hlog|]. intros Hss Hc. assert (i ≠ j) by (intros ->; apply (proj1 Hss); by left). apply (IH c); [by apply Hst|cbn; by rewrite lookup_insert_ne].
  - split; [by apply Hlog|]. intros Hss Hc. assert (i ≠ j) by (intros ->; apply (proj2 Hss); by left). apply (IH c); [by apply Hst|cbn; by rewrite lookup_delete_ne].
  - split; [by apply Hlog|]. intros Hss Hc Hle. destruct (decide (i = j)) as [->|Hne].
    2:{ rewrite received_miss by done. apply (IH c); [by apply Hst|cbn; by rewrite lookup_insert_ne|done]. }
    rewrite received_hit. cbn [length take].
    rewrite Hj in Hc. injection Hc as ->. pose proof (lookup_lt_Some _ _ _ Hm) as Hlt. destruct (IH (S c)) as [Hl IH2].
    destruct IH2 as (H1 & H2 & H3); [by apply Hst|cbn; by rewrite lookup_insert_eq|cbn; lia|]. split_and!; [lia|rewrite H2; f_equal; lia|].
    rewrite (drop_S (log t2) m c) by (rewrite Hl; by apply lookup_app_l_Some). constructor; [reflexivity|done].
Qed.
End runs.

(** ** Progress *)

Lemma producer_goes cap t s : broadcast_inv cap t s → prod s ≠ PIdle → is_Some (pstep (mem s) (prod s)).
Proof.
  intros [Hr Hx _] Hne. destruct s as [h pr cs]. cbn in *. destruct pr as [|m p|m p p' i low any|m p p' i low any|m p|m p [|[o y] todo]|m p|m p]; cbn; try done; try by eexists.
  - destruct (consumer_active h !! i); [by eexists|]. destruct (checked _ _ _ _ _ _). by eexists.
  - destruct (ri_producer _ _ _ _ Hr) as (_ & _ & Hlt). destruct (ii_seqs _ _ _ _ _ Hx) as [Hl _]. destruct (lookup_lt_is_Some_2 (consumer_seqs h) i ltac:(lia)) as [q ->]. by eexists.
Qed.

Lemma consumer_goes cap t h pr a x b :
  2 ≤ cap < 2 ^ 32 → broadcast_inv cap t {| mem := h; prod := pr; consumers := a ++ x :: b |} →
  match pc x with
  | Idle => True
  | RecvVersion i k q => ∃ v, cstep h x = Some (h, goto x (RecvCopy i k q v []), Tau)
  | RecvAgain i k q v got => cstep h x = Some (h, goto x (RecvAdd i k got), Tau)
  | RecvCopy i k q v got => is_Some (cstep h x) ∧ ∀ m p todo, pr = Copy m p todo → slot h q ≠ slot h p
  | _ => is_Some (cstep h x)
  end.
Proof.
  intros Hcap Hi. pose proof (bi_consumers _ _ _ Hi) as Hc. cbn in Hc. rewrite Forall_app, Forall_cons in Hc. destruct Hc as (_ & Hc & _). pose proof (bi_index _ _ _ Hi) as Hx. pose proof (bi_ring _ _ _ Hi) as Hr. cbn in Hx, Hr.
  unfold consumer_inv in Hc. assert (x ∈ a ++ x :: b) as Hxin by (apply elem_of_replace; by left).
  assert (∀ i, index x = Some i → (∀ j, pc x ≠ RegLoad j) → (∀ j p, pc x ≠ RegStore j p) → holds x = Some i ∧ is_Some (consumer_seqs h !! i)) as Hidx.
  { intros i Hix H1 H2. assert (holds x = Some i) as Hh by (unfold holds; destruct (pc x); try done; naive_solver). split; [done|].
    destruct (seq_some _ _ _ _ _ _ _ Hx Hxin Hh) as (q & -> & _). by eexists. }
  unfold cstep. destruct (pc x) as [|i only|i|i p|i n|i n|i n q|i n q|i n q v got|i n q v got|i n got|i] eqn:Hpc; try done; try by eexists.
  - destruct (consumer_active h !! i); [|by eexists]. destruct (_ =? _), only; by eexists.
  - destruct (_ <=? _)%nat; [by eexists|]. destruct (Hidx i Hc) as [Hh _]; [done|done|]. destruct (ii_held _ _ _ _ _ Hx x i Hxin Hh) as (v & -> & _). cbn. destruct (_ =? _); by eexists.
  - destruct (Hidx i Hc) as [Hh [q Hq] ]; [done|done|]. rewrite Hq. by eexists.
  - destruct Hc as ([Hix Hs] & Hlt). destruct (reading_slot cap Hcap t h pr a b x Hi i q) as (sl & Hsl & Hho); [unfold cursor_of; rewrite Hpc, Hix; cbn; by rewrite Hs|done|].
    rewrite Hsl. cbn. exists (version sl). destruct Hho as (? & ? & _ & _ & _ & _ & ->). done.
  - destruct Hc as ([Hix Hs] & Hlt & Hho & _). split.
    + destruct (_ <? _)%nat eqn:El; [|by eexists]. apply Nat.ltb_lt in El. destruct Hho as (sl & m & Hsl & Hm & Hpl & _). rewrite Hsl. cbn.
      destruct (lookup_lt_is_Some_2 (payload sl) (length got)) as [y ->]; [rewrite (ri_payload _ _ _ _ Hr _ _ Hsl); lia|by eexists].
    + intros m p todo -> E. destruct (ri_producer _ _ _ _ Hr) as (-> & _). assert (0 ≤ q) as H0 by (by apply (ii_seqs _ _ _ _ _ Hx) in Hs as [? _]).
      destruct (reading_bound cap h t _ _ x i q Hx Hxin) as [_ B]; [unfold cursor_of; rewrite Hpc, Hix; cbn; by rewrite Hs|done|]. specialize (B eq_refl).
      apply (slot_inj cap Hcap) in E; [lia|apply Hr|lia].
  - destruct Hc as ([Hix Hs] & Hlt & (sl & m & -> & Hm & Hpl & Hv & Ho) & _). cbn. by rewrite (proj2 (Z.eqb_eq _ _) Hv).
  - destruct Hc as (q & [Hix Hs] & _). rewrite Hs. by eexists.
Qed.

Lemma ltrace_split {S L} (R : S → L → S → Prop) s l1 l2 s'' : ltrace R s (l1 ++ l2) s'' → ∃ s', ltrace R s l1 s' ∧ ltrace R s' l2 s''.
Proof.
  revert s. induction l1 as [|l l1 IH]; intros s; cbn; [intros Ht; exists s; split; [constructor|done]|]. intros Ht. inversion Ht as [|? ? s1 ? ? H1 H2]; subst.
  destruct (IH _ H2) as (s' & H3 & H4). exists s'. split; [by eapply ltrace_cons|done].
Qed.

(** ** Refused pushes *)

(** Within the call of the producer that is under way after [ls]: consumer [j] was
    seen active, and then its cursor was seen at [q]. *)
Definition in_call (l : list event) : Prop := ∀ m, Published m ∉ l ∧ PushFull ∉ l.

Definition was_active (s0 : system) (ls : list event) (s : system) (j : nat) : Prop :=
  ∃ la lb s1, ls = la ++ lb ∧ in_call lb ∧ ltrace broadcast_step s0 la s1 ∧ ltrace broadcast_step s1 lb s ∧ prod s1 ≠ PIdle ∧ active (mem s1) j = true.

Definition was_behind (s0 : system) (ls : list event) (s : system) (q : Z) : Prop :=
  ∃ la lb s1 j, ls = la ++ lb ∧ in_call lb ∧ ltrace broadcast_step s1 lb s ∧ was_active s0 la s1 j ∧ consumer_seqs (mem s1) !! j = Some q.

Lemma in_call_snoc l ev : in_call l → (∀ m, ev ≠ Published m) → ev ≠ PushFull → in_call (l ++ [ev]).
Proof. intros Hl H1 H2 m. destruct (Hl m). rewrite !elem_of_app, !list_elem_of_singleton. specialize (H1 m). naive_solver. Qed.

Lemma ltrace_snoc {S L} (R : S → L → S → Prop) s ls s' l s'' : ltrace R s ls s' → R s' l s'' → ltrace R s (ls ++ [l]) s''.
Proof. intros H1 H2. eapply ltrace_app; [exact H1|]. eapply ltrace_cons; [done|constructor]. Qed.

Lemma was_active_snoc s0 ls s j ev s' :
  was_active s0 ls s j → broadcast_step s ev s' → (∀ m, ev ≠ Published m) → ev ≠ PushFull → was_active s0 (ls ++ [ev]) s' j.
Proof.
  intros (la & lb & s1 & -> & Hc & H1 & H2 & H3) Hs Ep Ef. exists la, (lb ++ [ev]), s1. split; [by rewrite (assoc_L (++))|].
  split; [by apply in_call_snoc|]. split; [done|]. split; [by eapply ltrace_snoc|done].
Qed.

Lemma was_behind_snoc s0 ls s q ev s' :
  was_behind s0 ls s q → broadcast_step s ev s' → (∀ m, ev ≠ Published m) → ev ≠ PushFull → was_behind s0 (ls ++ [ev]) s' q.
Proof.
  intros (la & lb & s1 & j & -> & Hc & H1 & H2) Hs Ep Ef. exists la, (lb ++ [ev]), s1, j. split; [by rewrite (assoc_L (++))|].
  split; [by apply in_call_snoc|]. split; [by eapply ltrace_snoc|done].
Qed.

(** What the producer that scans has seen. *)
Definition seen (s0 : system) (ls : list event) (s : system) : Prop :=
  let lowest low (any : bool) := if any then was_behind s0 ls s low else low = 2 ^ 64 - 1 in
  match prod s with
  | MinActive _ _ _ _ low any => lowest low any
  | MinSeq _ _ _ i low any => was_active s0 ls s i ∧ lowest low any
  | _ => True
  end.

Lemma seen_other s0 ls s ev s' :
  seen s0 ls s → broadcast_step s ev s' → prod s' = prod s → (∀ m, ev ≠ Published m) → ev ≠ PushFull → seen s0 (ls ++ [ev]) s'.
Proof.
  intros Hs Hst Ep H1 H2. unfold seen in *. rewrite Ep. destruct (prod s) as [| |m p p' i low any|m p p' i low any| | | |]; try done.
  - destruct any; [by eapply was_behind_snoc|done].
  - destruct Hs as [Ha Hb]. split; [by eapply was_active_snoc|]. destruct any; [by eapply was_behind_snoc|done].
Qed.

Lemma cstep_event h c h' c' ev : cstep h c = Some (h', c', ev) → (∀ m, ev ≠ Published m) ∧ ev ≠ PushFull.
Proof. unfold cstep. intros H. split; [intros m ->|intros ->]; repeat (case_match; simplify_option_eq; try done). Qed.

Lemma pstep_seen cap t s0 ls h pr cs h' pr' ev :
  broadcast_inv cap t {| mem := h; prod := pr; consumers := cs |} → Z.of_nat (length (log t)) < 2 ^ 63 →
  ltrace broadcast_step s0 ls {| mem := h; prod := pr; consumers := cs |} → seen s0 ls {| mem := h; prod := pr; consumers := cs |} →
  pstep h pr = Some (h', pr', ev) → seen s0 (ls ++ [ev]) {| mem := h'; prod := pr'; consumers := cs |}.
Proof.
  intros Hi Hb Ht Hs Hp. pose proof (step_producer h pr cs h' pr' ev Hp) as Hst.
  destruct pr as [|m p|m p p' i low any|m p p' i low any|m p|m p [|[o x] todo]|m p|m p]; cbn in Hp; try (injection Hp as <- <- <-; done).
  - done.
  - destruct (consumer_active h !! i) as [v|] eqn:Ea.
    + destruct (Z.eqb_spec v 0) as [->|Hv]; injection Hp as <- <- <-; cbn in Hs |- *; [|split]; try (destruct any; [by eapply was_behind_snoc|done]).
      exists ls, [Tau], {| mem := h; prod := MinActive m p p' i low any; consumers := cs |}. split; [done|]. split; [intros m'; rewrite !list_elem_of_singleton; done|].
      split; [done|]. split; [by eapply ltrace_cons; [|constructor]|]. split; [done|]. unfold active. cbn. rewrite Ea. by rewrite (proj2 (Z.eqb_neq _ _) Hv).
    + destruct (checked _ _ _ _ _ _) as [pr1 ev1] eqn:Ec. injection Hp as <- <- <-. unfold checked in Ec. by destruct (_ <=? _); injection Ec as <- <-.
  - destruct (consumer_seqs h !! i) as [q|] eqn:Eq; [|done]. cbn in Hp. injection Hp as <- <- <-. cbn in Hs |- *. destruct Hs as [Ha Hl].
    destruct (ii_seqs _ _ _ _ _ (bi_index _ _ _ Hi)) as [_ Hr]. pose proof (Hr _ _ Eq).
    destruct (Z.ltb_spec q low); [|destruct any; [by eapply was_behind_snoc|lia] ].
    exists ls, [Tau], {| mem := h; prod := MinSeq m p p' i low any; consumers := cs |}, i. split; [done|]. split; [intros m'; rewrite !list_elem_of_singleton; done|].
    split; [by eapply ltrace_cons; [|constructor]|done].
Qed.

Lemma run_seen cap n ls s :
  2 ≤ cap < 2 ^ 32 → ltrace broadcast_step (start (init_broadcast_layout_raw cap) n) ls s → Z.of_nat (length ls) < 2 ^ 63 →
  seen (start (init_broadcast_layout_raw cap) n) ls s.
Proof.
  intros Hcap. set (s0 := start _ _). revert ls s. refine (ltrace_rev_ind _ _ (λ ls s, _) _ _); [done|].
  intros ls s l s' Ht IH Hst. rewrite length_app. cbn. intros Hl. specialize (IH ltac:(lia)).
  destruct (broadcast_run cap Hcap n ls s Ht ltac:(lia)) as (t & _ & Hi & Hn). destruct Hst as [h cs m pr ev Hp|h pr cs h' pr' ev Hp|h pr a c b c' Hc|h pr a c b h' c' ev Hc].
  - unfold push_begin in Hp. by destruct (_ <? _)%nat; injection Hp as <- <-.
  - eapply (pstep_seen cap t); [done|lia|done..].
  - eapply seen_other; [exact IH|by eapply step_call|done|done|done].
  - destruct (cstep_event _ _ _ _ _ Hc). eapply seen_other; [exact IH|by eapply step_consumer|done|done|done].
Qed.

(** A push is refused on a cursor that was seen [capacity] or more behind. *)
Lemma refused_behind cap n ls s s' :
  2 ≤ cap < 2 ^ 32 → ltrace broadcast_step (start (init_broadcast_layout_raw cap) n) ls s → Z.of_nat (length ls) < 2 ^ 63 → broadcast_step s PushFull s' →
  ∃ q, was_behind (start (init_broadcast_layout_raw cap) n) ls s q ∧ cap ≤ producer_seq (mem s) - q.
Proof.
  intros Hcap Ht Hl Hst. destruct (broadcast_run cap Hcap n ls s Ht Hl) as (t & _ & Hi & Hn). pose proof (run_seen cap n ls s Hcap Ht Hl) as Hs.
  inversion Hst as [h cs m pr ev Hp|h pr cs h' pr' ev Hp| |h pr a c b h' c' ev Hc]; subst.
  - unfold push_begin in Hp. by destruct (_ <? _)%nat.
  - pose proof (bi_ring _ _ _ Hi) as [R1 R2 _ _ _ _ _ R8]. destruct pr as [|m p|m p p' i low any|m p p' i low any|m p|m p [|[o x] todo]|m p|m p]; cbn in Hp, R1, R2, R8; try done.
    + destruct (consumer_active h !! i); [by injection Hp as _ _ Hp|]. unfold checked in Hp. destruct R8 as ((-> & -> & _) & _).
      destruct (Z.leb_spec (capacity h) (Z.max (Z.of_nat (length (log t)) - (if any then low else Z.of_nat (length (log t)))) 0)); [|done].
      destruct any; cbn in *; [|lia]. exists low. split; [exact Hs|lia].
    + by destruct (consumer_seqs h !! i).
  - by destruct (cstep_event _ _ _ _ _ Hc).
Qed.

(** ** The theorems *)

Lemma created_layout cap h : create_anon cap = Ok h → 2 ≤ cap < 2 ^ 32 ∧ h = init_broadcast_layout_raw cap.
Proof.
  unfold create_anon. destruct (Z.leb_spec 2 cap); [|done]. destruct (Z.leb_spec cap (2 ^ 32 - 1)); [|done]. intros [= <-]. split; [lia|done].
Qed.

(** C31: the calls of one producer and any number of consumers, in any interleaving
    of their accesses down to single bytes, are those of a log with a cursor for
    each consumer: a message is appended when no cursor is [capacity] or more
    behind, a registration puts a cursor at the end, a receive takes the message
    at the cursor and moves it on by one, and reports empty only at the end. A
    thread never sees the slot it reads under a writer: the version is even when
    it is first loaded and unchanged when it is loaded again, so no receive
    retries; and no access leaves the region. A push is refused only on a cursor
    that its own scan met: a consumer it saw active, whose cursor, when it then
    loaded it, was [capacity] or more behind (it may be one that is registering,
    or has left since, [broadcast_full_spurious]). For fewer than [2^63] accesses. *)
Theorem broadcast_refines_topic cap h n ls s :
  create_anon cap = Ok h → ltrace broadcast_step (start h n) ls s → Z.of_nat (length ls) < 2 ^ 63 →
  (∃ t, ltrace (topic_step (Z.to_nat cap)) {| log := []; cursors := ∅ |} ls t ∧ length (log t) = length (published ls)) ∧
  (prod s ≠ PIdle → is_Some (pstep (mem s) (prod s))) ∧
  (∀ x, x ∈ consumers s → match pc x with
    | Idle => True
    | RecvVersion i k q => ∃ v, cstep (mem s) x = Some (mem s, goto x (RecvCopy i k q v []), Tau)
    | RecvAgain i k q v got => cstep (mem s) x = Some (mem s, goto x (RecvAdd i k got), Tau)
    | RecvCopy i k q v got => is_Some (cstep (mem s) x) ∧ ∀ m p todo, prod s = Copy m p todo → slot (mem s) q ≠ slot (mem s) p
    | _ => is_Some (cstep (mem s) x)
    end) ∧
  ∀ l1 l2, ls = l1 ++ PushFull :: l2 → ∃ s1 q,
    ltrace broadcast_step (start h n) l1 s1 ∧ ltrace broadcast_step s1 (PushFull :: l2) s ∧
    was_behind (start h n) l1 s1 q ∧ cap ≤ producer_seq (mem s1) - q.
Proof.
  intros [Hcap ->]%created_layout Ht Hl. destruct (broadcast_run cap Hcap n ls s Ht Hl) as (t & Htop & Hi & _). split.
  { exists t. split; [done|]. by destruct (topic_run cap 0 ls _ _ 0 Htop) as [-> _]. }
  split; [by eapply producer_goes|]. split.
  { intros x Hin. destruct s as [h pr cs]. cbn in *. apply list_elem_of_split in Hin as (a & b & ->). by eapply consumer_goes. }
  intros l1 l2 ->. apply ltrace_split in Ht as (s1 & H1 & H2). inversion H2 as [|? ? s2 ? ? Hf _]; subst. rewrite length_app in Hl. cbn in Hl.
  destruct (refused_behind cap n l1 s1 s2 Hcap H1 ltac:(lia) Hf) as (q & Hq & Hle). by exists s1, q.
Qed.

(** C32: a consumer that registers, and neither leaves nor is replaced, receives
    the messages published since, each once and in the order they were published:
    a receive into a buffer of [n] bytes fills exactly the first [min n 52] of
    them, the message padded with zeros to 52. When it is told that there is
    nothing more, it has received them all. *)
Theorem broadcast_delivers cap h n l1 i l2 s :
  create_anon cap = Ok h → ltrace broadcast_step (start h n) (l1 ++ Registered i :: l2) s → Z.of_nat (length (l1 ++ Registered i :: l2)) < 2 ^ 63 →
  stays i l2 →
  Forall2 (λ '(n, got) m, got = take (Nat.min n BROADCAST_PAYLOAD_BYTES) m) (received i l2) (take (length (received i l2)) (published l2)) ∧
  (last l2 = Some (RecvEmpty i) → length (received i l2) = length (published l2)).
Proof.
  intros [Hcap ->]%created_layout Ht Hl Hst. destruct (broadcast_run cap Hcap n _ s Ht Hl) as (t & Htop & _ & _).
  apply ltrace_split in Htop as (t1 & Ht1 & Ht2). inversion Ht2 as [|? ? t2 ? ? Hreg Ht3]; subst. inversion Hreg; subst.
  destruct (topic_run cap (length (log t1)) l2 _ t i Ht3) as [Hlog Hrun]. cbn in Hlog, Hrun. destruct (Hrun Hst (lookup_insert_eq _ _ _) ltac:(lia)) as (Hle & Hcu & Hf).
  rewrite Hlog, drop_app_length in Hf. split; [done|]. intros (l3 & ->)%last_Some.
  apply ltrace_split in Ht3 as (t3 & Ht3 & Ht4). inversion Ht4 as [|? ? t4 ? ? He Ht5]; subst. inversion Ht5; subst. inversion He as [| | | | | | | |? ? Hend]; subst.
  rewrite Hcu in Hend. injection Hend as Hend. rewrite Hlog, length_app in Hend. lia.
Qed.

(** ** Schedules *)

Inductive action := PushCall (m : list Z) | PushAccess | Call (i : nat) (p : point) | Access (i : nat).

Definition startable (c : consumer) (p : point) : bool :=
  match index c, pc c, p with
  | None, Idle, RegCas 0 false | None, Idle, RegCas _ true => true
  | Some i, Idle, RecvActive j _ | Some i, Idle, UnregStore j => (i =? j)%nat
  | _, _, _ => false
  end.

Definition act (a : action) (s : system) : option (event * system) :=
  match a with
  | PushCall m => match prod s with
                  | PIdle => let '(pr, ev) := push_begin m (mem s) in Some (ev, {| mem := mem s; prod := pr; consumers := consumers s |})
                  | _ => None
                  end
  | PushAccess => '(h, pr, ev) ← pstep (mem s) (prod s); Some (ev, {| mem := h; prod := pr; consumers := consumers s |})
  | Call i p =>
      c ← consumers s !! i;
      if startable c p then Some (Tau, {| mem := mem s; prod := prod s; consumers := <[i := goto c p]> (consumers s) |}) else None
  | Access i => c ← consumers s !! i; '(h, c, ev) ← cstep (mem s) c; Some (ev, {| mem := h; prod := prod s; consumers := <[i := c]> (consumers s) |})
  end.

Fixpoint sched (xs : list action) (s : system) : option (list event * system) :=
  match xs with
  | [] => Some ([], s)
  | x :: xs => '(ev, s) ← act x s; '(evs, s) ← sched xs s; Some (ev :: evs, s)
  end.

Lemma broadcast_act x s ev s' : act x s = Some (ev, s') → broadcast_step s ev s'.
Proof.
  destruct s as [h pr cs]. destruct x as [m| |i p|i]; cbn.
  - destruct pr; try done. destruct (push_begin m h) as [pr' ev'] eqn:E. intros [= <- <-]. by apply (step_push h cs m).
  - destruct (pstep h pr) as [ [ [h' pr'] ev']|] eqn:E; [|done]. intros [= <- <-]. by apply step_producer.
  - destruct (cs !! i) as [c|] eqn:Ei; [|done]. cbn. destruct (startable c p) eqn:Es; [|done]. intros [= <- <-].
    rewrite <- (take_drop_middle cs i c Ei) at 1. rewrite (insert_take_drop cs i (goto c p)) by (by eapply lookup_lt_Some). apply step_call.
    destruct c as [ix pc0]. unfold startable, goto in *. cbn in *. destruct ix as [j|], pc0; try done; destruct p as [|k []|k|k q|k q|k q|k q r|k q r|k q r v g|k q r v g|k q g|k]; try done;
      try (apply Nat.eqb_eq in Es as ->); try (destruct k; [|done]); econstructor.
  - destruct (cs !! i) as [c|] eqn:Ei; [|done]. cbn. destruct (cstep h c) as [ [ [h' c'] ev']|] eqn:E; [|done]. intros [= <- <-].
    rewrite <- (take_drop_middle cs i c Ei) at 1. rewrite (insert_take_drop cs i c') by (by eapply lookup_lt_Some). by apply step_consumer.
Qed.

Lemma broadcast_sched xs s evs s' : sched xs s = Some (evs, s') → ltrace broadcast_step s evs s'.
Proof.
  revert s evs. induction xs as [|x xs IH]; intros s evs; cbn; [intros [= <- <-]; constructor|].
  destruct (act x s) as [ [ev s1]|] eqn:Ha; [|done]. cbn. destruct (sched xs s1) as [ [evs1 s2]|] eqn:Hs; [|done]. cbn.
  intros [= <- <-]. eapply ltrace_cons; [by eapply broadcast_act|by apply IH].
Qed.

(** The accesses of a push that sees [k] active consumers, of a receive of [k]
    bytes. *)
Definition push_run (m : list Z) (k : nat) : list action :=
  PushCall m :: replicate (1 + 16 + k + 1 + 1 + 52 + length m + 1 + 1 + 1) PushAccess.
Definition recv_run (c i k : nat) : list action := Call c (RecvActive i k) :: replicate (3 + 1 + k + 1 + 1 + 1) (Access c).

(** A consumer registers between two messages, and while a third is written
    reads the second. *)
Definition some_run : list action :=
  push_run [9] 0 ++ (Call 0 (RegCas 0 false) :: replicate 3 (Access 0)) ++ push_run [7; 8] 1 ++
  (PushCall [5] :: replicate 40 PushAccess) ++ recv_run 0 0 3 ++ replicate 36 PushAccess ++ recv_run 0 0 1 ++ Call 0 (RecvActive 0 1) :: replicate 3 (Access 0).

Definition the_run : list event * system := default ([], start (init_broadcast_layout_raw 2) 1) (sched some_run (start (init_broadcast_layout_raw 2) 1)).

Lemma the_run_runs : ltrace broadcast_step (start (init_broadcast_layout_raw 2) 1) the_run.1 the_run.2.
Proof. apply (broadcast_sched some_run). vm_compute. reflexivity. Qed.

Lemma broadcast_refines_topic_witness :
  ∃ ls s t, ltrace broadcast_step (start (init_broadcast_layout_raw 2) 1) ls s ∧ length (published ls) = 3%nat ∧
    ltrace (topic_step 2) {| log := []; cursors := ∅ |} ls t.
Proof.
  destruct (broadcast_refines_topic 2 _ 1 the_run.1 the_run.2 eq_refl the_run_runs) as [ (t & Ht & _) _]; [by vm_compute|].
  exists the_run.1, the_run.2, t. split; [exact the_run_runs|]. split; [by vm_compute|exact Ht].
Defined.

Lemma broadcast_delivers_witness :
  ∃ l1 l2 s, ltrace broadcast_step (start (init_broadcast_layout_raw 2) 1) (l1 ++ Registered 0 :: l2) s ∧ received 0 l2 = [(3%nat, [7; 8; 0]); (1%nat, [5])] ∧
    length (received 0 l2) = length (published l2).
Proof.
  assert (the_run.1 = take 78 the_run.1 ++ Registered 0 :: drop 79 the_run.1) as E by (vm_compute; reflexivity).
  assert (received 0 (drop 79 the_run.1) = [(3%nat, [7; 8; 0]); (1%nat, [5])]) as Er by (vm_compute; reflexivity).
  assert (last (drop 79 the_run.1) = Some (RecvEmpty 0)) as El by (vm_compute; reflexivity).
  assert (stays 0 (drop 79 the_run.1)) as Es.
  { assert (forallb (λ e, match e with Registered _ | Unregistered _ => false | _ => true end) (drop 79 the_run.1) = true) as Hf by (vm_compute; reflexivity).
    rewrite forallb_forall in Hf. split; intros Hin; apply list_elem_of_In, Hf in Hin; discriminate. }
  pose proof the_run_runs as Ht. rewrite E in Ht. exists (take 78 the_run.1), (drop 79 the_run.1), the_run.2. split; [exact Ht|]. split; [exact Er|].
  destruct (broadcast_delivers 2 _ 1 (take 78 the_run.1) 0 (drop 79 the_run.1) the_run.2 eq_refl Ht) as [_ Hall]; [by vm_compute|exact Es|]. exact (Hall El).
Defined.

(** A push is refused although no consumer is behind: one that is registering is
    counted with the cursor the slot had before, here the zero of a new region. *)
Lemma broadcast_full_spurious :
  ∃ ls s, ltrace broadcast_step (start (init_broadcast_layout_raw 2) 1) ls s ∧
    List.filter (λ e, match e with Tau => false | _ => true end) ls = [Published [9]; Published [9]; PushFull].
Proof.
  assert (∃ ls s, sched (push_run [9] 0 ++ push_run [9] 0 ++ [Call 0 (RegCas 0 false); Access 0] ++ PushCall [1] :: replicate 19 PushAccess) (start (init_broadcast_layout_raw 2) 1) = Some (ls, s) ∧
    List.filter (λ e, match e with Tau => false | _ => true end) ls = [Published [9]; Published [9]; PushFull]) as (ls & s & Hs & He).
  { eexists _, _. split; [vm_compute; reflexivity|]. reflexivity. }
  exists ls, s. split; [|done]. by eapply broadcast_sched.
Qed.
