(* ===== verification/Ordering.v ===== *)
(** Stamps and the merging consumer: crates/subetha-cxc/src/ordering.rs, and the
    stamped send and the merging receive of adaptive_ring.rs.

    The region holds a header and a line for every producer. [pstep] cuts a stamped
    push, a heartbeat and a retirement into their accesses, [dstep] the merging
    pop, and [lstep] the claim of the drainer's lease. A ring is the bounded FIFO
    of [Queue], whose calls take effect at one access; the shape of the ring and
    the number of its producers do not change, ring [i] being that of producer [i].
    The clocks of the time-based stamps are readings the steps are given. *)
From stdpp Require Import list.
From S2P Require Import Prelude Queue Marshal.

Definition ORDERING_MAGIC : Z := 0x4F52_4452_0000_0001.
Definition STAMPED_PAYLOAD_BYTES : nat := 56.
Definition STAMP_BYTES : nat := 8.
Definition SLOT_BYTES : nat := 64.
Definition TSC_FRESHNESS_GUARD_CYCLES : Z := 8192.
Definition MONOTONIC_FRESHNESS_GUARD_NANOS : Z := 2000.
Definition DRAINER_GRACE_EPOCHS : Z := 3.

Inductive OrderingMode := Unordered | MergeByStamp | MergeStrict.
Inductive StampKind := Tsc | SharedCounter | Monotonic.

Definition mode_tag (m : OrderingMode) : Z := match m with Unordered => 0 | MergeByStamp => 1 | MergeStrict => 2 end.
Definition kind_tag (k : StampKind) : Z := match k with Tsc => 0 | SharedCounter => 1 | Monotonic => 2 end.

Definition mode_from_u32 {E} (tag : Z) : res E OrderingMode :=
  if tag =? 0 then Ok Unordered else if tag =? 1 then Ok MergeByStamp else if tag =? 2 then Ok MergeStrict else Panic.

Definition kind_from_u32 (tag : Z) : option StampKind :=
  if tag =? 0 then Some Tsc else if tag =? 1 then Some SharedCounter else if tag =? 2 then Some Monotonic else None.

Definition has_time_semantics (k : StampKind) : bool := match k with SharedCounter => false | _ => true end.

Definition freshness_guard (k : StampKind) : option Z :=
  match k with
  | Tsc => Some TSC_FRESHNESS_GUARD_CYCLES
  | Monotonic => Some MONOTONIC_FRESHNESS_GUARD_NANOS
  | SharedCounter => None
  end.

Record ProducerLine := { issued : Z; watermark : Z }.

(** The header, the line of the lease generation, and the producers' lines. *)
Record OrderingRegion := {
  magic : Z; mode : Z; stamp_kind : Z; inversions : Z; shared_stamp : Z;
  drainer_token : Z; drainer_heartbeat : Z; drainer_epoch : Z; lease_generation : Z;
  lines : list ProducerLine }.

Definition ordering_region_size (max_producers : Z) : Z := u64 (64 + 64 + u64 (max_producers * 64)).

Definition init_ordering_layout (max_producers : nat) (kind : StampKind) : OrderingRegion :=
  {| magic := ORDERING_MAGIC; mode := mode_tag Unordered; stamp_kind := kind_tag kind; inversions := 0; shared_stamp := 0;
     drainer_token := 0; drainer_heartbeat := 0; drainer_epoch := 0; lease_generation := 0;
     lines := replicate max_producers {| issued := 0; watermark := 0 |} |}.

Definition create_anon (max_producers : nat) (kind : StampKind) : res RingError OrderingRegion := Ok (init_ordering_layout max_producers kind).

(** [create_shm] over [len] bytes. *)
Definition create_shm (len : Z) (max_producers : nat) (kind : StampKind) : res RingError OrderingRegion :=
  if len <? ordering_region_size (Z.of_nat max_producers) then Err LayoutMismatch else Ok (init_ordering_layout max_producers kind).

(** [open] and [open_shm] on [len] bytes that hold [r]. *)
Definition open (len max_producers : Z) (r : OrderingRegion) : res RingError (OrderingRegion * StampKind) :=
  if len <? ordering_region_size max_producers then Err LayoutMismatch
  else if negb (magic r =? ORDERING_MAGIC) then Err LayoutMismatch
  else match kind_from_u32 (stamp_kind r) with Some k => Ok (r, k) | None => Err LayoutMismatch end.

(** ** The fields a call stores *)

Definition set_mode (m : OrderingMode) (r : OrderingRegion) : OrderingRegion :=
  {| magic := magic r; mode := mode_tag m; stamp_kind := stamp_kind r; inversions := inversions r; shared_stamp := shared_stamp r;
     drainer_token := drainer_token r; drainer_heartbeat := drainer_heartbeat r; drainer_epoch := drainer_epoch r;
     lease_generation := lease_generation r; lines := lines r |}.

Definition record_inversion (r : OrderingRegion) : OrderingRegion :=
  {| magic := magic r; mode := mode r; stamp_kind := stamp_kind r; inversions := u64 (inversions r + 1); shared_stamp := shared_stamp r;
     drainer_token := drainer_token r; drainer_heartbeat := drainer_heartbeat r; drainer_epoch := drainer_epoch r;
     lease_generation := lease_generation r; lines := lines r |}.

Definition set_shared (x : Z) (r : OrderingRegion) : OrderingRegion :=
  {| magic := magic r; mode := mode r; stamp_kind := stamp_kind r; inversions := inversions r; shared_stamp := x;
     drainer_token := drainer_token r; drainer_heartbeat := drainer_heartbeat r; drainer_epoch := drainer_epoch r;
     lease_generation := lease_generation r; lines := lines r |}.

Definition set_lease (token beat epoch generation : Z) (r : OrderingRegion) : OrderingRegion :=
  {| magic := magic r; mode := mode r; stamp_kind := stamp_kind r; inversions := inversions r; shared_stamp := shared_stamp r;
     drainer_token := token; drainer_heartbeat := beat; drainer_epoch := epoch;
     lease_generation := generation; lines := lines r |}.

Definition set_lines (ls : list ProducerLine) (r : OrderingRegion) : OrderingRegion :=
  {| magic := magic r; mode := mode r; stamp_kind := stamp_kind r; inversions := inversions r; shared_stamp := shared_stamp r;
     drainer_token := drainer_token r; drainer_heartbeat := drainer_heartbeat r; drainer_epoch := drainer_epoch r;
     lease_generation := lease_generation r; lines := ls |}.

Definition set_issued (i : nat) (x : Z) (r : OrderingRegion) : OrderingRegion :=
  set_lines (alter (λ l, {| issued := x; watermark := watermark l |}) i (lines r)) r.

(** Also [publish_watermark]. *)
Definition publish_watermark (i : nat) (x : Z) (r : OrderingRegion) : OrderingRegion :=
  set_lines (alter (λ l, {| issued := issued l; watermark := x |}) i (lines r)) r.

(** The line of a producer; [line] panics out of range. *)
Definition line {E} (r : OrderingRegion) (i : nat) : res E ProducerLine :=
  match lines r !! i with Some l => Ok l | None => Panic end.

(** The source of a stamp: the counter, or the reading [clk] of a clock. *)
Definition raw_stamp (kind : StampKind) (clk : Z) (r : OrderingRegion) : OrderingRegion * Z :=
  match kind with
  | SharedCounter => (set_shared (u64 (shared_stamp r + 1)) r, u64 (shared_stamp r + 1))
  | _ => (r, clk)
  end.

(** ** Whole calls *)

Definition in_flight_below {E} (i : nat) (candidate : Z) (r : OrderingRegion) : res E bool :=
  l ← line r i; Ok (if candidate <=? issued l then false else negb (issued l =? watermark l)).

Definition next_stamp {E} (kind : StampKind) (clk : Z) (i : nat) (r : OrderingRegion) : res E (OrderingRegion * Z) :=
  l ← line r i;
  let floor := u64 (issued l + 1) in
  let '(r, raw) := raw_stamp kind clk (set_issued i floor r) in
  let stamp := Z.max raw floor in
  Ok (set_issued i stamp r, stamp).

Definition refresh_watermark {E} (kind : StampKind) (clk : Z) (i : nat) (r : OrderingRegion) : res E OrderingRegion :=
  l ← line r i;
  let '(r, raw) := raw_stamp kind clk r in
  let stamp := Z.max raw (u64 (issued l + 1)) in
  Ok (publish_watermark i stamp (set_issued i stamp r)).

Definition retire_producer {E} (i : nat) (r : OrderingRegion) : res E OrderingRegion :=
  _ ← line r i; Ok (publish_watermark i (2 ^ 64 - 1) (set_issued i (2 ^ 64 - 1) r)).

(** [seed_from]: the counters and the lines both regions have. The mode is read
    through [from_u32], which panics on a corrupted tag. *)
Definition seed_from {E} (other r : OrderingRegion) : res E OrderingRegion :=
  m ← mode_from_u32 (mode other);
  Ok {| magic := magic r; mode := mode_tag m; stamp_kind := stamp_kind r; inversions := inversions other;
        shared_stamp := shared_stamp other; drainer_token := drainer_token r; drainer_heartbeat := drainer_heartbeat r;
        drainer_epoch := drainer_epoch r; lease_generation := lease_generation r;
        lines := take (length (lines r)) (lines other) ++ drop (length (lines other)) (lines r) |}.

(** * The drainer's lease *)

Definition bump_lease_generation (r : OrderingRegion) : OrderingRegion :=
  set_lease (drainer_token r) (drainer_heartbeat r) (drainer_epoch r) (u64 (lease_generation r + 1)) r.
Definition set_token (t : Z) (r : OrderingRegion) : OrderingRegion :=
  set_lease t (drainer_heartbeat r) (drainer_epoch r) (lease_generation r) r.
Definition set_beat (b : Z) (r : OrderingRegion) : OrderingRegion :=
  set_lease (drainer_token r) b (drainer_epoch r) (lease_generation r) r.

Definition release_drainer (token : Z) (r : OrderingRegion) : OrderingRegion * bool :=
  if drainer_token r =? token then (bump_lease_generation (set_token 0 r), true) else (r, false).

Definition drainer_beat (token : Z) (r : OrderingRegion) : OrderingRegion * bool :=
  if drainer_token r =? token then (set_beat (drainer_epoch r) r, true) else (r, false).

Definition tick_drainer_epoch (r : OrderingRegion) : OrderingRegion * Z :=
  let epoch := u64 (drainer_epoch r + 1) in
  (bump_lease_generation (set_lease (drainer_token r) (drainer_heartbeat r) epoch (lease_generation r) r), epoch).

(** [try_acquire_drainer] by a thread that is not overtaken. *)
Definition try_acquire_drainer {E} (token grace : Z) (r : OrderingRegion) : res E (OrderingRegion * bool) :=
  _ ← assert_ (negb (token =? 0));
  Ok (if drainer_token r =? token then
        (if drainer_heartbeat r =? drainer_epoch r then r else set_beat (drainer_epoch r) r, true)
      else if (drainer_token r =? 0) || (grace <? Z.max (drainer_epoch r - drainer_heartbeat r) 0) then
        (bump_lease_generation (set_beat (drainer_epoch r) (set_token token r)), true)
      else (r, false)).

(** The same call, an access at a time. *)
Inductive claimant :=
| LLoad | LHeld | LHeldBeat (global : Z) | LHeldStore (global : Z)
| LBeat (cur : Z) | LEpoch (cur beat : Z) | LCas (cur : Z)
| LNow | LStore (global : Z) | LBump | LDone (granted : bool).

Definition lstep (token grace : Z) (r : OrderingRegion) (c : claimant) : OrderingRegion * claimant :=
  match c with
  | LLoad =>
      (r, if drainer_token r =? token then LHeld else if drainer_token r =? 0 then LCas 0 else LBeat (drainer_token r))
  | LHeld => (r, LHeldBeat (drainer_epoch r))
  | LHeldBeat g => (r, if drainer_heartbeat r =? g then LDone true else LHeldStore g)
  | LHeldStore g => (set_beat g r, LDone true)
  | LBeat cur => (r, LEpoch cur (drainer_heartbeat r))
  | LEpoch cur beat => (r, if grace <? Z.max (drainer_epoch r - beat) 0 then LCas cur else LDone false)
  | LCas cur => if drainer_token r =? cur then (set_token token r, LNow) else (r, LLoad)
  | LNow => (r, LStore (drainer_epoch r))
  | LStore g => (set_beat g r, LBump)
  | LBump => (bump_lease_generation r, LDone true)
  | LDone b => (r, LDone b)
  end.

(** * Stamped pushes and merging pops *)

Definition slot := list Z.

(** The slot of a stamped push, and its two halves. *)
Definition stamped (stamp : Z) (payload : list Z) : slot := to_le STAMP_BYTES stamp ++ payload.
Definition slot_stamp (s : slot) : Z := of_le (take STAMP_BYTES s).
Definition slot_payload (s : slot) : list Z := drop STAMP_BYTES s.

Inductive event :=
| Tau
| Put (i : nat) (stamp : Z) (payload : list Z) | PutFull (i : nat) | PutTooLarge (i : nat)
| Got (i : nat) (stamp : Z) (payload : list Z) | GotEmpty | GotPanic.

Inductive producer :=
| PIdle
| PLoad (m : list Z) | PFloor (m : list Z) (floor : Z) | PRaw (m : list Z) (floor : Z)
| PIssued (m : list Z) (floor raw : Z) | PPush (m : list Z) (stamp : Z) | PMark (stamp : Z)
| RRaw | RLoad (raw : Z) | RStore (stamp : Z) | RMark (stamp : Z)
| TStore | TMark | PRetired.

(** One access of producer [i] with its ring [q]. *)
Definition pstep (kind : StampKind) (cap i : nat) (clk : Z) (r : OrderingRegion) (q : list slot) (p : producer) :
    option (OrderingRegion * list slot * producer * event) :=
  l ← lines r !! i;
  match p with
  | PIdle | PRetired => None
  | PLoad m => Some (r, q, PFloor m (u64 (issued l + 1)), Tau)
  | PFloor m f => Some (set_issued i f r, q, PRaw m f, Tau)
  | PRaw m f => let '(r', raw) := raw_stamp kind clk r in Some (r', q, PIssued m f raw, Tau)
  | PIssued m f raw => Some (set_issued i (Z.max raw f) r, q, PPush m (Z.max raw f), Tau)
  | PPush m s =>
      let '(q', o) := spec_push cap SLOT_BYTES q (stamped s m) in
      Some (r, q', PMark s, match o with Ok _ => Put i s (pad STAMPED_PAYLOAD_BYTES m) | _ => PutFull i end)
  | PMark s => Some (publish_watermark i s r, q, PIdle, Tau)
  | RRaw => let '(r', raw) := raw_stamp kind clk r in Some (r', q, RLoad raw, Tau)
  | RLoad raw => Some (r, q, RStore (Z.max raw (u64 (issued l + 1))), Tau)
  | RStore s => Some (set_issued i s r, q, RMark s, Tau)
  | RMark s => Some (publish_watermark i s r, q, PIdle, Tau)
  | TStore => Some (set_issued i (2 ^ 64 - 1) r, q, TMark, Tau)
  | TMark => Some (publish_watermark i (2 ^ 64 - 1) r, q, PRetired, Tau)
  end.

(** What the consumer remembers for the count of inversions. *)
Record SeenLine := { seen_stamp : Z; seen_mode : Z }.

Definition note_stamp (m : OrderingMode) (stamp : Z) (s : SeenLine) (r : OrderingRegion) : SeenLine * OrderingRegion :=
  let last := if seen_mode s =? mode_tag m then seen_stamp s else 0 in
  ({| seen_stamp := stamp; seen_mode := mode_tag m |}, if stamp <? last then record_inversion r else r).

(** [merge_pop]: the scan of the heads, the gates over the lines, the freshness
    test, the second peek, the release of the slot and the count. *)
Inductive drainer :=
| DIdle
| DScan (m : OrderingMode) (i : nat) (best : option (nat * Z)) (any_empty : bool)
| DIssued (m : OrderingMode) (idx : nat) (stamp : Z) (any_empty : bool) (k : nat)
| DMark (m : OrderingMode) (idx : nat) (stamp : Z) (any_empty : bool) (k : nat) (v : Z)
| SIssued (m : OrderingMode) (idx : nat) (stamp : Z) (any_empty : bool) (k : nat)
| SLen (m : OrderingMode) (idx : nat) (stamp : Z) (any_empty : bool) (k : nat)
| SMark (m : OrderingMode) (idx : nat) (stamp : Z) (any_empty : bool) (k : nat)
| DFresh (m : OrderingMode) (idx : nat) (stamp : Z) (any_empty : bool)
| DPeek (m : OrderingMode) (idx : nat)
| DConfirm (m : OrderingMode) (idx : nat) (stamp : Z) (payload : list Z)
| DNote (m : OrderingMode) (stamp : Z).

Definition dstep (kind : StampKind) (clk : Z) (r : OrderingRegion) (rings : list (list slot)) (seen : SeenLine) (d : drainer) :
    option (OrderingRegion * list (list slot) * SeenLine * drainer * event) :=
  let stay d' ev := Some (r, rings, seen, d', ev) in
  match d with
  | DIdle => None
  | DScan m i best any_empty =>
      match rings !! i with
      | Some (s :: _) =>
          let x := slot_stamp s in
          stay (DScan m (S i) (match best with Some (_, bs) => if x <? bs then Some (i, x) else best | None => Some (i, x) end) any_empty) Tau
      | Some [] => stay (DScan m (S i) best true) Tau
      | None => match best with Some (idx, x) => stay (DIssued m idx x any_empty 0) Tau | None => stay DIdle GotEmpty end
      end
  | DIssued m idx x e k =>
      match lines r !! k with
      | None => stay (match m with MergeStrict => SIssued m idx x e 0 | _ => DFresh m idx x e end) Tau
      | Some l => stay (if x <=? issued l then DIssued m idx x e (S k) else DMark m idx x e k (issued l)) Tau
      end
  | DMark m idx x e k v =>
      l ← lines r !! k;
      if v =? watermark l then stay (DIssued m idx x e (S k)) Tau else stay DIdle GotEmpty
  | SIssued m idx x e k =>
      match lines r !! k with
      | None => stay (DFresh m idx x e) Tau
      | Some l => stay (if issued l =? 0 then SIssued m idx x e (S k) else SLen m idx x e k) Tau
      end
  | SLen m idx x e k =>
      q ← rings !! Nat.min k (length rings - 1);
      stay (match q with [] => SMark m idx x e k | _ => SIssued m idx x e (S k) end) Tau
  | SMark m idx x e k =>
      l ← lines r !! k;
      if watermark l <? x then stay DIdle GotEmpty else stay (SIssued m idx x e (S k)) Tau
  | DFresh m idx x e =>
      match freshness_guard kind with
      | Some guard => stay (if e && (u64 (clk - x) <? guard) then DScan m 0 None false else DPeek m idx) Tau
      | None => stay (DPeek m idx) Tau
      end
  | DPeek m idx =>
      q ← rings !! idx;
      match q with
      | s :: _ => stay (DConfirm m idx (slot_stamp s) (slot_payload s)) Tau
      | [] => stay DIdle GotPanic
      end
  | DConfirm m idx x payload => Some (r, alter tail idx rings, seen, DNote m x, Got idx x payload)
  | DNote m x => let '(seen', r') := note_stamp m x seen r in Some (r', rings, seen', DIdle, Tau)
  end.

Record system := { region : OrderingRegion; rings : list (list slot); seen : SeenLine; prods : list producer; drain : drainer }.

(** Any number of producers, one drainer, and switches of the mode. A pop starts
    in the mode it loads, which is one of the two that merge. The drainer holds the
    lease throughout: the handshake, and what several consumers make of it, is
    [rstep] below. *)
Inductive merge_step (kind : StampKind) (cap : nat) : system → event → system → Prop :=
| step_send r qs se ps d i m p ev :
    ps !! i = Some PIdle →
    (p, ev) = (if (STAMPED_PAYLOAD_BYTES <? length m)%nat then (PIdle, PutTooLarge i) else (PLoad m, Tau)) →
    merge_step kind cap (Build_system r qs se ps d) ev (Build_system r qs se (<[i := p]> ps) d)
| step_refresh r qs se ps d i :
    ps !! i = Some PIdle → merge_step kind cap (Build_system r qs se ps d) Tau (Build_system r qs se (<[i := RRaw]> ps) d)
| step_retire r qs se ps d i :
    ps !! i = Some PIdle → merge_step kind cap (Build_system r qs se ps d) Tau (Build_system r qs se (<[i := TStore]> ps) d)
| step_prod r qs se ps d i clk p q r' q' p' ev :
    ps !! i = Some p → qs !! i = Some q → pstep kind cap i clk r q p = Some (r', q', p', ev) →
    merge_step kind cap (Build_system r qs se ps d) ev (Build_system r' (<[i := q']> qs) se (<[i := p']> ps) d)
| step_mode r qs se ps d m :
    merge_step kind cap (Build_system r qs se ps d) Tau (Build_system (set_mode m r) qs se ps d)
| step_pop r qs se ps m :
    m ≠ Unordered → mode r = mode_tag m → qs ≠ [] →
    merge_step kind cap (Build_system r qs se ps DIdle) Tau (Build_system r qs se ps (DScan m 0 None false))
| step_drain r qs se ps d clk r' qs' se' d' ev :
    dstep kind clk r qs se d = Some (r', qs', se', d', ev) →
    merge_step kind cap (Build_system r qs se ps d) ev (Build_system r' qs' se' ps d').

(** [n] producers on a fresh region. *)
Definition start (kind : StampKind) (n : nat) : system :=
  {| region := init_ordering_layout n kind; rings := replicate n []; seen := {| seen_stamp := 0; seen_mode := mode_tag Unordered |};
     prods := replicate n PIdle; drain := DIdle |}.

(** ** Several consumers *)

(** A consumer in the merging branch of [ordered_recv_inner], on a ring that never
    changed its shape: the load of the lease generation, the handshake when it is
    not the one remembered, then the pop. *)
Inductive receiving := VIdle | VGen (m : OrderingMode) | VClaim (m : OrderingMode) (gen : Z) (c : claimant) | VPop (d : drainer).
Record receiver := { v_token : Z; v_lease_gen : Z; v_seen : SeenLine; v_at : receiving }.

Definition rstep (kind : StampKind) (clk : Z) (r : OrderingRegion) (qs : list (list slot)) (v : receiver) :
    option (OrderingRegion * list (list slot) * receiver * res RingError event) :=
  let at_ g se p := {| v_token := v_token v; v_lease_gen := g; v_seen := se; v_at := p |} in
  match v_at v with
  | VIdle => None
  | VGen m =>
      let gen := lease_generation r in
      Some (r, qs, at_ (v_lease_gen v) (v_seen v) (if v_lease_gen v =? gen then VPop (DScan m 0 None false) else VClaim m gen LLoad), Ok Tau)
  | VClaim m gen (LDone true) => Some (r, qs, at_ gen (v_seen v) (VPop (DScan m 0 None false)), Ok Tau)
  | VClaim m gen (LDone false) => Some (r, qs, at_ (v_lease_gen v) (v_seen v) VIdle, Err NotDrainer)
  | VClaim m gen c =>
      let '(r', c') := lstep (v_token v) DRAINER_GRACE_EPOCHS r c in
      Some (r', qs, at_ (v_lease_gen v) (v_seen v) (VClaim m gen c'), Ok Tau)
  | VPop d =>
      '(r', qs', se', d', ev) ← dstep kind clk r qs (v_seen v) d;
      Some (r', qs', at_ (v_lease_gen v) se' (match d' with DIdle => VIdle | _ => VPop d' end), Ok ev)
  end.

(** A consumer that has received nothing yet, at the start of a call. *)
Definition receiver_start (token : Z) (m : OrderingMode) : receiver :=
  {| v_token := token; v_lease_gen := 2 ^ 64 - 1; v_seen := {| seen_stamp := 0; seen_mode := mode_tag Unordered |}; v_at := VGen m |}.

(** What the drainer delivered, from the rings of all the producers and from one. *)
Definition delivered (ls : list event) : list (Z * list Z) :=
  omap (λ e, match e with Got _ s m => Some (s, m) | _ => None end) ls.
Definition put_by (i : nat) (ls : list event) : list (Z * list Z) :=
  omap (λ e, match e with Put j s m => if (j =? i)%nat then Some (s, m) else None | _ => None end) ls.
Definition got_from (i : nat) (ls : list event) : list (Z * list Z) :=
  omap (λ e, match e with Got j s m => if (j =? i)%nat then Some (s, m) else None | _ => None end) ls.

(** How many of the items delivered have a stamp above [x]. *)
Definition above (x : Z) (d : list (Z * list Z)) : nat := length (filter (λ y, x < y.1) d).

(** ** The lease *)

(** A claim that is not overtaken does what the call says, in eight accesses. *)
Lemma lease_alone token grace r r' b :
  token ≠ 0 → try_acquire_drainer (E := RingError) token grace r = Ok (r', b) →
  ∃ n, (n ≤ 8)%nat ∧ Nat.iter n (λ rc, lstep token grace rc.1 rc.2) (r, LLoad) = (r', LDone b).
Proof.
  intros Ht. unfold try_acquire_drainer. rewrite (proj2 (Z.eqb_neq token 0)) by done. cbn [negb assert_ mbind]. intros [= E].
  destruct (drainer_token r =? token) eqn:E1.
  - destruct (drainer_heartbeat r =? drainer_epoch r) eqn:E2; injection E as <- <-.
    + exists 3%nat. split; [lia|]. cbn. rewrite E1. cbn. by rewrite E2.
    + exists 4%nat. split; [lia|]. cbn. rewrite E1. cbn. by rewrite E2.
  - destruct (drainer_token r =? 0) eqn:E2; cbn [orb] in E.
    + injection E as <- <-. exists 5%nat. split; [lia|]. cbn. rewrite E1, E2. cbn. by rewrite E2.
    + destruct (grace <? _) eqn:E3; injection E as <- <-.
      * exists 7%nat. split; [lia|]. cbn. rewrite E1, E2. cbn. rewrite E3. cbn. by rewrite Z.eqb_refl.
      * exists 3%nat. split; [lia|]. cbn. rewrite E1, E2. cbn. by rewrite E3.
Qed.

(** Two claims interleaved; [true] is a step of the first. *)
Definition claims (grace token1 token2 : Z) (sched : list bool) (r : OrderingRegion) : OrderingRegion * claimant * claimant :=
  foldl (λ '(r, a, b) c, if (c : bool) then let '(r, a) := lstep token1 grace r a in (r, a, b)
                         else let '(r, b) := lstep token2 grace r b in (r, a, b)) (r, LLoad, LLoad) sched.

(** The exchange of a claim comes before the store of its heartbeat. Once the
    epoch has passed the grace of the heartbeat a region starts with, a second
    claim in between takes the lease over, and both calls report that they hold
    it, with no drainer ever silent. *)
Lemma lease_granted_twice :
  let r := Nat.iter 4 (λ r, (tick_drainer_epoch r).1) (init_ordering_layout 2 SharedCounter) in
  let '(r', a, b) := claims DRAINER_GRACE_EPOCHS 1 2 ([true; true] ++ replicate 7 false ++ replicate 3 true) r in
  a = LDone true ∧ b = LDone true ∧ drainer_token r' = 2.
Proof. by vm_compute. Qed.
