(* ===== verification/MergeOrder.v ===== *)
(** The order a merging consumer delivers: invariants of [Ordering].

    With stamps from the shared counter, an item is overtaken by at most one item
    with a larger stamp, in both merging modes, and every producer's items arrive
    once and in order. That it can be overtaken at all, also in the strict mode, is
    shown by a run. *)
From stdpp Require Import list sorting.
From S2P Require Import Prelude Queue Marshal Ordering.

Definition item (s : slot) : Z * list Z := (slot_stamp s, slot_payload s).

(** The stamp a producer holds before its item is in the ring. *)
Definition pending (p : producer) : option Z :=
  match p with PIssued _ f raw => Some (Z.max raw f) | PPush _ s => Some s | _ => None end.

Definition message (p : producer) : list Z :=
  match p with PLoad m | PFloor m _ | PRaw m _ | PIssued m _ _ | PPush m _ => m | _ => [] end.

(** The line of a producer at each point of its calls, [c] being the counter. *)
Definition line_ok (c : Z) (l : ProducerLine) (p : producer) : Prop :=
  match p with
  | PIdle | PLoad _ | RRaw | TStore => issued l = watermark l ∧ 0 ≤ issued l ≤ c
  | PFloor _ f => issued l = watermark l ∧ f = issued l + 1 ∧ 0 ≤ issued l ≤ c
  | PRaw _ f => issued l = f ∧ 0 ≤ watermark l < f ∧ f ≤ c + 1
  | PIssued _ f raw => issued l = f ∧ 0 ≤ watermark l < f ∧ f ≤ raw ≤ c
  | PPush _ s | PMark s | RMark s => issued l = s ∧ 0 ≤ watermark l < s ∧ s ≤ c
  | RLoad x | RStore x => issued l = watermark l ∧ 0 ≤ issued l < x ∧ x ≤ c
  | TMark => issued l = 2 ^ 64 - 1 ∧ 0 ≤ watermark l ≤ c
  | PRetired => issued l = 2 ^ 64 - 1 ∧ watermark l = 2 ^ 64 - 1
  end.

(** The last stamp the ring of the producer can hold. *)
Definition ceiling (l : ProducerLine) (p : producer) : Z := match p with PMark s => s | _ => watermark l end.

Record pok (c : Z) (D : list (Z * list Z)) (l : ProducerLine) (p : producer) (q : list slot) : Prop := {
  pok_line : line_ok c l p;
  pok_message : (length (message p) ≤ STAMPED_PAYLOAD_BYTES)%nat;
  pok_pending y : pending p = Some y → above y D = 0%nat;
  pok_sorted : StronglySorted Z.le (slot_stamp <$> q);
  pok_slots : Forall (λ s, 0 ≤ slot_stamp s ≤ c ∧ slot_stamp s ≤ ceiling l p ∧ (above (slot_stamp s) D ≤ 1)%nat) q }.

(** ** Counting what overtook *)

Lemma above_app x d e : above x (d ++ e) = (above x d + above x e)%nat.
Proof. unfold above. by rewrite filter_app, length_app. Qed.

Lemma above_0 x d : Forall (λ y, y.1 ≤ x) d → above x d = 0%nat.
Proof.
  intros H. unfold above. induction H as [|y d Hy _ IH]; [done|].
  rewrite filter_cons_False by lia. done.
Qed.

Lemma above_one x y m : above x [(y, m)] = if decide (x < y) then 1%nat else 0%nat.
Proof. unfold above. rewrite filter_cons. cbn. by destruct (decide _). Qed.

Lemma slot_stamp_stamped s m : 0 ≤ s < 2 ^ 64 → slot_stamp (pad SLOT_BYTES (stamped s m)) = s.
Proof.
  intros Hs. unfold slot_stamp, pad, stamped. rewrite <- (assoc_L (++)), take_app_length' by (by rewrite length_to_le).
  rewrite of_to_le. apply Z.mod_small. done.
Qed.

Lemma slot_payload_stamped s m :
  slot_payload (pad SLOT_BYTES (stamped s m)) = pad STAMPED_PAYLOAD_BYTES m.
Proof.
  unfold slot_payload, pad, stamped. rewrite <- (assoc_L (++)), drop_app_length' by (by rewrite length_to_le).
  by do 2 f_equal.
Qed.

(** ** A producer's access *)

Lemma pok_mono c c' D l p q : c ≤ c' → pok c D l p q → pok c' D l p q.
Proof.
  intros Hc [Hl Hm Hp Hs Hq]. split; [|done..|].
  - destruct p; cbn in *; lia.
  - eapply Forall_impl; [done|]. cbn beta. intros s. lia.
Qed.

(** The part of a step of producer [i] that the ring sees. *)
Definition put_slots (i : nat) (D : list (Z * list Z)) (q q' : list slot) (ev : event) : Prop :=
  match ev with
  | Put j s m => j = i ∧ ∃ x, q' = q ++ [x] ∧ item x = (s, m) ∧ above s D = 0%nat
  | Got _ _ _ | GotEmpty | GotPanic => False
  | _ => q' = q
  end.

Lemma alter_at {A} (f : A → A) i (xs : list A) x : xs !! i = Some x → alter f i xs = <[i := f x]> xs.
Proof. intros H. rewrite list_insert_alter. apply list_alter_ext; [|done]. congruence. Qed.

(** An access that leaves the ring alone. *)
Lemma pok_quiet c D l p q c' l' p' :
  pok c D l p q → c ≤ c' → line_ok c' l' p' → (length (message p') ≤ STAMPED_PAYLOAD_BYTES)%nat →
  (∀ y, pending p' = Some y → pending p = Some y ∨ Forall (λ z, z.1 ≤ y) D) → ceiling l p ≤ ceiling l' p' → pok c' D l' p' q.
Proof.
  intros [_ _ Hp Hs Hq] Hc Hl Hm Hp' Hce. split; [done..| |done|].
  - intros y Hy. destruct (Hp' y Hy) as [?|?]; [by apply Hp|by apply above_0].
  - eapply Forall_impl; [done|]. cbn beta. intros s. lia.
Qed.

Ltac quiet l' :=
  exists l'; split; [cbn; first [by rewrite list_insert_id | by erewrite alter_at]|];
  split; [cbn; lia|]; split; [|split; [done|cbn [pending watermark]; try done; intros ? [= <-]; (by left) || (right; cbn; lia)]];
  eapply pok_quiet; [eassumption|cbn; lia|cbn; lia|done| |cbn; lia];
  cbn [pending]; try done; intros ? [= <-]; (by left) || (right; eapply Forall_impl; [eassumption|cbn; lia]).

(** The push itself. *)
Lemma stamped_push_ok cap i r q m s l D r' q' p' ev :
  lines r !! i = Some l → pok (shared_stamp r) D l (PPush m s) q → shared_stamp r < 2 ^ 63 →
  (let '(q', o) := spec_push cap SLOT_BYTES q (stamped s m) in
   Some (r, q', PMark s, match o with Ok _ => Put i s (pad STAMPED_PAYLOAD_BYTES m) | _ => PutFull i end)) = Some (r', q', p', ev) →
  ∃ l', lines r' = <[i := l']> (lines r) ∧ shared_stamp r ≤ shared_stamp r' ≤ shared_stamp r + 1 ∧
    pok (shared_stamp r') D l' p' q' ∧ put_slots i D q q' ev ∧
    (∀ y, pending p' = Some y → (pending (PPush m s) = Some y ∧ watermark l' = watermark l) ∨ shared_stamp r < y).
Proof.
  intros Hl Hpok Hc Hstep. pose proof Hpok as [Hline Hm Hp Hs Hq]. cbn in Hline, Hm.
  assert ((SLOT_BYTES <? length (stamped s m))%nat = false) as El.
  { apply Nat.ltb_ge. unfold stamped. rewrite length_app, length_to_le. unfold SLOT_BYTES, STAMP_BYTES, STAMPED_PAYLOAD_BYTES in *. lia. }
  unfold spec_push in Hstep. rewrite El in Hstep. exists l.
  destruct (cap <=? @length (list Z) q)%nat; injection Hstep as <- <- <- <-; rewrite list_insert_id by done.
  - split; [done|]. split; [lia|]. split; [|done]. eapply pok_quiet; [done|lia|cbn; lia|cbn; lia|done|cbn; lia].
  - assert (slot_stamp (pad SLOT_BYTES (stamped s m)) = s) as Es by (apply slot_stamp_stamped; lia).
    split; [done|]. split; [lia|]. split; [|split; [|done]].
    + split; [cbn; lia|cbn; lia|done| |].
      * rewrite fmap_app. apply StronglySorted_app_2; [|done|repeat constructor]. rewrite list_fmap_singleton, Es.
        intros x1 x2 (z & -> & Hz)%list_elem_of_fmap ->%list_elem_of_singleton.
        rewrite Forall_forall in Hq. destruct (Hq z Hz) as (_ & Hz' & _). cbn [ceiling] in Hz'. lia.
      * apply Forall_app. split; [eapply Forall_impl; [done|]; cbn [ceiling]; lia|]. apply Forall_singleton. rewrite Es, Hp by done. cbn [ceiling]. lia.
    + split; [done|]. eexists. split; [done|]. unfold item. rewrite Es, slot_payload_stamped. split; [done|by apply Hp].
Qed.

Lemma pstep_ok cap i clk r q p l D r' q' p' ev :
  lines r !! i = Some l → shared_stamp r + 1 < 2 ^ 63 → 0 ≤ shared_stamp r → Forall (λ y, y.1 ≤ shared_stamp r) D →
  pok (shared_stamp r) D l p q → pstep SharedCounter cap i clk r q p = Some (r', q', p', ev) →
  ∃ l', lines r' = <[i := l']> (lines r) ∧ shared_stamp r ≤ shared_stamp r' ≤ shared_stamp r + 1 ∧
    pok (shared_stamp r') D l' p' q' ∧ put_slots i D q q' ev ∧
    (∀ y, pending p' = Some y → (pending p = Some y ∧ watermark l' = watermark l) ∨ shared_stamp r < y).
Proof.
  intros Hl Hc H0 HD Hpok Hstep. pose proof (pok_line _ _ _ _ _ Hpok) as Hline. pose proof (pok_message _ _ _ _ _ Hpok) as Hm.
  unfold pstep in Hstep. rewrite Hl in Hstep. cbn [mbind option_bind] in Hstep.
  assert (∀ x, 0 ≤ x ≤ shared_stamp r → u64 (x + 1) = x + 1) as Hu by (intros; apply wrap_small; lia).
  destruct p as [|m|m f|m f|m f raw|m s|s| |raw|s|s| | |]; try done; cbn [raw_stamp] in Hstep; cbn [line_ok message] in *.
  - injection Hstep as <- <- <- <-. rewrite Hu by lia. quiet l.
  - injection Hstep as <- <- <- <-. quiet {| issued := f; watermark := watermark l |}.
  - injection Hstep as <- <- <- <-. rewrite Hu by lia. quiet l.
  - injection Hstep as <- <- <- <-. quiet {| issued := Z.max raw f; watermark := watermark l |}.
  - eapply (stamped_push_ok cap i); [done..|lia|exact Hstep].
  - injection Hstep as <- <- <- <-. quiet {| issued := issued l; watermark := s |}.
  - injection Hstep as <- <- <- <-. rewrite Hu by lia. quiet l.
  - injection Hstep as <- <- <- <-. rewrite Hu by lia. quiet l.
  - injection Hstep as <- <- <- <-. quiet {| issued := s; watermark := watermark l |}.
  - injection Hstep as <- <- <- <-. quiet {| issued := issued l; watermark := s |}.
  - injection Hstep as <- <- <- <-. quiet {| issued := 2 ^ 64 - 1; watermark := watermark l |}.
  - injection Hstep as <- <- <- <-. quiet {| issued := issued l; watermark := 2 ^ 64 - 1 |}.
Qed.

(** ** The drainer *)

(** The rings before [i] hold nothing overtaken below the best head so far. *)
Definition scanned (D : list (Z * list Z)) (qs : list (list slot)) (i : nat) (best : option (nat * Z)) : Prop :=
  ∀ j q s, (j < i)%nat → qs !! j = Some q → s ∈ q → (∀ b, best = Some b → slot_stamp s < b.2) → above (slot_stamp s) D = 0%nat.

Definition headed (qs : list (list slot)) (idx : nat) (x : Z) : Prop := ∃ s q, qs !! idx = Some (s :: q) ∧ slot_stamp s = x.

(** The producers before [k] hold no stamp below [x]. *)
Definition gated (ps : list producer) (k : nat) (x : Z) : Prop :=
  ∀ j p y, (j < k)%nat → ps !! j = Some p → pending p = Some y → x ≤ y.

Definition chosen (D : list (Z * list Z)) (qs : list (list slot)) (idx : nat) (x : Z) : Prop :=
  scanned D qs (length qs) (Some (idx, x)) ∧ headed qs idx x.

Definition drainer_ok (D : list (Z * list Z)) (ls : list ProducerLine) (qs : list (list slot)) (ps : list producer) (d : drainer) : Prop :=
  match d with
  | DIdle | DNote _ _ => True
  | DScan _ i best _ => scanned D qs i best ∧ ∀ b, best = Some b → headed qs b.1 b.2
  | DIssued _ idx x _ k => chosen D qs idx x ∧ gated ps k x
  | DMark _ idx x _ k v => chosen D qs idx x ∧ gated ps k x ∧
      ∀ l p y, ls !! k = Some l → ps !! k = Some p → pending p = Some y → y < x → watermark l < v
  | SIssued _ idx x _ _ | SLen _ idx x _ _ | SMark _ idx x _ _ | DFresh _ idx x _ => chosen D qs idx x ∧ gated ps (length qs) x
  | DPeek _ idx => ∃ x, chosen D qs idx x ∧ gated ps (length qs) x
  | DConfirm _ idx x m => chosen D qs idx x ∧ gated ps (length qs) x ∧ ∃ s q, qs !! idx = Some (s :: q) ∧ item s = (x, m)
  end.

(** What the drainer relies on of the producers: rings grow by items that nothing
    has overtaken, and a stamp a producer comes to hold is above [c]. *)
Record evolves (c : Z) (D : list (Z * list Z)) (ls : list ProducerLine) (qs : list (list slot)) (ps : list producer)
    (ls' : list ProducerLine) (qs' : list (list slot)) (ps' : list producer) : Prop := {
  ev_len : length qs' = length qs;
  ev_rings j q' : qs' !! j = Some q' → ∃ q e, qs !! j = Some q ∧ q' = q ++ e ∧ Forall (λ s, above (slot_stamp s) D = 0%nat) e;
  ev_pending j l' p' y : ls' !! j = Some l' → ps' !! j = Some p' → pending p' = Some y →
    c < y ∨ ∃ l p, ls !! j = Some l ∧ ps !! j = Some p ∧ pending p = Some y ∧ watermark l' = watermark l }.

Section evolves.
Context (c : Z) (D : list (Z * list Z)) (ls ls' : list ProducerLine) (qs qs' : list (list slot)) (ps ps' : list producer).
Context (Hev : evolves c D ls qs ps ls' qs' ps') (Hlen : length ls' = length ps').
Context (Hmax : ∀ j q s, qs !! j = Some q → s ∈ q → slot_stamp s ≤ c).

Lemma scanned_evolves i best : scanned D qs i best → scanned D qs' i best.
Proof.
  intros H j q' s Hj Hq' Hs Hb. destruct (ev_rings _ _ _ _ _ _ _ _ Hev j q' Hq') as (q & e & Hq & -> & He).
  apply elem_of_app in Hs as [Hs|Hs]; [by eapply H|]. by rewrite Forall_forall in He; apply He.
Qed.

Lemma ring_evolves idx s q : qs !! idx = Some (s :: q) → ∃ q', qs' !! idx = Some (s :: q').
Proof.
  intros Hq. destruct (lookup_lt_is_Some_2 qs' idx) as [q' Hq'].
  { rewrite (ev_len _ _ _ _ _ _ _ _ Hev). by eapply lookup_lt_Some. }
  destruct (ev_rings _ _ _ _ _ _ _ _ Hev idx q' Hq') as (q0 & e & Hq0 & -> & He). rewrite Hq in Hq0. injection Hq0 as <-. by eexists.
Qed.

Lemma headed_evolves idx x : headed qs idx x → headed qs' idx x.
Proof. intros (s & q & Hq & Hx). destruct (ring_evolves idx s q Hq) as (q' & Hq'). by exists s, q'. Qed.

Lemma headed_max idx x : headed qs idx x → x ≤ c.
Proof. intros (s & q & Hq & <-). eapply Hmax; [done|]. by left. Qed.

Lemma chosen_evolves idx x : chosen D qs idx x → chosen D qs' idx x.
Proof.
  intros [H1 H2]. split; [|by apply headed_evolves]. rewrite (ev_len _ _ _ _ _ _ _ _ Hev). by apply scanned_evolves.
Qed.

Lemma gated_evolves k x : x ≤ c → gated ps k x → gated ps' k x.
Proof.
  intros Hx H j p' y Hj Hp' Hy. destruct (lookup_lt_is_Some_2 ls' j) as [l' Hl']; [rewrite Hlen; by eapply lookup_lt_Some|].
  destruct (ev_pending _ _ _ _ _ _ _ _ Hev j l' p' y Hl' Hp' Hy) as [?|(l & p & _ & Hp & Hy' & _)]; [lia|]. by eapply H.
Qed.

Lemma drainer_evolves d : drainer_ok D ls qs ps d → drainer_ok D ls' qs' ps' d.
Proof.
  pose proof scanned_evolves. pose proof headed_evolves. pose proof chosen_evolves.
  assert (∀ idx x k, chosen D qs idx x → gated ps k x → gated ps' k x) as Hg.
  { intros idx x k [_ Hh]. apply gated_evolves. by eapply headed_max. }
  assert (length qs' = length qs) as El by apply (ev_len _ _ _ _ _ _ _ _ Hev).
  destruct d; cbn [drainer_ok]; rewrite ?El; try done; try (intros [? ?]; by eauto); try (intros (? & ? & ?); by eauto).
  - intros (Hc & Hk & Hw). split; [eauto|]. split; [eauto|]. intros l' p' y Hl' Hp' Hy Hlt.
    destruct (ev_pending _ _ _ _ _ _ _ _ Hev k l' p' y Hl' Hp' Hy) as [?|(l & p & Hl & Hp & Hy' & ->)]; [|by eapply Hw].
    destruct Hc as [_ Hh%headed_max]. lia.
  - intros (Hc & Hk & s & q & Hq & Hs). split; [eauto|]. split; [eauto|]. destruct (ring_evolves idx s q Hq) as (q' & ?). by exists s, q'.
Qed.
End evolves.

(** ** The invariant of a run *)

Record inv (tr : list event) (s : system) : Prop := {
  i_lines : length (lines (region s)) = length (rings s);
  i_prods : length (prods s) = length (rings s);
  i_count : 0 ≤ shared_stamp (region s) ≤ Z.of_nat (length tr);
  i_delivered : Forall (λ y, y.1 ≤ shared_stamp (region s)) (delivered tr);
  i_pok i l p q : lines (region s) !! i = Some l → prods s !! i = Some p → rings s !! i = Some q →
    pok (shared_stamp (region s)) (delivered tr) l p q;
  i_drain : drainer_ok (delivered tr) (lines (region s)) (rings s) (prods s) (drain s);
  i_fifo i q : rings s !! i = Some q → put_by i tr = got_from i tr ++ (item <$> q);
  i_late d1 x d2 : delivered tr = d1 ++ x :: d2 → (above x.1 d1 ≤ 1)%nat;
  i_panic : GotPanic ∉ tr }.

Lemma delivered_app tr tr' : delivered (tr ++ tr') = delivered tr ++ delivered tr'.
Proof. apply omap_app. Qed.

Lemma inv_at tr s i :
  inv tr s → (i < length (rings s))%nat →
  ∃ l p q, lines (region s) !! i = Some l ∧ prods s !! i = Some p ∧ rings s !! i = Some q ∧
    pok (shared_stamp (region s)) (delivered tr) l p q.
Proof.
  intros Hi Hlt. destruct (lookup_lt_is_Some_2 (lines (region s)) i) as [l Hl]; [by rewrite (i_lines _ _ Hi)|].
  destruct (lookup_lt_is_Some_2 (prods s) i) as [p Hp]; [by rewrite (i_prods _ _ Hi)|].
  destruct (lookup_lt_is_Some_2 (rings s) i) as [q Hq]; [done|]. exists l, p, q. eauto using i_pok.
Qed.

Lemma inv_max tr s j q x : inv tr s → rings s !! j = Some q → x ∈ q → slot_stamp x ≤ shared_stamp (region s).
Proof.
  intros Hi Hq Hx. destruct (inv_at tr s j Hi) as (l & p & q' & _ & _ & Hq' & [_ _ _ _ Hs]); [by eapply lookup_lt_Some|].
  rewrite Hq in Hq'. injection Hq' as <-. rewrite Forall_forall in Hs. by apply Hs.
Qed.

Lemma put_by_put i q q' ev D tr :
  put_slots i D q q' ev → put_by i tr = got_from i tr ++ (item <$> q) → put_by i (tr ++ [ev]) = got_from i (tr ++ [ev]) ++ (item <$> q').
Proof.
  unfold put_by, got_from. rewrite !omap_app. intros Hp Ht. rewrite Ht. destruct ev as [|j s m|j|j|j s m| |]; cbn in Hp; subst; try done.
  all: try (cbn; by rewrite !app_nil_r). destruct Hp as (-> & x & -> & Hx & _). cbn. rewrite Nat.eqb_refl. cbn.
  by rewrite fmap_app, app_nil_r, (assoc_L (++)), list_fmap_singleton, Hx.
Qed.

Lemma put_by_other i j D q q' ev tr :
  i ≠ j → put_slots i D q q' ev → put_by j (tr ++ [ev]) = put_by j tr ∧ got_from j (tr ++ [ev]) = got_from j tr.
Proof.
  unfold put_by, got_from. rewrite !omap_app. intros Hn Hp. destruct ev as [|k s m|k|k|k s m| |]; cbn in Hp; try done.
  all: cbn; rewrite ?app_nil_r; try done. destruct Hp as (-> & _). rewrite (proj2 (Nat.eqb_neq i j)) by done. by rewrite app_nil_r.
Qed.

Ltac at_eq H := rewrite list_lookup_insert_eq in H by (by eapply lookup_lt_Some).
Ltac at_ne H := rewrite list_lookup_insert_ne in H by done.

Lemma inv_by_producer tr r qs se ps d i l p q r' l' p' q' ev :
  inv tr (Build_system r qs se ps d) → lines r !! i = Some l → ps !! i = Some p → qs !! i = Some q →
  lines r' = <[i := l']> (lines r) → shared_stamp r ≤ shared_stamp r' ≤ shared_stamp r + 1 →
  pok (shared_stamp r') (delivered tr) l' p' q' → put_slots i (delivered tr) q q' ev →
  (∀ y, pending p' = Some y → (pending p = Some y ∧ watermark l' = watermark l) ∨ shared_stamp r < y) →
  inv (tr ++ [ev]) (Build_system r' (<[i := q']> qs) se (<[i := p']> ps) d).
Proof.
  intros Hi Hl Hp Hq Hl' Hc Hpok Hput Hpend.
  assert (delivered (tr ++ [ev]) = delivered tr) as ED.
  { rewrite delivered_app. destruct ev; cbn in Hput; try done; apply app_nil_r. }
  assert (length (<[i := l']> (lines r)) = length (<[i := p']> ps)) as Hlen.
  { rewrite !length_insert. pose proof (i_lines _ _ Hi). pose proof (i_prods _ _ Hi). cbn in *. congruence. }
  split; cbn [region rings prods drain]; rewrite ?ED, ?length_insert, ?Hl', ?length_insert.
  - apply (i_lines _ _ Hi).
  - apply (i_prods _ _ Hi).
  - rewrite length_app. cbn [length]. pose proof (i_count _ _ Hi) as H. cbn in H. lia.
  - eapply Forall_impl; [apply (i_delivered _ _ Hi)|]. cbn. lia.
  - intros j l1 p1 q1 H1 H2 H3. destruct (decide (i = j)) as [<-|Hn].
    + at_eq H1; at_eq H2; at_eq H3. by simplify_eq.
    + at_ne H1; at_ne H2; at_ne H3. eapply pok_mono; [|by eapply (i_pok _ _ Hi)]. cbn. lia.
  - eapply (drainer_evolves (shared_stamp r)); [|done| |apply (i_drain _ _ Hi)]; cbn [region rings prods].
    + split; [by rewrite length_insert| |].
      * intros j q1 H1. destruct (decide (i = j)) as [<-|Hn].
        -- at_eq H1. injection H1 as <-.
           destruct ev; cbn in Hput; try done; try (rewrite Hput; exists q, []; split; [done|]; by rewrite app_nil_r).
           destruct Hput as (_ & x & -> & Hx & H0). exists q, [x]. split; [done|]. split; [done|]. apply Forall_singleton.
           by injection Hx as <- _.
        -- at_ne H1. exists q1, []. split; [done|]. by rewrite app_nil_r.
      * intros j l1 p1 y H1 H2 Hy. destruct (decide (i = j)) as [<-|Hn].
        -- at_eq H1; at_eq H2. simplify_eq.
           destruct (Hpend y Hy) as [[? ?]|?]; [right|by left]. by exists l, p.
        -- at_ne H1; at_ne H2. right. by exists l1, p1.
    + intros j q1 x H1 Hx. by apply (inv_max _ _ j q1 x Hi).
  - intros j q1 H1. destruct (decide (i = j)) as [<-|Hn].
    + at_eq H1. injection H1 as <-.
      eapply put_by_put; [done|]. by apply (i_fifo _ _ Hi).
    + at_ne H1. destruct (put_by_other i j _ _ _ _ tr Hn Hput) as [-> ->]. by apply (i_fifo _ _ Hi).
  - apply (i_late _ _ Hi).
  - rewrite elem_of_app, list_elem_of_singleton. intros [H| <-]; [by apply (i_panic _ _ Hi)|done].
Qed.

(** An access that leaves the rings and the lines alone. *)
Lemma inv_quiet tr r qs se ps d r' se' d' ev :
  inv tr (Build_system r qs se ps d) → lines r' = lines r → shared_stamp r' = shared_stamp r →
  drainer_ok (delivered tr) (lines r) qs ps d' → ev = Tau ∨ ev = GotEmpty →
  inv (tr ++ [ev]) (Build_system r' qs se' ps d').
Proof.
  intros [H1 H2 H3 H4 H5 H6 H7 H8 H9] El Es Hd He. cbn [region rings prods drain] in *.
  assert (delivered (tr ++ [ev]) = delivered tr ∧ ∀ i, put_by i (tr ++ [ev]) = put_by i tr ∧ got_from i (tr ++ [ev]) = got_from i tr) as [ED EP].
  { unfold put_by, got_from. rewrite delivered_app. setoid_rewrite omap_app. destruct He as [-> | ->]; cbn; by rewrite ?app_nil_r; setoid_rewrite app_nil_r. }
  split; cbn [region rings prods drain]; rewrite ?ED, ?El, ?Es; try done.
  - rewrite length_app. lia.
  - intros i q Hq. destruct (EP i) as [-> ->]. by apply H7.
  - rewrite elem_of_app, list_elem_of_singleton. intros [?|<-]; [done|]. by destruct He.
Qed.

(** The head of a ring is its least stamp. *)
Lemma head_least tr s j x q t : inv tr s → rings s !! j = Some (x :: q) → t ∈ x :: q → slot_stamp x ≤ slot_stamp t.
Proof.
  intros Hi Hq Ht. destruct (inv_at tr s j Hi) as (l & p & q' & _ & _ & Hq' & [_ _ _ Hs _]); [by eapply lookup_lt_Some|].
  rewrite Hq in Hq'. injection Hq' as <-. apply elem_of_cons in Ht as [->|Ht]; [done|].
  cbn [fmap list_fmap] in Hs. apply StronglySorted_inv in Hs as [_ Hs]. rewrite Forall_forall in Hs. apply Hs. by apply list_elem_of_fmap_2.
Qed.

Lemma scan_ok tr s i x q best :
  inv tr s → rings s !! i = Some (x :: q) → scanned (delivered tr) (rings s) i best → (∀ b, best = Some b → headed (rings s) b.1 b.2) →
  let best' := match best with Some (_, bs) => if slot_stamp x <? bs then Some (i, slot_stamp x) else best | None => Some (i, slot_stamp x) end in
  scanned (delivered tr) (rings s) (S i) best' ∧ ∀ b, best' = Some b → headed (rings s) b.1 b.2.
Proof.
  intros Hi Hq Hsc Hh best'. assert (headed (rings s) i (slot_stamp x)) as Hx by (by exists x, q).
  assert (∃ b, best' = Some b ∧ b.2 ≤ slot_stamp x ∧ headed (rings s) b.1 b.2 ∧ ∀ b0, best = Some b0 → b.2 ≤ b0.2) as (b & Eb & Hbx & Hbh & Hb0).
  { subst best'. destruct best as [[idx bs]|]; [|exists (i, slot_stamp x); by repeat split].
    destruct (Z.ltb_spec (slot_stamp x) bs); eexists; (split; [done|]); cbn [fst snd].
    - split; [done|]. split; [done|]. intros b0 [= <-]. cbn [snd]. lia.
    - split; [done|]. split; [by apply (Hh (idx, bs))|]. by intros b0 [= <-]. }
  rewrite Eb. split; [|by intros b' [= <-]]. intros j q' t Hj Hq' Ht Hlt. specialize (Hlt b eq_refl).
  destruct (decide (j = i)) as [->|Hn].
  - rewrite Hq in Hq'. injection Hq' as <-. pose proof (head_least tr s i x q t Hi Hq Ht). lia.
  - apply (Hsc j q' t); [lia|done..|]. intros b0 E0. specialize (Hb0 b0 E0). lia.
Qed.

(** The two loads of the gate on a line. *)
Lemma gate_issued tr s k l p x :
  inv tr s → lines (region s) !! k = Some l → prods s !! k = Some p → gated (prods s) k x → x ≤ issued l → gated (prods s) (S k) x.
Proof.
  intros Hi Hl Hp Hg Hx j p' y Hj Hp' Hy. destruct (decide (j = k)) as [->|Hn]; [|apply (Hg j p'); [lia|done..]].
  rewrite Hp in Hp'. injection Hp' as <-. destruct (lookup_lt_is_Some_2 (rings s) k) as [q Hq].
  { rewrite <- (i_prods _ _ Hi). by eapply lookup_lt_Some. }
  pose proof (pok_line _ _ _ _ _ (i_pok _ _ Hi k l p q Hl Hp Hq)) as Hline. destruct p; try done; injection Hy as <-; cbn in Hline; lia.
Qed.

Lemma gate_mark tr s k l p y :
  inv tr s → lines (region s) !! k = Some l → prods s !! k = Some p → pending p = Some y → watermark l < issued l.
Proof.
  intros Hi Hl Hp Hy. destruct (lookup_lt_is_Some_2 (rings s) k) as [q Hq].
  { rewrite <- (i_prods _ _ Hi). by eapply lookup_lt_Some. }
  pose proof (pok_line _ _ _ _ _ (i_pok _ _ Hi k l p q Hl Hp Hq)) as Hline. destruct p; try done; cbn in Hline; lia.
Qed.

Definition is_confirm (d : drainer) : Prop := match d with DConfirm _ _ _ _ => True | _ => False end.

Lemma dstep_quiet tr r qs se ps d clk r' qs' se' d' ev :
  inv tr (Build_system r qs se ps d) → dstep SharedCounter clk r qs se d = Some (r', qs', se', d', ev) → ¬ is_confirm d →
  qs' = qs ∧ lines r' = lines r ∧ shared_stamp r' = shared_stamp r ∧ drainer_ok (delivered tr) (lines r) qs ps d' ∧ (ev = Tau ∨ ev = GotEmpty).
Proof.
  intros Hi Hs Hn. pose proof (i_drain _ _ Hi) as Hd. pose proof (i_lines _ _ Hi) as El. pose proof (i_prods _ _ Hi) as Ep.
  cbn [region rings prods drain] in *.
  destruct d as [|m i best e|m idx x e k|m idx x e k v|m idx x e k|m idx x e k|m idx x e k|m idx x e|m idx|m idx x pl|m x]; cbn [dstep] in Hs; cbn [drainer_ok] in Hd; [done|..].
  - destruct (qs !! i) as [ [|s q]|] eqn:Eq; [| |destruct best as [ [idx x]|]]; injection Hs as <- <- <- <- <-; (split; [done|]); (split; [done|]); (split; [done|]); (split; [|by auto]).
    + split; [|apply Hd]. intros j q s Hj Hq Hs. destruct (decide (j = i)) as [->|]; [|apply (proj1 Hd j q s); [lia|done..]].
      rewrite Eq in Hq. injection Hq as <-. by apply not_elem_of_nil in Hs.
    + apply (scan_ok tr _ i s q best Hi Eq); apply Hd.
    + split; [|intros j p y Hj; lia]. apply lookup_ge_None_1 in Eq. split; [|by apply (proj2 Hd (idx, x))].
      intros j q s Hj. apply (proj1 Hd). lia.
    + done.
  - destruct (lines r !! k) as [l|] eqn:Ek.
    + destruct (lookup_lt_is_Some_2 ps k) as [p Hp]; [rewrite Ep, <- El; by eapply lookup_lt_Some|].
      destruct (Z.leb_spec x (issued l)); injection Hs as <- <- <- <- <-; (split; [done|]); (split; [done|]); (split; [done|]); (split; [|by auto]).
      * split; [apply Hd|]. by eapply (gate_issued tr _ k l p x Hi Ek Hp); [apply Hd|].
      * destruct Hd as [Hc Hg]. split; [done|]. split; [done|]. intros l' p' y Hl' Hp' Hy _. rewrite Ek in Hl'. injection Hl' as <-.
        by eapply (gate_mark tr _ k l p' y Hi).
    + injection Hs as <- <- <- <- <-. split; [done|]. split; [done|]. split; [done|]. split; [|by auto]. apply lookup_ge_None_1 in Ek.
      destruct Hd as [Hc Hg]. assert (gated ps (length qs) x) by (intros j p y Hj; apply Hg; lia). by destruct m.
  - destruct (lines r !! k) as [l|] eqn:Ek; [|done]. cbn in Hs. destruct Hd as (Hc & Hg & Hw).
    destruct (Z.eqb_spec v (watermark l)) as [->|]; injection Hs as <- <- <- <- <-; (split; [done|]); (split; [done|]); (split; [done|]); (split; [|by auto]); [|done].
    split; [done|]. intros j p y Hj Hp Hy. destruct (decide (j = k)) as [->|]; [|apply (Hg j p); [lia|done..]].
    destruct (decide (x ≤ y)); [done|]. specialize (Hw l p y eq_refl Hp Hy). lia.
  - destruct (lines r !! k) as [l|]; [destruct (issued l =? 0)|]; injection Hs as <- <- <- <- <-; by split_and!; cbn [drainer_ok]; auto.
  - destruct (qs !! _) as [ [|s q]|]; [..|done]; injection Hs as <- <- <- <- <-; by split_and!; cbn [drainer_ok]; auto.
  - destruct (lines r !! k) as [l|]; [|done]. cbn in Hs. destruct (watermark l <? x); injection Hs as <- <- <- <- <-; by split_and!; cbn [drainer_ok]; auto.
  - injection Hs as <- <- <- <- <-. split; [done|]. split; [done|]. split; [done|]. split; [|by auto]. by exists x.
  - destruct Hd as (x & Hc & Hg). pose proof (proj2 Hc) as (s & q & Hq & Hx). rewrite Hq in Hs. injection Hs as <- <- <- <- <-.
    split; [done|]. split; [done|]. split; [done|]. split; [|by auto]. rewrite Hx. split; [done|]. split; [done|]. exists s, q. split; [done|].
    unfold item. by rewrite Hx.
  - done.
  - unfold note_stamp in Hs. destruct (x <? _); injection Hs as <- <- <- <- <-; by split_and!; cbn [drainer_ok]; auto.
Qed.

Lemma pok_confirm c D l p q x m q' :
  pok c D l p q → (q' = q ∨ ∃ s, q = s :: q') → (∀ y, pending p = Some y → x ≤ y) →
  (∀ t, t ∈ q → slot_stamp t < x → above (slot_stamp t) D = 0%nat) → pok c (D ++ [(x, m)]) l p q'.
Proof.
  intros [H1 H2 H3 H4 H5] Hq Hp Ht. assert (q' `sublist_of` q) as Hsub by (destruct Hq as [->|[s ->]]; [done|by constructor]).
  split; [done|done| | |].
  - intros y Hy. rewrite above_app, (H3 y Hy), above_one. specialize (Hp y Hy). by rewrite decide_False by lia.
  - destruct Hq as [->|[s ->]]; [done|]. cbn [fmap list_fmap] in H4. by apply StronglySorted_inv in H4 as [? _].
  - rewrite Forall_forall in *. intros t Hin. assert (t ∈ q) as Hin' by (by eapply sublist_subseteq). specialize (H5 t Hin').
    split; [apply H5|]. split; [apply H5|]. rewrite above_app, above_one. destruct (decide (slot_stamp t < x)) as [Hl|]; [|lia].
    rewrite (Ht t Hin' Hl). lia.
Qed.

Lemma inv_confirm tr r qs se ps md idx x m :
  inv tr (Build_system r qs se ps (DConfirm md idx x m)) →
  inv (tr ++ [Got idx x m]) (Build_system r (alter tail idx qs) se ps (DNote md x)).
Proof.
  intros Hi. pose proof (i_drain _ _ Hi) as ((Hsc & _) & Hg & s & q & Hq & Hs). cbn [rings prods lines region] in *.
  injection Hs as Ex Em. rewrite (alter_at tail idx qs (s :: q) Hq). cbn [tail].
  assert (x ≤ shared_stamp r) as Hx by (rewrite <- Ex; eapply (inv_max _ _ idx (s :: q) s Hi Hq); by left).
  assert (delivered (tr ++ [Got idx x m]) = delivered tr ++ [(x, m)]) as ED by (by rewrite delivered_app).
  split; cbn [region rings prods drain]; rewrite ?ED, ?length_insert.
  - apply (i_lines _ _ Hi).
  - apply (i_prods _ _ Hi).
  - rewrite length_app. pose proof (i_count _ _ Hi) as H. cbn in *. lia.
  - apply Forall_app. split; [apply (i_delivered _ _ Hi)|]. by apply Forall_singleton.
  - intros j l p q' Hl Hp Hq'. assert (∃ q0, qs !! j = Some q0 ∧ (q' = q0 ∨ ∃ s, q0 = s :: q')) as (q0 & Hq0 & Hsub).
    { destruct (decide (idx = j)) as [<-|]; [at_eq Hq'|at_ne Hq'].
      - injection Hq' as <-. exists (s :: q). split; [done|]. right. by exists s.
      - exists q'. auto. }
    eapply pok_confirm; [by eapply (i_pok _ _ Hi)|done| |].
    + intros y Hy. apply (Hg j p y); [|done..]. by eapply lookup_lt_Some.
    + intros t Ht Hlt. apply (Hsc j q0 t); [by eapply lookup_lt_Some|done..|]. by intros b [= <-].
  - done.
  - intros j q' Hq'. unfold put_by, got_from. rewrite !omap_app. fold (put_by j tr) (got_from j tr). cbn. rewrite app_nil_r.
    destruct (decide (idx = j)) as [<-|Hn]; [at_eq Hq'|at_ne Hq'].
    + injection Hq' as <-. rewrite Nat.eqb_refl, (i_fifo _ _ Hi idx (s :: q) Hq), <- (assoc_L (++)). cbn. unfold item. by rewrite Ex, Em.
    + rewrite (proj2 (Nat.eqb_neq idx j)) by done. rewrite app_nil_r. by apply (i_fifo _ _ Hi).
  - intros d1 y d2 E. destruct d2 as [|z d2 _] using rev_ind.
    + apply app_inj_tail in E as [<- <-]. cbn [fst]. destruct (inv_at _ _ idx Hi) as (l & p & q' & _ & _ & Hq' & [_ _ _ _ H]); [by eapply lookup_lt_Some|].
      cbn in Hq'. rewrite Hq in Hq'. injection Hq' as <-. apply Forall_cons in H as [H _]. rewrite Ex in H. apply H.
    + rewrite app_comm_cons, (assoc_L (++)) in E. apply app_inj_tail in E as [E _]. by apply (i_late _ _ Hi) in E.
  - rewrite elem_of_app, list_elem_of_singleton. intros [H|?]; [by apply (i_panic _ _ Hi)|done].
Qed.

Lemma inv_start n : inv [] (start SharedCounter n).
Proof.
  split; cbn [start region rings prods drain init_ordering_layout lines shared_stamp]; rewrite ?length_replicate; try done.
  - intros i l p q [-> _]%lookup_replicate [-> _]%lookup_replicate [-> _]%lookup_replicate. split; cbn; [lia|lia|done|constructor|constructor].
  - by intros i q [-> _]%lookup_replicate.
  - by intros [|] ? ?.
  - apply not_elem_of_nil.
Qed.

Lemma inv_step cap tr s ev s' :
  inv tr s → Z.of_nat (length tr) + 1 < 2 ^ 63 → merge_step SharedCounter cap s ev s' → inv (tr ++ [ev]) s'.
Proof.
  intros Hi Hb Hs. pose proof (i_count _ _ Hi) as Hc.
  assert (∀ r qs se ps d i p p' ev, inv tr (Build_system r qs se ps d) → ps !! i = Some p → p = PIdle →
    (length (message p') ≤ STAMPED_PAYLOAD_BYTES)%nat → pending p' = None → (∀ c l, line_ok c l PIdle → line_ok c l p') → (∀ l, ceiling l p' = watermark l) →
    match ev with Tau | PutTooLarge _ => True | _ => False end →
    inv (tr ++ [ev]) (Build_system r qs se (<[i := p']> ps) d)) as Hcall.
  { intros r qs se ps d i p p' ev0 H Hp -> Hm Hpe Hl Hce He. destruct (inv_at _ _ i H) as (l & p & q & Hl1 & Hp1 & Hq1 & Hpok).
    { rewrite <- (i_prods _ _ H). by eapply lookup_lt_Some. }
    cbn in Hl1, Hp1, Hq1. rewrite Hp in Hp1. injection Hp1 as <-. rewrite <- (list_insert_id qs i q) by done.
    eapply (inv_by_producer tr r qs se ps d i l PIdle q); [done..|by rewrite list_insert_id|lia| |by destruct ev0|by rewrite Hpe].
    eapply pok_quiet; [done|cbn; lia|apply Hl, Hpok|done|by rewrite Hpe|by rewrite Hce]. }
  destruct Hs as [r qs se ps d i m p ev Hp E|r qs se ps d i Hp|r qs se ps d i Hp|r qs se ps d i clk p q r' q' p' ev Hp Hq Hst|r qs se ps d m|r qs se ps m _ _ _|r qs se ps d clk r' qs' se' d' ev Hst]; cbn [region] in Hc.
  - destruct (Nat.ltb_spec STAMPED_PAYLOAD_BYTES (length m)); injection E as -> ->; eapply Hcall; eauto; cbn; lia.
  - eapply Hcall; eauto; cbn; lia.
  - eapply Hcall; eauto; cbn; lia.
  - destruct (inv_at _ _ i Hi) as (l & p0 & q0 & Hl1 & Hp1 & Hq1 & Hpok); [by eapply lookup_lt_Some|]. cbn [region prods rings] in *.
    rewrite Hp in Hp1. rewrite Hq in Hq1. simplify_eq.
    destruct (pstep_ok cap i clk r q0 p0 l (delivered tr) r' q' p' ev) as (l' & ? & ? & ? & ? & ?); [done|lia|lia|apply (i_delivered _ _ Hi)|done|done|].
    by eapply inv_by_producer.
  - eapply inv_quiet; [done..|apply (i_drain _ _ Hi)|by auto].
  - eapply inv_quiet; [done..| |by auto]. split; [|done]. intros j q s Hj. lia.
  - assert (is_confirm d ∨ ¬ is_confirm d) as [Hcf|Hcf] by (destruct d; cbn; tauto).
    + destruct d; try done. cbn in Hst. injection Hst as <- <- <- <- <-. by apply inv_confirm.
    + destruct (dstep_quiet tr r qs se ps d clk r' qs' se' d' ev Hi Hst Hcf) as (-> & H1 & H2 & H3 & H4). by eapply inv_quiet.
Qed.

Lemma inv_run cap n tr s :
  ltrace (merge_step SharedCounter cap) (start SharedCounter n) tr s → Z.of_nat (length tr) < 2 ^ 63 → inv tr s.
Proof.
  revert tr s. refine (ltrace_rev_ind _ _ (λ tr s, Z.of_nat (length tr) < 2 ^ 63 → inv tr s) _ _).
  - intros _. apply inv_start.
  - intros tr s1 ev s2 _ IH Hs Hb. rewrite length_app in Hb. cbn [length] in Hb. eapply inv_step; [apply IH; lia|lia|done].
Qed.

(** ** Runs by schedule *)

Inductive choice := Send (i : nat) (m : list Z) | Prod (i : nat) | Mode (m : OrderingMode) | Pop | Drain.

Definition play (cap : nat) (c : choice) (s : system) : option (event * system) :=
  match c with
  | Send i m =>
      match prods s !! i with
      | Some PIdle => if (STAMPED_PAYLOAD_BYTES <? length m)%nat then None
                      else Some (Tau, Build_system (region s) (rings s) (seen s) (<[i := PLoad m]> (prods s)) (drain s))
      | _ => None
      end
  | Prod i =>
      p ← prods s !! i; q ← rings s !! i; '(r', q', p', ev) ← pstep SharedCounter cap i 0 (region s) q p;
      Some (ev, Build_system r' (<[i := q']> (rings s)) (seen s) (<[i := p']> (prods s)) (drain s))
  | Mode m => Some (Tau, Build_system (set_mode m (region s)) (rings s) (seen s) (prods s) (drain s))
  | Pop =>
      match drain s, rings s, mode_from_u32 (E := RingError) (mode (region s)) with
      | DIdle, _ :: _, Ok ((MergeByStamp | MergeStrict) as m) =>
          Some (Tau, Build_system (region s) (rings s) (seen s) (prods s) (DScan m 0 None false))
      | _, _, _ => None
      end
  | Drain =>
      '(r', qs', se', d', ev) ← dstep SharedCounter 0 (region s) (rings s) (seen s) (drain s);
      Some (ev, Build_system r' qs' se' (prods s) d')
  end.

Fixpoint plays (cap : nat) (cs : list choice) (s : system) : option (list event * system) :=
  match cs with
  | [] => Some ([], s)
  | c :: cs => '(ev, s') ← play cap c s; '(tr, s'') ← plays cap cs s'; Some (ev :: tr, s'')
  end.

Lemma mode_from_tag {E} tag m : mode_from_u32 (E := E) tag = Ok m → tag = mode_tag m.
Proof.
  unfold mode_from_u32. destruct (Z.eqb_spec tag 0); [by intros [= <-]|]. destruct (Z.eqb_spec tag 1); [by intros [= <-]|].
  destruct (Z.eqb_spec tag 2); [by intros [= <-]|done].
Qed.

Lemma play_step cap c s ev s' : play cap c s = Some (ev, s') → merge_step SharedCounter cap s ev s'.
Proof.
  destruct s as [r qs se ps d], c as [i m|i|m| |]; cbn [play region rings seen prods drain].
  - destruct (ps !! i) as [ [ | | | | | | | | | | | | |]|] eqn:E; try done. destruct (_ <? _)%nat eqn:El; [done|]. intros [= <- <-].
    eapply step_send; [done|]. by rewrite El.
  - destruct (ps !! i) as [p|] eqn:Ep; [|done]. destruct (qs !! i) as [q|] eqn:Eq; [|done]. cbn [mbind option_bind].
    destruct (pstep _ _ _ _ _ _ _) as [ [[[r' q'] p'] e]|] eqn:E; [|done]. cbn. intros [= <- <-]. by eapply step_prod.
  - intros [= <- <-]. constructor.
  - destruct d, qs as [|q qs], (mode_from_u32 (E := RingError) (mode r)) as [ [| |]| |] eqn:E; try done; intros [= <- <-]; apply mode_from_tag in E; by constructor.
  - destruct (dstep _ _ _ _ _ _) as [ [[[[r' qs'] se'] d'] e]|] eqn:E; [|done]. cbn. intros [= <- <-]. by econstructor.
Qed.

Lemma plays_trace cap cs s tr s' : plays cap cs s = Some (tr, s') → ltrace (merge_step SharedCounter cap) s tr s'.
Proof.
  revert s tr. induction cs as [|c cs IH]; intros s tr; cbn [plays]; [intros [= <- <-]; constructor|].
  destruct (play cap c s) as [ [ev s1]|] eqn:E1; [|done]. cbn. destruct (plays cap cs s1) as [ [tr' s2]|] eqn:E2; [|done]. cbn.
  intros [= <- <-]. econstructor; [by eapply play_step|by apply IH].
Qed.

(** Producer 0 takes the stamp 1 and stops before its push; producer 1 pushes with
    the stamp 2; the drainer of the strict mode scans both rings; producer 0 pushes
    and publishes its watermark, which opens the gates. *)
Definition inverting : list choice :=
  [Mode MergeStrict; Send 0 [7]; Prod 0; Prod 0; Prod 0; Prod 0] ++
  Send 1 [8] :: replicate 6 (Prod 1) ++ [Pop; Drain; Drain; Drain; Prod 0; Prod 0] ++ replicate 13 Drain ++ Pop :: replicate 16 Drain.

(** ** A pop that is not interrupted *)

Definition resting (p : producer) : Prop := p = PIdle ∨ p = PRetired.

Lemma resting_line tr s k l : inv tr s → Forall resting (prods s) → lines (region s) !! k = Some l → issued l = watermark l.
Proof.
  intros Hi Hr Hl. destruct (inv_at tr s k Hi) as (l' & p & q & Hl' & Hp & Hq & [Hline _ _ _ _]).
  { rewrite <- (i_lines _ _ Hi). by eapply lookup_lt_Some. }
  rewrite Hl in Hl'. injection Hl' as <-. rewrite Forall_lookup in Hr. destruct (Hr k p Hp) as [-> | ->]; cbn in Hline; lia.
Qed.

(** The drainer alone: its accesses, one after the other, each with a reading of
    the clock. The run stops short when there is no call under way. *)
Fixpoint drains (kind : StampKind) (clks : list Z) (s : system) : option (list event * system) :=
  match clks with
  | [] => Some ([], s)
  | clk :: clks =>
      '(r, qs, se, d, ev) ← dstep kind clk (region s) (rings s) (seen s) (drain s);
      '(evs, s') ← drains kind clks (Build_system r qs se (prods s) d); Some (ev :: evs, s')
  end.

Lemma drains_app kind c1 c2 s e1 s1 e2 s2 :
  drains kind c1 s = Some (e1, s1) → drains kind c2 s1 = Some (e2, s2) → drains kind (c1 ++ c2) s = Some (e1 ++ e2, s2).
Proof.
  revert s e1. induction c1 as [|clk c1 IH]; intros s e1; cbn [drains app]; [by intros [= <- <-]|].
  destruct (dstep _ _ _ _ _ _) as [ [[[[r qs] se] d] ev]|]; [|done]. cbn. destruct (drains kind c1 _) as [ [e s3]|] eqn:E; [|done]. cbn.
  intros [= <- <-] H2. by rewrite (IH _ _ E H2).
Qed.

Lemma drains_trace kind cap clks s evs s' : drains kind clks s = Some (evs, s') → ltrace (merge_step kind cap) s evs s'.
Proof.
  revert s evs. induction clks as [|clk clks IH]; intros s evs; cbn [drains]; [intros [= <- <-]; constructor|].
  destruct s as [r qs se ps d]. cbn [region rings seen prods drain]. destruct (dstep _ _ _ _ _ _) as [ [[[[r' qs'] se'] d'] ev]|] eqn:E; [|done]. cbn.
  destruct (drains kind clks _) as [ [e s3]|] eqn:E3; [|done]. cbn. intros [= <- <-]. econstructor; [by eapply step_drain|by apply IH].
Qed.

(** The call: the drainer stands at the start of the scan. *)
Definition pop_begin (m : OrderingMode) (s : system) : system :=
  Build_system (region s) (rings s) (seen s) (prods s) (DScan m 0 None false).

Section alone.
Context (r : OrderingRegion) (qs : list (list slot)) (se : SeenLine) (m : OrderingMode).
Context (Hleast : ∀ j x q t, qs !! j = Some (x :: q) → t ∈ x :: q → slot_stamp x ≤ slot_stamp t).
Context (Hrest : ∀ k l, lines r !! k = Some l → issued l = watermark l).

(** Accesses of the drainer that change nothing else. *)
Definition walks (d : drainer) (n : nat) (d' : drainer) : Prop :=
  ∀ ps clks, length clks = n →
    drains SharedCounter clks (Build_system r qs se ps d) = Some (replicate n Tau, Build_system r qs se ps d').

Lemma walks_refl d : walks d 0 d.
Proof. by intros ps [|]. Qed.

Lemma walks_step d d1 n d' :
  (∀ clk, dstep SharedCounter clk r qs se d = Some (r, qs, se, d1, Tau)) → walks d1 n d' → walks d (S n) d'.
Proof. intros H1 H2 ps [|clk clks] [= Hl]. cbn [drains region rings seen drain prods]. rewrite H1. cbn. by rewrite (H2 ps clks Hl). Qed.

Lemma walks_trans d n1 d1 n2 d' : walks d n1 d1 → walks d1 n2 d' → walks d (n1 + n2) d'.
Proof.
  intros H1 H2 ps clks Hl. rewrite <- (take_drop n1 clks), replicate_add.
  eapply drains_app; [apply H1; rewrite length_take; lia|apply H2; rewrite length_drop; lia].
Qed.

Definition least (i : nat) (best : option (nat * Z)) : Prop :=
  (∀ j q t, (j < i)%nat → qs !! j = Some q → t ∈ q → ∃ b, best = Some b ∧ b.2 ≤ slot_stamp t) ∧
  ∀ b, best = Some b → headed qs b.1 b.2.

Lemma least_step i x q best :
  least i best → qs !! i = Some (x :: q) →
  least (S i) (match best with Some (_, bs) => if slot_stamp x <? bs then Some (i, slot_stamp x) else best | None => Some (i, slot_stamp x) end).
Proof.
  intros [H1 H2] Hq. set (best' := match best with Some _ => _ | None => _ end).
  assert (∃ b, best' = Some b ∧ b.2 ≤ slot_stamp x ∧ headed qs b.1 b.2 ∧ ∀ b0, best = Some b0 → b.2 ≤ b0.2) as (b & Eb & Hbx & Hbh & Hb0).
  { assert (headed qs i (slot_stamp x)) by (by exists x, q). subst best'. destruct best as [[idx bs]|]; [|exists (i, slot_stamp x); by repeat split].
    destruct (Z.ltb_spec (slot_stamp x) bs); eexists; (split; [done|]); cbn [fst snd].
    - split; [done|]. split; [done|]. intros b0 [= <-]. cbn [snd]. lia.
    - split; [done|]. split; [by apply (H2 (idx, bs))|]. by intros b0 [= <-]. }
  rewrite Eb. split; [|by intros b' [= <-]]. intros j q' t Hj Hq' Ht. exists b. split; [done|]. destruct (decide (j = i)) as [->|Hn].
  - rewrite Hq in Hq'. injection Hq' as <-. pose proof (Hleast i x q t Hq Ht). lia.
  - destruct (H1 j q' t) as (b0 & E0 & ?); [lia|done..|]. specialize (Hb0 b0 E0). lia.
Qed.

Lemma scan_alone k i best e :
  (i + k)%nat = length qs → least i best → ∃ best' e', walks (DScan m i best e) k (DScan m (length qs) best' e') ∧ least (length qs) best'.
Proof.
  revert i best e. induction k as [|k IH]; intros i best e Hk Hb.
  { replace i with (length qs) in * by lia. exists best, e. split; [apply walks_refl|done]. }
  destruct (lookup_lt_is_Some_2 qs i) as [ [|x q] Hq]; [lia| |].
  - destruct (IH (S i) best true) as (best' & e' & Hm & Hl); [lia| |exists best', e'; split; [|done]].
    + split; [|apply Hb]. intros j q t Hj Hq' Ht. apply (proj1 Hb j q t); [|done..]. destruct (decide (j = i)) as [->|]; [|lia].
      rewrite Hq in Hq'. injection Hq' as <-. by apply not_elem_of_nil in Ht.
    + eapply walks_step; [|done]. cbn [dstep]. by rewrite Hq.
  - edestruct (IH (S i)) as (best' & e' & Hm & Hl); [lia|by apply (least_step i x q best Hb Hq)|exists best', e'; split; [|done]].
    eapply walks_step; [|done]. cbn [dstep]. by rewrite Hq.
Qed.

Lemma gates_alone idx x e j k :
  (k + j)%nat = length (lines r) → ∃ n, (n ≤ 2 * j + 1)%nat ∧ walks (DIssued MergeByStamp idx x e k) n (DFresh MergeByStamp idx x e).
Proof.
  revert k. induction j as [|j IH]; intros k Hk.
  { exists 1%nat. split; [lia|]. eapply walks_step; [|apply walks_refl]. cbn [dstep]. by rewrite lookup_ge_None_2 by lia. }
  destruct (IH (S k)) as (n & Hnb & Hn); [lia|]. destruct (lookup_lt_is_Some_2 (lines r) k) as [l Hl]; [lia|].
  destruct (Z.leb_spec x (issued l)) as [H|H].
  - exists (S n). split; [lia|]. eapply walks_step; [|done]. cbn [dstep]. rewrite Hl. by rewrite (proj2 (Z.leb_le x (issued l))).
  - exists (S (S n)). split; [lia|]. eapply (walks_step _ (DMark MergeByStamp idx x e k (issued l))); [|eapply walks_step; [|exact Hn]]; cbn [dstep]; rewrite Hl.
    + by rewrite (proj2 (Z.leb_gt x (issued l))).
    + cbn. by rewrite <- (Hrest k l Hl), Z.eqb_refl.
Qed.
End alone.

(** How a pop in the best-effort mode ends, from [qs] at rest. *)
Definition popped_least (qs : list (list slot)) (ev : list event) (qs' : list (list slot)) : Prop :=
  (ev = [GotEmpty] ∧ qs' = qs ∧ Forall (λ q, q = []) qs) ∨
  ∃ i x q, qs !! i = Some (x :: q) ∧ ev = [Got i (slot_stamp x) (slot_payload x); Tau] ∧ qs' = <[i := q]> qs ∧
    Forall (λ q, Forall (λ t, slot_stamp x ≤ slot_stamp t) q) qs.

(** The whole pop, from a state in which no producer is in a call. *)
Lemma merge_pop_alone tr r qs se ps :
  inv tr (Build_system r qs se ps DIdle) → Forall resting ps →
  ∃ k ev s', (k + length ev ≤ 3 * length qs + 6)%nat ∧ drain s' = DIdle ∧ prods s' = ps ∧ popped_least qs ev (rings s') ∧
    ∀ clks, length clks = (k + length ev)%nat → drains SharedCounter clks (Build_system r qs se ps (DScan MergeByStamp 0 None false)) = Some (replicate k Tau ++ ev, s').
Proof.
  intros Hi Hr. assert (∀ j x q t, qs !! j = Some (x :: q) → t ∈ x :: q → slot_stamp x ≤ slot_stamp t) as Hl.
  { intros j x q t. by apply (head_least _ _ j x q t Hi). }
  assert (∀ k l, lines r !! k = Some l → issued l = watermark l) as Hrest by (intros k l; by apply (resting_line _ _ k l Hi Hr)).
  pose proof (i_lines _ _ Hi) as Hlen. cbn [region rings] in Hlen.
  assert (∀ d k d' ev s', walks r qs se d k d' →
    (∀ clks, length clks = length ev → drains SharedCounter clks (Build_system r qs se ps d') = Some (ev, s')) →
    ∀ clks, length clks = (k + length ev)%nat → drains SharedCounter clks (Build_system r qs se ps d) = Some (replicate k Tau ++ ev, s')) as Hgo.
  { intros d k d' ev s' Hw He clks Hc. rewrite <- (take_drop k clks).
    eapply drains_app; [apply Hw; rewrite length_take; lia|apply He; rewrite length_drop; lia]. }
  destruct (scan_alone r qs se MergeByStamp Hl (length qs) 0 None false) as (best & e & Hs & Hb); [lia|split; [intros; lia|done]|].
  destruct best as [ [i y]|].
  - destruct Hb as [Hb1 Hb2]. destruct (Hb2 (i, y) eq_refl) as (x & q & Hq & Hx). cbn [fst snd] in *.
    destruct (gates_alone r qs se Hrest i y e (length (lines r)) 0) as (n & Hn & Hg); [lia|].
    assert (walks r qs se (DScan MergeByStamp 0 None false) (length qs + S (n + 2)) (DConfirm MergeByStamp i y (slot_payload x))) as Hmv.
    { eapply walks_trans; [done|]. eapply walks_step; [intros clk; cbn [dstep]; by rewrite lookup_ge_None_2 by lia|]. eapply walks_trans; [done|].
      eapply walks_step; [done|]. eapply walks_step; [|apply walks_refl]. intros clk. cbn [dstep]. rewrite Hq. cbn [mbind option_bind]. by rewrite Hx. }
    destruct (note_stamp MergeByStamp y se r) as [se' r'] eqn:En.
    exists (length qs + S (n + 2))%nat, [Got i y (slot_payload x); Tau], (Build_system r' (<[i := q]> qs) se' ps DIdle).
    split; [cbn [length]; lia|]. split; [done|]. split; [done|]. split.
    + right. exists i, x, q. rewrite Hx. split_and!; try done. apply Forall_lookup. intros j q' Hq'. apply Forall_forall. intros t Ht.
      destruct (Hb1 j q' t) as (b & [= <-] & ?); [by eapply lookup_lt_Some|done..].
    + eapply Hgo; [done|]. intros [|c1 [|c2 [|]]]; try done. intros _. cbn [drains region rings seen drain prods dstep mbind option_bind].
      rewrite En. cbn. by rewrite (alter_at tail i qs (x :: q) Hq).
  - exists (length qs), [GotEmpty], (Build_system r qs se ps DIdle). split; [cbn; lia|]. split; [done|]. split; [done|]. split.
    + left. split_and!; try done. apply Forall_lookup. intros j [|t q'] Hq'; [done|]. destruct (proj1 Hb j (t :: q') t) as (b & ? & _); [by eapply lookup_lt_Some|done|by left|done].
    + eapply Hgo; [done|]. intros [|c1 [|]]; try done. intros _. cbn [drains region rings seen drain prods dstep]. by rewrite lookup_ge_None_2 by lia.
Qed.

Lemma dstep_length kind clk r qs se d r' qs' se' d' ev :
  dstep kind clk r qs se d = Some (r', qs', se', d', ev) → length qs' = length qs.
Proof.
  destruct d; cbn [dstep]; repeat case_match; intros; simplify_option_eq; try done.
  all: repeat case_match; simplify_eq; try done. by rewrite length_alter.
Qed.

(** ** Two consumers *)

(** Two consumers in their calls, interleaved; [true] is an access of the first. *)
Fixpoint duel (sched : list bool) (r : OrderingRegion) (qs : list (list slot)) (a b : receiver) : list (res RingError event) :=
  match sched with
  | [] => []
  | w :: sched =>
      match rstep SharedCounter 0 r qs (if w then a else b) with
      | Some (r, qs, v, o) => o :: (if (w : bool) then duel sched r qs v b else duel sched r qs a v)
      | None => []
      end
  end.

(** Both consumers are granted the lease, as in [lease_granted_twice]; the first
    pops the only item between the scan of the second and its second look, which
    finds the ring empty: the second panics. *)
Lemma merge_two_drainers_panic :
  ∃ tr s, ltrace (merge_step SharedCounter 4) (start SharedCounter 1) tr s ∧
    let r := Nat.iter 4 (λ r, (tick_drainer_epoch r).1) (region s) in
    let out := duel ([true; true; true] ++ replicate 14 false ++ replicate 12 true ++ [false]) r (rings s) (receiver_start 1 MergeByStamp) (receiver_start 2 MergeByStamp) in
    List.filter (λ o, match o with Ok Tau => false | _ => true end) out = [Ok (Got 0 1 (pad STAMPED_PAYLOAD_BYTES [7])); Ok GotPanic].
Proof.
  destruct (plays 4 (Mode MergeByStamp :: Send 0 [7] :: replicate 6 (Prod 0)) (start SharedCounter 1)) as [ [tr s]|] eqn:E; [|vm_compute in E; done].
  exists tr, s. split; [by eapply plays_trace|]. vm_compute in E. injection E as _ <-. by vm_compute.
Qed.

(** ** The theorems *)

(** The strict mode, documented to be an exact global order for every kind of
    stamp, delivers the stamp 2 before the stamp 1. *)
Lemma merge_strict_inverts :
  ∃ tr s, ltrace (merge_step SharedCounter 4) (start SharedCounter 2) tr s ∧ mode (region s) = mode_tag MergeStrict ∧
    fst <$> delivered tr = [2; 1] ∧ inversions (region s) = 1.
Proof.
  destruct (plays 4 inverting (start SharedCounter 2)) as [ [tr s]|] eqn:E; [|vm_compute in E; done].
  exists tr, s. split; [by eapply plays_trace|]. vm_compute in E. injection E as <- <-. by vm_compute.
Qed.

(** C33: With stamps from the shared counter and exactly one drainer, the holder
    of the lease, whatever the interleaving of the producers' pushes, heartbeats and
    retirements, of the mode switches and of the drainer's merging pops, an item is delivered after at most one item with a
    larger stamp. What was pushed into a ring is what was delivered from it
    followed by what is still in it, in order, so nothing is lost, repeated or
    reordered within a producer; and the second look at the chosen head never
    finds the ring empty, which is where the code would panic. With two drainers,
    which the lease does not rule out, it can: [merge_two_drainers_panic]. *)
Theorem merge_displacement cap n tr s :
  ltrace (merge_step SharedCounter cap) (start SharedCounter n) tr s → Z.of_nat (length tr) < 2 ^ 63 →
  (∀ d1 x d2, delivered tr = d1 ++ x :: d2 → (above x.1 d1 ≤ 1)%nat) ∧
  (∀ i q, rings s !! i = Some q → put_by i tr = got_from i tr ++ (item <$> q)) ∧ GotPanic ∉ tr.
Proof. intros Ht Hb. destruct (inv_run cap n tr s Ht Hb). auto. Qed.

Lemma merge_displacement_witness :
  ∃ tr s, ltrace (merge_step SharedCounter 4) (start SharedCounter 2) tr s ∧ fst <$> delivered tr = [2; 1] ∧
    ∀ d1 x d2, delivered tr = d1 ++ x :: d2 → (above x.1 d1 ≤ 1)%nat.
Proof.
  destruct (plays 4 inverting (start SharedCounter 2)) as [ [tr s]|] eqn:E; [|vm_compute in E; done].
  pose proof (plays_trace _ _ _ _ _ E) as Ht. assert (fst <$> delivered tr = [2; 1] ∧ length tr = 49%nat) as [Ed El].
  { vm_compute in E. injection E as <- _. by vm_compute. }
  exists tr, s. split; [done|]. split; [done|]. apply (merge_displacement 4 2 tr s Ht). rewrite El. lia.
Defined.

(** C34: When no producer is in the middle of a call, a pop in the best-effort mode
    returns by the accesses of the drainer alone, no other thread moving, at most
    three for every ring and six more, whatever the clock reads: with the head of
    some ring whose stamp is the least of all the stamps in the rings, which it
    removes, or, when every ring is empty, with [Empty]. *)
Theorem merge_pop_least cap n tr s :
  ltrace (merge_step SharedCounter cap) (start SharedCounter (S n)) tr s → Z.of_nat (length tr) < 2 ^ 63 →
  drain s = DIdle → Forall resting (prods s) → mode (region s) = mode_tag MergeByStamp →
  merge_step SharedCounter cap s Tau (pop_begin MergeByStamp s) ∧
  ∃ k ev s', (k + length ev ≤ 3 * S n + 6)%nat ∧ drain s' = DIdle ∧ prods s' = prods s ∧ popped_least (rings s) ev (rings s') ∧
    ∀ clks, length clks = (k + length ev)%nat → drains SharedCounter clks (pop_begin MergeByStamp s) = Some (replicate k Tau ++ ev, s').
Proof.
  intros Ht Hb Hd Hr Hm. pose proof (inv_run cap (S n) tr s Ht Hb) as Hi.
  assert (length (rings s) = S n) as Hn.
  { refine (ltrace_inv _ (λ s, length (rings s) = S n) _ _ _ _ _ Ht); [|cbn [start rings]; by rewrite length_replicate].
    intros s1 ev s2 H1 Hs. destruct Hs as [| | | | | |r qs se ps d clk r' qs' se' d' ev Hs]; cbn in *; rewrite ?length_insert; try done. by rewrite (dstep_length _ _ _ _ _ _ _ _ _ _ _ Hs). }
  destruct s as [r qs se ps d]. cbn [drain prods rings region pop_begin] in *. subst d. split; [apply step_pop; [done|done|cbn; by destruct qs]|]. rewrite <- Hn. by apply (merge_pop_alone tr).
Qed.

Lemma delivered_taus k : delivered (replicate k Tau) = [].
Proof. induction k; [done|]. exact IHk. Qed.

(** Two items in two rings. *)
Definition filled : list choice := Mode MergeByStamp :: Send 1 [7] :: replicate 6 (Prod 1) ++ Send 0 [8] :: replicate 6 (Prod 0).

Lemma merge_pop_least_witness :
  ∃ tr s a b k ev s', ltrace (merge_step SharedCounter 4) (start SharedCounter 2) tr s ∧
    rings s = [[a]; [b]] ∧ slot_stamp a = 2 ∧ slot_stamp b = 1 ∧
    drains SharedCounter (replicate k 0) (pop_begin MergeByStamp s) = Some (ev, s') ∧ fst <$> delivered ev = [1].
Proof.
  destruct (plays 4 filled (start SharedCounter 2)) as [ [tr s]|] eqn:E; [|vm_compute in E; done].
  pose proof (plays_trace _ _ _ _ _ E) as Ht.
  assert (length tr = 15%nat ∧ drain s = DIdle ∧ prods s = [PIdle; PIdle] ∧ mode (region s) = 1) as (El & Ed & Ep & Em).
  { vm_compute in E. injection E as <- <-. by vm_compute. }
  assert (∃ a b, rings s = [[a]; [b]] ∧ slot_stamp a = 2 ∧ slot_stamp b = 1) as (a & b & Er & Ha & Hb).
  { vm_compute in E. injection E as _ <-. do 2 eexists. split; [reflexivity|]. by vm_compute. }
  clear E. destruct (merge_pop_least 4 1 tr s Ht) as (_ & k & ev & s' & _ & _ & _ & H & Hd); [rewrite El; lia|done|rewrite Ep; repeat constructor; by left|done|].
  exists tr, s, a, b, (k + length ev)%nat, (replicate k Tau ++ ev), s'. do 4 (split; [done|]). split; [apply Hd, length_replicate|]. rewrite delivered_app, delivered_taus. rewrite Er in H.
  destruct H as [(_ & _ & H)|(i & x & q & Hi & -> & _ & H)]; [by apply Forall_cons in H as [? _]|].
  apply Forall_cons in H as [H0 H1]. rewrite Forall_singleton in H1. rewrite Forall_singleton in H0. rewrite Forall_singleton in H1.
  assert (slot_stamp x = 1) as Hx; [|unfold delivered; cbn -[slot_stamp]; by rewrite Hx].
  destruct i as [|[|i]]; cbn -[slot_stamp] in Hi; [injection Hi as <- _; lia|by injection Hi as <- _|done].
Defined.

(** ** Widths *)

Lemma pstep_ring kind cap i clk r q p r' q' p' ev :
  pstep kind cap i clk r q p = Some (r', q', p', ev) → Forall (λ s, length s = SLOT_BYTES) q → Forall (λ s, length s = SLOT_BYTES) q'.
Proof.
  unfold pstep. destruct (lines r !! i) as [l|]; [|done]. cbn [mbind option_bind]. intros H Hq.
  destruct p; try (by simplify_eq); try (destruct (raw_stamp _ _ _); by simplify_eq). unfold spec_push in H.
  destruct (Nat.ltb_spec SLOT_BYTES (length (stamped stamp m))); [by simplify_eq|]. destruct (cap <=? _)%nat; simplify_eq; [done|].
  apply Forall_app. split; [done|]. apply Forall_singleton. by apply length_pad.
Qed.

Definition widths (tr : list event) (s : system) : Prop :=
  Forall (Forall (λ s, length s = SLOT_BYTES)) (rings s) ∧
  match drain s with DConfirm _ _ _ m => length m = STAMPED_PAYLOAD_BYTES | _ => True end ∧
  Forall (λ y, length y.2 = STAMPED_PAYLOAD_BYTES) (delivered tr).

Lemma widths_step kind cap tr s ev s' : widths tr s → merge_step kind cap s ev s' → widths (tr ++ [ev]) s'.
Proof.
  intros (Hq & Hd & Hb) Hs. unfold widths. rewrite delivered_app, Forall_app.
  assert (∀ ev, match ev with Got _ _ _ => False | _ => True end → Forall (λ y : Z * list Z, length y.2 = STAMPED_PAYLOAD_BYTES) (delivered [ev])) as He.
  { intros []; done || constructor. }
  destruct Hs as [r qs se ps d i m p ev Hp E|r qs se ps d i Hp|r qs se ps d i Hp|r qs se ps d i clk p q r' q' p' ev Hp Hr Hst|r qs se ps d m|r qs se ps m _ _ _|r qs se ps d clk r' qs' se' d' ev Hst]; cbn [rings drain] in *.
  - destruct (_ <? _)%nat; injection E as -> ->; auto.
  - auto.
  - auto.
  - split_and!; [|done..|].
    + apply Forall_insert; [done|]. eapply pstep_ring; [done|]. by eapply Forall_lookup_1 in Hq.
    + apply He. unfold pstep in Hst. destruct (lines r !! i); [|done]. cbn in Hst. destruct p; try (by simplify_eq); try (destruct (raw_stamp _ _ _); by simplify_eq).
      destruct (spec_push _ _ _ _) as [? []]; by simplify_eq.
  - auto.
  - auto.
  - destruct d; cbn [dstep] in Hst; repeat case_match; simplify_option_eq; repeat case_match; simplify_eq; split_and!; auto.
    + eapply Forall_lookup_1 in Hq; [|done]. apply Forall_cons in Hq as [Hl _]. unfold slot_payload. rewrite length_drop, Hl. done.
    + apply Forall_alter; [done|]. intros q Hq' Hf. destruct Hf; [constructor|done].
Qed.

Lemma widths_run kind cap n tr s : ltrace (merge_step kind cap) (start kind n) tr s → widths tr s.
Proof.
  revert tr s. refine (ltrace_rev_ind _ _ widths _ _).
  - split_and!; [|done|constructor]. cbn. apply Forall_replicate. constructor.
  - intros tr s1 ev s2 _ IH Hs. by eapply widths_step.
Qed.
