(* ===== verification/Reorder.v ===== *)
(** The reordering buffer behind a merging consumer: reorder.rs.

    The binary heap is the multiset of its entries, from which [pop_least] takes
    the least. The receivers are given what the pop of the ring returned; of the
    ring they keep what the code reads and sets: the kind of its stamps, the
    ordering mode, the producers published and the count of refused modes.
    [stable_sort] says when a list is the stable sort of another by stamp. *)
From stdpp Require Import list sorting.
From S2P Require Import Prelude Queue Marshal Ordering MergeOrder.

Definition DEFAULT_FLOOR : Z := 8.
Definition DEFAULT_CAP : Z := 1024.
Definition REORDER_PRODUCER_CAP : Z := 256.

Record Entry := { stamp : Z; seqno : Z; len : nat; payload : list Z }.

(** [Ord for Entry]: by stamp, then by arrival. *)
Definition entry_ltb (e f : Entry) : bool := (stamp e <? stamp f) || ((stamp e =? stamp f) && (seqno e <? seqno f)).

Fixpoint pop_least (es : list Entry) : option (Entry * list Entry) :=
  match es with
  | [] => None
  | e :: es =>
      match pop_least es with
      | None => Some (e, [])
      | Some (f, rest) => if entry_ltb f e then Some (f, e :: rest) else Some (e, f :: rest)
      end
  end.

Record ReorderBuffer := {
  heap : list Entry; window : Z; cap : Z; last_emitted : Z; have_emitted : bool; next_seq : Z; corrections : Z }.

Definition with_window (floor cap : Z) : ReorderBuffer :=
  {| heap := []; window := floor; cap := Z.max cap floor; last_emitted := 0; have_emitted := false; next_seq := 0; corrections := 0 |}.

Definition new : ReorderBuffer := with_window DEFAULT_FLOOR DEFAULT_CAP.

Definition widen_to (min_window : Z) (b : ReorderBuffer) : ReorderBuffer :=
  if window b <? min_window then
    {| heap := heap b; window := min_window; cap := Z.max (cap b) min_window; last_emitted := last_emitted b;
       have_emitted := have_emitted b; next_seq := next_seq b; corrections := corrections b |}
  else b.

Definition push (s : Z) (m : list Z) (b : ReorderBuffer) : ReorderBuffer :=
  let n := Nat.min (length m) STAMPED_PAYLOAD_BYTES in
  {| heap := {| stamp := s; seqno := next_seq b; len := n; payload := overwrite (take n m) (replicate STAMPED_PAYLOAD_BYTES 0) |} :: heap b;
     window := window b; cap := cap b; last_emitted := last_emitted b; have_emitted := have_emitted b;
     next_seq := u64 (next_seq b + 1); corrections := corrections b |}.

Definition saturating_mul (a b : Z) : Z := Z.min (a * b) (2 ^ 64 - 1).

(** The buffer, what [out] holds afterwards, and the stamp and length returned. *)
Definition release (out : list Z) (b : ReorderBuffer) : ReorderBuffer * list Z * option (Z * nat) :=
  match pop_least (heap b) with
  | None => (b, out, None)
  | Some (e, rest) =>
      let late := have_emitted b && (stamp e <? last_emitted b) in
      let n := Nat.min (len e) (length out) in
      ({| heap := rest;
          window := if late then Z.max (Z.min (saturating_mul (window b) 2) (cap b)) 1 else window b; cap := cap b;
          last_emitted := stamp e; have_emitted := true; next_seq := next_seq b;
          corrections := if late then u64 (corrections b + 1) else corrections b |},
       overwrite (take n (payload e)) out, Some (stamp e, n))
  end.

Definition try_take (out : list Z) (b : ReorderBuffer) : ReorderBuffer * list Z * option (Z * nat) :=
  if window b <? Z.of_nat (length (heap b)) then release out b else (b, out, None).

Definition flush_one (out : list Z) (b : ReorderBuffer) : ReorderBuffer * list Z * option (Z * nat) := release out b.

Definition buf_len (b : ReorderBuffer) : nat := length (heap b).
Definition is_empty (b : ReorderBuffer) : bool := bool_decide (heap b = []).

(** ** The receivers *)

(** [ReorderingReceiver::try_recv], after the pop of the ring. *)
Definition recv (popped : option (list Z * Z)) (out : list Z) (b : ReorderBuffer) : ReorderBuffer * list Z * option (nat * Z) :=
  let b := match popped with Some (m, s) => push s m b | None => b end in
  let '(b, out, r) := try_take out b in (b, out, prod_swap <$> r).

(** What a receiver sees of the ring. *)
Record ring_view := { kind : option (StampKind * OrderingMode); published : Z; max_producers : Z; mode_refusals : Z }.

Definition set_ordering_mode (m : OrderingMode) (r : ring_view) : ring_view * res RingError unit :=
  match kind r with
  | None => (r, Err NotStamped)
  | Some (k, _) => ({| kind := Some (k, m); published := published r; max_producers := max_producers r; mode_refusals := mode_refusals r |}, Ok tt)
  end.

Definition note_mode_refusal (r : ring_view) : ring_view :=
  {| kind := kind r; published := published r; max_producers := max_producers r; mode_refusals := u64 (mode_refusals r + 1) |}.

Definition ask_mode (m : OrderingMode) (r : ring_view) : ring_view :=
  let '(r, o) := set_ordering_mode m r in if is_ok o then r else note_mode_refusal r.

Inductive ExactMode := Reorder (b : ReorderBuffer) | Strict | Direct.

(** [AdaptiveOrderedReceiver::new]. *)
Definition adaptive_new (r : ring_view) : ring_view * ExactMode :=
  let producers := Z.max (published r) (max_producers r) in
  match kind r with
  | Some (SharedCounter, _) =>
      if producers <=? REORDER_PRODUCER_CAP then
        let window := Z.max producers DEFAULT_FLOOR in
        (ask_mode MergeByStamp r, Reorder (with_window window (Z.max window DEFAULT_CAP)))
      else (ask_mode MergeStrict r, Strict)
  | _ => (r, Direct)
  end.

(** [AdaptiveOrderedReceiver::try_recv] on the pop's result; in the last two
    modes the pop writes [out] itself. *)
Definition adaptive_recv (popped : option (list Z * Z)) (out : list Z) (rm : ring_view * ExactMode) :
    ring_view * ExactMode * list Z * option (nat * Z) :=
  let '(r, m) := rm in
  match m with
  | Reorder b =>
      let '(r, b) :=
        if window b <? published r then
          (if REORDER_PRODUCER_CAP <? published r then ask_mode MergeStrict r else r, widen_to (Z.min (published r) REORDER_PRODUCER_CAP) b)
        else (r, b) in
      let '(b, out, o) := recv popped out b in (r, Reorder b, out, o)
  | _ =>
      match popped with
      | Some (bytes, s) => (r, m, overwrite bytes out, Some (length bytes, s))
      | None => (r, m, out, None)
      end
  end.

Definition adaptive_flush (out : list Z) (m : ExactMode) : ExactMode * list Z * option (nat * Z) :=
  match m with
  | Reorder b => let '(b, out, o) := flush_one out b in (Reorder b, out, prod_swap <$> o)
  | _ => (m, out, None)
  end.

Definition adaptive_corrections (m : ExactMode) : Z := match m with Reorder b => corrections b | _ => 0 end.

(** ** Sequences of calls *)

Inductive op := Push (s : Z) (m : list Z) | Take (out : list Z) | Flush (out : list Z) | Widen (n : Z).

(** The stamp and the bytes a call delivers. *)
Definition given (r : ReorderBuffer * list Z * option (Z * nat)) : ReorderBuffer * list (Z * list Z) :=
  let '(b, out, o) := r in (b, match o with Some (s, n) => [(s, take n out)] | None => [] end).

Definition exec (o : op) (b : ReorderBuffer) : ReorderBuffer * list (Z * list Z) :=
  match o with
  | Push s m => (push s m b, [])
  | Take out => given (try_take out b)
  | Flush out => given (flush_one out b)
  | Widen n => (widen_to n b, [])
  end.

Fixpoint execs (os : list op) (b : ReorderBuffer) : ReorderBuffer * list (Z * list Z) :=
  match os with
  | [] => (b, [])
  | o :: os => let '(b, d) := exec o b in let '(b, d') := execs os b in (b, d ++ d')
  end.

Definition pushed (os : list op) : list (Z * list Z) :=
  omap (λ o, match o with Push s m => Some (s, take STAMPED_PAYLOAD_BYTES m) | _ => None end) os.

(** [d] holds what [p] holds, in the order of the stamps, and in that of [p]
    where they are equal. *)
Definition stable_sort (p d : list (Z * list Z)) : Prop :=
  StronglySorted Z.le d.*1 ∧ ∀ v, filter (λ x, x.1 = v) d = filter (λ x, x.1 = v) p.

(** ** The heap *)

Definition elt (e f : Entry) : Prop := stamp e < stamp f ∨ (stamp e = stamp f ∧ seqno e < seqno f).

Lemma entry_ltb_spec e f : entry_ltb e f = true ↔ elt e f.
Proof.
  unfold entry_ltb, elt. rewrite orb_true_iff, andb_true_iff, !Z.ltb_lt, Z.eqb_eq. done.
Qed.

Lemma pop_least_spec es e rest :
  pop_least es = Some (e, rest) → es ≡ₚ e :: rest ∧ ∀ f, f ∈ rest → ¬ elt f e.
Proof.
  revert e rest. induction es as [|x es IH]; intros e rest; cbn [pop_least]; [done|].
  destruct (pop_least es) as [ [f r]|] eqn:E.
  - destruct (IH f r eq_refl) as [Hp Hl]. destruct (entry_ltb f x) eqn:Ex; intros [= <- <-].
    + split; [rewrite Hp; constructor|]. intros g [->|Hg]%elem_of_cons; [|by apply Hl]. apply entry_ltb_spec in Ex. unfold elt in *. lia.
    + split; [by rewrite Hp|]. assert (¬ elt f x) as Hfx by (rewrite <- entry_ltb_spec; by rewrite Ex).
      intros g [->|Hg]%elem_of_cons; [done|]. specialize (Hl g Hg). unfold elt in *. lia.
  - intros [= <- <-]. destruct es as [|y es]; [split; [done|]; by intros f ?%not_elem_of_nil|].
    cbn in E. by destruct (pop_least es) as [ [? ?]|]; [destruct (entry_ltb _ _)|].
Qed.

Lemma pop_least_none es : pop_least es = None → es = [].
Proof.
  destruct es as [|e es]; [done|]. cbn. by destruct (pop_least es) as [ [? ?]|]; [destruct (entry_ltb _ _)|].
Qed.

(** ** What was pushed and what was released *)

Definition entry_of (i : nat) (x : Z * list Z) : Entry :=
  {| stamp := x.1; seqno := Z.of_nat i; len := length x.2; payload := overwrite x.2 (replicate STAMPED_PAYLOAD_BYTES 0) |}.
Definition entries (P : list (Z * list Z)) : list Entry := imap entry_of P.
Definition item_of (e : Entry) : Z * list Z := (stamp e, take (len e) (payload e)).

Lemma item_entry i x : item_of (entry_of i x) = x.
Proof. unfold item_of, entry_of. cbn [stamp len payload]. rewrite take_overwrite. by destruct x. Qed.

Lemma entries_snoc P x : entries (P ++ [x]) = entries P ++ [entry_of (length P) x].
Proof. unfold entries. rewrite imap_app. cbn. by rewrite Nat.add_0_r. Qed.

Lemma entries_in P e : e ∈ entries P → ∃ i x, P !! i = Some x ∧ e = entry_of i x.
Proof. intros (i & x & -> & Hx)%elem_of_lookup_imap_1. by exists i, x. Qed.

Lemma item_entries P : item_of <$> entries P = P.
Proof.
  unfold entries. rewrite fmap_imap. rewrite <- (list_fmap_id P) at 2. rewrite <- imap_const. apply imap_ext.
  intros i x _. cbn. by rewrite item_entry.
Qed.

(** How often a delivery has a smaller stamp than the one before it. *)
Fixpoint descents (xs : list Z) : Z :=
  match xs with
  | x :: ((y :: _) as ys) => (if y <? x then 1 else 0) + descents ys
  | _ => 0
  end.

Lemma descents_snoc xs y : descents (xs ++ [y]) = descents xs + match last xs with Some x => if y <? x then 1 else 0 | None => 0 end.
Proof.
  induction xs as [|x [|x' xs] IH]; [done|cbn; lia|]. cbn [app descents] in *. rewrite IH.
  replace (last (x :: x' :: xs)) with (last (x' :: xs)) by done. lia.
Qed.

Lemma descents_bound xs : 0 ≤ descents xs ≤ Z.of_nat (length xs).
Proof. induction xs as [|x [|x' xs] IH]; [cbn; lia..|]. cbn [descents length] in *. destruct (x' <? x); lia. Qed.

(** The state after the pushes [P] and the releases [E], in order. *)
Record held (floor : Z) (P : list (Z * list Z)) (E : list Entry) (b : ReorderBuffer) : Prop := {
  h_perm : E ++ heap b ≡ₚ entries P;
  h_seq : next_seq b = Z.of_nat (length P);
  h_window : floor ≤ window b ≤ Z.max (cap b) 1;
  h_floor : 0 ≤ floor ∧ cap b < 2 ^ 64;
  h_small : Forall (λ x, (length x.2 ≤ STAMPED_PAYLOAD_BYTES)%nat) P;
  h_emitted : have_emitted b = negb (bool_decide (E = []));
  h_last : ∀ e, last E = Some e → last_emitted b = stamp e;
  h_corrections : corrections b = descents (stamp <$> E) }.

Lemma held_start floor c : 0 ≤ floor < 2 ^ 64 → c < 2 ^ 64 → held floor [] [] (with_window floor c).
Proof. intros Hf Hc. split; cbn; try done; lia. Qed.

Lemma held_push floor P E b s m :
  held floor P E b → Z.of_nat (length P) + 1 < 2 ^ 64 → held floor (P ++ [(s, take STAMPED_PAYLOAD_BYTES m)]) E (push s m b).
Proof.
  intros [H1 H2 H3 H4 H5 H6 H7 H8] Hb. split; cbn [push heap next_seq window cap have_emitted last_emitted corrections]; try done.
  - rewrite entries_snoc, <- H1, <- (assoc_L (++)). apply Permutation_app; [done|]. rewrite Permutation_cons_append. apply Permutation_app; [done|].
    unfold entry_of. cbn [fst snd]. rewrite H2, length_take.
    replace (take (Nat.min (length m) STAMPED_PAYLOAD_BYTES) m) with (take STAMPED_PAYLOAD_BYTES m); [by rewrite Nat.min_comm|].
    destruct (Nat.le_gt_cases (length m) STAMPED_PAYLOAD_BYTES); [rewrite Nat.min_l, !take_ge by lia|rewrite Nat.min_r by lia]; done.
  - rewrite length_app, H2. cbn [length]. rewrite wrap_small by lia. lia.
  - apply Forall_app. split; [done|]. apply Forall_singleton. cbn [snd]. rewrite length_take. lia.
Qed.

Lemma held_widen floor P E b n : held floor P E b → n < 2 ^ 64 → held floor P E (widen_to n b).
Proof.
  intros [H1 H2 H3 H4 H5 H6 H7 H8] Hn. unfold widen_to. destruct (Z.ltb_spec (window b) n); [|by split].
  split; cbn; try done; lia.
Qed.

(** A release takes the least entry, and counts it if it is late. *)
Lemma held_release floor P E b out e rest :
  held floor P E b → Z.of_nat (length P) < 2 ^ 64 → (STAMPED_PAYLOAD_BYTES ≤ length out)%nat → pop_least (heap b) = Some (e, rest) →
  ∃ b', given (release out b) = (b', [item_of e]) ∧ heap b' = rest ∧ held floor P (E ++ [e]) b' ∧ window b ≤ window b'.
Proof.
  intros Hh Hb Ho Hp. pose proof Hh as [H1 H2 H3 H4 H5 H6 H7 H8]. destruct (pop_least_spec _ _ _ Hp) as [Hperm Hl].
  assert (e ∈ entries P) as He by (rewrite <- H1, Hperm; mem).
  destruct (entries_in _ _ He) as (i & x & Hx & Ee). assert ((length x.2 ≤ STAMPED_PAYLOAD_BYTES)%nat) as Hx2 by (by eapply Forall_lookup_1 in H5).
  set (late := have_emitted b && (stamp e <? last_emitted b)).
  unfold release. rewrite Hp. cbn [given]. eexists. split; [apply f_equal|split; [reflexivity|split]].
  - do 2 f_equal. unfold item_of. f_equal.
    assert (length (take (Nat.min (len e) (length out)) (payload e)) = len e) as El.
    { rewrite length_take, Ee. unfold entry_of. cbn [len payload]. rewrite length_overwrite; rewrite length_replicate; lia. }
    replace (Nat.min (len e) (length out)) with (len e) in * by (rewrite Ee; cbn [entry_of len]; lia). rewrite <- El at 1. by rewrite take_overwrite.
  - fold late. assert (late = match last (stamp <$> E) with Some y => stamp e <? y | None => false end) as Elate.
    { subst late. rewrite H6, fmap_last. destruct (last E) as [f|] eqn:Ef; cbn.
      - rewrite (H7 f) by done. by destruct E.
      - apply last_None in Ef as ->. done. }
    split; cbn [heap next_seq window cap have_emitted last_emitted corrections]; try done.
    + rewrite <- H1, Hperm, <- (assoc_L (++)). done.
    + unfold saturating_mul. destruct late; lia.
    + by destruct E.
    + intros f. rewrite last_snoc. by intros [= ->].
    + rewrite fmap_app, list_fmap_singleton, descents_snoc, H8, Elate. destruct (last (stamp <$> E)) as [y|]; [|lia].
      destruct (stamp e <? y); [|lia]. apply wrap_small. pose proof (descents_bound (stamp <$> E)) as Hd. rewrite length_fmap in Hd.
      assert (length (E ++ heap b) = length P) as Hlen by (rewrite H1; unfold entries; by rewrite length_imap).
      rewrite length_app, Hperm in Hlen. cbn [length] in Hlen. lia.
  - unfold saturating_mul. cbn [window]. fold late. destruct late; lia.
Qed.

(** ** Any calls *)

Definition valid_op (o : op) : Prop :=
  match o with Push _ _ => True | Take out | Flush out => (STAMPED_PAYLOAD_BYTES ≤ length out)%nat | Widen n => n < 2 ^ 64 end.

Lemma given_none b out : given (b, out, None) = (b, []).
Proof. done. Qed.

Lemma held_exec floor P E b o b' d :
  held floor P E b → valid_op o → Z.of_nat (length (P ++ pushed [o])) < 2 ^ 64 → exec o b = (b', d) →
  ∃ E', d = item_of <$> E' ∧ held floor (P ++ pushed [o]) (E ++ E') b'.
Proof.
  intros Hh Ho Hb. rewrite length_app in Hb.
  assert (∀ out, (STAMPED_PAYLOAD_BYTES ≤ length out)%nat → given (release out b) = (b', d) → Z.of_nat (length P) < 2 ^ 64 →
    ∃ E', d = item_of <$> E' ∧ held floor P (E ++ E') b') as Hrel.
  { intros out Hout Hg Hp. destruct (pop_least (heap b)) as [ [e rest]|] eqn:Ep.
    - destruct (held_release floor P E b out e rest Hh Hp Hout Ep) as (b1 & Hg1 & _ & Hh1 & _). rewrite Hg in Hg1. injection Hg1 as <- ->. by exists [e].
    - unfold release in Hg. rewrite Ep in Hg. injection Hg as <- <-. exists []. by rewrite app_nil_r. }
  destruct o as [s m|out|out|n]; cbn [exec pushed omap list_omap] in *; rewrite ?app_nil_r.
  - intros [= <- <-]. exists []. split; [done|]. rewrite app_nil_r. apply held_push; [done|]. cbn in Hb. lia.
  - unfold try_take. destruct (_ <? _); [intros H; apply (Hrel out); [done..|]; lia|]. intros [= <- <-]. exists []. by rewrite app_nil_r.
  - intros H. apply (Hrel out); [done..|]. lia.
  - intros [= <- <-]. exists []. split; [done|]. rewrite app_nil_r. by apply held_widen.
Qed.

Lemma pushed_cons o os : pushed (o :: os) = pushed [o] ++ pushed os.
Proof. apply (omap_app _ [o] os). Qed.

Lemma held_execs floor os P E b b' d :
  held floor P E b → Forall valid_op os → Z.of_nat (length (P ++ pushed os)) < 2 ^ 64 → execs os b = (b', d) →
  ∃ E', d = item_of <$> E' ∧ held floor (P ++ pushed os) (E ++ E') b'.
Proof.
  revert P E b b' d. induction os as [|o os IH]; intros P E b b' d Hh Hv Hb He; cbn [execs] in He.
  { injection He as <- <-. exists []. cbn. by rewrite !app_nil_r. }
  apply Forall_cons in Hv as [Ho Hv]. destruct (exec o b) as [b1 d1] eqn:E1. destruct (execs os b1) as [b2 d2] eqn:E2. injection He as <- <-.
  rewrite pushed_cons, (assoc_L (++)) in *. rewrite (length_app (P ++ _)) in Hb.
  destruct (held_exec floor P E b o b1 d1) as (E1' & -> & Hh1); [done|done|lia|done|].
  destruct (IH (P ++ pushed [o]) (E ++ E1') b1 b2 d2) as (E2' & -> & Hh2); [done|done|rewrite length_app; lia|done|].
  exists (E1' ++ E2'). by rewrite fmap_app, (assoc_L (++)).
Qed.

(** ** Calls on a stream the window covers *)

Record ordered (P : list (Z * list Z)) (E : list Entry) (b : ReorderBuffer) : Prop := {
  o_sorted : StronglySorted elt E;
  o_before e f : e ∈ E → f ∈ heap b → elt e f }.

Definition deep (floor : Z) (P : list (Z * list Z)) (E : list Entry) : Prop :=
  ∀ e, e ∈ E → floor < Z.of_nat (length (filter (λ p, stamp e ≤ p.1) P)).

Lemma filter_fmap_list {A B} (f : A → B) (Q : B → Prop) `{∀ x, Decision (Q x)} (l : list A) : filter Q (f <$> l) = f <$> filter (λ x, Q (f x)) l.
Proof. induction l as [|x l IH]; [done|]. cbn [fmap list_fmap]. rewrite !filter_cons. rewrite IH. by destruct (decide (Q (f x))). Qed.

Lemma filter_entries (Q : Z → Prop) `{∀ x, Decision (Q x)} P : filter (λ p, Q p.1) P = item_of <$> filter (λ e, Q (stamp e)) (entries P).
Proof. rewrite <- (item_entries P) at 1. by rewrite filter_fmap_list. Qed.

Lemma filter_length_mono {A} (Q R : A → Prop) `{∀ x, Decision (Q x), ∀ x, Decision (R x)} (l : list A) :
  (∀ x, x ∈ l → Q x → R x) → (length (filter Q l) ≤ length (filter R l))%nat.
Proof.
  induction l as [|x l IH]; intros H1; [done|]. rewrite !filter_cons. specialize (IH (λ y Hy, H1 y (list_elem_of_further _ _ _ Hy))).
  assert (Q x → R x) by (apply H1; by left). repeat case_decide; cbn [length]; tauto || lia.
Qed.

Lemma filter_all {A} (Q : A → Prop) `{∀ x, Decision (Q x)} (l : list A) : Forall Q l → filter Q l = l.
Proof. induction 1 as [|x l Hx _ IH]; [done|]. by rewrite filter_cons_True, IH. Qed.

Lemma seqno_inj P e f : e ∈ entries P → f ∈ entries P → seqno e = seqno f → e = f.
Proof.
  intros (i & x & Hx & ->)%entries_in (j & y & Hy & ->)%entries_in Hs. cbn in Hs. assert (i = j) as -> by lia. congruence.
Qed.

Lemma entries_by_seqno P : StronglySorted (λ e f, seqno e < seqno f) (entries P).
Proof.
  induction P as [|x P IH] using rev_ind; [constructor|]. rewrite entries_snoc. apply StronglySorted_app_2; [|done|repeat constructor].
  intros e f (i & y & Hy & ->)%entries_in ->%list_elem_of_singleton. cbn. apply lookup_lt_Some in Hy. lia.
Qed.

Lemma entries_nodup P : NoDup (entries P).
Proof.
  pose proof (entries_by_seqno P) as H. induction H as [|e es _ IH Hf]; [constructor|]. constructor; [|done].
  intros Hin. rewrite Forall_forall in Hf. specialize (Hf e Hin). lia.
Qed.

(** The least entry of the heap comes before the others. *)
Lemma least_before P E b e rest f :
  E ++ heap b ≡ₚ entries P → pop_least (heap b) = Some (e, rest) → f ∈ rest → elt e f.
Proof.
  intros Hp Hl Hf. destruct (pop_least_spec _ _ _ Hl) as [Hh Hn]. specialize (Hn f Hf).
  assert (NoDup (E ++ e :: rest)) as Hnd by (rewrite <- Hh, Hp; apply entries_nodup).
  apply NoDup_app in Hnd as (_ & _ & [He _]%NoDup_cons). rewrite Hh in Hp.
  assert (seqno e ≠ seqno f) as Hs.
  { intros Es. apply He. rewrite (seqno_inj P e f); [done|rewrite <- Hp; mem|rewrite <- Hp; mem|done]. }
  unfold elt in *. lia.
Qed.

Lemma ordered_release floor P E b e rest b' :
  held floor P E b → ordered P E b → pop_least (heap b) = Some (e, rest) → heap b' = rest → ordered P (E ++ [e]) b'.
Proof.
  intros Hh [Hs Hb] Hl Hr. destruct (pop_least_spec _ _ _ Hl) as [Hp _]. split.
  - apply StronglySorted_app_2; [|done|repeat constructor]. intros x y Hx ->%list_elem_of_singleton. apply Hb; [done|]. rewrite Hp. by left.
  - rewrite Hr. intros x f [Hx|Hx]%elem_of_app Hf; [apply Hb; [done|rewrite Hp; by right]|].
    apply list_elem_of_singleton in Hx as ->. by eapply least_before; [apply (h_perm _ _ _ _ Hh)|..].
Qed.

Lemma deep_release floor P E b e rest :
  held floor P E b → deep floor P E → pop_least (heap b) = Some (e, rest) → window b < Z.of_nat (length (heap b)) → deep floor P (E ++ [e]).
Proof.
  intros Hh Hd Hl Hw x [Hx|Hx]%elem_of_app; [by apply Hd|]. apply list_elem_of_singleton in Hx as ->.
  rewrite (filter_entries (λ z, stamp e ≤ z)), length_fmap, <- (h_perm _ _ _ _ Hh), filter_app, length_app.
  destruct (pop_least_spec _ _ _ Hl) as [Hp Hn]. assert (length (filter (λ f, stamp e ≤ stamp f) (heap b)) = length (heap b)) as El.
  { rewrite filter_all; [done|]. apply Forall_forall. intros f Hf. rewrite Hp in Hf. apply elem_of_cons in Hf as [->|Hf]; [done|].
    specialize (Hn f Hf). unfold elt in Hn. lia. }
  rewrite El. destruct (h_window _ _ _ _ Hh). lia.
Qed.

Lemma ordered_push floor P E b s m :
  held floor P E b → ordered P E b → deep floor P E → Z.of_nat (above s P) ≤ floor →
  ordered (P ++ [(s, take STAMPED_PAYLOAD_BYTES m)]) E (push s m b) ∧ deep floor (P ++ [(s, take STAMPED_PAYLOAD_BYTES m)]) E.
Proof.
  intros Hh [Hs Hb] Hd Ha. split; [split; [done|]|].
  - intros e f He [->|Hf]%elem_of_cons; [|by apply Hb]. unfold elt. cbn [stamp seqno].
    assert (seqno e < next_seq b).
    { assert (e ∈ entries P) as (i & x & Hx & ->)%entries_in by (rewrite <- (h_perm _ _ _ _ Hh); mem).
      rewrite (h_seq _ _ _ _ Hh). apply lookup_lt_Some in Hx. cbn. lia. }
    destruct (Z.le_gt_cases (stamp e) s) as [|Hlt]; [lia|]. specialize (Hd e He). unfold above in Ha.
    pose proof (filter_length_mono (λ p : Z * list Z, stamp e ≤ p.1) (λ p, s < p.1) P ltac:(cbn; intros; lia)). cbn in *. lia.
  - intros e He. rewrite filter_app, length_app. specialize (Hd e He). lia.
Qed.

Definition steady (o : op) : Prop := match o with Flush _ => False | _ => valid_op o end.

(** One call while the stream is running. *)
Lemma ordered_exec floor P E b o b' d :
  held floor P E b → ordered P E b → deep floor P E → steady o → Z.of_nat (length (P ++ pushed [o])) < 2 ^ 64 →
  (∀ x, pushed [o] = [x] → Z.of_nat (above x.1 P) ≤ floor) → exec o b = (b', d) →
  ∃ E', d = item_of <$> E' ∧ held floor (P ++ pushed [o]) (E ++ E') b' ∧ ordered (P ++ pushed [o]) (E ++ E') b' ∧ deep floor (P ++ pushed [o]) (E ++ E').
Proof.
  intros Hh Ho Hd Hst Hb Ha. rewrite length_app in Hb.
  destruct o as [s m|out|out|n]; cbn [exec pushed omap list_omap] in *; rewrite ?app_nil_r; [..|done|].
  - intros [= <- <-]. exists []. rewrite app_nil_r. destruct (ordered_push floor P E b s m Hh Ho Hd (Ha _ eq_refl)). split; [done|]. split; [|done].
    apply held_push; [done|]. cbn in Hb. lia.
  - unfold try_take. destruct (Z.ltb_spec (window b) (Z.of_nat (length (heap b)))) as [Hw|]; [|intros [= <- <-]; exists []; by rewrite app_nil_r].
    destruct (pop_least (heap b)) as [ [e rest]|] eqn:Ep; [|apply pop_least_none in Ep; rewrite Ep in Hw; destruct (h_window _ _ _ _ Hh), (h_floor _ _ _ _ Hh); cbn in Hw; lia].
    destruct (held_release floor P E b out e rest Hh ltac:(lia) Hst Ep) as (b1 & -> & Hr & Hh1 & _). intros [= <- <-].
    exists [e]. split; [done|]. split; [done|]. split; [by eapply ordered_release|by eapply deep_release].
  - intros [= <- <-]. exists []. rewrite app_nil_r. split; [done|]. split; [by apply held_widen|]. split; [|done].
    destruct Ho as [H1 H2]. unfold widen_to. by destruct (window b <? n).
Qed.

Lemma ordered_execs floor os P E b b' d :
  held floor P E b → ordered P E b → deep floor P E → Forall steady os → Z.of_nat (length (P ++ pushed os)) < 2 ^ 64 →
  (∀ d1 x d2, P ++ pushed os = d1 ++ x :: d2 → Z.of_nat (above x.1 d1) ≤ floor) → execs os b = (b', d) →
  ∃ E', d = item_of <$> E' ∧ held floor (P ++ pushed os) (E ++ E') b' ∧ ordered (P ++ pushed os) (E ++ E') b'.
Proof.
  revert P E b b' d. induction os as [|o os IH]; intros P E b b' d Hh Hor Hd Hv Hb Ha He; cbn [execs] in He.
  { injection He as <- <-. exists []. cbn. by rewrite !app_nil_r. }
  apply Forall_cons in Hv as [Ho Hv]. destruct (exec o b) as [b1 d1] eqn:E1. destruct (execs os b1) as [b2 d2] eqn:E2. injection He as <- <-.
  rewrite pushed_cons, (assoc_L (++)) in *. rewrite (length_app (P ++ _)) in Hb.
  destruct (ordered_exec floor P E b o b1 d1) as (E1' & -> & Hh1 & Ho1 & Hd1); [done..|lia| |done|].
  { intros x Hx. apply (Ha P x (pushed os)). by rewrite Hx, <- (assoc_L (++)). }
  destruct (IH (P ++ pushed [o]) (E ++ E1') b1 b2 d2) as (E2' & -> & Hh2 & Ho2); [done..|rewrite length_app; lia|done|done|].
  exists (E1' ++ E2'). by rewrite fmap_app, (assoc_L (++)).
Qed.

(** The tail. *)
Lemma ordered_flush floor P out k E b b' d :
  held floor P E b → ordered P E b → Z.of_nat (length P) < 2 ^ 64 → (STAMPED_PAYLOAD_BYTES ≤ length out)%nat → (length (heap b) ≤ k)%nat →
  execs (replicate k (Flush out)) b = (b', d) → ∃ E', d = item_of <$> E' ∧ held floor P (E ++ E') b' ∧ ordered P (E ++ E') b' ∧ heap b' = [].
Proof.
  revert E b b' d. induction k as [|k IH]; intros E b b' d Hh Ho Hb Hout Hk He; cbn [replicate execs] in He.
  { injection He as <- <-. exists []. rewrite app_nil_r. destruct (heap b) eqn:Eh; [done|cbn in Hk; lia]. }
  cbn [exec] in He. unfold flush_one in He. destruct (pop_least (heap b)) as [ [e rest]|] eqn:Ep.
  - destruct (held_release floor P E b out e rest Hh Hb Hout Ep) as (b1 & Hg & Hr & Hh1 & _). rewrite Hg in He.
    destruct (execs _ b1) as [b2 d2] eqn:E2. injection He as <- <-.
    assert (length (heap b) = S (length rest)) as El by (destruct (pop_least_spec _ _ _ Ep) as [-> _]; done).
    destruct (IH (E ++ [e]) b1 b2 d2) as (E' & -> & ? & ? & ?); [done|by eapply ordered_release|done|done|rewrite Hr; lia|done|].
    exists (e :: E'). by rewrite cons_middle, (assoc_L (++)).
  - assert (given (release out b) = (b, [])) as Hg by (unfold release; by rewrite Ep). rewrite Hg in He. apply pop_least_none in Ep.
    destruct (execs _ b) as [b2 d2] eqn:E2. injection He as <- <-. apply (IH E b b2 d2); [done..|rewrite Ep; cbn; lia|done].
Qed.

Lemma strongly_sorted_filter {A} (R : relation A) (Q : A → Prop) `{∀ x, Decision (Q x)} l : StronglySorted R l → StronglySorted R (filter Q l).
Proof.
  induction 1 as [|x l _ IH Hx]; [constructor|]. rewrite filter_cons. case_decide; [|done]. constructor; [done|].
  rewrite Forall_forall in *. intros y [_ Hy]%list_elem_of_filter. by apply Hx.
Qed.

Lemma strongly_sorted_impl {A} (R S : relation A) l : (∀ x y, x ∈ l → y ∈ l → R x y → S x y) → StronglySorted R l → StronglySorted S l.
Proof.
  intros H1 H. induction H as [|x l _ IH Hx]; [constructor|]. constructor; [apply IH; intros; apply H1; [by right..|done]|].
  rewrite Forall_forall in *. intros y Hy. apply H1; [by left|by right|by apply Hx].
Qed.

(** Releases in the order of the entries are the stable sort. *)
Lemma sorted_entries_stable P E : StronglySorted elt E → E ≡ₚ entries P → stable_sort P (item_of <$> E).
Proof.
  intros Hs Hp. split.
  - rewrite <- list_fmap_compose. apply (StronglySorted_fmap _ elt); [|done]. unfold elt, item_of. cbn. intros; lia.
  - intros v. rewrite <- (item_entries P), !filter_fmap_list. f_equal. cbn [item_of fst].
    apply (StronglySorted_unique_strong (λ e f, seqno e < seqno f)); [|..|by rewrite Hp].
    + intros; lia.
    + apply (strongly_sorted_impl elt); [|by apply strongly_sorted_filter].
      intros e f [He _]%list_elem_of_filter [Hf _]%list_elem_of_filter. unfold elt. lia.
    + apply strongly_sorted_filter, entries_by_seqno.
Qed.

(** ** The receiver over the ring *)

Definition see (n : Z) (r : ring_view) : ring_view :=
  {| kind := kind r; published := n; max_producers := max_producers r; mode_refusals := mode_refusals r |}.

(** Calls of [try_recv], each with the producers published and what the pop of the
    ring returns at that moment, and then calls of [flush]. *)
Fixpoint receives (calls : list (Z * option (list Z * Z))) (out : list Z) (rm : ring_view * ExactMode) :
    ring_view * ExactMode * list (Z * list Z) :=
  match calls with
  | [] => (rm, [])
  | (n, popped) :: calls =>
      let '(r, m, out', o) := adaptive_recv popped out (see n rm.1, rm.2) in
      let '(rm, d) := receives calls out (r, m) in
      (rm, match o with Some (k, s) => (s, take k out') :: d | None => d end)
  end.

Fixpoint flushes (k : nat) (out : list Z) (m : ExactMode) : ExactMode * list (Z * list Z) :=
  match k with
  | O => (m, [])
  | S k =>
      let '(m, out', o) := adaptive_flush out m in
      let '(m, d) := flushes k out m in (m, match o with Some (n, s) => (s, take n out') :: d | None => d end)
  end.

(** A call of the receiver as calls of its buffer. *)
Definition recv_ops (n : Z) (popped : option (list Z * Z)) (out : list Z) (b : ReorderBuffer) : list op :=
  (if window b <? n then [Widen (Z.min n REORDER_PRODUCER_CAP)] else []) ++
  match popped with Some (m, s) => [Push s m] | None => [] end ++ [Take out].

Lemma execs_push s m os b : execs (Push s m :: os) b = execs os (push s m b).
Proof. cbn [execs exec]. by destruct (execs os _). Qed.

Lemma execs_widen n os b : execs (Widen n :: os) b = execs os (widen_to n b).
Proof. cbn [execs exec]. by destruct (execs os _). Qed.

Lemma receives_ops calls out r b r' m' d :
  Forall (λ c, c.1 < 2 ^ 64) calls → (STAMPED_PAYLOAD_BYTES ≤ length out)%nat → receives calls out (r, Reorder b) = (r', m', d) →
  ∃ os b', m' = Reorder b' ∧ execs os b = (b', d) ∧ Forall steady os ∧
    pushed os = omap (λ c, (λ p, (p.2, take STAMPED_PAYLOAD_BYTES p.1)) <$> c.2) calls.
Proof.
  intros Hc Hout. revert r b d. induction Hc as [|[n popped] calls Hn _ IH]; intros r b d Hr; cbn [receives] in Hr.
  { injection Hr as <- <- <-. by exists [], b. }
  cbn [fst snd adaptive_recv] in Hr. set (b1 := if window b <? n then widen_to (Z.min n REORDER_PRODUCER_CAP) b else b).
  set (b2 := match popped with Some (m, s) => push s m b1 | None => b1 end).
  destruct (try_take out b2) as [ [b3 out'] o] eqn:E3.
  destruct (receives calls out (if window b <? n then (if REORDER_PRODUCER_CAP <? n then ask_mode MergeStrict (see n r) else see n r) else see n r, Reorder b3)) as [ [r3 m3] d3] eqn:Er.
  assert ((r3, m3, match prod_swap <$> o with Some (k, s) => (s, take k out') :: d3 | None => d3 end) = (r', m', d)) as Hd.
  { rewrite <- Hr. subst b1 b2. cbn [see published] in *. unfold recv. destruct (window b <? n); rewrite E3, Er; done. }
  injection Hd as <- <- <-. destruct (IH _ _ _ Er) as (os & b' & -> & He & Hs & Hp).
  exists (recv_ops n popped out b ++ os), b'. split; [done|]. split; [|split].
  - assert (execs (Take out :: os) b2 = (b', match prod_swap <$> o with Some (k, s) => (s, take k out') :: d3 | None => d3 end)) as Ht.
    { cbn [execs exec]. rewrite E3. cbn [given]. rewrite He. by destruct o as [ [s k]|]. }
    unfold recv_ops. subst b1 b2. destruct (window b <? n), popped as [ [m s]|]; cbn [app]; by rewrite ?execs_widen, ?execs_push.
  - apply Forall_app. split; [|done]. unfold recv_ops. destruct (window b <? n), popped as [ [m s]|]; repeat constructor; cbn in *; lia || done.
  - assert (pushed (recv_ops n popped out b ++ os) = pushed (recv_ops n popped out b) ++ pushed os) as -> by apply omap_app.
    rewrite Hp. unfold recv_ops. by destruct (window b <? n), popped as [ [m s]|].
Qed.

Lemma flushes_ops k out b m d :
  flushes k out (Reorder b) = (m, d) → ∃ b', m = Reorder b' ∧ execs (replicate k (Flush out)) b = (b', d).
Proof.
  revert b d. induction k as [|k IH]; intros b d Hf; cbn [flushes replicate execs] in *; [injection Hf as <- <-; by exists b|].
  cbn [adaptive_flush exec] in *. destruct (flush_one out b) as [ [b1 out'] o]. destruct (flushes k out (Reorder b1)) as [m1 d1] eqn:E1.
  injection Hf as -> <-. destruct (IH _ _ E1) as (b' & -> & He). exists b'. split; [done|]. cbn [given]. rewrite He. by destruct o as [ [s n]|].
Qed.

Lemma delivered_length tr : (length (delivered tr) ≤ length tr)%nat.
Proof. unfold delivered. induction tr as [|e tr IH]; [done|]. destruct e; cbn in *; lia. Qed.

(** ** The theorems *)

Lemma deep_nil floor P : deep floor P [].
Proof. by intros e ?%not_elem_of_nil. Qed.

Lemma ordered_start P b : heap b = [] → ordered P [] b.
Proof. intros Hh. split; [constructor|]. by intros e f ?%not_elem_of_nil. Qed.

(** Descents of an ordered list of releases. *)
Lemma descents_sorted xs : StronglySorted Z.le xs → descents xs = 0.
Proof.
  induction 1 as [|x [|y xs] _ IH Hx]; [done..|]. cbn [descents] in *. apply Forall_cons in Hx as [Hxy _].
  destruct (Z.ltb_spec y x); lia.
Qed.

Lemma exact_run floor c os out k b d b' d' :
  0 ≤ floor < 2 ^ 64 → c < 2 ^ 64 → Forall steady os → (STAMPED_PAYLOAD_BYTES ≤ length out)%nat → Z.of_nat (length (pushed os)) < 2 ^ 64 →
  (∀ d1 x d2, pushed os = d1 ++ x :: d2 → Z.of_nat (above x.1 d1) ≤ floor) → (length (pushed os) ≤ k)%nat →
  execs os (with_window floor c) = (b, d) → execs (replicate k (Flush out)) b = (b', d') →
  stable_sort (pushed os) (d ++ d') ∧ corrections b' = 0 ∧ heap b' = [].
Proof.
  intros Hf Hc Hst Hout Hb Ha Hk He He'.
  destruct (ordered_execs floor os [] [] (with_window floor c) b d) as (E & -> & Hh & Ho); [by apply held_start|by apply ordered_start|apply deep_nil|done..|].
  cbn [app] in Hh, Ho. assert (length (heap b) ≤ k)%nat as Hk'.
  { assert (length (E ++ heap b) = length (pushed os)) as Hl by (rewrite (h_perm _ _ _ _ Hh); unfold entries; by rewrite length_imap). rewrite length_app in Hl. lia. }
  destruct (ordered_flush floor _ out k E b b' d' Hh Ho Hb Hout Hk' He') as (E' & -> & Hh' & Ho' & Hn).
  rewrite <- fmap_app. assert (E ++ E' ≡ₚ entries (pushed os)) as Hp by (rewrite <- (h_perm _ _ _ _ Hh'), Hn; by rewrite app_nil_r).
  pose proof (sorted_entries_stable _ _ (o_sorted _ _ _ Ho') Hp) as Hs. split; [done|]. split; [|done].
  rewrite (h_corrections _ _ _ _ Hh'). apply descents_sorted. destruct Hs as [Hs _]. by rewrite <- list_fmap_compose in Hs.
Qed.

(** Whatever the calls, in whatever order, and however late the stamps: what was
    delivered and what is buffered are together what was pushed, and the
    corrections count the deliveries below the one before them. *)
Lemma reorder_conserves floor c os b d :
  0 ≤ floor < 2 ^ 64 → c < 2 ^ 64 → Forall valid_op os → Z.of_nat (length (pushed os)) < 2 ^ 64 → execs os (with_window floor c) = (b, d) →
  d ++ (item_of <$> heap b) ≡ₚ pushed os ∧ corrections b = descents d.*1 ∧ floor ≤ window b ≤ Z.max (cap b) 1.
Proof.
  intros Hf Hc Hv Hb He. destruct (held_execs floor os [] [] _ b d (held_start floor c Hf Hc) Hv Hb He) as (E & -> & [H1 _ H3 _ _ _ _ H8]).
  cbn [app] in *. split; [|split; [|done]].
  - rewrite <- fmap_app, H1. by rewrite item_entries.
  - rewrite <- list_fmap_compose. done.
Qed.

(** C35: If no item pushed into the buffer has more than [floor] items with larger
    stamps before it, then the items delivered by any mixture of calls of
    [try_take] and [widen_to] among the pushes, followed by enough calls of
    [flush_one], are the stable sort of the items pushed by stamp: nothing is
    lost or repeated, equal stamps keep their order of arrival, no correction is
    counted and the buffer ends empty. *)
Theorem reorder_exact floor c os out k b d b' d' :
  0 ≤ floor < 2 ^ 64 → c < 2 ^ 64 → Forall steady os → (STAMPED_PAYLOAD_BYTES ≤ length out)%nat → Z.of_nat (length (pushed os)) < 2 ^ 64 →
  (∀ d1 x d2, pushed os = d1 ++ x :: d2 → Z.of_nat (above x.1 d1) ≤ floor) → (length (pushed os) ≤ k)%nat →
  execs os (with_window floor c) = (b, d) → execs (replicate k (Flush out)) b = (b', d') →
  stable_sort (pushed os) (d ++ d') ∧ corrections b' = 0 ∧ heap b' = [].
Proof. apply exact_run. Qed.

(** The stamps 3, 1, 2 through a window of two. *)
Lemma reorder_exact_witness :
  let out := replicate STAMPED_PAYLOAD_BYTES 0 in
  let os := [Push 3 [30]; Take out; Push 1 [10]; Take out; Push 2 [20]; Take out] in
  let '(b, d) := execs os (with_window 2 2) in
  let '(b', d') := execs (replicate 3 (Flush out)) b in
  d ++ d' = [(1, [10]); (2, [20]); (3, [30])] ∧ stable_sort (pushed os) (d ++ d').
Proof.
  intros out os. destruct (execs os (with_window 2 2)) as [b d] eqn:E1. destruct (execs (replicate 3 (Flush out)) b) as [b' d'] eqn:E2. split.
  - vm_compute in E1. injection E1 as <- <-. vm_compute in E2. by injection E2 as <- <-.
  - apply (reorder_exact 2 2 os out 3 b d b' d'); [lia|lia|by repeat constructor|done|done| |done|done|done].
    intros d1 x d2 H. assert (d1 = take (length d1) (pushed os)) as Hd1 by (rewrite H; by rewrite take_app_length).
    pose proof (f_equal length H) as Hl. rewrite length_app in Hl. cbn in Hl. rewrite Hd1.
    destruct d1 as [|? [|? [|? ?]]]; cbn in Hl; try lia; cbn in H; injection H; intros; subst; vm_compute; done.
Defined.

Lemma pops_delivered (calls : list (Z * option (list Z * Z))) D :
  omap snd calls = prod_swap <$> D → Forall (λ y : Z * list Z, length y.2 = STAMPED_PAYLOAD_BYTES) D →
  omap (λ c : Z * option (list Z * Z), (λ p, (p.2, take STAMPED_PAYLOAD_BYTES p.1)) <$> c.2) calls = D.
Proof.
  intros Hc HD. transitivity ((λ p : list Z * Z, (p.2, take STAMPED_PAYLOAD_BYTES p.1)) <$> omap snd calls).
  - clear Hc. induction calls as [|[n [p|]] calls IH]; [done|..]; cbn; [by f_equal|done].
  - rewrite Hc. clear Hc. induction HD as [|[x m] D Hm _ IH]; [done|]. cbn [fmap list_fmap prod_swap fst snd] in *. rewrite take_ge by (rewrite Hm; lia). by f_equal.
Qed.

(** C36: The whole path, from the stamped pushes to the receiver. With stamps from
    the shared counter and no more than 256 producers, the adaptive receiver, called
    any number of times while the producers and the merging drainer are
    interleaved in any way, and flushed at the end, delivers what the pops of the
    ring returned sorted by stamp, each item once, and counts no correction. *)
Theorem reordered_merge_exact cap n tr s r m0 calls out k r1 m1 d1 m2 d2 :
  ltrace (merge_step SharedCounter cap) (start SharedCounter n) tr s → Z.of_nat (length tr) < 2 ^ 63 →
  kind r = Some (SharedCounter, m0) → Z.max (published r) (max_producers r) ≤ REORDER_PRODUCER_CAP →
  omap snd calls = prod_swap <$> delivered tr → Forall (λ c, c.1 < 2 ^ 64) calls →
  (STAMPED_PAYLOAD_BYTES ≤ length out)%nat → (length (delivered tr) ≤ k)%nat →
  receives calls out (adaptive_new r) = (r1, m1, d1) → flushes k out m1 = (m2, d2) →
  stable_sort (delivered tr) (d1 ++ d2) ∧ adaptive_corrections m2 = 0.
Proof.
  intros Ht Hb Hk Hp Hc Hn Hout Hlen Hr Hf. unfold adaptive_new in Hr. rewrite Hk in Hr.
  rewrite (proj2 (Z.leb_le _ _)) in Hr by done. set (w := Z.max (Z.max (published r) (max_producers r)) DEFAULT_FLOOR) in *.
  destruct (receives_ops calls out _ _ r1 m1 d1 Hn Hout Hr) as (os & b & -> & He & Hst & Hps).
  rewrite (pops_delivered calls (delivered tr) Hc) in Hps by apply (widths_run _ _ _ _ _ Ht).
  destruct (flushes_ops k out b m2 d2 Hf) as (b' & -> & He'). rewrite <- Hps in *.
  assert (length (delivered tr) ≤ length tr)%nat as Hl by apply delivered_length. rewrite <- Hps in Hl.
  assert (8 ≤ w ≤ 256) as Hw by (unfold w, DEFAULT_FLOOR, REORDER_PRODUCER_CAP in *; lia).
  assert (∀ e1 x e2, pushed os = e1 ++ x :: e2 → Z.of_nat (above x.1 e1) ≤ w) as Ha.
  { intros e1 x e2 E. rewrite Hps in E. pose proof (i_late _ _ (inv_run cap n tr s Ht Hb) e1 x e2 E). lia. }
  assert (Z.max w DEFAULT_CAP < 2 ^ 64) as Hw' by (unfold DEFAULT_CAP; lia).
  destruct (exact_run w (Z.max w DEFAULT_CAP) os out k b d1 b' d2 ltac:(lia) Hw' Hst Hout ltac:(lia) Ha Hlen He He') as (? & ? & _). done.
Qed.

(** The run in which the strict drainer delivers 2 before 1. *)
Lemma reordered_merge_exact_witness :
  ∃ tr s, ltrace (merge_step SharedCounter 4) (start SharedCounter 2) tr s ∧ (delivered tr).*1 = [2; 1] ∧
    ∃ d, stable_sort (delivered tr) d ∧ d.*1 = [1; 2].
Proof.
  destruct (plays 4 inverting (start SharedCounter 2)) as [ [tr s]|] eqn:E; [|vm_compute in E; done].
  pose proof (plays_trace _ _ _ _ _ E) as Ht. exists tr, s. split; [done|].
  set (r := {| kind := Some (SharedCounter, Unordered); published := 2; max_producers := 2; mode_refusals := 0 |}).
  set (out := replicate STAMPED_PAYLOAD_BYTES 0). set (calls := (λ x : Z * list Z, (2, Some (prod_swap x))) <$> delivered tr).
  assert ((delivered tr).*1 = [2; 1] ∧ length tr = 49%nat ∧ length (delivered tr) = 2%nat) as (Ed & El & El2).
  { vm_compute in E. injection E as <- _. by vm_compute. }
  split; [done|]. destruct (receives calls out (adaptive_new r)) as [ [r1 m1] d1] eqn:Er. destruct (flushes 2 out m1) as [m2 d2] eqn:Ef.
  assert ((d1 ++ d2).*1 = [1; 2]) as Hd.
  { subst calls. vm_compute in E. injection E as <- _. vm_compute in Er. injection Er as _ <- <-. vm_compute in Ef. by injection Ef as _ <-. }
  exists (d1 ++ d2). split; [|done].
  apply (reordered_merge_exact 4 2 tr s r Unordered calls out 2 r1 m1 d1 m2 d2); [done|rewrite El; lia|done|done| |..|done|lia|done|done].
  - subst calls. clear. induction (delivered tr) as [|x D IH]; [done|]. cbn. by f_equal.
  - subst calls. apply Forall_fmap, Forall_true. cbn. lia.
Defined.
