(* ===== verification/SwapCell.v ===== *)
(** The swapped reference: crates/subetha-core/src/swap_cell.rs.

    Threads read, replace and compare-and-set cells that hold reference-counted
    values, an access at a time. The heap maps the address of an allocation to its
    strong count and value; an address that is free again can be allocated again,
    so what a stale pointer finds is in the model. Every thread has a record of its
    own; that a record passes to another thread when its thread ends is left out,
    and so is the drop of a cell, which no guard outlives. A slot that is [FREE] is
    [None], which no address equals. *)
From stdpp Require Import list gmap.
From S2P Require Import Prelude.

Definition CACHE_LINE : nat := 64.
Definition BLOCK_SLOTS : nat := (CACHE_LINE - 8) / 8.

(** The heap, and the slots of every thread's record. *)
Notation heap_t T := (gmap nat (Z * T)).
Notation slots_t := (list (list (option nat))).

Section swap_cell.
Context {T : Type}.

(** [Arc::increment_strong_count] and the drop of an [Arc]; [None] is an access to
    memory that is not allocated. *)
Definition increment (a : nat) (h : heap_t T) : option (heap_t T) :=
  '(n, v) ← h !! a; Some (<[a := (n + 1, v)]> h).
Definition decrement (a : nat) (h : heap_t T) : option (heap_t T) :=
  '(n, v) ← h !! a; Some (if n =? 1 then delete a h else <[a := (n - 1, v)]> h).

Inductive pc_t :=
| Idle
| LoadPtr (c : nat) | LoadScan (c a k : nat) | LoadStore (c a k : nat) | LoadConfirm (c a k : nat) | LoadBack (c a k : nat) (cur : option nat)
| DropCas (a k : nat) | DropDec (a : nat) | CloneInc (a : nat)
| SwapAt (c : nat) (new : option nat) | SetAt (c : nat) (cur new : option nat)
| PayLoad (old t k : nat) | PayInc (old t k : nat) | PayCas (old t k : nat) | PayDec (old t k : nat).

(** The [Arc]s a thread owns, its guards with what they hold by ([Some k] is
    [Hold::Owed] of its slot [k], [None] is [Hold::Owned]), and where it is. *)
Record thread := { handles : list nat; guards : list (nat * option nat); pc : pc_t }.

Definition at_pc (p : pc_t) (th : thread) : thread := {| handles := handles th; guards := guards th; pc := p |}.
Definition own (a : nat) (th : thread) : thread := {| handles := a :: handles th; guards := guards th; pc := Idle |}.
Definition guard (a : nat) (o : option nat) (th : thread) : thread := {| handles := handles th; guards := (a, o) :: guards th; pc := Idle |}.

(** A load reports the address and what it finds there; a write what it stored. *)
Inductive event := Tau | Loaded (c a : nat) (v : option T) | LoadedNone (c : nat) | Swapped (c : nat) (v : option T) | Refused (c : nat).

Definition value_at (h : heap_t T) (x : option nat) : option T := a ← x; snd <$> h !! a.

Definition slot_at (sl : slots_t) (t k : nat) : option (option nat) := row ← sl !! t; row !! k.
Definition set_slot (t k : nat) (x : option nat) (sl : slots_t) : slots_t := alter (λ row, <[k := x]> row) t sl.
Definition grow (t : nat) (sl : slots_t) : slots_t := alter (λ row, row ++ replicate BLOCK_SLOTS None) t sl.

(** The exchange of a slot from [Some a] to free: the slots it leaves, or [None]
    when it fails. *)
Definition take_debt (t k a : nat) (sl : slots_t) : option slots_t :=
  if decide (slot_at sl t k = Some (Some a)) then Some (set_slot t k None sl) else None.

(** What a write does with the value it takes out. *)
Definition replaced (old : option nat) (th : thread) : thread :=
  at_pc (match old with Some o => PayLoad o 0 0 | None => Idle end) th.

(** One access of thread [me]. *)
Definition acc_step (me : nat) (h : heap_t T) (cs : list (option nat)) (sl : slots_t) (th : thread) :
    option (heap_t T * list (option nat) * slots_t * thread * event) :=
  match pc th with
  | Idle => None
  | LoadPtr c =>
      v ← cs !! c;
      Some (h, cs, sl, match v with Some a => at_pc (LoadScan c a 0) th | None => at_pc Idle th end, match v with Some _ => Tau | None => LoadedNone c end)
  | LoadScan c a k =>
      match slot_at sl me k with
      | Some None => Some (h, cs, sl, at_pc (LoadStore c a k) th, Tau)
      | Some (Some _) => Some (h, cs, sl, at_pc (LoadScan c a (S k)) th, Tau)
      | None => Some (h, cs, grow me sl, at_pc (LoadStore c a k) th, Tau)
      end
  | LoadStore c a k => Some (h, cs, set_slot me k (Some a) sl, at_pc (LoadConfirm c a k) th, Tau)
  | LoadConfirm c a k =>
      cur ← cs !! c;
      Some (if decide (cur = Some a) then (h, cs, sl, guard a (Some k) th, Loaded c a (value_at h (Some a))) else (h, cs, sl, at_pc (LoadBack c a k cur) th, Tau))
  | LoadBack c a k cur =>
      Some (match take_debt me k a sl with
            | Some sl' => match cur with Some b => (h, cs, sl', at_pc (LoadScan c b 0) th, Tau) | None => (h, cs, sl', at_pc Idle th, LoadedNone c) end
            | None => (h, cs, sl, guard a None th, Loaded c a (value_at h (Some a)))
            end)
  | DropCas a k =>
      Some (match take_debt me k a sl with Some sl' => (h, cs, sl', at_pc Idle th, Tau) | None => (h, cs, sl, at_pc (DropDec a) th, Tau) end)
  | DropDec a => h' ← decrement a h; Some (h', cs, sl, at_pc Idle th, Tau)
  | CloneInc a => h' ← increment a h; Some (h', cs, sl, own a th, Tau)
  | SwapAt c new => old ← cs !! c; Some (h, <[c := new]> cs, sl, replaced old th, Swapped c (value_at h new))
  | SetAt c cur new =>
      v ← cs !! c;
      Some (if decide (v = cur) then (h, <[c := new]> cs, sl, replaced cur th, Swapped c (value_at h new))
            else (h, cs, sl, match new with Some a => own a th | None => at_pc Idle th end, Refused c))
  | PayLoad o t k =>
      Some (match sl !! t with
            | None => (h, cs, sl, own o th, Tau)
            | Some row =>
                match row !! k with
                | None => (h, cs, sl, at_pc (PayLoad o (S t) 0) th, Tau)
                | Some x => (h, cs, sl, at_pc (if decide (x = Some o) then PayInc o t k else PayLoad o t (S k)) th, Tau)
                end
            end)
  | PayInc o t k => h' ← increment o h; Some (h', cs, sl, at_pc (PayCas o t k) th, Tau)
  | PayCas o t k =>
      Some (match take_debt t k o sl with
            | Some sl' => (h, cs, sl', at_pc (PayLoad o t (S k)) th, Tau)
            | None => (h, cs, sl, at_pc (PayDec o t k) th, Tau)
            end)
  | PayDec o t k => h' ← decrement o h; Some (h', cs, sl, at_pc (PayLoad o t (S k)) th, Tau)
  end.

(** The calls an idle thread can make on [n] cells. A guard is dropped by the
    thread that took it; [load_full] is a load, a clone and a drop, [store] a swap
    and a drop, and [rcu] a loop of loads and compare-and-sets. *)
Inductive starts (n : nat) : thread → thread → Prop :=
| start_load th c : (c < n)%nat → starts n th (at_pc (LoadPtr c) th)
| start_guard_drop hs g1 a o g2 :
    starts n {| handles := hs; guards := g1 ++ (a, o) :: g2; pc := Idle |}
      {| handles := hs; guards := g1 ++ g2; pc := match o with Some k => DropCas a k | None => DropDec a end |}
| start_drop h1 a h2 gs :
    starts n {| handles := h1 ++ a :: h2; guards := gs; pc := Idle |} {| handles := h1 ++ h2; guards := gs; pc := DropDec a |}
| start_clone th a : a ∈ handles th ∨ a ∈ (guards th).*1 → starts n th (at_pc (CloneInc a) th)
| start_swap h1 a h2 gs c :
    (c < n)%nat → starts n {| handles := h1 ++ a :: h2; guards := gs; pc := Idle |} {| handles := h1 ++ h2; guards := gs; pc := SwapAt c (Some a) |}
| start_take th c : (c < n)%nat → starts n th (at_pc (SwapAt c None) th)
| start_set h1 a h2 gs c cur :
    (c < n)%nat → starts n {| handles := h1 ++ a :: h2; guards := gs; pc := Idle |} {| handles := h1 ++ h2; guards := gs; pc := SetAt c cur (Some a) |}
| start_clear th c cur : (c < n)%nat → starts n th (at_pc (SetAt c cur None) th).

Record system := { heap : heap_t T; cells : list (option nat); slots : slots_t; threads : list thread }.

Inductive swap_step : system → event → system → Prop :=
| step_access h cs sl ths t th h' cs' sl' th' ev :
    ths !! t = Some th → acc_step t h cs sl th = Some (h', cs', sl', th', ev) →
    swap_step (Build_system h cs sl ths) ev (Build_system h' cs' sl' (<[t := th']> ths))
| step_call h cs sl ths t th th' :
    ths !! t = Some th → pc th = Idle → starts (length cs) th th' →
    swap_step (Build_system h cs sl ths) Tau (Build_system h cs sl (<[t := th']> ths))
| step_alloc h cs sl ths t th a v :
    ths !! t = Some th → pc th = Idle → h !! a = None →
    swap_step (Build_system h cs sl ths) Tau (Build_system (<[a := (1, v)]> h) cs sl (<[t := own a th]> ths))
| step_cell h cs sl ths t h1 a h2 gs :
    ths !! t = Some {| handles := h1 ++ a :: h2; guards := gs; pc := Idle |} →
    swap_step (Build_system h cs sl ths) Tau
      (Build_system h (cs ++ [Some a]) sl (<[t := {| handles := h1 ++ h2; guards := gs; pc := Idle |}]> ths)).

(** [n] threads that have each taken a record, and [k] empty cells. *)
Definition start (n k : nat) : system :=
  {| heap := ∅; cells := replicate k None; slots := replicate n (replicate BLOCK_SLOTS None);
     threads := replicate n {| handles := []; guards := []; pc := Idle |} |}.

(** ** Counting references *)

Definition points (a : nat) (x : option nat) : Z := Z.b2z (bool_decide (x = Some a)).
Fixpoint sum {A} (f : A → Z) (xs : list A) : Z := match xs with [] => 0 | x :: xs => f x + sum f xs end.

Definition strong (h : heap_t T) (a : nat) : Z := match h !! a with Some (n, _) => n | None => 0 end.
End swap_cell.
Arguments system T : clear implicits.
Arguments event T : clear implicits.
Arguments start T n k : clear implicits.
