(* ===== verification/SwapSafety.v ===== *)
(** Memory safety of the swapped reference: invariants of [SwapCell].

    The count of an allocation is the references to it less the debts recorded on
    it, and a debt whose read is confirmed is covered: by a cell that holds the
    value, or by a writer that has yet to reach its slot. *)
From stdpp Require Import list gmap.
From S2P Require Import Prelude SwapCell.

(** ** Sums *)

Lemma sum_app {A} (f : A → Z) xs ys : sum f (xs ++ ys) = sum f xs + sum f ys.
Proof. induction xs as [|x xs IH]; cbn [sum app]; lia. Qed.

Lemma sum_insert {A} (f : A → Z) xs i x y : xs !! i = Some x → sum f (<[i := y]> xs) = sum f xs - f x + f y.
Proof.
  intros Hi. apply list_elem_of_split_length in Hi as (l1 & l2 & -> & ->).
  rewrite insert_app_r_alt, Nat.sub_diag by lia. cbn [insert list_insert]. rewrite !sum_app. cbn [sum]. lia.
Qed.

Lemma sum_nonneg {A} (f : A → Z) xs : (∀ x, x ∈ xs → 0 ≤ f x) → 0 ≤ sum f xs.
Proof.
  induction xs as [|x xs IH]; intros H; cbn [sum]; [done|]. specialize (IH (λ y Hy, H y (list_elem_of_further _ _ _ Hy))).
  pose proof (H x (list_elem_of_here _ _)). lia.
Qed.

Lemma sum_at {A} (f : A → Z) xs i x : xs !! i = Some x → (∀ y, y ∈ xs → 0 ≤ f y) → f x ≤ sum f xs.
Proof.
  intros Hi H. apply list_elem_of_split_length in Hi as (l1 & l2 & -> & _). rewrite sum_app. cbn [sum].
  assert (0 ≤ sum f l1) by (apply sum_nonneg; intros; apply H; mem). assert (0 ≤ sum f l2) by (apply sum_nonneg; intros; apply H; mem). lia.
Qed.

Lemma sum_ext {A} (f g : A → Z) xs : (∀ x, x ∈ xs → f x = g x) → sum f xs = sum g xs.
Proof.
  induction xs as [|x xs IH]; intros H; [done|]. cbn [sum]. rewrite (H x) by mem. f_equal. apply IH. intros y Hy. apply H. mem.
Qed.

Lemma points_nonneg a x : 0 ≤ points a x ≤ 1.
Proof. unfold points. destruct (bool_decide _); cbn; lia. Qed.

Lemma points_here a : points a (Some a) = 1.
Proof. unfold points. by rewrite bool_decide_true. Qed.

Lemma points_none a : points a None = 0.
Proof. done. Qed.

Lemma points_other a x : x ≠ Some a → points a x = 0.
Proof. intros H. unfold points. by rewrite bool_decide_false. Qed.

Lemma filter_ext_in {A} (P Q : A → Prop) `{∀ x, Decision (P x), ∀ x, Decision (Q x)} (l : list A) :
  (∀ x, x ∈ l → P x ↔ Q x) → filter P l = filter Q l.
Proof.
  induction l as [|x l IH]; intros H1; [done|]. rewrite !filter_cons, IH by (intros; apply H1; by right).
  assert (P x ↔ Q x) by (apply H1; by left). repeat case_decide; tauto.
Qed.

(** ** References *)

(** Slots of its own that a thread holds [a] by, one for each guard or read. *)
Definition owed_guard (a : nat) (g : nat * option nat) : list nat :=
  match g.2 with Some k => if decide (g.1 = a) then [k] else [] | None => [] end.
Definition owed_pc (a : nat) (p : pc_t) : list nat :=
  match p with LoadConfirm _ b k | LoadBack _ b k _ | DropCas b k => if decide (b = a) then [k] else [] | _ => [] end.
Definition owed (a : nat) (th : thread) : list nat := owed_pc a (pc th) ++ (guards th ≫= owed_guard a).

(** The other references of a thread. *)
Definition plain_pc (a : nat) (p : pc_t) : Z :=
  match p with
  | DropDec b => points a (Some b)
  | SwapAt _ new | SetAt _ _ new => points a new
  | PayLoad b _ _ | PayInc b _ _ => points a (Some b)
  | PayCas b _ _ | PayDec b _ _ => 2 * points a (Some b)
  | _ => 0
  end.
Definition plain_guard (a : nat) (g : nat * option nat) : Z := match g.2 with Some _ => 0 | None => points a (Some g.1) end.
Definition plain (a : nat) (th : thread) : Z :=
  plain_pc a (pc th) + sum (λ b, points a (Some b)) (handles th) + sum (plain_guard a) (guards th).

Definition refs (a : nat) (th : thread) : Z := plain a th + Z.of_nat (length (owed a th)).
Definition debts (a : nat) (row : list (option nat)) : Z := sum (points a) row.

(** The thread is reading [a] by its slot [k] and has not confirmed the read. *)
Definition reading (p : pc_t) (k a : nat) : Prop :=
  match p with LoadConfirm _ b j | LoadBack _ b j _ => b = a ∧ j = k | _ => False end.

(** The thread is paying the debts on [a] and has not passed slot [k] of [t]. *)
Definition paying (p : pc_t) (a t k : nat) : Prop :=
  match p with
  | PayLoad b t' k' | PayInc b t' k' | PayCas b t' k' => b = a ∧ (t' < t ∨ (t' = t ∧ k' ≤ k))%nat
  | PayDec b t' k' => b = a ∧ (t' < t ∨ (t' = t ∧ k' < k))%nat
  | _ => False
  end.

(** Cells, slots and values the thread's next access needs. *)
Definition pc_ok (me : nat) (n : nat) (sl : slots_t) (th : thread) : Prop :=
  match pc th with
  | LoadPtr c | LoadConfirm c _ _ | LoadBack c _ _ _ | SwapAt c _ | SetAt c _ _ => (c < n)%nat
  | LoadScan c _ k => (c < n)%nat ∧ ∃ row, sl !! me = Some row ∧ (k ≤ length row)%nat
  | LoadStore c _ k => (c < n)%nat ∧ slot_at sl me k = Some None
  | CloneInc a => a ∈ handles th ∨ a ∈ (guards th).*1
  | _ => True
  end.

(** The references of a point of a call, of both kinds. *)
Definition pc_refs (a : nat) (p : pc_t) : Z :=
  match p with
  | LoadConfirm _ b _ | LoadBack _ b _ _ | DropCas b _ | DropDec b | PayLoad b _ _ | PayInc b _ _ => points a (Some b)
  | SwapAt _ new | SetAt _ _ new => points a new
  | PayCas b _ _ | PayDec b _ _ => 2 * points a (Some b)
  | _ => 0
  end.

Lemma points_decide a b k : Z.of_nat (length (if decide (b = a) then [k : nat] else [])) = points a (Some b).
Proof. unfold points. destruct (decide (b = a)) as [->|]; [by rewrite bool_decide_true|]. rewrite bool_decide_false by congruence. done. Qed.

Lemma refs_eq a th :
  refs a th = pc_refs a (pc th) + sum (λ b, points a (Some b)) (handles th) + sum (λ g : nat * option nat, points a (Some g.1)) (guards th).
Proof.
  unfold refs, plain, owed. rewrite length_app, Nat2Z.inj_add.
  assert (plain_pc a (pc th) + Z.of_nat (length (owed_pc a (pc th))) = pc_refs a (pc th)) as <-.
  { destruct (pc th); cbn [plain_pc owed_pc pc_refs]; rewrite ?points_decide; cbn [length]; lia. }
  assert (sum (plain_guard a) (guards th) + Z.of_nat (length (guards th ≫= owed_guard a)) = sum (λ g : nat * option nat, points a (Some g.1)) (guards th)) as <-; [|lia].
  induction (guards th) as [|[b [k|]] gs IH]; [done|..]; cbn [mbind list_bind sum] in *; rewrite length_app, Nat2Z.inj_add; cbn [plain_guard owed_guard fst snd]; rewrite ?points_decide; cbn [length]; lia.
Qed.

Section safety.
Context {T : Type}.
Implicit Types (h : heap_t T) (s : system T).

Record inv s : Prop := {
  i_rows : length (slots s) = length (threads s);
  i_count a : strong (heap s) a = sum (points a) (cells s) + sum (refs a) (threads s) - sum (debts a) (slots s);
  i_live a n v : heap s !! a = Some (n, v) → 1 ≤ n;
  i_pc t th : threads s !! t = Some th → pc_ok t (length (cells s)) (slots s) th;
  i_holder t th k a : threads s !! t = Some th → slot_at (slots s) t k = Some (Some a) → k ∈ owed a th;
  i_covered t th k a : threads s !! t = Some th → slot_at (slots s) t k = Some (Some a) → ¬ reading (pc th) k a →
    (∃ c, cells s !! c = Some (Some a)) ∨ ∃ t' th', threads s !! t' = Some th' ∧ paying (pc th') a t k }.

(** ** Debts are held *)

Definition places (a : nat) (row : list (option nat)) : list nat := filter (λ k, row !! k = Some (Some a)) (seq 0 (length row)).

Lemma places_length a row : Z.of_nat (length (places a row)) = debts a row.
Proof.
  unfold debts. induction row as [|x row IH] using rev_ind; [done|]. unfold places in *. rewrite length_app. cbn [length].
  rewrite Nat.add_1_r, seq_S, filter_app, length_app, sum_app. cbn [sum]. cbn [Nat.add].
  assert (filter (λ k, (row ++ [x]) !! k = Some (Some a)) (seq 0 (length row)) = filter (λ k, row !! k = Some (Some a)) (seq 0 (length row))) as ->.
  { apply filter_ext_in. intros k [_ Hk]%elem_of_seq. by rewrite lookup_app_l by lia. }
  rewrite Nat2Z.inj_add, IH. f_equal. rewrite filter_cons, filter_nil, lookup_app_r, Nat.sub_diag by lia. cbn [lookup list_lookup].
  unfold points. destruct (decide (Some x = Some (Some a))) as [E|E]; [injection E as ->; rewrite bool_decide_true by done; done|].
  rewrite bool_decide_false by congruence. done.
Qed.

Lemma places_nodup a row : NoDup (places a row).
Proof. apply NoDup_filter, NoDup_seq. Qed.

Lemma places_in a row k : k ∈ places a row ↔ row !! k = Some (Some a).
Proof.
  unfold places. rewrite list_elem_of_filter, elem_of_seq. split; [tauto|]. intros H. split; [done|]. apply lookup_lt_Some in H. lia.
Qed.

Lemma debts_held a row hs : (∀ k, row !! k = Some (Some a) → k ∈ hs) → debts a row ≤ Z.of_nat (length hs).
Proof.
  intros H. rewrite <- places_length. apply Nat2Z.inj_le, submseteq_length, NoDup_submseteq; [apply places_nodup|].
  intros k Hk. by apply H, places_in.
Qed.

Lemma debts_held_more a row hs k : (∀ k, row !! k = Some (Some a) → k ∈ hs) → k ∈ hs → row !! k ≠ Some (Some a) → debts a row + 1 ≤ Z.of_nat (length hs).
Proof.
  intros H Hk Hn. rewrite <- places_length. apply (Z.le_trans _ (Z.of_nat (length (k :: places a row)))); [cbn [length]; lia|].
  apply Nat2Z.inj_le, submseteq_length, NoDup_submseteq; [constructor; [by rewrite places_in|apply places_nodup]|].
  intros j [->|Hj]%elem_of_cons; [done|]. by apply H, places_in.
Qed.

(** ** What is referred to is allocated *)

Lemma handles_nonneg a (hs : list nat) : 0 ≤ sum (λ b, points a (Some b)) hs.
Proof. apply sum_nonneg. intros; apply points_nonneg. Qed.

Lemma guards_nonneg a gs : 0 ≤ sum (plain_guard a) gs.
Proof. apply sum_nonneg. intros [b [k|]] _; cbn; [done|apply points_nonneg]. Qed.

Lemma plain_pc_nonneg a p : 0 ≤ plain_pc a p.
Proof. pose proof (points_nonneg a) as Hp. destruct p; cbn; try lia; apply Hp || (pose proof (Hp (Some old)); lia). Qed.

Lemma cells_nonneg a cs : 0 ≤ sum (points a) cs.
Proof. apply sum_nonneg. intros; apply points_nonneg. Qed.

Lemma plain_nonneg a th : 0 ≤ plain a th.
Proof. unfold plain. pose proof (handles_nonneg a (handles th)). pose proof (guards_nonneg a (guards th)). pose proof (plain_pc_nonneg a (pc th)). lia. Qed.

Section alive.
Context (s : system T) (Hi : inv s).


(** Every thread has at least a reference for each of its debts. *)
Lemma net_nonneg a t th row : threads s !! t = Some th → slots s !! t = Some row → plain a th ≤ refs a th - debts a row.
Proof.
  intros Ht Hr. unfold refs. assert (debts a row ≤ Z.of_nat (length (owed a th))); [|lia].
  apply debts_held. intros k Hk. apply (i_holder _ Hi t th k a Ht). unfold slot_at. by rewrite Hr.
Qed.

Lemma net_sum a : ∀ (ths : list thread) rows, length rows = length ths →
  sum (refs a) ths - sum (debts a) rows = sum (λ p, refs a p.1 - debts a p.2) (zip ths rows).
Proof.
  induction ths as [|th ths IH]; intros [|row rows] Hl; try done. cbn [sum zip zip_with fst snd]. injection Hl as Hl. rewrite <- (IH rows) by done. lia.
Qed.

Lemma net_at a t th row d :
  threads s !! t = Some th → slots s !! t = Some row → d ≤ refs a th - debts a row → sum (points a) (cells s) + d ≤ strong (heap s) a.
Proof.
  intros Ht Hr Hd. rewrite (i_count _ Hi), <- Z.add_sub_assoc, net_sum by apply (i_rows _ Hi). apply Z.add_le_mono_l. etransitivity; [exact Hd|].
  apply (sum_at (λ p : thread * list (option nat), refs a p.1 - debts a p.2) _ t (th, row)).
  - by apply lookup_zip_with_Some; exists th, row.
  - intros [th' row'] (t' & Hz)%list_elem_of_lookup. apply lookup_zip_with_Some in Hz as (x & y & [= -> ->] & Hx & Hy). cbn [fst snd].
    pose proof (net_nonneg a t' x y Hx Hy). pose proof (plain_nonneg a x). lia.
Qed.

Lemma row_of t th : threads s !! t = Some th → ∃ row, slots s !! t = Some row.
Proof. intros H. apply lookup_lt_is_Some_2. rewrite (i_rows _ Hi). by eapply lookup_lt_Some. Qed.

Lemma alive_plain a t th : threads s !! t = Some th → 1 ≤ plain a th → is_Some (heap s !! a).
Proof.
  intros Ht Hp. destruct (row_of t th Ht) as [row Hr]. pose proof (net_nonneg a t th row Ht Hr) as Hn.
  pose proof (net_at a t th row 1 Ht Hr ltac:(lia)) as H. pose proof (cells_nonneg a (cells s)).
  unfold strong in H. destruct (heap s !! a); [by eexists|lia].
Qed.

Lemma alive_cell a c : cells s !! c = Some (Some a) → is_Some (heap s !! a).
Proof.
  intros Hc. assert (1 ≤ sum (points a) (cells s)) as H1.
  { rewrite <- (points_here a). eapply sum_at; [done|]. intros; apply points_nonneg. }
  assert (0 ≤ sum (refs a) (threads s) - sum (debts a) (slots s)) as H2.
  { rewrite net_sum by apply (i_rows _ Hi). apply sum_nonneg. intros [th' row'] (t' & Hz)%list_elem_of_lookup.
    apply lookup_zip_with_Some in Hz as (x & y & [= -> ->] & Hx & Hy). cbn [fst snd].
    pose proof (net_nonneg a t' x y Hx Hy). pose proof (plain_nonneg a x). lia. }
  pose proof (i_count _ Hi a) as Hn. unfold strong in Hn. destruct (heap s !! a); [by eexists|lia].
Qed.

Lemma alive_more a t th row : threads s !! t = Some th → slots s !! t = Some row → debts a row + 1 ≤ Z.of_nat (length (owed a th)) → is_Some (heap s !! a).
Proof.
  intros Ht Hr Hd. pose proof (plain_nonneg a th). pose proof (net_at a t th row 1 Ht Hr ltac:(unfold refs; lia)) as H1.
  pose proof (cells_nonneg a (cells s)).
  unfold strong in H1. destruct (heap s !! a); [by eexists|lia].
Qed.

Lemma paying_plain p a t k : paying p a t k → 1 ≤ plain_pc a p.
Proof. destruct p; cbn; try done; intros [-> _]; rewrite points_here; lia. Qed.

(** A guard's value is allocated. *)
Lemma alive_guard a o t th : threads s !! t = Some th → (a, o) ∈ guards th → is_Some (heap s !! a).
Proof.
  intros Ht Hg. destruct (row_of t th Ht) as [row Hr]. destruct o as [k|].
  - assert (k ∈ guards th ≫= owed_guard a) as Hk.
    { apply list_elem_of_bind. exists (a, Some k). split; [|done]. cbn. rewrite decide_True by done. by left. }
    assert (∀ j, row !! j = Some (Some a) → j ∈ owed a th) as Hall.
    { intros j Hj. apply (i_holder _ Hi t th j a Ht). unfold slot_at. by rewrite Hr. }
    destruct (decide (row !! k = Some (Some a))) as [Hs|Hs].
    + assert (reading (pc th) k a ∨ ¬ reading (pc th) k a) as [Hrd|Hrd].
      { destruct (pc th); cbn; auto; destruct (decide (a0 = a)), (decide (k0 = k)); subst; auto; right; intros [? ?]; done. }
      * apply (alive_more a t th row Ht Hr). unfold owed. assert (owed_pc a (pc th) = [k]) as ->.
        { destruct (pc th); cbn in *; try done; destruct Hrd as [-> ->]; by rewrite decide_True. }
        cbn [app length]. apply (Z.le_trans _ (Z.of_nat (length (guards th ≫= owed_guard a)) + 1)); [|lia]. apply Zplus_le_compat_r, debts_held.
        intros j Hj. specialize (Hall j Hj). unfold owed in Hall. apply elem_of_app in Hall as [Hall|]; [|done].
        destruct (pc th); cbn in *; try done; destruct Hrd as [-> ->]; rewrite decide_True in Hall by done; by apply list_elem_of_singleton in Hall as ->.
      * destruct (i_covered _ Hi t th k a Ht) as [(c & Hc)|(t' & th' & Ht' & Hp)]; [unfold slot_at; by rewrite Hr|done|by eapply alive_cell|].
        apply (alive_plain a t' th' Ht'). apply paying_plain in Hp. unfold plain.
        pose proof (handles_nonneg a (handles th')).
        pose proof (guards_nonneg a (guards th')). lia.
    + apply (alive_more a t th row Ht Hr), (debts_held_more a row _ k); [done| |done]. unfold owed. mem.
  - apply (alive_plain a t th Ht). unfold plain.
    pose proof (handles_nonneg a (handles th)).
    pose proof (plain_pc_nonneg a (pc th)).
    apply list_elem_of_lookup in Hg as [i Hg]. assert (plain_guard a (a, None) ≤ sum (plain_guard a) (guards th)) as H2.
    { eapply sum_at; [done|]. intros [b [j|]] _; cbn; [done|apply points_nonneg]. }
    cbn in H2. rewrite points_here in H2. lia.
Qed.
End alive.

(** ** Slots *)

Lemma alter_row {A} (f : A → A) t (sl : list A) row : sl !! t = Some row → alter f t sl = <[t := f row]> sl.
Proof. intros H. rewrite list_insert_alter. apply list_alter_ext; [|done]. congruence. Qed.

Lemma slot_set t k x sl t' k' y :
  slot_at (set_slot t k x sl) t' k' = Some y → (t' = t ∧ k' = k ∧ y = x) ∨ ((t' ≠ t ∨ k' ≠ k) ∧ slot_at sl t' k' = Some y).
Proof.
  unfold slot_at, set_slot. destruct (decide (t' = t)) as [->|Hn]; [|rewrite list_lookup_alter_ne by done; auto].
  rewrite list_lookup_alter_eq. destruct (sl !! t) as [row|]; [|done]. cbn. destruct (decide (k' = k)) as [->|Hn].
  - destruct (decide (k < length row)%nat); [rewrite list_lookup_insert_eq by done; intros [= ->]; auto|].
    rewrite list_insert_ge by lia. intros H%lookup_lt_Some. lia.
  - rewrite list_lookup_insert_ne by done. auto.
Qed.

Lemma slot_set_free t k sl t' k' : slot_at sl t' k' = Some None → slot_at (set_slot t k None sl) t' k' = Some None.
Proof.
  unfold slot_at, set_slot. destruct (decide (t' = t)) as [->|Hn]; [|rewrite list_lookup_alter_ne by done; auto].
  rewrite list_lookup_alter_eq. destruct (sl !! t) as [row|]; [|done]. cbn. intros H. destruct (decide (k' = k)) as [->|Hn].
  - rewrite list_lookup_insert_eq; [done|]. by eapply lookup_lt_Some.
  - by rewrite list_lookup_insert_ne.
Qed.

Lemma slot_grow t sl t' k' a : slot_at (grow t sl) t' k' = Some (Some a) → slot_at sl t' k' = Some (Some a).
Proof.
  unfold slot_at, grow. destruct (decide (t' = t)) as [->|Hn]; [|rewrite list_lookup_alter_ne by done; auto].
  rewrite list_lookup_alter_eq. destruct (sl !! t) as [row|]; [|done]. cbn [fmap option_fmap option_map mbind option_bind]. intros [H|[_ H]]%lookup_app_Some; [done|].
  by apply lookup_replicate in H as [? _].
Qed.

Lemma debts_set t k x y sl a :
  slot_at sl t k = Some y → sum (debts a) (set_slot t k x sl) = sum (debts a) sl - points a y + points a x.
Proof.
  unfold slot_at. destruct (sl !! t) as [row|] eqn:Hr; [|done]. cbn. intros Hk. unfold set_slot. rewrite (alter_row _ t sl row Hr), (sum_insert _ _ _ _ _ Hr).
  unfold debts. rewrite (sum_insert _ _ _ _ _ Hk). lia.
Qed.

Lemma debts_grow t sl a : sum (debts a) (grow t sl) = sum (debts a) sl.
Proof.
  unfold grow. destruct (sl !! t) as [row|] eqn:Hr.
  - rewrite (alter_row _ t sl row Hr), (sum_insert _ _ _ _ _ Hr). unfold debts. rewrite sum_app.
    assert (sum (points a) (replicate BLOCK_SLOTS None) = 0) as -> by done. lia.
  - rewrite (list_alter_ext _ id _ sl t), list_alter_id; [done..|congruence|done].
Qed.

(** ** Counts *)

Lemma strong_insert h a n v b : strong (<[a := (n, v)]> h) b = if decide (a = b) then n else strong h b.
Proof. unfold strong. rewrite lookup_insert. by destruct (decide (a = b)). Qed.

Definition live h : Prop := ∀ a n v, h !! a = Some (n, v) → 1 ≤ n.

Lemma points_if a b (x y : Z) : (if decide (b = a) then x else y) = y + (x - y) * points a (Some b).
Proof. unfold points. destruct (decide (b = a)) as [->|]; [rewrite bool_decide_true by done|rewrite bool_decide_false by congruence]; cbn; lia. Qed.

Lemma increment_strong b h h' : live h → increment b h = Some h' → (∀ a, strong h' a = strong h a + points a (Some b)) ∧ live h'.
Proof.
  intros Hl. unfold increment. destruct (h !! b) as [ [n v]|] eqn:E; [|done]. intros [= <-]. split.
  - intros a. rewrite strong_insert. destruct (decide (b = a)) as [->|Hn]; [rewrite points_here; unfold strong; rewrite E; lia|].
    rewrite points_other by congruence. lia.
  - intros a m w. destruct (decide (b = a)) as [->|Hn]; [rewrite lookup_insert_eq; intros [= <- _]; specialize (Hl _ _ _ E); lia|].
    rewrite lookup_insert_ne by done. apply Hl.
Qed.

Lemma decrement_strong b h h' : live h → decrement b h = Some h' → (∀ a, strong h' a = strong h a - points a (Some b)) ∧ live h'.
Proof.
  intros Hl. unfold decrement. destruct (h !! b) as [ [n v]|] eqn:E; [|done]. intros [= <-]. pose proof (Hl _ _ _ E) as Hn.
  destruct (Z.eqb_spec n 1) as [->|Hne]; split.
  - intros a. unfold strong. destruct (decide (b = a)) as [->|Hab]; [rewrite lookup_delete_eq, E, points_here; lia|].
    rewrite lookup_delete_ne, points_other by congruence. lia.
  - intros a m w. destruct (decide (b = a)) as [->|Hab]; [by rewrite lookup_delete_eq|]. rewrite lookup_delete_ne by done. apply Hl.
  - intros a. rewrite strong_insert. destruct (decide (b = a)) as [->|Hab]; [rewrite points_here; unfold strong; rewrite E; lia|].
    rewrite points_other by congruence. lia.
  - intros a m w. destruct (decide (b = a)) as [->|Hab]; [rewrite lookup_insert_eq; intros [= <- _]; lia|].
    rewrite lookup_insert_ne by done. apply Hl.
Qed.

(** ** A step of one thread *)

Lemma inv_update h cs sl ths t th h' cs' sl' th' :
  inv (Build_system h cs sl ths) → ths !! t = Some th → length sl' = length sl → live h' → (length cs ≤ length cs')%nat →
  (∀ a, strong h' a - strong h a = sum (points a) cs' - sum (points a) cs + (refs a th' - refs a th) - (sum (debts a) sl' - sum (debts a) sl)) →
  pc_ok t (length cs') sl' th' →
  (∀ t' k, t' ≠ t → slot_at sl t' k = Some None → slot_at sl' t' k = Some None) →
  (∀ t' row, sl !! t' = Some row → ∃ row', sl' !! t' = Some row' ∧ (length row ≤ length row')%nat) →
  (∀ t' k a, slot_at sl' t' k = Some (Some a) → slot_at sl t' k = Some (Some a) ∨ (t' = t ∧ reading (pc th') k a)) →
  (∀ k a, slot_at sl' t k = Some (Some a) → k ∈ owed a th') →
  (∀ k a, slot_at sl' t k = Some (Some a) → ¬ reading (pc th') k a → ¬ reading (pc th) k a ∨ ∃ c, cs' !! c = Some (Some a)) →
  (∀ c a, cs !! c = Some (Some a) → (∃ c', cs' !! c' = Some (Some a)) ∨ ∀ t' k, paying (pc th') a t' k) →
  (∀ a t' k, slot_at sl' t' k = Some (Some a) → paying (pc th) a t' k → paying (pc th') a t' k) →
  inv (Build_system h' cs' sl' (<[t := th']> ths)).
Proof.
  intros Hi Ht Hlen Hlive Hcs Hcount Hpc Hfree Hrow Hnew Hold Hcov Hcell Hpay. pose proof Hi as [H1 H2 H3 H4 H5 H6]. cbn [heap cells slots threads] in *.
  split; cbn [heap cells slots threads].
  - by rewrite length_insert, Hlen.
  - intros a. rewrite (sum_insert _ _ _ _ _ Ht). specialize (Hcount a). specialize (H2 a). lia.
  - exact Hlive.
  - intros t' th0 Ht0. destruct (decide (t = t')) as [<-|Hn].
    + rewrite list_lookup_insert_eq in Ht0 by (by eapply lookup_lt_Some). by injection Ht0 as <-.
    + rewrite list_lookup_insert_ne in Ht0 by done. specialize (H4 t' th0 Ht0). unfold pc_ok in *. destruct (pc th0); try done; try lia.
      * destruct H4 as (? & row & Hr & Hk). split; [lia|]. destruct (Hrow t' row Hr) as (row' & Hr' & ?). exists row'. split; [done|lia].
      * destruct H4 as [? ?]. split; [lia|by apply Hfree].
  - intros t' th0 k a Ht0 Hs. destruct (decide (t = t')) as [<-|Hn].
    + rewrite list_lookup_insert_eq in Ht0 by (by eapply lookup_lt_Some). injection Ht0 as <-. by apply Hold.
    + rewrite list_lookup_insert_ne in Ht0 by done. destruct (Hnew t' k a Hs) as [?|[-> _]]; [by eapply H5|done].
  - intros t' th0 k a Ht0 Hs Hr.
    assert (∀ (c : (∃ c, cs !! c = Some (Some a)) ∨ ∃ t2 th2, ths !! t2 = Some th2 ∧ paying (pc th2) a t' k),
      (∃ c, cs' !! c = Some (Some a)) ∨ ∃ t2 th2, <[t := th']> ths !! t2 = Some th2 ∧ paying (pc th2) a t' k) as Hkeep.
    { intros [(c & Hc)|(t2 & th2 & Ht2 & Hp)].
      - destruct (Hcell c a Hc) as [?|Hp]; [by left|right]. exists t, th'. rewrite list_lookup_insert_eq by (by eapply lookup_lt_Some). auto.
      - right. destruct (decide (t = t2)) as [<-|Hn]; [|exists t2, th2; by rewrite list_lookup_insert_ne].
        rewrite Ht in Ht2. injection Ht2 as <-. exists t, th'. rewrite list_lookup_insert_eq by (by eapply lookup_lt_Some). auto. }
    destruct (decide (t = t')) as [<-|Hn].
    + rewrite list_lookup_insert_eq in Ht0 by (by eapply lookup_lt_Some). injection Ht0 as <-.
      destruct (Hcov k a Hs Hr) as [Hnr|?]; [|by left]. destruct (Hnew t k a Hs) as [Hs'|[_ ?]]; [|done]. apply Hkeep. by eapply H6.
    + rewrite list_lookup_insert_ne in Ht0 by done. destruct (Hnew t' k a Hs) as [Hs'|[-> _]]; [|done]. apply Hkeep. by eapply H6.
Qed.

#[local] Instance reading_dec p k a : Decision (reading p k a).
Proof. destruct p; cbn; try apply _. Defined.

(** An access that leaves the slots alone. *)
Lemma inv_same_slots h cs sl ths t th h' cs' th' :
  inv (Build_system h cs sl ths) → ths !! t = Some th → live h' → (length cs ≤ length cs')%nat →
  (∀ a, strong h' a - strong h a = sum (points a) cs' - sum (points a) cs + (refs a th' - refs a th)) → pc_ok t (length cs') sl th' →
  (∀ k a, slot_at sl t k = Some (Some a) → k ∈ owed a th → k ∈ owed a th') →
  (∀ k a, slot_at sl t k = Some (Some a) → reading (pc th) k a → reading (pc th') k a ∨ ∃ c, cs' !! c = Some (Some a)) →
  (∀ c a, cs !! c = Some (Some a) → (∃ c', cs' !! c' = Some (Some a)) ∨ ∀ t' k, paying (pc th') a t' k) →
  (∀ a t' k, slot_at sl t' k = Some (Some a) → paying (pc th) a t' k → paying (pc th') a t' k) →
  inv (Build_system h' cs' sl (<[t := th']> ths)).
Proof.
  intros Hi Ht Hl Hc Hn Hp Ho Hr Hcell Hpay. eapply (inv_update h cs sl ths t th); try done; eauto.
  - intros a. specialize (Hn a). lia.
  - intros k a Hs. apply Ho; [done|]. by apply (i_holder _ Hi t th k a Ht).
  - intros k a Hs Hnr. destruct (decide (reading (pc th) k a)) as [Hrd|]; [|by left]. destruct (Hr k a Hs Hrd); [done|by right].
Qed.

(** An access that takes a debt out of a slot. *)
Lemma inv_take_debt h cs sl ths t th th' t0 k0 b :
  inv (Build_system h cs sl ths) → ths !! t = Some th → slot_at sl t0 k0 = Some (Some b) →
  (∀ a, refs a th' = refs a th - points a (Some b)) → pc_ok t (length cs) (set_slot t0 k0 None sl) th' →
  (∀ k a, t0 ≠ t ∨ k0 ≠ k → k ∈ owed a th → k ∈ owed a th') →
  (∀ k a, t0 ≠ t ∨ k0 ≠ k → reading (pc th) k a → reading (pc th') k a) →
  (∀ a t' k, t' ≠ t0 ∨ k ≠ k0 → paying (pc th) a t' k → paying (pc th') a t' k) →
  inv (Build_system h cs (set_slot t0 k0 None sl) (<[t := th']> ths)).
Proof.
  intros Hi Ht Hs0 Hn Hp Ho Hr Hpay.
  assert (∀ t' k a, slot_at (set_slot t0 k0 None sl) t' k = Some (Some a) → (t' ≠ t0 ∨ k ≠ k0) ∧ slot_at sl t' k = Some (Some a)) as Hsub.
  { intros t' k a [(_ & _ & ?)|[? ?]]%slot_set; done. }
  eapply (inv_update h cs sl ths t th); try done.
  - unfold set_slot. apply length_alter.
  - exact (i_live _ Hi).
  - intros a. rewrite (debts_set _ _ _ _ _ _ Hs0), Hn, points_none. lia.
  - intros t' k _. apply slot_set_free.
  - intros t' row Hrow. unfold set_slot. destruct (decide (t0 = t')) as [->|Hne].
    + rewrite list_lookup_alter_eq, Hrow. cbn [fmap option_fmap option_map]. eexists. split; [done|]. by rewrite length_insert.
    + rewrite list_lookup_alter_ne by done. by exists row.
  - intros t' k a Hs. left. by apply Hsub.
  - intros k a Hs. apply Hsub in Hs as [? Hs]. apply Ho; [intuition congruence|]. by apply (i_holder _ Hi t th k a Ht).
  - intros k a Hs Hnr. apply Hsub in Hs as [? Hs]. left. intros Hrd. apply Hnr, Hr; [intuition congruence|done].
  - intros c a Hc. left. by exists c.
  - intros a t' k Hs. apply Hsub in Hs as [? Hs]. by apply Hpay.
Qed.

Lemma refs_pc a p th : refs a (at_pc p th) = refs a th - pc_refs a (pc th) + pc_refs a p.
Proof. rewrite !refs_eq. cbn [at_pc pc handles guards]. lia. Qed.

Lemma refs_own a b th : refs a (own b th) = refs a th - pc_refs a (pc th) + points a (Some b).
Proof. rewrite !refs_eq. cbn [own pc handles guards sum pc_refs]. lia. Qed.

Lemma refs_guard a b o th : refs a (guard b o th) = refs a th - pc_refs a (pc th) + points a (Some b).
Proof. rewrite !refs_eq. cbn [guard pc handles guards sum pc_refs fst]. lia. Qed.

Lemma owed_in k a th : k ∈ owed a th ↔ k ∈ owed_pc a (pc th) ∨ (a, Some k) ∈ guards th.
Proof.
  unfold owed. rewrite elem_of_app, list_elem_of_bind. split; (intros [?|H]; [by left|right]).
  - destruct H as ([b [j|]] & Hk & Hg); cbn in Hk; [|by apply not_elem_of_nil in Hk].
    destruct (decide (b = a)) as [->|]; [|by apply not_elem_of_nil in Hk]. by apply list_elem_of_singleton in Hk as ->.
  - exists (a, Some k). split; [|done]. cbn. rewrite decide_True by done. by left.
Qed.

Lemma inv_live s : inv s → live (heap s).
Proof. intros Hi. exact (i_live _ Hi). Qed.

(** A move to a point of a call that neither reads nor pays, and owes no more. *)
Ltac counts := intros; rewrite ?refs_pc, ?refs_own, ?refs_guard; cbn [pc_refs replaced]; rewrite ?points_none; lia.
Ltac keep_cells := intros c0 a0 Hc0; left; by exists c0.

Lemma access_load me h cs sl ths th h' cs' sl' th' ev :
  inv (Build_system h cs sl ths) → ths !! me = Some th → acc_step me h cs sl th = Some (h', cs', sl', th', ev) →
  match pc th with LoadPtr _ | LoadScan _ _ _ | LoadStore _ _ _ => True | _ => False end →
  inv (Build_system h' cs' sl' (<[me := th']> ths)).
Proof.
  intros Hi Ht Hs Hk. pose proof (inv_live _ Hi) as Hl. pose proof (i_pc _ Hi me th Ht) as Hpc. unfold acc_step in Hs. unfold pc_ok in Hpc. cbn [cells slots heap] in *.
  assert (∀ p, (∀ a, pc_refs a p = pc_refs a (pc th)) → pc_ok me (length cs) sl (at_pc p th) → (∀ a, owed_pc a (pc th) = []) → (∀ k a, ¬ reading (pc th) k a) → (∀ a t k, ¬ paying (pc th) a t k) →
    inv (Build_system h cs sl (<[me := at_pc p th]> ths))) as Hmove.
  { intros p Hp1 Hp2 Hp3 Hp4 Hp5. apply (inv_same_slots h cs sl ths me th); [done..| |done| | | |].
    - intros a. rewrite refs_pc, Hp1. lia.
    - intros k a _. rewrite !owed_in, Hp3. intros [?%not_elem_of_nil|?]; [done|]. by right.
    - intros k a _ ?. by destruct (Hp4 k a).
    - keep_cells.
    - intros a t k _ ?. by destruct (Hp5 a t k). }
  destruct (pc th) as [|c|c a k|c a k|c a k|c a k cur|a k|a|a|c new|c cur new|o t k|o t k|o t k|o t k] eqn:Ep; try done.
  - destruct (cs !! c) as [v|] eqn:Ec; [|done]. destruct v as [a|]; injection Hs as <- <- <- <- <-; apply Hmove; unfold pc_ok; cbn; try done; try tauto.
    split; [done|]. destruct (row_of _ Hi me th Ht) as [row Hr]. exists row. split; [done|lia].
  - destruct Hpc as [Hc (row & Hr & Hk')]. destruct (slot_at sl me k) as [ [b|]|] eqn:Es; injection Hs as <- <- <- <- <-.
    + apply Hmove; unfold pc_ok; cbn; try done; try tauto. split; [done|]. exists row. split; [done|]. unfold slot_at in Es. rewrite Hr in Es. apply lookup_lt_Some in Es. lia.
    + apply Hmove; unfold pc_ok; cbn; try done; try tauto.
    + assert (k = length row) as ->.
      { unfold slot_at in Es. rewrite Hr in Es. apply lookup_ge_None_1 in Es. lia. }
      eapply (inv_update h cs sl ths me th); [done|done|unfold grow; apply length_alter|done|done| | | | | | | | |].
      * intros b. rewrite debts_grow. rewrite refs_pc, Ep. cbn [pc_refs]. lia.
      * unfold pc_ok. cbn [at_pc pc]. split; [done|]. unfold slot_at, grow. rewrite list_lookup_alter_eq, Hr. cbn [fmap option_fmap option_map mbind option_bind].
        by rewrite lookup_app_r, Nat.sub_diag by lia.
      * intros t' k Hne. unfold slot_at, grow. by rewrite list_lookup_alter_ne by done.
      * intros t' row' Hr'. unfold grow. destruct (decide (me = t')) as [<-|Hne].
        -- rewrite list_lookup_alter_eq, Hr'. eexists. split; [reflexivity|]. rewrite length_app. lia.
        -- rewrite list_lookup_alter_ne by done. by exists row'.
      * intros t' k b Hb. left. by eapply slot_grow.
      * intros k b Hb%slot_grow. pose proof (i_holder _ Hi me th k b Ht Hb) as Ho. rewrite owed_in in Ho. rewrite owed_in. rewrite Ep in Ho. exact Ho.
      * intros k b _ _. left. rewrite Ep. by intros [].
      * keep_cells.
      * intros b t' k _ Hp. by rewrite Ep in Hp.
  - destruct Hpc as [Hc Hfree]. injection Hs as <- <- <- <- <-.
    eapply (inv_update h cs sl ths me th); [done|done|unfold set_slot; apply length_alter|done|done| | | | | | | | |].
    + intros b. rewrite (debts_set _ _ _ _ _ _ Hfree), refs_pc, Ep, points_none. cbn [pc_refs]. lia.
    + done.
    + intros t' j Hne Hj. unfold slot_at, set_slot in *. by rewrite list_lookup_alter_ne by done.
    + intros t' row Hr. unfold set_slot. destruct (decide (me = t')) as [<-|Hne].
      * rewrite list_lookup_alter_eq, Hr. eexists. split; [reflexivity|]. by rewrite length_insert.
      * rewrite list_lookup_alter_ne by done. by exists row.
    + intros t' j b [(-> & -> & [= ->])|[_ ?]]%slot_set; [right|by left]. done.
    + intros j b Hb. rewrite owed_in. apply slot_set in Hb as [(_ & -> & [= ->])|[_ Hb]].
      * left. cbn. rewrite decide_True by done. by left.
      * right. pose proof (i_holder _ Hi me th j b Ht Hb) as Ho. rewrite owed_in, Ep in Ho. destruct Ho as [?%not_elem_of_nil|?]; done.
    + intros j b _ _. left. rewrite Ep. by intros [].
    + keep_cells.
    + intros b t' j _ Hp. by rewrite Ep in Hp.
Qed.

Lemma take_debt_some t k a sl sl' : take_debt t k a sl = Some sl' → slot_at sl t k = Some (Some a) ∧ sl' = set_slot t k None sl.
Proof. unfold take_debt. by destruct (decide _); intros; simplify_eq. Qed.

Lemma take_debt_none t k a sl : take_debt t k a sl = None → slot_at sl t k ≠ Some (Some a).
Proof. unfold take_debt. by destruct (decide _). Qed.

(** The points that hold a value by a slot of the thread. *)
Lemma access_debt me h cs sl ths th h' cs' sl' th' ev :
  inv (Build_system h cs sl ths) → ths !! me = Some th → acc_step me h cs sl th = Some (h', cs', sl', th', ev) →
  match pc th with LoadConfirm _ _ _ | LoadBack _ _ _ _ | DropCas _ _ => True | _ => False end →
  inv (Build_system h' cs' sl' (<[me := th']> ths)).
Proof.
  intros Hi Ht Hs Hk. pose proof (inv_live _ Hi) as Hl. pose proof (i_pc _ Hi me th Ht) as Hpc. unfold acc_step in Hs. unfold pc_ok in Hpc. cbn [cells slots heap] in *.
  (* the read at slot [k] ends and the guards stay *)
  assert (∀ a k p, owed_pc a (pc th) = [k] → (∀ b, b ≠ a → owed_pc b (pc th) = []) → (∀ b, pc_refs b (pc th) = points b (Some a)) → (∀ j b, reading (pc th) j b → j = k) →
    slot_at sl me k = Some (Some a) → (∀ b, pc_refs b p = 0) → pc_ok me (length cs) (set_slot me k None sl) (at_pc p th) → (∀ b t j, ¬ paying (pc th) b t j) →
    inv (Build_system h cs (set_slot me k None sl) (<[me := at_pc p th]> ths))) as Htake.
  { intros a k p Ho Ho' Hr Hrd Hsl Hp Hok Hpay. apply (inv_take_debt h cs sl ths me th _ me k a); try done.
    - intros b. rewrite refs_pc, Hr, Hp. lia.
    - intros j b [?|Hj]; [done|]. rewrite !owed_in. intros [Hin|?]; [|by right].
      destruct (decide (b = a)) as [->|Hne]; [rewrite Ho in Hin; by apply list_elem_of_singleton in Hin|rewrite Ho' in Hin by done; by apply not_elem_of_nil in Hin].
    - intros j b [?|Hj] Hrj; [done|]. by apply Hrd in Hrj.
    - intros b t j _ Hpj. by destruct (Hpay b t j). }
  (* a debt that is already paid becomes a plain reference *)
  assert (∀ a k th', owed_pc a (pc th) = [k] → (∀ b, b ≠ a → owed_pc b (pc th) = []) → slot_at sl me k ≠ Some (Some a) →
    (∀ b, refs b th' = refs b th) → pc_ok me (length cs) sl th' → (∀ g, g ∈ guards th → g ∈ guards th') → (∀ j b, reading (pc th) j b → j = k ∧ b = a) → (∀ b t j, ¬ paying (pc th) b t j) →
    inv (Build_system h cs sl (<[me := th']> ths))) as Hpaid.
  { intros a k th0 Ho Ho' Hsl Hr Hok Hg Hrd Hpay. apply (inv_same_slots h cs sl ths me th); try done.
    - intros b. rewrite Hr. lia.
    - intros j b Hb. rewrite !owed_in. intros [Hin|?]; [|right; by apply Hg].
      destruct (decide (b = a)) as [->|Hne]; [rewrite Ho in Hin; apply list_elem_of_singleton in Hin as ->; done|rewrite Ho' in Hin by done; by apply not_elem_of_nil in Hin].
    - intros j b Hb Hrj. apply Hrd in Hrj as [-> ->]. done.
    - keep_cells.
    - intros b t j _ Hpj. by destruct (Hpay b t j). }
  assert (∀ a k : nat, (if decide (a = a) then [k] else []) = [k]) as Hd1 by (intros; by rewrite decide_True).
  assert (∀ a b k : nat, b ≠ a → (if decide (a = b) then [k] else []) = []) as Hd2 by (intros; by rewrite decide_False).
  destruct (pc th) as [|c|c a k|c a k|c a k|c a k cur|a k|a|a|c new|c cur new|o t k|o t k|o t k|o t k] eqn:Ep; try done; cbn [owed_pc pc_refs reading paying] in *.
  - destruct (cs !! c) as [cur|] eqn:Ec; [|done]. cbn [mbind option_bind] in Hs. destruct (decide (cur = Some a)) as [->|Hne]; injection Hs as <- <- <- <- <-.
    + apply (inv_same_slots h cs sl ths me th); try done.
      * intros b. rewrite refs_guard, Ep. cbn [pc_refs]. lia.
      * intros j b _. rewrite !owed_in, Ep. cbn [owed_pc guard pc guards]. intros [Hin|?]; [|right; mem].
        destruct (decide (a = b)) as [->|]; [|by apply not_elem_of_nil in Hin]. apply list_elem_of_singleton in Hin as ->. right. mem.
      * intros j b Hb Hr. rewrite Ep in Hr. destruct Hr as [-> _]. right. by exists c.
      * keep_cells.
      * intros b t j _ Hp. by rewrite Ep in Hp.
    + apply (inv_same_slots h cs sl ths me th); try done.
      * intros b. rewrite refs_pc, Ep. cbn [pc_refs]. lia.
      * intros j b _. by rewrite !owed_in, Ep.
      * intros j b Hb Hr. rewrite Ep in Hr. by left.
      * keep_cells.
      * intros b t j _ Hp. by rewrite Ep in Hp.
  - destruct (take_debt me k a sl) as [sl1|] eqn:Et.
    + apply take_debt_some in Et as [Hsl ->]. destruct cur as [b|]; injection Hs as <- <- <- <- <-;
        (apply (Htake a k); [by apply Hd1|intros; by apply Hd2|done|by intros j b0 [_ ->]|done|done| |by intros ? ? ? []]); unfold pc_ok; cbn [at_pc pc]; [|done].
      split; [done|]. destruct (row_of _ Hi me th Ht) as [row Hr]. exists (<[k := None]> row). cbn [slots] in Hr. unfold set_slot. rewrite list_lookup_alter_eq, Hr. split; [done|lia].
    + apply take_debt_none in Et. injection Hs as <- <- <- <- <-.
      apply (Hpaid a k); [by apply Hd1|intros; by apply Hd2|done| |done|intros g Hg; by right|by intros j b [-> ->]|by intros ? ? ? []].
      intros b. rewrite refs_guard, Ep. cbn [pc_refs]. lia.
  - destruct (take_debt me k a sl) as [sl1|] eqn:Et; injection Hs as <- <- <- <- <-.
    + apply take_debt_some in Et as [Hsl ->].
      apply (Htake a k); [by apply Hd1|intros; by apply Hd2|done|by intros j b0 []|done|done|done|by intros ? ? ? []].
    + apply take_debt_none in Et.
      apply (Hpaid a k); [by apply Hd1|intros; by apply Hd2|done| |done|by cbn|by intros j b []|by intros ? ? ? []].
      intros b. rewrite refs_pc, Ep. cbn [pc_refs]. lia.
Qed.

(** A point that holds no value by a slot. *)
Definition free_pc (p : pc_t) : Prop := ∀ a, owed_pc a p = [].

(** Counts, handles and cells change, and the slots stay. *)
Lemma access_plain h cs sl ths t th h' cs' th' :
  inv (Build_system h cs sl ths) → ths !! t = Some th → live h' → (length cs ≤ length cs')%nat → free_pc (pc th) →
  (∀ a, strong h' a - strong h a = sum (points a) cs' - sum (points a) cs + (refs a th' - refs a th)) → pc_ok t (length cs') sl th' →
  (∀ g, g ∈ guards th → g ∈ guards th' ∨ ∃ k, g = (g.1, Some k) ∧ pc th' = DropCas g.1 k ∨ g.2 = None) →
  (∀ c a, cs !! c = Some (Some a) → (∃ c', cs' !! c' = Some (Some a)) ∨ ∀ t' k, paying (pc th') a t' k) →
  (∀ a t' k, slot_at sl t' k = Some (Some a) → paying (pc th) a t' k → paying (pc th') a t' k) →
  inv (Build_system h' cs' sl (<[t := th']> ths)).
Proof.
  intros Hi Ht Hl Hc Hf Hn Hp Hg Hcell Hpay. apply (inv_same_slots h cs sl ths t th); try done.
  - intros k a _. rewrite !owed_in, Hf. intros [?%not_elem_of_nil|Hin]; [done|].
    destruct (Hg _ Hin) as [?|(j & [[[= ->] Hj]|?])]; [by right|left|done]. rewrite Hj. cbn. rewrite decide_True by done. by left.
  - intros k a _ Hr. specialize (Hf a). destruct (pc th); try done; destruct Hr as [-> ->]; cbn in Hf; by rewrite decide_True in Hf.
Qed.

Lemma access_write me h cs sl ths th h' cs' sl' th' ev :
  inv (Build_system h cs sl ths) → ths !! me = Some th → acc_step me h cs sl th = Some (h', cs', sl', th', ev) →
  match pc th with DropDec _ | CloneInc _ | SwapAt _ _ | SetAt _ _ _ => True | _ => False end →
  inv (Build_system h' cs' sl' (<[me := th']> ths)).
Proof.
  intros Hi Ht Hs Hk. pose proof (inv_live _ Hi) as Hl. unfold acc_step in Hs. cbn [cells slots heap] in *.
  assert (∀ c old new, cs !! c = Some old → free_pc (pc th) → (∀ a, pc_refs a (pc th) = points a new) → (∀ b t j, ¬ paying (pc th) b t j) →
    inv (Build_system h (<[c := new]> cs) sl (<[me := replaced old th]> ths))) as Hswap.
  { intros c old new Hc Hf Hr Hnp. apply (access_plain h cs sl ths me th); try done.
    - by rewrite length_insert.
    - intros a. rewrite (sum_insert _ _ _ _ _ Hc). unfold replaced. rewrite refs_pc, Hr. destruct old; cbn [pc_refs]; rewrite ?points_none; lia.
    - unfold pc_ok. by destruct old.
    - intros g Hg. by left.
    - intros c0 a Hc0. destruct (decide (c = c0)) as [->|Hne]; [right|left; exists c0; by rewrite list_lookup_insert_ne].
      rewrite Hc in Hc0. injection Hc0 as ->. intros t' k. cbn. lia.
    - intros b t' j _ Hp. by destruct (Hnp b t' j). }
  destruct (pc th) as [|c|c a k|c a k|c a k|c a k cur|a k|a|a|c new|c cur new|o t k|o t k|o t k|o t k] eqn:Ep; try done; cbn [pc_refs] in *.
  - destruct (decrement a h) as [h1|] eqn:Ed; [|done]. injection Hs as <- <- <- <- <-. destruct (decrement_strong _ _ _ Hl Ed) as [Hst Hl'].
    apply (access_plain h cs sl ths me th); try done; rewrite ?Ep; try done; [|by auto|keep_cells].
    intros b. rewrite Hst, refs_pc, Ep. cbn [pc_refs]. lia.
  - destruct (increment a h) as [h1|] eqn:Ed; [|done]. injection Hs as <- <- <- <- <-. destruct (increment_strong _ _ _ Hl Ed) as [Hst Hl'].
    apply (access_plain h cs sl ths me th); try done; rewrite ?Ep; try done; [|by auto|keep_cells].
    intros b. rewrite Hst, refs_own, Ep. cbn [pc_refs]. lia.
  - destruct (cs !! c) as [old|] eqn:Ec; [|done]. injection Hs as <- <- <- <- <-. apply Hswap; try done. by intros ? ? ? [].
  - destruct (cs !! c) as [v|] eqn:Ec; [|done]. cbn [mbind option_bind] in Hs. destruct (decide (v = cur)) as [->|Hne].
    + injection Hs as <- <- <- <- <-. apply Hswap; try done. by intros ? ? ? [].
    + destruct new as [a|]; injection Hs as <- <- <- <- <-; apply (access_plain h cs sl ths me th); try done; rewrite ?Ep; try done; try (by auto); try keep_cells;
        intros b; rewrite ?refs_own, ?refs_pc, Ep; cbn [pc_refs]; rewrite ?points_none; lia.
Qed.

Lemma access_pay me h cs sl ths th h' cs' sl' th' ev :
  inv (Build_system h cs sl ths) → ths !! me = Some th → acc_step me h cs sl th = Some (h', cs', sl', th', ev) →
  match pc th with PayLoad _ _ _ | PayInc _ _ _ | PayCas _ _ _ | PayDec _ _ _ => True | _ => False end →
  inv (Build_system h' cs' sl' (<[me := th']> ths)).
Proof.
  intros Hi Ht Hs Hk. pose proof (inv_live _ Hi) as Hl. unfold acc_step in Hs. cbn [cells slots heap] in *.
  destruct (pc th) as [|c|c a k|c a k|c a k|c a k cur|a k|a|a|c new|c cur new|o t k|o t k|o t k|o t k] eqn:Ep; try done.
  - destruct (sl !! t) as [row|] eqn:Er; [destruct (row !! k) as [x|] eqn:Ek|].
    + injection Hs as <- <- <- <- <-. apply (access_plain h cs sl ths me th); try done; rewrite ?Ep; try done; [|by destruct (decide _)|by auto|keep_cells|].
      * intros b. rewrite refs_pc, Ep. destruct (decide _); cbn [pc_refs]; lia.
      * intros b t' j Hb [-> Hp]. destruct (decide (x = Some b)) as [->|Hx]; cbn; (split; [done|]); [lia|].
        assert (¬ (t = t' ∧ k = j)) by (intros [-> ->]; unfold slot_at in Hb; rewrite Er in Hb; cbn in Hb; congruence). lia.
    + injection Hs as <- <- <- <- <-. apply (access_plain h cs sl ths me th); try done; rewrite ?Ep; try done; [|by auto|keep_cells|].
      * intros b. rewrite refs_pc, Ep. cbn [pc_refs]. lia.
      * intros b t' j Hb [-> Hp]. cbn. split; [done|]. destruct (decide (t = t')) as [->|]; [|lia].
        unfold slot_at in Hb. rewrite Er in Hb. cbn in Hb. apply lookup_lt_Some in Hb. apply lookup_ge_None_1 in Ek. lia.
    + injection Hs as <- <- <- <- <-. apply (access_plain h cs sl ths me th); try done; rewrite ?Ep; try done; [|by auto|keep_cells|].
      * intros b. rewrite refs_own, Ep. cbn [pc_refs]. lia.
      * intros b t' j Hb [-> Hp]. unfold slot_at in Hb. destruct (sl !! t') eqn:Et'; [|done]. apply lookup_lt_Some in Et'. apply lookup_ge_None_1 in Er. lia.
  - destruct (increment o h) as [h1|] eqn:Ed; [|done]. injection Hs as <- <- <- <- <-. destruct (increment_strong _ _ _ Hl Ed) as [Hst Hl'].
    apply (access_plain h cs sl ths me th); try done; rewrite ?Ep; try done; [|by auto|keep_cells]. intros b. rewrite Hst, refs_pc, Ep. cbn [pc_refs]. lia.
  - destruct (take_debt t k o sl) as [sl1|] eqn:Et; injection Hs as <- <- <- <- <-.
    + apply take_debt_some in Et as [Hsl ->]. apply (inv_take_debt h cs sl ths me th _ t k o); try done.
      * intros b. rewrite refs_pc, Ep. cbn [pc_refs]. lia.
      * intros j b _. rewrite !owed_in, Ep. done.
      * intros j b _. by rewrite Ep.
      * intros b t' j Hne. rewrite Ep. cbn. lia.
    + apply take_debt_none in Et. apply (access_plain h cs sl ths me th); try done; rewrite ?Ep; try done; [|by auto|keep_cells|].
      * intros b. rewrite refs_pc, Ep. cbn [pc_refs]. lia.
      * intros b t' j Hb [-> Hp]. cbn. split; [done|]. assert (¬ (t = t' ∧ k = j)) by (intros [-> ->]; done). lia.
  - destruct (decrement o h) as [h1|] eqn:Ed; [|done]. injection Hs as <- <- <- <- <-. destruct (decrement_strong _ _ _ Hl Ed) as [Hst Hl'].
    apply (access_plain h cs sl ths me th); try done; rewrite ?Ep; try done; [|by auto|keep_cells].
    intros b. rewrite Hst, refs_pc, Ep. cbn [pc_refs]. lia.
Qed.

Lemma inv_access me h cs sl ths th h' cs' sl' th' ev :
  inv (Build_system h cs sl ths) → ths !! me = Some th → acc_step me h cs sl th = Some (h', cs', sl', th', ev) →
  inv (Build_system h' cs' sl' (<[me := th']> ths)).
Proof.
  intros Hi Ht Hs. pose proof (access_load _ _ _ _ _ _ _ _ _ _ _ Hi Ht Hs). pose proof (access_debt _ _ _ _ _ _ _ _ _ _ _ Hi Ht Hs).
  pose proof (access_write _ _ _ _ _ _ _ _ _ _ _ Hi Ht Hs). pose proof (access_pay _ _ _ _ _ _ _ _ _ _ _ Hi Ht Hs).
  unfold acc_step in Hs. destruct (pc th); try done; auto.
Qed.

(** ** Calls, allocations and new cells *)

Lemma refs_idle a th : pc th = Idle → refs a th = sum (λ b, points a (Some b)) (handles th) + sum (λ g : nat * option nat, points a (Some g.1)) (guards th).
Proof. intros E. rewrite refs_eq, E. cbn [pc_refs]. lia. Qed.

Lemma inv_call h cs sl ths t th th' :
  inv (Build_system h cs sl ths) → ths !! t = Some th → pc th = Idle → starts (length cs) th th' → inv (Build_system h cs sl (<[t := th']> ths)).
Proof.
  intros Hi Ht Hidle Hs. pose proof (inv_live _ Hi) as Hl.
  assert ((∀ a, refs a th' = refs a th) ∧ pc_ok t (length cs) sl th' ∧
    (∀ g, g ∈ guards th → g ∈ guards th' ∨ ∃ k, g = (g.1, Some k) ∧ pc th' = DropCas g.1 k ∨ g.2 = None)) as (H1 & H2 & H3).
  { destruct Hs; cbn [pc] in Hidle; unfold pc_ok; cbn [at_pc pc guards handles]; split_and!; try done; try (by auto).
    all: try (intros b; rewrite ?refs_pc, !refs_eq, ?Hidle; cbn [pc_refs pc handles guards]; rewrite ?sum_app; cbn [sum fst]; rewrite ?points_none; destruct o || idtac; cbn [pc_refs]; lia).
    - by destruct o.
    - intros g [Hg|[->|Hg]%elem_of_cons]%elem_of_app; [left; mem| |left; mem]. right. destruct o as [k|]; [exists k; by left|exists 0%nat; by right]. }
  apply (access_plain h cs sl ths t th); try done; rewrite ?Hidle; try done; [|keep_cells]. intros a. rewrite H1. lia.
Qed.

Lemma inv_alloc h cs sl ths t th a v :
  inv (Build_system h cs sl ths) → ths !! t = Some th → pc th = Idle → h !! a = None → inv (Build_system (<[a := (1, v)]> h) cs sl (<[t := own a th]> ths)).
Proof.
  intros Hi Ht Hidle Ha. pose proof (inv_live _ Hi) as Hl. apply (access_plain h cs sl ths t th); try done; rewrite ?Hidle; try done; [| |by auto|keep_cells].
  - intros b n w. destruct (decide (a = b)) as [->|]; [rewrite lookup_insert_eq; by intros [= <- _]|rewrite lookup_insert_ne by done; apply Hl].
  - intros b. rewrite strong_insert, refs_own, Hidle. cbn [pc_refs]. destruct (decide (a = b)) as [->|]; [rewrite points_here; unfold strong; rewrite Ha; lia|].
    rewrite points_other by congruence. lia.
Qed.

Lemma inv_cell h cs sl ths t l1 a l2 gs :
  inv (Build_system h cs sl ths) → ths !! t = Some {| handles := l1 ++ a :: l2; guards := gs; pc := Idle |} →
  inv (Build_system h (cs ++ [Some a]) sl (<[t := {| handles := l1 ++ l2; guards := gs; pc := Idle |}]> ths)).
Proof.
  intros Hi Ht. pose proof (inv_live _ Hi) as Hl. eapply (access_plain h cs sl ths t); try done; [| |by auto|].
  - rewrite length_app. lia.
  - intros b. rewrite !refs_eq. cbn [pc handles guards pc_refs]. rewrite !sum_app. cbn [sum]. lia.
  - intros c b Hc. left. exists c. by rewrite lookup_app_l by (by eapply lookup_lt_Some).
Qed.

Lemma swap_inv_start n k : inv (start T n k).
Proof.
  split; cbn [start heap cells slots threads]; rewrite ?length_replicate; try done.
  - intros a. unfold strong. rewrite lookup_empty.
    assert (∀ m, sum (points a) (replicate m None) = 0) as E1 by (induction m as [|m IH]; [done|]; cbn [replicate sum]; by rewrite IH).
    assert (∀ m, sum (refs a) (replicate m {| handles := []; guards := []; pc := Idle |}) = 0) as E2 by (induction m as [|m IH]; [done|]; cbn [replicate sum]; by rewrite IH).
    assert (∀ m, sum (debts a) (replicate m (replicate BLOCK_SLOTS None)) = 0) as E3 by (induction m as [|m IH]; [done|]; cbn [replicate sum]; by rewrite IH).
    by rewrite E1, E2, E3.
  - by intros t th [-> _]%lookup_replicate.
  - intros t th j a _ Hs. exfalso. unfold slot_at in Hs. destruct (replicate n _ !! t) as [row|] eqn:Er; [|done]. apply lookup_replicate in Er as [-> _].
    cbn [mbind option_bind] in Hs. by apply lookup_replicate in Hs as [? _].
  - intros t th j a _ Hs. exfalso. unfold slot_at in Hs. destruct (replicate n _ !! t) as [row|] eqn:Er; [|done]. apply lookup_replicate in Er as [-> _].
    cbn [mbind option_bind] in Hs. by apply lookup_replicate in Hs as [? _].
Qed.

Lemma swap_inv_step s ev s' : inv s → swap_step s ev s' → inv s'.
Proof.
  intros Hi Hs. destruct Hs; eauto using inv_access, inv_call, inv_alloc, inv_cell.
Qed.

Lemma swap_inv_run n k tr s : ltrace swap_step (start T n k) tr s → inv s.
Proof. apply ltrace_inv; [|apply swap_inv_start]. intros s1 ev s2. apply swap_inv_step. Qed.

(** ** No access to memory that is not allocated *)

Lemma alive_handle s t th a : inv s → threads s !! t = Some th → a ∈ handles th → is_Some (heap s !! a).
Proof.
  intros Hi Ht Ha. apply (alive_plain s Hi a t th Ht). unfold plain. apply list_elem_of_lookup in Ha as [i Ha].
  assert (points a (Some a) ≤ sum (λ b, points a (Some b)) (handles th)) as H1 by (apply (sum_at (λ b, points a (Some b)) _ i a Ha); intros; apply points_nonneg).
  rewrite points_here in H1. pose proof (guards_nonneg a (guards th)).
  pose proof (plain_pc_nonneg a (pc th)). lia.
Qed.

Lemma alive_pc s t th a : inv s → threads s !! t = Some th → 1 ≤ plain_pc a (pc th) → is_Some (heap s !! a).
Proof.
  intros Hi Ht Ha. apply (alive_plain s Hi a t th Ht). unfold plain.
  pose proof (handles_nonneg a (handles th)).
  pose proof (guards_nonneg a (guards th)). lia.
Qed.

Lemma inv_progress s t th :
  inv s → threads s !! t = Some th → pc th ≠ Idle → is_Some (acc_step t (heap s) (cells s) (slots s) th).
Proof.
  intros Hi Ht Hn. pose proof (i_pc _ Hi t th Ht) as Hpc.
  assert (∀ a, is_Some (heap s !! a) → is_Some (increment a (heap s)) ∧ is_Some (decrement a (heap s))) as Hid.
  { intros a [ [m v] E]. unfold increment, decrement. rewrite E. cbn. split; by eexists. }
  assert (∀ c, (c < length (cells s))%nat → is_Some (cells s !! c)) as Hc by (intros; by apply lookup_lt_is_Some_2).
  pose proof (λ a, alive_pc s t th a Hi Ht) as Hpl. unfold acc_step, pc_ok in *. destruct (pc th) eqn:Ep; try done.
  - destruct (Hc c Hpc) as [v ->]. by eexists.
  - destruct (slot_at _ _ _) as [ [?|]|]; by eexists.
  - destruct (Hc c Hpc) as [v ->]. by eexists.
  - destruct (proj2 (Hid a ltac:(apply Hpl; cbn; by rewrite points_here))) as [h' ->]. by eexists.
  - assert (is_Some (heap s !! a)) as Ha.
    { destruct Hpc as [?|([b o] & -> & ?)%list_elem_of_fmap]; [by eapply alive_handle|by eapply alive_guard]. }
    destruct (proj1 (Hid a Ha)) as [h' ->]. by eexists.
  - destruct (Hc c Hpc) as [v ->]. by eexists.
  - destruct (Hc c Hpc) as [v ->]. by eexists.
  - destruct (proj1 (Hid old ltac:(apply Hpl; cbn; by rewrite points_here))) as [h' ->]. by eexists.
  - destruct (proj2 (Hid old ltac:(apply Hpl; cbn; rewrite points_here; lia))) as [h' ->]. by eexists.
Qed.

(** With no guard held and no call in progress, no slot holds a debt. *)
Lemma inv_at_rest s a :
  inv s → Forall (λ th, pc th = Idle ∧ guards th = []) (threads s) →
  strong (heap s) a = sum (points a) (cells s) + sum (λ th, sum (λ b, points a (Some b)) (handles th)) (threads s).
Proof.
  intros Hi Hr. rewrite Forall_lookup in Hr. rewrite (i_count _ Hi).
  assert (sum (debts a) (slots s) = 0) as ->.
  { rewrite (sum_ext _ (λ _, 0)); [by induction (slots s)|]. intros row (t & Ht)%list_elem_of_lookup. rewrite <- places_length.
    destruct (places a row) as [|k ks] eqn:E; [done|]. exfalso. assert (row !! k = Some (Some a)) as Hk by (apply places_in; rewrite E; by left).
    destruct (lookup_lt_is_Some_2 (threads s) t) as [th Hth]; [rewrite <- (i_rows _ Hi); by eapply lookup_lt_Some|].
    destruct (Hr t th Hth) as [Hp Hg]. assert (k ∈ owed a th) as Ho by (apply (i_holder _ Hi t th k a Hth); unfold slot_at; by rewrite Ht).
    rewrite owed_in, Hp, Hg in Ho. by destruct Ho as [?%not_elem_of_nil|?%not_elem_of_nil]. }
  rewrite (sum_ext (refs a) (λ th, sum (λ b, points a (Some b)) (handles th))); [lia|].
  intros th (t & Ht)%list_elem_of_lookup. destruct (Hr t th Ht) as [Hp Hg]. rewrite refs_idle, Hg by done. cbn [sum]. lia.
Qed.
End safety.

(** ** Runs by schedule *)

Inductive choice := Acc (t : nat) | CallLoad (t c : nat) | CallSwap (t c : nat) | CallDrop (t : nat) | Alloc (t a v : nat).

Definition play (x : choice) (s : system nat) : option (event nat * system nat) :=
  let '(Build_system h cs sl ths) := s in
  match x with
  | Acc t =>
      th ← ths !! t; '(h', cs', sl', th', ev) ← acc_step t h cs sl th; Some (ev, Build_system h' cs' sl' (<[t := th']> ths))
  | CallLoad t c =>
      th ← ths !! t;
      match pc th with
      | Idle => if (c <? length cs)%nat then Some (Tau, Build_system h cs sl (<[t := at_pc (LoadPtr c) th]> ths)) else None
      | _ => None
      end
  | CallSwap t c =>
      match ths !! t with
      | Some {| handles := a :: hs; guards := gs; pc := Idle |} =>
          if (c <? length cs)%nat then Some (Tau, Build_system h cs sl (<[t := {| handles := hs; guards := gs; pc := SwapAt c (Some a) |}]> ths)) else None
      | _ => None
      end
  | CallDrop t =>
      match ths !! t with
      | Some {| handles := a :: hs; guards := gs; pc := Idle |} => Some (Tau, Build_system h cs sl (<[t := {| handles := hs; guards := gs; pc := DropDec a |}]> ths))
      | _ => None
      end
  | Alloc t a v =>
      th ← ths !! t;
      match pc th, h !! a with
      | Idle, None => Some (Tau, Build_system (<[a := (1, v)]> h) cs sl (<[t := own a th]> ths))
      | _, _ => None
      end
  end.

Fixpoint plays (xs : list choice) (s : system nat) : option (list (event nat) * system nat) :=
  match xs with
  | [] => Some ([], s)
  | x :: xs => '(ev, s') ← play x s; '(tr, s'') ← plays xs s'; Some (ev :: tr, s'')
  end.

Lemma swap_play_step x s ev s' : play x s = Some (ev, s') → swap_step s ev s'.
Proof.
  destruct s as [h cs sl ths], x as [t|t c|t c|t|t a v]; cbn [play].
  - destruct (ths !! t) as [th|] eqn:Et; [|done]. cbn [mbind option_bind]. destruct (acc_step _ _ _ _ _) as [ [[[[h' cs'] sl'] th'] e]|] eqn:E; [|done].
    cbn. intros [= <- <-]. by econstructor.
  - destruct (ths !! t) as [th|] eqn:Et; [|done]. cbn [mbind option_bind]. destruct (pc th) eqn:Ep; try done. destruct (Nat.ltb_spec c (length cs)); [|done].
    intros [= <- <-]. eapply step_call; [done..|]. by constructor.
  - destruct (ths !! t) as [ [[|a hs] gs p]|] eqn:Et; try done. destruct p; try done. destruct (Nat.ltb_spec c (length cs)); [|done].
    intros [= <- <-]. eapply step_call; [done..|]. by apply (start_swap _ [] a hs).
  - destruct (ths !! t) as [ [[|a hs] gs p]|] eqn:Et; try done. destruct p; try done. intros [= <- <-]. eapply step_call; [done..|]. apply (start_drop _ [] a hs).
  - destruct (ths !! t) as [th|] eqn:Et; [|done]. cbn [mbind option_bind]. destruct (pc th) eqn:Ep; try done. destruct (h !! a) eqn:Ea; [done|].
    intros [= <- <-]. by constructor.
Qed.

Lemma swap_plays_trace xs s tr s' : plays xs s = Some (tr, s') → ltrace swap_step s tr s'.
Proof.
  revert s tr. induction xs as [|x xs IH]; intros s tr; cbn [plays]; [intros [= <- <-]; constructor|].
  destruct (play x s) as [ [ev s1]|] eqn:E1; [|done]. cbn. destruct (plays xs s1) as [ [tr' s2]|] eqn:E2; [|done]. cbn.
  intros [= <- <-]. econstructor; [by eapply swap_play_step|by apply IH].
Qed.

(** The reader of cell 0 stops before it records the address 5; the value there is
    replaced and freed, and the address given to a value for cell 1. The reader
    records the address, the writer of cell 1 takes it for a read of its value and
    pays it, and the reader keeps what it was paid. *)
Definition foreign : list choice :=
  [Alloc 1 5 1; CallSwap 1 0; Acc 1; CallLoad 0 0; Acc 0; Acc 0] ++
  [Alloc 1 6 2; CallSwap 1 0] ++ replicate 18 (Acc 1) ++ [CallDrop 1; Acc 1; Alloc 1 5 9; CallSwap 1 1; Acc 1; Acc 0] ++
  [Alloc 1 7 3; CallSwap 1 1] ++ replicate 20 (Acc 1) ++ [Acc 0; Acc 0].

Definition stored_in (c : nat) (tr : list (event nat)) : list (option nat) :=
  omap (λ e, match e with Swapped d v => if (d =? c)%nat then Some v else None | _ => None end) tr.

(** ** The theorems *)

(** No call in progress and no guard held. *)
Definition quiet (th : thread) : Prop := pc th = Idle ∧ guards th = [].

(** A load of cell 0 returns the value 9, which was only ever in cell 1. *)
Lemma swap_cell_foreign_value :
  ∃ tr s, ltrace swap_step (start nat 2 2) tr s ∧ last tr = Some (Loaded 0 5 (Some 9%nat)) ∧ stored_in 0 tr = [Some 1%nat; Some 2%nat].
Proof.
  destruct (plays foreign (start nat 2 2)) as [ [tr s]|] eqn:E; [|vm_compute in E; done].
  exists tr, s. split; [by eapply swap_plays_trace|]. vm_compute in E. injection E as <- _. by vm_compute.
Qed.

(** C37: Whatever the interleaving of loads, swaps, compare-and-sets, clones, drops,
    allocations, also of addresses used before, and new cells: what a guard, a
    handle or a cell refers to is allocated; no access of a call touches memory
    that is not; a guard's value is therefore there to read until it is dropped.
    When no call is in progress and no guard is held, the count of every
    allocation is the number of cells and handles that refer to it, so nothing is
    leaked and what nobody refers to has been freed. *)
Theorem swap_cell_safe (T : Type) n k tr (s : system T) :
  ltrace swap_step (start T n k) tr s →
  (∀ t th, threads s !! t = Some th →
     (∀ a o, (a, o) ∈ guards th → is_Some (heap s !! a)) ∧ (∀ a, a ∈ handles th → is_Some (heap s !! a)) ∧
     (pc th ≠ Idle → is_Some (acc_step t (heap s) (cells s) (slots s) th))) ∧
  (∀ c a, cells s !! c = Some (Some a) → is_Some (heap s !! a)) ∧
  (Forall quiet (threads s) → ∀ a,
     strong (heap s) a = sum (points a) (cells s) + sum (λ th, sum (λ b, points a (Some b)) (handles th)) (threads s)).
Proof.
  intros Ht. pose proof (swap_inv_run n k tr s Ht) as Hi. split; [|split].
  - intros t th Hth. split_and!; [intros a o Hg; by eapply alive_guard|intros a Ha; by eapply alive_handle|by apply inv_progress].
  - intros c a Hc. by eapply alive_cell.
  - intros Hq a. by apply inv_at_rest.
Qed.

(** A guard on the address 5 after its value was replaced, in the run above. *)
Lemma swap_cell_safe_witness :
  ∃ tr s th, ltrace swap_step (start nat 2 2) tr s ∧ threads s !! 0%nat = Some th ∧ guards th = [(5%nat, None)] ∧ is_Some (heap s !! 5%nat).
Proof.
  destruct (plays foreign (start nat 2 2)) as [ [tr s]|] eqn:E; [|vm_compute in E; done].
  pose proof (swap_plays_trace _ _ _ _ E) as Ht.
  assert (threads s !! 0%nat = Some {| handles := []; guards := [(5%nat, None)]; pc := Idle |}) as Hth by (vm_compute in E; by injection E as _ <-).
  exists tr, s, {| handles := []; guards := [(5%nat, None)]; pc := Idle |}. split; [done|]. split; [done|]. split; [done|].
  apply (proj1 (proj1 (swap_cell_safe nat 2 2 tr s Ht) 0%nat _ Hth) 5%nat None). by left.
Defined.
