(* ===== verification/BitVec.v ===== *)
(** Shared bit vector: [crates/subetha-cxc/src/shared_bit_vec.rs].

    A vector of bits packed in 64-bit words of a mapped region. Every access of
    the code to a word is one atomic instruction, so the model is a list of
    words with one read-modify-write, [rmw]; [None] is an access outside the
    region. [set], [clear], [toggle] and [get] make one access each; a range is
    the list of its accesses ([range_prog]), which other handles' accesses may
    separate.

    The theorems: the operations implement a list of booleans
    ([bit_vec_refines]), and a range operation acts on each bit of the range
    exactly once and on no other bit, wherever other accesses fall between its
    own ([range_bitwise]). *)
From S2P Require Import Prelude.

Definition BITS_PER_WORD : nat := 64.
Definition BITVEC_MAGIC : Z := 0x4150425645432031.
Definition U64_MAX : Z := 2 ^ 64 - 1.

Inductive BitVecError := OutOfBounds | LayoutMismatch.

#[export] Instance BitVecError_eq_dec : EqDecision BitVecError.
Proof. solve_decision. Defined.

(** * The region *)

Record BitVecHeader := { magic : Z; hdr_capacity_bits : Z; hdr_word_count : Z }.

(** A handle: the capacity it was opened with, the word count the header
    holds, and the words. *)
Record SharedBitVec := { capacity_bits : nat; word_count : nat; words : list Z }.

Definition div_ceil (a b : nat) : nat := if bool_decide (a mod b = 0)%nat then (a / b)%nat else S (a / b).

Definition bit_vec_file_size (cap : nat) : Z :=
  64 + Z.of_nat (div_ceil cap BITS_PER_WORD) * 8.

Definition init_region (cap : nat) : BitVecHeader * list Z :=
  ({| magic := BITVEC_MAGIC; hdr_capacity_bits := Z.of_nat cap;
      hdr_word_count := Z.of_nat (div_ceil cap BITS_PER_WORD) |},
   replicate (div_ceil cap BITS_PER_WORD) 0).

Definition from_region (r : BitVecHeader * list Z) (cap : nat) : res BitVecError SharedBitVec :=
  let hdr := r.1 in
  if negb (magic hdr =? BITVEC_MAGIC) || negb (hdr_capacity_bits hdr =? Z.of_nat cap)
  then Err LayoutMismatch
  else Ok {| capacity_bits := cap; word_count := Z.to_nat (hdr_word_count hdr); words := r.2 |}.

(** [reset], and [create] on a path that does not exist: the assertion, the
    layout, the wrapping. *)
Definition create (cap : nat) : res BitVecError SharedBitVec :=
  _ ← assert_ (1 <=? Z.of_nat cap); from_region (init_region cap) cap.

(** [open]: the length of the file is checked before it is mapped. *)
Definition open_ (file_len : Z) (r : BitVecHeader * list Z) (cap : nat) : res BitVecError SharedBitVec :=
  if file_len <? bit_vec_file_size cap then Err LayoutMismatch else from_region r cap.

(** * One atomic access to a word *)

Definition rmw (f : Z → Z) (w : nat) (ws : list Z) : option (Z * list Z) :=
  prev ← ws !! w; Some (prev, <[w := f prev]> ws).

(** The 64-bit complement [!m]. *)
Definition not64 (m : Z) : Z := Z.lxor U64_MAX m.

Definition fetch_or (m : Z) := rmw (λ p, Z.lor p m).
Definition fetch_and (m : Z) := rmw (λ p, Z.land p m).
Definition fetch_xor (m : Z) := rmw (λ p, Z.lxor p m).
Definition store (v : Z) := rmw (λ _, v).

Definition with_words (v : SharedBitVec) (ws : list Z) : SharedBitVec :=
  {| capacity_bits := capacity_bits v; word_count := word_count v; words := ws |}.

Definition check_bounds (v : SharedBitVec) (bit : nat) : bool := bool_decide (capacity_bits v ≤ bit)%nat.

(** * Single bits *)

Definition mask_of (i : nat) : Z := u64 (Z.shiftl 1 (Z.of_nat (i mod BITS_PER_WORD))).
Definition word_of (i : nat) : nat := (i / BITS_PER_WORD)%nat.

Abbreviation outcome A := (option (SharedBitVec * res BitVecError A)).

Definition set (v : SharedBitVec) (i : nat) : outcome bool :=
  if check_bounds v i then Some (v, Err OutOfBounds)
  else
    '(prev, ws) ← fetch_or (mask_of i) (word_of i) (words v);
    Some (with_words v ws, Ok (negb (Z.land prev (mask_of i) =? 0))).

Definition clear (v : SharedBitVec) (i : nat) : outcome bool :=
  if check_bounds v i then Some (v, Err OutOfBounds)
  else
    '(prev, ws) ← fetch_and (not64 (mask_of i)) (word_of i) (words v);
    Some (with_words v ws, Ok (negb (Z.land prev (mask_of i) =? 0))).

Definition toggle (v : SharedBitVec) (i : nat) : outcome bool :=
  if check_bounds v i then Some (v, Err OutOfBounds)
  else
    '(prev, ws) ← fetch_xor (mask_of i) (word_of i) (words v);
    Some (with_words v ws, Ok (Z.land prev (mask_of i) =? 0)).

Definition get (v : SharedBitVec) (i : nat) : outcome bool :=
  if check_bounds v i then Some (v, Err OutOfBounds)
  else
    x ← words v !! word_of i;
    Some (v, Ok (negb (Z.land x (mask_of i) =? 0))).

(** * Ranges *)

Inductive RangeOp := RSet | RClear.

(** One access of a range operation: the word and the update. *)
Definition access : Type := nat * (Z → Z).

Definition masked (op : RangeOp) (m : Z) : Z → Z :=
  match op with RSet => λ p, Z.lor p m | RClear => λ p, Z.land p (not64 m) end.

Definition filled (op : RangeOp) : Z → Z :=
  λ _, match op with RSet => U64_MAX | RClear => 0 end.

(** [range_op]: the accesses it makes, in order. *)
Definition range_prog (lo hi : nat) (op : RangeOp) : list access :=
  let lo_word := word_of lo in
  let hi_word := word_of (hi - 1) in
  let lo_bit := (lo mod BITS_PER_WORD)%nat in
  let hi_bit_excl := (hi - hi_word * BITS_PER_WORD)%nat in
  if bool_decide (lo_word = hi_word) then
    let count := (hi - lo)%nat in
    let mask := if bool_decide (count = BITS_PER_WORD) then U64_MAX
                else u64 (Z.shiftl (Z.shiftl 1 (Z.of_nat count) - 1) (Z.of_nat lo_bit)) in
    [(lo_word, masked op mask)]
  else
    let lo_mask := not64 (Z.shiftl 1 (Z.of_nat lo_bit) - 1) in
    let hi_mask := if bool_decide (hi_bit_excl = BITS_PER_WORD) then U64_MAX
                   else Z.shiftl 1 (Z.of_nat hi_bit_excl) - 1 in
    (lo_word, masked op lo_mask)
      :: ((λ w, (w, filled op)) <$> seq (S lo_word) (hi_word - S lo_word))
      ++ [(hi_word, masked op hi_mask)].

(** A list of accesses, run with nothing between them. *)
Fixpoint accesses (prog : list access) (ws : list Z) : option (list Z) :=
  match prog with
  | [] => Some ws
  | (w, f) :: prog => '(_, ws) ← rmw f w ws; accesses prog ws
  end.

Definition range_op (lo hi : nat) (op : RangeOp) (ws : list Z) : option (list Z) :=
  accesses (range_prog lo hi op) ws.

Definition range (op : RangeOp) (v : SharedBitVec) (lo hi : nat) : outcome unit :=
  if bool_decide (hi < lo)%nat || bool_decide (capacity_bits v < hi)%nat
  then Some (v, Err OutOfBounds)
  else if bool_decide (lo = hi) then Some (v, Ok tt)
  else ws ← range_op lo hi op (words v); Some (with_words v ws, Ok tt).

Definition set_range := range RSet.
Definition clear_range := range RClear.

(** * Whole-vector operations *)

Definition count_ones (v : SharedBitVec) : option nat :=
  foldr (λ w acc, x ← words v !! w; n ← acc; Some (Prelude.count_ones 64 x + n)%nat)
    (Some 0%nat) (seq 0 (word_count v)).

(** [saturating_sub] is truncated subtraction. *)
Definition count_zeros (v : SharedBitVec) : option nat :=
  n ← count_ones v; Some (capacity_bits v - n)%nat.
Definition is_all_set (v : SharedBitVec) : option bool :=
  n ← count_ones v; Some (bool_decide (n = capacity_bits v)).
Definition is_all_clear (v : SharedBitVec) : option bool :=
  n ← count_ones v; Some (bool_decide (n = 0%nat)).

Definition set_all (v : SharedBitVec) : option SharedBitVec :=
  if bool_decide (word_count v = 0%nat) then Some v
  else
    let full_words := (word_count v - 1)%nat in
    let last_word_bits := (capacity_bits v - full_words * BITS_PER_WORD)%nat in
    let last_mask := if bool_decide (last_word_bits = BITS_PER_WORD) then U64_MAX
                     else Z.shiftl 1 (Z.of_nat last_word_bits) - 1 in
    ws ← accesses (((λ w, (w, λ _, U64_MAX)) <$> seq 0 full_words)
                   ++ [(full_words, λ _, last_mask)]) (words v);
    Some (with_words v ws).

Definition clear_all (v : SharedBitVec) : option SharedBitVec :=
  ws ← accesses ((λ w, (w, λ _, 0)) <$> seq 0 (word_count v)) (words v);
  Some (with_words v ws).

(** * The contract: a list of booleans *)

Inductive op :=
| OSet (i : nat) | OClear (i : nat) | OToggle (i : nat) | OGet (i : nat)
| OSetRange (lo hi : nat) | OClearRange (lo hi : nat)
| OCountOnes | OCountZeros | OIsAllSet | OIsAllClear | OSetAll | OClearAll.

Inductive ret :=
| RBit (r : res BitVecError bool) | RRange (r : res BitVecError unit)
| RCount (n : nat) | RIs (b : bool) | RDone.

Definition call (v : SharedBitVec) (o : op) : option (SharedBitVec * ret) :=
  let bit (x : outcome bool) := '(v, r) ← x; Some (v, RBit r) in
  let rng (x : outcome unit) := '(v, r) ← x; Some (v, RRange r) in
  match o with
  | OSet i => bit (set v i)
  | OClear i => bit (clear v i)
  | OToggle i => bit (toggle v i)
  | OGet i => bit (get v i)
  | OSetRange lo hi => rng (set_range v lo hi)
  | OClearRange lo hi => rng (clear_range v lo hi)
  | OCountOnes => n ← count_ones v; Some (v, RCount n)
  | OCountZeros => n ← count_zeros v; Some (v, RCount n)
  | OIsAllSet => b ← is_all_set v; Some (v, RIs b)
  | OIsAllClear => b ← is_all_clear v; Some (v, RIs b)
  | OSetAll => v ← set_all v; Some (v, RDone)
  | OClearAll => v ← clear_all v; Some (v, RDone)
  end.

Fixpoint calls (v : SharedBitVec) (os : list op) : option (SharedBitVec * list ret) :=
  match os with
  | [] => Some (v, [])
  | o :: os => '(v, r) ← call v o; '(v, rs) ← calls v os; Some (v, r :: rs)
  end.

(** What each call does to a list of booleans. *)
Definition at_bit (l : list bool) (i : nat) (new : bool → bool) (out : bool → bool) : list bool * ret :=
  match l !! i with
  | None => (l, RBit (Err OutOfBounds))
  | Some b => (<[i := new b]> l, RBit (Ok (out b)))
  end.

Definition fill (lo hi : nat) (b : bool) (l : list bool) : list bool :=
  take lo l ++ replicate (hi - lo) b ++ drop hi l.

Definition at_range (l : list bool) (lo hi : nat) (b : bool) : list bool * ret :=
  if bool_decide (lo ≤ hi ≤ length l)%nat then (fill lo hi b l, RRange (Ok tt))
  else (l, RRange (Err OutOfBounds)).

Definition ones (l : list bool) : nat := length (List.filter id l).

Definition spec (l : list bool) (o : op) : list bool * ret :=
  match o with
  | OSet i => at_bit l i (λ _, true) id
  | OClear i => at_bit l i (λ _, false) id
  | OToggle i => at_bit l i negb negb
  | OGet i => at_bit l i id id
  | OSetRange lo hi => at_range l lo hi true
  | OClearRange lo hi => at_range l lo hi false
  | OCountOnes => (l, RCount (ones l))
  | OCountZeros => (l, RCount (length l - ones l))
  | OIsAllSet => (l, RIs (forallb id l))
  | OIsAllClear => (l, RIs (forallb negb l))
  | OSetAll => (replicate (length l) true, RDone)
  | OClearAll => (replicate (length l) false, RDone)
  end.

Fixpoint specs (l : list bool) (os : list op) : list bool * list ret :=
  match os with
  | [] => (l, [])
  | o :: os => let (l, r) := spec l o in let (l, rs) := specs l os in (l, r :: rs)
  end.

(** The bit at [i], and the list of booleans a vector stands for. *)
Definition bit_at (ws : list Z) (i : nat) : bool :=
  Z.testbit (default 0 (ws !! word_of i)) (Z.of_nat (i mod BITS_PER_WORD)).

Definition abs (v : SharedBitVec) : list bool := bit_at (words v) <$> seq 0 (capacity_bits v).

Example range_70_130 :
  (λ '(v, _), filter (λ i, Is_true (bit_at (words v) i)) (seq 0 192)) <$>
    (v ← (match create 192 with Ok v => Some v | _ => None end); set_range v 70 130)
  = Some (seq 70 60).
Proof. vm_compute. reflexivity. Qed.

(** * Bits of words *)

Definition is_word (x : Z) : Prop := 0 ≤ x < 2 ^ 64.

Lemma word_high x k : is_word x → 64 ≤ k → Z.testbit x k = false.
Proof.
  intros Hx Hk. rewrite <- (Z.mod_small x (2 ^ 64)) by done. apply Z.mod_pow2_bits_high. lia.
Qed.

(** A non-negative number without bits from 64 on is a word. *)
Lemma word_of_bits x : 0 ≤ x → (∀ k, 64 ≤ k → Z.testbit x k = false) → is_word x.
Proof.
  intros H0 Hk. split; [done|]. assert (x = x mod 2 ^ 64) as ->; [|apply Z.mod_pos_bound; lia].
  apply Z.bits_inj'. intros n Hn. destruct (Z.lt_ge_cases n 64).
  - by rewrite Z.mod_pow2_bits_low.
  - rewrite Hk by done. symmetry. apply Z.mod_pow2_bits_high. lia.
Qed.

Lemma lor_word x y : is_word x → is_word y → is_word (Z.lor x y).
Proof.
  intros Hx Hy. apply word_of_bits; [apply Z.lor_nonneg; destruct Hx, Hy; lia|].
  intros k ?. by rewrite Z.lor_spec, !word_high.
Qed.

Lemma land_word x y : is_word x → 0 ≤ y → is_word (Z.land x y).
Proof.
  intros Hx Hy. apply word_of_bits; [apply Z.land_nonneg; lia|].
  intros k ?. by rewrite Z.land_spec, word_high.
Qed.

Lemma lxor_word x y : is_word x → is_word y → is_word (Z.lxor x y).
Proof. by apply lxor_bound. Qed.

Lemma max_word : is_word U64_MAX.
Proof. done. Qed.

Lemma not64_word m : is_word m → is_word (not64 m).
Proof. by apply lxor_word. Qed.
#[export] Hint Resolve lor_word land_word lxor_word max_word not64_word : words.

Lemma max_bits k : 0 ≤ k < 64 → Z.testbit U64_MAX k = true.
Proof. intros. change U64_MAX with (Z.ones 64). apply Z.ones_spec_low. lia. Qed.

Lemma not64_bits m k : 0 ≤ k < 64 → Z.testbit (not64 m) k = negb (Z.testbit m k).
Proof. intros. unfold not64. by rewrite Z.lxor_spec, max_bits, xorb_true_l. Qed.

(** [(1 << n) - 1]: the [n] low bits. *)
Lemma low_mask n : (n ≤ 64)%nat → is_word (Z.shiftl 1 (Z.of_nat n) - 1) ∧
  ∀ k, 0 ≤ k → Z.testbit (Z.shiftl 1 (Z.of_nat n) - 1) k = (k <? Z.of_nat n).
Proof.
  intros Hn. rewrite Z.shiftl_1_l, Z.sub_1_r, <- Z.ones_equiv. split.
  - rewrite Z.ones_equiv. pose proof (Z.pow_le_mono_r 2 (Z.of_nat n) 64 ltac:(lia) ltac:(lia)).
    pose proof (Z.pow_pos_nonneg 2 (Z.of_nat n) ltac:(lia) ltac:(lia)). unfold is_word. lia.
  - intros k Hk. apply Z.testbit_ones_nonneg; lia.
Qed.

Lemma mask_of_spec i : is_word (mask_of i) ∧
  ∀ k, 0 ≤ k < 64 → Z.testbit (mask_of i) k = (k =? Z.of_nat (i mod BITS_PER_WORD)).
Proof.
  split; [by apply (wrap_bound 64)|]. intros k Hk. unfold mask_of, wrap.
  rewrite Z.mod_pow2_bits_low, Z.shiftl_1_l, Z.pow2_bits_eqb by lia. apply Z.eqb_sym.
Qed.

(** The test [word & mask != 0] reads the bit. *)
Lemma land_mask_of x i : is_word x →
  negb (Z.land x (mask_of i) =? 0) = Z.testbit x (Z.of_nat (i mod BITS_PER_WORD)).
Proof.
  intros Hx. destruct (mask_of_spec i) as [Hm Hb]. set (k := Z.of_nat _) in *.
  assert (0 ≤ k < 64) as Hk. { unfold k, BITS_PER_WORD. pose proof (Nat.mod_upper_bound i 64). lia. }
  destruct (Z.eqb_spec (Z.land x (mask_of i)) 0) as [E|E]; cbn [negb].
  - assert (Z.testbit (Z.land x (mask_of i)) k = false) as H by (rewrite E; apply Z.bits_0).
    rewrite Z.land_spec, Hb, Z.eqb_refl, andb_true_r in H by done. done.
  - destruct (Z.testbit x k) eqn:Ex; [done|]. destruct E. apply Z.bits_inj'. intros n Hn.
    rewrite Z.bits_0, Z.land_spec. destruct (Z.lt_ge_cases n 64).
    + rewrite Hb by lia. destruct (Z.eqb_spec n k) as [->|]; [by rewrite Ex|apply andb_false_r].
    + by rewrite (word_high x n).
Qed.

(** * Accesses, bit by bit *)

(** The update [f] of word [w] sends bit [i] of the vector to [h i]. *)
Definition acts (h : nat → bool → bool) (a : access) : Prop :=
  ∀ p, is_word p → is_word (a.2 p) ∧
    ∀ k, (k < 64)%nat →
      Z.testbit (a.2 p) (Z.of_nat k) = h (a.1 * 64 + k)%nat (Z.testbit p (Z.of_nat k)).

Lemma word_split i : i = (word_of i * 64 + i mod BITS_PER_WORD)%nat.
Proof. unfold word_of, BITS_PER_WORD. pose proof (Nat.div_mod_eq i 64). lia. Qed.

Lemma word_of_at w k : (k < 64)%nat → word_of (w * 64 + k) = w ∧ ((w * 64 + k) mod BITS_PER_WORD = k)%nat.
Proof.
  intros. unfold word_of, BITS_PER_WORD. split.
  - rewrite Nat.div_add_l, Nat.div_small by lia. lia.
  - rewrite Nat.add_comm, Nat.Div0.mod_add. by apply Nat.mod_small.
Qed.

#[local] Opaque word_of.

Lemma rmw_bits h f w ws :
  (w < length ws)%nat → Forall is_word ws → acts h (w, f) →
  ∃ prev ws', ws !! w = Some prev ∧ rmw f w ws = Some (prev, ws') ∧
    length ws' = length ws ∧ Forall is_word ws' ∧
    ∀ i, bit_at ws' i = if bool_decide (word_of i = w) then h i (bit_at ws i) else bit_at ws i.
Proof.
  intros Hw Hws Ha. destruct (lookup_lt_is_Some_2 ws w Hw) as [p Ep].
  pose proof (Forall_lookup_1 _ _ _ _ Hws Ep) as Hp. destruct (Ha p Hp) as [Hf Hb]. cbn [fst snd] in *.
  exists p, (<[w := f p]> ws). split; [done|]. unfold rmw. rewrite Ep. cbn. split; [done|].
  split; [by rewrite length_insert|]. split; [by apply Forall_insert|].
  intros i. unfold bit_at. destruct (decide (word_of i = w)) as [E|E];
    [rewrite bool_decide_eq_true_2 by done|rewrite bool_decide_eq_false_2 by done].
  - subst w. rewrite Ep, list_lookup_insert_eq by done. change (default 0 (Some ?x)) with x.
    rewrite Hb by (by apply Nat.mod_upper_bound). by rewrite <- word_split.
  - by rewrite list_lookup_insert_ne by done.
Qed.

Lemma accesses_bits h prog ws :
  NoDup prog.*1 → Forall (λ w, w < length ws)%nat prog.*1 → Forall is_word ws → Forall (acts h) prog →
  ∃ ws', accesses prog ws = Some ws' ∧ length ws' = length ws ∧ Forall is_word ws' ∧
    ∀ i, bit_at ws' i = if bool_decide (word_of i ∈ prog.*1) then h i (bit_at ws i) else bit_at ws i.
Proof.
  revert ws. induction prog as [|[w f] prog IH]; intros ws Hnd Hlt Hws Ha.
  { exists ws. repeat split; done. }
  cbn [fmap list_fmap fst] in Hnd, Hlt. apply NoDup_cons in Hnd as [Hni Hnd].
  apply Forall_cons in Hlt as [Hw Hlt], Ha as [Hf Ha].
  destruct (rmw_bits h f w ws Hw Hws Hf) as (p & ws1 & _ & E1 & L1 & W1 & B1).
  destruct (IH ws1 Hnd) as (ws2 & E2 & L2 & W2 & B2); [by rewrite L1|done..|].
  exists ws2. cbn [accesses]. rewrite E1. cbn. split; [done|]. split; [by rewrite L2|]. split; [done|].
  intros i. rewrite B2, B1. generalize (word_of i) as j. intros j. cbn [fmap list_fmap fst].
  destruct (decide (j = w)) as [->|Hne].
  - rewrite (bool_decide_eq_false_2 (w ∈ prog.*1)), !bool_decide_eq_true_2; [done|by left|done..].
  - rewrite (bool_decide_eq_false_2 (j = w)) by done.
    rewrite (bool_decide_ext (j ∈ w :: prog.*1) (j ∈ prog.*1)); [done|]. rewrite elem_of_cons. tauto.
Qed.

(** What a range operation writes. *)
Definition op_bit (op : RangeOp) : bool := match op with RSet => true | RClear => false end.

Lemma acts_masked P op m w :
  is_word m → (∀ k, (k < 64)%nat → Z.testbit m (Z.of_nat k) = P (w * 64 + k)%nat) →
  acts (λ i b, if P i then op_bit op else b) (w, masked op m).
Proof.
  intros Hm Hb p Hp. split; cbn [fst snd]; [destruct op; cbn; auto with words; apply land_word; [done|]; by apply not64_word|].
  intros k Hk. rewrite <- Hb by done. destruct op; cbn [masked op_bit].
  - rewrite Z.lor_spec. by destruct (Z.testbit m _), (Z.testbit p _).
  - rewrite Z.land_spec, not64_bits by lia. by destruct (Z.testbit m _), (Z.testbit p _).
Qed.

Lemma acts_xor P m w :
  is_word m → (∀ k, (k < 64)%nat → Z.testbit m (Z.of_nat k) = P (w * 64 + k)%nat) →
  acts (λ i b, if P i then negb b else b) (w, λ p, Z.lxor p m).
Proof.
  intros Hm Hb p Hp. split; cbn [fst snd]; [auto with words|].
  intros k Hk. rewrite <- Hb, Z.lxor_spec by done. by destruct (Z.testbit m _), (Z.testbit p _).
Qed.

Lemma acts_const P v w :
  is_word v → (∀ k, (k < 64)%nat → Z.testbit v (Z.of_nat k) = P (w * 64 + k)%nat) →
  acts (λ i _, P i) (w, λ _, v).
Proof. intros Hv Hb p _. by split. Qed.

Lemma acts_ext h h' a :
  (∀ k b, (k < 64)%nat → h (a.1 * 64 + k)%nat b = h' (a.1 * 64 + k)%nat b) → acts h a → acts h' a.
Proof. intros He Ha p Hp. destruct (Ha p Hp) as [H1 H2]. split; [done|]. intros k Hk. by rewrite H2, He. Qed.

(** The mask of a bit, within its word. *)
Lemma mask_of_at i k : (k < 64)%nat →
  Z.testbit (mask_of i) (Z.of_nat k) = bool_decide (word_of i * 64 + k = i)%nat.
Proof.
  intros Hk. rewrite (proj2 (mask_of_spec i)) by lia. pose proof (word_split i).
  destruct (Z.eqb_spec (Z.of_nat k) (Z.of_nat (i mod BITS_PER_WORD))); symmetry;
    [apply bool_decide_eq_true_2|apply bool_decide_eq_false_2]; lia.
Qed.

(** The masks of a range: one word, the first word, the last word. *)
Lemma mid_mask c lo k : (lo + c ≤ 64)%nat → (k < 64)%nat →
  Z.testbit (if bool_decide (c = BITS_PER_WORD) then U64_MAX
             else u64 (Z.shiftl (Z.shiftl 1 (Z.of_nat c) - 1) (Z.of_nat lo))) (Z.of_nat k)
  = bool_decide (lo ≤ k < lo + c)%nat.
Proof.
  intros Hc Hk. unfold BITS_PER_WORD. case_bool_decide as E.
  { rewrite max_bits by lia. symmetry. apply bool_decide_eq_true_2. lia. }
  unfold wrap. rewrite Z.mod_pow2_bits_low, Z.shiftl_spec by lia.
  destruct (low_mask c ltac:(lia)) as [_ Hb]. destruct (decide (lo ≤ k)%nat).
  - rewrite Hb by lia. destruct (Z.ltb_spec (Z.of_nat k - Z.of_nat lo) (Z.of_nat c)); symmetry;
      [apply bool_decide_eq_true_2|apply bool_decide_eq_false_2]; lia.
  - rewrite Z.testbit_neg_r by lia. symmetry. apply bool_decide_eq_false_2. lia.
Qed.

Lemma first_mask lo k : (lo < 64)%nat → (k < 64)%nat →
  Z.testbit (not64 (Z.shiftl 1 (Z.of_nat lo) - 1)) (Z.of_nat k) = bool_decide (lo ≤ k)%nat.
Proof.
  intros. rewrite not64_bits, (proj2 (low_mask lo ltac:(lia))) by lia.
  destruct (Z.ltb_spec (Z.of_nat k) (Z.of_nat lo)); symmetry;
    [apply bool_decide_eq_false_2|apply bool_decide_eq_true_2]; lia.
Qed.

Lemma last_mask n k : (n ≤ 64)%nat → (k < 64)%nat →
  Z.testbit (if bool_decide (n = BITS_PER_WORD) then U64_MAX else Z.shiftl 1 (Z.of_nat n) - 1) (Z.of_nat k)
  = bool_decide (k < n)%nat.
Proof.
  intros. unfold BITS_PER_WORD. case_bool_decide.
  { rewrite max_bits by lia. symmetry. apply bool_decide_eq_true_2. lia. }
  rewrite (proj2 (low_mask n ltac:(lia))) by lia.
  destruct (Z.ltb_spec (Z.of_nat k) (Z.of_nat n)); symmetry;
    [apply bool_decide_eq_true_2|apply bool_decide_eq_false_2]; lia.
Qed.

Lemma last_mask_word n : (n ≤ 64)%nat →
  is_word (if bool_decide (n = BITS_PER_WORD) then U64_MAX else Z.shiftl 1 (Z.of_nat n) - 1).
Proof. intros. case_bool_decide; [apply max_word|by apply low_mask]. Qed.

Lemma mid_mask_word c lo :
  is_word (if bool_decide (c = BITS_PER_WORD) then U64_MAX
           else u64 (Z.shiftl (Z.shiftl 1 (Z.of_nat c) - 1) (Z.of_nat lo))).
Proof. case_bool_decide; [apply max_word|by apply (wrap_bound 64)]. Qed.

(** * Ranges, bit by bit *)

Definition in_range (lo hi i : nat) : bool := bool_decide (lo ≤ i < hi)%nat.

Lemma range_words lo hi op : (lo < hi)%nat →
  (range_prog lo hi op).*1 = seq (word_of lo) (S (word_of (hi - 1)) - word_of lo).
Proof.
  intros H. assert (word_of lo ≤ word_of (hi - 1))%nat as Hle.
  { Transparent word_of. apply Nat.Div0.div_le_mono. lia. }
  unfold range_prog.
  generalize dependent (word_of lo). generalize (word_of (hi - 1)). intros h l Hle.
  case_bool_decide as E; cbn [fmap list_fmap fst].
  - subst h. by rewrite Nat.sub_succ_l, Nat.sub_diag by done.
  - rewrite fmap_app, <- list_fmap_compose. cbn [fmap list_fmap fst].
    rewrite (list_fmap_ext _ id) by done. rewrite list_fmap_id.
    replace (S h - l)%nat with (S (h - S l + 1)) by lia. cbn [seq]. f_equal.
    rewrite seq_app. f_equal. cbn. f_equal. lia.
Qed.
#[local] Opaque word_of.

Lemma range_acts lo hi op : (lo < hi)%nat →
  Forall (acts (λ i b, if in_range lo hi i then op_bit op else b)) (range_prog lo hi op).
Proof.
  intros H. pose proof (word_split lo) as El. pose proof (word_split (hi - 1)) as Eh.
  pose proof (Nat.mod_upper_bound lo BITS_PER_WORD ltac:(done)) as Bl.
  pose proof (Nat.mod_upper_bound (hi - 1) BITS_PER_WORD ltac:(done)) as Bh.
  unfold range_prog.
  set (ml := (lo mod BITS_PER_WORD)%nat) in *. set (mh := ((hi - 1) mod BITS_PER_WORD)%nat) in *.
  set (wl := word_of lo) in *. set (wh := word_of (hi - 1)) in *.
  change BITS_PER_WORD with 64%nat in Bl, Bh.
  replace (hi - wh * BITS_PER_WORD)%nat with (S mh) by (change BITS_PER_WORD with 64%nat; lia).
  case_bool_decide as E.
  - apply Forall_singleton. apply acts_masked; [apply mid_mask_word|].
    intros k Hk. rewrite mid_mask by lia. apply bool_decide_ext. lia.
  - assert (wl < wh)%nat by lia. apply Forall_cons. split; [|apply Forall_app; split; [|apply Forall_singleton]].
    + apply acts_masked; [apply not64_word; apply (low_mask ml); lia|].
      intros k Hk. rewrite first_mask by lia. apply bool_decide_ext. lia.
    + rewrite Forall_fmap. apply Forall_seq. intros w Hw. cbn [compose].
      apply (acts_ext (λ _ _, op_bit op)).
      { intros k b Hk. cbn [fst]. unfold in_range. rewrite bool_decide_eq_true_2 by lia. done. }
      destruct op; (apply acts_const; [done|]); intros k Hk; [apply max_bits; lia|apply Z.bits_0].
    + apply acts_masked; [apply last_mask_word; lia|].
      intros k Hk. rewrite last_mask by lia. apply bool_decide_ext. lia.
Qed.

(** * The invariant of a handle *)

Lemma div_ceil_bounds n : (n ≤ div_ceil n BITS_PER_WORD * 64 < n + 64)%nat.
Proof.
  unfold div_ceil, BITS_PER_WORD. pose proof (Nat.div_mod_eq n 64). pose proof (Nat.mod_upper_bound n 64 ltac:(lia)).
  case_bool_decide; lia.
Qed.

(** The words fill the capacity, are 64-bit, and the padding bits of the last
    one are zero. *)
Record wf (v : SharedBitVec) : Prop := {
  wf_cap : (1 ≤ capacity_bits v)%nat;
  wf_count : word_count v = div_ceil (capacity_bits v) BITS_PER_WORD;
  wf_len : length (words v) = word_count v;
  wf_words : Forall is_word (words v);
  wf_pad : ∀ i, (capacity_bits v ≤ i)%nat → bit_at (words v) i = false
}.

Lemma bit_at_out ws i : (length ws ≤ word_of i)%nat → bit_at ws i = false.
Proof. intros H. unfold bit_at. rewrite lookup_ge_None_2 by done. apply Z.bits_0. Qed.

Lemma bit_at_replicate n i : bit_at (replicate n 0) i = false.
Proof.
  unfold bit_at. destruct (replicate n 0 !! word_of i) as [x|] eqn:E; [|apply Z.bits_0].
  apply lookup_replicate in E as [-> _]. apply Z.bits_0.
Qed.

Lemma create_wf cap : (1 ≤ cap)%nat → ∃ v, create cap = Ok v ∧ wf v ∧ abs v = replicate cap false.
Proof.
  intros Hc. unfold create. destruct (Z.leb_spec 1 (Z.of_nat cap)); [|lia]. cbn [assert_ mbind res_bind].
  unfold from_region, init_region. cbn [fst snd magic hdr_capacity_bits hdr_word_count].
  rewrite !Z.eqb_refl. cbn [negb orb]. eexists. split; [done|]. split; [split; cbn; try done|].
  - by rewrite Nat2Z.id.
  - by rewrite length_replicate, Nat2Z.id.
  - apply Forall_replicate. done.
  - intros. apply bit_at_replicate.
  - unfold abs. cbn. apply list_eq. intros i. rewrite list_lookup_fmap. destruct (decide (i < cap)%nat).
    + rewrite lookup_seq_lt, lookup_replicate_2 by done. cbn. by rewrite bit_at_replicate.
    + rewrite lookup_seq_ge by lia. symmetry. apply lookup_replicate_None. lia.
Qed.

Lemma in_words v i : wf v → (i < capacity_bits v)%nat → (word_of i < length (words v))%nat.
Proof.
  intros Hv Hi. rewrite (wf_len _ Hv), (wf_count _ Hv). pose proof (div_ceil_bounds (capacity_bits v)).
  pose proof (word_split i). lia.
Qed.

Lemma abs_length v : length (abs v) = capacity_bits v.
Proof. unfold abs. len. Qed.

Lemma abs_lookup v i : (i < capacity_bits v)%nat → abs v !! i = Some (bit_at (words v) i).
Proof. intros. unfold abs. rewrite list_lookup_fmap, lookup_seq_lt by done. done. Qed.

Lemma abs_lookup_None v i : (capacity_bits v ≤ i)%nat → abs v !! i = None.
Proof. intros. apply lookup_ge_None_2. by rewrite abs_length. Qed.

(** Words whose bits are those of [v] through [h] make a well-formed handle
    that stands for the list through [h]. *)
Lemma update_abs v ws' h :
  wf v → length ws' = length (words v) → Forall is_word ws' →
  (∀ i, (word_of i < length (words v))%nat → bit_at ws' i = h i (bit_at (words v) i)) →
  (∀ i, (capacity_bits v ≤ i)%nat → h i false = false) →
  wf (with_words v ws') ∧ abs (with_words v ws') = imap h (abs v).
Proof.
  intros Hv Hl Hw Hb Hp. split.
  - destruct Hv as [H1 H2 H3 H4 H5]. split; cbn; try done; [by rewrite Hl|].
    intros i Hi. destruct (decide (word_of i < length (words v))%nat).
    + rewrite Hb, H5 by done. auto.
    + apply bit_at_out. lia.
  - apply list_eq. intros i. rewrite list_lookup_imap. destruct (decide (i < capacity_bits v)%nat).
    + rewrite !abs_lookup by done. cbn. by rewrite Hb by by apply in_words.
    + by rewrite !abs_lookup_None by (cbn; lia).
Qed.

(** One access. *)
Lemma rmw_abs v w f h :
  wf v → (w < length (words v))%nat → acts h (w, f) →
  (∀ i b, word_of i ≠ w → h i b = b) → (∀ i, (capacity_bits v ≤ i)%nat → h i false = false) →
  ∃ prev ws', words v !! w = Some prev ∧ rmw f w (words v) = Some (prev, ws') ∧ is_word prev ∧
    wf (with_words v ws') ∧ abs (with_words v ws') = imap h (abs v).
Proof.
  intros Hv Hw Ha Ho Hp. destruct (rmw_bits h f w (words v) Hw (wf_words _ Hv) Ha) as (p & ws' & E1 & E2 & L & W & B).
  exists p, ws'. split; [done|]. split; [done|]. split; [by eapply Forall_lookup_1, E1; apply Hv|].
  apply update_abs; [done..| |done]. intros i _. rewrite B. case_bool_decide; [done|]. by rewrite Ho.
Qed.

(** A list of accesses to distinct words. *)
Lemma accesses_abs v prog h :
  wf v → NoDup prog.*1 → Forall (λ w, w < length (words v))%nat prog.*1 → Forall (acts h) prog →
  (∀ i b, word_of i ∉ prog.*1 → (word_of i < length (words v))%nat → h i b = b) →
  (∀ i, (capacity_bits v ≤ i)%nat → h i false = false) →
  ∃ ws', accesses prog (words v) = Some ws' ∧
    wf (with_words v ws') ∧ abs (with_words v ws') = imap h (abs v).
Proof.
  intros Hv Hn Hl Ha Ho Hp.
  destruct (accesses_bits h prog (words v) Hn Hl (wf_words _ Hv) Ha) as (ws' & E & L & W & B).
  exists ws'. split; [done|]. apply update_abs; [done..| |done]. intros i Hi. rewrite B.
  case_bool_decide; [done|]. by rewrite Ho.
Qed.

(** * Lists of booleans *)

Lemma imap_insert (f : bool → bool) l i b :
  l !! i = Some b → imap (λ j x, if bool_decide (j = i) then f x else x) l = <[i := f b]> l.
Proof.
  intros E. apply list_eq. intros j. rewrite list_lookup_imap. destruct (decide (j = i)) as [->|].
  - rewrite E, list_lookup_insert_eq by by eapply lookup_lt_Some. cbn. by rewrite bool_decide_eq_true_2.
  - rewrite list_lookup_insert_ne by done. rewrite bool_decide_eq_false_2 by done. by destruct (l !! j).
Qed.

Lemma imap_fill lo hi c l : (lo ≤ hi ≤ length l)%nat →
  imap (λ j x, if in_range lo hi j then c else x) l = fill lo hi c l.
Proof.
  intros H. unfold fill, in_range. apply list_eq. intros j. rewrite list_lookup_imap.
  destruct (decide (j < lo)%nat); [|destruct (decide (j < hi)%nat)].
  - rewrite lookup_app_l, lookup_take_lt, bool_decide_eq_false_2 by len. by destruct (l !! j).
  - rewrite lookup_app_r, lookup_app_l, lookup_replicate_2, bool_decide_eq_true_2 by len.
    destruct (lookup_lt_is_Some_2 l j) as [x ->]; [len|done].
  - rewrite !lookup_app_r, lookup_drop, bool_decide_eq_false_2 by len.
    replace (hi + (j - length (take lo l) - length (replicate (hi - lo) c)))%nat with j by len.
    by destruct (l !! j).
Qed.

Lemma imap_const (l : list bool) (c : bool) : imap (λ _ _, c) l = replicate (length l) c.
Proof. induction l as [|x l IH]; [done|]. cbn. f_equal. done. Qed.

Lemma ones_app l k : ones (l ++ k) = (ones l + ones k)%nat.
Proof. unfold ones. rewrite List.filter_app. len. Qed.

Lemma ones_none l : Forall (λ b, b = false) l → ones l = 0%nat.
Proof. induction 1 as [|b l -> _ IH]; [done|]. unfold ones in *. cbn. done. Qed.

Lemma ones_all_clear l : bool_decide (ones l = 0%nat) = forallb negb l.
Proof.
  unfold ones. induction l as [|[] l IH]; [done| |]; cbn; [|done]. by rewrite bool_decide_eq_false_2.
Qed.

Lemma ones_all_set l : (ones l ≤ length l)%nat ∧ bool_decide (ones l = length l) = forallb id l.
Proof.
  unfold ones. induction l as [|[] l [IH1 IH2]]; [done| |]; cbn.
  - split; [lia|]. rewrite <- IH2. apply bool_decide_ext. lia.
  - split; [lia|]. apply bool_decide_eq_false_2. lia.
Qed.

(** * Counting *)

Definition word_bits (x : Z) : list bool := (λ k, Z.testbit x (Z.of_nat k)) <$> seq 0 64.

Lemma count_ones_bits n x :
  Prelude.count_ones n x = ones ((λ k, Z.testbit x (Z.of_nat k)) <$> seq 0 n).
Proof.
  revert x. induction n as [|n IH]; intros x; [done|]. cbn [Prelude.count_ones seq fmap list_fmap].
  change (?b :: ?l) with ([b] ++ l) at 1. rewrite ones_app, IH, <- fmap_S_seq, <- list_fmap_compose.
  rewrite Z.bit0_odd. f_equal; [by destruct (Z.odd x)|]. f_equal. apply list_fmap_ext. intros ? k _.
  cbn [compose]. by rewrite Z.div2_spec, Z.shiftr_spec, Nat2Z.inj_succ by lia.
Qed.

Lemma bit_at_cons x ws i :
  bit_at (x :: ws) i =
    if bool_decide (i < 64)%nat then Z.testbit x (Z.of_nat i) else bit_at ws (i - 64).
Proof.
  Transparent word_of. unfold bit_at, word_of, BITS_PER_WORD. case_bool_decide.
  - by rewrite Nat.div_small, Nat.mod_small by done.
  - replace i with (i - 64 + 1 * 64)%nat at 1 2 by lia.
    rewrite Nat.div_add, Nat.Div0.mod_add, Nat.add_1_r by lia. done.
Qed.
#[local] Opaque word_of.

Lemma all_bits ws :
  ones (bit_at ws <$> seq 0 (length ws * 64)) = sum_list (Prelude.count_ones 64 <$> ws).
Proof.
  induction ws as [|x ws IH]; [done|].
  change (sum_list (Prelude.count_ones 64 <$> x :: ws))
    with (Prelude.count_ones 64 x + sum_list (Prelude.count_ones 64 <$> ws))%nat.
  rewrite <- IH, count_ones_bits. replace (length (x :: ws) * 64)%nat with (64 + length ws * 64)%nat by (cbn [length]; lia).
  rewrite seq_app, fmap_app, ones_app, <- (fmap_add_seq 64 0), <- list_fmap_compose.
  assert (∀ n, (n ≤ 64)%nat → bit_at (x :: ws) <$> seq 0 n = (λ k, Z.testbit x (Z.of_nat k)) <$> seq 0 n) as E1.
  { intros n Hn. apply list_fmap_ext. intros ? k [-> ?]%lookup_seq. rewrite bit_at_cons, bool_decide_eq_true_2 by lia. done. }
  assert (∀ n, bit_at (x :: ws) ∘ Nat.add 64 <$> seq 0 n = bit_at ws <$> seq 0 n) as E2.
  { intros n. apply list_fmap_ext. intros ? k _. cbn [compose]. rewrite bit_at_cons, bool_decide_eq_false_2 by lia.
    by replace (64 + k - 64)%nat with k by lia. }
  by rewrite E1, E2.
Qed.

Lemma fold_words (ws pre : list Z) :
  foldr (λ w acc, x ← (pre ++ ws) !! w; n ← acc; Some (Prelude.count_ones 64 x + n)%nat)
    (Some 0%nat) (seq (length pre) (length ws)) = Some (sum_list (Prelude.count_ones 64 <$> ws)).
Proof.
  revert pre. induction ws as [|x ws IH]; intros pre; [done|]. cbn [length seq foldr fmap list_fmap].
  rewrite (lookup_app_r pre _ (length pre)), Nat.sub_diag by done. specialize (IH (pre ++ [x])).
  replace (length (pre ++ [x])) with (S (length pre)) in IH by len.
  rewrite <- (assoc_L (++)) in IH. cbn [app] in IH. rewrite IH. done.
Qed.

Lemma count_ones_abs v : wf v → count_ones v = Some (ones (abs v)).
Proof.
  intros Hv. unfold count_ones. rewrite <- (wf_len _ Hv).
  pose proof (fold_words (words v) []) as E. cbn [app length] in E. rewrite E, <- all_bits. f_equal. clear E.
  pose proof (div_ceil_bounds (capacity_bits v)) as Hb. rewrite <- (wf_count _ Hv), <- (wf_len _ Hv) in Hb.
  replace (length (words v) * 64)%nat with (capacity_bits v + (length (words v) * 64 - capacity_bits v))%nat by lia.
  rewrite seq_app, fmap_app, ones_app. fold (abs v). rewrite (ones_none (_ <$> seq (0 + _) _)); [lia|].
  rewrite Forall_fmap. apply Forall_seq. intros i Hi. cbn. apply (wf_pad _ Hv). lia.
Qed.

(** * Every call implements its contract *)

Definition implements (v : SharedBitVec) (o : op) : Prop :=
  ∃ v' r, call v o = Some (v', r) ∧ wf v' ∧ spec (abs v) o = (abs v', r).

(** The three writers of one bit differ in the update and in what they
    return. *)
Lemma bit_abs v i f new :
  wf v → (i < capacity_bits v)%nat →
  acts (λ j b, if bool_decide (j = i) then new b else b) (word_of i, f) →
  ∃ prev ws', rmw f (word_of i) (words v) = Some (prev, ws') ∧ wf (with_words v ws') ∧
    negb (Z.land prev (mask_of i) =? 0) = bit_at (words v) i ∧
    <[i := new (bit_at (words v) i)]> (abs v) = abs (with_words v ws').
Proof.
  intros Hv Hi Ha.
  destruct (rmw_abs v (word_of i) f (λ j b, if bool_decide (j = i) then new b else b) Hv)
    as (p & ws' & E1 & E2 & Hp & Hw & Habs); [by apply in_words|done| | |].
  { intros j b Hj. rewrite bool_decide_eq_false_2; [done|]. by intros ->. }
  { intros j Hj. rewrite bool_decide_eq_false_2 by lia. done. }
  exists p, ws'. split; [done|]. split; [done|]. split.
  - rewrite land_mask_of by done. unfold bit_at. by rewrite E1.
  - rewrite Habs. symmetry. by apply imap_insert, abs_lookup.
Qed.

Lemma bit_acts i : 
  (∀ op, acts (λ j b, if bool_decide (j = i) then op_bit op else b) (word_of i, masked op (mask_of i))) ∧
  acts (λ j b, if bool_decide (j = i) then negb b else b) (word_of i, λ p, Z.lxor p (mask_of i)).
Proof.
  split; [intros op; apply (acts_masked (λ j, bool_decide (j = i)))|apply (acts_xor (λ j, bool_decide (j = i)))];
    try apply mask_of_spec; apply mask_of_at.
Qed.

Lemma bit_implements v o i : wf v → o ∈ [OSet i; OClear i; OToggle i; OGet i] → implements v o.
Proof.
  intros Hv Ho. unfold implements. destruct (decide (i < capacity_bits v)%nat) as [Hi|Hi].
  - destruct (bit_acts i) as [Hm Hx].
    assert (check_bounds v i = false) as Ec by (apply bool_decide_eq_false_2; lia).
    repeat (apply elem_of_cons in Ho as [->|Ho]); [..|by apply not_elem_of_nil in Ho];
      cbn [call spec]; unfold set, clear, toggle, get, at_bit; rewrite Ec, abs_lookup by done.
    + destruct (bit_abs v i _ _ Hv Hi (Hm RSet)) as (p & ws' & E & Hw & Hb & Ha).
      unfold fetch_or. cbn [masked] in E. rewrite E. cbn. rewrite Hb. do 2 eexists. split; [done|]. by rewrite <- Ha.
    + destruct (bit_abs v i _ _ Hv Hi (Hm RClear)) as (p & ws' & E & Hw & Hb & Ha).
      unfold fetch_and. cbn [masked] in E. rewrite E. cbn. rewrite Hb. do 2 eexists. split; [done|]. by rewrite <- Ha.
    + destruct (bit_abs v i _ _ Hv Hi Hx) as (p & ws' & E & Hw & Hb & Ha).
      unfold fetch_xor. rewrite E. cbn. rewrite <- (negb_involutive (_ =? 0)), Hb. do 2 eexists. split; [done|]. by rewrite <- Ha.
    + destruct (lookup_lt_is_Some_2 (words v) (word_of i)) as [x Ex]; [by apply in_words|].
      rewrite Ex. cbn. rewrite land_mask_of by (eapply Forall_lookup_1, Ex; apply Hv).
      eexists _, _. split; [done|]. split; [done|]. rewrite list_insert_id by (by apply abs_lookup).
      unfold bit_at. by rewrite Ex.
  - assert (check_bounds v i = true) as Ec by (apply bool_decide_eq_true_2; lia).
    repeat (apply elem_of_cons in Ho as [->|Ho]); [..|by apply not_elem_of_nil in Ho];
      cbn [call spec]; unfold set, clear, toggle, get, at_bit; rewrite Ec, abs_lookup_None by lia; cbn; eauto.
Qed.

Lemma range_implements v op lo hi :
  wf v → ∃ v' r, range op v lo hi = Some (v', r) ∧ wf v' ∧ at_range (abs v) lo hi (op_bit op) = (abs v', RRange r).
Proof.
  intros Hv. unfold range, at_range. rewrite abs_length. destruct (decide (lo ≤ hi ≤ capacity_bits v)%nat) as [H|H].
  - rewrite (bool_decide_eq_false_2 (hi < lo)%nat), (bool_decide_eq_false_2 (capacity_bits v < hi)%nat),
      (bool_decide_eq_true_2 (lo ≤ _ ≤ _)%nat) by lia. cbn [orb].
    rewrite <- imap_fill by (rewrite abs_length; lia). case_bool_decide as E.
    { subst hi. eexists _, _. split; [done|]. split; [done|]. f_equal. apply list_eq. intros i.
      rewrite list_lookup_imap. unfold in_range. rewrite bool_decide_eq_false_2 by lia. by destruct (_ !! i). }
    assert (word_of (hi - 1) < length (words v))%nat as Hh by (apply in_words; [done|lia]).
    destruct (accesses_abs v (range_prog lo hi op) (λ i b, if in_range lo hi i then op_bit op else b) Hv)
      as (ws' & E1 & E2 & E3).
    + rewrite range_words by lia. apply NoDup_seq.
    + rewrite range_words by lia. apply Forall_seq. intros w Hw. lia.
    + apply range_acts. lia.
    + intros i b Hn _. rewrite range_words, elem_of_seq in Hn by lia. unfold in_range.
      rewrite bool_decide_eq_false_2; [done|]. pose proof (word_split i). pose proof (word_split lo).
      pose proof (word_split (hi - 1)). pose proof (Nat.mod_upper_bound i BITS_PER_WORD ltac:(done)).
      pose proof (Nat.mod_upper_bound lo BITS_PER_WORD ltac:(done)).
      pose proof (Nat.mod_upper_bound (hi - 1) BITS_PER_WORD ltac:(done)). change BITS_PER_WORD with 64%nat in *. lia.
    + intros i Hi. unfold in_range. rewrite bool_decide_eq_false_2 by lia. done.
    + unfold range_op. rewrite E1. cbn. eexists _, _. rewrite <- E3. eauto.
  - rewrite (bool_decide_eq_false_2 (lo ≤ _ ≤ _)%nat) by done.
    assert (bool_decide (hi < lo)%nat || bool_decide (capacity_bits v < hi)%nat = true) as ->; [|eauto].
    apply orb_true_iff. rewrite !bool_decide_eq_true. lia.
Qed.

Lemma set_all_implements v :
  wf v → ∃ v', set_all v = Some v' ∧ wf v' ∧ abs v' = replicate (capacity_bits v) true.
Proof.
  intros Hv. unfold set_all. pose proof (div_ceil_bounds (capacity_bits v)) as Hb.
  pose proof (wf_cap _ Hv) as H1. pose proof (wf_len _ Hv) as Hl. rewrite <- (wf_count _ Hv) in Hb.
  rewrite bool_decide_eq_false_2 by lia. change BITS_PER_WORD with 64%nat.
  set (full := (word_count v - 1)%nat) in *. set (n := (capacity_bits v - full * 64)%nat).
  set (prog := _ ++ _). assert (prog.*1 = seq 0 (word_count v)) as Ep.
  { unfold prog. rewrite fmap_app, <- list_fmap_compose. cbn [fmap list_fmap fst].
    rewrite (list_fmap_ext _ id) by done. rewrite list_fmap_id.
    replace (word_count v) with (full + 1)%nat by lia. by rewrite seq_app. }
  destruct (accesses_abs v prog (λ i _, bool_decide (i < capacity_bits v)%nat) Hv) as (ws' & E1 & E2 & E3).
  - rewrite Ep. apply NoDup_seq.
  - rewrite Ep. apply Forall_seq. lia.
  - apply Forall_app. split; [|apply Forall_singleton].
    + rewrite Forall_fmap. apply Forall_seq. intros w Hw. cbn [compose].
      apply (acts_const (λ i, bool_decide (i < capacity_bits v)%nat)); [done|].
      intros k Hk. rewrite max_bits, bool_decide_eq_true_2 by lia. done.
    + apply (acts_const (λ i, bool_decide (i < capacity_bits v)%nat)); [apply last_mask_word; lia|].
      intros k Hk. rewrite last_mask by lia. apply bool_decide_ext. lia.
  - intros i b Hn Hi. rewrite Ep, elem_of_seq in Hn. lia.
  - intros i Hi. apply bool_decide_eq_false_2. lia.
  - rewrite E1. cbn. eexists. split; [done|]. split; [done|]. rewrite E3, <- abs_length, <- imap_const.
    apply imap_ext. intros i b Hi%lookup_lt_Some. rewrite abs_length in *. by apply bool_decide_eq_true_2.
Qed.

Lemma clear_all_implements v :
  wf v → ∃ v', clear_all v = Some v' ∧ wf v' ∧ abs v' = replicate (capacity_bits v) false.
Proof.
  intros Hv. unfold clear_all. pose proof (wf_len _ Hv) as Hl. set (prog := _ <$> _).
  assert (prog.*1 = seq 0 (word_count v)) as Ep.
  { unfold prog. rewrite <- list_fmap_compose, (list_fmap_ext _ id) by done. apply list_fmap_id. }
  destruct (accesses_abs v prog (λ _ _, false) Hv) as (ws' & E1 & E2 & E3).
  - rewrite Ep. apply NoDup_seq.
  - rewrite Ep. apply Forall_seq. lia.
  - unfold prog. rewrite Forall_fmap. apply Forall_seq. intros w Hw. cbn [compose].
    apply (acts_const (λ _, false)); [done|]. intros. apply Z.bits_0.
  - intros i b Hn Hi. rewrite Ep, elem_of_seq in Hn. lia.
  - done.
  - rewrite E1. cbn. eexists. split; [done|]. split; [done|]. by rewrite E3, imap_const, abs_length.
Qed.

Lemma call_implements v o : wf v → implements v o.
Proof.
  intros Hv. pose proof (count_ones_abs v Hv) as Ec. destruct (ones_all_set (abs v)) as [_ Es].
  rewrite abs_length in Es.
  destruct o as [i|i|i|i|lo hi|lo hi| | | | | |]; try (by eapply (bit_implements v _ i); [|set_solver]).
  - destruct (range_implements v RSet lo hi Hv) as (v' & r & E & Hw & Ha). exists v', (RRange r).
    cbn [call spec]. unfold set_range. by rewrite E, <- Ha.
  - destruct (range_implements v RClear lo hi Hv) as (v' & r & E & Hw & Ha). exists v', (RRange r).
    cbn [call spec]. unfold clear_range. by rewrite E, <- Ha.
  - exists v, (RCount (ones (abs v))). cbn [call]. by rewrite Ec.
  - exists v, (RCount (length (abs v) - ones (abs v))). cbn [call spec]. unfold count_zeros. by rewrite Ec, abs_length.
  - exists v, (RIs (forallb id (abs v))). cbn [call]. unfold is_all_set. rewrite Ec. cbn [mbind option_bind].
    by rewrite Es.
  - exists v, (RIs (forallb negb (abs v))). cbn [call]. unfold is_all_clear. rewrite Ec. cbn [mbind option_bind].
    by rewrite ones_all_clear.
  - destruct (set_all_implements v Hv) as (v' & E & Hw & Ha). exists v', RDone. cbn [call spec].
    by rewrite E, abs_length, Ha.
  - destruct (clear_all_implements v Hv) as (v' & E & Hw & Ha). exists v', RDone. cbn [call spec].
    by rewrite E, abs_length, Ha.
Qed.

(** * Theorems *)

(** C38: the shared bit vector is an array of booleans. From a fresh vector of
    any capacity, every sequence of calls of the twelve operations (single
    bits, ranges, counts, whole-vector fills) returns what the same calls
    return on a list of that many booleans, leaves the words standing for that
    list, and touches no word outside the region; the words keep their width
    and the padding bits of the last one stay zero. *)
Theorem bit_vec_refines cap os :
  (1 ≤ cap)%nat →
  ∃ v v' rs, create cap = Ok v ∧ calls v os = Some (v', rs) ∧ wf v' ∧
    specs (replicate cap false) os = (abs v', rs).
Proof.
  intros Hc. destruct (create_wf cap Hc) as (v & E & Hv & Ha). exists v. rewrite <- Ha.
  enough (∃ v' rs, calls v os = Some (v', rs) ∧ wf v' ∧ specs (abs v) os = (abs v', rs)) as (v' & rs & H) by eauto.
  clear E Ha. revert v Hv. induction os as [|o os IH]; intros v Hv; cbn [calls specs]; [eauto|].
  destruct (call_implements v o Hv) as (v1 & r & E1 & H1 & S1).
  destruct (IH v1 H1) as (v2 & rs & E2 & H2 & S2). exists v2, (r :: rs).
  rewrite E1, S1. cbn [mbind option_bind]. by rewrite E2, S2.
Qed.

Lemma bit_vec_refines_witness :
  ∃ v v' rs, create 130 = Ok v ∧ calls v [OSetRange 60 129; OToggle 64; OCountOnes] = Some (v', rs) ∧ wf v' ∧
    specs (replicate 130 false) [OSetRange 60 129; OToggle 64; OCountOnes] = (abs v', rs).
Proof. apply bit_vec_refines. lia. Defined.

(** A range operation acts on each bit once. Its accesses go to the words
    of the range in order, each once; and in whatever state the words are when
    an access is made, whatever other handles did since the one before, it
    sets (or clears) the bits of the range that lie in its word and leaves
    every other bit of the vector as it is. So no concurrent update of a bit
    outside the range is lost, although the interior words are overwritten. *)
Lemma range_bitwise lo hi op ws w f :
  (lo < hi)%nat → (w, f) ∈ range_prog lo hi op → (w < length ws)%nat → Forall is_word ws →
  (range_prog lo hi op).*1 = seq (lo / 64) (S ((hi - 1) / 64) - lo / 64) ∧
  ∃ prev ws', rmw f w ws = Some (prev, ws') ∧ length ws' = length ws ∧ Forall is_word ws' ∧
    ∀ i, bit_at ws' i =
      if bool_decide (i / 64 = w)%nat && bool_decide (lo ≤ i < hi)%nat then op_bit op else bit_at ws i.
Proof.
  intros Hr Hin Hw Hws. split; [by apply range_words|].
  pose proof (range_acts lo hi op Hr) as Ha. rewrite Forall_forall in Ha.
  destruct (rmw_bits _ f w ws Hw Hws (Ha _ Hin)) as (p & ws' & _ & E & L & W & B).
  exists p, ws'. repeat (split; [done|]). intros i. rewrite B. change (i / 64)%nat with (word_of i).
  unfold in_range. by destruct (bool_decide (word_of i = w)), (bool_decide (lo ≤ i < hi)%nat).
Qed.

Lemma range_bitwise_example :
  (range_prog 60 129 RSet).*1 = seq 0 3 ∧
  ∃ prev ws', rmw (filled RSet) 1 [1; 2; 3] = Some (prev, ws') ∧ length ws' = 3%nat ∧ Forall is_word ws' ∧
    ∀ i, bit_at ws' i =
      if bool_decide (i / 64 = 1)%nat && bool_decide (60 ≤ i < 129)%nat then true else bit_at [1; 2; 3] i.
Proof.
  apply (range_bitwise 60 129 RSet [1; 2; 3] 1 (filled RSet)); [lia| |cbn; lia|by repeat constructor].
  right. left.
Qed.
