(* ===== verification/Bloom.v ===== *)
(** Bloom filters: [crates/subetha-cxc/src/shared_bloom_filter.rs] and
    [shared_blocked_bloom_filter.rs].

    Both filters set, for an inserted item, the bits that the item's hashes
    choose, one atomic [fetch_or] each, and answer a query by reading the same
    bits until one is clear. [Hashing] is what they share with the other
    sketches; [Bloom] keeps its bits in a [SharedBitVec], [Blocked] in the
    eight words of one block. [MembershipFilter] is what the concurrent
    semantics needs of either: the words and masks an item probes.

    Handles run concurrently: every access to a word is a step, so the inserts,
    queries and clears of any number of handles may be interleaved anywhere.
    The theorems: the sequential code makes exactly the accesses of the
    interface ([bloom_calls_probe], [blocked_calls_probe]), and no run gives a
    false negative ([filter_no_false_negatives]). *)
From S2P Require Import Prelude BitVec.

(** * Hashing *)

Definition FNV_OFFSET_BASIS_1 : Z := 0xcbf29ce484222325.
Definition FNV_OFFSET_BASIS_2 : Z := 0x84222325cbf29ce4.
Definition FNV_PRIME : Z := 0x100000001b3.

Abbreviation item := (list Z).

Definition fnv1a_seeded (bytes : item) (basis : Z) : Z :=
  fold_left (λ h b, u64 (Z.lxor h b * FNV_PRIME)) bytes basis.

Definition xor_shift (h : Z) : Z := Z.lxor h (Z.shiftr h 33).

Definition fmix64 (h : Z) : Z :=
  let h := xor_shift h in
  let h := u64 (h * 0xff51afd7ed558ccd) in
  let h := xor_shift h in
  let h := u64 (h * 0xc4ceb9fe1a85ec53) in
  xor_shift h.

Definition hash1 (x : item) : Z := fmix64 (fnv1a_seeded x FNV_OFFSET_BASIS_1).
Definition hash2 (x : item) : Z := fmix64 (fnv1a_seeded x FNV_OFFSET_BASIS_2).

(** Lemire's fastrange, [(h as u128 * n as u128) >> 64]. *)
Definition fastrange (h n : Z) : Z := Z.shiftr (h * n) 64.

Lemma fastrange_bound h n : is_word h → 0 < n → 0 ≤ fastrange h n < n.
Proof.
  intros Hh Hn. unfold fastrange. rewrite Z.shiftr_div_pow2 by lia. unfold is_word in Hh. split.
  - apply Z.div_pos; lia.
  - apply Z.div_lt_upper_bound; nia.
Qed.

Lemma xor_shift_word h : is_word h → is_word (xor_shift h).
Proof.
  intros Hh. apply lxor_word; [done|]. split; [apply Z.shiftr_nonneg; apply Hh|].
  rewrite Z.shiftr_div_pow2 by lia. unfold is_word in Hh. apply Z.div_lt_upper_bound; lia.
Qed.

Lemma fmix64_word h : is_word h → is_word (fmix64 h).
Proof. intros. apply xor_shift_word. by apply (wrap_bound 64). Qed.

Lemma fnv1a_word bytes basis : is_word basis → is_word (fnv1a_seeded bytes basis).
Proof.
  unfold fnv1a_seeded. revert basis. induction bytes as [|b bs IH]; intros basis H; [done|].
  apply IH. by apply (wrap_bound 64).
Qed.

Lemma hash_words x : is_word (hash1 x) ∧ is_word (hash2 x).
Proof. split; apply fmix64_word, fnv1a_word; done. Qed.

(** * The standard filter *)

Inductive BloomError := BitVec (e : BitVecError) | BloomLayoutMismatch | InvalidConfig.

Definition BLOOM_MAGIC : Z := 0x4150424C4F4F4D31.

Record BloomHeader := { bmagic : Z; hdr_n_bits : Z; hdr_n_hashes : Z }.

Record SharedBloomFilter := { bits : SharedBitVec; n_bits : Z; n_hashes : nat }.

Definition bloom_init_region (n_bits : nat) (n_hashes : nat) : BloomHeader :=
  {| bmagic := BLOOM_MAGIC; hdr_n_bits := Z.of_nat n_bits; hdr_n_hashes := Z.of_nat n_hashes |}.

Definition check_header (hdr : BloomHeader) (n_bits n_hashes : nat) : res BloomError unit :=
  if negb (bmagic hdr =? BLOOM_MAGIC) || negb (hdr_n_bits hdr =? Z.of_nat n_bits)
     || negb (hdr_n_hashes hdr =? Z.of_nat n_hashes)
  then Err BloomLayoutMismatch else Ok tt.

Definition assemble (v : SharedBitVec) (n_bits n_hashes : nat) : SharedBloomFilter :=
  {| bits := v; n_bits := Z.of_nat n_bits; n_hashes := n_hashes |}.

(** [From<BitVecError>], the conversion of [?]. *)
Definition from_bit_vec {A} (r : res BitVecError A) : res BloomError A :=
  match r with Ok a => Ok a | Err e => Err (BitVec e) | Panic => Panic end.

(** [create] against the header that is at the path: its own, freshly laid
    out, or the one an earlier [create] left there. *)
Definition bloom_create (hdr : BloomHeader) (vec : nat → res BitVecError SharedBitVec)
    (n_bits n_hashes : nat) : res BloomError SharedBloomFilter :=
  if bool_decide (n_bits = 0%nat) || bool_decide (n_hashes = 0%nat) then Err InvalidConfig
  else
    _ ← check_header hdr n_bits n_hashes;
    v ← from_bit_vec (vec n_bits);
    Ok (assemble v n_bits n_hashes).

Definition position (n_bits h1 h2 i : Z) : nat :=
  let h := u64 (h1 + u64 (i * h2)) in Z.to_nat (fastrange h n_bits).

Definition positions (n_bits : Z) (n_hashes : nat) (x : item) : list nat :=
  (λ i, position n_bits (hash1 x) (hash2 x) (Z.of_nat i)) <$> seq 0 n_hashes.

(** The loop of [insert]: one [set] per position, [?] on each. *)
Fixpoint set_loop (v : SharedBitVec) (ps : list nat) : option (SharedBitVec * res BloomError unit) :=
  match ps with
  | [] => Some (v, Ok tt)
  | p :: ps =>
      '(v, r) ← BitVec.set v p;
      match from_bit_vec r with
      | Ok _ => set_loop v ps
      | Err e => Some (v, Err e)
      | Panic => Some (v, Panic)
      end
  end.

Definition with_bits (b : SharedBloomFilter) (v : SharedBitVec) : SharedBloomFilter :=
  {| bits := v; n_bits := n_bits b; n_hashes := n_hashes b |}.

Definition bloom_insert (b : SharedBloomFilter) (x : item) : option (SharedBloomFilter * res BloomError unit) :=
  '(v, r) ← set_loop (bits b) (positions (n_bits b) (n_hashes b) x); Some (with_bits b v, r).

(** The loop of [contains]: it ends at the first clear bit. *)
Fixpoint get_loop (v : SharedBitVec) (ps : list nat) : option (res BloomError bool) :=
  match ps with
  | [] => Some (Ok true)
  | p :: ps =>
      '(_, r) ← BitVec.get v p;
      match from_bit_vec r with
      | Ok true => get_loop v ps
      | Ok false => Some (Ok false)
      | Err e => Some (Err e)
      | Panic => Some Panic
      end
  end.

Definition bloom_contains (b : SharedBloomFilter) (x : item) : option (res BloomError bool) :=
  get_loop (bits b) (positions (n_bits b) (n_hashes b) x).

Definition bloom_clear (b : SharedBloomFilter) : option SharedBloomFilter :=
  v ← clear_all (bits b); Some (with_bits b v).

(** * The blocked filter *)

Definition BLOCK_BITS : Z := 512.
Definition BLOCK_WORDS : Z := BLOCK_BITS / 64.
Definition BLOCKED_BLOOM_MAGIC : Z := 0x42504C4F4F4D4231.
Definition GOLDEN : Z := 0x9e3779b97f4a7c15.

Inductive BlockedBloomError := BlockedLayoutMismatch | BlockedInvalidConfig.

Record BlockedBloomHeader := { bb_magic : Z; bb_n_blocks : Z; bb_n_hashes : Z }.

Record SharedBlockedBloomFilter := { n_blocks : Z; k_hashes : nat; block_words : list Z }.

Definition blocked_bloom_file_size (n_blocks : Z) : Z := u64 (64 + u64 (u64 (n_blocks * BLOCK_WORDS) * 8)).

(** [n_bits.div_ceil(BLOCK_BITS).max(1)]. *)
Definition blocks_for (n_bits : Z) : Z :=
  Z.max 1 (if n_bits mod BLOCK_BITS =? 0 then n_bits / BLOCK_BITS else n_bits / BLOCK_BITS + 1).

Definition blocked_init_region (n_blocks : Z) (n_hashes : nat) : BlockedBloomHeader * list Z :=
  ({| bb_magic := BLOCKED_BLOOM_MAGIC; bb_n_blocks := n_blocks; bb_n_hashes := Z.of_nat n_hashes |},
   replicate (Z.to_nat (n_blocks * BLOCK_WORDS)) 0).

Definition blocked_from_region (r : BlockedBloomHeader * list Z) (n_blocks : Z) (n_hashes : nat)
    : res BlockedBloomError SharedBlockedBloomFilter :=
  let hdr := r.1 in
  if negb (bb_magic hdr =? BLOCKED_BLOOM_MAGIC) || negb (bb_n_blocks hdr =? n_blocks)
     || negb (bb_n_hashes hdr =? Z.of_nat n_hashes)
  then Err BlockedLayoutMismatch
  else Ok {| n_blocks := n_blocks; k_hashes := n_hashes; block_words := r.2 |}.

(** [reset], and [create] on a path that does not exist. *)
Definition blocked_create (n_bits : Z) (n_hashes : nat) : res BlockedBloomError SharedBlockedBloomFilter :=
  if (n_bits =? 0) || bool_decide (n_hashes = 0%nat) then Err BlockedInvalidConfig
  else blocked_from_region (blocked_init_region (blocks_for n_bits) n_hashes) (blocks_for n_bits) n_hashes.

Definition block_word (block w : Z) : nat := Z.to_nat (block * BLOCK_WORDS + w).

Definition locate (n_blocks : Z) (x : item) : Z * Z := (fastrange (hash1 x) n_blocks, hash2 x).

Definition bit_in_block (h2 i : Z) : Z :=
  let src := if i <? 7 then Z.shiftr h2 (i * 9) else fmix64 (u64 (h2 + u64 (i * GOLDEN))) in
  Z.land src (BLOCK_BITS - 1).

(** The bits of the loops of [insert] and [contains]. *)
Definition block_bits (n_hashes : nat) (h2 : Z) : list Z :=
  (λ i, bit_in_block h2 (Z.of_nat i)) <$> seq 0 n_hashes.

Fixpoint or_loop (block : Z) (bs : list Z) (ws : list Z) : option (list Z) :=
  match bs with
  | [] => Some ws
  | bit :: bs =>
      '(_, ws) ← fetch_or (u64 (Z.shiftl 1 (bit mod 64))) (block_word block (bit / 64)) ws;
      or_loop block bs ws
  end.

Definition blocked_insert (b : SharedBlockedBloomFilter) (x : item) : option SharedBlockedBloomFilter :=
  let (block, h2) := locate (n_blocks b) x in
  ws ← or_loop block (block_bits (k_hashes b) h2) (block_words b);
  Some {| n_blocks := n_blocks b; k_hashes := k_hashes b; block_words := ws |}.

Fixpoint test_loop (block : Z) (bs : list Z) (ws : list Z) : option bool :=
  match bs with
  | [] => Some true
  | bit :: bs =>
      x ← ws !! block_word block (bit / 64);
      if Z.land x (u64 (Z.shiftl 1 (bit mod 64))) =? 0 then Some false else test_loop block bs ws
  end.

Definition blocked_contains (b : SharedBlockedBloomFilter) (x : item) : option bool :=
  let (block, h2) := locate (n_blocks b) x in
  test_loop block (block_bits (k_hashes b) h2) (block_words b).

(** [clear] stores through [word(0, i)] for every word of every block. *)
Definition blocked_clear (b : SharedBlockedBloomFilter) : option SharedBlockedBloomFilter :=
  let n := Z.to_nat (n_blocks b * BLOCK_WORDS) in
  ws ← accesses ((λ i, (block_word 0 (Z.of_nat i), λ _, 0)) <$> seq 0 n) (block_words b);
  Some {| n_blocks := n_blocks b; k_hashes := k_hashes b; block_words := ws |}.

(** * The interface of a filter *)

(** One probe: a word of the region and the mask of one bit of it. *)
Definition probe : Type := nat * Z.

(** What the concurrent semantics needs: how many words the region has, which
    bits of which words an item probes, in the order of the code's loops, and
    that they lie in the region. *)
Class MembershipFilter := {
  n_words : nat;
  probes : item → list probe;
  probes_in : ∀ x w m, (w, m) ∈ probes x → (w < n_words)%nat ∧ ∃ k, 0 ≤ k < 64 ∧ m = 2 ^ k
}.

Definition probe_or (p : probe) : access := (p.1, λ x, Z.lor x p.2).
Definition hit (ws : list Z) (p : probe) : bool :=
  match ws !! p.1 with Some x => negb (Z.land x p.2 =? 0) | None => false end.

(** * Concurrent handles *)

Inductive call := CInsert (x : item) | CContains (x : item) | CClear.

(** Where a handle is. [tainted]: a clear has run since the insert began;
    [due]: the item was a member when the query began, and no clear has begun
    since. Both are ghosts of the specification. *)
Inductive thread :=
| Idle
| Inserting (x : item) (rest : list probe) (tainted : bool)
| Querying (x : item) (rest : list probe) (due : bool)
| Clearing (w : nat).

(** [members], a ghost: the items whose insert has returned and began after
    the last clear. *)
Record state := { ws : list Z; members : list item; threads : list thread }.

Inductive label := Tau | Inserted (x : item) | Answer (x : item) (due : bool) (found : bool) | Cleared.

Definition clearing (t : thread) : bool := match t with Clearing _ => true | _ => false end.

(** A clear begins: what was promised before it no longer is. *)
Definition taint (t : thread) : thread :=
  match t with
  | Inserting x rest _ => Inserting x rest true
  | Querying x rest _ => Querying x rest false
  | t => t
  end.

Definition put (s : state) (i : nat) (t : thread) : state :=
  {| ws := ws s; members := members s; threads := <[i := t]> (threads s) |}.
Definition put_ws (s : state) (w : list Z) : state :=
  {| ws := w; members := members s; threads := threads s |}.
Definition put_members (s : state) (m : list item) : state :=
  {| ws := ws s; members := m; threads := threads s |}.

Section machine.
Context `{MembershipFilter}.

Definition begin (s : state) (i : nat) (c : call) : option state :=
  match threads s !! i with
  | Some Idle => Some
      match c with
      | CInsert x => put s i (Inserting x (probes x) (existsb clearing (threads s)))
      | CContains x => put s i (Querying x (probes x) (bool_decide (x ∈ members s)))
      | CClear => put {| ws := ws s; members := []; threads := taint <$> threads s |} i (Clearing 0)
      end
  | _ => None
  end.

Definition advance (s : state) (i : nat) : option (label * state) :=
  match threads s !! i with
  | Some (Inserting x [] tainted) =>
      Some (Inserted x, put (if tainted then s else put_members s (x :: members s)) i Idle)
  | Some (Inserting x (p :: rest) tainted) =>
      '(_, w) ← rmw (probe_or p).2 p.1 (ws s); Some (Tau, put (put_ws s w) i (Inserting x rest tainted))
  | Some (Querying x [] due) => Some (Answer x due true, put s i Idle)
  | Some (Querying x (p :: rest) due) =>
      v ← ws s !! p.1;
      Some (if Z.land v p.2 =? 0 then (Answer x due false, put s i Idle)
            else (Tau, put s i (Querying x rest due)))
  | Some (Clearing w) =>
      if bool_decide (w < n_words)%nat
      then '(_, v) ← store 0 w (ws s); Some (Tau, put (put_ws s v) i (Clearing (S w)))
      else Some (Cleared, put s i Idle)
  | _ => None
  end.

Inductive step : state → label → state → Prop :=
| step_begin s i c s' : begin s i c = Some s' → step s Tau s'
| step_advance s i l s' : advance s i = Some (l, s') → step s l s'.

Definition init (n : nat) : state :=
  {| ws := replicate n_words 0; members := []; threads := replicate n Idle |}.

(** * The invariant *)

Definition set_bit (w : list Z) (p : probe) : Prop := hit w p = true.

Definition thread_ok (w : list Z) (ms : list item) (t : thread) : Prop :=
  match t with
  | Idle => True
  | Inserting x rest tainted =>
      ∃ done, probes x = done ++ rest ∧ (tainted = false → Forall (set_bit w) done)
  | Querying x rest due => ∃ done, probes x = done ++ rest ∧ (due = true → x ∈ ms)
  | Clearing k => (k ≤ n_words)%nat ∧ ms = []
  end.

(** While a clear runs nothing is promised. *)
Definition unpromised (t : thread) : Prop :=
  match t with Inserting _ _ d => d = true | Querying _ _ d => d = false | _ => True end.

Record inv (s : state) : Prop := {
  inv_len : length (ws s) = n_words;
  inv_members : Forall (λ x, Forall (set_bit (ws s)) (probes x)) (members s);
  inv_threads : Forall (thread_ok (ws s) (members s)) (threads s);
  inv_clear : existsb clearing (threads s) = true → Forall unpromised (threads s)
}.

(** * Bits once set stay set *)

Lemma land_lor_keep x m m' : Z.land x m' ≠ 0 → Z.land (Z.lor x m) m' ≠ 0.
Proof. rewrite Z.land_lor_distr_l. intros H1 H2%Z.lor_eq_0_iff. tauto. Qed.

Lemma land_lor_new x m : m ≠ 0 → Z.land (Z.lor x m) m ≠ 0.
Proof. intros Hm. rewrite Z.land_lor_distr_l, Z.land_diag. intros H1%Z.lor_eq_0_iff. tauto. Qed.

Lemma set_bit_lookup w p : set_bit w p ↔ ∃ x, w !! p.1 = Some x ∧ Z.land x p.2 ≠ 0.
Proof.
  unfold set_bit, hit. destruct (w !! p.1) as [x|]; [|naive_solver].
  rewrite negb_true_iff, Z.eqb_neq. naive_solver.
Qed.

Lemma or_keeps w p old w' q : rmw (probe_or p).2 p.1 w = Some (old, w') → set_bit w q → set_bit w' q.
Proof.
  unfold rmw. destruct (w !! p.1) as [x|] eqn:E; [|done]. cbn. intros [= <- <-].
  rewrite !set_bit_lookup. intros (y & Ey & Hy). destruct (decide (q.1 = p.1)) as [Eq|].
  - rewrite Eq in Ey |- *. rewrite E in Ey. injection Ey as <-. exists (Z.lor x p.2).
    split; [by apply list_lookup_insert_eq; eapply lookup_lt_Some|by apply land_lor_keep].
  - exists y. by rewrite list_lookup_insert_ne.
Qed.

Lemma or_sets w p old w' : p.2 ≠ 0 → rmw (probe_or p).2 p.1 w = Some (old, w') → set_bit w' p.
Proof.
  unfold rmw. destruct (w !! p.1) as [x|] eqn:E; [|done]. cbn. intros Hm [= <- <-].
  rewrite set_bit_lookup. exists (Z.lor x p.2).
  split; [by apply list_lookup_insert_eq; eapply lookup_lt_Some|by apply land_lor_new].
Qed.

Lemma rmw_length f w l old l' : rmw f w l = Some (old, l') → length l' = length l.
Proof. unfold rmw. destruct (l !! w); cbn; [|done]. intros [= <- <-]. len. Qed.

Lemma probe_nonzero x p done rest : probes x = done ++ p :: rest → p.2 ≠ 0.
Proof.
  intros E. destruct p as [w m]. destruct (probes_in x w m) as (_ & k & Hk & ->).
  { rewrite E. mem. }
  cbn. pose proof (Z.pow_pos_nonneg 2 k). lia.
Qed.

Lemma thread_ok_mono w ms w' ms' t :
  (∀ p, set_bit w p → set_bit w' p) → (∀ x, x ∈ ms → x ∈ ms') → (ms = [] → clearing t = true → ms' = []) →
  thread_ok w ms t → thread_ok w' ms' t.
Proof.
  intros Hw Hm Hc. destruct t as [|x rest d|x rest d|k]; cbn; [done| | |naive_solver].
  - intros (dn & E & Hd). exists dn. split; [done|]. intros Hf. eapply Forall_impl; [by apply Hd|]. done.
  - intros (dn & E & Hd). exists dn. split; [done|]. auto.
Qed.

(** What nothing was promised to survives any change of the words. *)
Lemma thread_ok_unpromised w w' ms ms' t :
  unpromised t → (clearing t = true → ms' = []) → thread_ok w ms t → thread_ok w' ms' t.
Proof. destruct t as [|x rest d|x rest d|k]; cbn; naive_solver. Qed.

Lemma existsb_insert ts i t :
  existsb clearing (<[i := t]> ts) = true → clearing t = true ∨ existsb clearing ts = true.
Proof.
  intros (u & Hin & Hu)%existsb_exists. apply list_elem_of_In, list_elem_of_lookup_1 in Hin as [j Hj].
  destruct (decide (i = j)) as [->|].
  - apply list_lookup_insert_Some in Hj as [(_ & <- & _)|[? _]]; [by left|done].
  - rewrite list_lookup_insert_ne in Hj by done. right. apply existsb_exists. exists u.
    split; [|done]. by apply list_elem_of_In, (list_elem_of_lookup_2 _ j).
Qed.

Lemma clearing_members s : inv s → existsb clearing (threads s) = true → members s = [].
Proof.
  intros Hi (t & Hin%list_elem_of_In & Ht)%existsb_exists. destruct Hi as [_ _ Hts _].
  rewrite Forall_forall in Hts. specialize (Hts t Hin). destruct t; naive_solver.
Qed.

(** Replacing a thread by one that is not clearing. *)
Lemma inv_put s i t :
  inv s → thread_ok (ws s) (members s) t → clearing t = false →
  (existsb clearing (threads s) = true → unpromised t) → inv (put s i t).
Proof.
  intros [H1 H2 H3 H4] Ht Hc Hu. split; cbn; [done|done|by apply Forall_insert|].
  intros [?|E]%existsb_insert; [congruence|]. apply Forall_insert; auto.
Qed.

Lemma begin_inv s i c s' : inv s → begin s i c = Some s' → inv s'.
Proof.
  unfold begin. intros Hi. destruct (threads s !! i) as [[| | |]|] eqn:Ei; try done.
  intros [= <-]. destruct c as [x|x|].
  - apply inv_put; [done| |done|done]. exists []. split; [done|constructor].
  - apply inv_put; [done| |done|].
    + exists []. split; [done|]. by intros ?%bool_decide_eq_true.
    + intros Hc. cbn. rewrite (clearing_members s Hi Hc). by apply bool_decide_eq_false_2, not_elem_of_nil.
  - destruct Hi as [H1 H2 H3 H4]. split; cbn; [done|constructor| |].
    + apply Forall_insert; [|cbn; split; [lia|done]]. rewrite Forall_fmap. eapply Forall_impl; [done|].
      intros [| | |]; cbn; naive_solver.
    + intros _. apply Forall_insert; [|done]. rewrite Forall_fmap. apply Forall_true. by intros [].
Qed.

(** The one step that clears bits. *)
Lemma store_inv s i w old v :
  inv s → threads s !! i = Some (Clearing w) → (w < n_words)%nat → store 0 w (ws s) = Some (old, v) →
  inv (put (put_ws s v) i (Clearing (S w))).
Proof.
  intros Hi Ei Hw E. assert (existsb clearing (threads s) = true) as Hc.
  { apply existsb_exists. exists (Clearing w). split; [|done]. by apply list_elem_of_In, (list_elem_of_lookup_2 _ i). }
  pose proof (clearing_members s Hi Hc) as Hm. destruct Hi as [H1 H2 H3 H4]. split; cbn.
  - rewrite <- H1. by eapply rmw_length.
  - rewrite Hm. constructor.
  - apply Forall_insert; [|cbn; split; [lia|done]]. specialize (H4 Hc).
    eapply Forall_impl; [by apply Forall_and; split; [apply H4|apply H3]|]. cbn.
    intros t [Hu Ht]. by apply (thread_ok_unpromised (ws s) _ (members s)).
  - intros _. apply Forall_insert; [by apply H4|done].
Qed.

Lemma or_inv s i x p rest d old v :
  inv s → threads s !! i = Some (Inserting x (p :: rest) d) → rmw (probe_or p).2 p.1 (ws s) = Some (old, v) →
  inv (put (put_ws s v) i (Inserting x rest d)).
Proof.
  intros [H1 H2 H3 H4] Ei E. pose proof (Forall_lookup_1 _ _ _ _ H3 Ei) as (dn & Ex & Hd).
  assert (∀ q, set_bit (ws s) q → set_bit v q) as Hk by (intros q; by eapply or_keeps).
  apply inv_put; [split; cbn| |done|]; cbn.
  - rewrite <- H1. by eapply rmw_length.
  - eapply Forall_impl; [done|]. cbn. intros y Hy. eapply Forall_impl; [done|]. done.
  - eapply Forall_impl; [done|]. intros t. by apply thread_ok_mono.
  - done.
  - exists (dn ++ [p]). rewrite <- (assoc_L (++)). split; [done|]. intros Hf. apply Forall_app. split.
    + eapply Forall_impl; [by apply Hd|]. done.
    + apply Forall_singleton. by eapply or_sets; [eapply probe_nonzero|].
  - intros Hc. pose proof (Forall_lookup_1 _ _ _ _ (H4 Hc) Ei). done.
Qed.

(** An insert returns: its item is a member, unless a clear got in between. *)
Lemma inserted_inv s i x d :
  inv s → threads s !! i = Some (Inserting x [] d) →
  inv (put (if d then s else put_members s (x :: members s)) i Idle).
Proof.
  intros Hi Ei. pose proof (Forall_lookup_1 _ _ _ _ (inv_threads _ Hi) Ei) as (dn & Ex & Hd).
  rewrite app_nil_r in Ex. destruct d; [by apply inv_put|].
  destruct (existsb clearing (threads s)) eqn:Hc.
  { pose proof (Forall_lookup_1 _ _ _ _ (inv_clear _ Hi Hc) Ei). done. }
  apply inv_put; [|done..]. destruct Hi as [H1 H2 H3 H4]. split; cbn; [done| | |by rewrite Hc].
  - constructor; [rewrite Ex; by apply Hd|done].
  - rewrite Forall_forall in H3 |- *. intros t Ht. eapply thread_ok_mono, H3; [done| | |done].
    + intros y. by right.
    + assert (clearing t = false) as ->; [|done]. destruct (clearing t) eqn:Ect; [|done].
      exfalso. apply not_true_iff_false in Hc. apply Hc. apply existsb_exists. exists t.
      split; [by apply list_elem_of_In|done].
Qed.

(** An answer that was due is yes. *)
Definition honest (l : label) : Prop :=
  match l with Answer _ due found => due = true → found = true | _ => True end.

Lemma advance_inv s i l s' : inv s → advance s i = Some (l, s') → inv s' ∧ honest l.
Proof.
  unfold advance. intros Hi. destruct (threads s !! i) as [[|x [|p rest] d|x [|p rest] d|w]|] eqn:Ei; try done.
  - intros [= <- <-]. split; [by apply inserted_inv|done].
  - destruct (rmw _ _ _) as [[old v]|] eqn:E; [|done]. cbn. intros [= <- <-]. split; [by eapply or_inv|done].
  - intros [= <- <-]. split; [by apply inv_put|done].
  - destruct (ws s !! p.1) as [v|] eqn:Ev; [|done].
    pose proof (Forall_lookup_1 _ _ _ _ (inv_threads _ Hi) Ei) as (dn & Ex & Hd). cbn.
    destruct (Z.eqb_spec (Z.land v p.2) 0) as [E0|E0]; intros [= <- <-]; (split; [|try done]).
    + by apply inv_put.
    + intros ->. pose proof (inv_members _ Hi) as Hm. rewrite Forall_forall in Hm.
      specialize (Hm x (Hd eq_refl)). rewrite Ex in Hm. apply Forall_app in Hm as [_ Hm].
      apply Forall_cons in Hm as [(y & Ey & Hy)%set_bit_lookup _]. by simplify_eq.
    + apply inv_put; [done| |done|].
      * exists (dn ++ [p]). by rewrite <- (assoc_L (++)).
      * intros Hc. by pose proof (Forall_lookup_1 _ _ _ _ (inv_clear _ Hi Hc) Ei).
  - case_bool_decide as Hw.
    + destruct (store 0 w (ws s)) as [[old v]|] eqn:E; [|done]. cbn. intros [= <- <-].
      split; [by eapply store_inv|done].
    + intros [= <- <-]. split; [by apply inv_put|done].
Qed.

(** No handle is ever outside the region: one in a call can take its step. *)
Lemma advance_total s i t : inv s → threads s !! i = Some t → t ≠ Idle → is_Some (advance s i).
Proof.
  intros Hi Ei Hne. unfold advance. rewrite Ei.
  pose proof (Forall_lookup_1 _ _ _ _ (inv_threads _ Hi) Ei) as Ht. pose proof (inv_len _ Hi) as Hl.
  assert (∀ x p dn rest, probes x = dn ++ p :: rest → is_Some (ws s !! p.1)) as Hp.
  { intros x [w m] dn rest Ex. apply lookup_lt_is_Some_2. rewrite Hl. eapply probes_in. rewrite Ex. mem. }
  destruct t as [|x [|p rest] d|x [|p rest] d|w]; [done|by eauto| |by eauto| |].
  - destruct Ht as (dn & Ex & _). destruct (Hp _ _ _ _ Ex) as [v Ev]. unfold rmw. rewrite Ev. cbn. eauto.
  - destruct Ht as (dn & Ex & _). destruct (Hp _ _ _ _ Ex) as [v Ev]. rewrite Ev. cbn. eauto.
  - case_bool_decide as Hw; [|eauto]. destruct (lookup_lt_is_Some_2 (ws s) w) as [v Ev]; [by rewrite Hl|].
    unfold store, rmw. rewrite Ev. cbn. eauto.
Qed.

Lemma init_inv n : inv (init n).
Proof.
  split; cbn; [len|constructor|by apply Forall_replicate|]. intros _. by apply Forall_replicate.
Qed.

Lemma filter_run_inv n tr s : ltrace step (init n) tr s → inv s ∧ Forall honest tr.
Proof.
  revert tr s. apply (ltrace_rev_ind step (init n) (λ tr s, inv s ∧ Forall honest tr)).
  - split; [apply init_inv|constructor].
  - intros tr s1 l s2 _ [Hi Hh] Hs. rewrite Forall_app, Forall_singleton.
    destruct Hs as [s1 i c s2 Hb|s1 i l s2 Ha].
    + split; [by eapply begin_inv|done].
    + destruct (advance_inv _ _ _ _ Hi Ha). done.
Qed.

(** * Schedules *)

(** A schedule: the handle that moves next, and the call it begins if it is
    between calls. *)
Fixpoint drive (s : state) (sched : list (nat * option call)) : option (list label * state) :=
  match sched with
  | [] => Some ([], s)
  | (i, Some c) :: sched => s ← begin s i c; '(tr, s) ← drive s sched; Some (Tau :: tr, s)
  | (i, None) :: sched => '(l, s) ← advance s i; '(tr, s) ← drive s sched; Some (l :: tr, s)
  end.

Lemma drive_run s sched tr s' : drive s sched = Some (tr, s') → ltrace step s tr s'.
Proof.
  revert s tr. induction sched as [|[i [c|]] sched IH]; intros s tr; cbn [drive].
  - intros [= <- <-]. constructor.
  - destruct (begin s i c) as [s1|] eqn:E; [|done]. cbn.
    destruct (drive s1 sched) as [[tr1 s2]|] eqn:E2; [|done]. cbn. intros [= <- <-].
    econstructor; [by eapply step_begin|by apply IH].
  - destruct (advance s i) as [[l s1]|] eqn:E; [|done]. cbn.
    destruct (drive s1 sched) as [[tr1 s2]|] eqn:E2; [|done]. cbn. intros [= <- <-].
    econstructor; [by eapply step_advance|by apply IH].
Qed.
End machine.

(** * The two filters provide the interface *)

Lemma mask_of_pow i : mask_of i = 2 ^ Z.of_nat (i mod BITS_PER_WORD) ∧ 0 ≤ Z.of_nat (i mod BITS_PER_WORD) < 64.
Proof.
  pose proof (Nat.mod_upper_bound i BITS_PER_WORD ltac:(done)) as Hb.
  assert (Z.of_nat (i mod BITS_PER_WORD) < 64) by (change BITS_PER_WORD with 64%nat in *; lia).
  split; [|lia]. unfold mask_of. rewrite Z.shiftl_1_l. apply wrap_small.
  split; [lia|]. apply Z.pow_lt_mono_r; lia.
Qed.

Lemma position_bound n h1 h2 i : 0 < n → (position n h1 h2 i < Z.to_nat n)%nat.
Proof.
  intros Hn. unfold position. pose proof (fastrange_bound (u64 (h1 + u64 (i * h2))) n) as H.
  apply Z2Nat.inj_lt; try apply H; try lia; by apply (wrap_bound 64).
Qed.

Definition bloom_probe (p : nat) : probe := (word_of p, mask_of p).

Lemma bloom_probes_in nb nh x w m : (1 ≤ nb)%nat →
  (w, m) ∈ bloom_probe <$> positions (Z.of_nat nb) nh x →
  (w < div_ceil nb BITS_PER_WORD)%nat ∧ ∃ k, 0 ≤ k < 64 ∧ m = 2 ^ k.
Proof.
  intros Hnb (p & [= -> ->] & (i & -> & _)%list_elem_of_fmap)%list_elem_of_fmap. split.
  - set (p := position _ _ _ _). assert (p < nb)%nat as Hp.
    { pose proof (position_bound (Z.of_nat nb) (hash1 x) (hash2 x) (Z.of_nat i) ltac:(lia)). lia. }
    pose proof (div_ceil_bounds nb). pose proof (word_split p). lia.
  - destruct (mask_of_pow (position (Z.of_nat nb) (hash1 x) (hash2 x) (Z.of_nat i))) as [-> ?]. eauto.
Qed.

Definition bloom_membership (nb nh : nat) (Hnb : (1 ≤ nb)%nat) : MembershipFilter := {|
  n_words := div_ceil nb BITS_PER_WORD;
  probes x := bloom_probe <$> positions (Z.of_nat nb) nh x;
  probes_in x w m := bloom_probes_in nb nh x w m Hnb
|}.

Definition block_probe (block bit : Z) : probe :=
  (block_word block (bit / 64), u64 (Z.shiftl 1 (bit mod 64))).

Definition blocked_probes (nb : Z) (nh : nat) (x : item) : list probe :=
  let (block, h2) := locate nb x in block_probe block <$> block_bits nh h2.

Lemma bit_in_block_bound h2 i : 0 ≤ bit_in_block h2 i < 512.
Proof.
  unfold bit_in_block. change (BLOCK_BITS - 1) with (2 ^ 9 - 1). rewrite land_mask_mod by lia.
  apply (Z.mod_pos_bound _ 512). lia.
Qed.

Lemma blocked_probes_in nb nh x w m : 0 < nb →
  (w, m) ∈ blocked_probes nb nh x →
  (w < Z.to_nat (nb * BLOCK_WORDS))%nat ∧ ∃ k, 0 ≤ k < 64 ∧ m = 2 ^ k.
Proof.
  intros Hnb. unfold blocked_probes, locate.
  intros (b & [= -> ->] & (i & -> & _)%list_elem_of_fmap)%list_elem_of_fmap.
  pose proof (bit_in_block_bound (hash2 x) (Z.of_nat i)) as Hb.
  pose proof (fastrange_bound (hash1 x) nb (proj1 (hash_words x)) Hnb) as Hf.
  set (bit := bit_in_block _ _) in *. change BLOCK_WORDS with 8. split.
  - unfold block_word. change BLOCK_WORDS with 8.
    pose proof (Z.div_pos bit 64 ltac:(lia) ltac:(lia)). pose proof (Z.div_lt_upper_bound bit 64 8 ltac:(lia) ltac:(lia)).
    apply Z2Nat.inj_lt; lia.
  - pose proof (Z.mod_pos_bound bit 64 ltac:(lia)). exists (bit mod 64). split; [done|].
    rewrite Z.shiftl_1_l. apply wrap_small. split; [lia|]. apply Z.pow_lt_mono_r; lia.
Qed.

Definition blocked_membership (nb : Z) (nh : nat) (Hnb : 0 < nb) : MembershipFilter := {|
  n_words := Z.to_nat (nb * BLOCK_WORDS);
  probes := blocked_probes nb nh;
  probes_in x w m := blocked_probes_in nb nh x w m Hnb
|}.

(** * The sequential calls make the accesses of the interface *)

Lemma set_loop_probes v ps :
  wf v → Forall (λ p, p < capacity_bits v)%nat ps →
  ∃ w, accesses (probe_or <$> (bloom_probe <$> ps)) (words v) = Some w ∧
    set_loop v ps = Some (with_words v w, Ok tt) ∧ wf (with_words v w).
Proof.
  revert v. induction ps as [|p ps IH]; intros v Hv Hps.
  { exists (words v). by destruct v. }
  apply Forall_cons in Hps as [Hp Hps]. cbn [fmap list_fmap accesses set_loop].
  destruct (bit_abs v p _ _ Hv Hp (proj1 (bit_acts p) RSet)) as (old & w1 & E1 & Hw1 & _).
  cbn [masked] in E1. unfold set. assert (check_bounds v p = false) as -> by (apply bool_decide_eq_false_2; lia).
  unfold fetch_or. cbn [probe_or bloom_probe fst snd]. rewrite E1. cbn [mbind option_bind from_bit_vec].
  by apply (IH (with_words v w1)).
Qed.

Lemma get_loop_probes v ps :
  wf v → Forall (λ p, p < capacity_bits v)%nat ps →
  get_loop v ps = Some (Ok (forallb (hit (words v)) (bloom_probe <$> ps))).
Proof.
  intros Hv. induction 1 as [|p ps Hp _ IH]; [done|]. cbn [get_loop fmap list_fmap forallb].
  unfold get. assert (check_bounds v p = false) as -> by (apply bool_decide_eq_false_2; lia).
  destruct (lookup_lt_is_Some_2 (words v) (word_of p)) as [y Ey]; [by apply in_words|].
  rewrite Ey. cbn [mbind option_bind from_bit_vec]. rewrite IH. unfold hit at 2. cbn [bloom_probe fst snd].
  rewrite Ey. by destruct (_ =? 0).
Qed.

(** A handle as [bloom_create] makes it. *)
Definition bloom_wf (b : SharedBloomFilter) : Prop :=
  wf (bits b) ∧ n_bits b = Z.of_nat (capacity_bits (bits b)).

Lemma bloom_create_wf nb nh : (1 ≤ nb)%nat → (1 ≤ nh)%nat →
  ∃ b, bloom_create (bloom_init_region nb nh) create nb nh = Ok b ∧ bloom_wf b ∧
    words (bits b) = replicate (div_ceil nb BITS_PER_WORD) 0.
Proof.
  intros Hb Hh. unfold bloom_create, check_header, create. cbn [bloom_init_region bmagic hdr_n_bits hdr_n_hashes].
  rewrite !bool_decide_eq_false_2 by lia. rewrite !Z.eqb_refl. cbn [orb negb mbind res_bind].
  destruct (create_wf nb Hb) as (v & E & Hv & _). unfold create in E. rewrite E. cbn.
  exists (assemble v nb nh). split; [done|]. unfold from_region in E. cbn in E.
  destruct (_ : res BitVecError unit); [|done..]. cbn in E. rewrite Z.eqb_refl in E. cbn in E.
  injection E as <-. done.
Qed.

(** The calls of the standard filter: an insert never fails and makes the
    accesses of its item's probes; a query answers whether all of them are
    set; a clear zeroes every word. *)
Lemma bloom_calls_probe b x (Hnb : (1 ≤ capacity_bits (bits b))%nat) :
  bloom_wf b →
  let F := bloom_membership (capacity_bits (bits b)) (n_hashes b) Hnb in
  let v := words (bits b) in
  (∃ w, accesses (probe_or <$> probes x) v = Some w ∧
     bloom_insert b x = Some (with_bits b (with_words (bits b) w), Ok tt) ∧
     bloom_wf (with_bits b (with_words (bits b) w))) ∧
  bloom_contains b x = Some (Ok (forallb (hit v) (probes x))) ∧
  ∃ b', bloom_clear b = Some b' ∧ bloom_wf b' ∧ abs (bits b') = replicate (capacity_bits (bits b)) false.
Proof.
  intros [Hv Hn] F v. assert (Forall (λ p, p < capacity_bits (bits b))%nat (positions (n_bits b) (n_hashes b) x)) as Hp.
  { unfold positions. rewrite Forall_fmap. apply Forall_seq. intros i _. cbn.
    pose proof (position_bound (n_bits b) (hash1 x) (hash2 x) (Z.of_nat i) ltac:(lia)). lia. }
  split; [|split].
  - destruct (set_loop_probes _ _ Hv Hp) as (w & E1 & E2 & E3). exists w. cbn [F bloom_membership probes].
    rewrite <- Hn. split; [done|]. unfold bloom_insert. rewrite E2. done.
  - unfold bloom_contains. rewrite get_loop_probes by done. cbn [F bloom_membership probes]. by rewrite Hn.
  - unfold bloom_clear. destruct (clear_all_implements _ Hv) as (v' & E & Hw & Ha). rewrite E. cbn.
    eexists. split; [done|]. cbn. split; [|done]. split; [done|]. cbn. rewrite Hn.
    assert (length (abs v') = capacity_bits (bits b)) as HL by (rewrite Ha; len). by rewrite <- HL, abs_length.
Qed.

Lemma or_loop_probes block bs w :
  or_loop block bs w = accesses (probe_or <$> (block_probe block <$> bs)) w.
Proof.
  revert w. induction bs as [|bit bs IH]; intros w; [done|]. cbn [or_loop fmap list_fmap accesses probe_or block_probe].
  unfold fetch_or. cbn [fst snd]. destruct (rmw _ _ w) as [[o w1]|]; [|done]. cbn. by rewrite IH.
Qed.

Lemma test_loop_probes block bs w :
  Forall (λ p, p.1 < length w)%nat (block_probe block <$> bs) →
  test_loop block bs w = Some (forallb (hit w) (block_probe block <$> bs)).
Proof.
  induction bs as [|bit bs IH]; [done|]. cbn [fmap list_fmap test_loop forallb].
  intros [Hp Hps]%Forall_cons. destruct (lookup_lt_is_Some_2 _ _ Hp) as [y Ey].
  unfold hit at 1. rewrite Ey. cbn [block_probe fst snd] in *. rewrite Ey. cbn [mbind option_bind].
  destruct (_ =? 0); [done|]. by apply IH.
Qed.

(** The calls of the blocked filter, likewise. *)
Lemma blocked_calls_probe b x (Hnb : 0 < n_blocks b) :
  length (block_words b) = Z.to_nat (n_blocks b * BLOCK_WORDS) →
  let F := blocked_membership (n_blocks b) (k_hashes b) Hnb in
  (block_words <$> blocked_insert b x) = accesses (probe_or <$> probes x) (block_words b) ∧
  blocked_contains b x = Some (forallb (hit (block_words b)) (probes x)).
Proof.
  intros HL F. cbn [F blocked_membership probes]. split.
  - unfold blocked_insert, blocked_probes. destruct (locate (n_blocks b) x) as [block h2].
    rewrite or_loop_probes. by destruct (accesses _ _).
  - assert (Forall (λ p, p.1 < length (block_words b))%nat (blocked_probes (n_blocks b) (k_hashes b) x)) as Hp.
    { apply Forall_forall. intros [w m] Hin. rewrite HL. by eapply (blocked_probes_in _ _ x). }
    unfold blocked_contains, blocked_probes in *. destruct (locate (n_blocks b) x) as [block h2].
    by apply test_loop_probes.
Qed.

(** * Theorem *)

(** C39: no false negatives, whatever the interleaving. Any number of handles
    insert, query and clear at once, their accesses to the words of the filter
    interleaved in any way: a query of an item that was inserted before the
    query began, with no clear begun in between, answers yes; the bits of every
    such item are set in the state reached; and no handle ever reaches outside
    the region. It holds of every filter that provides the interface, so of the
    standard and of the blocked one. *)
Theorem filter_no_false_negatives `{MembershipFilter} n tr s :
  ltrace step (init n) tr s →
  (∀ x found, Answer x true found ∈ tr → found = true) ∧
  (∀ x, x ∈ members s → forallb (hit (ws s)) (probes x) = true) ∧
  (∀ i t, threads s !! i = Some t → t ≠ Idle → is_Some (advance s i)).
Proof.
  intros Ht. destruct (filter_run_inv n tr s Ht) as [Hi Hh]. split; [|split].
  - intros x found Hin. rewrite Forall_forall in Hh. by apply (Hh _ Hin).
  - intros x Hx. pose proof (inv_members _ Hi) as Hm. rewrite Forall_forall in Hm. specialize (Hm x Hx).
    apply forallb_forall. intros p Hp%list_elem_of_In. rewrite Forall_forall in Hm. by apply Hm.
  - intros i t. by apply advance_total.
Qed.

(** Two handles of each filter: one inserts while the other's insert is under
    way, then queries; the other clears in the end. *)
Definition demo_schedule : list (nat * option call) :=
  [(0%nat, Some (CInsert [102; 111; 111])); (1%nat, Some (CInsert [98])); (0%nat, None); (1%nat, None); (0%nat, None); (1%nat, None);
   (1%nat, None); (0%nat, None); (1%nat, Some (CContains [102; 111; 111])); (1%nat, None); (0%nat, Some CClear); (0%nat, None)].

Lemma filter_no_false_negatives_witness :
  (let F := bloom_membership 100 2 ltac:(lia) in
   ∃ tr s, drive (init 2) (take 9 demo_schedule ++ [(1%nat, None); (1%nat, None); (1%nat, None)]) = Some (tr, s) ∧
     Answer [102; 111; 111] true true ∈ tr ∧ ∀ x found, Answer x true found ∈ tr → found = true) ∧
  (let F := blocked_membership 2 2 ltac:(lia) in
   ∃ tr s, drive (init 2) demo_schedule = Some (tr, s) ∧ ∀ i t, threads s !! i = Some t → t ≠ Idle → is_Some (advance s i)).
Proof.
  split; intros F.
  - destruct (drive (init 2) (take 9 demo_schedule ++ [(1%nat, None); (1%nat, None); (1%nat, None)])) as [[tr s]|] eqn:E.
    + exists tr, s. split; [done|]. split.
      * vm_compute in E. injection E as <- <-. repeat (first [left|right]).
      * apply (filter_no_false_negatives 2 tr s). by apply drive_run in E.
    + vm_compute in E. done.
  - destruct (drive (init 2) demo_schedule) as [[tr s]|] eqn:E.
    + exists tr, s. split; [done|]. apply (filter_no_false_negatives 2 tr s). by apply drive_run in E.
    + vm_compute in E. done.
Defined.
