(* ===== verification/CountMin.v ===== *)
(** Count-min sketch: [crates/subetha-cxc/src/shared_count_min_sketch.rs].

    A matrix of counters, [d] rows of [w]; an insert adds to one cell of each
    row with [fetch_add] and then to the total; an estimate reads the same
    cells and keeps the least. The sequential calls come first; then handles
    run concurrently, each access to a counter a step, over the interface
    [CounterSketch] (which counters an item adds to and reads).

    The theorems: under every interleaving an estimate is at least what was
    inserted before it began and at most what the colliding items add up to, in
    each row, and a counter is exactly what was added to it since it was last
    zeroed ([count_min_bounds]); the size the region is created with wraps for
    large shapes, which leaves a sketch without cells ([cms_size_wraps],
    [cms_create_wraps]). *)
From S2P Require Import Prelude BitVec Bloom.

(** * The sketch *)

Inductive CMSError := CMSInvalidConfig | CMSLayoutMismatch.

Definition CMS_MAGIC : Z := 0x4150434D53303031.

Record CMSHeader := { cms_magic : Z; hdr_d : Z; hdr_w : Z; total_inserts : Z }.

(** A handle with the region it maps. *)
Record SharedCountMinSketch := { d : nat; w : nat; cells : list Z; total : Z }.

(** [64 + d as usize * w as usize * 8], with the wrapping of a release
    build. *)
Definition cms_file_size (d w : Z) : Z := u64 (64 + u64 (u64 (d * w) * 8)).

(** Over a mapping of [len] zeroed bytes, which is faulted on when it is shorter
    than the header; the counters are the words behind the header. *)
Definition cms_init_region {E} (len : Z) (d w : nat) : res E (CMSHeader * list Z) :=
  _ ← assert_ (64 <=? len);
  Ok ({| cms_magic := CMS_MAGIC; hdr_d := Z.of_nat d; hdr_w := Z.of_nat w; total_inserts := 0 |},
      replicate (Z.to_nat ((len - 64) / 8)) 0).

Definition cms_from_region (r : CMSHeader * list Z) (d w : nat) : res CMSError SharedCountMinSketch :=
  let hdr := r.1 in
  if negb (cms_magic hdr =? CMS_MAGIC) || negb (hdr_d hdr =? Z.of_nat d) || negb (hdr_w hdr =? Z.of_nat w)
  then Err CMSLayoutMismatch
  else Ok {| d := d; w := w; cells := r.2; total := total_inserts hdr |}.

(** [create] on a path that does not exist: a mapping of [cms_file_size] bytes. *)
Definition cms_create (d w : nat) : res CMSError SharedCountMinSketch :=
  if bool_decide (d = 0%nat) || bool_decide (w = 0%nat) then Err CMSInvalidConfig
  else r ← cms_init_region (cms_file_size (Z.of_nat d) (Z.of_nat w)) d w; cms_from_region r d w.

(** [cell(row, col)]: the index, and its byte offset in the region. *)
Definition cell (w row col : nat) : nat := (row * w + col)%nat.
Definition cell_offset (w row col : Z) : Z := 64 + (row * w + col) * 8.

(** The column of an item in a row, the body of [for_each_position]. *)
Definition column (w : nat) (x : item) (row : nat) : nat :=
  let wz := Z.of_nat w in
  let mask := u64 (wz - 1) in
  let raw := u64 (hash1 x + u64 (Z.of_nat row * hash2 x)) in
  Z.to_nat (if is_power_of_two wz then u32 (Z.land raw mask) else u32 (fastrange raw wz)).

(** The cells [for_each_position] visits. *)
Definition item_cells (d w : nat) (x : item) : list nat :=
  (λ row, cell w row (column w x row)) <$> seq 0 d.

Definition fetch_add (n : Z) := rmw (λ p, u64 (p + n)).

Fixpoint add_loop (n : Z) (cs : list nat) (m : list Z) : option (list Z) :=
  match cs with
  | [] => Some m
  | c :: cs => '(_, m) ← fetch_add n c m; add_loop n cs m
  end.

Definition add_all (n : Z) (s : SharedCountMinSketch) (x : item) : option SharedCountMinSketch :=
  m ← add_loop n (item_cells (d s) (w s) x) (cells s);
  Some {| d := d s; w := w s; cells := m; total := u64 (total s + n) |}.

Definition insert (s : SharedCountMinSketch) (x : item) : option SharedCountMinSketch := add_all 1 s x.

Definition insert_n (s : SharedCountMinSketch) (x : item) (count : Z) : option SharedCountMinSketch :=
  if count =? 0 then Some s else add_all count s x.

Fixpoint min_loop (cs : list nat) (m : list Z) (v : Z) : option Z :=
  match cs with
  | [] => Some v
  | c :: cs => x ← m !! c; min_loop cs m (if x <? v then x else v)
  end.

Definition estimate_count (s : SharedCountMinSketch) (x : item) : option Z :=
  v ← min_loop (item_cells (d s) (w s) x) (cells s) U64_MAX;
  Some (if bool_decide (d s = 0%nat) then 0 else v).

Definition cms_reset (s : SharedCountMinSketch) : option SharedCountMinSketch :=
  m ← accesses (row ← seq 0 (d s); (λ col, (cell (w s) row col, λ _, 0)) <$> seq 0 (w s)) (cells s);
  Some {| d := d s; w := w s; cells := m; total := 0 |}.

(** A shape whose size wraps: the region is the header alone, and every cell
    lies past its end. *)
Lemma cms_size_wraps :
  cms_file_size (2 ^ 31) (2 ^ 31) = 64 ∧ ∀ row col, 0 ≤ row → 0 ≤ col → 64 ≤ cell_offset (2 ^ 31) row col.
Proof. split; [by vm_compute|]. intros. unfold cell_offset. lia. Qed.

(** Such a sketch is created nevertheless, with no cell at all. *)
Lemma cms_create_wraps dn wn :
  Z.of_nat dn = 2 ^ 31 → Z.of_nat wn = 2 ^ 31 → ∃ s, cms_create dn wn = Ok s ∧ cells s = [] ∧ ∀ x, insert s x = None.
Proof.
  intros Hd Hw. unfold cms_create. rewrite !bool_decide_eq_false_2 by lia. cbn [orb]. rewrite Hd, Hw, (proj1 cms_size_wraps).
  unfold cms_init_region, assert_. cbn [Z.leb Z.compare Pos.compare Pos.compare_cont mbind].
  change (Z.to_nat ((64 - 64) / 8)) with 0%nat. unfold cms_from_region. cbn. rewrite !Z.eqb_refl. cbn. eexists. split; [done|]. split; [done|].
  intros x. unfold insert, add_all, item_cells. cbn [d w cells]. destruct dn as [|dn]; [lia|]. done.
Qed.

(** Below that, the region holds every cell. *)
Lemma cms_size_fits (dz wz row col : Z) :
  0 ≤ row < dz → 0 ≤ col < wz → 64 + dz * wz * 8 < 2 ^ 64 →
  cell_offset wz row col + 8 ≤ cms_file_size dz wz.
Proof.
  intros Hr Hc Hs. unfold cms_file_size. rewrite (wrap_small 64 (dz * wz)), (wrap_small 64 (dz * wz * 8)), wrap_small by nia.
  unfold cell_offset. nia.
Qed.

Lemma cms_created d w s :
  cms_create d w = Ok s → 64 + Z.of_nat d * Z.of_nat w * 8 < 2 ^ 64 → cells s ++ [total s] = replicate (S (d * w)) 0.
Proof.
  intros Hc Hs. unfold cms_create in Hc. destruct (_ || _); [done|]. unfold cms_file_size in Hc.
  rewrite (wrap_small 64 (_ * Z.of_nat w)), (wrap_small 64 (_ * 8)), wrap_small in Hc by nia.
  unfold cms_init_region, assert_ in Hc. destruct (Z.leb_spec 64 (64 + Z.of_nat d * Z.of_nat w * 8)); [|nia].
  cbn [mbind] in Hc. unfold cms_from_region in Hc. cbn in Hc. rewrite !Z.eqb_refl in Hc. cbn in Hc. injection Hc as <-. cbn.
  replace (64 + Z.of_nat d * Z.of_nat w * 8 - 64) with (Z.of_nat (d * w) * 8) by lia. rewrite Z.div_mul, Nat2Z.id by lia.
  by rewrite <- replicate_cons_app.
Qed.

(** * Sums over lists *)

Definition zsum {A} (f : A → Z) (l : list A) : Z := foldr (λ t acc, f t + acc) 0 l.

Lemma zsum_app {A} (f : A → Z) l k : zsum f (l ++ k) = zsum f l + zsum f k.
Proof. unfold zsum. induction l as [|x l IH]; [done|]. cbn. rewrite IH. lia. Qed.

Lemma zsum_insert {A} (f : A → Z) l i t t' :
  l !! i = Some t → zsum f (<[i := t']> l) = zsum f l - f t + f t'.
Proof.
  intros Hi. apply list_elem_of_split_length in Hi as (l1 & l2 & -> & ->).
  rewrite insert_app_r_alt, Nat.sub_diag by lia. cbn [base.insert list_insert]. rewrite !zsum_app. unfold zsum. cbn. lia.
Qed.

Lemma zsum_le {A} (f g : A → Z) l : Forall (λ x, f x ≤ g x) l → zsum f l ≤ zsum g l.
Proof. unfold zsum. induction 1; cbn; lia. Qed.

Lemma zsum_zero {A} (f : A → Z) l : Forall (λ x, f x = 0) l → zsum f l = 0.
Proof. unfold zsum. induction 1; cbn; lia. Qed.

Lemma zsum_nonneg {A} (f : A → Z) l : Forall (λ x, 0 ≤ f x) l → 0 ≤ zsum f l.
Proof. unfold zsum. induction 1; cbn; lia. Qed.

Lemma zsum_fmap {A B} (f : B → Z) (g : A → B) l : zsum f (g <$> l) = zsum (f ∘ g) l.
Proof. unfold zsum. induction l as [|x l IH]; [done|]. cbn. by rewrite IH. Qed.

Lemma zsum_ext {A} (f g : A → Z) l : (∀ x, f x = g x) → zsum f l = zsum g l.
Proof. intros H. unfold zsum. induction l as [|x l IH]; [done|]. cbn. by rewrite H, IH. Qed.

(** * The interface of a counter sketch *)

(** The counters of the region, those an insert of an item adds to, in order
    and each once, and those an estimate of it reads, all of them among the
    first. *)
Class CounterSketch := {
  n_counters : nat;
  adds : item → list nat;
  reads : item → list nat;
  adds_in : ∀ x a, a ∈ adds x → (a < n_counters)%nat;
  adds_nodup : ∀ x, NoDup (adds x);
  reads_adds : ∀ x a, a ∈ reads x → a ∈ adds x
}.

(** * Concurrent handles *)

Inductive call := CInsertN (x : item) (n : Z) | CEstimate (x : item) | CReset.

(** Where a handle is. Ghosts: [live], that no reset has begun since the
    insert began; [kept], the counters it has added to that no store of a reset
    has hit since; [due], what had been inserted of the item when the estimate
    began, zero once a reset begins; [old], the number of inserts that had returned
    when the reset began. *)
Inductive thread :=
| Idle
| Adding (x : item) (n : Z) (did rest : list nat) (live : bool) (kept : list nat)
| Reading (x : item) (did rest : list nat) (v : Z) (due : Z)
| Resetting (k old : nat).

(** A finished insert; [f_live]: no reset has begun since it began; [f_kept]: its
    counters that no store of a reset has hit since. The latest comes first. *)
Record finish := { f_item : item; f_count : Z; f_live : bool; f_kept : list nat }.

Record state := { mem : list Z; finished : list finish; threads : list thread }.

Inductive label := Tau | Inserted (x : item) (n : Z) | Estimated (x : item) (due v : Z) | WasReset.

Definition resetting (t : thread) : bool := match t with Resetting _ _ => true | _ => false end.

Definition outdate (t : thread) : thread :=
  match t with
  | Adding x n did rest _ kept => Adding x n did rest false kept
  | Reading x did rest v _ => Reading x did rest v 0
  | t => t
  end.

Definition outdate_finish (f : finish) : finish :=
  {| f_item := f_item f; f_count := f_count f; f_live := false; f_kept := f_kept f |}.

(** What the inserts keep when the counter [k] is zeroed. *)
Definition spare (k : nat) (kept : list nat) : list nat := filter (λ a, a ≠ k) kept.
Definition wipe_thread (k : nat) (t : thread) : thread :=
  match t with Adding x n did rest live kept => Adding x n did rest live (spare k kept) | t => t end.
Definition wipe_finish (k : nat) (f : finish) : finish :=
  {| f_item := f_item f; f_count := f_count f; f_live := f_live f; f_kept := spare k (f_kept f) |}.

Definition put (s : state) (i : nat) (t : thread) : state :=
  {| mem := mem s; finished := finished s; threads := <[i := t]> (threads s) |}.
Definition put_mem (s : state) (m : list Z) : state :=
  {| mem := m; finished := finished s; threads := threads s |}.

Definition wipe (k : nat) (s : state) : state :=
  {| mem := mem s; finished := wipe_finish k <$> finished s; threads := wipe_thread k <$> threads s |}.

(** What was inserted of [x], by inserts that have returned and that no reset
    has overtaken. *)
Definition inserted (x : item) (s : state) : Z :=
  zsum (λ f, if f_live f && bool_decide (f_item f = x) then f_count f else 0) (finished s).

Section machine.
Context `{CounterSketch}.

Definition begin (s : state) (i : nat) (c : call) : option state :=
  match threads s !! i with
  | Some Idle =>
      match c with
      | CInsertN x n =>
          if 0 <? n then Some (put s i (Adding x n [] (adds x) (negb (existsb resetting (threads s))) [])) else None
      | CEstimate x => Some (put s i (Reading x [] (reads x) U64_MAX (inserted x s)))
      | CReset => Some (put {| mem := mem s; finished := outdate_finish <$> finished s;
                               threads := outdate <$> threads s |} i (Resetting 0 (length (finished s))))
      end
  | _ => None
  end.

Definition advance (s : state) (i : nat) : option (label * state) :=
  match threads s !! i with
  | Some (Adding x n _ [] live kept) =>
      Some (Inserted x n,
            put {| mem := mem s; threads := threads s;
                   finished := {| f_item := x; f_count := n; f_live := live; f_kept := kept |} :: finished s |} i Idle)
  | Some (Adding x n did (a :: rest) live kept) =>
      '(_, m) ← fetch_add n a (mem s); Some (Tau, put (put_mem s m) i (Adding x n (did ++ [a]) rest live (kept ++ [a])))
  | Some (Reading x _ [] v due) => Some (Estimated x due v, put s i Idle)
  | Some (Reading x did (a :: rest) v due) =>
      c ← mem s !! a; Some (Tau, put s i (Reading x (did ++ [a]) rest (if c <? v then c else v) due))
  | Some (Resetting k old) =>
      if bool_decide (k < n_counters)%nat
      then '(_, m) ← store 0 k (mem s); Some (Tau, put (wipe k (put_mem s m)) i (Resetting (S k) old))
      else Some (WasReset, put s i Idle)
  | _ => None
  end.

Inductive step : state → label → state → Prop :=
| step_begin s i c s' : begin s i c = Some s' → step s Tau s'
| step_advance s i l s' : advance s i = Some (l, s') → step s l s'.

Definition init (n : nat) : state :=
  {| mem := replicate n_counters 0; finished := []; threads := replicate n Idle |}.

(** * What the counters hold *)

(** The counts of all inserts begun. *)
Definition begun_t (t : thread) : Z := match t with Adding _ n _ _ _ _ => n | _ => 0 end.
Definition begun (s : state) : Z := zsum begun_t (threads s) + zsum f_count (finished s).

(** What the inserts begun whose item adds to [a] count. *)
Definition load_t (a : nat) (t : thread) : Z :=
  match t with Adding x n _ _ _ _ => if bool_decide (a ∈ adds x) then n else 0 | _ => 0 end.
Definition load_f (a : nat) (f : finish) : Z :=
  if bool_decide (a ∈ adds (f_item f)) then f_count f else 0.
Definition load (a : nat) (s : state) : Z := zsum (load_t a) (threads s) + zsum (load_f a) (finished s).

(** What has been added to the counter [a]: by every insert, or only by those
    no reset has overtaken. *)
Definition part_t (only : bool) (a : nat) (t : thread) : Z :=
  match t with
  | Adding x n did _ live _ => if (negb only || live) && bool_decide (a ∈ did) then n else 0
  | _ => 0
  end.
Definition part_f (only : bool) (a : nat) (f : finish) : Z :=
  if (negb only || f_live f) && bool_decide (a ∈ adds (f_item f)) then f_count f else 0.
Definition added (only : bool) (a : nat) (s : state) : Z :=
  zsum (part_t only a) (threads s) + zsum (part_f only a) (finished s).

Definition thread_ok (s : state) (t : thread) : Prop :=
  match t with
  | Idle => True
  | Adding x n did rest live _ => adds x = did ++ rest ∧ 0 < n
  | Reading x did rest v due =>
      reads x = did ++ rest ∧ due ≤ inserted x s ∧ 0 ≤ due ≤ v ∧ Forall (λ a, v ≤ added false a s) did
  | Resetting k _ => (k ≤ n_counters)%nat
  end.

(** While a reset runs nothing is promised. *)
Definition unpromised (t : thread) : Prop :=
  match t with Adding _ _ _ _ live _ => live = false | Reading _ _ _ _ due => due ≤ 0 | _ => True end.

Record inv (s : state) : Prop := {
  inv_len : length (mem s) = n_counters;
  inv_mem : ∀ a v, mem s !! a = Some v → added true a s ≤ v ≤ added false a s;
  inv_threads : Forall (thread_ok s) (threads s);
  inv_finished : Forall (λ f, 0 < f_count f) (finished s);
  inv_reset : existsb resetting (threads s) = true →
    Forall unpromised (threads s) ∧ Forall (λ f, f_live f = false) (finished s)
}.

(** * Bounds between the sums *)

Lemma part_t_bounds s only a t :
  thread_ok s t → 0 ≤ part_t only a t ≤ part_t false a t ∧ part_t false a t ≤ load_t a t ≤ begun_t t.
Proof.
  destruct t as [|x n did rest live kept| |]; cbn [thread_ok part_t load_t begun_t]; try lia. intros [E Hn].
  destruct (decide (a ∈ did)).
  - rewrite !bool_decide_eq_true_2 by (rewrite ?E; mem). destruct only, live; cbn; lia.
  - rewrite (bool_decide_eq_false_2 (a ∈ did)), !andb_false_r by done. case_bool_decide; lia.
Qed.

Lemma part_f_bounds only a f :
  0 < f_count f → 0 ≤ part_f only a f ≤ part_f false a f ∧ part_f false a f ≤ load_f a f ≤ f_count f.
Proof.
  intros Hf. unfold part_f, load_f. case_bool_decide; destruct only, (f_live f); cbn; lia.
Qed.

Lemma sane_bounds s only a :
  Forall (thread_ok s) (threads s) → Forall (λ f, 0 < f_count f) (finished s) →
  0 ≤ added only a s ≤ added false a s ∧ added false a s ≤ load a s ≤ begun s.
Proof.
  intros Ht Hf. unfold added, load, begun.
  assert (∀ f g, (∀ t, thread_ok s t → f t ≤ g t) → zsum f (threads s) ≤ zsum g (threads s)) as HT.
  { intros f g Hfg. apply zsum_le. by eapply Forall_impl. }
  assert (∀ f g, (∀ x, 0 < f_count x → f x ≤ g x) → zsum f (finished s) ≤ zsum g (finished s)) as HF.
  { intros f g Hfg. apply zsum_le. by eapply Forall_impl. }
  assert (∀ A (l : list A), zsum (λ _, 0) l = 0) as H0 by (intros; by apply zsum_zero, Forall_true).
  pose proof (HT (λ _, 0) (part_t only a) ltac:(intros t Hok; destruct (part_t_bounds s only a t Hok); lia)).
  pose proof (HT (part_t only a) (part_t false a) ltac:(intros t Hok; destruct (part_t_bounds s only a t Hok); lia)).
  pose proof (HT (part_t false a) (load_t a) ltac:(intros t Hok; destruct (part_t_bounds s only a t Hok); lia)).
  pose proof (HT (load_t a) begun_t ltac:(intros t Hok; destruct (part_t_bounds s only a t Hok); lia)).
  pose proof (HF (λ _, 0) (part_f only a) ltac:(intros f Hok; destruct (part_f_bounds only a f Hok); lia)).
  pose proof (HF (part_f only a) (part_f false a) ltac:(intros f Hok; destruct (part_f_bounds only a f Hok); lia)).
  pose proof (HF (part_f false a) (load_f a) ltac:(intros f Hok; destruct (part_f_bounds only a f Hok); lia)).
  pose proof (HF (load_f a) f_count ltac:(intros f Hok; destruct (part_f_bounds only a f Hok); lia)).
  rewrite !H0 in *. lia.
Qed.

Lemma added_bounds s only a : inv s →
  0 ≤ added only a s ≤ added false a s ∧ added false a s ≤ load a s ≤ begun s.
Proof. intros [_ _ Ht Hf _]. by apply sane_bounds. Qed.

(** What was inserted of an item has been added to each of its counters. *)
Lemma inserted_added s x a : inv s → a ∈ adds x → inserted x s ≤ added true a s.
Proof.
  intros Hi Ha. pose proof Hi as [_ _ Ht Hf _]. unfold inserted, added.
  assert (0 ≤ zsum (part_t true a) (threads s)).
  { apply zsum_nonneg. eapply Forall_impl; [done|]. intros t Hok. by apply (part_t_bounds s true a t). }
  enough (zsum (λ f, if f_live f && bool_decide (f_item f = x) then f_count f else 0) (finished s)
          ≤ zsum (part_f true a) (finished s)) by lia.
  apply zsum_le. eapply Forall_impl; [done|]. cbn. intros f Hc. unfold part_f.
  destruct (decide (f_item f = x)) as [->|].
  - rewrite !bool_decide_eq_true_2 by done. cbn. lia.
  - rewrite (bool_decide_eq_false_2 (f_item f = x)), andb_false_r by done. destruct (_ && _); lia.
Qed.

Lemma inserted_begun s x : inv s → inserted x s ≤ begun s.
Proof.
  intros Hi. pose proof Hi as [_ _ Ht Hf _]. unfold inserted, begun.
  assert (0 ≤ zsum begun_t (threads s)).
  { apply zsum_nonneg. eapply Forall_impl; [done|]. intros [] Hok; cbn in *; lia. }
  enough (zsum (λ f, if f_live f && bool_decide (f_item f = x) then f_count f else 0) (finished s)
          ≤ zsum f_count (finished s)) by lia.
  apply zsum_le. eapply Forall_impl; [done|]. cbn. intros f Hc. destruct (_ && _); lia.
Qed.

(** * Replacing a thread *)

Lemma added_put s i t t' only a :
  threads s !! i = Some t → added only a (put s i t') = added only a s - part_t only a t + part_t only a t'.
Proof. intros Ei. unfold added. cbn [put threads finished]. rewrite (zsum_insert _ _ _ _ _ Ei). lia. Qed.

Lemma begun_put s i t t' :
  threads s !! i = Some t → begun (put s i t') = begun s - begun_t t + begun_t t'.
Proof. intros Ei. unfold begun. cbn [put threads finished]. rewrite (zsum_insert _ _ _ _ _ Ei). lia. Qed.

Lemma thread_ok_later s s' t :
  (∀ x, inserted x s ≤ inserted x s') → (∀ a, added false a s ≤ added false a s') →
  thread_ok s t → thread_ok s' t.
Proof.
  intros Hx Ha. destruct t as [|x n did rest live kept|x did rest v due|k old]; cbn; try done.
  intros (E & H1 & H2 & H3). split; [done|]. split; [specialize (Hx x); lia|]. split; [done|].
  eapply Forall_impl; [done|]. cbn. intros b Hb. specialize (Ha b). lia.
Qed.

Lemma existsb_put ts i t :
  existsb resetting (<[i := t]> ts) = true → resetting t = true ∨ existsb resetting ts = true.
Proof.
  intros (u & Hin & Hu)%existsb_exists. apply list_elem_of_In, list_elem_of_lookup_1 in Hin as [j Hj].
  destruct (decide (i = j)) as [->|].
  - apply list_lookup_insert_Some in Hj as [(_ & <- & _)|[? _]]; [by left|done].
  - rewrite list_lookup_insert_ne in Hj by done. right. apply existsb_exists. exists u.
    split; [|done]. by apply list_elem_of_In, (list_elem_of_lookup_2 _ j).
Qed.

(** A step that leaves the counters and the sums as they are. *)
Lemma sketch_quiet s i t t' :
  inv s → threads s !! i = Some t → (∀ only a, part_t only a t' = part_t only a t) → resetting t' = false →
  thread_ok s t' → (existsb resetting (threads s) = true → unpromised t') → inv (put s i t').
Proof.
  intros [H1 H2 H3 H4 H5] Ei Hp Hr Ht Hu.
  assert (∀ only a, added only a (put s i t') = added only a s) as Ea.
  { intros. rewrite (added_put s i t) by done. rewrite Hp. lia. }
  split; cbn; [done| | |done|].
  - intros a v. rewrite !Ea. apply H2.
  - apply Forall_insert; [|by apply (thread_ok_later s); [done|intros; rewrite Ea|]].
    eapply Forall_impl; [done|]. intros u. apply thread_ok_later; [done|]. intros. by rewrite Ea.
  - intros [?|E]%existsb_put; [congruence|]. destruct (H5 E). split; [|done]. apply Forall_insert; auto.
Qed.

(** Once every insert is overtaken by a reset, nothing counts as inserted. *)
Lemma inserted_dead s x : Forall (λ f, f_live f = false) (finished s) → inserted x s = 0.
Proof. intros Hf. apply zsum_zero. eapply Forall_impl; [done|]. cbn. by intros f ->. Qed.

Lemma added_dead s a :
  Forall unpromised (threads s) → Forall (λ f, f_live f = false) (finished s) → added true a s = 0.
Proof.
  intros Ht Hf. unfold added. rewrite !zsum_zero; [done| |].
  - eapply Forall_impl; [done|]. intros f E. unfold part_f. by rewrite E.
  - eapply Forall_impl; [done|]. intros [|x n did rest live kept| |]; cbn; try done. by intros ->.
Qed.

Lemma reset_begins s i :
  inv s → threads s !! i = Some Idle →
  inv (put {| mem := mem s; finished := outdate_finish <$> finished s; threads := outdate <$> threads s |} i (Resetting 0 (length (finished s)))).
Proof.
  intros Hi Ei. pose proof Hi as [H1 H2 H3 H4 H5]. set (s1 := {| threads := outdate <$> threads s |}).
  assert (∀ a, added false a s1 = added false a s) as Ef.
  { intros a. unfold added. cbn [s1 threads finished]. rewrite !zsum_fmap.
    rewrite (zsum_ext (part_t false a ∘ outdate) (part_t false a)) by by intros []. done. }
  assert (Forall (λ f, f_live f = false) (finished s1)) as Hf.
  { cbn. rewrite Forall_fmap. by apply Forall_true. }
  assert (Forall unpromised (threads s1)) as Hu.
  { cbn. rewrite Forall_fmap. apply Forall_true. by intros []. }
  assert (threads s1 !! i = Some Idle) as Ei1 by (cbn; by rewrite list_lookup_fmap, Ei).
  assert (∀ only a, added only a (put s1 i (Resetting 0 (length (finished s)))) = added only a s1) as Ep.
  { intros. rewrite (added_put s1 i Idle) by done. cbn. lia. }
  split.
  - done.
  - intros a v Ev. rewrite !Ep, added_dead, Ef by done. cbn in Ev.
    destruct (added_bounds s true a Hi). specialize (H2 a v Ev). lia.
  - apply Forall_insert; [|cbn; lia]. cbn. rewrite Forall_fmap. eapply Forall_impl; [done|]. intros t Ht.
    destruct t as [|x n did rest live kept|x did rest v due|k old]; cbn [compose outdate thread_ok] in *; try done.
    destruct Ht as (E & _ & Hv & Hd). split; [done|]. rewrite inserted_dead by done. split; [done|]. split; [lia|].
    eapply Forall_impl; [done|]. cbn. intros a Ha. by rewrite Ep, Ef.
  - cbn. rewrite Forall_fmap. eapply Forall_impl; [done|]. done.
  - intros _. split; [|done]. by apply Forall_insert.
Qed.

Lemma inserted_nonneg s x : inv s → 0 ≤ inserted x s.
Proof.
  intros Hi. apply zsum_nonneg. eapply Forall_impl; [apply (inv_finished _ Hi)|]. cbn. intros f Hf. destruct (_ && _); lia.
Qed.

Lemma begin_inv_cms s i c s' : inv s → begun s < 2 ^ 64 → begin s i c = Some s' → inv s'.
Proof.
  unfold begin. intros Hi Hb. destruct (threads s !! i) as [[| | |]|] eqn:Ei; try done.
  destruct c as [x n|x|].
  - destruct (Z.ltb_spec 0 n); [|done]. intros [= <-]. eapply sketch_quiet; [done..| |done|done|].
    + intros only a. cbn [part_t]. by rewrite (bool_decide_eq_false_2 (a ∈ [])), andb_false_r by apply not_elem_of_nil.
    + intros ->. done.
  - intros [= <-]. eapply sketch_quiet; [done..| |].
    + cbn. pose proof (inserted_begun s x Hi). pose proof (inserted_nonneg s x Hi). unfold U64_MAX.
      repeat split; try done; lia.
    + intros Hr. cbn. destruct (inv_reset _ Hi Hr). by rewrite inserted_dead.
  - intros [= <-]. by apply reset_begins.
Qed.

(** An addition: the counter and the two sums of it grow by the count. *)
Lemma add_inv s i x n did a rest live kept old m :
  inv s → begun s < 2 ^ 64 → threads s !! i = Some (Adding x n did (a :: rest) live kept) →
  fetch_add n a (mem s) = Some (old, m) → inv (put (put_mem s m) i (Adding x n (did ++ [a]) rest live (kept ++ [a]))).
Proof.
  intros Hi Hb Ei E. pose proof Hi as [H1 H2 H3 H4 H5].
  pose proof (Forall_lookup_1 _ _ _ _ H3 Ei) as [Ex Hn].
  set (t' := Adding x n (did ++ [a]) rest live (kept ++ [a])). set (s' := put _ i t').
  assert (a ∉ did) as Hnew.
  { pose proof (adds_nodup x) as Hd. rewrite Ex in Hd. apply NoDup_app in Hd as (_ & Hd & _).
    intros Hin. apply (Hd a Hin). by left. }
  assert (∀ only b, added only b s' = added only b s +
            (if bool_decide (b = a) && (negb only || live) then n else 0)) as Ea.
  { intros only b. transitivity (added only b (put s i t')); [done|]. rewrite (added_put s i _ _ _ _ Ei).
    cbn [part_t t']. destruct (decide (b = a)) as [->|].
    - rewrite (bool_decide_eq_true_2 (a ∈ did ++ [a])), (bool_decide_eq_false_2 (a ∈ did)), (bool_decide_eq_true_2 (a = a)),
        andb_false_r, andb_true_r by (done || mem). cbn. lia.
    - rewrite (bool_decide_ext (b ∈ did ++ [a]) (b ∈ did)), (bool_decide_eq_false_2 (b = a)) by (done || set_solver).
      cbn. lia. }
  assert (∀ only b, added only b s ≤ added only b s') as Hle.
  { intros only b. rewrite Ea. destruct (_ && _); lia. }
  assert (∀ t, thread_ok s t → thread_ok s' t) as Hok.
  { intros t. apply thread_ok_later; [done|apply Hle]. }
  assert (Forall (thread_ok s') (threads s')) as Hts.
  { apply Forall_insert; [by eapply Forall_impl|]. cbn. by rewrite <- (assoc_L (++)). }
  assert (added false a s' ≤ begun s) as Hbs.
  { destruct (sane_bounds s' false a Hts H4) as [_ Hl].
    assert (begun s' = begun s) as Hbe; [|lia]. transitivity (begun (put s i t')); [done|].
    rewrite (begun_put s i _ _ Ei). cbn. lia. }
  unfold fetch_add, rmw in E. destruct (mem s !! a) as [p|] eqn:Ep; [|done]. cbn in E. injection E as <- <-.
  split.
  - cbn. by rewrite length_insert.
  - cbn [s' put put_mem mem]. intros b v Hv. rewrite !Ea. apply list_lookup_insert_Some in Hv as [(<- & <- & _)|[Hne Hv]].
    + specialize (H2 a p Ep). rewrite bool_decide_eq_true_2 by done. cbn [andb negb orb].
      rewrite Ea, bool_decide_eq_true_2 in Hbs by done. cbn [andb negb orb] in Hbs.
      destruct (added_bounds s true a Hi). rewrite wrap_small by lia. destruct live; lia.
    + rewrite bool_decide_eq_false_2 by done. cbn. rewrite !Z.add_0_r. by apply H2.
  - done.
  - done.
  - intros [?|Hr]%existsb_put; [done|]. destruct (H5 Hr) as [Hu Hf]. split; [|done].
    apply Forall_insert; [done|]. by pose proof (Forall_lookup_1 _ _ _ _ Hu Ei).
Qed.

(** An insert returns: its part of the sums moves to the finished ones. *)
Lemma finish_inv s i x n did live kept :
  inv s → threads s !! i = Some (Adding x n did [] live kept) →
  inv (put {| mem := mem s; threads := threads s;
              finished := {| f_item := x; f_count := n; f_live := live; f_kept := kept |} :: finished s |} i Idle).
Proof.
  intros [H1 H2 H3 H4 H5] Ei. pose proof (Forall_lookup_1 _ _ _ _ H3 Ei) as [Ex Hn]. rewrite app_nil_r in Ex.
  set (f := {| f_item := x; f_count := n; f_live := live; f_kept := kept |}). set (s' := put _ i Idle).
  assert (∀ only a, added only a s' = added only a s) as Ea.
  { intros only a. unfold added. cbn [s' put threads finished]. rewrite (zsum_insert _ _ _ _ _ Ei).
    change (zsum (part_f only a) (f :: finished s)) with (part_f only a f + zsum (part_f only a) (finished s)).
    unfold part_f at 1. cbn [part_t f f_item f_count f_live]. rewrite Ex. lia. }
  assert (∀ t, thread_ok s t → thread_ok s' t) as Hok.
  { intros t. apply thread_ok_later; [|by intros; rewrite Ea]. intros y.
    assert (inserted y s' = (if live && bool_decide (x = y) then n else 0) + inserted y s) as -> by done.
    destruct (_ && _); lia. }
  split.
  - done.
  - intros a v. rewrite !Ea. apply H2.
  - apply Forall_insert; [by eapply Forall_impl|done].
  - by constructor.
  - intros [?|Hr]%existsb_put; [done|]. destruct (H5 Hr) as [Hu Hf].
    split; [by apply Forall_insert|]. constructor; [|done]. by pose proof (Forall_lookup_1 _ _ _ _ Hu Ei).
Qed.

Lemma read_inv s i x did a rest v due c :
  inv s → threads s !! i = Some (Reading x did (a :: rest) v due) → mem s !! a = Some c →
  inv (put s i (Reading x (did ++ [a]) rest (if c <? v then c else v) due)).
Proof.
  intros Hi Ei Ec. pose proof (Forall_lookup_1 _ _ _ _ (inv_threads _ Hi) Ei) as (Ex & Hd & Hv & Hf).
  pose proof (inv_mem _ Hi a c Ec) as Hm. eapply sketch_quiet; [done..| |].
  - cbn. rewrite <- (assoc_L (++)). split; [done|]. split; [done|].
    assert (inserted x s ≤ added true a s).
    { apply inserted_added; [done|]. apply reads_adds. rewrite Ex. mem. }
    split; [destruct (Z.ltb_spec c v); lia|]. apply Forall_app. split.
    + eapply Forall_impl; [done|]. cbn. intros b Hb. destruct (Z.ltb_spec c v); lia.
    + apply Forall_singleton. destruct (Z.ltb_spec c v); lia.
  - intros Hr. destruct (inv_reset _ Hi Hr) as [Hu _]. by pose proof (Forall_lookup_1 _ _ _ _ Hu Ei).
Qed.

(** A store of a reset changes no sum. *)
Lemma wipe_sums k s :
  (∀ only a, added only a (wipe k s) = added only a s) ∧ (∀ x, inserted x (wipe k s) = inserted x s) ∧ begun (wipe k s) = begun s.
Proof.
  unfold added, inserted, begun. cbn [wipe threads finished]. split_and!; [intros only a|intros x|]; rewrite ?zsum_fmap.
  - rewrite (zsum_ext (part_t only a ∘ wipe_thread k) (part_t only a)) by by intros []. done.
  - done.
  - rewrite (zsum_ext (begun_t ∘ wipe_thread k) begun_t) by by intros []. done.
Qed.

Lemma wipe_resetting k s : existsb resetting (wipe_thread k <$> threads s) = existsb resetting (threads s).
Proof. induction (threads s) as [|t l IH]; [done|]. cbn. rewrite IH. by destruct t. Qed.

Lemma zero_inv s i k since old m :
  inv s → threads s !! i = Some (Resetting k since) → (k < n_counters)%nat → store 0 k (mem s) = Some (old, m) →
  inv (put (wipe k (put_mem s m)) i (Resetting (S k) since)).
Proof.
  intros Hi Ei Hk E. pose proof Hi as [H1 H2 H3 H4 H5]. assert (existsb resetting (threads s) = true) as Hr.
  { apply existsb_exists. exists (Resetting k since). split; [|done]. by apply list_elem_of_In, (list_elem_of_lookup_2 _ i). }
  unfold store, rmw in E. destruct (mem s !! k) as [p|] eqn:Ep; [|done]. cbn in E. injection E as <- <-.
  destruct (H5 Hr) as [Hu Hf]. set (s1 := put_mem s _). destruct (wipe_sums k s1) as (Wa & Wi & _). set (s' := put _ i _).
  assert (threads (wipe k s1) !! i = Some (Resetting k since)) as Ei1 by (cbn; by rewrite list_lookup_fmap, Ei).
  assert (∀ only a, added only a s' = added only a s) as Ea.
  { intros. unfold s'. rewrite (added_put _ i _ _ _ _ Ei1), Wa. cbn [part_t]. change (added only a s1) with (added only a s). lia. }
  assert (∀ t, thread_ok s t → thread_ok s' t) as Hok.
  { intros t. apply thread_ok_later; [|by intros; rewrite Ea]. intros x. change (inserted x s') with (inserted x (wipe k s1)). by rewrite Wi. }
  split.
  - cbn. by rewrite length_insert.
  - intros a v Hv. rewrite !Ea. destruct (added_bounds s true a Hi). cbn [s' put wipe s1 put_mem mem] in Hv.
    apply list_lookup_insert_Some in Hv as [(<- & <- & _)|[Hne Hv]]; [|by apply H2].
    rewrite (added_dead s) in * by done. lia.
  - apply Forall_insert; [|cbn; lia]. cbn. rewrite Forall_fmap. eapply Forall_impl; [exact H3|]. intros t Ht%Hok. by destruct t.
  - cbn. rewrite Forall_fmap. exact H4.
  - intros _. cbn. rewrite Forall_fmap. split; [|exact Hf]. apply Forall_insert; [|done]. rewrite Forall_fmap. eapply Forall_impl; [exact Hu|]. by intros [].
Qed.

Lemma advance_inv_cms s i l s' : inv s → begun s < 2 ^ 64 → advance s i = Some (l, s') → inv s'.
Proof.
  unfold advance. intros Hi Hb.
  destruct (threads s !! i) as [[|x n did [|a rest] live kept|x did [|a rest] v due|k old]|] eqn:Ei; try done.
  - intros [= <- <-]. by apply finish_inv with did.
  - destruct (fetch_add n a (mem s)) as [[o m]|] eqn:E; [|done]. cbn. intros [= <- <-]. by eapply add_inv.
  - intros [= <- <-]. apply (sketch_quiet s i _ _ Hi Ei); done.
  - destruct (mem s !! a) as [c|] eqn:Ec; [|done]. cbn. intros [= <- <-]. by apply read_inv.
  - case_bool_decide.
    + destruct (store 0 k (mem s)) as [[o m]|] eqn:E; [|done]. cbn. intros [= <- <-]. by eapply zero_inv.
    + intros [= <- <-]. apply (sketch_quiet s i _ _ Hi Ei); done.
Qed.

(** The counts begun only grow. *)
Lemma step_begun s l s' : step s l s' → begun s ≤ begun s'.
Proof.
  destruct 1 as [s i c s' Hb|s i l s' Ha].
  - unfold begin in Hb. destruct (threads s !! i) as [[| | |]|] eqn:Ei; try done. destruct c as [x n|x|].
    + destruct (Z.ltb_spec 0 n); [|done]. injection Hb as <-. rewrite (begun_put s i _ _ Ei). cbn. lia.
    + injection Hb as <-. rewrite (begun_put s i _ _ Ei). cbn. lia.
    + injection Hb as <-. rewrite (begun_put _ i Idle). 2: { cbn. by rewrite list_lookup_fmap, Ei. }
      unfold begun. cbn [threads finished begun_t]. rewrite !zsum_fmap.
      rewrite (zsum_ext (begun_t ∘ outdate) begun_t) by by intros [].
      change (zsum (f_count ∘ outdate_finish) (finished s)) with (zsum f_count (finished s)). lia.
  - unfold advance in Ha.
    destruct (threads s !! i) as [[|x n did [|a rest] live kept|x did [|a rest] v due|k old]|] eqn:Ei; try done.
    + injection Ha as <- <-. unfold begun. cbn [put threads finished]. rewrite (zsum_insert _ _ _ _ _ Ei).
      change (zsum f_count (?f :: ?l)) with (f_count f + zsum f_count l). cbn [begun_t f_count]. lia.
    + destruct (fetch_add n a (mem s)) as [[o m]|]; [|done]. injection Ha as <- <-. rewrite (begun_put (put_mem s m) i _ _ Ei).
      change (begun (put_mem s m)) with (begun s). cbn. lia.
    + injection Ha as <- <-. rewrite (begun_put _ i _ _ Ei). cbn. lia.
    + destruct (mem s !! a); [|done]. injection Ha as <- <-. rewrite (begun_put _ i _ _ Ei). cbn. lia.
    + case_bool_decide.
      * destruct (store 0 k (mem s)) as [[o m]|]; [|done]. injection Ha as <- <-. rewrite (begun_put (wipe k (put_mem s m)) i (Resetting k old)).
        2: { cbn. by rewrite list_lookup_fmap, Ei. }
        destruct (wipe_sums k (put_mem s m)) as (_ & _ & ->). change (begun (put_mem s m)) with (begun s). cbn. lia.
      * injection Ha as <- <-. rewrite (begun_put _ i _ _ Ei). cbn. lia.
Qed.

Lemma run_inv_cms n tr s : ltrace step (init n) tr s → begun s < 2 ^ 64 → inv s.
Proof.
  revert tr s. apply (ltrace_rev_ind step (init n) (λ _ s, begun s < 2 ^ 64 → inv s)).
  - intros _. split; cbn.
    + len.
    + intros a v [-> _]%lookup_replicate. unfold added. cbn [threads finished init].
      rewrite !(zsum_zero _ (replicate _ _)) by by apply Forall_replicate. cbn. lia.
    + by apply Forall_replicate.
    + constructor.
    + intros _. split; [by apply Forall_replicate|constructor].
  - intros _ s1 l s2 _ IH Hs Hb. pose proof (step_begun _ _ _ Hs). assert (inv s1) by (apply IH; lia).
    destruct Hs; [eapply begin_inv_cms|eapply advance_inv_cms]; try done; lia.
Qed.

(** * Exact counters *)

(** What the inserts count that have added to [a] since it was last zeroed. *)
Definition held_t (a : nat) (t : thread) : Z :=
  match t with Adding _ n _ _ _ kept => if bool_decide (a ∈ kept) then n else 0 | _ => 0 end.
Definition held_f (a : nat) (f : finish) : Z := if bool_decide (a ∈ f_kept f) then f_count f else 0.
Definition held (a : nat) (s : state) : Z := zsum (held_t a) (threads s) + zsum (held_f a) (finished s).

(** The inserts that had returned when a reset began. *)
Definition before (old : nat) (fs : list finish) : list finish := drop (length fs - old) fs.

(** An insert that no reset has overtaken keeps all it has added; those that had
    returned before a reset keep nothing below where the reset is. *)
Definition kept_t (fs : list finish) (t : thread) : Prop :=
  match t with
  | Adding x n did rest live kept => (∀ a, a ∈ kept → a ∈ did) ∧ (live = true → kept = did)
  | Resetting k old => (old ≤ length fs)%nat ∧ Forall (λ f, ∀ a, a ∈ f_kept f → (k ≤ a)%nat) (before old fs)
  | _ => True
  end.
Definition kept_f (f : finish) : Prop :=
  (∀ a, a ∈ f_kept f → a ∈ adds (f_item f)) ∧ (f_live f = true → f_kept f = adds (f_item f)).

Record exact (s : state) : Prop := {
  ex_mem : ∀ a v, mem s !! a = Some v → v = held a s;
  ex_threads : Forall (kept_t (finished s)) (threads s);
  ex_finished : Forall kept_f (finished s)
}.

Lemma held_put s i t t' a : threads s !! i = Some t → held a (put s i t') = held a s - held_t a t + held_t a t'.
Proof. intros Ei. unfold held. cbn [put threads finished]. rewrite (zsum_insert _ _ _ _ _ Ei). lia. Qed.

Lemma kept_t_fmap (g : finish → finish) fs t :
  (∀ f a, a ∈ f_kept (g f) → a ∈ f_kept f) → kept_t fs t → kept_t (g <$> fs) t.
Proof.
  intros Hg. destruct t as [|x n did rest live kept| |k old]; try done. unfold kept_t, before. rewrite length_fmap, <- fmap_drop, Forall_fmap.
  intros [Hl Hf]. split; [done|]. eapply Forall_impl; [exact Hf|]. cbn. intros f H1 a Ha. by apply H1, Hg.
Qed.

Lemma kept_t_cons f fs t : kept_t fs t → kept_t (f :: fs) t.
Proof.
  destruct t as [|x n did rest live kept| |k old]; try done. unfold kept_t, before. cbn [length]. intros [Hl Hf]. split; [lia|].
  by replace (S (length fs) - old)%nat with (S (length fs - old)) by lia.
Qed.

(** A step of a handle that neither adds nor zeroes. *)
Lemma exact_quiet s i t t' :
  exact s → threads s !! i = Some t → (∀ a, held_t a t' = held_t a t) → kept_t (finished s) t' → exact (put s i t').
Proof.
  intros [H1 H2 H3] Ei Hh Hk. split; cbn; [|by apply Forall_insert|done].
  intros a v Hv. rewrite (held_put s i t) by done. rewrite Hh, (H1 a v Hv). lia.
Qed.

Lemma begin_exact s i c s' : exact s → begin s i c = Some s' → exact s'.
Proof.
  unfold begin. intros He. destruct (threads s !! i) as [[| | |]|] eqn:Ei; try done. destruct c as [x n|x|].
  - destruct (0 <? n); [|done]. intros [= <-]. eapply exact_quiet; [done..| |].
    + intros a. cbn. by rewrite (bool_decide_eq_false_2 (a ∈ [])) by apply not_elem_of_nil.
    + cbn. split; [|done]. by intros a Ha%not_elem_of_nil.
  - intros [= <-]. by eapply exact_quiet.
  - intros [= <-]. set (s1 := {| threads := outdate <$> threads s |}).
    assert (∀ a, held a s1 = held a s) as Eh.
    { intros a. unfold held. cbn [s1 threads finished]. rewrite !zsum_fmap. rewrite (zsum_ext (held_t a ∘ outdate) (held_t a)) by by intros []. done. }
    destruct He as [H1 H2 H3]. eapply (exact_quiet s1 i Idle); [|cbn; by rewrite list_lookup_fmap, Ei|done|].
    + split; cbn [s1 mem threads finished]; [intros a v Hv; rewrite Eh; by apply H1| |].
      * rewrite Forall_fmap. eapply Forall_impl; [exact H2|]. intros t Ht%(kept_t_fmap outdate_finish); [|done].
        destruct t as [|x n did rest live kept| |]; try done. by destruct Ht.
      * rewrite Forall_fmap. eapply Forall_impl; [exact H3|]. intros f [Hf _]. by split.
    + cbn [kept_t s1 finished]. rewrite length_fmap. split; [done|]. apply Forall_true. intros f a _. lia.
Qed.

Lemma add_fits s i x n did a rest live kept p :
  inv s → begun s < 2 ^ 64 → threads s !! i = Some (Adding x n did (a :: rest) live kept) → mem s !! a = Some p → 0 ≤ p ∧ p + n < 2 ^ 64.
Proof.
  intros Hi Hb Ei Hp. pose proof Hi as [H1 H2 H3 H4 H5]. pose proof (Forall_lookup_1 _ _ _ _ H3 Ei) as [Ex Hn].
  assert (a ∉ did) as Hnew.
  { pose proof (adds_nodup x) as Hd. rewrite Ex in Hd. apply NoDup_app in Hd as (_ & Hd & _). intros Hin. apply (Hd a Hin). by left. }
  assert (added false a (put s i Idle) = added false a s) as Ea.
  { rewrite (added_put s i _ _ _ _ Ei). cbn. rewrite (bool_decide_eq_false_2 (a ∈ did)) by done. lia. }
  assert (0 ≤ p ≤ added false a s) as Hpb by (destruct (added_bounds s true a Hi); specialize (H2 a p Hp); lia).
  enough (added false a s ≤ begun (put s i Idle)) by (rewrite (begun_put s i _ _ Ei) in *; cbn [begun_t] in *; lia).
  rewrite <- Ea. unfold added, begun. cbn [put threads finished]. rewrite !(zsum_insert _ _ _ _ _ Ei). cbn [part_t begun_t].
  rewrite (bool_decide_eq_false_2 (a ∈ did)), andb_false_r by done.
  assert (zsum (part_t false a) (<[i := Idle]> (threads s)) ≤ zsum begun_t (<[i := Idle]> (threads s))) as Hz.
  { apply zsum_le. apply Forall_insert; [|done]. eapply Forall_impl; [exact H3|]. intros t Ht. destruct (part_t_bounds s false a t Ht). lia. }
  assert (zsum (part_f false a) (finished s) ≤ zsum f_count (finished s)).
  { apply zsum_le. eapply Forall_impl; [exact H4|]. intros f Hf. destruct (part_f_bounds false a f Hf). lia. }
  rewrite !(zsum_insert _ _ _ _ _ Ei) in Hz. cbn [part_t begun_t] in Hz. rewrite (bool_decide_eq_false_2 (a ∈ did)), andb_false_r in Hz by done. lia.
Qed.

Lemma add_exact s i x n did a rest live kept old m :
  inv s → begun s < 2 ^ 64 → exact s → threads s !! i = Some (Adding x n did (a :: rest) live kept) → fetch_add n a (mem s) = Some (old, m) →
  exact (put (put_mem s m) i (Adding x n (did ++ [a]) rest live (kept ++ [a]))).
Proof.
  intros Hi Hb [H1 H2 H3] Ei E. unfold fetch_add, rmw in E. destruct (mem s !! a) as [p|] eqn:Ep; [|done]. cbn in E. injection E as <- <-.
  destruct (add_fits s i x n did a rest live kept p Hi Hb Ei Ep). pose proof (Forall_lookup_1 _ _ _ _ (inv_threads _ Hi) Ei) as [Ex Hn].
  pose proof (Forall_lookup_1 _ _ _ _ H2 Ei) as [Hk Hl]. assert (a ∉ kept) as Hnew.
  { pose proof (adds_nodup x) as Hd. rewrite Ex in Hd. apply NoDup_app in Hd as (_ & Hd & _). intros Hin%Hk. apply (Hd a Hin). by left. }
  split; cbn [put put_mem mem threads finished]; [| |done].
  - intros b v Hv. transitivity (held b (put s i (Adding x n (did ++ [a]) rest live (kept ++ [a])))); [|done]. rewrite (held_put s i _ _ _ Ei). cbn [held_t].
    apply list_lookup_insert_Some in Hv as [(<- & <- & _)|[Hne Hv]].
    + rewrite (bool_decide_eq_true_2 (a ∈ kept ++ [a])), (bool_decide_eq_false_2 (a ∈ kept)), wrap_small by (done || lia || mem). rewrite (H1 a p Ep). lia.
    + rewrite (bool_decide_ext (b ∈ kept ++ [a]) (b ∈ kept)) by set_solver. rewrite (H1 b v Hv). lia.
  - apply Forall_insert; [done|]. cbn. split; [set_solver|]. by intros ->%Hl.
Qed.

Lemma finish_exact s i x n did live kept :
  inv s → exact s → threads s !! i = Some (Adding x n did [] live kept) →
  exact (put {| mem := mem s; threads := threads s;
                finished := {| f_item := x; f_count := n; f_live := live; f_kept := kept |} :: finished s |} i Idle).
Proof.
  intros Hi [H1 H2 H3] Ei. pose proof (Forall_lookup_1 _ _ _ _ (inv_threads _ Hi) Ei) as [Ex Hn]. rewrite app_nil_r in Ex.
  pose proof (Forall_lookup_1 _ _ _ _ H2 Ei) as [Hk Hl]. split; cbn [put mem threads finished].
  - intros a v Hv. rewrite (H1 a v Hv). unfold held. cbn [put threads finished]. rewrite (zsum_insert _ _ _ _ _ Ei). unfold zsum at 4. cbn [foldr held_t held_f f_kept f_count].
    fold (zsum (held_f a) (finished s)). unfold held_f at 2. cbn. lia.
  - apply Forall_insert; [|done]. eapply Forall_impl; [exact H2|]. intros t. apply kept_t_cons.
  - constructor; [|done]. split; cbn; rewrite Ex; done.
Qed.

Lemma zero_exact s i k since old m :
  inv s → exact s → threads s !! i = Some (Resetting k since) → store 0 k (mem s) = Some (old, m) →
  exact (put (wipe k (put_mem s m)) i (Resetting (S k) since)).
Proof.
  intros Hi [H1 H2 H3] Ei E. assert (existsb resetting (threads s) = true) as Hr.
  { apply existsb_exists. exists (Resetting k since). split; [|done]. by apply list_elem_of_In, (list_elem_of_lookup_2 _ i). }
  destruct (inv_reset _ Hi Hr) as [Hu Hf]. unfold store, rmw in E. destruct (mem s !! k) as [p|] eqn:Ep; [|done]. cbn in E. injection E as <- <-.
  assert (∀ a l, a ∈ spare k l ↔ a ≠ k ∧ a ∈ l) as Hsp by (intros a l; unfold spare; by rewrite list_elem_of_filter).
  assert (∀ a l, bool_decide (a ∈ spare k l) = negb (bool_decide (a = k)) && bool_decide (a ∈ l)) as Hb.
  { intros a l. rewrite (bool_decide_ext _ _ (Hsp a l)). rewrite bool_decide_and, bool_decide_not. done. }
  set (s1 := wipe k _). assert (∀ a, held a s1 = if bool_decide (a = k) then 0 else held a s) as Eh.
  { intros a. unfold held. cbn [s1 wipe put_mem threads finished]. rewrite !zsum_fmap. destruct (decide (a = k)) as [->|Hne].
    - rewrite (bool_decide_eq_true_2 (k = k)) by done.
      rewrite !zsum_zero; [done|apply Forall_true; intros f; unfold held_f|apply Forall_true; intros []; try done]; cbn; by rewrite Hb, (bool_decide_eq_true_2 (k = k)).
    - rewrite bool_decide_eq_false_2 by done. f_equal; apply zsum_ext; intros t; [destruct t; try done; cbn|unfold held_f; cbn]; by rewrite Hb, (bool_decide_eq_false_2 (a = k)). }
  assert (threads s1 !! i = Some (Resetting k since)) as Ei1 by (cbn; by rewrite list_lookup_fmap, Ei).
  split; cbn [put mem threads finished].
  - intros a v Hv. rewrite (held_put s1 i _ _ _ Ei1), Eh. cbn [held_t]. cbn [s1 wipe put_mem mem] in Hv. apply list_lookup_insert_Some in Hv as [(<- & <- & _)|[Hne Hv]].
    + by rewrite bool_decide_eq_true_2.
    + rewrite bool_decide_eq_false_2, (H1 a v Hv) by done. lia.
  - apply Forall_insert; cbn [s1 wipe put_mem threads finished].
    + rewrite Forall_fmap. rewrite Forall_forall in H2, Hu |- *. intros t Ht. cbn. pose proof (Hu t Ht) as Hut. apply H2 in Ht.
      apply (kept_t_fmap (wipe_finish k)) in Ht; [|intros f a; cbn; rewrite Hsp; tauto]. destruct t as [|x n did rest live kept| |]; try done.
      destruct Ht as [Ht _]. cbn in Hut |- *. split; [intros a [_ Ha]%Hsp; by apply Ht|congruence].
    + pose proof (Forall_lookup_1 _ _ _ _ H2 Ei) as [Hl Hk]. unfold kept_t, before in *. rewrite length_fmap, <- fmap_drop, Forall_fmap. split; [done|].
      eapply Forall_impl; [exact Hk|]. cbn. intros f Hfk a [Hne Ha]%Hsp. specialize (Hfk a Ha). lia.
  - cbn [s1 wipe put_mem finished]. rewrite Forall_fmap. rewrite Forall_forall in H3, Hf |- *. intros f Hin. destruct (H3 f Hin) as [Hk _].
    split; cbn; [intros a [_ Ha]%Hsp; by apply Hk|]. rewrite (Hf f Hin). done.
Qed.

Lemma advance_exact s i l s' : inv s → begun s < 2 ^ 64 → exact s → advance s i = Some (l, s') → exact s'.
Proof.
  unfold advance. intros Hi Hb He. destruct (threads s !! i) as [[|x n did [|a rest] live kept|x did [|a rest] v due|k old]|] eqn:Ei; try done.
  - intros [= <- <-]. by eapply finish_exact.
  - destruct (fetch_add n a (mem s)) as [[o m]|] eqn:E; [|done]. cbn. intros [= <- <-]. by eapply add_exact.
  - intros [= <- <-]. by eapply exact_quiet.
  - destruct (mem s !! a) as [c|]; [|done]. cbn. intros [= <- <-]. by eapply exact_quiet.
  - case_bool_decide.
    + destruct (store 0 k (mem s)) as [[o m]|] eqn:E; [|done]. cbn. intros [= <- <-]. by eapply zero_exact.
    + intros [= <- <-]. by eapply exact_quiet.
Qed.

Lemma run_exact n tr s : ltrace step (init n) tr s → begun s < 2 ^ 64 → exact s.
Proof.
  revert tr s. apply (ltrace_rev_ind step (init n) (λ _ s, begun s < 2 ^ 64 → exact s)).
  - intros _. split; cbn; [|by apply Forall_replicate|constructor]. intros a v [-> _]%lookup_replicate. unfold held. cbn [threads finished init].
    rewrite (zsum_zero _ (replicate _ _)) by by apply Forall_replicate. done.
  - intros tr s1 l s2 Ht IH Hs Hb. pose proof (step_begun _ _ _ Hs). assert (inv s1) by (eapply run_inv_cms; [done|lia]). specialize (IH ltac:(lia)).
    destruct Hs; [by eapply begin_exact|eapply advance_exact; [done|lia|done..] ].
Qed.

(** No handle is ever outside the region. *)
Lemma advance_total_cms s i t : inv s → threads s !! i = Some t → t ≠ Idle → is_Some (advance s i).
Proof.
  intros Hi Ei Hne. unfold advance. rewrite Ei.
  pose proof (Forall_lookup_1 _ _ _ _ (inv_threads _ Hi) Ei) as Ht. pose proof (inv_len _ Hi) as Hl.
  assert (∀ x a, a ∈ adds x → is_Some (mem s !! a)) as Hp.
  { intros x a Ha. apply lookup_lt_is_Some_2. rewrite Hl. by eapply adds_in. }
  destruct t as [|x n did [|a rest] live kept|x did [|a rest] v due|k old]; [done|by eauto| |by eauto| |].
  - destruct Ht as [Ex _]. destruct (Hp x a) as [c Ec]; [rewrite Ex; mem|].
    unfold fetch_add, rmw. rewrite Ec. cbn. eauto.
  - destruct Ht as [Ex _]. destruct (Hp x a) as [c Ec]; [apply reads_adds; rewrite Ex; mem|]. rewrite Ec. cbn. eauto.
  - case_bool_decide as Hk; [|eauto]. destruct (lookup_lt_is_Some_2 (mem s) k) as [c Ec]; [by rewrite Hl|].
    unfold store, rmw. rewrite Ec. cbn. eauto.
Qed.

(** The inserts no reset has overtaken whose item adds to [a]. *)
Definition standing (a : nat) (s : state) : Z := zsum (part_f true a) (finished s).

(** Between calls, when every insert stands or is wiped out, each counter is what
    the standing ones add up to. *)
Lemma quiet_exact s a v :
  exact s → Forall (eq Idle) (threads s) → Forall (λ f, f_live f = true ∨ f_live f = false ∧ f_kept f = []) (finished s) →
  mem s !! a = Some v → v = standing a s.
Proof.
  intros [H1 _ H3] Ht Hf Ev. rewrite (H1 a v Ev). unfold held, standing.
  rewrite (zsum_zero (held_t a)) by (eapply Forall_impl; [exact Ht|]; by intros t <-). rewrite Z.add_0_l.
  clear -Hf H3. induction Hf as [|f l Hl _ IH]; [done|]. apply Forall_cons in H3 as [ [_ Hk] H3]. unfold zsum in *. cbn [foldr]. rewrite (IH H3). f_equal.
  unfold held_f, part_f. destruct Hl as [Hl|[Hl E] ]; rewrite Hl; [by rewrite (Hk Hl)|]. rewrite E. by rewrite (bool_decide_eq_false_2 (a ∈ [])) by apply not_elem_of_nil.
Qed.

(** A reset that returns has wiped out every insert that had returned before it
    began. *)
Lemma reset_wiped s i k old s' :
  inv s → exact s → threads s !! i = Some (Resetting k old) → advance s i = Some (WasReset, s') → Forall (λ f, f_kept f = []) (before old (finished s)).
Proof.
  intros Hi He Ei Ea. unfold advance in Ea. rewrite Ei in Ea. case_bool_decide as Hk; [by destruct (store 0 k (mem s)) as [[]|]|].
  pose proof (Forall_lookup_1 _ _ _ _ (ex_threads _ He) Ei) as [_ Hw]. rewrite Forall_forall in Hw |- *. intros f Hin.
  destruct (f_kept f) as [|a l] eqn:E; [done|]. exfalso. specialize (Hw f Hin a). rewrite E in Hw. specialize (Hw ltac:(by left)).
  assert (f ∈ finished s) as Hin' by (unfold before in Hin; rewrite <- (take_drop (length (finished s) - old) (finished s)); apply elem_of_app; by right).
  pose proof (ex_finished _ He) as Hf. rewrite Forall_forall in Hf. destruct (Hf f Hin') as [Hsub _].
  assert (a < n_counters)%nat by (eapply adds_in, Hsub; rewrite E; by left). lia.
Qed.

(** An estimate lies between what was inserted and what shares its counters. *)
Lemma estimate_bounds s i x due v s' :
  inv s → advance s i = Some (Estimated x due v, s') → due ≤ v ∧ ∀ a, a ∈ reads x → v ≤ load a s.
Proof.
  intros Hi E. unfold advance in E. destruct (threads s !! i) as [[|y n1 did [|a rest] live kept|y did [|a rest] u du|k old]|] eqn:Ei; try done.
  - destruct (fetch_add n1 a (mem s)) as [[]|]; done.
  - injection E as -> -> -> <-. pose proof (Forall_lookup_1 _ _ _ _ (inv_threads _ Hi) Ei) as (Ex & _ & Hv & Hf).
    split; [lia|]. intros a Ha. rewrite app_nil_r in Ex. rewrite Ex in Ha. rewrite Forall_forall in Hf.
    specialize (Hf a Ha). destruct (added_bounds s false a Hi). lia.
  - destruct (mem s !! a); done.
  - case_bool_decide; [|done]. destruct (store 0 k (mem s)) as [[]|]; done.
Qed.

(** Schedules, as for the filters. *)
Fixpoint drive (s : state) (sched : list (nat * option call)) : option (list label * state) :=
  match sched with
  | [] => Some ([], s)
  | (i, Some c) :: sched => s ← begin s i c; '(tr, s) ← drive s sched; Some (Tau :: tr, s)
  | (i, None) :: sched => '(l, s) ← advance s i; '(tr, s) ← drive s sched; Some (l :: tr, s)
  end.

Lemma drive_run_cms s sched tr s' : drive s sched = Some (tr, s') → ltrace step s tr s'.
Proof.
  revert s tr. induction sched as [|[i [c|]] sched IH]; intros s tr; cbn [drive].
  - intros [= <- <-]. constructor.
  - destruct (begin s i c) as [s1|] eqn:E; [|done]. cbn.
    destruct (drive s1 sched) as [[tr1 s2]|] eqn:E2; [|done]. cbn. intros [= <- <-].
    econstructor; [by eapply step_begin|by apply IH].
  - destruct (advance s i) as [[l s1]|] eqn:E; [|done]. cbn.
    destruct (drive s1 sched) as [[tr1 s2]|] eqn:E2; [|done]. cbn. intros [= <- <-].
    econstructor; [by eapply step_advance|by apply IH].
Qed.
End machine.

(** * The sketch provides the interface *)

Lemma column_bound w x row : (1 ≤ w)%nat → Z.of_nat w < 2 ^ 32 → (column w x row < w)%nat.
Proof.
  intros Hw H32. unfold column. set (raw := u64 (hash1 x + _)).
  assert (is_word raw) as Hr by (by apply (wrap_bound 64)).
  assert (∀ c, 0 ≤ c < Z.of_nat w → (Z.to_nat (u32 c) < w)%nat) as Hc.
  { intros c Hc. rewrite wrap_small by lia. lia. }
  destruct (is_power_of_two (Z.of_nat w)) eqn:E; apply Hc.
  - apply is_power_of_two_spec in E as (k & Hk & E); [|lia]. rewrite (wrap_small 64 (Z.of_nat w - 1)) by lia.
    rewrite E, land_mask_mod by lia. apply Z.mod_pos_bound. lia.
  - apply fastrange_bound; [done|lia].
Qed.

Lemma item_cells_in d w x a : (1 ≤ w)%nat → Z.of_nat w < 2 ^ 32 → a ∈ item_cells d w x → (a < d * w)%nat.
Proof.
  intros Hw H32 (row & -> & Hr%elem_of_seq)%list_elem_of_fmap. unfold cell.
  pose proof (column_bound w x row Hw H32). nia.
Qed.

(** The cells of an item lie in distinct rows. *)
Lemma item_cells_nodup d w x : (1 ≤ w)%nat → Z.of_nat w < 2 ^ 32 → NoDup (item_cells d w x).
Proof.
  intros Hw H32. apply NoDup_fmap_2_strong; [|apply NoDup_seq]. intros r1 r2 _ _. unfold cell. intros E.
  pose proof (column_bound w x r1 Hw H32). pose proof (column_bound w x r2 Hw H32). nia.
Qed.

Section sketch.
Context (d w : nat) (Hw : (1 ≤ w)%nat) (H32 : Z.of_nat w < 2 ^ 32).

Definition sketch_adds (x : item) : list nat := item_cells d w x ++ [(d * w)%nat].

Lemma sketch_adds_in x a : a ∈ sketch_adds x → (a < S (d * w))%nat.
Proof. intros [Ha| ->%list_elem_of_singleton]%elem_of_app; [|lia]. apply item_cells_in in Ha; [lia|done..]. Qed.

Lemma sketch_adds_nodup x : NoDup (sketch_adds x).
Proof.
  apply NoDup_app. split; [by apply item_cells_nodup|]. split; [|apply NoDup_singleton].
  intros a Ha ->%list_elem_of_singleton. apply item_cells_in in Ha; [lia|done..].
Qed.

Lemma sketch_reads_adds x a : a ∈ item_cells d w x → a ∈ sketch_adds x.
Proof. intros. apply elem_of_app. by left. Qed.

(** The counters: the cells and, after them, the total of the header. *)
Definition sketch_counters : CounterSketch := {|
  n_counters := S (d * w);
  adds := sketch_adds;
  reads := item_cells d w;
  adds_in := sketch_adds_in;
  adds_nodup := sketch_adds_nodup;
  reads_adds := sketch_reads_adds
|}.
End sketch.

(** * The sequential calls make the accesses of the interface *)

Lemma add_loop_app n cs m k :
  Forall (λ c, c < length m)%nat cs → add_loop n cs (m ++ k) = (λ m', m' ++ k) <$> add_loop n cs m.
Proof.
  revert m. induction cs as [|c cs IH]; intros m Hc; [done|]. apply Forall_cons in Hc as [Hc Hcs].
  cbn [add_loop]. unfold fetch_add, rmw. rewrite lookup_app_l by done.
  destruct (lookup_lt_is_Some_2 m c Hc) as [p Ep]. rewrite Ep. cbn [mbind option_bind].
  rewrite insert_app_l by done. apply IH. eapply Forall_impl; [done|]. cbn. intros b. by rewrite length_insert.
Qed.

Lemma add_loop_length n cs m m' : add_loop n cs m = Some m' → length m' = length m.
Proof.
  revert m. induction cs as [|c cs IH]; intros m; cbn [add_loop]; [by intros [= ->]|].
  unfold fetch_add, rmw. destruct (m !! c); [|done]. cbn. intros E%IH. rewrite E. len.
Qed.

Lemma add_loop_snoc n cs a m : add_loop n (cs ++ [a]) m = (m ← add_loop n cs m; add_loop n [a] m).
Proof.
  revert m. induction cs as [|c cs IH]; intros m; [done|]. cbn [add_loop app].
  destruct (fetch_add n c m) as [[o m1]|]; [|done]. cbn [mbind option_bind]. apply IH.
Qed.

Lemma min_loop_app cs m k v :
  Forall (λ c, c < length m)%nat cs → min_loop cs (m ++ k) v = min_loop cs m v.
Proof.
  intros Hc. revert v. induction Hc as [|c cs Hc _ IH]; intros v; [done|]. cbn [min_loop].
  rewrite lookup_app_l by done. destruct (m !! c); [|done]. apply IH.
Qed.

(** [insert_n] adds to its item's counters in order, [estimate_count] takes the
    least of those it reads. *)
Lemma sketch_calls s x n :
  (1 ≤ w s)%nat → Z.of_nat (w s) < 2 ^ 32 → length (cells s) = (d s * w s)%nat → n ≠ 0 →
  ((λ s', cells s' ++ [total s']) <$> insert_n s x n
     = add_loop n (sketch_adds (d s) (w s) x) (cells s ++ [total s])) ∧
  ((1 ≤ d s)%nat → estimate_count s x = min_loop (item_cells (d s) (w s) x) (cells s ++ [total s]) U64_MAX).
Proof.
  intros Hw H32 HL Hn. assert (Forall (λ c, c < length (cells s))%nat (item_cells (d s) (w s) x)) as Hc.
  { apply Forall_forall. intros a Ha. rewrite HL. by eapply item_cells_in. }
  split.
  - unfold insert_n, add_all. destruct (Z.eqb_spec n 0); [done|]. unfold sketch_adds.
    rewrite add_loop_snoc, add_loop_app by done.
    destruct (add_loop n (item_cells (d s) (w s) x) (cells s)) as [m|] eqn:E; [|done].
    cbn [fmap option_fmap option_map mbind option_bind cells total add_loop].
    apply add_loop_length in E. unfold fetch_add, rmw. rewrite lookup_app_r by lia.
    replace (d s * w s - length m)%nat with 0%nat by lia. cbn [lookup list_lookup mbind option_bind].
    f_equal. rewrite insert_app_r_alt by lia. by replace (d s * w s - length m)%nat with 0%nat by lia.
  - intros Hd. unfold estimate_count. rewrite min_loop_app by done. rewrite bool_decide_eq_false_2 by lia.
    by destruct (min_loop _ _ _).
Qed.

(** [reset] zeroes the cells in the order of the counters; the store of the
    total comes last. *)
Lemma reset_accesses d w :
  (row ← seq 0 d; (λ col, (cell w row col, λ _ : Z, 0)) <$> seq 0 w) = (λ k, (k, λ _ : Z, 0)) <$> seq 0 (d * w).
Proof.
  induction d as [|d IH]; [done|]. rewrite seq_S, bind_app, IH. cbn [mbind list_bind]. rewrite app_nil_r.
  replace (S d * w)%nat with (d * w + w)%nat by lia. rewrite seq_app, fmap_app. f_equal.
  replace (0 + d * w)%nat with (d * w + 0)%nat by lia. rewrite <- (fmap_add_seq (d * w) 0), <- list_fmap_compose. done.
Qed.

(** * Theorem *)

(** [n] handles on a created sketch: its cells and, after them, its total. *)
Definition start (sk : SharedCountMinSketch) (n : nat) : state :=
  {| mem := cells sk ++ [total sk]; finished := []; threads := replicate n Idle |}.

(** C40: a count-min sketch of [d] rows of [w], whose size does not wrap, from its
    creation, whatever the interleaving. Any number of handles insert, estimate and
    reset at once, their accesses to the counters interleaved in any way, the
    counts begun adding up to less than [2^64]. An estimate that returns [v] is at
    least what had been inserted of its item when it began (by inserts no reset has
    overtaken), and at most, in every row, the counts of the inserts begun whose
    item shares the cell. At every moment a counter is exactly the sum of the
    counts of the inserts that have added to it since it was last zeroed: an insert
    that no reset has overtaken is counted in all its cells, and one that had
    returned before a reset began is counted in none once that reset returns. So
    when no call is under way, and every insert either stands or has been wiped out,
    each counter is exactly the sum of the standing inserts that share it; an insert
    that ran while a reset did may be left in some of its rows only. And no handle
    ever reaches outside the mapping. *)
Theorem count_min_bounds dn wn (Hw : (1 ≤ wn)%nat) (H32 : Z.of_nat wn < 2 ^ 32) sk n tr s :
  cms_create dn wn = Ok sk → 64 + Z.of_nat dn * Z.of_nat wn * 8 < 2 ^ 64 →
  let F := sketch_counters dn wn Hw H32 in
  ltrace step (start sk n) tr s → begun s < 2 ^ 64 →
  (∀ i x due v s', advance s i = Some (Estimated x due v, s') →
     due ≤ v ∧ ∀ a, a ∈ item_cells dn wn x → v ≤ load a s) ∧
  (∀ a v, mem s !! a = Some v → v = held a s) ∧
  (∀ f, f ∈ finished s → f_live f = true → f_kept f = adds (f_item f)) ∧
  (∀ i k old s', threads s !! i = Some (Resetting k old) → advance s i = Some (WasReset, s') →
     Forall (λ f, f_kept f = []) (before old (finished s))) ∧
  (Forall (eq Idle) (threads s) → Forall (λ f, f_live f = true ∨ f_live f = false ∧ f_kept f = []) (finished s) →
     ∀ a v, mem s !! a = Some v → v = standing a s) ∧
  (∀ i t, threads s !! i = Some t → t ≠ Idle → is_Some (advance s i)).
Proof.
  intros Hc Hs F Ht Hb. assert (start sk n = init n) as E.
  { unfold start, init. f_equal. by apply (cms_created dn wn sk). }
  rewrite E in Ht. pose proof (run_inv_cms n tr s Ht Hb) as Hi. pose proof (run_exact n tr s Ht Hb) as He. split_and!.
  - intros i x due v s' Ha. exact (estimate_bounds s i x due v s' Hi Ha).
  - apply He.
  - intros f Hin. pose proof (ex_finished _ He) as Hf. rewrite Forall_forall in Hf. by apply Hf.
  - intros i k old s'. by apply reset_wiped.
  - intros Hidle Hlive a v. by apply quiet_exact.
  - intros i t. by apply advance_total_cms.
Qed.

(** Two handles of a sketch of two rows of three: one inserts, the other resets;
    then both insert, interleaved, and one estimates. *)
Definition sketch_schedule : list (nat * option call) :=
  (1%nat, Some (CInsertN [98] 9)) :: replicate 4 (1%nat, None) ++ (0%nat, Some CReset) :: replicate 8 (0%nat, None) ++
  [(0%nat, Some (CInsertN [102; 111; 111] 5)); (1%nat, Some (CInsertN [98] 2)); (0%nat, None); (1%nat, None);
   (1%nat, None); (0%nat, None); (0%nat, None); (0%nat, None); (1%nat, None); (1%nat, None)].

Lemma count_min_bounds_witness :
  let F := sketch_counters 2 3 ltac:(lia) ltac:(lia) in
  ∃ sk tr s, cms_create 2 3 = Ok sk ∧ drive (start sk 2) sketch_schedule = Some (tr, s) ∧
    (∀ a v, mem s !! a = Some v → v = standing a s) ∧ (λ a, standing a s) <$> seq 0 7 = mem s ∧ last (mem s) = Some 7 ∧
    ∃ tr' s' v s2, drive s ((0%nat, Some (CEstimate [102; 111; 111])) :: replicate 2 (0%nat, None)) = Some (tr', s') ∧
      advance s' 0 = Some (Estimated [102; 111; 111] 5 v, s2) ∧ 5 ≤ v ∧ ∀ a, a ∈ item_cells 2 3 [102; 111; 111] → v ≤ load a s'.
Proof.
  intros F. destruct (cms_create 2 3) as [sk| |] eqn:Ec; [|done|done]. pose proof Ec as Esk. vm_compute in Esk. injection Esk as Esk.
  destruct (drive (start sk 2) sketch_schedule) as [[tr s]|] eqn:E; [|rewrite <- Esk in E; vm_compute in E; done].
  pose proof (drive_run_cms _ _ _ _ E) as Ht. pose proof E as E0. rewrite <- Esk in E0. vm_compute in E0. injection E0 as Etr Es. symmetry in Es.
  destruct (drive s ((0%nat, Some (CEstimate [102; 111; 111])) :: replicate 2 (0%nat, None))) as [[tr' s']|] eqn:E'; [|rewrite Es in E'; vm_compute in E'; done].
  pose proof (ltrace_app _ _ _ _ _ _ Ht (drive_run_cms _ _ _ _ E')) as Ht'. pose proof E' as E1. rewrite Es in E1. vm_compute in E1. injection E1 as _ Es'. symmetry in Es'.
  exists sk, tr, s. split; [done|]. split; [exact E|].
  destruct (count_min_bounds 2 3 ltac:(lia) ltac:(lia) sk 2 tr s Ec ltac:(lia) Ht) as (_ & _ & _ & _ & Hq & _); [rewrite Es; by vm_compute|].
  split; [apply Hq; rewrite Es; repeat constructor; by vm_compute; auto|]. split; [rewrite Es; by vm_compute|]. split; [rewrite Es; by vm_compute|].
  destruct (count_min_bounds 2 3 ltac:(lia) ltac:(lia) sk 2 _ s' Ec ltac:(lia) Ht') as (Hb & _); [rewrite Es'; by vm_compute|].
  assert (∃ v s2, advance s' 0 = Some (Estimated [102; 111; 111] 5 v, s2)) as (v & s2 & Ea).
  { destruct (advance s' 0) as [[l s2]|] eqn:Ea; rewrite Es' in Ea; vm_compute in Ea; [|done]. injection Ea as El _. rewrite <- El. by eexists _, _. }
  exists tr', s', v, s2. split; [exact E'|]. split; [exact Ea|]. by apply (Hb 0%nat _ _ _ s2).
Defined.
