(* ===== verification/HyperLogLog.v ===== *)
(** HyperLogLog registers: [crates/subetha-cxc/src/shared_hyper_log_log.rs].

    An insert is one atomic [fetch_max] of a rank into one register, so a run of
    concurrent inserts is a sequence of them. What is shown: the registers are a
    function of the set of items inserted, whatever the order, the interleaving
    and the repetitions ([hll_is_set]); each holds the greatest rank of the
    items it is chosen by. The estimate is computed in floating point and is not
    modelled. *)
From S2P Require Import Prelude BitVec Bloom.

Definition HLL_MAGIC : Z := 0x4150484C4C563031.
Definition MIN_PRECISION : Z := 4.
Definition MAX_PRECISION : Z := 16.

Inductive HLLError := InvalidPrecision | HLLLayoutMismatch.

Record HLLHeader := { hll_magic : Z; hdr_precision : Z; hdr_m : Z }.

Record SharedHyperLogLog := { precision : Z; m : Z; registers : list Z }.

Definition hll_file_size (p : Z) : Z := 64 + Z.shiftl 1 p.

Definition hll_init_region (p : Z) : HLLHeader * list Z :=
  ({| hll_magic := HLL_MAGIC; hdr_precision := p; hdr_m := Z.shiftl 1 p |}, replicate (Z.to_nat (Z.shiftl 1 p)) 0).

Definition hll_from_region (r : HLLHeader * list Z) (p : Z) : res HLLError SharedHyperLogLog :=
  if negb (hll_magic r.1 =? HLL_MAGIC) || negb (hdr_precision r.1 =? p) then Err HLLLayoutMismatch
  else Ok {| precision := p; m := hdr_m r.1; registers := r.2 |}.

(** [create] on a path that does not exist. *)
Definition hll_create (p : Z) : res HLLError SharedHyperLogLog :=
  if negb ((MIN_PRECISION <=? p) && (p <=? MAX_PRECISION)) then Err InvalidPrecision
  else hll_from_region (hll_init_region p) p.

Definition hash_for_hll (x : item) : Z := fmix64 (fnv1a_seeded x FNV_OFFSET_BASIS_1).

(** [u64::leading_zeros]. *)
Definition leading_zeros (x : Z) : Z := if x =? 0 then 64 else 63 - Z.log2 x.

Definition reg_idx (p h : Z) : nat := Z.to_nat (Z.shiftr h (64 - p)).

Definition rank (p h : Z) : Z :=
  let w := Z.lor (u64 (Z.shiftl h p)) (Z.shiftl 1 (Z.max (p - 1) 0)) in
  u8 (leading_zeros w) + 1.

Definition hll_insert (s : SharedHyperLogLog) (x : item) : option SharedHyperLogLog :=
  let h := hash_for_hll x in
  '(_, rs) ← rmw (λ r, Z.max r (rank (precision s) h)) (reg_idx (precision s) h) (registers s);
  Some {| precision := precision s; m := m s; registers := rs |}.

Definition hll_reset (s : SharedHyperLogLog) : option SharedHyperLogLog :=
  rs ← accesses ((λ i, (i, λ _, 0)) <$> seq 0 (Z.to_nat (m s))) (registers s);
  Some {| precision := precision s; m := m s; registers := rs |}.

Fixpoint hll_inserts (s : SharedHyperLogLog) (xs : list item) : option SharedHyperLogLog :=
  match xs with [] => Some s | x :: xs => s ← hll_insert s x; hll_inserts s xs end.

(** * Ranks *)

(** The rank is one more than the leading zeros of the low [64 - p] bits. *)
Lemma rank_spec p h :
  MIN_PRECISION ≤ p ≤ MAX_PRECISION → is_word h →
  let low := h mod 2 ^ (64 - p) in
  rank p h = (if low =? 0 then 65 - p else 64 - p - Z.log2 low) ∧ 1 ≤ rank p h ≤ 65 - p.
Proof.
  intros Hp Hh low. unfold MIN_PRECISION, MAX_PRECISION in Hp.
  assert (0 ≤ low < 2 ^ (64 - p)) as Hlow by (apply Z.mod_pos_bound; lia).
  assert (u64 (Z.shiftl h p) = Z.shiftl low p) as E1.
  { unfold wrap, low. rewrite !Z.shiftl_mul_pow2 by lia. replace (2 ^ 64) with (2 ^ (64 - p) * 2 ^ p).
    - by rewrite Z.mul_mod_distr_r by lia.
    - rewrite <- Z.pow_add_r by lia. f_equal. lia. }
  pose proof (Z.pow_succ_r 2 (p - 1) ltac:(lia)) as E2. replace (Z.succ (p - 1)) with p in E2 by lia.
  pose proof (Z.pow_pos_nonneg 2 (p - 1) ltac:(lia) ltac:(lia)) as E3.
  unfold rank. rewrite E1, Z.max_l, Z.shiftl_1_l, lor_shiftl_add by lia. unfold leading_zeros.
  destruct (Z.eqb_spec (low * 2 ^ p + 2 ^ (p - 1)) 0) as [E|_]; [nia|].
  destruct (Z.eqb_spec low 0) as [->|Hne].
  - rewrite Z.mul_0_l, Z.add_0_l, Z.log2_pow2 by lia. rewrite wrap_small by lia. lia.
  - assert (Z.log2 (low * 2 ^ p + 2 ^ (p - 1)) = Z.log2 low + p) as ->.
    { destruct (Z.log2_spec low ltac:(lia)) as [L1 L2]. rewrite <- Z.add_1_r in L2.
      apply Z.log2_unique; [pose proof (Z.log2_nonneg low); lia|].
      pose proof (Z.log2_nonneg low). rewrite <- Z.add_1_r. 
      replace (Z.log2 low + p + 1) with (Z.log2 low + 1 + p) by lia. rewrite !(Z.pow_add_r 2 _ p) by lia. nia. }
    assert (Z.log2 low < 64 - p) by (apply Z.log2_lt_pow2; lia). pose proof (Z.log2_nonneg low).
    rewrite wrap_small by lia. lia.
Qed.

Lemma reg_idx_bound p h : 0 < p ≤ 64 → is_word h → (reg_idx p h < Z.to_nat (Z.shiftl 1 p))%nat.
Proof.
  intros Hp Hh. unfold reg_idx. rewrite Z.shiftl_1_l, Z.shiftr_div_pow2 by lia. unfold is_word in Hh.
  assert (0 ≤ h / 2 ^ (64 - p)) by (apply Z.div_pos; lia).
  assert (h / 2 ^ (64 - p) < 2 ^ p).
  { apply Z.div_lt_upper_bound; [lia|]. rewrite <- Z.pow_add_r by lia. replace (64 - p + p) with 64 by lia. lia. }
  lia.
Qed.

(** * Registers *)

(** The greatest rank of the items that choose register [j]. *)
Definition max_rank (p : Z) (xs : list item) (j : nat) : Z :=
  foldr (λ x acc, if bool_decide (reg_idx p (hash_for_hll x) = j)
                  then Z.max (rank p (hash_for_hll x)) acc else acc) 0 xs.

Lemma hash_for_hll_word x : is_word (hash_for_hll x).
Proof. apply fmix64_word, fnv1a_word. done. Qed.

Lemma max_rank_spec p xs j :
  0 ≤ max_rank p xs j ∧
  (∀ x, x ∈ xs → reg_idx p (hash_for_hll x) = j → rank p (hash_for_hll x) ≤ max_rank p xs j) ∧
  (max_rank p xs j = 0 ∨ ∃ x, x ∈ xs ∧ reg_idx p (hash_for_hll x) = j ∧ rank p (hash_for_hll x) = max_rank p xs j).
Proof.
  induction xs as [|x xs (H0 & Hle & Hex)].
  { split; [done|]. split; [by intros x ?%not_elem_of_nil|by left]. }
  cbn [max_rank foldr]. fold (max_rank p xs j). set (r := max_rank p xs j) in *. case_bool_decide as E.
  - split; [lia|]. split.
    + intros y [->|Hy]%elem_of_cons Ey; [lia|]. specialize (Hle y Hy Ey). lia.
    + destruct (decide (r ≤ rank p (hash_for_hll x))).
      * right. exists x. split; [by left|]. split; [done|]. lia.
      * rewrite Z.max_r by lia. destruct Hex as [?|(y & ? & ? & ?)]; [by left|]. right. exists y. split; [by right|done].
  - split; [done|]. split.
    + intros y [->|Hy]%elem_of_cons Ey; [done|]. by apply Hle.
    + destruct Hex as [?|(y & ? & ? & ?)]; [by left|]. right. exists y. split; [by right|done].
Qed.

(** It depends on the set of items only. *)
Lemma max_rank_set p xs ys j : (∀ x, x ∈ xs ↔ x ∈ ys) → max_rank p xs j = max_rank p ys j.
Proof.
  assert (∀ xs ys, (∀ x, x ∈ xs → x ∈ ys) → max_rank p xs j ≤ max_rank p ys j) as H.
  { intros l k Hlk. destruct (max_rank_spec p l j) as (_ & _ & [E|(x & Hx & Ex & <-)]).
    - destruct (max_rank_spec p k j). lia.
    - destruct (max_rank_spec p k j) as (_ & Hk & _). apply Hk; auto. }
  intros E. apply Z.le_antisymm; apply H; apply E.
Qed.

(** A handle after inserts of [xs]. *)
Definition holds (p : Z) (xs : list item) (s : SharedHyperLogLog) : Prop :=
  precision s = p ∧ m s = Z.shiftl 1 p ∧ registers s = max_rank p xs <$> seq 0 (Z.to_nat (Z.shiftl 1 p)).

Lemma insert_holds p xs x s :
  MIN_PRECISION ≤ p ≤ MAX_PRECISION → holds p xs s → ∃ s', hll_insert s x = Some s' ∧ holds p (x :: xs) s'.
Proof.
  unfold MIN_PRECISION, MAX_PRECISION. intros Hp (E1 & E2 & E3). unfold hll_insert. rewrite E1, E3.
  pose proof (reg_idx_bound p (hash_for_hll x) ltac:(lia) (hash_for_hll_word x)) as Hj.
  set (j := reg_idx p (hash_for_hll x)) in *. unfold rmw. rewrite list_lookup_fmap, lookup_seq_lt by done. cbn.
  eexists. split; [done|]. split; [done|]. split; [done|]. cbn [registers]. apply list_eq. intros i.
  destruct (decide (i < Z.to_nat (Z.shiftl 1 p))%nat) as [Hi|Hi].
  - rewrite (list_lookup_fmap (max_rank p (x :: xs))), (lookup_seq_lt 0 _ i) by done. cbn [fmap option_fmap option_map].
    cbn [max_rank foldr]. fold j. change (foldr _ 0 xs) with (max_rank p xs (0 + i)).
    destruct (decide (i = j)) as [->|Hne].
    + rewrite list_lookup_insert_eq by len. rewrite bool_decide_eq_true_2 by done. f_equal. cbn. lia.
    + rewrite list_lookup_insert_ne, list_lookup_fmap, lookup_seq_lt by done.
      by rewrite bool_decide_eq_false_2 by (cbn; congruence).
  - rewrite !lookup_ge_None_2; [done|len|len].
Qed.

Lemma inserts_hold p ys xs s :
  MIN_PRECISION ≤ p ≤ MAX_PRECISION → holds p ys s →
  ∃ s', hll_inserts s xs = Some s' ∧ holds p (reverse xs ++ ys) s'.
Proof.
  intros Hp. revert ys s. induction xs as [|x xs IH]; intros ys s Hs; cbn [hll_inserts]; [by eauto|].
  destruct (insert_holds p ys x s Hp Hs) as (s1 & E1 & H1). rewrite E1. cbn [mbind option_bind].
  destruct (IH _ _ H1) as (s2 & E2 & H2). exists s2. split; [done|].
  by rewrite reverse_cons, <- (assoc_L (++)).
Qed.

Lemma create_holds p :
  MIN_PRECISION ≤ p ≤ MAX_PRECISION → ∃ s, hll_create p = Ok s ∧ holds p [] s.
Proof.
  intros Hp. unfold hll_create. rewrite (proj2 (Z.leb_le _ _) (proj1 Hp)), (proj2 (Z.leb_le _ _) (proj2 Hp)).
  cbn [andb negb]. unfold hll_from_region. cbn [hll_init_region fst snd hll_magic hdr_precision hdr_m].
  rewrite !Z.eqb_refl. cbn [negb orb]. eexists. split; [done|]. split; [done|]. split; [done|].
  cbn [registers]. apply list_eq. intros i. rewrite list_lookup_fmap.
  destruct (decide (i < Z.to_nat (Z.shiftl 1 p))%nat).
  - by rewrite lookup_seq_lt, lookup_replicate_2.
  - rewrite lookup_seq_ge by lia. apply lookup_replicate_None. lia.
Qed.

(** * The registers and the set *)

(** A HyperLogLog keeps a function of the set of items. At every legal
    precision, the inserts of a list of items into a fresh estimator all fall
    in its registers, leave in each register the greatest rank of the items
    that choose it, and so leave the same registers as the inserts of any
    other list with the same items, in any order and with any repetitions. *)
Lemma hll_is_set p xs ys :
  MIN_PRECISION ≤ p ≤ MAX_PRECISION → (∀ x, x ∈ xs ↔ x ∈ ys) →
  ∃ s s', hll_create p = Ok s ∧ hll_inserts s xs = Some s' ∧ hll_inserts s ys = Some s' ∧
    ∀ j, (j < Z.to_nat (m s'))%nat → registers s' !! j = Some (max_rank p xs j).
Proof.
  intros Hp Hxy. destruct (create_holds p Hp) as (s & E & Hs). exists s.
  destruct (inserts_hold p [] xs s Hp Hs) as (s1 & E1 & P1 & M1 & R1).
  destruct (inserts_hold p [] ys s Hp Hs) as (s2 & E2 & P2 & M2 & R2). rewrite app_nil_r in R1, R2.
  assert (s2 = s1) as ->.
  { destruct s1, s2; cbn in *. f_equal; [congruence..|]. rewrite R1, R2. apply list_fmap_ext. intros _ j _.
    apply max_rank_set. intros x. rewrite !elem_of_reverse. symmetry. apply Hxy. }
  exists s1. split; [done|]. split; [done|]. split; [done|]. intros j Hj. rewrite M1 in Hj.
  rewrite R1, list_lookup_fmap, lookup_seq_lt by done. cbn. f_equal. apply max_rank_set. intros x. apply elem_of_reverse.
Qed.

Lemma hll_is_set_example :
  ∃ s s', hll_create 4 = Ok s ∧ hll_inserts s [[97]; [98]; [97]] = Some s' ∧ hll_inserts s [[98]; [97]] = Some s' ∧
    ∀ j, (j < Z.to_nat (m s'))%nat → registers s' !! j = Some (max_rank 4 [[97]; [98]; [97]] j).
Proof. apply (hll_is_set 4 [[97]; [98]; [97]] [[98]; [97]]); [done|]. intros x. rewrite !elem_of_cons. tauto. Qed.
